(* ===== verification/_CoqProject ===== *)
-Q . S2P
Prelude.v
LuaOpcodes.v
LuaObject.v
LuaNumber.v
LuaTable.v
LuaTableWf.v
LuaTableSet.v
LuaTableRehash.v
LuaTableResize.v
LuaTableSpec.v
LuaTableIter.v
LuaTableLen.v
LuaString.v
LuaStringSpec.v
LuaHeap.v
LuaMark.v
LuaGc.v
LuaMarkWf.v
LuaMarkSpec.v
LuaTraverse.v
LuaOwn.v
LuaFinalize.v
LuaAtomic.v
LuaUnlink.v
LuaClose.v
LuaSweep.v
LuaCycle.v
LuaCollect.v
LuaGcSpec.v
LuaProto.v
LuaCode.v
LuaCodeWf.v
LuaCodeSpec.v
LuaDebug.v
LuaZio.v
LuaDump.v
LuaUndump.v
LuaStrMatch.v
LuaStrSpec.v
LuaStrRefine.v
LuaStrLib.v
LuaLex.v
LuaLexSpec.v
LuaTabLib.v
LuaTabSort.v
CamlMemory.v
CamlFreelist.v
CamlFreelistOk.v
CamlFreelistSpec.v
CamlRoots.v
CamlRootsSpec.v
CamlTables.v
CamlLexing.v
CamlLexingSpec.v
CamlParsing.v
CamlParsingSpec.v
CamlValues.v
CamlTrees.v
CamlCompare.v
CamlHash.v
CamlOrder.v
CamlCompareSpec.v
CamlHashSpec.v
CamlInts.v
CamlIntsSpec.v
CamlPolymorphic.v
CamlMd5.v
CamlIntext.v
CamlIntextOk.v
CamlStr.v
CamlStrSpec.v
CamlExtern.v
CamlGraph.v
CamlExternOk.v
CamlExternRun.v
CamlIntern.v
CamlInternOk.v
CamlInternRec.v
CamlMarshal.v
CamlMarshalStr.v
