(* ===== verification/Prelude.v ===== *)
(** * The engines of multi-script, verified

    multi-script binds several scripting engines to one C++ interface.  The
    engines are whole programs kept in its tree; this development is about the
    two written in C: Lua 5.1.1 (src/lua/src) and the byte-code runtime of
    OCaml 3.10 (src/ocaml/byterun).  The C++ layer (src/multiscript) forwards
    calls to the engines and has no logic of its own.

    ** Parts and files

    Lua.  The lexer reads tokens from a buffered stream; the compiler turns them
    into a function prototype; luac can write prototypes to a file and the
    loader reads them back; the loader gives every prototype to the verifier,
    because the machine does not check the instructions it runs.  Tables are the
    only data structure of the language, also used by the compiler for
    constants.
    - LuaOpcodes: instruction words (lopcodes.h, lopcodes.c).
    - LuaObject: luaO_int2fb, luaO_log2, luaO_chunkid (lobject.c).
    - LuaNumber: the class [LuaNumber] of the number type, as luaconf.h lets it
      be replaced, with the instance for IEEE double.
    - LuaTable (code of ltable.c), LuaTableWf, LuaTableSet, LuaTableRehash,
      LuaTableResize, LuaTableIter, LuaTableLen (invariants and lemmas),
      LuaTableSpec (a table is a finite map).
    - LuaProto (Proto of lobject.h), LuaDebug (verifier, ldebug.c), LuaZio
      (lzio.c), LuaDump (ldump.c), LuaUndump (lundump.c).
    - LuaLex (llex.c, luaO_str2d of lobject.c), LuaLexSpec (a scanner on
      sequences of bytes, the lexer against it, theorems).
    - LuaCode (lcode.c), LuaCodeWf (jump lists, invariant), LuaCodeSpec
      (theorems).
    - LuaString (the string table, lstring.c), LuaStringSpec (interning).
    - The collector.  LuaHeap (objects, marks, metatables: lobject.h, lstate.h,
      ltm.c), LuaMark (marking and barriers of lgc.c, upvalues of lfunc.c),
      LuaGc (atomic step, sweep, finalizers, the steps of a cycle) are the code.
      LuaMarkWf (colours, references, well-formed bodies, the invariant of
      marking), LuaMarkSpec, LuaTraverse (marking keeps it, each object type),
      LuaOwn (the lists that own the objects, the open upvalues), LuaFinalize,
      LuaAtomic (weak tables, the atomic step), LuaUnlink, LuaClose (objects
      leave lists, upvalues are closed), LuaSweep (sweeping), LuaCycle, LuaCollect
      (the states of a cycle and its steps, finalizers) are the proof, LuaGcSpec
      the theorems.
    - LuaStrMatch (matcher of lstrlib.c), LuaStrSpec (memory safety, meaning of
      patterns), LuaStrRefine (the matcher against it), LuaStrLib (find, match,
      gmatch, gsub, the plain functions, %q of format).
    - LuaTabLib (ltablib.c), LuaTabSort (table.sort).

    OCaml.  ocamllex and ocamlyacc produce tables that the runtime
    interprets; the major heap allocates from a free list; values are compared
    and hashed by their structure, and written and read as sequences of bytes.
    - CamlMemory (words at addresses, the headers of blocks).
    - CamlFreelist (freelist.c), CamlFreelistOk (invariant, allocation,
      insertion), CamlFreelistSpec (theorems).
    - CamlTables (16-bit tables), CamlLexing (lexing.c), CamlLexingSpec,
      CamlParsing (parsing.c), CamlParsingSpec.
    - CamlRoots, CamlRootsSpec (the skip list of globroots.c).
    - CamlValues (values, blocks, custom blocks), CamlTrees (a value as a
      tree), CamlCompare (compare.c), CamlHash (hash.c), CamlOrder (the order
      of trees), CamlCompareSpec, CamlHashSpec; CamlInts, CamlIntsSpec (ints.c);
      CamlPolymorphic (comparison and hashing with those custom blocks).
    - CamlMd5 (md5.c).
    - CamlStr (str.c, caml_alloc_string), CamlStrSpec (strings as sequences of
      bytes, theorem).
    - CamlIntext (intext.h, the serializers of ints.c and custom.c),
      CamlIntextOk (lemmas on headers, bytes and words), CamlExtern (extern.c),
      CamlGraph (graphs of values, their encoding), CamlExternOk, CamlExternRun
      (output writes the encoding and restores the heap), CamlIntern (intern.c),
      CamlInternOk, CamlInternRec (input of an encoding builds a copy),
      CamlMarshal, CamlMarshalStr (theorems: buffers and channels, strings).

    A file named after a component defines its data and operations with the
    names of the source; a part of a C function that is a definition of its own
    (the body of a loop, a case of a switch) has a name of its own.

    ** Conventions

    A C function that can raise returns [res]: [Ok], [Err] with the message, or
    [Timeout].  A loop is [loop n body s] (this file) with the bound [n] given
    by the definition; [Timeout] is what the bound reached gives, and the rule
    [ends_loop] proves that it is not.  The bounds are: the width of the
    argument (LuaObject), the number of nodes or 64 doublings (tables), the
    length of the code (verifier, jump lists), the square of subject and
    pattern lengths or less (matcher), the size of the range (free list), the
    length of buffer and tables (lexing), a measure of the stacks (parsing),
    the number of strings (string table), levels and memory (skip list), the
    sizes of the trees (comparison, hashing), three times the words of the heap
    and four (output of values), the length of the data and one (input).  The
    bound of the lexer's loops is an argument, which the theorems want larger
    than the chunk.  In the collector every loop has
    the size of the heap as its bound, a cycle four times that and the number
    of chains; marking recurses three deep (an upvalue or userdata, what it
    refers to, the table of that) and sweeping two (a thread, its upvalues).
    Every theorem that says [ends] excludes [Timeout], and so proves the bound
    enough.  Machine integers are [Z], with [u32], [s32], [u8] and the like
    where they can wrap (signed arithmetic wraps as well); the memory manager
    gives new addresses.  A read outside an array is an [Err] that the theorems
    exclude.

    ** Interfaces

    [LuaNumber] (LuaNumber): numbers as table keys; tables and constants are
    proved against it.  [NumArith] (LuaCode): arithmetic for constant folding.
    [NumberRep] (LuaDump): the bytes of a number; dump and undump are proved
    against it.  [ByteSource] (LuaZio): what the loader asks of its input; the
    streams discharge it, so the loader is correct for every lua_Reader.
    [CustomOps] (CamlValues) and its laws [CustomLaws] (CamlOrder): the
    operations of custom blocks; comparison and hashing are proved against
    them, and the boxed integers discharge them (CamlIntsSpec).
    [CustomMarshal] (CamlIntext) and its laws [MarshalLaws] (CamlGraph): the
    serializers of custom blocks, discharged by the boxed integers.
    [Allocator] (CamlStr) and its laws [AllocatorLaws] (CamlStrSpec): new blocks
    are apart from the others; an allocator that only goes up discharges them.
    [NumberText] (LuaLex): strtod and strtoul of the C library, with no laws.  In
    the collector the call of a finalizer, which runs the machine, is a
    parameter; [finalizer_ok] (LuaCollect) says what is asked of it.

    ** What the theorems show

    - Tables: any sequence of assignments represents the finite map it denotes
      (rehash, resize and Brent's variation included); traversal visits every
      entry once; the length is a border; rehash chooses the best array size.
    - Verifier: an accepted function has operands in range and successors
      inside the code at every instruction that was scanned; the verifier
      itself stays inside the function and ends.
    - Chunks: loading what was written gives the function back; on any input
      the loader ends, with an error or with verified functions.
    - Lexer: on every chunk, cut into blocks in any way, the tokens, values,
      lines and errors are those of a scanner that sees the whole chunk; what
      luaX_token2str and %q of string.format write is read back; a look ahead
      changes nothing.
    - Strings are interned: equal bytes, equal address, whatever was resized.
    - Collector: a step from any state returns, frees no object that can be
      reached and leaves no dangling pointer; a sweep frees exactly the dead; a
      full collection comes to the pause; the write barrier keeps the colours.
      The chain of the proof is: marking keeps [marking]; after the atomic step
      live objects refer to live objects only ([sweeping]); objects leave and
      enter their lists in order ([inner], [outer]); each phase then leads to
      the next ([collecting]).
    - Code generator: jumps that are patched lead where they should, and
      nothing else changes; constants are interned; any sequence of operations
      keeps the state well formed, with a frame that fits its byte.
    - Patterns: the matcher returns the first match of a reference semantics,
      for every pattern that the manual gives a meaning to, and ends inside its
      strings on all others; find, match and gsub on top of it.
    - table.sort ends with a sorted permutation; insert and remove are inverse.
    - Free list: allocation gives out free words once; merging coalesces and
      loses nothing; extension keeps address order.
    - Lexing finds the longest word of the automaton, refills are transparent,
      and the engine with a memory agrees with the one without; in a parsing
      session the stacks are a path of the LR automaton with the attributes of
      derivations, and every call ends.
    - Structural comparison decides a total preorder with the rules for nan,
      and equal values have equal hashes; integers are parsed and printed
      without loss, and what is parsed is what the digits denote; the global
      roots are a set.
    - Marshalling: reading what was written gives an isomorphic copy, with the
      sharing and the cycles, or the exception has a cause; output leaves the
      heap as it was even when it fails; a channel keeps the order of values;
      the same through an OCaml string.  Every function of str.c does what its
      operation on sequences of bytes does, errors and overlaps included.
    - MD5: streaming and the unrolled rounds equal RFC 1321.

    ** Assumptions

    64-bit little-endian machine with 32-bit int; C locale; strings below 2 GB;
    allocation succeeds; numbers satisfy the laws of [LuaNumber] (proved for
    IEEE double).  Debug-only code and assertions are compiled out.

    ** Not modelled

    The Lua parser (a recursive descent that drives the generator modelled
    here), the virtual machine and the C API; string.format but for %q, and
    strtod, which depend on the C library; the OCaml interpreter and collector,
    which work on raw memory; arrays and weak pointers of OCaml, whose stores go
    through the barrier of that collector, and caml_is_printable, which asks the
    C library about the locale.  A decimal
    point other than the dot is in the model of the lexer and outside its
    theorems.  That marking reaches only what the roots reach is not proved (the
    theorems say that what is reached is kept).  Squirrel and GameMonkey are C++
    programs of their own, of which nothing is modelled.

    This file: the error monad, C integers at their width, byte strings, the
    loop combinator with its total-correctness rule, and the tactics and hint
    databases of the components. *)
From stdpp Require Import base tactics list numbers.
From Stdlib Require Import ZArith Lia Ascii.
From Stdlib Require String.
Export String.StringSyntax.
Abbreviation string := String.string.
Bind Scope string_scope with String.string.

Declare Scope c_scope.
Delimit Scope c_scope with C.

(** * Outcome of a C function

    [Ok a]: the function returns; [Err m]: it leaves through the error
    mechanism of its runtime (luaL_error, luaG_runerror, caml_failwith, ...)
    with message [m]; [Timeout]: the bound given to a loop was too small. *)
Inductive res (A : Type) : Type :=
  | Ok (a : A)
  | Err (msg : string)
  | Timeout.
Arguments Ok {A} a.
Arguments Err {A} msg.
Arguments Timeout {A}.

Definition bind {A B} (m : res A) (k : A -> res B) : res B :=
  match m with
  | Ok a => k a
  | Err e => Err e
  | Timeout => Timeout
  end.

Notation "x <- m ; k" := (bind m (fun x => k))
  (at level 20, m at level 100, k at level 200) : c_scope.
Notation "' pat <- m ; k" := (bind m (fun x => match x with pat => k end))
  (at level 20, pat pattern, m at level 100, k at level 200) : c_scope.
Open Scope c_scope.

Definition is_ok {A} (m : res A) : Prop := exists a, m = Ok a.

Lemma bind_Ok {A B} (m : res A) (k : A -> res B) b :
  bind m k = Ok b <-> exists a, m = Ok a /\ k a = Ok b.
Proof.
  destruct m; cbn; split; try done; [by eauto|intros (? & [= ->] & ?); done|..];
    intros (? & [=] & ?).
Qed.

Lemma bind_ret {A} (m : res A) : bind m Ok = m.
Proof. by destruct m. Qed.

Lemma bind_bind {A B C} (m : res A) (f : A -> res B) (g : B -> res C) : bind (bind m f) g = bind m (fun x => bind (f x) g).
Proof. by destruct m. Qed.

(** [lift o m] turns the C idiom "pointer or NULL" into the error monad. *)
Definition lift {A} (o : option A) (msg : string) : res A :=
  match o with Some a => Ok a | None => Err msg end.

(** * Bounded loops

    [loop n body s] runs [body] at most [n] times: [inl] continues, [inr]
    leaves the loop. *)
Fixpoint loop {S R : Type} (n : nat) (body : S -> res (S + R)) (s : S) : res R :=
  match n with
  | O => Timeout
  | Datatypes.S n' =>
      r <- body s;
      match r with
      | inl s' => loop n' body s'
      | inr r => Ok r
      end
  end.

(** Total correctness: an invariant, a measure that decreases, a result. *)
Lemma loop_total {S R : Type} (I : S -> Prop) (m : S -> nat) (Q : R -> Prop)
    (body : S -> res (S + R)) (s : S) (n : nat) :
  (forall s, I s -> match body s with
                 | Ok (inl s') => I s' /\ m s' < m s
                 | Ok (inr r) => Q r
                 | _ => False
                 end) ->
  I s -> m s < n ->
  exists r, loop n body s = Ok r /\ Q r.
Proof.
  intros Hb. revert s. induction n as [|n IH]; intros s HI Hm; [lia|].
  specialize (Hb s HI) as Hs. cbn.
  destruct (body s) as [[s'|r]| |]; try contradiction; cbn.
  - apply IH; [tauto|lia].
  - eauto.
Qed.

(** Partial correctness, for loops whose bound is not at stake. *)
Lemma loop_partial {S R : Type} (I : S -> Prop) (Q : R -> Prop)
    (body : S -> res (S + R)) (s : S) (n : nat) (r : R) :
  (forall s, I s -> match body s with
                 | Ok (inl s') => I s'
                 | Ok (inr r) => Q r
                 | _ => True
                 end) ->
  I s -> loop n body s = Ok r -> Q r.
Proof.
  intros Hb. revert s. induction n as [|n IH]; intros s HI; cbn; [done|].
  specialize (Hb s HI) as Hs.
  destruct (body s) as [[s'|r']| |]; cbn; try done; naive_solver.
Qed.

(** [ends may P m]: [m] returns a value in [P] or raises an error in [may];
    in particular it does not run out of fuel. *)
Definition ends (may : string -> Prop) {A} (P : A -> Prop) (m : res A) : Prop :=
  match m with
  | Ok a => P a
  | Err e => may e
  | Timeout => False
  end.

Lemma ends_bind may {A B} (P : A -> Prop) (Q : B -> Prop) m (k : A -> res B) :
  ends may P m -> (forall a, P a -> ends may Q (k a)) -> ends may Q (bind m k).
Proof. intros Hm Hk. destruct m; cbn in *; auto. Qed.

Lemma ends_weaken may {A} (P Q : A -> Prop) m :
  ends may P m -> (forall a, P a -> Q a) -> ends may Q m.
Proof. intros Hm HQ. destruct m; cbn in *; auto. Qed.

Lemma ends_loop may {S R : Type} (I : S -> Prop) (m : S -> nat) (Q : R -> Prop)
    (body : S -> res (S + R)) (s : S) (n : nat) :
  (forall s, I s -> ends may (fun r => match r with
                                       | inl s' => I s' /\ m s' < m s
                                       | inr r => Q r
                                       end) (body s)) ->
  I s -> m s < n -> ends may Q (loop n body s).
Proof.
  intros Hb. revert s. induction n as [|n IH]; intros s HI Hm; [lia|]. cbn [loop].
  apply (ends_bind _ _ _ _ _ (Hb s HI)). intros [s'|r]; [|done]. intros [Hs' Hlt].
  apply IH; [done|lia].
Qed.

(** More fuel does not change a result. *)
Lemma loop_mono {S R : Type} (body : S -> res (S + R)) n n' s r :
  n <= n' -> loop n body s = Ok r -> loop n' body s = Ok r.
Proof.
  revert n' s. induction n as [|n IH]; intros n' s Hn; cbn; [done|].
  destruct n' as [|n']; [lia|]. cbn.
  destruct (body s) as [[s'|r']| |]; cbn; try done. apply IH; lia.
Qed.

(** * C integers

    A C integer is a [Z]; the wrap-around of its type is written where the
    source computes at that type. *)
Module CInt.
Open Scope Z_scope.

Definition wrap (w x : Z) : Z := x mod 2 ^ w.
Definition swrap (w x : Z) : Z := (x + 2 ^ (w - 1)) mod 2 ^ w - 2 ^ (w - 1).

Abbreviation u8 := (wrap 8).
Abbreviation u32 := (wrap 32).
Abbreviation u64 := (wrap 64).
Abbreviation s32 := (swrap 32).
Abbreviation s64 := (swrap 64).

Definition in_u (w x : Z) : Prop := 0 <= x < 2 ^ w.
Definition in_s (w x : Z) : Prop := - 2 ^ (w - 1) <= x < 2 ^ (w - 1).

Lemma wrap_range w x : 0 <= w -> 0 <= wrap w x < 2 ^ w.
Proof. intros. apply Z.mod_pos_bound, Z.pow_pos_nonneg; lia. Qed.

Lemma wrap_small w x : 0 <= x < 2 ^ w -> wrap w x = x.
Proof. apply Z.mod_small. Qed.

Lemma pow2_half w : 0 < w -> 2 ^ w = 2 * 2 ^ (w - 1).
Proof.
  intros. replace w with (Z.succ (w - 1)) at 1 by lia.
  rewrite Z.pow_succ_r by lia. reflexivity.
Qed.

Lemma swrap_range w x : 0 < w -> - 2 ^ (w - 1) <= swrap w x < 2 ^ (w - 1).
Proof.
  intros. unfold swrap.
  pose proof (Z.mod_pos_bound (x + 2 ^ (w - 1)) (2 ^ w)) as Hm.
  pose proof (pow2_half w ltac:(lia)) as Hp.
  assert (0 < 2 ^ (w - 1)) by (apply Z.pow_pos_nonneg; lia). lia.
Qed.

Lemma swrap_small w x : 0 < w -> - 2 ^ (w - 1) <= x < 2 ^ (w - 1) -> swrap w x = x.
Proof.
  intros Hw Hx. unfold swrap. rewrite Z.mod_small; [lia|].
  rewrite (pow2_half w) by lia. lia.
Qed.

Lemma wrap_add_l w x y : wrap w (wrap w x + y) = wrap w (x + y).
Proof. unfold wrap. apply Zplus_mod_idemp_l. Qed.

Lemma wrap_add_r w x y : wrap w (x + wrap w y) = wrap w (x + y).
Proof. unfold wrap. apply Zplus_mod_idemp_r. Qed.

Lemma wrap_mod_idemp w x : 0 <= w -> wrap w (wrap w x) = wrap w x.
Proof.
  intros. unfold wrap. apply Z.mod_mod. pose proof (Z.pow_pos_nonneg 2 w). lia.
Qed.

(** Signed and unsigned readings of the same bits agree modulo [2^w]. *)
Lemma swrap_wrap w x : 0 < w -> swrap w (wrap w x) = swrap w x.
Proof.
  intros. unfold swrap, wrap. now rewrite Zplus_mod_idemp_l.
Qed.

Lemma wrap_swrap w x : 0 < w -> wrap w (swrap w x) = wrap w x.
Proof.
  intros. unfold swrap, wrap. rewrite Zminus_mod_idemp_l. f_equal. lia.
Qed.
End CInt.
Export CInt.

(** * Lists: insertion and deletion at an index *)
Section ListInsert.
Context {A : Type}.
Implicit Types (l : list A) (v : A).

Definition inserted l (n : nat) (v : A) : list A := take n l ++ v :: drop n l.

Lemma inserted_get l n v k :
  (n <= length l)%nat ->
  inserted l n v !! k = if decide (k = n) then Some v else if decide (k < n)%nat then l !! k else l !! (k - 1)%nat.
Proof.
  intros Hn. unfold inserted. destruct (decide (k < n)%nat) as [Hk|Hk].
  - rewrite lookup_app_l by (rewrite length_take; lia). rewrite lookup_take_lt by done. case_decide; [lia|done].
  - rewrite lookup_app_r by (rewrite length_take; lia). rewrite length_take, Nat.min_l by lia.
    case_decide as E; [by rewrite E, Nat.sub_diag|]. destruct (k - n)%nat as [|m] eqn:Em; [lia|].
    change ((v :: drop n l) !! S m) with (drop n l !! m). rewrite lookup_drop. f_equal. lia.
Qed.

Lemma delete_inserted l n v : (n <= length l)%nat -> delete n (inserted l n v) = l.
Proof.
  intros Hn. apply list_eq. intros k. destruct (decide (k < n)%nat).
  - rewrite list_lookup_delete_lt, inserted_get by lia. repeat case_decide; try lia. done.
  - rewrite list_lookup_delete_ge, inserted_get by lia. repeat case_decide; try lia. f_equal. lia.
Qed.
End ListInsert.

(** A relation of two lists may be shown knowing that the elements are of them. *)
Lemma Forall2_within {A B} (P Q : A -> B -> Prop) (xs : list A) (ys : list B) :
  Forall2 P xs ys -> (forall x y, y ∈ ys -> P x y -> Q x y) -> Forall2 Q xs ys.
Proof.
  intros H. induction H as [|x y xs ys Hxy H IH]; intros HPQ; constructor; [by apply HPQ; [left|]|].
  apply IH. intros ???. apply HPQ. by right.
Qed.

(** * Bytes and C strings *)
Abbreviation bytes := (list Z).

Definition is_byte (b : Z) : Prop := (0 <= b < 256)%Z.

Lemma u8_byte b : is_byte b -> u8 b = b.
Proof. intros. by apply wrap_small. Qed.

(** The bytes of a string literal. *)
Fixpoint lit (s : string) : bytes :=
  match s with
  | String.EmptyString => []
  | String.String c s' => Z.of_nat (nat_of_ascii c) :: lit s'
  end.

Lemma lit_byte s : Forall is_byte (lit s).
Proof.
  induction s as [|c s IH]; constructor; [|done].
  pose proof (nat_ascii_bounded c). unfold is_byte. lia.
Qed.

(** Little-endian representation of an unsigned integer in [n] bytes. *)
Fixpoint le_bytes (n : nat) (x : Z) : bytes :=
  match n with
  | O => []
  | S n' => (x mod 256)%Z :: le_bytes n' (x / 256)%Z
  end.
Fixpoint le_value (b : bytes) : Z :=
  match b with
  | [] => 0%Z
  | c :: b' => (c + 256 * le_value b')%Z
  end.

Lemma length_le_bytes n x : length (le_bytes n x) = n.
Proof. revert x. induction n as [|n IH]; intros x; cbn; [done|]. by rewrite IH. Qed.

Lemma le_bytes_byte n x : Forall is_byte (le_bytes n x).
Proof.
  revert x. induction n as [|n IH]; intros x; constructor; [|apply IH].
  unfold is_byte. pose proof (Z.mod_pos_bound x 256). lia.
Qed.

Lemma le_value_bytes n x : le_value (le_bytes n x) = (x mod 2 ^ (8 * Z.of_nat n))%Z.
Proof.
  revert x. induction n as [|n IH]; intros x; cbn [le_bytes le_value]; [by rewrite Z.mod_1_r|].
  rewrite IH. replace (8 * Z.of_nat (S n))%Z with (8 + 8 * Z.of_nat n)%Z by lia.
  rewrite Z.pow_add_r by lia. change (2 ^ 8)%Z with 256%Z.
  rewrite Z.rem_mul_r by (try apply Z.pow_nonzero; lia). lia.
Qed.

(** * Automation *)

(** Case analysis on a boolean test of the code, with its meaning. *)
Ltac zbool :=
  repeat match goal with
  | H : (_ && _)%bool = true |- _ => apply andb_true_iff in H as [? ?]
  | H : (_ || _)%bool = false |- _ => apply orb_false_iff in H as [? ?]
  | H : negb _ = true |- _ => apply negb_true_iff in H
  | H : negb _ = false |- _ => apply negb_false_iff in H
  | H : (_ =? _)%Z = true |- _ => apply Z.eqb_eq in H
  | H : (_ =? _)%Z = false |- _ => apply Z.eqb_neq in H
  | H : (_ <? _)%Z = true |- _ => apply Z.ltb_lt in H
  | H : (_ <? _)%Z = false |- _ => apply Z.ltb_ge in H
  | H : (_ <=? _)%Z = true |- _ => apply Z.leb_le in H
  | H : (_ <=? _)%Z = false |- _ => apply Z.leb_gt in H
  end.

Tactic Notation "case_zbool" constr(b) :=
  let E := fresh "E" in destruct b eqn:E; zbool.

Create HintDb cdev discriminated.
#[export] Hint Resolve wrap_range swrap_range : cdev.
