(* ===== verification/LuaOpcodes.v ===== *)
(** Instruction words of the Lua virtual machine (lua/src/lopcodes.h) and the
    table of instruction properties (lua/src/lopcodes.c).

    An [Instruction] is an unsigned 32-bit integer, here a [Z] with every
    macro's wrap-around written out; the macros keep their names.  The theorems
    show that the field macros are the projections and updates of a record of
    four fields: what an update writes is read back, the other fields are
    untouched, and a word is determined by its fields. *)
From stdpp Require Import base list.
From Stdlib Require Import ZArith Lia.
From S2P Require Import Prelude.
Open Scope Z_scope.

Definition SIZE_C := 9.
Definition SIZE_B := 9.
Definition SIZE_Bx := SIZE_C + SIZE_B.
Definition SIZE_A := 8.
Definition SIZE_OP := 6.
Definition POS_OP := 0.
Definition POS_A := POS_OP + SIZE_OP.
Definition POS_C := POS_A + SIZE_A.
Definition POS_B := POS_C + SIZE_C.
Definition POS_Bx := POS_C.

Definition MAXARG_Bx := Z.shiftl 1 SIZE_Bx - 1.
Definition MAXARG_sBx := Z.shiftr MAXARG_Bx 1.
Definition MAXARG_A := Z.shiftl 1 SIZE_A - 1.
Definition MAXARG_B := Z.shiftl 1 SIZE_B - 1.
Definition MAXARG_C := Z.shiftl 1 SIZE_C - 1.

(** [~x] and [x << n] at type Instruction. *)
Definition not32 (x : Z) : Z := u32 (Z.lnot x).
Definition shl32 (x n : Z) : Z := u32 (Z.shiftl x n).

Definition MASK1 (n p : Z) : Z := shl32 (not32 (shl32 (not32 0) n)) p.
Definition MASK0 (n p : Z) : Z := not32 (MASK1 n p).

Definition GET_OPCODE (i : Z) : Z := Z.land (Z.shiftr i POS_OP) (MASK1 SIZE_OP 0).
Definition SET_OPCODE (i o : Z) : Z :=
  Z.lor (Z.land i (MASK0 SIZE_OP POS_OP)) (Z.land (shl32 (u32 o) POS_OP) (MASK1 SIZE_OP POS_OP)).

Definition GETARG_A (i : Z) : Z := Z.land (Z.shiftr i POS_A) (MASK1 SIZE_A 0).
Definition SETARG_A (i u : Z) : Z :=
  Z.lor (Z.land i (MASK0 SIZE_A POS_A)) (Z.land (shl32 (u32 u) POS_A) (MASK1 SIZE_A POS_A)).

Definition GETARG_B (i : Z) : Z := Z.land (Z.shiftr i POS_B) (MASK1 SIZE_B 0).
Definition SETARG_B (i b : Z) : Z :=
  Z.lor (Z.land i (MASK0 SIZE_B POS_B)) (Z.land (shl32 (u32 b) POS_B) (MASK1 SIZE_B POS_B)).

Definition GETARG_C (i : Z) : Z := Z.land (Z.shiftr i POS_C) (MASK1 SIZE_C 0).
Definition SETARG_C (i b : Z) : Z :=
  Z.lor (Z.land i (MASK0 SIZE_C POS_C)) (Z.land (shl32 (u32 b) POS_C) (MASK1 SIZE_C POS_C)).

Definition GETARG_Bx (i : Z) : Z := Z.land (Z.shiftr i POS_Bx) (MASK1 SIZE_Bx 0).
Definition SETARG_Bx (i b : Z) : Z :=
  Z.lor (Z.land i (MASK0 SIZE_Bx POS_Bx)) (Z.land (shl32 (u32 b) POS_Bx) (MASK1 SIZE_Bx POS_Bx)).

Definition GETARG_sBx (i : Z) : Z := GETARG_Bx i - MAXARG_sBx.
Definition SETARG_sBx (i b : Z) : Z := SETARG_Bx i (u32 (b + MAXARG_sBx)).

Definition CREATE_ABC (o a b c : Z) : Z :=
  Z.lor (Z.lor (Z.lor (shl32 (u32 o) POS_OP) (shl32 (u32 a) POS_A)) (shl32 (u32 b) POS_B))
        (shl32 (u32 c) POS_C).
Definition CREATE_ABx (o a bc : Z) : Z :=
  Z.lor (Z.lor (shl32 (u32 o) POS_OP) (shl32 (u32 a) POS_A)) (shl32 (u32 bc) POS_Bx).

(** RK operands: bit 8 says "constant". *)
Definition BITRK := Z.shiftl 1 (SIZE_B - 1).
Definition ISK (x : Z) : bool := negb (Z.land x BITRK =? 0).
Definition INDEXK (r : Z) : Z := Z.land r (Z.lnot BITRK).
Definition MAXINDEXRK := BITRK - 1.
Definition RKASK (x : Z) : Z := Z.lor x BITRK.
Definition NO_REG := MAXARG_A.

Inductive OpCode : Type :=
  | OP_MOVE | OP_LOADK | OP_LOADBOOL | OP_LOADNIL | OP_GETUPVAL
  | OP_GETGLOBAL | OP_GETTABLE | OP_SETGLOBAL | OP_SETUPVAL | OP_SETTABLE
  | OP_NEWTABLE | OP_SELF | OP_ADD | OP_SUB | OP_MUL | OP_DIV | OP_MOD
  | OP_POW | OP_UNM | OP_NOT | OP_LEN | OP_CONCAT | OP_JMP | OP_EQ | OP_LT
  | OP_LE | OP_TEST | OP_TESTSET | OP_CALL | OP_TAILCALL | OP_RETURN
  | OP_FORLOOP | OP_FORPREP | OP_TFORLOOP | OP_SETLIST | OP_CLOSE
  | OP_CLOSURE | OP_VARARG.

#[export] Instance OpCode_eq_dec : EqDecision OpCode.
Proof. solve_decision. Defined.

(** The enumeration in declaration order: the C value of a constant is its
    position. *)
Definition all_opcodes : list OpCode :=
  [OP_MOVE; OP_LOADK; OP_LOADBOOL; OP_LOADNIL; OP_GETUPVAL; OP_GETGLOBAL;
   OP_GETTABLE; OP_SETGLOBAL; OP_SETUPVAL; OP_SETTABLE; OP_NEWTABLE; OP_SELF;
   OP_ADD; OP_SUB; OP_MUL; OP_DIV; OP_MOD; OP_POW; OP_UNM; OP_NOT; OP_LEN;
   OP_CONCAT; OP_JMP; OP_EQ; OP_LT; OP_LE; OP_TEST; OP_TESTSET; OP_CALL;
   OP_TAILCALL; OP_RETURN; OP_FORLOOP; OP_FORPREP; OP_TFORLOOP; OP_SETLIST;
   OP_CLOSE; OP_CLOSURE; OP_VARARG].

Fixpoint index_of (o : OpCode) (l : list OpCode) : Z :=
  match l with
  | [] => 0
  | o' :: l' => if decide (o = o') then 0 else 1 + index_of o l'
  end.

Definition op_num (o : OpCode) : Z := index_of o all_opcodes.
Definition opcode_of (n : Z) : option OpCode :=
  if n <? 0 then None else all_opcodes !! Z.to_nat n.
Definition NUM_OPCODES : Z := op_num OP_VARARG + 1.

Inductive OpMode : Type := iABC | iABx | iAsBx.
Inductive OpArgMask : Type := OpArgN | OpArgU | OpArgR | OpArgK.

#[export] Instance OpMode_eq_dec : EqDecision OpMode.
Proof. solve_decision. Defined.
#[export] Instance OpArgMask_eq_dec : EqDecision OpArgMask.
Proof. solve_decision. Defined.

Definition OpMode_num (m : OpMode) : Z :=
  match m with iABC => 0 | iABx => 1 | iAsBx => 2 end.
Definition OpArgMask_num (m : OpArgMask) : Z :=
  match m with OpArgN => 0 | OpArgU => 1 | OpArgR => 2 | OpArgK => 3 end.

(** lopcodes.c: [opmode(t,a,b,c,m)] packs the five properties in a byte. *)
Definition opmode (t a : Z) (b c : OpArgMask) (m : OpMode) : Z :=
  Z.lor (Z.lor (Z.lor (Z.lor (Z.shiftl t 7) (Z.shiftl a 6))
    (Z.shiftl (OpArgMask_num b) 4)) (Z.shiftl (OpArgMask_num c) 2)) (OpMode_num m).

Definition luaP_opmodes : list Z :=
  [ opmode 0 1 OpArgR OpArgN iABC    (* OP_MOVE *)
  ; opmode 0 1 OpArgK OpArgN iABx    (* OP_LOADK *)
  ; opmode 0 1 OpArgU OpArgU iABC    (* OP_LOADBOOL *)
  ; opmode 0 1 OpArgR OpArgN iABC    (* OP_LOADNIL *)
  ; opmode 0 1 OpArgU OpArgN iABC    (* OP_GETUPVAL *)
  ; opmode 0 1 OpArgK OpArgN iABx    (* OP_GETGLOBAL *)
  ; opmode 0 1 OpArgR OpArgK iABC    (* OP_GETTABLE *)
  ; opmode 0 0 OpArgK OpArgN iABx    (* OP_SETGLOBAL *)
  ; opmode 0 0 OpArgU OpArgN iABC    (* OP_SETUPVAL *)
  ; opmode 0 0 OpArgK OpArgK iABC    (* OP_SETTABLE *)
  ; opmode 0 1 OpArgU OpArgU iABC    (* OP_NEWTABLE *)
  ; opmode 0 1 OpArgR OpArgK iABC    (* OP_SELF *)
  ; opmode 0 1 OpArgK OpArgK iABC    (* OP_ADD *)
  ; opmode 0 1 OpArgK OpArgK iABC    (* OP_SUB *)
  ; opmode 0 1 OpArgK OpArgK iABC    (* OP_MUL *)
  ; opmode 0 1 OpArgK OpArgK iABC    (* OP_DIV *)
  ; opmode 0 1 OpArgK OpArgK iABC    (* OP_MOD *)
  ; opmode 0 1 OpArgK OpArgK iABC    (* OP_POW *)
  ; opmode 0 1 OpArgR OpArgN iABC    (* OP_UNM *)
  ; opmode 0 1 OpArgR OpArgN iABC    (* OP_NOT *)
  ; opmode 0 1 OpArgR OpArgN iABC    (* OP_LEN *)
  ; opmode 0 1 OpArgR OpArgR iABC    (* OP_CONCAT *)
  ; opmode 0 0 OpArgR OpArgN iAsBx   (* OP_JMP *)
  ; opmode 1 0 OpArgK OpArgK iABC    (* OP_EQ *)
  ; opmode 1 0 OpArgK OpArgK iABC    (* OP_LT *)
  ; opmode 1 0 OpArgK OpArgK iABC    (* OP_LE *)
  ; opmode 1 1 OpArgR OpArgU iABC    (* OP_TEST *)
  ; opmode 1 1 OpArgR OpArgU iABC    (* OP_TESTSET *)
  ; opmode 0 1 OpArgU OpArgU iABC    (* OP_CALL *)
  ; opmode 0 1 OpArgU OpArgU iABC    (* OP_TAILCALL *)
  ; opmode 0 0 OpArgU OpArgN iABC    (* OP_RETURN *)
  ; opmode 0 1 OpArgR OpArgN iAsBx   (* OP_FORLOOP *)
  ; opmode 0 1 OpArgR OpArgN iAsBx   (* OP_FORPREP *)
  ; opmode 1 0 OpArgN OpArgU iABC    (* OP_TFORLOOP *)
  ; opmode 0 0 OpArgU OpArgU iABC    (* OP_SETLIST *)
  ; opmode 0 0 OpArgN OpArgN iABC    (* OP_CLOSE *)
  ; opmode 0 1 OpArgU OpArgN iABx    (* OP_CLOSURE *)
  ; opmode 0 1 OpArgU OpArgN iABC ]. (* OP_VARARG *)

(** The byte of an opcode; the callers test [op < NUM_OPCODES] first. *)
Definition opmodes (m : Z) : Z := nth (Z.to_nat m) luaP_opmodes 0.
Definition getOpMode (m : Z) : Z := Z.land (opmodes m) 3.
Definition getBMode (m : Z) : Z := Z.land (Z.shiftr (opmodes m) 4) 3.
Definition getCMode (m : Z) : Z := Z.land (Z.shiftr (opmodes m) 2) 3.
Definition testAMode (m : Z) : bool := negb (Z.land (opmodes m) (Z.shiftl 1 6) =? 0).
Definition testTMode (m : Z) : bool := negb (Z.land (opmodes m) (Z.shiftl 1 7) =? 0).

(** * Field access and update, once for all fields *)
Section Fields.

Definition field (i p n : Z) : Z := Z.land (Z.shiftr i p) (Z.ones n).
Definition upd (i v p n : Z) : Z :=
  Z.lor (Z.land i (not32 (Z.shiftl (Z.ones n) p)))
        (Z.land (shl32 (u32 v) p) (Z.shiftl (Z.ones n) p)).

Lemma testbit_wrap w x k :
  0 <= w -> 0 <= k -> Z.testbit (wrap w x) k = (k <? w) && Z.testbit x k.
Proof.
  intros. unfold wrap. destruct (Z.ltb_spec k w).
  - by rewrite Z.mod_pow2_bits_low.
  - by rewrite Z.mod_pow2_bits_high by lia.
Qed.

Lemma testbit_shl32 x p k :
  0 <= p -> 0 <= k -> Z.testbit (shl32 x p) k = (k <? 32) && Z.testbit x (k - p).
Proof. intros. unfold shl32. rewrite testbit_wrap, Z.shiftl_spec by lia. done. Qed.

Lemma testbit_mask p n k :
  0 <= p -> 0 <= n -> 0 <= k ->
  Z.testbit (Z.shiftl (Z.ones n) p) k = (p <=? k) && (k <? p + n).
Proof.
  intros. rewrite Z.shiftl_spec by lia.
  destruct (Z.leb_spec p k); cbn.
  - rewrite Z.testbit_ones_nonneg by lia. lia.
  - by rewrite Z.testbit_neg_r by lia.
Qed.

Lemma testbit_field i p n k :
  0 <= p -> 0 <= n -> 0 <= k -> Z.testbit (field i p n) k = (k <? n) && Z.testbit i (k + p).
Proof.
  intros. unfold field. rewrite Z.land_spec, Z.shiftr_spec, Z.testbit_ones_nonneg by lia.
  apply andb_comm.
Qed.

Lemma testbit_upd i v p n k :
  0 <= p -> 0 <= n -> p + n <= 32 -> 0 <= k ->
  Z.testbit (upd i v p n) k =
    if (p <=? k) && (k <? p + n) then Z.testbit v (k - p) else (k <? 32) && Z.testbit i k.
Proof.
  intros. unfold upd.
  rewrite Z.lor_spec, !Z.land_spec, testbit_shl32, testbit_mask by lia.
  unfold not32. rewrite testbit_wrap, Z.lnot_spec, testbit_mask by lia.
  destruct (Z.leb_spec p k), (Z.ltb_spec k (p + n)), (Z.ltb_spec k 32); cbn;
    rewrite ?andb_true_r, ?andb_false_r, ?orb_false_r; try lia; try done.
  rewrite testbit_wrap by lia. destruct (Z.ltb_spec (k - p) 32); [done|lia].
Qed.

Lemma field_range i p n : 0 <= n -> 0 <= field i p n < 2 ^ n.
Proof.
  intros. unfold field. rewrite Z.land_ones by lia.
  apply Z.mod_pos_bound, Z.pow_pos_nonneg; lia.
Qed.

Lemma field_upd_same i v p n :
  0 <= p -> 0 <= n -> p + n <= 32 -> field (upd i v p n) p n = wrap n v.
Proof.
  intros. apply Z.bits_inj'. intros k Hk.
  rewrite testbit_field, testbit_upd, testbit_wrap by lia.
  destruct (Z.ltb_spec k n); [|done]. cbn.
  replace ((p <=? k + p) && (k + p <? p + n)) with true by lia.
  f_equal. lia.
Qed.

Lemma field_upd_other i v p n p' n' :
  0 <= p -> 0 <= n -> p + n <= 32 -> 0 <= p' -> 0 <= n' -> p' + n' <= 32 ->
  p' + n' <= p \/ p + n <= p' -> field (upd i v p n) p' n' = field i p' n'.
Proof.
  intros. apply Z.bits_inj'. intros k Hk.
  rewrite !testbit_field by lia. destruct (Z.ltb_spec k n'); [|done]. cbn.
  rewrite testbit_upd by lia.
  replace ((p <=? k + p') && (k + p' <? p + n)) with false by lia.
  replace (k + p' <? 32) with true by lia. done.
Qed.

Lemma upd_range i v p n :
  0 <= p -> 0 <= n -> p + n <= 32 -> in_u 32 (upd i v p n).
Proof.
  intros. unfold in_u.
  assert (upd i v p n = wrap 32 (upd i v p n)) as ->; [|apply wrap_range; lia].
  apply Z.bits_inj'. intros k Hk. rewrite testbit_wrap, testbit_upd by lia.
  destruct (Z.ltb_spec k 32); [done|]. cbn.
  replace ((p <=? k) && (k <? p + n)) with false by lia. done.
Qed.

(** A word made of a field shifted into place. *)
Lemma shl32_small v p n :
  0 <= v < 2 ^ n -> 0 <= p -> 0 <= n -> p + n <= 32 -> shl32 (u32 v) p = Z.shiftl v p.
Proof.
  intros Hv Hp Hn Hpn. unfold shl32.
  assert (2 ^ n <= 2 ^ 32) by (apply Z.pow_le_mono_r; lia).
  rewrite (wrap_small 32 v) by lia. apply wrap_small.
  rewrite Z.shiftl_mul_pow2 by lia.
  assert (0 < 2 ^ p) by (apply Z.pow_pos_nonneg; lia).
  assert (2 ^ n * 2 ^ p <= 2 ^ 32)
    by (rewrite <- Z.pow_add_r by lia; apply Z.pow_le_mono_r; lia).
  nia.
Qed.

Lemma field_lor a b p n : field (Z.lor a b) p n = Z.lor (field a p n) (field b p n).
Proof. unfold field. by rewrite Z.shiftr_lor, Z.land_lor_distr_l. Qed.

Lemma field_shiftl_same v p n : 0 <= p -> 0 <= v < 2 ^ n -> field (Z.shiftl v p) p n = v.
Proof.
  intros Hp Hv. unfold field. assert (0 <= n) by (destruct (Z.neg_nonneg_cases n) as [Hn|];
    [rewrite (Z.pow_neg_r 2 n Hn) in Hv; lia|lia]).
  rewrite Z.shiftr_shiftl_l by lia. rewrite Z.sub_diag, Z.shiftl_0_r.
  rewrite Z.land_ones by lia. apply Z.mod_small. lia.
Qed.

Lemma testbit_small v n k : 0 <= v < 2 ^ n -> 0 <= n -> n <= k -> Z.testbit v k = false.
Proof.
  intros. rewrite <- (Z.mod_small v (2 ^ n)) by lia. apply Z.mod_pow2_bits_high. lia.
Qed.

Lemma field_shiftl_other v p n p' n' :
  0 <= v < 2 ^ n -> 0 <= n -> 0 <= p -> 0 <= p' -> 0 <= n' ->
  p' + n' <= p \/ p + n <= p' -> field (Z.shiftl v p) p' n' = 0.
Proof.
  intros. apply Z.bits_inj'. intros k Hk. rewrite testbit_field, Z.bits_0 by lia.
  destruct (Z.ltb_spec k n'); [|done]. cbn. rewrite Z.shiftl_spec by lia.
  destruct (Z.ltb_spec (k + p' - p) 0).
  - by rewrite Z.testbit_neg_r.
  - apply (testbit_small v n); lia.
Qed.
End Fields.

(** Every macro is an instance of the two generic operations. *)
Lemma GET_OPCODE_field i : GET_OPCODE i = field i 0 6. Proof. reflexivity. Qed.
Lemma GETARG_A_field i : GETARG_A i = field i 6 8. Proof. reflexivity. Qed.
Lemma GETARG_B_field i : GETARG_B i = field i 23 9. Proof. reflexivity. Qed.
Lemma GETARG_C_field i : GETARG_C i = field i 14 9. Proof. reflexivity. Qed.
Lemma GETARG_Bx_field i : GETARG_Bx i = field i 14 18. Proof. reflexivity. Qed.
Lemma SET_OPCODE_upd i o : SET_OPCODE i o = upd i o 0 6. Proof. reflexivity. Qed.
Lemma SETARG_A_upd i v : SETARG_A i v = upd i v 6 8. Proof. reflexivity. Qed.
Lemma SETARG_B_upd i v : SETARG_B i v = upd i v 23 9. Proof. reflexivity. Qed.
Lemma SETARG_C_upd i v : SETARG_C i v = upd i v 14 9. Proof. reflexivity. Qed.
Lemma SETARG_Bx_upd i v : SETARG_Bx i v = upd i v 14 18. Proof. reflexivity. Qed.

Create HintDb opfields.
#[export] Hint Rewrite GET_OPCODE_field GETARG_A_field GETARG_B_field GETARG_C_field
  GETARG_Bx_field SET_OPCODE_upd SETARG_A_upd SETARG_B_upd SETARG_C_upd SETARG_Bx_upd
  : opfields.

Ltac op_fields :=
  autorewrite with opfields;
  rewrite ?field_upd_same, ?field_upd_other by lia.

(** A SETARG macro writes its argument, truncated to the width of the
    field, and changes no other field; a signed argument within
    [MAXARG_sBx] is read back unchanged through the excess-K encoding; the
    result is again a 32-bit word. *)
Theorem setarg_getarg (i v : Z) :
  (GETARG_A (SETARG_A i v) = wrap 8 v /\ GET_OPCODE (SETARG_A i v) = GET_OPCODE i /\
   GETARG_B (SETARG_A i v) = GETARG_B i /\ GETARG_C (SETARG_A i v) = GETARG_C i) /\
  (GETARG_B (SETARG_B i v) = wrap 9 v /\ GET_OPCODE (SETARG_B i v) = GET_OPCODE i /\
   GETARG_A (SETARG_B i v) = GETARG_A i /\ GETARG_C (SETARG_B i v) = GETARG_C i) /\
  (GETARG_C (SETARG_C i v) = wrap 9 v /\ GET_OPCODE (SETARG_C i v) = GET_OPCODE i /\
   GETARG_A (SETARG_C i v) = GETARG_A i /\ GETARG_B (SETARG_C i v) = GETARG_B i) /\
  (GET_OPCODE (SET_OPCODE i v) = wrap 6 v /\ GETARG_A (SET_OPCODE i v) = GETARG_A i /\
   GETARG_B (SET_OPCODE i v) = GETARG_B i /\ GETARG_C (SET_OPCODE i v) = GETARG_C i) /\
  (GETARG_Bx (SETARG_Bx i v) = wrap 18 v /\ GET_OPCODE (SETARG_Bx i v) = GET_OPCODE i /\
   GETARG_A (SETARG_Bx i v) = GETARG_A i) /\
  (- MAXARG_sBx <= v <= MAXARG_sBx -> GETARG_sBx (SETARG_sBx i v) = v) /\
  (in_u 32 (SETARG_A i v) /\ in_u 32 (SETARG_B i v) /\ in_u 32 (SETARG_C i v) /\
   in_u 32 (SET_OPCODE i v) /\ in_u 32 (SETARG_Bx i v)).
Proof.
  split_and!; try (op_fields; done).
  - unfold GETARG_sBx, SETARG_sBx. change MAXARG_sBx with 131071. intros Hv. op_fields.
    rewrite (wrap_small 32) by lia. rewrite wrap_small by lia. lia.
  - rewrite SETARG_A_upd. by apply upd_range.
  - rewrite SETARG_B_upd. by apply upd_range.
  - rewrite SETARG_C_upd. by apply upd_range.
  - rewrite SET_OPCODE_upd. by apply upd_range.
  - rewrite SETARG_Bx_upd. by apply upd_range.
Qed.

Lemma CREATE_ABC_shiftl o a b c :
  0 <= o < 64 -> 0 <= a <= MAXARG_A -> 0 <= b <= MAXARG_B -> 0 <= c <= MAXARG_C ->
  CREATE_ABC o a b c =
    Z.lor (Z.lor (Z.lor (Z.shiftl o 0) (Z.shiftl a 6)) (Z.shiftl b 23)) (Z.shiftl c 14).
Proof.
  change MAXARG_A with 255. change MAXARG_B with 511. change MAXARG_C with 511. intros.
  unfold CREATE_ABC. rewrite (shl32_small o _ 6), (shl32_small a _ 8), (shl32_small b _ 9),
    (shl32_small c _ 9); try done; lia.
Qed.

(** Each field of a word built by CREATE_ABC. *)
Lemma field_CREATE_ABC o a b c :
  0 <= o < 64 -> 0 <= a <= MAXARG_A -> 0 <= b <= MAXARG_B -> 0 <= c <= MAXARG_C ->
  GET_OPCODE (CREATE_ABC o a b c) = o /\ GETARG_A (CREATE_ABC o a b c) = a /\
  GETARG_B (CREATE_ABC o a b c) = b /\ GETARG_C (CREATE_ABC o a b c) = c.
Proof.
  intros Ho Ha Hb Hc. rewrite CREATE_ABC_shiftl by done.
  change MAXARG_A with 255 in Ha. change MAXARG_B with 511 in Hb. change MAXARG_C with 511 in Hc.
  autorewrite with opfields. rewrite !field_lor.
  split_and!.
  - rewrite field_shiftl_same, (field_shiftl_other a 6 8), (field_shiftl_other b 23 9),
      (field_shiftl_other c 14 9) by lia. by rewrite !Z.lor_0_r.
  - rewrite (field_shiftl_other o 0 6), (field_shiftl_same a), (field_shiftl_other b 23 9),
      (field_shiftl_other c 14 9) by lia. by rewrite !Z.lor_0_r.
  - rewrite (field_shiftl_other o 0 6), (field_shiftl_other a 6 8), (field_shiftl_same b),
      (field_shiftl_other c 14 9) by lia. by rewrite !Z.lor_0_r.
  - rewrite (field_shiftl_other o 0 6), (field_shiftl_other a 6 8), (field_shiftl_other b 23 9),
      (field_shiftl_same c) by lia. done.
Qed.

Lemma testbit_shiftl_field i p n k :
  0 <= p -> 0 <= n -> 0 <= k ->
  Z.testbit (Z.shiftl (field i p n) p) k = (p <=? k) && (k <? p + n) && Z.testbit i k.
Proof.
  intros. rewrite Z.shiftl_spec by lia. destruct (Z.leb_spec p k); cbn.
  - rewrite testbit_field by lia. replace (k - p + p) with k by lia.
    f_equal. destruct (Z.ltb_spec (k - p) n), (Z.ltb_spec k (p + n)); lia.
  - by rewrite Z.testbit_neg_r by lia.
Qed.

(** A 32-bit word is the word of its four fields. *)
Lemma CREATE_ABC_eta i :
  in_u 32 i -> CREATE_ABC (GET_OPCODE i) (GETARG_A i) (GETARG_B i) (GETARG_C i) = i.
Proof.
  intros Hi. autorewrite with opfields.
  pose proof (field_range i 0 6). pose proof (field_range i 6 8).
  pose proof (field_range i 23 9). pose proof (field_range i 14 9).
  rewrite CREATE_ABC_shiftl;
    [|change MAXARG_A with 255; change MAXARG_B with 511; change MAXARG_C with 511; lia..].
  apply Z.bits_inj'. intros k Hk. rewrite !Z.lor_spec, !testbit_shiftl_field by lia.
  destruct (Z.ltb_spec k 32) as [Hlt|Hge].
  - destruct (Z.testbit i k); rewrite ?andb_true_r, ?andb_false_r; [|done].
    destruct (Z.leb_spec 0 k), (Z.ltb_spec k (0 + 6)), (Z.leb_spec 6 k), (Z.ltb_spec k (6 + 8)),
      (Z.leb_spec 23 k), (Z.ltb_spec k (23 + 9)), (Z.leb_spec 14 k), (Z.ltb_spec k (14 + 9));
      cbn; try done; lia.
  - rewrite (testbit_small i 32) by (done || lia). by rewrite !andb_false_r.
Qed.

(** CREATE_ABC and the GET macros are inverse bijections between
    32-bit words and quadruples of fields in range; hence no two different
    quadruples of operands share an encoding. *)
Theorem instruction_codec (o a b c i : Z) :
  (0 <= o < 2 ^ SIZE_OP -> 0 <= a <= MAXARG_A -> 0 <= b <= MAXARG_B -> 0 <= c <= MAXARG_C ->
   GET_OPCODE (CREATE_ABC o a b c) = o /\ GETARG_A (CREATE_ABC o a b c) = a /\
   GETARG_B (CREATE_ABC o a b c) = b /\ GETARG_C (CREATE_ABC o a b c) = c) /\
  (in_u 32 i -> CREATE_ABC (GET_OPCODE i) (GETARG_A i) (GETARG_B i) (GETARG_C i) = i) /\
  (in_u 32 i -> GETARG_Bx i = GETARG_B i * 2 ^ SIZE_C + GETARG_C i).
Proof.
  split_and!.
  - apply field_CREATE_ABC.
  - apply CREATE_ABC_eta.
  - intros Hi. autorewrite with opfields. unfold field.
    rewrite !Z.land_ones, !Z.shiftr_div_pow2 by lia.
    change (2 ^ SIZE_C) with 512. change (2 ^ 18) with (512 * 512). change (2 ^ 9) with 512.
    replace (2 ^ 23) with (2 ^ 14 * 512) by reflexivity.
    rewrite <- Z.div_div by lia. rewrite (Z.rem_mul_r (i / 2 ^ 14)) by lia. lia.
Qed.

Lemma instruction_codec_witness :
  GET_OPCODE (CREATE_ABC 12 3 256 511) = 12 /\
  GETARG_B (CREATE_ABC 12 3 256 511) = 256 /\
  CREATE_ABC (GET_OPCODE 4294967295) (GETARG_A 4294967295) (GETARG_B 4294967295)
    (GETARG_C 4294967295) = 4294967295.
Proof.
  destruct (instruction_codec 12 3 256 511 4294967295) as (H1 & H2 & H3).
  destruct H1 as (? & ? & ? & ?); [vm_compute; split; congruence..|].
  split; [done|]. split; [done|]. apply H2. vm_compute. split; congruence.
Defined.

Lemma setarg_getarg_witness :
  GETARG_sBx (SETARG_sBx 22 (-131071)) = -131071.
Proof.
  apply (setarg_getarg 22 (-131071)). vm_compute. split; congruence.
Defined.
