(* ===== verification/LuaObject.v ===== *)
(** Helpers over Lua values (lua/src/lobject.c): the "floating point byte" of
    table sizes, the integer logarithm of the table code, and the description
    of a chunk shown in messages.

    The loops keep the C control structure and are bounded by the width of
    their argument; the theorems include that the bounds suffice. *)
From stdpp Require Import base list.
From Stdlib Require Import ZArith Lia.
From S2P Require Import Prelude.
Open Scope Z_scope.

(** * Floating point bytes *)

(** One iteration of the loop of luaO_int2fb on [(x, e)]. *)
Definition int2fb_step (s : Z * Z) : res ((Z * Z) + (Z * Z)) :=
  let '(x, e) := s in
  if 16 <=? x then Ok (inl (Z.shiftr (u32 (x + 1)) 1, e + 1)) else Ok (inr (x, e)).

Definition luaO_int2fb (x : Z) : res Z :=
  '(x, e) <- loop 33 int2fb_step (x, 0);
  if x <? 8 then Ok x else Ok (Z.lor (Z.shiftl (e + 1) 3) (x - 8)).

Definition luaO_fb2int (x : Z) : Z :=
  let e := Z.land (Z.shiftr x 3) 31 in
  if e =? 0 then x else Z.shiftl (Z.land x 7 + 8) (e - 1).

(** * Integer logarithm *)

(** The table of luaO_log2: 0, 1, two 2s, four 3s, ..., 128 8s. *)
Definition log_2 : list Z :=
  [0; 1] ++ replicate 2 2 ++ replicate 4 3 ++ replicate 8 4 ++ replicate 16 5 ++
  replicate 32 6 ++ replicate 64 7 ++ replicate 128 8.

Definition log2_step (s : Z * Z) : res ((Z * Z) + (Z * Z)) :=
  let '(x, l) := s in
  if 256 <=? x then Ok (inl (Z.shiftr x 8, l + 8)) else Ok (inr (x, l)).

Definition luaO_log2 (x : Z) : res Z :=
  '(x, l) <- loop 5 log2_step (x, -1);
  lift ((fun v => l + v) <$> log_2 !! Z.to_nat x) "log_2: index out of range".

(** * Chunk identifiers

    A C string is the list of its bytes before the terminating zero; the
    result is the string left in [out], whose terminator also needs a place. *)

(** strcspn(source, "\n\r"): length of the first line. *)
Fixpoint strcspn_nl (source : bytes) : Z :=
  match source with
  | [] => 0
  | c :: source' => if (c =? 10) || (c =? 13) then 0 else 1 + strcspn_nl source'
  end.

(** strncpy(out, s, n) followed by out[n-1] = 0. *)
Definition strncpy_term (s : bytes) (n : Z) : bytes := take (Z.to_nat (n - 1)) s.

(** The branch for a chunk given as a string. *)
Definition chunkid_string (source : bytes) (bufflen : Z) : bytes :=
  let len := strcspn_nl source in
  let bufflen := bufflen - 17 (* sizeof of the template, with its zero *) in
  let len := if bufflen <? len then bufflen else len in
  lit "[string " ++ [34] ++
  (if len <? Z.of_nat (length source) then take (Z.to_nat len) source ++ lit "..."
   else source) ++
  [34] ++ lit "]".

(** The branch for a file name, after its '@'. *)
Definition chunkid_file (source : bytes) (bufflen : Z) : bytes :=
  let bufflen := bufflen - 8 (* sizeof of the template, with its zero *) in
  let l := Z.of_nat (length source) in
  if bufflen <? l then lit "..." ++ drop (Z.to_nat (l - bufflen)) source
  else source.

Definition luaO_chunkid (source : bytes) (bufflen : Z) : bytes :=
  match source with
  | c :: source' =>
      if c =? 61 (* '=' *) then strncpy_term source' bufflen
      else if c =? 64 (* '@' *) then chunkid_file source' bufflen
      else chunkid_string source bufflen
  | [] => chunkid_string source bufflen
  end.

Example int2fb_100 : luaO_int2fb 100 = Ok 37. Proof. reflexivity. Qed.
Example fb2int_37 : luaO_fb2int 37 = 104. Proof. reflexivity. Qed.
Example log2_1000 : luaO_log2 1000 = Ok 9. Proof. reflexivity. Qed.

(** * Floating point bytes: the least representable size *)

(** The values a floating point byte stands for. *)
Definition fb_repr (y : Z) : Prop := exists b, 0 <= b < 256 /\ luaO_fb2int b = y.

(** The loop halves rounding up: after [e] turns it holds [ceil(x0/2^e)]. *)
Definition int2fb_inv (x0 : Z) (s : Z * Z) : Prop :=
  let '(x, e) := s in
  0 <= e <= 28 /\ 0 <= x <= 2 ^ (31 - e) /\
  (x - 1) * 2 ^ e < x0 <= x * 2 ^ e /\ (0 < e -> 8 <= x /\ 15 * 2 ^ (e - 1) < x0).

Lemma int2fb_inv_step x0 x e :
  int2fb_inv x0 (x, e) -> 16 <= x ->
  e < 28 /\ int2fb_inv x0 (Z.shiftr (u32 (x + 1)) 1, e + 1).
Proof.
  intros (He & Hx & Hb & _) H16.
  assert (e < 28) as He28.
  { destruct (Z.eq_dec e 28) as [->|]; [|lia]. cbn in Hx. lia. }
  assert (2 ^ (31 - e) <= 2 ^ 31) by (apply Z.pow_le_mono_r; lia).
  rewrite wrap_small by lia. rewrite Z.shiftr_div_pow2 by lia. change (2 ^ 1) with 2.
  split; [done|]. unfold int2fb_inv.
  replace (31 - e) with (Z.succ (31 - (e + 1))) in Hx by lia.
  rewrite Z.pow_succ_r in Hx by lia.
  rewrite (Z.pow_add_r 2 e 1) by lia. change (2 ^ 1) with 2.
  replace (e + 1 - 1) with e by lia.
  assert (0 < 2 ^ e) by (apply Z.pow_pos_nonneg; lia).
  pose proof (Z.div_mod (x + 1) 2 ltac:(lia)). pose proof (Z.mod_pos_bound (x + 1) 2 ltac:(lia)).
  split_and!; first [lia|nia|intros _; split; [lia|nia]].
Qed.

Lemma int2fb_loop x0 :
  0 < x0 < 2 ^ 31 ->
  exists x e, loop 33 int2fb_step (x0, 0) = Ok (x, e) /\ int2fb_inv x0 (x, e) /\ x < 16.
Proof.
  intros Hx0.
  destruct (loop_total (int2fb_inv x0) (fun s => Z.to_nat (28 - snd s))
    (fun s => int2fb_inv x0 s /\ fst s < 16) int2fb_step (x0, 0) 33)
    as ([x e] & Hl & Hi & Hlt).
  - intros [x e] Hi. cbn [int2fb_step]. case_zbool (16 <=? x).
    + destruct (int2fb_inv_step x0 x e Hi E) as [? Hi']. split; [done|]. destruct Hi' as (? & _).
      cbn [snd]. lia.
    + split; [done|]. cbn. lia.
  - unfold int2fb_inv. lia.
  - cbn [snd]. lia.
  - eauto.
Qed.

(** Decoding of the assembled byte, checked over its whole range. *)
Lemma fb2int_assemble x e :
  8 <= x < 16 -> 0 <= e < 29 ->
  let b := Z.lor (Z.shiftl (e + 1) 3) (x - 8) in 0 <= b < 256 /\ luaO_fb2int b = x * 2 ^ e.
Proof.
  intros Hx He.
  assert (forallb (fun x => forallb (fun e =>
    let b := Z.lor (Z.shiftl (e + 1) 3) (x - 8) in
    (0 <=? b) && (b <? 256) && (luaO_fb2int b =? x * 2 ^ e)) (seqZ 0 29)) (seqZ 8 8) = true)
    as Hall by (vm_compute; reflexivity).
  rewrite forallb_forall in Hall. specialize (Hall x). rewrite <- list_elem_of_In, elem_of_seqZ in Hall.
  specialize (Hall ltac:(lia)). rewrite forallb_forall in Hall. specialize (Hall e).
  rewrite <- list_elem_of_In, elem_of_seqZ in Hall. specialize (Hall ltac:(lia)).
  cbv zeta in *. zbool. lia.
Qed.

(** What a byte can stand for: 0..7, or an 8..15 mantissa shifted. *)
Lemma fb_repr_cases y :
  fb_repr y -> 0 <= y < 8 \/ exists m f, 8 <= m < 16 /\ 0 <= f /\ y = m * 2 ^ f.
Proof.
  intros (b & Hb & <-). unfold luaO_fb2int.
  change 31 with (Z.ones 5). change 7 with (Z.ones 3). rewrite !Z.land_ones by lia.
  rewrite Z.shiftr_div_pow2 by lia.
  pose proof (Z.mod_pos_bound (b / 2 ^ 3) (2 ^ 5) ltac:(lia)).
  pose proof (Z.mod_pos_bound b (2 ^ 3) ltac:(lia)).
  rewrite (Z.mod_small (b / 2 ^ 3) (2 ^ 5)) in *
    by (split; [apply Z.div_pos; lia|apply Z.div_lt_upper_bound; lia]).
  case_zbool (b / 2 ^ 3 =? 0).
  - left. pose proof (Z.div_mod b (2 ^ 3) ltac:(lia)). lia.
  - right. exists (b mod 2 ^ 3 + 8), (b / 2 ^ 3 - 1).
    rewrite Z.shiftl_mul_pow2 by lia. lia.
Qed.

(** No representable value lies strictly between [x0] and its rounding. *)
Lemma int2fb_least x0 x e y :
  int2fb_inv x0 (x, e) -> x < 16 -> fb_repr y -> x0 <= y -> x * 2 ^ e <= y.
Proof.
  intros (He & Hx & Hb & Hpos) Hlt Hy Hxy.
  assert (0 < 2 ^ e) by (apply Z.pow_pos_nonneg; lia).
  destruct (Z.eq_dec e 0) as [->|Hne]; [lia|]. destruct (Hpos ltac:(lia)) as [H8 H15].
  assert (2 ^ e = 2 * 2 ^ (e - 1)) as Hdbl by (apply pow2_half; lia).
  destruct (fb_repr_cases y Hy) as [Hsmall|(m & f & Hm & Hf & ->)].
  { assert (0 < 2 ^ (e - 1)) by (apply Z.pow_pos_nonneg; lia). nia. }
  destruct (Z.le_gt_cases e f) as [Hef|Hef].
  - replace f with ((f - e) + e) in * by lia. rewrite Z.pow_add_r in * by lia.
    rewrite Z.mul_assoc in *. apply Z.mul_le_mono_nonneg_r; [lia|].
    enough (x - 1 < m * 2 ^ (f - e)) by lia.
    apply (Z.mul_lt_mono_pos_r (2 ^ e)); lia.
  - exfalso. assert (2 ^ f <= 2 ^ (e - 1)) by (apply Z.pow_le_mono_r; lia). nia.
Qed.

(** LuaO_int2fb returns within the bound of its loop, and decoding its
    result gives the least size a floating point byte can represent that is
    not below the argument, exceeding it by at most 2/15; luaO_fb2int is
    exact on it. *)
Theorem int2fb_round_up (x0 : Z) :
  0 <= x0 < 2 ^ 31 ->
  exists b, luaO_int2fb x0 = Ok b /\ 0 <= b < 256 /\
    x0 <= luaO_fb2int b /\ 15 * (luaO_fb2int b - x0) <= 2 * x0 /\
    (forall y, fb_repr y -> x0 <= y -> luaO_fb2int b <= y).
Proof.
  intros Hx0. destruct (Z.eq_dec x0 0) as [->|Hnz].
  { exists 0. split; [reflexivity|]. change (luaO_fb2int 0) with 0. split_and!; by try lia. }
  destruct (int2fb_loop x0 ltac:(lia)) as (x & e & Hl & Hi & Hlt).
  unfold luaO_int2fb. rewrite Hl. cbn [bind].
  pose proof Hi as (He & Hx & Hb & Hpos).
  pose proof (fun y => int2fb_least x0 x e y Hi Hlt) as Hleast.
  case_zbool (x <? 8).
  - assert (e = 0) as -> by (destruct (Z.eq_dec e 0); [done|]; destruct Hpos; lia).
    assert (x = x0) as -> by lia. exists x0. split; [done|].
    assert (luaO_fb2int x0 = x0) as ->.
    { unfold luaO_fb2int. rewrite Z.shiftr_div_pow2, Z.div_small by lia. done. }
    split_and!; try lia; done.
  - destruct (fb2int_assemble x e ltac:(lia) ltac:(lia)) as [Hbyte Hdec].
    eexists. split; [done|]. rewrite Hdec.
    assert (0 < 2 ^ e) by (apply Z.pow_pos_nonneg; lia).
    split_and!; try lia; [|done].
    destruct (Z.eq_dec e 0) as [->|Hne]; [lia|]. destruct (Hpos ltac:(lia)).
    assert (2 ^ e = 2 * 2 ^ (e - 1)) by (apply pow2_half; lia). nia.
Qed.

Lemma int2fb_round_up_witness :
  exists b, luaO_int2fb 1000 = Ok b /\ luaO_fb2int b = 1024.
Proof.
  destruct (int2fb_round_up 1000) as (b & Hb & _); [lia|].
  exists b. split; [exact Hb|]. vm_compute in Hb. injection Hb as <-. reflexivity.
Defined.

(** * Integer logarithm *)

Lemma log_2_correct x : 0 < x < 256 -> log_2 !! Z.to_nat x = Some (Z.log2 x + 1).
Proof.
  intros Hx.
  assert (forallb (fun x => bool_decide (log_2 !! Z.to_nat x = Some (Z.log2 x + 1))) (seqZ 1 255)
          = true) as Hall by (vm_compute; reflexivity).
  rewrite forallb_forall in Hall. specialize (Hall x).
  rewrite <- list_elem_of_In, elem_of_seqZ in Hall.
  eapply bool_decide_eq_true_1, Hall. lia.
Qed.

Definition log2_inv (x0 : Z) (s : Z * Z) : Prop :=
  let '(x, l) := s in 0 < x /\ -1 <= l /\ Z.log2 x0 = Z.log2 x + l + 1.

Lemma log2_floor (x0 : Z) : 0 < x0 < 2 ^ 32 -> luaO_log2 x0 = Ok (Z.log2 x0).
Proof.
  intros Hx0. unfold luaO_log2.
  destruct (loop_total (fun s => log2_inv x0 s /\ snd s <= 31)
    (fun s => Z.to_nat ((Z.log2 (fst s)) / 8)) (fun s => log2_inv x0 s /\ fst s < 256)
    log2_step (x0, -1) 5) as ([x l] & -> & (Hpos & Hl & Hlog) & Hlt).
  - intros [x l] [(Hx & Hl & Hlog) H31]. cbn [log2_step snd fst].
    case_zbool (256 <=? x).
    + assert (Z.log2 (Z.shiftr x 8) = Z.log2 x - 8) as Hs.
      { rewrite Z.log2_shiftr by lia. pose proof (Z.log2_le_mono 256 x ltac:(lia)).
        change (Z.log2 256) with 8 in *. lia. }
      pose proof (Z.log2_lt_pow2 x0 32 ltac:(lia)) as [H32 _]. specialize (H32 ltac:(lia)).
      assert (8 <= Z.log2 x) by (apply (Z.log2_le_mono 256 x); lia).
      pose proof (Z.log2_nonneg x).
      unfold log2_inv. cbn [fst snd] in *. rewrite Hs. split_and!; try lia.
      * rewrite Z.shiftr_div_pow2 by lia. apply Z.div_str_pos. lia.
      * assert ((Z.log2 x - 8) / 8 = Z.log2 x / 8 + -1) as ->.
        { rewrite <- (Z.div_add (Z.log2 x) (-1) 8) by lia. reflexivity. }
        pose proof (Z.div_le_mono 8 (Z.log2 x) 8 ltac:(lia) ltac:(lia)).
        change (8 / 8) with 1 in *. lia.
    + split; [|done]. by split_and!.
  - unfold log2_inv. cbn [snd fst]. lia.
  - cbn [fst]. pose proof (Z.log2_lt_pow2 x0 32 ltac:(lia)) as [H32 _].
    specialize (H32 ltac:(lia)). pose proof (Z.log2_nonneg x0).
    assert (Z.log2 x0 / 8 < 4) by (apply Z.div_lt_upper_bound; lia). lia.
  - cbn [bind fst] in *. rewrite log_2_correct by lia. cbn. f_equal. lia.
Qed.

Lemma ceillog2_spec (x : Z) :
  1 < x <= 2 ^ 32 -> exists l, luaO_log2 (x - 1) = Ok l /\ 0 <= l /\ 2 ^ l < x <= 2 ^ (l + 1).
Proof.
  intros Hx. exists (Z.log2 (x - 1)). split; [apply log2_floor; lia|].
  pose proof (Z.log2_spec (x - 1) ltac:(lia)) as Hs. rewrite Z.add_1_r.
  pose proof (Z.log2_nonneg (x - 1)). lia.
Qed.

(** LuaO_log2 is the floor of the base 2 logarithm on every positive
    unsigned int, and -1 at 0; so [ceillog2 x], which the table code computes
    as [luaO_log2 (x-1) + 1], is the least [n] with [x <= 2^n]. *)
Theorem log2_correct (x0 : Z) :
  (0 < x0 < 2 ^ 32 -> luaO_log2 x0 = Ok (Z.log2 x0)) /\ luaO_log2 0 = Ok (-1) /\
  (1 < x0 <= 2 ^ 32 ->
    exists l, luaO_log2 (x0 - 1) = Ok l /\ 0 <= l /\ 2 ^ l < x0 <= 2 ^ (l + 1)).
Proof. split_and!; [apply log2_floor|reflexivity|apply ceillog2_spec]. Qed.

Lemma log2_correct_witness : luaO_log2 1000000 = Ok 19.
Proof. rewrite (proj1 (log2_correct 1000000)); [reflexivity|lia]. Defined.

(** * Chunk identifiers *)

Lemma strcspn_nl_bounds s : 0 <= strcspn_nl s <= Z.of_nat (length s).
Proof.
  induction s as [|c s IH]; cbn; [lia|].
  destruct ((c =? 10) || (c =? 13)); lia.
Qed.

Lemma chunkid_string_fits s bufflen :
  18 <= bufflen -> Z.of_nat (length (chunkid_string s bufflen)) + 1 <= bufflen.
Proof.
  intros. pose proof (strcspn_nl_bounds s). unfold chunkid_string. rewrite !length_app.
  cbn [length lit]. case_zbool (bufflen - 17 <? strcspn_nl s); case_match; zbool;
    rewrite ?length_app, ?length_take; cbn [length lit]; lia.
Qed.

(** with a buffer large enough for the fixed part of a message (LUA_IDSIZE
    is 60), luaO_chunkid never writes past it: the string and its terminating
    zero fit in [bufflen] bytes, whatever the chunk name; and a file name that
    fits is kept whole. *)
Theorem chunkid_fits (source : bytes) (bufflen : Z) :
  18 <= bufflen ->
  Z.of_nat (length (luaO_chunkid source bufflen)) + 1 <= bufflen /\
  (forall file, source = 64 :: file -> Z.of_nat (length file) <= bufflen - 8 ->
    luaO_chunkid source bufflen = file) /\
  (forall file, source = 64 :: file -> exists pre,
    luaO_chunkid source bufflen = file \/
    (file = pre ++ drop 3 (luaO_chunkid source bufflen) /\
     take 3 (luaO_chunkid source bufflen) = lit "...")).
Proof.
  intros Hb. split_and!.
  - destruct source as [|c s]; [by apply chunkid_string_fits|].
    unfold luaO_chunkid.
    case_zbool (c =? 61); [|case_zbool (c =? 64)].
    + unfold strncpy_term. rewrite length_take. lia.
    + unfold chunkid_file. case_match; zbool; rewrite ?length_app, ?length_drop;
        cbn [length lit]; lia.
    + by apply chunkid_string_fits.
  - intros file -> Hf. unfold luaO_chunkid. cbn [Z.eqb Pos.eqb]. unfold chunkid_file.
    case_zbool (bufflen - 8 <? Z.of_nat (length file)); [lia|done].
  - intros file ->. unfold luaO_chunkid. cbn [Z.eqb Pos.eqb]. unfold chunkid_file.
    exists (take (Z.to_nat (Z.of_nat (length file) - (bufflen - 8))) file).
    case_zbool (bufflen - 8 <? Z.of_nat (length file)); [right|by left].
    split; [|done]. cbn. by rewrite drop_0, take_drop.
Qed.

Lemma chunkid_fits_witness :
  Z.of_nat (length (luaO_chunkid (64 :: replicate 100 97) 60)) + 1 <= 60.
Proof. apply (chunkid_fits (64 :: replicate 100 97) 60). lia. Defined.
