(* ===== verification/LuaNumber.v ===== *)
(** The interface of lua_Number (lua/src/luaconf.h): the configuration macros
    that the table code applies to numbers, with the laws it relies on, and
    the instance for the default configuration, IEEE 754 double precision.

    luaconf.h invites the user to replace the type, so the table component is
    proved against this class and not against doubles. *)
From stdpp Require Import base list.
From Stdlib Require Import ZArith Lia SpecFloat.
From S2P Require Import Prelude.
Open Scope Z_scope.

Class LuaNumber (N : Type) := {
  luai_numeq : N -> N -> bool;             (** [luai_numeq(a,b)] *)
  cast_num : Z -> N;                       (** [cast_num(i)] on an int *)
  lua_number2int : N -> Z;                 (** [lua_number2int(i,n)] *)
  num_add1 : N -> N;                       (** [n += 1] *)
  num_ints : N -> list Z;                  (** the ints of the object representation *)

  numeq_sym a b : luai_numeq a b = luai_numeq b a;
  numeq_trans a b c : luai_numeq a b = true -> luai_numeq b c = true -> luai_numeq a c = true;
  number2int_range n : in_s 32 (lua_number2int n);
  numeq_cast k : in_s 32 k -> luai_numeq (cast_num k) (cast_num k) = true;
  (** A number equal to an int converts to that int. *)
  number2int_eq k n : in_s 32 k -> luai_numeq (cast_num k) n = true -> lua_number2int n = k;
  (** Equal numbers have the same representation once normalised by [+ 1]. *)
  num_ints_ext a b : luai_numeq a b = true -> num_ints (num_add1 a) = num_ints (num_add1 b)
}.

Section Laws.
Context {N : Type} `{LuaNumber N}.

Lemma numeq_refl_l a b : luai_numeq a b = true -> luai_numeq a a = true.
Proof. intros E. eapply numeq_trans; [exact E|]. by rewrite numeq_sym. Qed.

Lemma cast_num_inj k k' :
  in_s 32 k -> in_s 32 k' -> luai_numeq (cast_num k) (cast_num k') = true -> k = k'.
Proof.
  intros Hk Hk' E. apply number2int_eq in E; [|done].
  pose proof (number2int_eq k' (cast_num k') Hk' (numeq_cast k' Hk')). congruence.
Qed.

(** [luai_numisnan(a)] is [!luai_numeq(a,a)]. *)
Definition luai_numisnan (a : N) : bool := negb (luai_numeq a a).
End Laws.

(** * IEEE 754 binary64

    Doubles as the standard library's [spec_float] with 53 bits of mantissa. *)
Module Binary64.

(** int to double conversion: exact, the mantissa brought to 53 bits. *)
Definition of_pos (s : bool) (p : positive) : spec_float :=
  let sh := Z.to_N (53 - Zpos (digits2_pos p)) in
  S754_finite s (Pos.shiftl p sh) (- Z.of_N sh).

Definition of_int (k : Z) : spec_float :=
  match k with
  | Z0 => S754_zero false
  | Zpos p => of_pos false p
  | Zneg p => of_pos true p
  end.

(** Truncation toward zero, of any finite value. *)
Definition trunc (x : spec_float) : option Z :=
  match x with
  | S754_zero _ => Some 0
  | S754_finite s m e => Some (cond_Zopp s (if 0 <=? e then Z.shiftl (Zpos m) e
                                            else Z.shiftr (Zpos m) (- e)))
  | _ => None
  end.

(** [(int) d]: a value outside the range of int gives INT_MIN, as the
    conversion instruction of the hardware does. *)
Definition to_int (x : spec_float) : Z :=
  match trunc x with
  | Some k => if (- 2 ^ 31 <=? k) && (k <? 2 ^ 31) then k else - 2 ^ 31
  | None => - 2 ^ 31
  end.

Definition add1 (x : spec_float) : spec_float := SFadd 53 1024 x (of_int 1).

(** Object representation: sign, biased exponent, fraction; two words. *)
Definition bits (x : spec_float) : Z :=
  match x with
  | S754_zero s => Z.shiftl (Z.b2z s) 63
  | S754_infinity s => Z.shiftl (Z.b2z s) 63 + Z.shiftl 2047 52
  | S754_nan => Z.shiftl 2047 52 + Z.shiftl 1 51
  | S754_finite s m e =>
      Z.shiftl (Z.b2z s) 63 +
      (if Zpos m <? 2 ^ 52 then Zpos m
       else Z.shiftl (e + 1075) 52 + (Zpos m - 2 ^ 52))
  end.
Definition ints (x : spec_float) : list Z := [u32 (bits x); u32 (Z.shiftr (bits x) 32)].

(** IEEE equality identifies the two zeros and otherwise is equality. *)
Lemma eqb_cases a b :
  SFeqb a b = true -> a = b \/ exists s s', a = S754_zero s /\ b = S754_zero s'.
Proof.
  unfold SFeqb, SFcompare.
  destruct a as [sa|sa| |sa ma ea], b as [sb|sb| |sb mb eb]; intros E;
    repeat (match goal with s : bool |- _ => destruct s end); try discriminate; eauto.
  all: left; destruct (ea ?= eb) eqn:He; try discriminate; apply Z.compare_eq in He;
    destruct (Pos.compare_cont Eq ma mb) eqn:Hm; try discriminate;
    change (Pos.compare ma mb = Eq) in Hm; apply Pos.compare_eq in Hm; congruence.
Qed.

Lemma eqb_refl a : a <> S754_nan -> SFeqb a a = true.
Proof.
  intros Hnan. unfold SFeqb, SFcompare.
  destruct a as [[]|[]| |[] m e]; try done; rewrite Z.compare_refl;
    assert (Pos.compare_cont Eq m m = Eq) as -> by (apply Pos.compare_refl); reflexivity.
Qed.

Lemma of_int_not_nan k : of_int k <> S754_nan.
Proof. by destruct k. Qed.

Lemma shiftl_pos p sh : Zpos (Pos.shiftl p sh) = Z.shiftl (Zpos p) (Z.of_N sh).
Proof.
  destruct sh as [|n]; [done|].
  change (Zpos (Pos.iter xO p n) = Pos.iter (Z.mul 2) (Zpos p) n).
  induction n as [|n IH] using Pos.peano_ind; [done|]. by rewrite !Pos.iter_succ, <- IH.
Qed.

Lemma trunc_of_pos s p : trunc (of_pos s p) = Some (cond_Zopp s (Zpos p)).
Proof.
  unfold of_pos, trunc. do 2 f_equal. rewrite shiftl_pos.
  destruct (Z.to_N (53 - Zpos (digits2_pos p))) as [|n]; [done|].
  change (0 <=? - Z.of_N (N.pos n)) with false. cbv iota.
  rewrite Z.opp_involutive, Z.shiftr_shiftl_l by lia.
  by rewrite Z.sub_diag.
Qed.

Lemma to_int_of_int k : in_s 32 k -> to_int (of_int k) = k.
Proof.
  intros Hk. unfold in_s in Hk. change (32 - 1) with 31 in Hk. unfold to_int.
  assert (trunc (of_int k) = Some k) as ->.
  { destruct k; [done|apply trunc_of_pos|apply trunc_of_pos]. }
  by replace ((- 2 ^ 31 <=? k) && (k <? 2 ^ 31)) with true by lia.
Qed.

#[global, refine] Instance binary64 : LuaNumber spec_float := {|
  luai_numeq := SFeqb;
  cast_num := of_int;
  lua_number2int := to_int;
  num_add1 := add1;
  num_ints := ints
|}.
Proof.
  - intros a b. destruct (SFeqb a b) eqn:E, (SFeqb b a) eqn:E'; try done; exfalso.
    + destruct (eqb_cases _ _ E) as [->|(s & s' & -> & ->)]; [congruence|done].
    + destruct (eqb_cases _ _ E') as [->|(s & s' & -> & ->)]; [congruence|done].
  - intros a b c H1 H2. destruct (eqb_cases _ _ H1) as [->|(s & s' & -> & ->)]; [done|].
    destruct (eqb_cases _ _ H2) as [<-|(t & t' & ? & ->)]; done.
  - intros n. unfold to_int, in_s. change (32 - 1) with 31.
    destruct (trunc n) as [k|]; [|lia]. destruct ((- 2 ^ 31 <=? k) && (k <? 2 ^ 31)) eqn:E; lia.
  - intros k _. apply eqb_refl, of_int_not_nan.
  - intros k n Hk E. destruct (eqb_cases _ _ E) as [<-|(s & s' & Hs & ->)].
    + by apply to_int_of_int.
    + destruct k; [done|discriminate|discriminate].
  - intros a b E. destruct (eqb_cases _ _ E) as [->|(s & s' & -> & ->)]; [done|].
    by destruct s, s'.
Defined.

(** The encoding agrees with IEEE 754 on sample values: 1.0, -0.0, 0.1. *)
Example bits_1 : bits (of_int 1) = 0x3FF0000000000000. Proof. reflexivity. Qed.
Example bits_minus0 : bits (S754_zero true) = 0x8000000000000000. Proof. reflexivity. Qed.
Example add1_41 : SFeqb (add1 (of_int 41)) (of_int 42) = true. Proof. reflexivity. Qed.
End Binary64.
