(* ===== verification/LuaTable.v ===== *)
(** Lua tables (lua/src/ltable.c): the array part, the chained scatter hash
    part with Brent's variation, rehashing, traversal and the length operator.

    A [Node*] is the index of the node in the node vector, [NULL] is [None];
    a [TValue*] into the table is a [slot].  The vector [t->array] and the
    field [t->sizearray] are separate, as the source keeps them out of step
    while a table shrinks.  Strings are interned, so a string value is its
    address and [tsv_hash] gives the hash stored in the string; numbers are any
    instance of [LuaNumber].  Memory exhaustion is not modelled. *)
From stdpp Require Import base list.
From Stdlib Require Import ZArith Lia.
From S2P Require Import Prelude LuaNumber LuaObject.
Open Scope Z_scope.

(** Values (lua/src/lobject.h); [GC ty p] is a collectable object that is not
    a string: table, function, userdata or thread. *)
Inductive TValue (N : Type) : Type :=
  | Nil
  | Bool (b : bool)
  | LightUserdata (p : Z)
  | Number (n : N)
  | Str (ts : Z)
  | GC (ty p : Z).
Arguments Nil {N}.
Arguments Bool {N} b.
Arguments LightUserdata {N} p.
Arguments Number {N} n.
Arguments Str {N} ts.
Arguments GC {N} ty p.

(** A node key: a value, or the remains of a collected one (LUA_TDEADKEY). *)
Inductive TKey (N : Type) : Type :=
  | Key (v : TValue N)
  | DeadKey (p : Z).
Arguments Key {N} v.
Arguments DeadKey {N} p.

Record Node (N : Type) : Type := mkNode {
  i_val : TValue N;
  i_key : TKey N;
  i_next : option nat
}.
Arguments mkNode {N} _ _ _.
Arguments i_val {N} _.
Arguments i_key {N} _.
Arguments i_next {N} _.

Record Table (N : Type) : Type := mkTable {
  flags : Z;
  array : list (TValue N);
  sizearray : Z;
  lsizenode : Z;
  node : list (Node N);
  isdummy : bool;              (** [t->node == dummynode] *)
  lastfree : Z                 (** [t->lastfree - t->node] *)
}.
Arguments mkTable {N} _ _ _ _ _ _ _.
Arguments flags {N} _.
Arguments array {N} _.
Arguments sizearray {N} _.
Arguments lsizenode {N} _.
Arguments node {N} _.
Arguments isdummy {N} _.
Arguments lastfree {N} _.

Inductive slot : Type := SArray (i : nat) | SNode (i : nat).

Definition MAXBITS := 26.
Definition MAXASIZE := Z.shiftl 1 MAXBITS.
Definition MAX_INT := 2 ^ 31 - 1 - 2.

Section Table.
Context {N : Type} `{LuaNumber N}.
Variable tsv_hash : Z -> Z.

Implicit Types (t : Table N) (v key : TValue N) (k : TKey N).

Definition ttisnil v : bool := match v with Nil => true | _ => false end.
Definition knil k : bool := match k with Key Nil => true | _ => false end.

(** lobject.c *)
Definition luaO_rawequalObj (t1 t2 : TValue N) : bool :=
  match t1, t2 with
  | Nil, Nil => true
  | Number a, Number b => luai_numeq a b
  | Bool a, Bool b => Bool.eqb a b
  | LightUserdata p, LightUserdata q => p =? q
  | Str p, Str q => p =? q
  | GC ty p, GC ty' q => (ty =? ty') && (p =? q)
  | _, _ => false
  end.

(** [luaO_rawequalObj(key2tval(n), key)]: a dead key has a type of its own. *)
Definition rawequal_key k v : bool :=
  match k with Key w => luaO_rawequalObj w v | DeadKey _ => false end.

(** * Hashing *)

Definition twoto (x : Z) : Z := Z.shiftl 1 x.
Definition sizenode t : Z := twoto (lsizenode t).
Definition lmod (s size : Z) : Z := Z.land s (size - 1).

Definition hashpow2 (lsize n : Z) : nat := Z.to_nat (lmod n (twoto lsize)).
Definition hashmod (lsize n : Z) : nat := Z.to_nat (n mod Z.lor (twoto lsize - 1) 1).
Definition hashstr (lsize ts : Z) : nat := hashpow2 lsize (tsv_hash ts).
Definition hashboolean (lsize : Z) (b : bool) : nat := hashpow2 lsize (Z.b2z b).
Definition hashpointer (lsize p : Z) : nat := hashmod lsize (u32 p).
Definition hashnum (lsize : Z) (n : N) : nat :=
  hashmod lsize (foldl (fun a x => u32 (a + x)) 0 (num_ints (num_add1 n))).

(** The main position depends on the table only through [lsizenode]. *)
Definition mainposition (lsize : Z) v : nat :=
  match v with
  | Number n => hashnum lsize n
  | Str ts => hashstr lsize ts
  | Bool b => hashboolean lsize b
  | LightUserdata p => hashpointer lsize p
  | GC _ p => hashpointer lsize p
  | Nil => hashpointer lsize 0
  end.
Definition mainposition_key (lsize : Z) k : nat :=
  match k with Key v => mainposition lsize v | DeadKey p => hashpointer lsize p end.

Definition arrayindex key : Z :=
  match key with
  | Number n => let k := lua_number2int n in if luai_numeq (cast_num k) n then k else -1
  | _ => -1
  end.

(** * Slots *)

Definition slot_get t (s : slot) : TValue N :=
  match s with
  | SArray i => default Nil (array t !! i)
  | SNode i => default Nil (i_val <$> node t !! i)
  end.

Definition set_val v (n : Node N) : Node N := mkNode v (i_key n) (i_next n).
Definition set_next (o : option nat) (n : Node N) : Node N := mkNode (i_val n) (i_key n) o.
Definition set_key k (n : Node N) : Node N := mkNode (i_val n) k (i_next n).

Definition with_node t (nd : list (Node N)) : Table N :=
  mkTable (flags t) (array t) (sizearray t) (lsizenode t) nd (isdummy t) (lastfree t).
Definition with_lastfree t (l : Z) : Table N :=
  mkTable (flags t) (array t) (sizearray t) (lsizenode t) (node t) (isdummy t) l.
Definition with_array t (a : list (TValue N)) (size : Z) : Table N :=
  mkTable (flags t) a size (lsizenode t) (node t) (isdummy t) (lastfree t).
Definition with_flags t (f : Z) : Table N :=
  mkTable f (array t) (sizearray t) (lsizenode t) (node t) (isdummy t) (lastfree t).

(** Assignment through the [TValue*] returned by a luaH_set function. *)
Definition slot_set t (s : slot) v : Table N :=
  match s with
  | SArray i => with_array t (<[i := v]> (array t)) (sizearray t)
  | SNode i => with_node t (alter (set_val v) i (node t))
  end.

(** * Searching *)

(** The loop [do { if (P(n)) return n; else n = gnext(n); } while (n)]. *)
Fixpoint chain_find (fuel : nat) (P : TKey N -> bool) (nd : list (Node N)) (i : nat)
  : res (option nat) :=
  match fuel with
  | O => Timeout
  | S fuel' =>
      match nd !! i with
      | None => Err "dangling node"
      | Some n =>
          if P (i_key n) then Ok (Some i)
          else match i_next n with
               | Some j => chain_find fuel' P nd j
               | None => Ok None
               end
      end
  end.

(** A chain visits no node twice, so the number of nodes bounds the loop. *)
Definition find_node t (P : TKey N -> bool) (i : nat) : res (option slot) :=
  o <- chain_find (length (node t)) P (node t) i; Ok (option_map SNode o).

Definition is_num (n : N) k : bool :=
  match k with Key (Number m) => luai_numeq m n | _ => false end.
Definition is_str (ts : Z) k : bool := match k with Key (Str p) => p =? ts | _ => false end.

Definition luaH_getnum t (key : Z) : res (option slot) :=
  if u32 (key - 1) <? u32 (sizearray t) then Ok (Some (SArray (Z.to_nat (key - 1))))
  else let nk := cast_num key in find_node t (is_num nk) (hashnum (lsizenode t) nk).

Definition luaH_getstr t (key : Z) : res (option slot) :=
  find_node t (is_str key) (hashstr (lsizenode t) key).

Definition get_generic t key : res (option slot) :=
  find_node t (fun k => rawequal_key k key) (mainposition (lsizenode t) key).

Definition luaH_get t key : res (option slot) :=
  match key with
  | Nil => Ok None
  | Str ts => luaH_getstr t ts
  | Number n =>
      let k := lua_number2int n in
      if luai_numeq (cast_num k) n then luaH_getnum t k else get_generic t key
  | _ => get_generic t key
  end.

(** The value read through the result, [luaO_nilobject] when absent. *)
Definition opt_get t (o : option slot) : TValue N :=
  match o with Some s => slot_get t s | None => Nil end.

(** * Traversal *)

Definition key_or_dead key k : bool :=
  rawequal_key k key ||
  match k, key with
  | DeadKey p, Str q => p =? q
  | DeadKey p, GC _ q => p =? q
  | _, _ => false
  end.

Definition findindex t key : res Z :=
  if ttisnil key then Ok (-1)
  else
    let i := arrayindex key in
    if (0 <? i) && (i <=? sizearray t) then Ok (i - 1)
    else
      o <- chain_find (length (node t)) (key_or_dead key) (node t) (mainposition (lsizenode t) key);
      match o with
      | Some i => Ok (Z.of_nat i + sizearray t)
      | None => Err "invalid key to 'next'"
      end.

(** First index from [i], among the [n] following ones, with a non-nil value. *)
Fixpoint first_nonnil (at_ : nat -> TValue N) (n : nat) (i : nat) : option nat :=
  match n with
  | O => None
  | S n' => if ttisnil (at_ i) then first_nonnil at_ n' (S i) else Some i
  end.

(** [None] is "no more elements" (result 0). *)
Definition luaH_next t key : res (option (TValue N * TValue N)) :=
  i <- findindex t key;
  let i := i + 1 in
  let arr := fun i => slot_get t (SArray i) in
  let hash := fun i => slot_get t (SNode i) in
  match first_nonnil arr (Z.to_nat (sizearray t - i)) (Z.to_nat i) with
  | Some j => Ok (Some (Number (cast_num (Z.of_nat j + 1)), arr j))
  | None =>
      let i := Z.max i (sizearray t) - sizearray t in
      match first_nonnil hash (Z.to_nat (sizenode t - i)) (Z.to_nat i) with
      | Some j => Ok (Some (match i_key <$> node t !! j with
                            | Some (Key v) => v
                            | _ => Nil
                            end, hash j))
      | None => Ok None
      end
  end.

(** * Rehash *)

(** [twotoi/2 < *narray] holds for at most 27 turns. *)
Fixpoint computesizes_loop (fuel : nat) (nums : list Z) (narray : Z) (i : nat) (twotoi a na n : Z)
  : Z * Z :=
  match fuel with
  | O => (na, n)
  | S fuel' =>
      if twotoi / 2 <? narray then
        let c := default 0 (nums !! i) in
        let a' := if 0 <? c then a + c else a in
        let upd := (0 <? c) && (twotoi / 2 <? a') in
        let n' := if upd then twotoi else n in
        let na' := if upd then a' else na in
        if a' =? narray then (na', n')
        else computesizes_loop fuel' nums narray (S i) (twotoi * 2) a' na' n'
      else (na, n)
  end.

(** Returns [na] and the new [*narray]. *)
Definition computesizes (nums : list Z) (narray : Z) : Z * Z :=
  computesizes_loop 32 nums narray 0 1 0 0 0.

Definition ceillog2 (x : Z) : res Z := l <- luaO_log2 (u32 (x - 1)); Ok (l + 1).

Definition countint key (nums : list Z) : res (list Z * Z) :=
  let k := arrayindex key in
  if (0 <? k) && (k <=? MAXASIZE) then
    l <- ceillog2 k;
    Ok (alter (fun c => c + 1) (Z.to_nat l) nums, 1)
  else Ok (nums, 0).

(** Non-nil elements among the [n] that follow [i]. *)
Fixpoint count_nonnil (a : list (TValue N)) (i n : nat) : Z :=
  match n with
  | O => 0
  | S n' => (if ttisnil (default Nil (a !! i)) then 0 else 1) + count_nonnil a (S i) n'
  end.

(** The slice loop from [lg], [ttlg], with [i - 1 = i0] keys counted so far. *)
Fixpoint numusearray_loop (fuel : nat) (a : list (TValue N)) (size : Z) (nums : list Z)
    (lg : nat) (ttlg i0 ause : Z) : list Z * Z :=
  match fuel with
  | O => (nums, ause)
  | S fuel' =>
      let lim := if size <? ttlg then size else ttlg in
      if (size <? ttlg) && (lim <? i0 + 1) then (nums, ause)
      else
        let lc := count_nonnil a (Z.to_nat i0) (Z.to_nat (lim - i0)) in
        numusearray_loop fuel' a size (alter (fun c => c + lc) lg nums) (S lg) (ttlg * 2)
          (Z.max i0 lim) (ause + lc)
  end.

Definition numusearray t (nums : list Z) : list Z * Z :=
  numusearray_loop 27 (array t) (sizearray t) nums 0 1 0 0.

(** Nodes [i-1] down to [0]; returns the counts, [totaluse] and [ause]. *)
Fixpoint numusehash_loop (nd : list (Node N)) (i : nat) (nums : list Z) (totaluse ause : Z)
  : res (list Z * Z * Z) :=
  match i with
  | O => Ok (nums, totaluse, ause)
  | S i' =>
      match nd !! i' with
      | None => Err "dangling node"
      | Some n =>
          if ttisnil (i_val n) then numusehash_loop nd i' nums totaluse ause
          else
            '(nums, c) <- match i_key n with
                         | Key v => countint v nums
                         | DeadKey _ => Ok (nums, 0)
                         end;
            numusehash_loop nd i' nums (totaluse + 1) (ause + c)
      end
  end.

(** Returns the counts, [totaluse] and the new [*pnasize]. *)
Definition numusehash t (nums : list Z) (pnasize : Z) : res (list Z * Z * Z) :=
  '(nums, totaluse, ause) <- numusehash_loop (node t) (Z.to_nat (sizenode t)) nums 0 0;
  Ok (nums, totaluse, pnasize + ause).

(** The vector is reallocated and the places from [sizearray] set to nil. *)
Definition setarrayvector t (size : Z) : Table N :=
  with_array t (resize (Z.to_nat size) Nil (take (Z.to_nat (sizearray t)) (array t))) size.

Definition empty_node : Node N := mkNode Nil (Key Nil) None.

Definition setnodevector t (size : Z) : res (Table N) :=
  if size =? 0 then
    Ok (mkTable (flags t) (array t) (sizearray t) 0 [empty_node] true 0)
  else
    lsize <- ceillog2 size;
    if MAXBITS <? lsize then Err "table overflow"
    else
      let size := twoto lsize in
      Ok (mkTable (flags t) (array t) (sizearray t) lsize
            (replicate (Z.to_nat size) empty_node) false size).

(** Functions over [newkey], which rehashing calls back. *)
Section OpenRecursion.
Variable newkey : Table N -> TValue N -> res (Table N * slot).

Definition luaH_set_ t key : res (Table N * slot) :=
  p <- luaH_get t key;
  let t := with_flags t 0 in
  match p with
  | Some s => Ok (t, s)
  | None =>
      match key with
      | Nil => Err "table index is nil"
      | Number n => if luai_numisnan n then Err "table index is NaN" else newkey t key
      | _ => newkey t key
      end
  end.

Definition luaH_setnum_ t (key : Z) : res (Table N * slot) :=
  p <- luaH_getnum t key;
  match p with
  | Some s => Ok (t, s)
  | None => newkey t (Number (cast_num key))
  end.

Definition luaH_setstr_ t (key : Z) : res (Table N * slot) :=
  p <- luaH_getstr t key;
  match p with
  | Some s => Ok (t, s)
  | None => newkey t (Str key)
  end.

(** Re-insert the [n] elements that follow index [i] of the vanishing slice. *)
Fixpoint reinsert_array t (n : nat) (i : nat) : res (Table N) :=
  match n with
  | O => Ok t
  | S n' =>
      let v := slot_get t (SArray i) in
      if ttisnil v then reinsert_array t n' (S i)
      else
        '(t, s) <- luaH_setnum_ t (Z.of_nat i + 1);
        reinsert_array (slot_set t s (slot_get t (SArray i))) n' (S i)
  end.

(** Re-insert the old nodes [i-1] down to [0]. *)
Fixpoint reinsert_hash t (nold : list (Node N)) (i : nat) : res (Table N) :=
  match i with
  | O => Ok t
  | S i' =>
      match nold !! i' with
      | None => Err "dangling node"
      | Some old =>
          if ttisnil (i_val old) then reinsert_hash t nold i'
          else
            match i_key old with
            | DeadKey _ => Err "live entry with a dead key"
            | Key k =>
                '(t, s) <- luaH_set_ t k;
                reinsert_hash (slot_set t s (i_val old)) nold i'
            end
      end
  end.

Definition resize_ t (nasize nhsize : Z) : res (Table N) :=
  let oldasize := sizearray t in
  let oldhsize := lsizenode t in
  let nold := node t in
  let t := if oldasize <? nasize then setarrayvector t nasize else t in
  t <- setnodevector t nhsize;
  t <- (if nasize <? oldasize then
         let t := with_array t (array t) nasize in
         t <- reinsert_array t (Z.to_nat (oldasize - nasize)) (Z.to_nat nasize);
         Ok (with_array t (take (Z.to_nat nasize) (array t)) (sizearray t))
       else Ok t);
  reinsert_hash t nold (Z.to_nat (twoto oldhsize)).

Definition rehash_ t (ek : TValue N) : res (Table N) :=
  let nums := replicate 27 0 in
  let '(nums, nasize) := numusearray t nums in
  let totaluse := nasize in
  '(nums, hused, nasize) <- numusehash t nums nasize;
  let totaluse := totaluse + hused in
  '(nums, c) <- countint ek nums;
  let nasize := nasize + c in
  let totaluse := totaluse + 1 in
  let '(na, nasize) := computesizes nums nasize in
  resize_ t nasize (totaluse - na).

End OpenRecursion.

(** [while (t->lastfree-- > t->node) if (ttisnil(gkey(t->lastfree))) return]. *)
Fixpoint getfreepos_loop (nd : list (Node N)) (fuel : nat) (lf : Z) : Z * option nat :=
  match fuel with
  | O => (lf - 1, None)
  | S fuel' =>
      if 0 <? lf then
        match nd !! Z.to_nat (lf - 1) with
        | Some n => if knil (i_key n) then (lf - 1, Some (Z.to_nat (lf - 1)))
                    else getfreepos_loop nd fuel' (lf - 1)
        | None => getfreepos_loop nd fuel' (lf - 1)
        end
      else (lf - 1, None)
  end.

Definition getfreepos t : Table N * option nat :=
  let '(lf, r) := getfreepos_loop (node t) (Z.to_nat (lastfree t)) (lastfree t) in
  (with_lastfree t lf, r).

(** [while (gnext(othern) != mp) othern = gnext(othern)]. *)
Fixpoint find_prev (fuel : nat) (nd : list (Node N)) (othern mp : nat) : res nat :=
  match fuel with
  | O => Timeout
  | S fuel' =>
      match i_next <$> nd !! othern with
      | Some (Some j) => if decide (j = mp) then Ok othern else find_prev fuel' nd j mp
      | _ => Err "NULL node in a collision chain"
      end
  end.

(** Put the key in [mp] and return the slot of its value. *)
Definition store_key t (mp : nat) key : Table N * slot :=
  (with_node t (alter (set_key (Key key)) mp (node t)), SNode mp).

Fixpoint newkey (fuel : nat) t key : res (Table N * slot) :=
  match fuel with
  | O => Timeout
  | S fuel' =>
      let mp := mainposition (lsizenode t) key in
      match node t !! mp with
      | None => Err "dangling node"
      | Some mpn =>
          if negb (ttisnil (i_val mpn)) || isdummy t then
            match getfreepos t with
            | (t, None) =>
                t <- rehash_ (newkey fuel') t key;
                luaH_set_ (newkey fuel') t key
            | (t, Some n) =>
                let othern := mainposition_key (lsizenode t) (i_key mpn) in
                if decide (othern = mp) then
                  let nd := alter (set_next (i_next mpn)) n (node t) in
                  let nd := alter (set_next (Some n)) mp nd in
                  Ok (store_key (with_node t nd) n key)
                else
                  prev <- find_prev (length (node t)) (node t) othern mp;
                  let nd := alter (set_next (Some n)) prev (node t) in
                  let nd := <[n := mpn]> nd in
                  let nd := <[mp := mkNode Nil (i_key mpn) None]> nd in
                  Ok (store_key (with_node t nd) mp key)
            end
          else Ok (store_key t mp key)
      end
  end.

(** A rehash makes room, so [newkey] calls itself at most once. *)
Definition newkey_fuel : nat := 2.

Definition luaH_set t key : res (Table N * slot) := luaH_set_ (newkey newkey_fuel) t key.
Definition luaH_setnum t (key : Z) : res (Table N * slot) := luaH_setnum_ (newkey newkey_fuel) t key.
Definition luaH_setstr t (key : Z) : res (Table N * slot) := luaH_setstr_ (newkey newkey_fuel) t key.
Definition resize t (nasize nhsize : Z) : res (Table N) := resize_ (newkey newkey_fuel) t nasize nhsize.
Definition rehash t (ek : TValue N) : res (Table N) := rehash_ (newkey newkey_fuel) t ek.

Definition luaH_resizearray t (nasize : Z) : res (Table N) :=
  let nsize := if isdummy t then 0 else sizenode t in
  resize t nasize nsize.

Definition luaH_new (narray nhash : Z) : res (Table N) :=
  let t := mkTable (u8 (Z.lnot 0)) [] 0 0 [empty_node] true 0 in
  setnodevector (setarrayvector t narray) nhash.

(** lgc.c: the collector turns the key of an empty entry into a dead key. *)
Definition removeentry (n : Node N) : Node N :=
  match i_key n with
  | Key (Str p) => set_key (DeadKey p) n
  | Key (GC _ p) => set_key (DeadKey p) n
  | _ => n
  end.

(** The loop of traversetable over the nodes, as far as it changes the table. *)
Definition traversetable t : Table N :=
  with_node t (map (fun n => if ttisnil (i_val n) then removeentry n else n) (node t)).

(** * Length *)

(** [ttisnil(luaH_getnum(t, j))] *)
Definition nil_at t (j : Z) : res bool := o <- luaH_getnum t j; Ok (ttisnil (opt_get t o)).

(** One iteration of the doubling loop of unbound_search on [(i, j)]; it ends
    with the two bounds of a binary search, or on overflow with [None]. *)
Definition unbound_step t (s : Z * Z) : res ((Z * Z) + option (Z * Z)) :=
  let '(i, j) := s in
  b <- nil_at t j;
  if b then Ok (inr (Some (i, j)))
  else
    let i := j in
    let j := u32 (j * 2) in
    if MAX_INT <? j then Ok (inr None) else Ok (inl (i, j)).

(** [while (!ttisnil(luaH_getnum(t, i))) i++;] *)
Definition linear_step t (i : Z) : res (Z + Z) :=
  b <- nil_at t i; Ok (if b then inr i else inl (u32 (i + 1))).

(** [while (j - i > 1)]: binary search for a boundary between [i] and [j]. *)
Definition binary_step (isnil : Z -> res bool) (s : Z * Z) : res ((Z * Z) + Z) :=
  let '(i, j) := s in
  if 1 <? j - i then
    let m := (i + j) / 2 in
    b <- isnil m;
    Ok (inl (if b then (i, m) else (m, j)))
  else Ok (inr i).

Definition unbound_search t (j : Z) : res Z :=
  o <- (loop 33 (unbound_step t) (j, j + 1) : res (option (Z * Z)));
  match o with
  | None => i <- loop (Z.to_nat (2 ^ 32)) (linear_step t) 1; Ok (i - 1)
  | Some (i, j) => loop 33 (binary_step (nil_at t)) (i, j)
  end.

Definition luaH_getn t : res Z :=
  let j := sizearray t in
  if (0 <? j) && ttisnil (slot_get t (SArray (Z.to_nat (j - 1)))) then
    loop 33 (binary_step (fun m => Ok (ttisnil (slot_get t (SArray (Z.to_nat (m - 1))))))) (0, j)
  else if isdummy t then Ok j
  else unbound_search t j.

End Table.
