(* ===== verification/LuaTableWf.v ===== *)
(** Lua tables: collision chains, the well-formedness invariant of the hash
    part, and its preservation by every operation that does not rehash. *)
From stdpp Require Import base list sets.
From Stdlib Require Import ZArith Lia.
From S2P Require Import Prelude LuaNumber LuaObject LuaTable.
Open Scope nat_scope.

(** * Chains of a partial successor function *)
Section Chain.
Implicit Types (f : nat -> option nat) (l : list nat).

(** [l] is the chain that starts at [i]: the nodes met by following [f]. *)
Inductive chain f : nat -> list nat -> Prop :=
  | chain_end i : f i = None -> chain f i [i]
  | chain_step i j l : f i = Some j -> chain f j l -> chain f i (i :: l).

Lemma chain_head f i l : chain f i l -> exists l', l = i :: l'.
Proof. destruct 1; eauto. Qed.

Lemma chain_fun f i l l' : chain f i l -> chain f i l' -> l = l'.
Proof.
  intros H. revert l'. induction H as [i Hi|i j l Hi Hc IH]; intros l' H'.
  - destruct H'; congruence.
  - destruct H' as [i' Hi'|i' j' l' Hi' Hc']; [congruence|].
    f_equal. apply IH. congruence.
Qed.

Lemma chain_suffix f i l j : chain f i l -> j ∈ l -> exists l1 l2, l = l1 ++ l2 /\ chain f j l2.
Proof.
  induction 1 as [i Hi|i j' l Hi Hc IH]; intros Hj.
  - apply list_elem_of_singleton in Hj as ->. exists [], [i]. split; [done|by constructor].
  - apply elem_of_cons in Hj as [->|Hj].
    + exists [], (i :: l). split; [done|by econstructor].
    + destruct (IH Hj) as (l1 & l2 & -> & ?). exists (i :: l1), l2. by split.
Qed.

Lemma chain_NoDup f i l : chain f i l -> NoDup l.
Proof.
  induction 1 as [i Hi|i j l Hi Hc IH]; [apply NoDup_singleton|].
  constructor; [|done]. intros Hin.
  destruct (chain_suffix _ _ _ _ Hc Hin) as (l1 & l2 & -> & Hc2).
  assert (l2 = i :: l1 ++ l2) as E by (eapply chain_fun; [done|by econstructor]).
  apply (f_equal length) in E. cbn in E. rewrite length_app in E. lia.
Qed.

Lemma chain_bound f n i l : chain f i l -> (forall x, x ∈ l -> x < n) -> length l <= n.
Proof.
  intros Hc Hb. rewrite <- (length_seq n 0).
  apply submseteq_length, NoDup_submseteq; [by eapply chain_NoDup|].
  intros x Hx. apply elem_of_seq. specialize (Hb x Hx). lia.
Qed.

Lemma chain_range f n i l :
  (forall i j, f i = Some j -> j < n) -> i < n -> chain f i l -> forall x, x ∈ l -> x < n.
Proof.
  intros Hf Hi Hc. induction Hc as [i ?|i j l Hj Hc IH]; intros x Hx.
  - by apply list_elem_of_singleton in Hx as ->.
  - apply elem_of_cons in Hx as [->|Hx]; eauto.
Qed.

Definition reach f (i j : nat) : Prop := exists l, chain f i l /\ j ∈ l.

Lemma reach_refl f i l : chain f i l -> reach f i i.
Proof. intros Hc. exists l. split; [done|]. destruct (chain_head _ _ _ Hc) as [l' ->]. left. Qed.

Lemma chain_ext f g i l : (forall x, f x = g x) -> chain f i l -> chain g i l.
Proof.
  intros He Hc. induction Hc; [constructor 1|econstructor 2]; rewrite <- ?He; eauto.
Qed.

Lemma reach_ext f g i j : (forall x, f x = g x) -> reach f i j -> reach g i j.
Proof. intros He (l & Hc & Hj). exists l. split; [by eapply chain_ext|done]. Qed.

(** ** A fresh node [n] is linked after [mp] *)
Section Insert.
Context (f g : nat -> option nat) (mp n : nat).
Hypothesis Hne : n <> mp.
Hypothesis Hpred : forall i, f i <> Some n.
Hypothesis Hmp : g mp = Some n.
Hypothesis Hn : g n = f mp.
Hypothesis Hother : forall x, x <> mp -> x <> n -> g x = f x.

Lemma chain_insert i l :
  chain f i l -> i <> n ->
  exists l', chain g i l' /\ (forall x, x ∈ l -> x ∈ l') /\
    (i = mp -> n ∈ l').
Proof.
  induction 1 as [i Hi|i j l Hi Hc IH]; intros Hin.
  - destruct (decide (i = mp)) as [->|Hi'].
    + exists [mp; n]. split_and!; [|set_solver..].
      econstructor 2; [done|]. constructor. congruence.
    + exists [i]. split_and!; [|set_solver|done]. constructor. rewrite Hother; done.
  - destruct IH as (l' & Hc' & Hsub & _); [naive_solver|].
    destruct (decide (i = mp)) as [->|Hi'].
    + exists (mp :: n :: l'). split_and!; [|set_solver..].
      econstructor 2; [done|]. econstructor 2; [|done]. congruence.
    + exists (i :: l'). split_and!; [|set_solver|done]. econstructor 2; [|done].
      rewrite Hother; done.
Qed.

Lemma chain_insert_new l : chain f mp l -> exists l', chain g n l'.
Proof.
  intros Hc. destruct (chain_insert mp l Hc ltac:(done)) as (l' & Hc' & _ & Hin).
  destruct (chain_suffix _ _ _ n Hc' (Hin eq_refl)) as (? & l2 & _ & ?). eauto.
Qed.
End Insert.

(** ** Node [mp] moves to the fresh place [n] *)
Definition swap (a b x : nat) : nat :=
  if decide (x = a) then b else if decide (x = b) then a else x.

Lemma swap_l a b : swap a b a = b.
Proof. unfold swap. by rewrite decide_True. Qed.
Lemma swap_r a b : swap a b b = a.
Proof. unfold swap. repeat case_decide; congruence. Qed.
Lemma swap_other a b x : x <> a -> x <> b -> swap a b x = x.
Proof. intros. unfold swap. by rewrite !decide_False. Qed.
Lemma swap_invol a b x : swap a b (swap a b x) = x.
Proof. unfold swap. repeat case_decide; congruence. Qed.

Lemma chain_swap f g a b i l :
  (forall x, g (swap a b x) = option_map (swap a b) (f x)) ->
  chain f i l -> chain g (swap a b i) (map (swap a b) l).
Proof.
  intros Hg. induction 1 as [i Hi|i j l Hi Hc IH]; cbn.
  - constructor. by rewrite Hg, Hi.
  - econstructor 2; [|done]. by rewrite Hg, Hi.
Qed.

Lemma reach_swap f g a b i j :
  (forall x, g (swap a b x) = option_map (swap a b) (f x)) ->
  reach f i j -> reach g (swap a b i) (swap a b j).
Proof.
  intros Hg (l & Hc & Hj). exists (map (swap a b) l). split; [by eapply chain_swap|].
  by apply list_elem_of_fmap_2.
Qed.
End Chain.

(** * Keys *)

#[export] Instance nil_dec {N} (v : TValue N) : Decision (v = Nil).
Proof. destruct v; (left; done) || (right; done). Defined.

Section Wf.
Context {N : Type} `{LuaNumber N}.
Variable tsv_hash : Z -> Z.
Implicit Types (t : Table N) (v w : TValue N) (nd : list (Node N)).

Abbreviation rawequal := luaO_rawequalObj.
Abbreviation main := (mainposition tsv_hash).

Lemma rawequal_sym v w : rawequal v w = rawequal w v.
Proof.
  destruct v, w; cbn; try done; try apply numeq_sym; try apply Z.eqb_sym.
  - by destruct b, b0.
  - by rewrite Z.eqb_sym, (Z.eqb_sym p).
Qed.

(** Equal keys that are not numbers are the same value. *)
Lemma rawequal_cases v w :
  rawequal v w = true ->
  v = w \/ exists a b, v = Number a /\ w = Number b /\ luai_numeq a b = true.
Proof.
  destruct v, w; cbn; intros E; try discriminate; auto; zbool; subst; auto.
  - apply eqb_prop in E as ->. auto.
  - eauto 6.
Qed.

Lemma rawequal_trans u v w : rawequal u v = true -> rawequal v w = true -> rawequal u w = true.
Proof.
  intros H1 H2. destruct (rawequal_cases _ _ H1) as [->|(a & b & -> & -> & Hab)]; [done|].
  destruct (rawequal_cases _ _ H2) as [<-|(b' & c & [= <-] & -> & Hbc)]; [done|].
  cbn. by eapply numeq_trans.
Qed.

Lemma rawequal_true_l u v w : rawequal u v = true -> rawequal u w = rawequal v w.
Proof.
  intros E. destruct (rawequal u w) eqn:E1, (rawequal v w) eqn:E2; try done; exfalso.
  - rewrite rawequal_sym in E. rewrite (rawequal_trans _ _ _ E E1) in E2. done.
  - rewrite (rawequal_trans _ _ _ E E2) in E1. done.
Qed.

Lemma rawequal_nil v w : rawequal v w = true -> v = Nil -> w = Nil.
Proof. intros E ->. by destruct w. Qed.

Lemma rawequal_main lsize v w : rawequal v w = true -> main lsize v = main lsize w.
Proof.
  intros E. destruct (rawequal_cases _ _ E) as [->|(a & b & -> & -> & Hab)]; [done|].
  cbn. unfold hashnum. by rewrite (num_ints_ext _ _ Hab).
Qed.

Lemma arrayindex_s32 v : in_s 32 (arrayindex v).
Proof.
  unfold in_s. destruct v; cbn; try lia.
  destruct (luai_numeq _ _); [apply number2int_range|lia].
Qed.

Lemma rawequal_arrayindex v w : rawequal v w = true -> arrayindex v = arrayindex w.
Proof.
  assert (forall a b, luai_numeq a b = true ->
    luai_numeq (cast_num (lua_number2int a)) a = true ->
    lua_number2int b = lua_number2int a /\ luai_numeq (cast_num (lua_number2int b)) b = true) as Haux.
  { intros a b Hab Ha. assert (lua_number2int b = lua_number2int a) as E.
    { apply number2int_eq; [apply number2int_range|]. by eapply numeq_trans. }
    split; [done|]. rewrite E. by eapply numeq_trans. }
  intros E. destruct (rawequal_cases _ _ E) as [->|(a & b & -> & -> & Hab)]; [done|]. cbn.
  destruct (luai_numeq (cast_num (lua_number2int a)) a) eqn:Ea.
  - destruct (Haux a b Hab Ea) as [-> ->]. done.
  - destruct (luai_numeq (cast_num (lua_number2int b)) b) eqn:Eb; [|done].
    rewrite numeq_sym in Hab. destruct (Haux b a Hab Eb) as [? ?]. congruence.
Qed.

Lemma arrayindex_cast k : in_s 32 k -> arrayindex (Number (cast_num k)) = k.
Proof.
  intros Hk. cbn. rewrite (number2int_eq k) by auto using numeq_cast.
  by rewrite numeq_cast.
Qed.

(** A key with an array index equals the int it stands for. *)
Lemma arrayindex_rawequal v k :
  arrayindex v = k -> k <> (-1)%Z -> rawequal v (Number (cast_num k)) = true.
Proof.
  destruct v; cbn; intros E ?; try congruence.
  destruct (luai_numeq (cast_num (lua_number2int n)) n) eqn:En; [|congruence].
  subst. by rewrite numeq_sym.
Qed.

(** * Main positions are within the node vector *)

Lemma lmod_range l n : (0 <= l)%Z -> (0 <= lmod n (twoto l) < twoto l)%Z.
Proof.
  intros. unfold lmod, twoto. rewrite Z.shiftl_1_l.
  rewrite Z.sub_1_r, <- Z.ones_equiv, Z.land_ones by done.
  apply Z.mod_pos_bound, Z.pow_pos_nonneg; lia.
Qed.

Lemma hashmod_range l n : (0 <= l)%Z -> (Z.of_nat (hashmod l n) < twoto l)%Z.
Proof.
  intros Hl. unfold hashmod, twoto. rewrite Z.shiftl_1_l.
  assert (0 < Z.lor (2 ^ l - 1) 1 <= 2 ^ l)%Z.
  { destruct (Z.eq_dec l 0) as [->|]; [done|].
    assert (Z.lor (2 ^ l - 1) 1 = 2 ^ l - 1)%Z as ->.
    { rewrite Z.sub_1_r, <- Z.ones_equiv. apply Z.bits_inj'. intros k Hk.
      rewrite Z.lor_spec, Z.testbit_ones_nonneg by lia. destruct (Z.ltb_spec k l); [done|].
      cbn. change 1%Z with (Z.ones 1). rewrite Z.testbit_ones_nonneg by lia. lia. }
    assert (2 ^ 1 <= 2 ^ l)%Z by (apply Z.pow_le_mono_r; lia). lia. }
  pose proof (Z.mod_pos_bound n (Z.lor (2 ^ l - 1) 1) ltac:(lia)). lia.
Qed.

Lemma main_range l v : (0 <= l)%Z -> (Z.of_nat (main l v) < twoto l)%Z.
Proof.
  intros Hl. destruct v; cbn; try (by apply hashmod_range);
    unfold hashboolean, hashstr, hashpow2.
  - pose proof (lmod_range l (Z.b2z b) Hl). lia.
  - pose proof (lmod_range l (tsv_hash ts) Hl). lia.
Qed.

(** * The invariant of the hash part *)

Definition nxt nd (i : nat) : option nat := nd !! i ≫= i_next.
Definition keyat nd (i : nat) : option (TKey N) := i_key <$> nd !! i.
Definition valat nd (i : nat) : TValue N := default Nil (i_val <$> nd !! i).

Definition has_key nd (i : nat) v : Prop := keyat nd i = Some (Key v) /\ v <> Nil.
Definition free nd (i : nat) : Prop := keyat nd i = Some (Key Nil).

Record wf_hash (lsize : Z) nd : Prop := {
  wf_lsize : (0 <= lsize <= MAXBITS)%Z;
  wf_len : Z.of_nat (length nd) = twoto lsize;
  wf_next i j : nxt nd i = Some j -> j < length nd;
  wf_inj i j k : nxt nd i = Some k -> nxt nd j = Some k -> i = j;
  wf_chain i : i < length nd -> exists l, chain (nxt nd) i l;
  (** a free node is linked to nothing and holds nothing *)
  wf_free i : free nd i -> nxt nd i = None /\ valat nd i = Nil /\ forall j, nxt nd j <> Some i;
  wf_dead i p : keyat nd i = Some (DeadKey p) -> valat nd i = Nil;
  wf_valid i v : has_key nd i v -> rawequal v v = true;
  (** every key is found from its main position *)
  wf_reach i v : has_key nd i v -> reach (nxt nd) (main lsize v) i;
  (** Brent's variation: a key out of its main position collides with a key
      that is in its own main position *)
  wf_home i v : has_key nd i v ->
    ~ free nd (main lsize v) /\
    forall w, has_key nd (main lsize v) w -> main lsize w = main lsize v;
  wf_distinct i j v w : has_key nd i v -> has_key nd j w -> rawequal v w = true -> i = j
}.

Lemma wf_main lsize nd v : wf_hash lsize nd -> main lsize v < length nd.
Proof. intros W. pose proof (main_range lsize v ltac:(apply W)). pose proof (wf_len _ _ W). lia. Qed.

Lemma keyat_lt nd i k : keyat nd i = Some k -> i < length nd.
Proof. unfold keyat. intros (n & Hn & _)%fmap_Some. by eapply lookup_lt_Some. Qed.

(** * Searching a chain *)

Lemma chain_find_spec P nd i l fuel :
  chain (nxt nd) i l -> (forall x, x ∈ l -> x < length nd) -> length l <= fuel ->
  (exists x k, chain_find fuel P nd i = Ok (Some x) /\ x ∈ l /\ keyat nd x = Some k /\ P k = true) \/
  (chain_find fuel P nd i = Ok None /\ forall x k, x ∈ l -> keyat nd x = Some k -> P k = false).
Proof.
  intros Hc. revert fuel. induction Hc as [i Hi|i j l Hi Hc IH]; intros fuel Hr Hf.
  - destruct fuel as [|fuel]; [cbn in Hf; lia|]. cbn.
    destruct (nd !! i) as [n|] eqn:En; [|apply lookup_ge_None in En; specialize (Hr i); set_solver by lia].
    assert (keyat nd i = Some (i_key n)) as Ek by (unfold keyat; by rewrite En).
    unfold nxt in Hi. rewrite En in Hi. cbn in Hi. destruct (P (i_key n)) eqn:EP.
    + left. exists i, (i_key n). split_and!; set_solver.
    + right. rewrite Hi. split; [done|]. intros x k Hx%list_elem_of_singleton. congruence.
  - destruct fuel as [|fuel]; [cbn in Hf; lia|]. cbn.
    destruct (nd !! i) as [n|] eqn:En; [|apply lookup_ge_None in En; specialize (Hr i); set_solver by lia].
    assert (keyat nd i = Some (i_key n)) as Ek by (unfold keyat; by rewrite En).
    unfold nxt in Hi. rewrite En in Hi. cbn in Hi. destruct (P (i_key n)) eqn:EP.
    + left. exists i, (i_key n). split_and!; set_solver.
    + rewrite Hi. destruct (IH fuel) as [(x & k & ? & ? & ? & ?)|[? Hno]].
      * set_solver.
      * cbn in Hf. lia.
      * left. exists x, k. split_and!; set_solver.
      * right. split; [done|]. intros x k [->|Hx]%elem_of_cons Hk; [congruence|eauto].
Qed.

Lemma chain_find_ext P Q nd i fuel :
  (forall k, P k = Q k) -> chain_find fuel P nd i = chain_find fuel Q nd i.
Proof.
  intros HPQ. revert i. induction fuel as [|fuel IH]; intros i; [done|]. cbn.
  destruct (nd !! i) as [n|]; [|done]. rewrite HPQ. destruct (i_next n); [by rewrite IH|done].
Qed.

(** Searching a key from its main position finds the node that holds it, if
    there is one. *)
Lemma find_key lsize nd v :
  wf_hash lsize nd -> v <> Nil ->
  let r := chain_find (length nd) (fun k => rawequal_key k v) nd (main lsize v) in
  (exists i w, r = Ok (Some i) /\ has_key nd i w /\ rawequal w v = true) \/
  (r = Ok None /\ forall i w, has_key nd i w -> rawequal w v = false).
Proof.
  intros W Hv r. pose proof (wf_main _ _ v W) as Hm.
  destruct (wf_chain _ _ W _ Hm) as [l Hc].
  pose proof (chain_range _ _ _ _ (wf_next _ _ W) Hm Hc) as Hr.
  destruct (chain_find_spec (fun k => rawequal_key k v) nd _ l (length nd) Hc Hr)
    as [(x & k & Hx & Hin & Hk & HP)|[Hx Hno]]; [by eapply chain_bound|..].
  - left. destruct k as [w|]; [|done]. exists x, w. split_and!; [done|..|done].
    split; [done|]. intros ->. by destruct v.
  - right. split; [done|]. intros i w Hw. destruct (rawequal w v) eqn:E; [|done].
    destruct (wf_reach _ _ W i w Hw) as (l' & Hc' & Hi).
    rewrite (rawequal_main lsize _ _ E) in Hc'.
    rewrite (chain_fun _ _ _ _ Hc' Hc) in Hi. destruct Hw as [Hw _].
    specialize (Hno i (Key w) Hi Hw). cbn in Hno. congruence.
Qed.

(** * Contents, room *)

(** The live entry of the hash part for key [w]. *)
Definition holds nd w (x : TValue N) : Prop :=
  exists i w', has_key nd i w' /\ rawequal w' w = true /\ valat nd i = x /\ x <> Nil.

(** At most [k] nodes are not free. *)
Definition used_le nd (k : nat) : Prop :=
  exists L : list nat, length L <= k /\ forall i, i < length nd -> ~ free nd i -> i ∈ L.

Lemma used_le_room nd k : used_le nd k -> k < length nd -> exists i, i < length nd /\ free nd i.
Proof.
  intros (L & HL & Hin) Hk.
  assert (forall n, n <= length nd -> (exists i, i < n /\ free nd i) \/
    (forall i, i < n -> i ∈ L)) as Haux.
  { induction n as [|n IH]; intros Hn; [right; lia|].
    destruct (IH ltac:(lia)) as [(i & ? & ?)|Hall]; [left; exists i; split; [lia|done]|].
    assert (free nd n \/ ~ free nd n) as [Hf|Hf].
    { unfold free. destruct (keyat nd n) as [[[]|]|]; (by left) || (by right). }
    - left. eauto.
    - right. intros i Hi. destruct (decide (i = n)) as [->|]; [auto with lia|apply Hall; lia]. }
  destruct (Haux (length nd) ltac:(lia)) as [|Hall]; [done|exfalso].
  assert (length (seq 0 (length nd)) <= length L) as Hle.
  { apply submseteq_length, NoDup_submseteq; [apply NoDup_seq|].
    intros i Hi%elem_of_seq. apply Hall. lia. }
  rewrite length_seq in Hle. lia.
Qed.

(** What [newkey] promises when it finds a place: node [i] of the new vector
    holds key [v] with a nil value, and no live entry has changed. *)
Record newkey_ok (lsize : Z) nd v nd' (i : nat) : Prop := {
  nk_wf : wf_hash lsize nd';
  nk_key : has_key nd' i v;
  nk_val : valat nd' i = Nil;
  nk_holds w x : holds nd' w x <-> holds nd w x;
  nk_used k : used_le nd k -> used_le nd' (S k);
  nk_len : length nd' = length nd;
  nk_free j : free nd' j -> free nd j;
  nk_keys j w : has_key nd' j w -> w = v \/ exists j', has_key nd j' w
}.

(** The node fields after an update of one node. *)
Lemma lookup_alter_if {A} (f : A -> A) (l : list A) i j :
  alter f i l !! j = (if decide (i = j) then f <$> l !! j else l !! j).
Proof.
  case_decide as E; [subst; by rewrite list_lookup_alter_eq|by rewrite list_lookup_alter_ne].
Qed.

Section Fresh.
Context (lsize : Z) (nd : list (Node N)) (v : TValue N).
Hypothesis W : wf_hash lsize nd.
Hypothesis Hnil : v <> Nil.
Hypothesis Hvv : rawequal v v = true.
Hypothesis Hfresh : forall i w, has_key nd i w -> rawequal w v = false.

Lemma fresh_ne i w : has_key nd i w -> rawequal v w = true -> False.
Proof. intros Hk E. rewrite rawequal_sym, (Hfresh i w Hk) in E. done. Qed.

(** Case 1: the main position holds no live entry. *)
Section Overwrite.
Let mp := main lsize v.
Hypothesis Hval : valat nd mp = Nil.
Let nd' := alter (set_key (Key v)) mp nd.

Lemma ow_nxt i : nxt nd' i = nxt nd i.
Proof. unfold nxt, nd'. rewrite lookup_alter_if. case_decide; [|done]. by destruct (nd !! i). Qed.
Lemma ow_val i : valat nd' i = valat nd i.
Proof. unfold valat, nd'. rewrite lookup_alter_if. case_decide; [|done]. by destruct (nd !! i). Qed.
Lemma ow_key i : keyat nd' i = if decide (i = mp) then Some (Key v) else keyat nd i.
Proof.
  unfold keyat, nd'. rewrite lookup_alter_if. repeat case_decide; try congruence. subst.
  destruct (lookup_lt_is_Some_2 nd mp (wf_main _ _ v W)) as [n ->]. done.
Qed.
Lemma ow_has i w : has_key nd' i w <-> (i = mp /\ w = v) \/ (i <> mp /\ has_key nd i w).
Proof. unfold has_key. rewrite ow_key. case_decide; naive_solver. Qed.
Lemma ow_free i : free nd' i <-> i <> mp /\ free nd i.
Proof. unfold free. rewrite ow_key. case_decide; naive_solver. Qed.

Lemma newkey_overwrite : newkey_ok lsize nd v nd' mp.
Proof.
  assert (length nd' = length nd) as Hlen by apply length_alter.
  assert (forall i j, reach (nxt nd) i j -> reach (nxt nd') i j) as Hreach.
  { intros i j. apply reach_ext. intros. by rewrite ow_nxt. }
  split; try done.
  - split; intros *; rewrite ?ow_nxt, ?ow_val, ?ow_has, ?ow_free, ?Hlen; try apply W.
    + intros Hi. destruct (wf_chain _ _ W _ Hi) as [l Hc]. exists l.
      eapply chain_ext; [|done]. intros. by rewrite ow_nxt.
    + intros [? Hf]. destruct (wf_free _ _ W _ Hf) as (? & ? & ?). split_and!; try done.
      intros j. by rewrite ow_nxt.
    + rewrite ow_key. case_decide; [done|]. apply W.
    + intros [[-> ->]|[_ Hk]]; [done|]. by eapply (wf_valid _ _ W).
    + intros [[-> ->]|[_ Hk]]; apply Hreach; [|by apply W].
      destruct (wf_chain _ _ W mp) as [l Hc]; [by apply wf_main|]. by eapply reach_refl.
    + intros [[-> ->]|[_ Hk]].
      * split; [naive_solver|]. intros w. rewrite ow_has. naive_solver.
      * destruct (wf_home _ _ W _ _ Hk) as [Hf Hm]. split; [naive_solver|].
        intros w. rewrite ow_has. intros [[E ->]|[_ Hw]]; [by rewrite E|by apply Hm].
    + intros [[-> ->]|[? Hk]] [[-> ->]|[? Hk']] E; try done.
      * exfalso. by eapply fresh_ne.
      * exfalso. rewrite rawequal_sym in E. by eapply fresh_ne.
      * by eapply (wf_distinct _ _ W).
  - rewrite ow_has. by left.
  - by rewrite ow_val.
  - intros w x. unfold holds. split.
    + intros (i & w' & Hk & E & Hx & Hnn). rewrite ow_val in Hx.
      apply ow_has in Hk as [[-> ->]|[? Hk]]; [congruence|eauto 10].
    + intros (i & w' & Hk & E & Hx & Hnn). exists i, w'. rewrite ow_val, ow_has.
      split_and!; try done. right. split; [congruence|done].
  - intros k (L & HL & Hin). exists (mp :: L). split; [cbn; lia|].
    intros i Hi Hf. rewrite Hlen in Hi. apply elem_of_cons.
    destruct (decide (i = mp)); [by left|right]. apply Hin; [done|].
    intros ?. apply Hf, ow_free. done.
  - intros j. rewrite ow_free. naive_solver.
  - intros j w. rewrite ow_has. naive_solver.
Qed.
End Overwrite.

(** The other two cases link a free node [n]; the main position holds the live
    entry [mpn] with key [w0]. *)
Section Linked.
Let mp := main lsize v.
Context (n : nat) (mpn : Node N) (w0 : TValue N).
Hypothesis Hfree : free nd n.
Hypothesis Hmpn : nd !! mp = Some mpn.
Hypothesis Hw0 : i_key mpn = Key w0.
Hypothesis Hw0nil : w0 <> Nil.

Lemma lk_has : has_key nd mp w0.
Proof. split; [|done]. unfold keyat. by rewrite Hmpn, <- Hw0. Qed.

Lemma lk_ne : n <> mp.
Proof. intros ->. unfold free in Hfree. destruct lk_has as [E _]. congruence. Qed.

Lemma lk_nxt_mp : nxt nd mp = i_next mpn.
Proof. unfold nxt. by rewrite Hmpn. Qed.

Lemma lk_pred j : nxt nd j <> Some n.
Proof. apply (wf_free _ _ W n Hfree). Qed.

Lemma lk_no_has w : ~ has_key nd n w.
Proof. intros [E ?]. unfold free in Hfree. congruence. Qed.

Lemma lk_home_ne i w : has_key nd i w -> main lsize w <> n.
Proof. intros Hk E. apply (wf_home _ _ W) in Hk as [Hf _]. by rewrite E in Hf. Qed.

(** Case 2: the colliding node is in its main position; the new key goes to
    [n], linked after it. *)
Section Link.
Context (nd' : list (Node N)).
Hypothesis Hhome : main lsize w0 = mp.
Hypothesis Hlen : length nd' = length nd.
Hypothesis Hn : nd' !! n = Some (mkNode Nil (Key v) (i_next mpn)).
Hypothesis Hmp : nd' !! mp = Some (mkNode (i_val mpn) (i_key mpn) (Some n)).
Hypothesis Hother : forall i, i <> n -> i <> mp -> nd' !! i = nd !! i.

Lemma ln_nxt_n : nxt nd' n = nxt nd mp.
Proof. rewrite lk_nxt_mp. unfold nxt. by rewrite Hn. Qed.
Lemma ln_nxt_mp : nxt nd' mp = Some n.
Proof. unfold nxt. by rewrite Hmp. Qed.
Lemma ln_nxt i : i <> mp -> i <> n -> nxt nd' i = nxt nd i.
Proof. intros. unfold nxt. by rewrite Hother. Qed.
Lemma ln_val i : valat nd' i = valat nd i.
Proof.
  destruct (decide (i = n)) as [->|]; [|destruct (decide (i = mp)) as [->|]].
  - destruct (wf_free _ _ W n Hfree) as (_ & -> & _). unfold valat. by rewrite Hn.
  - unfold valat. by rewrite Hmp, Hmpn.
  - unfold valat. by rewrite Hother.
Qed.
Lemma ln_key i : keyat nd' i = if decide (i = n) then Some (Key v) else keyat nd i.
Proof.
  case_decide as E; [subst; unfold keyat; by rewrite Hn|].
  destruct (decide (i = mp)) as [->|]; unfold keyat; [by rewrite Hmp, Hmpn|by rewrite Hother].
Qed.
Lemma ln_has i w : has_key nd' i w <-> (i = n /\ w = v) \/ (i <> n /\ has_key nd i w).
Proof. unfold has_key. rewrite ln_key. case_decide; naive_solver. Qed.
Lemma ln_free i : free nd' i <-> i <> n /\ free nd i.
Proof. unfold free. rewrite ln_key. case_decide; naive_solver. Qed.

Lemma ln_reach i j : reach (nxt nd) i j -> i <> n -> reach (nxt nd') i j.
Proof.
  intros (l & Hc & Hj) Hi.
  destruct (chain_insert (nxt nd) (nxt nd') mp n lk_ne lk_pred ln_nxt_mp ln_nxt_n ln_nxt i l Hc Hi)
    as (l' & Hc' & Hsub & _). exists l'. auto.
Qed.

Lemma ln_new : (exists l, chain (nxt nd') n l) /\ reach (nxt nd') mp n.
Proof.
  destruct (wf_chain _ _ W mp) as [l Hc]; [by apply wf_main|].
  destruct (chain_insert (nxt nd) (nxt nd') mp n lk_ne lk_pred ln_nxt_mp ln_nxt_n ln_nxt mp l Hc)
    as (l' & Hc' & _ & Hin); [by apply not_eq_sym, lk_ne|].
  split; [|exists l'; auto].
  destruct (chain_suffix _ _ _ n Hc' (Hin eq_refl)) as (? & l2 & _ & ?). eauto.
Qed.

Lemma ln_inj i j k : nxt nd' i = Some k -> nxt nd' j = Some k -> i = j.
Proof.
  pose proof lk_ne. pose proof lk_pred as Hpred. pose proof (wf_inj _ _ W) as Hinj.
  destruct (decide (i = mp)) as [->|], (decide (j = mp)) as [->|]; rewrite ?ln_nxt_mp; try done.
  - intros [= <-]. destruct (decide (j = n)) as [->|]; [|rewrite ln_nxt by done; naive_solver].
    rewrite ln_nxt_n. naive_solver.
  - intros Hi [= <-]. destruct (decide (i = n)) as [->|]; [|rewrite ln_nxt in Hi by done; naive_solver].
    rewrite ln_nxt_n in Hi. naive_solver.
  - destruct (decide (i = n)) as [->|], (decide (j = n)) as [->|];
      rewrite ?ln_nxt_n, ?ln_nxt by done; try done; intros E1 E2.
    + exfalso. naive_solver.
    + exfalso. naive_solver.
    + naive_solver.
Qed.

Lemma newkey_link : newkey_ok lsize nd v nd' n.
Proof.
  pose proof lk_ne as Hne. pose proof lk_pred as Hpred. pose proof lk_no_has as Hno.
  assert (n < length nd) as Hnlt by (rewrite <- Hlen; by eapply lookup_lt_Some).
  split; try done.
  - split; intros *; rewrite ?ln_val, ?ln_has, ?ln_free, ?Hlen; try apply W.
    + destruct (decide (i = mp)) as [->|]; [rewrite ln_nxt_mp; by intros [= <-]|].
      destruct (decide (i = n)) as [->|]; [rewrite ln_nxt_n|rewrite ln_nxt by done]; apply W.
    + apply ln_inj.
    + intros Hi. destruct (decide (i = n)) as [->|]; [by apply ln_new|].
      destruct (wf_chain _ _ W _ Hi) as [l Hc].
      destruct (chain_insert (nxt nd) (nxt nd') mp n Hne Hpred ln_nxt_mp ln_nxt_n ln_nxt i l Hc)
        as (l' & ? & _); eauto.
    + intros [? Hf]. destruct (wf_free _ _ W _ Hf) as (Hnx & ? & Hp).
      assert (i <> mp) by (intros ->; destruct lk_has as [E _]; unfold free in Hf; congruence).
      split_and!; [by rewrite ln_nxt|done|]. intros j.
      destruct (decide (j = mp)) as [->|]; [rewrite ln_nxt_mp; congruence|].
      destruct (decide (j = n)) as [->|]; [rewrite ln_nxt_n|rewrite ln_nxt by done]; apply Hp.
    + rewrite ln_key. case_decide; [done|]. apply W.
    + intros [[-> ->]|[_ Hk]]; [done|]. by eapply (wf_valid _ _ W).
    + intros [[-> ->]|[? Hk]]; [apply ln_new|]. apply ln_reach; [by apply W|].
      by eapply lk_home_ne.
    + intros [[-> ->]|[? Hk]].
      * fold mp. split; [intros [_ Hf]; destruct lk_has as [E _]; unfold free in Hf; congruence|].
        intros w. rewrite ln_has. intros [[E' _]|[_ [Hw _]]]; [by destruct Hne|].
        fold mp in Hw. destruct lk_has as [E _]. assert (w = w0) as -> by congruence. done.
      * destruct (wf_home _ _ W _ _ Hk) as [Hf Hm]. split; [naive_solver|].
        intros w. rewrite ln_has. intros [[E _]|[_ Hw]]; [|by apply Hm].
        exfalso. by eapply lk_home_ne.
    + intros [[-> ->]|[? Hk]] [[-> ->]|[? Hk']] E; try done.
      * exfalso. by eapply fresh_ne.
      * exfalso. rewrite rawequal_sym in E. by eapply fresh_ne.
      * by eapply (wf_distinct _ _ W).
  - rewrite ln_has. by left.
  - rewrite ln_val. by apply (wf_free _ _ W).
  - intros w x. unfold holds. split.
    + intros (i & w' & Hk & E & Hx & Hnn). rewrite ln_val in Hx.
      apply ln_has in Hk as [[-> ->]|[? Hk]]; [|eauto 10].
      destruct (wf_free _ _ W n Hfree) as (_ & ? & _). congruence.
    + intros (i & w' & Hk & E & Hx & Hnn). exists i, w'. rewrite ln_val, ln_has.
      split_and!; try done. right. split; [naive_solver|done].
  - intros k (L & HL & Hin). exists (n :: L). split; [cbn; lia|].
    intros i Hi Hf. rewrite Hlen in Hi. apply elem_of_cons.
    destruct (decide (i = n)); [by left|right]. apply Hin; [done|].
    intros ?. apply Hf, ln_free. done.
  - intros j. rewrite ln_free. naive_solver.
  - intros j w. rewrite ln_has. naive_solver.
Qed.
End Link.

(** Case 3: the colliding node is out of its main position; it moves to [n],
    its predecessor [p] is redirected, and the new key takes its place. *)
Section Move.
Context (nd' : list (Node N)) (p : nat) (pn : Node N).
Hypothesis Hhome : main lsize w0 <> mp.
Hypothesis Hval : i_val mpn <> Nil.
Hypothesis Hprev : nd !! p = Some pn.
Hypothesis Hpnext : i_next pn = Some mp.
Hypothesis Hlen : length nd' = length nd.
Hypothesis Hp : nd' !! p = Some (set_next (Some n) pn).
Hypothesis Hn : nd' !! n = Some mpn.
Hypothesis Hmp : nd' !! mp = Some (mkNode Nil (Key v) None).
Hypothesis Hother : forall i, i <> n -> i <> mp -> i <> p -> nd' !! i = nd !! i.

Abbreviation sw := (swap n mp).

(** No key has [mp] as main position. *)
Lemma mv_no_main i w : has_key nd i w -> main lsize w <> mp.
Proof.
  intros Hk E. destruct (wf_home _ _ W _ _ Hk) as [_ Hm]. rewrite E in Hm.
  apply Hhome, Hm, lk_has.
Qed.

Lemma mv_p_nxt : nxt nd p = Some mp.
Proof. unfold nxt. by rewrite Hprev. Qed.
Lemma mv_p_n : p <> n.
Proof.
  pose proof mv_p_nxt as Hpn. intros E. destruct (wf_free _ _ W n Hfree) as [E' _]. congruence.
Qed.
Lemma mv_no_loop i l : chain (nxt nd) i l -> nxt nd i <> Some i.
Proof.
  intros Hc E. pose proof (chain_NoDup _ _ _ Hc) as Hd.
  destruct Hc as [i Hi|i j l Hi Hc]; [congruence|]. rewrite E in Hi. injection Hi as <-.
  destruct (chain_head _ _ _ Hc) as [l' ->]. apply NoDup_cons in Hd as [Hd _]. apply Hd. left.
Qed.
Lemma mv_mp_loop : nxt nd mp <> Some mp.
Proof. destruct (wf_chain _ _ W mp) as [l Hc]; [by apply wf_main|]. by eapply mv_no_loop. Qed.
Lemma mv_p_mp : p <> mp.
Proof. intros E. apply mv_mp_loop. rewrite <- E at 1. apply mv_p_nxt. Qed.

Lemma mv_nxt x : nxt nd' (sw x) = option_map sw (nxt nd x).
Proof.
  pose proof lk_ne as Hne. pose proof lk_pred as Hpred. pose proof mv_p_n. pose proof mv_p_mp.
  pose proof mv_p_nxt as Hpn. pose proof mv_mp_loop as Hl.
  assert (forall j, nxt nd x = Some j -> j <> mp -> sw j = j) as Hsw.
  { intros j Hj ?. apply swap_other; [|done]. intros ->. by apply (Hpred x). }
  destruct (decide (x = n)) as [->|]; [|destruct (decide (x = mp)) as [->|];
    [|destruct (decide (x = p)) as [->|]]].
  - rewrite swap_l. destruct (wf_free _ _ W n Hfree) as [-> _]. unfold nxt. by rewrite Hmp.
  - rewrite swap_r. unfold nxt at 1. rewrite Hn. cbn.
    rewrite lk_nxt_mp in *.
    destruct (i_next mpn) as [j|]; [|done]. cbn. rewrite (Hsw j); congruence.
  - rewrite swap_other by done. rewrite Hpn. cbn. rewrite swap_r.
    unfold nxt. by rewrite Hp.
  - rewrite swap_other by done. unfold nxt at 1. rewrite Hother by done. fold (nxt nd x).
    destruct (nxt nd x) as [j|] eqn:Ej; [|done]. cbn. rewrite (Hsw j); [done..|].
    intros ->. pose proof (wf_inj _ _ W x p mp Ej Hpn). done.
Qed.

Lemma mv_key x : keyat nd' (sw x) = if decide (x = n) then Some (Key v) else keyat nd x.
Proof.
  pose proof lk_ne as Hne. case_decide as E; [subst; rewrite swap_l; unfold keyat; by rewrite Hmp|].
  destruct (decide (x = mp)) as [->|]; [rewrite swap_r; unfold keyat; by rewrite Hn, Hmpn|].
  rewrite swap_other by done. unfold keyat.
  destruct (decide (x = p)) as [->|]; [by rewrite Hp, Hprev|by rewrite Hother].
Qed.
Lemma mv_val x : valat nd' (sw x) = valat nd x.
Proof.
  pose proof lk_ne as Hne. destruct (decide (x = n)) as [->|].
  { rewrite swap_l. destruct (wf_free _ _ W n Hfree) as (_ & -> & _). unfold valat. by rewrite Hmp. }
  destruct (decide (x = mp)) as [->|]; [rewrite swap_r; unfold valat; by rewrite Hn, Hmpn|].
  rewrite swap_other by done. unfold valat.
  destruct (decide (x = p)) as [->|]; [by rewrite Hp, Hprev|by rewrite Hother].
Qed.
Lemma mv_has x w : has_key nd' (sw x) w <-> (x = n /\ w = v) \/ (x <> n /\ has_key nd x w).
Proof. unfold has_key. rewrite mv_key. case_decide; naive_solver. Qed.
Lemma mv_free x : free nd' (sw x) <-> x <> n /\ free nd x.
Proof. unfold free. rewrite mv_key. case_decide; naive_solver. Qed.

Lemma mv_sw x : exists y, x = sw y.
Proof. exists (sw x). by rewrite swap_invol. Qed.
Lemma mv_sw_inj x y : sw x = sw y -> x = y.
Proof. intros E. rewrite <- (swap_invol n mp x), E. apply swap_invol. Qed.
Lemma mv_sw_lt x : n < length nd -> x < length nd -> sw x < length nd.
Proof.
  intros. pose proof (wf_main _ _ v W). unfold swap. repeat case_decide; unfold mp; lia.
Qed.

Lemma mv_main_fix i w : has_key nd i w -> sw (main lsize w) = main lsize w.
Proof. intros Hk. apply swap_other; [by eapply lk_home_ne|by eapply mv_no_main]. Qed.

Lemma mv_reach i w : has_key nd i w -> reach (nxt nd') (main lsize w) (sw i).
Proof.
  intros Hk. rewrite <- (mv_main_fix i w) by done.
  apply (reach_swap (nxt nd)); [apply mv_nxt|by apply W].
Qed.

Lemma mv_some x j : nxt nd' (sw x) = Some j -> exists y, nxt nd x = Some y /\ j = sw y.
Proof. rewrite mv_nxt. destruct (nxt nd x); naive_solver. Qed.

Lemma mv_wf_home x w : has_key nd' (sw x) w ->
  ~ free nd' (main lsize w) /\ forall w', has_key nd' (main lsize w) w' -> main lsize w' = main lsize w.
Proof.
  intros [[-> ->]|[? Hk]]%mv_has.
  - fold mp. rewrite <- (swap_l n mp). rewrite mv_free. split; [naive_solver|].
    intros w'. rewrite mv_has. rewrite swap_l. intros [[_ ->]|[? _]]; done.
  - destruct (wf_home _ _ W _ _ Hk) as [Hf Hm].
    rewrite <- (mv_main_fix x w) by done. rewrite mv_free, (mv_main_fix x w) by done.
    split; [naive_solver|]. intros w'. rewrite <- (mv_main_fix x w) at 1 by done.
    rewrite mv_has. intros [[E _]|[_ Hw]]; [|by apply Hm]. exfalso. by eapply lk_home_ne.
Qed.

Lemma mv_wf : wf_hash lsize nd'.
Proof.
  pose proof lk_ne as Hne. pose proof lk_pred as Hpred.
  assert (n < length nd) as Hnlt by (rewrite <- Hlen; by eapply lookup_lt_Some).
  split; try rewrite Hlen; try apply W.
  - intros i j. destruct (mv_sw i) as [x ->]. intros (y & Hy & ->)%mv_some.
    apply mv_sw_lt; [done|]. by eapply (wf_next _ _ W).
  - intros i j k. destruct (mv_sw i) as [x ->], (mv_sw j) as [y ->].
    intros (z & Hz & ->)%mv_some (z' & Hz' & E%mv_sw_inj)%mv_some. subst.
    f_equal. by eapply (wf_inj _ _ W).
  - intros i Hi. rewrite <- (swap_invol n mp i).
    destruct (wf_chain _ _ W (sw i)) as [l Hc]; [by apply mv_sw_lt|].
    exists (map sw l). eapply chain_swap; [apply mv_nxt|done].
  - intros i. destruct (mv_sw i) as [x ->]. rewrite mv_free, mv_val, mv_nxt. intros [? Hf].
    destruct (wf_free _ _ W x Hf) as (-> & ? & Hpr). split_and!; [done..|].
    intros j. destruct (mv_sw j) as [y ->]. intros (z & Hz & E%mv_sw_inj)%mv_some. subst.
    by apply (Hpr y).
  - intros i q. destruct (mv_sw i) as [x ->]. rewrite mv_key, mv_val. case_decide; [done|]. apply W.
  - intros i w. destruct (mv_sw i) as [x ->]. rewrite mv_has.
    intros [[-> ->]|[_ Hk]]; [done|]. by eapply (wf_valid _ _ W).
  - intros i w. destruct (mv_sw i) as [x ->]. rewrite mv_has.
    intros [[-> ->]|[? Hk]]; [|by apply mv_reach]. fold mp.
    destruct (wf_chain _ _ W n Hnlt) as [l Hc].
    pose proof (reach_swap (nxt nd) (nxt nd') n mp n n mv_nxt (reach_refl _ _ _ Hc)) as Hr.
    by rewrite swap_l in Hr |- *.
  - intros i w. destruct (mv_sw i) as [x ->]. apply mv_wf_home.
  - intros i j w w'. destruct (mv_sw i) as [x ->], (mv_sw j) as [y ->]. rewrite !mv_has.
    intros [[-> ->]|[? Hk]] [[-> ->]|[? Hk']] E; try done.
    + exfalso. by eapply fresh_ne.
    + exfalso. rewrite rawequal_sym in E. by eapply fresh_ne.
    + f_equal. by eapply (wf_distinct _ _ W).
Qed.

Lemma newkey_move : newkey_ok lsize nd v nd' mp.
Proof.
  pose proof lk_ne as Hne. pose proof lk_no_has as Hno.
  assert (n < length nd) as Hnlt by (rewrite <- Hlen; by eapply lookup_lt_Some).
  split; try done.
  - apply mv_wf.
  - rewrite <- (swap_l n mp), mv_has. by left.
  - unfold valat. by rewrite Hmp.
  - intros w x. unfold holds. split.
    + intros (i & w' & Hk & E & Hx & Hnn). destruct (mv_sw i) as [y ->].
      rewrite mv_val in Hx. apply mv_has in Hk as [[-> ->]|[? Hk]]; [|eauto 10].
      destruct (wf_free _ _ W n Hfree) as (_ & ? & _). congruence.
    + intros (i & w' & Hk & E & Hx & Hnn). exists (sw i), w'. rewrite mv_val, mv_has.
      split_and!; try done. right. split; [naive_solver|done].
  - intros k (L & HL & Hin). exists (mp :: n :: filter (fun x => x <> mp) L).
    assert (mp ∈ L) as HmpL.
    { apply Hin; [by apply wf_main|]. intros Hf. destruct lk_has as [E _]. unfold free in Hf. congruence. }
    split.
    { cbn. assert (length (filter (fun x => x <> mp) L) < length L); [|lia].
      apply length_filter_lt with (x := mp); [done|naive_solver]. }
    intros i Hi Hf. rewrite Hlen in Hi. rewrite !elem_of_cons, list_elem_of_filter.
    destruct (decide (i = mp)); [by left|]. destruct (decide (i = n)); [by right; left|].
    right. right. split; [done|]. apply Hin; [done|]. intros Hf'. apply Hf.
    rewrite <- (swap_other n mp i), mv_free by done. done.
  - intros j. destruct (mv_sw j) as [x ->]. rewrite mv_free. intros [? Hf].
    assert (x <> mp) by (intros ->; destruct lk_has as [E _]; unfold free in Hf; congruence).
    by rewrite swap_other.
  - intros j w. destruct (mv_sw j) as [x ->]. rewrite mv_has. naive_solver.
Qed.
End Move.

End Linked.
End Fresh.
End Wf.
