(* ===== verification/LuaTableSet.v ===== *)
(** Lua tables: the invariant of a whole table, the contents it represents,
    and the insertion functions when they find room. *)
From stdpp Require Import base list sets.
From Stdlib Require Import ZArith Lia.
From S2P Require Import Prelude LuaNumber LuaObject LuaTable LuaTableWf.
Open Scope nat_scope.

Section Set_.
Context {N : Type} `{LuaNumber N}.
Variable tsv_hash : Z -> Z.
Implicit Types (t : Table N) (v w : TValue N) (nd : list (Node N)).

Abbreviation rawequal := luaO_rawequalObj.
Abbreviation main := (mainposition tsv_hash).
Abbreviation get := (luaH_get tsv_hash).

Definition in_array t v : Prop := (0 < arrayindex v <= sizearray t)%Z.
#[export] Instance in_array_dec t v : Decision (in_array t v).
Proof. unfold in_array. apply _. Defined.

Record wf_table t : Prop := {
  wt_hash : wf_hash tsv_hash (lsizenode t) (node t);
  wt_size : (0 <= sizearray t <= MAXASIZE)%Z;
  wt_array : (sizearray t <= Z.of_nat (length (array t)))%Z;
  wt_dummy : isdummy t = true -> node t = [empty_node] /\ lsizenode t = 0%Z /\ (lastfree t <= 0)%Z;
  wt_lastfree : isdummy t = false -> forall i, free (node t) i -> (Z.of_nat i < lastfree t)%Z;
  wt_lastfree_le : (lastfree t <= Z.of_nat (length (node t)))%Z;
  (** no key of the hash part belongs to the array part *)
  wt_noarray : forall i v, has_key (node t) i v -> ~ in_array t v
}.

(** * luaH_get *)

Lemma is_num_rawequal (n : N) k : is_num n k = rawequal_key k (Number n).
Proof. by destruct k as [[]|]. Qed.

Lemma u32_array_test t (k : Z) :
  (0 <= sizearray t <= MAXASIZE)%Z -> in_s 32 k ->
  (u32 (k - 1) <? u32 (sizearray t))%Z = bool_decide (0 < k <= sizearray t)%Z.
Proof.
  unfold in_s. change (32 - 1)%Z with 31%Z. change MAXASIZE with (2 ^ 26)%Z. intros Hs Hk.
  rewrite (wrap_small 32 (sizearray t)) by lia.
  destruct (Z.ltb_spec 0 k).
  - rewrite (wrap_small 32 (k - 1)) by lia. case_bool_decide; lia.
  - unfold wrap. rewrite <- (Z.mod_add (k - 1) 1), Z.mod_small by lia.
    case_bool_decide; lia.
Qed.

(** luaH_getnum is luaH_get on the number of its argument. *)
Lemma find_num_rawequal t (n : N) v :
  rawequal v (Number n) = true ->
  find_node t (is_num n) (hashnum (lsizenode t) n) =
  find_node t (fun k => rawequal_key k v) (main (lsizenode t) v).
Proof.
  intros E. unfold find_node. rewrite (rawequal_main tsv_hash _ _ _ E). cbn.
  rewrite (chain_find_ext _ (fun k => rawequal_key k v)); [done|].
  intros k. rewrite is_num_rawequal. destruct k as [w|]; [|done]. cbn.
  rewrite rawequal_sym, <- (rawequal_true_l _ _ w E). apply rawequal_sym.
Qed.

(** One equation for the specialised searches. *)
Lemma get_eq t v :
  wf_table t -> v <> Nil ->
  get t v = if decide (in_array t v) then Ok (Some (SArray (Z.to_nat (arrayindex v - 1))))
            else find_node t (fun k => rawequal_key k v) (main (lsizenode t) v).
Proof.
  intros W Hv. destruct v as [|b|p|n|ts|ty p]; try done; cbn -[find_node decide in_array].
  - destruct (luai_numeq (cast_num (lua_number2int n)) n) eqn:E; cbn -[find_node decide in_array].
    + assert (arrayindex (Number n) = lua_number2int n) as Ei by (cbn; by rewrite E).
      unfold luaH_getnum. rewrite u32_array_test by (apply W || apply number2int_range).
      case_bool_decide as Hb; case_decide as Hd; unfold in_array in Hd; rewrite Ei in Hd; try done.
      apply find_num_rawequal. cbn. by rewrite numeq_sym.
    + rewrite decide_False; [done|]. unfold in_array. cbn. rewrite E. lia.
Qed.

Lemma getnum_eq t k :
  wf_table t -> in_s 32 k -> luaH_getnum t k = get t (Number (cast_num k)).
Proof.
  intros W Hk. rewrite get_eq by done. unfold luaH_getnum.
  pose proof (arrayindex_cast k Hk) as Ei.
  rewrite u32_array_test by (done || apply W).
  case_bool_decide as Hb; case_decide as Hd; unfold in_array in Hd; rewrite Ei in *; try done.
Qed.

Definition lookup_node t v : Prop := exists i w, has_key (node t) i w /\ rawequal w v = true.

(** The three outcomes of a search. *)
Lemma get_cases t v :
  wf_table t -> v <> Nil ->
  (in_array t v /\ get t v = Ok (Some (SArray (Z.to_nat (arrayindex v - 1))))) \/
  (~ in_array t v /\ exists i w, get t v = Ok (Some (SNode i)) /\ has_key (node t) i w /\
    rawequal w v = true) \/
  (~ in_array t v /\ get t v = Ok None /\ forall i w, has_key (node t) i w -> rawequal w v = false).
Proof.
  intros W Hv. rewrite get_eq by done. case_decide; [by left|right].
  unfold find_node.
  destruct (find_key _ _ _ v (wt_hash _ W) Hv) as [(i & w & -> & ? & ?)|[-> ?]]; cbn.
  - left. eauto 10.
  - right. done.
Qed.

(** * Contents *)

(** The value the table associates to a key. *)
Definition content t v : TValue N :=
  match get t v with Ok o => opt_get t o | _ => Nil end.

Lemma valat_slot t i : slot_get t (SNode i) = valat (node t) i.
Proof. reflexivity. Qed.

Lemma content_array t v :
  wf_table t -> in_array t v -> content t v = default Nil (array t !! Z.to_nat (arrayindex v - 1)).
Proof.
  intros W Hin. unfold content. rewrite get_eq; [by rewrite decide_True|done|].
  intros ->. unfold in_array in Hin. cbn in Hin. lia.
Qed.

Lemma content_node t v x :
  wf_table t -> v <> Nil -> ~ in_array t v -> x <> Nil ->
  content t v = x <-> holds (node t) v x.
Proof.
  intros W Hv Hin Hx. unfold content.
  destruct (get_cases t v W Hv) as [[? _]|[(_ & i & w & -> & Hk & E)|(_ & -> & Hno)]]; [done|..].
  - cbn [opt_get]. rewrite valat_slot. split.
    + intros Hval. exists i, w. by split_and!.
    + intros (i' & w' & Hk' & E' & Hval & _).
      rewrite rawequal_sym in E. pose proof (rawequal_trans _ _ _ E' E) as E2.
      rewrite <- (wf_distinct _ _ _ (wt_hash _ W) _ _ _ _ Hk' Hk E2). done.
  - cbn. split; [done|]. intros (i' & w' & Hk' & E' & _). specialize (Hno i' w' Hk'). congruence.
Qed.

Lemma eq_nonnil (a b : TValue N) : (forall x, x <> Nil -> a = x <-> b = x) -> a = b.
Proof.
  intros He. destruct a eqn:Ea; try (symmetry; apply He; done).
  destruct b eqn:Eb; try done; exfalso; by apply (proj2 (He _ ltac:(discriminate))) in Eb || naive_solver.
Qed.

(** Tables with the same array part and the same live entries have the same
    contents. *)
Lemma content_ext t t' v :
  wf_table t -> wf_table t' -> sizearray t' = sizearray t ->
  (in_array t v -> array t' !! Z.to_nat (arrayindex v - 1) = array t !! Z.to_nat (arrayindex v - 1)) ->
  (v <> Nil -> forall x, x <> Nil -> holds (node t') v x <-> holds (node t) v x) ->
  content t' v = content t v.
Proof.
  intros W W' Hs Ha Hh. destruct (decide (v = Nil)) as [->|Hv]; [done|].
  destruct (decide (in_array t v)) as [Hin|Hin].
  - assert (in_array t' v) by (unfold in_array in *; lia).
    rewrite !content_array by done. by rewrite Ha.
  - assert (~ in_array t' v) by (unfold in_array in *; lia).
    apply eq_nonnil. intros x Hx. rewrite !content_node by done. by apply Hh.
Qed.

Lemma content_rawequal t v w : wf_table t -> rawequal v w = true -> content t v = content t w.
Proof.
  intros W E. destruct (decide (v = Nil)) as [->|Hv]; [by rewrite (rawequal_nil _ _ E)|].
  assert (w <> Nil) as Hw by (rewrite rawequal_sym in E; intros ->; by apply Hv, (rawequal_nil _ _ E)).
  pose proof (rawequal_arrayindex _ _ E) as Ei.
  destruct (decide (in_array t v)) as [Hin|Hin].
  - rewrite !content_array by (done || (unfold in_array in *; congruence)). by rewrite Ei.
  - assert (~ in_array t w) by (unfold in_array in *; congruence).
    apply eq_nonnil. intros x Hx. rewrite !content_node by done.
    unfold holds. split; intros (i & u & ? & E' & ? & ?); exists i, u; split_and!; try done.
    + by eapply rawequal_trans.
    + rewrite rawequal_sym in E. by eapply rawequal_trans.
Qed.

(** * Finding a place *)

Lemma getfreepos_loop_spec nd fuel (lf : Z) :
  fuel = Z.to_nat lf -> (lf <= Z.of_nat (length nd))%Z ->
  match getfreepos_loop nd fuel lf with
  | (lf', Some n) => lf' = Z.of_nat n /\ free nd n /\ (Z.of_nat n < lf)%Z /\
                     forall j, free nd j -> (Z.of_nat j < lf)%Z -> j <= n
  | (lf', None) => (lf' <= lf)%Z /\ forall j, free nd j -> ~ (Z.of_nat j < lf)%Z
  end.
Proof.
  revert lf. induction fuel as [|fuel IH]; intros lf Hf Hl; cbn.
  { split; [lia|]. intros j _. lia. }
  case_zbool (0 <? lf)%Z; [|lia].
  destruct (lookup_lt_is_Some_2 nd (Z.to_nat (lf - 1))) as [n Hn]; [lia|]. rewrite Hn.
  destruct (knil (i_key n)) eqn:Ek.
  - split_and!; try lia.
    + unfold free, keyat. rewrite Hn. cbn. destruct (i_key n) as [[]|]; done.
  - specialize (IH (lf - 1)%Z ltac:(lia) ltac:(lia)).
    assert (forall j, free nd j -> (Z.of_nat j < lf)%Z -> (Z.of_nat j < lf - 1)%Z) as Haux.
    { intros j Hj Hlt. destruct (decide (j = Z.to_nat (lf - 1))) as [->|]; [|lia].
      unfold free, keyat in Hj. rewrite Hn in Hj. cbn in Hj. injection Hj as Hj.
      rewrite Hj in Ek. done. }
    destruct (getfreepos_loop nd fuel (lf - 1)) as [lf' [m|]].
    + destruct IH as (? & ? & ? & Hmax). split_and!; try done; [lia|].
      intros j Hj Hlt. by apply Hmax, Haux.
    + destruct IH as [? Hno]. split; [lia|]. intros j Hj Hlt. by eapply Hno, Haux.
Qed.

Lemma find_prev_spec nd o l mp fuel :
  chain (nxt nd) o l -> mp ∈ l -> o <> mp -> length l <= fuel ->
  exists p pn, find_prev fuel nd o mp = Ok p /\ nd !! p = Some pn /\ i_next pn = Some mp.
Proof.
  intros Hc. revert fuel. induction Hc as [i Hi|i j l Hi Hc IH]; intros fuel Hin Hne Hf.
  { apply list_elem_of_singleton in Hin. congruence. }
  destruct fuel as [|fuel]; [cbn in Hf; lia|]. cbn.
  unfold nxt in Hi. destruct (nd !! i) as [n|] eqn:En; [|done]. cbn in Hi |- *. rewrite Hi.
  case_decide as E; [subst; eauto|].
  apply elem_of_cons in Hin as [?|Hin]; [congruence|]. apply IH; [done..|cbn in Hf; lia].
Qed.

(** * newkey when there is a place *)

Definition same_shape t t' : Prop :=
  array t' = array t /\ sizearray t' = sizearray t /\ lsizenode t' = lsizenode t /\
  isdummy t' = isdummy t.

Definition fresh t v : Prop := forall i w, has_key (node t) i w -> rawequal w v = false.
Definition valid v : Prop := v <> Nil /\ rawequal v v = true.

(** The invariant of a table whose node vector was updated by [newkey_ok]. *)
Lemma wf_table_newkey t v nd' lf i :
  wf_table t -> ~ in_array t v -> isdummy t = false ->
  newkey_ok tsv_hash (lsizenode t) (node t) v nd' i ->
  (lf <= lastfree t)%Z -> (forall j, free nd' j -> (Z.of_nat j < lf)%Z) ->
  wf_table (with_node (with_lastfree t lf) nd').
Proof.
  intros W Hin Hd K Hlf Hfree. split; cbn; try apply W.
  - apply K.
  - congruence.
  - intros _. done.
  - rewrite (nk_len _ _ _ _ _ _ K). pose proof (wt_lastfree_le _ W). lia.
  - intros j w Hk. destruct (nk_keys _ _ _ _ _ _ K j w Hk) as [->|[j' Hk']]; [done|].
    by apply (wt_noarray _ W j').
Qed.

(** The live entry at the main position of a key that finds it taken. *)
Lemma live_main t v mpn :
  wf_table t -> node t !! main (lsizenode t) v = Some mpn -> i_val mpn <> Nil ->
  exists w0, i_key mpn = Key w0 /\ w0 <> Nil.
Proof.
  intros W Hmp Hv. set (mp := main (lsizenode t) v) in *.
  assert (keyat (node t) mp = Some (i_key mpn)) as Hk by (unfold keyat; by rewrite Hmp).
  assert (valat (node t) mp = i_val mpn) as Hval by (unfold valat; by rewrite Hmp).
  destruct (i_key mpn) as [w0|p] eqn:Ek.
  - exists w0. split; [done|]. intros ->.
    destruct (wf_free _ _ _ (wt_hash _ W) mp Hk) as (_ & ? & _). congruence.
  - apply (wf_dead _ _ _ (wt_hash _ W)) in Hk. congruence.
Qed.

Lemma ttisnil_true v : ttisnil v = true -> v = Nil.
Proof. by destruct v. Qed.
Lemma ttisnil_false v : ttisnil v = false -> v <> Nil.
Proof. by destruct v. Qed.

(** The chaining step of [newkey], on the pair (free node, main position). *)
Lemma newkey_chained t v mpn n lf :
  wf_table t -> valid v -> fresh t v -> isdummy t = false ->
  node t !! main (lsizenode t) v = Some mpn -> i_val mpn <> Nil -> free (node t) n ->
  let mp := main (lsizenode t) v in
  let othern := mainposition_key tsv_hash (lsizenode t) (i_key mpn) in
  let r := if decide (othern = mp) then
      Ok (store_key (with_node (with_lastfree t lf)
        (alter (set_next (Some n)) mp (alter (set_next (i_next mpn)) n (node t)))) n v)
    else prev <- find_prev (length (node t)) (node t) othern mp;
      Ok (store_key (with_node (with_lastfree t lf)
        (<[mp := mkNode Nil (i_key mpn) None]> (<[n := mpn]> (alter (set_next (Some n)) prev (node t)))))
        mp v) in
  exists nd' i, r = Ok (with_node (with_lastfree t lf) nd', SNode i) /\
    newkey_ok tsv_hash (lsizenode t) (node t) v nd' i /\ ~ free nd' n.
Proof.
  intros W [Hnn Hvv] Hfr Hd Hmp Hlive Hn mp othern r.
  destruct (live_main t v mpn W Hmp Hlive) as (w0 & Hw0 & Hw0n).
  pose proof (wt_hash _ W) as Wh. fold mp in Hmp.
  assert (n <> mp) as Hne by (eapply lk_ne; done).
  assert (n < length (node t)) as Hnlt by by eapply keyat_lt.
  assert (mp < length (node t)) as Hmplt by by eapply lookup_lt_Some.
  destruct (lookup_lt_is_Some_2 _ _ Hnlt) as [nn Hnn'].
  destruct (wf_free _ _ _ Wh n Hn) as (Hnx & Hnv & _).
  unfold nxt in Hnx. unfold valat in Hnv. rewrite Hnn' in Hnx, Hnv. cbn in Hnx, Hnv.
  unfold r. case_decide as Ho.
  - eexists _, n. split; [reflexivity|].
    match goal with |- newkey_ok _ _ _ _ ?x _ /\ _ => set (nd' := x) end.
    assert (nd' !! n = Some (mkNode Nil (Key v) (i_next mpn))) as Hn'.
    { unfold nd'. cbn. rewrite list_lookup_alter_eq, list_lookup_alter_ne by done.
      rewrite list_lookup_alter_eq, Hnn'. cbn. unfold set_key, set_next. cbn. by rewrite Hnv. }
    split.
    + eapply (newkey_link _ _ _ v) with (mpn := mpn) (w0 := w0); try done.
      * unfold othern in Ho. by rewrite Hw0 in Ho.
      * unfold nd'. cbn. by rewrite !length_alter.
      * unfold nd'. cbn. rewrite list_lookup_alter_ne, list_lookup_alter_eq by done.
        rewrite list_lookup_alter_ne by done. fold mp. by rewrite Hmp.
      * intros i Hi1 Hi2. unfold nd'. cbn. by rewrite !list_lookup_alter_ne by done.
    + unfold free, keyat. rewrite Hn'. cbn. naive_solver.
  - assert (main (lsizenode t) w0 <> mp) as Hhome by (unfold othern in Ho; by rewrite Hw0 in Ho).
    assert (has_key (node t) mp w0) as Hhas by (eapply lk_has; done).
    destruct (wf_reach _ _ _ Wh mp w0 Hhas) as (l & Hc & Hin).
    pose proof (chain_bound _ (length (node t)) _ _ Hc
      (chain_range _ _ _ _ (wf_next _ _ _ Wh) (wf_main _ _ _ w0 Wh) Hc)) as Hlen.
    destruct (find_prev_spec (node t) _ l mp (length (node t)) Hc Hin Hhome Hlen)
      as (p & pn & Hfp & Hp & Hpn).
    assert (othern = main (lsizenode t) w0) as -> by (unfold othern; by rewrite Hw0).
    rewrite Hfp. cbn [bind]. eexists _, mp. split; [reflexivity|].
    match goal with |- newkey_ok _ _ _ _ ?x _ /\ _ => set (nd' := x) end.
    assert (p <> n) by (intros ->; rewrite Hnn' in Hp; congruence).
    assert (p <> mp) by (eapply mv_p_mp; done).
    assert (nd' !! n = Some mpn) as Hn'.
    { unfold nd'. cbn. rewrite list_lookup_alter_ne, list_lookup_insert_ne by done.
      apply list_lookup_insert_eq. by rewrite length_alter. }
    split.
    + eapply (newkey_move _ _ _ v) with (mpn := mpn) (w0 := w0) (p := p) (pn := pn); try done.
      * unfold nd'. cbn. by rewrite length_alter, !length_insert, length_alter.
      * unfold nd'. cbn. rewrite list_lookup_alter_ne, !list_lookup_insert_ne by done.
        by rewrite list_lookup_alter_eq, Hp.
      * unfold nd'. cbn. fold mp. rewrite list_lookup_alter_eq, list_lookup_insert_eq; [done|].
        by rewrite length_insert, length_alter.
      * intros i ? ? ?. unfold nd'. cbn. fold mp.
        by rewrite list_lookup_alter_ne, !list_lookup_insert_ne, list_lookup_alter_ne by done.
    + unfold free, keyat. rewrite Hn'. cbn. rewrite Hw0. naive_solver.
Qed.

(** What [newkey] does when it does not rehash. *)
Definition newkey_direct t v (r : res (Table N * slot)) : Prop :=
  exists nd' lf i, r = Ok (with_node (with_lastfree t lf) nd', SNode i) /\
    newkey_ok tsv_hash (lsizenode t) (node t) v nd' i /\
    wf_table (with_node (with_lastfree t lf) nd').

(** [newkey] finds a place, or there is none and it rehashes. *)
Lemma newkey_step t v fuel :
  wf_table t -> valid v -> fresh t v -> ~ in_array t v ->
  (isdummy t = false /\ newkey_direct t v (newkey tsv_hash (S fuel) t v)) \/
  ((isdummy t = true \/ ~ exists i, free (node t) i) /\
   exists lf, (lf <= lastfree t)%Z /\ newkey tsv_hash (S fuel) t v =
     (t <- rehash_ tsv_hash (newkey tsv_hash fuel) (with_lastfree t lf) v;
      luaH_set_ tsv_hash (newkey tsv_hash fuel) t v)).
Proof.
  intros W Hv Hfr Hin. pose proof (wt_hash _ W) as Wh. cbn [newkey].
  destruct (lookup_lt_is_Some_2 (node t) (main (lsizenode t) v)) as [mpn Hmp];
    [by eapply wf_main|]. rewrite Hmp. unfold newkey_direct.
  pose proof (getfreepos_loop_spec (node t) _ (lastfree t) eq_refl (wt_lastfree_le _ W)) as Hg.
  destruct (negb (ttisnil (i_val mpn)) || isdummy t) eqn:Ec.
  - unfold getfreepos.
    destruct (getfreepos_loop (node t) (Z.to_nat (lastfree t)) (lastfree t)) as [lf [n|]].
    + left. destruct Hg as (-> & Hn & Hlt & Hmax). destruct (isdummy t) eqn:Hd.
      { destruct (wt_dummy _ W Hd) as (_ & _ & ?). lia. }
      rewrite orb_false_r in Ec. apply negb_true_iff, ttisnil_false in Ec.
      destruct (newkey_chained t v mpn n (Z.of_nat n) W Hv Hfr Hd Hmp Ec Hn)
        as (nd' & i & Heq & K & Hnf).
      split; [done|]. exists nd', (Z.of_nat n), i. split_and!; [exact Heq|done|].
      eapply wf_table_newkey; try done; [lia|]. intros j Hj.
      assert (j <> n) by (intros ->; done).
      apply (nk_free _ _ _ _ _ _ K) in Hj. pose proof (wt_lastfree _ W Hd j Hj).
      specialize (Hmax j Hj). lia.
    + right. destruct Hg as [Hlf Hno]. split; [|by exists lf].
      destruct (isdummy t) eqn:Hd; [by left|right]. intros [i Hi].
      eapply Hno; [done|]. by apply (wt_lastfree _ W Hd).
  - left. apply orb_false_iff in Ec as [Ev Hd]. split; [done|]. zbool. apply ttisnil_true in Ev.
    exists (alter (set_key (Key v)) (main (lsizenode t) v) (node t)), (lastfree t),
      (main (lsizenode t) v).
    destruct Hv as [Hnn Hvv].
    assert (newkey_ok tsv_hash (lsizenode t) (node t) v
      (alter (set_key (Key v)) (main (lsizenode t) v) (node t)) (main (lsizenode t) v)) as K.
    { apply newkey_overwrite; try done. unfold valat. by rewrite Hmp. }
    split_and!; [by destruct t|done|].
    eapply wf_table_newkey; try done. intros j Hj. apply (wt_lastfree _ W Hd).
    by apply (nk_free _ _ _ _ _ _ K).
Qed.

(** What luaH_set and luaH_setnum promise: a slot for the key, and a table with
    the same contents in which the key is found at that slot. *)
Record set_ok t v t' (s : slot) : Prop := {
  so_wf : wf_table t';
  so_get : get t' v = Ok (Some s);
  so_content w : content t' w = content t w
}.

(** ... and, without a rehash, the same vectors with one more key at most. *)
Record set_small t v t' : Prop := {
  ss_shape : same_shape t t';
  ss_used k : used_le (node t) k -> used_le (node t') (if decide (in_array t v) then k else S k);
  ss_len : length (node t') = length (node t)
}.

Lemma with_flags_wf t f : wf_table t -> wf_table (with_flags t f).
Proof. intros W. split; apply W. Qed.

Lemma with_flags_content t f v : content (with_flags t f) v = content t v.
Proof.
  unfold content. assert (get (with_flags t f) v = get t v) as -> by done.
  by destruct (get t v) as [[[]|]| |].
Qed.

Lemma newkey_direct_ok t v r :
  wf_table t -> valid v -> fresh t v -> ~ in_array t v -> newkey_direct t v r ->
  exists t' s, r = Ok (t', s) /\ set_ok t v t' s /\ set_small t v t'.
Proof.
  intros W Hv Hfr Hin (nd' & lf & i & Heq & K & W').
  eexists _, _. split; [exact Heq|]. split; split; try done.
  - destruct (get_cases (with_node (with_lastfree t lf) nd') v W' (proj1 Hv))
      as [[? _]|[(_ & i' & w & Hg & Hk & E)|(_ & _ & Hno)]]; [done|..].
    + rewrite Hg. do 3 f_equal. pose proof (nk_key _ _ _ _ _ _ K) as Hk'.
      by apply (wf_distinct _ _ _ (nk_wf _ _ _ _ _ _ K) _ _ _ _ Hk Hk').
    + exfalso. specialize (Hno i v (nk_key _ _ _ _ _ _ K)). destruct Hv. congruence.
  - intros w. apply content_ext; try done. intros _ x _. apply K.
  - intros k Hk. rewrite decide_False by done. by apply K.
  - apply K.
Qed.

Lemma newkey_set_ok t v fuel :
  wf_table t -> valid v -> fresh t v -> ~ in_array t v -> isdummy t = false ->
  (exists i, free (node t) i) ->
  exists t' s, newkey tsv_hash (S fuel) t v = Ok (t', s) /\ set_ok t v t' s /\ set_small t v t'.
Proof.
  intros W Hv Hfr Hin Hd Hfree.
  destruct (newkey_step t v fuel W Hv Hfr Hin) as [[_ ?]|[[?|?] _]]; [|congruence|done].
  by apply newkey_direct_ok.
Qed.

(** luaH_set when the key is present, or has room. *)
Lemma set_room t v fuel :
  wf_table t -> valid v ->
  (~ in_array t v -> fresh t v -> isdummy t = false /\ exists i, free (node t) i) ->
  exists t' s, luaH_set_ tsv_hash (newkey tsv_hash (S fuel)) t v = Ok (t', s) /\
    set_ok t v t' s /\ set_small t v t'.
Proof.
  intros W Hv Hroom. unfold luaH_set_.
  pose proof (with_flags_wf t 0 W) as W0.
  assert (forall s, get t v = Ok (Some s) ->
    set_ok t v (with_flags t 0) s /\ set_small t v (with_flags t 0)) as Hsame.
  { intros s Hs. split; split; try done.
    intros k (L & ? & ?). exists L. split; [case_decide; lia|done]. }
  destruct (get_cases t v W (proj1 Hv))
    as [[? Hg]|[(_ & i' & w & Hg & Hk & E)|(Hin & Hg & Hno)]].
  - rewrite Hg. cbn [bind]. eexists _, _. split; [done|]. by apply Hsame.
  - rewrite Hg. cbn [bind]. eexists _, _. split; [done|]. by apply Hsame.
  - rewrite Hg. cbn [bind]. destruct (Hroom Hin Hno) as [Hd Hfree].
    destruct (newkey_set_ok (with_flags t 0) v fuel W0 Hv Hno Hin Hd Hfree)
      as (t' & s & Heq & [? ? Hc] & [? ? ?]).
    exists t', s. split_and!; [|split; try done|by split].
    destruct Hv as [Hnn Hvv]. destruct v; try done. cbn in Hvv. unfold luai_numisnan.
    by rewrite Hvv.
Qed.

(** luaH_setnum is luaH_set on the number, but for the flags. *)
Lemma setnum_room t k fuel :
  wf_table t -> in_s 32 k ->
  let v := Number (cast_num k) in
  (~ in_array t v -> fresh t v -> isdummy t = false /\ exists i, free (node t) i) ->
  exists t' s, luaH_setnum_ (newkey tsv_hash (S fuel)) t k = Ok (t', s) /\
    set_ok t v t' s /\ set_small t v t'.
Proof.
  intros W Hk v Hroom. unfold luaH_setnum_. rewrite getnum_eq by done. fold v.
  assert (valid v) as Hv by (split; [done|by apply numeq_cast]).
  assert (forall s, get t v = Ok (Some s) -> set_ok t v t s /\ set_small t v t) as Hsame.
  { intros s Hs. split; split; try done.
    intros n (L & ? & ?). exists L. split; [case_decide; lia|done]. }
  destruct (get_cases t v W (proj1 Hv))
    as [[? Hg]|[(_ & i' & w & Hg & Hk' & E)|(Hin & Hg & Hno)]];
    rewrite Hg; cbn [bind]; [eexists _, _; split; [done|by apply Hsame]..|].
  destruct (Hroom Hin Hno) as [Hd Hfree]. by apply newkey_set_ok.
Qed.

(** * Assignment through a slot *)

Definition upd_content t v (x : TValue N) (w : TValue N) : TValue N :=
  if rawequal v w then x else content t w.

Lemma nxt_set_val nd i x j : nxt (alter (set_val x) i nd) j = nxt nd j.
Proof. unfold nxt. rewrite lookup_alter_if. case_decide; [|done]. by destruct (nd !! j). Qed.
Lemma keyat_set_val nd i x j : keyat (alter (set_val x) i nd) j = keyat nd j.
Proof. unfold keyat. rewrite lookup_alter_if. case_decide; [|done]. by destruct (nd !! j). Qed.
Lemma valat_set_val nd i x j :
  i < length nd -> valat (alter (set_val x) i nd) j = if decide (i = j) then x else valat nd j.
Proof.
  intros Hi. unfold valat. rewrite lookup_alter_if. case_decide as E; [|done].
  subst. by destruct (lookup_lt_is_Some_2 _ _ Hi) as [n ->].
Qed.

Lemma wf_hash_set_val lsize nd i x v :
  wf_hash tsv_hash lsize nd -> has_key nd i v -> wf_hash tsv_hash lsize (alter (set_val x) i nd).
Proof.
  intros W Hk. assert (i < length nd) as Hi by (destruct Hk as [Hk _]; by eapply keyat_lt).
  assert (forall j, nxt (alter (set_val x) i nd) j = nxt nd j) as Hnx by (intros; apply nxt_set_val).
  assert (forall j w, has_key (alter (set_val x) i nd) j w <-> has_key nd j w) as Hhas
    by (intros; unfold has_key; by rewrite keyat_set_val).
  assert (forall j, free (alter (set_val x) i nd) j <-> free nd j) as Hfree
    by (intros; unfold free; by rewrite keyat_set_val).
  split; rewrite ?length_alter; try apply W.
  - intros j k. rewrite Hnx. apply W.
  - intros j j' k. rewrite !Hnx. apply W.
  - intros j Hj. destruct (wf_chain _ _ _ W j Hj) as [l ?]. exists l.
    eapply chain_ext; [|done]. intros. by rewrite Hnx.
  - intros j. rewrite Hfree, Hnx. intros Hf. destruct (wf_free _ _ _ W j Hf) as (? & ? & ?).
    split_and!; [done| |intros; by rewrite Hnx].
    rewrite valat_set_val by done. case_decide; [|done]. subst. destruct Hk. unfold free in Hf. congruence.
  - intros j p. rewrite keyat_set_val, valat_set_val by done. intros Hj.
    case_decide; [|by apply W in Hj]. subst. destruct Hk. congruence.
  - intros j w. rewrite Hhas. apply W.
  - intros j w. rewrite Hhas. intros Hw. eapply reach_ext; [|by apply W].
    intros. by rewrite Hnx.
  - intros j w. rewrite Hhas, Hfree. intros Hw. destruct (wf_home _ _ _ W j w Hw) as [? Hm].
    split; [done|]. intros w'. rewrite Hhas. apply Hm.
  - intros j j' w w'. rewrite !Hhas. apply W.
Qed.

(** Writing through the slot of a key updates the contents at that key only. *)
Lemma slot_set_ok t v s x :
  wf_table t -> v <> Nil -> get t v = Ok (Some s) ->
  wf_table (slot_set t s x) /\ (forall w, content (slot_set t s x) w = upd_content t v x w) /\
  same_shape t (with_array (slot_set t s x) (array t) (sizearray t)) /\
  (forall k, used_le (node t) k -> used_le (node (slot_set t s x)) k) /\
  length (node (slot_set t s x)) = length (node t) /\
  length (array (slot_set t s x)) = length (array t).
Proof.
  intros W Hv Hg. unfold upd_content.
  destruct (get_cases t v W Hv) as [[Hin Hg']|[(Hin & i & w0 & Hg' & Hk & E)|(_ & Hg' & _)]];
    [..|congruence]; rewrite Hg in Hg'; injection Hg' as ->; cbn.
  - assert (wf_table (with_array t (<[Z.to_nat (arrayindex v - 1):=x]> (array t)) (sizearray t))) as W'.
    { split; cbn; try apply W. rewrite length_insert. apply W. }
    split_and!; try done; [|by rewrite length_insert].
    intros w. destruct (decide (w = Nil)) as [->|Hw].
    { destruct (rawequal v Nil) eqn:E; [|done]. rewrite rawequal_sym in E.
      by destruct Hv; apply (rawequal_nil _ _ E). }
    pose proof (wt_array _ W) as Hlen. destruct (decide (in_array t w)) as [Hin'|Hin'].
    + rewrite !content_array by done. cbn.
      unfold in_array in *. destruct (decide (arrayindex v = arrayindex w)) as [Ei|Ei].
      * assert (rawequal v w = true) as ->.
        { eapply rawequal_trans; [apply (arrayindex_rawequal v (arrayindex v)); [done|lia]|].
          rewrite Ei, rawequal_sym. by apply arrayindex_rawequal; [done|lia]. }
        rewrite Ei, list_lookup_insert_eq by lia. done.
      * destruct (rawequal v w) eqn:E; [by apply rawequal_arrayindex in E|].
        rewrite list_lookup_insert_ne by lia. done.
    + destruct (rawequal v w) eqn:E.
      { apply rawequal_arrayindex in E. unfold in_array in *. congruence. }
      apply content_ext; try done.
  - assert (i < length (node t)) as Hi by (destruct Hk as [Hk _]; by eapply keyat_lt).
    assert (wf_table (with_node t (alter (set_val x) i (node t)))) as W'.
    { split; cbn; try apply W.
      - by eapply wf_hash_set_val; [apply W|].
      - intros Hd. exfalso. destruct (wt_dummy _ W Hd) as (Hnd & _). rewrite Hnd in Hk, Hi.
        destruct i as [|]; [|cbn in Hi; lia]. destruct Hk as [Hk ?]. cbn in Hk. congruence.
      - intros Hd j. unfold free. rewrite keyat_set_val. by apply (wt_lastfree _ W).
      - rewrite length_alter. apply W.
      - intros j w. unfold has_key. rewrite keyat_set_val. apply (wt_noarray _ W). }
    split_and!; try done.
    + intros w. destruct (decide (w = Nil)) as [->|Hw].
      { destruct (rawequal v Nil) eqn:E'; [|done]. rewrite rawequal_sym in E'.
        by destruct Hv; apply (rawequal_nil _ _ E'). }
      assert (forall j w, has_key (alter (set_val x) i (node t)) j w <-> has_key (node t) j w) as Hhas
        by (intros; unfold has_key; by rewrite keyat_set_val).
      destruct (rawequal v w) eqn:Evw.
      * assert (~ in_array t w)
          by (unfold in_array in *; by rewrite <- (rawequal_arrayindex _ _ Evw)).
        apply eq_nonnil. intros y Hy. rewrite content_node by done. unfold holds. cbn. split.
        -- intros (j & w' & Hk' & E' & Hval & _). rewrite Hhas in Hk'.
           rewrite valat_set_val in Hval by done. case_decide; [done|].
           destruct (wf_distinct _ _ _ (wt_hash _ W) i j w0 w' Hk Hk'); [|done].
           apply (rawequal_trans w0 w w'); [by eapply rawequal_trans|by rewrite rawequal_sym].
        -- intros <-. exists i, w0. rewrite Hhas, valat_set_val, decide_True by done.
           split_and!; try done. by eapply rawequal_trans.
      * apply content_ext; try done. intros _ y Hy. unfold holds. cbn.
        split; intros (j & w' & Hk' & E' & Hval & _); exists j, w';
          [rewrite Hhas in Hk'|rewrite Hhas]; split_and!; try done;
          rewrite valat_set_val in * by done; case_decide; try done; exfalso; subst;
          assert (w' = w0) as -> by (destruct Hk as [K1 _], Hk' as [K2 _]; congruence);
          rewrite rawequal_sym in E; rewrite (rawequal_trans _ _ _ E E') in Evw; done.
    + intros k (L & HL & Hin'). exists L. split; [done|]. intros j. rewrite length_alter.
      unfold free. rewrite keyat_set_val. apply Hin'.
    + by rewrite length_alter.
Qed.
End Set_.
