(* ===== verification/LuaTableRehash.v ===== *)
(** Lua tables: the counts that drive a rehash, the choice of the array size,
    and the re-insertion of all entries, which always finds room. *)
From stdpp Require Import base list sets.
From Stdlib Require Import ZArith Lia.
From S2P Require Import Prelude LuaNumber LuaObject LuaTable LuaTableWf LuaTableSet.
Open Scope Z_scope.

(** * Counting integer keys by slices *)
Section Counts.
Implicit Types (ks : list Z) (nums : list Z).

Definition countZ {A} (P : A -> bool) (l : list A) : Z := Z.of_nat (length (List.filter P l)).

Lemma countZ_nil {A} (P : A -> bool) : countZ P [] = 0. Proof. done. Qed.
Lemma countZ_cons {A} (P : A -> bool) x l : countZ P (x :: l) = (if P x then 1 else 0) + countZ P l.
Proof. unfold countZ. cbn. destruct (P x); cbn; lia. Qed.
Lemma countZ_app {A} (P : A -> bool) l l' : countZ P (l ++ l') = countZ P l + countZ P l'.
Proof. induction l as [|x l IH]; [done|]. cbn [app]. rewrite !countZ_cons, IH. lia. Qed.
Lemma countZ_nonneg {A} (P : A -> bool) l : 0 <= countZ P l.
Proof. unfold countZ. lia. Qed.
Lemma countZ_le {A} (P Q : A -> bool) l :
  (forall x, P x = true -> Q x = true) -> countZ P l <= countZ Q l.
Proof.
  intros HPQ. induction l as [|x l IH]; [done|]. rewrite !countZ_cons.
  specialize (HPQ x). destruct (P x), (Q x); naive_solver lia.
Qed.
Lemma countZ_ext {A} (P Q : A -> bool) l :
  (forall x, x ∈ l -> P x = Q x) -> countZ P l = countZ Q l.
Proof.
  intros HPQ. induction l as [|x l IH]; [done|]. rewrite !countZ_cons.
  rewrite HPQ by left. f_equal. apply IH. intros. apply HPQ. by right.
Qed.
Lemma countZ_add {A} (P Q R : A -> bool) l :
  (forall x, x ∈ l -> (if P x then 1 else 0) = (if Q x then 1 else 0) + (if R x then 1 else 0)) ->
  countZ P l = countZ Q l + countZ R l.
Proof.
  intros HP. induction l as [|x l IH]; [done|]. rewrite !countZ_cons.
  rewrite HP by left. rewrite IH; [lia|]. intros. apply HP. by right.
Qed.

(** Keys in the slice [2^(l-1) < k <= 2^l]. *)
Definition in_slice (l k : Z) : bool := (k <=? 2 ^ l) && (2 ^ l <? 2 * k).
(** Keys in [1..n]. *)
Definition in_1 (n k : Z) : bool := (0 <? k) && (k <=? n).

Record nums_ok nums ks : Prop := {
  no_len : length nums = 27%nat;
  no_at (l : nat) : (l < 27)%nat -> nums !! l = Some (countZ (in_slice (Z.of_nat l)) ks)
}.

Lemma nums_ok_nil : nums_ok (replicate 27 0) [].
Proof. split; [done|]. intros l Hl. by rewrite lookup_replicate_2. Qed.

Lemma in_slice_unique l l' k : 0 <= l -> 0 <= l' -> in_slice l k = true -> in_slice l' k = true -> l = l'.
Proof.
  unfold in_slice. intros Hl Hl' H1 H2. zbool.
  destruct (Z.lt_trichotomy l l') as [Hlt|[?|Hlt]]; [|done|].
  - assert (2 ^ (l + 1) <= 2 ^ l') by (apply Z.pow_le_mono_r; lia).
    rewrite Z.pow_add_r in * by lia. lia.
  - assert (2 ^ (l' + 1) <= 2 ^ l) by (apply Z.pow_le_mono_r; lia).
    rewrite Z.pow_add_r in * by lia. lia.
Qed.

Lemma ceillog2_slice k :
  0 < k <= MAXASIZE -> exists l, ceillog2 k = Ok l /\ 0 <= l < 27 /\ in_slice l k = true.
Proof.
  change MAXASIZE with (2 ^ 26). intros Hk. unfold ceillog2. rewrite wrap_small by lia.
  destruct (Z.eq_dec k 1) as [->|]; [by exists 0|].
  destruct (ceillog2_spec k) as (l & -> & Hl & Hb); [lia|]. cbn [bind].
  exists (l + 1). rewrite Z.pow_add_r in * by lia. split; [done|].
  assert (l < 26).
  { destruct (Z_lt_le_dec l 26); [done|]. assert (2 ^ 26 <= 2 ^ l) by (apply Z.pow_le_mono_r; lia). lia. }
  unfold in_slice. rewrite Z.pow_add_r by lia. split; [lia|].
  rewrite andb_true_iff, Z.leb_le, Z.ltb_lt. lia.
Qed.

(** Adding a key to the counts. *)
Lemma nums_ok_add nums ks k l :
  nums_ok nums ks -> 0 <= l < 27 -> in_slice l k = true ->
  nums_ok (alter (fun c => c + 1) (Z.to_nat l) nums) (ks ++ [k]).
Proof.
  intros [Hlen Hat] Hl Hs. split; [by rewrite length_alter|]. intros l' Hl'.
  rewrite lookup_alter_if, Hat by done. rewrite countZ_app, countZ_cons, countZ_nil.
  case_decide as E.
  - replace (Z.of_nat l') with l by lia. rewrite Hs. cbn. f_equal; lia.
  - destruct (in_slice (Z.of_nat l') k) eqn:E'; [|f_equal; lia].
    pose proof (in_slice_unique l (Z.of_nat l') k ltac:(lia) ltac:(lia) Hs E'). lia.
Qed.

Lemma nums_ok_skip nums ks k :
  nums_ok nums ks -> in_1 MAXASIZE k = false -> nums_ok nums (ks ++ [k]).
Proof.
  intros [Hlen Hat] Hk. split; [done|]. intros l Hl. rewrite Hat by done.
  rewrite countZ_app, countZ_cons, countZ_nil.
  assert (in_slice (Z.of_nat l) k = false) as ->; [|f_equal; lia].
  unfold in_slice, in_1 in *. change MAXASIZE with (2 ^ 26) in Hk.
  assert (2 ^ Z.of_nat l <= 2 ^ 26) by (apply Z.pow_le_mono_r; lia).
  assert (0 < 2 ^ Z.of_nat l) by (apply Z.pow_pos_nonneg; lia).
  apply andb_false_iff in Hk. rewrite Z.ltb_ge, Z.leb_gt in Hk.
  apply andb_false_iff. rewrite Z.leb_gt, Z.ltb_ge. lia.
Qed.

Lemma countint_ok {N} `{LuaNumber N} (v : TValue N) nums ks :
  nums_ok nums ks ->
  exists nums', countint v nums = Ok (nums', if in_1 MAXASIZE (arrayindex v) then 1 else 0) /\
    nums_ok nums' (ks ++ [arrayindex v]).
Proof.
  intros Hn. unfold countint. fold (in_1 MAXASIZE (arrayindex v)).
  destruct (in_1 MAXASIZE (arrayindex v)) eqn:E.
  - unfold in_1 in E. zbool. destruct (ceillog2_slice (arrayindex v)) as (l & -> & ? & ?); [lia|].
    cbn [bind]. eexists. split; [done|]. by apply nums_ok_add.
  - eexists. split; [done|]. by apply nums_ok_skip.
Qed.

(** Keys up to [2^(l+1)] are the keys up to [2^l] and the next slice. *)
Lemma countZ_in_1_step ks (l : Z) :
  0 <= l -> countZ (in_1 (2 ^ l)) ks + countZ (in_slice (l + 1)) ks = countZ (in_1 (2 ^ (l + 1))) ks.
Proof.
  intros Hl. symmetry. apply countZ_add. intros k _. unfold in_1, in_slice.
  rewrite Z.pow_add_r by lia. change (2 ^ 1) with 2.
  assert (0 < 2 ^ l) by (apply Z.pow_pos_nonneg; lia).
  destruct (Z.ltb_spec 0 k), (Z.leb_spec k (2 ^ l)), (Z.leb_spec k (2 ^ l * 2)),
    (Z.ltb_spec (2 ^ l * 2) (2 * k)); cbn; lia.
Qed.

Lemma countZ_in_1_0 ks : countZ (in_1 (2 ^ 0)) ks = countZ (in_slice 0) ks.
Proof.
  apply countZ_ext. intros k _. unfold in_1, in_slice. change (2 ^ 0) with 1.
  destruct (Z.ltb_spec 0 k), (Z.leb_spec k 1), (Z.ltb_spec 1 (2 * k)); cbn; lia.
Qed.

Lemma countZ_in_1_mono ks a b : a <= b -> countZ (in_1 a) ks <= countZ (in_1 b) ks.
Proof. intros. apply countZ_le. unfold in_1. intros x Hx. zbool. apply andb_true_iff. lia. Qed.

(** Distinct keys: at most [n] of them in [1..n]. *)
Definition distinct_in ks : Prop := NoDup (List.filter (in_1 MAXASIZE) ks).

Lemma countZ_in_1_distinct ks n : distinct_in ks -> 0 <= n <= MAXASIZE -> countZ (in_1 n) ks <= n.
Proof.
  intros Hd Hn. unfold countZ.
  assert (length (List.filter (in_1 n) ks) <= length (seqZ 1 n))%nat as Hle.
  { apply submseteq_length, NoDup_submseteq.
    - assert (List.filter (in_1 n) ks = List.filter (in_1 n) (List.filter (in_1 MAXASIZE) ks)) as ->.
      { clear Hd. induction ks as [|k ks IH]; [done|]. cbn.
        destruct (in_1 n k) eqn:E; [|destruct (in_1 MAXASIZE k); cbn; by rewrite ?E].
        assert (in_1 MAXASIZE k = true) as ->.
        { unfold in_1 in *. zbool. apply andb_true_iff. lia. }
        cbn. rewrite E. by f_equal. }
      apply NoDup_ListNoDup, List.NoDup_filter. by apply NoDup_ListNoDup.
    - intros k Hk%list_elem_of_In. apply List.filter_In in Hk as [_ Hk]. unfold in_1 in Hk.
      zbool. apply elem_of_seqZ. lia. }
  rewrite length_seqZ in Hle. lia.
Qed.

(** * computesizes *)

(** A candidate size is worth it if more than half of it is in use. *)
Definition worth ks (n : Z) : Prop := n / 2 < countZ (in_1 n) ks.

(** What the sizes returned mean: the count of keys in the array part; a size
    that is zero or a power of two in use by more than half; the largest one. *)
Record sizes_ok ks (na n : Z) : Prop := {
  sz_na : na = countZ (in_1 n) ks;
  sz_n : n = 0 \/ (exists j, 0 <= j <= 26 /\ n = 2 ^ j /\ worth ks n);
  sz_max : distinct_in ks -> forall j, 0 <= j <= 26 -> n < 2 ^ j -> ~ worth ks (2 ^ j)
}.

Lemma sizes_range ks na n : sizes_ok ks na n -> 0 <= n <= MAXASIZE.
Proof.
  intros [_ [->|(j & Hj & -> & _)] _]; [done|]. change MAXASIZE with (2 ^ 26).
  split; [apply Z.pow_nonneg; lia|apply Z.pow_le_mono_r; lia].
Qed.

(** Keys counted at the top of turn [i]: those up to [2 ^ (i - 1)]. *)
Definition below ks (i : nat) : Z :=
  match i with O => 0 | S j => countZ (in_1 (2 ^ Z.of_nat j)) ks end.

Lemma below_S ks i : below ks i + countZ (in_slice (Z.of_nat i)) ks = below ks (S i).
Proof.
  destruct i as [|i]; cbn [below]; [by rewrite countZ_in_1_0|].
  replace (Z.of_nat (S i)) with (Z.of_nat i + 1) by lia. apply countZ_in_1_step. lia.
Qed.

(** State at the top of turn [i]. *)
Record cs_inv ks (i : nat) (na n : Z) : Prop := {
  ci_na : na = countZ (in_1 n) ks;
  ci_n : n = 0 \/ (exists j, 0 <= j < Z.of_nat i /\ n = 2 ^ j /\ worth ks n);
  ci_max : distinct_in ks -> forall j, 0 <= j < Z.of_nat i -> n < 2 ^ j -> ~ worth ks (2 ^ j)
}.

Lemma countZ_in_1_nonpos ks n : n <= 0 -> countZ (in_1 n) ks = 0.
Proof.
  intros Hn. induction ks as [|k ks IH]; [done|]. rewrite countZ_cons, IH.
  unfold in_1. destruct (Z.ltb_spec 0 k), (Z.leb_spec k n); cbn; lia.
Qed.

Lemma pow2_half_div j : 1 <= j -> 2 ^ j / 2 = 2 ^ (j - 1).
Proof.
  intros. replace j with (j - 1 + 1) at 1 by lia. rewrite Z.pow_add_r, Z.div_mul by lia. done.
Qed.

Section Loop.
Context (ks nums : list Z).
Hypothesis Hn : nums_ok nums ks.
Let narray := countZ (in_1 MAXASIZE) ks.

(** Leaving because [2 ^ i / 2 >= narray], or because all keys are counted. *)
Lemma cs_exit (i : nat) na n :
  cs_inv ks i na n -> (i <= 27)%nat ->
  (forall j, Z.of_nat i <= j <= 26 -> distinct_in ks -> narray <= 2 ^ j / 2) ->
  sizes_ok ks na n.
Proof.
  intros [? Hs Hm] Hi Hj. split; [done| |].
  - destruct Hs as [?|(j & ? & ?)]; [by left|right]. exists j. split; [lia|done].
  - intros Hd j Hj' Hlt. destruct (Z_lt_le_dec j (Z.of_nat i)); [apply Hm; [done|lia|done]|].
    unfold worth. specialize (Hj j ltac:(lia) Hd).
    pose proof (countZ_in_1_mono ks (2 ^ j) MAXASIZE).
    assert (2 ^ j <= MAXASIZE) by (change MAXASIZE with (2 ^ 26); apply Z.pow_le_mono_r; lia).
    subst narray. lia.
Qed.

Lemma cs_step (i : nat) na n :
  cs_inv ks i na n -> (i < 27)%nat ->
  let c := countZ (in_slice (Z.of_nat i)) ks in
  let a := below ks (S i) in
  let upd := (0 <? c) && (2 ^ Z.of_nat i / 2 <? a) in
  cs_inv ks (S i) (if upd then a else na) (if upd then 2 ^ Z.of_nat i else n).
Proof.
  intros [? Hs Hm] Hi c a upd. unfold upd. clear upd.
  destruct ((0 <? c) && (2 ^ Z.of_nat i / 2 <? a)) eqn:E; zbool.
  - split; [done| |].
    + right. exists (Z.of_nat i). split; [lia|]. done.
    + intros _ j Hj Hlt. apply Z.pow_lt_mono_r_iff in Hlt; lia.
  - split; [done| |].
    + destruct Hs as [?|(j & ? & ?)]; [by left|right]. exists j. split; [lia|done].
    + intros Hd j Hj Hlt. destruct (Z.eq_dec j (Z.of_nat i)) as [Ej|]; [|apply Hm; [done|lia|done]].
      unfold worth. rewrite Ej. change (countZ (in_1 (2 ^ Z.of_nat i)) ks) with a. intros Hw.
      apply andb_false_iff in E as [E|E]; zbool; [|lia].
      pose proof (countZ_nonneg (in_slice (Z.of_nat i)) ks).
      assert (a = below ks i) as Ea by (unfold a; rewrite <- below_S; fold c; lia).
      rewrite Ea in Hw. destruct i as [|i]; cbn [below] in Hw; [done|].
      rewrite pow2_half_div in Hw by lia. replace (Z.of_nat (S i) - 1) with (Z.of_nat i) in Hw by lia.
      pose proof (countZ_in_1_distinct ks (2 ^ Z.of_nat i) Hd) as Hc.
      assert (0 <= 2 ^ Z.of_nat i <= MAXASIZE); [|lia].
      change MAXASIZE with (2 ^ 26). split; [lia|apply Z.pow_le_mono_r; lia].
Qed.

(** By turn 26 all keys are counted, so 27 turns are enough. *)
Lemma computesizes_loop_ok (d fuel i : nat) na n :
  (i + d = 26)%nat -> (d < fuel)%nat -> cs_inv ks i na n ->
  let '(na', n') := computesizes_loop fuel nums narray i (2 ^ Z.of_nat i) (below ks i) na n in
  sizes_ok ks na' n'.
Proof.
  revert fuel i na n. induction d as [|d IH]; intros fuel i na n Hi Hf HI;
    (destruct fuel as [|fuel]; [lia|]); cbn [computesizes_loop];
    (case_zbool (2 ^ Z.of_nat i / 2 <? narray);
      [|eapply cs_exit; [done|lia|]; intros j Hj _;
        assert (2 ^ Z.of_nat i / 2 <= 2 ^ j / 2); [|lia];
        apply Z.div_le_mono; [lia|]; apply Z.pow_le_mono_r; lia]).
  all: rewrite (no_at _ _ Hn) by lia; cbn [from_option]; unfold id;
    pose proof (countZ_nonneg (in_slice (Z.of_nat i)) ks);
    pose proof (cs_step i na n HI ltac:(lia)) as HS; cbv zeta in HS;
    replace (if 0 <? countZ (in_slice (Z.of_nat i)) ks
             then below ks i + countZ (in_slice (Z.of_nat i)) ks else below ks i) with (below ks (S i))
      by (rewrite <- below_S; case_zbool (0 <? countZ (in_slice (Z.of_nat i)) ks); lia).
  - assert (i = 26%nat) as -> by lia.
    change (below ks (S 26)) with narray in *. rewrite Z.eqb_refl.
    eapply cs_exit; [exact HS|lia|]. intros j Hj. lia.
  - case_zbool (below ks (S i) =? narray).
    + eapply cs_exit; [exact HS|lia|]. intros j Hj Hd. rewrite <- E0.
      cbn [below]. transitivity (2 ^ Z.of_nat i).
      { apply countZ_in_1_distinct; [done|]. change MAXASIZE with (2 ^ 26).
        split; [lia|apply Z.pow_le_mono_r; lia]. }
      rewrite pow2_half_div by lia. apply Z.pow_le_mono_r; lia.
    + assert (2 ^ Z.of_nat i * 2 = 2 ^ Z.of_nat (S i)) as ->.
      { rewrite Nat2Z.inj_succ, Z.pow_succ_r by lia. lia. }
      apply IH; [lia|lia|done].
Qed.

Lemma computesizes_ok :
  let '(na, n) := computesizes nums narray in sizes_ok ks na n.
Proof.
  apply (computesizes_loop_ok 26); [done|lia|].
  split; [by rewrite countZ_in_1_nonpos|by left|lia].
Qed.
End Loop.

(** * The counts of a table *)
Section Table.
Context {N : Type} `{LuaNumber N}.
Implicit Types (a : list (TValue N)) (nd : list (Node N)).

(** Indices, from [i + 1], of the non-nil values among the [n] after [i]. *)
Fixpoint akeys a (i n : nat) : list Z :=
  match n with
  | O => []
  | S n' => (if ttisnil (default Nil (a !! i)) then [] else [Z.of_nat i + 1]) ++ akeys a (S i) n'
  end.

Lemma akeys_app a i n m : akeys a i (n + m) = akeys a i n ++ akeys a (i + n) m.
Proof.
  revert i. induction n as [|n IH]; intros i; cbn; [by rewrite Nat.add_0_r|].
  rewrite IH, <- app_assoc. do 3 f_equal. lia.
Qed.

Lemma count_nonnil_akeys a i n : count_nonnil a i n = Z.of_nat (length (akeys a i n)).
Proof.
  revert i. induction n as [|n IH]; intros i; cbn; [done|]. rewrite length_app, IH.
  destruct (ttisnil _); cbn; lia.
Qed.

Lemma akeys_range a i n k : k ∈ akeys a i n -> Z.of_nat i < k <= Z.of_nat i + Z.of_nat n.
Proof.
  revert i. induction n as [|n IH]; intros i; cbn; [by intros ?%elem_of_nil|].
  intros [Hk|Hk]%elem_of_app.
  - destruct (ttisnil _); [by apply elem_of_nil in Hk|]. apply list_elem_of_singleton in Hk. lia.
  - apply IH in Hk. lia.
Qed.

Lemma akeys_ext a a' i n :
  (forall j, (i <= j < i + n)%nat -> a' !! j = a !! j) -> akeys a' i n = akeys a i n.
Proof.
  revert i. induction n as [|n IH]; intros i Ha; [done|]. cbn. rewrite Ha by lia. f_equal.
  apply IH. intros. apply Ha. lia.
Qed.

Lemma countZ_all {A} (P : A -> bool) l : (forall x, x ∈ l -> P x = true) -> countZ P l = Z.of_nat (length l).
Proof.
  intros HP. induction l as [|x l IH]; [done|]. rewrite countZ_cons, HP by left. cbn [length].
  rewrite IH; [lia|]. intros. apply HP. by right.
Qed.
Lemma countZ_none {A} (P : A -> bool) l : (forall x, x ∈ l -> P x = false) -> countZ P l = 0.
Proof.
  intros HP. induction l as [|x l IH]; [done|]. rewrite countZ_cons, HP by left.
  rewrite IH; [lia|]. intros. apply HP. by right.
Qed.

Lemma nums_ok_many nums ks ks' (l : nat) :
  nums_ok nums ks -> (l < 27)%nat -> (forall k, k ∈ ks' -> in_slice (Z.of_nat l) k = true) ->
  nums_ok (alter (fun c => c + Z.of_nat (length ks')) l nums) (ks ++ ks').
Proof.
  intros [Hlen Hat] Hl Hs. split; [by rewrite length_alter|]. intros l' Hl'.
  rewrite lookup_alter_if, Hat by done. rewrite countZ_app.
  case_decide as E.
  - subst. cbn. f_equal. by rewrite (countZ_all _ ks').
  - rewrite (countZ_none _ ks'); [f_equal; lia|]. intros k Hk%Hs.
    destruct (in_slice (Z.of_nat l') k) eqn:E'; [|done].
    pose proof (in_slice_unique (Z.of_nat l) (Z.of_nat l') k ltac:(lia) ltac:(lia) Hk E'). lia.
Qed.

Definition prev_pow (lg : nat) : Z := match lg with O => 0 | S j => 2 ^ Z.of_nat j end.

Lemma numusearray_loop_ok a size (fuel lg : nat) nums ks :
  0 <= size <= MAXASIZE -> (lg + fuel = 27)%nat ->
  let i0 := Z.min size (prev_pow lg) in
  nums_ok nums (ks ++ akeys a 0 (Z.to_nat i0)) ->
  exists nums', numusearray_loop fuel a size nums lg (2 ^ Z.of_nat lg) i0
      (Z.of_nat (length (akeys a 0 (Z.to_nat i0)))) = (nums', Z.of_nat (length (akeys a 0 (Z.to_nat size)))) /\
    nums_ok nums' (ks ++ akeys a 0 (Z.to_nat size)).
Proof.
  intros Hsize. revert lg nums. induction fuel as [|fuel IH]; intros lg nums Hlg i0 Hn; subst i0.
  - cbn. assert (lg = 27%nat) as -> by lia. cbn [prev_pow] in *.
    change MAXASIZE with (2 ^ Z.of_nat 26) in Hsize. rewrite Z.min_l in * by lia. eauto.
  - cbn [numusearray_loop]. set (i0 := Z.min size (prev_pow lg)) in *.
    replace (if size <? 2 ^ Z.of_nat lg then size else 2 ^ Z.of_nat lg) with
      (Z.min size (2 ^ Z.of_nat lg)) by (case_zbool (size <? 2 ^ Z.of_nat lg); lia).
    set (lim := Z.min size (2 ^ Z.of_nat lg)).
    assert (0 <= prev_pow lg <= 2 ^ Z.of_nat lg).
    { destruct lg as [|j]; [cbn; lia|]. cbn [prev_pow].
      split; [apply Z.pow_nonneg; lia|apply Z.pow_le_mono_r; lia]. }
    case_zbool ((size <? 2 ^ Z.of_nat lg) && (lim <? i0 + 1)).
    + assert (i0 = size) as -> by lia. eauto.
    + rewrite count_nonnil_akeys.
      assert (Z.to_nat lim = Z.to_nat i0 + Z.to_nat (lim - i0))%nat as El by lia.
      pose proof (akeys_app a 0 (Z.to_nat i0) (Z.to_nat (lim - i0))) as Ea.
      rewrite <- El in Ea. cbn [Nat.add] in Ea.
      replace (Z.max i0 lim) with lim by lia.
      replace (Z.of_nat (length (akeys a 0 (Z.to_nat i0))) + _) with
        (Z.of_nat (length (akeys a 0 (Z.to_nat lim)))) by (rewrite Ea, length_app; lia).
      replace (2 ^ Z.of_nat lg * 2) with (2 ^ Z.of_nat (S lg))
        by (rewrite Nat2Z.inj_succ, Z.pow_succ_r by lia; lia).
      apply (IH (S lg)); [lia|]. change (Z.min size (prev_pow (S lg))) with lim.
      rewrite Ea, app_assoc. apply nums_ok_many; [done|lia|].
      intros k Hk%akeys_range. unfold in_slice. apply andb_true_iff.
      rewrite Z.leb_le, Z.ltb_lt. split; [lia|].
      destruct lg as [|j]; [cbn; lia|]. cbn [prev_pow] in *.
      rewrite Nat2Z.inj_succ, Z.pow_succ_r in * by lia. lia.
Qed.

Lemma numusearray_ok (t : Table N) nums ks :
  0 <= sizearray t <= MAXASIZE -> nums_ok nums ks ->
  let ks' := akeys (array t) 0 (Z.to_nat (sizearray t)) in
  exists nums', numusearray t nums = (nums', Z.of_nat (length ks')) /\ nums_ok nums' (ks ++ ks').
Proof.
  intros Hs Hn ks'.
  destruct (numusearray_loop_ok (array t) (sizearray t) 27 0 nums ks) as (nums' & Heq & Hok);
    [done|done| |].
  - cbn [prev_pow]. rewrite Z.min_r by lia. cbn. by rewrite app_nil_r.
  - cbn [prev_pow] in Heq. rewrite Z.min_r in Heq by lia. exists nums'. split; [exact Heq|done].
Qed.

(** Array indices of the live keys of the nodes below [i], downwards. *)
Fixpoint hkeys nd (i : nat) : list Z :=
  match i with
  | O => []
  | S i' =>
      match nd !! i' with
      | Some n => if ttisnil (i_val n) then [] else
          match i_key n with Key v => [arrayindex v] | DeadKey _ => [] end
      | None => []
      end ++ hkeys nd i'
  end.

(** No value lives under a dead key. *)
Definition no_dead nd : Prop :=
  forall i n p, nd !! i = Some n -> i_key n = DeadKey p -> i_val n = Nil.

Lemma numusehash_loop_ok nd (i : nat) nums ks totaluse ause :
  (i <= length nd)%nat -> no_dead nd -> nums_ok nums ks ->
  exists nums', numusehash_loop nd i nums totaluse ause =
      Ok (nums', totaluse + Z.of_nat (length (hkeys nd i)), ause + countZ (in_1 MAXASIZE) (hkeys nd i)) /\
    nums_ok nums' (ks ++ hkeys nd i).
Proof.
  intros Hi Hd. revert nums ks totaluse ause.
  induction i as [|i IH]; intros nums ks totaluse ause Hn; cbn [numusehash_loop hkeys].
  { exists nums. rewrite countZ_nil, app_nil_r. change (Z.of_nat (length [])) with 0.
    by rewrite !Z.add_0_r. }
  destruct (lookup_lt_is_Some_2 nd i) as [n En]; [lia|]. rewrite En.
  destruct (ttisnil (i_val n)) eqn:Ev; [apply IH; [lia|done]|].
  destruct (i_key n) as [v|p] eqn:Ek; [|rewrite (Hd _ _ _ En Ek) in Ev; done].
  destruct (countint_ok v nums ks Hn) as (nums' & -> & Hn'). cbn [bind].
  destruct (IH ltac:(lia) nums' _ (totaluse + 1)
    (ause + if in_1 MAXASIZE (arrayindex v) then 1 else 0) Hn') as (nums'' & -> & Hn'').
  exists nums''. rewrite <- app_assoc in Hn''. split; [|exact Hn''].
  rewrite countZ_app, countZ_cons, countZ_nil, length_app. cbn [length].
  match goal with |- Ok (_, ?a, ?b) = Ok (_, ?c, ?d) =>
    replace c with a by lia; replace d with b by lia end. done.
Qed.
End Table.
End Counts.

(** C39: the array size a rehash chooses.  Given the counts of a multiset of
    integer keys, distinct in the range of the array part, computesizes returns
    the largest power of two [n] up to 2^26 such that more than half of the
    slots 1..n would be in use, or 0 if there is none, and the number of keys
    that go to the array part. *)
Theorem computesizes_optimal nums ks :
  nums_ok nums ks -> distinct_in ks ->
  let '(na, n) := computesizes nums (countZ (in_1 MAXASIZE) ks) in
  na = countZ (in_1 n) ks /\
  (n = 0 \/ exists j, 0 <= j <= 26 /\ n = 2 ^ j /\ n / 2 < na) /\
  forall j, 0 <= j <= 26 -> n < 2 ^ j -> countZ (in_1 (2 ^ j)) ks <= 2 ^ j / 2.
Proof.
  intros Hn Hd. pose proof (computesizes_ok ks nums Hn) as Hs.
  destruct (computesizes nums _) as [na n]. destruct Hs as [Hna Hsz Hmax]. split; [done|]. split.
  - destruct Hsz as [?|(j & Hj & E & Hw)]; [by left|right]. exists j. split_and!; try done; [lia..|].
    unfold worth in Hw. lia.
  - intros j Hj Hlt. specialize (Hmax Hd j Hj Hlt). unfold worth in Hmax. lia.
Qed.

Definition sample_keys : list Z := [1; 2; 3; 5; 9; 1000; -1].
Definition sample_nums : list Z := [1; 1; 1; 1; 1; 0; 0; 0; 0; 0; 1] ++ replicate 16 0.

Lemma computesizes_optimal_witness :
  computesizes sample_nums 6 = (3, 4) /\ countZ (in_1 4) sample_keys = 3 /\ countZ (in_1 8) sample_keys <= 4.
Proof.
  assert (Hn : nums_ok sample_nums sample_keys).
  { split; [reflexivity|]. intros l Hl. do 27 (destruct l as [|l]; [reflexivity|]). lia. }
  assert (Hd : distinct_in sample_keys).
  { unfold distinct_in. vm_compute. repeat constructor; set_solver. }
  pose proof (computesizes_optimal sample_nums sample_keys Hn Hd) as Ho.
  change (countZ (in_1 MAXASIZE) sample_keys) with 6 in Ho.
  assert (Hc : computesizes sample_nums 6 = (3, 4)) by reflexivity. rewrite Hc in Ho.
  destruct Ho as (Ha & _ & Hmax). split_and!; [exact Hc|by rewrite <- Ha|by apply (Hmax 3)].
Defined.
