(* ===== verification/LuaTableResize.v ===== *)
(** Lua tables: re-inserting the entries of a resized table; a rehash keeps the
    contents and makes room for one more key. *)
From stdpp Require Import base list sets.
From Stdlib Require Import ZArith Lia.
From S2P Require Import Prelude LuaNumber LuaObject LuaTable LuaTableWf LuaTableSet LuaTableRehash.
Open Scope nat_scope.

Section Resize.
Context {N : Type} `{LuaNumber N}.
Variable tsv_hash : Z -> Z.
Implicit Types (t : Table N) (v w : TValue N) (nd : list (Node N)).

Abbreviation rawequal := luaO_rawequalObj.
Abbreviation main := (mainposition tsv_hash).
Abbreviation get := (luaH_get tsv_hash).
Abbreviation wf_table := (wf_table tsv_hash).
Abbreviation content := (content tsv_hash).

(** * Room for [k] more keys in the hash part *)
Definition room t (k : nat) : Prop :=
  k = 0 \/ (isdummy t = false /\ exists u, used_le (node t) u /\ u + k <= length (node t)).

Definition need t v : nat := if decide (in_array t v) then 0 else 1.

Lemma room_free t v k :
  room t (need t v + k) -> ~ in_array t v -> isdummy t = false /\ exists i, free (node t) i.
Proof.
  unfold need. intros Hr Hin. rewrite decide_False in Hr by done.
  destruct Hr as [?|(Hd & u & Hu & Hle)]; [lia|]. split; [done|].
  destruct (used_le_room _ _ Hu ltac:(lia)) as (i & _ & ?). eauto.
Qed.

Lemma room_le t k k' : room t k -> k' <= k -> room t k'.
Proof.
  intros [->|(? & u & ? & ?)] ?; [left; lia|right]. split; [done|]. exists u. split; [done|lia].
Qed.

(** What storing [x] at key [v] does, when the insertion did not rehash. *)
Record put_ok t v (x : TValue N) (k : nat) t2 : Prop := {
  pt_wf : wf_table t2;
  pt_content w : content t2 w = upd_content tsv_hash t v x w;
  pt_size : sizearray t2 = sizearray t;
  pt_len : length (array t2) = length (array t);
  pt_beyond i : (sizearray t <= Z.of_nat i)%Z -> array t2 !! i = array t !! i;
  pt_room : room t2 k
}.

Lemma slot_set_put t v x k t1 s :
  wf_table t -> valid v -> set_ok tsv_hash t v t1 s -> set_small t v t1 -> room t (need t v + k) ->
  put_ok t v x k (slot_set t1 s x).
Proof.
  intros W [Hnn Hvv] [W1 Hg Hc] [(Ha & Hsz & Hl & Hd) Hu Hlen] Hr.
  destruct (slot_set_ok tsv_hash t1 v s x W1 Hnn Hg) as (W2 & Hc2 & (_ & _ & _ & Hd2) & Hu2 & Hlen2 & Hla).
  assert (sizearray (slot_set t1 s x) = sizearray t) as Hsz2 by (rewrite <- Hsz; by destruct s).
  split; try done.
  - intros w. rewrite Hc2. unfold upd_content. by rewrite Hc.
  - by rewrite Hla, Ha.
  - intros i Hi. rewrite <- Ha. destruct s as [j|j]; [|done]. cbn. apply list_lookup_insert_ne.
    destruct (get_cases tsv_hash t1 v W1 Hnn) as [[Hin Hg']|[(_ & i' & w & Hg' & _)|(_ & Hg' & _)]];
      rewrite Hg in Hg'; try done. injection Hg' as ->. unfold in_array in Hin. lia.
  - cbn in Hd2. destruct Hr as [Hk|(Hd0 & u & Hu0 & Hle)]; [left; lia|right].
    split; [congruence|]. exists (need t v + u). rewrite Hlen2, Hlen. split; [|lia].
    apply Hu2. specialize (Hu u Hu0). unfold need. case_decide; done.
Qed.

Lemma set_put t v x k fuel :
  wf_table t -> valid v -> room t (need t v + k) ->
  exists t1 s, luaH_set_ tsv_hash (newkey tsv_hash (S fuel)) t v = Ok (t1, s) /\
    put_ok t v x k (slot_set t1 s x).
Proof.
  intros W Hv Hr. destruct (set_room tsv_hash t v fuel W Hv) as (t1 & s & -> & ? & ?).
  { intros. by eapply room_free. }
  exists t1, s. split; [done|]. by apply slot_set_put.
Qed.

Lemma setnum_put t j x k fuel :
  let v := Number (cast_num j) in
  wf_table t -> in_s 32 j -> room t (need t v + k) ->
  exists t1 s, luaH_setnum_ (newkey tsv_hash (S fuel)) t j = Ok (t1, s) /\
    array t1 = array t /\ put_ok t v x k (slot_set t1 s x).
Proof.
  intros v W Hj Hr. destruct (setnum_room tsv_hash t j fuel W Hj) as (t1 & s & -> & ? & Hss).
  { intros. by eapply room_free. }
  exists t1, s. split_and!; [done|by apply Hss|].
  apply slot_set_put; try done. split; [done|by apply numeq_cast].
Qed.

(** * Restoring the contents [C] *)
Section Restore.
Context (C : TValue N -> TValue N) (sz : Z).
Hypothesis HC : forall v w, rawequal v w = true -> C v = C w.

(** The table under construction has no other contents than [C]. *)
Record partial t : Prop := {
  pa_wf : wf_table t;
  pa_size : sizearray t = sz;
  pa_sub w : content t w = Nil \/ content t w = C w
}.

(** [t'] has the entries of [t] and room for [k] more keys. *)
Record grows t (k : nat) t' : Prop := {
  gr_partial : partial t';
  gr_mono w : content t w = C w -> content t' w = C w;
  gr_room : room t' k;
  gr_len : length (array t') = length (array t);
  gr_beyond i : (sz <= Z.of_nat i)%Z -> array t' !! i = array t !! i
}.

Lemma put_grows t v k t' :
  partial t -> put_ok t v (C v) k t' -> grows t k t' /\ content t' v = C v \/ rawequal v v = false.
Proof.
  intros [W Hs Hsub] [W' Hc Hs' Hl Hb Hr].
  destruct (rawequal v v) eqn:Ev; [left|by right]. split.
  - split; try done; try congruence.
    + split; [done|congruence|]. intros w. rewrite Hc. unfold upd_content.
      destruct (rawequal v w) eqn:E; [right; by apply HC|apply Hsub].
    + intros w Hw. rewrite Hc. unfold upd_content.
      destruct (rawequal v w) eqn:E; [by apply HC|done].
    + intros i Hi. apply Hb. congruence.
  - rewrite Hc. unfold upd_content. by rewrite Ev.
Qed.

Lemma put_grows_valid t v k t' :
  partial t -> valid v -> put_ok t v (C v) k t' -> grows t k t' /\ content t' v = C v.
Proof. intros P [_ Hv] Hp. destruct (put_grows t v k t' P Hp); [done|congruence]. Qed.

Lemma grows_trans t k t1 k1 t2 : grows t k t1 -> grows t1 k1 t2 -> grows t k1 t2.
Proof.
  intros G1 G2. split; try apply G2.
  - intros w Hw. by apply (gr_mono _ _ _ G2), (gr_mono _ _ _ G1).
  - rewrite (gr_len _ _ _ G2). apply G1.
  - intros i Hi. rewrite (gr_beyond _ _ _ G2), (gr_beyond _ _ _ G1) by done. done.
Qed.

(** The elements of the vanishing slice of the array. *)
Lemma reinsert_array_ok t n i k fuel :
  partial t -> (sz <= Z.of_nat i)%Z -> (Z.of_nat i + Z.of_nat n <= MAXASIZE)%Z ->
  (forall j, i <= j < i + n -> default Nil (array t !! j) = C (Number (cast_num (Z.of_nat j + 1)))) ->
  room t (length (akeys (array t) i n) + k) ->
  exists t', reinsert_array (newkey tsv_hash (S fuel)) t n i = Ok t' /\ grows t k t' /\
    forall j, i <= j < i + n -> let v := Number (cast_num (Z.of_nat j + 1)) in
      C v <> Nil -> content t' v = C v.
Proof.
  change MAXASIZE with (2 ^ 26)%Z.
  revert t i. induction n as [|n IH]; intros t i P Hi Hb HA Hr; cbn [reinsert_array].
  { exists t. split; [done|]. split; [by split|]. intros; lia. }
  cbn [akeys] in Hr. rewrite length_app in Hr. unfold slot_get at 1.
  set (v := Number (cast_num (Z.of_nat i + 1))).
  assert (in_s 32 (Z.of_nat i + 1)) as H32 by (unfold in_s; change (32 - 1)%Z with 31%Z; lia).
  assert (default Nil (array t !! i) = C v) as Hv by (apply HA; lia).
  destruct (ttisnil (default Nil (array t !! i))) eqn:En.
  - apply ttisnil_true in En.
    destruct (IH t (S i) P) as (t' & -> & G & Hin); [lia|lia|intros; apply HA; lia|done|].
    exists t'. split_and!; [done..|]. intros j Hj. cbv zeta. intros Hne.
    destruct (decide (j = i)) as [->|]; [fold v in Hne; congruence|apply Hin; [lia|done]].
  - assert (need t v = 1) as Hneed.
    { unfold need. rewrite decide_False; [done|]. unfold in_array, v.
      rewrite arrayindex_cast by done. rewrite (pa_size _ P). lia. }
    destruct (setnum_put t (Z.of_nat i + 1) (C v) (length (akeys (array t) (S i) n) + k) fuel)
      as (t1 & s & -> & Ha & Hp); [apply P|done|fold v; rewrite Hneed; eapply room_le; [done|cbn; lia]|].
    fold v in Hp. cbn [bind]. cbn [slot_get]. rewrite Ha, Hv.
    assert (valid v) as Hval by (split; [done|by apply numeq_cast]).
    destruct (put_grows_valid t v _ _ P Hval Hp) as [G1 Hc1].
    set (t2 := slot_set t1 s (C v)) in *.
    assert (forall j, i <= j -> array t2 !! j = array t !! j) as Hbe
      by (intros; apply (gr_beyond _ _ _ G1); lia).
    assert (akeys (array t2) (S i) n = akeys (array t) (S i) n) as Hak
      by (apply akeys_ext; intros; apply Hbe; lia).
    destruct (IH t2 (S i)) as (t' & -> & G & Hin); [apply G1|lia|lia| |rewrite Hak; apply G1|].
    { intros j Hj. rewrite Hbe by lia. apply HA. lia. }
    exists t'. split; [done|]. split; [eapply grows_trans; done|]. intros j Hj. cbv zeta. intros Hne.
    destruct (decide (j = i)) as [->|]; [by apply (gr_mono _ _ _ G)|apply Hin; [lia|done]].
Qed.

(** The live entries of the old node vector. *)
Definition entries nd (i : nat) : Prop :=
  forall j n, j < i -> nd !! j = Some n -> i_val n <> Nil ->
    exists v, i_key n = Key v /\ valid v /\ C v = i_val n.

Definition outside (k : Z) : bool := negb (in_1 sz k).

Lemma need_outside t v : partial t -> Z.of_nat (need t v) = if outside (arrayindex v) then 1%Z else 0%Z.
Proof.
  intros P. pose proof (pa_size _ P). unfold need, outside, in_1.
  case_decide as Hd; unfold in_array in Hd;
    destruct (Z.ltb_spec 0 (arrayindex v)), (Z.leb_spec (arrayindex v) sz); cbn; lia.
Qed.

Lemma reinsert_hash_ok t nd i k fuel :
  partial t -> i <= length nd -> entries nd i ->
  room t (Z.to_nat (countZ outside (hkeys nd i)) + k) ->
  exists t', reinsert_hash tsv_hash (newkey tsv_hash (S fuel)) t nd i = Ok t' /\ grows t k t' /\
    forall j n v, j < i -> nd !! j = Some n -> i_val n <> Nil -> i_key n = Key v -> content t' v = C v.
Proof.
  revert t. induction i as [|i IH]; intros t P Hi He Hr; cbn [reinsert_hash].
  { exists t. split; [done|]. split; [by split|]. intros; lia. }
  destruct (lookup_lt_is_Some_2 nd i) as [n En]; [lia|]. rewrite En.
  cbn [hkeys] in Hr. rewrite En, countZ_app in Hr.
  assert (entries nd i) as He' by (intros j m Hj; apply He; lia).
  destruct (ttisnil (i_val n)) eqn:Ev.
  - apply ttisnil_true in Ev. destruct (IH t P) as (t' & -> & G & Hin); [lia|done|done|].
    exists t'. split_and!; [done..|]. intros j m v Hj Hm Hnn.
    destruct (decide (j = i)) as [->|]; [congruence|apply (Hin j m); [lia|done..]].
  - apply ttisnil_false in Ev. destruct (He i n ltac:(lia) En Ev) as (v & Hk & Hv & HCv).
    rewrite Hk in Hr |- *. rewrite countZ_cons, countZ_nil in Hr.
    pose proof (need_outside t v P). pose proof (countZ_nonneg outside (hkeys nd i)).
    destruct (set_put t v (C v) (Z.to_nat (countZ outside (hkeys nd i)) + k) fuel)
      as (t1 & s & -> & Hp); [apply P|done|eapply room_le; [done|destruct (outside (arrayindex v)) in *; lia]|].
    cbn [bind]. rewrite <- HCv. destruct (put_grows_valid t v _ _ P Hv Hp) as [G1 Hc1].
    destruct (IH (slot_set t1 s (C v))) as (t' & -> & G & Hin); [apply G1|lia|done|apply G1|].
    exists t'. split; [done|]. split; [eapply grows_trans; done|].
    intros j m w Hj Hm Hnn Hkw. destruct (decide (j = i)) as [->|]; [|apply (Hin j m); [lia|done..]].
    assert (w = v) as -> by congruence. by apply (gr_mono _ _ _ G).
Qed.
End Restore.

(** * setnodevector, setarrayvector *)

Lemma nxt_blank n i : nxt (replicate n (empty_node (N := N))) i = None.
Proof. unfold nxt. destruct (replicate n _ !! i) as [m|] eqn:E; [|done]. by apply lookup_replicate in E as [-> _]. Qed.
Lemma keyat_blank n i k : keyat (replicate n (empty_node (N := N))) i = Some k -> k = Key Nil.
Proof.
  unfold keyat. destruct (replicate n _ !! i) as [m|] eqn:E; [|done].
  apply lookup_replicate in E as [-> _]. by intros [= <-].
Qed.
Lemma blank_no_key n i v : ~ has_key (replicate n (empty_node (N := N))) i v.
Proof. intros [Hk%keyat_blank ?]. by injection Hk as ->. Qed.
Lemma valat_blank n i : valat (replicate n (empty_node (N := N))) i = Nil.
Proof. unfold valat. destruct (replicate n _ !! i) as [m|] eqn:E; [|done]. by apply lookup_replicate in E as [-> _]. Qed.

Lemma wf_hash_blank l :
  (0 <= l <= MAXBITS)%Z -> wf_hash tsv_hash l (replicate (Z.to_nat (twoto l)) (empty_node (N := N))).
Proof.
  intros Hl. split; try done; intros *; rewrite ?nxt_blank, ?valat_blank; try done.
  - rewrite length_replicate. unfold twoto. rewrite Z.shiftl_1_l.
    assert (0 <= 2 ^ l)%Z by (apply Z.pow_nonneg; lia). lia.
  - intros _. exists [i]. constructor. apply nxt_blank.
  - intros _. split_and!; [done..|]. intros j. by rewrite nxt_blank.
  - intros Hk. by apply blank_no_key in Hk.
  - intros Hk. by apply blank_no_key in Hk.
  - intros Hk. by apply blank_no_key in Hk.
  - intros Hk. by apply blank_no_key in Hk.
Qed.

(** A table whose hash part is empty, with place for [k] keys. *)
Record blank t (k : nat) : Prop := {
  bl_hash : wf_hash tsv_hash (lsizenode t) (node t);
  bl_key i v : ~ has_key (node t) i v;
  bl_room : room t k;
  bl_dummy : isdummy t = true -> node t = [empty_node] /\ lsizenode t = 0%Z /\ (lastfree t <= 0)%Z;
  bl_lastfree : isdummy t = false -> lastfree t = Z.of_nat (length (node t));
  bl_lastfree_le : (lastfree t <= Z.of_nat (length (node t)))%Z
}.

Lemma blank_wf t k :
  blank t k -> (0 <= sizearray t <= MAXASIZE)%Z -> (sizearray t <= Z.of_nat (length (array t)))%Z ->
  wf_table t.
Proof.
  intros B Hs Ha. split; try done; try apply B.
  - intros Hd i Hf%keyat_lt. rewrite (bl_lastfree _ _ B Hd). lia.
  - intros i v []%(bl_key _ _ B).
Qed.

Lemma blank_content t k v :
  blank t k -> wf_table t -> ~ in_array t v -> content t v = Nil.
Proof.
  intros B W Hin. destruct (decide (v = Nil)) as [->|Hv]; [done|].
  destruct (decide (content t v = Nil)) as [|Hne]; [done|].
  destruct (proj1 (content_node tsv_hash t v _ W Hv Hin Hne) eq_refl) as (i & w & Hk & _).
  by apply (bl_key _ _ B) in Hk.
Qed.

Lemma setnodevector_ok t size :
  (0 <= size <= 2 ^ 31)%Z ->
  ((2 ^ 26 < size)%Z /\ setnodevector t size = Err "table overflow") \/
  ((size <= 2 ^ 26)%Z /\ exists t1, setnodevector t size = Ok t1 /\ blank t1 (Z.to_nat size) /\
    array t1 = array t /\ sizearray t1 = sizearray t).
Proof.
  intros Hs. unfold setnodevector. case_zbool (size =? 0)%Z.
  { right. split; [lia|]. eexists. split; [done|]. split; [|done]. subst.
    split; cbn; try done; [apply (wf_hash_blank 0); done|apply (blank_no_key 1)|by left]. }
  assert (exists l, ceillog2 size = Ok l /\ 0 <= l /\ 2 ^ l < 2 * size /\ size <= 2 ^ l)%Z as (l & -> & Hl & Hlt & Hle).
  { unfold ceillog2. rewrite wrap_small by lia.
    destruct (Z.eq_dec size 1) as [->|]; [by exists 0%Z|].
    destruct (ceillog2_spec size) as (l & -> & Hl & Hb); [lia|]. cbn [bind].
    exists (l + 1)%Z. rewrite Z.pow_add_r in * by lia. split; [done|]. lia. }
  cbn [bind]. case_zbool (MAXBITS <? l)%Z; unfold MAXBITS in *.
  - left. split; [|done]. assert (2 ^ 27 <= 2 ^ l)%Z by (apply Z.pow_le_mono_r; lia). lia.
  - right. assert (2 ^ l <= 2 ^ 26)%Z by (apply Z.pow_le_mono_r; lia).
    split; [lia|]. eexists. split; [done|]. split; [|done].
    assert (0 <= 2 ^ l)%Z by (apply Z.pow_nonneg; lia).
    assert (twoto l = 2 ^ l)%Z as Et by (unfold twoto; by rewrite Z.shiftl_1_l).
    split; cbn; rewrite ?length_replicate; try (done || lia).
    + by apply wf_hash_blank.
    + apply blank_no_key.
    + right. split; [done|]. exists 0. cbn [node]; rewrite length_replicate. split; [|lia].
      exists []. split; [done|]. intros i Hi Hf. exfalso. apply Hf. unfold free, keyat.
      rewrite length_replicate in Hi. by rewrite lookup_replicate_2.
Qed.

(** * resize *)

(** The array indices of all keys of a table, -1 for the keys that have none. *)
Definition tkeys t : list Z :=
  akeys (array t) 0 (Z.to_nat (sizearray t)) ++ hkeys (node t) (length (node t)).

Lemma wf_twoto t : wf_table t -> Z.to_nat (twoto (lsizenode t)) = length (node t).
Proof. intros W. pose proof (wf_len _ _ _ (wt_hash _ _ W)). lia. Qed.

Lemma live_entry t j n :
  wf_table t -> node t !! j = Some n -> i_val n <> Nil ->
  exists v, i_key n = Key v /\ valid v /\ has_key (node t) j v /\ ~ in_array t v /\ content t v = i_val n.
Proof.
  intros W Hn Hv. pose proof (wt_hash _ _ W) as Wh.
  assert (keyat (node t) j = Some (i_key n)) as Hk by (unfold keyat; by rewrite Hn).
  assert (valat (node t) j = i_val n) as Hval by (unfold valat; by rewrite Hn).
  destruct (i_key n) as [v|p]; [|apply (wf_dead _ _ _ Wh) in Hk; congruence].
  assert (v <> Nil) as Hnn by (intros ->; apply (wf_free _ _ _ Wh) in Hk as (_ & ? & _); congruence).
  assert (has_key (node t) j v) as Hhas by done.
  pose proof (wf_valid _ _ _ Wh _ _ Hhas). pose proof (wt_noarray _ _ W _ _ Hhas).
  exists v. split_and!; try done. apply (content_node tsv_hash); try done. by exists j, v.
Qed.

Lemma wf_entries t i : wf_table t -> entries (content t) (node t) i.
Proof.
  intros W j n _ Hn Hv. destruct (live_entry t j n W Hn Hv) as (v & ? & ? & _ & _ & ?). eauto.
Qed.

Lemma array_content t i :
  wf_table t -> (Z.of_nat i < sizearray t)%Z ->
  content t (Number (cast_num (Z.of_nat i + 1))) = default Nil (array t !! i).
Proof.
  intros W Hi. pose proof (wt_size _ _ W) as Hs. change MAXASIZE with (2 ^ 26)%Z in Hs.
  assert (arrayindex (Number (cast_num (Z.of_nat i + 1))) = Z.of_nat i + 1)%Z as E.
  { apply arrayindex_cast. unfold in_s. change (32 - 1)%Z with 31%Z. lia. }
  rewrite (content_array tsv_hash), E; [|done|unfold in_array; rewrite E; lia]. do 2 f_equal. lia.
Qed.

(** The table just before re-insertion: a blank hash part, and the part of the
    old array that stays. *)
Lemma start_partial t t1 k :
  wf_table t -> blank t1 k -> (0 <= sizearray t1 <= MAXASIZE)%Z ->
  (sizearray t1 <= Z.of_nat (length (array t1)))%Z ->
  (forall i, (Z.of_nat i < sizearray t1)%Z -> default Nil (array t1 !! i) =
     if decide (Z.of_nat i < sizearray t)%Z then default Nil (array t !! i) else Nil) ->
  partial (content t) (sizearray t1) t1 /\
  forall w, in_array t w -> in_array t1 w -> content t1 w = content t w.
Proof.
  intros W B Hs Hl Ha. pose proof (blank_wf _ _ B Hs Hl) as W1.
  assert (forall w, in_array t w -> in_array t1 w -> content t1 w = content t w) as Hkeep.
  { intros w Hw Hw1. rewrite !(content_array tsv_hash) by done. unfold in_array in *.
    rewrite Ha by lia. rewrite decide_True by lia. done. }
  split; [|done]. split; [done..|]. intros w.
  destruct (decide (in_array t1 w)) as [Hw1|Hw1]; [|left; by eapply blank_content].
  destruct (decide (in_array t w)) as [Hw|Hw]; [right; by apply Hkeep|left].
  rewrite (content_array tsv_hash) by done. unfold in_array in *.
  rewrite Ha by lia. rewrite decide_False by lia. done.
Qed.

(** Shrinking the vector to the array part. *)
Lemma cut_partial C sz t k :
  partial C sz t -> room t k ->
  let t' := with_array t (take (Z.to_nat sz) (array t)) (sizearray t) in
  partial C sz t' /\ room t' k /\ forall w, content t' w = content t w.
Proof.
  intros [W Hs Hsub] Hr t'. pose proof (wt_size _ _ W) as Hsz. pose proof (wt_array _ _ W).
  assert (wf_table t') as W'.
  { split; cbn; try apply W. rewrite length_take. lia. }
  assert (forall w, content t' w = content t w) as Hc.
  { intros w. apply content_ext; try done. unfold in_array. intros Hw. cbn.
    apply lookup_take_lt. lia. }
  split_and!; [|done..]. split; [done..|]. intros w. rewrite Hc. apply Hsub.
Qed.

(** Keys of the shrinking array that need a place in the hash part. *)
Lemma akeys_outside t nasize :
  (0 <= nasize <= sizearray t)%Z ->
  Z.of_nat (length (akeys (array t) (Z.to_nat nasize) (Z.to_nat (sizearray t - nasize)))) =
  countZ (outside nasize) (akeys (array t) 0 (Z.to_nat (sizearray t))).
Proof.
  intros Hn. replace (Z.to_nat (sizearray t)) with (Z.to_nat nasize + Z.to_nat (sizearray t - nasize)) by lia.
  rewrite akeys_app, countZ_app, (countZ_none _ (akeys _ 0 _)), (countZ_all _ (akeys _ _ _)); [done|..];
    intros k Hk%akeys_range; unfold outside, in_1;
    destruct (Z.ltb_spec 0 k), (Z.leb_spec k nasize); cbn; lia || done.
Qed.

(** Re-insertion of the hash part, and the contents are complete. *)
Lemma reinsert_all t t3 sz k fuel :
  wf_table t -> partial (content t) sz t3 ->
  room t3 (Z.to_nat (countZ (outside sz) (hkeys (node t) (length (node t)))) + k) ->
  (forall w, in_array t w -> content t w <> Nil -> content t3 w = content t w) ->
  exists t', reinsert_hash tsv_hash (newkey tsv_hash (S fuel)) t3 (node t) (Z.to_nat (twoto (lsizenode t))) = Ok t' /\
    wf_table t' /\ sizearray t' = sz /\ room t' k /\ forall w, content t' w = content t w.
Proof.
  intros W P Hr Harr. rewrite wf_twoto by done.
  destruct (reinsert_hash_ok (content t) sz (fun v w => content_rawequal tsv_hash t v w W) t3 (node t)
    (length (node t)) k fuel P) as (t' & -> & G & Hin); [lia|by apply wf_entries|done|].
  exists t'. split; [done|]. pose proof (gr_partial _ _ _ _ _ G) as [W' Hs' Hsub].
  split_and!; [done..|apply G|]. intros w. destruct (decide (content t w = Nil)) as [E|E].
  { destruct (Hsub w); congruence. }
  destruct (decide (in_array t w)) as [Hw|Hw].
  { apply (gr_mono _ _ _ _ _ G). by apply Harr. }
  assert (w <> Nil) as Hnn by (intros ->; done).
  destruct (proj1 (content_node tsv_hash t w _ W Hnn Hw E) eq_refl) as (i & v & [Hk Hv] & Evw & Hval & _).
  rewrite <- (content_rawequal tsv_hash t' v w W' Evw), <- (content_rawequal tsv_hash t v w W Evw).
  unfold keyat in Hk. apply fmap_Some in Hk as (n & Hn & Hkn).
  unfold valat in Hval. rewrite Hn in Hval. cbn in Hval.
  eapply Hin; [by eapply lookup_lt_Some|done|congruence|done].
Qed.

(** What a resize promises. *)
Record resized t (nasize : Z) (k : nat) t' : Prop := {
  re_wf : wf_table t';
  re_size : sizearray t' = nasize;
  re_room : room t' k;
  re_content w : content t' w = content t w
}.

(** Growing or keeping the array part, the hash part still blank. *)
Lemma grow_start t t1 nasize k :
  wf_table t -> (sizearray t <= nasize <= MAXASIZE)%Z ->
  let t0 := if (sizearray t <? nasize)%Z then setarrayvector t nasize else t in
  blank t1 k -> array t1 = array t0 -> sizearray t1 = sizearray t0 ->
  partial (content t) nasize t1 /\ forall w, in_array t w -> content t1 w = content t w.
Proof.
  intros W Hn t0 B Ha Hs. pose proof (wt_size _ _ W). pose proof (wt_array _ _ W).
  assert (sizearray t0 = nasize) as E0 by (unfold t0; case_zbool (sizearray t <? nasize)%Z; cbn; lia).
  rewrite E0 in Hs.
  destruct (start_partial t t1 k W B) as [P Hk]; rewrite ?Hs, ?Ha in *; [lia| | |split; [done|]].
  - unfold t0. case_zbool (sizearray t <? nasize)%Z; [|lia]. cbn. rewrite length_resize. lia.
  - intros i Hi. unfold t0. case_zbool (sizearray t <? nasize)%Z; [|rewrite decide_True by lia; done].
    cbn. case_decide.
    + rewrite lookup_resize by (rewrite ?length_take; lia). by rewrite lookup_take_lt by lia.
    + rewrite lookup_resize_new by (rewrite ?length_take; lia). done.
  - intros w Hw. apply Hk; [done|]. unfold in_array in *. lia.
Qed.

Lemma resize_shape t nasize nhsize fuel k :
  wf_table t -> (0 <= nasize <= MAXASIZE)%Z -> (0 <= nhsize <= 2 ^ 31)%Z ->
  (countZ (outside nasize) (tkeys t) + Z.of_nat k <= nhsize)%Z ->
  ((2 ^ 26 < nhsize)%Z /\
    resize_ tsv_hash (newkey tsv_hash (S fuel)) t nasize nhsize = Err "table overflow") \/
  (exists t', resize_ tsv_hash (newkey tsv_hash (S fuel)) t nasize nhsize = Ok t' /\ resized t nasize k t').
Proof.
  intros W Hna Hnh Hk. unfold resize_, tkeys in *. rewrite countZ_app in Hk.
  set (t0 := if (sizearray t <? nasize)%Z then setarrayvector t nasize else t).
  pose proof (countZ_nonneg (outside nasize) (akeys (array t) 0 (Z.to_nat (sizearray t)))) as Hka.
  pose proof (countZ_nonneg (outside nasize) (hkeys (node t) (length (node t)))) as Hkh.
  destruct (setnodevector_ok t0 nhsize Hnh) as [[? ->]|[? (t1 & -> & B & Ha & Hs)]];
    [by left|right]. cbn [bind].
  case_zbool (nasize <? sizearray t)%Z.
  - assert (t0 = t) as E0 by (unfold t0; case_zbool (sizearray t <? nasize)%Z; [lia|done]).
    rewrite E0 in *. set (t2 := with_array t1 (array t1) nasize).
    pose proof (wt_size _ _ W) as Hsz. pose proof (wt_array _ _ W).
    assert (blank t2 (Z.to_nat nhsize)) as B2 by (destruct B; by split).
    destruct (start_partial t t2 _ W B2) as [P Hkeep]; unfold t2; cbn [with_array sizearray array];
      [lia|rewrite Ha; lia|intros i Hi; rewrite decide_True, Ha by lia; done|].
    fold t2 in P, Hkeep |- *. change (sizearray t2) with nasize in P.
        destruct (reinsert_array_ok (content t) nasize (fun v w => content_rawequal tsv_hash t v w W)
      t2 (Z.to_nat (sizearray t - nasize)) (Z.to_nat nasize)
      (Z.to_nat (countZ (outside nasize) (hkeys (node t) (length (node t)))) + k) fuel P)
      as (t3 & -> & G & Hin); [lia|lia| | |].
    { intros j Hj. cbn. rewrite Ha. symmetry. apply array_content; [done|lia]. }
    { eapply room_le; [apply B2|]. cbn. rewrite Ha.
      pose proof (akeys_outside t nasize ltac:(lia)). lia. }
    cbn [bind]. destruct (cut_partial _ _ t3 _ (gr_partial _ _ _ _ _ G) (gr_room _ _ _ _ _ G)) as (P3 & R3 & Hc3).
    destruct (reinsert_all t _ nasize k fuel W P3 R3) as (t' & -> & ? & ? & ? & ?); [|by exists t'].
    intros w Hw Hnn. rewrite Hc3.
    destruct (decide (arrayindex w <= nasize)%Z) as [Hle|Hle].
    { apply (gr_mono _ _ _ _ _ G), Hkeep; [done|]. unfold in_array in *. cbn. lia. }
    unfold in_array in Hw. assert (rawequal w (Number (cast_num (arrayindex w))) = true) as E'
      by (apply arrayindex_rawequal; [done|lia]).
    assert (wf_table t3) as W3 by apply G.
    rewrite (content_rawequal tsv_hash t3 w _ W3 E'), (content_rawequal tsv_hash t w _ W E') in *.
    replace (arrayindex w) with (Z.of_nat (Z.to_nat (arrayindex w - 1)) + 1)%Z in * by lia.
    apply (Hin (Z.to_nat (arrayindex w - 1))); [lia|done].
  - destruct (grow_start t t1 nasize _ W ltac:(lia) B Ha Hs) as [P Hkeep]. cbn [bind].
    destruct (reinsert_all t t1 nasize k fuel W P) as (t' & -> & ? & ? & ? & ?);
      [eapply room_le; [apply B|lia]|intros; by apply Hkeep|by exists t'].
Qed.

(** * rehash *)

Lemma no_dead_wf t : wf_table t -> no_dead (node t).
Proof.
  intros W i n p Hn Hk. pose proof (wf_dead _ _ _ (wt_hash _ _ W) i p) as Hd.
  unfold keyat, valat in Hd. rewrite Hn in Hd. cbn in Hd. apply Hd. congruence.
Qed.

(** Number of live entries. *)
Definition count t : Z := Z.of_nat (length (tkeys t)).

Lemma hkeys_length nd i : length (hkeys nd i) <= i.
Proof.
  induction i as [|i IH]; [done|]. cbn [hkeys]. rewrite length_app.
  destruct (nd !! i) as [n|]; [|cbn; lia].
  destruct (ttisnil (i_val n)); [cbn; lia|]. destruct (i_key n); cbn; lia.
Qed.
Lemma akeys_length a i n : length (akeys (N := N) a i n) <= n.
Proof.
  revert i. induction n as [|n IH]; intros i; [done|]. cbn [akeys]. rewrite length_app.
  specialize (IH (S i)). destruct (ttisnil _); cbn; lia.
Qed.

Lemma count_bound t : wf_table t -> (0 <= count t <= 2 ^ 27)%Z.
Proof.
  intros W. unfold count, tkeys. rewrite length_app.
  pose proof (wt_size _ _ W) as Hs. change MAXASIZE with (2 ^ 26)%Z in Hs.
  pose proof (akeys_length (array t) 0 (Z.to_nat (sizearray t))).
  pose proof (hkeys_length (node t) (length (node t))).
  pose proof (wt_hash _ _ W) as Wh. pose proof (wf_len _ _ _ Wh) as Hl.
  pose proof (wf_lsize _ _ _ Wh) as Hls. unfold MAXBITS in Hls.
  unfold twoto in Hl. rewrite Z.shiftl_1_l in Hl.
  assert (2 ^ lsizenode t <= 2 ^ 26)%Z by (apply Z.pow_le_mono_r; lia). lia.
Qed.

Lemma countZ_split (P : Z -> bool) l : (countZ P l + countZ (fun x => negb (P x)) l)%Z = Z.of_nat (length l).
Proof.
  induction l as [|x l IH]; [done|]. rewrite !countZ_cons. cbn [length]. destruct (P x); cbn; lia.
Qed.

(** A rehash for key [ek] keeps the contents and makes room for the key, unless
    the table has too many entries. *)
Lemma rehash_ok t ek fuel :
  wf_table t ->
  ((2 ^ 26 <= count t)%Z /\ rehash_ tsv_hash (newkey tsv_hash (S fuel)) t ek = Err "table overflow") \/
  (exists t' nasize na, rehash_ tsv_hash (newkey tsv_hash (S fuel)) t ek = Ok t' /\
    sizes_ok (tkeys t ++ [arrayindex ek]) na nasize /\ resized t nasize (need t' ek) t').
Proof.
  intros W. unfold rehash_. pose proof (count_bound t W) as Hc.
  destruct (numusearray_ok t (replicate 27 0%Z) [] (wt_size _ _ W) nums_ok_nil) as (nums1 & -> & Hn1).
  unfold numusehash. rewrite (wf_twoto t W : Z.to_nat (sizenode t) = _).
  destruct (numusehash_loop_ok (node t) (length (node t)) nums1 _ 0 0 ltac:(lia) (no_dead_wf t W) Hn1)
    as (nums2 & -> & Hn2). cbn [bind].
  destruct (countint_ok ek nums2 _ Hn2) as (nums3 & -> & Hn3). cbn [bind].
  cbn [app] in *. fold (tkeys t) in Hn3. set (ks := tkeys t ++ [arrayindex ek]) in *.
  set (ak := akeys (array t) 0 (Z.to_nat (sizearray t))).
  set (hk := hkeys (node t) (length (node t))).
  assert (countZ (in_1 MAXASIZE) ak = Z.of_nat (length ak)) as Hak.
  { apply countZ_all. intros k Hk%akeys_range. pose proof (wt_size _ _ W).
    unfold in_1. destruct (Z.ltb_spec 0 k), (Z.leb_spec k MAXASIZE); cbn; lia || done. }
  replace (Z.of_nat (length ak) + (0 + countZ (in_1 MAXASIZE) hk) +
    (if in_1 MAXASIZE (arrayindex ek) then 1 else 0))%Z with (countZ (in_1 MAXASIZE) ks).
  2: { unfold ks, tkeys. fold ak hk. rewrite !countZ_app, countZ_cons, countZ_nil, Hak. lia. }
  pose proof (computesizes_ok ks nums3 Hn3) as Hsz.
  destruct (computesizes nums3 (countZ (in_1 MAXASIZE) ks)) as [na nasize].
  pose proof (sizes_range _ _ _ Hsz) as Hr. pose proof (countZ_split (in_1 nasize) ks) as Hsp.
  assert (Z.of_nat (length ks) = count t + 1)%Z as Hlk
    by (unfold ks; rewrite length_app; unfold count; cbn; lia).
  assert (Z.of_nat (length ak) + (0 + Z.of_nat (length hk)) + 1 = count t + 1)%Z as ->
    by (unfold count, tkeys; fold ak hk; rewrite length_app; lia).
  pose proof (sz_na _ _ _ Hsz) as Hna. subst na. pose proof (countZ_nonneg (in_1 nasize) ks).
  fold (outside nasize) in Hsp. pose proof (countZ_nonneg (outside nasize) ks).
  assert (countZ (outside nasize) ks = countZ (outside nasize) (tkeys t) +
    if outside nasize (arrayindex ek) then 1 else 0)%Z as Hout.
  { unfold ks. rewrite countZ_app, countZ_cons, countZ_nil. lia. }
  destruct (resize_shape t nasize (count t + 1 - countZ (in_1 nasize) ks) fuel
    (if outside nasize (arrayindex ek) then 1 else 0)) as [[? ->]|(t' & -> & R)]; [done|done|lia| |left; split; [lia|done]|].
  { destruct (outside nasize (arrayindex ek)); lia. }
  right.  exists t', nasize, (countZ (in_1 nasize) ks). split; [done|]. split; [exact Hsz|].
  destruct R as [W' Hs' Hr' Hc']. split; try done. eapply room_le; [done|].
  unfold need, outside, in_1. case_decide as Hd; [lia|]. unfold in_array in Hd. rewrite Hs' in Hd.
  destruct (Z.ltb_spec 0 (arrayindex ek)), (Z.leb_spec (arrayindex ek) nasize); cbn; lia.
Qed.

End Resize.
