(* ===== verification/LuaTableSpec.v ===== *)
(** Lua tables: what the operations promise.  A table is a finite map from
    keys, up to raw equality, to values; luaH_set, luaH_next, luaH_getn and the
    resizing functions implement its operations. *)
From stdpp Require Import base list sets.
From Stdlib Require Import ZArith Lia.
From S2P Require Import Prelude LuaNumber LuaObject LuaTable LuaTableWf LuaTableSet LuaTableRehash LuaTableResize.
Open Scope nat_scope.

Section Spec.
Context {N : Type} `{LuaNumber N}.
Variable tsv_hash : Z -> Z.
Implicit Types (t : Table N) (v w : TValue N).

Abbreviation rawequal := luaO_rawequalObj.
Abbreviation get := (luaH_get tsv_hash).
Abbreviation wf_table := (wf_table tsv_hash).
Abbreviation content := (content tsv_hash).

(** * luaH_set *)

Lemma with_lastfree_wf t lf :
  wf_table t -> isdummy t = true \/ (~ exists i, free (node t) i) -> (lf <= lastfree t)%Z ->
  wf_table (with_lastfree t lf).
Proof.
  intros W Hno Hlf. split; cbn; try apply W.
  - intros Hd. destruct (wt_dummy _ _ W Hd) as (? & ? & ?). split_and!; [done..|lia].
  - intros Hd i Hi. destruct Hno as [?|Hno]; [congruence|]. destruct Hno; eauto.
  - pose proof (wt_lastfree_le _ _ W). lia.
Qed.

Lemma with_lastfree_content t lf v : content (with_lastfree t lf) v = content t v.
Proof.
  unfold LuaTableSet.content. assert (get (with_lastfree t lf) v = get t v) as -> by done.
  by destruct (get t v) as [[[]|]| |].
Qed.

(** [newkey] on an absent key, rehash included. *)
Lemma newkey_total t v fuel :
  wf_table t -> valid v -> fresh t v -> ~ in_array t v ->
  (exists t' s, newkey tsv_hash (S (S fuel)) t v = Ok (t', s) /\ set_ok tsv_hash t v t' s) \/
  ((2 ^ 26 <= count t)%Z /\ newkey tsv_hash (S (S fuel)) t v = Err "table overflow").
Proof.
  intros W Hv Hfr Hin. destruct (newkey_step tsv_hash t v (S fuel) W Hv Hfr Hin) as [[_ Hd]|[Hno (lf & Hlf & ->)]].
  - left. destruct (newkey_direct_ok tsv_hash t v _ W Hv Hfr Hin Hd) as (t' & s & ? & ? & _). eauto.
  - pose proof (with_lastfree_wf t lf W Hno Hlf) as W1.
    destruct (rehash_ok tsv_hash (with_lastfree t lf) v fuel W1) as [[? ->]|(t1 & nasize & na & -> & _ & R)];
      [right; by split|left]. cbn [bind]. destruct R as [Wr _ Hroom Hc].
    destruct (set_room tsv_hash t1 v fuel Wr Hv) as (t2 & s & -> & [W2 Hg Hc2] & _).
    { intros. apply (room_free t1 v 0); [by rewrite Nat.add_0_r|done]. }
    exists t2, s. split; [done|]. split; [done..|]. intros w. by rewrite Hc2, Hc, with_lastfree_content.
Qed.

Lemma set_total t v fuel :
  wf_table t -> valid v ->
  (exists t' s, luaH_set_ tsv_hash (newkey tsv_hash (S (S fuel))) t v = Ok (t', s) /\ set_ok tsv_hash t v t' s) \/
  ((2 ^ 26 <= count t)%Z /\ luaH_set_ tsv_hash (newkey tsv_hash (S (S fuel))) t v = Err "table overflow").
Proof.
  intros W Hv. unfold luaH_set_. pose proof (with_flags_wf tsv_hash t 0 W) as W0.
  assert (forall s, get t v = Ok (Some s) -> set_ok tsv_hash t v (with_flags t 0) s) as Hsame.
  { intros s Hs. by split. }
  destruct (get_cases tsv_hash t v W (proj1 Hv))
    as [[? Hg]|[(_ & i' & w & Hg & Hk & E)|(Hin & Hg & Hno)]]; rewrite Hg; cbn [bind];
    [left; eexists _, _; by split; [|apply Hsame]..|].
  destruct (newkey_total (with_flags t 0) v fuel W0 Hv Hno Hin) as [(t' & s & Heq & [? ? Hc])|[? Heq]].
  - left. exists t', s. split.
    + destruct Hv as [? Hvv]. destruct v; try done. cbn in Hvv. unfold luai_numisnan. by rewrite Hvv.
    + split; [done..|]. intros w. by rewrite Hc, with_flags_content.
  - right. split; [done|].
    destruct Hv as [? Hvv]. destruct v; try done. cbn in Hvv. unfold luai_numisnan. by rewrite Hvv.
Qed.

Lemma set_assign t v t' s x :
  valid v -> set_ok tsv_hash t v t' s ->
  wf_table (slot_set t' s x) /\ forall w, content (slot_set t' s x) w = upd_content tsv_hash t v x w.
Proof.
  intros [Hv _] [W' Hg Hc]. destruct (slot_set_ok tsv_hash t' v s x W' Hv Hg) as (? & Hc2 & _).
  split; [done|]. intros w. rewrite Hc2. unfold upd_content. by rewrite Hc.
Qed.

(** C2: luaH_set on a well-formed table and a key that is neither nil nor NaN
    returns, rehashing if it has to, and the slot it returns is the place of
    that key: nothing in the table has changed, luaH_get now finds the slot,
    and assigning a value through it changes the table at that key and at no
    other one, preserving the invariant.  It fails only with "table overflow",
    for a table of at least 2^26 entries. *)
Theorem luaH_set_correct t v :
  wf_table t -> v <> Nil -> rawequal v v = true ->
  (exists t' s, luaH_set tsv_hash t v = Ok (t', s) /\ wf_table t' /\ get t' v = Ok (Some s) /\
    (forall w, content t' w = content t w) /\
    forall x, wf_table (slot_set t' s x) /\
      forall w, content (slot_set t' s x) w = if rawequal v w then x else content t w) \/
  ((2 ^ 26 <= count t)%Z /\ luaH_set tsv_hash t v = Err "table overflow").
Proof.
  intros W Hv Hvv. destruct (set_total t v 0 W (conj Hv Hvv)) as [(t' & s & Heq & Hs)|?]; [left|by right].
  exists t', s. split_and!; [done|apply Hs..|]. intros x. by apply set_assign.
Qed.

(** The keys luaH_set refuses: nil and, if absent as it must be, NaN. *)
Theorem luaH_set_refuses t v :
  wf_table t -> rawequal v v = false \/ v = Nil ->
  luaH_set tsv_hash t v = Err (if ttisnil v then "table index is nil" else "table index is NaN").
Proof.
  intros W Hv. unfold luaH_set, luaH_set_. destruct (decide (v = Nil)) as [->|Hn]; [done|].
  destruct Hv as [Hv|]; [|done]. destruct (get_cases tsv_hash t v W Hn)
    as [[Hin _]|[(_ & i' & w & _ & Hk & E)|(_ & -> & _)]].
  - exfalso. unfold in_array in Hin.
    assert (rawequal v (Number (cast_num (arrayindex v))) = true) as E
      by (apply arrayindex_rawequal; [done|lia]).
    assert (E' := E). rewrite rawequal_sym in E'. by rewrite (rawequal_trans _ _ _ E E') in Hv.
  - exfalso. assert (E' := E). rewrite rawequal_sym in E'. by rewrite (rawequal_trans _ _ _ E' E) in Hv.
  - cbn [bind]. destruct v as [|[]| | | |]; cbn in Hv; rewrite ?Z.eqb_refl in Hv; try done.
    unfold luai_numisnan. by rewrite Hv.
Qed.

(** * A table built by insertions represents a map *)

(** [t[k] = x] for each pair, as lua_settable with raw access does. *)
Fixpoint exec t (ops : list (TValue N * TValue N)) : res (Table N) :=
  match ops with
  | [] => Ok t
  | (k, x) :: ops =>
      '(t, s) <- luaH_set tsv_hash t k; exec (slot_set t s x) ops
  end.

(** The abstract map: the last assignment to a key wins. *)
Fixpoint assigned (m : TValue N -> TValue N) (ops : list (TValue N * TValue N)) : TValue N -> TValue N :=
  match ops with
  | [] => m
  | (k, x) :: ops => assigned (fun w => if rawequal k w then x else m w) ops
  end.

Lemma assigned_ext m m' ops w : (forall w, m w = m' w) -> assigned m ops w = assigned m' ops w.
Proof.
  revert m m'. induction ops as [|[k x] ops IH]; intros m m' Hm; [done|]. cbn. apply IH.
  intros u. by rewrite Hm.
Qed.

Lemma luaH_new_ok narray nhash t :
  (0 <= narray <= MAXASIZE)%Z -> (0 <= nhash <= 2 ^ 26)%Z -> luaH_new narray nhash = Ok t ->
  wf_table t /\ forall w, content t w = Nil.
Proof.
  intros Ha Hh Hnew. unfold luaH_new in Hnew.
  destruct (setnodevector_ok tsv_hash (setarrayvector (mkTable (u8 (Z.lnot 0)) [] 0 0
    [empty_node (N := N)] true 0) narray) nhash) as [[? ?]|[_ (t1 & Heq & B & Ha1 & Hs1)]]; [lia|lia|].
  rewrite Hnew in Heq. injection Heq as <-. cbn in Ha1, Hs1.
  assert (wf_table t) as W.
  { apply (blank_wf _ _ _ B); rewrite Hs1, ?Ha1; [done|]. rewrite length_resize. lia. }
  split; [done|]. intros w. destruct (decide (in_array t w)) as [Hw|Hw]; [|by eapply blank_content].
  rewrite (content_array tsv_hash), Ha1 by done. unfold in_array in Hw. rewrite Hs1 in Hw.
  rewrite lookup_resize_new; [done|rewrite length_take; cbn [length]; lia|lia].
Qed.

Lemma exec_ok t ops :
  wf_table t -> Forall (fun '(k, _) => valid k) ops ->
  (exists t', exec t ops = Ok t' /\ wf_table t' /\ forall w, content t' w = assigned (content t) ops w) \/
  exec t ops = Err "table overflow".
Proof.
  intros W Hv. revert t W. induction Hv as [|[k x] ops Hk Hv IH]; intros t W; cbn [exec].
  { left. exists t. done. }
  destruct (set_total t k 0 W Hk) as [(t' & s & Heq & Hs)|[_ Heq]].
  - unfold luaH_set, newkey_fuel. rewrite Heq. cbn [bind].
    destruct (set_assign t k t' s x Hk Hs) as [W' Hc'].
    destruct (IH _ W') as [(t2 & ? & ? & Hc2)|?]; [left|by right].
    exists t2. split_and!; [done..|]. intros w. rewrite Hc2. cbn. apply assigned_ext.
    intros u. by rewrite Hc'.
  - right. unfold luaH_set, newkey_fuel. by rewrite Heq.
Qed.

(** C1: a table made by luaH_new with any size hints and any sequence of
    assignments to valid keys, through any number of rehashes and collisions,
    represents exactly the finite map those assignments denote: luaH_get on
    any key gives the last value assigned to a raw-equal key, and nil for the
    others.  The only error is the overflow of the table. *)
Theorem table_refines_map narray nhash ops t0 :
  (0 <= narray <= MAXASIZE)%Z -> (0 <= nhash <= 2 ^ 26)%Z ->
  Forall (fun '(k, _) => k <> Nil /\ rawequal k k = true) ops ->
  luaH_new narray nhash = Ok t0 ->
  (exists t, exec t0 ops = Ok t /\ wf_table t /\
     forall w, content t w = assigned (fun _ => Nil) ops w) \/
  exec t0 ops = Err "table overflow".
Proof.
  intros Ha Hh Hops Hnew. destruct (luaH_new_ok _ _ _ Ha Hh Hnew) as [W Hc].
  destruct (exec_ok t0 ops W Hops) as [(t & ? & ? & Hct)|?]; [left|by right].
  exists t. split_and!; [done..|]. intros w. rewrite Hct. by apply assigned_ext.
Qed.

(** * Resizing *)

(** growing the array part (luaH_resizearray, as OP_SETLIST calls it)
    succeeds for every size up to MAXASIZE without a nested rehash: the array
    part gets the size asked for, keys of the hash part that now belong to it
    move there, and the map the table represents is unchanged. *)
Theorem luaH_resizearray_grows t nasize :
  wf_table t -> (sizearray t <= nasize <= MAXASIZE)%Z ->
  exists t', luaH_resizearray tsv_hash t nasize = Ok t' /\ wf_table t' /\ sizearray t' = nasize /\
    forall w, content t' w = content t w.
Proof.
  intros W Hn. unfold luaH_resizearray, resize, newkey_fuel. pose proof (wt_size _ _ W) as Hs.
  pose proof (wf_len _ _ _ (wt_hash _ _ W)) as Hl. fold (sizenode t) in Hl.
  pose proof (wf_lsize _ _ _ (wt_hash _ _ W)) as Hls. unfold MAXBITS in Hls.
  assert (sizenode t <= 2 ^ 26)%Z as Hle.
  { unfold sizenode, twoto. rewrite Z.shiftl_1_l. apply Z.pow_le_mono_r; lia. }
  set (nhsize := if isdummy t then 0%Z else sizenode t).
  assert (0 <= nhsize <= 2 ^ 26)%Z by (unfold nhsize; destruct (isdummy t); lia).
  destruct (resize_shape tsv_hash t nasize nhsize 1 0 W) as [[? _]|(t' & -> & R)]; [lia|lia| |lia|].
  - unfold tkeys. rewrite countZ_app, (countZ_none _ (akeys _ _ _)).
    2: { intros k Hk%akeys_range. unfold outside, in_1.
         destruct (Z.ltb_spec 0 k), (Z.leb_spec k nasize); cbn; lia || done. }
    assert (countZ (outside nasize) (hkeys (node t) (length (node t))) <= nhsize)%Z; [|lia].
    unfold nhsize. destruct (isdummy t) eqn:Hd.
    + destruct (wt_dummy _ _ W Hd) as (-> & _). done.
    + pose proof (hkeys_length (node t) (length (node t))).
      pose proof (countZ_split (outside nasize) (hkeys (node t) (length (node t)))).
      pose proof (countZ_nonneg (fun x => negb (outside nasize x)) (hkeys (node t) (length (node t)))). lia.
  - exists t'. split_and!; [done|apply R..].
Qed.

(** * Collection of dead keys *)

Section Sweep.
Context (t : Table N).
Hypothesis W : wf_table t.
Let nd := node t.
Let nd' := node (traversetable t).

Lemma sw_lookup i : nd' !! i = (fun n => if ttisnil (i_val n) then removeentry n else n) <$> nd !! i.
Proof. apply list_lookup_fmap. Qed.
Lemma sw_len : length nd' = length nd.
Proof. apply length_map. Qed.
Lemma sw_nxt i : nxt nd' i = nxt nd i.
Proof.
  unfold nxt. rewrite sw_lookup. destruct (nd !! i) as [n|]; [|done]. cbn.
  destruct (ttisnil (i_val n)); [|done]. unfold removeentry. by destruct (i_key n) as [[]|].
Qed.
Lemma sw_val i : valat nd' i = valat nd i.
Proof.
  unfold valat. rewrite sw_lookup. destruct (nd !! i) as [n|]; [|done]. cbn.
  destruct (ttisnil (i_val n)); [|done]. unfold removeentry. by destruct (i_key n) as [[]|].
Qed.
Lemma sw_key i k : keyat nd' i = Some k ->
  keyat nd i = Some k \/ (exists p, k = DeadKey p) /\ valat nd i = Nil.
Proof.
  unfold keyat, valat. rewrite sw_lookup. destruct (nd !! i) as [n|]; [|done]. cbn.
  destruct (ttisnil (i_val n)) eqn:E; [|by left]. apply ttisnil_true in E. unfold removeentry.
  destruct (i_key n) as [[]|] eqn:Ek; cbn; rewrite ?Ek; (by left) || (intros [= <-]; right; eauto).
Qed.
Lemma sw_has i v : has_key nd' i v -> has_key nd i v.
Proof. intros [[?|[[p [=]] _]]%sw_key ?]. done. Qed.
Lemma sw_live i v : has_key nd i v -> valat nd i <> Nil -> has_key nd' i v.
Proof.
  intros [Hk ?] Hv. split; [|done]. revert Hk Hv. unfold keyat, valat. rewrite sw_lookup.
  destruct (nd !! i) as [n|]; [|done]. cbn. intros Hk Hv.
  destruct (ttisnil (i_val n)) eqn:E; [by apply ttisnil_true in E|done].
Qed.
Lemma sw_free i : free nd' i -> free nd i.
Proof. intros [?|[[p [=]] _]]%sw_key. done. Qed.

Lemma sw_wf_hash : wf_hash tsv_hash (lsizenode t) nd'.
Proof.
  pose proof (wt_hash _ _ W) as Wh. fold nd in Wh.
  split; intros *; rewrite ?sw_len, ?sw_nxt, ?sw_val; try apply Wh.
  - intros Hi. destruct (wf_chain _ _ _ Wh i Hi) as [l ?]. exists l.
    eapply chain_ext; [|done]. intros. by rewrite sw_nxt.
  - intros Hf%sw_free. destruct (wf_free _ _ _ Wh i Hf) as (? & ? & ?).
    split_and!; [done..|]. intros. by rewrite sw_nxt.
  - intros [Hk|[_ Hv]]%sw_key; [by apply Wh in Hk|done].
  - intros Hk%sw_has. by apply (wf_valid _ _ _ Wh i v).
  - intros Hk%sw_has. eapply reach_ext; [|by apply (wf_reach _ _ _ Wh i v)]. intros. by rewrite sw_nxt.
  - intros Hk%sw_has. destruct (wf_home _ _ _ Wh i v Hk) as [Hf Hm].
    split; [by intros ?%sw_free|]. intros w Hw%sw_has. by apply Hm.
  - intros H1%sw_has H2%sw_has. by apply (wf_distinct _ _ _ Wh).
Qed.
End Sweep.

(** when the collector walks a table and turns the keys of its empty
    entries into dead keys, the table stays well-formed and represents the
    same map: the chains through the dead keys are still found. *)
Theorem traversetable_keeps_map t :
  wf_table t -> wf_table (traversetable t) /\ forall w, content (traversetable t) w = content t w.
Proof.
  intros W. assert (wf_table (traversetable t)) as W'.
  { split; [exact (sw_wf_hash t W)|exact (wt_size _ _ W)|exact (wt_array _ _ W)|..].
    - intros Hd. destruct (wt_dummy _ _ W Hd) as (Hn & ? & ?). cbn. by rewrite Hn.
    - intros Hd i Hf%sw_free. by apply (wt_lastfree _ _ W).
    - cbn. rewrite length_map. exact (wt_lastfree_le _ _ W).
    - intros i v Hk%sw_has. by apply (wt_noarray _ _ W i). }
  split; [done|]. intros w. apply content_ext; try done. intros _ x Hx. unfold holds.
  split; intros (i & v & Hk & ? & Hv & ?); exists i, v.
  - rewrite sw_val in Hv. apply sw_has in Hk. done.
  - rewrite sw_val. split_and!; [|done..]. apply sw_live; [done|congruence].
Qed.

End Spec.

(** * A table of doubles

    Strings are their own hash; the assignments below collide, rehash twice,
    move integer keys to the array part and remove a key. *)
Definition num (k : Z) : TValue SpecFloat.spec_float := Number (Binary64.of_int k).
Definition sample_ops : list (TValue SpecFloat.spec_float * TValue SpecFloat.spec_float) :=
  [(num 1, Str 10); (num 2, Bool true); (Str 7, num 5); (num 3, Str 11); (Bool false, Str 12);
   (GC 5 77, num 1); (num 4, Str 13); (num 2, Nil); (Str 15, num 9); (num 100, Bool true)].
Definition sample_hash (ts : Z) : Z := ts.
Definition new_table : Table SpecFloat.spec_float :=
  match luaH_new 0 0 with Ok t => t | _ => mkTable 0 [] 0 0 [] true 0 end.
Definition sample : Table SpecFloat.spec_float :=
  match exec sample_hash new_table sample_ops with Ok t => t | _ => new_table end.

Example sample_shape : sizearray sample = 4%Z /\ length (node sample) = 8.
Proof. vm_compute. done. Qed.

Lemma sample_ops_valid : Forall (fun '(k, _) => k <> Nil /\ luaO_rawequalObj k k = true) sample_ops.
Proof. repeat constructor; done. Qed.

Lemma sample_wf : wf_table sample_hash sample.
Proof.
  destruct (exec_ok sample_hash new_table sample_ops) as [(t & Heq & W & _)|Heq].
  - by apply (luaH_new_ok sample_hash 0 0).
  - apply sample_ops_valid.
  - unfold sample. by rewrite Heq.
  - vm_compute in Heq. discriminate.
Qed.

Lemma table_refines_map_witness :
  exists t, exec sample_hash new_table sample_ops = Ok t /\ content sample_hash t (num 3) = Str 11.
Proof.
  destruct (table_refines_map sample_hash 0 0 sample_ops new_table) as [(t & Heq & _ & Hc)|Heq].
  - done.
  - done.
  - apply sample_ops_valid.
  - reflexivity.
  - exists t. split; [exact Heq|]. rewrite Hc. reflexivity.
  - vm_compute in Heq. discriminate.
Defined.

Lemma luaH_set_correct_witness :
  exists t' s, luaH_set sample_hash sample (Str 1) = Ok (t', s) /\
    content sample_hash (slot_set t' s (num 8)) (Str 1) = num 8.
Proof.
  destruct (luaH_set_correct sample_hash sample (Str 1)) as [(t' & s & Heq & _ & _ & _ & Hx)|[_ Heq]].
  - apply sample_wf.
  - done.
  - reflexivity.
  - exists t', s. split; [exact Heq|]. rewrite (proj2 (Hx (num 8))). reflexivity.
  - vm_compute in Heq. discriminate.
Defined.

Lemma luaH_set_refuses_witness :
  luaH_set sample_hash sample (Number SpecFloat.S754_nan) = Err "table index is NaN".
Proof. apply (luaH_set_refuses sample_hash sample); [apply sample_wf|by left]. Defined.

Lemma luaH_resizearray_grows_witness :
  exists t', luaH_resizearray sample_hash sample 100 = Ok t' /\ sizearray t' = 100%Z.
Proof.
  destruct (luaH_resizearray_grows sample_hash sample 100) as (t' & ? & _ & ? & _).
  - apply sample_wf.
  - vm_compute. split; discriminate.
  - exists t'. split; assumption.
Defined.

Lemma traversetable_keeps_map_witness :
  content sample_hash (traversetable sample) (Str 15) = num 9.
Proof.
  rewrite (proj2 (traversetable_keeps_map sample_hash sample sample_wf)). reflexivity.
Defined.
