(* ===== verification/LuaTableIter.v ===== *)
(** Lua tables: traversal visits every entry once; the length operator returns
    a border and terminates on every table. *)
From stdpp Require Import base list sets.
From Stdlib Require Import ZArith Lia.
From S2P Require Import Prelude LuaNumber LuaObject LuaTable LuaTableWf LuaTableSet LuaTableRehash LuaTableResize LuaTableSpec.
Open Scope nat_scope.

Section Iter.
Context {N : Type} `{LuaNumber N}.
Variable tsv_hash : Z -> Z.
Implicit Types (t : Table N) (v w : TValue N).

Abbreviation rawequal := luaO_rawequalObj.
Abbreviation get := (luaH_get tsv_hash).
Abbreviation wf_table := (wf_table tsv_hash).
Abbreviation content := (content tsv_hash).
Abbreviation main := (mainposition tsv_hash).

(** * Positions of a traversal: the array, then the nodes *)

Definition asize t : nat := Z.to_nat (sizearray t).
Definition total t : nat := asize t + length (node t).

Definition pos_val t (p : nat) : TValue N :=
  if decide (p < asize t) then slot_get t (SArray p) else slot_get t (SNode (p - asize t)).
Definition pos_key t (p : nat) : TValue N :=
  if decide (p < asize t) then Number (cast_num (Z.of_nat p + 1))
  else match i_key <$> node t !! (p - asize t) with Some (Key v) => v | _ => Nil end.

Lemma first_nonnil_ext (f g : nat -> TValue N) n i :
  (forall j, i <= j < i + n -> f j = g j) -> first_nonnil f n i = first_nonnil g n i.
Proof.
  revert i. induction n as [|n IH]; intros i Hfg; [done|]. cbn. rewrite Hfg by lia.
  rewrite IH; [done|]. intros. apply Hfg. lia.
Qed.

Lemma first_nonnil_app (f : nat -> TValue N) n m i :
  first_nonnil f (n + m) i =
  match first_nonnil f n i with Some j => Some j | None => first_nonnil f m (i + n) end.
Proof.
  revert i. induction n as [|n IH]; intros i; cbn; [by rewrite Nat.add_0_r|].
  destruct (ttisnil (f i)); [|done]. rewrite IH. by replace (S i + n) with (i + S n) by lia.
Qed.

Lemma first_nonnil_shift (f : nat -> TValue N) n i d :
  first_nonnil f n (i + d) = option_map (fun j => j + d) (first_nonnil (fun j => f (j + d)) n i).
Proof.
  revert i. induction n as [|n IH]; intros i; [done|]. cbn.
  destruct (ttisnil (f (i + d))); [|done]. apply (IH (S i)).
Qed.

Lemma first_nonnil_range (f : nat -> TValue N) n i j : first_nonnil f n i = Some j -> i <= j < i + n.
Proof.
  revert i. induction n as [|n IH]; intros i; [done|]. cbn.
  destruct (ttisnil (f i)); [|by intros [= <-]; lia]. intros Hj%IH. lia.
Qed.

(** The live positions among the [n] that follow [i]. *)
Definition live (f : nat -> TValue N) (i n : nat) : list nat := filter (fun p => f p <> Nil) (seq i n).

Lemma live_first (f : nat -> TValue N) i n :
  live f i n = match first_nonnil f n i with
               | Some p => p :: live f (S p) (i + n - S p)
               | None => []
               end.
Proof.
  revert i. induction n as [|n IH]; intros i; [done|]. unfold live in *. cbn [seq first_nonnil].
  destruct (ttisnil (f i)) eqn:E.
  - apply ttisnil_true in E. rewrite filter_cons_False by naive_solver. rewrite IH.
    destruct (first_nonnil f n (S i)); [|done]. do 3 f_equal. lia.
  - apply ttisnil_false in E. rewrite filter_cons_True by done. do 3 f_equal. lia.
Qed.

(** The result of luaH_next, once its key has been located just before [q]. *)
Lemma luaH_next_pos t key (q : nat) :
  wf_table t -> findindex tsv_hash t key = Ok (Z.of_nat q - 1)%Z -> q <= total t ->
  luaH_next tsv_hash t key =
    Ok (option_map (fun p => (pos_key t p, pos_val t p)) (first_nonnil (pos_val t) (total t - q) q)).
Proof.
  intros W Hf Hq. unfold luaH_next. rewrite Hf. cbn [bind].
  replace (Z.of_nat q - 1 + 1)%Z with (Z.of_nat q) by lia.
  pose proof (wt_size _ _ W) as Hs. unfold total in *.
  assert (Z.to_nat (sizearray t - Z.of_nat q) = asize t - q) as -> by (unfold asize; lia).
  rewrite Nat2Z.id. pose proof (wf_len _ _ _ (wt_hash _ _ W)) as Hl. fold (sizenode t) in Hl.
  assert (asize t + length (node t) - q = (asize t - q) +
    Z.to_nat (sizenode t - (Z.max (Z.of_nat q) (sizearray t) - sizearray t))) as ->
    by (unfold asize in *; lia).
  rewrite first_nonnil_app.
  rewrite <- (first_nonnil_ext (fun i => slot_get t (SArray i)) (pos_val t) (asize t - q) q).
  2: { intros j Hj. unfold pos_val. rewrite decide_True by lia. done. }
  destruct (first_nonnil (fun i => slot_get t (SArray i)) (asize t - q) q) as [j|] eqn:E.
  { apply first_nonnil_range in E. cbn. unfold pos_key, pos_val. by rewrite !decide_True by lia. }
  set (n := Z.to_nat (sizenode t - _)).
  assert (q + (asize t - q) = Z.to_nat (Z.max (Z.of_nat q) (sizearray t) - sizearray t) + asize t) as ->
    by (unfold asize in *; lia).
  rewrite first_nonnil_shift.
  rewrite (first_nonnil_ext (fun j => pos_val t (j + asize t)) (fun i => slot_get t (SNode i))).
  2: { intros j Hj. unfold pos_val. rewrite decide_False by lia. by rewrite Nat.add_sub. }
  destruct (first_nonnil (fun i => slot_get t (SNode i)) n _) as [j|]; [|done]. cbn.
  unfold pos_key, pos_val. by rewrite !decide_False, Nat.add_sub by lia.
Qed.

(** No remains of a collected key have the address of a live key. *)
Definition no_alias t : Prop :=
  forall i j p v, keyat (node t) i = Some (DeadKey p) -> has_key (node t) j v ->
    v <> Str p /\ forall ty, v <> GC ty p.

Lemma findindex_array t (p : nat) :
  wf_table t -> p < asize t -> findindex tsv_hash t (pos_key t p) = Ok (Z.of_nat p).
Proof.
  intros W Hp. unfold findindex, pos_key. rewrite decide_True by done. cbn [ttisnil].
  pose proof (wt_size _ _ W) as Hs. change MAXASIZE with (2 ^ 26)%Z in Hs. unfold asize in Hp.
  rewrite arrayindex_cast by (unfold in_s; change (32 - 1)%Z with 31%Z; lia).
  case_zbool ((0 <? Z.of_nat p + 1)%Z && (Z.of_nat p + 1 <=? sizearray t)%Z); [f_equal; lia|].
  apply andb_false_iff in E as [E|E]; zbool; lia.
Qed.

Lemma findindex_node t (i : nat) v :
  wf_table t -> no_alias t -> has_key (node t) i v ->
  findindex tsv_hash t v = Ok (Z.of_nat i + sizearray t)%Z.
Proof.
  intros W Hna Hk. unfold findindex. pose proof (wt_hash _ _ W) as Wh.
  pose proof (wt_noarray _ _ W _ _ Hk) as Hin. unfold in_array in Hin.
  assert (ttisnil v = false) as -> by (destruct Hk; by destruct v).
  case_zbool ((0 <? arrayindex v)%Z && (arrayindex v <=? sizearray t)%Z); [lia|].
  destruct (wf_reach _ _ _ Wh i v Hk) as (l & Hc & Hi).
  pose proof (chain_range _ _ _ _ (wf_next _ _ _ Wh) (wf_main _ _ _ v Wh) Hc) as Hr.
  destruct (chain_find_spec (key_or_dead v) (node t) _ l (length (node t)) Hc Hr)
    as [(x & k & -> & Hx & Hkx & HP)|[_ Hno]]; [by eapply chain_bound|..]; cbn [bind].
  - replace x with i; [done|]. symmetry. unfold key_or_dead in HP.
    destruct k as [w|p].
    + cbn in HP. rewrite orb_false_r in HP.
      eapply (wf_distinct _ _ _ Wh x i w v); [|done..]. split; [done|]. intros ->. destruct Hk. by destruct v.
    + exfalso. destruct (Hna x i p v Hkx Hk) as [H1 H2]. cbn in HP.
      destruct v; try done; apply Z.eqb_eq in HP; subst; naive_solver.
  - exfalso. destruct Hk as [Hk Hnn]. specialize (Hno i (Key v) Hi Hk).
    unfold key_or_dead in Hno. cbn in Hno.
    rewrite (wf_valid _ _ _ Wh i v) in Hno; done.
Qed.

Lemma findindex_pos t (p : nat) :
  wf_table t -> no_alias t -> p < total t -> pos_val t p <> Nil ->
  findindex tsv_hash t (pos_key t p) = Ok (Z.of_nat p).
Proof.
  intros W Hna Hp Hv. destruct (decide (p < asize t)) as [Hlt|Hlt]; [by apply findindex_array|].
  unfold pos_val, pos_key in *. rewrite decide_False in * by done. unfold total in Hp. cbn in Hv.
  destruct (lookup_lt_is_Some_2 (node t) (p - asize t)) as [n Hn]; [lia|]. rewrite Hn in Hv |- *. cbn in *.
  destruct (live_entry tsv_hash t _ n W Hn Hv) as (v & -> & _ & Hk & _).
  rewrite (findindex_node t _ v W Hna Hk). pose proof (wt_size _ _ W). f_equal. unfold asize in *. lia.
Qed.

(** [for k, x in next, t]: calls of luaH_next until it returns 0. *)
Fixpoint traverse (fuel : nat) t key : res (list (TValue N * TValue N)) :=
  match fuel with
  | O => Timeout
  | S fuel' =>
      r <- luaH_next tsv_hash t key;
      match r with
      | None => Ok []
      | Some (k, x) => l <- traverse fuel' t k; Ok ((k, x) :: l)
      end
  end.

Lemma traverse_pos t key (q fuel : nat) :
  wf_table t -> no_alias t -> findindex tsv_hash t key = Ok (Z.of_nat q - 1)%Z -> q <= total t ->
  total t - q < fuel ->
  traverse fuel t key = Ok (map (fun p => (pos_key t p, pos_val t p)) (live (pos_val t) q (total t - q))).
Proof.
  intros W Hna. revert key q. induction fuel as [|fuel IH]; intros key q Hf Hq Hfuel; [lia|]. cbn [traverse].
  rewrite (luaH_next_pos t key q) by done. cbn [bind]. rewrite live_first.
  destruct (first_nonnil (pos_val t) (total t - q) q) as [p|] eqn:E; [|done]. cbn [option_map map].
  assert (pos_val t p <> Nil) as Hp.
  { assert (p ∈ live (pos_val t) q (total t - q)) as Hin by (rewrite live_first, E; left).
    by apply list_elem_of_filter in Hin as [? _]. }
  apply first_nonnil_range in E.
  rewrite (IH _ (S p)); [cbn [bind]; do 4 f_equal; lia| |lia|lia].
  rewrite findindex_pos by (done || lia). f_equal. lia.
Qed.

Lemma arrayindex_pos t (p : nat) :
  wf_table t -> p < asize t -> arrayindex (pos_key t p) = (Z.of_nat p + 1)%Z.
Proof.
  intros W Hp. unfold pos_key. rewrite decide_True by done. apply arrayindex_cast.
  pose proof (wt_size _ _ W) as Hs. change MAXASIZE with (2 ^ 26)%Z in Hs. unfold asize in Hp.
  unfold in_s. change (32 - 1)%Z with 31%Z. lia.
Qed.

Lemma pos_content t (p : nat) :
  wf_table t -> p < total t -> pos_val t p <> Nil ->
  content t (pos_key t p) = pos_val t p /\ (in_array t (pos_key t p) <-> p < asize t) /\
  (asize t <= p -> has_key (node t) (p - asize t) (pos_key t p)).
Proof.
  intros W Hp Hv. pose proof (wt_size _ _ W). destruct (decide (p < asize t)) as [Hlt|Hge].
  - pose proof (arrayindex_pos t p W Hlt) as Ha. unfold asize in *.
    split_and!; [|unfold in_array; rewrite Ha; lia|lia].
    unfold pos_key, pos_val. rewrite !decide_True by (unfold asize; lia).
    apply (array_content tsv_hash); [done|lia].
  - unfold pos_val, pos_key in *. rewrite !decide_False in * by done. unfold total in Hp. cbn in *.
    destruct (lookup_lt_is_Some_2 (node t) (p - asize t)) as [n Hn]; [lia|]. rewrite Hn in Hv |- *. cbn in *.
    destruct (live_entry tsv_hash t _ n W Hn Hv) as (v & -> & _ & Hk & ? & ?). split; [done|]. split; [split; [done|lia]|done].
Qed.

(** C8: a traversal with luaH_next, from nil until it reports the end, makes
    at most one call more than the table has positions and yields each entry
    of the table exactly once: the pairs it visits are the map the table
    represents, and no two of them have equal keys. *)
Theorem luaH_next_enumerates t :
  wf_table t -> no_alias t ->
  exists l, traverse (S (total t)) t Nil = Ok l /\
    (forall v x, x <> Nil -> content t v = x <-> exists k, (k, x) ∈ l /\ rawequal k v = true) /\
    (forall i j k x k' x', l !! i = Some (k, x) -> l !! j = Some (k', x') -> rawequal k k' = true -> i = j).
Proof.
  intros W Hna. rewrite (traverse_pos t Nil 0) by (done || lia). rewrite Nat.sub_0_r.
  eexists. split; [done|]. set (L := live (pos_val t) 0 (total t)).
  assert (forall p, p ∈ L <-> p < total t /\ pos_val t p <> Nil) as HL.
  { intros p. unfold L, live. rewrite list_elem_of_filter, elem_of_seq. intuition lia. }
  assert (forall p q, p ∈ L -> q ∈ L -> rawequal (pos_key t p) (pos_key t q) = true -> p = q) as Hinj.
  { intros p q [Hp Hvp]%HL [Hq Hvq]%HL E. pose proof (rawequal_arrayindex _ _ E) as Ei.
    destruct (pos_content t p W Hp Hvp) as (_ & Hap & Hkp), (pos_content t q W Hq Hvq) as (_ & Haq & Hkq).
    assert (p < asize t <-> q < asize t) as Hpq by (rewrite <- Hap, <- Haq; unfold in_array; by rewrite Ei).
    destruct (decide (p < asize t)) as [Hlt|Hge].
    - rewrite !arrayindex_pos in Ei by (done || tauto). lia.
    - pose proof (wf_distinct _ _ _ (wt_hash _ _ W) _ _ _ _ (Hkp ltac:(lia)) (Hkq ltac:(lia)) E). lia. }
  split.
  - intros v x Hx. split.
    + intros Hc. assert (exists p, p ∈ L /\ rawequal (pos_key t p) v = true /\ pos_val t p = x) as (p & Hp & E & Hv).
      { destruct (decide (in_array t v)) as [Hin|Hin].
        - rewrite (content_array tsv_hash) in Hc by done.
          assert (Z.to_nat (arrayindex v - 1) < asize t) by (unfold in_array, asize in *; lia).
          exists (Z.to_nat (arrayindex v - 1)). rewrite HL. unfold pos_val. rewrite decide_True by done.
          cbn. rewrite Hc. split_and!; [unfold total; lia|done| |done].
          unfold pos_key. rewrite decide_True by done. rewrite rawequal_sym.
          unfold in_array in Hin. apply arrayindex_rawequal; lia.
        - assert (v <> Nil) as Hnn by (intros ->; cbn in Hc; congruence).
          apply (content_node tsv_hash) in Hc as (i & w & [Hk Hw] & E & Hval & _); try done.
          pose proof (keyat_lt _ _ _ Hk). exists (i + asize t). rewrite HL. unfold pos_val, pos_key.
          rewrite !decide_False, Nat.add_sub by lia. unfold keyat in Hk. rewrite Hk.
          change (slot_get t (SNode i)) with (valat (node t) i). rewrite Hval.
          split_and!; [unfold total; lia|done..]. }
      exists (pos_key t p). split; [|done]. apply list_elem_of_fmap. exists p. by rewrite Hv.
    + intros (k & [p [[= -> ->] Hp]]%list_elem_of_fmap & E).
      apply HL in Hp as [Hp Hv]. destruct (pos_content t p W Hp Hv) as (Hc & _).
      by rewrite <- (content_rawequal tsv_hash t _ _ W E).
  - intros i j k x k' x' Hi Hj E.
    rewrite list_lookup_fmap in Hi, Hj. apply fmap_Some in Hi as (p & Hp & [= -> ->]), Hj as (q & Hq & [= -> ->]).
    assert (p = q) as -> by (apply Hinj; [by eapply list_elem_of_lookup_2..|done]).
    eapply NoDup_lookup; [|done|done]. apply NoDup_filter, NoDup_seq.
Qed.

End Iter.

Lemma sample_no_alias : no_alias sample.
Proof.
  intros i j p v Hd _. exfalso. revert Hd. unfold keyat.
  assert (Forall (fun n => match i_key n with DeadKey _ => False | _ => True end) (node sample)) as Hall
    by (vm_compute; repeat constructor).
  destruct (node sample !! i) as [n|] eqn:E; [|done]. cbn. intros [= Hk].
  pose proof (Forall_lookup_1 _ _ _ _ Hall E) as Hn. cbn in Hn. by rewrite Hk in Hn.
Qed.

Lemma luaH_next_enumerates_witness :
  exists l, traverse sample_hash 13 sample Nil = Ok l /\ length l = 8.
Proof.
  destruct (luaH_next_enumerates sample_hash sample sample_wf sample_no_alias) as (l & Hl & _).
  exists l. split; [exact Hl|]. vm_compute in Hl. injection Hl as <-. reflexivity.
Defined.
