(* ===== verification/LuaTableLen.v ===== *)
(** Lua tables: the length operator returns a border of the table and always
    terminates, also on tables built to defeat its doubling search. *)
From stdpp Require Import base list sets.
From Stdlib Require Import ZArith Lia.
From S2P Require Import Prelude LuaNumber LuaObject LuaTable LuaTableWf LuaTableSet LuaTableRehash LuaTableResize LuaTableSpec.
Open Scope Z_scope.

(** * Binary search *)

Lemma half_bounds a b : a < b -> 2 * ((a + b) / 2) <= a + b < 2 * ((a + b) / 2) + 2.
Proof. intros. pose proof (Z.div_mod (a + b) 2 ltac:(lia)). pose proof (Z.mod_pos_bound (a + b) 2 ltac:(lia)). lia. Qed.

(** Width [w] needs [log2_up w] halvings. *)
Lemma log2_up_half w w' : 1 < w -> 2 * w' <= w + 1 -> Z.log2_up w' < Z.log2_up w.
Proof.
  intros Hw Hw'. pose proof (Z.log2_up_spec w Hw) as [_ Hle]. pose proof (Z.log2_up_pos w Hw).
  assert (Z.log2_up w' <= Z.pred (Z.log2_up w)); [|lia].
  rewrite <- (Z.log2_up_pow2 (Z.pred (Z.log2_up w))) by lia. apply Z.log2_up_le_mono.
  replace (Z.log2_up w) with (Z.succ (Z.pred (Z.log2_up w))) in Hle by lia.
  rewrite Z.pow_succ_r in Hle by lia. lia.
Qed.

Lemma binary_search_ok (isnil : Z -> res bool) (b : Z -> bool) (i j : Z) :
  0 <= i < j -> j < 2 ^ 32 -> (i = 0 \/ b i = false) -> b j = true ->
  (forall m, i < m < j -> isnil m = Ok (b m)) ->
  exists r, loop 33 (binary_step isnil) (i, j) = Ok r /\ i <= r < j /\ (r = 0 \/ b r = false) /\ b (r + 1) = true.
Proof.
  intros Hij Hj Hbi Hbj Hb.
  apply (loop_total (fun s => i <= s.1 /\ s.1 < s.2 /\ s.2 <= j /\ (s.1 = 0 \/ b s.1 = false) /\ b s.2 = true)
    (fun s => Z.to_nat (Z.log2_up (s.2 - s.1)))
    (fun r => i <= r < j /\ (r = 0 \/ b r = false) /\ b (r + 1) = true)).
  - intros [i' j'] (Hi' & Hlt & Hj' & Hbi' & Hbj'). cbn [fst snd binary_step] in *.
    case_zbool (1 <? j' - i').
    + pose proof (half_bounds i' j' Hlt). set (m := (i' + j') / 2) in *.
      rewrite Hb by lia. cbn [bind]. pose proof (Z.log2_up_nonneg (j' - i')).
      destruct (b m) eqn:Em; cbn [fst snd];
        (split; [repeat split; try lia; auto|]).
      * pose proof (log2_up_half (j' - i') (m - i')). pose proof (Z.log2_up_nonneg (m - i')). lia.
      * pose proof (log2_up_half (j' - i') (j' - m)). pose proof (Z.log2_up_nonneg (j' - m)). lia.
    + replace j' with (i' + 1) in * by lia. repeat split; try lia; auto.
  - cbn. repeat split; try lia; auto.
  - cbn. assert (Z.log2_up (j - i) <= 32); [|lia].
    rewrite <- (Z.log2_up_pow2 32) by lia. apply Z.log2_up_le_mono. lia.
Qed.

Section Len.
Context {N : Type} `{LuaNumber N}.
Variable tsv_hash : Z -> Z.
Implicit Types (t : Table N) (v w : TValue N).

Abbreviation rawequal := luaO_rawequalObj.
Abbreviation get := (luaH_get tsv_hash).
Abbreviation wf_table := (wf_table tsv_hash).
Abbreviation content := (content tsv_hash).

(** The value at an integer key, and whether it is nil. *)
Definition val t (k : Z) : TValue N := content t (Number (cast_num k)).
Definition isnil t (k : Z) : bool := ttisnil (val t k).

Lemma nil_at_ok t k : wf_table t -> in_s 32 k -> nil_at t k = Ok (isnil t k).
Proof.
  intros W Hk. unfold nil_at, isnil, val, LuaTableSet.content. rewrite (getnum_eq tsv_hash) by done.
  destruct (get_cases tsv_hash t (Number (cast_num k)) W ltac:(done))
    as [[_ ->]|[(_ & i & w & -> & _)|(_ & -> & _)]]; done.
Qed.

Lemma in_s_small k : 0 <= k < 2 ^ 31 -> in_s 32 k.
Proof. unfold in_s. change (32 - 1) with 31. lia. Qed.

Lemma array_val t k :
  wf_table t -> 0 < k <= sizearray t -> val t k = slot_get t (SArray (Z.to_nat (k - 1))).
Proof.
  intros W Hk. unfold val. replace k with (Z.of_nat (Z.to_nat (k - 1)) + 1) at 1 by lia.
  rewrite (array_content tsv_hash) by (done || lia). done.
Qed.

(** * Counting non-nil integer keys *)

Lemma akeys_elem (a : list (TValue N)) i n j :
  (i <= j < i + n)%nat -> ttisnil (default Nil (a !! j)) = false -> Z.of_nat j + 1 ∈ akeys a i n.
Proof.
  revert i. induction n as [|n IH]; intros i Hj Hv; [lia|]. cbn [akeys]. apply elem_of_app.
  destruct (decide (j = i)) as [->|]; [left; rewrite Hv; left|right]. apply IH; [lia|done].
Qed.

Lemma hkeys_elem (nd : list (Node N)) i j n v :
  (j < i)%nat -> nd !! j = Some n -> i_val n <> Nil -> i_key n = Key v -> arrayindex v ∈ hkeys nd i.
Proof.
  intros Hj Hn Hv Hk. induction i as [|i IH]; [lia|]. cbn [hkeys]. apply elem_of_app.
  destruct (decide (j = i)) as [E|]; [left|right; apply IH; lia]. subst i. rewrite Hn.
  destruct (ttisnil (i_val n)) eqn:E; [by apply ttisnil_true in E|]. rewrite Hk. left.
Qed.

Lemma content_tkeys t v : wf_table t -> content t v <> Nil -> arrayindex v ∈ tkeys t.
Proof.
  intros W Hc. unfold tkeys. apply elem_of_app. destruct (decide (in_array t v)) as [Hin|Hin].
  - left. rewrite (content_array tsv_hash) in Hc by done. unfold in_array in Hin.
    replace (arrayindex v) with (Z.of_nat (Z.to_nat (arrayindex v - 1)) + 1) by lia.
    apply akeys_elem; [lia|]. destruct (ttisnil _) eqn:E; [by apply ttisnil_true in E|done].
  - right. assert (v <> Nil) as Hnn by (intros ->; done).
    destruct (proj1 (content_node tsv_hash t v _ W Hnn Hin Hc) eq_refl) as (i & w & [Hk Hw] & E & Hval & _).
    rewrite <- (rawequal_arrayindex _ _ E). unfold keyat in Hk. apply fmap_Some in Hk as (n & Hn & Hkn).
    unfold valat in Hval. rewrite Hn in Hval. cbn in Hval.
    eapply hkeys_elem; [by eapply lookup_lt_Some|done|congruence|done].
Qed.

(** A run of non-nil values from 1 is no longer than the table has entries. *)
Lemma run_bound t n :
  wf_table t -> 0 <= n < 2 ^ 31 -> (forall k, 1 <= k <= n -> isnil t k = false) -> n <= count t.
Proof.
  intros W Hn Hk. unfold count.
  assert (length (seqZ 1 n) <= length (tkeys t))%nat as Hle.
  { apply submseteq_length, NoDup_submseteq; [apply NoDup_seqZ|].
    intros k Hin%elem_of_seqZ. specialize (Hk k ltac:(lia)). unfold isnil in Hk.
    rewrite <- (arrayindex_cast k) by (apply in_s_small; lia). apply content_tkeys; [done|].
    intros E. unfold val in Hk. by rewrite E in Hk. }
  rewrite length_seqZ in Hle. lia.
Qed.

(** * The searches of luaH_getn *)

Definition border t (j : Z) : Prop := 0 <= j /\ (j = 0 \/ val t j <> Nil) /\ val t (j + 1) = Nil.

Lemma border_isnil t r : 0 <= r -> (r = 0 \/ isnil t r = false) -> isnil t (r + 1) = true -> border t r.
Proof.
  intros Hr H0 H1. split; [done|]. split; [|by apply ttisnil_true].
  destruct H0 as [?|H0]; [by left|right]. by apply ttisnil_false.
Qed.

(** The doubling loop. *)
Lemma unbound_loop_ok t j0 :
  wf_table t -> 0 <= j0 <= 2 ^ 26 -> (j0 = 0 \/ isnil t j0 = false) ->
  exists o, loop 33 (unbound_step t) (j0, j0 + 1) = Ok o /\
    match o with
    | None => True
    | Some (i, j) => 0 <= i < j /\ j <= MAX_INT /\ (i = 0 \/ isnil t i = false) /\ isnil t j = true
    end.
Proof.
  intros W Hj0 Hb0.
  apply (loop_total (fun s => 0 <= s.1 < s.2 /\ s.2 <= MAX_INT /\ (s.1 = 0 \/ isnil t s.1 = false))
    (fun s => Z.to_nat (32 - Z.log2 s.2))
    (fun o => match o with
              | None => True
              | Some (i, j) => 0 <= i < j /\ j <= MAX_INT /\ (i = 0 \/ isnil t i = false) /\ isnil t j = true
              end)); unfold MAX_INT.
  - intros [i j] (Hij & Hj & Hb). cbn [fst snd] in *. unfold unbound_step.
    rewrite nil_at_ok by (done || apply in_s_small; lia). cbn [bind].
    destruct (isnil t j) eqn:Ej; [done|].
    rewrite wrap_small by lia. case_zbool (MAX_INT <? j * 2); [done|]. unfold MAX_INT in *. cbn [fst snd].
    split; [repeat split; try lia; auto|].
    rewrite Z.mul_comm, Z.log2_double by lia.
    assert (Z.log2 j <= 30); [|lia]. change 30 with (Z.log2 (2 ^ 31 - 1)). apply Z.log2_le_mono. lia.
  - cbn. repeat split; try lia; auto.
  - cbn. pose proof (Z.log2_nonneg (j0 + 1)). lia.
Qed.

(** The linear search of the overflow case. *)
Lemma linear_loop_ok t :
  wf_table t ->
  exists r, loop (Z.to_nat (2 ^ 32)) (linear_step t) 1 = Ok r /\ 1 <= r /\
    (forall k, 1 <= k < r -> isnil t k = false) /\ isnil t r = true.
Proof.
  intros W. pose proof (count_bound tsv_hash t W) as Hc.
  apply (loop_total (fun i => 1 <= i <= 2 ^ 27 + 1 /\ forall k, 1 <= k < i -> isnil t k = false)
    (fun i => Z.to_nat (2 ^ 28 - i))
    (fun r => 1 <= r /\ (forall k, 1 <= k < r -> isnil t k = false) /\ isnil t r = true)).
  - intros i [Hi Hrun]. unfold linear_step. rewrite nil_at_ok by (done || apply in_s_small; lia). cbn [bind].
    destruct (isnil t i) eqn:E; [split; [lia|done]|]. rewrite wrap_small by lia.
    assert (forall k, 1 <= k < i + 1 -> isnil t k = false) as Hrun'.
    { intros k Hk. destruct (Z.eq_dec k i) as [->|]; [done|apply Hrun; lia]. }
    pose proof (run_bound t i W ltac:(lia) ltac:(intros; apply Hrun'; lia)).
    split; [split; [lia|done]|lia].
  - split; [lia|]. intros; lia.
  - lia.
Qed.

Lemma unbound_search_ok t j :
  wf_table t -> 0 <= j <= 2 ^ 26 -> (j = 0 \/ isnil t j = false) ->
  exists r, unbound_search t j = Ok r /\ border t r.
Proof.
  intros W Hj Hb. unfold unbound_search.
  destruct (unbound_loop_ok t j W Hj Hb) as ([[i j']|] & -> & Ho); cbn [bind].
  - destruct Ho as (Hij & Hj' & Hbi & Hbj). unfold MAX_INT in *.
    destruct (binary_search_ok (nil_at t) (isnil t) i j') as (r & -> & Hr & ? & ?); [done|lia|done|done| |].
    { intros m Hm. apply nil_at_ok; [done|]. apply in_s_small. lia. }
    exists r. split; [done|]. apply border_isnil; [lia|done|done].
  - destruct (linear_loop_ok t W) as (r & -> & Hr & Hrun & Hnil). cbn [bind].
    exists (r - 1). split; [done|]. apply border_isnil; [lia| |by rewrite Z.sub_add].
    destruct (Z.eq_dec r 1) as [->|]; [by left|right]. apply Hrun. lia.
Qed.

(** C9: the length operator terminates on every well-formed table and returns
    a border: an index that is zero or holds a non-nil value, followed by a
    nil.  This includes the overflow of the doubling search, whose linear
    search ends because the table is finite. *)
Theorem luaH_getn_border t :
  wf_table t -> exists j, luaH_getn t = Ok j /\ border t j.
Proof.
  intros W. unfold luaH_getn. pose proof (wt_size _ _ W) as Hs. change MAXASIZE with (2 ^ 26) in Hs.
  assert (0 < sizearray t -> isnil t (sizearray t) = ttisnil (slot_get t (SArray (Z.to_nat (sizearray t - 1))))) as Hlast.
  { intros. unfold isnil. by rewrite array_val by (done || lia). }
  case_zbool ((0 <? sizearray t) && ttisnil (slot_get t (SArray (Z.to_nat (sizearray t - 1))))).
  - destruct (binary_search_ok (fun m => Ok (ttisnil (slot_get t (SArray (Z.to_nat (m - 1)))))) (isnil t) 0 (sizearray t)) as (r & -> & Hr & ? & ?);
      [lia|lia|by left|rewrite Hlast; [done|lia]| |].
    { intros m Hm. cbn beta. unfold isnil. by rewrite array_val by (done || lia). }
    exists r. split; [done|]. apply border_isnil; [lia|done|done].
  - assert (sizearray t = 0 \/ isnil t (sizearray t) = false) as Hb.
    { apply andb_false_iff in E as [E|E]; zbool; [left; lia|].
      destruct (Z.eq_dec (sizearray t) 0); [by left|right]. rewrite Hlast; [done|lia]. }
    destruct (isdummy t) eqn:Hd; [|by apply unbound_search_ok].
    exists (sizearray t). split; [done|]. apply border_isnil; [lia|done|].
    unfold isnil, val. set (v := Number (cast_num (sizearray t + 1))).
    assert (~ in_array t v) as Hin.
    { unfold in_array, v. rewrite arrayindex_cast by (apply in_s_small; lia). lia. }
    destruct (ttisnil (content t v)) eqn:Ev; [done|]. apply ttisnil_false in Ev.
    destruct (proj1 (content_node tsv_hash t v _ W ltac:(done) Hin Ev) eq_refl) as (i & w & Hk & _).
    destruct (wt_dummy _ _ W Hd) as (Hnd & _). rewrite Hnd in Hk. by apply (blank_no_key 1) in Hk.
Qed.
End Len.

Lemma luaH_getn_border_witness : exists j, luaH_getn sample = Ok j /\ val sample_hash sample (j + 1) = Nil.
Proof.
  destruct (luaH_getn_border sample_hash sample sample_wf) as (j & Hj & _ & _ & Hn). exists j. split; assumption.
Defined.
