(* ===== verification/LuaString.v ===== *)
(** The string table of Lua (lua/src/lstring.c): every string is kept once, in
    a hash table with chains through the [next] fields of the strings.

    A string is named by its address; NULL is 0.  The memory holds the strings
    only.  [malloc] gives the address of a new block: it is free and not NULL.
    The part of the global state that the functions use is the table, the
    current white of the collector and whether it is sweeping strings. *)
From stdpp Require Import base gmap list.
From Stdlib Require Import ZArith Lia.
From S2P Require Import Prelude LuaTable.
Open Scope Z_scope.

Record TString := mkTString { ts_next : Z; ts_hash : Z; ts_marked : Z; ts_bytes : bytes }.
Record stringtable := mkStrt { st_hash : list Z; st_nuse : Z; st_size : Z }.
Record global_State := mkGlobal { strs : gmap Z TString; strt : stringtable; currentwhite : Z; sweepstring : bool }.

Definition WHITEBITS : Z := 3.
Definition otherwhite (g : global_State) : Z := Z.lxor (currentwhite g) WHITEBITS.
Definition isdead (g : global_State) (ts : TString) : bool := negb (Z.land (Z.land (ts_marked ts) (otherwhite g)) WHITEBITS =? 0).
Definition changewhite (ts : TString) : TString := mkTString (ts_next ts) (ts_hash ts) (Z.lxor (ts_marked ts) WHITEBITS) (ts_bytes ts).
Definition luaC_white (g : global_State) : Z := u8 (Z.land (currentwhite g) WHITEBITS).

Definition sizeof_TString : Z := 24.
Definition MAX_SIZET : Z := 2 ^ 64 - 3.
Definition too_big : string := "memory allocation error: block too big".
Definition bad_pointer : string := "access outside the string table".

Definition set_next (p : Z) (ts : TString) : TString := mkTString p (ts_hash ts) (ts_marked ts) (ts_bytes ts).
Definition set_strs (m : gmap Z TString) (g : global_State) : global_State := mkGlobal m (strt g) (currentwhite g) (sweepstring g).
Definition set_strt (t : stringtable) (g : global_State) : global_State := mkGlobal (strs g) t (currentwhite g) (sweepstring g).

Definition node_at (m : gmap Z TString) (p : Z) : res TString := lift (m !! p) bad_pointer.
Definition bucket (h : list Z) (i : Z) : res Z := lift (h !! Z.to_nat i) bad_pointer.

(** * Resizing *)

(** A string moves to its chain in the new table. *)
Definition move_step (newsize : Z) (s : Z * gmap Z TString * list Z) : res (Z * gmap Z TString * list Z + gmap Z TString * list Z) :=
  let '(p, m, newhash) := s in
  if p =? 0 then Ok (inr (m, newhash))
  else
    ts <- node_at m p;
    let next := ts_next ts in
    let h1 := lmod (ts_hash ts) newsize in
    q <- bucket newhash h1;
    Ok (inl (next, <[p := set_next q ts]> m, <[Z.to_nat h1 := p]> newhash)).

Definition resize_step (tb : stringtable) (newsize : Z) (s : Z * gmap Z TString * list Z) : res (Z * gmap Z TString * list Z + gmap Z TString * list Z) :=
  let '(i, m, newhash) := s in
  if i <? st_size tb then
    p <- bucket (st_hash tb) i;
    '(m, newhash) <- loop (2 + size m) (move_step newsize) (p, m, newhash);
    Ok (inl (i + 1, m, newhash))
  else Ok (inr (m, newhash)).

Definition luaS_resize (newsize : Z) (g : global_State) : res global_State :=
  if sweepstring g then Ok g
  else
    let tb := strt g in
    '(m, newhash) <- loop (2 + Z.to_nat (st_size tb)) (resize_step tb newsize) (0, strs g, replicate (Z.to_nat newsize) 0);
    Ok (mkGlobal m (mkStrt newhash (st_nuse tb) newsize) (currentwhite g) (sweepstring g)).

(** * Interning *)

(** The hash of a string: not every byte counts in a long one. *)
Definition hash_step (str : bytes) (step : Z) (s : Z * Z) : res (Z * Z + Z) :=
  let '(l1, h) := s in
  if step <=? l1 then
    c <- lift (str !! Z.to_nat (l1 - 1)) bad_pointer;
    Ok (inl (l1 - step, Z.lxor h (u32 (u32 (Z.shiftl h 5) + Z.shiftr h 2 + c))))
  else Ok (inr h).
Definition luaS_hash (str : bytes) : res Z :=
  let l := Z.of_nat (length str) in
  loop (2 + length str) (hash_step str (Z.shiftr l 5 + 1)) (l, u32 l).

Section Newlstr.
Variable malloc : gmap Z TString -> Z.

Definition newlstr (str : bytes) (h : Z) (g : global_State) : res (Z * global_State) :=
  if MAX_SIZET - sizeof_TString <? Z.of_nat (length str) + 1 then Err too_big
  else
    let ts := malloc (strs g) in
    let tb := strt g in
    let h1 := lmod h (st_size tb) in
    q <- bucket (st_hash tb) h1;
    let g := set_strs (<[ts := mkTString q h (luaC_white g) str]> (strs g)) g in
    let tb := mkStrt (<[Z.to_nat h1 := ts]> (st_hash tb)) (u32 (st_nuse tb + 1)) (st_size tb) in
    let g := set_strt tb g in
    g <- (if (u32 (st_size tb) <? st_nuse tb) && (st_size tb <=? MAX_INT / 2) then luaS_resize (st_size tb * 2) g else Ok g);
    Ok (ts, g).

(** The string with the given bytes in the chain from [o]. *)
Definition intern_step (str : bytes) (m : gmap Z TString) (o : Z) : res (Z + option (Z * TString)) :=
  if o =? 0 then Ok (inr None)
  else
    ts <- node_at m o;
    if bool_decide (ts_bytes ts = str) then Ok (inr (Some (o, ts))) else Ok (inl (ts_next ts)).

Definition luaS_newlstr (str : bytes) (g : global_State) : res (Z * global_State) :=
  h <- luaS_hash str;
  o <- bucket (st_hash (strt g)) (lmod h (st_size (strt g)));
  r <- loop (2 + size (strs g)) (intern_step str (strs g)) o;
  match r with
  | Some (o, ts) => Ok (o, if isdead g ts then set_strs (<[o := changewhite ts]> (strs g)) g else g)
  | None => newlstr str h g
  end.
End Newlstr.
