(* ===== verification/LuaStringSpec.v ===== *)
(** The string table of Lua: strings are interned.  The table is a set of
    chains, every string in the chain of its hash; inserting and resizing keep
    it so, and looking a string up finds the one with the same bytes. *)
From stdpp Require Import base gmap list.
From Stdlib Require Import ZArith Lia.
From S2P Require Import Prelude LuaTable LuaString.
Open Scope Z_scope.

(** * Chains *)

Implicit Types (m : gmap Z TString) (l : list Z) (C : list (list Z)).

(** The chain from [p] goes through the addresses [l]. *)
Fixpoint chain m (p : Z) l : Prop :=
  match l with
  | [] => p = 0
  | a :: l => p = a /\ a <> 0 /\ exists ts, m !! a = Some ts /\ chain m (ts_next ts) l
  end.

Lemma bucket_insert m p l a ts : a ∉ l -> chain m p l -> chain (<[a := ts]> m) p l.
Proof.
  revert p. induction l as [|b l IH]; intros p Ha; [done|]. apply not_elem_of_cons in Ha as [Hne Ha]. intros (-> & Hb & us & E & Hc).
  split; [done|]. split; [done|]. exists us. split; [by rewrite lookup_insert_ne|]. by apply IH.
Qed.
Lemma bucket_head m p l : chain m p l -> (p = 0 /\ l = []) \/ exists a l' ts, l = a :: l' /\ p = a /\ a <> 0 /\ m !! a = Some ts /\ chain m (ts_next ts) l'.
Proof. destruct l as [|a l]; [by left|]. intros (-> & Ha & ts & E & Hc). right. by exists a, l, ts. Qed.

(** A hash vector with its chains. *)
Definition table m (h : list Z) C : Prop := Forall2 (chain m) h C.

Lemma table_insert m h C a ts : a ∉ concat C -> table m h C -> table (<[a := ts]> m) h C.
Proof.
  intros Ha Ht. induction Ht as [|p l h C Hc Ht IH]; [constructor|]. cbn in Ha. apply not_elem_of_app in Ha as [H1 H2].
  constructor; [by apply bucket_insert|by apply IH].
Qed.

Lemma concat_insert (i : nat) C l a : C !! i = Some l -> concat (<[i := a :: l]> C) ≡ₚ a :: concat C.
Proof.
  revert i. induction C as [|l0 C IH]; intros [|i] E; try done; cbn in *; [by injection E as ->|].
  rewrite (IH i E). by rewrite Permutation_middle.
Qed.

(** A string is put in front of a chain. *)
Lemma table_push m h C (i : nat) q l a ts :
  table m h C -> a ∉ concat C -> a <> 0 -> h !! i = Some q -> C !! i = Some l ->
  table (<[a := set_next q ts]> m) (<[i := a]> h) (<[i := a :: l]> C).
Proof.
  intros Ht Ha H0 Hq Hl. apply Forall2_insert; [by apply table_insert|].
  split; [done|]. split; [done|]. eexists. split; [apply lookup_insert_eq|]. cbn [set_next ts_next].
  apply bucket_insert; [|by eapply Forall2_lookup_lr]. intros Hin. apply Ha. apply list_elem_of_In, in_concat. exists l.
  split; [by eapply list_elem_of_In, list_elem_of_lookup_2|by apply list_elem_of_In].
Qed.

(** * Strings and where they are *)

(** The strings are the same, but for their links. *)
Definition data (ts : TString) : Z * Z * bytes := (ts_hash ts, ts_marked ts, ts_bytes ts).
Definition same_data m m' : Prop := forall a, data <$> m !! a = data <$> m' !! a.
Lemma same_data_refl m : same_data m m.
Proof. done. Qed.
Lemma same_data_trans m1 m2 m3 : same_data m1 m2 -> same_data m2 m3 -> same_data m1 m3.
Proof. intros H1 H2 a. by rewrite H1. Qed.
Lemma same_data_next m a ts q : m !! a = Some ts -> same_data m (<[a := set_next q ts]> m).
Proof. intros E b. destruct (decide (a = b)) as [<-|Hne]; [rewrite lookup_insert_eq, E; done|by rewrite lookup_insert_ne]. Qed.

(** Every string is in the chain of its hash. *)
Definition placed m (n : Z) C : Prop := forall (i : nat) l a, C !! i = Some l -> a ∈ l -> exists ts, m !! a = Some ts /\ lmod (ts_hash ts) n = Z.of_nat i.

Lemma placed_same m m' n C : same_data m m' -> placed m n C -> placed m' n C.
Proof.
  intros Hs Hp i l a Hl Ha. destruct (Hp i l a Hl Ha) as (ts & E & Hi). specialize (Hs a). rewrite E in Hs. cbn in Hs.
  destruct (m' !! a) as [ts'|]; [|done]. injection Hs as Eh _ _. exists ts'. split; [done|]. by rewrite <- Eh.
Qed.

Definition pow2 (n : Z) : Prop := exists k, 0 <= k /\ n = 2 ^ k.
Lemma lmod_pow2 h n : pow2 n -> 0 <= lmod h n < n.
Proof.
  intros (k & Hk & ->). unfold lmod. rewrite <- Z.ones_equiv || replace (2 ^ k - 1) with (Z.ones k) by (rewrite Z.ones_equiv; lia).
  rewrite Z.land_ones by lia. apply Z.mod_pos_bound. apply Z.pow_pos_nonneg; lia.
Qed.

Lemma chain_lookup m p l a : chain m p l -> a ∈ l -> is_Some (m !! a).
Proof.
  revert p. induction l as [|b l IH]; intros p Hc Ha; [by apply not_elem_of_nil in Ha|]. destruct Hc as (_ & _ & ts & E & Hc).
  apply elem_of_cons in Ha as [->|Ha]; [by exists ts|by eapply IH].
Qed.

Lemma length_dom m l : NoDup l -> (forall a, a ∈ l -> is_Some (m !! a)) -> (length l <= size m)%nat.
Proof.
  intros Hn Hs. rewrite <- (size_dom m), <- (size_list_to_set (C := gset Z)) by done. apply subseteq_size. intros a Ha.
  apply elem_of_list_to_set in Ha. by apply elem_of_dom, Hs.
Qed.

(** * Resizing *)

(** The strings of a chain move to the new table. *)
Lemma move_ok n k p m h l C :
  pow2 n -> chain m p l -> table m h C -> Z.of_nat (length h) = n -> NoDup (l ++ concat C) -> placed m n C -> (length l < k)%nat ->
  exists m' h' C', loop k (move_step n) (p, m, h) = Ok (m', h') /\ table m' h' C' /\ Z.of_nat (length h') = n /\
    concat C' ≡ₚ l ++ concat C /\ placed m' n C' /\ same_data m m' /\
    forall p' l', (forall a, a ∈ l' -> a ∉ l) -> chain m p' l' -> chain m' p' l'.
Proof.
  intros Hp. revert p m h l C. induction k as [|k IH]; intros p m h l C Hc Ht Hh Hnd Hpl Hk; [lia|]. cbn [loop]. unfold move_step.
  destruct (bucket_head _ _ _ Hc) as [[-> ->]|(a & l' & ts & -> & -> & Ha & E & Hc')].
  - exists m, h, C. cbn. split_and!; try done.
  - rewrite (proj2 (Z.eqb_neq a 0)) by done. unfold node_at. rewrite E. cbn [lift bind].
    pose proof (lmod_pow2 (ts_hash ts) n Hp) as Hr. set (i := lmod (ts_hash ts) n) in *. unfold bucket.
    destruct (lookup_lt_is_Some_2 h (Z.to_nat i)) as [q Hq]; [lia|]. rewrite Hq. cbn [lift bind].
    pose proof (Forall2_length _ _ _ Ht) as Hlen. destruct (lookup_lt_is_Some_2 C (Z.to_nat i)) as [lq Hlq]; [lia|].
    cbn [app] in Hnd. apply NoDup_cons in Hnd as [Hal Hnd]. apply not_elem_of_app in Hal as [Hal HaC].
    pose proof (same_data_next m a ts q E) as Hsame.
    destruct (IH (ts_next ts) (<[a := set_next q ts]> m) (<[Z.to_nat i := a]> h) l' (<[Z.to_nat i := a :: lq]> C))
      as (m' & h' & C' & El & Ht' & Hh' & Hperm & Hpl' & Hs' & Hframe).
    + by apply bucket_insert.
    + by apply table_push.
    + by rewrite length_insert.
    + rewrite (concat_insert _ _ _ a Hlq). rewrite <- Permutation_middle. apply NoDup_cons. split; [|done]. by apply not_elem_of_app.
    + intros j l0 b Hj Hb. destruct (decide (j = Z.to_nat i)) as [->|Hne].
      * rewrite list_lookup_insert_eq in Hj by lia. injection Hj as <-. apply elem_of_cons in Hb as [->|Hb].
        -- eexists. split; [apply lookup_insert_eq|]. cbn. rewrite Z2Nat.id by lia. done.
        -- eapply (placed_same m); [done|done|exact Hlq|done].
      * rewrite list_lookup_insert_ne in Hj by done. by eapply (placed_same m).
    + cbn in Hk. lia.
    + exists m', h', C'. split; [exact El|]. split_and!; try done.
      * rewrite Hperm, (concat_insert _ _ _ a Hlq). cbn [app]. by rewrite <- Permutation_middle.
      * by eapply same_data_trans.
      * intros p' l0 Hdis Hc0. apply Hframe; [intros b Hb Hin; eapply Hdis; [done|by right]|].
        apply bucket_insert; [|done]. intros Hin. eapply Hdis; [done|by left].
Qed.

Lemma resize_loop tb n i Cs k m h C :
  pow2 n -> Z.of_nat (length (st_hash tb)) = st_size tb -> (i <= length (st_hash tb))%nat ->
  Forall2 (chain m) (drop i (st_hash tb)) Cs -> table m h C -> Z.of_nat (length h) = n -> NoDup (concat Cs ++ concat C) -> placed m n C ->
  (length Cs < k)%nat ->
  exists m' h' C', loop k (resize_step tb n) (Z.of_nat i, m, h) = Ok (m', h') /\ table m' h' C' /\ Z.of_nat (length h') = n /\
    concat C' ≡ₚ concat Cs ++ concat C /\ placed m' n C' /\ same_data m m'.
Proof.
  intros Hp Hsz. revert i k m h C. induction Cs as [|l Cs IH]; intros i k m h C Hi Hold Ht Hh Hnd Hpl Hk; (destruct k as [|k]; [cbn in Hk; lia|]);
    cbn [loop]; unfold resize_step at 1.
  - apply Forall2_nil_inv_r in Hold. apply (f_equal length) in Hold. rewrite length_drop in Hold. cbn in Hold.
    rewrite (proj2 (Z.ltb_ge _ _)) by lia. cbn. exists m, h, C. by split_and!.
  - destruct (drop i (st_hash tb)) as [|p hs] eqn:Ed; [by inversion Hold|]. apply Forall2_cons in Hold as [Hc Hold].
    assert (st_hash tb !! i = Some p) as Hpi by (rewrite <- (Nat.add_0_r i), <- lookup_drop, Ed; done).
    assert (drop (S i) (st_hash tb) = hs) as Ed' by (by rewrite <- Nat.add_1_r, <- drop_drop, Ed).
    pose proof (lookup_lt_Some _ _ _ Hpi). rewrite (proj2 (Z.ltb_lt _ _)) by lia. unfold bucket. rewrite Nat2Z.id, Hpi. cbn [lift bind].
    cbn [concat] in Hnd. rewrite <- app_assoc in Hnd. apply NoDup_app in Hnd as (Hndl & Hdis & Hnd).
    apply NoDup_app in Hnd as (HndCs & HdisC & HndC).
    destruct (move_ok n (2 + size m) p m h l C Hp Hc Ht Hh) as (m1 & h1 & C1 & El & Ht1 & Hh1 & Hperm & Hpl1 & Hs1 & Hframe).
    + apply NoDup_app. split; [done|]. split; [|done]. intros a Ha HaC. apply (Hdis a Ha), elem_of_app. by right.
    + done.
    + pose proof (length_dom m l Hndl (fun a => chain_lookup m p l a Hc)). lia.
    + rewrite El. cbn [bind]. replace (Z.of_nat i + 1) with (Z.of_nat (S i)) by lia.
      destruct (IH (S i) k m1 h1 C1) as (m' & h' & C' & El' & Ht' & Hh' & Hperm' & Hpl' & Hs').
      * lia.
      * rewrite Ed'. eapply Forall2_within; [exact Hold|]. intros p' l' Hl' Hc'. apply Hframe; [|done]. intros a Ha Hin.
        apply (Hdis a Hin), elem_of_app. left. apply list_elem_of_In, in_concat. exists l'. split; by apply list_elem_of_In.
      * done.
      * done.
      * rewrite Hperm. apply NoDup_app. split; [done|]. split.
        -- intros a Ha Hin. apply elem_of_app in Hin as [Hin|Hin]; [|by apply (HdisC a)]. apply (Hdis a Hin), elem_of_app. by left.
        -- apply NoDup_app. split; [done|]. split; [|done]. intros a Ha HaC. apply (Hdis a Ha), elem_of_app. by right.
      * done.
      * cbn in Hk. lia.
      * exists m', h', C'. split; [exact El'|]. split_and!; try done.
        -- rewrite Hperm', Hperm. cbn [concat]. rewrite !app_assoc. f_equiv. apply Permutation_app_comm.
        -- by eapply same_data_trans.
Qed.

(** * The invariant *)

Definition white (x : Z) : Prop := Z.land x 3 = 0 \/ Z.land x 3 = 1 \/ Z.land x 3 = 2.

(** The table holds every string, in the chain of its hash, and no two with
    the same bytes; no string has both whites, and one of them is current. *)
Record strings_ok (g : global_State) : Prop := {
  so_chains : exists C, table (strs g) (st_hash (strt g)) C /\ NoDup (concat C) /\ placed (strs g) (st_size (strt g)) C /\
    (forall a, is_Some (strs g !! a) -> a ∈ concat C) /\ st_nuse (strt g) = u32 (Z.of_nat (length (concat C)));
  so_size : Z.of_nat (length (st_hash (strt g))) = st_size (strt g) /\ pow2 (st_size (strt g)) /\ st_size (strt g) <= MAX_INT;
  so_hash a ts : strs g !! a = Some ts -> luaS_hash (ts_bytes ts) = Ok (ts_hash ts);
  so_distinct a b ts us : strs g !! a = Some ts -> strs g !! b = Some us -> ts_bytes ts = ts_bytes us -> a = b;
  so_white a ts : strs g !! a = Some ts -> white (ts_marked ts);
  so_current : Z.land (currentwhite g) 3 = 1 \/ Z.land (currentwhite g) 3 = 2
}.

Lemma dead_bits g ts : isdead g ts = negb (Z.land (Z.land (ts_marked ts) 3) (Z.lxor (Z.land (currentwhite g) 3) 3) =? 0).
Proof.
  unfold isdead, otherwhite, WHITEBITS. do 2 f_equal. apply Z.bits_inj'. intros n Hn. rewrite !Z.land_spec, !Z.lxor_spec, Z.land_spec.
  by destruct (Z.testbit (ts_marked ts) n), (Z.testbit (currentwhite g) n), (Z.testbit 3 n).
Qed.
Lemma lxor_white x : Z.land (Z.lxor x 3) 3 = Z.lxor (Z.land x 3) 3.
Proof. apply Z.bits_inj'. intros n Hn. rewrite !Z.land_spec, !Z.lxor_spec, Z.land_spec. by destruct (Z.testbit x n), (Z.testbit 3 n). Qed.

(** A dead string gets the current white, and a new one has it. *)
Lemma revived g ts : strings_ok g -> white (ts_marked ts) -> isdead g ts = true -> isdead g (changewhite ts) = false /\ white (ts_marked (changewhite ts)).
Proof.
  intros [_ _ _ _ _ Hcur] Hw. rewrite !dead_bits. unfold white, changewhite, WHITEBITS in *. cbn [ts_marked]. rewrite lxor_white.
  destruct Hw as [->|[->| ->]], Hcur as [->| ->]; vm_compute; auto; discriminate.
Qed.
Lemma fresh_white g : strings_ok g -> white (luaC_white g) /\ forall q h s, isdead g (mkTString q h (luaC_white g) s) = false.
Proof.
  intros [_ _ _ _ _ Hcur]. unfold luaC_white, WHITEBITS. split.
  - unfold white. destruct Hcur as [->| ->]; vm_compute; auto.
  - intros q h s. rewrite dead_bits. cbn [ts_marked]. by destruct Hcur as [->| ->].
Qed.

Lemma hash_total str : exists h, luaS_hash str = Ok h.
Proof.
  unfold luaS_hash. set (step := Z.shiftr (Z.of_nat (length str)) 5 + 1).
  assert (1 <= step) as Hs by (unfold step; pose proof (proj2 (Z.shiftr_nonneg (Z.of_nat (length str)) 5)); lia).
  assert (forall k (x h : Z), 0 <= x <= Z.of_nat (length str) -> x < Z.of_nat k -> exists r, loop k (hash_step str step) (x, h) = Ok r) as Hl.
  { intros k. induction k as [|k IH]; intros x h Hx Hk; [lia|]. cbn [loop]. unfold hash_step at 1. case_zbool (step <=? x); [|by eexists].
    destruct (lookup_lt_is_Some_2 str (Z.to_nat (x - 1))) as [c Hc]; [lia|]. rewrite Hc. cbn [lift bind]. apply IH; lia. }
  apply Hl; lia.
Qed.

Lemma intern_search k str m o l : chain m o l -> (length l < k)%nat ->
  exists r, loop k (intern_step str m) o = Ok r /\
    match r with
    | Some (a, ts) => a ∈ l /\ m !! a = Some ts /\ ts_bytes ts = str
    | None => forall a ts, a ∈ l -> m !! a = Some ts -> ts_bytes ts <> str
    end.
Proof.
  revert o l. induction k as [|k IH]; intros o l Hc Hk; [lia|]. cbn [loop]. unfold intern_step at 1.
  destruct (bucket_head _ _ _ Hc) as [[-> ->]|(a & l' & ts & -> & -> & Ha & E & Hc')].
  - exists None. split; [done|]. intros a ts Ha. by apply not_elem_of_nil in Ha.
  - rewrite (proj2 (Z.eqb_neq a 0)) by done. unfold node_at. rewrite E. cbn [lift bind]. destruct (bool_decide_reflect (ts_bytes ts = str)) as [Eb|Eb]; cbn [bind].
    + exists (Some (a, ts)). split; [done|]. split; [by left|done].
    + cbn in Hk. destruct (IH (ts_next ts) l') as (r & -> & Hr); [done|lia|]. exists r. split; [done|]. destruct r as [[b us]|].
      * destruct Hr as (Hb & ?). split; [by right|done].
      * intros b us Hb Eu. apply elem_of_cons in Hb as [->|Hb]; [congruence|by eapply Hr].
Qed.

(** * Insertion *)

(** The strings of [g'] are those of [g], with the same bytes. *)
Definition retains (g g' : global_State) : Prop := forall a ts, strs g !! a = Some ts -> exists ts', strs g' !! a = Some ts' /\ ts_bytes ts' = ts_bytes ts.

Lemma same_data_get m m' a ts : same_data m m' -> m !! a = Some ts -> exists ts', m' !! a = Some ts' /\ data ts' = data ts.
Proof. intros Hs E. specialize (Hs a). rewrite E in Hs. destruct (m' !! a) as [ts'|]; [|done]. injection Hs as E1 E2 E3. exists ts'. unfold data. by rewrite E1, E2, E3. Qed.
Lemma same_data_sym m m' : same_data m m' -> same_data m' m.
Proof. intros Hs a. by rewrite Hs. Qed.

(** A resize to a power of two keeps the invariant and the strings. *)
Lemma resize_ok n g : strings_ok g -> pow2 n -> n <= MAX_INT ->
  exists g', luaS_resize n g = Ok g' /\ strings_ok g' /\ same_data (strs g) (strs g') /\ currentwhite g' = currentwhite g /\ sweepstring g' = sweepstring g.
Proof.
  intros Hok Hp Hn. pose proof Hok as [(C & Ht & Hnd & Hpl & Hdom & Hnu) (Hlen & Hp2 & Hmax) Hh Hdist Hw Hc]. unfold luaS_resize.
  destruct (sweepstring g) eqn:Esw; [by exists g|].
  assert (0 <= n) as Hn0 by (destruct Hp as (k & ? & ->); apply Z.pow_nonneg; lia).
  assert (concat (replicate (Z.to_nat n) ([] : list Z)) = []) as Hnil by (clear; induction (Z.to_nat n) as [|k IH]; [done|exact IH]).
  pose proof (Forall2_length _ _ _ Ht) as HlC.
  destruct (resize_loop (strt g) n 0 C (2 + Z.to_nat (st_size (strt g))) (strs g) (replicate (Z.to_nat n) 0) (replicate (Z.to_nat n) []))
    as (m' & h' & C' & El & Ht' & Hh' & Hperm & Hpl' & Hs'); try done.
  - lia.
  - clear. induction (Z.to_nat n); by constructor.
  - rewrite length_replicate. lia.
  - by rewrite Hnil, app_nil_r.
  - intros i l a Hi Ha. apply lookup_replicate in Hi as [-> _]. by apply not_elem_of_nil in Ha.
  - lia.
  - change (Z.of_nat 0) with 0 in El. rewrite El. cbn [bind]. eexists. split; [done|]. split; [|done].
    assert (forall a ts', m' !! a = Some ts' -> exists ts, strs g !! a = Some ts /\ data ts = data ts') as Hback.
    { intros a ts' E. by eapply same_data_get; [apply same_data_sym|]. }
    rewrite Hnil, app_nil_r in Hperm. split; cbn [strs strt st_hash st_nuse st_size currentwhite].
    + exists C'. split_and!; try done.
      * by rewrite Hperm.
      * intros a [ts' E]. rewrite Hperm. destruct (Hback _ _ E) as (ts & E' & _). apply Hdom. by exists ts.
      * by rewrite Hperm.
    + done.
    + intros a ts' E. destruct (Hback _ _ E) as (ts & E' & [= Eh _ Eb]). rewrite <- Eb, <- Eh. by apply Hh with a.
    + intros a b ts' us' E1 E2 Eb. destruct (Hback _ _ E1) as (ts & F1 & [= _ _ B1]), (Hback _ _ E2) as (us & F2 & [= _ _ B2]).
      eapply Hdist; [done|done|congruence].
    + intros a ts' E. destruct (Hback _ _ E) as (ts & E' & [= _ Em _]). rewrite <- Em. by eapply Hw.
    + done.
Qed.

(** What the memory manager gives: a new address. *)
Definition fresh_addresses (malloc : gmap Z TString -> Z) : Prop := forall m, m !! malloc m = None /\ malloc m <> 0.

(** The outcome of interning [str]: the string at [a] has these bytes and is
    alive, no other string changes its bytes, and none is added when one was
    there. *)
Definition interned_string (g : global_State) (str : bytes) (a : Z) (g' : global_State) : Prop :=
  strings_ok g' /\ (exists ts, strs g' !! a = Some ts /\ ts_bytes ts = str /\ isdead g' ts = false) /\ retains g g' /\
  forall b, is_Some (strs g' !! b) -> is_Some (strs g !! b) \/ b = a /\ forall c us, strs g !! c = Some us -> ts_bytes us <> str.

Section Insertion.
Variable malloc : gmap Z TString -> Z.
Hypothesis malloc_fresh : fresh_addresses malloc.

(** The table with a new string in front of its chain. *)
Lemma pushed_ok g str h q :
  strings_ok g -> luaS_hash str = Ok h -> (forall c us, strs g !! c = Some us -> ts_bytes us <> str) ->
  let i := Z.to_nat (lmod h (st_size (strt g))) in
  st_hash (strt g) !! i = Some q ->
  strings_ok (mkGlobal (<[malloc (strs g) := mkTString q h (luaC_white g) str]> (strs g))
    (mkStrt (<[i := malloc (strs g)]> (st_hash (strt g))) (u32 (st_nuse (strt g) + 1)) (st_size (strt g))) (currentwhite g) (sweepstring g)).
Proof.
  intros Hok Eh Hnew i Hq. destruct (fresh_white g Hok) as [Hwh _].
  destruct Hok as [(C & Ht & Hnd & Hpl & Hdom & Hnu) (Hlen & Hp2 & Hmax) Hh Hdist Hw Hc].
  destruct (malloc_fresh (strs g)) as [Hfr H0]. set (a := malloc (strs g)) in *.
  pose proof (Forall2_length _ _ _ Ht) as HlC. pose proof (lookup_lt_Some _ _ _ Hq) as Hi.
  destruct (lookup_lt_is_Some_2 C i) as [l Hl]; [lia|].
  assert (a ∉ concat C) as HaC.
  { intros Hin. apply list_elem_of_In, in_concat in Hin as (l0 & Hl0 & Hin). apply list_elem_of_In, list_elem_of_lookup in Hl0 as [j Hj].
    apply list_elem_of_In in Hin. destruct (Hpl j l0 a Hj Hin) as (ts & E & _). congruence. }
  pose proof (concat_insert i C l a Hl) as Hperm.
  split; cbn [strs strt st_hash st_nuse st_size currentwhite].
  - exists (<[i := a :: l]> C). split_and!.
    + apply (table_push _ _ _ i q l a (mkTString 0 h (luaC_white g) str) Ht HaC H0 Hq Hl).
    + rewrite Hperm. by apply NoDup_cons.
    + intros j l0 b Hj Hb. destruct (decide (b = a)) as [->|Hne].
      * eexists. split; [apply lookup_insert_eq|]. cbn [ts_hash]. destruct (decide (j = i)) as [->|Hji].
        -- pose proof (lmod_pow2 h _ Hp2). unfold i. lia.
        -- rewrite list_lookup_insert_ne in Hj by done. exfalso. apply HaC, list_elem_of_In, in_concat. exists l0.
           split; apply list_elem_of_In; [by eapply list_elem_of_lookup_2|done].
      * rewrite lookup_insert_ne by done. destruct (decide (j = i)) as [->|Hji].
        -- rewrite list_lookup_insert_eq in Hj by lia. injection Hj as <-. apply elem_of_cons in Hb as [?|Hb]; [done|]. by eapply Hpl.
        -- rewrite list_lookup_insert_ne in Hj by done. by eapply Hpl.
    + intros b Hb. rewrite Hperm. destruct (decide (b = a)) as [->|Hne]; [by left|right]. rewrite lookup_insert_ne in Hb by done. by apply Hdom.
    + rewrite Hperm, Hnu. cbn [length]. rewrite wrap_add_l. f_equal. lia.
  - by rewrite length_insert.
  - intros b ts E. destruct (decide (b = a)) as [->|Hne]; [rewrite lookup_insert_eq in E; by injection E as <-|].
    rewrite lookup_insert_ne in E by done. by eapply Hh.
  - intros b c ts us Eb Ec Ebytes. destruct (decide (b = a)) as [->|Hb], (decide (c = a)) as [->|Hca]; try done.
    + rewrite lookup_insert_eq in Eb. rewrite lookup_insert_ne in Ec by done. injection Eb as <-. by destruct (Hnew c us Ec).
    + rewrite lookup_insert_ne in Eb by done. rewrite lookup_insert_eq in Ec. injection Ec as <-. by destruct (Hnew b ts Eb).
    + rewrite lookup_insert_ne in Eb, Ec by done. by eapply Hdist.
  - intros b ts E. destruct (decide (b = a)) as [->|Hne]; [rewrite lookup_insert_eq in E; by injection E as <-|].
    rewrite lookup_insert_ne in E by done. by eapply Hw.
  - done.
Qed.

Lemma newlstr_ok g str h :
  strings_ok g -> luaS_hash str = Ok h -> (forall c us, strs g !! c = Some us -> ts_bytes us <> str) ->
  ends (fun e => e = too_big /\ MAX_SIZET - sizeof_TString < Z.of_nat (length str) + 1) (fun r => interned_string g str r.1 r.2) (newlstr malloc str h g).
Proof.
  intros Hok Eh Hnew. unfold newlstr. case_zbool (MAX_SIZET - sizeof_TString <? Z.of_nat (length str) + 1); [by split|].
  pose proof Hok as [_ (Hlen & Hp2 & Hmax) _ _ _ _]. pose proof (lmod_pow2 h _ Hp2). unfold bucket.
  destruct (lookup_lt_is_Some_2 (st_hash (strt g)) (Z.to_nat (lmod h (st_size (strt g))))) as [q Hq]; [lia|]. rewrite Hq. cbn [lift bind].
  pose proof (pushed_ok g str h q Hok Eh Hnew Hq) as Hok1. unfold set_strt, set_strs. cbn [strs strt currentwhite sweepstring st_nuse st_size].
  set (g1 := mkGlobal _ _ _ _) in *. destruct (malloc_fresh (strs g)) as [Hfr H0]. set (a := malloc (strs g)) in *.
  assert (strs g1 !! a = Some (mkTString q h (luaC_white g) str)) as Ea by (apply lookup_insert_eq).
  assert (exists g2, (if (u32 (st_size (strt g)) <? u32 (st_nuse (strt g) + 1)) && (st_size (strt g) <=? MAX_INT / 2)
    then luaS_resize (st_size (strt g) * 2) g1 else Ok g1) = Ok g2 /\ strings_ok g2 /\ same_data (strs g1) (strs g2) /\ currentwhite g2 = currentwhite g)
    as (g2 & -> & Hok2 & Hs & Hcw).
  { case_zbool (st_size (strt g) <=? MAX_INT / 2); [|rewrite andb_false_r; by exists g1]. destruct (_ <? _); cbn [andb]; [|by exists g1].
    destruct (resize_ok (st_size (strt g) * 2) g1 Hok1) as (g2 & ? & ? & ? & ? & _).
    - destruct Hp2 as (k & Hk & ->). exists (k + 1). split; [lia|]. rewrite Z.pow_add_r by lia. done.
    - change (MAX_INT / 2) with (MAX_INT / 2) in E0. pose proof (Z.mul_div_le MAX_INT 2). lia.
    - by exists g2. }
  cbn [bind ends fst snd]. destruct (same_data_get _ _ _ _ Hs Ea) as (ts & Ets & [= Dh Dm Db]).
  split; [done|]. split; [|split].
  - exists ts. split; [done|]. split; [done|]. destruct (fresh_white g Hok) as [_ Hd]. rewrite dead_bits, Hcw, Dm.
    specialize (Hd q h str). by rewrite dead_bits in Hd.
  - intros b us Eb. assert (strs g1 !! b = Some us) as Eb1 by (unfold g1; cbn; rewrite lookup_insert_ne; [done|intros <-; congruence]).
    destruct (same_data_get _ _ _ _ Hs Eb1) as (us' & ? & [= _ _ ?]). by exists us'.
  - intros b [us Eb]. destruct (same_data_get _ _ _ _ (same_data_sym _ _ Hs) Eb) as (us' & Eb' & _). unfold g1 in Eb'. cbn in Eb'.
    destruct (decide (b = a)) as [->|Hne]; [by right|]. rewrite lookup_insert_ne in Eb' by done. left. by exists us'.
Qed.

(** A string with these bytes, if there is one, is in the chain of its hash. *)
Lemma in_its_chain g C h a ts :
  strings_ok g -> table (strs g) (st_hash (strt g)) C -> placed (strs g) (st_size (strt g)) C -> (forall a, is_Some (strs g !! a) -> a ∈ concat C) ->
  strs g !! a = Some ts -> ts_hash ts = h -> exists l, C !! Z.to_nat (lmod h (st_size (strt g))) = Some l /\ a ∈ l.
Proof.
  intros Hok Ht Hpl Hdom E <-. assert (a ∈ concat C) as Hin by (apply Hdom; by exists ts).
  apply list_elem_of_In, in_concat in Hin as (l & Hl & Hin). apply list_elem_of_In, list_elem_of_lookup in Hl as [j Hj]. apply list_elem_of_In in Hin.
  destruct (Hpl j l a Hj Hin) as (us & Eu & Ei). rewrite E in Eu. injection Eu as <-. exists l. rewrite Ei, Nat2Z.id. done.
Qed.

(** Marks may change. *)
Lemma chain_remark m p l a ts ts' : m !! a = Some ts -> ts_next ts' = ts_next ts -> chain m p l -> chain (<[a := ts']> m) p l.
Proof.
  intros E En. revert p. induction l as [|b l IH]; intros p; [done|]. intros (-> & Hb & us & Eb & Hc). split; [done|]. split; [done|].
  destruct (decide (a = b)) as [<-|Hne].
  - exists ts'. split; [apply lookup_insert_eq|]. rewrite En. apply IH. rewrite E in Eb. by injection Eb as <-.
  - exists us. split; [by rewrite lookup_insert_ne|]. by apply IH.
Qed.

Lemma remark_ok g a ts ts' :
  strings_ok g -> strs g !! a = Some ts -> ts_next ts' = ts_next ts -> ts_hash ts' = ts_hash ts -> ts_bytes ts' = ts_bytes ts -> white (ts_marked ts') ->
  strings_ok (set_strs (<[a := ts']> (strs g)) g).
Proof.
  intros [(C & Ht & Hnd & Hpl & Hdom & Hnu) Hsz Hh Hdist Hw Hc] E En Eh Eb Hwh.
  assert (forall b us, <[a := ts']> (strs g) !! b = Some us ->
    exists us0, strs g !! b = Some us0 /\ ts_hash us = ts_hash us0 /\ ts_bytes us = ts_bytes us0 /\ white (ts_marked us)) as Hback.
  { intros b us Eb'. destruct (decide (a = b)) as [<-|Hne].
    - rewrite lookup_insert_eq in Eb'. injection Eb' as <-. by exists ts.
    - rewrite lookup_insert_ne in Eb' by done. exists us. split_and!; try done. by eapply Hw. }
  split; cbn [set_strs strs strt currentwhite]; try done.
  - exists C. split_and!; try done.
    + eapply Forall2_impl; [exact Ht|]. intros p l. by apply chain_remark with ts.
    + intros i l b Hl Hb. destruct (Hpl i l b Hl Hb) as (us & Eu & Hi). destruct (decide (a = b)) as [<-|Hne].
      * exists ts'. split; [apply lookup_insert_eq|]. rewrite E in Eu. injection Eu as <-. by rewrite Eh.
      * exists us. by rewrite lookup_insert_ne.
    + intros b [us Eu]. destruct (Hback _ _ Eu) as (us0 & ? & _). apply Hdom. by exists us0.
  - intros b us Eu. destruct (Hback _ _ Eu) as (us0 & ? & -> & -> & _). by apply Hh with b.
  - intros b c us vs E1 E2. destruct (Hback _ _ E1) as (us0 & ? & _ & -> & _), (Hback _ _ E2) as (vs0 & ? & _ & -> & _). by apply Hdist.
  - intros b us Eu. by destruct (Hback _ _ Eu) as (us0 & ? & _ & _ & ?).
Qed.

(** A string that is found is alive afterwards. *)
Lemma found_ok g a ts :
  strings_ok g -> strs g !! a = Some ts ->
  interned_string g (ts_bytes ts) a (if isdead g ts then set_strs (<[a := changewhite ts]> (strs g)) g else g).
Proof.
  intros Hok E. pose proof (so_white g Hok a ts E) as Hw. destruct (isdead g ts) eqn:Ed.
  - destruct (revived g ts Hok Hw Ed) as [Hlive Hw']. split; [by apply remark_ok with ts|]. split; [|split].
    + exists (changewhite ts). split; [apply lookup_insert_eq|done].
    + intros b us Eb. cbn [set_strs strs]. destruct (decide (a = b)) as [<-|Hne].
      * rewrite lookup_insert_eq. eexists. split; [done|]. rewrite E in Eb. by injection Eb as <-.
      * rewrite lookup_insert_ne by done. by exists us.
    + intros b [us Eb]. cbn [set_strs strs] in Eb. left. destruct (decide (a = b)) as [<-|Hne]; [by exists ts|]. rewrite lookup_insert_ne in Eb by done. by exists us.
  - split; [done|]. split; [by exists ts|]. split; [intros b us ?; by exists us|]. intros b ?. by left.
Qed.

(** C24: Strings are interned.  From a table in order (every string in the chain
    of its hash, no two with the same bytes), luaS_newlstr always ends: only a
    string that does not fit in memory raises.  The string that it returns has
    the bytes asked for and is alive, also when it was found dead; every other
    string stays as it was, a string is added only when none had these bytes,
    and the table is in order again, also after it grew. *)
Theorem newlstr_interns g str :
  strings_ok g ->
  ends (fun e => e = too_big /\ MAX_SIZET - sizeof_TString < Z.of_nat (length str) + 1) (fun r => interned_string g str r.1 r.2) (luaS_newlstr malloc str g).
Proof.
  intros Hok. unfold luaS_newlstr. destruct (hash_total str) as [h Eh]. rewrite Eh. cbn [bind].
  pose proof Hok as [(C & Ht & Hnd & Hpl & Hdom & Hnu) (Hlen & Hp2 & Hmax) Hh _ _ _]. pose proof (lmod_pow2 h _ Hp2). unfold bucket.
  destruct (lookup_lt_is_Some_2 (st_hash (strt g)) (Z.to_nat (lmod h (st_size (strt g))))) as [q Hq]; [lia|]. rewrite Hq. cbn [lift bind].
  pose proof (Forall2_length _ _ _ Ht). destruct (lookup_lt_is_Some_2 C (Z.to_nat (lmod h (st_size (strt g))))) as [l Hl]; [lia|].
  assert (chain (strs g) q l) as Hc by (by eapply Forall2_lookup_lr).
  assert (length l <= size (strs g))%nat as Hll.
  { apply length_dom; [|intros a; by eapply chain_lookup]. rewrite <- (take_drop_middle _ _ _ Hl), concat_app in Hnd. cbn in Hnd.
    apply NoDup_app in Hnd as (_ & _ & Hnd). by apply NoDup_app in Hnd as (? & _). }
  destruct (intern_search (2 + size (strs g)) str (strs g) q l Hc) as (r & -> & Hr); [lia|]. cbn [bind]. destruct r as [[a ts]|].
  - destruct Hr as (_ & E & <-). by apply found_ok.
  - apply newlstr_ok; [done..|]. intros c us Ec Eb. pose proof (Hh c us Ec) as Ehc. rewrite Eb, Eh in Ehc. injection Ehc as Ehc.
    destruct (in_its_chain g C h c us Hok Ht Hpl Hdom Ec (eq_sym Ehc)) as (l' & Hl' & Hin). rewrite Hl in Hl'. injection Hl' as <-. by apply (Hr c us Hin Ec).
Qed.
End Insertion.

(** An empty table of two chains, and a memory manager that never reuses. *)
Definition empty_state : global_State := mkGlobal ∅ (mkStrt [0; 0] 0 2) 1 false.
Definition next_address m : Z := map_fold (fun k _ acc => Z.max k acc) 0 m + 1.

Lemma next_address_fresh : fresh_addresses next_address.
Proof.
  intros m. unfold next_address.
  assert (forall a ts, m !! a = Some ts -> a <= map_fold (fun k _ acc => Z.max k acc) 0 m) as Hb.
  { apply (map_fold_weak_ind (fun acc m => forall a ts, m !! a = Some ts -> a <= acc)); [done|]. intros k us m' acc _ IH a ts E.
    destruct (decide (k = a)) as [->|Hne]; [lia|]. rewrite lookup_insert_ne in E by done. specialize (IH a ts E). lia. }
  assert (0 <= map_fold (fun k _ acc => Z.max k acc) 0 m) as H0.
  { apply (map_fold_weak_ind (fun acc (_ : gmap Z TString) => 0 <= acc)); [done|]. intros. lia. }
  split; [|lia]. destruct (m !! _) as [ts|] eqn:E; [|done]. specialize (Hb _ _ E). lia.
Qed.

Lemma empty_state_ok : strings_ok empty_state.
Proof.
  split; cbn; try done.
  - exists [[]; []]. split_and!; try done.
    + repeat constructor.
    + constructor.
    + intros i l a Hl Ha. destruct i as [|[|i]]; cbn in Hl; try done; injection Hl as <-; by apply not_elem_of_nil in Ha.
    + intros a [ts E]. done.
  - split; [done|]. split; [|done]. by exists 1.
  - by left.
Qed.

(** Two strings with three bytes each, the second one twice. *)
Definition str_a : bytes := [97; 98; 99].
Definition str_b : bytes := [97; 98; 100].

Example interns_twice :
  (r1 <- luaS_newlstr next_address str_a empty_state; r2 <- luaS_newlstr next_address str_b r1.2; r3 <- luaS_newlstr next_address str_a r2.2;
   Ok (r1.1, r2.1, r3.1)) = Ok (1, 2, 1).
Proof. vm_compute. reflexivity. Qed.

Lemma newlstr_interns_witness :
  exists a g', luaS_newlstr next_address str_a empty_state = Ok (a, g') /\ interned_string empty_state str_a a g'.
Proof.
  pose proof (newlstr_interns next_address next_address_fresh empty_state str_a empty_state_ok) as H.
  destruct (luaS_newlstr next_address str_a empty_state) as [[a g']|e|] eqn:E; [|destruct H as [_ H]; exfalso; revert H; vm_compute; discriminate|done].
  exists a, g'. split; [done|exact H].
Defined.
