(* ===== verification/LuaHeap.v ===== *)
(** The collectable objects of Lua (lua/src/lobject.h, lstate.h) as the garbage
    collector sees them, and the operations on one object: marks, the values
    an upvalue points to, metatables (ltm.c).

    An object is named by its address; NULL is 0.  Each object has the common
    header and [o_gclist], the field gclist of the types that have it.  A
    pointer into the stack of a thread is the thread and an index.  Fields that
    the collector does not use are left out. *)
From stdpp Require Import base gmap list.
From Stdlib Require Import ZArith Lia.
From S2P Require Import Prelude LuaNumber LuaTable LuaString.
Open Scope Z_scope.

Section Types.
Context (N : Type).

(** [UOpen th i prev next]: the value is slot [i] of the stack of [th], and
    the upvalue is in the list of open upvalues; [UClosed]: its own. *)
Inductive upvalue_state : Type :=
  | UOpen (th i prev next : Z)
  | UClosed (value : TValue N).

(** A thread: [ci_tops] are the fields top of the elements base_ci to ci. *)
Record lua_State := mkThread {
  l_gt : TValue N;
  stack : list (TValue N);
  top : Z;
  ci_tops : list Z;
  size_ci : Z;
  openupval : Z
}.

Record proto_refs := mkProtoRefs {
  pr_source : Z;
  pr_k : list (TValue N);
  pr_upvalues : list Z;
  pr_p : list Z;
  pr_locvars : list Z;        (** the names *)
  pr_sizecode : Z;
  pr_sizelineinfo : Z
}.

Inductive gcbody : Type :=
  | TSTRING (hash : Z) (str : bytes)
  | TUSERDATA (metatable env len : Z)
  | TUPVAL (v : upvalue_state)
  | TCCLOSURE (env : Z) (upvalue : list (TValue N))
  | TLCLOSURE (env p : Z) (upvals : list Z)
  | TTABLE (metatable : Z) (h : Table N)
  | TTHREAD (th : lua_State)
  | TPROTO (f : proto_refs).

Record GCObject := mkObj { o_next : Z; o_marked : Z; o_gclist : Z; o_body : gcbody }.

(** A GCObject**: the variable or field that holds the pointer. *)
Inductive gcpos : Type := AtRoot | AtHash (i : Z) | AtOpen (th : Z) | AtNext (o : Z).

(** The lists through gclist. *)
Record mark_lists := mkLists { l_gray : Z; l_grayagain : Z; l_weak : Z }.
(** The lists that own the objects, and the head of the list of open upvalues. *)
Record object_lists := mkOwners { ol_rootgc : Z; ol_strt : stringtable; ol_tmudata : Z; ol_uvprev : Z; ol_uvnext : Z }.
(** Where the collector is. *)
Record gc_phase := mkPhase { ph_gcstate : Z; ph_currentwhite : Z; ph_sweepstrgc : Z; ph_sweepgc : gcpos }.
(** Its accounts. *)
Record gc_accounts := mkAccounts { ac_GCthreshold : Z; ac_totalbytes : Z; ac_estimate : Z; ac_gcdept : Z; ac_gcpause : Z; ac_gcstepmul : Z; ac_buffsize : Z }.
(** What is reached directly; [running] is the thread that runs, [L]. *)
Record gc_roots := mkRootset { l_registry : TValue N; mainthread : Z; mt : list Z; tmname : list Z; running : Z }.
(** global_State, with the heap. *)
Record gstate := mkGstate { heap : gmap Z GCObject; lists : mark_lists; owners : object_lists; phase : gc_phase; accounts : gc_accounts; roots : gc_roots }.
End Types.
Arguments UOpen {N}.
Arguments UClosed {N}.
Arguments mkThread {N}.
Arguments l_gt {N}.
Arguments stack {N}.
Arguments top {N}.
Arguments ci_tops {N}.
Arguments size_ci {N}.
Arguments openupval {N}.
Arguments mkProtoRefs {N}.
Arguments pr_source {N}.
Arguments pr_k {N}.
Arguments pr_upvalues {N}.
Arguments pr_p {N}.
Arguments pr_locvars {N}.
Arguments pr_sizecode {N}.
Arguments pr_sizelineinfo {N}.
Arguments TSTRING {N}.
Arguments TUSERDATA {N}.
Arguments TUPVAL {N}.
Arguments TCCLOSURE {N}.
Arguments TLCLOSURE {N}.
Arguments TTABLE {N}.
Arguments TTHREAD {N}.
Arguments TPROTO {N}.
Arguments mkObj {N}.
Arguments o_next {N}.
Arguments o_marked {N}.
Arguments o_gclist {N}.
Arguments o_body {N}.
Arguments l_registry {N}.
Arguments mainthread {N}.
Arguments mt {N}.
Arguments tmname {N}.
Arguments running {N}.
Arguments mkRootset {N}.
Arguments mkGstate {N}.
Arguments heap {N}.
Arguments lists {N}.
Arguments owners {N}.
Arguments phase {N}.
Arguments accounts {N}.
Arguments roots {N}.

Section Heap.
Context {N : Type} `{LuaNumber N}.
Implicit Types (g : gstate N) (x : GCObject N) (v : TValue N).

(** * The fields of the state *)

Definition gray g : Z := l_gray (lists g).
Definition grayagain g : Z := l_grayagain (lists g).
Definition weak g : Z := l_weak (lists g).
Definition rootgc g : Z := ol_rootgc (owners g).
Definition strt g : stringtable := ol_strt (owners g).
Definition tmudata g : Z := ol_tmudata (owners g).
Definition gcstate g : Z := ph_gcstate (phase g).
Definition currentwhite g : Z := ph_currentwhite (phase g).
Definition totalbytes g : Z := ac_totalbytes (accounts g).

Definition set_heap h g : gstate N := mkGstate h (lists g) (owners g) (phase g) (accounts g) (roots g).
Definition set_lists l g : gstate N := mkGstate (heap g) l (owners g) (phase g) (accounts g) (roots g).
Definition set_owners o g : gstate N := mkGstate (heap g) (lists g) o (phase g) (accounts g) (roots g).
Definition set_phase p g : gstate N := mkGstate (heap g) (lists g) (owners g) p (accounts g) (roots g).
Definition set_accounts a g : gstate N := mkGstate (heap g) (lists g) (owners g) (phase g) a (roots g).
Definition set_gray p g : gstate N := set_lists (mkLists p (grayagain g) (weak g)) g.
Definition set_grayagain p g : gstate N := set_lists (mkLists (gray g) p (weak g)) g.
Definition set_weak p g : gstate N := set_lists (mkLists (gray g) (grayagain g) p) g.
Definition set_rootgc p g : gstate N := set_owners (mkOwners p (strt g) (tmudata g) (ol_uvprev (owners g)) (ol_uvnext (owners g))) g.
Definition set_strt t g : gstate N := set_owners (mkOwners (rootgc g) t (tmudata g) (ol_uvprev (owners g)) (ol_uvnext (owners g))) g.
Definition set_tmudata p g : gstate N := set_owners (mkOwners (rootgc g) (strt g) p (ol_uvprev (owners g)) (ol_uvnext (owners g))) g.
Definition set_uvprev p g : gstate N := set_owners (mkOwners (rootgc g) (strt g) (tmudata g) p (ol_uvnext (owners g))) g.
Definition set_uvnext p g : gstate N := set_owners (mkOwners (rootgc g) (strt g) (tmudata g) (ol_uvprev (owners g)) p) g.
Definition set_gcstate p g : gstate N := set_phase (mkPhase p (currentwhite g) (ph_sweepstrgc (phase g)) (ph_sweepgc (phase g))) g.
Definition set_sweepgc p g : gstate N := set_phase (mkPhase (gcstate g) (currentwhite g) (ph_sweepstrgc (phase g)) p) g.
Definition set_sweepstrgc i g : gstate N := set_phase (mkPhase (gcstate g) (currentwhite g) i (ph_sweepgc (phase g))) g.
Definition set_totalbytes b g : gstate N :=
  let a := accounts g in set_accounts (mkAccounts (ac_GCthreshold a) b (ac_estimate a) (ac_gcdept a) (ac_gcpause a) (ac_gcstepmul a) (ac_buffsize a)) g.
Definition set_estimate b g : gstate N :=
  let a := accounts g in set_accounts (mkAccounts (ac_GCthreshold a) (ac_totalbytes a) b (ac_gcdept a) (ac_gcpause a) (ac_gcstepmul a) (ac_buffsize a)) g.
Definition set_GCthreshold b g : gstate N :=
  let a := accounts g in set_accounts (mkAccounts b (ac_totalbytes a) (ac_estimate a) (ac_gcdept a) (ac_gcpause a) (ac_gcstepmul a) (ac_buffsize a)) g.
Definition set_gcdept b g : gstate N :=
  let a := accounts g in set_accounts (mkAccounts (ac_GCthreshold a) (ac_totalbytes a) (ac_estimate a) b (ac_gcpause a) (ac_gcstepmul a) (ac_buffsize a)) g.
Definition set_buffsize b g : gstate N :=
  let a := accounts g in set_accounts (mkAccounts (ac_GCthreshold a) (ac_totalbytes a) (ac_estimate a) (ac_gcdept a) (ac_gcpause a) (ac_gcstepmul a) b) g.

Definition GCSpause : Z := 0.
Definition GCSpropagate : Z := 1.
Definition GCSsweepstring : Z := 2.
Definition GCSsweep : Z := 3.
Definition GCSfinalize : Z := 4.

(** * One object *)

Definition dangling : string := "access through a dangling pointer".
Definition wrong_type : string := "object of another type".
Definition obj_at g (p : Z) : res (GCObject N) := lift (heap g !! p) dangling.
(** An assignment to fields of the object at [p]. *)
Definition upd_obj (p : Z) (f : GCObject N -> GCObject N) g : res (gstate N) :=
  x <- obj_at g p; Ok (set_heap (<[p := f x]> (heap g)) g).

Definition with_next (q : Z) x : GCObject N := mkObj q (o_marked x) (o_gclist x) (o_body x).
Definition with_marked (b : Z) x : GCObject N := mkObj (o_next x) b (o_gclist x) (o_body x).
Definition with_gclist (q : Z) x : GCObject N := mkObj (o_next x) (o_marked x) q (o_body x).
Definition with_body b x : GCObject N := mkObj (o_next x) (o_marked x) (o_gclist x) b.

Definition testbit (m b : Z) : bool := negb (Z.land m (Z.shiftl 1 b) =? 0).
Definition BLACKBIT : Z := 2.
Definition FINALIZEDBIT : Z := 3.
Definition KEYWEAKBIT : Z := 3.
Definition VALUEWEAKBIT : Z := 4.
Definition FIXEDBIT : Z := 5.
Definition SFIXEDBIT : Z := 6.
Definition l_setbit (b m : Z) : Z := u8 (Z.lor m (Z.shiftl 1 b)).
Definition resetbits (k m : Z) : Z := u8 (Z.land m (u8 (Z.lnot k))).

Definition iswhite x : bool := negb (Z.land (o_marked x) WHITEBITS =? 0).
Definition isblack x : bool := testbit (o_marked x) BLACKBIT.
Definition isgray x : bool := negb (isblack x) && negb (iswhite x).
Definition otherwhite g : Z := Z.lxor (currentwhite g) WHITEBITS.
Definition isdead g x : bool := negb (Z.land (Z.land (o_marked x) (otherwhite g)) WHITEBITS =? 0).
Definition luaC_white g : Z := u8 (Z.land (currentwhite g) WHITEBITS).

Definition white2gray x := with_marked (resetbits WHITEBITS (o_marked x)) x.
Definition black2gray x := with_marked (resetbits (Z.shiftl 1 BLACKBIT) (o_marked x)) x.
Definition gray2black x := with_marked (l_setbit BLACKBIT (o_marked x)) x.
Definition stringmark x := with_marked (resetbits WHITEBITS (o_marked x)) x.
Definition changewhite x := with_marked (Z.lxor (o_marked x) WHITEBITS) x.
Definition maskmarks : Z := u8 (Z.lnot (Z.lor (Z.shiftl 1 BLACKBIT) WHITEBITS)).
Definition makewhite g x := with_marked (u8 (Z.lor (Z.land (o_marked x) maskmarks) (luaC_white g))) x.

Definition LUA_TNIL : Z := 0.
Definition LUA_TSTRING : Z := 4.
Definition LUA_TTABLE : Z := 5.
Definition LUA_TFUNCTION : Z := 6.
Definition LUA_TUSERDATA : Z := 7.
Definition LUA_TTHREAD : Z := 8.
Definition LUA_TPROTO : Z := 9.
Definition LUA_TUPVAL : Z := 10.
(** The field tt of the header. *)
Definition gch_tt x : Z :=
  match o_body x with
  | TSTRING _ _ => LUA_TSTRING | TUSERDATA _ _ _ => LUA_TUSERDATA | TUPVAL _ => LUA_TUPVAL | TCCLOSURE _ _ => LUA_TFUNCTION
  | TLCLOSURE _ _ _ => LUA_TFUNCTION | TTABLE _ _ => LUA_TTABLE | TTHREAD _ => LUA_TTHREAD | TPROTO _ => LUA_TPROTO
  end.
(** gcvalue, for the collectable values. *)
Definition gcvalue v : option Z := match v with Str p => Some p | GC _ p => Some p | _ => None end.

Definition thread_at g (p : Z) : res (lua_State N) := x <- obj_at g p; match o_body x with TTHREAD th => Ok th | _ => Err wrong_type end.
Definition table_at g (p : Z) : res (Z * Table N) := x <- obj_at g p; match o_body x with TTABLE m h => Ok (m, h) | _ => Err wrong_type end.
Definition upval_at g (p : Z) : res (upvalue_state N) := x <- obj_at g p; match o_body x with TUPVAL v => Ok v | _ => Err wrong_type end.
Definition stack_slot g (th i : Z) : res (TValue N) :=
  t <- thread_at g th; if 0 <=? i then lift (stack t !! Z.to_nat i) dangling else Err dangling.
(** The value that the field v points to. *)
Definition uv_value g (u : upvalue_state N) : res (TValue N) := match u with UOpen th i _ _ => stack_slot g th i | UClosed w => Ok w end.

(** * Metatables *)

Definition TM_GC : Z := 2.
Definition TM_MODE : Z := 3.
(** The hash stored in a string, for the lookups of ltable.c. *)
Definition hash_of g (ts : Z) : Z := match heap g !! ts with Some x => match o_body x with TSTRING h _ => h | _ => 0 end | None => 0 end.
Definition set_table (p : Z) (h : Table N) g : res (gstate N) :=
  upd_obj p (fun x => match o_body x with TTABLE m _ => with_body (TTABLE m h) x | _ => x end) g.

(** The method, or nil; a table without it has that noted in its flags. *)
Definition luaT_gettm (events event ename : Z) g : res (TValue N * gstate N) :=
  '(_, h) <- table_at g events;
  o <- luaH_getstr (hash_of g) h ename;
  let tm := opt_get h o in
  if ttisnil tm then
    g <- set_table events (with_flags h (u8 (Z.lor (flags h) (Z.shiftl 1 event)))) g;
    Ok (Nil, g)
  else Ok (tm, g).
Definition fasttm (et event : Z) g : res (TValue N * gstate N) :=
  if et =? 0 then Ok (Nil, g)
  else
    '(_, h) <- table_at g et;
    if negb (Z.land (flags h) (Z.shiftl 1 event) =? 0) then Ok (Nil, g)
    else
      ename <- lift (tmname (roots g) !! Z.to_nat event) dangling;
      luaT_gettm et event ename g.

(** * Loops *)

(** [while (n--) f(n)] and [for (i = 0; i < n; i++) f(i)]. *)
Fixpoint down {S : Type} (f : nat -> S -> res S) (n : nat) (s : S) : res S :=
  match n with O => Ok s | S i => s <- f i s; down f i s end.
Definition up {S : Type} (f : nat -> S -> res S) (n : nat) (s : S) : res S := foldl (fun r i => s <- r; f i s) (Ok s) (seq 0 n).
End Heap.
