(* ===== verification/LuaMark.v ===== *)
(** The mark phase of the collector (lua/src/lgc.c), the write barriers, and
    the upvalues (lua/src/lfunc.c), whose closing needs a barrier. *)
From stdpp Require Import base gmap list.
From Stdlib Require Import ZArith Lia.
From S2P Require Import Prelude LuaNumber LuaTable LuaString LuaHeap.
Open Scope Z_scope.

Section Mark.
Context {N : Type} `{LuaNumber N}.
Implicit Types (g : gstate N) (x : GCObject N) (v : TValue N).

(** * Marking one object *)

Definition push_gray (o : Z) g : res (gstate N) := g' <- upd_obj o (with_gclist (gray g)) g; Ok (set_gray o g').

(** The recursion goes from an upvalue to its value, and from userdata to its
    tables, which are only put in a list: it is at most [MARKDEPTH] deep. *)
Definition MARKDEPTH : nat := 3.
Fixpoint reallymarkobject (n : nat) (o : Z) g : res (gstate N) :=
  match n with
  | O => Timeout
  | S n =>
      let markobject p g := x <- obj_at g p; if iswhite x then reallymarkobject n p g else Ok g in
      let markvalue v g := match gcvalue v with Some p => markobject p g | None => Ok g end in
      g <- upd_obj o white2gray g;
      x <- obj_at g o;
      match o_body x with
      | TSTRING _ _ => Ok g
      | TUSERDATA metatable env _ =>
          g <- upd_obj o gray2black g;
          g <- (if metatable =? 0 then Ok g else markobject metatable g);
          markobject env g
      | TUPVAL v =>
          w <- uv_value g v;
          g <- markvalue w g;
          match v with UClosed _ => upd_obj o gray2black g | UOpen _ _ _ _ => Ok g end
      | TCCLOSURE _ _ | TLCLOSURE _ _ _ | TTABLE _ _ | TTHREAD _ | TPROTO _ => push_gray o g
      end
  end.

Definition markobject (p : Z) g : res (gstate N) := x <- obj_at g p; if iswhite x then reallymarkobject MARKDEPTH p g else Ok g.
Definition markvalue v g : res (gstate N) := match gcvalue v with Some p => markobject p g | None => Ok g end.
(** [if (p) markobject(g, p)] and [if (s) stringmark(s)] *)
Definition mark_if (p : Z) g : res (gstate N) := if p =? 0 then Ok g else markobject p g.
Definition stringmark_if (p : Z) g : res (gstate N) := if p =? 0 then Ok g else upd_obj p stringmark g.
Definition elt {A} (l : list A) (i : nat) : res A := lift (l !! i) dangling.

(** * Traversing *)

Fixpoint c_string (s : bytes) : bytes := match s with [] => [] | c :: s => if c =? 0 then [] else c :: c_string s end.
Definition strchr (s : bytes) (c : Z) : bool := existsb (Z.eqb c) (c_string s).
(** Whether [mode] is a string, with the letter [c]. *)
Definition mode_has g (mode : TValue N) (c : Z) : res bool :=
  match mode with
  | Str p => x <- obj_at g p; match o_body x with TSTRING _ s => Ok (strchr s c) | _ => Err wrong_type end
  | _ => Ok false
  end.

Definition weak_bits (weakkey weakvalue : bool) (m : Z) : Z :=
  Z.lor (resetbits (Z.lor (Z.shiftl 1 KEYWEAKBIT) (Z.shiftl 1 VALUEWEAKBIT)) m)
    (u8 (Z.lor (Z.shiftl (Z.b2z weakkey) KEYWEAKBIT) (Z.shiftl (Z.b2z weakvalue) VALUEWEAKBIT))).

Definition node_at (h : Table N) (i : nat) : res (Node N) := lift (node h !! i) dangling.
Definition traverse_node (o : Z) (weakkey weakvalue : bool) (i : nat) g : res (gstate N) :=
  '(_, h) <- table_at g o;
  n <- node_at h i;
  if ttisnil (i_val n) then set_table o (with_node h (<[i := removeentry n]> (node h))) g
  else
    g <- (if weakkey then Ok g else match i_key n with Key k => markvalue k g | DeadKey p => markobject p g end);
    if weakvalue then Ok g else markvalue (i_val n) g.

(** The loops over the array and over the nodes. *)
Definition traverse_parts (o : Z) (h : Table N) (weakkey weakvalue : bool) g : res (gstate N) :=
  g <- (if weakvalue then Ok g else down (fun i g => v <- elt (array h) i; markvalue v g) (Z.to_nat (sizearray h)) g);
  down (traverse_node o weakkey weakvalue) (Z.to_nat (sizenode h)) g.

Definition traversetable (o : Z) g : res (bool * gstate N) :=
  '(metatable, h) <- table_at g o;
  g <- mark_if metatable g;
  '(mode, g) <- fasttm metatable TM_MODE g;
  weakkey <- mode_has g mode 107;
  weakvalue <- mode_has g mode 118;
  g <- (if weakkey || weakvalue then
          g <- upd_obj o (fun x => with_gclist (weak g) (with_marked (weak_bits weakkey weakvalue (o_marked x)) x)) g;
          Ok (set_weak o g)
        else Ok g);
  if weakkey && weakvalue then Ok (true, g)
  else
    g <- traverse_parts o h weakkey weakvalue g;
    Ok (weakkey || weakvalue, g).

Definition traverseproto (f : proto_refs N) g : res (gstate N) :=
  g <- stringmark_if (pr_source f) g;
  g <- up (fun i g => v <- elt (pr_k f) i; markvalue v g) (length (pr_k f)) g;
  g <- up (fun i g => p <- elt (pr_upvalues f) i; stringmark_if p g) (length (pr_upvalues f)) g;
  g <- up (fun i g => p <- elt (pr_p f) i; mark_if p g) (length (pr_p f)) g;
  up (fun i g => p <- elt (pr_locvars f) i; stringmark_if p g) (length (pr_locvars f)) g.

Definition traverseclosure (b : gcbody N) g : res (gstate N) :=
  match b with
  | TCCLOSURE env upvalue =>
      g <- markobject env g;
      up (fun i g => v <- elt upvalue i; markvalue v g) (length upvalue) g
  | TLCLOSURE env p upvals =>
      g <- markobject env g;
      g <- markobject p g;
      up (fun i g => uv <- elt upvals i; markobject uv g) (length upvals) g
  | _ => Err wrong_type
  end.

Definition EXTRA_STACK : Z := 5.
Definition BASIC_STACK_SIZE : Z := 40.
Definition BASIC_CI_SIZE : Z := 8.
Definition LUAI_MAXCALLS : Z := 20000.
Definition set_stack (s : list (TValue N)) (th : lua_State N) : lua_State N := mkThread (l_gt th) s (top th) (ci_tops th) (size_ci th) (openupval th).
Definition set_size_ci (n : Z) (th : lua_State N) : lua_State N := mkThread (l_gt th) (stack th) (top th) (ci_tops th) n (openupval th).
Definition set_openupval (p : Z) (th : lua_State N) : lua_State N := mkThread (l_gt th) (stack th) (top th) (ci_tops th) (size_ci th) p.
Definition upd_thread (p : Z) (f : lua_State N -> lua_State N) g : res (gstate N) :=
  _ <- thread_at g p;
  upd_obj p (fun x => match o_body x with TTHREAD th => with_body (TTHREAD (f th)) x | _ => x end) g.

Definition sizeof_TValue : Z := 16.
Definition sizeof_CallInfo : Z := 40.
(** luaM_realloc, as far as the accounts go. *)
Definition account (osize nsize : Z) g : gstate N := set_totalbytes (u64 (totalbytes g - osize + nsize)) g.

(** The reallocations of ldo.c, for a smaller size. *)
Definition luaD_reallocstack (p newsize : Z) g : res (gstate N) :=
  th <- thread_at g p;
  let realsize := newsize + 1 + EXTRA_STACK in
  g <- upd_thread p (set_stack (take (Z.to_nat realsize) (stack th))) g;
  Ok (account (sizeof_TValue * Z.of_nat (length (stack th))) (sizeof_TValue * realsize) g).
Definition luaD_reallocCI (p newsize : Z) g : res (gstate N) :=
  th <- thread_at g p;
  g <- upd_thread p (set_size_ci newsize) g;
  Ok (account (sizeof_CallInfo * size_ci th) (sizeof_CallInfo * newsize) g).

Definition checkstacksizes (p max : Z) g : res (gstate N) :=
  th <- thread_at g p;
  let ci_used := Z.of_nat (length (ci_tops th)) - 1 in
  let stacksize := Z.of_nat (length (stack th)) in
  if LUAI_MAXCALLS <? size_ci th then Ok g
  else
    g <- (if (4 * ci_used <? size_ci th) && (2 * BASIC_CI_SIZE <? size_ci th) then luaD_reallocCI p (size_ci th / 2) g else Ok g);
    if (4 * max <? stacksize) && (2 * (BASIC_STACK_SIZE + EXTRA_STACK) <? stacksize) then luaD_reallocstack p (stacksize / 2) g else Ok g.

(** The slots from [top] to [lim] are cleared, if they are in the stack. *)
Definition clear_slots (top lim : Z) (s : list (TValue N)) : list (TValue N) :=
  imap (fun i v => if (top <=? Z.of_nat i) && (Z.of_nat i <=? lim) then Nil else v) s.

Definition traversestack (o : Z) g : res (gstate N) :=
  l <- thread_at g o;
  g <- markvalue (l_gt l) g;
  let lim := foldl Z.max (top l) (ci_tops l) in
  g <- up (fun i g => v <- elt (stack l) i; markvalue v g) (Z.to_nat (top l)) g;
  _ <- (if lim <? Z.of_nat (length (stack l)) then Ok tt else Err dangling);
  g <- upd_thread o (fun l => set_stack (clear_slots (top l) lim (stack l)) l) g;
  checkstacksizes o lim g.

(** * Sizes in memory, on a 64-bit machine *)

Definition sizeof_Node : Z := 40.
Definition sizeof_Table : Z := 64.
Definition sizeof_lua_State : Z := 192.
Definition sizeof_Proto : Z := 120.
Definition sizeof_LocVar : Z := 16.
Definition sizeof_UpVal : Z := 40.
Definition sizeCclosure (n : Z) : Z := 64 + sizeof_TValue * (n - 1).
Definition sizeLclosure (n : Z) : Z := 48 + 8 * (n - 1).

(** Takes one gray object and returns how much was traversed. *)
Definition propagatemark g : res (Z * gstate N) :=
  let o := gray g in
  g <- upd_obj o gray2black g;
  x <- obj_at g o;
  match o_body x with
  | TTABLE _ h =>
      '(isweak, g) <- traversetable o (set_gray (o_gclist x) g);
      g <- (if isweak : bool then upd_obj o black2gray g else Ok g);
      Ok (sizeof_Table + sizeof_TValue * sizearray h + sizeof_Node * sizenode h, g)
  | TCCLOSURE _ upvalue =>
      g <- traverseclosure (o_body x) (set_gray (o_gclist x) g);
      Ok (sizeCclosure (Z.of_nat (length upvalue)), g)
  | TLCLOSURE _ _ upvals =>
      g <- traverseclosure (o_body x) (set_gray (o_gclist x) g);
      Ok (sizeLclosure (Z.of_nat (length upvals)), g)
  | TTHREAD _ =>
      let g := set_gray (o_gclist x) g in
      g <- upd_obj o (with_gclist (grayagain g)) g;
      let g := set_grayagain o g in
      g <- upd_obj o black2gray g;
      g <- traversestack o g;
      th <- thread_at g o;
      Ok (sizeof_lua_State + sizeof_TValue * Z.of_nat (length (stack th)) + sizeof_CallInfo * size_ci th, g)
  | TPROTO p =>
      g <- traverseproto p (set_gray (o_gclist x) g);
      Ok (sizeof_Proto + 4 * pr_sizecode p + 8 * Z.of_nat (length (pr_p p)) + sizeof_TValue * Z.of_nat (length (pr_k p)) +
          4 * pr_sizelineinfo p + sizeof_LocVar * Z.of_nat (length (pr_locvars p)) + 8 * Z.of_nat (length (pr_upvalues p)), g)
  | _ => Ok (0, g)
  end.

(** Every object turns gray at most once on the way, but for those that are
    already so. *)
Definition propagateall g : res (Z * gstate N) :=
  loop (2 + 2 * size (heap g)) (fun s : Z * gstate N =>
    let '(m, g) := s in
    if gray g =? 0 then Ok (inr (m, g)) else '(k, g) <- propagatemark g; Ok (inl (u64 (m + k), g))) (0, g).

(** * Barriers *)

Definition luaC_barrierf (o v : Z) g : res (gstate N) :=
  if gcstate g =? GCSpropagate then reallymarkobject MARKDEPTH v g else upd_obj o (makewhite g) g.

Definition luaC_barrierback (o : Z) g : res (gstate N) :=
  g <- upd_obj o black2gray g;
  g <- upd_obj o (with_gclist (grayagain g)) g;
  Ok (set_grayagain o g).

Definition luaC_objbarrier (p o : Z) g : res (gstate N) :=
  y <- obj_at g o;
  x <- obj_at g p;
  if iswhite y && isblack x then luaC_barrierf p o g else Ok g.
Definition luaC_objbarriert (t o : Z) g : res (gstate N) :=
  y <- obj_at g o;
  x <- obj_at g t;
  if iswhite y && isblack x then luaC_barrierback t g else Ok g.
Definition luaC_barrier (p : Z) v g : res (gstate N) := match gcvalue v with Some o => luaC_objbarrier p o g | None => Ok g end.
Definition luaC_barriert (t : Z) v g : res (gstate N) := match gcvalue v with Some o => luaC_objbarriert t o g | None => Ok g end.

(** * Upvalues *)

Definition UVHEAD : Z := 8.
(** The links of the list of open upvalues, whose head is in the state. *)
Definition set_links (f : Z -> Z -> Z * Z) (u : upvalue_state N) : upvalue_state N :=
  match u with UOpen th i p n => let '(p, n) := f p n in UOpen th i p n | UClosed w => UClosed w end.
Definition upd_upval (p : Z) (f : upvalue_state N -> upvalue_state N) g : res (gstate N) :=
  _ <- upval_at g p;
  upd_obj p (fun x => match o_body x with TUPVAL u => with_body (TUPVAL (f u)) x | _ => x end) g.
Definition set_uv_next (p q : Z) g : res (gstate N) := if p =? UVHEAD then Ok (set_uvnext q g) else upd_upval p (set_links (fun a _ => (a, q))) g.
Definition set_uv_prev (p q : Z) g : res (gstate N) := if p =? UVHEAD then Ok (set_uvprev q g) else upd_upval p (set_links (fun _ b => (q, b))) g.

Definition unlinkupval (uv : Z) g : res (gstate N) :=
  u <- upval_at g uv;
  match u with
  | UOpen _ _ prev next => g <- set_uv_prev next prev g; set_uv_next prev next g
  | UClosed _ => Err wrong_type
  end.

Definition luaM_free (p size : Z) g : gstate N := account size 0 (set_heap (delete p (heap g)) g).

Definition luaF_freeupval (uv : Z) g : res (gstate N) :=
  u <- upval_at g uv;
  g <- match u with UOpen _ _ _ _ => unlinkupval uv g | UClosed _ => Ok g end;
  Ok (luaM_free uv sizeof_UpVal g).

Definition luaC_linkupval (uv : Z) g : res (gstate N) :=
  g <- upd_obj uv (with_next (rootgc g)) g;
  let g := set_rootgc uv g in
  x <- obj_at g uv;
  if isgray x then
    if gcstate g =? GCSpropagate then
      g <- upd_obj uv gray2black g;
      u <- upval_at g uv;
      v <- uv_value g u;
      luaC_barrier uv v g
    else upd_obj uv (makewhite g) g
  else Ok g.

(** Whether the upvalue points to the stack of [th] at [level] or above. *)
Definition at_or_above (th level : Z) (u : upvalue_state N) : bool := match u with UOpen t i _ _ => (t =? th) && (level <=? i) | UClosed _ => false end.

Definition close_step (th level : Z) g : res (gstate N + gstate N) :=
  l <- thread_at g th;
  let uv := openupval l in
  if uv =? 0 then Ok (inr g)
  else
    u <- upval_at g uv;
    if at_or_above th level u then
      x <- obj_at g uv;
      g <- upd_thread th (set_openupval (o_next x)) g;
      if isdead g x then g <- luaF_freeupval uv g; Ok (inl g)
      else
        g <- unlinkupval uv g;
        v <- uv_value g u;
        g <- upd_upval uv (fun _ => UClosed v) g;
        g <- luaC_linkupval uv g;
        Ok (inl g)
    else Ok (inr g).
Definition luaF_close (th level : Z) g : res (gstate N) := loop (2 + size (heap g)) (close_step th level) g.

Section Findupval.
Variable malloc : gmap Z (GCObject N) -> Z.

(** The link pp to follow: the field openupval or next. *)
Definition pos_get (p : gcpos) g : res Z :=
  match p with
  | AtRoot => Ok (rootgc g)
  | AtHash i => lift (st_hash (strt g) !! Z.to_nat i) dangling
  | AtOpen th => t <- thread_at g th; Ok (openupval t)
  | AtNext o => x <- obj_at g o; Ok (o_next x)
  end.
Definition pos_set (p : gcpos) (q : Z) g : res (gstate N) :=
  match p with
  | AtRoot => Ok (set_rootgc q g)
  | AtHash i => _ <- pos_get p g; let t := strt g in Ok (set_strt (mkStrt (<[Z.to_nat i := q]> (st_hash t)) (st_nuse t) (st_size t)) g)
  | AtOpen th => upd_thread th (set_openupval q) g
  | AtNext o => upd_obj o (with_next q) g
  end.

Definition find_step (th level : Z) g (pp : gcpos) : res (gcpos + gcpos * option Z) :=
  p <- pos_get pp g;
  if p =? 0 then Ok (inr (pp, None))
  else
    u <- upval_at g p;
    if at_or_above th level u then
      if match u with UOpen _ i _ _ => i =? level | UClosed _ => false end then Ok (inr (pp, Some p)) else Ok (inl (AtNext p))
    else Ok (inr (pp, None)).

Definition luaF_findupval (th level : Z) g : res (Z * gstate N) :=
  '(pp, found) <- loop (2 + size (heap g)) (find_step th level g) (AtOpen th);
  match found with
  | Some p =>
      x <- obj_at g p;
      g <- (if isdead g x then upd_obj p changewhite g else Ok g);
      Ok (p, g)
  | None =>
      let uv := malloc (heap g) in
      next <- pos_get pp g;
      let g := set_heap (<[uv := mkObj next (luaC_white g) 0 (TUPVAL (UOpen th level UVHEAD (ol_uvnext (owners g))))]> (heap g)) g in
      let g := account 0 sizeof_UpVal g in
      g <- pos_set pp uv g;
      g <- set_uv_prev (ol_uvnext (owners g)) uv g;
      Ok (uv, set_uvnext uv g)
  end.
End Findupval.
End Mark.
