(* ===== verification/LuaGc.v ===== *)
(** The collector of Lua (lua/src/lgc.c): the atomic step between marking and
    sweeping, the sweep, finalizers, and the incremental and full collections.

    [calltm tm u] is the call of the method [tm] on the userdata [u]: it stands
    for pushing both on the stack and luaD_call, that is for the interpreter. *)
From stdpp Require Import base gmap list.
From Stdlib Require Import ZArith Lia.
From S2P Require Import Prelude LuaNumber LuaTable LuaString LuaHeap LuaMark.
Open Scope Z_scope.

Section Gc.
Context {N : Type} `{LuaNumber N}.
Implicit Types (g : gstate N) (x : GCObject N) (v : TValue N).

(** * New objects *)

Definition luaC_link (o : Z) (b : gcbody N) g : gstate N := set_rootgc o (set_heap (<[o := mkObj (rootgc g) (luaC_white g) 0 b]> (heap g)) g).

Definition sizeof_TString : Z := 24.
Definition sizeof_Udata : Z := 40.
Definition sizestring (s : bytes) : Z := sizeof_TString + (Z.of_nat (length s) + 1).
Definition sizeudata (len : Z) : Z := sizeof_Udata + len.

(** The new block [u] is chained after the main thread. *)
Definition luaS_newudata (u s e : Z) g : res (gstate N) :=
  m <- obj_at g (mainthread (roots g));
  let g := account 0 (sizeudata s) (set_heap (<[u := mkObj (o_next m) (luaC_white g) 0 (TUSERDATA 0 e s)]> (heap g)) g) in
  upd_obj (mainthread (roots g)) (with_next u) g.

(** * Roots *)

Definition markmt g : res (gstate N) := up (fun i g => p <- elt (mt (roots g)) i; mark_if p g) (length (mt (roots g))) g.

Definition markroot g : res (gstate N) :=
  let g := set_lists (mkLists 0 0 0) g in
  g <- markobject (mainthread (roots g)) g;
  th <- thread_at g (mainthread (roots g));
  g <- markvalue (l_gt th) g;
  g <- markvalue (l_registry (roots g)) g;
  g <- markmt g;
  Ok (set_gcstate GCSpropagate g).

Definition remark_step (s : Z * gstate N) : res (Z * gstate N + gstate N) :=
  let '(uv, g) := s in
  if uv =? UVHEAD then Ok (inr g)
  else
    x <- obj_at g uv;
    u <- upval_at g uv;
    g <- (if isgray x then v <- uv_value g u; markvalue v g else Ok g);
    match u with UOpen _ _ _ next => Ok (inl (next, g)) | UClosed _ => Err wrong_type end.
Definition remarkupvals g : res (gstate N) := loop (2 + size (heap g)) remark_step (ol_uvnext (owners g), g).

(** * Userdata with finalizers *)

Definition isfinalized x : bool := testbit (o_marked x) FINALIZEDBIT.
Definition markfinalized x : GCObject N := with_marked (l_setbit FINALIZEDBIT (o_marked x)) x.

(** [curr] becomes the last element of the circular list tmudata. *)
Definition append_tmudata (curr : Z) g : res (gstate N) :=
  if tmudata g =? 0 then g <- upd_obj curr (with_next curr) g; Ok (set_tmudata curr g)
  else
    last <- obj_at g (tmudata g);
    g <- upd_obj curr (with_next (o_next last)) g;
    g <- upd_obj (tmudata g) (with_next curr) g;
    Ok (set_tmudata curr g).

Definition separate_step (all : bool) (s : gcpos * Z * gstate N) : res (gcpos * Z * gstate N + Z * gstate N) :=
  let '(p, deadmem, g) := s in
  curr <- pos_get p g;
  if curr =? 0 then Ok (inr (deadmem, g))
  else
    x <- obj_at g curr;
    match o_body x with
    | TUSERDATA metatable _ len =>
        if negb (iswhite x || all) || isfinalized x then Ok (inl (AtNext curr, deadmem, g))
        else
          '(tm, g) <- fasttm metatable TM_GC g;
          g <- upd_obj curr markfinalized g;
          if ttisnil tm then Ok (inl (AtNext curr, deadmem, g))
          else
            g <- pos_set p (o_next x) g;
            g <- append_tmudata curr g;
            Ok (inl (p, u64 (deadmem + sizeudata len), g))
    | _ => Err wrong_type
    end.
Definition luaC_separateudata (all : bool) g : res (Z * gstate N) :=
  loop (2 + size (heap g)) (separate_step all) (AtNext (mainthread (roots g)), 0, g).

Definition marktmu_step (s : Z * gstate N) : res (Z * gstate N + gstate N) :=
  let '(u, g) := s in
  x <- obj_at g u;
  let u := o_next x in
  g <- upd_obj u (makewhite g) g;
  g <- reallymarkobject MARKDEPTH u g;
  if u =? tmudata g then Ok (inr g) else Ok (inl (u, g)).
Definition marktmu g : res (gstate N) := if tmudata g =? 0 then Ok g else loop (2 + size (heap g)) marktmu_step (tmudata g, g).

Section Calls.
Variable calltm : TValue N -> Z -> gstate N -> res (gstate N).

Definition GCTM g : res (gstate N) :=
  last <- obj_at g (tmudata g);
  let o := o_next last in
  x <- obj_at g o;
  match o_body x with
  | TUSERDATA metatable _ _ =>
      g <- (if o =? tmudata g then Ok (set_tmudata 0 g) else upd_obj (tmudata g) (with_next (o_next x)) g);
      m <- obj_at g (mainthread (roots g));
      g <- upd_obj o (with_next (o_next m)) g;
      g <- upd_obj (mainthread (roots g)) (with_next o) g;
      g <- upd_obj o (makewhite g) g;
      '(tm, g) <- fasttm metatable TM_GC g;
      if ttisnil tm then Ok g
      else
        let oldt := ac_GCthreshold (accounts g) in
        g <- calltm tm o (set_GCthreshold (u64 (2 * totalbytes g)) g);
        Ok (set_GCthreshold oldt g)
  | _ => Err wrong_type
  end.
Definition luaC_callGCTM g : res (gstate N) :=
  loop (2 + size (heap g)) (fun g => if tmudata g =? 0 then Ok (inr g) else g <- GCTM g; Ok (inl g)) g.
End Calls.

(** * Weak tables *)

(** Whether a value can be cleared from a weak table; a string is marked. *)
Definition iscleared_obj (p : Z) (isudata iskey : bool) g : res bool :=
  x <- obj_at g p; Ok (iswhite x || (isudata && (negb iskey && isfinalized x))).
Definition iscleared v (iskey : bool) g : res (bool * gstate N) :=
  match v with
  | Str p => g <- upd_obj p stringmark g; Ok (false, g)
  | GC ty p => b <- iscleared_obj p (ty =? LUA_TUSERDATA) iskey g; Ok (b, g)
  | _ => Ok (false, g)
  end.
Definition iscleared_key (k : TKey N) g : res (bool * gstate N) :=
  match k with
  | Key v => iscleared v true g
  | DeadKey p => b <- iscleared_obj p false true g; Ok (b, g)
  end.

Definition clear_elt (l : Z) (i : nat) g : res (gstate N) :=
  '(_, h) <- table_at g l;
  v <- elt (array h) i;
  '(c, g) <- iscleared v false g;
  if (c : bool) then set_table l (with_array h (<[i := Nil]> (array h)) (sizearray h)) g else Ok g.
Definition clear_node (l : Z) (i : nat) g : res (gstate N) :=
  '(_, h) <- table_at g l;
  n <- node_at h i;
  if ttisnil (i_val n) then Ok g
  else
    '(ck, g) <- iscleared_key (i_key n) g;
    '(c, g) <- (if ck : bool then Ok (true, g) else iscleared (i_val n) false g);
    if (c : bool) then set_table l (with_node h (<[i := removeentry (set_val Nil n)]> (node h))) g else Ok g.

Definition clear_step (s : Z * gstate N) : res (Z * gstate N + gstate N) :=
  let '(l, g) := s in
  if l =? 0 then Ok (inr g)
  else
    x <- obj_at g l;
    '(_, h) <- table_at g l;
    g <- (if testbit (o_marked x) VALUEWEAKBIT then down (clear_elt l) (Z.to_nat (sizearray h)) g else Ok g);
    g <- down (clear_node l) (Z.to_nat (sizenode h)) g;
    Ok (inl (o_gclist x, g)).
Definition cleartable (l : Z) g : res (gstate N) := loop (2 + size (heap g)) clear_step (l, g).

(** * The atomic step *)

Definition atomic g : res (gstate N) :=
  g <- remarkupvals g;
  '(_, g) <- propagateall g;
  let g := set_weak 0 (set_gray (weak g) g) in
  g <- markobject (running (roots g)) g;
  g <- markmt g;
  '(_, g) <- propagateall g;
  let g := set_grayagain 0 (set_gray (grayagain g) g) in
  '(_, g) <- propagateall g;
  '(udsize, g) <- luaC_separateudata false g;
  g <- marktmu g;
  '(m, g) <- propagateall g;
  let udsize := u64 (udsize + m) in
  g <- cleartable (weak g) g;
  let g := set_phase (mkPhase GCSsweepstring (u8 (otherwhite g)) 0 AtRoot) g in
  Ok (set_estimate (u64 (totalbytes g - udsize)) g).

(** * Sweeping *)

Definition freeobj (o : Z) g : res (gstate N) :=
  x <- obj_at g o;
  match o_body x with
  | TPROTO f =>
      Ok (luaM_free o sizeof_Proto (account (4 * pr_sizecode f + 8 * Z.of_nat (length (pr_p f)) + sizeof_TValue * Z.of_nat (length (pr_k f)) +
        4 * pr_sizelineinfo f + sizeof_LocVar * Z.of_nat (length (pr_locvars f)) + 8 * Z.of_nat (length (pr_upvalues f))) 0 g))
  | TCCLOSURE _ upvalue => Ok (luaM_free o (sizeCclosure (Z.of_nat (length upvalue))) g)
  | TLCLOSURE _ _ upvals => Ok (luaM_free o (sizeLclosure (Z.of_nat (length upvals))) g)
  | TUPVAL _ => luaF_freeupval o g
  | TTABLE _ h =>
      let g := if isdummy h then g else account (sizeof_Node * sizenode h) 0 g in
      Ok (luaM_free o sizeof_Table (account (sizeof_TValue * sizearray h) 0 g))
  | TTHREAD th =>
      g <- luaF_close o 0 g;
      Ok (luaM_free o sizeof_lua_State (account (sizeof_CallInfo * size_ci th + sizeof_TValue * Z.of_nat (length (stack th))) 0 g))
  | TSTRING _ s =>
      let t := strt g in
      Ok (luaM_free o (sizestring s) (set_strt (mkStrt (st_hash t) (u32 (st_nuse t - 1)) (st_size t)) g))
  | TUSERDATA _ _ len => Ok (luaM_free o (sizeudata len) g)
  end.

Definition MAX_LUMEM : Z := 2 ^ 64 - 3.
(** The lists of open upvalues are swept with their threads: two levels. *)
Definition SWEEPDEPTH : nat := 2.
(** A dead object leaves its list. *)
Definition sweep_out (p : gcpos) (curr : Z) x g : res (gstate N) :=
  g <- pos_set p (o_next x) g;
  freeobj curr (if curr =? rootgc g then set_rootgc (o_next x) g else g).
(** [sweepopen th] sweeps the list of open upvalues of [th]. *)
Definition sweep_step (sweepopen : Z -> gstate N -> res (gstate N)) (deadmask : Z) (s : gcpos * Z * gstate N) : res (gcpos * Z * gstate N + gcpos * gstate N) :=
  let '(p, count, g) := s in
  curr <- pos_get p g;
  if (curr =? 0) || (count <=? 0) then Ok (inr (p, g))
  else
    x <- obj_at g curr;
    g <- (if gch_tt x =? LUA_TTHREAD then sweepopen curr g else Ok g);
    if negb (Z.land (Z.lxor (o_marked x) WHITEBITS) deadmask =? 0) then
      g <- upd_obj curr (makewhite g) g;
      Ok (inl (AtNext curr, count - 1, g))
    else
      g <- sweep_out p curr x g;
      Ok (inl (p, count - 1, g)).
Fixpoint sweeplist (d : nat) (p : gcpos) (count : Z) g : res (gcpos * gstate N) :=
  match d with
  | O => Timeout
  | S d => loop (2 + size (heap g)) (sweep_step (fun th g => '(_, g) <- sweeplist d (AtOpen th) MAX_LUMEM g; Ok g) (otherwhite g)) (p, count, g)
  end.
Definition sweepwholelist (p : gcpos) g : res (gstate N) := '(_, g) <- sweeplist SWEEPDEPTH p MAX_LUMEM g; Ok g.

(** The string table as lstring.c sees it, and back. *)
Definition as_string x : option TString := match o_body x with TSTRING h s => Some (mkTString (o_next x) h (o_marked x) s) | _ => None end.
Definition string_table g : global_State := mkGlobal (omap as_string (heap g)) (strt g) (currentwhite g) (gcstate g =? GCSsweepstring).
Definition with_string_table (t : global_State) g : gstate N :=
  set_strt (LuaString.strt t) (set_heap (map_imap (fun p x => Some match strs t !! p with Some ts => with_next (ts_next ts) x | None => x end) (heap g)) g).
Definition resize_strings (newsize : Z) g : res (gstate N) :=
  if gcstate g =? GCSsweepstring then Ok g
  else
    t <- luaS_resize newsize (string_table g);
    Ok (account (8 * st_size (strt g)) (8 * newsize) (with_string_table t g)).

Definition MINSTRTABSIZE : Z := 32.
Definition LUA_MINBUFFER : Z := 32.
Definition checkSizes g : res (gstate N) :=
  let t := strt g in
  g <- (if (st_nuse t <? st_size t / 4) && (MINSTRTABSIZE * 2 <? st_size t) then resize_strings (st_size t / 2) g else Ok g);
  let b := ac_buffsize (accounts g) in
  Ok (if LUA_MINBUFFER * 2 <? b then set_buffsize (b / 2) (account b (b / 2) g) else g).

Definition luaC_freeall g : res (gstate N) :=
  let g := set_phase (mkPhase (gcstate g) (Z.lor WHITEBITS (Z.shiftl 1 SFIXEDBIT)) (ph_sweepstrgc (phase g)) (ph_sweepgc (phase g))) g in
  g <- sweepwholelist AtRoot g;
  up (fun i g => sweepwholelist (AtHash (Z.of_nat i)) g) (Z.to_nat (st_size (strt g))) g.

(** * The states of the collector *)

Definition GCSTEPSIZE : Z := 1024.
Definition GCSWEEPMAX : Z := 40.
Definition GCSWEEPCOST : Z := 10.
Definition GCFINALIZECOST : Z := 100.

Section Step.
Variable calltm : TValue N -> Z -> gstate N -> res (gstate N).

(** The estimate after a sweep that began with [old] bytes in use. *)
Definition swept (old : Z) g : gstate N := set_estimate (u64 (ac_estimate (accounts g) - u64 (old - totalbytes g))) g.

Definition singlestep g : res (Z * gstate N) :=
  if gcstate g =? GCSpause then g <- markroot g; Ok (0, g)
  else if gcstate g =? GCSpropagate then
    if negb (gray g =? 0) then propagatemark g else g <- atomic g; Ok (0, g)
  else if gcstate g =? GCSsweepstring then
    let old := totalbytes g in
    let i := ph_sweepstrgc (phase g) in
    g <- sweepwholelist (AtHash i) (set_sweepstrgc (i + 1) g);
    let g := if st_size (strt g) <=? ph_sweepstrgc (phase g) then set_gcstate GCSsweep g else g in
    Ok (GCSWEEPCOST, swept old g)
  else if gcstate g =? GCSsweep then
    let old := totalbytes g in
    '(p, g) <- sweeplist SWEEPDEPTH (ph_sweepgc (phase g)) GCSWEEPMAX g;
    let g := set_sweepgc p g in
    next <- pos_get p g;
    g <- (if next =? 0 then g <- checkSizes g; Ok (set_gcstate GCSfinalize g) else Ok g);
    Ok (GCSWEEPMAX * GCSWEEPCOST, swept old g)
  else if gcstate g =? GCSfinalize then
    if negb (tmudata g =? 0) then
      g <- GCTM calltm g;
      let e := ac_estimate (accounts g) in
      Ok (GCFINALIZECOST, if GCFINALIZECOST <? e then set_estimate (e - GCFINALIZECOST) g else g)
    else Ok (0, set_gcdept 0 (set_gcstate GCSpause g))
  else Ok (0, g).

Definition setthreshold g : gstate N :=
  set_GCthreshold (u64 (ac_estimate (accounts g) / 100 * ac_gcpause (accounts g))) g.

(** The number of steps that a cycle can still take. *)
Definition cycle_bound g : nat := 8 + 4 * size (heap g) + length (st_hash (strt g)).

(** [do ... while (lim > 0)], left when the cycle is over. *)
Definition step_loop (s : Z * gstate N) : res (Z * gstate N + gstate N) :=
  let '(lim, g) := s in
  '(k, g) <- singlestep g;
  let lim := s64 (lim - k) in
  if gcstate g =? GCSpause then Ok (inr g)
  else if 0 <? lim then Ok (inl (lim, g)) else Ok (inr g).

Definition luaC_step g : res (gstate N) :=
  let a := accounts g in
  let lim := u32 (GCSTEPSIZE / 100 * ac_gcstepmul a) in
  let lim := if lim =? 0 then (MAX_LUMEM - 1) / 2 else lim in
  let g := set_gcdept (u64 (ac_gcdept a + u64 (totalbytes g - ac_GCthreshold a))) g in
  g <- loop (2 * cycle_bound g) step_loop (lim, g);
  if negb (gcstate g =? GCSpause) then
    if ac_gcdept (accounts g) <? GCSTEPSIZE then Ok (set_GCthreshold (u64 (totalbytes g + GCSTEPSIZE)) g)
    else Ok (set_GCthreshold (totalbytes g) (set_gcdept (ac_gcdept (accounts g) - GCSTEPSIZE) g))
  else Ok (setthreshold g).

Definition until (state : Z) g : res (gstate N + gstate N) :=
  if gcstate g =? state then Ok (inr g) else '(_, g) <- singlestep g; Ok (inl g).

Definition luaC_fullgc g : res (gstate N) :=
  let g :=
    if gcstate g <=? GCSpropagate then set_lists (mkLists 0 0 0) (set_phase (mkPhase GCSsweepstring (currentwhite g) 0 AtRoot) g) else g in
  g <- loop (cycle_bound g) (until GCSfinalize) g;
  g <- markroot g;
  g <- loop (2 * cycle_bound g) (until GCSpause) g;
  Ok (setthreshold g).
End Step.
End Gc.
