(* ===== verification/LuaMarkWf.v ===== *)
(** Colours and references of the collectable objects of Lua: what the bits of
    a mark say, what an object refers to, and which changes of the heap the
    collector makes to objects that stay.

    The invariant of the mark phase of the collector of Lua: gray objects are
    in the lists of the collector, what black objects refer to is not white,
    and every reference leads to an object of its type. *)
From stdpp Require Import base gmap list.
From Stdlib Require Import ZArith Lia.
From S2P Require Import Prelude LuaNumber LuaTable LuaString LuaHeap LuaMark.
Open Scope Z_scope.


(** * Marks *)

Lemma u8_testbit z n : 0 <= n < 8 -> Z.testbit (u8 z) n = Z.testbit z n.
Proof. intros Hn. unfold wrap. by rewrite Z.mod_pow2_bits_low by lia. Qed.

Lemma land_bit m b : 0 <= b -> negb (Z.land m (Z.shiftl 1 b) =? 0) = Z.testbit m b.
Proof.
  intros Hb. rewrite Z.shiftl_1_l. destruct (Z.testbit m b) eqn:E.
  - apply negb_true_iff, Z.eqb_neq. intros H0. apply (f_equal (fun z => Z.testbit z b)) in H0. by rewrite Z.land_spec, E, Z.pow2_bits_true, Z.bits_0 in H0 by done.
  - apply negb_false_iff, Z.eqb_eq. apply Z.bits_inj'. intros n Hn. rewrite Z.land_spec, Z.bits_0. destruct (decide (n = b)) as [->|Hne]; [by rewrite E|].
    by rewrite Z.pow2_bits_false, andb_false_r by done.
Qed.

Lemma land_white m : negb (Z.land m WHITEBITS =? 0) = Z.testbit m 0 || Z.testbit m 1.
Proof.
  unfold WHITEBITS. destruct (Z.testbit m 0 || Z.testbit m 1) eqn:E.
  - apply negb_true_iff, Z.eqb_neq. intros H0. apply orb_true_iff in E as [E|E]; apply (f_equal (fun z => Z.testbit z)) in H0.
    + apply (f_equal (fun f => f 0)) in H0. by rewrite Z.land_spec, E in H0.
    + apply (f_equal (fun f => f 1)) in H0. by rewrite Z.land_spec, E in H0.
  - apply orb_false_iff in E as [E0 E1]. apply negb_false_iff, Z.eqb_eq. apply Z.bits_inj'. intros n Hn. rewrite Z.land_spec, Z.bits_0.
    destruct (decide (n = 0)) as [->|]; [by rewrite E0|]. destruct (decide (n = 1)) as [->|]; [by rewrite E1|].
    replace 3 with (Z.ones 2) by done. rewrite Z.ones_spec_high by lia. apply andb_false_r.
Qed.

Lemma shift1_testbit b n : 0 <= b -> 0 <= n -> Z.testbit (Z.shiftl 1 b) n = (n =? b).
Proof. intros Hb Hn. rewrite Z.shiftl_1_l. destruct (Z.eqb_spec n b) as [->|Hne]; [by apply Z.pow2_bits_true|by apply Z.pow2_bits_false]. Qed.
Lemma setbit_testbit b m n : 0 <= b -> 0 <= n < 8 -> Z.testbit (l_setbit b m) n = Z.testbit m n || (n =? b).
Proof. intros Hb Hn. unfold l_setbit. rewrite u8_testbit, Z.lor_spec by done. by rewrite shift1_testbit by lia. Qed.
Lemma resetbits_testbit k m n : 0 <= n < 8 -> Z.testbit (resetbits k m) n = Z.testbit m n && negb (Z.testbit k n).
Proof. intros Hn. unfold resetbits. rewrite u8_testbit, Z.land_spec, u8_testbit, Z.lnot_spec by lia. done. Qed.

Section Colours.
Context {N : Type} `{LuaNumber N}.
Implicit Types (g : gstate N) (x y : GCObject N) (v : TValue N).

Lemma iswhite_bits x : iswhite x = Z.testbit (o_marked x) 0 || Z.testbit (o_marked x) 1.
Proof. apply land_white. Qed.
Lemma isblack_bits x : isblack x = Z.testbit (o_marked x) 2.
Proof. by apply land_bit. Qed.

(** The bits that the collector looks at, for each operation on marks. *)
Definition bit x (n : Z) : bool := Z.testbit (o_marked x) n.
Lemma bit_white2gray x n : 0 <= n < 8 -> bit (white2gray x) n = bit x n && negb (n <? 2).
Proof.
  intros Hn. unfold bit, white2gray. cbn. rewrite resetbits_testbit by done. f_equal. f_equal. unfold WHITEBITS. replace 3 with (Z.ones 2) by done.
  rewrite Z.testbit_ones_nonneg by lia. done.
Qed.
Lemma bit_gray2black x n : 0 <= n < 8 -> bit (gray2black x) n = bit x n || (n =? 2).
Proof. intros Hn. unfold bit, gray2black. cbn. by rewrite setbit_testbit by done. Qed.
Lemma bit_black2gray x n : 0 <= n < 8 -> bit (black2gray x) n = bit x n && negb (n =? 2).
Proof. intros Hn. unfold bit, black2gray. cbn. rewrite resetbits_testbit, shift1_testbit by (done || lia). done. Qed.
Lemma bit_makewhite g x n : 0 <= n < 8 ->
  bit (makewhite g x) n = if n <? 2 then Z.testbit (currentwhite g) n else if n =? 2 then false else bit x n.
Proof.
  intros Hn. unfold bit, makewhite, luaC_white. cbn. rewrite u8_testbit, Z.lor_spec, Z.land_spec, u8_testbit, Z.land_spec by done.
  unfold maskmarks. rewrite u8_testbit, Z.lnot_spec, Z.lor_spec, shift1_testbit by (done || lia). unfold BLACKBIT, WHITEBITS. replace 3 with (Z.ones 2) by done.
  rewrite !Z.testbit_ones_nonneg by lia. destruct (Z.ltb_spec n 2), (Z.eqb_spec n 2); cbn; rewrite ?andb_true_r, ?andb_false_r, ?orb_false_r; (done || lia).
Qed.
Lemma bit_changewhite x n : 0 <= n < 8 -> bit (changewhite x) n = xorb (bit x n) (n <? 2).
Proof.
  intros Hn. unfold bit, changewhite. cbn. rewrite Z.lxor_spec. f_equal. unfold WHITEBITS. replace 3 with (Z.ones 2) by done. by rewrite Z.testbit_ones_nonneg by lia.
Qed.

(** The current white is one of the two, and fixed objects count as not of
    the other. *)
Definition white_ok g : Prop := currentwhite g = 33 \/ currentwhite g = 34.
(** The bit of the current white, and of the other. *)
Definition cw g : Z := if currentwhite g =? 33 then 0 else 1.
Definition ow g : Z := 1 - cw g.

(** What the sweep keeps. *)
Definition alive g x : Prop := bit x FIXEDBIT = true \/ bit x (ow g) = false.
Lemma alive_sweep g x : white_ok g -> negb (Z.land (Z.lxor (o_marked x) WHITEBITS) (otherwhite g) =? 0) = true <-> alive g x.
Proof.
  intros Hw. unfold alive, ow, cw, bit, otherwhite, FIXEDBIT.
  assert (forall b, 0 <= b < 2 -> negb (Z.land (Z.lxor (o_marked x) 3) (Z.lor (Z.shiftl 1 5) (Z.shiftl 1 b)) =? 0) =
    (Z.testbit (o_marked x) 5 || negb (Z.testbit (o_marked x) b))) as Hb.
  { intros b Hb. destruct (Z.testbit (o_marked x) 5 || negb (Z.testbit (o_marked x) b)) eqn:E.
    - apply negb_true_iff, Z.eqb_neq. intros H0. apply (f_equal Z.testbit) in H0. apply orb_true_iff in E as [E|E].
      + apply (f_equal (fun f => f 5)) in H0. rewrite Z.land_spec, Z.lxor_spec, Z.lor_spec, E in H0. done.
      + apply (f_equal (fun f => f b)) in H0. rewrite Z.land_spec, Z.lxor_spec, Z.lor_spec, !shift1_testbit, Z.eqb_refl, orb_true_r, Z.bits_0 in H0 by lia.
        apply negb_true_iff in E. rewrite E in H0. destruct (decide (b = 0)) as [->|]; [done|]. by replace b with 1 in H0 by lia.
    - apply negb_false_iff, Z.eqb_eq. apply orb_false_iff in E as [E5 Eb]. apply negb_false_iff in Eb. apply Z.bits_inj'. intros n Hn.
      rewrite Z.land_spec, Z.lxor_spec, Z.lor_spec, !shift1_testbit, Z.bits_0 by lia. destruct (Z.eqb_spec n 5) as [->|]; [by rewrite E5|].
      destruct (Z.eqb_spec n b) as [->|]; [|by rewrite andb_false_r]. rewrite Eb. destruct (decide (b = 0)) as [->|]; [done|]. by replace b with 1 by lia. }
  unfold WHITEBITS. destruct Hw as [-> | ->]; cbn [Z.eqb Pos.eqb].
  - change (Z.lxor 33 3) with (Z.lor (Z.shiftl 1 5) (Z.shiftl 1 1)). rewrite Hb by lia. cbn. rewrite orb_true_iff, negb_true_iff. done.
  - change (Z.lxor 34 3) with (Z.lor (Z.shiftl 1 5) (Z.shiftl 1 0)). rewrite Hb by lia. cbn. rewrite orb_true_iff, negb_true_iff. done.
Qed.

Lemma isdead_bit g x : white_ok g -> isdead g x = bit x (ow g).
Proof.
  intros Hw. unfold isdead. rewrite land_white, !Z.land_spec. unfold otherwhite, ow, cw, bit. destruct Hw as [-> | ->]; cbn; by rewrite ?andb_false_r, ?andb_true_r, ?orb_false_r.
Qed.
Lemma cw_range g : cw g = 0 /\ ow g = 1 \/ cw g = 1 /\ ow g = 0.
Proof. unfold ow, cw. destruct (_ =? _); lia. Qed.
Lemma cw_bits g n : white_ok g -> 0 <= n < 2 -> Z.testbit (currentwhite g) n = (n =? cw g).
Proof. intros Hw Hn. unfold cw. destruct Hw as [-> | ->]; (destruct (decide (n = 0)) as [->|]; [done|]); by replace n with 1 by lia. Qed.

(** White of this cycle and nothing else. *)
Definition clean g x : Prop := bit x (cw g) = true /\ bit x (ow g) = false /\ isblack x = false.
Lemma makewhite_clean g x : white_ok g -> clean g (makewhite g x).
Proof.
  intros Hw. assert (forall n, 0 <= n < 2 -> bit (makewhite g x) n = (n =? cw g)) as Hb.
  { intros n Hn. rewrite bit_makewhite by lia. rewrite (proj2 (Z.ltb_lt n 2)) by lia. by apply cw_bits. }
  unfold clean. rewrite isblack_bits. fold (bit (makewhite g x) 2). rewrite (bit_makewhite g x 2) by lia.
  destruct (cw_range g) as [[E1 E2]|[E1 E2]]; rewrite E1, E2, !Hb, E1 by lia; done.
Qed.
Lemma clean_alive g x : clean g x -> alive g x.
Proof. intros (_ & ? & _). by right. Qed.
End Colours.

(** * References *)

Section Refs.
Context {N : Type} `{LuaNumber N}.
Implicit Types (h : gmap Z (GCObject N)) (x y : GCObject N) (v : TValue N) (b : gcbody N) (t : Table N).

(** A reference and the type of the object there. *)
Definition vrefs v : list (Z * Z) := match v with Str p => [(p, LUA_TSTRING)] | GC ty p => [(p, ty)] | _ => [] end.
Definition ptr (p ty : Z) : list (Z * Z) := if p =? 0 then [] else [(p, ty)].
Definition key_refs (k : TKey N) : list (Z * Z) := match k with Key v => vrefs v | DeadKey p => [(p, LUA_TNIL)] end.
Definition node_refs (n : Node N) : list (Z * Z) := if ttisnil (i_val n) then [] else key_refs (i_key n) ++ vrefs (i_val n).
Definition table_refs t : list (Z * Z) := (array t ≫= vrefs) ++ (node t ≫= node_refs).

Definition slot h (th i : Z) : option (TValue N) :=
  match h !! th with
  | Some x => match o_body x with TTHREAD t => if 0 <=? i then stack t !! Z.to_nat i else None | _ => None end
  | None => None
  end.
Definition live_stack (t : lua_State N) : list (TValue N) := take (Z.to_nat (top t)) (stack t).
Definition refs h b : list (Z * Z) :=
  match b with
  | TSTRING _ _ => []
  | TUSERDATA m env _ => ptr m LUA_TTABLE ++ [(env, LUA_TTABLE)]
  | TUPVAL (UClosed v) => vrefs v
  | TUPVAL (UOpen th i _ _) => from_option vrefs [] (slot h th i)
  | TCCLOSURE env ups => (env, LUA_TTABLE) :: (ups ≫= vrefs)
  | TLCLOSURE env p uvs => (env, LUA_TTABLE) :: (p, LUA_TPROTO) :: ((fun u => (u, LUA_TUPVAL)) <$> uvs)
  | TTABLE m t => ptr m LUA_TTABLE ++ table_refs t
  | TTHREAD t => vrefs (l_gt t) ++ (live_stack t ≫= vrefs)
  | TPROTO f => ptr (pr_source f) LUA_TSTRING ++ (pr_k f ≫= vrefs) ++ (pr_upvalues f ≫= fun p => ptr p LUA_TSTRING) ++
      (pr_p f ≫= fun p => ptr p LUA_TPROTO) ++ (pr_locvars f ≫= fun p => ptr p LUA_TSTRING)
  end.

(** A value refers to strings, tables, functions, userdata and threads. *)
Definition value_ok v : Prop := match v with GC ty _ => 5 <= ty <= 8 | _ => True end.

(** Following the links of a node vector comes to an end. *)
Fixpoint walk (fuel : nat) (nd : list (Node N)) (i : nat) : bool :=
  match fuel with
  | O => false
  | S fuel => match nd !! i with None => false | Some n => match i_next n with None => true | Some j => walk fuel nd j end end
  end.
Lemma walk_find fuel (P : TKey N -> bool) nd i : walk fuel nd i = true -> exists o, chain_find fuel P nd i = Ok o /\ forall j, o = Some j -> is_Some (nd !! j).
Proof.
  revert i. induction fuel as [|fuel IH]; intros i Hw; [done|]. cbn in *. destruct (nd !! i) as [n|] eqn:E; [|done].
  destruct (P (i_key n)); [exists (Some i); split; [done|]; intros j [= <-]; by exists n|]. destruct (i_next n) as [j|]; [by apply IH|]. by exists None.
Qed.

Definition node_ok (n : Node N) : Prop := i_val n <> Nil -> value_ok (i_val n) /\ exists k, i_key n = Key k /\ value_ok k.
(** The shape of the vectors of a table. *)
Record table_ok t : Prop := {
  tk_array : Z.of_nat (length (array t)) = sizearray t /\ Forall value_ok (array t);
  tk_size : 0 <= lsizenode t /\ Z.of_nat (length (node t)) = sizenode t;
  tk_walk i : (i < length (node t))%nat -> walk (length (node t)) (node t) i = true;
  tk_nodes : Forall node_ok (node t)
}.

Lemma getstr_total hash t ts : table_ok t -> exists o, luaH_getstr hash t ts = Ok o /\ forall s, o = Some s -> exists j, s = SNode j /\ is_Some (node t !! j).
Proof.
  intros [_ [Hl Hs] Hw _]. unfold luaH_getstr, find_node, hashstr, hashpow2. set (i := Z.to_nat _).
  assert (i < length (node t))%nat as Hi.
  { unfold i, lmod, twoto in *. unfold sizenode, twoto in Hs. rewrite Z.shiftl_1_l in *. replace (2 ^ lsizenode t - 1) with (Z.ones (lsizenode t)) by (rewrite Z.ones_equiv; lia).
    rewrite Z.land_ones by done. pose proof (Z.mod_pos_bound (hash ts) (2 ^ lsizenode t) ltac:(apply Z.pow_pos_nonneg; lia)). lia. }
  destruct (walk_find _ (is_str ts) _ _ (Hw i Hi)) as (o & -> & Ho). cbn. eexists. split; [done|]. destruct o as [j|]; [|done]. intros s [= <-]. exists j. split; [done|]. by apply Ho.
Qed.

Definition thread_ok (t : lua_State N) : Prop :=
  value_ok (l_gt t) /\ Forall value_ok (live_stack t) /\ 0 <= top t /\ foldl Z.max (top t) (ci_tops t) < Z.of_nat (length (stack t)).

Definition body_ok h b : Prop :=
  match b with
  | TUPVAL (UClosed v) => value_ok v
  | TUPVAL (UOpen th i _ _) => exists x (t : lua_State N), h !! th = Some x /\ o_body x = TTHREAD t /\ 0 <= i < top t
  | TCCLOSURE _ ups => Forall value_ok ups
  | TTABLE _ t => table_ok t
  | TTHREAD t => thread_ok t
  | TPROTO f => Forall value_ok (pr_k f)
  | _ => True
  end.
Definition heap_ok h : Prop := forall p x, h !! p = Some x -> body_ok h (o_body x).

(** * Changes that the collector makes to an object *)

(** An entry of a table can be emptied, and the key of an empty one changed. *)
Definition node_sim (n n' : Node N) : Prop := n' = n \/ i_next n' = i_next n /\ i_val n' = Nil.
Definition value_sim v v' : Prop := v' = v \/ v' = Nil.
Record table_sim t t' : Prop := {
  ts_array : Forall2 value_sim (array t) (array t');
  ts_node : Forall2 node_sim (node t) (node t');
  ts_sizes : sizearray t' = sizearray t /\ lsizenode t' = lsizenode t /\ isdummy t' = isdummy t
}.
(** The unused part of a stack can be cleared and cut. *)
Record thread_sim (t t' : lua_State N) : Prop := {
  hs_gt : l_gt t' = l_gt t;
  hs_top : top t' = top t;
  hs_tops : ci_tops t' = ci_tops t;
  hs_open : openupval t' = openupval t;
  hs_stack : live_stack t' = live_stack t;
  hs_room : foldl Z.max (top t) (ci_tops t) < Z.of_nat (length (stack t)) -> foldl Z.max (top t) (ci_tops t) < Z.of_nat (length (stack t'))
}.
Inductive body_sim : gcbody N -> gcbody N -> Prop :=
  | sim_same b : body_sim b b
  | sim_table m t t' : table_sim t t' -> body_sim (TTABLE m t) (TTABLE m t')
  | sim_thread (t t' : lua_State N) : thread_sim t t' -> body_sim (TTHREAD t) (TTHREAD t').
Definition obj_sim x y : Prop := (o_next y = o_next x /\ bit y FIXEDBIT = bit x FIXEDBIT) /\ body_sim (o_body x) (o_body y).
Definition heap_sim h h' : Prop := forall p, option_Forall2 obj_sim (h !! p) (h' !! p).

Lemma node_sim_trans n1 n2 n3 : node_sim n1 n2 -> node_sim n2 n3 -> node_sim n1 n3.
Proof. intros [->|[E1 V1]] [->|[E2 V2]]; [by left|by right|by right|right; by rewrite E2]. Qed.
Lemma value_sim_trans v1 v2 v3 : value_sim v1 v2 -> value_sim v2 v3 -> value_sim v1 v3.
Proof. intros [->| ->] [->| ->]; (by left) || by right. Qed.
Lemma Forall2_same {A} (R : A -> A -> Prop) (l : list A) : (forall a, R a a) -> Forall2 R l l.
Proof. intros HR. induction l; by constructor. Qed.
Lemma Forall2_compose {A} (R : A -> A -> Prop) (l1 l2 l3 : list A) : (forall a1 a2 a3, R a1 a2 -> R a2 a3 -> R a1 a3) -> Forall2 R l1 l2 -> Forall2 R l2 l3 -> Forall2 R l1 l3.
Proof. intros HR H12. revert l3. induction H12; intros l3 H23; inversion H23; subst; constructor; eauto. Qed.
Lemma table_sim_refl t : table_sim t t.
Proof. split; [apply Forall2_same; by left|apply Forall2_same; by left|done]. Qed.
Lemma table_sim_trans t1 t2 t3 : table_sim t1 t2 -> table_sim t2 t3 -> table_sim t1 t3.
Proof.
  intros [A1 B1 (C1 & D1 & E1)] [A2 B2 (C2 & D2 & E2)]. split.
  - eapply Forall2_compose; [apply value_sim_trans|done..].
  - eapply Forall2_compose; [apply node_sim_trans|done..].
  - by rewrite C2, D2, E2.
Qed.
Lemma thread_sim_refl (t : lua_State N) : thread_sim t t.
Proof. by split. Qed.
Lemma thread_sim_trans (t1 t2 t3 : lua_State N) : thread_sim t1 t2 -> thread_sim t2 t3 -> thread_sim t1 t3.
Proof. intros [A1 B1 C1 D1 E1 F1] [A2 B2 C2 D2 E2 F2]. split; try congruence. intros Hl. rewrite B1, C1 in F2. auto. Qed.
Lemma body_sim_trans b1 b2 b3 : body_sim b1 b2 -> body_sim b2 b3 -> body_sim b1 b3.
Proof.
  intros H1 H2. destruct H1; [done|inversion H2; subst; constructor..]; try done; [by eapply table_sim_trans|by eapply thread_sim_trans].
Qed.
Lemma heap_sim_refl h : heap_sim h h.
Proof. intros p. destruct (h !! p); constructor. by repeat constructor. Qed.
Lemma sim_marked x y : o_next y = o_next x -> o_body y = o_body x -> bit y FIXEDBIT = bit x FIXEDBIT -> obj_sim x y.
Proof. intros En Eb Ef. split; [done|]. rewrite Eb. constructor. Qed.
Lemma heap_sim_trans h1 h2 h3 : heap_sim h1 h2 -> heap_sim h2 h3 -> heap_sim h1 h3.
Proof.
  intros H1 H2 p. specialize (H1 p). specialize (H2 p). destruct H1 as [x y [[E1 F1] B1]|]; inversion H2 as [? z [[E2 F2] B2]|]; subst; constructor.
  split; [split; congruence|by eapply body_sim_trans].
Qed.
Lemma heap_sim_insert h p x y : h !! p = Some x -> obj_sim x y -> heap_sim h (<[p := y]> h).
Proof.
  intros E Hs q. destruct (decide (p = q)) as [<-|Hne]; [rewrite lookup_insert_eq, E; by constructor|]. rewrite lookup_insert_ne by done. apply heap_sim_refl.
Qed.
Lemma heap_sim_l h h' p x : heap_sim h h' -> h !! p = Some x -> exists y, h' !! p = Some y /\ obj_sim x y.
Proof. intros Hs E. specialize (Hs p). rewrite E in Hs. inversion Hs; subst. eauto. Qed.
Lemma heap_sim_r h h' p y : heap_sim h h' -> h' !! p = Some y -> exists x, h !! p = Some x /\ obj_sim x y.
Proof. intros Hs E. specialize (Hs p). rewrite E in Hs. inversion Hs; subst. eauto. Qed.
Lemma heap_sim_dom h h' : heap_sim h h' -> dom h' = dom h.
Proof. intros Hs. apply set_eq. intros p. rewrite !elem_of_dom. specialize (Hs p). by destruct Hs. Qed.
Lemma obj_sim_tt x y : obj_sim x y -> gch_tt y = gch_tt x.
Proof. intros [_ Hb]. unfold gch_tt. by destruct Hb. Qed.

(** What stays right, and that references only go away. *)
Lemma walk_sim fuel nd nd' i : Forall2 node_sim nd nd' -> walk fuel nd' i = walk fuel nd i.
Proof.
  intros Hs. revert i. induction fuel as [|fuel IH]; intros i; [done|]. cbn. pose proof (Forall2_lookup_l node_sim nd nd' i) as Hl.
  destruct (nd !! i) as [n|] eqn:E.
  - destruct (Hl n Hs eq_refl) as (n' & -> & [->|[-> _]]); destruct (i_next n); done.
  - apply lookup_ge_None in E. rewrite (Forall2_length _ _ _ Hs) in E. by rewrite (proj2 (lookup_ge_None nd' i)).
Qed.
Lemma table_sim_ok t t' : table_sim t t' -> table_ok t -> table_ok t'.
Proof.
  intros [Ha Hn (E1 & E2 & E3)] [[La Va] [Hl Hs] Hw Hno]. pose proof (Forall2_length _ _ _ Ha). pose proof (Forall2_length _ _ _ Hn) as Ln. split.
  - split; [rewrite E1; congruence|]. clear -Ha Va. induction Ha as [|v v' l l' Hv Ha IH]; [done|]. apply Forall_cons in Va as [? ?]. constructor; [by destruct Hv as [->| ->]|by apply IH].
  - unfold sizenode in *. rewrite E2. split; [done|]. congruence.
  - intros i Hi. rewrite <- Ln in Hi |- *. rewrite (walk_sim _ _ _ _ Hn). by apply Hw.
  - clear -Hn Hno. induction Hn as [|n n' l l' Hv Hn IH]; [done|]. apply Forall_cons in Hno as [? ?]. constructor; [|by apply IH].
    destruct Hv as [->|[_ Hv]]; [done|]. intros ?. by destruct Hv.
Qed.
Lemma table_sim_refs t t' r : table_sim t t' -> r ∈ table_refs t' -> r ∈ table_refs t.
Proof.
  intros [Ha Hn _]. unfold table_refs. rewrite !elem_of_app. intros [Hr|Hr].
  - left. induction Ha as [|v v' l l' Hv Ha IH]; [done|]. cbn in *. rewrite elem_of_app in *. destruct Hr as [Hr|Hr]; [|right; by apply IH]. left.
    destruct Hv as [->| ->]; [done|]. by apply not_elem_of_nil in Hr.
  - right. induction Hn as [|n n' l l' Hv Hn IH]; [done|]. cbn in *. rewrite elem_of_app in *. destruct Hr as [Hr|Hr]; [|right; by apply IH]. left.
    destruct Hv as [->|[_ Hv]]; [done|]. unfold node_refs in Hr. rewrite Hv in Hr. by apply not_elem_of_nil in Hr.
Qed.
Lemma thread_sim_ok (t t' : lua_State N) : thread_sim t t' -> thread_ok t -> thread_ok t'.
Proof. intros [A1 B1 C1 D1 E1 F1] (V1 & V2 & V3 & V4). unfold thread_ok. rewrite A1, B1, C1, E1. auto. Qed.
Lemma heap_sim_ok h h' : heap_sim h h' -> heap_ok h -> heap_ok h'.
Proof.
  intros Hs Hok p y Ey. destruct (heap_sim_r _ _ _ _ Hs Ey) as (x & Ex & _ & Hb). specialize (Hok p x Ex). destruct Hb as [b|m t t' Ht|t t' Ht].
  - destruct b; try done. destruct v as [th i pv nx|]; [|done]. destruct Hok as (z & t & Ez & Et & Hi). destruct (heap_sim_l _ _ _ _ Hs Ez) as (z' & Ez' & _ & Hb).
    rewrite Et in Hb. exists z'. inversion Hb as [|?|? t' Ht]; subst; [by exists t|]. exists t'. by rewrite (hs_top _ _ Ht).
  - by eapply table_sim_ok.
  - by eapply thread_sim_ok.
Qed.
Lemma slot_sim h h' th i x (t : lua_State N) : heap_sim h h' -> h !! th = Some x -> o_body x = TTHREAD t -> 0 <= i < top t -> slot h' th i = slot h th i.
Proof.
  intros Hs E Et Hi. destruct (heap_sim_l _ _ _ _ Hs E) as (y & Ey & _ & Hb). unfold slot. rewrite E, Ey, Et in *. rewrite (proj2 (Z.leb_le _ _)) by lia.
  inversion Hb as [|?|? t' Ht]; subst; [done|]. pose proof (hs_stack _ _ Ht) as Hl. unfold live_stack in Hl. rewrite (hs_top _ _ Ht) in Hl.
  apply (f_equal (fun l => l !! Z.to_nat i)) in Hl. by rewrite !lookup_take_lt in Hl by lia.
Qed.
Lemma refs_sim h h' p x y r : heap_sim h h' -> heap_ok h -> h !! p = Some x -> h' !! p = Some y -> r ∈ refs h' (o_body y) -> r ∈ refs h (o_body x).
Proof.
  intros Hs Hok Ex Ey. destruct (heap_sim_l _ _ _ _ Hs Ex) as (y' & Ey' & _ & Hb). rewrite Ey in Ey'. injection Ey' as <-. specialize (Hok p x Ex).
  destruct Hb as [b|m t t' Ht|t t' Ht]; cbn.
  - destruct b; try done. destruct v as [th i pv nx|]; [|done]. destruct Hok as (z & t & Ez & Et & Hi). cbn. by rewrite (slot_sim _ _ _ _ _ _ Hs Ez Et Hi).
  - rewrite !elem_of_app. intros [?|?]; [by left|right; by eapply table_sim_refs].
  - by rewrite (hs_gt _ _ Ht), (hs_stack _ _ Ht).
Qed.
End Refs.

Section Wf.
Context {N : Type} `{LuaNumber N}.
Implicit Types (g : gstate N) (h : gmap Z (GCObject N)) (x y : GCObject N) (v : TValue N) (b : gcbody N) (E D : Z -> Prop) (G GA W L : list Z).

(** * Lists through a field of the objects *)

Fixpoint linked (f : GCObject N -> Z) h (p : Z) L : Prop :=
  match L with
  | [] => p = 0
  | a :: L => p = a /\ a <> 0 /\ exists x, h !! a = Some x /\ linked f h (f x) L
  end.
Lemma linked_ext f h h' p L :
  (forall a x, a ∈ L -> h !! a = Some x -> exists y, h' !! a = Some y /\ f y = f x) -> linked f h p L -> linked f h' p L.
Proof.
  revert p. induction L as [|a L IH]; intros p Hf; [done|]. intros (-> & Ha & x & E & Hl). destruct (Hf a x ltac:(by left) E) as (y & Ey & Efy).
  split; [done|]. split; [done|]. exists y. split; [done|]. rewrite Efy. apply IH; [|done]. intros b z Hb. apply Hf. by right.
Qed.
Lemma linked_insert f h p L a y : a ∉ L -> linked f h p L -> linked f (<[a := y]> h) p L.
Proof. intros Ha. apply linked_ext. intros b x Hb E. exists x. rewrite lookup_insert_ne; [done|]. by intros ->. Qed.
Lemma linked_same f h p L a x y : h !! a = Some x -> f y = f x -> linked f h p L -> linked f (<[a := y]> h) p L.
Proof.
  intros Ea Ef. apply linked_ext. intros b z Hb E. destruct (decide (a = b)) as [<-|Hne].
  - exists y. rewrite lookup_insert_eq. split; [done|]. congruence.
  - exists z. by rewrite lookup_insert_ne.
Qed.
Lemma linked_head f h p L : linked f h p L -> p = match L with [] => 0 | a :: _ => a end.
Proof. destruct L; [done|]. by intros [? _]. Qed.
Lemma linked_some f h p L a : linked f h p L -> a ∈ L -> is_Some (h !! a).
Proof.
  revert p. induction L as [|b L IH]; intros p Hl Ha; [by apply not_elem_of_nil in Ha|]. destruct Hl as (_ & _ & x & E & Hl).
  apply elem_of_cons in Ha as [->|Ha]; [by exists x|by eapply IH].
Qed.

(** * Colours of objects in the heap *)

Definition nonwhite h (p : Z) : Prop := exists x, h !! p = Some x /\ iswhite x = false.
(** All that the object refers to has been marked. *)
Definition refs_marked h b : Prop := forall c t, (c, t) ∈ refs h b -> nonwhite h c.

(** The types whose gray objects are in a list. *)
Definition listed b : bool := match b with TCCLOSURE _ _ | TLCLOSURE _ _ _ | TTABLE _ _ | TTHREAD _ | TPROTO _ => true | _ => false end.
Definition is_open b : bool := match b with TUPVAL (UOpen _ _ _ _) => true | _ => false end.
Definition is_thread b : bool := match b with TTHREAD _ => true | _ => false end.

(** The colour of an object is right: [A] says that open upvalues have had
    their values marked, as they have in the atomic step. *)
Record fine (A : Prop) h L (p : Z) x : Prop := {
  fi_gray : isgray x = true -> (listed (o_body x) = true -> p ∈ L) /\ match o_body x with TUSERDATA _ _ _ | TUPVAL (UClosed _) => False | _ => True end;
  fi_black : isblack x = true -> refs_marked h (o_body x) /\ is_thread (o_body x) = false /\ is_open (o_body x) = false;
  fi_open : A -> is_open (o_body x) = true -> iswhite x = false -> refs_marked h (o_body x)
}.

(** A gray object that will not be traversed again in this cycle. *)
Definition settled h x : Prop :=
  match o_body x with
  | TTHREAD _ => refs_marked h (o_body x)
  | TTABLE m t =>
      (forall c ty, (c, ty) ∈ ptr m LUA_TTABLE -> nonwhite h c) /\
      (bit x VALUEWEAKBIT = true \/ forall c ty, (c, ty) ∈ array t ≫= vrefs -> nonwhite h c)
  | _ => True
  end.

(** Exempt from [fine] are the objects in [E], from [settled] those in [D]. *)
Record marking E D (A : Prop) g G GA W : Prop := {
  mk_white : white_ok g;
  mk_null : heap g !! 0 = None;
  mk_ok : heap_ok (heap g);
  mk_refs p x c t : heap g !! p = Some x -> (c, t) ∈ refs (heap g) (o_body x) -> exists y, heap g !! c = Some y /\ gch_tt y = t;
  mk_colour p x : heap g !! p = Some x -> bit x (ow g) = false /\ (iswhite x = true -> isblack x = false);
  mk_lists : linked o_gclist (heap g) (gray g) G /\ linked o_gclist (heap g) (grayagain g) GA /\ linked o_gclist (heap g) (weak g) W;
  mk_nodup : NoDup (G ++ GA ++ W);
  mk_listed p : p ∈ G ++ GA ++ W -> exists x, heap g !! p = Some x /\ iswhite x = false /\ listed (o_body x) = true /\ (p ∈ G \/ ~ E p -> isgray x = true);
  mk_fine p x : heap g !! p = Some x -> ~ E p -> fine A (heap g) (G ++ GA ++ W) p x;
  mk_settled p x : heap g !! p = Some x -> p ∈ GA ++ W -> ~ D p -> settled (heap g) x;
  mk_weaks p x : heap g !! p = Some x -> p ∈ W -> exists m t, o_body x = TTABLE m t
}.

(** How the heap changes while objects are marked. *)
Record marked g g' : Prop := {
  md_sim : heap_sim (heap g) (heap g');
  md_mono p : nonwhite (heap g) p -> nonwhite (heap g') p;
  md_owners : owners g' = owners g;
  md_phase : phase g' = phase g;
  md_roots : roots g' = roots g
}.

Definition whites h : nat := length (filter (fun kv => iswhite kv.2 = true) (map_to_list h)).

Lemma marked_refl g : marked g g.
Proof. split; try done. apply heap_sim_refl. Qed.
Lemma marked_trans g1 g2 g3 : marked g1 g2 -> marked g2 g3 -> marked g1 g3.
Proof. intros [A1 B1 C1 D1 E1] [A2 B2 C2 D2 E2]. split; [by eapply heap_sim_trans|auto|congruence..]. Qed.

Lemma filter_perm_length {A} (P : A -> Prop) `{!forall a, Decision (P a)} (l l' : list A) : l ≡ₚ l' -> length (filter P l) = length (filter P l').
Proof. intros Hp. by rewrite Hp. Qed.
Lemma whites_insert h p x y : h !! p = Some x ->
  (whites (<[p := y]> h) + (if iswhite x then 1 else 0) = whites h + (if iswhite y then 1 else 0))%nat.
Proof.
  intros E. unfold whites.
  rewrite (filter_perm_length _ (map_to_list h) ((p, x) :: map_to_list (delete p h))) by (rewrite <- (map_to_list_insert (delete p h)), insert_delete_id by (done || apply lookup_delete_eq); done).
  rewrite (filter_perm_length _ (map_to_list (<[p := y]> h)) ((p, y) :: map_to_list (delete p h))) by (rewrite <- (map_to_list_insert (delete p h)), insert_delete_eq by apply lookup_delete_eq; done).
  rewrite !filter_cons. repeat case_decide; cbn in *; destruct (iswhite x), (iswhite y); try congruence; cbn; lia.
Qed.

Lemma nonwhite_insert h p x y c : h !! p = Some x -> (iswhite x = false -> iswhite y = false) -> nonwhite h c -> nonwhite (<[p := y]> h) c.
Proof.
  intros E Hw (z & Ez & Hz). destruct (decide (p = c)) as [<-|Hne]; [|exists z; by rewrite lookup_insert_ne]. exists y. rewrite lookup_insert_eq. split; [done|].
  apply Hw. congruence.
Qed.

Lemma refs_marked_sim h h' p x y :
  heap_sim h h' -> heap_ok h -> (forall c, nonwhite h c -> nonwhite h' c) -> h !! p = Some x -> h' !! p = Some y -> refs_marked h (o_body x) -> refs_marked h' (o_body y).
Proof. intros Hs Hok Hm Ex Ey Hr c t Hc. eapply Hm, Hr, refs_sim; eauto. Qed.

Lemma gray_nonwhite x : isgray x = true -> iswhite x = false.
Proof. unfold isgray. intros [_ ?%negb_true_iff]%andb_true_iff. done. Qed.
Lemma body_sim_listed b b' : body_sim b b' -> listed b' = listed b /\ is_open b' = is_open b /\ is_thread b' = is_thread b.
Proof. by intros []. Qed.

(** An object keeps the colour it has, with the rest of the heap marked further. *)
Lemma fine_sim (A : Prop) h h' L L' p x y :
  heap_sim h h' -> heap_ok h -> (forall c, nonwhite h c -> nonwhite h' c) -> (forall c, c ∈ L -> c ∈ L') -> h !! p = Some x -> h' !! p = Some y ->
  iswhite y = iswhite x /\ isblack y = isblack x -> fine A h L p x -> fine A h' L' p y.
Proof.
  intros Hs Hok Hm HL Ex Ey [C3 C2] [F1 F2 F3]. destruct (heap_sim_l _ _ _ _ Hs Ex) as (y' & Ey' & _ & Hb). rewrite Ey in Ey'. injection Ey' as <-.
  destruct (body_sim_listed _ _ Hb) as (Bl & Bo & Bt).
  assert (isgray y = isgray x) as C1 by (unfold isgray; by rewrite C2, C3).
  assert (refs_marked h (o_body x) -> refs_marked h' (o_body y)) as Hr by (by eapply refs_marked_sim).
  split; rewrite ?C1, ?C2, ?C3, ?Bl, ?Bo, ?Bt.
  - intros Hg. destruct (F1 Hg) as [Fl Fk]. split; [auto|]. by destruct Hb.
  - intros Hbl. destruct (F2 Hbl) as (? & ? & ?). auto.
  - auto.
Qed.
Lemma settled_sim h h' p x y :
  heap_sim h h' -> heap_ok h -> (forall c, nonwhite h c -> nonwhite h' c) -> h !! p = Some x -> h' !! p = Some y -> bit y VALUEWEAKBIT = bit x VALUEWEAKBIT ->
  settled h x -> settled h' y.
Proof.
  intros Hs Hok Hm Ex Ey Em Hset. destruct (heap_sim_l _ _ _ _ Hs Ex) as (y' & Ey' & _ & Hb). rewrite Ey in Ey'. injection Ey' as <-.
  assert (refs_marked h (o_body x) -> refs_marked h' (o_body y)) as Hr by (by eapply refs_marked_sim).
  unfold settled in *. destruct Hb as [b|m t t' Ht|t t' Ht]; [|destruct Hset as [H1 H2]|by apply Hr].
  - destruct b; try done; [|by apply Hr]. destruct Hset as [H1 H2]. rewrite Em. split; [eauto|]. destruct H2 as [?|H2]; [by left|right; eauto].
  - rewrite Em. split; [eauto|]. destruct H2 as [?|H2]; [by left|right]. intros c ty Hc. apply Hm, (H2 c ty).
    pose proof (ts_array _ _ Ht) as Ha. clear -Ha Hc. induction Ha as [|v v' l l' Hv Ha IH]; [done|]. cbn in *. rewrite elem_of_app in *.
    destruct Hc as [Hc|Hc]; [left|right; by apply IH]. destruct Hv as [->| ->]; [done|]. by apply not_elem_of_nil in Hc.
Qed.

Lemma marking_weaken E E' D D' (A A' : Prop) g G GA W :
  (forall p, E p -> E' p) -> (forall p, D p -> D' p) -> (A' -> A) -> marking E D A g G GA W -> marking E' D' A' g G GA W.
Proof.
  intros HE HD HA [? ? ? ? ? ? ? L F S ?]. split; try done; [| |eauto].
  - intros q Hq. destruct (L q Hq) as (z & ? & ? & ? & Hg). exists z. split_and!; [done..|]. intros Hc. apply Hg. destruct Hc; auto.
  - intros p x Ex Hp. destruct (F p x Ex) as [F1 F2 F3]; [auto|]. split; eauto.
Qed.

(** * Changing one object *)

Definition also (p : Z) E : Z -> Prop := fun q => q = p \/ E q.

(** An exempt object changes its marks, or an object its body the way the
    collector does. *)
Lemma marking_update E D A g G GA W p x y :
  marking E D A g G GA W -> E p \/ iswhite y = iswhite x /\ isblack y = isblack x -> heap g !! p = Some x -> obj_sim x y -> o_gclist y = o_gclist x ->
  (iswhite x = false -> iswhite y = false) -> bit y (ow g) = false -> (iswhite y = true -> isblack y = false) -> (p ∈ G -> isgray y = true) ->
  (p ∈ GA ++ W -> ~ D p -> bit y VALUEWEAKBIT = bit x VALUEWEAKBIT) ->
  let g' := set_heap (<[p := y]> (heap g)) g in
  marking E D A g' G GA W /\ marked g g' /\ (whites (heap g') + (if iswhite x then 1 else 0) = whites (heap g) + (if iswhite y then 1 else 0))%nat.
Proof.
  intros M HE Ex Hs Eg Hw Hb Hbl HG Hbit g'. pose proof (heap_sim_insert _ _ _ _ Ex Hs) as Hsim.
  assert (forall c, nonwhite (heap g) c -> nonwhite (<[p := y]> (heap g)) c) as Hmono by (intros c; by eapply nonwhite_insert).
  pose proof (mk_ok _ _ _ _ _ _ _ M) as Hok. split; [|split; [by split|by apply whites_insert]].
  assert (forall q z, <[p := y]> (heap g) !! q = Some z -> q <> p -> heap g !! q = Some z) as Hne by (intros q z Ez Hq; by rewrite lookup_insert_ne in Ez).
  destruct M as [M1 M2 M3 M4 M5 (M6a & M6b & M6c) M7 M8 M9 M10 M11]. split; cbn [g' set_heap heap gray grayagain weak lists].
  - done.
  - rewrite lookup_insert_ne; [done|]. intros ->. congruence.
  - by eapply heap_sim_ok.
  - intros q z c t Ez Hr. destruct (heap_sim_r _ _ _ _ Hsim Ez) as (z0 & Ez0 & _). destruct (M4 q z0 c t Ez0) as (w & Ew & Et); [by eapply refs_sim|].
    destruct (heap_sim_l _ _ _ _ Hsim Ew) as (w' & Ew' & Hw'). exists w'. split; [done|]. by rewrite (obj_sim_tt _ _ Hw').
  - intros q z Ez. change (ow (set_heap (<[p:=y]> (heap g)) g)) with (ow g). destruct (decide (q = p)) as [->|Hq]; [|by apply (M5 q z), Hne].
    rewrite lookup_insert_eq in Ez. by injection Ez as <-.
  - change (gray (set_heap (<[p:=y]> (heap g)) g)) with (gray g). change (grayagain (set_heap (<[p:=y]> (heap g)) g)) with (grayagain g).
    change (weak (set_heap (<[p:=y]> (heap g)) g)) with (weak g). split_and!; by eapply linked_same.
  - done.
  - intros q Hq. destruct (M8 q Hq) as (z & Ez & Hz & Hl & Hgr). destruct (decide (q = p)) as [->|Hqp]; [|exists z; by rewrite lookup_insert_ne].
    rewrite Ex in Ez. injection Ez as <-. exists y. rewrite lookup_insert_eq. destruct Hs as [_ Hs]. destruct (body_sim_listed _ _ Hs) as (-> & _).
    split_and!; [done|by apply Hw|done|]. intros [?|HEp]; [by apply HG|]. destruct HE as [?|[E1 E2]]; [done|]. unfold isgray in *. rewrite E1, E2. apply Hgr. by right.
  - intros q z Ez HEq. destruct (decide (q = p)) as [->|Hqp].
    { rewrite lookup_insert_eq in Ez. injection Ez as <-. destruct HE as [?|Em]; [done|].
      apply (fine_sim _ _ _ (G ++ GA ++ W) (G ++ GA ++ W) p x y Hsim Hok Hmono); [done|done|apply lookup_insert_eq|done|by apply M9]. }
    pose proof (Hne _ _ Ez Hqp) as Ez0. apply (fine_sim _ _ _ (G ++ GA ++ W) (G ++ GA ++ W) q z z Hsim Hok Hmono); [done..|by apply M9].
  - intros q z Ez Hq HDq. destruct (heap_sim_r _ _ _ _ Hsim Ez) as (z0 & Ez0 & _). apply (settled_sim _ _ q z0 z Hsim Hok Hmono Ez0 Ez); [|by apply (M10 q)].
    destruct (decide (q = p)) as [->|Hqp]; [rewrite lookup_insert_eq in Ez; injection Ez as <-; rewrite Ex in Ez0; injection Ez0 as <-; by apply Hbit|].
    rewrite (Hne _ _ Ez Hqp) in Ez0. by injection Ez0 as <-.
  - intros q z Ez Hq. destruct (heap_sim_r _ _ _ _ Hsim Ez) as (z0 & Ez0 & _ & Hb0). destruct (M11 q z0 Ez0 Hq) as (m & t & Eb). rewrite Eb in Hb0. inversion Hb0; subst; eauto.
Qed.

(** An exempt object that is in no list is put in front of one of them. *)
Lemma linked_push f h p L a x : linked f h p L -> a ∉ L -> a <> 0 -> f x = p -> linked f (<[a := x]> h) a (a :: L).
Proof. intros Hl Ha H0 Ef. split; [done|]. split; [done|]. exists x. rewrite lookup_insert_eq. split; [done|]. rewrite Ef. by apply linked_insert. Qed.

Lemma marking_relink E D A g G GA W G' GA' W' l' p x q :
  marking E D A g G GA W -> E p -> heap g !! p = Some x -> iswhite x = false -> listed (o_body x) = true -> p ∉ G ++ GA ++ W ->
  (G' = p :: G /\ GA' = GA /\ W' = W /\ q = gray g /\ l' = mkLists p (grayagain g) (weak g) /\ isgray x = true \/
   G' = G /\ GA' = p :: GA /\ W' = W /\ q = grayagain g /\ l' = mkLists (gray g) p (weak g) /\ D p \/
   G' = G /\ GA' = GA /\ W' = p :: W /\ q = weak g /\ l' = mkLists (gray g) (grayagain g) p /\ D p /\ exists m t, o_body x = TTABLE m t) ->
  let g' := set_lists l' (set_heap (<[p := with_gclist q x]> (heap g)) g) in
  marking E D A g' G' GA' W' /\ marked g g' /\ whites (heap g') = whites (heap g).
Proof.
  intros M HE Ex Hg Hl Hp Hcase g'. assert (obj_sim x (with_gclist q x)) as Hs by (repeat constructor).
  pose proof (heap_sim_insert _ _ _ _ Ex Hs) as Hsim.
  assert (forall c, nonwhite (heap g) c -> nonwhite (<[p := with_gclist q x]> (heap g)) c) as Hmono by (intros c; by eapply nonwhite_insert).
  assert (p <> 0) as H0 by (intros ->; pose proof (mk_null _ _ _ _ _ _ _ M); congruence).
  assert (G' ++ GA' ++ W' ≡ₚ p :: G ++ GA ++ W) as Hperm.
  { destruct Hcase as [(-> & -> & -> & _)|[(-> & -> & -> & _)|(-> & -> & -> & _)]]; [done|by rewrite Permutation_middle|]. rewrite !Permutation_middle. done. }
  pose proof (mk_ok _ _ _ _ _ _ _ M) as Hok. split; [|split; [by split|]]; [|pose proof (whites_insert (heap g) p x (with_gclist q x) Ex) as Hwh; cbn; change (iswhite (with_gclist q x)) with (iswhite x) in Hwh; destruct (iswhite x); lia].
  assert (forall r z, <[p := with_gclist q x]> (heap g) !! r = Some z -> exists z0, heap g !! r = Some z0 /\ o_marked z = o_marked z0 /\ o_body z = o_body z0) as Hback.
  { intros r z Ez. destruct (decide (r = p)) as [->|Hr]; [rewrite lookup_insert_eq in Ez; injection Ez as <-; by exists x|]. rewrite lookup_insert_ne in Ez by done. by exists z. }
  destruct M as [M1 M2 M3 M4 M5 (M6a & M6b & M6c) M7 M8 M9 M10 M11]. split; cbn [g' set_lists set_heap heap gray grayagain weak lists].
  - done.
  - by rewrite lookup_insert_ne.
  - by eapply heap_sim_ok.
  - intros r z c t Ez Hr. destruct (heap_sim_r _ _ _ _ Hsim Ez) as (z0 & Ez0 & _). destruct (M4 r z0 c t Ez0) as (w & Ew & Et); [by eapply refs_sim|].
    destruct (heap_sim_l _ _ _ _ Hsim Ew) as (w' & Ew' & Hw'). exists w'. split; [done|]. by rewrite (obj_sim_tt _ _ Hw').
  - intros r z Ez. destruct (Hback _ _ Ez) as (z0 & Ez0 & Em & _). unfold bit, iswhite, isblack. rewrite Em. by apply (M5 r z0).
  - rewrite !not_elem_of_app in Hp. destruct Hp as (P1 & P2 & P3). unfold gray, grayagain, weak in *. cbn [lists set_lists].
    destruct Hcase as [(-> & -> & -> & -> & -> & _)|[(-> & -> & -> & -> & -> & _)|(-> & -> & -> & -> & -> & _)]]; cbn [l_gray l_grayagain l_weak];
      split_and!; (by apply linked_insert) || by eapply linked_push.
  - rewrite Hperm. by apply NoDup_cons.
  - intros r. rewrite Hperm. intros [->|Hr]%elem_of_cons.
    { exists (with_gclist q x). rewrite lookup_insert_eq. split_and!; [done..|]. intros [HG|?]; [|done].
      destruct Hcase as [(_ & _ & _ & _ & _ & ?)|[(-> & _)|(-> & _)]]; [done|exfalso; apply Hp, elem_of_app; by left..]. }
    destruct (M8 r Hr) as (z & Ez & Hz & Hl' & Hgr). assert (r <> p) as Hne by (by intros ->). exists z. rewrite lookup_insert_ne by done. split_and!; [done..|].
    intros [HG|?]; [|auto]. apply Hgr. left. destruct Hcase as [(-> & _)|[(-> & _)|(-> & _)]]; [|done..]. by apply elem_of_cons in HG as [?|?].
  - intros r z Ez HEr. destruct (Hback _ _ Ez) as (z0 & Ez0 & Em & Eb). apply (fine_sim _ _ _ (G ++ GA ++ W) (G' ++ GA' ++ W') r z0 z Hsim Hok Hmono); [|done|done|unfold iswhite, isblack; by rewrite Em|by apply M9].
    intros c Hc. rewrite Hperm. by right.
  - intros r z Ez Hr HDr. destruct (Hback _ _ Ez) as (z0 & Ez0 & Em & Eb). apply (settled_sim _ _ r z0 z Hsim Hok Hmono Ez0 Ez); [unfold bit; by rewrite Em|apply (M10 r); [done| |done]].
    destruct Hcase as [(_ & -> & -> & _)|[(_ & -> & -> & _ & _ & ?)|(_ & -> & -> & _ & _ & ? & _)]]; [done|..]; rewrite elem_of_app, elem_of_cons in *; naive_solver.
  - intros r z Ez Hr. destruct (Hback _ _ Ez) as (z0 & Ez0 & Em & Eb). rewrite Eb.
    destruct Hcase as [(_ & _ & -> & _)|[(_ & _ & -> & _)|(_ & _ & -> & _ & _ & _ & ?)]]; [by eapply M11..|]. apply elem_of_cons in Hr as [->|Hr]; [|by eapply M11].
    rewrite Ex in Ez0. by injection Ez0 as <-.
Qed.

(** An exempt object that has the right colour is exempt no longer. *)
Lemma marking_done E D A g G GA W p x :
  marking (also p E) D A g G GA W -> heap g !! p = Some x -> (p ∈ G ++ GA ++ W -> isgray x = true) -> fine A (heap g) (G ++ GA ++ W) p x -> marking E D A g G GA W.
Proof.
  intros [? ? ? ? ? ? ? L F ? ?] Ex Hg Hf. split; try done.
  - intros q Hq. destruct (L q Hq) as (z & Ez & ? & ? & Hgz). exists z. split_and!; try done. intros HE. destruct (decide (q = p)) as [->|Hne]; [|apply Hgz; destruct HE as [?|HE]; [by left|right; by intros [?|?]]].
    rewrite Ex in Ez. injection Ez as <-. by apply Hg.
  - intros q z Ez HE. destruct (decide (q = p)) as [->|Hne]; [|apply F; [done|by intros [?|?]]]. rewrite Ex in Ez. by injection Ez as <-.
Qed.
Lemma marking_also E D A g G GA W p : marking E D A g G GA W -> marking (also p E) D A g G GA W.
Proof. apply marking_weaken; auto. intros q ?. by right. Qed.

(** An object that need not be traversed again. *)
Lemma marking_settle E D A g G GA W p x :
  marking E (also p D) A g G GA W -> heap g !! p = Some x -> settled (heap g) x -> marking E D A g G GA W.
Proof.
  intros [? ? ? ? ? ? ? ? ? S ?] Ex Hs. split; try done. intros q z Ez Hq HD. destruct (decide (q = p)) as [->|Hne]; [|apply (S q); [done..|by intros [?|?]]].
  rewrite Ex in Ez. by injection Ez as <-.
Qed.

(** The first gray object leaves its list. *)
Lemma marking_pop E D A g G GA W p x :
  marking E D A g (p :: G) GA W -> E p -> heap g !! p = Some x -> marking E D A (set_gray (o_gclist x) g) G GA W.
Proof.
  intros [M1 M2 M3 M4 M5 (M6a & M6b & M6c) M7 M8 M9 M10 M11] HE Ex. cbn [app] in *. split; try done.
  - split; [|done]. destruct M6a as (_ & _ & z & Ez & Hl). rewrite Ex in Ez. by injection Ez as <-.
  - by apply NoDup_cons in M7 as [_ ?].
  - intros q Hq. destruct (M8 q) as (z & Ez & ? & ? & Hg); [by right|]. exists z. split_and!; try done. intros [?|?]; apply Hg; [left; by right|by right].
  - intros q z Ez Hq. destruct (M9 q z Ez Hq) as [F1 F2 F3]. split; [|done|done]. intros Hg. destruct (F1 Hg) as [Hl Hk]. split; [|done]. intros Hli.
    specialize (Hl Hli). apply elem_of_cons in Hl as [->|?]; done.
Qed.
End Wf.
