(* ===== verification/LuaMarkSpec.v ===== *)
(** Marking in the collector of Lua: marking an object, and traversing one,
    keep the invariant of the mark phase and mark what the object refers to. *)
From stdpp Require Import base gmap list.
From Stdlib Require Import ZArith Lia.
From S2P Require Import Prelude LuaNumber LuaTable LuaString LuaHeap LuaMark LuaMarkWf.
Open Scope Z_scope.

Section Spec.
Context {N : Type} `{LuaNumber N}.
Implicit Types (g : gstate N) (h : gmap Z (GCObject N)) (x y : GCObject N) (v : TValue N) (b : gcbody N) (E D : Z -> Prop) (G GA W : list Z) (A : Prop).
Implicit Types (P Q : gmap Z (GCObject N) -> Prop).

(** * Outcomes *)

(** Objects that are not white keep their marks. *)
Definition same_marks x y : Prop := forall n, 0 <= n < 8 -> bit y n = bit x n.
Definition kept g g' : Prop := forall p x, heap g !! p = Some x -> iswhite x = false -> exists y, heap g' !! p = Some y /\ same_marks x y.
Lemma kept_refl g : kept g g.
Proof. intros p x Ex _. by exists x. Qed.
Lemma same_white x y : same_marks x y -> iswhite y = iswhite x.
Proof. intros Hs. rewrite !iswhite_bits. unfold same_marks, bit in Hs. by rewrite (Hs 0), (Hs 1) by lia. Qed.
Lemma same_black x y : same_marks x y -> isblack y = isblack x.
Proof. intros Hs. rewrite !isblack_bits. unfold same_marks, bit in Hs. by rewrite (Hs 2) by lia. Qed.
Lemma same_gray x y : same_marks x y -> isgray y = isgray x.
Proof. intros Hs. unfold isgray. by rewrite (same_white _ _ Hs), (same_black _ _ Hs). Qed.
Lemma same_marks_trans x y z : same_marks x y -> same_marks y z -> same_marks x z.
Proof. intros H1 H2 n Hn. by rewrite H2, H1. Qed.
Lemma kept_trans g1 g2 g3 : kept g1 g2 -> kept g2 g3 -> kept g1 g3.
Proof.
  intros K1 K2 p x Ex Hw. destruct (K1 p x Ex Hw) as (y & Ey & Em). destruct (K2 p y Ey) as (z & Ez & Em2); [by rewrite (same_white _ _ Em)|].
  exists z. split; [done|by eapply same_marks_trans].
Qed.
(** Only an object that was white, or had these marks, changed. *)
Lemma kept_insert g g' p x y : kept g g' -> heap g !! p = Some x -> iswhite x = true \/ same_marks x y -> kept g (set_heap (<[p := y]> (heap g')) g').
Proof.
  intros K Ex Hy q z Ez Hz. cbn [heap set_heap]. destruct (decide (p = q)) as [<-|Hne]; [|rewrite lookup_insert_ne by done; by apply K].
  rewrite lookup_insert_eq. exists y. split; [done|]. rewrite Ex in Ez. injection Ez as <-. destruct Hy; [congruence|done].
Qed.

(** [r] succeeds, keeps the invariant, lengthens the gray list by no more than
    the white objects that it marked, and ends with [P]. *)
Definition mark_post E D A g G GA W (r : res (gstate N)) P : Prop :=
  exists g' G', r = Ok g' /\ marking E D A g' G' GA W /\ marked g g' /\ kept g g' /\ (whites (heap g') + length G' <= whites (heap g) + length G)%nat /\ P (heap g').

Lemma post_ret E D A g G GA W P : marking E D A g G GA W -> P (heap g) -> mark_post E D A g G GA W (Ok g) P.
Proof. intros M HP. exists g, G. split_and!; [done|done|apply marked_refl|apply kept_refl|lia|done]. Qed.
Lemma post_bind E D A g G GA W r k P Q :
  mark_post E D A g G GA W r P -> (forall g' G', marking E D A g' G' GA W -> marked g g' -> kept g g' -> P (heap g') -> mark_post E D A g' G' GA W (k g') Q) ->
  mark_post E D A g G GA W (bind r k) Q.
Proof.
  intros (g1 & G1 & -> & M1 & Hm1 & K1 & Hw1 & HP) Hk. destruct (Hk g1 G1 M1 Hm1 K1 HP) as (g2 & G2 & E2 & M2 & Hm2 & K2 & Hw2 & HQ).
  exists g2, G2. cbn. split_and!; [done|done|by eapply marked_trans|by eapply kept_trans|lia|done].
Qed.
Lemma post_weaken E D A g G GA W r P Q : mark_post E D A g G GA W r P -> (forall g', marked g g' -> kept g g' -> P (heap g') -> Q (heap g')) -> mark_post E D A g G GA W r Q.
Proof. intros (g1 & G1 & ? & ? & ? & ? & ? & ?) HPQ. exists g1, G1. split_and!; auto. Qed.
(** At the end the object that was worked on has the right colour. *)
Lemma post_done E D A g G GA W p r P :
  mark_post (also p E) D A g G GA W r P ->
  (forall g' G', r = Ok g' -> marking (also p E) D A g' G' GA W -> kept g g' -> P (heap g') -> exists x, heap g' !! p = Some x /\ (p ∈ G' ++ GA ++ W -> isgray x = true) /\ fine A (heap g') (G' ++ GA ++ W) p x) ->
  mark_post E D A g G GA W r P.
Proof.
  intros (g1 & G1 & Er & M1 & ? & K1 & ? & HP) Hf. exists g1, G1. split_and!; try done. destruct (Hf g1 G1 Er M1 K1 HP) as (x & Ex & Hg & Hx). by eapply marking_done.
Qed.

(** Properties that hold on when more is marked. *)
Definition stable P : Prop := forall g g', marked g g' -> heap_ok (heap g) -> P (heap g) -> P (heap g').
Lemma stable_nonwhite p : stable (fun h => nonwhite h p).
Proof. intros g g' Hm _. apply (md_mono _ _ Hm). Qed.

Lemma loop_up_post E D A g G GA W (f : nat -> gstate N -> res (gstate N)) n (Q : nat -> gmap Z (GCObject N) -> Prop) :
  marking E D A g G GA W -> (forall i, stable (Q i)) ->
  (forall i g' G', (i < n)%nat -> marking E D A g' G' GA W -> marked g g' -> mark_post E D A g' G' GA W (f i g') (Q i)) ->
  mark_post E D A g G GA W (up f n g) (fun h => forall i, (i < n)%nat -> Q i h).
Proof.
  intros M Hst. unfold up. induction n as [|n IH]; intros Hf; [apply post_ret; [done|]; intros; lia|]. rewrite seq_S, foldl_app. cbn [foldl].
  eapply post_bind; [apply IH; intros; apply Hf; [lia|done..]|]. intros g' G' M' Hm _ HQ. eapply post_weaken; [apply (Hf n g' G'); [lia|done..]|].
  intros g2 Hm2 _ HQn i Hi. destruct (decide (i = n)) as [->|]; [done|]. eapply Hst; [exact Hm2|apply (mk_ok _ _ _ _ _ _ _ M')|apply HQ; lia].
Qed.
Lemma loop_down_post E D A g G GA W (f : nat -> gstate N -> res (gstate N)) n (Q : nat -> gmap Z (GCObject N) -> Prop) :
  marking E D A g G GA W -> (forall i, stable (Q i)) ->
  (forall i g' G', (i < n)%nat -> marking E D A g' G' GA W -> marked g g' -> mark_post E D A g' G' GA W (f i g') (Q i)) ->
  mark_post E D A g G GA W (down f n g) (fun h => forall i, (i < n)%nat -> Q i h).
Proof.
  intros M Hst Hf. assert (forall k g1 G1, (k <= n)%nat -> marking E D A g1 G1 GA W -> marked g g1 ->
    mark_post E D A g1 G1 GA W (down f k g1) (fun h => forall i, (i < k)%nat -> Q i h)) as Hk; [|by apply Hk; [|done|apply marked_refl]].
  induction k as [|k IH]; intros g1 G1 Hle M1 Hm1; cbn [down]; [apply post_ret; [done|]; intros; lia|].
  destruct (Hf k g1 G1 ltac:(lia) M1 Hm1) as (g2 & G2 & -> & M2 & Hm2 & K2 & Hw2 & HQ). cbn [bind].
  destruct (IH g2 G2 ltac:(lia) M2 ltac:(by eapply marked_trans)) as (g3 & G3 & -> & M3 & Hm3 & K3 & Hw3 & HQ3).
  exists g3, G3. split_and!; [done|done|by eapply marked_trans|by eapply kept_trans|lia|]. intros i Hi. destruct (decide (i = k)) as [->|]; [|apply HQ3; lia].
  eapply Hst; [exact Hm3|apply (mk_ok _ _ _ _ _ _ _ M2)|done].
Qed.

(** * Colours *)

Lemma upd_obj_ok p f g x : heap g !! p = Some x -> upd_obj p f g = Ok (set_heap (<[p := f x]> (heap g)) g).
Proof. intros Ex. unfold upd_obj, obj_at. by rewrite Ex. Qed.
Lemma obj_at_ok p g x : heap g !! p = Some x -> obj_at g p = Ok x.
Proof. intros Ex. unfold obj_at. by rewrite Ex. Qed.

Lemma white2gray_facts x : iswhite (white2gray x) = false /\ isblack (white2gray x) = isblack x /\ forall n, 2 <= n < 8 -> bit (white2gray x) n = bit x n.
Proof.
  rewrite iswhite_bits, !isblack_bits. change (Z.testbit (o_marked (white2gray x))) with (bit (white2gray x)). change (Z.testbit (o_marked x)) with (bit x).
  assert (forall n, 2 <= n < 8 -> bit (white2gray x) n = bit x n) as Hn by (intros n Hn; rewrite bit_white2gray by lia; rewrite (proj2 (Z.ltb_ge _ _)) by lia; apply andb_true_r).
  split_and!; [|by apply Hn|done]. rewrite !bit_white2gray by lia. cbn. by rewrite !andb_false_r.
Qed.
Lemma gray2black_facts x : iswhite (gray2black x) = iswhite x /\ isblack (gray2black x) = true /\ forall n, 0 <= n < 8 -> n <> 2 -> bit (gray2black x) n = bit x n.
Proof.
  rewrite !iswhite_bits, isblack_bits. change (Z.testbit (o_marked (gray2black x))) with (bit (gray2black x)). change (Z.testbit (o_marked x)) with (bit x).
  assert (forall n, 0 <= n < 8 -> n <> 2 -> bit (gray2black x) n = bit x n) as Hn by (intros n Hn Hne; rewrite bit_gray2black by lia; rewrite (proj2 (Z.eqb_neq _ _)) by done; apply orb_false_r).
  split_and!; [by rewrite !Hn by lia| |done]. rewrite bit_gray2black by lia. apply orb_true_r.
Qed.
Lemma black2gray_facts x : iswhite (black2gray x) = iswhite x /\ isblack (black2gray x) = false /\ forall n, 0 <= n < 8 -> n <> 2 -> bit (black2gray x) n = bit x n.
Proof.
  rewrite !iswhite_bits, isblack_bits. change (Z.testbit (o_marked (black2gray x))) with (bit (black2gray x)). change (Z.testbit (o_marked x)) with (bit x).
  assert (forall n, 0 <= n < 8 -> n <> 2 -> bit (black2gray x) n = bit x n) as Hn by (intros n Hn Hne; rewrite bit_black2gray by lia; rewrite (proj2 (Z.eqb_neq _ _)) by done; apply andb_true_r).
  split_and!; [by rewrite !Hn by lia| |done]. rewrite bit_black2gray by lia. apply andb_false_r.
Qed.
Lemma ow_bit g x : iswhite x = false -> bit x (ow g) = false.
Proof. rewrite iswhite_bits. intros [E0 E1]%orb_false_iff. unfold bit. by destruct (cw_range g) as [[_ ->]|[_ ->]]. Qed.

Lemma white_unlisted E D A g G GA W p x : marking E D A g G GA W -> heap g !! p = Some x -> iswhite x = true -> p ∉ G ++ GA ++ W.
Proof. intros M Ex Hw Hp. destruct (mk_listed _ _ _ _ _ _ _ M p Hp) as (z & Ez & Hz & _). congruence. Qed.

(** A white object turns gray. *)
Lemma gray_post E D A g G GA W p x :
  marking E D A g G GA W -> heap g !! p = Some x -> iswhite x = true ->
  let g' := set_heap (<[p := white2gray x]> (heap g)) g in
  marking (also p E) D A g' G GA W /\ marked g g' /\ kept g g' /\ (whites (heap g') + 1 = whites (heap g))%nat /\ heap g' !! p = Some (white2gray x) /\
  isgray (white2gray x) = true /\ p ∉ G ++ GA ++ W.
Proof.
  intros M Ex Hw g'. destruct (white2gray_facts x) as (Fw & Fb & Fn). destruct (mk_colour _ _ _ _ _ _ _ M p x Ex) as [_ Hbl].
  pose proof (white_unlisted _ _ _ _ _ _ _ _ _ M Ex Hw) as Hun.
  destruct (marking_update (also p E) D A g G GA W p x (white2gray x)) as (M' & Hm & Hwh); try done.
  - by apply marking_also.
  - by left; left.
  - apply sim_marked; [done|done|]. apply (white2gray_facts x). unfold FIXEDBIT. lia.
  - by apply ow_bit.
  - by rewrite Fw.
  - intros Hp. exfalso. apply Hun, elem_of_app. by left.
  - intros Hp. exfalso. apply Hun, elem_of_app. by right.
  - split_and!; try done.
    + apply (kept_insert g g p x); [apply kept_refl|done|by left].
    + rewrite Hw, Fw in Hwh. fold g' in Hwh. lia.
    + apply lookup_insert_eq.
    + unfold isgray. by rewrite Fw, Fb, Hbl.
Qed.

Lemma nonwhite_here g p x : heap g !! p = Some x -> iswhite x = false -> nonwhite (heap g) p.
Proof. intros. by exists x. Qed.

(** * Marking one object *)

Lemma push_gray_post E D A g G GA W p x :
  marking (also p E) D A g G GA W -> heap g !! p = Some x -> isgray x = true -> listed (o_body x) = true -> p ∉ G ++ GA ++ W ->
  exists g', push_gray p g = Ok g' /\ marking E D A g' (p :: G) GA W /\ marked g g' /\ kept g g' /\ whites (heap g') = whites (heap g) /\ nonwhite (heap g') p.
Proof.
  intros M Ex Hg Hl Hun. unfold push_gray. rewrite (upd_obj_ok _ _ _ _ Ex). cbn [bind]. eexists. split; [done|].
  destruct (marking_relink (also p E) D A g G GA W (p :: G) GA W (mkLists p (grayagain g) (weak g)) p x (gray g)) as (M2 & Hm2 & Hw2); try done; [by left|by apply gray_nonwhite|by left|].
  set (g' := set_lists _ _) in *. change (set_gray p (set_heap (<[p:=with_gclist (gray g) x]> (heap g)) g)) with g'. set (y := with_gclist (gray g) x) in *.
  assert (heap g' !! p = Some y) as Ey by (apply lookup_insert_eq). split_and!; [|done|apply (kept_insert g g p x y); [apply kept_refl|done|by right]|done|exists y; split; [done|by apply gray_nonwhite]].
  eapply marking_done; [exact M2|exact Ey|done|]. split.
  - intros _. split; [intros _; by left|]. cbn. by destruct (o_body x).
  - intros Hbl. unfold isgray in Hg. change (isblack y) with (isblack x) in Hbl. by rewrite Hbl in Hg.
  - intros _ Ho. cbn in Ho. by destruct (o_body x).
Qed.

Lemma mark_flat k E D A g G GA W p x :
  marking E D A g G GA W -> heap g !! p = Some x -> iswhite x = true -> (listed (o_body x) = true \/ exists ha s, o_body x = TSTRING ha s) ->
  mark_post E D A g G GA W (reallymarkobject (S k) p g) (fun h => nonwhite h p).
Proof.
  intros M Ex Hw Hb. cbn [reallymarkobject]. rewrite (upd_obj_ok p white2gray g x Ex). cbn [bind].
  destruct (gray_post E D A g G GA W p x M Ex Hw) as (M1 & Hm1 & K1 & Hw1 & Ex1 & Hg1 & Hun). set (g1 := set_heap _ g) in *. rewrite (obj_at_ok _ _ _ Ex1). cbn [bind].
  change (o_body (white2gray x)) with (o_body x). destruct Hb as [Hl|(ha & s & Eb)].
  - destruct (push_gray_post E D A g1 G GA W p _ M1 Ex1 Hg1 Hl Hun) as (g2 & Ep & M2 & Hm2 & K2 & Hw2 & Hn2).
    assert (mark_post E D A g G GA W (push_gray p g1) (fun h => nonwhite h p)).
    { exists g2, (p :: G). split_and!; [done|done|by eapply marked_trans|by eapply kept_trans|cbn [length]; lia|done]. }
    by destruct (o_body x).
  - rewrite Eb. exists g1, G. split_and!; [done| |done|done|lia|exists (white2gray x); split; [done|by apply gray_nonwhite]]. eapply marking_done; [exact M1|exact Ex1|done|]. split.
    + intros _. split; [cbn; by rewrite Eb|cbn; by rewrite Eb].
    + intros Hbl. unfold isgray in Hg1. by rewrite Hbl in Hg1.
    + intros _ Ho. cbn in Ho. by rewrite Eb in Ho.
Qed.

(** How deep the recursion goes from an object. *)
Definition depth b : nat := match b with TUPVAL _ => 3 | TUSERDATA _ _ _ => 2 | _ => 1 end.
Lemma depth_table y : gch_tt y = LUA_TTABLE -> depth (o_body y) = 1%nat.
Proof. unfold gch_tt. by destruct (o_body y). Qed.
Lemma depth_value y : 4 <= gch_tt y <= 8 -> (depth (o_body y) <= 2)%nat.
Proof. unfold gch_tt. destruct (o_body y); cbn; unfold LUA_TUPVAL; lia. Qed.
Lemma vrefs_gcvalue v : value_ok v -> match gcvalue v with Some p => exists ty, vrefs v = [(p, ty)] /\ 4 <= ty <= 8 | None => vrefs v = [] end.
Proof. destruct v; cbn; try done; intros Hv; eexists; (split; [done|]); unfold LUA_TSTRING; lia. Qed.

(** The way the recursion is called. *)
Definition try_mark (k : nat) (p : Z) g : res (gstate N) := x <- obj_at g p; if iswhite x then reallymarkobject k p g else Ok g.
Definition try_mark_value (k : nat) v g : res (gstate N) := match gcvalue v with Some p => try_mark k p g | None => Ok g end.

Definition marks_at (k : nat) : Prop := forall E D A g G GA W p x,
  marking E D A g G GA W -> heap g !! p = Some x -> iswhite x = true -> (depth (o_body x) <= k)%nat -> mark_post E D A g G GA W (reallymarkobject k p g) (fun h => nonwhite h p).

Lemma try_mark_post k E D A g G GA W p x : marks_at k -> marking E D A g G GA W -> heap g !! p = Some x -> (depth (o_body x) <= k)%nat ->
  mark_post E D A g G GA W (try_mark k p g) (fun h => nonwhite h p).
Proof.
  intros IH M Ex Hd. unfold try_mark. rewrite (obj_at_ok _ _ _ Ex). cbn [bind]. destruct (iswhite x) eqn:Ew; [by eapply IH|]. apply post_ret; [done|]. by exists x.
Qed.
(** References of a value that are known to be right. *)
Definition typed_refs h (l : list (Z * Z)) : Prop := forall c t, (c, t) ∈ l -> exists y, h !! c = Some y /\ gch_tt y = t.
Definition all_marked h (l : list (Z * Z)) : Prop := forall c t, (c, t) ∈ l -> nonwhite h c.
Lemma typed_sim g g' l : marked g g' -> typed_refs (heap g) l -> typed_refs (heap g') l.
Proof.
  intros Hm Ht c t Hc. destruct (Ht c t Hc) as (y & Ey & Et). destruct (heap_sim_l _ _ _ _ (md_sim _ _ Hm) Ey) as (z & Ez & Hz). exists z. split; [done|].
  by rewrite (obj_sim_tt _ _ Hz).
Qed.
Lemma all_marked_mono g g' l : marked g g' -> all_marked (heap g) l -> all_marked (heap g') l.
Proof. intros Hm Ha c t Hc. by eapply (md_mono _ _ Hm), Ha. Qed.
Lemma stable_all_marked l : stable (fun h => all_marked h l).
Proof. intros g g' Hm _. by apply all_marked_mono. Qed.

Lemma try_mark_value_post k E D A g G GA W v : marks_at k -> (2 <= k)%nat -> marking E D A g G GA W -> value_ok v -> typed_refs (heap g) (vrefs v) ->
  mark_post E D A g G GA W (try_mark_value k v g) (fun h => all_marked h (vrefs v)).
Proof.
  intros IH Hk M Hv Ht. unfold try_mark_value. pose proof (vrefs_gcvalue v Hv) as Hg. destruct (gcvalue v) as [p|].
  - destruct Hg as (ty & Er & Hty). rewrite Er in *. destruct (Ht p ty) as (y & Ey & Et); [by left|]. pose proof (depth_value y) as Hd.
    eapply post_weaken; [eapply try_mark_post; [done..|]; lia|]. intros g' _ _ Hn c t Hc. apply list_elem_of_singleton in Hc. by injection Hc as -> ->.
  - apply post_ret; [done|]. rewrite Hg. intros c t Hc. by apply not_elem_of_nil in Hc.
Qed.
Lemma try_mark_if_post k E D A g G GA W p : marks_at k -> (1 <= k)%nat -> marking E D A g G GA W -> typed_refs (heap g) (ptr p LUA_TTABLE) ->
  mark_post E D A g G GA W (if p =? 0 then Ok g else try_mark k p g) (fun h => all_marked h (ptr p LUA_TTABLE)).
Proof.
  intros IH Hk M Ht. unfold ptr in *. destruct (p =? 0); [apply post_ret; [done|]; intros c t Hc; by apply not_elem_of_nil in Hc|].
  destruct (Ht p LUA_TTABLE) as (y & Ey & Et); [by left|]. eapply post_weaken; [eapply try_mark_post; [done..|]; rewrite (depth_table y) by done; lia|].
  intros g' _ _ Hn c t Hc. apply list_elem_of_singleton in Hc. by injection Hc as -> ->.
Qed.

Lemma thread_room (t : lua_State N) : thread_ok t -> top t < Z.of_nat (length (stack t)).
Proof. intros (_ & _ & _ & Hr). enough (top t <= foldl Z.max (top t) (ci_tops t)) by lia. clear. generalize (top t). induction (ci_tops t) as [|c l IH]; intros z; cbn; [lia|]. specialize (IH (Z.max z c)). lia. Qed.

(** The slot of an open upvalue holds a value. *)
Lemma open_slot h th i pv nx : heap_ok h -> body_ok h (TUPVAL (UOpen th i pv nx)) -> exists v, slot h th i = Some v /\ value_ok v.
Proof.
  intros Hok (x & t & Ex & Et & Hi). pose proof (Hok th x Ex) as Ht. rewrite Et in Ht. cbn in Ht. pose proof (thread_room _ Ht) as Hr. destruct Ht as (_ & Hv & _).
  unfold slot. rewrite Ex, Et, (proj2 (Z.leb_le _ _)) by lia. destruct (lookup_lt_is_Some_2 (stack t) (Z.to_nat i)) as [v E]; [lia|]. exists v. split; [done|].
  rewrite Forall_lookup in Hv. apply (Hv (Z.to_nat i)). unfold live_stack. by rewrite lookup_take_lt by lia.
Qed.
Lemma uv_value_ok g u : heap_ok (heap g) -> body_ok (heap g) (TUPVAL u) -> exists v, uv_value g u = Ok v /\ value_ok v /\ refs (heap g) (TUPVAL u) = vrefs v.
Proof.
  intros Hok Hb. destruct u as [th i pv nx|v]; [|by exists v]. destruct (open_slot _ _ _ _ _ Hok Hb) as (v & Es & Hv). exists v. cbn [refs uv_value]. rewrite Es. split; [|done].
  destruct Hb as (x & t & Ex & Et & Hi). unfold stack_slot, thread_at, obj_at, slot in *. rewrite Ex in *. cbn [lift bind]. rewrite Et in *. cbn [bind]. by destruct (0 <=? i); rewrite ?Es.
Qed.

(** Turning black, when all that the object refers to is marked. *)
Lemma black_post E D A g G GA W p x :
  marking (also p E) D A g G GA W -> heap g !! p = Some x -> iswhite x = false -> p ∉ G ++ GA ++ W -> is_thread (o_body x) = false -> is_open (o_body x) = false ->
  let g' := set_heap (<[p := gray2black x]> (heap g)) g in
  upd_obj p gray2black g = Ok g' /\ marking (also p E) D A g' G GA W /\ marked g g' /\ whites (heap g') = whites (heap g) /\ heap g' !! p = Some (gray2black x) /\
  forall h L, refs_marked h (o_body x) -> fine A h L p (gray2black x).
Proof.
  intros M Ex Hw Hun Ht Ho g'. destruct (gray2black_facts x) as (Fw & Fb & Fn).
  destruct (marking_update (also p E) D A g G GA W p x (gray2black x)) as (M' & Hm & Hwh); try done.
  - by left; left.
  - apply sim_marked; [done|done|]. by apply Fn.
  - congruence.
  - apply ow_bit. congruence.
  - congruence.
  - intros Hp. exfalso. apply Hun, elem_of_app. by left.
  - intros Hp. exfalso. apply Hun, elem_of_app. by right.
  - fold g' in M', Hm, Hwh. rewrite Hw, Fw, Hw in Hwh. split_and!; [by apply upd_obj_ok|done|done|lia|apply lookup_insert_eq|].
    intros h L Hr. split.
    + unfold isgray. by rewrite Fb.
    + done.
    + intros _ Ho'. cbn in Ho'. congruence.
Qed.

(** The marks of an exempt object stay while others are marked. *)
Lemma exempt_kept E D A g G GA W r P p x : mark_post E D A g G GA W r P -> heap g !! p = Some x -> iswhite x = false ->
  mark_post E D A g G GA W r (fun h => P h /\ exists y, h !! p = Some y /\ obj_sim x y /\ same_marks x y).
Proof.
  intros (g' & G' & Er & M' & Hm & K & Hw & HP) Ex Hx. exists g', G'. split_and!; try done. destruct (K p x Ex Hx) as (y & Ey & Em).
  exists y. split_and!; [done| |done]. destruct (heap_sim_l _ _ _ _ (md_sim _ _ Hm) Ex) as (z & Ez & Hz). congruence.
Qed.

Lemma obj_refs_typed E D A g G GA W p x : marking E D A g G GA W -> heap g !! p = Some x -> typed_refs (heap g) (refs (heap g) (o_body x)).
Proof. intros M Ex c t Hc. by eapply (mk_refs _ _ _ _ _ _ _ M). Qed.
Lemma typed_app h l1 l2 : typed_refs h (l1 ++ l2) <-> typed_refs h l1 /\ typed_refs h l2.
Proof. unfold typed_refs. setoid_rewrite elem_of_app. naive_solver. Qed.
Lemma all_marked_app h l1 l2 : all_marked h (l1 ++ l2) <-> all_marked h l1 /\ all_marked h l2.
Proof. unfold all_marked. setoid_rewrite elem_of_app. naive_solver. Qed.
Lemma all_marked_one h p t : all_marked h [(p, t)] <-> nonwhite h p.
Proof. unfold all_marked. setoid_rewrite list_elem_of_singleton. split; [intros Ha; by apply (Ha p t)|]. intros Hn c t' [= -> ->]. done. Qed.

(** The tables of a userdata that is black already. *)
Lemma udata_tables k E D A g G GA W p x m env len : marks_at k -> (1 <= k)%nat ->
  marking (also p E) D A g G GA W -> heap g !! p = Some x -> o_body x = TUSERDATA m env len -> isblack x = true -> iswhite x = false ->
  mark_post E D A g G GA W (g0 <- (if m =? 0 then Ok g else try_mark k m g); try_mark k env g0) (fun h => nonwhite h p).
Proof.
  intros IH Hk M Ex Eb Hbl Hw. pose proof (obj_refs_typed _ _ _ _ _ _ _ _ _ M Ex) as Ht. rewrite Eb in Ht. cbn [refs] in Ht. apply typed_app in Ht as [Ht1 Ht2].
  assert (mark_post (also p E) D A g G GA W (g0 <- (if m =? 0 then Ok g else try_mark k m g); try_mark k env g0)
    (fun h => all_marked h (ptr m LUA_TTABLE ++ [(env, LUA_TTABLE)]))) as Hpost.
  { eapply post_bind; [by apply try_mark_if_post|]. intros g3 G3 M3 Hm3 _ Ha. destruct (typed_sim _ _ _ Hm3 Ht2 env LUA_TTABLE) as (y & Ey & Et); [by left|].
    eapply post_weaken; [eapply try_mark_post; [done..|]; rewrite (depth_table y) by done; lia|]. intros g4 Hm4 _ Hn. apply all_marked_app. split; [by eapply all_marked_mono|by apply all_marked_one]. }
  apply (fun Hp => exempt_kept _ _ _ _ _ _ _ _ _ p x Hp Ex Hw) in Hpost. destruct Hpost as (g3 & G3 & E3 & M3 & Hm3 & K3 & Hw3 & Ha & y & Ey & Hs & Em). exists g3, G3. split_and!; try done.
  - assert (o_body y = TUSERDATA m env len) as Eby by (destruct Hs as [_ Hs]; rewrite Eb in Hs; by inversion Hs).
    eapply marking_done; [exact M3|exact Ey|intros Hp; destruct (mk_listed _ _ _ _ _ _ _ M3 p Hp) as (z & Ez & _ & Hl & _); rewrite Ey in Ez; injection Ez as <-; by rewrite Eby in Hl|].
    split; rewrite Eby; [|done|done]. unfold isgray. rewrite (same_black _ _ Em), Hbl. done.
  - exists y. split; [done|]. by rewrite (same_white _ _ Em).
Qed.

Lemma marks_udata k E D A g G GA W p x m env len : marks_at k -> (1 <= k)%nat ->
  marking E D A g G GA W -> heap g !! p = Some x -> iswhite x = true -> o_body x = TUSERDATA m env len ->
  mark_post E D A g G GA W (reallymarkobject (S k) p g) (fun h => nonwhite h p).
Proof.
  intros IH Hk M Ex Hw Eb. cbn [reallymarkobject]. rewrite (upd_obj_ok p white2gray g x Ex). cbn [bind].
  destruct (gray_post E D A g G GA W p x M Ex Hw) as (M1 & Hm1 & K1 & Hw1 & Ex1 & Hg1 & Hun). set (g1 := set_heap _ g) in *. rewrite (obj_at_ok _ _ _ Ex1). cbn [bind].
  change (o_body (white2gray x)) with (o_body x). rewrite Eb.
  destruct (black_post E D A g1 G GA W p _ M1 Ex1 (gray_nonwhite _ Hg1) Hun) as (E2 & M2 & Hm2 & Hw2 & Ex2 & _); [cbn; by rewrite Eb..|].
  set (g2 := set_heap (<[p := gray2black _]> _) g1) in *. rewrite E2. cbn [bind]. destruct (gray2black_facts (white2gray x)) as (Fw & Fb & _).
  assert (iswhite (gray2black (white2gray x)) = false) as Fw' by (rewrite Fw; by apply gray_nonwhite).
  destruct (udata_tables k E D A g2 G GA W p _ m env len IH Hk M2 Ex2 Eb Fb Fw') as (g3 & G3 & E3 & M3 & Hm3 & K3 & Hw3 & Hn). exists g3, G3. split_and!; try done.
  - by eapply marked_trans, marked_trans.
  - destruct (K3 p _ Ex2 Fw') as (y' & Ey' & Em'). intros q z Ez Hz. destruct (decide (q = p)) as [->|Hne]; [congruence|]. destruct (K1 q z Ez Hz) as (z1 & Ez1 & Em1).
    destruct (K3 q z1) as (z3 & Ez3 & Em3); [cbn; by rewrite lookup_insert_ne|by rewrite (same_white _ _ Em1)|]. exists z3. split; [done|by eapply same_marks_trans].
  - lia.
Qed.

Lemma marks_upval k E D A g G GA W p x u : marks_at k -> (2 <= k)%nat ->
  marking E D A g G GA W -> heap g !! p = Some x -> iswhite x = true -> o_body x = TUPVAL u ->
  mark_post E D A g G GA W (reallymarkobject (S k) p g) (fun h => nonwhite h p).
Proof.
  intros IH Hk M Ex Hw Eb. cbn [reallymarkobject]. rewrite (upd_obj_ok p white2gray g x Ex). cbn [bind].
  destruct (gray_post E D A g G GA W p x M Ex Hw) as (M1 & Hm1 & K1 & Hw1 & Ex1 & Hg1 & Hun). set (g1 := set_heap _ g) in *. rewrite (obj_at_ok _ _ _ Ex1). cbn [bind].
  change (o_body (white2gray x)) with (o_body x). rewrite Eb. pose proof (mk_ok _ _ _ _ _ _ _ M1) as Hok1. pose proof (Hok1 p _ Ex1) as Hb1. cbn [o_body white2gray with_marked] in Hb1. rewrite Eb in Hb1.
  destruct (uv_value_ok g1 u Hok1 Hb1) as (v & -> & Hv & Er). cbn [bind]. pose proof (obj_refs_typed _ _ _ _ _ _ _ _ _ M1 Ex1) as Ht. cbn [o_body white2gray with_marked] in Ht. rewrite Eb, Er in Ht.
  pose proof (try_mark_value_post k _ _ _ g1 G GA W v IH Hk M1 Hv Ht) as Hpost. pose proof (gray_nonwhite _ Hg1) as Hw1'.
  apply (fun Hp => exempt_kept _ _ _ _ _ _ _ _ _ p (white2gray x) Hp Ex1) in Hpost; [|done]. destruct Hpost as (g2 & G2 & E2 & M2 & Hm2 & K2 & Hw2 & Ha & y & Ey & Hs & Em).
  unfold try_mark_value, try_mark in E2. rewrite E2. cbn [bind]. assert (o_body y = TUPVAL u) as Eby by (destruct Hs as [_ Hs]; cbn in Hs; rewrite Eb in Hs; by inversion Hs).
  assert (refs_marked (heap g2) (o_body y)) as Hrm.
  { intros c t Hc. apply (Ha c t). pose proof (refs_sim _ _ p (white2gray x) y (c, t) (md_sim _ _ Hm2) Hok1 Ex1 Ey Hc) as Hc'. cbn [o_body white2gray with_marked] in Hc'. by rewrite Eb, Er in Hc'. }
  assert (iswhite y = false) as Hwy by (by rewrite (same_white _ _ Em)).
  assert (isgray y = true) as Hgy by (by rewrite (same_gray _ _ Em)).
  assert (kept g g2) as K12 by (by eapply kept_trans). assert (p ∉ G2 ++ GA ++ W) as Hun2.
  { intros Hp. destruct (mk_listed _ _ _ _ _ _ _ M2 p Hp) as (z & Ez & _ & Hl & _). rewrite Ey in Ez. injection Ez as <-. by rewrite Eby in Hl. }
  destruct u as [th i pv nx|w].
  - exists g2, G2. split_and!; [done| |by eapply marked_trans|done|lia|by exists y]. eapply marking_done; [exact M2|exact Ey|done|]. split; rewrite ?Eby; [done| |].
    + intros Hbl. unfold isgray in Hgy. by rewrite Hbl in Hgy.
    + rewrite <- Eby. auto.
  - destruct (black_post E D A g2 G2 GA W p y M2 Ey Hwy Hun2) as (E3 & M3 & Hm3 & Hw3 & Ex3 & Hfine); [by rewrite Eby..|]. rewrite E3. set (g3 := set_heap _ g2) in *.
    exists g3, G2. split_and!; [done| |by eapply marked_trans, marked_trans| |lia|].
    + eapply marking_done; [exact M3|exact Ex3|done|]. apply Hfine. intros c t Hc. rewrite Eby in Hc. cbn [refs] in Hc. eapply (md_mono _ _ Hm3), Hrm. rewrite Eby. exact Hc.
    + apply (kept_insert g g2 p x); [done|done|by left].
    + exists (gray2black y). split; [done|]. by destruct (gray2black_facts y) as (-> & _).
Qed.

Theorem marks_all k : marks_at k.
Proof.
  induction k as [|k IH]; intros E D A g G GA W p x M Ex Hw Hd; [destruct (o_body x); cbn in Hd; lia|].
  destruct (o_body x) as [ha s|m env len|u|env ups|env f uvs|m t|t|f] eqn:Eb; cbn in Hd;
    try (apply (mark_flat k E D A g G GA W p x M Ex Hw); rewrite Eb; by left).
  - apply (mark_flat k E D A g G GA W p x M Ex Hw). rewrite Eb. right. by eexists _, _.
  - eapply marks_udata; [done|lia|done..].
  - eapply marks_upval; [done|lia|done..].
Qed.

(** * The macros *)

Lemma markobject_post E D A g G GA W p : marking E D A g G GA W -> is_Some (heap g !! p) -> mark_post E D A g G GA W (markobject p g) (fun h => nonwhite h p).
Proof. intros M [x Ex]. eapply (try_mark_post MARKDEPTH); [apply marks_all|done..|]. unfold MARKDEPTH. destruct (o_body x); cbn; lia. Qed.
Lemma markvalue_post E D A g G GA W v : marking E D A g G GA W -> value_ok v -> typed_refs (heap g) (vrefs v) ->
  mark_post E D A g G GA W (markvalue v g) (fun h => all_marked h (vrefs v)).
Proof. intros. apply (try_mark_value_post MARKDEPTH); [apply marks_all|unfold MARKDEPTH; lia|done..]. Qed.
Lemma mark_if_post E D A g G GA W p ty : marking E D A g G GA W -> typed_refs (heap g) (ptr p ty) -> mark_post E D A g G GA W (mark_if p g) (fun h => all_marked h (ptr p ty)).
Proof.
  intros M Ht. unfold mark_if, ptr in *. destruct (p =? 0); [apply post_ret; [done|]; intros c t Hc; by apply not_elem_of_nil in Hc|].
  destruct (Ht p ty) as (y & Ey & _); [by left|]. eapply post_weaken; [apply markobject_post; [done|by exists y]|]. intros g' _ _ Hn. by apply all_marked_one.
Qed.
End Spec.
