(* ===== verification/LuaTraverse.v ===== *)
(** Traversing gray objects in the collector of Lua: a traversed object has
    all that it refers to marked, or is put in a list for the atomic step; and
    the gray list runs empty. *)
From stdpp Require Import base gmap list.
From Stdlib Require Import ZArith Lia.
From S2P Require Import Prelude LuaNumber LuaTable LuaString LuaHeap LuaMark LuaMarkWf LuaMarkSpec.
Open Scope Z_scope.

Section Traverse.
Context {N : Type} `{LuaNumber N}.
Implicit Types (g : gstate N) (h : gmap Z (GCObject N)) (x y : GCObject N) (v : TValue N) (b : gcbody N) (E D : Z -> Prop) (G GA W L : list Z) (A : Prop).
Implicit Types (P Q : gmap Z (GCObject N) -> Prop) (t : Table N).

(** * Changing a body *)

Lemma same_marks_body x b : same_marks x (with_body b x).
Proof. by intros n Hn. Qed.
Lemma rebody_post E D A g G GA W p x b :
  marking E D A g G GA W -> heap g !! p = Some x -> body_sim (o_body x) b ->
  mark_post E D A g G GA W (Ok (set_heap (<[p := with_body b x]> (heap g)) g)) (fun h => h !! p = Some (with_body b x)).
Proof.
  intros M Ex Hb. destruct (marking_update E D A g G GA W p x (with_body b x)) as (M' & Hm & Hw); try done.
  - by right.
  - by destruct (mk_colour _ _ _ _ _ _ _ M p x Ex).
  - by destruct (mk_colour _ _ _ _ _ _ _ M p x Ex).
  - intros Hp. destruct (mk_listed _ _ _ _ _ _ _ M p) as (z & Ez & _ & _ & Hg); [apply elem_of_app; by left|]. rewrite Ex in Ez. injection Ez as <-. apply Hg. by left.
  - eexists _, G. split_and!; [done|done|done| | |apply lookup_insert_eq].
    + apply (kept_insert g g p x); [apply kept_refl|done|right; apply same_marks_body].
    + change (iswhite (with_body b x)) with (iswhite x) in Hw. destruct (iswhite x); lia.
Qed.

Lemma table_at_ok g p x m t : heap g !! p = Some x -> o_body x = TTABLE m t -> table_at g p = Ok (m, t).
Proof. intros Ex Eb. unfold table_at. rewrite (obj_at_ok _ _ _ Ex). cbn. by rewrite Eb. Qed.
Lemma set_table_post E D A g G GA W p x m t t' :
  marking E D A g G GA W -> heap g !! p = Some x -> o_body x = TTABLE m t -> table_sim t t' -> mark_post E D A g G GA W (set_table p t' g) (fun _ => True).
Proof.
  intros M Ex Eb Ht. unfold set_table. rewrite (upd_obj_ok _ _ _ _ Ex), Eb. eapply post_weaken; [apply rebody_post; [done..|]; rewrite Eb; by constructor|done].
Qed.
Lemma thread_at_ok g p x (t : lua_State N) : heap g !! p = Some x -> o_body x = TTHREAD t -> thread_at g p = Ok t.
Proof. intros Ex Eb. unfold thread_at. rewrite (obj_at_ok _ _ _ Ex). cbn. by rewrite Eb. Qed.
Lemma upd_thread_post E D A g G GA W p x (t : lua_State N) f :
  marking E D A g G GA W -> heap g !! p = Some x -> o_body x = TTHREAD t -> thread_sim t (f t) ->
  mark_post E D A g G GA W (upd_thread p f g) (fun h => h !! p = Some (with_body (TTHREAD (f t)) x)).
Proof.
  intros M Ex Eb Ht. unfold upd_thread. rewrite (thread_at_ok _ _ _ _ Ex Eb). cbn [bind]. rewrite (upd_obj_ok _ _ _ _ Ex), Eb. apply rebody_post; [done..|].
  rewrite Eb. by constructor.
Qed.

(** * Lists of references *)

Lemma stringmark_post E D A g G GA W p : marking E D A g G GA W -> typed_refs (heap g) (ptr p LUA_TSTRING) ->
  mark_post E D A g G GA W (stringmark_if p g) (fun h => all_marked h (ptr p LUA_TSTRING)).
Proof.
  intros M Ht. unfold stringmark_if, ptr in *. destruct (p =? 0); [apply post_ret; [done|]; intros c t Hc; by apply not_elem_of_nil in Hc|].
  destruct (Ht p LUA_TSTRING) as (x & Ex & Et); [by left|]. rewrite (upd_obj_ok _ _ _ _ Ex). change (stringmark x) with (white2gray x).
  assert (exists ha s, o_body x = TSTRING ha s) as (ha & s & Eb) by (unfold gch_tt in Et; destruct (o_body x); try done; by eexists _, _).
  destruct (white2gray_facts x) as (Fw & Fb & Fn).
  assert (forall h L, fine A h L p (white2gray x)) as Hfine.
  { intros h L. split; cbn; rewrite Eb; [done| |done]. intros _. split; [|done]. intros c t Hc. by apply not_elem_of_nil in Hc. }
  destruct (marking_update (also p E) D A g G GA W p x (white2gray x)) as (M' & Hm & Hw); try done.
  - by apply marking_also.
  - by left; left.
  - apply sim_marked; [done|done|]. apply Fn. unfold FIXEDBIT. lia.
  - by apply ow_bit.
  - congruence.
  - intros Hp. destruct (mk_listed _ _ _ _ _ _ _ M p) as (z & Ez & _ & Hl & _); [apply elem_of_app; by left|]. rewrite Ex in Ez. injection Ez as <-. by rewrite Eb in Hl.
  - intros _ _. apply Fn. unfold VALUEWEAKBIT. lia.
  - eexists _, G. split_and!; [done| |done| | |].
    + eapply marking_done; [exact M'|apply lookup_insert_eq| |apply Hfine]. intros Hp.
      destruct (mk_listed _ _ _ _ _ _ _ M p Hp) as (z & Ez & _ & Hl & _). rewrite Ex in Ez. injection Ez as <-. by rewrite Eb in Hl.
    + apply (kept_insert g g p x); [apply kept_refl|done|]. destruct (iswhite x) eqn:Ew; [by left|right]. intros n Hn. destruct (decide (2 <= n)); [apply Fn; lia|].
      rewrite bit_white2gray by done. rewrite iswhite_bits in Ew. apply orb_false_iff in Ew as [E0 E1]. unfold bit. assert (n = 0 \/ n = 1) as [-> | ->] by lia; by rewrite ?E0, ?E1.
    + rewrite Fw in Hw. lia.
    + apply all_marked_one. exists (white2gray x). cbn. by rewrite lookup_insert_eq.
Qed.

(** A loop over a list that marks what its elements refer to. *)
Lemma up_list_post {B : Type} E D A g G GA W (l : list B) (act : B -> gstate N -> res (gstate N)) (T : B -> list (Z * Z)) :
  marking E D A g G GA W ->
  (forall a g' G', a ∈ l -> marking E D A g' G' GA W -> marked g g' -> mark_post E D A g' G' GA W (act a g') (fun h => all_marked h (T a))) ->
  mark_post E D A g G GA W (up (fun i g => a <- elt l i; act a g) (length l) g) (fun h => all_marked h (l ≫= T)).
Proof.
  intros M Hact. eapply post_weaken; [apply (loop_up_post _ _ _ _ _ _ _ _ _ (fun i h => forall a, l !! i = Some a -> all_marked h (T a)) M)|].
  - intros i g1 g2 Hm _ HQ a Ea. by eapply all_marked_mono, HQ.
  - intros i g' G' Hi M' Hm. destruct (lookup_lt_is_Some_2 l i Hi) as [a Ea]. unfold elt. rewrite Ea. cbn [lift bind].
    eapply post_weaken; [apply Hact; [by eapply list_elem_of_lookup_2|done..]|]. intros g2 _ _ Ha a' [= <-]. exact Ha.
  - intros g' _ _ HQ c t Hc. apply list_elem_of_bind in Hc as (a & Hc & Ha). apply list_elem_of_lookup in Ha as [i Ei]. eapply (HQ i); [by eapply lookup_lt_Some|done..].
Qed.
Lemma typed_bind {B : Type} h (l : list B) (T : B -> list (Z * Z)) a : typed_refs h (l ≫= T) -> a ∈ l -> typed_refs h (T a).
Proof. intros Ht Ha c t Hc. apply Ht, list_elem_of_bind. by exists a. Qed.

Lemma up_values_post E D A g G GA W (l : list (TValue N)) : marking E D A g G GA W -> Forall value_ok l -> typed_refs (heap g) (l ≫= vrefs) ->
  mark_post E D A g G GA W (up (fun i g => v <- elt l i; markvalue v g) (length l) g) (fun h => all_marked h (l ≫= vrefs)).
Proof.
  intros M Hv Ht. apply up_list_post; [done|]. intros v g' G' Hin M' Hm. rewrite Forall_forall in Hv. apply markvalue_post; [done|by apply Hv|].
  eapply typed_sim; [done|]. by eapply typed_bind.
Qed.
Lemma up_strings_post E D A g G GA W (l : list Z) : marking E D A g G GA W -> typed_refs (heap g) (l ≫= fun p => ptr p LUA_TSTRING) ->
  mark_post E D A g G GA W (up (fun i g => p <- elt l i; stringmark_if p g) (length l) g) (fun h => all_marked h (l ≫= fun p => ptr p LUA_TSTRING)).
Proof. intros M Ht. apply up_list_post; [done|]. intros p g' G' Hin M' Hm. apply stringmark_post; [done|]. eapply typed_sim; [done|]. by apply (typed_bind _ l (fun p => ptr p LUA_TSTRING)). Qed.
Lemma up_ptrs_post E D A g G GA W (l : list Z) ty : marking E D A g G GA W -> typed_refs (heap g) (l ≫= fun p => ptr p ty) ->
  mark_post E D A g G GA W (up (fun i g => p <- elt l i; mark_if p g) (length l) g) (fun h => all_marked h (l ≫= fun p => ptr p ty)).
Proof. intros M Ht. apply up_list_post; [done|]. intros p g' G' Hin M' Hm. apply mark_if_post; [done|]. eapply typed_sim; [done|]. by apply (typed_bind _ l (fun p => ptr p ty)). Qed.

(** What was marked earlier is still so. *)
Ltac carry :=
  match goal with
  | P : _ (heap ?a) |- all_marked (heap ?a) ?l => exact P
  | Hm : marked ?a ?b, P : _ (heap ?a) |- all_marked (heap ?b) ?l => exact (all_marked_mono a b l Hm P)
  end.

Lemma traverseproto_post E D A g G GA W (f : proto_refs N) : marking E D A g G GA W -> body_ok (heap g) (TPROTO f) -> typed_refs (heap g) (refs (heap g) (TPROTO f)) ->
  mark_post E D A g G GA W (traverseproto f g) (fun h => refs_marked h (TPROTO f)).
Proof.
  intros M Hb Ht. cbn [refs] in Ht. rewrite !typed_app in Ht. destruct Ht as (T1 & T2 & T3 & T4 & T5). unfold traverseproto.
  eapply post_bind; [by apply stringmark_post|]. intros g1 G1 M1 Hm1 _ P1.
  eapply post_bind; [apply up_values_post; [done..|by eapply typed_sim]|]. intros g2 G2 M2 Hm2 _ P2. assert (marked g g2) as Hm02 by (by eapply marked_trans).
  eapply post_bind; [apply up_strings_post; [done|by eapply typed_sim]|]. intros g3 G3 M3 Hm3 _ P3. assert (marked g g3) as Hm03 by (by eapply marked_trans).
  eapply post_bind; [apply up_ptrs_post; [done|by eapply typed_sim]|]. intros g4 G4 M4 Hm4 _ P4. assert (marked g g4) as Hm04 by (by eapply marked_trans).
  eapply post_weaken; [apply up_strings_post; [done|by eapply typed_sim]|]. intros g5 Hm5 _ P5. change (all_marked (heap g5) (refs (heap g5) (TPROTO f))). cbn [refs].
  rewrite !all_marked_app. assert (marked g3 g5) by (by eapply marked_trans). assert (marked g2 g5) by (by eapply marked_trans). assert (marked g1 g5) by (by eapply marked_trans).
  split_and!; carry.
Qed.

Lemma all_marked_cons h p (t : Z) l : all_marked h ((p, t) :: l) <-> nonwhite h p /\ all_marked h l.
Proof. rewrite (all_marked_app h [(p, t)] l). by rewrite all_marked_one. Qed.
Lemma typed_cons h p (t : Z) l : typed_refs h ((p, t) :: l) <-> (exists y, h !! p = Some y /\ gch_tt y = t) /\ typed_refs h l.
Proof.
  rewrite (typed_app h [(p, t)] l). unfold typed_refs at 1. setoid_rewrite list_elem_of_singleton. split; intros [H1 H2]; (split; [|done]); [by apply (H1 p t)|].
  intros c t' [= -> ->]. done.
Qed.

Lemma traverseclosure_post E D A g G GA W b : marking E D A g G GA W -> body_ok (heap g) b -> typed_refs (heap g) (refs (heap g) b) ->
  (exists env ups, b = TCCLOSURE env ups) \/ (exists env p uvs, b = TLCLOSURE env p uvs) ->
  mark_post E D A g G GA W (traverseclosure b g) (fun h => refs_marked h b).
Proof.
  intros M Hb Ht [(env & ups & ->)|(env & p & uvs & ->)]; cbn [refs] in Ht; apply typed_cons in Ht as [(ye & Ee & _) Ht]; cbn [traverseclosure].
  - eapply post_bind; [apply markobject_post; [done|by exists ye]|]. intros g1 G1 M1 Hm1 _ P1.
    eapply post_weaken; [apply up_values_post; [done..|by eapply typed_sim]|]. intros g2 Hm2 _ P2. change (all_marked (heap g2) (refs (heap g2) (TCCLOSURE env ups))). cbn [refs].
    apply all_marked_cons. split; [by apply (md_mono _ _ Hm2)|done].
  - apply typed_cons in Ht as [(yp & Ep & _) Ht]. eapply post_bind; [apply markobject_post; [done|by exists ye]|]. intros g1 G1 M1 Hm1 _ P1.
    destruct (heap_sim_l _ _ _ _ (md_sim _ _ Hm1) Ep) as (yp1 & Ep1 & _). eapply post_bind; [apply markobject_post; [done|by exists yp1]|]. intros g2 G2 M2 Hm2 _ P2.
    assert (marked g g2) as Hm02 by (by eapply marked_trans). eapply post_weaken; [apply (up_list_post _ _ _ _ _ _ _ uvs markobject (fun u => [(u, LUA_TUPVAL)])); [done|]|].
    + intros u g' G' Hu M' Hm'. destruct (typed_sim g g' _ ltac:(by eapply marked_trans) Ht u LUA_TUPVAL) as (yu & Eu & _); [apply list_elem_of_fmap; by exists u|].
      eapply post_weaken; [apply markobject_post; [done|by exists yu]|]. intros g3 _ _ Hn. by apply all_marked_one.
    + intros g3 Hm3 _ P3. change (all_marked (heap g3) (refs (heap g3) (TLCLOSURE env p uvs))). cbn [refs]. rewrite !all_marked_cons. split_and!.
      * by apply (md_mono _ _ Hm3), (md_mono _ _ Hm2).
      * by apply (md_mono _ _ Hm3).
      * intros c t Hc. apply list_elem_of_fmap in Hc as (u & [= -> ->] & Hu). apply (P3 u LUA_TUPVAL), list_elem_of_bind. exists u. split; [by left|done].
Qed.

(** * Metatables *)

Lemma node_typed h t j n : typed_refs h (table_refs t) -> table_ok t -> node t !! j = Some n -> i_val n <> Nil ->
  value_ok (i_val n) /\ typed_refs h (vrefs (i_val n)) /\ exists k : TValue N, i_key n = Key k /\ value_ok k /\ typed_refs h (vrefs k).
Proof.
  intros Ht [_ _ _ Hn] Ej Hv. rewrite Forall_lookup in Hn. destruct (Hn j n Ej Hv) as (Hvo & k & Ek & Hk).
  assert (typed_refs h (node_refs n)) as Hr.
  { intros c ty Hc. apply Ht, elem_of_app. right. apply list_elem_of_bind. exists n. split; [done|by eapply list_elem_of_lookup_2]. }
  unfold node_refs in Hr. rewrite Ek in Hr. replace (ttisnil (i_val n)) with false in Hr by (by destruct (i_val n)). cbn [key_refs] in Hr.
  apply typed_app in Hr as [Hr1 Hr2]. split_and!; [done..|]. by exists k.
Qed.
Lemma opt_get_node t o : (forall s, o = Some s -> exists j, s = SNode j /\ is_Some (node t !! j)) ->
  opt_get t o = Nil \/ exists j n, node t !! j = Some n /\ opt_get t o = i_val n /\ i_val n <> Nil.
Proof.
  intros Ho. destruct o as [s|]; [|by left]. destruct (Ho s eq_refl) as (j & -> & n & En). cbn [opt_get slot_get]. rewrite En.
  destruct (i_val n) eqn:Ev; [by left|right; exists j, n; by rewrite Ev..].
Qed.

Lemma fasttm_post E D A g G GA W m event :
  marking E D A g G GA W -> typed_refs (heap g) (ptr m LUA_TTABLE) -> is_Some (tmname (roots g) !! Z.to_nat event) ->
  exists tm g', fasttm m event g = Ok (tm, g') /\ mark_post E D A g G GA W (Ok g') (fun h => value_ok tm /\ typed_refs h (vrefs tm)).
Proof.
  intros M Ht [ename En]. unfold fasttm, ptr in *. assert (forall g', typed_refs (heap g') (vrefs (Nil : TValue N))) as Hnil by (intros g' c t Hc; by apply not_elem_of_nil in Hc).
  destruct (m =? 0); [exists Nil, g; split; [done|]; apply post_ret; [done|]; by split|].
  destruct (Ht m LUA_TTABLE) as (x & Ex & Et); [by left|]. assert (exists mm t, o_body x = TTABLE mm t) as (mm & t & Eb) by (unfold gch_tt in Et; destruct (o_body x); try done; by eexists _, _).
  rewrite (table_at_ok _ _ _ _ _ Ex Eb). cbn [bind]. destruct (negb _); [exists Nil, g; split; [done|]; apply post_ret; [done|]; by split|].
  rewrite En. cbn [lift bind]. unfold luaT_gettm. rewrite (table_at_ok _ _ _ _ _ Ex Eb). cbn [bind].
  pose proof (mk_ok _ _ _ _ _ _ _ M m x Ex) as Hok. rewrite Eb in Hok. cbn in Hok. destruct (getstr_total (hash_of g) t ename Hok) as (o & -> & Ho). cbn [bind].
  destruct (opt_get_node t o Ho) as [-> |(j & n & Ej & -> & Hv)].
  - cbn [ttisnil]. destruct (set_table_post E D A g G GA W m x mm t (with_flags t (u8 (Z.lor (flags t) (Z.shiftl 1 event)))) M Ex Eb) as (g' & G' & -> & M' & Hm & K & Hw & _).
    { destruct t. split; cbn; [apply Forall2_same; by left|apply Forall2_same; by left|done]. }
    exists Nil, g'. split; [done|]. exists g', G'. by split_and!.
  - assert (ttisnil (i_val n) = false) as -> by (by destruct (i_val n)). exists (i_val n), g. split; [done|]. apply post_ret; [done|].
    pose proof (obj_refs_typed _ _ _ _ _ _ _ _ _ M Ex) as Hr. rewrite Eb in Hr. cbn [refs] in Hr. apply typed_app in Hr as [_ Hr].
    by destruct (node_typed _ _ _ _ Hr Hok Ej Hv) as (? & ? & _).
Qed.

Lemma mode_has_ok g tm c : typed_refs (heap g) (vrefs tm) -> exists r, mode_has g tm c = Ok r.
Proof.
  intros Ht. destruct tm as [| | | |p|]; try by eexists. destruct (Ht p LUA_TSTRING) as (x & Ex & Et); [by left|]. cbn [mode_has]. rewrite (obj_at_ok _ _ _ Ex). cbn [bind].
  unfold gch_tt in Et. destruct (o_body x); try done. by eexists.
Qed.

(** * Traversing a table *)

(** The object under traversal, with the references that are still there. *)
Lemma traversed g g' o x m t : marked g g' -> heap g !! o = Some x -> o_body x = TTABLE m t ->
  exists y t', heap g' !! o = Some y /\ o_body y = TTABLE m t' /\ table_sim t t'.
Proof.
  intros Hm Ex Eb. destruct (heap_sim_l _ _ _ _ (md_sim _ _ Hm) Ex) as (y & Ey & _ & Hb). rewrite Eb in Hb.
  inversion Hb as [|? ? t' Ht|]; subst; [exists y, t; split_and!; [done|done|apply table_sim_refl]|by exists y, t'].
Qed.

(** The entry [i] of the table at [o] has been marked. *)
Definition entry_marked (o : Z) (i : nat) h : Prop :=
  forall y m t n, h !! o = Some y -> o_body y = TTABLE m t -> node t !! i = Some n -> all_marked h (node_refs n).
Lemma entry_marked_stable o i : stable (entry_marked o i).
Proof.
  intros g g' Hm _ HP y m t n Ey Eb En. destruct (heap_sim_r _ _ _ _ (md_sim _ _ Hm) Ey) as (x & Ex & _ & Hb). rewrite Eb in Hb.
  assert (exists t0, o_body x = TTABLE m t0 /\ table_sim t0 t) as (t0 & Eb0 & Ht) by (inversion Hb; subst; eauto using table_sim_refl).
  destruct (Forall2_lookup_r _ _ _ _ _ (ts_node _ _ Ht) En) as (n0 & En0 & Hn). eapply all_marked_mono; [exact Hm|]. destruct Hn as [->|[_ Hv]]; [by eapply HP|].
  unfold node_refs. rewrite Hv. intros c ty Hc. by apply not_elem_of_nil in Hc.
Qed.

Lemma removeentry_sim (n : Node N) : i_val n = Nil -> node_sim n (removeentry n).
Proof. intros Hv. right. unfold removeentry. by destruct (i_key n) as [[]|]. Qed.
Lemma list_insert_sim {B : Type} (R : B -> B -> Prop) (l : list B) i a a' : (forall z, R z z) -> l !! i = Some a -> R a a' -> Forall2 R l (<[i := a']> l).
Proof. intros HR Ei Ha. rewrite <- (list_insert_id l i a) at 1 by done. apply Forall2_insert; [by apply Forall2_same|done]. Qed.

Lemma traverse_node_post E D A g G GA W o x m t wk wv i :
  marking E D A g G GA W -> heap g !! o = Some x -> o_body x = TTABLE m t -> (i < length (node t))%nat ->
  mark_post E D A g G GA W (traverse_node o wk wv i g) (fun h => wk = false -> wv = false -> entry_marked o i h).
Proof.
  intros M Ex Eb Hi. pose proof (mk_ok _ _ _ _ _ _ _ M o x Ex) as Hok. rewrite Eb in Hok. cbn in Hok. destruct (lookup_lt_is_Some_2 _ _ Hi) as [n En].
  pose proof (obj_refs_typed _ _ _ _ _ _ _ _ _ M Ex) as Hr. rewrite Eb in Hr. cbn [refs] in Hr. apply typed_app in Hr as [_ Hr].
  unfold traverse_node. rewrite (table_at_ok _ _ _ _ _ Ex Eb). cbn [bind]. unfold node_at. rewrite En. cbn [lift bind]. destruct (ttisnil (i_val n)) eqn:Ev.
  - assert (i_val n = Nil) as Hv by (by destruct (i_val n)). unfold set_table. rewrite (upd_obj_ok _ _ _ _ Ex), Eb. eapply post_weaken.
    { apply rebody_post; [done..|]. rewrite Eb. constructor. destruct t. split; cbn; [apply Forall2_same; by left| |done]. apply list_insert_sim with n; [by left|done|by apply removeentry_sim]. }
    intros g' _ _ Hl _ _ y m' t' n' Ey Eb' En'. cbn in Hl. rewrite Hl in Ey. injection Ey as <-. cbn in Eb'. injection Eb' as <- <-. cbn in En'.
    rewrite list_lookup_insert_eq in En' by done. injection En' as <-. unfold node_refs.
    assert (i_val (removeentry n) = Nil) as -> by (destruct (removeentry_sim n Hv) as [->|[_ ?]]; done). intros c ty Hc. by apply not_elem_of_nil in Hc.
  - assert (i_val n <> Nil) as Hv by (intros E0; by rewrite E0 in Ev). destruct (node_typed _ _ _ _ Hr Hok En Hv) as (Vv & Tv & k & Ek & Vk & Tk). rewrite Ek.
    eapply post_bind; [instantiate (1 := fun h => wk = false -> all_marked h (vrefs k)); destruct wk; [by apply post_ret|]; eapply post_weaken; [by apply markvalue_post|done]|].
    intros g1 G1 M1 Hm1 _ P1. eapply post_weaken; [instantiate (1 := fun h => wv = false -> all_marked h (vrefs (i_val n))); destruct wv; [by apply post_ret|]; eapply post_weaken; [apply markvalue_post; [done..|by eapply typed_sim]|done]|].
    intros g2 Hm2 _ P2 Hk Hw y m' t' n' Ey Eb' En'. destruct (traversed g g2 o x m t ltac:(by eapply marked_trans) Ex Eb) as (y2 & t2 & Ey2 & Eb2 & Ht). rewrite Ey in Ey2. injection Ey2 as <-. rewrite Eb' in Eb2. injection Eb2 as -> ->.
    destruct (Forall2_lookup_l _ _ _ _ _ (ts_node _ _ Ht) En) as (n2 & En2 & Hn). rewrite En' in En2. injection En2 as ->. destruct Hn as [->|[_ Hv2]].
    + unfold node_refs. rewrite Ev, Ek. cbn [key_refs]. apply all_marked_app. split; [eapply all_marked_mono; [exact Hm2|by apply P1]|by apply P2].
    + unfold node_refs. rewrite Hv2. intros c ty Hc. by apply not_elem_of_nil in Hc.
Qed.

Lemma weak_bits_testbit wk wv z n : 0 <= n < 8 -> Z.testbit (weak_bits wk wv z) n = if n =? 3 then wk else if n =? 4 then wv else Z.testbit z n.
Proof.
  intros Hn. unfold weak_bits. rewrite Z.lor_spec, u8_testbit, resetbits_testbit, !Z.lor_spec by done. rewrite !shift1_testbit by (done || lia).
  assert (forall (c : bool) k, 0 <= k -> Z.testbit (Z.shiftl (Z.b2z c) k) n = c && (n =? k)) as Hs.
  { intros c k Hk. destruct c; cbn [Z.b2z andb]; [apply shift1_testbit; lia|]. by rewrite Z.shiftl_0_l, Z.bits_0. }
  rewrite !Hs by done. unfold KEYWEAKBIT, VALUEWEAKBIT.
  destruct (Z.eqb_spec n 3), (Z.eqb_spec n 4); try lia; cbn; rewrite ?andb_false_r, ?andb_true_r, ?orb_false_r; done.
Qed.

(** The table is put in the list of weak tables. *)
Lemma link_weak E D A g G GA W o x m t wk wv :
  marking E D A g G GA W -> E o -> D o -> heap g !! o = Some x -> o_body x = TTABLE m t -> iswhite x = false -> o ∉ G ++ GA ++ W ->
  let y := with_gclist (weak g) (with_marked (weak_bits wk wv (o_marked x)) x) in
  let g' := set_weak o (set_heap (<[o := y]> (heap g)) g) in
  marking E D A g' G GA (o :: W) /\ marked g g' /\ (whites (heap g') = whites (heap g))%nat /\ heap g' !! o = Some y /\
  iswhite y = false /\ isblack y = isblack x /\ bit y VALUEWEAKBIT = wv.
Proof.
  intros M HE HD Ex Eb Hw Hun y g'. set (z := with_marked (weak_bits wk wv (o_marked x)) x).
  assert (forall n, 0 <= n < 8 -> bit z n = if n =? 3 then wk else if n =? 4 then wv else bit x n) as Hz by (intros n Hn; by apply weak_bits_testbit).
  assert (iswhite z = iswhite x) as Hzw by (rewrite !iswhite_bits; change (Z.testbit (o_marked z)) with (bit z); by rewrite !Hz).
  assert (isblack z = isblack x) as Hzb by (rewrite !isblack_bits; change (Z.testbit (o_marked z)) with (bit z); by rewrite !Hz).
  destruct (marking_update E D A g G GA W o x z) as (M1 & Hm1 & Hw1); try done.
  - by left.
  - apply sim_marked; [done|done|]. by rewrite Hz.
  - congruence.
  - apply ow_bit. congruence.
  - congruence.
  - intros Hp. exfalso. apply Hun, elem_of_app. by left.
  - set (g1 := set_heap (<[o := z]> (heap g)) g) in *.
    destruct (marking_relink E D A g1 G GA W G GA (o :: W) (mkLists (gray g) (grayagain g) o) o z (weak g)) as (M2 & Hm2 & Hw2); try done.
    + apply lookup_insert_eq.
    + congruence.
    + cbn. by rewrite Eb.
    + right; right. split_and!; try done. by exists m, t.
    + assert (set_lists (mkLists (gray g) (grayagain g) o) (set_heap (<[o := with_gclist (weak g) z]> (heap g1)) g1) = g') as Eg by (unfold g', g1, set_weak, set_lists, set_heap; cbn; by rewrite insert_insert_eq).
      rewrite Eg in M2, Hm2, Hw2. rewrite Hzw in Hw1. split_and!; try done.
      * by eapply marked_trans.
      * destruct (iswhite x); lia.
      * apply lookup_insert_eq.
      * change (iswhite y) with (iswhite z). congruence.
      * change (bit y VALUEWEAKBIT) with (bit z VALUEWEAKBIT). by rewrite Hz.
Qed.

Lemma traverse_parts_post E D A g0 g G GA W o x m t wk wv :
  marking E D A g G GA W -> marked g0 g -> heap g0 !! o = Some x -> o_body x = TTABLE m t -> table_ok t -> typed_refs (heap g0) (table_refs t) ->
  mark_post E D A g G GA W (traverse_parts o t wk wv g) (fun h =>
    (wv = false -> all_marked h (array t ≫= vrefs)) /\ (wk = false -> wv = false -> forall i, (i < length (node t))%nat -> entry_marked o i h)).
Proof.
  intros M Hm0 Ex Eb Hok Hr. pose proof Hok as [[La Va] [Hl Hs] _ _]. unfold traverse_parts.
  eapply (post_bind _ _ _ _ _ _ _ _ _ (fun h => wv = false -> all_marked h (array t ≫= vrefs))).
  - destruct wv; [by apply post_ret|]. rewrite <- La, Nat2Z.id.
    eapply post_weaken; [apply (loop_down_post _ _ _ _ _ _ _ _ _ (fun i h => forall v, array t !! i = Some v -> all_marked h (vrefs v)) M)|].
    + intros i g1 g2 Hm _ HQ v Ev. by eapply all_marked_mono, HQ.
    + intros i g' G' Hi M' Hm. destruct (lookup_lt_is_Some_2 _ _ Hi) as [v Ev]. unfold elt. rewrite Ev. cbn [lift bind]. rewrite Forall_lookup in Va.
      eapply post_weaken; [apply markvalue_post; [exact M'|by eapply Va|]|intros g2 _ _ Ha v' [= <-]; exact Ha]. eapply typed_sim; [exact (marked_trans _ _ _ Hm0 Hm)|].
      apply typed_app in Hr as [Hr _]. eapply typed_bind; [exact Hr|by eapply list_elem_of_lookup_2].
    + intros g' _ _ HQ _ c ty Hc. apply list_elem_of_bind in Hc as (v & Hc & Hv). apply list_elem_of_lookup in Hv as [i Ei]. eapply (HQ i); [by eapply lookup_lt_Some|done..].
  - intros g1 G1 M1 Hm1 _ P1. rewrite <- Hs, Nat2Z.id.
    eapply post_weaken; [apply (loop_down_post _ _ _ _ _ _ _ _ _ (fun i h => wk = false -> wv = false -> entry_marked o i h) M1)|].
    + intros i ga gb Hm Hk HQ E1 E2. eapply entry_marked_stable; [done..|by apply HQ].
    + intros i g' G' Hi M' Hm. destruct (traversed g0 g' o x m t (marked_trans _ _ _ Hm0 (marked_trans _ _ _ Hm1 Hm)) Ex Eb) as (y & t' & Ey & Eby & Ht).
      eapply traverse_node_post; [done..|]. by rewrite <- (Forall2_length _ _ _ (ts_node _ _ Ht)).
    + intros g2 Hm2 _ HQ. split; [|intros E1 E2 i Hi; by apply HQ]. intros Hwv. eapply all_marked_mono; [exact Hm2|by apply P1].
Qed.

Lemma array_marked_sim h t t' : table_sim t t' -> all_marked h (array t ≫= vrefs) -> all_marked h (array t' ≫= vrefs).
Proof.
  intros Ht Ha c ty Hc. apply (Ha c ty). pose proof (ts_array _ _ Ht) as Hta. clear -Hta Hc. induction Hta as [|v v' l l' Hv Hta IH]; [done|]. cbn in *. rewrite elem_of_app in *.
  destruct Hc as [Hc|Hc]; [left|right; by apply IH]. destruct Hv as [->| ->]; [done|]. by apply not_elem_of_nil in Hc.
Qed.
(** All that a table refers to is marked, when its metatable, array and nodes are. *)
Lemma table_marked h o y m t t' :
  h !! o = Some y -> o_body y = TTABLE m t' -> table_sim t t' -> all_marked h (ptr m LUA_TTABLE) -> all_marked h (array t ≫= vrefs) ->
  (forall i, (i < length (node t))%nat -> entry_marked o i h) -> refs_marked h (o_body y).
Proof.
  intros Ey Eb Ht Hm Ha Hn. rewrite Eb. change (all_marked h (refs h (TTABLE m t'))). cbn [refs]. apply all_marked_app. split; [done|]. apply all_marked_app. split.
  - by eapply array_marked_sim.
  - intros c ty Hc. apply list_elem_of_bind in Hc as (n & Hc & Hin). apply list_elem_of_lookup in Hin as [i Ei].
    eapply (Hn i); [rewrite (Forall2_length _ _ _ (ts_node _ _ Ht)); by eapply lookup_lt_Some|done..].
Qed.

(** The lookups of metamethods find the names of the events. *)
Definition names_ok g : Prop := forall e, 0 <= e <= 4 -> is_Some (tmname (roots g) !! Z.to_nat e).

(** After the traversal of the table at [o]: either all that it refers to is
    marked, or it is in the list of weak tables, to be cleared. *)
Definition table_traversed E D A g G GA W (o m : Z) x (isweak : bool) g' : Prop :=
  exists G' y t', marking E D A g' G' GA (if isweak then o :: W else W) /\ marked g g' /\ (whites (heap g') + length G' <= whites (heap g) + length G)%nat /\
    heap g' !! o = Some y /\ o_body y = TTABLE m t' /\ iswhite y = false /\ isblack y = isblack x /\
    if isweak then settled (heap g') y else refs_marked (heap g') (o_body y).

Lemma traversetable_post E D A g G GA W o x m t :
  marking E D A g G GA W -> E o -> D o -> names_ok g -> heap g !! o = Some x -> o_body x = TTABLE m t -> isblack x = true -> iswhite x = false -> o ∉ G ++ GA ++ W ->
  exists isweak g', traversetable o g = Ok (isweak, g') /\ table_traversed E D A g G GA W o m x isweak g'.
Proof.
  intros M HE HD Hna Ex Eb Hbl Hw Hun. pose proof (mk_ok _ _ _ _ _ _ _ M o x Ex) as Hok. rewrite Eb in Hok. cbn in Hok.
  pose proof (obj_refs_typed _ _ _ _ _ _ _ _ _ M Ex) as Hr. rewrite Eb in Hr. cbn [refs] in Hr. apply typed_app in Hr as [Hr1 Hr2].
  unfold traversetable. rewrite (table_at_ok _ _ _ _ _ Ex Eb). cbn [bind].
  destruct (mark_if_post _ _ _ _ _ _ _ m LUA_TTABLE M Hr1) as (g1 & G1 & -> & M1 & Hm1 & K1 & Hw1 & P1). cbn [bind].
  destruct (fasttm_post _ _ _ g1 _ _ _ m TM_MODE M1 (typed_sim _ _ _ Hm1 Hr1)) as (tm & g2 & -> & g2' & G2 & [= <-] & M2 & Hm2 & K2 & Hw2 & _ & Htm).
  { rewrite (md_roots _ _ Hm1). by apply Hna. }
  cbn [bind]. destruct (mode_has_ok g2 tm 107 Htm) as [wk ->]. destruct (mode_has_ok g2 tm 118 Htm) as [wv ->]. cbn [bind].
  pose proof (marked_trans _ _ _ Hm1 Hm2) as Hm02. destruct (kept_trans _ _ _ K1 K2 o x Ex Hw) as (x2 & Ex2 & Hs2).
  destruct (traversed _ _ _ _ _ _ Hm02 Ex Eb) as (x2' & t2 & Ex2' & Eb2 & Ht2). rewrite Ex2 in Ex2'. injection Ex2' as <-.
  pose proof (same_white _ _ Hs2) as Sw. rewrite Hw in Sw. pose proof (all_marked_mono _ _ _ Hm2 P1) as P2.
  assert (o ∉ G2 ++ GA ++ W) as Hun2.
  { intros Hp. apply elem_of_app in Hp as [Hp|Hp]; [|apply Hun, elem_of_app; by right]. destruct (mk_listed _ _ _ _ _ _ _ M2 o) as (z & Ez & _ & _ & Hg); [apply elem_of_app; by left|].
    rewrite Ex2 in Ez. injection Ez as <-. specialize (Hg (or_introl Hp)). unfold isgray in Hg. by rewrite (same_black _ _ Hs2), Hbl in Hg. }
  pose proof (same_black _ _ Hs2) as Sb.
  (* the rest does not depend on the mode *)
  assert (exists g3 x3, (if wk || wv then g <- upd_obj o (fun x => with_gclist (weak g2) (with_marked (weak_bits wk wv (o_marked x)) x)) g2; Ok (set_weak o g) else Ok g2) = Ok g3 /\
    marking E D A g3 G2 GA (if wk || wv then o :: W else W) /\ marked g2 g3 /\ whites (heap g3) = whites (heap g2) /\ heap g3 !! o = Some x3 /\ o_body x3 = TTABLE m t2 /\
    iswhite x3 = false /\ isblack x3 = isblack x /\ (wk || wv = true -> bit x3 VALUEWEAKBIT = wv)) as (g3 & x3 & -> & M3 & Hm3 & Hw3 & Ex3 & Eb3 & Sw3 & Sb3 & Sv3).
  { destruct (wk || wv) eqn:Ewk; [|exists g2, x2; split_and!; try done; apply marked_refl]. rewrite (upd_obj_ok _ _ _ _ Ex2). cbn [bind].
    destruct (link_weak E D A g2 G2 GA W o x2 m t2 wk wv M2 HE HD Ex2 Eb2 Sw Hun2) as (M3 & Hm3 & Hw3 & Ex3 & Sw3 & Sb3 & Sv3). eexists _, _. split_and!; try done. congruence. }
  cbn [bind]. pose proof (marked_trans _ _ _ Hm02 Hm3) as Hm03. pose proof (all_marked_mono _ _ _ Hm3 P2) as P3.
  destruct (wk && wv) eqn:Ekv.
  - apply andb_true_iff in Ekv as [-> ->]. exists true, g3. split; [done|]. exists G2, x3, t2. cbn in M3. split_and!; try done; [lia|]. unfold settled. rewrite Eb3.
    split; [exact P3|left; by apply Sv3].
  - destruct (traverse_parts_post E D A g g3 G2 GA _ o x m t wk wv M3 Hm03 Ex Eb Hok Hr2) as (g4 & G4 & -> & M4 & Hm4 & K4 & Hw4 & Pa & Pn). cbn [bind].
    destruct (K4 o x3 Ex3 Sw3) as (x4 & Ex4 & Hs4). destruct (traversed _ _ _ _ _ _ (marked_trans _ _ _ Hm03 Hm4) Ex Eb) as (x4' & t4 & Ex4' & Eb4 & Ht4). rewrite Ex4 in Ex4'. injection Ex4' as <-.
    exists (wk || wv), g4. split; [done|]. exists G4, x4, t4. pose proof (all_marked_mono _ _ _ Hm4 P3) as P4.
    split_and!; [done|by eapply marked_trans|lia|done|done|by rewrite (same_white _ _ Hs4)|by rewrite (same_black _ _ Hs4)|].
    destruct (wk || wv) eqn:Ewk.
    + unfold settled. rewrite Eb4. split; [exact P4|]. rewrite (Hs4 VALUEWEAKBIT) by (unfold VALUEWEAKBIT; lia). rewrite Sv3 by done. destruct wv; [by left|right].
      eapply array_marked_sim; [exact Ht4|by apply Pa].
    + apply orb_false_iff in Ewk as [-> ->]. eapply table_marked; [done..|by apply Pa|by apply Pn].
Qed.

(** * Traversing a stack *)

Lemma up_ext {S : Type} (f f' : nat -> S -> res S) n (s : S) : (forall i z, (i < n)%nat -> f i z = f' i z) -> up f n s = up f' n s.
Proof.
  intros Hf. unfold up. generalize (Ok s). assert (forall k r, (k <= n)%nat -> foldl (fun r i => s <- r; f i s) r (seq 0 k) = foldl (fun r i => s <- r; f' i s) r (seq 0 k)) as Hk.
  { induction k as [|k IH]; intros r Hle; [done|]. rewrite seq_S, !foldl_app, IH by lia. cbn. destruct (foldl _ r _); cbn; [apply Hf; lia|done..]. }
  intros r. by apply Hk.
Qed.
Lemma lim_ge (l : list Z) z : z <= foldl Z.max z l.
Proof. revert z. induction l as [|c l IH]; intros z; cbn; [lia|]. specialize (IH (Z.max z c)). lia. Qed.

Lemma clear_slots_sim (t : lua_State N) lim : thread_sim t (set_stack (clear_slots (top t) lim (stack t)) t).
Proof.
  split; try done; unfold set_stack, clear_slots; cbn [stack top ci_tops]; [|by rewrite length_imap].
  unfold live_stack. cbn [stack top]. apply list_eq. intros i. destruct (decide (i < Z.to_nat (top t))%nat) as [Hi|Hi]; [|by rewrite !lookup_take_ge by lia].
  rewrite !lookup_take_lt, list_lookup_imap by lia. destruct (stack t !! i); [|done]. cbn. by rewrite (proj2 (Z.leb_gt _ _)) by lia.
Qed.
Lemma cut_stack_sim (t : lua_State N) k : foldl Z.max (top t) (ci_tops t) < k -> thread_sim t (set_stack (take (Z.to_nat k) (stack t)) t).
Proof.
  intros Hk. pose proof (lim_ge (ci_tops t) (top t)). split; try done; unfold set_stack; cbn [stack top ci_tops].
  - unfold live_stack. cbn [stack top]. rewrite take_take. f_equal. lia.
  - rewrite length_take. lia.
Qed.
Lemma size_ci_sim (t : lua_State N) n : thread_sim t (set_size_ci n t).
Proof. by split. Qed.

Lemma marking_accounts E D A a g G GA W : marking E D A g G GA W -> marking E D A (set_accounts a g) G GA W.
Proof. intros []. by split. Qed.
Lemma account_post E D A g G GA W os ns P : mark_post E D A g G GA W (Ok g) P -> mark_post E D A g G GA W (Ok (account os ns g)) P.
Proof. intros (g' & G' & [= <-] & M & Hm & K & Hw & HP). eexists _, G'. split_and!; [done|by apply marking_accounts|by destruct Hm; split|done|done|done]. Qed.

Lemma upd_thread_account E D A g G GA W p x (t : lua_State N) f os ns :
  marking E D A g G GA W -> heap g !! p = Some x -> o_body x = TTHREAD t -> thread_sim t (f t) ->
  mark_post E D A g G GA W (g <- upd_thread p f g; Ok (account os ns g)) (fun h => exists y, h !! p = Some y /\ o_body y = TTHREAD (f t)).
Proof.
  intros M Ex Eb Hs. eapply post_bind; [by eapply upd_thread_post|]. intros g1 G1 M1 Hm1 _ E1. apply account_post, post_ret; [done|]. eexists. split; [exact E1|done].
Qed.

Lemma checkstacksizes_post E D A g G GA W o x (t : lua_State N) :
  marking E D A g G GA W -> heap g !! o = Some x -> o_body x = TTHREAD t ->
  mark_post E D A g G GA W (checkstacksizes o (foldl Z.max (top t) (ci_tops t)) g) (fun _ => True).
Proof.
  intros M Ex Eb. unfold checkstacksizes. rewrite (thread_at_ok _ _ _ _ Ex Eb). cbn [bind]. destruct (LUAI_MAXCALLS <? size_ci t); [by apply post_ret|].
  eapply (post_bind _ _ _ _ _ _ _ _ _ (fun h => exists y (t1 : lua_State N), h !! o = Some y /\ o_body y = TTHREAD t1 /\ top t1 = top t /\ ci_tops t1 = ci_tops t /\ stack t1 = stack t)).
  - destruct (_ && _); [|apply post_ret; [done|by exists x, t]]. unfold luaD_reallocCI. rewrite (thread_at_ok _ _ _ _ Ex Eb). cbn [bind].
    eapply post_weaken; [eapply upd_thread_account; [done..|apply size_ci_sim]|]. intros g' _ _ (y & Ey & Eby). by exists y, (set_size_ci (size_ci t / 2) t).
  - intros g1 G1 M1 Hm1 _ (y & t1 & Ey & Eby & E1 & E2 & E3). case_zbool (4 * foldl Z.max (top t) (ci_tops t) <? Z.of_nat (length (stack t))); [|by apply post_ret].
    cbn [andb]. destruct (2 * _ <? _); [|by apply post_ret]. unfold luaD_reallocstack. rewrite (thread_at_ok _ _ _ _ Ey Eby). cbn [bind].
    eapply post_weaken; [eapply upd_thread_account; [done..|]|done]. rewrite <- E3. apply cut_stack_sim. rewrite E1, E2, E3. unfold EXTRA_STACK.
    pose proof (Z.div_mod (Z.of_nat (length (stack t))) 2 ltac:(lia)). pose proof (Z.mod_pos_bound (Z.of_nat (length (stack t))) 2 ltac:(lia)).
    assert (0 <= Z.of_nat (length (stack t)) / 2) by (apply Z.div_pos; lia). lia.
Qed.

Lemma traversestack_post E D A g G GA W o x (t : lua_State N) :
  marking E D A g G GA W -> heap g !! o = Some x -> o_body x = TTHREAD t ->
  mark_post E D A g G GA W (traversestack o g) (fun h => exists y (t' : lua_State N), h !! o = Some y /\ o_body y = TTHREAD t' /\ refs_marked h (TTHREAD t')).
Proof.
  intros M Ex Eb. pose proof (mk_ok _ _ _ _ _ _ _ M o x Ex) as Hok. rewrite Eb in Hok. destruct Hok as (V1 & V2 & V3 & V4).
  pose proof (obj_refs_typed _ _ _ _ _ _ _ _ _ M Ex) as Hr. rewrite Eb in Hr. cbn [refs] in Hr. apply typed_app in Hr as [Hr1 Hr2].
  unfold traversestack. rewrite (thread_at_ok _ _ _ _ Ex Eb). cbn [bind]. eapply post_bind; [by apply markvalue_post|]. intros g1 G1 M1 Hm1 _ P1.
  pose proof (lim_ge (ci_tops t) (top t)) as Hlim.
  assert (length (live_stack t) = Z.to_nat (top t)) as Hlen by (unfold live_stack; rewrite length_take; lia).
  rewrite (up_ext _ (fun i g => v <- elt (live_stack t) i; markvalue v g)).
  2:{ intros i z Hi. unfold elt, live_stack. by rewrite lookup_take_lt. }
  rewrite <- Hlen. eapply post_bind; [apply up_values_post; [done..|by eapply typed_sim]|]. intros g2 G2 M2 Hm2 _ P2. rewrite (proj2 (Z.ltb_lt _ _)) by done. cbn [bind].
  destruct (heap_sim_l _ _ _ _ (heap_sim_trans _ _ _ (md_sim _ _ Hm1) (md_sim _ _ Hm2)) Ex) as (x2 & Ex2 & _ & Hb2). rewrite Eb in Hb2.
  assert (exists t2 : lua_State N, o_body x2 = TTHREAD t2 /\ thread_sim t t2) as (t2 & Eb2 & Ht2) by (inversion Hb2; subst; eauto using thread_sim_refl).
  assert (all_marked (heap g2) (vrefs (l_gt t) ++ (live_stack t ≫= vrefs))) as P by (apply all_marked_app; split; carry).
  pose proof (clear_slots_sim t2 (foldl Z.max (top t) (ci_tops t))) as Hc.
  eapply post_bind.
  { eapply upd_thread_post with (f := fun l => set_stack (clear_slots (top l) (foldl Z.max (top t) (ci_tops t)) (stack l)) l); [done..|]. exact Hc. }
  intros g3 G3 M3 Hm3 _ Ex3. set (x3 := with_body _ x2) in *. set (t3 := set_stack _ t2) in *.
  replace (foldl Z.max (top t) (ci_tops t)) with (foldl Z.max (top t3) (ci_tops t3)) by (cbn; by rewrite (hs_top _ _ Ht2), (hs_tops _ _ Ht2)).
  eapply post_weaken; [by apply (checkstacksizes_post _ _ _ _ _ _ _ o x3 t3)|]. intros g4 Hm4 _ _.
  destruct (heap_sim_l _ _ _ _ (md_sim _ _ Hm4) Ex3) as (x4 & Ex4 & _ & Hb4). cbn in Hb4.
  assert (exists t4 : lua_State N, o_body x4 = TTHREAD t4 /\ thread_sim t3 t4) as (t4 & Eb4 & Ht4) by (inversion Hb4; subst; eauto using thread_sim_refl).
  exists x4, t4. split_and!; [done..|]. change (all_marked (heap g4) (vrefs (l_gt t4) ++ (live_stack t4 ≫= vrefs))).
  rewrite (hs_gt _ _ Ht4), (hs_stack _ _ Ht4), (hs_gt _ _ Hc), (hs_stack _ _ Hc), (hs_gt _ _ Ht2), (hs_stack _ _ Ht2).
  eapply all_marked_mono; [exact (marked_trans _ _ _ Hm3 Hm4)|exact P].
Qed.

(** * Taking one gray object *)

(** The first gray object leaves the list and is black while it is traversed. *)
Lemma pop_black E D A g o G GA W :
  marking E D A g (o :: G) GA W -> exists x, heap g !! o = Some x /\ gray g = o /\ isgray x = true /\ listed (o_body x) = true /\ (o ∉ G ++ GA ++ W) /\
    isblack (gray2black x) = true /\ iswhite (gray2black x) = false /\
    (let g1 := set_gray (o_gclist x) (set_heap (<[o := gray2black x]> (heap g)) g) in
     marking (also o E) (also o D) A g1 G GA W /\ marked g g1 /\ whites (heap g1) = whites (heap g) /\ heap g1 !! o = Some (gray2black x)).
Proof.
  intros M. destruct (mk_listed _ _ _ _ _ _ _ M o) as (x & Ex & Hw & Hl & Hg); [by left|]. pose proof (mk_nodup _ _ _ _ _ _ _ M) as Hnd. cbn in Hnd. apply NoDup_cons in Hnd as [Hun Hnd].
  assert (isgray x = true) as Hgx by (apply Hg; left; by left). exists x.
  assert (marking (also o E) (also o D) A g (o :: G) GA W) as M0 by (eapply marking_weaken; [..|exact M]; auto; intros q ?; by right).
  pose proof (marking_pop _ _ _ _ _ _ _ _ _ M0 (or_introl eq_refl) Ex) as M1. set (g0 := set_gray (o_gclist x) g) in *.
  destruct (gray2black_facts x) as (Fw & Fb & Fn).
  destruct (marking_update (also o E) (also o D) A g0 G GA W o x (gray2black x)) as (M2 & Hm2 & Hw2); try done.
  - by left; left.
  - apply sim_marked; [done|done|]. by apply Fn.
  - congruence.
  - apply ow_bit. congruence.
  - congruence.
  - intros Hp. exfalso. apply Hun, elem_of_app. by left.
  - intros _ HD. exfalso. apply HD. by left.
  - destruct (mk_lists _ _ _ _ _ _ _ M) as ((Hgo & _) & _). split_and!; try done; [congruence|]. cbv zeta.
    change (set_gray (o_gclist x) (set_heap (<[o := gray2black x]> (heap g)) g)) with (set_heap (<[o := gray2black x]> (heap g0)) g0). split_and!.
    + exact M2.
    + by destruct Hm2; split.
    + rewrite Hw, Fw, Hw in Hw2. change (heap g0) with (heap g) in Hw2 |- *. lia.
    + apply lookup_insert_eq.
Qed.

Lemma marking_undefer E D A g G GA W p : marking E (also p D) A g G GA W -> p ∉ GA ++ W -> marking E D A g G GA W.
Proof. intros [? ? ? ? ? ? ? ? ? Hset ?] Hp. split; try done. intros q x Ex Hq HD. apply (Hset q); [done..|]. intros [->|?]; done. Qed.

Definition all_threads h L : Prop := forall p, p ∈ L -> exists x, h !! p = Some x /\ is_thread (o_body x) = true.
Lemma threads_marked g g' L : marked g g' -> all_threads (heap g) L -> all_threads (heap g') L.
Proof.
  intros Hm Ha p Hp. destruct (Ha p Hp) as (x & Ex & Ht). destruct (heap_sim_l _ _ _ _ (md_sim _ _ Hm) Ex) as (y & Ey & _ & Hb). exists y. split; [done|].
  by destruct (body_sim_listed _ _ Hb) as (_ & _ & ->).
Qed.
(** What a step of the propagation does; it puts threads in the list of those
    to be traversed again. *)
Definition propagated E D A g G GA W g' : Prop :=
  exists G' GA' W', marking E D A g' G' (GA' ++ GA) (W' ++ W) /\ marked g g' /\ (whites (heap g') + length G' <= whites (heap g) + length G)%nat /\ all_threads (heap g') GA'.

(** The object was traversed and stays black. *)
Lemma propagated_black E D A g o G GA W x r P :
  o ∉ G ++ GA ++ W -> heap g !! o = Some x -> isblack x = true -> iswhite x = false -> is_thread (o_body x) = false -> is_open (o_body x) = false ->
  marking (also o E) (also o D) A g G GA W ->
  mark_post (also o E) (also o D) A g G GA W r P -> (forall g' y, marked g g' -> P (heap g') -> heap g' !! o = Some y -> obj_sim x y -> refs_marked (heap g') (o_body y)) ->
  exists g', r = Ok g' /\ propagated E D A g G GA W g'.
Proof.
  intros Hun Ex Hb Hw Ht Ho M Hpost HP. pose proof (exempt_kept _ _ _ _ _ _ _ _ _ o x Hpost Ex Hw) as (g' & G' & -> & M' & Hm & K & Hw' & HPh & y & Ey & Hs & Hsm).
  exists g'. split; [done|]. exists G', [], []. split; [|split_and!; [done|done|by intros ? ?%not_elem_of_nil]].
  assert (isblack y = true) as Hby by (by rewrite (same_black _ _ Hsm)).
  assert (o ∉ G' ++ GA ++ W) as Hun'.
  { intros Hp. apply elem_of_app in Hp as [Hp|Hp]; [|apply Hun, elem_of_app; by right]. destruct (mk_listed _ _ _ _ _ _ _ M' o) as (z & Ez & _ & _ & Hg); [apply elem_of_app; by left|].
    rewrite Ey in Ez. injection Ez as <-. specialize (Hg (or_introl Hp)). unfold isgray in Hg. by rewrite Hby in Hg. }
  eapply marking_undefer; [|intros Hp; apply Hun', elem_of_app; by right]. destruct Hs as [Hn Hs]. destruct (body_sim_listed _ _ Hs) as (_ & So & St).
  eapply marking_done; [exact M'|exact Ey|done|]. split.
  - intros Hg. unfold isgray in Hg. by rewrite Hby in Hg.
  - intros _. rewrite So, St. split_and!; [|done..]. by apply (HP g' y).
  - rewrite So. by rewrite Ho.
Qed.

(** A weak table was traversed: it waits in its list, gray. *)
Lemma propagated_weak E D A g o G GA W x m isweak g1 :
  o ∉ G ++ GA ++ W -> isblack x = true -> table_traversed (also o E) (also o D) A g G GA W o m x isweak g1 ->
  exists g', (if isweak : bool then upd_obj o black2gray g1 else Ok g1) = Ok g' /\ propagated E D A g G GA W g'.
Proof.
  intros Hun Hb (G' & y & t & M & Hm & Hw & Ey & Eb & Hwy & Hby & Hr). rewrite Hb in Hby. destruct isweak.
  - rewrite (upd_obj_ok _ _ _ _ Ey). eexists. split; [done|]. destruct (black2gray_facts y) as (Fw & Fb & Fn). set (z := black2gray y) in *.
    assert (isgray z = true) as Hgz by (unfold isgray; by rewrite Fb, Fw, Hwy).
    assert (o ∈ G' ++ GA ++ o :: W) as Hin by (rewrite !elem_of_app; right; right; by left).
    destruct (marking_update (also o E) (also o D) A g1 G' GA (o :: W) o y z) as (M2 & Hm2 & Hw2); try done.
    + by left; left.
    + apply sim_marked; [done|done|]. by apply Fn.
    + congruence.
    + apply ow_bit. congruence.
    + intros _ HD. exfalso. apply HD. by left.
    + set (g2 := set_heap (<[o := z]> (heap g1)) g1) in *. assert (heap g2 !! o = Some z) as Ez by apply lookup_insert_eq.
      exists G', [], [o]. split; [|split_and!; [by eapply marked_trans|rewrite Hwy, Fw, Hwy in Hw2; lia|by intros ? ?%not_elem_of_nil]]. cbn [app].
      eapply (marking_settle _ _ _ _ _ _ _ o z).
      * eapply marking_done; [exact M2|exact Ez|done|]. split; [|congruence|].
        -- intros _. split; [done|]. change (o_body z) with (o_body y). by rewrite Eb.
        -- change (o_body z) with (o_body y). by rewrite Eb.
      * exact Ez.
      * eapply (settled_sim (heap g1) (heap g2) o y z); [exact (md_sim _ _ Hm2)|exact (mk_ok _ _ _ _ _ _ _ M)|exact (md_mono _ _ Hm2)|done|done|apply Fn; unfold VALUEWEAKBIT; lia|done].
  - exists g1. split; [done|]. exists G', [], []. split; [|split_and!; [done|done|by intros ? ?%not_elem_of_nil]]. cbn [app].
    assert (o ∉ G' ++ GA ++ W) as Hun'.
    { intros Hp. apply elem_of_app in Hp as [Hp|Hp]; [|apply Hun, elem_of_app; by right]. destruct (mk_listed _ _ _ _ _ _ _ M o) as (z & Ez & _ & _ & Hg); [apply elem_of_app; by left|].
      rewrite Ey in Ez. injection Ez as <-. specialize (Hg (or_introl Hp)). unfold isgray in Hg. by rewrite Hby in Hg. }
    eapply marking_undefer; [|intros Hp; apply Hun', elem_of_app; by right].
    eapply marking_done; [exact M|exact Ey|done|]. split.
    + intros Hg. unfold isgray in Hg. by rewrite Hby in Hg.
    + intros _. rewrite Eb in *. done.
    + rewrite Eb. done.
Qed.

(** A thread is put in the list of those to be traversed again. *)
Lemma propagated_thread E D A g o G GA W x (t : lua_State N) :
  marking (also o E) (also o D) A g G GA W -> o ∉ G ++ GA ++ W -> heap g !! o = Some x -> o_body x = TTHREAD t -> iswhite x = false ->
  exists g' (t' : lua_State N), (g1 <- upd_obj o (with_gclist (grayagain g)) g; g2 <- upd_obj o black2gray (set_grayagain o g1); traversestack o g2) = Ok g' /\
    thread_at g' o = Ok t' /\ propagated E D A g G GA W g'.
Proof.
  intros M Hun Ex Eb Hw. rewrite (upd_obj_ok _ _ _ _ Ex). cbn [bind].
  destruct (marking_relink (also o E) (also o D) A g G GA W G (o :: GA) W (mkLists (gray g) o (weak g)) o x (grayagain g)) as (M1 & Hm1 & Hw1); try done.
  - by left.
  - by rewrite Eb.
  - right; left. split_and!; try done. by left.
  - change (set_grayagain o _) with (set_lists (mkLists (gray g) o (weak g)) (set_heap (<[o := with_gclist (grayagain g) x]> (heap g)) g)).
    set (g1 := set_lists _ _) in *. set (x1 := with_gclist _ x) in *. assert (heap g1 !! o = Some x1) as Ex1 by apply lookup_insert_eq.
    rewrite (upd_obj_ok _ _ _ _ Ex1). cbn [bind]. destruct (black2gray_facts x1) as (Fw & Fb & Fn). set (x2 := black2gray x1) in *.
    assert (iswhite x1 = false) as Hw1' by exact Hw. assert (isgray x2 = true) as Hg2 by (unfold isgray; by rewrite Fb, Fw, Hw1').
    destruct (marking_update (also o E) (also o D) A g1 G (o :: GA) W o x1 x2) as (M2 & Hm2 & Hw2); try done.
    + by left; left.
    + apply sim_marked; [done|done|]. by apply Fn.
    + congruence.
    + apply ow_bit. congruence.
    + intros _ HD. exfalso. apply HD. by left.
    + set (g2 := set_heap (<[o := x2]> (heap g1)) g1) in *. assert (heap g2 !! o = Some x2) as Ex2 by apply lookup_insert_eq.
      destruct (traversestack_post _ _ _ _ _ _ _ o x2 t M2 Ex2 Eb) as (g3 & G3 & -> & M3 & Hm3 & K3 & Hw3 & y & t' & Ey & Eby & Hr).
      exists g3, t'. split; [done|]. split; [by apply (thread_at_ok _ _ _ _ Ey)|]. exists G3, [o], []. split_and!; [|exact (marked_trans _ _ _ Hm1 (marked_trans _ _ _ Hm2 Hm3))|rewrite Fw, Hw1' in Hw2; lia|intros ? ->%list_elem_of_singleton; exists y; by rewrite Eby].
      cbn [app]. destruct (K3 o x2 Ex2) as (y' & Ey' & Hs); [congruence|]. assert (y' = y) as -> by congruence.
      assert (isgray y = true) as Hgy by (rewrite (same_gray _ _ Hs); exact Hg2).
      eapply marking_settle; [|exact Ey|unfold settled; by rewrite Eby].
      eapply marking_done; [exact M3|exact Ey|done|]. split.
      * intros _. split; [|by rewrite Eby]. intros _. rewrite !elem_of_app. right; left. by left.
      * intros Hbl. unfold isgray in Hgy. by rewrite Hbl in Hgy.
      * by rewrite Eby.
Qed.

Lemma body_sim_inv b b' : body_sim b b' -> is_thread b = false -> (forall m t, b <> TTABLE m t) -> b' = b.
Proof. intros [] Ht Hn; [done|by destruct (Hn m t)|done]. Qed.

(** One step of the propagation: an object leaves the gray list, and that
    and the white objects that it marked come to fewer. *)
Lemma propagatemark_post E D A g o G GA W :
  marking E D A g (o :: G) GA W -> names_ok g -> exists k g', propagatemark g = Ok (k, g') /\ propagated E D A g G GA W g'.
Proof.
  intros M Hna. destruct (pop_black _ _ _ _ _ _ _ _ M) as (x & Ex & Hgo & Hg & Hl & Hun & Hb & Hw & M1 & Hm1 & Hw1 & Ex1).
  unfold propagatemark. rewrite Hgo, (upd_obj_ok _ _ _ _ Ex). cbn [bind]. set (x1 := gray2black x) in *.
  assert (forall y, heap (set_heap (<[o := y]> (heap g)) g) !! o = Some y) as Hat by (intros y; apply lookup_insert_eq).
  rewrite (obj_at_ok _ _ _ (Hat x1)). cbn [bind]. change (o_gclist x1) with (o_gclist x). set (g1 := set_gray (o_gclist x) _) in *.
  assert (names_ok g1) as Hna1 by exact Hna. pose proof (mk_ok _ _ _ _ _ _ _ M1 o x1 Ex1) as Hok. pose proof (obj_refs_typed _ _ _ _ _ _ _ _ _ M1 Ex1) as Ht.
  assert (forall g', propagated E D A g1 G GA W g' -> propagated E D A g G GA W g') as Hfin.
  { intros g' (G' & GA' & W' & M' & Hm & Hw' & Hth). exists G', GA', W'. split_and!; [done|by eapply marked_trans|lia|done]. }
  assert (forall r, is_thread (o_body x1) = false -> (forall m t, o_body x1 <> TTABLE m t) -> is_open (o_body x1) = false ->
    mark_post (also o E) (also o D) A g1 G GA W r (fun h => refs_marked h (o_body x1)) -> exists g', r = Ok g' /\ propagated E D A g1 G GA W g') as Hblack.
  { intros r Hth Htb Hop Hpost. apply (propagated_black _ _ _ _ _ _ _ _ x1 r _ Hun Ex1 Hb Hw Hth Hop M1 Hpost). intros g' y _ Hr _ [_ Hs]. by rewrite (body_sim_inv _ _ Hs Hth Htb). }
  destruct (o_body x1) as [ha s|m env len|u|env ups|env f uvs|m t|t|f] eqn:Eb; try (change (o_body x1) with (o_body x) in Eb; by rewrite Eb in Hl).
  - destruct (Hblack (traverseclosure (TCCLOSURE env ups) g1)) as (g' & -> & Hp); [done..|apply traverseclosure_post; [done..|left; by eexists _, _]|]. cbn [bind]. eexists _, g'. split; [done|auto].
  - destruct (Hblack (traverseclosure (TLCLOSURE env f uvs) g1)) as (g' & -> & Hp); [done..|apply traverseclosure_post; [done..|right; by eexists _, _, _]|]. cbn [bind]. eexists _, g'. split; [done|auto].
  - destruct (traversetable_post (also o E) (also o D) A g1 G GA W o x1 m t M1) as (isweak & g2 & -> & Htr); [by left|by left|done..|]. cbn [bind].
    destruct (propagated_weak _ _ _ _ _ _ _ _ _ _ _ _ Hun Hb Htr) as (g3 & -> & Hp). cbn [bind]. eexists _, g3. split; [done|auto].
  - destruct (propagated_thread _ _ _ _ _ _ _ _ x1 t M1 Hun Ex1 Eb Hw) as (g3 & t' & E3 & Et & Hp). destruct (upd_obj o _ g1) as [g2| |] eqn:E2; try done. cbn [bind] in *.
    destruct (upd_obj o black2gray _) as [g4| |] eqn:E4; try done. cbn [bind] in *. rewrite E3. cbn [bind]. rewrite Et. cbn [bind]. eexists _, g3. split; [done|auto].
  - destruct (Hblack (traverseproto f g1)) as (g' & -> & Hp); [done..|by apply traverseproto_post|]. cbn [bind]. eexists _, g'. split; [done|auto].
Qed.

(** * Until no object is gray *)

Lemma whites_size h : (whites h <= size h)%nat.
Proof. unfold whites. rewrite <- length_map_to_list. apply length_filter. Qed.
Lemma marking_gray_size E D A g G GA W : marking E D A g G GA W -> (length G <= size (heap g))%nat.
Proof.
  intros M. pose proof (mk_nodup _ _ _ _ _ _ _ M) as Hn. apply NoDup_app in Hn as (Hn & _). rewrite <- size_dom. rewrite <- (size_list_to_set (C := gset Z) G Hn). apply subseteq_size.
  intros p Hp. apply elem_of_list_to_set in Hp. destruct (mk_listed _ _ _ _ _ _ _ M p) as (x & Ex & _); [apply elem_of_app; by left|]. apply elem_of_dom. by exists x.
Qed.
Lemma names_marked g g' : marked g g' -> names_ok g -> names_ok g'.
Proof. intros Hm Hn e He. rewrite (md_roots _ _ Hm). by apply Hn. Qed.

Lemma propagateall_post E D A g G GA W : marking E D A g G GA W -> names_ok g ->
  exists m g', propagateall g = Ok (m, g') /\ exists GA' W', marking E D A g' [] (GA' ++ GA) (W' ++ W) /\ marked g g' /\ all_threads (heap g') GA'.
Proof.
  intros M Hna. unfold propagateall.
  set (I := fun (s : Z * gstate N) k => exists G' GA' W', marking E D A s.2 G' (GA' ++ GA) (W' ++ W) /\ marked g s.2 /\ names_ok s.2 /\ (whites (heap s.2) + length G' <= k)%nat /\ all_threads (heap s.2) GA').
  assert (forall n k s, I s k -> (k < n)%nat -> exists r, loop n (fun s : Z * gstate N => let '(m, g) := s in
    if gray g =? 0 then Ok (inr (m, g)) else '(k, g) <- propagatemark g; Ok (inl (u64 (m + k), g))) s = Ok r /\ exists GA' W', marking E D A r.2 [] (GA' ++ GA) (W' ++ W) /\ marked g r.2 /\ all_threads (heap r.2) GA') as Hl.
  { induction n as [|n IH]; intros k [m g1] (G1 & GA1 & W1 & M1 & Hm1 & Hn1 & Hk & Ht1) Hlt; [lia|]. cbn [snd] in *. cbn [loop]. destruct (mk_lists _ _ _ _ _ _ _ M1) as (Hl1 & _). destruct G1 as [|o G1].
    - rewrite Hl1. cbn. eexists. split; [done|]. exists GA1, W1. done.
    - destruct Hl1 as (-> & Ho & _). rewrite (proj2 (Z.eqb_neq _ _)) by done.
      destruct (propagatemark_post _ _ _ _ _ _ _ _ M1 Hn1) as (k1 & g2 & -> & G2 & GA2 & W2 & M2 & Hm2 & Hw2 & Ht2). cbn [bind]. cbn [length] in Hk. apply (IH (k - 1)%nat); [|lia].
      exists G2, (GA2 ++ GA1), (W2 ++ W1). cbn [snd]. split_and!; [by rewrite <- !app_assoc|by eapply marked_trans|by eapply names_marked|lia|]. intros p [Hp|Hp]%elem_of_app; [by apply Ht2|by eapply threads_marked]. }
  destruct (Hl (2 + 2 * size (heap g))%nat (whites (heap g) + length G)%nat (0, g)) as ([m g'] & -> & HQ).
  - exists G, [], []. split_and!; [done|apply marked_refl|done|done|by intros ? ?%not_elem_of_nil].
  - pose proof (whites_size (heap g)). pose proof (marking_gray_size _ _ _ _ _ _ _ M). lia.
  - by exists m, g'.
Qed.
End Traverse.
