(* ===== verification/LuaOwn.v ===== *)
(** The lists that own the collectable objects of Lua: the list rootgc, which
    goes on with the userdata after the main thread, the chains of the string
    table, the open upvalues of each thread, the ring of userdata that wait for
    their finalizers, and the ring of all open upvalues.  The type of an object
    says which list it is in.

    The open upvalues in the atomic step of the collector of Lua: those that
    are not white have their values marked. *)
From stdpp Require Import base gmap list.
From Stdlib Require Import ZArith Lia.
From S2P Require Import Prelude LuaNumber LuaTable LuaString LuaHeap LuaMark LuaGc LuaMarkWf LuaMarkSpec LuaTraverse.
Open Scope Z_scope.


Section Own.
Context {N : Type} `{LuaNumber N}.
Implicit Types (g : gstate N) (h : gmap Z (GCObject N)) (x y : GCObject N) (b : gcbody N) (L R UD T U : list Z) (SC : list (list Z)) (OP : Z -> list Z).

(** * Paths *)

(** From [p] through the objects of [L] to [q]. *)
Fixpoint path h (p : Z) L (q : Z) : Prop :=
  match L with
  | [] => p = q
  | a :: L => p = a /\ exists x, h !! a = Some x /\ path h (o_next x) L q
  end.
Lemma path_ext h h' p L q : (forall a x, a ∈ L -> h !! a = Some x -> exists y, h' !! a = Some y /\ o_next y = o_next x) -> path h p L q -> path h' p L q.
Proof.
  revert p. induction L as [|a L IH]; intros p Hf; [done|]. intros (-> & x & E & Hl). destruct (Hf a x ltac:(by left) E) as (y & Ey & Efy).
  split; [done|]. exists y. split; [done|]. rewrite Efy. apply IH; [|done]. intros b z Hb. apply Hf. by right.
Qed.
Lemma path_app h p L1 L2 q : path h p (L1 ++ L2) q <-> exists m, path h p L1 m /\ path h m L2 q.
Proof.
  revert p. induction L1 as [|a L IH]; intros p; cbn.
  - split; [intros Hp; by exists p|]. by intros (m & -> & Hp).
  - split.
    + intros (-> & x & E & (m & H1 & H2)%IH). exists m. split; [|done]. split; [done|]. by exists x.
    + intros (m & (-> & x & E & H1) & H2). split; [done|]. exists x. split; [done|]. apply IH. by exists m.
Qed.
Lemma linked_path h p L : linked o_next h p L -> path h p L 0.
Proof. revert p. induction L as [|a L IH]; intros p; [done|]. intros (-> & _ & x & E & Hl). split; [done|]. exists x. split; [done|]. by apply IH. Qed.
Lemma path_linked h p L : path h p L 0 -> 0 ∉ L -> linked o_next h p L.
Proof.
  revert p. induction L as [|a L IH]; intros p; [done|]. intros (-> & x & E & Hl) Hn. split; [done|]. apply not_elem_of_cons in Hn as [? ?]. split; [done|]. exists x. split; [done|]. by apply IH.
Qed.
Lemma linked_nonzero f h p L : linked f h p L -> 0 ∉ L.
Proof.
  revert p. induction L as [|a L IH]; intros p Hl; [apply not_elem_of_nil|]. destruct Hl as (_ & Ha & x & _ & Hl). apply not_elem_of_cons. split; [done|by eapply IH].
Qed.

(** The open upvalues from [p] on, the one before [p] being [q]; the last is
    [e], and [r] follows it. *)
Fixpoint uvring h (q p : Z) U (e r : Z) : Prop :=
  match U with
  | [] => p = r /\ q = e
  | a :: U => p = a /\ exists x th i n, h !! a = Some x /\ o_body x = TUPVAL (UOpen th i q n) /\ uvring h a n U e r
  end.

(** * Owners *)

Inductive owner : Type := HRoot | HString | HUdata | HOpen (th : Z).
Definition home b : owner :=
  match b with TSTRING _ _ => HString | TUSERDATA _ _ _ => HUdata | TUPVAL (UOpen th _ _ _) => HOpen th | _ => HRoot end.
(** The object at [p] belongs to [o]. *)
Definition homed h (o : owner) (p : Z) : Prop := exists x, h !! p = Some x /\ home (o_body x) = o.

Definition main g : Z := mainthread (roots g).
(** [tmudata] is the last element of its ring. *)
Definition tmring g T : Prop :=
  T = [] /\ tmudata g = 0 \/ tmudata g <> 0 /\ exists T' p, T = T' ++ [tmudata g] /\ path (heap g) p T p.

(** The main list, with the userdata at its end, and the ring of userdata. *)
Record outer g R UD T : Prop := {
  od_root : linked o_next (heap g) (rootgc g) (R ++ main g :: UD);
  od_tmu : tmring g T;
  od_nodup : NoDup (R ++ main g :: UD ++ T);
  od_homes_root p : p ∈ R ++ [main g] <-> homed (heap g) HRoot p;
  od_homes_udata p : p ∈ UD ++ T <-> homed (heap g) HUdata p
}.
(** The strings and the open upvalues. *)
Record inner g SC OP U : Prop := {
  od_null : heap g !! 0 = None /\ heap g !! UVHEAD = None;
  od_main : exists x (t : lua_State N), heap g !! main g = Some x /\ o_body x = TTHREAD t;
  od_strt : Z.of_nat (length (st_hash (strt g))) = st_size (strt g) /\ Forall2 (linked o_next (heap g)) (st_hash (strt g)) SC /\ exists k, 0 <= k /\ st_size (strt g) = 2 ^ k;
  od_open p x (t : lua_State N) : heap g !! p = Some x -> o_body x = TTHREAD t -> linked o_next (heap g) (openupval t) (OP p);
  od_uv : uvring (heap g) UVHEAD (ol_uvnext (owners g)) U (ol_uvprev (owners g)) UVHEAD;
  od_nodups : NoDup (concat SC) /\ (forall th, NoDup (OP th)) /\ NoDup U;
  od_homes_string p : p ∈ concat SC <-> homed (heap g) HString p;
  od_homes_open th p : p ∈ OP th <-> homed (heap g) (HOpen th) p;
  od_opens p : p ∈ U <-> exists x, heap g !! p = Some x /\ is_open (o_body x) = true;
  od_fixed p x : heap g !! p = Some x -> bit x FIXEDBIT = true -> home (o_body x) = HString \/ p = main g
}.

(** The collector marks objects without touching the lists. *)
Lemma home_sim b b' : body_sim b b' -> home b' = home b.
Proof. by intros []. Qed.
Lemma homed_sim h h' o p : heap_sim h h' -> homed h o p <-> homed h' o p.
Proof.
  intros Hs. split.
  - intros (x & Ex & <-). destruct (heap_sim_l _ _ _ _ Hs Ex) as (y & Ey & _ & Hb). exists y. split; [done|by apply home_sim].
  - intros (y & Ey & <-). destruct (heap_sim_r _ _ _ _ Hs Ey) as (x & Ex & _ & Hb). exists x. split; [done|symmetry; by apply home_sim].
Qed.
Lemma linked_sim h h' p L : heap_sim h h' -> linked o_next h p L -> linked o_next h' p L.
Proof. intros Hs. apply linked_ext. intros a x _ Ex. destruct (heap_sim_l _ _ _ _ Hs Ex) as (y & Ey & [En _] & _). by exists y. Qed.
Lemma path_sim h h' p L q : heap_sim h h' -> path h p L q -> path h' p L q.
Proof. intros Hs. apply path_ext. intros a x _ Ex. destruct (heap_sim_l _ _ _ _ Hs Ex) as (y & Ey & [En _] & _). by exists y. Qed.
Lemma uvring_ext h h' q p U e r :
  (forall a x, a ∈ U -> h !! a = Some x -> is_open (o_body x) = true -> exists y, h' !! a = Some y /\ o_body y = o_body x) -> uvring h q p U e r -> uvring h' q p U e r.
Proof.
  revert q p. induction U as [|a U IH]; intros q p Hs; [done|]. intros (-> & x & th & i & n & Ex & Eb & Hr). split; [done|].
  destruct (Hs a x ltac:(by left) Ex) as (y & Ey & Eby); [by rewrite Eb|]. exists y, th, i, n. split; [done|]. split; [congruence|]. apply IH; [|done]. intros b z Hb. apply Hs. by right.
Qed.
Lemma uvring_sim h h' q p U e r : heap_sim h h' -> uvring h q p U e r -> uvring h' q p U e r.
Proof.
  intros Hs. apply uvring_ext. intros a x _ Ex Ho. destruct (heap_sim_l _ _ _ _ Hs Ex) as (y & Ey & _ & Hb). exists y. split; [done|]. by destruct Hb.
Qed.
Lemma sim_none h h' p : heap_sim h h' -> h !! p = None -> h' !! p = None.
Proof. intros Hs E. specialize (Hs p). rewrite E in Hs. by inversion Hs. Qed.

Lemma tmring_ext g g' T : tmudata g' = tmudata g -> (forall a x, a ∈ T -> heap g !! a = Some x -> exists y, heap g' !! a = Some y /\ o_next y = o_next x) -> tmring g T -> tmring g' T.
Proof.
  intros Et Hx [[-> Ht]|(Ht & T' & p & ET & Hp)]; [left; split; congruence|right]. rewrite Et. split; [done|]. exists T', p. split; [done|]. by eapply path_ext.
Qed.
Lemma outer_sim g g' R UD T : heap_sim (heap g) (heap g') -> owners g' = owners g -> roots g' = roots g -> outer g R UD T -> outer g' R UD T.
Proof.
  intros Hs Ho Hr [O1 O2 O3 O4 O5]. assert (main g' = main g) as Em by (unfold main; by rewrite Hr). split; rewrite ?Em; unfold rootgc; rewrite ?Ho.
  - by eapply linked_sim.
  - eapply tmring_ext; [|..|exact O2]; [unfold tmudata; by rewrite Ho|]. intros a x _ Ex. destruct (heap_sim_l _ _ _ _ Hs Ex) as (y & Ey & [En _] & _). by exists y.
  - done.
  - intros p. rewrite O4. by apply homed_sim.
  - intros p. rewrite O5. by apply homed_sim.
Qed.
Lemma inner_sim g g' SC OP U : heap_sim (heap g) (heap g') -> owners g' = owners g -> roots g' = roots g -> inner g SC OP U -> inner g' SC OP U.
Proof.
  intros Hs Ho Hr [[O1 O1'] (xm & tm & Em & Ebm) (O4 & O4' & O4p) O5 O7 O8 O9 O10 O13 O14].
  assert (main g' = main g) as Emain by (unfold main; by rewrite Hr). split; unfold strt in *; rewrite ?Emain, ?Ho; try done.
  - split; by eapply sim_none.
  - destruct (heap_sim_l _ _ _ _ Hs Em) as (y & Ey & _ & Hb). rewrite Ebm in Hb. exists y. inversion Hb; subst; by eexists.
  - split_and!; [done| |done]. eapply Forall2_impl; [exact O4'|]. intros p L. by apply linked_sim.
  - intros p y t' Ey Et. destruct (heap_sim_r _ _ _ _ Hs Ey) as (x & Ex & _ & Hb). rewrite Et in Hb. inversion Hb as [b Eb|?|t t2 Ht]; subst; (eapply linked_sim; [exact Hs|]).
    + by eapply O5.
    + rewrite (hs_open _ _ Ht). by eapply O5.
  - by eapply uvring_sim.
  - intros p. rewrite O9. by apply homed_sim.
  - intros th p. rewrite O10. by apply homed_sim.
  - intros p. rewrite O13. split.
    + intros (x & Ex & Eo). destruct (heap_sim_l _ _ _ _ Hs Ex) as (y & Ey & _ & Hb). exists y. split; [done|]. by destruct (body_sim_listed _ _ Hb) as (_ & -> & _).
    + intros (y & Ey & Eo). destruct (heap_sim_r _ _ _ _ Hs Ey) as (x & Ex & _ & Hb). exists x. split; [done|]. destruct (body_sim_listed _ _ Hb) as (_ & E2 & _). congruence.
  - intros p y Ey Hf. destruct (heap_sim_r _ _ _ _ Hs Ey) as (x & Ex & [_ Ef] & Hb). rewrite (home_sim _ _ Hb). apply O14; [done|congruence].
Qed.
Lemma outer_marked g g' R UD T : marked g g' -> outer g R UD T -> outer g' R UD T.
Proof. intros [? ? ? ? ?]. by apply outer_sim. Qed.
Lemma inner_marked g g' SC OP U : marked g g' -> inner g SC OP U -> inner g' SC OP U.
Proof. intros [? ? ? ? ?]. by apply inner_sim. Qed.

(** * Only links change *)

Definition same_but_next x y : Prop := o_marked y = o_marked x /\ o_gclist y = o_gclist x /\ o_body y = o_body x.
Definition heap_eqv h h' : Prop := forall p, option_Forall2 same_but_next (h !! p) (h' !! p).
Lemma heap_eqv_refl h : heap_eqv h h.
Proof. intros p. destruct (h !! p); by constructor. Qed.
Lemma heap_eqv_sym h h' : heap_eqv h h' -> heap_eqv h' h.
Proof. intros Hs p. specialize (Hs p). destruct Hs as [x y (E1 & E2 & E3)|]; constructor. by split_and!. Qed.
Lemma heap_eqv_trans h1 h2 h3 : heap_eqv h1 h2 -> heap_eqv h2 h3 -> heap_eqv h1 h3.
Proof.
  intros H1 H2 p. specialize (H1 p). specialize (H2 p). destruct H1 as [x y (E1 & E2 & E3)|]; inversion H2 as [? z (F1 & F2 & F3)|]; subst; constructor. split_and!; congruence.
Qed.
Lemma heap_eqv_next h p q x : h !! p = Some x -> heap_eqv h (<[p := with_next q x]> h).
Proof.
  intros E r. destruct (decide (p = r)) as [<-|Hne]; [rewrite lookup_insert_eq, E; by constructor|]. rewrite lookup_insert_ne by done. apply heap_eqv_refl.
Qed.
Lemma heap_eqv_l h h' p x : heap_eqv h h' -> h !! p = Some x -> exists y, h' !! p = Some y /\ same_but_next x y.
Proof. intros Hs E. specialize (Hs p). rewrite E in Hs. inversion Hs; subst. eauto. Qed.
Lemma heap_eqv_r h h' p y : heap_eqv h h' -> h' !! p = Some y -> exists x, h !! p = Some x /\ same_but_next x y.
Proof. intros Hs E. specialize (Hs p). rewrite E in Hs. inversion Hs; subst. eauto. Qed.
Lemma slot_eqv h h' th i : heap_eqv h h' -> slot h' th i = slot h th i.
Proof. intros Hs. unfold slot. specialize (Hs th). destruct Hs as [x y (_ & _ & ->)|]; done. Qed.
Lemma refs_eqv h h' b : heap_eqv h h' -> refs h' b = refs h b.
Proof. intros Hs. destruct b; try done. destruct v; [|done]. cbn. by rewrite (slot_eqv _ _ _ _ Hs). Qed.
Lemma nonwhite_eqv h h' c : heap_eqv h h' -> nonwhite h c -> nonwhite h' c.
Proof. intros Hs (x & Ex & Hw). destruct (heap_eqv_l _ _ _ _ Hs Ex) as (y & Ey & Em & _). exists y. split; [done|]. unfold iswhite. by rewrite Em. Qed.
Lemma body_ok_eqv h h' b : heap_eqv h h' -> body_ok h b -> body_ok h' b.
Proof.
  intros Hs. destruct b; try done. destruct v; [|done]. intros (x & t & Ex & Et & Hi). destruct (heap_eqv_l _ _ _ _ Hs Ex) as (y & Ey & _ & _ & Eb). exists y, t. by rewrite Eb.
Qed.
Lemma typed_eqv h h' c t : heap_eqv h h' -> (exists y, h !! c = Some y /\ gch_tt y = t) -> exists y, h' !! c = Some y /\ gch_tt y = t.
Proof. intros Hs (y & Ey & Et). destruct (heap_eqv_l _ _ _ _ Hs Ey) as (z & Ez & _ & _ & Eb). exists z. split; [done|]. unfold gch_tt in *. by rewrite Eb. Qed.
Lemma settled_eqv h h' x y : heap_eqv h h' -> same_but_next x y -> settled h x -> settled h' y.
Proof.
  intros Hs (Em & _ & Eb). unfold settled, bit. rewrite Eb, Em. destruct (o_body x) as [| | | | |m t|t|] eqn:E; try done.
  - intros [H1 H2]. split; [intros c ty Hc; by eapply nonwhite_eqv, H1|]. destruct H2 as [?|H2]; [by left|right]. intros c ty Hc. by eapply nonwhite_eqv, H2.
  - intros Hr c ty Hc. eapply nonwhite_eqv; [done|]. apply (Hr c ty). by rewrite (refs_eqv _ _ _ Hs) in Hc.
Qed.
Lemma fine_eqv (A : Prop) h h' L p x y : heap_eqv h h' -> same_but_next x y -> fine A h L p x -> fine A h' L p y.
Proof.
  intros Hs (Em & _ & Eb) [F1 F2 F3]. assert (refs_marked h (o_body x) -> refs_marked h' (o_body x)) as Hr.
  { intros Hr c ty Hc. eapply nonwhite_eqv; [done|]. apply (Hr c ty). by rewrite (refs_eqv _ _ _ Hs) in Hc. }
  split; unfold isgray, isblack, iswhite in *; rewrite Em, Eb; [done| |auto]. intros Hb. destruct (F2 Hb) as (? & ? & ?). auto.
Qed.

Lemma marking_eqv E D (A : Prop) g g' G GA W :
  heap_eqv (heap g) (heap g') -> lists g' = lists g -> phase g' = phase g -> marking E D A g G GA W -> marking E D A g' G GA W.
Proof.
  intros Hs Hl Hp [M1 M2 M3 M4 M5 (M6a & M6b & M6c) M7 M8 M9 M10 M11].
  assert (currentwhite g' = currentwhite g) as Ecw by (unfold currentwhite; by rewrite Hp). assert (ow g' = ow g) as Eow by (unfold ow, cw; by rewrite Ecw).
  assert (forall p L, linked o_gclist (heap g) p L -> linked o_gclist (heap g') p L) as Hlk.
  { intros p L. apply linked_ext. intros a x _ Ex. destruct (heap_eqv_l _ _ _ _ Hs Ex) as (y & Ey & _ & Eg & _). by exists y. }
  split; unfold gray, grayagain, weak, white_ok in *; rewrite ?Hl, ?Ecw, ?Eow; try done.
  - specialize (Hs 0). rewrite M2 in Hs. by inversion Hs.
  - intros p y Ey. destruct (heap_eqv_r _ _ _ _ Hs Ey) as (x & Ex & _ & _ & ->). eapply body_ok_eqv; [done|by eapply M3].
  - intros p y c t Ey Hr. destruct (heap_eqv_r _ _ _ _ Hs Ey) as (x & Ex & _ & _ & Eb). rewrite Eb, (refs_eqv _ _ _ Hs) in Hr. eapply typed_eqv; [done|by eapply M4].
  - intros p y Ey. destruct (heap_eqv_r _ _ _ _ Hs Ey) as (x & Ex & Em & _). unfold bit, iswhite, isblack. rewrite Em. by apply (M5 p x).
  - split_and!; by apply Hlk.
  - intros p Hin. destruct (M8 p Hin) as (x & Ex & Hx). destruct (heap_eqv_l _ _ _ _ Hs Ex) as (y & Ey & Em & _ & Eb). exists y. split; [done|].
    unfold iswhite, isgray, isblack, iswhite in *. by rewrite Em, Eb.
  - intros p y Ey He. destruct (heap_eqv_r _ _ _ _ Hs Ey) as (x & Ex & Hsn). eapply fine_eqv; [done..|by apply M9].
  - intros p y Ey He Hd. destruct (heap_eqv_r _ _ _ _ Hs Ey) as (x & Ex & Hsn). eapply settled_eqv; [done..|by apply (M10 p)].
  - intros p y Ey Hw. destruct (heap_eqv_r _ _ _ _ Hs Ey) as (x & Ex & _ & _ & ->). by eapply M11.
Qed.

Lemma homed_eqv h h' o p : heap_eqv h h' -> homed h o p <-> homed h' o p.
Proof.
  assert (forall h h', heap_eqv h h' -> homed h o p -> homed h' o p) as Hh.
  { intros h1 h2 Hs (x & Ex & <-). destruct (heap_eqv_l _ _ _ _ Hs Ex) as (y & Ey & _ & _ & Eb). exists y. split; [done|by rewrite Eb]. }
  intros Hs. split; apply Hh; [done|by apply heap_eqv_sym].
Qed.
(** The links of strings and of open upvalues stay. *)
Lemma inner_eqv g g' SC OP U :
  heap_eqv (heap g) (heap g') -> strt g' = strt g -> ol_uvnext (owners g') = ol_uvnext (owners g) -> ol_uvprev (owners g') = ol_uvprev (owners g) -> roots g' = roots g ->
  (forall p x y, heap g !! p = Some x -> heap g' !! p = Some y -> home (o_body x) <> HRoot -> home (o_body x) <> HUdata -> o_next y = o_next x) ->
  inner g SC OP U -> inner g' SC OP U.
Proof.
  intros Hs Hst Hn Hp Hr Hnx [[O1 O1'] (xm & tm & Em & Ebm) (O4 & O4' & O4p) O5 O7 O8 O9 O10 O13 O14].
  assert (main g' = main g) as Emain by (unfold main; by rewrite Hr).
  assert (forall p L, (forall a, a ∈ L -> exists o, homed (heap g) o a /\ o <> HRoot /\ o <> HUdata) -> linked o_next (heap g) p L -> linked o_next (heap g') p L) as Hlk.
  { intros p L HL. apply linked_ext. intros a x Ha Ex. destruct (heap_eqv_l _ _ _ _ Hs Ex) as (y & Ey & _). exists y. split; [done|]. destruct (HL a Ha) as (o & (x' & Ex' & <-) & ? & ?).
    rewrite Ex in Ex'. injection Ex' as <-. by apply (Hnx a). }
  split; rewrite ?Emain, ?Hst, ?Hn, ?Hp; try done.
  - split; [specialize (Hs 0); rewrite O1 in Hs|specialize (Hs UVHEAD); rewrite O1' in Hs]; by inversion Hs.
  - destruct (heap_eqv_l _ _ _ _ Hs Em) as (y & Ey & _ & _ & Eb). exists y, tm. split; [done|congruence].
  - split_and!; [done| |done]. apply Forall2_same_length_lookup. split; [by eapply Forall2_length|]. intros i p L Ep EL. eapply Hlk; [|by eapply Forall2_lookup_lr].
    intros a Ha. exists HString. split; [|done]. apply O9. apply list_elem_of_In, in_concat. exists L. split; apply list_elem_of_In; [by eapply list_elem_of_lookup_2|done].
  - intros p y t Ey Et. destruct (heap_eqv_r _ _ _ _ Hs Ey) as (x & Ex & _ & _ & Eb). eapply Hlk; [|eapply O5; [exact Ex|congruence]].
    intros a Ha. exists (HOpen p). split; [|done]. by apply O10.
  - eapply uvring_ext; [|exact O7]. intros a x _ Ex _. destruct (heap_eqv_l _ _ _ _ Hs Ex) as (y & Ey & _ & _ & Eb). by exists y.
  - intros p. rewrite O9. by apply homed_eqv.
  - intros th p. rewrite O10. by apply homed_eqv.
  - intros p. rewrite O13. split; intros (x & Ex & Eo).
    + destruct (heap_eqv_l _ _ _ _ Hs Ex) as (y & Ey & _ & _ & Eb). exists y. by rewrite Eb.
    + destruct (heap_eqv_r _ _ _ _ Hs Ex) as (y & Ey & _ & _ & Eb). exists y. by rewrite <- Eb.
  - intros p y Ey. destruct (heap_eqv_r _ _ _ _ Hs Ey) as (x & Ex & Em' & _ & Eb). unfold bit. rewrite Em', Eb. by apply O14.
Qed.

(** * Taking an object out of a list *)

Lemma linked_at f h p L1 (b : Z) L2 : linked f h p (L1 ++ b :: L2) -> b <> 0 /\ exists x, h !! b = Some x /\ linked f h (f x) L2.
Proof. revert p. induction L1 as [|a L1 IH]; intros p; cbn; [intros (_ & ? & ?); done|]. intros (_ & _ & x & _ & Hl). by eapply IH. Qed.
Lemma linked_replace f h h' p L1 (b : Z) L2 L2' y :
  linked f h p (L1 ++ b :: L2) -> (forall a x, a ∈ L1 -> h !! a = Some x -> exists z, h' !! a = Some z /\ f z = f x) -> h' !! b = Some y -> linked f h' (f y) L2' ->
  linked f h' p (L1 ++ b :: L2').
Proof.
  revert p. induction L1 as [|a L1 IH]; intros p; cbn.
  - intros (-> & Hb & _) _ Ey Hl. split; [done|]. split; [done|]. by exists y.
  - intros (-> & Ha & x & Ex & Hl) Hx Ey Hl'. destruct (Hx a x ltac:(by left) Ex) as (z & Ez & Ef). split; [done|]. split; [done|]. exists z. split; [done|]. rewrite Ef.
    apply IH; [done| |done..]. intros c w Hc. apply Hx. by right.
Qed.
(** [b] is followed by what followed [a]. *)
Lemma linked_cut h p L1 (b a : Z) L2 xb xa :
  linked o_next h p (L1 ++ b :: a :: L2) -> NoDup (L1 ++ b :: a :: L2) -> h !! b = Some xb -> h !! a = Some xa ->
  linked o_next (<[b := with_next (o_next xa) xb]> h) p (L1 ++ b :: L2).
Proof.
  intros Hl Hnd Eb Ea. apply NoDup_app in Hnd as (_ & Hd & Hn2). apply NoDup_cons in Hn2 as [Hb _]. apply not_elem_of_cons in Hb as [Hba Hb].
  eapply linked_replace; [exact Hl| |apply lookup_insert_eq|].
  - intros c x Hc Ex. exists x. rewrite lookup_insert_ne; [done|]. intros ->. apply (Hd c Hc). by left.
  - cbn [o_next with_next]. destruct (linked_at _ _ _ _ _ _ Hl) as (_ & x & Ex & _ & _ & y & Ey & Hl2). rewrite Ea in Ey. injection Ey as <-. by apply linked_insert.
Qed.

(** A list of distinct objects is no longer than the heap. *)
Lemma nodup_size h L : NoDup L -> (forall p, p ∈ L -> is_Some (h !! p)) -> (length L <= size h)%nat.
Proof.
  intros Hn Hl. rewrite <- size_dom. rewrite <- (size_list_to_set (C := gset Z) L Hn). apply subseteq_size.
  intros p Hp. apply elem_of_list_to_set in Hp. by apply elem_of_dom, Hl.
Qed.
End Own.

Section Remark.
Context {N : Type} `{LuaNumber N}.
Implicit Types (g : gstate N) (h : gmap Z (GCObject N)) (x y : GCObject N) (v : TValue N) (b : gcbody N) (E D : Z -> Prop) (G GA W U T : list Z) (A : Prop).

(** * Open upvalues *)

Lemma upval_at_ok g p x u : heap g !! p = Some x -> o_body x = TUPVAL u -> upval_at g p = Ok u.
Proof. intros Ex Eb. unfold upval_at. rewrite (obj_at_ok _ _ _ Ex). cbn. by rewrite Eb. Qed.

Lemma marking_open_exempt E D g G GA W U :
  marking E D False g G GA W -> (forall p x, heap g !! p = Some x -> is_open (o_body x) = true -> p ∈ U) -> marking (fun p => p ∈ U \/ E p) D True g G GA W.
Proof.
  intros [? ? ? ? ? ? ? L F ? ?] HU. split; try done.
  - intros p Hp. destruct (L p Hp) as (x & Ex & ? & ? & Hg). exists x. split_and!; try done. intros [?|?]; apply Hg; [by left|right; tauto].
  - intros p x Ex Hp. destruct (F p x Ex ltac:(tauto)) as [F1 F2 F3]. split; [done..|]. intros _ Ho. exfalso. apply Hp. left. by eapply HU.
Qed.
Lemma marking_exempt_iff E E' D A g G GA W : (forall p, E p <-> E' p) -> marking E D A g G GA W -> marking E' D A g G GA W.
Proof. intros HE. apply marking_weaken; [apply HE|done|done]. Qed.

Lemma open_refs g a x th i pv nx g' y : heap_ok (heap g) -> marked g g' -> heap g !! a = Some x -> o_body x = TUPVAL (UOpen th i pv nx) -> heap g' !! a = Some y ->
  all_marked (heap g') (refs (heap g) (o_body x)) -> refs_marked (heap g') (o_body y).
Proof. intros Hok Hm Ex Eb Ey Ha c t Hc. apply (Ha c t). by eapply refs_sim; [apply (md_sim _ _ Hm)|..]. Qed.

Lemma remark_step_post E D g GA W a U e q uv g1 G1 G2 :
  (forall p x, E p -> heap g !! p = Some x -> is_open (o_body x) = false) ->
  uvring (heap g1) q uv (a :: U) e UVHEAD -> uv <> UVHEAD -> marking E D False g1 G1 GA W -> marking (fun p => p ∈ a :: U \/ E p) D True g1 G2 GA W -> marked g g1 ->
  exists uv' g2 q' G1' G2', remark_step (uv, g1) = Ok (inl (uv', g2)) /\
    uvring (heap g2) q' uv' U e UVHEAD /\ marking E D False g2 G1' GA W /\ marking (fun p => p ∈ U \/ E p) D True g2 G2' GA W /\ marked g g2.
Proof.
  intros HE (-> & x & th & i & n & Ex & Eb & Hr) Hne M1 M2 Hm. unfold remark_step. rewrite (proj2 (Z.eqb_neq _ _)) by done.
  rewrite (obj_at_ok _ _ _ Ex). cbn [bind]. rewrite (upval_at_ok _ _ _ _ Ex Eb). cbn [bind]. pose proof (mk_ok _ _ _ _ _ _ _ M1) as Hok.
  assert (~ E a) as HEa. { intros Ha. destruct (heap_sim_r _ _ _ _ (md_sim _ _ Hm) Ex) as (x0 & Ex0 & _ & Hb). specialize (HE a x0 Ha Ex0). destruct (body_sim_listed _ _ Hb) as (_ & Ho & _). rewrite Eb in Ho. cbn in Ho. congruence. }
  assert (marking (also a (fun p => p ∈ U \/ E p)) D True g1 G2 GA W) as M2'.
  { eapply marking_exempt_iff; [|exact M2]. intros p. unfold also. rewrite elem_of_cons. tauto. }
  assert (forall g' G', marking E D False g' G' GA W -> forall y, heap g' !! a = Some y -> o_body y = o_body x -> isblack y = false) as Hnb.
  { intros g' G' M' y Ey Eby. destruct (isblack y) eqn:Ebl; [|done]. destruct (mk_fine _ _ _ _ _ _ _ M' a y Ey HEa) as [_ F _]. destruct (F Ebl) as (_ & _ & Ho). by rewrite Eby, Eb in Ho. }
  assert (forall g' G', marking (also a (fun p => p ∈ U \/ E p)) D True g' G' GA W -> forall y, heap g' !! a = Some y -> o_body y = o_body x -> a ∉ G' ++ GA ++ W) as Hun.
  { intros g' G' M' y Ey Eby Hp. destruct (mk_listed _ _ _ _ _ _ _ M' a Hp) as (z & Ez & _ & Hl & _). rewrite Ey in Ez. injection Ez as <-. by rewrite Eby, Eb in Hl. }
  destruct (isgray x) eqn:Hg.
  - destruct (uv_value_ok g1 (UOpen th i q n)) as (v & -> & Hv & Er); [done|rewrite <- Eb; by apply Hok with a|]. cbn [bind].
    assert (typed_refs (heap g1) (vrefs v)) as Ht by (rewrite <- Er, <- Eb; by eapply obj_refs_typed).
    destruct (markvalue_post _ _ _ _ _ _ _ v M1 Hv Ht) as (g2 & G1' & E2 & M1' & Hm2 & _ & _ & Ha). destruct (markvalue_post _ _ _ _ _ _ _ v M2' Hv Ht) as (g2' & G2' & E2' & M2'' & _ & _ & _ & _).
    assert (g2' = g2) as -> by congruence. rewrite E2. cbn [bind]. destruct (heap_sim_l _ _ _ _ (md_sim _ _ Hm2) Ex) as (y & Ey & Hs).
    assert (o_body y = o_body x) as Eby by (destruct Hs as [_ Hs]; rewrite Eb in *; by inversion Hs).
    exists n, g2, a, G1', G2'. split_and!; [done|by eapply uvring_sim; [apply (md_sim _ _ Hm2)|]|done| |by eapply marked_trans].
    eapply marking_done; [exact M2''|exact Ey|intros Hp; by destruct (Hun _ _ M2'' y Ey Eby)|]. split.
    + intros _. by rewrite Eby, Eb.
    + intros Hbl. by rewrite (Hnb g2 G1' M1' y Ey Eby) in Hbl.
    + intros _ _ _. eapply (open_refs g1 a x); [exact Hok|exact Hm2|exact Ex|exact Eb|exact Ey|]. by rewrite Eb, Er.
  - cbn [bind]. exists n, g1, a, G1, G2. split_and!; [done|done|done| |done]. eapply marking_done; [exact M2'|exact Ex|intros Hp; by destruct (Hun _ _ M2' x Ex eq_refl)|].
    pose proof (Hnb _ _ M1 x Ex eq_refl) as Hbx. split; [congruence|congruence|]. intros _ _ Hw. unfold isgray in Hg. by rewrite Hbx, Hw in Hg.
Qed.

Lemma uvring_head h q p U e r : uvring h q p U e r -> match U with [] => p = r | a :: _ => p = a /\ is_Some (h !! a) end.
Proof. destruct U; [by intros [? _]|]. intros (? & x & ? & ? & ? & E & _). split; [done|by exists x]. Qed.

Lemma remarkupvals_post E D g G GA W U e :
  marking E D False g G GA W -> (forall p x, E p -> heap g !! p = Some x -> is_open (o_body x) = false) -> heap g !! UVHEAD = None ->
  uvring (heap g) UVHEAD (ol_uvnext (owners g)) U e UVHEAD -> (forall p x, heap g !! p = Some x -> is_open (o_body x) = true -> p ∈ U) -> (length U <= size (heap g))%nat ->
  exists g' G', remarkupvals g = Ok g' /\ marking E D True g' G' GA W /\ marked g g'.
Proof.
  intros M HE H8 Hr HU Hlen. unfold remarkupvals.
  enough (forall n U uv g1, (length U < n)%nat -> (exists q G1 G2, uvring (heap g1) q uv U e UVHEAD /\ marking E D False g1 G1 GA W /\ marking (fun p => p ∈ U \/ E p) D True g1 G2 GA W /\ marked g g1) ->
    exists g' G', loop n remark_step (uv, g1) = Ok g' /\ marking E D True g' G' GA W /\ marked g g') as Hl.
  { apply (Hl _ U); [lia|]. exists UVHEAD, G, G. split_and!; [done|done|by apply marking_open_exempt|apply marked_refl]. }
  induction n as [|n IH]; intros U1 uv g1 Hlt (q & G1 & G2 & Hr1 & M1 & M2 & Hm); [lia|]. cbn [loop]. pose proof (uvring_head _ _ _ _ _ _ Hr1) as Hh. destruct U1 as [|a U1].
  - rewrite Hh. cbn. exists g1, G2. split_and!; [done| |done]. eapply marking_exempt_iff; [|exact M2]. intros p. split; [|auto]. intros [Hp|?]; [by apply not_elem_of_nil in Hp|done].
  - destruct Hh as [-> [x Ex]]. assert (a <> UVHEAD) as Hne by (intros ->; pose proof (sim_none _ _ _ (md_sim _ _ Hm) H8); congruence).
    destruct (remark_step_post E D g GA W a U1 e q a g1 G1 G2 HE Hr1 Hne M1 M2 Hm) as (uv' & g2 & q' & G1' & G2' & -> & Hr2 & M1' & M2' & Hm2). cbn [bind]. apply (IH U1); [cbn in Hlt; lia|].
    by exists q', G1', G2'.
Qed.
End Remark.
