(* ===== verification/LuaFinalize.v ===== *)
(** Userdata with finalizers in the atomic step of the collector of Lua: the
    white ones move to the ring tmudata, and all that is in the ring is marked. *)
From stdpp Require Import base gmap list.
From Stdlib Require Import ZArith Lia.
From S2P Require Import Prelude LuaNumber LuaTable LuaString LuaHeap LuaMark LuaGc LuaMarkWf LuaMarkSpec LuaTraverse LuaOwn.
Open Scope Z_scope.

Section Finalize.
Context {N : Type} `{LuaNumber N}.
Implicit Types (g : gstate N) (h : gmap Z (GCObject N)) (x y : GCObject N) (v : TValue N) (E D : Z -> Prop) (G GA W U T L R UD : list Z) (A : Prop) (SC : list (list Z)) (OP : Z -> list Z).

(** What holds of the steps that also change the lists of owners. *)
Record carried g g' : Prop := {
  cr_mono p : nonwhite (heap g) p -> nonwhite (heap g') p;
  cr_phase : phase g' = phase g;
  cr_roots : roots g' = roots g;
  cr_dom : dom (heap g') = dom (heap g);
  cr_tt p x : heap g !! p = Some x -> exists y, heap g' !! p = Some y /\ gch_tt y = gch_tt x /\ bit y FIXEDBIT = bit x FIXEDBIT
}.
Lemma carried_refl g : carried g g.
Proof. split; try done. intros p x Ex. by exists x. Qed.
Lemma carried_trans g1 g2 g3 : carried g1 g2 -> carried g2 g3 -> carried g1 g3.
Proof.
  intros [A1 B1 C1 D1 T1] [A2 B2 C2 D2 T2]. split; [auto|congruence..|]. intros p x Ex. destruct (T1 p x Ex) as (y & Ey & E1 & F1). destruct (T2 p y Ey) as (z & Ez & E2 & F2). exists z. split_and!; congruence.
Qed.
Lemma marked_carried g g' : marked g g' -> carried g g'.
Proof.
  intros [Hs ? ? ? ?]. split; [done..|by apply heap_sim_dom|]. intros p x Ex. destruct (heap_sim_l _ _ _ _ Hs Ex) as (y & Ey & Hy). exists y. split_and!; [done|by apply obj_sim_tt|apply Hy].
Qed.
Lemma eqv_carried g g' : heap_eqv (heap g) (heap g') -> phase g' = phase g -> roots g' = roots g -> carried g g'.
Proof.
  intros Hs Hp Hr. split; [intros p; by apply nonwhite_eqv|done..| |]; [apply set_eq; intros p; rewrite !elem_of_dom; specialize (Hs p); by destruct Hs|].
  intros p x Ex. destruct (heap_eqv_l _ _ _ _ Hs Ex) as (y & Ey & Em & _ & Eb). exists y. unfold gch_tt, bit. by rewrite Eb, Em.
Qed.

Lemma threads_carried g g' L : carried g g' -> all_threads (heap g) L -> all_threads (heap g') L.
Proof.
  intros Hc Ha p Hp. destruct (Ha p Hp) as (x & Ex & Ht). destruct (cr_tt _ _ Hc p x Ex) as (y & Ey & Et & _). exists y. split; [done|].
  unfold gch_tt in Et. by destruct (o_body x), (o_body y).
Qed.
Lemma typed_carried g g' (l : list (Z * Z)) : carried g g' -> typed_refs (heap g) l -> typed_refs (heap g') l.
Proof. intros Hc Ht c t Hin. destruct (Ht c t Hin) as (x & Ex & <-). destruct (cr_tt _ _ Hc c x Ex) as (y & Ey & Et & _). by exists y. Qed.

(** * Moving one userdata *)

Lemma markfinalized_post E D A g G GA W p x m env len :
  marking E D A g G GA W -> heap g !! p = Some x -> o_body x = TUSERDATA m env len ->
  let g' := set_heap (<[p := markfinalized x]> (heap g)) g in marking E D A g' G GA W /\ marked g g'.
Proof.
  intros M Ex Eb g'. assert (forall n, 0 <= n < 8 -> n <> 3 -> bit (markfinalized x) n = bit x n) as Hb.
  { intros n Hn Hne. unfold bit, markfinalized. cbn. rewrite setbit_testbit by done. unfold FINALIZEDBIT. rewrite (proj2 (Z.eqb_neq _ _)) by done. apply orb_false_r. }
  assert (iswhite (markfinalized x) = iswhite x) as Hw by (rewrite !iswhite_bits; change (Z.testbit (o_marked ?y)) with (bit y); by rewrite !Hb).
  assert (isblack (markfinalized x) = isblack x) as Hbl by (rewrite !isblack_bits; change (Z.testbit (o_marked ?y)) with (bit y); by rewrite !Hb).
  assert (p ∉ G ++ GA ++ W) as Hun.
  { intros Hp. destruct (mk_listed _ _ _ _ _ _ _ M p Hp) as (z & Ez & _ & Hl & _). rewrite Ex in Ez. injection Ez as <-. by rewrite Eb in Hl. }
  destruct (mk_colour _ _ _ _ _ _ _ M p x Ex) as [C1 C2].
  destruct (marking_update E D A g G GA W p x (markfinalized x)) as (M2 & Hm2 & _); try done.
  - by right.
  - apply sim_marked; [done|done|by apply Hb].
  - congruence.
  - rewrite Hb; [done|destruct (cw_range g); lia..].
  - rewrite Hw, Hbl. done.
  - intros Hp. exfalso. apply Hun, elem_of_app. by left.
  - intros Hp. exfalso. apply Hun, elem_of_app. by right.
Qed.

(** The first object of the ring follows the last. *)
Lemma tmring_last g T : tmring g T -> T <> [] -> tmudata g <> 0 /\ exists T' p x, T = T' ++ [tmudata g] /\ heap g !! tmudata g = Some x /\ o_next x = p /\ path (heap g) p T' (tmudata g).
Proof.
  intros [[-> _]|(Ht & T' & p & -> & Hp)] Hne; [done|]. split; [done|]. apply path_app in Hp as (m & H1 & (-> & x & Ex & Hx)). by exists T', p, x.
Qed.
Lemma tmring_push g g' T (a : Z) xa :
  tmring g T -> a <> 0 -> a ∉ T -> heap g !! a = Some xa -> append_tmudata a g = Ok g' -> NoDup T ->
  tmring g' (T ++ [a]) /\ heap_eqv (heap g) (heap g') /\ tmudata g' = a /\ (forall p, p ∉ T -> p <> a -> heap g' !! p = heap g !! p) /\
  lists g' = lists g /\ phase g' = phase g /\ roots g' = roots g /\ owners g' = mkOwners (rootgc g) (strt g) a (ol_uvprev (owners g)) (ol_uvnext (owners g)).
Proof.
  intros Hr H0 Hun Ea. unfold append_tmudata. destruct (decide (T = [])) as [->|HT].
  - destruct Hr as [[_ Ht]|(_ & T' & p & ET & _)]; [|by destruct T']. rewrite Ht. cbn. rewrite (upd_obj_ok _ _ _ _ Ea). cbn [bind]. intros [= <-] _. split_and!; try done.
    + right. cbn. split; [done|]. exists [], a. split; [done|]. split; [done|]. exists (with_next a xa). by rewrite lookup_insert_eq.
    + by apply heap_eqv_next.
    + intros p _ Hp. cbn. by rewrite lookup_insert_ne.
  - destruct (tmring_last _ _ Hr HT) as (Ht & T' & p & xl & ET & El & Ep & Hp). rewrite (proj2 (Z.eqb_neq _ _)) by done. rewrite (obj_at_ok _ _ _ El). cbn [bind].
    rewrite (upd_obj_ok _ _ _ _ Ea). cbn [bind]. set (last := tmudata g) in *. assert (last ∈ T) as Hl by (rewrite ET; apply elem_of_app; right; by left). assert (a <> last) as Hal by congruence.
    assert (forall h, <[a := with_next (o_next xl) xa]> h !! last = h !! last) as Hla by (intros h; by rewrite lookup_insert_ne).
    assert (heap (set_heap (<[a := with_next (o_next xl) xa]> (heap g)) g) !! last = Some xl) as El1 by (cbn; by rewrite Hla). change (tmudata (set_heap _ g)) with last.
    rewrite (upd_obj_ok _ _ _ _ El1). cbn [bind]. intros [= <-] Hnd. rewrite ET in Hnd. apply NoDup_app in Hnd as (_ & Hnd & _). split_and!; try done.
    + right. cbn [tmudata set_tmudata set_owners owners ol_tmudata heap set_heap]. split; [done|]. exists T, p. split; [done|]. rewrite ET. rewrite <- app_assoc. apply path_app. exists last. split.
      * eapply path_ext; [|exact Hp]. intros c y Hc Ey. exists y. split; [|done]. assert (c <> last) as Hcl by (intros ->; apply (Hnd last Hc); by left).
        rewrite !lookup_insert_ne; [done| |done]. intros ->. apply Hun. rewrite ET. apply elem_of_app. by left.
      * cbn. split; [done|]. eexists. split; [apply lookup_insert_eq|]. cbn. split; [done|]. exists (with_next (o_next xl) xa). rewrite lookup_insert_ne by done. by rewrite lookup_insert_eq.
    + eapply heap_eqv_trans; [eapply heap_eqv_next; exact Ea|]. by apply heap_eqv_next.
    + intros q Hq Hqa. cbn. rewrite !lookup_insert_ne; [done| |]; intros ->; done.
Qed.

(** The userdata at [a] leaves the list after [b] for the end of the ring. *)
Lemma move_udata_post E D A g G GA W R K (b a : Z) rest UD T SC OP U xa :
  marking E D A g G GA W -> outer g R UD T -> inner g SC OP U -> main g :: UD = K ++ b :: a :: rest -> heap g !! a = Some xa ->
  exists g' UD', (g1 <- pos_set (AtNext b) (o_next xa) g; append_tmudata a g1) = Ok g' /\ marking E D A g' G GA W /\
    main g' :: UD' = K ++ b :: rest /\ outer g' R UD' (T ++ [a]) /\ inner g' SC OP U /\ carried g g'.
Proof.
  intros M Ho Hi Hsp Ea. pose proof (od_root _ _ _ _ Ho) as Hroot. pose proof (od_nodup _ _ _ _ Ho) as Hnd. rewrite app_comm_cons, Hsp in Hnd. rewrite Hsp, app_assoc in Hroot.
  destruct (linked_at _ _ _ _ _ _ Hroot) as (_ & xb & Eb & _ & Ha0 & _). cbn [pos_set]. rewrite (upd_obj_ok _ _ _ _ Eb). cbn [bind]. set (g1 := set_heap _ g).
  assert (R ++ (K ++ b :: a :: rest) ++ T ≡ₚ a :: b :: R ++ K ++ rest ++ T) as Hperm by (rewrite <- app_assoc; cbn; by rewrite (Permutation_swap a b), !Permutation_middle).
  pose proof Hnd as Hnd0. rewrite Hperm in Hnd. apply NoDup_cons in Hnd as [Han Hnd]. apply NoDup_cons in Hnd as [Hbn Hnd]. rewrite not_elem_of_cons, !not_elem_of_app in Han. rewrite !not_elem_of_app in Hbn.
  destruct Han as (Hab & HaR & HaK & Har & HaT), Hbn as (HbR & HbK & Hbr & HbT). rewrite !NoDup_app in Hnd. destruct Hnd as (_ & HR & _ & HK & _ & Hrest & HndT).
  assert (heap g1 !! a = Some xa) as Ea1 by (cbn; by rewrite lookup_insert_ne). assert (heap_eqv (heap g) (heap g1)) as Hs1 by (by apply heap_eqv_next).
  assert (tmring g1 T) as Ht1. { eapply tmring_ext; [|..|exact (od_tmu _ _ _ _ Ho)]; [done|]. intros c x Hc Ex. exists x. cbn. rewrite lookup_insert_ne; [done|]. by intros ->. }
  assert (exists g', append_tmudata a g1 = Ok g') as [g' Eg].
  { unfold append_tmudata. case_zbool (tmudata g1 =? 0); [rewrite (upd_obj_ok _ _ _ _ Ea1); by eexists|]. destruct (tmring_last g1 T Ht1) as (_ & T' & p & xl & -> & El & _); [intros ->; destruct Ht1 as [[_ ?]|(_ & [] & ? & ? & _)]; done|].
    rewrite (obj_at_ok _ _ _ El). cbn [bind]. rewrite (upd_obj_ok _ _ _ _ Ea1). cbn [bind]. change (tmudata (set_heap _ g1)) with (tmudata g1). eexists. erewrite upd_obj_ok; [done|]. cbn.
    rewrite lookup_insert_ne; [exact El|]. intros ->. apply HaT, elem_of_app. right. by left. }
  destruct (tmring_push g1 g' T a xa Ht1 Ha0 HaT Ea1 Eg HndT) as (Ht2 & Hs2 & Etm & Hsame & E1 & E2 & E3 & E4). rewrite Eg.
  assert (heap_eqv (heap g) (heap g')) as Hs by (by eapply heap_eqv_trans). assert (main g' = main g) as Em by (unfold main; by rewrite E3).
  assert (exists UD', main g :: UD' = K ++ b :: rest) as [UD' HUD] by (destruct K as [|k K]; cbn in *; [exists rest|exists (K ++ b :: rest)]; congruence).
  assert (UD' ++ T ++ [a] ≡ₚ UD ++ T) as Hp2.
  { apply (Permutation_cons_inv (a := main g)). rewrite !app_comm_cons, HUD, Hsp, <- !app_assoc. cbn. rewrite (Permutation_app_comm T [a]). cbn. by rewrite <- !Permutation_middle. }
  exists g', UD'. split_and!; [done|by eapply marking_eqv|congruence| | |by apply eqv_carried].
  - split; rewrite ?Em; [|exact Ht2|by rewrite Hp2; apply (od_nodup _ _ _ _ Ho)|intros p; rewrite (od_homes_root _ _ _ _ Ho); by apply homed_eqv|intros p; rewrite Hp2, (od_homes_udata _ _ _ _ Ho); by apply homed_eqv].
    unfold rootgc. rewrite E4, HUD, app_assoc. change (ol_rootgc _) with (rootgc g). eapply (linked_ext _ (heap g1)); [|eapply linked_cut; [exact Hroot| |exact Eb|exact Ea]].
    + intros c x Hc Ex. exists x. split; [|done]. rewrite Hsame; [done|..].
      * intros HcT. rewrite <- app_assoc in Hc. apply elem_of_app in Hc as [Hc|Hc]; [by apply (HR c Hc), elem_of_app; right; apply elem_of_app; right|].
        apply elem_of_app in Hc as [Hc|Hc]; [by apply (HK c Hc), elem_of_app; right|]. apply elem_of_cons in Hc as [->|Hc]; [done|by apply (Hrest c)].
      * intros ->. rewrite <- app_assoc, !elem_of_app, elem_of_cons in Hc. tauto.
    + rewrite <- app_assoc. rewrite app_assoc in Hnd0. by apply NoDup_app in Hnd0 as (? & _).
  - eapply (inner_eqv g g'); [done|by unfold strt; rewrite E4|by rewrite E4|by rewrite E4|done| |exact Hi]. intros p x y Ex Ey H1 H2. enough (y = x) by congruence.
    assert (forall o q, homed (heap g) o q -> o = HRoot \/ o = HUdata -> p <> q) as Hne by (intros o q (z & Ez & <-) Hz ->; rewrite Ex in Ez; injection Ez as <-; destruct Hz; congruence).
    assert (forall q, q ∈ T \/ q = a -> p <> q) as Hne2. { intros q Hq. apply (Hne HUdata); [|by right]. apply (od_homes_udata _ _ _ _ Ho). rewrite <- Hp2, !elem_of_app, list_elem_of_singleton. tauto. }
    rewrite Hsame in Ey; [|intros ?; by apply (Hne2 p); [left|]|apply Hne2; by right]. cbn in Ey. rewrite lookup_insert_ne in Ey; [congruence|]. intros ->.
    assert (p ∈ main g :: UD) as Hpm by (rewrite Hsp, elem_of_app, elem_of_cons; tauto). apply elem_of_cons in Hpm as [->|Hpm].
    + eapply Hne; [|by left|reflexivity]. apply (od_homes_root _ _ _ _ Ho), elem_of_app. right. by left.
    + eapply Hne; [|by right|reflexivity]. apply (od_homes_udata _ _ _ _ Ho), elem_of_app. by left.
Qed.

(** * Separating *)

(** The loop stands at [b], with [rest] after it. *)
Definition separating E D A GA W R T0 SC OP U g (b : Z) rest g' : Prop :=
  exists G UD T K, marking E D A g' G GA W /\ outer g' R UD T /\ inner g' SC OP U /\ main g' :: UD = K ++ b :: rest /\ carried g g' /\ exists T2, T = T0 ++ T2.

Lemma separate_step_post E D A GA W R T0 SC OP U g all (b : Z) rest deadmem g1 :
  names_ok g -> separating E D A GA W R T0 SC OP U g b rest g1 ->
  match rest with
  | [] => separate_step all (AtNext b, deadmem, g1) = Ok (inr (deadmem, g1))
  | a :: rest => exists p d g2, separate_step all (AtNext b, deadmem, g1) = Ok (inl (AtNext p, d, g2)) /\ separating E D A GA W R T0 SC OP U g p rest g2
  end.
Proof.
  intros Hna (G & UD & T & K & M & Ho & Hi & Hsp & Hc & T2 & ->). unfold separate_step. pose proof (od_root _ _ _ _ Ho) as Hroot. rewrite Hsp, app_assoc in Hroot.
  destruct (linked_at _ _ _ _ _ _ Hroot) as (_ & xb & Eb & Hl). cbn [pos_get]. rewrite (obj_at_ok _ _ _ Eb). cbn [bind]. destruct rest as [|a rest]; [by rewrite Hl|].
  destruct Hl as (-> & Ha & x & Ex & _). rewrite (proj2 (Z.eqb_neq _ _)) by done. rewrite (obj_at_ok _ _ _ Ex). cbn [bind].
  assert (home (o_body x) = HUdata) as Hhome.
  { assert (a ∈ UD) as Hin. { destruct K as [|k K]; cbn in Hsp; injection Hsp as _ ->; [by left|]. rewrite elem_of_app, !elem_of_cons. tauto. }
    destruct (proj1 (od_homes_udata _ _ _ _ Ho a)) as (x' & Ex' & Eh); [apply elem_of_app; by left|]. congruence. }
  assert (main g1 :: UD = (K ++ [b]) ++ a :: rest) as Hsp' by (by rewrite <- app_assoc).
  destruct (o_body x) as [| m env len|[]| | | | |] eqn:Ebx; try done.
  destruct (negb (iswhite x || all) || isfinalized x); [eexists a, _, g1; split; [done|]; exists G, UD, (T0 ++ T2), (K ++ [b]); split_and!; try done; by exists T2|].
  pose proof (obj_refs_typed _ _ _ _ _ _ _ _ _ M Ex) as Hr. rewrite Ebx in Hr. apply typed_app in Hr as [Hr _].
  destruct (fasttm_post _ _ _ g1 _ _ _ m TM_GC M Hr) as (tm & g2 & -> & g2' & G2 & [= <-] & M2 & Hm2 & _ & _ & _).
  { rewrite (cr_roots _ _ Hc). by apply Hna. }
  cbn [bind]. destruct (heap_sim_l _ _ _ _ (md_sim _ _ Hm2) Ex) as (x2 & Ex2 & [En2 _] & Hb2). assert (o_body x2 = TUSERDATA m env len) as Eb2 by (rewrite Ebx in Hb2; by inversion Hb2).
  rewrite (upd_obj_ok _ _ _ _ Ex2). cbn [bind]. destruct (markfinalized_post _ _ _ _ _ _ _ a x2 _ _ _ M2 Ex2 Eb2) as (M3 & Hm3). set (g3 := set_heap _ g2) in *.
  assert (marked g1 g3) as Hm by (by eapply marked_trans). pose proof (outer_marked _ _ _ _ _ Hm Ho) as Ho3. pose proof (inner_marked _ _ _ _ _ Hm Hi) as Hi3.
  assert (main g3 = main g1) as Em by (unfold main; by rewrite (md_roots _ _ Hm)). assert (carried g g3) as Hc3 by (eapply carried_trans; [done|by apply marked_carried]).
  destruct (ttisnil tm); [eexists a, _, g3; split; [done|]; exists G2, UD, (T0 ++ T2), (K ++ [b]); rewrite Em; split_and!; try done; by exists T2|].
  assert (heap g3 !! a = Some (markfinalized x2)) as Ex3 by apply lookup_insert_eq.
  destruct (move_udata_post E D A g3 G2 GA W R K b a rest UD (T0 ++ T2) SC OP U (markfinalized x2) M3 Ho3 Hi3) as (g4 & UD' & E4 & M4 & Hsp4 & Ho4 & Hi4 & Hc4); [by rewrite Em|done|].
  cbn [o_next markfinalized with_marked] in E4. rewrite En2 in E4. destruct (pos_set (AtNext b) (o_next x) g3) as [g3'| |]; try done. cbn [bind] in *. rewrite E4. cbn [bind].
  eexists b, _, g4. split; [done|]. exists G2, UD', ((T0 ++ T2) ++ [a]), K. split_and!; try done; [by eapply carried_trans|]. exists (T2 ++ [a]). by rewrite app_assoc.
Qed.

Lemma luaC_separateudata_post E D A g G GA W R UD T SC OP U all :
  marking E D A g G GA W -> names_ok g -> outer g R UD T -> inner g SC OP U ->
  exists m g' G' UD' T', luaC_separateudata all g = Ok (m, g') /\ marking E D A g' G' GA W /\ outer g' R UD' T' /\ inner g' SC OP U /\ carried g g' /\ exists T2, T' = T ++ T2.
Proof.
  intros M Hna Ho Hi. unfold luaC_separateudata.
  enough (forall n rest (b : Z) d g1, (length rest < n)%nat -> separating E D A GA W R T SC OP U g b rest g1 ->
    exists m g', loop n (separate_step all) (AtNext b, d, g1) = Ok (m, g') /\ exists b, separating E D A GA W R T SC OP U g b [] g') as Hl.
  { destruct (Hl (2 + size (heap g))%nat UD (main g) 0 g) as (m & g' & E1 & b & G' & UD' & T' & K & ? & ? & ? & _ & ? & ?).
    - enough (length UD <= size (heap g))%nat by lia. apply nodup_size.
      + pose proof (od_nodup _ _ _ _ Ho) as Hn. apply NoDup_app in Hn as (_ & _ & Hn). apply NoDup_cons in Hn as [_ Hn]. by apply NoDup_app in Hn as (? & _).
      + intros p Hp. destruct (proj1 (od_homes_udata _ _ _ _ Ho p)) as (x & Ex & _); [apply elem_of_app; by left|by exists x].
    - exists G, UD, T, []. split_and!; try done; [apply carried_refl|]. exists []. by rewrite app_nil_r.
    - by exists m, g', G', UD', T'. }
  induction n as [|n IH]; intros rest b d g1 Hlt Hs; [lia|]. cbn [loop]. pose proof (separate_step_post E D A GA W R T SC OP U g all b rest d g1 Hna Hs) as Hstep. destruct rest as [|a rest].
  - rewrite Hstep. cbn. eexists _, _. split; [done|by exists b].
  - destruct Hstep as (p & d' & g2 & -> & Hs2). cbn [bind]. apply (IH rest); [cbn in Hlt; lia|done].
Qed.

(** * Marking what finalizers need *)

(** A userdata in the ring becomes white, and is marked again. *)
Lemma remark_udata_post E D A g G GA W p x m env len :
  marking (also p E) D A g G GA W -> heap g !! p = Some x -> o_body x = TUSERDATA m env len ->
  exists g' G', (g1 <- upd_obj p (makewhite g) g; reallymarkobject MARKDEPTH p g1) = Ok g' /\ marking E D A g' G' GA W /\ marked g g' /\ nonwhite (heap g') p.
Proof.
  intros M Ex Eb. rewrite (upd_obj_ok _ _ _ _ Ex). cbn [bind]. set (z := gray2black (white2gray (makewhite g x))). unfold MARKDEPTH. cbn [reallymarkobject].
  set (g1 := set_heap (<[p := makewhite g x]> (heap g)) g). assert (heap g1 !! p = Some (makewhite g x)) as Ex1 by apply lookup_insert_eq. rewrite (upd_obj_ok _ _ _ _ Ex1). cbn [bind].
  set (g2 := set_heap _ g1). assert (heap g2 !! p = Some (white2gray (makewhite g x))) as Ex2 by apply lookup_insert_eq. rewrite (obj_at_ok _ _ _ Ex2). cbn [bind].
  change (o_body (white2gray (makewhite g x))) with (o_body x). rewrite Eb, (upd_obj_ok _ _ _ _ Ex2). cbn [bind]. fold z.
  assert (set_heap (<[p := z]> (heap g2)) g2 = set_heap (<[p := z]> (heap g)) g) as -> by (unfold g2, g1, set_heap; cbn; by rewrite !insert_insert_eq).
  destruct (gray2black_facts (white2gray (makewhite g x))) as (Fw & Fb & Fn). destruct (white2gray_facts (makewhite g x)) as (Ww & _ & Wn). rewrite Ww in Fw. fold z in Fw, Fb, Fn.
  assert (p ∉ G ++ GA ++ W) as Hun.
  { intros Hp. destruct (mk_listed _ _ _ _ _ _ _ M p Hp) as (y & Ey & _ & Hl & _). rewrite Ex in Ey. injection Ey as <-. by rewrite Eb in Hl. }
  destruct (marking_update (also p E) D A g G GA W p x z) as (M2 & Hm2 & _); try done.
  - by left; left.
  - apply sim_marked; [done|done|]. rewrite Fn, Wn by (done || (unfold FIXEDBIT; lia)). by rewrite bit_makewhite by (unfold FIXEDBIT; lia).
  - apply ow_bit. done.
  - congruence.
  - intros Hp. exfalso. apply Hun, elem_of_app. by left.
  - intros Hp. exfalso. apply Hun, elem_of_app. by right.
  - assert (heap (set_heap (<[p := z]> (heap g)) g) !! p = Some z) as Ez by apply lookup_insert_eq.
    destruct (udata_tables 2 E D A _ G GA W p z m env len (marks_all 2) ltac:(lia) M2 Ez Eb Fb Fw) as (g3 & G3 & E3 & M3 & Hm3 & _).
    exists g3, G3. split_and!; [exact E3|done|by eapply marked_trans|]. apply (md_mono _ _ Hm3). by exists z.
Qed.

(** The loop stands at [u], with [T2] after it up to the last of the ring. *)
Lemma marktmu_loop D A GA W (q : Z) n T2 u xu g1 G :
  (length T2 < n)%nat -> (exists T3, T2 = T3 ++ [tmudata g1]) -> heap g1 !! u = Some xu -> path (heap g1) (o_next xu) T2 q -> NoDup T2 ->
  (forall p, p ∈ T2 -> homed (heap g1) HUdata p) -> marking (fun p => p ∈ T2) D A g1 G GA W ->
  exists g' G', loop n marktmu_step (u, g1) = Ok g' /\ marking (fun _ => False) D A g' G' GA W /\ marked g1 g' /\ forall p, p ∈ T2 -> nonwhite (heap g') p.
Proof.
  revert T2 u xu g1 G. induction n as [|n IH]; intros T2 u xu g1 G Hlt [T3 ET] Eu Hp Hnd Hud M; [lia|]. cbn [loop]. destruct T2 as [|a T2]; [by destruct T3|]. destruct Hp as (Ha & x & Ex & Hp).
  unfold marktmu_step at 1. rewrite (obj_at_ok _ _ _ Eu). cbn [bind]. rewrite Ha. destruct (Hud a) as (x' & Ex' & Eh); [by left|]. rewrite Ex in Ex'. injection Ex' as <-.
  apply NoDup_cons in Hnd as [Hun Hnd].
  assert (marking (also a (fun p => p ∈ T2)) D A g1 G GA W) as M' by (eapply marking_exempt_iff; [|exact M]; intros p; unfold also; by rewrite elem_of_cons).
  destruct (o_body x) as [| m env len|[]| | | | |] eqn:Eb; try done. destruct (remark_udata_post _ _ _ _ _ _ _ a x m env len M' Ex Eb) as (g2 & G2 & E2 & M2 & Hm2 & Hnw).
  destruct (upd_obj a (makewhite g1) g1) as [g1'| |]; try done. cbn [bind] in *. rewrite E2. cbn [bind].
  assert (tmudata g2 = tmudata g1) as Et by (unfold tmudata; by rewrite (md_owners _ _ Hm2)). rewrite Et. destruct (heap_sim_l _ _ _ _ (md_sim _ _ Hm2) Ex) as (x2 & Ex2 & [En _] & _).
  destruct (Z.eqb_spec a (tmudata g1)) as [Hat|Hne].
  - cbn. destruct T3 as [|c T3]; injection ET as Ec ET'; [subst T2|exfalso; apply Hun; rewrite ET'; apply elem_of_app; right; rewrite Hat; by left].
    exists g2, G2. split_and!; [done| |done|by intros p ->%list_elem_of_singleton]. eapply marking_exempt_iff; [|exact M2]. intros p. split; [intros Hp'; by apply not_elem_of_nil in Hp'|done].
  - cbn. destruct T3 as [|c T3]; injection ET as Ec ET'; [done|].
    destruct (IH T2 a x2 g2 G2) as (g' & G' & E' & Mf & Hmf & Hnf); try done.
    + cbn in Hlt. lia.
    + exists T3. by rewrite Et, ET'.
    + rewrite En. by eapply path_sim; [apply (md_sim _ _ Hm2)|].
    + intros p Hp'. apply (homed_sim _ _ _ _ (md_sim _ _ Hm2)), Hud. by right.
    + exists g', G'. split_and!; [done|done|by eapply marked_trans|]. intros p [->|Hp']%elem_of_cons; [by apply (md_mono _ _ Hmf)|by apply Hnf].
Qed.

Lemma marktmu_post D A g G GA W R UD T : marking (fun p => p ∈ T) D A g G GA W -> outer g R UD T ->
  exists g' G', marktmu g = Ok g' /\ marking (fun _ => False) D A g' G' GA W /\ marked g g' /\ forall p, p ∈ T -> nonwhite (heap g') p.
Proof.
  intros M Ho. unfold marktmu. pose proof (od_nodup _ _ _ _ Ho) as Hnd. rewrite app_comm_cons, app_assoc in Hnd. apply NoDup_app in Hnd as (_ & _ & Hnd).
  destruct (od_tmu _ _ _ _ Ho) as [[-> Ht]|Hr].
  - rewrite Ht. cbn. exists g, G. split_and!; [done| |apply marked_refl|by intros p ?%not_elem_of_nil]. eapply marking_exempt_iff; [|exact M]. intros p. split; [intros Hp; by apply not_elem_of_nil in Hp|done].
  - destruct Hr as (Ht & T' & p & ET & Hp). rewrite (proj2 (Z.eqb_neq _ _)) by done.
    destruct (tmring_last g T (od_tmu _ _ _ _ Ho)) as (_ & T'' & p' & x & ET2 & Ex & Enx & Hp'); [by destruct T', T|]. assert (T'' = T') as -> by (rewrite ET in ET2; by apply app_inj_tail in ET2 as [-> _]).
    apply (marktmu_loop D A GA W p _ T (tmudata g) x g G); try done.
    + enough (length T <= size (heap g))%nat by lia. apply nodup_size; [done|]. intros q Hq. destruct (proj1 (od_homes_udata _ _ _ _ Ho q)) as (y & Ey & _); [apply elem_of_app; by right|by exists y].
    + by exists T'.
    + assert (p = p') as Epp; [|by rewrite Enx, <- Epp]. rewrite ET in Hp. destruct T' as [|c T']; cbn in Hp, Hp'; [destruct Hp as [-> _]|destruct Hp as [-> _], Hp' as [-> _]]; congruence.
    + intros q Hq. apply (od_homes_udata _ _ _ _ Ho), elem_of_app. by right.
Qed.
End Finalize.
