(* ===== verification/LuaAtomic.v ===== *)
(** Clearing weak tables in the atomic step of the collector of Lua: then they
    refer to nothing that is white.

    The atomic step of the collector of Lua: it ends, and then nothing that is
    not white refers to a white object; the white objects are dead. *)
From stdpp Require Import base gmap list.
From Stdlib Require Import ZArith Lia.
From S2P Require Import Prelude LuaNumber LuaTable LuaString LuaHeap LuaMark LuaGc LuaMarkWf LuaMarkSpec LuaTraverse LuaOwn LuaFinalize.
Open Scope Z_scope.


Section Clear.
Context {N : Type} `{LuaNumber N}.
Implicit Types (g : gstate N) (h : gmap Z (GCObject N)) (x y : GCObject N) (v : TValue N) (E D : Z -> Prop) (GA W L : list Z) (A : Prop) (t : Table N).
Implicit Types (P : gstate N -> Prop).

(** * Outcomes, with no object left in the gray list *)

Definition cleared_post E D A g GA W (r : res (gstate N)) P : Prop := exists g', r = Ok g' /\ marking E D A g' [] GA W /\ marked g g' /\ P g'.

Lemma cleared_ret E D A g GA W P : marking E D A g [] GA W -> P g -> cleared_post E D A g GA W (Ok g) P.
Proof. intros M HP. exists g. split_and!; [done|done|apply marked_refl|done]. Qed.
Lemma cleared_weaken E D A g GA W r P P' : cleared_post E D A g GA W r P -> (forall g', marked g g' -> P g' -> P' g') -> cleared_post E D A g GA W r P'.
Proof. intros (g' & ? & ? & ? & ?) HP. exists g'. auto. Qed.
Lemma cleared_bind E D A g GA W r k P P' :
  cleared_post E D A g GA W r P -> (forall g', marking E D A g' [] GA W -> marked g g' -> P g' -> cleared_post E D A g' GA W (k g') P') -> cleared_post E D A g GA W (bind r k) P'.
Proof. intros (g1 & -> & M1 & Hm1 & HP) Hk. destruct (Hk g1 M1 Hm1 HP) as (g2 & E2 & M2 & Hm2 & HP2). exists g2. split_and!; [exact E2|done|by eapply marked_trans|done]. Qed.

(** What does not touch the lists leaves the gray list empty. *)
Lemma post_cleared E D A g GA W g' (Q : gmap Z (GCObject N) -> Prop) :
  lists g' = lists g -> marking E D A g [] GA W -> mark_post E D A g [] GA W (Ok g') Q -> cleared_post E D A g GA W (Ok g') (fun g => Q (heap g)).
Proof.
  intros Hl M (g1 & G1 & [= <-] & M1 & Hm1 & _ & _ & HQ). exists g'. split_and!; try done. enough (G1 = []) as -> by done.
  destruct (mk_lists _ _ _ _ _ _ _ M1) as (H1 & _). destruct (mk_lists _ _ _ _ _ _ _ M) as (H0 & _). unfold gray in *. rewrite Hl in H1. cbn in H0. rewrite H0 in H1.
  destruct G1 as [|a G1]; [done|]. by destruct H1 as (<- & ? & _).
Qed.

(** A loop that counts down. *)
Lemma cleared_down E D A g GA W f n (Q : nat -> gstate N -> Prop) :
  marking E D A g [] GA W -> (forall i g1 g2, marked g1 g2 -> heap_ok (heap g1) -> Q i g1 -> Q i g2) ->
  (forall i g', (i < n)%nat -> marking E D A g' [] GA W -> marked g g' -> cleared_post E D A g' GA W (f i g') (Q i)) ->
  cleared_post E D A g GA W (down f n g) (fun g' => forall i, (i < n)%nat -> Q i g').
Proof.
  intros M HQ. revert g M. induction n as [|n IH]; intros g M Hf; cbn [down]; [apply cleared_ret; [done|]; intros; lia|].
  eapply cleared_bind; [apply Hf; [lia|done|apply marked_refl]|]. intros g1 M1 Hm1 Q1. destruct (IH g1 M1) as (g2 & E2 & M2 & Hm2 & Q2).
  { intros i g' Hi M' Hm'. apply Hf; [lia|done|by eapply marked_trans]. }
  exists g2. split_and!; try done. intros i Hi. destruct (decide (i = n)) as [->|]; [|apply Q2; lia]. eapply HQ; [exact Hm2|apply (mk_ok _ _ _ _ _ _ _ M1)|done].
Qed.

(** * Values *)

(** Only strings are changed. *)
Definition but_strings g g' : Prop := forall q y, heap g !! q = Some y -> home (o_body y) <> HString -> heap g' !! q = Some y.

Lemma iscleared_post E D A g GA W v iskey :
  marking E D A g [] GA W -> value_ok v -> typed_refs (heap g) (vrefs v) ->
  exists c g', iscleared v iskey g = Ok (c, g') /\ cleared_post E D A g GA W (Ok g') (fun g' => but_strings g g' /\ (c = false -> all_marked (heap g') (vrefs v))).
Proof.
  intros M Hv Ht. assert (forall (u : TValue N), vrefs u = [] -> exists c g', Ok (false, g) = Ok (c, g') /\ cleared_post E D A g GA W (Ok g') (fun g' => but_strings g g' /\ (c = false -> all_marked (heap g') (vrefs u)))) as Hnil.
  { intros u Eu. exists false, g. split; [done|]. apply cleared_ret; [done|]. split; [by intros q y|]. intros _. rewrite Eu. by intros c t ?%not_elem_of_nil. }
  destruct v as [| | | |p|ty p]; try (by apply Hnil); cbn [iscleared].
  - destruct (Ht p LUA_TSTRING) as (x & Ex & Et); [by left|]. rewrite (upd_obj_ok _ _ _ _ Ex). cbn [bind]. eexists false, _. split; [done|].
    assert (p <> 0) as H0 by (intros ->; pose proof (mk_null _ _ _ _ _ _ _ M); congruence).
    pose proof (stringmark_post E D A g [] GA W p M) as Hp. unfold stringmark_if, ptr in Hp. rewrite (proj2 (Z.eqb_neq _ _)), (upd_obj_ok _ _ _ _ Ex) in Hp by done.
    destruct (post_cleared E D A g GA W (set_heap (<[p := stringmark x]> (heap g)) g) _ eq_refl M (Hp Ht)) as (g' & [= <-] & M' & Hm' & Ha). eexists. split_and!; [done|done|done| |done].
    intros q y Ey Hy. cbn. rewrite lookup_insert_ne; [done|]. intros <-. apply Hy. rewrite Ex in Ey. injection Ey as <-. unfold gch_tt in Et. by destruct (o_body x).
  - destruct (Ht p ty) as (x & Ex & Et); [by left|]. unfold iscleared_obj. rewrite (obj_at_ok _ _ _ Ex). cbn [bind]. eexists _, g. split; [done|].
    apply cleared_ret; [done|]. split; [by intros q y|]. intros Hc. apply orb_false_iff in Hc as [Hw _]. apply all_marked_one. by exists x.
Qed.

(** * Entries of a table *)

Definition elt_marked (l : Z) (i : nat) g : Prop :=
  forall y m t v, heap g !! l = Some y -> o_body y = TTABLE m t -> array t !! i = Some v -> all_marked (heap g) (vrefs v).
Lemma elt_marked_stable l i g1 g2 : marked g1 g2 -> heap_ok (heap g1) -> elt_marked l i g1 -> elt_marked l i g2.
Proof.
  intros Hm _ HP y m t v Ey Eb Ev. destruct (heap_sim_r _ _ _ _ (md_sim _ _ Hm) Ey) as (x & Ex & _ & Hb). rewrite Eb in Hb.
  assert (exists t0, o_body x = TTABLE m t0 /\ table_sim t0 t) as (t0 & Eb0 & Ht) by (inversion Hb; subst; eauto using table_sim_refl).
  destruct (Forall2_lookup_r _ _ _ _ _ (ts_array _ _ Ht) Ev) as (v0 & Ev0 & Hv). eapply all_marked_mono; [exact Hm|]. destruct Hv as [->| ->]; [by eapply HP|]. by intros c ty ?%not_elem_of_nil.
Qed.

(** Giving the table at [l] another body. *)
Lemma set_table_cleared E D A g GA W l x m t t' :
  marking E D A g [] GA W -> heap g !! l = Some x -> o_body x = TTABLE m t -> table_sim t t' ->
  cleared_post E D A g GA W (set_table l t' g) (fun g' => heap g' !! l = Some (with_body (TTABLE m t') x)).
Proof.
  intros M Ex Eb Ht. unfold set_table. rewrite (upd_obj_ok _ _ _ _ Ex), Eb.
  assert (body_sim (o_body x) (TTABLE m t')) as Hs by (rewrite Eb; by constructor).
  destruct (post_cleared E D A g GA W (set_heap (<[l := with_body (TTABLE m t') x]> (heap g)) g) _ eq_refl M (rebody_post _ _ _ _ _ _ _ _ _ _ M Ex Hs)) as (g' & E' & ? & ? & ?). by exists g'.
Qed.

Lemma clear_elt_post E D A g GA W l x m t i :
  marking E D A g [] GA W -> heap g !! l = Some x -> o_body x = TTABLE m t -> (i < length (array t))%nat -> cleared_post E D A g GA W (clear_elt l i g) (elt_marked l i).
Proof.
  intros M Ex Eb Hi. pose proof (mk_ok _ _ _ _ _ _ _ M l x Ex) as Hok. rewrite Eb in Hok. destruct Hok as [[_ Va] _ _ _]. destruct (lookup_lt_is_Some_2 _ _ Hi) as [v Ev].
  pose proof (obj_refs_typed _ _ _ _ _ _ _ _ _ M Ex) as Hr. rewrite Eb in Hr. apply typed_app in Hr as [_ Hr]. apply typed_app in Hr as [Hr _].
  unfold clear_elt. rewrite (table_at_ok _ _ _ _ _ Ex Eb). cbn [bind]. unfold elt. rewrite Ev. cbn [lift bind]. rewrite Forall_lookup in Va.
  destruct (iscleared_post E D A g GA W v false M (Va i v Ev)) as (c & g1 & -> & g1' & [= <-] & M1 & Hm1 & Hs1 & Hc); [eapply typed_bind; [exact Hr|by eapply list_elem_of_lookup_2]|]. cbn [bind].
  pose proof (Hs1 l x Ex ltac:(by rewrite Eb)) as Ex1. destruct c.
  - assert (table_sim t (with_array t (<[i := Nil]> (array t)) (sizearray t))) as Hts by (destruct t; split; cbn in *; [by eapply list_insert_sim; [by left|exact Ev|right]|apply Forall2_same; by left|done]).
    destruct (set_table_cleared E D A g1 GA W l x m t _ M1 Ex1 Eb Hts) as (g2 & E2 & M2 & Hm2 & Ex2). exists g2. split_and!; [exact E2|done|by eapply marked_trans|].
    intros y m' t' v' Ey Eby Ev'. rewrite Ex2 in Ey. injection Ey as <-. cbn in Eby. injection Eby as <- <-. cbn in Ev'. rewrite list_lookup_insert_eq in Ev' by done. injection Ev' as <-. by intros c ty ?%not_elem_of_nil.
  - exists g1. split_and!; try done. intros y m' t' v' Ey Eby Ev'. rewrite Ex1 in Ey. injection Ey as <-. rewrite Eb in Eby. injection Eby as <- <-. rewrite Ev in Ev'. injection Ev' as <-. by apply Hc.
Qed.

Lemma clear_node_post E D A g GA W l x m t i :
  marking E D A g [] GA W -> heap g !! l = Some x -> o_body x = TTABLE m t -> (i < length (node t))%nat -> cleared_post E D A g GA W (clear_node l i g) (fun g' => entry_marked l i (heap g')).
Proof.
  intros M Ex Eb Hi. pose proof (mk_ok _ _ _ _ _ _ _ M l x Ex) as Hok. rewrite Eb in Hok. destruct (lookup_lt_is_Some_2 _ _ Hi) as [n En].
  pose proof (obj_refs_typed _ _ _ _ _ _ _ _ _ M Ex) as Hr. rewrite Eb in Hr. apply typed_app in Hr as [_ Hr].
  unfold clear_node. rewrite (table_at_ok _ _ _ _ _ Ex Eb). cbn [bind]. unfold node_at. rewrite En. cbn [lift bind].
  assert (forall g', heap g' !! l = Some x -> all_marked (heap g') (node_refs n) -> entry_marked l i (heap g')) as Hsame.
  { intros g' Ex' Ha y m' t' n' Ey Eby En'. rewrite Ex' in Ey. injection Ey as <-. rewrite Eb in Eby. injection Eby as <- <-. rewrite En in En'. by injection En' as <-. }
  destruct (ttisnil (i_val n)) eqn:Ev; [apply cleared_ret; [done|]; apply Hsame; [done|]; unfold node_refs; rewrite Ev; by intros c ty ?%not_elem_of_nil|].
  assert (i_val n <> Nil) as Hv by (intros E0; by rewrite E0 in Ev). destruct (node_typed _ _ _ _ Hr Hok En Hv) as (Vv & Tv & k & Ek & Vk & Tk). rewrite Ek. cbn [iscleared_key].
  destruct (iscleared_post E D A g GA W k true M Vk Tk) as (ck & g1 & -> & g1' & [= <-] & M1 & Hm1 & Hs1 & Hc1). cbn [bind]. pose proof (Hs1 l x Ex ltac:(by rewrite Eb)) as Ex1.
  assert (exists c g2, (if ck then Ok (true, g1) else iscleared (i_val n) false g1) = Ok (c, g2) /\ marking E D A g2 [] GA W /\ marked g1 g2 /\ heap g2 !! l = Some x /\
    (c = false -> all_marked (heap g2) (node_refs n))) as (c & g2 & -> & M2 & Hm2 & Ex2 & Hc2).
  { destruct ck; [exists true, g1; split_and!; try done; apply marked_refl|].
    destruct (iscleared_post E D A g1 GA W (i_val n) false M1 Vv ltac:(by eapply typed_sim)) as (c & g2 & -> & g2' & [= <-] & M2 & Hm2 & Hs2 & Hc2). exists c, g2. split_and!; try done.
    - apply (Hs2 l x Ex1). by rewrite Eb.
    - intros Hcf. unfold node_refs. rewrite Ev, Ek. apply all_marked_app. split; [eapply all_marked_mono; [exact Hm2|by apply Hc1]|by apply Hc2]. }
  cbn [bind]. assert (marked g g2) as Hm by (by eapply marked_trans). destruct c; [|exists g2; split_and!; try done; apply Hsame; [done|by apply Hc2]].
  set (n' := removeentry (set_val Nil n)). assert (node_sim n n') as Hn by (right; unfold n', removeentry; cbn; by destruct (i_key n) as [[]|]).
  assert (i_val n' = Nil) as Hn' by (unfold n', removeentry; cbn; by destruct (i_key n) as [[]|]).
  assert (table_sim t (with_node t (<[i := n']> (node t)))) as Hts by (destruct t; split; cbn in *; [apply Forall2_same; by left|by eapply list_insert_sim; [by left|exact En|]|done]).
  destruct (set_table_cleared E D A g2 GA W l x m t _ M2 Ex2 Eb Hts) as (g3 & E3 & M3 & Hm3 & Ex3). exists g3. split_and!; [exact E3|done|by eapply marked_trans|].
  intros y m' t' n0 Ey Eby En0. rewrite Ex3 in Ey. injection Ey as <-. cbn in Eby. injection Eby as <- <-. cbn in En0. rewrite list_lookup_insert_eq in En0 by done. injection En0 as <-.
  unfold node_refs. rewrite Hn'. by intros c ty ?%not_elem_of_nil.
Qed.

(** * Tables *)

Lemma clear_step_post E D A g GA W1 l W2 :
  marking E D A g [] GA (W1 ++ l :: W2) -> ~ D l ->
  exists g', clear_step (l, g) = Ok (inl (hd 0 W2, g')) /\ marking E D A g' [] GA (W1 ++ l :: W2) /\ marked g g' /\ forall y, heap g' !! l = Some y -> refs_marked (heap g') (o_body y).
Proof.
  intros M HD. set (W := W1 ++ l :: W2) in *. assert (l ∈ W) as Hin by (apply elem_of_app; right; by left). destruct (mk_lists _ _ _ _ _ _ _ M) as (_ & _ & Hl).
  destruct (linked_at _ _ _ _ _ _ Hl) as (H0 & x & Ex & Hl2). destruct (mk_weaks _ _ _ _ _ _ _ M l x Ex Hin) as (m & t & Eb).
  unfold clear_step. rewrite (proj2 (Z.eqb_neq _ _)) by done. rewrite (obj_at_ok _ _ _ Ex). cbn [bind]. rewrite (table_at_ok _ _ _ _ _ Ex Eb). cbn [bind].
  pose proof (mk_ok _ _ _ _ _ _ _ M l x Ex) as Hok. rewrite Eb in Hok. destruct Hok as [[La _] [_ Hs] _ _].
  pose proof (mk_settled _ _ _ _ _ _ _ M l x Ex ltac:(by apply elem_of_app; right) HD) as Hset. unfold settled in Hset. rewrite Eb in Hset. destruct Hset as [Hm Ha].
  assert (cleared_post E D A g GA W (if testbit (o_marked x) VALUEWEAKBIT then down (clear_elt l) (Z.to_nat (sizearray t)) g else Ok g)
    (fun g' => forall y m t', heap g' !! l = Some y -> o_body y = TTABLE m t' -> table_sim t t' -> all_marked (heap g') (array t' ≫= vrefs))) as (g1 & -> & M1 & Hm1 & P1).
  { unfold testbit. rewrite land_bit by done. change (Z.testbit (o_marked x) VALUEWEAKBIT) with (bit x VALUEWEAKBIT). destruct Ha as [Hv|Ha].
    - rewrite Hv, <- La, Nat2Z.id. eapply cleared_weaken; [apply (cleared_down _ _ _ _ _ _ _ _ (elt_marked l) M (elt_marked_stable l))|].
      + intros i g' Hi M' Hm'. destruct (traversed g g' l x m t Hm' Ex Eb) as (y & t' & Ey & Eby & Ht). eapply clear_elt_post; [done..|]. by rewrite <- (Forall2_length _ _ _ (ts_array _ _ Ht)).
      + intros g' _ HQ y m' t' Ey Eby Ht c ty Hc. apply list_elem_of_bind in Hc as (v & Hc & Hv'). apply list_elem_of_lookup in Hv' as [i Ei].
        eapply (HQ i); [rewrite (Forall2_length _ _ _ (ts_array _ _ Ht)); by eapply lookup_lt_Some|done..].
    - assert (forall g', marked g g' -> forall y m t', heap g' !! l = Some y -> o_body y = TTABLE m t' -> table_sim t t' -> all_marked (heap g') (array t' ≫= vrefs)) as Hall.
      { intros g' Hm' y m' t' _ _ Ht. eapply array_marked_sim; [exact Ht|]. eapply all_marked_mono; [exact Hm'|exact Ha]. }
      destruct (bit x VALUEWEAKBIT) eqn:Ebit; [|apply cleared_ret; [done|apply Hall, marked_refl]]. rewrite <- La, Nat2Z.id.
      eapply cleared_weaken; [apply (cleared_down _ _ _ _ _ _ _ _ (elt_marked l) M (elt_marked_stable l))|].
      + intros i g' Hi M' Hm'. destruct (traversed g g' l x m t Hm' Ex Eb) as (y & t' & Ey & Eby & Ht). eapply clear_elt_post; [done..|]. by rewrite <- (Forall2_length _ _ _ (ts_array _ _ Ht)).
      + intros g' Hm' _. by apply Hall. }
  cbn [bind]. rewrite <- Hs, Nat2Z.id.
  destruct (cleared_down E D A g1 GA W (clear_node l) (length (node t)) (fun i g => entry_marked l i (heap g)) M1) as (g2 & -> & M2 & Hm2 & P2).
  { intros i ga gb Hm' Hok'. by apply entry_marked_stable. }
  { intros i g' Hi M' Hm'. destruct (traversed g g' l x m t (marked_trans _ _ _ Hm1 Hm') Ex Eb) as (y & t' & Ey & Eby & Ht). eapply clear_node_post; [done..|]. by rewrite <- (Forall2_length _ _ _ (ts_node _ _ Ht)). }
  cbn [bind]. exists g2. assert (marked g g2) as Hm02 by (by eapply marked_trans). split_and!; [|done|done|].
  - do 4 f_equal. by rewrite (linked_head _ _ _ _ Hl2).
  - destruct (traversed g g2 l x m t Hm02 Ex Eb) as (y & t2 & Ey & Eby & Ht). intros y' Ey'. rewrite Ey in Ey'. injection Ey' as <-.
    destruct (traversed g g1 l x m t Hm1 Ex Eb) as (y1 & t1 & Ey1 & Eby1 & Ht1).
    apply (table_marked (heap g2) l y m t2 t2 Ey Eby (table_sim_refl t2)).
    + eapply all_marked_mono; [exact Hm02|exact Hm].
    + destruct (traversed g1 g2 l y1 m t1 Hm2 Ey1 Eby1) as (y2 & t2' & Ey2 & Eby2 & Ht2). rewrite Ey in Ey2. injection Ey2 as <-. rewrite Eby in Eby2. injection Eby2 as <-.
      eapply array_marked_sim; [exact Ht2|]. eapply all_marked_mono; [exact Hm2|]. by eapply P1.
    + intros i Hi. apply P2. by rewrite (Forall2_length _ _ _ (ts_node _ _ Ht)).
Qed.

Lemma cleartable_post E D A g GA W : marking E D A g [] GA W -> (forall p, p ∈ W -> ~ D p) ->
  exists g', cleartable (weak g) g = Ok g' /\ marking E D A g' [] GA W /\ marked g g' /\ forall l y, l ∈ W -> heap g' !! l = Some y -> refs_marked (heap g') (o_body y).
Proof.
  intros M HD. unfold cleartable. destruct (mk_lists _ _ _ _ _ _ _ M) as (_ & _ & Hl). rewrite (linked_head _ _ _ _ Hl).
  enough (forall n W2 W1 g1, (length W2 < n)%nat -> W = W1 ++ W2 -> marking E D A g1 [] GA W -> (forall l y, l ∈ W1 -> heap g1 !! l = Some y -> refs_marked (heap g1) (o_body y)) ->
    cleared_post E D A g1 GA W (loop n clear_step (hd 0 W2, g1)) (fun g' => forall l y, l ∈ W -> heap g' !! l = Some y -> refs_marked (heap g') (o_body y))) as Hloop.
  { change (match W with [] => 0 | a :: _ => a end) with (hd 0 W). apply (Hloop _ W [] g); [|done..|by intros l y ?%not_elem_of_nil]. enough (length W <= size (heap g))%nat by lia. apply nodup_size.
    - pose proof (mk_nodup _ _ _ _ _ _ _ M) as Hn. cbn in Hn. by apply NoDup_app in Hn as (_ & _ & ?).
    - intros p Hp. destruct (mk_listed _ _ _ _ _ _ _ M p) as (x & Ex & _); [by apply elem_of_app; right; apply elem_of_app; right|]. by exists x. }
  induction n as [|n IH]; intros W2 W1 g1 Hlt EW M1 HP; [lia|]. cbn [loop]. destruct W2 as [|l W2].
  - cbn [hd]. unfold clear_step at 1. cbn. exists g1. split_and!; [done|done|apply marked_refl|]. intros l y Hin. rewrite EW, app_nil_r in Hin. by apply HP.
  - cbn [hd]. rewrite EW in M1. destruct (clear_step_post E D A g1 GA W1 l W2 M1) as (g2 & -> & M2 & Hm2 & P2).
    { apply HD. rewrite EW, elem_of_app. right. by left. }
    cbn [bind]. rewrite <- EW in M2. destruct (IH W2 (W1 ++ [l]) g2) as (g3 & E3 & M3 & Hm3 & P3); [cbn in Hlt; lia|by rewrite <- app_assoc|done| |].
    + intros q y Hq Ey. apply elem_of_app in Hq as [Hq|Hq%list_elem_of_singleton]; [|subst q; by apply P2].
      destruct (heap_sim_r _ _ _ _ (md_sim _ _ Hm2) Ey) as (x & Ex & _). eapply (refs_marked_sim (heap g1) (heap g2) q x y (md_sim _ _ Hm2)); [apply (mk_ok _ _ _ _ _ _ _ M1)|apply (md_mono _ _ Hm2)|done|done|by eapply HP].
    + exists g3. split_and!; [exact E3|done|by eapply marked_trans|done].
Qed.

(** * The end of marking *)

(** Nothing that is not white refers to a white object. *)
Definition nonwhite_closed h : Prop := forall p x, h !! p = Some x -> iswhite x = false -> refs_marked h (o_body x).
Lemma marking_closed D A g GA W :
  marking (fun _ => False) D A g [] GA W -> A -> all_threads (heap g) GA -> (forall p, p ∈ GA -> ~ D p) ->
  (forall l y, l ∈ W -> heap g !! l = Some y -> refs_marked (heap g) (o_body y)) -> nonwhite_closed (heap g).
Proof.
  intros M HA Hth HD HW p x Ex Hw. destruct (mk_fine _ _ _ _ _ _ _ M p x Ex ltac:(by intros [])) as [F1 F2 F3]. destruct (isblack x) eqn:Hb; [by apply F2|].
  assert (isgray x = true) as Hg by (unfold isgray; by rewrite Hb, Hw). destruct (F1 Hg) as [Hl Hk].
  destruct (listed (o_body x)) eqn:Hli.
  - destruct (elem_of_app GA W p) as [Hin _]. destruct (Hin (Hl eq_refl)) as [HGA|HWp]; [|by apply (HW p)].
    pose proof (mk_settled _ _ _ _ _ _ _ M p x Ex ltac:(by apply elem_of_app; left) (HD p HGA)) as Hs. destruct (Hth p HGA) as (x' & Ex' & Ht). rewrite Ex in Ex'. injection Ex' as <-.
    unfold settled in Hs. by destruct (o_body x).
  - destruct (o_body x) as [| |[]| | | | |]; try done; [by intros c ty ?%not_elem_of_nil|by apply F3].
Qed.
End Clear.

Section Atomic.
Context {N : Type} `{LuaNumber N}.
Implicit Types (g : gstate N) (h : gmap Z (GCObject N)) (x y : GCObject N) (v : TValue N) (E D : Z -> Prop) (G GA W U T R UD : list Z) (A : Prop) (SC : list (list Z)) (OP : Z -> list Z).

(** * The lists between the stages *)

Lemma stage_weak E D A g GA W :
  marking E D A g [] GA W -> (forall p, p ∈ W -> ~ E p) -> marking E (fun p => p ∈ GA) A (set_weak 0 (set_gray (weak g) g)) W GA [].
Proof.
  intros [M1 M2 M3 M4 M5 (M6a & M6b & M6c) M7 M8 M9 M10 M11] HE. assert (W ++ GA ++ [] ≡ₚ [] ++ GA ++ W) as Hp by (rewrite app_nil_r; cbn; apply Permutation_app_comm). split; try done.
  - by rewrite Hp.
  - intros p. rewrite Hp. intros Hin. destruct (M8 p Hin) as (x & Ex & ? & ? & Hg). exists x. split_and!; try done. intros [?|?]; apply Hg; right; auto.
  - intros p x Ex Hn. destruct (M9 p x Ex Hn) as [F1 F2 F3]. split; [|done|done]. intros Hg. destruct (F1 Hg) as [F4 F5]. split; [|done]. intros Hl. rewrite Hp. auto.
  - intros p x _. rewrite app_nil_r. by intros ? [].
  - by intros p x _ ?%not_elem_of_nil.
Qed.
Lemma stage_again E D A g GA W :
  marking E D A g [] GA W -> (forall p, p ∈ GA -> ~ E p) -> (forall p, p ∈ W -> ~ D p) -> marking E (fun _ => False) A (set_grayagain 0 (set_gray (grayagain g) g)) GA [] W.
Proof.
  intros [M1 M2 M3 M4 M5 (M6a & M6b & M6c) M7 M8 M9 M10 M11] HE HD. split; try done.
  - intros p Hin. destruct (M8 p Hin) as (x & Ex & ? & ? & Hg). exists x. split_and!; try done. intros [?|?]; apply Hg; right; auto.
  - intros p x Ex Hin _. apply (M10 p); [done|cbn in *; apply elem_of_app; by right|by apply HD].
Qed.

(** Userdata are in no list of the mark phase. *)
Lemma udata_unlisted g R UD T E D A G GA W p : outer g R UD T -> marking E D A g G GA W -> p ∈ G ++ GA ++ W -> p ∉ T.
Proof.
  intros Ho M Hp HT. destruct (mk_listed _ _ _ _ _ _ _ M p Hp) as (x & Ex & _ & Hl & _). destruct (proj1 (od_homes_udata _ _ _ _ Ho p)) as (y & Ey & Eh); [apply elem_of_app; by right|].
  rewrite Ex in Ey. injection Ey as <-. by destruct (o_body x) as [| |[]| | | | |].
Qed.

(** * Roots *)

(** What the state refers to directly. *)
Definition root_refs g : list (Z * Z) :=
  (main g, LUA_TTHREAD) :: (running (roots g), LUA_TTHREAD) :: vrefs (l_registry (roots g)) ++ (mt (roots g) ≫= fun p => ptr p LUA_TTABLE).
Definition roots_ok g : Prop := value_ok (l_registry (roots g)) /\ typed_refs (heap g) (root_refs g) /\ names_ok g.

Lemma roots_carried g g' : carried g g' -> roots_ok g -> roots_ok g'.
Proof.
  intros Hc (H1 & H2 & H3). unfold roots_ok, names_ok, root_refs, main. rewrite (cr_roots _ _ Hc). split_and!; [done|by eapply typed_carried|exact H3].
Qed.

Lemma markmt_post E D A g G GA W : marking E D A g G GA W -> roots_ok g -> mark_post E D A g G GA W (markmt g) (fun h => all_marked h (mt (roots g) ≫= fun p => ptr p LUA_TTABLE)).
Proof.
  intros M (_ & Ht & _). unfold root_refs in Ht. apply typed_cons in Ht as [_ Ht]. apply typed_cons in Ht as [_ Ht]. apply typed_app in Ht as [_ Ht].
  unfold markmt. eapply post_weaken; [apply (loop_up_post _ _ _ _ _ _ _ _ _ (fun i h => forall p, mt (roots g) !! i = Some p -> all_marked h (ptr p LUA_TTABLE)) M)|].
  - intros i g1 g2 Hm _ HQ p Ep. by eapply all_marked_mono, HQ.
  - intros i g' G' Hi M' Hm. rewrite (md_roots _ _ Hm). destruct (lookup_lt_is_Some_2 _ _ Hi) as [p Ep]. unfold elt. rewrite Ep. cbn [lift bind].
    eapply post_weaken; [apply mark_if_post; [done|]|intros g2 _ _ Ha p' [= <-]; exact Ha]. eapply typed_sim; [exact Hm|]. eapply (typed_bind _ _ (fun p => ptr p LUA_TTABLE)); [exact Ht|by eapply list_elem_of_lookup_2].
  - intros g' _ _ HQ c t Hc. apply list_elem_of_bind in Hc as (p & Hc & Hp). apply list_elem_of_lookup in Hp as [i Ei]. eapply (HQ i); [by eapply lookup_lt_Some|done..].
Qed.

(** * The whole step *)

(** The objects that are not of the other white. *)
Definition live g x : Prop := bit x (ow g) = false.
(** While objects are swept: live objects refer to live objects only. *)
Record sweeping g : Prop := {
  sw_white : white_ok g;
  sw_null : heap g !! 0 = None;
  sw_ok : heap_ok (heap g);
  sw_live p x c t : heap g !! p = Some x -> live g x -> (c, t) ∈ refs (heap g) (o_body x) -> exists y, heap g !! c = Some y /\ gch_tt y = t /\ live g y;
  sw_roots c t : (c, t) ∈ root_refs g -> exists y, heap g !! c = Some y /\ gch_tt y = t /\ live g y
}.

Definition flipped g : gstate N := set_phase (mkPhase GCSsweepstring (u8 (otherwhite g)) 0 AtRoot) g.
Lemma flip_white g : white_ok g -> white_ok (flipped g) /\ ow (flipped g) = cw g.
Proof.
  unfold white_ok, flipped, ow, cw, otherwhite. change (currentwhite (set_phase ?p g)) with (ph_currentwhite p). cbn [ph_currentwhite]. intros [-> | ->]; cbn; auto.
Qed.
Lemma flip_live g p x E D A G GA W : marking E D A g G GA W -> heap g !! p = Some x -> live (flipped g) x <-> iswhite x = false.
Proof.
  intros M Ex. unfold live. destruct (flip_white g (mk_white _ _ _ _ _ _ _ M)) as [_ ->]. destruct (mk_colour _ _ _ _ _ _ _ M p x Ex) as [C _]. rewrite iswhite_bits. fold (bit x 0) (bit x 1).
  destruct (cw_range g) as [[E1 E2]|[E1 E2]]; rewrite E1, E2 in *; rewrite C; rewrite ?orb_false_r; done.
Qed.
Lemma flip_sweeping g D GA W :
  marking (fun _ => False) D True g [] GA W -> nonwhite_closed (heap g) -> typed_refs (heap g) (root_refs g) -> all_marked (heap g) (root_refs g) -> sweeping (flipped g).
Proof.
  intros M Hc Ht Ha. split.
  - apply (flip_white g (mk_white _ _ _ _ _ _ _ M)).
  - apply (mk_null _ _ _ _ _ _ _ M).
  - apply (mk_ok _ _ _ _ _ _ _ M).
  - intros p x c t Ex Hl Hr. apply (flip_live g p x _ _ _ _ _ _ M Ex) in Hl. destruct (mk_refs _ _ _ _ _ _ _ M p x c t Ex Hr) as (y & Ey & Et). exists y. split_and!; [done..|].
    apply (flip_live g c y _ _ _ _ _ _ M Ey). destruct (Hc p x Ex Hl c t Hr) as (y' & Ey' & Hw). congruence.
  - intros c t Hr. destruct (Ht c t Hr) as (y & Ey & Et). exists y. split_and!; [done..|]. apply (flip_live g c y _ _ _ _ _ _ M Ey). destruct (Ha c t Hr) as (y' & Ey' & Hw). congruence.
Qed.

(** What holds when the mark phase comes to the atomic step: the main thread
    and the registry are marked. *)
Record propagating R UD SC OP T U g G GA W : Prop := {
  pg_marking : marking (fun p => p ∈ T) (fun _ => True) False g G GA W;
  pg_outer : outer g R UD T;
  pg_inner : inner g SC OP U;
  pg_roots : roots_ok g;
  pg_marked : nonwhite (heap g) (main g) /\ all_marked (heap g) (vrefs (l_registry (roots g)))
}.

Lemma outer_lists g R UD T l l' : outer g R UD T -> outer (set_lists l (set_lists l' g)) R UD T.
Proof. by intros []. Qed.
Lemma inner_lists g SC OP U l l' : inner g SC OP U -> inner (set_lists l (set_lists l' g)) SC OP U.
Proof. by intros []. Qed.
Lemma lists_carried g l l' : carried g (set_lists l (set_lists l' g)).
Proof. split; try done. intros p x Ex. by exists x. Qed.

(** The first half: what was reached through upvalues, weak tables, the
    running thread and the metatables, and what is traversed again. *)
Lemma atomic_marks R UD SC OP T U g GA W :
  propagating R UD SC OP T U g [] GA W ->
  exists g' GA' W' g1 g2 g3 g4 g5 k1 k2 k3, remarkupvals g = Ok g1 /\ propagateall g1 = Ok (k1, g2) /\ markobject (running (roots g2)) (set_weak 0 (set_gray (weak g2) g2)) = Ok g3 /\
    markmt g3 = Ok g4 /\ propagateall g4 = Ok (k2, g5) /\ propagateall (set_grayagain 0 (set_gray (grayagain g5) g5)) = Ok (k3, g') /\
    marking (fun p => p ∈ T) (fun _ => False) True g' [] GA' W' /\ all_threads (heap g') GA' /\ carried g g' /\ outer g' R UD T /\ inner g' SC OP U /\ all_marked (heap g') (root_refs g').
Proof.
  intros [M Ho Hi Hr [Hmain Hreg]].
  assert (forall g0 G0 GA0 W0 D (A : Prop), outer g0 R UD T -> marking (fun p => p ∈ T) D A g0 G0 GA0 W0 -> forall p, p ∈ G0 ++ GA0 ++ W0 -> p ∉ T) as Hun by (intros g0 G0 GA0 W0 D A Ho0 M0 p Hp; eapply udata_unlisted; [exact Ho0|exact M0|exact Hp]).
  destruct (remarkupvals_post _ _ _ _ _ _ U (ol_uvprev (owners g)) M) as (g1 & G1 & E1 & M1 & Hm1).
  { intros p x Hp Ex. destruct (proj1 (od_homes_udata _ _ _ _ Ho p)) as (y & Ey & Eh); [apply elem_of_app; by right|]. rewrite Ex in Ey. injection Ey as <-. by destruct (o_body x) as [| |[]| | | | |]. }
  { apply (od_null _ _ _ _ Hi). } { apply (od_uv _ _ _ _ Hi). } { intros p x Ex Hop. apply (od_opens _ _ _ _ Hi). by exists x. }
  { apply nodup_size; [apply (od_nodups _ _ _ _ Hi)|]. intros p Hp. apply (od_opens _ _ _ _ Hi) in Hp as (x & Ex & _). by exists x. }
  destruct (propagateall_post _ _ _ _ _ _ _ M1 (names_marked _ _ Hm1 (proj2 (proj2 Hr)))) as (k1 & g2 & E2 & GA2 & W2 & M2 & Hm2 & _).
  pose proof (marked_trans _ _ _ Hm1 Hm2) as Hm02. pose proof (outer_marked _ _ _ _ _ Hm02 Ho) as Ho2.
  apply stage_weak in M2 as M2'; [|intros p Hp; apply (Hun _ _ _ _ _ _ Ho2 M2); cbn; apply elem_of_app; by right]. set (g2' := set_weak 0 _) in *.
  assert (carried g g2') as Hc2 by (eapply carried_trans; [apply marked_carried; exact Hm02|apply lists_carried]). pose proof (roots_carried _ _ Hc2 Hr) as Hr2.
  assert (is_Some (heap g2' !! running (roots g2))) as Hrun. { destruct Hr2 as (_ & Ht & _). destruct (Ht (running (roots g2')) LUA_TTHREAD) as (x & Ex & _); [right; by left|]. by exists x. }
  destruct (markobject_post _ _ _ _ _ _ _ _ M2' Hrun) as (g3 & G3 & E3 & M3 & Hm3 & _ & _ & P3). pose proof (roots_carried _ _ (marked_carried _ _ Hm3) Hr2) as Hr3.
  destruct (markmt_post _ _ _ _ _ _ _ M3 Hr3) as (g4 & G4 & E4 & M4 & Hm4 & _ & _ & P4). pose proof (roots_carried _ _ (marked_carried _ _ Hm4) Hr3) as Hr4.
  destruct (propagateall_post _ _ _ _ _ _ _ M4 (proj2 (proj2 Hr4))) as (k2 & g5 & E5 & GA5 & W5 & M5 & Hm5 & _). rewrite app_nil_r in M5.
  assert (marked g2' g5) as Hm25 by (by eapply marked_trans, marked_trans). assert (outer g5 R UD T) as Ho5 by (eapply outer_marked, outer_lists; [exact Hm25|exact Ho2]).
  apply stage_again in M5 as M5'; [| |].
  2:{ intros p Hp. apply (Hun _ _ _ _ _ _ Ho5 M5). cbn. apply elem_of_app. by left. }
  2:{ intros p Hp Hq. pose proof (mk_nodup _ _ _ _ _ _ _ M5) as Hnd. cbn in Hnd. apply NoDup_app in Hnd as (_ & Hd & _). apply (Hd p); [apply elem_of_app; by right|done]. }
  set (g5' := set_grayagain 0 _) in *. assert (carried g g5') as Hc5 by (eapply carried_trans; [exact Hc2|eapply carried_trans; [apply marked_carried; exact Hm25|apply lists_carried]]).
  destruct (propagateall_post _ _ _ _ _ _ _ M5' (proj2 (proj2 (roots_carried _ _ Hc5 Hr)))) as (k3 & g6 & E6 & GA6 & W6 & M6 & Hm6 & Ht6). rewrite app_nil_r in M6.
  assert (carried g g6) as Hc6 by (eapply carried_trans; [exact Hc5|by apply marked_carried]).
  exists g6, GA6, (W6 ++ W5), g1, g2, g3, g4, g5, k1, k2, k3. split_and!; try done.
  - eapply outer_marked, outer_lists; [exact Hm6|exact Ho5].
  - eapply inner_marked, inner_lists, inner_marked, inner_lists, inner_marked; [exact Hm6|exact Hm25|exact Hm02|exact Hi].
  - unfold root_refs, main. rewrite (cr_roots _ _ Hc6). apply all_marked_cons. split; [by apply (cr_mono _ _ Hc6)|]. apply all_marked_cons. split; [|apply all_marked_app; split].
    + rewrite <- (md_roots _ _ Hm02). apply (md_mono _ _ Hm6). change (heap g5') with (heap g5). by apply (md_mono _ _ Hm5), (md_mono _ _ Hm4).
    + intros c t Hct. by eapply (cr_mono _ _ Hc6), Hreg.
    + rewrite (md_roots _ _ Hm3), (cr_roots _ _ Hc2) in P4. exact (all_marked_mono g5' g6 _ Hm6 (all_marked_mono g4 g5 _ Hm5 P4)).
Qed.

Lemma atomic_post R UD SC OP T U g GA W :
  propagating R UD SC OP T U g [] GA W ->
  exists g' UD' T', atomic g = Ok g' /\ sweeping g' /\ outer g' R UD' T' /\ inner g' SC OP U /\ phase g' = mkPhase GCSsweepstring (u8 (otherwhite g)) 0 AtRoot /\
    roots g' = roots g /\ dom (heap g') = dom (heap g) /\ names_ok g' /\ (forall p, nonwhite (heap g) p \/ p ∈ T' -> exists x, heap g' !! p = Some x /\ live g' x /\ iswhite x = false) /\
    (forall p x, heap g !! p = Some x -> exists y, heap g' !! p = Some y /\ gch_tt y = gch_tt x).
Proof.
  intros Hp. destruct (atomic_marks _ _ _ _ _ _ _ _ _ Hp) as (g6 & GA6 & W6 & g1 & g2 & g3 & g4 & g5 & k1 & k2 & k3 & E1 & E2 & E3 & E4 & E5 & E6 & M6 & Ht6 & Hc6 & Ho6 & Hi6 & Ha6).
  destruct (luaC_separateudata_post _ _ _ _ _ _ _ _ _ _ _ _ _ false M6 (proj2 (proj2 (roots_carried _ _ Hc6 (pg_roots _ _ _ _ _ _ _ _ _ _ Hp)))) Ho6 Hi6) as (m7 & g7 & G7 & UD' & T' & E7 & M7 & Ho7 & Hi7 & Hc7 & T2 & ET').
  assert (marking (fun p => p ∈ T') (fun _ => False) True g7 G7 GA6 W6) as M7' by (eapply marking_weaken; [..|exact M7]; [intros p Hin; rewrite ET'; apply elem_of_app; by left|done|done]).
  destruct (marktmu_post _ _ _ _ _ _ _ _ _ M7' Ho7) as (g8 & G8 & E8 & M8 & Hm8 & Hn8).
  pose proof (carried_trans _ _ _ Hc6 (carried_trans _ _ _ Hc7 (marked_carried _ _ Hm8))) as Hc8. pose proof (roots_carried _ _ Hc8 (pg_roots _ _ _ _ _ _ _ _ _ _ Hp)) as Hr8.
  destruct (propagateall_post _ _ _ _ _ _ _ M8 (proj2 (proj2 Hr8))) as (k9 & g9 & E9 & GA9 & W9 & M9 & Hm9 & Ht9).
  destruct (cleartable_post _ _ _ _ _ _ M9) as (g10 & E10 & M10 & Hm10 & P10); [by intros p _ []|].
  assert (carried g g10) as Hc10 by exact (carried_trans _ _ _ Hc8 (marked_carried _ _ (marked_trans _ _ _ Hm9 Hm10))).
  pose proof (roots_carried _ _ Hc10 (pg_roots _ _ _ _ _ _ _ _ _ _ Hp)) as (_ & Ht10 & Hn10).
  assert (all_marked (heap g10) (root_refs g10)) as Ha10.
  { unfold root_refs, main in Ha6 |- *. rewrite (cr_roots _ _ Hc6) in Ha6. rewrite (cr_roots _ _ Hc10). intros c t Hct. apply (md_mono _ _ Hm10), (md_mono _ _ Hm9), (md_mono _ _ Hm8), (cr_mono _ _ Hc7). by eapply Ha6. }
  assert (nonwhite_closed (heap g10)) as Hcl.
  { eapply marking_closed; [exact M10|done| |by intros p _ []|exact P10]. eapply threads_marked; [exact Hm10|]. intros p [Hin|Hin]%elem_of_app; [by apply Ht9|].
    exact (threads_marked _ _ _ Hm9 (threads_marked _ _ _ Hm8 (threads_carried _ _ _ Hc7 Ht6)) p Hin). }
  pose proof (flip_sweeping _ _ _ _ M10 Hcl Ht10 Ha10) as Hsw.
  unfold atomic. rewrite E1. cbn [bind]. rewrite E2. cbn [bind]. cbv zeta. change (roots (set_weak 0 (set_gray (weak g2) g2))) with (roots g2). rewrite E3. cbn [bind]. rewrite E4. cbn [bind]. rewrite E5. cbn [bind]. rewrite E6. cbn [bind]. rewrite E7. cbn [bind].
  rewrite E8. cbn [bind]. rewrite E9. cbn [bind]. rewrite E10. cbn [bind]. eexists _, UD', T'. split; [done|]. change (set_phase (mkPhase GCSsweepstring (u8 (otherwhite g10)) 0 AtRoot) g10) with (flipped g10).
  pose proof (outer_marked _ _ _ _ _ (marked_trans _ _ _ Hm8 (marked_trans _ _ _ Hm9 Hm10)) Ho7) as Ho10. pose proof (inner_marked _ _ _ _ _ (marked_trans _ _ _ Hm8 (marked_trans _ _ _ Hm9 Hm10)) Hi7) as Hi10.
  assert (currentwhite g10 = currentwhite g) as Ecw by (unfold currentwhite; by rewrite (cr_phase _ _ Hc10)).
  split_and!; [by destruct Hsw|by destruct Ho10|by destruct Hi10| |apply (cr_roots _ _ Hc10)|apply (cr_dom _ _ Hc10)|exact Hn10| |].
  - cbn. unfold otherwhite. by rewrite Ecw.
  - intros p Hp'. assert (nonwhite (heap g10) p) as (x & Ex & Hw) by (destruct Hp' as [Hnw|HT]; [by apply (cr_mono _ _ Hc10)|by apply (md_mono _ _ Hm10), (md_mono _ _ Hm9), Hn8]).
    exists x. split; [exact Ex|]. split; [|exact Hw]. by apply (flip_live g10 p x _ _ _ _ _ _ M10 Ex).
  - intros p x Ex. destruct (cr_tt _ _ Hc10 p x Ex) as (y & Ey & Et & _). by exists y.
Qed.
End Atomic.
