(* ===== verification/LuaUnlink.v ===== *)
(** Taking objects of Lua out of the lists that own them: the ring of open
    upvalues, and the list that is swept. *)
From stdpp Require Import base gmap list.
From Stdlib Require Import ZArith Lia.
From S2P Require Import Prelude LuaNumber LuaTable LuaString LuaHeap LuaMark LuaGc LuaMarkWf LuaMarkSpec LuaTraverse LuaOwn.
Open Scope Z_scope.

Section Unlink.
Context {N : Type} `{LuaNumber N}.
Implicit Types (g : gstate N) (h : gmap Z (GCObject N)) (x y : GCObject N) (v : TValue N) (L U T R UD : list Z) (SC : list (list Z)) (OP : Z -> list Z).

(** * The ring of open upvalues *)

Lemma uvring_app h q p U1 U2 e r : uvring h q p (U1 ++ U2) e r <-> exists m n, uvring h q p U1 m n /\ uvring h m n U2 e r.
Proof.
  revert q p. induction U1 as [|a U1 IH]; intros q p; cbn.
  - split; [intros Hr; by exists q, p|]. by intros (m & n & [-> ->] & Hr).
  - split.
    + intros (-> & x & th & i & k & E & Eb & (m & n & H1 & H2)%IH). exists m, n. split; [|done]. split; [done|]. by exists x, th, i, k.
    + intros (m & n & (-> & x & th & i & k & E & Eb & H1) & H2). split; [done|]. exists x, th, i, k. split_and!; [done|done|]. apply IH. by exists m, n.
Qed.

(** Only the links in the ring change. *)
Definition same_but_links x y : Prop :=
  o_next y = o_next x /\ o_marked y = o_marked x /\ o_gclist y = o_gclist x /\
  (o_body y = o_body x \/ exists th i p n p' n', o_body x = TUPVAL (UOpen th i p n) /\ o_body y = TUPVAL (UOpen th i p' n')).
Definition heap_links h h' : Prop := forall p, option_Forall2 same_but_links (h !! p) (h' !! p).
Lemma heap_links_refl h : heap_links h h.
Proof. intros p. destruct (h !! p); constructor. split_and!; auto. Qed.
Lemma same_but_links_trans x y z : same_but_links x y -> same_but_links y z -> same_but_links x z.
Proof.
  intros (A1 & A2 & A3 & A4) (B1 & B2 & B3 & B4). split_and!; try congruence. destruct A4 as [A4|(th & i & p & n & p' & n' & E1 & E2)]; [rewrite A4 in B4; auto|].
  destruct B4 as [B4|(th2 & i2 & p2 & n2 & p2' & n2' & E3 & E4)]; [right; rewrite B4; by eauto 10|]. rewrite E2 in E3. injection E3 as -> -> -> ->. right. eauto 10.
Qed.
Lemma heap_links_trans h1 h2 h3 : heap_links h1 h2 -> heap_links h2 h3 -> heap_links h1 h3.
Proof.
  intros H1 H2 p. specialize (H1 p). specialize (H2 p). destruct H1 as [x y Hxy|]; inversion H2 as [? z Hyz|]; subst; constructor. by eapply same_but_links_trans.
Qed.
Lemma heap_links_insert h p x y : h !! p = Some x -> same_but_links x y -> heap_links h (<[p := y]> h).
Proof. intros E Hs r. destruct (decide (p = r)) as [<-|Hne]; [rewrite lookup_insert_eq, E; by constructor|]. rewrite lookup_insert_ne by done. apply heap_links_refl. Qed.
Lemma heap_links_l h h' p x : heap_links h h' -> h !! p = Some x -> exists y, h' !! p = Some y /\ same_but_links x y.
Proof. intros Hs E. specialize (Hs p). rewrite E in Hs. inversion Hs; subst. eauto. Qed.
Lemma heap_links_r h h' p y : heap_links h h' -> h' !! p = Some y -> exists x, h !! p = Some x /\ same_but_links x y.
Proof. intros Hs E. specialize (Hs p). rewrite E in Hs. inversion Hs; subst. eauto. Qed.

(** The rest of the state. *)
Record same_rest g g' : Prop := {
  sr_lists : lists g' = lists g;
  sr_phase : phase g' = phase g;
  sr_roots : roots g' = roots g;
  sr_rootgc : rootgc g' = rootgc g;
  sr_strt : strt g' = strt g;
  sr_tmudata : tmudata g' = tmudata g
}.
Lemma same_rest_refl g : same_rest g g.
Proof. by split. Qed.
Lemma same_rest_trans g1 g2 g3 : same_rest g1 g2 -> same_rest g2 g3 -> same_rest g1 g3.
Proof. intros [] []. split; congruence. Qed.

Lemma upd_upval_ok g p x u f : heap g !! p = Some x -> o_body x = TUPVAL u -> upd_upval p f g = Ok (set_heap (<[p := with_body (TUPVAL (f u)) x]> (heap g)) g).
Proof. intros Ex Eb. unfold upd_upval. rewrite (upval_at_ok _ _ _ _ Ex Eb). cbn [bind]. by rewrite (upd_obj_ok _ _ _ _ Ex), Eb. Qed.

Lemma set_uv_prev_post g a n m U :
  heap g !! UVHEAD = None -> uvring (heap g) a n U (ol_uvprev (owners g)) UVHEAD -> NoDup U ->
  exists g', set_uv_prev n m g = Ok g' /\ heap_links (heap g) (heap g') /\ (forall p, p ∉ U -> heap g' !! p = heap g !! p) /\ same_rest g g' /\
    ol_uvnext (owners g') = ol_uvnext (owners g) /\ uvring (heap g') m n U (ol_uvprev (owners g')) UVHEAD.
Proof.
  intros H8 Hr Hnd. unfold set_uv_prev. destruct U as [|c U].
  - destruct Hr as [-> _]. rewrite Z.eqb_refl. eexists. split_and!; [done|apply heap_links_refl|done|by split|done|done].
  - destruct Hr as (-> & x & th & i & k & Ex & Eb & Hr). rewrite (proj2 (Z.eqb_neq _ _)) by congruence. rewrite (upd_upval_ok _ _ _ _ _ Ex Eb). cbn [set_links].
    apply NoDup_cons in Hnd as [Hc Hnd]. eexists. split_and!; [done| | |by split|done|].
    + apply (heap_links_insert _ _ x); [done|]. split_and!; try done. right. cbn. eauto 10.
    + intros p Hp. cbn. rewrite lookup_insert_ne; [done|]. intros ->. apply Hp. by left.
    + cbn. split; [done|]. eexists _, th, i, k. split_and!; [apply lookup_insert_eq|done|]. cbn. eapply uvring_ext; [|exact Hr].
      intros b y Hb Ey _. exists y. split; [|done]. rewrite lookup_insert_ne; [done|]. by intros ->.
Qed.
Lemma set_uv_next_post g a n m U :
  heap g !! UVHEAD = None -> uvring (heap g) UVHEAD (ol_uvnext (owners g)) U m a -> NoDup U ->
  exists g', set_uv_next m n g = Ok g' /\ heap_links (heap g) (heap g') /\ (forall p, p ∉ U -> heap g' !! p = heap g !! p) /\ same_rest g g' /\
    ol_uvprev (owners g') = ol_uvprev (owners g) /\ uvring (heap g') UVHEAD (ol_uvnext (owners g')) U m n.
Proof.
  intros H8 Hr Hnd. unfold set_uv_next. destruct U as [|c U _] using rev_ind.
  - destruct Hr as [_ <-]. rewrite Z.eqb_refl. eexists. split_and!; [done|apply heap_links_refl|done|by split|done|done].
  - apply uvring_app in Hr as (q & p & Hr & -> & x & th & i & k & Ex & Eb & -> & ->). rewrite (proj2 (Z.eqb_neq _ _)) by congruence. rewrite (upd_upval_ok _ _ _ _ _ Ex Eb). cbn [set_links].
    apply NoDup_app in Hnd as (Hnd & Hc & _). eexists. split_and!; [done| | |by split|done|].
    + apply (heap_links_insert _ _ x); [done|]. split_and!; try done. right. cbn. eauto 10.
    + intros r Hp. cbn. rewrite lookup_insert_ne; [done|]. intros ->. apply Hp, elem_of_app. right. by left.
    + cbn. apply uvring_app. exists q, m. split.
      * eapply uvring_ext; [|exact Hr]. intros b y Hb Ey _. exists y. split; [|done]. rewrite lookup_insert_ne; [done|]. intros ->. apply (Hc b Hb). by left.
      * split; [done|]. eexists _, th, i, n. split_and!; [apply lookup_insert_eq|done|]. by split.
Qed.

(** The upvalue [a] leaves the ring. *)
Lemma unlinkupval_post g U1 a U2 e :
  heap g !! UVHEAD = None -> uvring (heap g) UVHEAD (ol_uvnext (owners g)) (U1 ++ a :: U2) e UVHEAD -> e = ol_uvprev (owners g) -> NoDup (U1 ++ a :: U2) ->
  exists g', unlinkupval a g = Ok g' /\ heap_links (heap g) (heap g') /\ heap g' !! a = heap g !! a /\ same_rest g g' /\
    uvring (heap g') UVHEAD (ol_uvnext (owners g')) (U1 ++ U2) (ol_uvprev (owners g')) UVHEAD.
Proof.
  intros H8 Hr -> Hnd. apply uvring_app in Hr as (m & n & H1 & -> & x & th & i & k & Ex & Eb & H2). apply NoDup_app in Hnd as (Hn1 & Hd & Hn2). apply NoDup_cons in Hn2 as [Ha Hn2].
  unfold unlinkupval. rewrite (upval_at_ok _ _ _ _ Ex Eb). cbn [bind].
  destruct (set_uv_prev_post g a k m U2 H8 H2 Hn2) as (g1 & -> & L1 & F1 & R1 & E1 & P1). cbn [bind].
  assert (heap g1 !! UVHEAD = None) as H8' by (specialize (L1 UVHEAD); rewrite H8 in L1; by inversion L1).
  assert (uvring (heap g1) UVHEAD (ol_uvnext (owners g1)) U1 m a) as H1'.
  { rewrite E1. eapply uvring_ext; [|exact H1]. intros b y Hb Ey _. exists y. split; [|done]. rewrite F1; [done|]. intros Hb2. apply (Hd b Hb). by right. }
  destruct (set_uv_next_post g1 a k m U1 H8' H1' Hn1) as (g2 & -> & L2 & F2 & R2 & E2 & P2). exists g2. split_and!; [done|by eapply heap_links_trans| |by eapply same_rest_trans|].
  - rewrite F2, F1; [done|done|]. intros Hin. apply (Hd a Hin). by left.
  - apply uvring_app. exists m, k. split; [done|]. rewrite E2. eapply uvring_ext; [|exact P1]. intros b y Hb Ey _. exists y. split; [|done]. rewrite F2; [done|]. intros Hb1. apply (Hd b Hb1). by right.
Qed.

(** * Losing an object *)

Definition without (a : Z) g : gstate N := set_heap (delete a (heap g)) g.
(** The types stay. *)
Definition kindred x y : Prop := home (o_body y) = home (o_body x) /\ is_open (o_body y) = is_open (o_body x) /\ is_thread (o_body y) = is_thread (o_body x) /\ bit y FIXEDBIT = bit x FIXEDBIT.
(** All objects but the one at [a] stay. *)
Definition dropped (a : Z) h h' : Prop :=
  (forall p y, h' !! p = Some y -> p <> a /\ exists x, h !! p = Some x /\ kindred x y) /\ (forall p x, p <> a -> h !! p = Some x -> exists y, h' !! p = Some y /\ kindred x y).

Lemma kindred_refl x : kindred x x.
Proof. done. Qed.
Lemma kindred_links x y : same_but_links x y -> kindred x y.
Proof. intros (_ & Em & _ & [E|(th & i & p & n & p' & n' & E1 & E2)]); unfold kindred, bit; rewrite Em; [by rewrite E|by rewrite E1, E2]. Qed.
Lemma kindred_eqv x y : same_but_next x y -> kindred x y.
Proof. intros (Em & _ & E). unfold kindred, bit. by rewrite Em, E. Qed.
Lemma kindred_trans x y z : kindred x y -> kindred y z -> kindred x z.
Proof. intros (A1 & A2 & A3 & A4) (B1 & B2 & B3 & B4). split_and!; congruence. Qed.
Lemma dropped_delete h h' a : (forall p, option_Forall2 kindred (h !! p) (h' !! p)) -> dropped a h (delete a h').
Proof.
  intros Hk. split.
  - intros p y Ey. apply lookup_delete_Some in Ey as [Hne Ey]. split; [done|]. specialize (Hk p). rewrite Ey in Hk. inversion Hk; subst. eauto.
  - intros p x Hne Ex. specialize (Hk p). rewrite Ex in Hk. inversion Hk as [? y Hxy Ey|]; subst. exists y. by rewrite lookup_delete_ne.
Qed.
Lemma dropped_homed h h' a o p : dropped a h h' -> homed h' o p <-> homed h o p /\ p <> a.
Proof.
  intros [Hb Hf]. split.
  - intros (y & Ey & <-). destruct (Hb p y Ey) as (Hne & x & Ex & Hk & _). split; [|done]. by exists x.
  - intros ((x & Ex & <-) & Hne). destruct (Hf p x Hne Ex) as (y & Ey & Hk & _). by exists y.
Qed.

Lemma inner_drop g g' a SC SC' OP OP' U U' :
  inner g SC OP U -> dropped a (heap g) (heap g') -> main g' = main g -> a <> main g -> strt g' = strt g \/ (length (st_hash (strt g')) = length (st_hash (strt g)) /\ st_size (strt g') = st_size (strt g)) ->
  Forall2 (linked o_next (heap g')) (st_hash (strt g')) SC' ->
  (forall p y (t : lua_State N), heap g' !! p = Some y -> o_body y = TTHREAD t -> linked o_next (heap g') (openupval t) (OP' p)) ->
  uvring (heap g') UVHEAD (ol_uvnext (owners g')) U' (ol_uvprev (owners g')) UVHEAD ->
  NoDup (concat SC') -> (forall th, NoDup (OP' th)) -> NoDup U' ->
  (forall p, p ∈ concat SC' <-> p ∈ concat SC /\ p <> a) -> (forall th p, p ∈ OP' th <-> p ∈ OP th /\ p <> a) -> (forall p, p ∈ U' <-> p ∈ U /\ p <> a) ->
  inner g' SC' OP' U'.
Proof.
  intros [[O1 O1'] (xm & tm & Em & Ebm) (O4 & O4' & O4p) O5 O7 O8 O9 O10 O13 O14] Hd Hmain Ha Hst P1 P2 P3 N1 N2 N3 S1 S2 S3. pose proof Hd as [Hb Hf]. split; rewrite ?Hmain.
  - split; [destruct (heap g' !! 0) eqn:E|destruct (heap g' !! UVHEAD) eqn:E]; try done; destruct (Hb _ _ E) as (_ & x & Ex & _); congruence.
  - destruct (Hf _ _ ltac:(done) Em) as (y & Ey & _ & _ & Ht & _). rewrite Ebm in Ht. exists y. destruct (o_body y) as [| | | | | |t|] eqn:Eb; try done. by exists t.
  - split_and!; [|done|]; destruct Hst as [->|[E1 E2]]; [done|congruence|done|by rewrite E2].
  - exact P2.
  - exact P3.
  - done.
  - intros p. by rewrite S1, O9, (dropped_homed _ _ _ _ _ Hd).
  - intros th p. by rewrite S2, O10, (dropped_homed _ _ _ _ _ Hd).
  - intros p. rewrite S3, O13. split.
    + intros ((x & Ex & Eo) & Hne). destruct (Hf p x Hne Ex) as (y & Ey & _ & Ho & _). exists y. split; [done|congruence].
    + intros (y & Ey & Eo). destruct (Hb p y Ey) as (Hne & x & Ex & _ & Ho & _). split; [|done]. exists x. split; [done|congruence].
  - intros p y Ey Hfx. destruct (Hb p y Ey) as (Hne & x & Ex & Hh & _ & _ & Ef). rewrite Hh. apply (O14 p x Ex). congruence.
Qed.
Lemma outer_drop g g' a R R' UD UD' T T' :
  outer g R UD T -> dropped a (heap g) (heap g') -> main g' = main g -> linked o_next (heap g') (rootgc g') (R' ++ main g :: UD') -> tmring g' T' -> NoDup (R' ++ main g :: UD' ++ T') ->
  (forall p, p ∈ R' ++ [main g] <-> p ∈ R ++ [main g] /\ p <> a) -> (forall p, p ∈ UD' ++ T' <-> p ∈ UD ++ T /\ p <> a) -> outer g' R' UD' T'.
Proof.
  intros [O1 O2 O3 O4 O5] Hd Hmain P1 P2 N1 S1 S2. split; rewrite ?Hmain; try done.
  - intros p. by rewrite S1, O4, (dropped_homed _ _ _ _ _ Hd).
  - intros p. by rewrite S2, O5, (dropped_homed _ _ _ _ _ Hd).
Qed.

(** * The position of a sweep *)

(** After the objects [K] of the list from [p0]. *)
Definition at_pos (p0 : gcpos) L : gcpos := match last L with Some b => AtNext b | None => p0 end.
Lemma at_pos_snoc p0 L (b : Z) : at_pos p0 (L ++ [b]) = AtNext b.
Proof. unfold at_pos. by rewrite last_snoc. Qed.
Lemma pos_get_at g p0 p L rest : pos_get p0 g = Ok p -> linked o_next (heap g) p (L ++ rest) -> pos_get (at_pos p0 L) g = Ok (hd 0 rest).
Proof.
  intros Hg Hl. destruct L as [|b L _] using rev_ind; [cbn in *; rewrite Hg; by rewrite (linked_head _ _ _ _ Hl)|]. rewrite at_pos_snoc. cbn [pos_get].
  rewrite <- app_assoc in Hl. destruct (linked_at _ _ _ _ _ _ Hl) as (_ & x & Ex & Hr). rewrite (obj_at_ok _ _ _ Ex). cbn [bind]. by rewrite (linked_head _ _ _ _ Hr).
Qed.
(** Inside the list, the link to [a] is redirected to what follows it. *)
Lemma pos_set_inside g p0 p L (a : Z) rest xa :
  L <> [] -> linked o_next (heap g) p (L ++ a :: rest) -> NoDup (L ++ a :: rest) -> heap g !! a = Some xa ->
  exists b xb, last L = Some b /\ heap g !! b = Some xb /\ b <> a /\ pos_set (at_pos p0 L) (o_next xa) g = Ok (set_heap (<[b := with_next (o_next xa) xb]> (heap g)) g) /\
    linked o_next (<[b := with_next (o_next xa) xb]> (heap g)) p (L ++ rest).
Proof.
  intros HL Hl Hnd Ea. destruct L as [|b L _] using rev_ind; [done|]. rewrite at_pos_snoc, last_snoc. rewrite <- app_assoc in *. cbn [app] in *.
  destruct (linked_at _ _ _ _ _ _ Hl) as (_ & xb & Eb & _). exists b, xb. split_and!; try done.
  - pose proof Hnd as (_ & _ & Hn)%NoDup_app. apply NoDup_cons in Hn as [Hn _]. intros ->. apply Hn. by left.
  - cbn [pos_set]. by rewrite (upd_obj_ok _ _ _ _ Eb).
  - by eapply linked_cut.
Qed.
Lemma linked_delete f h p L (a : Z) : a ∉ L -> linked f h p L -> linked f (delete a h) p L.
Proof. intros Ha. apply linked_ext. intros c x Hc Ex. exists x. rewrite lookup_delete_ne; [done|]. by intros ->. Qed.

(** * What a removal changes *)

Inductive body_trim : gcbody N -> gcbody N -> Prop :=
  | trim_same b : body_trim b b
  | trim_links th i p n p' n' : body_trim (TUPVAL (UOpen th i p n)) (TUPVAL (UOpen th i p' n'))
  | trim_open (t : lua_State N) q : body_trim (TTHREAD t) (TTHREAD (set_openupval q t)).
Definition trimmed x y : Prop := o_marked y = o_marked x /\ o_gclist y = o_gclist x /\ body_trim (o_body x) (o_body y).
Record removed (a : Z) g g' : Prop := {
  rm_back p y : heap g' !! p = Some y -> p <> a /\ exists x, heap g !! p = Some x /\ trimmed x y;
  rm_forth p x : p <> a -> heap g !! p = Some x -> exists y, heap g' !! p = Some y /\ trimmed x y;
  rm_lists : lists g' = lists g;
  rm_phase : phase g' = phase g;
  rm_roots : roots g' = roots g
}.
Lemma trimmed_kindred x y : trimmed x y -> kindred x y.
Proof. intros (Em & _ & Hb). unfold kindred, bit. rewrite Em. by destruct Hb. Qed.
Lemma removed_dropped a g g' : removed a g g' -> dropped a (heap g) (heap g').
Proof.
  intros [Hb Hf _ _ _]. split.
  - intros p y Ey. destruct (Hb p y Ey) as (? & x & Ex & Ht). split; [done|]. exists x. split; [done|by apply trimmed_kindred].
  - intros p x Hne Ex. destruct (Hf p x Hne Ex) as (y & Ey & Ht). exists y. split; [done|by apply trimmed_kindred].
Qed.
Lemma removed_eqv a g g' h : heap_eqv (heap g) h -> heap g' = delete a h -> lists g' = lists g -> phase g' = phase g -> roots g' = roots g -> removed a g g'.
Proof.
  intros Hs Eh El Ep Er. split; try done; rewrite Eh.
  - intros p y Ey. apply lookup_delete_Some in Ey as [Hne Ey]. split; [done|]. destruct (heap_eqv_r _ _ _ _ Hs Ey) as (x & Ex & Em & Eg & Eb). exists x. split; [done|]. split_and!; [done|done|]. rewrite Eb. constructor.
  - intros p x Hne Ex. destruct (heap_eqv_l _ _ _ _ Hs Ex) as (y & Ey & Em & Eg & Eb). exists y. rewrite lookup_delete_ne by done. split_and!; [done|]. split_and!; [done|done|]. rewrite Eb. constructor.
Qed.

Lemma linked_same_next h h' p L (a : Z) :
  (forall c x, c <> a -> c ∈ L -> h !! c = Some x -> exists y, h' !! c = Some y /\ o_next y = o_next x) -> a ∉ L -> linked o_next h p L -> linked o_next h' p L.
Proof. intros Hx Ha. apply linked_ext. intros c x Hc Ex. apply Hx; [|done|done]. by intros ->. Qed.

Lemma in_chain SC i L p : SC !! i = Some L -> p ∈ L -> p ∈ concat SC.
Proof. intros Ei Hp. apply list_elem_of_In, in_concat. exists L. split; apply list_elem_of_In; [by eapply list_elem_of_lookup_2|done]. Qed.
Lemma concat_replace SC i L1 (a : Z) L2 : SC !! i = Some (L1 ++ a :: L2) -> concat SC ≡ₚ a :: concat (<[i := L1 ++ L2]> SC).
Proof.
  revert i. induction SC as [|L SC IH]; intros [|i] E; try done; cbn in *.
  - injection E as ->. by rewrite <- Permutation_middle.
  - rewrite (IH i E). by rewrite Permutation_middle.
Qed.

(** * Strings *)

Lemma rootgc_home g R UD T : outer g R UD T -> exists x, heap g !! rootgc g = Some x /\ (home (o_body x) = HRoot \/ home (o_body x) = HUdata).
Proof.
  intros Ho. pose proof (od_root _ _ _ _ Ho) as Hl. destruct R as [|r R]; cbn in Hl; destruct Hl as (-> & _).
  - destruct (proj1 (od_homes_root _ _ _ _ Ho (main g))) as (x & Ex & Eh); [by left|]. exists x. auto.
  - destruct (proj1 (od_homes_root _ _ _ _ Ho r)) as (x & Ex & Eh); [by left|]. exists x. auto.
Qed.
Lemma outer_away g g' a x R UD T :
  outer g R UD T -> removed a g g' -> heap g !! a = Some x -> home (o_body x) <> HRoot -> home (o_body x) <> HUdata -> rootgc g' = rootgc g -> tmudata g' = tmudata g ->
  (forall p y, p <> a -> heap g !! p = Some y -> home (o_body y) = HRoot \/ home (o_body y) = HUdata -> exists z, heap g' !! p = Some z /\ o_next z = o_next y) -> outer g' R UD T.
Proof.
  intros Ho Hrm Ea H1 H2 Er Et Hnx. assert (main g' = main g) as Em by (unfold main; by rewrite (rm_roots _ _ _ Hrm)).
  assert (forall p, p ∈ R ++ main g :: UD ++ T -> p <> a /\ exists y, heap g !! p = Some y /\ (home (o_body y) = HRoot \/ home (o_body y) = HUdata)) as Hin.
  { intros p Hp. assert (p ∈ (R ++ [main g]) ++ (UD ++ T)) as Hp' by (by rewrite <- app_assoc). apply elem_of_app in Hp' as [Hp'|Hp'].
    - apply (od_homes_root _ _ _ _ Ho) in Hp' as (y & Ey & Eh). split; [|by eauto]. intros ->. congruence.
    - apply (od_homes_udata _ _ _ _ Ho) in Hp' as (y & Ey & Eh). split; [|by eauto]. intros ->. congruence. }
  eapply (outer_drop g g' a); [exact Ho|by apply removed_dropped|done|..].
  - rewrite Er. eapply linked_ext; [|exact (od_root _ _ _ _ Ho)]. intros p y Hp Ey. destruct (Hin p) as (Hne & y' & Ey' & Hh); [rewrite elem_of_app, elem_of_cons in Hp; rewrite elem_of_app, elem_of_cons, elem_of_app; tauto|].
    rewrite Ey in Ey'. injection Ey' as <-. by apply Hnx.
  - eapply tmring_ext; [done| |exact (od_tmu _ _ _ _ Ho)]. intros p y Hp Ey. destruct (Hin p) as (Hne & y' & Ey' & Hh); [rewrite elem_of_app, elem_of_cons, elem_of_app; tauto|].
    rewrite Ey in Ey'. injection Ey' as <-. by apply Hnx.
  - apply (od_nodup _ _ _ _ Ho).
  - intros p. split; [|tauto]. intros Hp. split; [done|]. apply Hin. rewrite elem_of_app, elem_of_cons, elem_of_app. rewrite elem_of_app, list_elem_of_singleton in Hp. tauto.
  - intros p. split; [|tauto]. intros Hp. split; [done|]. apply Hin. rewrite elem_of_app, elem_of_cons. tauto.
Qed.

Lemma concat_disjoint SC i j L1 L2 (b : Z) : NoDup (concat SC) -> SC !! i = Some L1 -> SC !! j = Some L2 -> j <> i -> b ∈ L1 -> b ∉ L2.
Proof.
  revert i j. induction SC as [|L SC IH]; intros i j Hnd Ei Ej Hne H1 H2; [done|]. cbn in Hnd. apply NoDup_app in Hnd as (_ & Hd & Hnd). destruct i as [|i], j as [|j]; cbn in *; [done|..].
  - injection Ei as ->. apply (Hd b H1). by eapply in_chain.
  - injection Ej as ->. apply (Hd b H2). by eapply in_chain.
  - by eapply (IH i j Hnd Ei Ej); [congruence|..].
Qed.
(** The string at [a] is taken out of its chain. *)
Lemma string_unchain g i L (a : Z) rest x SC OP U :
  inner g SC OP U -> SC !! i = Some (L ++ a :: rest) -> heap g !! a = Some x ->
  exists g1, pos_set (at_pos (AtHash (Z.of_nat i)) L) (o_next x) g = Ok g1 /\ heap_eqv (heap g) (heap g1) /\
    (forall p y, heap g !! p = Some y -> home (o_body y) <> HString \/ p = a -> heap g1 !! p = Some y) /\
    lists g1 = lists g /\ phase g1 = phase g /\ roots g1 = roots g /\ rootgc g1 = rootgc g /\ tmudata g1 = tmudata g /\
    ol_uvnext (owners g1) = ol_uvnext (owners g) /\ ol_uvprev (owners g1) = ol_uvprev (owners g) /\
    length (st_hash (strt g1)) = length (st_hash (strt g)) /\ st_size (strt g1) = st_size (strt g) /\
    Forall2 (linked o_next (delete a (heap g1))) (st_hash (strt g1)) (<[i := L ++ rest]> SC).
Proof.
  intros Hi Ei Ea. pose proof (od_strt _ _ _ _ Hi) as (Hlen & Hf2 & _). destruct (Forall2_lookup_r _ _ _ _ _ Hf2 Ei) as (p & Ep & Hl).
  pose proof (od_nodups _ _ _ _ Hi) as (Hnd & _). pose proof (concat_replace _ _ _ _ _ Ei) as Hperm. pose proof Hnd as Hnd0. rewrite Hperm in Hnd. apply NoDup_cons in Hnd as [Hna Hnd].
  assert (i < length SC)%nat as Hi' by (by eapply lookup_lt_Some).
  assert (NoDup (L ++ a :: rest)) as HndL. { rewrite <- (take_drop_middle _ _ _ Ei), concat_app in Hnd0. cbn [concat] in Hnd0. apply NoDup_app in Hnd0 as (_ & _ & Hn). by apply NoDup_app in Hn as (? & _). }
  assert (forall c, c ∈ L ++ a :: rest -> homed (heap g) HString c) as Hhome by (intros c Hc; apply (od_homes_string _ _ _ _ Hi); by eapply in_chain).
  destruct (decide (L = [])) as [->|HL].
  - cbn [app] in *. cbn [pos_set at_pos last pos_get]. destruct Hl as (-> & _ & x' & Ea' & Hl). rewrite Ea in Ea'. injection Ea' as <-. rewrite Nat2Z.id, Ep. cbn [lift bind].
    eexists. split_and!; [done|apply heap_eqv_refl|done..|cbn; by rewrite length_insert|done|]. cbn.
    assert (Forall2 (linked o_next (heap g)) (<[i := o_next x]> (st_hash (strt g))) (<[i := rest]> SC)) as Hf by (apply Forall2_insert; done).
    eapply Forall2_within; [exact Hf|]. intros q L Hin. apply linked_delete. intros HaL. apply Hna. apply list_elem_of_In, in_concat. exists L. split; by apply list_elem_of_In.
  - destruct (pos_set_inside g (AtHash (Z.of_nat i)) p L a rest x HL Hl HndL Ea) as (b & xb & Hlast & Eb & Hba & -> & Hl').
    assert (b ∈ L) as HbL by (apply last_Some in Hlast as [L' ->]; apply elem_of_app; right; by left).
    assert (homed (heap g) HString b) as (xb' & Eb' & Hhb) by (apply Hhome, elem_of_app; by left). rewrite Eb in Eb'. injection Eb' as <-.
    eexists. split_and!; [done|by apply heap_eqv_next| |done..|].
    + intros c y Ey Hc. cbn. rewrite lookup_insert_ne; [done|]. intros <-. rewrite Eb in Ey. injection Ey as <-. by destruct Hc.
    + cbn. apply Forall2_same_length_lookup. split; [rewrite length_insert; by eapply Forall2_length|]. intros j q L0 Eq EL0. apply linked_delete.
      { intros HaL. apply Hna. by eapply in_chain. }
      destruct (decide (j = i)) as [->|Hji].
      * rewrite list_lookup_insert_eq in EL0 by done. injection EL0 as <-. assert (Some q = Some p) as [= ->] by (rewrite <- Eq, <- Ep; done). done.
      * rewrite list_lookup_insert_ne in EL0 by done. apply linked_insert; [|by eapply Forall2_lookup_lr]. intros HbL0.
        eapply (concat_disjoint SC i j _ _ b Hnd0 Ei EL0 ltac:(done)); [apply elem_of_app; by left|done].
Qed.

Lemma string_out g i L (a : Z) rest x SC OP U R UD T :
  inner g SC OP U -> outer g R UD T -> SC !! i = Some (L ++ a :: rest) -> heap g !! a = Some x ->
  exists g', sweep_out (at_pos (AtHash (Z.of_nat i)) L) a x g = Ok g' /\ inner g' (<[i := L ++ rest]> SC) OP U /\ outer g' R UD T /\ removed a g g'.
Proof.
  intros Hi Ho Ei Ea. assert (homed (heap g) HString a) as (x' & Ea' & Hh). { apply (od_homes_string _ _ _ _ Hi). eapply in_chain; [exact Ei|]. apply elem_of_app. right. by left. }
  rewrite Ea in Ea'. injection Ea' as <-. destruct (string_unchain g i L a rest x SC OP U Hi Ei Ea) as (g1 & E1 & Hs & Hoth & El & Ep & Er & Erg & Etm & En & Epv & Elen & Esz & Hf2).
  unfold sweep_out. rewrite E1. cbn [bind]. destruct (rootgc_home g R UD T Ho) as (xr & Exr & Hr).
  rewrite Erg, (proj2 (Z.eqb_neq _ _)) by (intros ->; rewrite Ea in Exr; injection Exr as <-; destruct Hr; congruence).
  assert (heap g1 !! a = Some x) as Ea1 by (apply Hoth; auto). unfold freeobj. rewrite (obj_at_ok _ _ _ Ea1). cbn [bind]. destruct (o_body x) as [ha str| |[]| | | | |] eqn:Eb; try done.
  eexists. split; [done|]. set (g2 := luaM_free _ _ _). assert (heap g2 = delete a (heap g1)) as Eh by done.
  assert (removed a g g2) as Hrm by (by eapply removed_eqv). pose proof (removed_dropped _ _ _ Hrm) as Hd. assert (main g2 = main g) as Emain by (unfold main; by rewrite (rm_roots _ _ _ Hrm)).
  assert (forall p y, p <> a -> heap g !! p = Some y -> home (o_body y) <> HString -> heap g2 !! p = Some y) as Hsame by (intros p y Hne Ey Hy; rewrite Eh, lookup_delete_ne by done; apply Hoth; auto).
  pose proof (concat_replace _ _ _ _ _ Ei) as Hperm. pose proof (od_nodups _ _ _ _ Hi) as (N1 & N2 & N3). pose proof N1 as N1'. rewrite Hperm in N1'. apply NoDup_cons in N1' as [Hna N1'].
  split_and!; [| |done].
  - eapply (inner_drop g g2 a); [exact Hi|done|done| |right; by split| | | |done|done|done| | |].
    + intros ->. destruct (od_main _ _ _ _ Hi) as (xm & tm & Em & Ebm). rewrite Ea in Em. injection Em as <-. congruence.
    + rewrite Eh. exact Hf2.
    + intros p y t Ey Et. rewrite Eh in Ey. apply lookup_delete_Some in Ey as [Hne Ey]. destruct (heap_eqv_r _ _ _ _ Hs Ey) as (y0 & Ey0 & _ & _ & Eb0). eapply linked_ext; [|eapply (od_open _ _ _ _ Hi p y0 t Ey0); congruence].
      intros c z Hc Ez. apply (od_homes_open _ _ _ _ Hi) in Hc as (z' & Ez' & Hz). rewrite Ez in Ez'. injection Ez' as <-. exists z. split; [|done]. apply Hsame; [|done|congruence]. intros ->. congruence.
    + change (owners g2) with (mkOwners (rootgc g1) (mkStrt (st_hash (strt g1)) (u32 (st_nuse (strt g1) - 1)) (st_size (strt g1))) (tmudata g1) (ol_uvprev (owners g1)) (ol_uvnext (owners g1))). cbn [ol_uvnext ol_uvprev]. rewrite En, Epv.
      eapply uvring_ext; [|exact (od_uv _ _ _ _ Hi)]. intros c z Hc Ez Hop. exists z. split; [|done]. apply Hsame; [|done|by destruct (o_body z) as [| |[]| | | | |]]. intros ->. rewrite Ea in Ez. injection Ez as <-. by rewrite Eb in Hop.
    + intros p. rewrite Hperm, elem_of_cons. split; [|naive_solver]. intros Hp. split; [by right|]. by intros ->.
    + intros th p. split; [|tauto]. intros Hp. split; [done|]. intros ->. apply (od_homes_open _ _ _ _ Hi) in Hp as (z & Ez & Hz). rewrite Ea in Ez. injection Ez as <-. by rewrite Eb in Hz.
    + intros p. split; [|tauto]. intros Hp. split; [done|]. intros ->. apply (od_opens _ _ _ _ Hi) in Hp as (z & Ez & Hz). rewrite Ea in Ez. injection Ez as <-. by rewrite Eb in Hz.
  - eapply (outer_away g g2 a x); [exact Ho|done|done|by rewrite Eb|by rewrite Eb|exact Erg|exact Etm|]. intros p y Hne Ey Hy. exists y. split; [|done]. apply Hsame; [done|done|]. destruct Hy; congruence.
Qed.

(** * Open upvalues *)

Lemma body_trim_trans (b1 b2 b3 : gcbody N) : body_trim b1 b2 -> body_trim b2 b3 -> body_trim b1 b3.
Proof. intros H1 H2. destruct H1; [done| |]; inversion H2; subst; try constructor. exact (trim_open t q0). Qed.
Lemma trimmed_trans x y z : trimmed x y -> trimmed y z -> trimmed x z.
Proof. intros (A1 & A2 & A3) (B1 & B2 & B3). split_and!; [congruence..|by eapply body_trim_trans]. Qed.
Lemma trimmed_refl x : trimmed x x.
Proof. split_and!; [done..|constructor]. Qed.
Lemma trimmed_links x y : same_but_links x y -> trimmed x y.
Proof. intros (_ & ? & ? & Hb). split_and!; [done..|]. destruct Hb as [->|(th & i & p & n & p' & n' & -> & ->)]; constructor. Qed.
Definition heap_trim h h' : Prop := forall p, option_Forall2 trimmed (h !! p) (h' !! p).
Lemma heap_trim_refl h : heap_trim h h.
Proof. intros p. destruct (h !! p); constructor. apply trimmed_refl. Qed.
Lemma heap_trim_insert h p x y : h !! p = Some x -> trimmed x y -> heap_trim h (<[p := y]> h).
Proof. intros E Hs r. destruct (decide (p = r)) as [<-|Hne]; [rewrite lookup_insert_eq, E; by constructor|]. rewrite lookup_insert_ne by done. apply heap_trim_refl. Qed.
Lemma heap_trim_l h h' p x : heap_trim h h' -> h !! p = Some x -> exists y, h' !! p = Some y /\ trimmed x y.
Proof. intros Hs E. specialize (Hs p). rewrite E in Hs. inversion Hs; subst. eauto. Qed.
Lemma heap_trim_r h h' p y : heap_trim h h' -> h' !! p = Some y -> exists x, h !! p = Some x /\ trimmed x y.
Proof. intros Hs E. specialize (Hs p). rewrite E in Hs. inversion Hs; subst. eauto. Qed.
Lemma heap_trim_links h1 h2 h3 : heap_trim h1 h2 -> heap_links h2 h3 -> heap_trim h1 h3.
Proof.
  intros H1 H2 p. specialize (H1 p). specialize (H2 p). destruct H1 as [x y Hxy|]; inversion H2 as [? z Hyz|]; subst; constructor. eapply trimmed_trans; [done|by apply trimmed_links].
Qed.
Lemma removed_trim a g g' h : heap_trim (heap g) h -> heap g' = delete a h -> lists g' = lists g -> phase g' = phase g -> roots g' = roots g -> removed a g g'.
Proof.
  intros Hs Eh El Ep Er. split; try done; rewrite Eh.
  - intros p y Ey. apply lookup_delete_Some in Ey as [Hne Ey]. split; [done|]. by apply (heap_trim_r _ _ _ _ Hs).
  - intros p x Hne Ex. rewrite lookup_delete_ne by done. by apply (heap_trim_l _ _ _ _ Hs).
Qed.

(** The upvalue at [a] of [th] is gone; other links stay. *)
Record detached (a th : Z) g g' : Prop := {
  dt_removed : removed a g g';
  dt_rootgc : rootgc g' = rootgc g;
  dt_tmudata : tmudata g' = tmudata g;
  dt_next p y : p <> a -> heap g !! p = Some y -> home (o_body y) <> HOpen th -> exists z, heap g' !! p = Some z /\ o_next z = o_next y
}.

Definition op_set OP (th : Z) L : Z -> list Z := fun t => if decide (t = th) then L else OP t.

(** The upvalue at [a] is taken out of the list of its thread. *)
Lemma open_unchain g th xt (t : lua_State N) L (a : Z) rest x SC OP U :
  inner g SC OP U -> OP th = L ++ a :: rest -> heap g !! a = Some x -> heap g !! th = Some xt -> o_body xt = TTHREAD t ->
  exists g1, pos_set (at_pos (AtOpen th) L) (o_next x) g = Ok g1 /\ heap_trim (heap g) (heap g1) /\ heap g1 !! a = Some x /\
    (forall p y, heap g !! p = Some y -> exists z, heap g1 !! p = Some z /\ (o_body z = o_body y \/ p = th) /\ (home (o_body y) <> HOpen th -> o_next z = o_next y)) /\
    owners g1 = owners g /\ lists g1 = lists g /\ phase g1 = phase g /\ roots g1 = roots g /\
    (forall p y (t : lua_State N), heap g1 !! p = Some y -> o_body y = TTHREAD t -> linked o_next (delete a (heap g1)) (openupval t) (op_set OP th (L ++ rest) p)).
Proof.
  intros Hi EO Ea Et Ebt. assert (homed (heap g) (HOpen th) a) as (x' & Ea' & Hh). { apply (od_homes_open _ _ _ _ Hi). rewrite EO. apply elem_of_app. right. by left. }
  rewrite Ea in Ea'. injection Ea' as <-.
  pose proof (od_open _ _ _ _ Hi th xt t Et Ebt) as Hl. rewrite EO in Hl. pose proof (proj1 (proj2 (od_nodups _ _ _ _ Hi)) th) as Hnd. rewrite EO in Hnd.
  assert (a <> th) as Hath by (intros ->; rewrite Et in Ea; injection Ea as ->; by rewrite Ebt in Hh).
  assert (forall p, p ∈ L ++ a :: rest -> homed (heap g) (HOpen th) p) as Hop by (intros p Hp; apply (od_homes_open _ _ _ _ Hi); by rewrite EO).
  assert (forall p, p <> th -> forall c, c ∈ OP p -> c ∉ L ++ a :: rest) as Hdis.
  { intros p Hp c Hc Hc'. apply Hop in Hc' as (z & Ez & Hz). apply (od_homes_open _ _ _ _ Hi) in Hc as (z' & Ez' & Hz'). congruence. }
  assert (a ∉ L ++ rest) as Hal. { apply NoDup_app in Hnd as (_ & Hd & Hn). apply NoDup_cons in Hn as [Hn _]. rewrite elem_of_app. intros [Hx|Hx]; [|done]. apply (Hd a Hx). by left. }
  destruct (decide (L = [])) as [->|HL].
  - cbn [app at_pos last pos_set] in *. unfold upd_thread. rewrite (thread_at_ok _ _ _ _ Et Ebt). cbn [bind]. rewrite (upd_obj_ok _ _ _ _ Et), Ebt.
    set (y := with_body (TTHREAD (set_openupval (o_next x) t)) xt). eexists. split_and!; [done| | | |done..|].
    + apply (heap_trim_insert _ _ xt); [done|]. split_and!; [done|done|]. cbn. rewrite Ebt. constructor.
    + cbn. by rewrite lookup_insert_ne.
    + intros p z Ez. cbn. destruct (decide (th = p)) as [<-|Hne]; [|exists z; rewrite lookup_insert_ne by done; auto]. exists y. rewrite lookup_insert_eq. rewrite Et in Ez. injection Ez as <-. auto.
    + intros p z t' Ez Ebz. cbn in Ez. cbn [heap set_heap]. unfold op_set. destruct (decide (p = th)) as [->|Hne].
      * rewrite lookup_insert_eq in Ez. injection Ez as <-. cbn in Ebz. injection Ebz as <-. cbn [openupval set_openupval]. destruct Hl as (_ & _ & x' & Ea' & Hl). rewrite Ea in Ea'. injection Ea' as <-.
        apply linked_delete; [done|]. apply linked_insert; [|done]. intros Hth. destruct (Hop th) as (z & Ez & Hz); [by right|]. rewrite Et in Ez. injection Ez as <-. by rewrite Ebt in Hz.
      * rewrite lookup_insert_ne in Ez by done. apply linked_delete; [intros Hin; apply (Hdis p Hne a Hin); by left|]. apply linked_insert; [|by eapply (od_open _ _ _ _ Hi)].
        intros Hth. apply (od_homes_open _ _ _ _ Hi) in Hth as (z' & Ez' & Hz'). rewrite Et in Ez'. injection Ez' as <-. by rewrite Ebt in Hz'.
  - destruct (pos_set_inside g (AtOpen th) _ L a rest x HL Hl Hnd Ea) as (b & xb & Hlast & Eb & Hba & -> & Hl').
    assert (b ∈ L) as HbL by (apply last_Some in Hlast as [L' ->]; apply elem_of_app; right; by left).
    destruct (Hop b) as (xb' & Eb' & Hhb); [apply elem_of_app; by left|]. rewrite Eb in Eb'. injection Eb' as <-.
    eexists. split_and!; [done| | | |done..|].
    + apply (heap_trim_insert _ _ xb); [done|]. split_and!; [done|done|]. constructor.
    + cbn. by rewrite lookup_insert_ne.
    + intros p z Ez. cbn. destruct (decide (b = p)) as [<-|Hne]; [|exists z; rewrite lookup_insert_ne by done; auto]. eexists. rewrite lookup_insert_eq. split; [done|]. rewrite Eb in Ez. injection Ez as <-. split; [by left|done].
    + intros p z t' Ez Ebz. cbn in Ez. cbn [heap set_heap]. assert (p <> b) as Hpb by (intros ->; rewrite lookup_insert_eq in Ez; injection Ez as <-; cbn in Ebz; by rewrite Ebz in Hhb).
      rewrite lookup_insert_ne in Ez by done. unfold op_set. destruct (decide (p = th)) as [->|Hne].
      * apply linked_delete; [done|]. rewrite Et in Ez. injection Ez as <-. rewrite Ebt in Ebz. injection Ebz as <-. exact Hl'.
      * apply linked_delete; [intros Hin; apply (Hdis p Hne a Hin), elem_of_app; right; by left|]. apply linked_insert; [|by eapply (od_open _ _ _ _ Hi)].
        intros Hin. apply (Hdis p Hne b Hin), elem_of_app. by left.
Qed.

(** And out of the ring of all open upvalues: it is in no list. *)
Lemma open_detach g th xt (t : lua_State N) L (a : Z) rest x SC OP U :
  inner g SC OP U -> OP th = L ++ a :: rest -> heap g !! a = Some x -> heap g !! th = Some xt -> o_body xt = TTHREAD t ->
  exists g1 g2 U', pos_set (at_pos (AtOpen th) L) (o_next x) g = Ok g1 /\ rootgc g1 = rootgc g /\ unlinkupval a g1 = Ok g2 /\ heap_trim (heap g) (heap g2) /\ heap g1 !! a = Some x /\ heap g2 !! a = Some x /\
    lists g2 = lists g /\ phase g2 = phase g /\ roots g2 = roots g /\
    (forall g', heap g' = delete a (heap g2) -> owners g' = owners g2 -> roots g' = roots g -> lists g' = lists g -> phase g' = phase g -> inner g' SC (op_set OP th (L ++ rest)) U' /\ detached a th g g').
Proof.
  intros Hi EO Ea Et Ebt. destruct (open_unchain g th xt t L a rest x SC OP U Hi EO Ea Et Ebt) as (g1 & E1 & Hs & Ea1 & Hoth & Eow & El & Ep & Er & Hopen).
  assert (homed (heap g) (HOpen th) a) as (x' & Ea' & Hh). { apply (od_homes_open _ _ _ _ Hi). rewrite EO. apply elem_of_app. right. by left. }
  rewrite Ea in Ea'. injection Ea' as <-. assert (is_open (o_body x) = true) as Hopx by (by destruct (o_body x) as [| |[]| | | | |]).
  assert (a ∈ U) as HaU by (apply (od_opens _ _ _ _ Hi); by exists x). apply list_elem_of_split in HaU as (U1 & U2 & EU). pose proof (od_nodups _ _ _ _ Hi) as (N1 & N2 & N3). rewrite EU in N3.
  assert (heap g1 !! UVHEAD = None) as H8 by (pose proof (proj2 (od_null _ _ _ _ Hi)) as H8; specialize (Hs UVHEAD); rewrite H8 in Hs; by inversion Hs).
  assert (uvring (heap g1) UVHEAD (ol_uvnext (owners g1)) (U1 ++ a :: U2) (ol_uvprev (owners g1)) UVHEAD) as Hring.
  { rewrite Eow, <- EU. eapply uvring_ext; [|exact (od_uv _ _ _ _ Hi)]. intros c y Hc Ey Hop. destruct (Hoth c y Ey) as (z & Ez & Hb & _). exists z. split; [done|]. destruct Hb as [?| ->]; [done|].
    rewrite Et in Ey. injection Ey as <-. by rewrite Ebt in Hop. }
  destruct (unlinkupval_post g1 U1 a U2 _ H8 Hring eq_refl N3) as (g2 & E2 & Hl & Ea2 & Hsr & Hring2). rewrite Ea1 in Ea2.
  exists g1, g2, (U1 ++ U2). pose proof (heap_trim_links _ _ _ Hs Hl) as Hs2. destruct Hsr as [S1 S2 S3 S4 S5 S6].
  split_and!; [done|unfold rootgc; by rewrite Eow|done|done|done|done|congruence|congruence|congruence|].
  intros g' Eh Eow' Er' El' Ep'. assert (removed a g g') as Hrm by (by eapply removed_trim). pose proof (removed_dropped _ _ _ Hrm) as Hd. assert (main g' = main g) as Emain by (unfold main; by rewrite Er').
  assert (strt g' = strt g) as Est by (change (strt g') with (ol_strt (owners g')); rewrite Eow'; change (ol_strt (owners g2)) with (strt g2); rewrite S5; unfold strt; by rewrite Eow).
  assert (rootgc g' = rootgc g) as Erg by (change (rootgc g') with (ol_rootgc (owners g')); rewrite Eow'; change (ol_rootgc (owners g2)) with (rootgc g2); rewrite S4; unfold rootgc; by rewrite Eow).
  assert (tmudata g' = tmudata g) as Etm by (change (tmudata g') with (ol_tmudata (owners g')); rewrite Eow'; change (ol_tmudata (owners g2)) with (tmudata g2); rewrite S6; unfold tmudata; by rewrite Eow).
  assert (forall p y, p <> a -> heap g !! p = Some y -> home (o_body y) <> HOpen th -> exists z, heap g' !! p = Some z /\ o_next z = o_next y) as Hnx.
  { intros p y Hne Ey Hy. destruct (Hoth p y Ey) as (z & Ez & _ & Hn). destruct (heap_links_l _ _ _ _ Hl Ez) as (w & Ew & En & _). exists w. rewrite Eh, lookup_delete_ne by done. split; [done|]. rewrite En. by apply Hn. }
  split; [|by split].
  - eapply (inner_drop g g' a); [exact Hi|done|done| |by left| | | |done| | | | |].
    + intros ->. destruct (od_main _ _ _ _ Hi) as (xm & tm & Em & Ebm). rewrite Ea in Em. injection Em as <-. by rewrite Ebm in Hopx.
    + rewrite Est. pose proof (od_strt _ _ _ _ Hi) as (_ & Hf2 & _). eapply Forall2_within; [exact Hf2|]. intros q L0 Hin Hlk. eapply linked_ext; [|exact Hlk]. intros c y Hc Ey.
      assert (homed (heap g) HString c) as (y' & Ey' & Hy'). { apply (od_homes_string _ _ _ _ Hi), list_elem_of_In, in_concat. exists L0. split; by apply list_elem_of_In. }
      rewrite Ey in Ey'. injection Ey' as <-. apply Hnx; [|done|congruence]. intros ->. rewrite Ea in Ey. injection Ey as <-. congruence.
    + intros p y t' Ey Ebt'. rewrite Eh in Ey. apply lookup_delete_Some in Ey as [Hne Ey]. destruct (heap_links_r _ _ _ _ Hl Ey) as (z & Ez & _ & _ & _ & Hb).
      assert (o_body z = TTHREAD t') as Ebz by (destruct Hb as [Hb|(? & ? & ? & ? & ? & ? & _ & Hb)]; congruence). eapply linked_ext; [|exact (Hopen p z t' Ez Ebz)].
      intros c w Hc Ew. apply lookup_delete_Some in Ew as [Hca Ew]. destruct (heap_links_l _ _ _ _ Hl Ew) as (w' & Ew' & En & _). exists w'. by rewrite Eh, lookup_delete_ne.
    + rewrite Eow'. eapply uvring_ext; [|exact Hring2]. intros c y Hc Ey _. exists y. rewrite Eh, lookup_delete_ne; [done|]. intros <-. apply NoDup_app in N3 as (_ & Hd2 & Hn2). apply NoDup_cons in Hn2 as [Hn2 _].
      apply elem_of_app in Hc as [Hc|Hc]; [apply (Hd2 a Hc); by left|done].
    + intros t'. unfold op_set. case_decide as Hd'; [|done]. pose proof (N2 th) as Hn. rewrite EO, <- Permutation_middle in Hn. by apply NoDup_cons in Hn as [_ ?].
    + rewrite <- Permutation_middle in N3. by apply NoDup_cons in N3 as [_ ?].
    + intros p. split; [|tauto]. intros Hp. split; [done|]. intros ->. apply (od_homes_string _ _ _ _ Hi) in Hp as (z & Ez & Hz). rewrite Ea in Ez. injection Ez as <-. congruence.
    + intros t' p. unfold op_set. case_decide as Hd'.
      * subst t'. pose proof (N2 th) as Hn. rewrite EO, <- Permutation_middle in Hn. apply NoDup_cons in Hn as [Hn _]. rewrite EO, !elem_of_app, elem_of_cons. rewrite elem_of_app in Hn. naive_solver.
      * split; [|tauto]. intros Hp. split; [done|]. intros ->. apply (od_homes_open _ _ _ _ Hi) in Hp as (z & Ez & Hz). rewrite Ea in Ez. injection Ez as <-. congruence.
    + intros p. rewrite EU, !elem_of_app, elem_of_cons. rewrite <- Permutation_middle in N3. apply NoDup_cons in N3 as [Hn _]. rewrite elem_of_app in Hn. naive_solver.
Qed.

(** The part of the state outside the lists of open upvalues stays. *)
Lemma outer_detached g g' a th x R UD T :
  detached a th g g' -> heap g !! a = Some x -> home (o_body x) = HOpen th -> outer g R UD T -> outer g' R UD T.
Proof.
  intros [Hrm Er Et Hnx] Ea Hh Ho. eapply (outer_away g g' a x); [exact Ho|done|done|by rewrite Hh|by rewrite Hh|done|done|]. intros p y Hne Ey Hy. apply Hnx; [done|done|]. destruct Hy as [->| ->]; done.
Qed.
(** The same, while the object at [z] is in no list. *)
Lemma detached_without (z : Z) g g' a th : z <> a -> detached a th g g' -> detached a th (without z g) (without z g').
Proof.
  intros Hz [[Hb Hf ? ? ?] ? ? Hnx]. split; [split; try done|done|done|]; cbn.
  - intros p y Ey. apply lookup_delete_Some in Ey as [Hne Ey]. destruct (Hb p y Ey) as (? & x & Ex & ?). split; [done|]. exists x. by rewrite lookup_delete_ne.
  - intros p x Hne Ex. apply lookup_delete_Some in Ex as [Hpz Ex]. destruct (Hf p x Hne Ex) as (y & Ey & ?). exists y. by rewrite lookup_delete_ne.
  - intros p y Hne Ey Hy. apply lookup_delete_Some in Ey as [Hpz Ey]. destruct (Hnx p y Hne Ey Hy) as (w & Ew & ?). exists w. by rewrite lookup_delete_ne.
Qed.

Lemma open_out g th xt (t : lua_State N) L (a : Z) rest x SC OP U R UD T :
  inner g SC OP U -> outer g R UD T -> OP th = L ++ a :: rest -> heap g !! a = Some x -> heap g !! th = Some xt -> o_body xt = TTHREAD t ->
  exists g' U', sweep_out (at_pos (AtOpen th) L) a x g = Ok g' /\ inner g' SC (op_set OP th (L ++ rest)) U' /\ outer g' R UD T /\ detached a th g g'.
Proof.
  intros Hi Ho EO Ea Et Ebt. destruct (open_detach g th xt t L a rest x SC OP U Hi EO Ea Et Ebt) as (g1 & g2 & U' & E1 & Erg & E2 & Hs & Ea1 & Ea2 & El & Ep & Er & Hfin).
  assert (homed (heap g) (HOpen th) a) as (x' & Ea' & Hh). { apply (od_homes_open _ _ _ _ Hi). rewrite EO. apply elem_of_app. right. by left. }
  rewrite Ea in Ea'. injection Ea' as <-. unfold sweep_out. rewrite E1. cbn [bind]. destruct (rootgc_home g R UD T Ho) as (xr & Exr & Hr).
  rewrite Erg, (proj2 (Z.eqb_neq _ _)) by (intros ->; rewrite Ea in Exr; injection Exr as <-; destruct Hr; congruence).
  unfold freeobj. rewrite (obj_at_ok _ _ _ Ea1). cbn [bind]. destruct (o_body x) as [| |[th' i pv nx|]| | | | |] eqn:Eb; try done. unfold luaF_freeupval. rewrite (upval_at_ok _ _ _ _ Ea1 Eb). cbn [bind]. rewrite E2. cbn [bind].
  eexists _, U'. split; [done|]. destruct (Hfin (luaM_free a sizeof_UpVal g2)) as [Hi' Hd]; [done..|]. split_and!; [done| |done]. eapply outer_detached; [exact Hd|exact Ea|by rewrite Eb|done].
Qed.
End Unlink.
