(* ===== verification/LuaClose.v ===== *)
(** Closing upvalues, and what the objects go through while the collector of
    Lua sweeps: they keep what they refer to, and live objects stay. *)
From stdpp Require Import base gmap list.
From Stdlib Require Import ZArith Lia.
From S2P Require Import Prelude LuaNumber LuaTable LuaString LuaHeap LuaMark LuaGc LuaMarkWf LuaMarkSpec LuaTraverse LuaOwn LuaFinalize LuaAtomic LuaUnlink.
Open Scope Z_scope.

Section Close.
Context {N : Type} `{LuaNumber N}.
Implicit Types (g : gstate N) (h : gmap Z (GCObject N)) (x y : GCObject N) (v : TValue N) (L U T R UD : list Z) (SC : list (list Z)) (OP : Z -> list Z).

(** * Gaining an object *)

Lemma homed_insert h a y o p : h !! a = None -> homed (<[a := y]> h) o p <-> homed h o p \/ p = a /\ home (o_body y) = o.
Proof.
  intros Ea. unfold homed. split.
  - intros (x & Ex & Hh). apply lookup_insert_Some in Ex as [[<- <-]|[Hne Ex]]; [by right|left; by exists x].
  - intros [(x & Ex & Hh)|[-> Hh]]; [exists x; rewrite lookup_insert_ne; [done|]; intros ->; congruence|exists y; by rewrite lookup_insert_eq].
Qed.
Lemma linked_insert_new f h p L a y : h !! a = None -> linked f h p L -> linked f (<[a := y]> h) p L.
Proof. intros Ea. apply linked_ext. intros c x _ Ex. exists x. rewrite lookup_insert_ne; [done|]. intros ->. congruence. Qed.

(** The object at [a] is in the main list, and a thread has no open upvalue. *)
Lemma inner_add g g' a y SC OP U :
  inner g SC OP U -> heap g !! a = None -> heap g' = <[a := y]> (heap g) -> home (o_body y) = HRoot -> bit y FIXEDBIT = false -> a <> 0 -> a <> UVHEAD ->
  (forall t : lua_State N, o_body y = TTHREAD t -> openupval t = 0 /\ OP a = []) ->
  strt g' = strt g -> ol_uvnext (owners g') = ol_uvnext (owners g) -> ol_uvprev (owners g') = ol_uvprev (owners g) -> roots g' = roots g -> inner g' SC OP U.
Proof.
  intros [[O1 O1'] (xm & tm & Em & Ebm) (O4 & O4' & O4p) O5 O7 O8 O9 O10 O13 O14] Ea Eh Hh Hf H0 H8 Hth Hst Hn Hp Hr. assert (main g' = main g) as Emain by (unfold main; by rewrite Hr).
  split; rewrite ?Emain, ?Hst, ?Hn, ?Hp; rewrite ?Eh; try done.
  - by rewrite !lookup_insert_ne.
  - exists xm, tm. rewrite lookup_insert_ne; [done|]. intros ->. congruence.
  - split_and!; [done| |done]. eapply Forall2_impl; [exact O4'|]. intros p L. by apply linked_insert_new.
  - intros p z t Ez Et. apply lookup_insert_Some in Ez as [[<- <-]|[Hne Ez]]; [destruct (Hth t Et) as [-> ->]; done|]. apply linked_insert_new; [done|by eapply O5].
  - eapply uvring_ext; [|exact O7]. intros c x Hc Ex _. exists x. rewrite lookup_insert_ne; [done|]. intros ->. congruence.
  - intros p. rewrite O9, homed_insert by done. split; [by left|]. intros [?|[_ ?]]; [done|congruence].
  - intros th p. rewrite O10, homed_insert by done. split; [by left|]. intros [?|[_ ?]]; [done|congruence].
  - intros p. rewrite O13. split; intros (x & Ex & Eo).
    + exists x. rewrite lookup_insert_ne; [done|]. intros ->. congruence.
    + apply lookup_insert_Some in Ex as [[<- <-]|[Hne Ex]]; [by destruct (o_body y) as [| |[]| | | | |]|by exists x].
  - intros p x Ex Hfx. apply lookup_insert_Some in Ex as [[<- <-]|[Hne Ex]]; [congruence|by apply O14].
Qed.
Lemma outer_add g g' a y R UD T :
  outer g R UD T -> heap g !! a = None -> heap g' = <[a := y]> (heap g) -> home (o_body y) = HRoot -> a <> 0 -> o_next y = rootgc g -> rootgc g' = a -> tmudata g' = tmudata g -> roots g' = roots g ->
  outer g' (a :: R) UD T.
Proof.
  intros Ho Ea Eh Hh H0 En Er Et Hr. assert (main g' = main g) as Emain by (unfold main; by rewrite Hr).
  assert (forall p, p ∈ R ++ main g :: UD ++ T -> p <> a) as Hne.
  { intros p Hp ->. assert (a ∈ (R ++ [main g]) ++ (UD ++ T)) as Hp' by (by rewrite <- app_assoc). apply elem_of_app in Hp' as [Hp'|Hp'].
    - apply (od_homes_root _ _ _ _ Ho) in Hp' as (x & Ex & _). congruence.
    - apply (od_homes_udata _ _ _ _ Ho) in Hp' as (x & Ex & _). congruence. }
  split; rewrite ?Emain, ?Er.
  - cbn [app]. split; [done|]. split; [done|]. exists y. rewrite Eh, lookup_insert_eq. split; [done|]. rewrite En. apply linked_insert_new; [done|apply (od_root _ _ _ _ Ho)].
  - eapply tmring_ext; [exact Et| |exact (od_tmu _ _ _ _ Ho)]. intros p x Hp Ex. exists x. rewrite Eh, lookup_insert_ne; [done|]. intros ->. congruence.
  - cbn. apply NoDup_cons. split; [|apply (od_nodup _ _ _ _ Ho)]. intros Hin. by apply (Hne a Hin).
  - intros p. rewrite Eh, homed_insert by done. cbn. rewrite elem_of_cons, (od_homes_root _ _ _ _ Ho). split; [intros [->|?]; auto|intros [?|[-> _]]; auto].
  - intros p. rewrite Eh, homed_insert, (od_homes_udata _ _ _ _ Ho) by done. split; [by left|]. intros [?|[_ ?]]; [done|congruence].
Qed.

(** * What sweeping does to the objects *)

(** A white object is not black. *)
Definition black_ok x : Prop := iswhite x = true -> isblack x = false.
Lemma clean_black_ok g x : clean g x -> black_ok x.
Proof. by intros (_ & _ & ?) _. Qed.
(** What the sweep keeps although it is dead. *)
Definition fixed_string x : Prop := gch_tt x = LUA_TSTRING /\ bit x FIXEDBIT = true.
Lemma string_home x : home (o_body x) = HString -> gch_tt x = LUA_TSTRING.
Proof. unfold gch_tt. by destruct (o_body x) as [| |[]| | | | |]. Qed.
Lemma string_refs h x : gch_tt x = LUA_TSTRING -> refs h (o_body x) = [].
Proof. unfold gch_tt. by destruct (o_body x) as [| |[]| | | | |]. Qed.
Record evolved g g' : Prop := {
  ev_white : currentwhite g' = currentwhite g;
  ev_roots : roots g' = roots g;
  ev_back p y : heap g' !! p = Some y -> exists x, heap g !! p = Some x /\ gch_tt y = gch_tt x /\ bit y FIXEDBIT = bit x FIXEDBIT /\ (clean g x -> clean g y) /\ (black_ok x -> black_ok y) /\
    (live g y -> live g x \/ fixed_string x) /\ forall r, r ∈ refs (heap g') (o_body y) -> r ∈ refs (heap g) (o_body x);
  ev_forth p x : heap g !! p = Some x -> live g x -> exists y, heap g' !! p = Some y /\ gch_tt y = gch_tt x /\ live g y;
  ev_ok : heap_ok (heap g) -> heap_ok (heap g')
}.
Lemma live_white g g' x : currentwhite g' = currentwhite g -> live g' x <-> live g x.
Proof. intros Hw. unfold live, ow, cw. by rewrite Hw. Qed.
Lemma clean_white g g' x : currentwhite g' = currentwhite g -> clean g' x <-> clean g x.
Proof. intros Hw. unfold clean, ow, cw. by rewrite Hw. Qed.
Lemma clean_live g x : clean g x -> live g x.
Proof. by intros (_ & ? & _). Qed.
Lemma evolved_refl g : evolved g g.
Proof. split; try done; [intros p y Ey; exists y; split_and!; auto|intros p x Ex Hl; by exists x]. Qed.
Lemma evolved_trans g1 g2 g3 : evolved g1 g2 -> evolved g2 g3 -> evolved g1 g3.
Proof.
  intros [W1 R1 B1 F1 K1] [W2 R2 B2 F2 K2]. split; [congruence|congruence| | |auto].
  - intros p z Ez. destruct (B2 p z Ez) as (y & Ey & T2 & X2 & C2 & Y2 & L2 & S2). destruct (B1 p y Ey) as (x & Ex & T1 & X1 & C1 & Y1 & L1 & S1). exists x.
    rewrite !(clean_white g1 g2), !(live_white g1 g2) in * by done. split_and!; [done|congruence|congruence|auto|auto| |auto].
    intros Hl. destruct (L2 Hl) as [Hy|[Hn1 Hn2]]; [by apply L1|]. right. split; congruence.
  - intros p x Ex Hl. destruct (F1 p x Ex Hl) as (y & Ey & T1 & Hy). destruct (F2 p y Ey) as (z & Ez & T2 & Hz); [by apply (live_white g1 g2)|]. exists z. split_and!; [done|congruence|]. by apply (live_white g1 g2).
Qed.
Lemma sweeping_evolved g g' : sweeping g -> evolved g g' -> sweeping g'.
Proof.
  intros [S1 S2 S3 S4 S5] [W R B F K]. assert (forall c t, (exists y, heap g !! c = Some y /\ gch_tt y = t /\ live g y) -> exists y, heap g' !! c = Some y /\ gch_tt y = t /\ live g' y) as Hk.
  { intros c t (y & Ey & Et & Hy). destruct (F c y Ey Hy) as (z & Ez & Et' & Hz). exists z. split_and!; [done|congruence|by apply (live_white g g')]. }
  split.
  - unfold white_ok. by rewrite W.
  - destruct (heap g' !! 0) as [y|] eqn:E; [|done]. destruct (B 0 y E) as (x & Ex & _). congruence.
  - auto.
  - intros p y c t Ey Hl Hr. destruct (B p y Ey) as (x & Ex & _ & _ & _ & _ & HL & HS). apply Hk. destruct (HL (proj1 (live_white g g' y W) Hl)) as [Hx|[Hn _]]; [by apply (S4 p x); [..|by apply HS]|].
    apply HS in Hr. rewrite (string_refs _ _ Hn) in Hr. by apply not_elem_of_nil in Hr.
  - intros c t Hr. apply Hk, S5. unfold root_refs, main in *. by rewrite R in Hr.
Qed.

(** ** Removing a dead object *)

Lemma trimmed_bits x y n : trimmed x y -> bit y n = bit x n.
Proof. intros (Em & _). unfold bit. by rewrite Em. Qed.
Lemma trimmed_tt x y : trimmed x y -> gch_tt y = gch_tt x.
Proof. intros (_ & _ & Hb). unfold gch_tt. by destruct Hb. Qed.
Lemma trimmed_black_ok x y : trimmed x y -> black_ok x -> black_ok y.
Proof. intros (Em & _). unfold black_ok, iswhite, isblack. by rewrite Em. Qed.
Lemma trimmed_clean g x y : trimmed x y -> clean g x -> clean g y.
Proof. intros (Em & _). unfold clean, bit, isblack. by rewrite Em. Qed.
(** The slots of threads that stay. *)
Lemma slot_trim h h' th i : (forall x (t : lua_State N), h !! th = Some x -> o_body x = TTHREAD t -> exists y, h' !! th = Some y /\ trimmed x y) -> (forall y, h' !! th = Some y -> exists x, h !! th = Some x /\ trimmed x y) ->
  slot h' th i = slot h th i.
Proof.
  intros Hf Hb. unfold slot. destruct (h' !! th) as [y|] eqn:Ey.
  - destruct (Hb y eq_refl) as (x & -> & _ & _ & Ht). by destruct Ht.
  - destruct (h !! th) as [x|] eqn:Ex; [|done]. destruct (o_body x) as [| | | | | |t|] eqn:Eb; try done. by destruct (Hf x t eq_refl Eb) as (y & Ey' & _).
Qed.
Lemma refs_trim h h' b b' : (forall th i p n, b' = TUPVAL (UOpen th i p n) -> slot h' th i = slot h th i) -> body_trim b b' -> refs h' b' = refs h b.
Proof. intros Hs Ht. destruct Ht as [b|th i p n p' n'|t q]; [|cbn; by rewrite (Hs th i p' n' eq_refl)|done]. destruct b as [| |[th i p n|]| | | | |]; try done. cbn. by rewrite (Hs th i p n eq_refl). Qed.
Lemma body_ok_trim h h' b b' :
  (forall th i p n, b = TUPVAL (UOpen th i p n) -> forall x (t : lua_State N), h !! th = Some x -> o_body x = TTHREAD t -> exists y, h' !! th = Some y /\ trimmed x y) -> body_trim b b' -> body_ok h b -> body_ok h' b'.
Proof.
  intros Hf Ht Hok. assert (forall th i p n p' n', b = TUPVAL (UOpen th i p n) -> body_ok h (TUPVAL (UOpen th i p n)) -> body_ok h' (TUPVAL (UOpen th i p' n'))) as Hop.
  { intros th i p n p' n' Eb (x & t & Ex & Et & Hi). destruct (Hf th i p n Eb x t Ex Et) as (y & Ey & _ & _ & Hb). rewrite Et in Hb. exists y. inversion Hb; subst; eauto. }
  destruct Ht as [b|th i p n p' n'|t q]; [|by eapply Hop|done]. destruct b as [| |[th i p n|]| | | | |]; try done. by eapply Hop.
Qed.

Lemma evolved_removed a g g' x :
  removed a g g' -> heap g !! a = Some x -> ~ live g x -> (forall p y th i pv nx, heap g !! p = Some y -> p <> a -> o_body y = TUPVAL (UOpen th i pv nx) -> th <> a) -> evolved g g'.
Proof.
  intros Hrm Ea Hdead Hth. assert (currentwhite g' = currentwhite g) as Ew by (unfold currentwhite; by rewrite (rm_phase _ _ _ Hrm)).
  assert (forall th i, th <> a -> slot (heap g') th i = slot (heap g) th i) as Hslot.
  { intros th i Hne. apply slot_trim; [intros z t Ez _; by apply (rm_forth _ _ _ Hrm)|intros y Ey; by apply (rm_back _ _ _ Hrm)]. }
  split; [done|apply (rm_roots _ _ _ Hrm)| | |].
  - intros p y Ey. destruct (rm_back _ _ _ Hrm p y Ey) as (Hne & z & Ez & Ht). exists z. split_and!; [done|by apply trimmed_tt|by apply trimmed_bits|by apply trimmed_clean|by eapply trimmed_black_ok|left; unfold live in *; by rewrite <- (trimmed_bits _ _ _ Ht)|].
    intros r. rewrite (refs_trim (heap g) (heap g') (o_body z)); [done| |apply Ht]. intros th i pv nx Eb. apply Hslot. destruct Ht as (_ & _ & Ht). rewrite Eb in Ht.
    inversion Ht as [? Eb'|? ? pv' nx' ? ? Eb' |]; subst; eapply (Hth p z); eauto.
  - intros p z Ez Hl. destruct (rm_forth _ _ _ Hrm p z) as (y & Ey & Ht); [intros ->; congruence|done|]. exists y. split_and!; [done|by apply trimmed_tt|]. unfold live in *. by rewrite (trimmed_bits _ _ _ Ht).
  - intros Hok p y Ey. destruct (rm_back _ _ _ Hrm p y Ey) as (Hne & z & Ez & Ht). eapply body_ok_trim; [|apply Ht|by eapply Hok]. intros th i pv nx Eb w t Ew' _. apply (rm_forth _ _ _ Hrm); [|done]. by eapply (Hth p z).
Qed.

(** ** Keeping an object *)

Lemma makewhite_fixed g x : bit (makewhite g x) FIXEDBIT = bit x FIXEDBIT.
Proof. by rewrite bit_makewhite by (unfold FIXEDBIT; lia). Qed.
Lemma makewhite_sim g x : obj_sim x (makewhite g x).
Proof. apply sim_marked; [done|done|apply makewhite_fixed]. Qed.
Lemma slot_remark h a x y th i : h !! a = Some x -> o_body y = o_body x -> slot (<[a := y]> h) th i = slot h th i.
Proof. intros Ea Eb. unfold slot. destruct (decide (a = th)) as [<-|Hne]; [by rewrite lookup_insert_eq, Ea, Eb|by rewrite lookup_insert_ne]. Qed.
Lemma refs_remark h a x y b : h !! a = Some x -> o_body y = o_body x -> refs (<[a := y]> h) b = refs h b.
Proof. intros Ea Eb. destruct b as [| |[]| | | | |]; try done. cbn. by rewrite (slot_remark _ _ _ _ _ _ Ea Eb). Qed.

Lemma evolved_keep g a x : white_ok g -> heap g !! a = Some x -> live g x \/ fixed_string x -> evolved g (set_heap (<[a := makewhite g x]> (heap g)) g).
Proof.
  intros Hw Ea Hx. pose proof (makewhite_clean g x Hw) as Hc. split; [done|done| | |].
  - intros p y Ey. cbn [heap set_heap] in *. rewrite (refs_remark _ _ x) by done. apply lookup_insert_Some in Ey as [[<- <-]|[Hne Ey]].
    + exists x. split_and!; [done|done|apply makewhite_fixed|done|intros _; by eapply clean_black_ok| |done]. by intros _.
    + exists y. split_and!; auto.
  - intros p z Ez Hl. cbn. destruct (decide (a = p)) as [<-|Hne]; [|exists z; by rewrite lookup_insert_ne]. rewrite Ea in Ez. injection Ez as <-. eexists. rewrite lookup_insert_eq. split_and!; [done|done|by apply clean_live].
  - intros Hok. eapply heap_sim_ok; [|exact Hok]. apply heap_sim_insert with x; [done|apply makewhite_sim].
Qed.

(** * Closing an upvalue while the collector does not mark *)

(** The object at [a], an open upvalue, gets its own value. *)
Definition closed_at (a : Z) x v g g' : Prop := exists y,
  heap g' !! a = Some y /\ o_body y = TUPVAL (UClosed v) /\ (o_marked y = o_marked x \/ y = makewhite g (with_marked (o_marked x) y)) /\
  (forall p z, p <> a -> heap g !! p = Some z -> exists w, heap g' !! p = Some w /\ trimmed z w) /\ (forall p w, p <> a -> heap g' !! p = Some w -> exists z, heap g !! p = Some z /\ trimmed z w).

Lemma evolved_closed a g g' x th i pv nx v :
  heap_ok (heap g) -> white_ok g -> currentwhite g' = currentwhite g -> roots g' = roots g -> heap g !! a = Some x -> o_body x = TUPVAL (UOpen th i pv nx) -> live g x -> slot (heap g) th i = Some v -> value_ok v -> bit x FIXEDBIT = false ->
  closed_at a x v g g' -> evolved g g'.
Proof.
  intros Hok0 Hw Ew Er Ea Eb Hl Hs Hv Hfx (y & Ey & Eby & Hm & Hf & Hbk).
  assert (bit y FIXEDBIT = bit x FIXEDBIT /\ (clean g x -> clean g y) /\ (black_ok x -> black_ok y) /\ live g y) as (Hfy & Hcy & Hby & Hly).
  { destruct Hm as [Hm| ->]; [unfold black_ok, iswhite, bit, clean, live, isblack, bit in *; by rewrite Hm|]. split; [by rewrite makewhite_fixed|]. pose proof (makewhite_clean g (with_marked (o_marked x) y) Hw) as Hc. split; [done|]. split; [intros _; by eapply clean_black_ok|by apply clean_live]. }
  assert (forall th' k, th' <> a -> slot (heap g') th' k = slot (heap g) th' k) as Hslot by (intros th' k Hne; apply slot_trim; [intros z t Ez _; by apply Hf|intros z Ez; by apply Hbk]).
  assert (forall p z th' k p' n', heap g !! p = Some z -> o_body z = TUPVAL (UOpen th' k p' n') -> th' <> a) as Hne.
  { intros p z th' k p' n' Ez Ebz ->. pose proof (Hok0 p z Ez) as Hz. rewrite Ebz in Hz. destruct Hz as (w & t & Ew' & Et & _). rewrite Ea in Ew'. injection Ew' as <-. congruence. }
  split; [done|done| | |].
  - intros p w Ew'. destruct (decide (p = a)) as [->|Hp].
    + rewrite Ey in Ew'. injection Ew' as <-. exists x. split_and!; [done|unfold gch_tt; by rewrite Eby, Eb|done|done|done|by left|]. intros r. rewrite Eby, Eb. cbn. by rewrite Hs.
    + destruct (Hbk p w Hp Ew') as (z & Ez & Ht). exists z. split_and!; [done|by apply trimmed_tt|by apply trimmed_bits|by apply trimmed_clean|by eapply trimmed_black_ok|left; unfold live in *; by rewrite <- (trimmed_bits _ _ _ Ht)|].
      intros r. rewrite (refs_trim (heap g) (heap g') (o_body z)); [done| |apply Ht]. intros th' k p' n' Eb'. apply Hslot. destruct Ht as (_ & _ & Ht). rewrite Eb' in Ht.
      inversion Ht as [? Eb2|? ? pv' nx' ? ? Eb2 |]; subst; eapply (Hne p z); eauto.
  - intros p z Ez Hz. destruct (decide (p = a)) as [->|Hp].
    + rewrite Ea in Ez. injection Ez as <-. exists y. split_and!; [done|unfold gch_tt; by rewrite Eby, Eb|done].
    + destruct (Hf p z Hp Ez) as (w & Ew' & Ht). exists w. split_and!; [done|by apply trimmed_tt|]. unfold live in *. by rewrite (trimmed_bits _ _ _ Ht).
  - intros Hok p w Ew'. destruct (decide (p = a)) as [->|Hp]; [rewrite Ey in Ew'; injection Ew' as <-; by rewrite Eby|]. destruct (Hbk p w Hp Ew') as (z & Ez & Ht).
    eapply body_ok_trim; [|apply Ht|by eapply Hok]. intros th' k p' n' Eb' u t Eu _. apply Hf; [|done]. by eapply (Hne p z).
Qed.

Lemma close_live z g th xt (t : lua_State N) (a : Z) rest x i pv nx SC OP U R UD T :
  inner g SC OP U -> outer (without z g) R UD T -> z <> a -> OP th = a :: rest -> heap g !! a = Some x -> o_body x = TUPVAL (UOpen th i pv nx) -> heap g !! th = Some xt -> o_body xt = TTHREAD t ->
  isdead g x = false -> gcstate g <> GCSpropagate -> heap_ok (heap g) ->
  exists g' U' v, slot (heap g) th i = Some v /\ value_ok v /\
    (g1 <- upd_thread th (set_openupval (o_next x)) g; g2 <- unlinkupval a g1; w <- uv_value g2 (UOpen th i pv nx); g3 <- upd_upval a (fun _ => UClosed w) g2; luaC_linkupval a g3) = Ok g' /\
    inner g' SC (op_set OP th rest) U' /\ outer (without z g') (a :: R) UD T /\ closed_at a x v g g' /\ lists g' = lists g /\ phase g' = phase g /\ roots g' = roots g /\ bit x FIXEDBIT = false.
Proof.
  intros Hi Ho Hza EO Ea Eb Et Ebt Hdead Hst Hok.
  destruct (open_detach g th xt t [] a rest x SC OP U Hi EO Ea Et Ebt) as (g1 & g2 & U' & E1 & Erg & E2 & Hs & Ea1 & Ea2 & El & Ep & Er & Hfin).
  cbn [at_pos last pos_set] in E1. rewrite E1. cbn [bind]. rewrite E2. cbn [bind].
  assert (body_ok (heap g) (TUPVAL (UOpen th i pv nx))) as Hbo by (rewrite <- Eb; by apply (Hok a)). destruct (open_slot _ _ _ _ _ Hok Hbo) as (v & Es & Hv).
  assert (slot (heap g2) th i = Some v) as Es2 by (rewrite <- Es; apply slot_trim; [intros y t' Ey _; by apply (heap_trim_l _ _ _ _ Hs)|intros y Ey; by apply (heap_trim_r _ _ _ _ Hs)]).
  assert (uv_value g2 (UOpen th i pv nx) = Ok v) as ->.
  { unfold uv_value, stack_slot. destruct (heap_trim_l _ _ _ _ Hs Et) as (y & Ey & _ & _ & Hb). rewrite Ebt in Hb. unfold slot in Es2. rewrite Ey in Es2.
    assert (exists t', o_body y = TTHREAD t') as [t' Eby] by (inversion Hb; subst; eauto). rewrite (thread_at_ok _ _ _ _ Ey Eby). cbn [bind]. rewrite Eby in Es2. destruct (0 <=? i); [|done]. by rewrite Es2. }
  cbn [bind]. rewrite (upd_upval_ok _ _ _ _ _ Ea2 Eb). cbn [bind]. set (x3 := with_body _ x). set (g3 := set_heap _ g2). assert (heap g3 !! a = Some x3) as Ea3 by apply lookup_insert_eq.
  unfold luaC_linkupval. rewrite (upd_obj_ok _ _ _ _ Ea3). cbn [bind]. set (x4 := with_next (rootgc g3) x3). set (g4 := set_rootgc a _). assert (heap g4 !! a = Some x4) as Ea4 by apply lookup_insert_eq.
  rewrite (obj_at_ok _ _ _ Ea4). cbn [bind].
  assert (exists y g', (if isgray x4 then if gcstate g4 =? GCSpropagate then g <- upd_obj a gray2black g4; u <- upval_at g a; v0 <- uv_value g u; luaC_barrier a v0 g else upd_obj a (makewhite g4) g4 else Ok g4) = Ok g' /\
    heap g' = <[a := y]> (delete a (heap g2)) /\ owners g' = owners g4 /\ lists g' = lists g2 /\ phase g' = phase g2 /\ roots g' = roots g2 /\ o_next y = rootgc g2 /\ o_body y = TUPVAL (UClosed v) /\ bit y FIXEDBIT = bit x FIXEDBIT /\
    (o_marked y = o_marked x \/ y = makewhite g (with_marked (o_marked x) y))) as (y & g' & -> & Eh & Eow & El' & Ep' & Er' & Eny & Eby & Efy & Hmy).
  { assert (gcstate g4 = gcstate g) as Egs by (unfold gcstate; change (phase g4) with (phase g2); by rewrite Ep). rewrite Egs, (proj2 (Z.eqb_neq _ _)) by done.
    assert (forall y, <[a := y]> (heap g4) = <[a := y]> (delete a (heap g2))) as Hins by (intros y; unfold g4, g3; cbn; by rewrite !insert_insert_eq, insert_delete_eq).
    destruct (isgray x4).
    - rewrite (upd_obj_ok _ _ _ _ Ea4). exists (makewhite g4 x4). eexists. split_and!; [done|apply Hins|done|done|done|done|done|done|by rewrite makewhite_fixed|]. right. unfold makewhite, luaC_white, currentwhite. change (phase g4) with (phase g2). by rewrite Ep.
    - exists x4. eexists. split_and!; [done| |done|done|done|done|done|done|done|by left]. unfold g4, g3. cbn. by rewrite insert_insert_eq, insert_delete_eq. }
  set (gd := set_lists (lists g) (without a g2)). destruct (Hfin gd) as [Hid Hdt]; [done|done|exact Er|done|exact Ep|].
  assert (home (o_body x) = HOpen th) as Hh by (by rewrite Eb). assert (home (o_body y) = HRoot) as Hhy by (by rewrite Eby).
  assert (bit x FIXEDBIT = false) as Hfx. { destruct (bit x FIXEDBIT) eqn:Ef; [|done]. destruct (od_fixed _ _ _ _ Hi a x Ea Ef) as [Hx|Hx]; [congruence|]. destruct (od_main _ _ _ _ Hi) as (xm & tm & Em & Ebm). rewrite <- Hx, Ea in Em. injection Em as <-. congruence. }
  assert (a <> 0 /\ a <> UVHEAD) as [Ha0 Ha8] by (destruct (od_null _ _ _ _ Hi); split; intros ->; congruence).
  exists g', U', v. split_and!; try done.
  - eapply (inner_add gd g' a y); [exact Hid|apply lookup_delete_eq|done|done|congruence|done|done|intros t' Et'; congruence|unfold strt; by rewrite Eow|by rewrite Eow|by rewrite Eow|exact Er'].
  - apply (outer_add (without z gd) (without z g') a y).
    + eapply outer_detached; [by apply (detached_without z); [|exact Hdt]| |exact Hh|exact Ho]. cbn. by rewrite lookup_delete_ne.
    + cbn. apply lookup_delete_None. right. apply lookup_delete_eq.
    + cbn. rewrite Eh. by rewrite delete_insert_ne.
    + done.
    + done.
    + done.
    + change (rootgc (without z g')) with (ol_rootgc (owners g')). by rewrite Eow.
    + change (tmudata (without z g')) with (ol_tmudata (owners g')). by rewrite Eow.
    + change (roots (without z g')) with (roots g'). by rewrite Er'.
  - exists y. rewrite Eh, lookup_insert_eq. split_and!; try done.
    + intros p w Hp Ew. destruct (rm_forth _ _ _ (dt_removed _ _ _ _ Hdt) p w Hp Ew) as (u & Eu & Ht). exists u. rewrite lookup_insert_ne by done. done.
    + intros p w Hp Ew. rewrite lookup_insert_ne in Ew by done. by apply (rm_back _ _ _ (dt_removed _ _ _ _ Hdt) p w).
  - congruence.
  - congruence.
  - congruence.
Qed.

(** * luaF_close, while the collector does not mark *)

Lemma inner_op_ext g SC OP OP' U : (forall t, OP t = OP' t) -> inner g SC OP U -> inner g SC OP' U.
Proof.
  intros He [? ? ? O5 ? (N1 & N2 & N3) ? O10 ? ?]. split; try done.
  - intros p x t Ex Et. rewrite <- He. by eapply O5.
  - split_and!; [done| |done]. intros th. rewrite <- He. apply N2.
  - intros th p. rewrite <- He. apply O10.
Qed.
Lemma op_set_eq OP th L : op_set OP th L th = L.
Proof. unfold op_set. by case_decide. Qed.
Lemma op_set_twice OP th L L' t : op_set (op_set OP th L) th L' t = op_set OP th L' t.
Proof. unfold op_set. by repeat case_decide. Qed.
Lemma op_set_same OP th t : op_set OP th (OP th) t = OP t.
Proof. unfold op_set. case_decide; congruence. Qed.

Definition thread_there g (th : Z) : Prop := exists x (t : lua_State N), heap g !! th = Some x /\ o_body x = TTHREAD t.
(** The object at [z], if there is one, is a thread. *)
Definition limbo g (z : Z) : Prop := forall x, heap g !! z = Some x -> is_thread (o_body x) = true.
Lemma limbo_evolved g g' z : limbo g z -> evolved g g' -> limbo g' z.
Proof.
  intros Hz Hev y Ey. destruct (ev_back _ _ Hev z y Ey) as (x & Ex & Et & _). specialize (Hz x Ex). unfold gch_tt in Et. by destruct (o_body x), (o_body y).
Qed.
Lemma limbo_ne g z a x th i pv nx : limbo g z -> heap g !! a = Some x -> o_body x = TUPVAL (UOpen th i pv nx) -> z <> a.
Proof. intros Hz Ex Eb ->. specialize (Hz x Ex). by rewrite Eb in Hz. Qed.
(** The thread at [th] stays, with its marks. *)
Definition thread_kept g g' (th : Z) : Prop :=
  exists x x' (t t' : lua_State N), heap g !! th = Some x /\ o_body x = TTHREAD t /\ heap g' !! th = Some x' /\ o_body x' = TTHREAD t' /\ o_marked x' = o_marked x.
Lemma thread_kept_refl g th : thread_there g th -> thread_kept g g th.
Proof. intros (x & t & Ex & Et). by exists x, x, t, t. Qed.
Lemma thread_kept_trans g1 g2 g3 th : thread_kept g1 g2 th -> thread_kept g2 g3 th -> thread_kept g1 g3 th.
Proof. intros (x & y & t & t1 & Ex & Et & Ey & Et1 & Em) (y' & z & t2 & t3 & Ey' & Et2 & Ez & Et3 & Em'). exists x, z, t, t3. split_and!; try done. rewrite Ey in Ey'. injection Ey' as <-. congruence. Qed.
Lemma thread_kept_there g g' th : thread_kept g g' th -> thread_there g' th.
Proof. intros (_ & x & _ & t & _ & _ & Ex & Et & _). by exists x, t. Qed.
Lemma thread_trim g g' th : thread_there g th -> (forall x, heap g !! th = Some x -> is_thread (o_body x) = true -> exists y, heap g' !! th = Some y /\ trimmed x y) -> thread_kept g g' th.
Proof.
  intros (x & t & Ex & Eb) Hf. destruct (Hf x Ex) as (y & Ey & Em & _ & Hb); [by rewrite Eb|]. rewrite Eb in Hb. exists x, y, t. inversion Hb; subst; eauto 10.
Qed.

(** The state after some steps for [th]; [z] is in no list. *)
Record closing (z th : Z) R UD SC OP T U g g' : Prop := {
  cl_inner : inner g' SC OP U;
  cl_outer : outer (without z g') R UD T;
  cl_evolved : evolved g g';
  cl_lists : lists g' = lists g;
  cl_phase : phase g' = phase g;
  cl_roots : roots g' = roots g;
  cl_thread : thread_kept g g' th
}.

Lemma close_step_post z g th level (a : Z) rest SC OP U R UD T :
  inner g SC OP U -> outer (without z g) R UD T -> limbo g z -> OP th = a :: rest -> thread_there g th -> gcstate g <> GCSpropagate -> heap_ok (heap g) -> white_ok g ->
  exists i, (exists x pv nx, heap g !! a = Some x /\ o_body x = TUPVAL (UOpen th i pv nx) /\ 0 <= i) /\
    if level <=? i then exists g' U' R', close_step th level g = Ok (inl g') /\ (R' = R \/ R' = a :: R) /\ closing z th R' UD SC (op_set OP th rest) T U' g g'
    else close_step th level g = Ok (inr g).
Proof.
  intros Hi Ho Hz EO Hth Hst Hok Hw. pose proof Hth as (xt & t & Et & Ebt).
  assert (homed (heap g) (HOpen th) a) as (x & Ex & Hh) by (apply (od_homes_open _ _ _ _ Hi); rewrite EO; by left).
  destruct (o_body x) as [| |[th' i pv nx|]| | | | |] eqn:Eb; try done. injection Hh as ->. exists i. pose proof (Hok a x Ex) as Hbo. rewrite Eb in Hbo. split.
  { exists x, pv, nx. split_and!; [done|done|]. destruct Hbo as (? & ? & _ & _ & ?). lia. }
  pose proof (od_open _ _ _ _ Hi th xt t Et Ebt) as Hl. rewrite EO in Hl. destruct Hl as (Eop & Ha0 & _). unfold close_step. rewrite (thread_at_ok _ _ _ _ Et Ebt). cbn [bind]. rewrite Eop, (proj2 (Z.eqb_neq _ _)) by done.
  rewrite (upval_at_ok _ _ _ _ Ex Eb). cbn [bind at_or_above]. rewrite Z.eqb_refl. cbn [andb]. destruct (level <=? i); [|done]. rewrite (obj_at_ok _ _ _ Ex). cbn [bind].
  pose proof (limbo_ne g z a x _ _ _ _ Hz Ex Eb) as Hza. assert (th <> a) as Hta by (intros ->; congruence).
  destruct (isdead g x) eqn:Hd.
  - destruct (open_detach g th xt t [] a rest x SC OP U Hi EO Ex Et Ebt) as (g1 & g2 & U' & E1 & Erg & E2 & Hs & Ea1 & Ea2 & El & Ep & Er & Hfin).
    cbn [at_pos last pos_set] in E1. rewrite E1. cbn [bind]. assert (phase g1 = phase g) as Ep1 by (unfold upd_thread in E1; rewrite (thread_at_ok _ _ _ _ Et Ebt) in E1; cbn [bind] in E1; rewrite (upd_obj_ok _ _ _ _ Et) in E1; by injection E1 as <-).
    assert (isdead g1 x = true) as -> by (rewrite <- Hd; unfold isdead, otherwhite, currentwhite; by rewrite Ep1).
    unfold luaF_freeupval. rewrite (upval_at_ok _ _ _ _ Ea1 Eb). cbn [bind]. rewrite E2. cbn [bind]. eexists _, U', R. split; [done|]. split; [by left|].
    destruct (Hfin (luaM_free a sizeof_UpVal g2)) as [Hi' Hdt]; [done..|]. pose proof (dt_removed _ _ _ _ Hdt) as Hrm.
    split; [done| | |done|done|done|].
    + eapply outer_detached; [by apply (detached_without z); [|exact Hdt]|cbn; by rewrite lookup_delete_ne|by rewrite Eb|done].
    + eapply (evolved_removed a); [done|exact Ex| |]. { rewrite isdead_bit in Hd by done. unfold live. congruence. }
      intros p y th' k p' n' Ey _ Eby ->. pose proof (Hok p y Ey) as Hy. rewrite Eby in Hy. destruct Hy as (w & t' & Ew & Et' & _). rewrite Ex in Ew. injection Ew as <-. congruence.
    + eapply thread_trim; [exact Hth|]. intros w Ew _. by apply (rm_forth _ _ _ Hrm).
  - destruct (close_live z g th xt t a rest x i pv nx SC OP U R UD T Hi Ho Hza EO Ex Eb Et Ebt Hd Hst Hok) as (g' & U' & v & Es & Hv & E & Hi' & Ho' & Hcl & El & Ep & Er & Hfx).
    destruct (upd_thread th (set_openupval (o_next x)) g) as [g1| |] eqn:E1; try done. cbn [bind] in *.
    assert (phase g1 = phase g) as Ep1 by (unfold upd_thread in E1; rewrite (thread_at_ok _ _ _ _ Et Ebt) in E1; cbn [bind] in E1; rewrite (upd_obj_ok _ _ _ _ Et) in E1; by injection E1 as <-).
    assert (isdead g1 x = false) as -> by (rewrite <- Hd; unfold isdead, otherwhite, currentwhite; by rewrite Ep1).
    destruct (unlinkupval a g1) as [g2| |]; try done. cbn [bind] in *. destruct (uv_value g2 _) as [w| |]; try done. cbn [bind] in *. destruct (upd_upval a _ g2) as [g3| |]; try done. cbn [bind] in *. rewrite E. cbn [bind].
    exists g', U', (a :: R). split; [done|]. split; [by right|]. split; [done|done| |done|done|done|].
    + eapply (evolved_closed a g g' x th i pv nx v); try done; [unfold currentwhite; by rewrite Ep|]. rewrite isdead_bit in Hd by done. done.
    + destruct Hcl as (y & _ & _ & _ & Hf & _). eapply thread_trim; [exact Hth|]. intros w' Ew' _. by apply Hf.
Qed.

Lemma luaF_close_post z g th level SC OP U R UD T :
  inner g SC OP U -> outer (without z g) R UD T -> limbo g z -> thread_there g th -> gcstate g <> GCSpropagate -> heap_ok (heap g) -> white_ok g ->
  exists g' U' O1 O2 R1, luaF_close th level g = Ok g' /\ OP th = O1 ++ O2 /\ closing z th (R1 ++ R) UD SC (op_set OP th O2) T U' g g' /\ (forall p, p ∈ R1 -> p ∈ O1) /\ (level <= 0 -> O2 = []).
Proof.
  intros Hi Ho Hz Hth Hst Hok Hw. unfold luaF_close.
  enough (forall n O g1 U1 R1, (length O < n)%nat -> closing z th (R1 ++ R) UD SC (op_set OP th O) T U1 g g1 ->
    exists g' U' O1 O2 R2, loop n (close_step th level) g1 = Ok g' /\ O = O1 ++ O2 /\ closing z th (R2 ++ R1 ++ R) UD SC (op_set OP th O2) T U' g g' /\ (forall p, p ∈ R2 -> p ∈ O1) /\ (level <= 0 -> O2 = [])) as Hl.
  { destruct (Hl (2 + size (heap g))%nat (OP th) g U []) as (g' & U' & O1 & O2 & R2 & ? & ? & ? & ? & ?).
    - enough (length (OP th) <= size (heap g))%nat by lia. apply nodup_size; [apply (od_nodups _ _ _ _ Hi)|]. intros p Hp. apply (od_homes_open _ _ _ _ Hi) in Hp as (x & Ex & _). by exists x.
    - split; try done; [by eapply inner_op_ext; [symmetry; apply op_set_same|]|apply evolved_refl|by apply thread_kept_refl].
    - exists g', U', O1, O2, R2. done. }
  induction n as [|n IH]; intros O g1 U1 R1 Hlt Hc; [lia|]. cbn [loop]. pose proof Hc as [Hi1 Ho1 Hev1 El1 Ep1 Er1 Hk1]. pose proof (thread_kept_there _ _ _ Hk1) as Hth1.
  assert (white_ok g1) as Hw1 by (unfold white_ok; by rewrite (ev_white _ _ Hev1)). assert (gcstate g1 <> GCSpropagate) as Hst1 by (unfold gcstate; by rewrite Ep1).
  destruct O as [|a O].
  - destruct Hth1 as (xt & t & Et & Ebt). pose proof (od_open _ _ _ _ Hi1 th xt t Et Ebt) as Hop. rewrite op_set_eq in Hop. unfold close_step at 1. rewrite (thread_at_ok _ _ _ _ Et Ebt). cbn [bind]. rewrite Hop. cbn.
    exists g1, U1, [], [], []. by split_and!.
  - destruct (close_step_post z g1 th level a O SC (op_set OP th (a :: O)) U1 (R1 ++ R) UD T Hi1 Ho1 (limbo_evolved _ _ _ Hz Hev1) (op_set_eq _ _ _) Hth1 Hst1 (ev_ok _ _ Hev1 Hok) Hw1) as (i & (x & pv & nx & Ex & Eb & Hi0) & Hstep).
    case_zbool (level <=? i).
    + destruct Hstep as (g2 & U2 & R' & -> & HR & [Hi2 Ho2 Hev2 El2 Ep2 Er2 Hth2]). cbn [bind].
      assert (exists R2, R' = R2 ++ R1 ++ R /\ forall p, p ∈ R2 -> p = a) as (R2 & -> & HR2).
      { destruct HR as [->| ->]; [exists []; split; [done|]; by intros p ?%not_elem_of_nil|exists [a]; split; [done|]; by intros p ?%list_elem_of_singleton]. }
      rewrite app_assoc in Ho2. destruct (IH O g2 U2 (R2 ++ R1)) as (g' & U' & O1 & O2 & R3 & E' & -> & Hc' & H3 & H4); [cbn in Hlt; lia| |].
      * split; try done; [by eapply inner_op_ext; [apply op_set_twice|]|by eapply evolved_trans|congruence..|by eapply thread_kept_trans].
      * exists g', U', (a :: O1), O2, (R3 ++ R2). split_and!; try done; [by rewrite <- !app_assoc in *|]. intros p [Hp|Hp]%elem_of_app; apply elem_of_cons; [right; by apply H3|left; by apply HR2].
    + rewrite Hstep. cbn. exists g1, U1, [], (a :: O), []. split_and!; (done || lia).
Qed.
End Close.
