(* ===== verification/LuaSweep.v ===== *)
(** Sweeping in the collector of Lua: a list is swept to its end or as far as
    the count allows, dead objects leave it and are freed, the others turn
    white of the new cycle. *)
From stdpp Require Import base gmap list.
From Stdlib Require Import ZArith Lia.
From S2P Require Import Prelude LuaNumber LuaTable LuaString LuaHeap LuaMark LuaGc LuaMarkWf LuaMarkSpec LuaTraverse LuaOwn LuaFinalize LuaAtomic LuaUnlink LuaClose.
Open Scope Z_scope.

Section Sweep.
Context {N : Type} `{LuaNumber N}.
Implicit Types (g : gstate N) (h : gmap Z (GCObject N)) (x y : GCObject N) (v : TValue N) (L U T R UD K : list Z) (SC : list (list Z)) (OP : Z -> list Z).

(** * The main list *)

Lemma evolved_eqv g g' : heap_eqv (heap g) (heap g') -> phase g' = phase g -> roots g' = roots g -> evolved g g'.
Proof.
  intros Hs Ep Er. split; [unfold currentwhite; by rewrite Ep|done| | |].
  - intros p y Ey. destruct (heap_eqv_r _ _ _ _ Hs Ey) as (x & Ex & Em & _ & Eb). exists x. unfold gch_tt, bit, clean, black_ok, iswhite, live, isblack, bit. rewrite Em, Eb, (refs_eqv _ _ _ Hs). split_and!; auto.
  - intros p x Ex Hl. destruct (heap_eqv_l _ _ _ _ Hs Ex) as (y & Ey & Em & _ & Eb). exists y. unfold gch_tt, live, bit in *. by rewrite Em, Eb.
  - intros Hok p y Ey. destruct (heap_eqv_r _ _ _ _ Hs Ey) as (x & Ex & _ & _ & ->). eapply body_ok_eqv; [done|by eapply Hok].
Qed.

(** Where an object that is not the main thread is in the list. *)
Lemma root_split (m : Z) R UD K (a : Z) rest : R ++ m :: UD = K ++ a :: rest -> a <> m ->
  (exists R2, R = K ++ a :: R2 /\ rest = R2 ++ m :: UD) \/ (exists U1, UD = U1 ++ a :: rest /\ K = R ++ m :: U1).
Proof.
  intros E Hne. apply app_eq_inv in E as [(k & -> & E)|(k & -> & E)].
  - destruct k as [|c k]; cbn in E; [by injection E as -> _|]. injection E as <- ->. left. by exists k.
  - destruct k as [|c k]; cbn in E; [by injection E as -> _|]. injection E as <- ->. right. by exists k.
Qed.

Lemma root_unchain g K (a : Z) rest x SC OP U R UD T :
  inner g SC OP U -> outer g R UD T -> R ++ main g :: UD = K ++ a :: rest -> a <> main g -> heap g !! a = Some x ->
  exists g1 R' UD', pos_set (at_pos AtRoot K) (o_next x) g = Ok g1 /\ R' ++ main g1 :: UD' = K ++ rest /\ heap_eqv (heap g) (heap g1) /\ heap g1 !! a = Some x /\
    lists g1 = lists g /\ phase g1 = phase g /\ roots g1 = roots g /\ rootgc g1 <> a /\ inner g1 SC OP U /\ outer (without a g1) R' UD' T.
Proof.
  intros Hi Ho Esp Hm Ea. pose proof (od_root _ _ _ _ Ho) as Hl. rewrite Esp in Hl. pose proof (od_nodup _ _ _ _ Ho) as Hnd0. rewrite app_comm_cons, app_assoc, Esp in Hnd0.
  pose proof Hnd0 as (Hnd & HdT & HnT)%NoDup_app. assert (a ∉ K ++ rest) as Han by (rewrite <- Permutation_middle in Hnd; by apply NoDup_cons in Hnd as [? _]).
  assert (exists R' UD', R' ++ main g :: UD' = K ++ rest /\ (forall p, p ∈ R' ++ [main g] <-> p ∈ R ++ [main g] /\ p <> a) /\ (forall p, p ∈ UD' ++ T <-> p ∈ UD ++ T /\ p <> a)) as (R' & UD' & Esp' & HR & HUD).
  { assert (a ∉ T) as HaT by (intros Hin; apply (HdT a); [|done]; apply elem_of_app; right; by left).
    destruct (root_split _ _ _ _ _ _ Esp Hm) as [(R2 & -> & ->)|(U1 & -> & ->)].
    - exists (K ++ R2), UD. split; [by rewrite <- app_assoc|]. split; intros p; [|split; [|tauto]].
      + rewrite !elem_of_app, !list_elem_of_singleton, elem_of_cons. rewrite !elem_of_app in Han. naive_solver.
      + intros Hp. split; [done|]. intros ->. apply elem_of_app in Hp as [Hp|Hp]; [|done]. apply Han. rewrite !elem_of_app, elem_of_cons. tauto.
    - exists R, (U1 ++ rest). split; [by rewrite <- app_assoc|]. split; intros p; [split; [|tauto]|].
      + intros Hp. split; [done|]. intros ->. apply Han. rewrite !elem_of_app, elem_of_cons. apply elem_of_app in Hp as [Hp|Hp%list_elem_of_singleton]; tauto.
      + rewrite !elem_of_app, elem_of_cons. rewrite !elem_of_app, elem_of_cons in Han. naive_solver. }
  assert (forall p, p ∈ K ++ a :: rest -> exists y, heap g !! p = Some y /\ (home (o_body y) = HRoot \/ home (o_body y) = HUdata)) as Hin.
  { intros p Hp. rewrite <- Esp in Hp. assert (p ∈ R ++ [main g] \/ p ∈ UD ++ T) as [Hp'|Hp'] by (rewrite !elem_of_app, !elem_of_cons in *; naive_solver).
    - apply (od_homes_root _ _ _ _ Ho) in Hp' as (y & Ey & ?). eauto.
    - apply (od_homes_udata _ _ _ _ Ho) in Hp' as (y & Ey & ?). eauto. }
  assert (exists g1, pos_set (at_pos AtRoot K) (o_next x) g = Ok g1 /\ heap_eqv (heap g) (heap g1) /\ heap g1 !! a = Some x /\ lists g1 = lists g /\ phase g1 = phase g /\ roots g1 = roots g /\ strt g1 = strt g /\ tmudata g1 = tmudata g /\
    ol_uvnext (owners g1) = ol_uvnext (owners g) /\ ol_uvprev (owners g1) = ol_uvprev (owners g) /\ linked o_next (heap g1) (rootgc g1) (K ++ rest) /\
    (forall p y, heap g !! p = Some y -> p ∉ K -> heap g1 !! p = Some y)) as (g1 & E1 & Hs & Ea1 & El & Ep & Er & Est & Etm & En & Epv & Hl1 & Hoth).
  { destruct (decide (K = [])) as [->|HK].
    - cbn [at_pos last pos_set]. eexists. split_and!; try done; [apply heap_eqv_refl|]. cbn in Hl. destruct Hl as (_ & _ & x' & Ea' & Hl). rewrite Ea in Ea'. injection Ea' as <-. done.
    - destruct (pos_set_inside g AtRoot _ K a rest x HK Hl Hnd Ea) as (b & xb & Hlast & Eb & Hba & -> & Hl').
      eexists. split_and!; try done; [by apply heap_eqv_next|cbn; by rewrite lookup_insert_ne|]. intros p y Ey Hp. cbn. rewrite lookup_insert_ne; [done|]. intros ->. apply Hp. apply last_Some in Hlast as [K' ->]. apply elem_of_app. right. by left. }
  assert (main g1 = main g) as Emain by (unfold main; by rewrite Er).
  exists g1, R', UD'. split_and!; try done; [by rewrite Emain| | |].
  - rewrite (linked_head _ _ _ _ Hl1). intros <-. destruct (K ++ rest) as [|c l] eqn:E; [by destruct R'|]. apply Han. by left.
  - eapply (inner_eqv g g1); [done..| |exact Hi]. intros p y z Ey Ez H1 H2. enough (z = y) by congruence. rewrite (Hoth p y Ey) in Ez; [congruence|]. intros Hp. destruct (Hin p) as (y' & Ey' & Hy); [apply elem_of_app; by left|].
    rewrite Ey in Ey'. injection Ey' as <-. by destruct Hy.
  - eapply (outer_drop g _ a); [exact Ho| |done|..].
    + apply dropped_delete. intros p. specialize (Hs p). destruct Hs; constructor. by apply kindred_eqv.
    + change (rootgc (without a g1)) with (rootgc g1). rewrite Esp'. by apply linked_delete.
    + eapply tmring_ext; [exact Etm| |exact (od_tmu _ _ _ _ Ho)]. intros c y Hc Ey. exists y. split; [|done]. cbn. rewrite lookup_delete_ne; [apply Hoth; [done|]|]; [|intros ->]; [intros Hk|]; apply (HdT c); (done || (rewrite elem_of_app, ?elem_of_cons; tauto)).
    + rewrite app_comm_cons, app_assoc, Esp'. rewrite <- app_assoc. rewrite <- app_assoc in Hnd0. cbn in Hnd0. rewrite <- Permutation_middle in Hnd0. by apply NoDup_cons in Hnd0 as [_ ?].
    + done.
    + done.
Qed.

Lemma inner_delete g g' a x SC OP U :
  inner g SC OP U -> heap g !! a = Some x -> home (o_body x) = HRoot \/ home (o_body x) = HUdata -> a <> main g -> heap g' = delete a (heap g) -> owners g' = owners g -> roots g' = roots g -> inner g' SC OP U.
Proof.
  intros Hi Ea Hh Hm Eh Eow Er. assert (main g' = main g) as Emain by (unfold main; by rewrite Er).
  assert (forall o, o <> HRoot -> o <> HUdata -> ~ homed (heap g) o a) as Hno by (intros o H1 H2 (z & Ez & Hz); rewrite Ea in Ez; injection Ez as <-; destruct Hh; congruence).
  assert (forall p L, (forall c, c ∈ L -> c <> a) -> linked o_next (heap g) p L -> linked o_next (heap g') p L) as Hlk by (intros p L HL; rewrite Eh; apply linked_delete; intros Hin; by apply (HL a)).
  pose proof (od_nodups _ _ _ _ Hi) as (N1 & N2 & N3). eapply (inner_drop g g' a); [exact Hi| |done|done|left; unfold strt; by rewrite Eow|..]; try done.
  - rewrite Eh. apply dropped_delete. intros p. destruct (heap g !! p); constructor. apply kindred_refl.
  - unfold strt. rewrite Eow. eapply Forall2_within; [apply (od_strt _ _ _ _ Hi)|]. intros p L Hin. apply Hlk. intros c Hc ->. eapply (Hno HString); [done..|]. apply (od_homes_string _ _ _ _ Hi), list_elem_of_In, in_concat. exists L. split; by apply list_elem_of_In.
  - intros p y t Ey Et. rewrite Eh in Ey. apply lookup_delete_Some in Ey as [_ Ey]. apply Hlk; [|by eapply (od_open _ _ _ _ Hi)]. intros c Hc ->. eapply (Hno (HOpen p)); [done..|]. by apply (od_homes_open _ _ _ _ Hi).
  - rewrite Eow. eapply uvring_ext; [|apply (od_uv _ _ _ _ Hi)]. intros c y Hc Ey Hop. exists y. rewrite Eh, lookup_delete_ne; [done|]. intros <-. rewrite Ea in Ey. injection Ey as <-. destruct Hh; by destruct (o_body x) as [| |[]| | | | |].
  - intros p. split; [|tauto]. intros Hp. split; [done|]. intros ->. eapply (Hno HString); [done..|]. by apply (od_homes_string _ _ _ _ Hi).
  - intros th p. split; [|tauto]. intros Hp. split; [done|]. intros ->. eapply (Hno (HOpen th)); [done..|]. by apply (od_homes_open _ _ _ _ Hi).
  - intros p. split; [|tauto]. intros Hp. split; [done|]. intros ->. apply (od_opens _ _ _ _ Hi) in Hp as (y & Ey & Hop). rewrite Ea in Ey. injection Ey as <-. destruct Hh; by destruct (o_body x) as [| |[]| | | | |].
Qed.

Lemma chain_nodup SC i L : NoDup (concat SC) -> SC !! i = Some L -> NoDup L.
Proof. intros Hn Ei. rewrite <- (take_drop_middle _ _ _ Ei), concat_app in Hn. cbn [concat] in Hn. apply NoDup_app in Hn as (_ & _ & Hn). by apply NoDup_app in Hn as (? & _). Qed.

Lemma outer_same g g' R UD T : outer g R UD T -> heap g' = heap g -> owners g' = owners g -> roots g' = roots g -> outer g' R UD T.
Proof. intros [] E1 E2 E3. split; unfold rootgc, main, tmring, tmudata in *; by rewrite ?E1, ?E2, ?E3. Qed.
Lemma inner_same g g' SC OP U : inner g SC OP U -> heap g' = heap g -> owners g' = owners g -> roots g' = roots g -> inner g' SC OP U.
Proof. intros [] E1 E2 E3. split; unfold strt, main in *; by rewrite ?E1, ?E2, ?E3. Qed.

(** * One step of a sweep *)

Definition all_clean g L : Prop := forall p, p ∈ L -> exists x, heap g !! p = Some x /\ clean g x.
Lemma all_clean_evolved g g' L : evolved g g' -> all_clean g L -> all_clean g' L.
Proof.
  intros Hev Hc p Hp. destruct (Hc p Hp) as (x & Ex & Hx). destruct (ev_forth _ _ Hev p x Ex (clean_live _ _ Hx)) as (y & Ey & _). exists y. split; [done|].
  destruct (ev_back _ _ Hev p y Ey) as (x' & Ex' & _ & _ & HC & _ & _). rewrite Ex in Ex'. injection Ex' as <-. apply (clean_white g g'); [by apply ev_white|auto].
Qed.
Lemma all_clean_app g L1 L2 : all_clean g (L1 ++ L2) <-> all_clean g L1 /\ all_clean g L2.
Proof. unfold all_clean. split; [intros Hc; split; intros p Hp; apply Hc, elem_of_app; auto|]. intros [H1 H2] p [?|?]%elem_of_app; auto. Qed.
Lemma all_clean_nil g : all_clean g [].
Proof. by intros p ?%not_elem_of_nil. Qed.

(** The state [g'] comes from [g] by sweeping. *)
Record resting R UD SC OP T U g g' : Prop := {
  rs_inner : inner g' SC OP U;
  rs_outer : outer g' R UD T;
  rs_evolved : evolved g g';
  rs_lists : lists g' = lists g;
  rs_phase : phase g' = phase g
}.
Lemma resting_refl R UD SC OP T U g : inner g SC OP U -> outer g R UD T -> resting R UD SC OP T U g g.
Proof. intros Hi Ho. split; try done. apply evolved_refl. Qed.
Lemma resting_trans R UD SC OP U R' UD' SC' OP' U' T g1 g2 g3 : resting R UD SC OP T U g1 g2 -> resting R' UD' SC' OP' T U' g2 g3 -> resting R' UD' SC' OP' T U' g1 g3.
Proof. intros [] []. split; try done; [by eapply evolved_trans|congruence..]. Qed.
Lemma resting_deadmask R UD SC OP T U g g' : resting R UD SC OP T U g g' -> otherwhite g' = otherwhite g.
Proof. intros Hr. unfold otherwhite, currentwhite. by rewrite (rs_phase _ _ _ _ _ _ _ _ Hr). Qed.

Lemma alive_cases g x a R UD SC OP T U : sweeping g -> inner g SC OP U -> outer g R UD T -> heap g !! a = Some x -> alive g x -> live g x \/ fixed_string x.
Proof.
  intros Hsw Hi Ho Ea [Hf|Hl]; [|by left]. destruct (od_fixed _ _ _ _ Hi a x Ea Hf) as [?| ->]; [right; split; [by apply string_home|done]|left].
  destruct (sw_roots _ Hsw (main g) LUA_TTHREAD) as (y & Ey & _ & Hy); [by left|]. congruence.
Qed.
(** A live object turns white. *)
Lemma keep_post R UD SC OP T U g a x : sweeping g -> inner g SC OP U -> outer g R UD T -> heap g !! a = Some x -> alive g x ->
  exists g', upd_obj a (makewhite g) g = Ok g' /\ heap g' = <[a := makewhite g x]> (heap g) /\ resting R UD SC OP T U g g'.
Proof.
  intros Hsw Hi Ho Ea Hal. rewrite (upd_obj_ok _ _ _ _ Ea). eexists. split; [done|]. split; [done|].
  assert (heap_sim (heap g) (<[a := makewhite g x]> (heap g))) as Hs by (apply heap_sim_insert with x; [done|apply makewhite_sim]).
  split; [by eapply (inner_sim g)|by eapply (outer_sim g)| |done|done]. eapply evolved_keep; [apply Hsw|done|by eapply alive_cases].
Qed.
Lemma not_alive g x : ~ alive g x -> ~ live g x.
Proof. intros Ha Hl. apply Ha. by right. Qed.
Lemma evolved_out a g g' x : removed a g g' -> heap g !! a = Some x -> ~ live g x -> heap_ok (heap g) -> is_thread (o_body x) = false -> evolved g g'.
Proof.
  intros Hrm Ea Hl Hok Ht. eapply evolved_removed; [done..|]. intros p y th i pv nx Ey _ Eb ->. pose proof (Hok p y Ey) as Hy. rewrite Eb in Hy.
  destruct Hy as (w & t & Ew & Et & _). rewrite Ea in Ew. injection Ew as <-. by rewrite Et in Ht.
Qed.

Lemma removed_size a g g' x : removed a g g' -> heap g !! a = Some x -> (size (heap g') < size (heap g))%nat.
Proof.
  intros Hrm Ea. rewrite <- !size_dom. apply subset_size. split.
  - intros p (y & Ey)%elem_of_dom. destruct (rm_back _ _ _ Hrm p y Ey) as (_ & z & Ez & _). by apply elem_of_dom_2 in Ez.
  - intros Hs. assert (a ∈ dom (heap g')) as (y & Ey)%elem_of_dom by (apply Hs; by eapply elem_of_dom_2). by destruct (rm_back _ _ _ Hrm a y Ey).
Qed.

(** ** The loop *)

Section Loop.
Variable LI : list Z -> list Z -> gstate N -> Prop.
Variables (so : Z -> gstate N -> res (gstate N)) (dm : Z) (p0 : gcpos).
Hypothesis LI_size : forall K rest g, LI K rest g -> (length K + length rest <= size (heap g))%nat.
Hypothesis LI_get : forall K rest g, LI K rest g -> pos_get (at_pos p0 K) g = Ok (hd 0 rest) /\ 0 ∉ rest.
Hypothesis LI_step : forall K (a : Z) rest count g, LI K (a :: rest) g -> 0 < count ->
  exists K' rest' g', sweep_step so dm (at_pos p0 K, count, g) = Ok (inl (at_pos p0 K', count - 1, g')) /\ LI K' rest' g' /\ (size (heap g') + length K < size (heap g) + length K')%nat.

Lemma sweep_loop n K rest count g : LI K rest g -> (size (heap g) < n + length K)%nat ->
  exists K' rest' g', loop n (sweep_step so dm) (at_pos p0 K, count, g) = Ok (at_pos p0 K', g') /\ LI K' rest' g' /\ (rest' = [] \/ count + Z.of_nat (length K) < Z.of_nat (size (heap g)) /\ (size (heap g') + length K + Z.to_nat count <= size (heap g) + length K')%nat).
Proof.
  revert K rest count g. induction n as [|n IH]; intros K rest count g HL Hn; [pose proof (LI_size _ _ _ HL); lia|]. cbn [loop].
  destruct (LI_get _ _ _ HL) as [Hg H0]. pose proof (LI_size _ _ _ HL) as Hsz. destruct rest as [|a rest].
  { unfold sweep_step at 1. rewrite Hg. cbn. exists K, [], g. auto. }
  destruct (Z.leb_spec count 0) as [Hc|Hc].
  { unfold sweep_step at 1. rewrite Hg. cbn. rewrite (proj2 (Z.leb_le _ _)) by done. rewrite orb_true_r. exists K, (a :: rest), g. split; [done|]. split; [done|]. right. cbn in Hsz. lia. }
  destruct (LI_step K a rest count g HL Hc) as (K1 & rest1 & g1 & -> & HL1 & Hsz1). cbn [bind]. destruct (IH K1 rest1 (count - 1) g1 HL1) as (K2 & rest2 & g2 & E2 & HL2 & Hend); [lia|].
  exists K2, rest2, g2. split; [done|]. split; [done|]. destruct Hend as [?|?]; [by left|right; lia].
Qed.
End Loop.

(** What a step does with the object [a]. *)
Lemma sweep_step_eq so dm p count g a x g1 : pos_get p g = Ok a -> a <> 0 -> 0 < count -> heap g !! a = Some x -> white_ok g -> dm = otherwhite g ->
  (if gch_tt x =? LUA_TTHREAD then so a g else Ok g) = Ok g1 ->
  sweep_step so dm (p, count, g) =
    if decide (alive g x) then (g2 <- upd_obj a (makewhite g1) g1; Ok (inl (AtNext a, count - 1, g2))) else (g2 <- sweep_out p a x g1; Ok (inl (p, count - 1, g2))).
Proof.
  intros Hg Ha Hc Ex Hw -> Hso. unfold sweep_step. rewrite Hg. cbn [bind]. rewrite (proj2 (Z.eqb_neq _ _)), (proj2 (Z.leb_gt _ _)) by done. cbn [orb].
  rewrite (obj_at_ok _ _ _ Ex). cbn [bind]. rewrite Hso. cbn [bind]. pose proof (alive_sweep g x Hw) as Hal. destruct (decide (alive g x)) as [H1|H1].
  - by rewrite (proj2 Hal H1).
  - destruct (negb _); [|done]. by destruct H1; apply Hal.
Qed.

(** * Open upvalues *)

Definition stays (th : Z) g g' : Prop :=
  exists x x' (t t' : lua_State N), heap g !! th = Some x /\ o_body x = TTHREAD t /\ heap g' !! th = Some x' /\ o_body x' = TTHREAD t' /\ o_marked x' = o_marked x /\ o_next x' = o_next x.
Lemma stays_refl th g : thread_there g th -> stays th g g.
Proof. intros (x & t & Ex & Et). by exists x, x, t, t. Qed.
Lemma stays_trans th g1 g2 g3 : stays th g1 g2 -> stays th g2 g3 -> stays th g1 g3.
Proof.
  intros (x & y & t & t1 & Ex & Et & Ey & Et1 & Em & En) (y' & z & t2 & t3 & Ey' & Et2 & Ez & Et3 & Em' & En'). rewrite Ey in Ey'. injection Ey' as <-. exists x, z, t, t3. split_and!; (done || congruence).
Qed.

Lemma open_step_post R UD SC OP T U g th K (a : Z) rest so count :
  sweeping g -> inner g SC OP U -> outer g R UD T -> thread_there g th -> OP th = K ++ a :: rest -> 0 < count ->
  exists K' g' U', sweep_step so (otherwhite g) (at_pos (AtOpen th) K, count, g) = Ok (inl (at_pos (AtOpen th) K', count - 1, g')) /\
    resting R UD SC (op_set OP th (K' ++ rest)) T U' g g' /\ stays th g g' /\
    (K' = K ++ [a] /\ size (heap g') = size (heap g) /\ (exists x, heap g' !! a = Some x /\ clean g' x) \/ K' = K /\ (size (heap g') < size (heap g))%nat).
Proof.
  intros Hsw Hi Ho Hth EO Hc. destruct Hth as (xt & t & Et & Ebt). pose proof (od_open _ _ _ _ Hi th xt t Et Ebt) as Hl. rewrite EO in Hl.
  destruct (linked_at _ _ _ _ _ _ Hl) as (Ha0 & x & Ex & _). assert (homed (heap g) (HOpen th) a) as (x' & Ex' & Hh). { apply (od_homes_open _ _ _ _ Hi). rewrite EO. apply elem_of_app. right. by left. }
  rewrite Ex in Ex'. injection Ex' as <-. assert (a <> th) as Hat by (intros ->; rewrite Ex in Et; injection Et as ->; by rewrite Ebt in Hh).
  rewrite (sweep_step_eq so _ _ _ g a x g); [|apply (pos_get_at g _ (openupval t) K (a :: rest)); [|exact Hl]; cbn [pos_get]; by rewrite (thread_at_ok _ _ _ _ Et Ebt)|done|done|done|apply Hsw|done|].
  2:{ unfold gch_tt. by destruct (o_body x) as [| |[]| | | | |]. }
  case_decide as Hal.
  - destruct (keep_post R UD SC OP T U g a x Hsw Hi Ho Ex Hal) as (g' & -> & Eh & [Hi' ? Hev' ? ?]). cbn [bind]. exists (K ++ [a]), g', U. rewrite at_pos_snoc. split; [done|]. split_and!.
    + split; try done. eapply inner_op_ext; [|exact Hi']. intros t'. rewrite <- app_assoc. cbn. rewrite <- EO. symmetry. apply op_set_same.
    + exists xt, xt, t, t. rewrite Eh, lookup_insert_ne by done. done.
    + left. split; [done|]. split; [rewrite Eh; by apply map_size_insert_Some|]. eexists. rewrite Eh, lookup_insert_eq. split; [done|]. apply (clean_white g g'); [by apply ev_white|]. apply makewhite_clean, Hsw.
  - destruct (open_out g th xt t K a rest x SC OP U R UD T Hi Ho EO Ex Et Ebt) as (g' & U' & -> & Hi' & Ho' & Hd). cbn [bind]. exists K, g', U'. pose proof (dt_removed _ _ _ _ Hd) as Hrm. split; [done|]. split_and!.
    + split; try done; [|apply (rm_lists _ _ _ Hrm)|apply (rm_phase _ _ _ Hrm)]. eapply evolved_out; [done..|by apply not_alive|apply Hsw|by destruct (o_body x) as [| |[]| | | | |]].
    + destruct (dt_next _ _ _ _ Hd th xt) as (z & Ez & En); [done|done|by rewrite Ebt|]. destruct (rm_back _ _ _ Hrm th z Ez) as (_ & xt' & Et' & Em & _ & Hb). rewrite Et in Et'. injection Et' as <-.
      rewrite Ebt in Hb. exists xt, z, t. inversion Hb; subst; eauto 10.
    + right. split; [done|]. by eapply removed_size.
Qed.

(** [K] has been swept, [rest] is still to come. *)
Definition open_part R UD SC OP T g th K rest g1 : Prop :=
  exists U, resting R UD SC (op_set OP th (K ++ rest)) T U g g1 /\ stays th g g1 /\ all_clean g1 K.

Lemma list_size g SC OP U th : inner g SC OP U -> (length (OP th) <= size (heap g))%nat.
Proof. intros Hi. apply nodup_size; [apply (od_nodups _ _ _ _ Hi)|]. intros p Hp. apply (od_homes_open _ _ _ _ Hi) in Hp as (x & Ex & _). by exists x. Qed.

Lemma open_sweep R UD SC OP T U g th d count :
  sweeping g -> inner g SC OP U -> outer g R UD T -> thread_there g th ->
  exists K rest g', sweeplist (S d) (AtOpen th) count g = Ok (at_pos (AtOpen th) K, g') /\ open_part R UD SC OP T g th K rest g' /\ (rest = [] \/ count < Z.of_nat (size (heap g))).
Proof.
  intros Hsw Hi Ho Hth. cbn [sweeplist]. destruct (sweep_loop (open_part R UD SC OP T g th) (fun th0 g0 => '(_, g1) <- sweeplist d (AtOpen th0) MAX_LUMEM g0; Ok g1) (otherwhite g) (AtOpen th)) with
    (n := (2 + size (heap g))%nat) (K := @nil Z) (rest := OP th) (count := count) (g := g) as (K & rest & g' & E & HL & Hend).
  - intros K rest g1 (U1 & Hr & _). rewrite <- length_app, <- (op_set_eq OP th (K ++ rest)). apply (list_size _ _ _ _ _ (rs_inner _ _ _ _ _ _ _ _ Hr)).
  - intros K rest g1 (U1 & Hr & (_ & x & _ & t & _ & _ & Ex & Et & _) & _). pose proof (od_open _ _ _ _ (rs_inner _ _ _ _ _ _ _ _ Hr) th x t Ex Et) as Hl. rewrite op_set_eq in Hl. split.
    + apply (pos_get_at g1 _ (openupval t) K rest); [|exact Hl]. cbn [pos_get]. by rewrite (thread_at_ok _ _ _ _ Ex Et).
    + apply linked_nonzero in Hl. intros Hin. apply Hl, elem_of_app. by right.
  - intros K a rest c g1 (U1 & Hr & Hst & Hcl) Hc. pose proof Hr as [Hi1 Ho1 Hev1 _ _]. assert (thread_there g1 th) as Hth1 by (destruct Hst as (_ & x & _ & t & _ & _ & Ex & Et & _); by exists x, t).
    rewrite <- (resting_deadmask _ _ _ _ _ _ _ _ Hr). destruct (open_step_post R UD SC _ T U1 g1 th K a rest (fun th0 g0 => '(_, g1) <- sweeplist d (AtOpen th0) MAX_LUMEM g0; Ok g1) c (sweeping_evolved _ _ Hsw Hev1) Hi1 Ho1 Hth1 (op_set_eq _ _ _) Hc) as (K' & g2 & U2 & E2 & Hr2 & Hst2 & Hcase).
    exists K', rest, g2. split; [exact E2|]. pose proof (all_clean_evolved _ _ _ (rs_evolved _ _ _ _ _ _ _ _ Hr2) Hcl) as Hcl2. split.
    + exists U2. split; [|split; [by eapply stays_trans|]].
      * eapply resting_trans; [exact Hr|]. destruct Hr2. split; try done. eapply inner_op_ext; [|done]. intros t'. apply op_set_twice.
      * destruct Hcase as [(-> & _ & Hx)|[-> _]]; [|done]. apply all_clean_app. split; [done|]. by intros p ->%list_elem_of_singleton.
    + destruct Hcase as [(-> & -> & _)|[-> ?]]; [rewrite length_app; cbn; lia|lia].
  - exists U. split; [|split; [by apply stays_refl|apply all_clean_nil]]. split; try done; [|apply evolved_refl]. eapply inner_op_ext; [|exact Hi]. intros t. symmetry. apply op_set_same.
  - cbn. lia.
  - exists K, rest, g'. split; [exact E|]. split; [done|]. destruct Hend as [?|[? _]]; [by left|right]. cbn in *. lia.
Qed.

(** * The chains of the string table *)

Lemma string_step_post R UD SC OP T U g i K (a : Z) rest so count :
  sweeping g -> inner g SC OP U -> outer g R UD T -> SC !! i = Some (K ++ a :: rest) -> 0 < count ->
  exists K' g', sweep_step so (otherwhite g) (at_pos (AtHash (Z.of_nat i)) K, count, g) = Ok (inl (at_pos (AtHash (Z.of_nat i)) K', count - 1, g')) /\
    resting R UD (<[i := K' ++ rest]> SC) OP T U g g' /\
    (K' = K ++ [a] /\ size (heap g') = size (heap g) /\ (exists x, heap g' !! a = Some x /\ clean g' x) \/ K' = K /\ (size (heap g') < size (heap g))%nat).
Proof.
  intros Hsw Hi Ho Ei Hc. pose proof (od_strt _ _ _ _ Hi) as (_ & Hf2 & _). destruct (Forall2_lookup_r _ _ _ _ _ Hf2 Ei) as (p & Ep & Hl).
  destruct (linked_at _ _ _ _ _ _ Hl) as (Ha0 & x & Ex & _). assert (homed (heap g) HString a) as (x' & Ex' & Hh). { apply (od_homes_string _ _ _ _ Hi). eapply in_chain; [exact Ei|]. apply elem_of_app. right. by left. }
  rewrite Ex in Ex'. injection Ex' as <-.
  rewrite (sweep_step_eq so _ _ _ g a x g); [|apply (pos_get_at g _ p K (a :: rest)); [|exact Hl]; cbn [pos_get]; rewrite Nat2Z.id; by rewrite Ep|done|done|done|apply Hsw|done|].
  2:{ unfold gch_tt. by destruct (o_body x) as [| |[]| | | | |]. }
  case_decide as Hal.
  - destruct (keep_post R UD SC OP T U g a x Hsw Hi Ho Ex Hal) as (g' & -> & Eh & Hr). pose proof (rs_evolved _ _ _ _ _ _ _ _ Hr) as Hev'. cbn [bind]. exists (K ++ [a]), g'. rewrite at_pos_snoc. split; [done|]. split.
    + rewrite <- app_assoc. cbn. by rewrite (list_insert_id _ _ _ Ei).
    + left. split; [done|]. split; [rewrite Eh; by apply map_size_insert_Some|]. eexists. rewrite Eh, lookup_insert_eq. split; [done|]. apply (clean_white g g'); [by apply ev_white|]. apply makewhite_clean, Hsw.
  - destruct (string_out g i K a rest x SC OP U R UD T Hi Ho Ei Ex) as (g' & -> & Hi' & Ho' & Hrm). cbn [bind]. exists K, g'. split; [done|]. split.
    + split; try done; [|apply (rm_lists _ _ _ Hrm)|apply (rm_phase _ _ _ Hrm)]. eapply evolved_out; [done..|by apply not_alive|apply Hsw|by destruct (o_body x) as [| |[]| | | | |]].
    + right. split; [done|]. by eapply removed_size.
Qed.

Definition string_part R UD SC OP T U g i K rest g1 : Prop := resting R UD (<[i := K ++ rest]> SC) OP T U g g1 /\ all_clean g1 K.
Lemma string_sweep R UD SC OP T U g i L d count :
  sweeping g -> inner g SC OP U -> outer g R UD T -> SC !! i = Some L ->
  exists K rest g', sweeplist (S d) (AtHash (Z.of_nat i)) count g = Ok (at_pos (AtHash (Z.of_nat i)) K, g') /\ string_part R UD SC OP T U g i K rest g' /\ (rest = [] \/ count < Z.of_nat (size (heap g))).
Proof.
  intros Hsw Hi Ho Ei. assert (i < length SC)%nat as Hlt by (by eapply lookup_lt_Some). cbn [sweeplist].
  destruct (sweep_loop (string_part R UD SC OP T U g i) (fun th0 g0 => '(_, g1) <- sweeplist d (AtOpen th0) MAX_LUMEM g0; Ok g1) (otherwhite g) (AtHash (Z.of_nat i))) with
    (n := (2 + size (heap g))%nat) (K := @nil Z) (rest := L) (count := count) (g := g) as (K & rest & g' & E & HL & Hend).
  - intros K rest g1 [[Hi1 _ _ _ _] _]. rewrite <- length_app. pose proof (od_nodups _ _ _ _ Hi1) as (Hnd & _). assert (<[i := K ++ rest]> SC !! i = Some (K ++ rest)) as Ei1 by (by apply list_lookup_insert_eq).
    apply nodup_size; [by eapply chain_nodup|]. intros p Hp. assert (p ∈ concat (<[i := K ++ rest]> SC)) as (x & Ex & _)%(od_homes_string _ _ _ _ Hi1) by (by eapply in_chain). by exists x.
  - intros K rest g1 [[Hi1 _ _ _ _] _]. assert (<[i := K ++ rest]> SC !! i = Some (K ++ rest)) as Ei1 by (by apply list_lookup_insert_eq).
    pose proof (od_strt _ _ _ _ Hi1) as (_ & Hf2 & _). destruct (Forall2_lookup_r _ _ _ _ _ Hf2 Ei1) as (p & Ep & Hl). split.
    + apply (pos_get_at g1 _ p K rest); [|exact Hl]. cbn [pos_get]. rewrite Nat2Z.id. by rewrite Ep.
    + apply linked_nonzero in Hl. intros Hin. apply Hl, elem_of_app. by right.
  - intros K a rest c g1 [Hr Hcl] Hc. pose proof Hr as [Hi1 Ho1 Hev1 _ _]. rewrite <- (resting_deadmask _ _ _ _ _ _ _ _ Hr).
    destruct (string_step_post R UD _ OP T U g1 i K a rest (fun th0 g0 => '(_, g1) <- sweeplist d (AtOpen th0) MAX_LUMEM g0; Ok g1) c (sweeping_evolved _ _ Hsw Hev1) Hi1 Ho1 ltac:(by apply list_lookup_insert_eq) Hc) as (K' & g2 & E2 & Hr2 & Hcase).
    exists K', rest, g2. split; [exact E2|]. pose proof (all_clean_evolved _ _ _ (rs_evolved _ _ _ _ _ _ _ _ Hr2) Hcl) as Hcl2. split.
    + split; [eapply resting_trans; [exact Hr|]; by rewrite list_insert_insert_eq in Hr2|]. destruct Hcase as [(-> & _ & Hx)|[-> _]]; [|done]. apply all_clean_app. split; [done|]. by intros p ->%list_elem_of_singleton.
    + destruct Hcase as [(-> & -> & _)|[-> ?]]; [rewrite length_app; cbn; lia|lia].
  - split; [|apply all_clean_nil]. cbn. rewrite (list_insert_id _ _ _ Ei). by apply resting_refl.
  - cbn. lia.
  - exists K, rest, g'. split; [exact E|]. split; [done|]. destruct Hend as [?|[? _]]; [by left|right]. cbn in *. lia.
Qed.

(** * The main list *)

Lemma freeobj_thing g a x : heap g !! a = Some x -> home (o_body x) = HRoot \/ home (o_body x) = HUdata -> is_thread (o_body x) = false ->
  exists g', freeobj a g = Ok g' /\ heap g' = delete a (heap g) /\ owners g' = owners g /\ lists g' = lists g /\ phase g' = phase g /\ roots g' = roots g.
Proof.
  intros Ea Hh Ht. unfold freeobj. rewrite (obj_at_ok _ _ _ Ea). cbn [bind]. destruct (o_body x) as [| |[th i pv nx|w]| | |m t| |] eqn:Eb; try done; try (by destruct Hh); try by eexists.
  - unfold luaF_freeupval. rewrite (upval_at_ok _ _ _ _ Ea Eb). cbn [bind]. by eexists.
  - eexists. split; [done|]. by destruct (isdummy t).
Qed.

Lemma root_out_thing g K (a : Z) rest x SC OP U R UD T :
  inner g SC OP U -> outer g R UD T -> R ++ main g :: UD = K ++ a :: rest -> a <> main g -> heap g !! a = Some x -> home (o_body x) = HRoot \/ home (o_body x) = HUdata -> is_thread (o_body x) = false ->
  exists g' R' UD', sweep_out (at_pos AtRoot K) a x g = Ok g' /\ inner g' SC OP U /\ outer g' R' UD' T /\ R' ++ main g' :: UD' = K ++ rest /\ removed a g g'.
Proof.
  intros Hi Ho Esp Hm Ea Hh Ht. destruct (root_unchain g K a rest x SC OP U R UD T Hi Ho Esp Hm Ea) as (g1 & R' & UD' & E1 & Esp1 & Hs & Ea1 & El & Ep & Er & Hrg & Hi1 & Ho1).
  unfold sweep_out. rewrite E1. cbn [bind]. rewrite (proj2 (Z.eqb_neq _ _)) by done. destruct (freeobj_thing g1 a x Ea1 Hh Ht) as (g' & -> & Eh & Eow & El' & Ep' & Er'). assert (main g1 = main g) as Em1 by (unfold main; by rewrite Er).
  exists g', R', UD'. split; [done|]. split_and!.
  - eapply (inner_delete g1 g' a); [done|exact Ea1|done|by rewrite Em1|done..].
  - eapply (outer_same (without a g1)); done.
  - unfold main. by rewrite Er'.
  - apply (removed_eqv a g g' (heap g1)); (done || congruence).
Qed.

Lemma root_out_thread g K (a : Z) rest x (t : lua_State N) SC OP U R UD T :
  sweeping g -> gcstate g <> GCSpropagate -> inner g SC OP U -> outer g R UD T -> R ++ main g :: UD = K ++ a :: rest -> a <> main g -> heap g !! a = Some x -> o_body x = TTHREAD t -> ~ live g x ->
  exists g' R1 R' UD' U', sweep_out (at_pos AtRoot K) a x g = Ok g' /\ resting (R1 ++ R') UD' SC (op_set OP a []) T U' g g' /\ R' ++ main g' :: UD' = K ++ rest /\ (forall p, p ∈ R1 -> p ∈ OP a) /\ heap g' !! a = None.
Proof.
  intros Hsw Hst Hi Ho Esp Hm Ea Eb Hdead. destruct (root_unchain g K a rest x SC OP U R UD T Hi Ho Esp Hm Ea) as (g1 & R' & UD' & E1 & Esp1 & Hs & Ea1 & El & Ep & Er & Hrg & Hi1 & Ho1).
  unfold sweep_out. rewrite E1. cbn [bind]. rewrite (proj2 (Z.eqb_neq _ _)) by done. pose proof (evolved_eqv g g1 Hs Ep Er) as Hev1. pose proof (sweeping_evolved _ _ Hsw Hev1) as Hsw1.
  assert (main g1 = main g) as Em1 by (unfold main; by rewrite Er). assert (limbo g1 a) as Hz by (intros y Ey; rewrite Ea1 in Ey; injection Ey as <-; by rewrite Eb).
  unfold freeobj. rewrite (obj_at_ok _ _ _ Ea1). cbn [bind]. rewrite Eb.
  destruct (luaF_close_post a g1 a 0 SC OP U R' UD' T Hi1 Ho1 Hz) as (g2 & U2 & O1 & O2 & R1 & -> & EO & Hcl & HR1 & HO2); [by exists x, t|unfold gcstate; by rewrite Ep|apply Hsw1|apply Hsw1|].
  rewrite HO2 in EO, Hcl by lia. rewrite app_nil_r in EO. cbn [bind]. destruct Hcl as [Hi2 Ho2 Hev2 El2 Ep2 Er2 (x1 & x2 & t1 & t2 & Ex1 & _ & Ex2 & Et2 & Emk)]. rewrite Ea1 in Ex1. injection Ex1 as <-.
  set (g' := luaM_free _ _ _). assert (main g2 = main g) as Em2 by (unfold main; by rewrite Er2, Er). pose proof (removed_eqv a g2 g' (heap g2) (heap_eqv_refl _) eq_refl eq_refl eq_refl eq_refl) as Hrm.
  exists g', R1, R', UD', U2. split; [done|]. split_and!.
  - split.
    + eapply (inner_delete g2 g' a); [exact Hi2|exact Ex2|rewrite Et2; by left|by rewrite Em2|done..].
    + by eapply (outer_same (without a g2)).
    + eapply evolved_trans; [exact Hev1|]. eapply evolved_trans; [exact Hev2|]. eapply (evolved_removed a); [exact Hrm|exact Ex2| |].
      * unfold live, bit in *. rewrite Emk. unfold ow, cw in *. by rewrite (ev_white _ _ Hev2), (ev_white _ _ Hev1).
      * intros p y th i pv nx Ey _ Eby ->. assert (p ∈ op_set OP a [] a) as Hp by (apply (od_homes_open _ _ _ _ Hi2); exists y; by rewrite Eby). rewrite op_set_eq in Hp. by apply not_elem_of_nil in Hp.
    + change (lists g') with (lists g2). congruence.
    + change (phase g') with (phase g2). congruence.
  - change (main g') with (main g2). by rewrite Em2, <- Em1.
  - intros p Hp. rewrite EO. by apply HR1.
  - apply lookup_delete_eq.
Qed.

Lemma evolved_size g g' (a : Z) x : evolved g g' -> heap g !! a = Some x -> heap g' !! a = None -> (size (heap g') < size (heap g))%nat.
Proof.
  intros Hev Ea Ea'. rewrite <- !size_dom. apply subset_size. split.
  - intros p (y & Ey)%elem_of_dom. destruct (ev_back _ _ Hev p y Ey) as (z & Ez & _). by apply elem_of_dom_2 in Ez.
  - intros Hs. assert (a ∈ dom (heap g')) as (y & Ey)%elem_of_dom by (apply Hs; by eapply elem_of_dom_2). congruence.
Qed.
Lemma evolved_small g g' : evolved g g' -> (size (heap g') <= size (heap g))%nat.
Proof. intros Hev. rewrite <- !size_dom. apply subseteq_size. intros p (y & Ey)%elem_of_dom. destruct (ev_back _ _ Hev p y Ey) as (z & Ez & _). by apply elem_of_dom_2 in Ez. Qed.

Lemma not_thread_open g SC OP U a x : inner g SC OP U -> heap_ok (heap g) -> heap g !! a = Some x -> is_thread (o_body x) = false -> OP a = [].
Proof.
  intros Hi Hok Ea Ht. destruct (OP a) as [|c L] eqn:E; [done|]. destruct (proj1 (od_homes_open _ _ _ _ Hi a c)) as (y & Ey & Hy); [rewrite E; by left|].
  pose proof (Hok c y Ey) as Hbo. destruct (o_body y) as [| |[th i pv nx|]| | | | |]; try done. injection Hy as ->. destruct Hbo as (w & t & Ew & Et & _). rewrite Ea in Ew. injection Ew as <-. by rewrite Et in Ht.
Qed.

(** [K] has been swept with the open upvalues of its threads. *)
Definition root_part SC T g K rest g1 : Prop :=
  exists R UD OP U, R ++ main g1 :: UD = K ++ rest /\ resting R UD SC OP T U g g1 /\ all_clean g1 K /\ forall p, p ∈ K -> all_clean g1 (OP p).

Lemma root_homes g R UD T (a : Z) K rest : outer g R UD T -> R ++ main g :: UD = K ++ a :: rest -> exists x, heap g !! a = Some x /\ (home (o_body x) = HRoot \/ home (o_body x) = HUdata).
Proof.
  intros Ho Esp. assert (a ∈ R ++ main g :: UD) as Hp by (rewrite Esp, elem_of_app; right; by left). assert (a ∈ R ++ [main g] \/ a ∈ UD ++ T) as [Hp'|Hp'] by (rewrite !elem_of_app, !elem_of_cons in *; naive_solver).
  - apply (od_homes_root _ _ _ _ Ho) in Hp' as (y & Ey & ?). eauto.
  - apply (od_homes_udata _ _ _ _ Ho) in Hp' as (y & Ey & ?). eauto.
Qed.
Lemma main_live g : sweeping g -> exists x, heap g !! main g = Some x /\ live g x.
Proof. intros Hsw. destruct (sw_roots _ Hsw (main g) LUA_TTHREAD) as (y & Ey & _ & Hy); [by left|]. eauto. Qed.
Lemma sweep_out_next p (a : Z) x y g : o_next x = o_next y -> sweep_out p a x g = sweep_out p a y g.
Proof. unfold sweep_out. by intros ->. Qed.

(** The object at [a] stays. *)
Lemma root_keep R UD SC OP T U g K (a : Z) rest x :
  sweeping g -> inner g SC OP U -> outer g R UD T -> R ++ main g :: UD = K ++ a :: rest -> all_clean g K -> (forall p, p ∈ K ++ [a] -> all_clean g (OP p)) -> heap g !! a = Some x -> alive g x ->
  exists g', upd_obj a (makewhite g) g = Ok g' /\ root_part SC T g (K ++ [a]) rest g' /\ size (heap g') = size (heap g).
Proof.
  intros Hsw Hi Ho Esp HK HO Ea Hal. destruct (keep_post R UD SC OP T U g a x Hsw Hi Ho Ea Hal) as (g' & -> & Eh & Hr). pose proof (rs_evolved _ _ _ _ _ _ _ _ Hr) as Hev. exists g'. split; [done|]. split.
  - exists R, UD, OP, U. split_and!; [unfold main; rewrite (ev_roots _ _ Hev), <- app_assoc; exact Esp|done| |].
    + apply all_clean_app. split; [by eapply all_clean_evolved|]. intros p ->%list_elem_of_singleton. eexists. rewrite Eh, lookup_insert_eq. split; [done|]. apply (clean_white g g'); [by apply ev_white|]. apply makewhite_clean, Hsw.
    + intros p Hp. eapply all_clean_evolved; [done|by apply HO].
  - rewrite Eh. by apply map_size_insert_Some.
Qed.

Lemma root_drop_thing R UD SC OP T U g K (a : Z) rest x :
  sweeping g -> inner g SC OP U -> outer g R UD T -> R ++ main g :: UD = K ++ a :: rest -> all_clean g K -> (forall p, p ∈ K -> all_clean g (OP p)) -> heap g !! a = Some x -> ~ alive g x -> is_thread (o_body x) = false ->
  exists g', sweep_out (at_pos AtRoot K) a x g = Ok g' /\ root_part SC T g K rest g' /\ (size (heap g') < size (heap g))%nat.
Proof.
  intros Hsw Hi Ho Esp HK HO Ea Hal Ht. destruct (root_homes _ _ _ _ _ _ _ Ho Esp) as (x' & Ea' & Hh). rewrite Ea in Ea'. injection Ea' as <-. pose proof (not_alive _ _ Hal) as Hl.
  destruct (main_live _ Hsw) as (xm & Em & Hml). assert (a <> main g) as Hm by (intros ->; congruence).
  destruct (root_out_thing g K a rest x SC OP U R UD T Hi Ho Esp Hm Ea Hh Ht) as (g' & R' & UD' & -> & Hi' & Ho' & Esp' & Hrm). assert (evolved g g') as Hev by (eapply evolved_out; [done..|apply Hsw|done]).
  exists g'. split; [done|]. split; [|by eapply removed_size]. exists R', UD', OP, U. split_and!; [done| |by eapply all_clean_evolved|].
  - split; try done; [apply (rm_lists _ _ _ Hrm)|apply (rm_phase _ _ _ Hrm)].
  - intros p Hp. eapply all_clean_evolved; [done|by apply HO].
Qed.

Lemma root_drop_thread R UD SC OP T U g K (a : Z) rest x (t : lua_State N) :
  sweeping g -> gcstate g <> GCSpropagate -> inner g SC OP U -> outer g R UD T -> R ++ main g :: UD = K ++ a :: rest -> all_clean g K -> (forall p, p ∈ K ++ [a] -> all_clean g (OP p)) -> heap g !! a = Some x -> ~ alive g x -> o_body x = TTHREAD t ->
  exists g' K' rest', sweep_out (at_pos AtRoot K) a x g = Ok g' /\ at_pos AtRoot K' = at_pos AtRoot K /\ (length K <= length K')%nat /\ root_part SC T g K' rest' g' /\ (size (heap g') < size (heap g))%nat.
Proof.
  intros Hsw Hst Hi Ho Esp HK HO Ea Hal Eb. pose proof (not_alive _ _ Hal) as Hl. destruct (main_live _ Hsw) as (xm & Em & Hml). assert (a <> main g) as Hm by (intros ->; congruence).
  destruct (root_out_thread g K a rest x t SC OP U R UD T Hsw Hst Hi Ho Esp Hm Ea Eb Hl) as (g' & R1 & R' & UD' & U' & -> & Hr & Esp' & HR1 & Ea'). pose proof (rs_evolved _ _ _ _ _ _ _ _ Hr) as Hev.
  assert (forall p, p ∈ K -> all_clean g' (op_set OP a [] p)) as HO'.
  { intros p Hp. unfold op_set. case_decide; [apply all_clean_nil|]. eapply all_clean_evolved; [done|]. apply HO, elem_of_app. by left. }
  assert (all_clean g' R1) as HR1'. { eapply all_clean_evolved; [done|]. intros p Hp. apply (HO a); [apply elem_of_app; right; by left|by apply HR1]. }
  assert (forall p, p ∈ R1 -> op_set OP a [] p = []) as HR1o.
  { intros p Hp. destruct (HR1' p Hp) as (y & Ey & _). destruct (proj1 (od_homes_open _ _ _ _ Hi a p) (HR1 p Hp)) as (z & Ez & Hz). eapply not_thread_open; [apply Hr| |exact Ey|]; [apply (ev_ok _ _ Hev), Hsw|].
    destruct (ev_back _ _ Hev p y Ey) as (z' & Ez' & Et & _). rewrite Ez in Ez'. injection Ez' as <-. unfold gch_tt in Et. destruct (o_body z) as [| |[]| | | | |], (o_body y); done. }
  destruct K as [|k K].
  - exists g', [], (R1 ++ rest). split_and!; [done|done|done| |exact (evolved_size _ _ _ _ Hev Ea Ea')]. exists (R1 ++ R'), UD', (op_set OP a []), U'. split_and!; [by rewrite <- app_assoc, Esp'|done|apply all_clean_nil|done].
  - exists g', (R1 ++ k :: K), rest. split_and!; [done| |rewrite length_app; lia| |exact (evolved_size _ _ _ _ Hev Ea Ea')].
    + unfold at_pos. assert (k :: K <> []) as (K2 & b & E)%exists_last by done. rewrite E. by rewrite app_assoc, !last_snoc.
    + exists (R1 ++ R'), UD', (op_set OP a []), U'. split_and!; [by rewrite <- !app_assoc, Esp'|done| |].
      * apply all_clean_app. split; [done|by eapply all_clean_evolved].
      * intros p [Hp|Hp]%elem_of_app; [rewrite HR1o by done; apply all_clean_nil|by apply HO'].
Qed.

(** The open upvalues of the thread at [a] are swept before it. *)
Lemma sweep_open_of R UD SC OP T U g K (a : Z) rest x (t : lua_State N) :
  sweeping g -> inner g SC OP U -> outer g R UD T -> R ++ main g :: UD = K ++ a :: rest -> all_clean g K -> (forall p, p ∈ K -> all_clean g (OP p)) -> heap g !! a = Some x -> o_body x = TTHREAD t -> Z.of_nat (size (heap g)) <= MAX_LUMEM ->
  exists g' OP' U' x' (t' : lua_State N), ('(_, g') <- sweeplist 1 (AtOpen a) MAX_LUMEM g; Ok g') = Ok g' /\ resting R UD SC OP' T U' g g' /\ heap g' !! a = Some x' /\ o_body x' = TTHREAD t' /\ o_marked x' = o_marked x /\ o_next x' = o_next x /\
    all_clean g' K /\ forall p, p ∈ K ++ [a] -> all_clean g' (OP' p).
Proof.
  intros Hsw Hi Ho Esp HK HO Ea Eb Hsm. destruct (open_sweep R UD SC OP T U g a 0 MAX_LUMEM Hsw Hi Ho) as (L & L' & g' & -> & (U' & Hr & (x0 & x' & t0 & t' & Ex0 & _ & Ex' & Et' & Em & En) & Hcl) & Hend); [by exists x, t|].
  rewrite Ea in Ex0. injection Ex0 as <-. destruct Hend as [->|?]; [|lia]. rewrite app_nil_r in Hr. pose proof (rs_evolved _ _ _ _ _ _ _ _ Hr) as Hev. cbn [bind].
  exists g', (op_set OP a L), U', x', t'. split_and!; try done; [by eapply all_clean_evolved|]. intros p Hp. unfold op_set. case_decide; [done|]. apply elem_of_app in Hp as [Hp|Hp%list_elem_of_singleton]; [|done].
  eapply all_clean_evolved; [done|by apply HO].
Qed.

Lemma root_part_step SC T g0 K (a : Z) rest count g :
  sweeping g0 -> gcstate g0 <> GCSpropagate -> Z.of_nat (size (heap g0)) <= MAX_LUMEM -> root_part SC T g0 K (a :: rest) g -> 0 < count ->
  exists K' rest' g', sweep_step (fun th g => '(_, g) <- sweeplist 1 (AtOpen th) MAX_LUMEM g; Ok g) (otherwhite g0) (at_pos AtRoot K, count, g) = Ok (inl (at_pos AtRoot K', count - 1, g')) /\
    root_part SC T g0 K' rest' g' /\ (size (heap g') + length K < size (heap g) + length K')%nat.
Proof.
  intros Hsw0 Hst0 Hsm0 (R & UD & OP & U & Esp & Hr0 & HK & HO) Hc. pose proof Hr0 as [Hi Ho Hev0 _ Ep0]. pose proof (sweeping_evolved _ _ Hsw0 Hev0) as Hsw.
  assert (gcstate g <> GCSpropagate) as Hst by (unfold gcstate; by rewrite Ep0). pose proof (evolved_small _ _ Hev0) as Hsz. assert (Z.of_nat (size (heap g)) <= MAX_LUMEM) as Hsm by lia.
  assert (forall K' rest' g1 g2 R1 UD1 OP1 U1, resting R1 UD1 SC OP1 T U1 g g1 -> root_part SC T g1 K' rest' g2 -> root_part SC T g0 K' rest' g2) as Hglue.
  { intros K' rest' g1 g2 R1 UD1 OP1 U1 H1 (R2 & UD2 & OP2 & U2 & ? & H2 & ? & ?). exists R2, UD2, OP2, U2. split_and!; try done. eapply resting_trans; [exact Hr0|]. by eapply resting_trans. }
  destruct (root_homes _ _ _ _ _ _ _ Ho Esp) as (x & Ea & Hh). pose proof (od_root _ _ _ _ Ho) as Hl. rewrite Esp in Hl. destruct (linked_at _ _ _ _ _ _ Hl) as (Ha0 & _).
  assert (pos_get (at_pos AtRoot K) g = Ok a) as Hg by (apply (pos_get_at g _ (rootgc g) K (a :: rest)); done). rewrite <- (resting_deadmask _ _ _ _ _ _ _ _ Hr0).
  destruct (is_thread (o_body x)) eqn:Ht.
  - assert (exists t, o_body x = TTHREAD t) as (t & Eb) by (destruct (o_body x); try done; by eexists).
    destruct (sweep_open_of R UD SC OP T U g K a rest x t Hsw Hi Ho Esp HK HO Ea Eb Hsm) as (g1 & OP1 & U1 & x1 & t1 & E1 & Hr1 & Ea1 & Eb1 & Em1 & En1 & HK1 & HO1).
    rewrite (sweep_step_eq _ _ _ _ g a x g1); [|done|done|done|done|apply Hsw|done|by unfold gch_tt; rewrite Eb]. pose proof Hr1 as [Hi1 Ho1 Hev1 _ Ep1]. pose proof (sweeping_evolved _ _ Hsw Hev1) as Hsw1. pose proof (evolved_small _ _ Hev1) as Hsz1.
    assert (R ++ main g1 :: UD = K ++ a :: rest) as Esp1 by (unfold main in *; by rewrite (ev_roots _ _ Hev1)). assert (alive g1 x1 <-> alive g x) as Hal by (unfold alive, bit, ow, cw; by rewrite Em1, (ev_white _ _ Hev1)).
    case_decide as Hd.
    + destruct (root_keep R UD SC OP1 T U1 g1 K a rest x1 Hsw1 Hi1 Ho1 Esp1 HK1 HO1 Ea1 (proj2 Hal Hd)) as (g2 & -> & Hp2 & Hs2). cbn [bind]. exists (K ++ [a]), rest, g2. rewrite at_pos_snoc. split; [done|]. split; [by eapply Hglue|]. rewrite length_app. cbn. lia.
    + rewrite <- (sweep_out_next (at_pos AtRoot K) a x1 x g1 En1).
      destruct (root_drop_thread R UD SC OP1 T U1 g1 K a rest x1 t1 Hsw1) as (g2 & K' & rest' & -> & Epos & HKK & Hp2 & Hs2); try done; [unfold gcstate; by rewrite Ep1|by intros Ha%Hal|]. cbn [bind]. rewrite <- Epos.
      exists K', rest', g2. split; [done|]. split; [by eapply Hglue|]. lia.
  - rewrite (sweep_step_eq _ _ _ _ g a x g); [|done|done|done|done|apply Hsw|done|by unfold gch_tt; destruct (o_body x)]. pose proof (resting_refl R UD SC OP T U g Hi Ho) as Hr1.
    case_decide as Hd.
    + destruct (root_keep R UD SC OP T U g K a rest x Hsw Hi Ho Esp HK) as (g2 & -> & Hp2 & Hs2); [|done..|].
      { intros p [Hp|Hp%list_elem_of_singleton]%elem_of_app; [by apply HO|]. subst p. rewrite (not_thread_open _ _ _ _ _ _ Hi (sw_ok _ Hsw) Ea Ht). apply all_clean_nil. }
      cbn [bind]. exists (K ++ [a]), rest, g2. rewrite at_pos_snoc. split; [done|]. split; [by eapply Hglue|]. rewrite length_app. cbn. lia.
    + destruct (root_drop_thing R UD SC OP T U g K a rest x Hsw Hi Ho Esp HK HO Ea Hd Ht) as (g2 & -> & Hp2 & Hs2). cbn [bind]. exists K, rest, g2. split; [done|]. split; [by eapply Hglue|]. lia.
Qed.

Lemma root_sweep SC T g0 K rest count g :
  sweeping g0 -> gcstate g0 <> GCSpropagate -> Z.of_nat (size (heap g0)) <= MAX_LUMEM -> root_part SC T g0 K rest g ->
  exists K' rest' g', sweeplist SWEEPDEPTH (at_pos AtRoot K) count g = Ok (at_pos AtRoot K', g') /\ root_part SC T g0 K' rest' g' /\
    (rest' = [] \/ (size (heap g') + length K + Z.to_nat count <= size (heap g) + length K')%nat).
Proof.
  intros Hsw0 Hst0 Hsm0 Hp. unfold SWEEPDEPTH. set (d := 1%nat). cbn [sweeplist]. unfold d.
  assert (otherwhite g = otherwhite g0) as -> by (destruct Hp as (R & UD & OP & U & _ & Hr & _); by eapply resting_deadmask).
  destruct (sweep_loop (root_part SC T g0) (fun th g => '(_, g) <- sweeplist 1 (AtOpen th) MAX_LUMEM g; Ok g) (otherwhite g0) AtRoot) with (n := (2 + size (heap g))%nat) (K := K) (rest := rest) (count := count) (g := g) as (K' & rest' & g' & E & HL & Hend).
  - intros K1 rest1 g1 (R & UD & OP & U & Esp & [Hi Ho _ _ _] & _). rewrite <- length_app, <- Esp. apply nodup_size.
    + pose proof (od_nodup _ _ _ _ Ho) as Hnd. rewrite app_comm_cons, app_assoc in Hnd. by apply NoDup_app in Hnd as (? & _).
    + intros p (K2 & K3 & E)%list_elem_of_split. destruct (root_homes _ _ _ _ _ _ _ Ho E) as (x & Ex & _). by exists x.
  - intros K1 rest1 g1 (R & UD & OP & U & Esp & [Hi Ho _ _ _] & _). pose proof (od_root _ _ _ _ Ho) as Hl. rewrite Esp in Hl. split.
    + by apply (pos_get_at g1 _ (rootgc g1) K1 rest1).
    + apply linked_nonzero in Hl. intros Hin. apply Hl, elem_of_app. by right.
  - intros K1 a rest1 c g1 HL Hc. by apply (root_part_step SC T g0 K1 a rest1).
  - exact Hp.
  - lia.
  - exists K', rest', g'. split; [exact E|]. split; [done|]. destruct Hend as [?|[_ ?]]; [by left|by right].
Qed.
End Sweep.
