(* ===== verification/LuaCycle.v ===== *)
(** The end of a sweep in the collector of Lua: the string table becomes
    smaller when few strings are left.  The strings move to new chains, and all
    objects stay.

    The cycle of the collector of Lua: what holds in each of its states, and
    that a step leads from one to the next. *)
From stdpp Require Import base gmap list.
From Stdlib Require Import ZArith Lia.
From S2P Require Import Prelude LuaNumber LuaTable LuaString LuaStringSpec LuaHeap LuaMark LuaGc LuaMarkWf LuaMarkSpec LuaTraverse LuaOwn LuaFinalize LuaAtomic LuaUnlink LuaClose LuaSweep.
Open Scope Z_scope.


Section Sizes.
Context {N : Type} `{LuaNumber N}.
Implicit Types (g : gstate N) (h : gmap Z (GCObject N)) (x y : GCObject N) (v : TValue N) (L U T R UD K : list Z) (SC : list (list Z)) (OP : Z -> list Z).

(** The strings have other links; other objects are as they were. *)
Lemma inner_rechain g g' SC SC' OP U :
  inner g SC OP U -> heap_eqv (heap g) (heap g') -> (forall p x, heap g !! p = Some x -> home (o_body x) <> HString -> heap g' !! p = Some x) ->
  Z.of_nat (length (st_hash (strt g'))) = st_size (strt g') -> pow2 (st_size (strt g')) -> Forall2 (linked o_next (heap g')) (st_hash (strt g')) SC' -> concat SC' ≡ₚ concat SC ->
  ol_uvnext (owners g') = ol_uvnext (owners g) -> ol_uvprev (owners g') = ol_uvprev (owners g) -> roots g' = roots g -> inner g' SC' OP U.
Proof.
  intros [[O1 O1'] (xm & tm & Em & Ebm) _ O5 O7 (N1 & N2 & N3) O9 O10 O13 O14] Hs Hsame Hlen Hpow Hf2 Hperm Hn Hp Hr. assert (main g' = main g) as Emain by (unfold main; by rewrite Hr).
  split; rewrite ?Emain, ?Hn, ?Hp; try done.
  - split; [specialize (Hs 0); rewrite O1 in Hs|specialize (Hs UVHEAD); rewrite O1' in Hs]; by inversion Hs.
  - exists xm, tm. split; [|done]. apply Hsame; [done|by rewrite Ebm].
  - intros p y t Ey Et. destruct (heap_eqv_r _ _ _ _ Hs Ey) as (x & Ex & _ & _ & Eb). eapply linked_ext; [|eapply O5; [exact Ex|congruence]].
    intros a z Ha Ez. exists z. split; [|done]. apply Hsame; [done|]. apply O10 in Ha as (z' & Ez' & Hz). rewrite Ez in Ez'. injection Ez' as <-. by rewrite Hz.
  - eapply uvring_ext; [|exact O7]. intros a x _ Ex Hop. exists x. split; [|done]. apply Hsame; [done|]. by destruct (o_body x) as [| |[]| | | | |].
  - split_and!; [by rewrite Hperm|done|done].
  - intros p. rewrite Hperm, O9. by apply homed_eqv.
  - intros th p. rewrite O10. by apply homed_eqv.
  - intros p. rewrite O13. split; intros (x & Ex & Eo).
    + destruct (heap_eqv_l _ _ _ _ Hs Ex) as (y & Ey & _ & _ & Eb). exists y. by rewrite Eb.
    + destruct (heap_eqv_r _ _ _ _ Hs Ex) as (y & Ey & _ & _ & Eb). exists y. by rewrite <- Eb.
  - intros p y Ey. destruct (heap_eqv_r _ _ _ _ Hs Ey) as (x & Ex & Em' & _ & Eb). unfold bit. rewrite Em', Eb. by apply O14.
Qed.

(** The links of the main list and of the ring of userdata stay. *)
Lemma outer_eqv g g' R UD T :
  outer g R UD T -> heap_eqv (heap g) (heap g') -> rootgc g' = rootgc g -> tmudata g' = tmudata g -> roots g' = roots g ->
  (forall p x, heap g !! p = Some x -> home (o_body x) = HRoot \/ home (o_body x) = HUdata -> exists y, heap g' !! p = Some y /\ o_next y = o_next x) -> outer g' R UD T.
Proof.
  intros [O1 O2 O3 O4 O5] Hs Eg Et Er Hnx. assert (main g' = main g) as Emain by (unfold main; by rewrite Er).
  assert (forall p x, p ∈ R ++ main g :: UD ++ T -> heap g !! p = Some x -> exists y, heap g' !! p = Some y /\ o_next y = o_next x) as Hin.
  { intros p x Hp Ex. apply Hnx; [done|]. assert (p ∈ R ++ [main g] \/ p ∈ UD ++ T) as [Hp'|Hp'] by (rewrite !elem_of_app, !elem_of_cons in *; rewrite ?elem_of_app in *; naive_solver).
    - apply O4 in Hp' as (z & Ez & Hz). left. congruence.
    - apply O5 in Hp' as (z & Ez & Hz). right. congruence. }
  split; rewrite ?Emain, ?Eg; try done.
  - eapply linked_ext; [|exact O1]. intros a x Ha. apply Hin. rewrite elem_of_app, elem_of_cons in *. rewrite elem_of_app. tauto.
  - eapply tmring_ext; [exact Et| |exact O2]. intros a x Ha. apply Hin. rewrite elem_of_app, elem_of_cons, elem_of_app. tauto.
  - intros p. rewrite O4. by apply homed_eqv.
  - intros p. rewrite O5. by apply homed_eqv.
Qed.

(** * The string table as lstring.c sees it *)

Lemma strs_lookup g p ts : strs (string_table g) !! p = Some ts <-> exists x ha s, heap g !! p = Some x /\ o_body x = TSTRING ha s /\ ts = mkTString (o_next x) ha (o_marked x) s.
Proof.
  cbn. rewrite lookup_omap. destruct (heap g !! p) as [x|]; cbn; [|split; [done|by intros (? & ? & ? & ? & _)]]. unfold as_string. destruct (o_body x) eqn:Eb; (split; [intros [= <-]; eauto 10|intros (y & ha & s & [= <-] & E & ->); congruence]).
Qed.
Lemma string_chain g p L : (forall a, a ∈ L -> homed (heap g) HString a) -> linked o_next (heap g) p L -> chain (strs (string_table g)) p L.
Proof.
  revert p. induction L as [|a L IH]; intros p HL; [done|]. intros (-> & Ha & x & Ex & Hl). split; [done|]. split; [done|]. destruct (HL a) as (x' & Ex' & Hh); [by left|]. rewrite Ex in Ex'. injection Ex' as <-.
  destruct (o_body x) as [ha s| |[]| | | | |] eqn:Eb; try done. exists (mkTString (o_next x) ha (o_marked x) s). split; [apply strs_lookup; eauto 10|]. apply IH; [|done]. intros b Hb. apply HL. by right.
Qed.

Definition relinked (t : global_State) g p x : GCObject N := match strs t !! p with Some ts => with_next (ts_next ts) x | None => x end.
Lemma with_string_table_lookup t g p : heap (with_string_table t g) !! p = relinked t g p <$> heap g !! p.
Proof. cbn. rewrite map_lookup_imap. by destruct (heap g !! p). Qed.
Lemma relinked_chain t g p L : same_data (strs (string_table g)) (strs t) -> chain (strs t) p L -> linked o_next (heap (with_string_table t g)) p L.
Proof.
  intros Hs. revert p. induction L as [|a L IH]; intros p; [done|]. intros (-> & Ha & ts & Et & Hc). split; [done|]. split; [done|].
  destruct (same_data_get _ _ _ _ (same_data_sym _ _ Hs) Et) as (ts0 & Et0 & _). apply strs_lookup in Et0 as (x & ha & s & Ex & Eb & _).
  exists (with_next (ts_next ts) x). split; [rewrite with_string_table_lookup, Ex; cbn; unfold relinked; by rewrite Et|]. by apply IH.
Qed.

Lemma resize_strings_post n R UD SC OP T U g : inner g SC OP U -> outer g R UD T -> gcstate g <> GCSsweepstring -> pow2 n ->
  exists g' SC', resize_strings n g = Ok g' /\ inner g' SC' OP U /\ outer g' R UD T /\ heap_eqv (heap g) (heap g') /\ concat SC' ≡ₚ concat SC /\ lists g' = lists g /\ phase g' = phase g /\ roots g' = roots g.
Proof.
  intros Hi Ho Hst Hp. unfold resize_strings. rewrite (proj2 (Z.eqb_neq _ _)) by done. unfold luaS_resize. change (sweepstring (string_table g)) with (gcstate g =? GCSsweepstring). rewrite (proj2 (Z.eqb_neq _ _)) by done. cbv zeta.
  pose proof (od_strt _ _ _ _ Hi) as (Hlen & Hf2 & _). pose proof (od_nodups _ _ _ _ Hi) as (Hnd & _). assert (0 <= n) as Hn0 by (destruct Hp as (k & ? & ->); apply Z.pow_nonneg; lia).
  assert (concat (replicate (Z.to_nat n) ([] : list Z)) = []) as Hnil by (clear; induction (Z.to_nat n) as [|k IH]; [done|exact IH]). pose proof (Forall2_length _ _ _ Hf2) as HlC.
  destruct (resize_loop (strt g) n 0 SC (2 + Z.to_nat (st_size (strt g))) (strs (string_table g)) (replicate (Z.to_nat n) 0) (replicate (Z.to_nat n) [])) as (m' & h' & C' & El & Ht' & Hh' & Hperm & _ & Hs').
  - done.
  - done.
  - lia.
  - rewrite drop_0. eapply Forall2_within; [exact Hf2|]. intros p L Hin. apply string_chain. intros a Ha. apply (od_homes_string _ _ _ _ Hi), list_elem_of_In, in_concat. exists L. split; by apply list_elem_of_In.
  - clear. induction (Z.to_nat n); by constructor.
  - rewrite length_replicate. lia.
  - by rewrite Hnil, app_nil_r.
  - intros i l a Hl Ha. apply lookup_replicate in Hl as [-> _]. by apply not_elem_of_nil in Ha.
  - lia.
  - change (LuaString.strt (string_table g)) with (strt g). change (Z.of_nat 0) with 0 in El. rewrite El. cbn [bind]. rewrite Hnil, app_nil_r in Hperm.
    set (t := mkGlobal m' _ _ _). assert (heap_eqv (heap g) (heap (with_string_table t g))) as Hs.
    { intros p. rewrite with_string_table_lookup. destruct (heap g !! p) as [x|]; constructor. unfold relinked. by destruct (strs t !! p). }
    assert (forall p x, heap g !! p = Some x -> home (o_body x) <> HString -> heap (with_string_table t g) !! p = Some x) as Hsame.
    { intros p x Ex Hh. rewrite with_string_table_lookup, Ex. cbn. unfold relinked. destruct (strs t !! p) as [ts|] eqn:Et; [|done]. destruct (same_data_get _ _ _ _ (same_data_sym _ _ Hs') Et) as (ts0 & Et0 & _).
      apply strs_lookup in Et0 as (x' & ha & s & Ex' & Eb & _). rewrite Ex in Ex'. injection Ex' as <-. by rewrite Eb in Hh. }
    eexists _, C'. split; [done|]. split_and!; try done.
    + eapply (inner_rechain g); [exact Hi|exact Hs|exact Hsame|done|done| |done|done|done|done]. eapply Forall2_impl; [exact Ht'|]. intros p L. by apply (relinked_chain t).
    + apply (outer_eqv g); [done|exact Hs|done|done|done|]. intros p x Ex Hh. exists x. split; [|done]. apply Hsame; [done|]. destruct Hh; congruence.
Qed.

(** ** checkSizes *)

Lemma checkSizes_post R UD SC OP T U g : inner g SC OP U -> outer g R UD T -> gcstate g <> GCSsweepstring ->
  exists g' SC', checkSizes g = Ok g' /\ inner g' SC' OP U /\ outer g' R UD T /\ heap_eqv (heap g) (heap g') /\ concat SC' ≡ₚ concat SC /\ lists g' = lists g /\ phase g' = phase g /\ roots g' = roots g.
Proof.
  intros Hi Ho Hst. unfold checkSizes. assert (forall g1 SC1, inner g1 SC1 OP U -> outer g1 R UD T -> heap_eqv (heap g) (heap g1) -> concat SC1 ≡ₚ concat SC -> lists g1 = lists g -> phase g1 = phase g -> roots g1 = roots g ->
    exists g' SC', Ok (if LUA_MINBUFFER * 2 <? ac_buffsize (accounts g1) then set_buffsize (ac_buffsize (accounts g1) / 2) (account (ac_buffsize (accounts g1)) (ac_buffsize (accounts g1) / 2) g1) else g1) = Ok g' /\
      inner g' SC' OP U /\ outer g' R UD T /\ heap_eqv (heap g) (heap g') /\ concat SC' ≡ₚ concat SC /\ lists g' = lists g /\ phase g' = phase g /\ roots g' = roots g) as Hend.
  { intros g1 SC1 Hi1 Ho1 Hs1 Hp1 El1 Ep1 Er1. eexists _, SC1. split; [done|]. destruct (_ <? _); split_and!; try done; [by eapply (inner_same g1)|by eapply (outer_same g1)]. }
  destruct ((st_nuse (strt g) <? st_size (strt g) / 4) && (MINSTRTABSIZE * 2 <? st_size (strt g))) eqn:E.
  - apply andb_prop in E as [_ E%Z.ltb_lt]. pose proof (od_strt _ _ _ _ Hi) as (_ & _ & k & Hk & Ek). unfold MINSTRTABSIZE in E. assert (1 <= k) as Hk1 by (destruct (decide (k = 0)) as [->|]; [rewrite Ek in E; cbn in E; lia|lia]).
    assert (pow2 (st_size (strt g) / 2)) as Hp2. { exists (k - 1). split; [lia|]. rewrite Ek. replace k with (Z.succ (k - 1)) at 1 by lia. rewrite Z.pow_succ_r by lia. rewrite Z.mul_comm. by apply Z.div_mul. }
    destruct (resize_strings_post _ R UD SC OP T U g Hi Ho Hst Hp2) as (g1 & SC1 & -> & Hi1 & Ho1 & Hs1 & Hpm & El & Ep & Er). cbn [bind]. by apply (Hend g1 SC1).
  - cbn [bind]. apply (Hend g SC); try done. apply heap_eqv_refl.
Qed.
End Sizes.

Section Cycle.
Context {N : Type} `{LuaNumber N}.
Implicit Types (g : gstate N) (h : gmap Z (GCObject N)) (x y : GCObject N) (v : TValue N) (L U T R UD K G GA W : list Z) (SC : list (list Z)) (OP : Z -> list Z).

(** * Between the cycles *)

Definition grounded g : Prop := value_ok (l_registry (roots g)) /\ names_ok g.
(** The userdata that wait for their finalizers are live. *)
Definition kept_udata g T : Prop := forall p, p ∈ T -> exists x, heap g !! p = Some x /\ live g x /\ black_ok x.
Record rested R UD SC OP T U g : Prop := {
  re_sweeping : sweeping g;
  re_inner : inner g SC OP U;
  re_outer : outer g R UD T;
  re_clean p x : heap g !! p = Some x -> p ∉ T -> clean g x;
  re_udata : kept_udata g T;
  re_grounded : grounded g
}.

Lemma grounded_roots g g' : roots g' = roots g -> grounded g -> grounded g'.
Proof. intros E. unfold grounded, names_ok. by rewrite E. Qed.
Lemma rested_live R UD SC OP T U g p x : rested R UD SC OP T U g -> heap g !! p = Some x -> live g x /\ black_ok x.
Proof.
  intros Hre Ex. destruct (decide (p ∈ T)) as [Hp|Hp].
  - destruct (re_udata _ _ _ _ _ _ _ Hre p Hp) as (y & Ey & ? & ?). rewrite Ex in Ey. by injection Ey as <-.
  - pose proof (re_clean _ _ _ _ _ _ _ Hre p x Ex Hp). split; [by eapply clean_live|by eapply clean_black_ok].
Qed.
Lemma clean_white_colour g x : clean g x -> iswhite x = true /\ isblack x = false /\ isgray x = false.
Proof.
  intros (Hc & _ & Hb). assert (iswhite x = true) as Hw by (rewrite iswhite_bits; unfold bit in Hc; destruct (cw_range g) as [[E _]|[E _]]; rewrite E in Hc; rewrite Hc; by rewrite ?orb_true_r).
  split_and!; [done|done|]. unfold isgray. by rewrite Hb, Hw.
Qed.
(** With empty lists, the mark phase can begin. *)
Lemma rested_marking R UD SC OP T U g : rested R UD SC OP T U g -> marking (fun p => p ∈ T) (fun _ => True) False (set_lists (mkLists 0 0 0) g) [] [] [].
Proof.
  intros Hre. pose proof (re_sweeping _ _ _ _ _ _ _ Hre) as Hsw. split; try done.
  - apply (sw_white _ Hsw).
  - apply (sw_null _ Hsw).
  - apply (sw_ok _ Hsw).
  - intros p x c t Ex Hr. destruct (rested_live _ _ _ _ _ _ _ _ _ Hre Ex) as [Hl _]. destruct (sw_live _ Hsw p x c t Ex Hl Hr) as (y & Ey & Et & _). by exists y.
  - intros p x Ex. apply (rested_live _ _ _ _ _ _ _ _ _ Hre Ex).
  - apply NoDup_nil_2.
  - intros p Hp. by apply not_elem_of_nil in Hp.
  - intros p x Ex HT. destruct (clean_white_colour g x (re_clean _ _ _ _ _ _ _ Hre p x Ex HT)) as (Hw & Hb & Hg). split; congruence.
  - intros p x _ Hp. by apply not_elem_of_nil in Hp.
Qed.
Lemma sweeping_roots_ok g : sweeping g -> grounded g -> roots_ok g.
Proof. intros Hsw [Hv Hn]. split_and!; [done| |done]. intros c t Hc. destruct (sw_roots _ Hsw c t Hc) as (y & Ey & Et & _). by exists y. Qed.

Lemma marking_state s E D A g G GA W : marking E D A g G GA W -> marking E D A (set_gcstate s g) G GA W.
Proof. intros []. by split. Qed.
Lemma inner_state s g SC OP U : inner g SC OP U -> inner (set_gcstate s g) SC OP U.
Proof. intros []. by split. Qed.
Lemma outer_state s g R UD T : outer g R UD T -> outer (set_gcstate s g) R UD T.
Proof. intros []. by split. Qed.

Lemma markroot_post R UD SC OP T U g : rested R UD SC OP T U g ->
  exists g' G', markroot g = Ok g' /\ propagating R UD SC OP T U g' G' [] [] /\ gcstate g' = GCSpropagate /\ currentwhite g' = currentwhite g /\ roots g' = roots g /\ dom (heap g') = dom (heap g) /\ forall p x, heap g !! p = Some x -> exists y, heap g' !! p = Some y /\ gch_tt y = gch_tt x.
Proof.
  intros Hre. pose proof (rested_marking _ _ _ _ _ _ _ Hre) as M0. pose proof (sweeping_roots_ok g (re_sweeping _ _ _ _ _ _ _ Hre) (re_grounded _ _ _ _ _ _ _ Hre)) as Hr0.
  pose proof (re_inner _ _ _ _ _ _ _ Hre) as Hi. pose proof (re_outer _ _ _ _ _ _ _ Hre) as Ho. destruct (od_main _ _ _ _ Hi) as (xm & tm & Em & Ebm).
  unfold markroot. cbv zeta. set (g0 := set_lists (mkLists 0 0 0) g) in *. change (mainthread (roots g0)) with (main g). assert (carried g g0) as Hc0 by (split; try done; intros p x Ex; by exists x).
  destruct (markobject_post _ _ _ _ _ _ _ (main g) M0) as (g1 & G1 & -> & M1 & Hm1 & _ & _ & P1); [by exists xm|]. cbn [bind].
  destruct (heap_sim_l _ _ _ _ (md_sim _ _ Hm1) Em) as (y & Ey & _ & Hb). rewrite Ebm in Hb. assert (exists t' : lua_State N, o_body y = TTHREAD t') as [t' Eby] by (inversion Hb; subst; eauto).
  change (mainthread (roots g1)) with (main g1). assert (main g1 = main g) as Em1 by (unfold main; by rewrite (md_roots _ _ Hm1)). rewrite Em1, (thread_at_ok _ _ _ _ Ey Eby). cbn [bind].
  pose proof (mk_ok _ _ _ _ _ _ _ M1 _ _ Ey) as Hok. rewrite Eby in Hok. pose proof (obj_refs_typed _ _ _ _ _ _ _ _ _ M1 Ey) as Ht. rewrite Eby in Ht. apply typed_app in Ht as [Ht _].
  destruct (markvalue_post _ _ _ _ _ _ _ (l_gt t') M1 (proj1 Hok) Ht) as (g2 & G2 & -> & M2 & Hm2 & _). cbn [bind].
  pose proof (marked_trans _ _ _ Hm1 Hm2) as Hm02. pose proof (roots_carried _ _ (carried_trans _ _ _ Hc0 (marked_carried _ _ Hm02)) Hr0) as (Hv2 & Ht2 & _).
  destruct (markvalue_post _ _ _ _ _ _ _ (l_registry (roots g2)) M2 Hv2) as (g3 & G3 & -> & M3 & Hm3 & _ & _ & P3).
  { unfold root_refs in Ht2. apply typed_cons in Ht2 as [_ Ht2]. apply typed_cons in Ht2 as [_ Ht2]. by apply typed_app in Ht2 as [? _]. }
  cbn [bind]. pose proof (roots_carried _ _ (carried_trans _ _ _ Hc0 (marked_carried _ _ (marked_trans _ _ _ Hm02 Hm3))) Hr0) as Hr3.
  destruct (markmt_post _ _ _ _ _ _ _ M3 Hr3) as (g4 & G4 & -> & M4 & Hm4 & _). cbn [bind]. pose proof (marked_trans _ _ _ Hm02 (marked_trans _ _ _ Hm3 Hm4)) as Hm. pose proof (carried_trans _ _ _ Hc0 (marked_carried _ _ Hm)) as Hc.
  exists (set_gcstate GCSpropagate g4), G4. split; [done|]. split_and!; [|done|change (ph_currentwhite (phase g4) = currentwhite g); by rewrite (cr_phase _ _ Hc)|apply (cr_roots _ _ Hc)|apply (cr_dom _ _ Hc)|intros p x Ex; destruct (cr_tt _ _ Hc p x Ex) as (y' & Ey' & Et' & _); by exists y'].
  split.
  - by apply marking_state.
  - apply outer_state. eapply outer_marked; [exact Hm|]. by eapply (outer_same g).
  - apply inner_state. eapply inner_marked; [exact Hm|]. by eapply (inner_same g).
  - destruct (roots_carried _ _ Hc Hr0) as (? & ? & ?). by split.
  - change (main (set_gcstate GCSpropagate g4)) with (main g4). assert (main g4 = main g) as -> by (unfold main; by rewrite (cr_roots _ _ Hc)). cbn [heap set_gcstate set_phase roots]. split.
    + by apply (md_mono _ _ Hm4), (md_mono _ _ Hm3), (md_mono _ _ Hm2).
    + rewrite (cr_roots _ _ Hc). rewrite (md_roots _ _ Hm02) in P3. change (roots g0) with (roots g) in P3. exact (all_marked_mono g3 g4 _ Hm4 P3).
Qed.

(** * The mark phase *)

Lemma propagate_step_post R UD SC OP T U g o G GA W : propagating R UD SC OP T U g (o :: G) GA W ->
  exists k g' G' GA' W', propagatemark g = Ok (k, g') /\ propagating R UD SC OP T U g' G' GA' W' /\ marked g g' /\ (whites (heap g') + length G' <= whites (heap g) + length G)%nat.
Proof.
  intros [M Ho Hi Hr [Hn Ha]]. destruct (propagatemark_post _ _ _ _ _ _ _ _ M (proj2 (proj2 Hr))) as (k & g' & -> & G' & GA' & W' & M' & Hm & Hw & _).
  exists k, g', G', (GA' ++ GA), (W' ++ W). split; [done|]. split_and!; [|done|done]. split; [done|by eapply outer_marked|by eapply inner_marked|by eapply roots_carried; [apply marked_carried|]|].
  unfold main. rewrite (md_roots _ _ Hm). split; [by apply (md_mono _ _ Hm)|by eapply all_marked_mono].
Qed.

(** * Sweeping *)

Lemma evolved_same g g' : heap g' = heap g -> roots g' = roots g -> currentwhite g' = currentwhite g -> evolved g g'.
Proof.
  intros Eh Er Ew. split; [done|done| | |by rewrite Eh].
  - rewrite Eh. intros p y Ey. exists y. split_and!; auto.
  - rewrite Eh. intros p x Ex Hl. by exists x.
Qed.
Lemma kept_udata_evolved g g' T : evolved g g' -> kept_udata g T -> kept_udata g' T.
Proof.
  intros Hev Hk p Hp. destruct (Hk p Hp) as (x & Ex & Hl & Hb). destruct (ev_forth _ _ Hev p x Ex Hl) as (y & Ey & _ & Hy). exists y. split_and!; [done|by apply (live_white g g'), Hy; apply (ev_white _ _ Hev)|].
  destruct (ev_back _ _ Hev p y Ey) as (x' & Ex' & _ & _ & _ & HB & _). rewrite Ex in Ex'. injection Ex' as <-. auto.
Qed.
Lemma root_part_start SC T g R UD OP U : inner g SC OP U -> outer g R UD T -> root_part SC T g [] (R ++ main g :: UD) g.
Proof. intros Hi Ho. exists R, UD, OP, U. split_and!; [done|by apply resting_refl|apply all_clean_nil|]. intros p Hp. by apply not_elem_of_nil in Hp. Qed.
(** A part that has been swept can be taken as the start. *)
Lemma root_part_rebase SC T g0 K rest g g' : root_part SC T g0 K rest g -> heap g' = heap g -> owners g' = owners g -> roots g' = roots g -> currentwhite g' = currentwhite g -> root_part SC T g' K rest g'.
Proof.
  intros (R & UD & OP & U & Esp & [Hi Ho _ _ _] & HK & HO) Eh Eo Er Ew. pose proof (evolved_same g g' Eh Er Ew) as Hev. exists R, UD, OP, U. split_and!.
  - unfold main in *. by rewrite Er.
  - apply resting_refl; [by eapply (inner_same g)|by eapply (outer_same g)].
  - by eapply all_clean_evolved.
  - intros p Hp. eapply all_clean_evolved; [done|by apply HO].
Qed.

Definition small g : Prop := Z.of_nat (size (heap g)) <= MAX_LUMEM.
Lemma small_evolved g g' : evolved g g' -> small g -> small g'.
Proof. intros Hev. pose proof (evolved_small _ _ Hev). unfold small. lia. Qed.

(** The chains below the counter have been swept. *)
Record sweeping_strings R UD SC OP T U g : Prop := {
  ss_sweeping : sweeping g;
  ss_inner : inner g SC OP U;
  ss_outer : outer g R UD T;
  ss_udata : kept_udata g T;
  ss_grounded : grounded g;
  ss_pos : 0 <= ph_sweepstrgc (phase g) < st_size (strt g);
  ss_clean i L : Z.of_nat i < ph_sweepstrgc (phase g) -> SC !! i = Some L -> all_clean g L;
  ss_sweepgc : ph_sweepgc (phase g) = AtRoot
}.
(** The strings have been swept, and the objects [K] of the main list. *)
Record sweeping_root SC T K rest g : Prop := {
  sx_sweeping : sweeping g;
  sx_udata : kept_udata g T;
  sx_grounded : grounded g;
  sx_strings : all_clean g (concat SC);
  sx_pos : ph_sweepgc (phase g) = at_pos AtRoot K;
  sx_part : root_part SC T g K rest g
}.

Lemma strt_size g SC OP U : inner g SC OP U -> st_size (strt g) = Z.of_nat (length SC).
Proof. intros Hi. pose proof (od_strt _ _ _ _ Hi) as (Hl & Hf & _). by rewrite <- Hl, (Forall2_length _ _ _ Hf). Qed.

Lemma string_phase_step R UD SC OP T U g : sweeping_strings R UD SC OP T U g -> small g ->
  exists SC' g', sweepwholelist (AtHash (ph_sweepstrgc (phase g))) (set_sweepstrgc (ph_sweepstrgc (phase g) + 1) g) = Ok g' /\ evolved g g' /\ inner g' SC' OP U /\ outer g' R UD T /\ lists g' = lists g /\
    phase g' = phase (set_sweepstrgc (ph_sweepstrgc (phase g) + 1) g) /\ st_size (strt g') = st_size (strt g) /\ forall i L, Z.of_nat i < ph_sweepstrgc (phase g) + 1 -> SC' !! i = Some L -> all_clean g' L.
Proof.
  intros [Hsw Hi Ho Hk Han [H0 Hlt] Hcl Hpos] Hsm. set (i := ph_sweepstrgc (phase g)) in *. set (g0 := set_sweepstrgc (i + 1) g). pose proof (evolved_same g g0 eq_refl eq_refl eq_refl) as Hev0.
  assert (inner g0 SC OP U) as Hi0 by (by eapply (inner_same g)). assert (outer g0 R UD T) as Ho0 by (by eapply (outer_same g)). pose proof (strt_size _ _ _ _ Hi) as Esz.
  destruct (lookup_lt_is_Some_2 SC (Z.to_nat i)) as [L EL]; [lia|]. destruct (string_sweep R UD SC OP T U g0 (Z.to_nat i) L 1 MAX_LUMEM (sweeping_evolved _ _ Hsw Hev0) Hi0 Ho0 EL) as (K & rest & g' & E & [Hr HK] & Hend).
  destruct Hend as [->|Hend]; [|unfold small in Hsm; change (heap g0) with (heap g) in Hend; lia]. rewrite Z2Nat.id in E by lia. rewrite app_nil_r in Hr. destruct Hr as [Hi' Ho' Hev El Ep].
  exists (<[Z.to_nat i := K]> SC), g'. unfold sweepwholelist, SWEEPDEPTH. rewrite E. cbn [bind]. split; [done|]. split_and!; try done.
  - by eapply evolved_trans.
  - rewrite Esz, (strt_size _ _ _ _ Hi'). by rewrite length_insert.
  - intros j L' Hj EL'. destruct (decide (j = Z.to_nat i)) as [->|Hne]; [rewrite list_lookup_insert_eq in EL' by lia; by injection EL' as <-|]. rewrite list_lookup_insert_ne in EL' by done.
    eapply all_clean_evolved; [exact (evolved_trans _ _ _ Hev0 Hev)|]. apply (Hcl j); [lia|done].
Qed.

(** The whole list has been swept. *)
Lemma all_swept SC T g g1 K : sweeping g -> grounded g -> kept_udata g T -> all_clean g (concat SC) -> root_part SC T g1 K [] g -> exists R UD OP U, rested R UD SC OP T U g /\ R ++ main g :: UD = K.
Proof.
  intros Hsw Han Hk Hs (R & UD & OP & U & Esp & [Hi Ho _ _ _] & HK & HO). rewrite app_nil_r in Esp. exists R, UD, OP, U. split; [|done]. split; try done.
  assert (forall p, p ∈ R ++ [main g] \/ p ∈ UD -> p ∈ K) as HinK by (intros p Hp; rewrite <- Esp, elem_of_app, elem_of_cons; rewrite elem_of_app, list_elem_of_singleton in Hp; tauto).
  intros p x Ex HpT. assert (forall L, all_clean g L -> p ∈ L -> clean g x) as Hin by (intros L HL Hp; destruct (HL p Hp) as (y & Ey & ?); rewrite Ex in Ey; by injection Ey as <-).
  destruct (home (o_body x)) as [| | |th] eqn:Eh.
  - apply (Hin K HK), HinK. left. apply (od_homes_root _ _ _ _ Ho). by exists x.
  - apply (Hin _ Hs). apply (od_homes_string _ _ _ _ Hi). by exists x.
  - apply (Hin K HK), HinK. right. assert (p ∈ UD ++ T) as [?|?]%elem_of_app by (apply (od_homes_udata _ _ _ _ Ho); by exists x); done.
  - apply (Hin (OP th)); [|apply (od_homes_open _ _ _ _ Hi); by exists x]. apply HO, HinK. left. apply (od_homes_root _ _ _ _ Ho).
    pose proof (sw_ok _ Hsw p x Ex) as Hb. destruct (o_body x) as [| |[th' i pv nx|]| | | | |]; try done. injection Eh as ->. destruct Hb as (z & t & Ez & Et & _). exists z. by rewrite Et.
Qed.

Lemma root_phase_step SC T K rest g : sweeping_root SC T K rest g -> small g -> gcstate g = GCSsweep ->
  exists K' rest' g', sweeplist SWEEPDEPTH (ph_sweepgc (phase g)) GCSWEEPMAX g = Ok (at_pos AtRoot K', g') /\ root_part SC T g K' rest' g' /\ pos_get (at_pos AtRoot K') g' = Ok (hd 0 rest') /\ (0 ∉ rest') /\ evolved g g' /\
    lists g' = lists g /\ phase g' = phase g /\ (rest' = [] \/ (size (heap g') + length K < size (heap g) + length K')%nat).
Proof.
  intros [Hsw Hk Han Hs Hpos Hp] Hsm Hst. rewrite Hpos. destruct (root_sweep SC T g K rest GCSWEEPMAX g Hsw) as (K' & rest' & g' & E & Hp' & Hend); [by rewrite Hst|done|done|].
  exists K', rest', g'. pose proof Hp' as (R & UD & OP & U & Esp & [Hi Ho Hev El Ep] & _). pose proof (od_root _ _ _ _ Ho) as Hl. rewrite Esp in Hl. split; [done|]. split; [done|]. split_and!; try done.
  - by apply (pos_get_at g' _ (rootgc g') K' rest').
  - apply linked_nonzero in Hl. intros Hin. apply Hl, elem_of_app. by right.
  - destruct Hend as [?|?]; [by left|right]. unfold GCSWEEPMAX in *. lia.
Qed.
End Cycle.
