(* ===== verification/LuaCollect.v ===== *)
(** Finalizers in the collector of Lua: GCTM takes the first userdata out of
    the ring, puts it back after the main thread, and calls its method.

    Steps of the collector of Lua and a full collection: a step never fails and
    frees no object that can be reached, every cycle comes to its end, and a
    full collection leaves a heap in which all references are to objects. *)
From stdpp Require Import base gmap list.
From Stdlib Require Import ZArith Lia.
From S2P Require Import Prelude LuaNumber LuaTable LuaString LuaHeap LuaMark LuaGc LuaMarkWf LuaMarkSpec LuaTraverse LuaOwn LuaFinalize LuaAtomic LuaUnlink LuaClose LuaSweep LuaCycle.
Open Scope Z_scope.


Section Gctm.
Context {N : Type} `{LuaNumber N}.
Implicit Types (g : gstate N) (h : gmap Z (GCObject N)) (x y : GCObject N) (v : TValue N) (L U T R UD K G GA W : list Z) (SC : list (list Z)) (OP : Z -> list Z).

(** * Out of the ring *)

Lemma tmring_pop g (o : Z) T x : tmring g (o :: T) -> NoDup (o :: T) -> heap g !! o = Some x ->
  exists xl g1, heap g !! tmudata g = Some xl /\ o_next xl = o /\ tmudata g <> 0 /\ (if o =? tmudata g then Ok (set_tmudata 0 g) else upd_obj (tmudata g) (with_next (o_next x)) g) = Ok g1 /\ tmring g1 T /\
    heap_eqv (heap g) (heap g1) /\ (forall p, p ∉ T -> heap g1 !! p = heap g !! p) /\ lists g1 = lists g /\ phase g1 = phase g /\ roots g1 = roots g /\ rootgc g1 = rootgc g /\ strt g1 = strt g /\
    ol_uvnext (owners g1) = ol_uvnext (owners g) /\ ol_uvprev (owners g1) = ol_uvprev (owners g).
Proof.
  intros [[? _]|(Ht & T' & p & ET & Hp)] Hnd Ex; [done|]. pose proof Hp as Hp0. rewrite ET in Hp. apply path_app in Hp as (m & Hp1 & Em & xl & Exl & Exp). cbn in Exp. subst p m. destruct Hp0 as (Ho & x' & Ex' & Hp2). rewrite Ex in Ex'. injection Ex' as <-. exists xl.
  destruct T' as [|c T']; injection ET as Ec ET.
  - rewrite <- Ec, Z.eqb_refl. exists (set_tmudata 0 g). subst T. split_and!; try done; [congruence|congruence|by left|apply heap_eqv_refl].
  - subst c. assert (o <> tmudata g) as Hne by (intros E; apply NoDup_cons in Hnd as [Hnd _]; apply Hnd; rewrite ET, <- E; apply elem_of_app; right; by left). rewrite (proj2 (Z.eqb_neq _ _)) by done. rewrite (upd_obj_ok _ _ _ _ Exl).
    eexists. split_and!; try done.
    + right. split; [done|]. exists T', (o_next x). split; [exact ET|]. change (tmudata (set_heap _ g)) with (tmudata g). cbn [heap set_heap]. apply NoDup_cons in Hnd as [Hno Hnd]. rewrite ET in Hp2, Hnd |- *. apply NoDup_app in Hnd as (_ & Hd & _).
      apply path_app in Hp2 as (m & H1 & H2 & _). subst m. apply path_app. exists (tmudata g). split.
      * eapply path_ext; [|exact H1]. intros b y Hb Ey. exists y. split; [|done]. rewrite lookup_insert_ne; [done|]. intros Eb. subst b. apply (Hd _ Hb). by left.
      * split; [done|]. eexists. split; [apply lookup_insert_eq|done].
    + by apply heap_eqv_next.
    + intros q Hq. cbn. rewrite lookup_insert_ne; [done|]. intros Eq. subst q. apply Hq. rewrite ET. apply elem_of_app. right. by left.
Qed.

(** ** And after the main thread *)

Lemma relist_post R UD SC OP T U g (o : Z) x xm g1 :
  inner g SC OP U -> outer g R UD (o :: T) -> heap g !! o = Some x -> heap g !! main g = Some xm -> tmring g1 T -> heap_eqv (heap g) (heap g1) -> (forall p, p ∉ T -> heap g1 !! p = heap g !! p) -> roots g1 = roots g -> rootgc g1 = rootgc g -> strt g1 = strt g ->
  ol_uvnext (owners g1) = ol_uvnext (owners g) -> ol_uvprev (owners g1) = ol_uvprev (owners g) ->
  let g3 := set_heap (<[main g := with_next o xm]> (<[o := with_next (o_next xm) x]> (heap g1))) g1 in heap_eqv (heap g) (heap g3) /\ outer g3 R (o :: UD) T /\ inner g3 SC OP U.
Proof.
  intros Hi Ho Ex Em Ht1 Hs1 Hsame Er Erg Est En Ep g3. assert (main g3 = main g) as Emain by (unfold main; by rewrite <- Er). pose proof (od_nodup _ _ _ _ Ho) as Hnd.
  assert (R ++ main g :: UD ++ o :: T ≡ₚ o :: main g :: R ++ UD ++ T) as Hperm by (rewrite <- !Permutation_middle; apply Permutation_swap).
  rewrite Hperm in Hnd. pose proof Hnd as Hnd0. apply NoDup_cons in Hnd as [Hon Hnd]. apply NoDup_cons in Hnd as [Hmn Hnd]. rewrite not_elem_of_cons, !not_elem_of_app in Hon. rewrite !not_elem_of_app in Hmn. destruct Hon as (Hom & HoR & HoU & HoT), Hmn as (HmR & HmU & HmT).
  rewrite !NoDup_app in Hnd. destruct Hnd as (_ & HR & _ & HUD & _).
  assert (heap g1 !! o = Some x) as Ex1 by (by rewrite Hsame). assert (heap g1 !! main g = Some xm) as Em1 by (by rewrite Hsame).
  assert (heap_eqv (heap g1) (heap g3)) as Hs3. { eapply heap_eqv_trans; [apply (heap_eqv_next _ _ (o_next xm) _ Ex1)|]. cbn. apply heap_eqv_next. by rewrite lookup_insert_ne. }
  assert (forall p, p ∉ T -> p <> o -> p <> main g -> heap g3 !! p = heap g !! p) as Hsame3 by (intros p H1 H2 H3; cbn; rewrite !lookup_insert_ne by done; by apply Hsame).
  pose proof (heap_eqv_trans _ _ _ Hs1 Hs3) as Hs. assert (UD ++ o :: T ≡ₚ (o :: UD) ++ T) as Hp2 by (cbn; by rewrite <- Permutation_middle).
  split; [done|]. split.
  - split; rewrite ?Emain.
    + change (rootgc g3) with (rootgc g1). rewrite Erg. eapply linked_replace; [exact (od_root _ _ _ _ Ho)| |apply lookup_insert_eq|].
      * intros a z Ha Ez. exists z. split; [|done]. rewrite Hsame3; [done|..].
        -- intros HT. apply (HR a Ha), elem_of_app. by right.
        -- by intros ->.
        -- by intros ->.
      * cbn [o_next with_next]. split; [done|]. split; [intros ->; destruct (od_null _ _ _ _ Hi); congruence|]. exists (with_next (o_next xm) x). split; [cbn; rewrite lookup_insert_ne by done; by rewrite lookup_insert_eq|]. cbn [o_next with_next].
        pose proof (od_root _ _ _ _ Ho) as Hl. destruct (linked_at _ _ _ _ _ _ Hl) as (_ & xm' & Em' & Hl'). rewrite Em in Em'. injection Em' as <-. eapply linked_ext; [|exact Hl'].
        intros a z Ha Ez. exists z. split; [|done]. rewrite Hsame3; [done|..].
        -- intros HT. by apply (HUD a Ha).
        -- by intros ->.
        -- by intros ->.
    + eapply tmring_ext; [|..|exact Ht1]; [done|]. intros a z Ha Ez. exists z. cbn. rewrite !lookup_insert_ne; [done|intros E; subst a; done..].
    + assert (R ++ main g :: (o :: UD) ++ T ≡ₚ o :: main g :: R ++ UD ++ T) as -> by (cbn; rewrite <- !Permutation_middle; apply Permutation_swap). done.
    + intros p. rewrite (od_homes_root _ _ _ _ Ho). by apply homed_eqv.
    + intros p. rewrite <- Hp2, (od_homes_udata _ _ _ _ Ho). by apply homed_eqv.
  - eapply (inner_eqv g); [exact Hs|exact Est|exact En|exact Ep|exact Er| |exact Hi]. intros p y z Ey Ez H1 H2. rewrite Hsame3 in Ez; [congruence|..].
    + intros HT. destruct (proj1 (od_homes_udata _ _ _ _ Ho p)) as (w & Ew & Hw); [rewrite elem_of_app, elem_of_cons; tauto|]. congruence.
    + intros ->. destruct (proj1 (od_homes_udata _ _ _ _ Ho o)) as (w & Ew & Hw); [rewrite elem_of_app, elem_of_cons; tauto|]. congruence.
    + intros ->. destruct (proj1 (od_homes_root _ _ _ _ Ho (main g))) as (w & Ew & Hw); [rewrite elem_of_app, list_elem_of_singleton; tauto|]. congruence.
Qed.

Lemma rested_evolved R UD SC OP T U R' UD' SC' OP' T' U' g g' : rested R UD SC OP T U g -> evolved g g' -> inner g' SC' OP' U' -> outer g' R' UD' T' -> (forall p, p ∈ T' -> p ∈ T) ->
  (forall p y, heap g' !! p = Some y -> p ∉ T' -> clean g y) -> rested R' UD' SC' OP' T' U' g'.
Proof.
  intros Hre Hev Hi Ho HT Hcl. split; try done.
  - eapply sweeping_evolved; [apply (re_sweeping _ _ _ _ _ _ _ Hre)|done].
  - intros p y Ey Hp. apply (clean_white g g'); [by apply ev_white|by eapply Hcl].
  - intros p Hp. eapply (kept_udata_evolved g g' T); [done|apply (re_udata _ _ _ _ _ _ _ Hre)|auto].
  - eapply (grounded_roots g); [apply (ev_roots _ _ Hev)|apply (re_grounded _ _ _ _ _ _ _ Hre)].
Qed.
Lemma rested_same R UD SC OP T U g g' : rested R UD SC OP T U g -> heap g' = heap g -> owners g' = owners g -> roots g' = roots g -> currentwhite g' = currentwhite g -> rested R UD SC OP T U g'.
Proof.
  intros Hre Eh Eo Er Ew. eapply rested_evolved; [exact Hre|by apply evolved_same|eapply (inner_same g); [apply Hre|done..]|eapply (outer_same g); [apply Hre|done..]|done|]. rewrite Eh. apply (re_clean _ _ _ _ _ _ _ Hre).
Qed.

Lemma pop_post R UD SC OP T U g (o : Z) m env len x : rested R UD SC OP (o :: T) U g -> heap g !! o = Some x -> o_body x = TUSERDATA m env len ->
  exists xl g', heap g !! tmudata g = Some xl /\ o_next xl = o /\
    (g1 <- (if o =? tmudata g then Ok (set_tmudata 0 g) else upd_obj (tmudata g) (with_next (o_next x)) g); m <- obj_at g1 (mainthread (roots g1)); g2 <- upd_obj o (with_next (o_next m)) g1;
     g3 <- upd_obj (mainthread (roots g2)) (with_next o) g2; upd_obj o (makewhite g3) g3) = Ok g' /\ rested R (o :: UD) SC OP T U g' /\ evolved g g' /\ phase g' = phase g.
Proof.
  intros Hre Ex Eb. pose proof (re_inner _ _ _ _ _ _ _ Hre) as Hi. pose proof (re_outer _ _ _ _ _ _ _ Hre) as Ho. destruct (od_main _ _ _ _ Hi) as (xm & tm & Em & Ebm). pose proof (od_nodup _ _ _ _ Ho) as Hnd.
  rewrite app_comm_cons, app_assoc in Hnd. apply NoDup_app in Hnd as (_ & HdT & HnT). assert (o <> main g) as Hom by (intros ->; congruence). assert (main g ∉ o :: T) as HmT by (apply HdT; rewrite !elem_of_app, elem_of_cons; tauto).
  destruct (tmring_pop g o T x (od_tmu _ _ _ _ Ho) HnT Ex) as (xl & g1 & Exl & Exo & Ht & E1 & Hr1 & Hs1 & Hsame & El1 & Ep1 & Er1 & Erg & Est & En & Epv).
  destruct (relist_post R UD SC OP T U g o x xm g1 Hi Ho Ex Em Hr1 Hs1 Hsame Er1 Erg Est En Epv) as (Hs3 & Ho3 & Hi3). apply NoDup_cons in HnT as [HoT HnT]. apply not_elem_of_cons in HmT as [_ HmT].
  exists xl. rewrite E1. cbn [bind]. assert (mainthread (roots g1) = main g) as -> by (unfold main; by rewrite Er1). assert (heap g1 !! main g = Some xm) as Em1 by (by rewrite Hsame). assert (heap g1 !! o = Some x) as Ex1 by (by rewrite Hsame).
  rewrite (obj_at_ok _ _ _ Em1). cbn [bind]. rewrite (upd_obj_ok _ _ _ _ Ex1). cbn [bind]. set (g2 := set_heap (<[o := with_next (o_next xm) x]> (heap g1)) g1). assert (mainthread (roots g2) = main g) as -> by (unfold main; change (roots g2) with (roots g1); by rewrite Er1).
  assert (heap g2 !! main g = Some xm) as Em2 by (cbn; by rewrite lookup_insert_ne). rewrite (upd_obj_ok _ _ _ _ Em2). cbn [bind]. set (g3 := set_heap _ g1) in Hs3, Ho3, Hi3. change (set_heap (<[main g := with_next o xm]> (heap g2)) g2) with g3.
  destruct (heap_eqv_l _ _ _ _ Hs3 Ex) as (x3 & Ex3 & Em3 & _ & Eb3). rewrite (upd_obj_ok _ _ _ _ Ex3). set (g4 := set_heap _ g3). exists g4. assert (evolved g g3) as Hev3 by (apply evolved_eqv; [done|exact Ep1|exact Er1]).
  pose proof (sweeping_evolved _ _ (re_sweeping _ _ _ _ _ _ _ Hre) Hev3) as Hsw3. destruct (rested_live _ _ _ _ _ _ _ _ _ Hre Ex) as [Hl _]. assert (live g3 x3) as Hl3 by (apply (live_white g g3); [by apply ev_white|]; unfold live, bit in *; by rewrite Em3).
  assert (evolved g g4) as Hev by (eapply evolved_trans; [exact Hev3|]; apply evolved_keep; [apply Hsw3|done|by left]). assert (heap_sim (heap g3) (heap g4)) as Hsim by (apply heap_sim_insert with x3; [done|apply makewhite_sim]).
  split_and!; try done. eapply rested_evolved; [exact Hre|exact Hev|by eapply (inner_sim g3)|by eapply (outer_sim g3)|intros p Hp; by right|].
  intros p y Ey Hp. cbn in Ey. destruct (decide (o = p)) as [<-|Hne].
  - rewrite lookup_insert_eq in Ey. injection Ey as <-. apply (clean_white g g3); [by apply ev_white|]. apply makewhite_clean, Hsw3.
  - rewrite lookup_insert_ne in Ey by done. change (heap g3 !! p = Some y) in Ey. destruct (heap_eqv_r _ _ _ _ Hs3 Ey) as (z & Ez & Emz & _). assert (clean g z) as Hz by (apply (re_clean _ _ _ _ _ _ _ Hre p z Ez); rewrite elem_of_cons; naive_solver).
    unfold clean, isblack, bit in *. by rewrite Emz.
Qed.

(** * The method *)

Lemma flags_evolved g p x m t f : sweeping g -> heap g !! p = Some x -> o_body x = TTABLE m t -> evolved g (set_heap (<[p := with_body (TTABLE m (with_flags t f)) x]> (heap g)) g).
Proof.
  intros Hsw Ex Eb. set (y := with_body _ x). assert (obj_sim x y) as Hs. { split; [done|]. unfold y. rewrite Eb. cbn. constructor. destruct t. split; cbn; [apply Forall2_same; by left|apply Forall2_same; by left|done]. }
  assert (heap_sim (heap g) (<[p := y]> (heap g))) as Hh by (by apply heap_sim_insert with x). split; [done|done| | |].
  - intros q z Ez. cbn in Ez. destruct (decide (p = q)) as [<-|Hne]; [|rewrite lookup_insert_ne in Ez by done].
    + pose proof Ez as Ez0. rewrite lookup_insert_eq in Ez. injection Ez as <-. exists x. split_and!; try done; [unfold gch_tt; by rewrite Eb|by left|]. intros r. by eapply (refs_sim (heap g) (<[p := y]> (heap g))); [|apply Hsw|..].
    + exists z. split_and!; auto. intros r. eapply (refs_sim (heap g) (<[p := y]> (heap g))); [done|apply Hsw|done|]. by rewrite lookup_insert_ne.
  - intros q z Ez Hl. destruct (heap_sim_l _ _ _ _ Hh Ez) as (w & Ew & Hw). exists w. split; [exact Ew|]. split; [by apply obj_sim_tt|]. destruct (decide (p = q)) as [<-|Hne]; [rewrite lookup_insert_eq in Ew; injection Ew as <-; rewrite Ex in Ez; by injection Ez as <-|].
    rewrite lookup_insert_ne in Ew by done. congruence.
  - intros Hok. by eapply heap_sim_ok.
Qed.

Lemma fasttm_rested R UD SC OP T U g m event : rested R UD SC OP T U g -> typed_refs (heap g) (ptr m LUA_TTABLE) -> is_Some (tmname (roots g) !! Z.to_nat event) ->
  exists tm g', fasttm m event g = Ok (tm, g') /\ rested R UD SC OP T U g' /\ evolved g g' /\ phase g' = phase g.
Proof.
  intros Hre Ht [ename En]. unfold fasttm, ptr in *. pose proof (re_sweeping _ _ _ _ _ _ _ Hre) as Hsw. destruct (m =? 0); [exists Nil, g; split_and!; [done|done|apply evolved_refl|done]|].
  destruct (Ht m LUA_TTABLE) as (x & Ex & Et); [by left|]. assert (exists mm t, o_body x = TTABLE mm t) as (mm & t & Eb) by (unfold gch_tt in Et; destruct (o_body x); try done; by eexists _, _).
  rewrite (table_at_ok _ _ _ _ _ Ex Eb). cbn [bind]. destruct (negb _); [exists Nil, g; split_and!; [done|done|apply evolved_refl|done]|]. rewrite En. cbn [lift bind]. unfold luaT_gettm. rewrite (table_at_ok _ _ _ _ _ Ex Eb). cbn [bind].
  pose proof (sw_ok _ Hsw m x Ex) as Hok. rewrite Eb in Hok. cbn in Hok. destruct (getstr_total (hash_of g) t ename Hok) as (o & -> & Ho). cbn [bind]. destruct (ttisnil (opt_get t o)); [|exists (opt_get t o), g; split_and!; [done|done|apply evolved_refl|done]].
  unfold set_table. rewrite (upd_obj_ok _ _ _ _ Ex), Eb. cbn [bind]. eexists Nil, _. split; [done|]. pose proof (flags_evolved g m x mm t (u8 (Z.lor (flags t) (Z.shiftl 1 event))) Hsw Ex Eb) as Hev. set (g' := set_heap _ g) in *. split_and!; [|done|done].
  assert (heap_sim (heap g) (heap g')) as Hh. { apply heap_sim_insert with x; [done|]. split; [done|]. rewrite Eb. cbn. constructor. destruct t. split; cbn; [apply Forall2_same; by left|apply Forall2_same; by left|done]. }
  eapply rested_evolved; [exact Hre|exact Hev|eapply (inner_sim g); [done..|apply Hre]|eapply (outer_sim g); [done..|apply Hre]|done|]. intros p y Ey Hp. cbn in Ey. destruct (decide (m = p)) as [<-|Hne].
  - rewrite lookup_insert_eq in Ey. injection Ey as <-. exact (re_clean _ _ _ _ _ _ _ Hre m x Ex Hp).
  - rewrite lookup_insert_ne in Ey by done. by apply (re_clean _ _ _ _ _ _ _ Hre p y).
Qed.

(** A finalizer runs the interpreter: it ends and leaves a state between the
    cycles, with the same userdata still to be finalized; it may make objects
    but does not collect. *)
Definition persists g g' : Prop := forall p x, heap g !! p = Some x -> exists y, heap g' !! p = Some y /\ gch_tt y = gch_tt x.
Lemma persists_refl g : persists g g.
Proof. intros p x Ex. by exists x. Qed.
Lemma persists_trans g1 g2 g3 : persists g1 g2 -> persists g2 g3 -> persists g1 g3.
Proof. intros H1 H2 p x Ex. destruct (H1 p x Ex) as (y & Ey & E1). destruct (H2 p y Ey) as (z & Ez & E2). exists z. split; congruence. Qed.
Definition finalizer_ok (calltm : TValue N -> Z -> gstate N -> res (gstate N)) : Prop :=
  forall R UD SC OP T U tm u g, rested R UD SC OP T U g -> gcstate g = GCSfinalize -> u ∈ UD ->
    exists R' UD' SC' OP' U' g', calltm tm u g = Ok g' /\ rested R' UD' SC' OP' T U' g' /\ gcstate g' = GCSfinalize /\ persists g g'.

Lemma rested_persists R UD SC OP T U g g' : rested R UD SC OP T U g -> evolved g g' -> persists g g'.
Proof. intros Hre Hev p x Ex. destruct (rested_live _ _ _ _ _ _ _ _ _ Hre Ex) as [Hl _]. destruct (ev_forth _ _ Hev p x Ex Hl) as (y & Ey & Et & _). by exists y. Qed.

Lemma GCTM_post calltm R UD SC OP T U g (o : Z) : finalizer_ok calltm -> rested R UD SC OP (o :: T) U g -> gcstate g = GCSfinalize ->
  exists R' UD' SC' OP' U' g', GCTM calltm g = Ok g' /\ rested R' UD' SC' OP' T U' g' /\ gcstate g' = GCSfinalize /\ persists g g'.
Proof.
  intros Hcall Hre Hst. pose proof (re_outer _ _ _ _ _ _ _ Hre) as Ho. destruct (proj1 (od_homes_udata _ _ _ _ Ho o)) as (x & Ex & Hh); [rewrite elem_of_app, elem_of_cons; tauto|].
  destruct (o_body x) as [|m env len|[]| | | | |] eqn:Eb; try done. destruct (pop_post R UD SC OP T U g o m env len x Hre Ex Eb) as (xl & g4 & Exl & Exo & E4 & Hre4 & Hev4 & Ep4).
  unfold GCTM. rewrite (obj_at_ok _ _ _ Exl). cbn [bind]. rewrite Exo, (obj_at_ok _ _ _ Ex). cbn [bind]. rewrite Eb.
  destruct (if o =? tmudata g then _ else _) as [g1| |]; try done. cbn [bind] in *. destruct (obj_at g1 _) as [xm| |]; try done. cbn [bind] in *. destruct (upd_obj o _ g1) as [g2| |]; try done. cbn [bind] in *. destruct (upd_obj _ _ g2) as [g3| |]; try done. cbn [bind] in *. rewrite E4. cbn [bind].
  destruct (ev_forth _ _ Hev4 o x Ex) as (x4 & Ex4 & Et4 & Hl4); [apply (rested_live _ _ _ _ _ _ _ _ _ Hre Ex)|].
  destruct (fasttm_rested R (o :: UD) SC OP T U g4 m TM_GC Hre4) as (tm & g5 & -> & Hre5 & Hev5 & Ep5).
  { intros c t Hc. destruct (sw_live _ (re_sweeping _ _ _ _ _ _ _ Hre) o x c t Ex) as (y & Ey & Ety & Hly); [apply (rested_live _ _ _ _ _ _ _ _ _ Hre Ex)|rewrite Eb; cbn; apply elem_of_app; by left|].
    destruct (ev_forth _ _ Hev4 c y Ey Hly) as (z & Ez & Etz & _). exists z. split; [done|congruence]. }
  { apply (re_grounded _ _ _ _ _ _ _ Hre4). unfold TM_GC. lia. }
  cbn [bind]. pose proof (rested_persists _ _ _ _ _ _ _ _ Hre (evolved_trans _ _ _ Hev4 Hev5)) as Hper. assert (gcstate g5 = GCSfinalize) as Hst5 by (unfold gcstate in *; by rewrite Ep5, Ep4).
  destruct (ttisnil tm); [exists R, (o :: UD), SC, OP, U, g5; done|]. set (g6 := set_GCthreshold _ g5). assert (rested R (o :: UD) SC OP T U g6) as Hre6 by (by eapply rested_same).
  destruct (Hcall R (o :: UD) SC OP T U tm o g6 Hre6 Hst5) as (R' & UD' & SC' & OP' & U' & g7 & -> & Hre7 & Hst7 & Hp7); [by left|]. cbn [bind]. eexists R', UD', SC', OP', U', _. split; [done|]. split_and!; [by eapply rested_same|done|].
  eapply persists_trans; [exact Hper|exact Hp7].
Qed.
End Gctm.

Section Collect.
Context {N : Type} `{LuaNumber N}.
Implicit Types (g : gstate N) (h : gmap Z (GCObject N)) (x y : GCObject N) (v : TValue N) (L U T R UD K G GA W : list Z) (SC : list (list Z)) (OP : Z -> list Z).

(** * The states of a cycle *)

(** The collector is in one of its states, and at most [n] steps from the
    next pause. *)
Inductive collecting (n : nat) g : Prop :=
  | co_pause R UD SC OP U : gcstate g = GCSpause -> rested R UD SC OP [] U g -> collecting n g
  | co_propagate R UD SC OP T U G GA W : gcstate g = GCSpropagate -> propagating R UD SC OP T U g G GA W -> small g ->
      (whites (heap g) + length G + length SC + 2 * size (heap g) + 5 <= n)%nat -> collecting n g
  | co_strings R UD SC OP T U : gcstate g = GCSsweepstring -> sweeping_strings R UD SC OP T U g -> small g ->
      (length SC - Z.to_nat (ph_sweepstrgc (phase g)) + 2 * size (heap g) + 4 <= n)%nat -> collecting n g
  | co_sweep SC T K rest : gcstate g = GCSsweep -> sweeping_root SC T K rest g -> small g -> (size (heap g) - length K + size (heap g) + 3 <= n)%nat -> collecting n g
  | co_finalize R UD SC OP T U : gcstate g = GCSfinalize -> rested R UD SC OP T U g -> (length T + 2 <= n)%nat -> collecting n g.

(** What is reached from the roots. *)
Inductive reach g : Z -> Prop :=
  | reach_root c t : (c, t) ∈ root_refs g -> reach g c
  | reach_ref p x c t : reach g p -> heap g !! p = Some x -> (c, t) ∈ refs (heap g) (o_body x) -> reach g c.
(** All that is reached stays. *)
Definition keeps g g' : Prop := forall p, reach g p -> exists x y, heap g !! p = Some x /\ heap g' !! p = Some y /\ gch_tt y = gch_tt x.

Lemma reach_live g p : sweeping g -> reach g p -> exists x, heap g !! p = Some x /\ live g x.
Proof.
  intros Hsw Hr. induction Hr as [c t Hc|p x c t Hr (x' & Ex' & Hl) Ex Hc].
  - destruct (sw_roots _ Hsw c t Hc) as (y & Ey & _ & Hy). by exists y.
  - rewrite Ex in Ex'. injection Ex' as <-. destruct (sw_live _ Hsw p x c t Ex Hl Hc) as (y & Ey & _ & Hy). by exists y.
Qed.
Lemma keeps_evolved g g' : sweeping g -> evolved g g' -> keeps g g'.
Proof. intros Hsw Hev p Hp. destruct (reach_live g p Hsw Hp) as (x & Ex & Hl). destruct (ev_forth _ _ Hev p x Ex Hl) as (y & Ey & Et & _). by exists x, y. Qed.
Lemma reach_there E D A g G GA W p : marking E D A g G GA W -> roots_ok g -> reach g p -> is_Some (heap g !! p).
Proof.
  intros M (_ & Ht & _) Hr. destruct Hr as [c t Hc|q x c t Hr Ex Hc].
  - destruct (Ht c t Hc) as (y & Ey & _). by exists y.
  - destruct (mk_refs _ _ _ _ _ _ _ M q x c t Ex Hc) as (y & Ey & _). by exists y.
Qed.
Lemma keeps_marked E D A g g' G GA W : marking E D A g G GA W -> roots_ok g -> marked g g' -> keeps g g'.
Proof.
  intros M Hr Hm p Hp. destruct (reach_there _ _ _ _ _ _ _ p M Hr Hp) as [x Ex]. destruct (heap_sim_l _ _ _ _ (md_sim _ _ Hm) Ex) as (y & Ey & Hs). exists x, y. split_and!; [done|done|by apply obj_sim_tt].
Qed.
Lemma keeps_persists g g' : sweeping g -> persists g g' -> keeps g g'.
Proof. intros Hsw Hp p Hr. destruct (reach_live g p Hsw Hr) as (x & Ex & _). destruct (Hp p x Ex) as (y & Ey & Et). by exists x, y. Qed.

(** * One step *)

Section Step.
Variable calltm : TValue N -> Z -> gstate N -> res (gstate N).
Hypothesis calltm_ok : finalizer_ok calltm.

Definition stepped (n : nat) g : Prop := exists k g' n', singlestep calltm g = Ok (k, g') /\ (n' < n)%nat /\ collecting n' g' /\ keeps g g' /\ (gcstate g < GCSfinalize -> gcstate g <= gcstate g' /\ small g' /\ (GCSsweepstring <= gcstate g -> evolved g g')).

Lemma step_propagate n R UD SC OP T U g o G GA W : gcstate g = GCSpropagate -> propagating R UD SC OP T U g (o :: G) GA W -> small g ->
  (whites (heap g) + length (o :: G) + length SC + 2 * size (heap g) + 5 <= n)%nat -> stepped n g.
Proof.
  intros Hst Hp Hsm Hn. destruct (propagate_step_post _ _ _ _ _ _ _ _ _ _ _ Hp) as (k & g' & G' & GA' & W' & E & Hp' & Hm & Hw). destruct (mk_lists _ _ _ _ _ _ _ (pg_marking _ _ _ _ _ _ _ _ _ _ Hp)) as ((Hg & Ho & _) & _).
  assert (size (heap g') = size (heap g)) as Hsz by (rewrite <- !size_dom; by rewrite (heap_sim_dom _ _ (md_sim _ _ Hm))).
  assert (gcstate g' = gcstate g) as Hgs by (unfold gcstate; by rewrite (md_phase _ _ Hm)). assert (small g') as Hsm' by (unfold small; by rewrite Hsz).
  exists k, g', (pred n). split; [|split; [cbn in Hn; lia|split; [|split]]]; [| | |intros _; split_and!; [by rewrite Hgs|done|rewrite Hst; by intros []]].
  - assert (singlestep calltm g = if negb (gray g =? 0) then propagatemark g else g <- atomic g; Ok (0, g)) as -> by (unfold singlestep; by rewrite Hst). by rewrite Hg, (proj2 (Z.eqb_neq _ _)).
  - eapply co_propagate; [congruence|exact Hp'|done|]. cbn [length] in Hn. rewrite Hsz. lia.
  - eapply keeps_marked; [apply (pg_marking _ _ _ _ _ _ _ _ _ _ Hp)|apply (pg_roots _ _ _ _ _ _ _ _ _ _ Hp)|done].
Qed.

Lemma step_atomic n R UD SC OP T U g GA W : gcstate g = GCSpropagate -> propagating R UD SC OP T U g [] GA W -> small g ->
  (whites (heap g) + length ([] : list Z) + length SC + 2 * size (heap g) + 5 <= n)%nat -> stepped n g.
Proof.
  intros Hst Hp Hsm Hn. destruct (atomic_post _ _ _ _ _ _ _ _ _ Hp) as (g' & UD' & T' & E & Hsw & Ho & Hi & Ep & Er & Ed & Hna & Hlive & Htt). destruct (mk_lists _ _ _ _ _ _ _ (pg_marking _ _ _ _ _ _ _ _ _ _ Hp)) as (Hg & _).
  assert (size (heap g') = size (heap g)) as Hsz by (rewrite <- !size_dom; by rewrite Ed). pose proof (od_strt _ _ _ _ Hi) as (_ & _ & k & Hk & Ek).
  assert (gcstate g' = GCSsweepstring) as Hgs by (unfold gcstate; by rewrite Ep). assert (small g') as Hsm' by (unfold small; by rewrite Hsz).
  exists 0, g', (pred n). split; [|split; [lia|split; [|split]]]; [| | |intros _; split_and!; [by rewrite Hgs, Hst|done|rewrite Hst; by intros []]].
  - assert (singlestep calltm g = if negb (gray g =? 0) then propagatemark g else g <- atomic g; Ok (0, g)) as -> by (unfold singlestep; by rewrite Hst). rewrite Hg. cbn [Z.eqb negb]. by rewrite E.
  - eapply (co_strings _ g' R UD' SC OP T' U); [done| |done|rewrite Ep; cbn [ph_sweepstrgc length] in *; rewrite Hsz; lia].
    split; try done; rewrite ?Ep; cbn [ph_sweepstrgc ph_sweepgc].
    + intros p Hp'. destruct (Hlive p) as (x & Ex & Hl & Hw); [by right|]. exists x. split_and!; [done|done|]. intros Hw'. congruence.
    + split; [|done]. unfold grounded in *. rewrite Er. apply (pg_roots _ _ _ _ _ _ _ _ _ _ Hp).
    + split; [done|]. rewrite Ek. apply Z.pow_pos_nonneg; lia.
    + intros i L Hi0. lia.
    + done.
  - intros p Hr. destruct (reach_there _ _ _ _ _ _ _ p (pg_marking _ _ _ _ _ _ _ _ _ _ Hp) (pg_roots _ _ _ _ _ _ _ _ _ _ Hp) Hr) as [x Ex]. destruct (Htt p x Ex) as (y & Ey & Et). by exists x, y.
Qed.

(** The accounts do not matter. *)
Lemma sweeping_strings_same R UD SC OP T U g g' : sweeping_strings R UD SC OP T U g -> heap g' = heap g -> owners g' = owners g -> roots g' = roots g -> phase g' = phase g -> sweeping_strings R UD SC OP T U g'.
Proof.
  intros [Hsw Hi Ho Hk Han Hpos Hcl Hgc] Eh Eo Er Ep. assert (evolved g g') as Hev by (apply evolved_same; [done|done|unfold currentwhite; by rewrite Ep]). split; unfold strt; rewrite ?Ep, ?Eo; try done.
  - by eapply sweeping_evolved.
  - by eapply (inner_same g).
  - by eapply (outer_same g).
  - by eapply kept_udata_evolved.
  - by eapply (grounded_roots g).
  - intros i L Hi' HL. eapply all_clean_evolved; [done|by eapply Hcl].
Qed.
Lemma sweeping_root_same SC T K rest g g' : sweeping_root SC T K rest g -> heap g' = heap g -> owners g' = owners g -> roots g' = roots g -> currentwhite g' = currentwhite g -> ph_sweepgc (phase g') = ph_sweepgc (phase g) -> sweeping_root SC T K rest g'.
Proof.
  intros [Hsw Hk Han Hs Hpos Hp] Eh Eo Er Ew Ep. pose proof (evolved_same g g' Eh Er Ew) as Hev. split.
  - by eapply sweeping_evolved.
  - by eapply kept_udata_evolved.
  - by eapply (grounded_roots g).
  - by eapply all_clean_evolved.
  - by rewrite Ep.
  - by eapply root_part_rebase.
Qed.

Lemma step_strings n R UD SC OP T U g : gcstate g = GCSsweepstring -> sweeping_strings R UD SC OP T U g -> small g ->
  (length SC - Z.to_nat (ph_sweepstrgc (phase g)) + 2 * size (heap g) + 4 <= n)%nat -> stepped n g.
Proof.
  intros Hst Hs Hsm Hn. destruct (string_phase_step _ _ _ _ _ _ _ Hs Hsm) as (SC' & g1 & E & Hev & Hi & Ho & El & Ep & Esz & Hcl). pose proof Hs as [Hsw Hi0 _ Hk Han [Hp0 Hp1] _ Hgc]. pose proof (strt_size _ _ _ _ Hi0) as Esz0. pose proof (strt_size _ _ _ _ Hi) as Esz1.
  set (i := ph_sweepstrgc (phase g)) in *. set (g2 := if st_size (strt g1) <=? ph_sweepstrgc (phase g1) then set_gcstate GCSsweep g1 else g1). set (g3 := swept (totalbytes g) g2).
  assert (singlestep calltm g = Ok (GCSWEEPCOST, g3)) as Estep. { unfold singlestep. rewrite Hst. cbn [Z.eqb Pos.eqb GCSsweepstring GCSpause GCSpropagate]. fold i. by rewrite E. }
  pose proof (evolved_small _ _ Hev) as Hsz. pose proof (small_evolved _ _ Hev Hsm) as Hsm1. exists GCSWEEPCOST, g3, (pred n).
  split; [done|]. assert (heap g3 = heap g1) as Eh3 by (unfold g3, g2; by destruct (_ <=? _)). split; [lia|].
  split; [|split; [assert (keeps g g1) as Hkp by (by apply keeps_evolved); intros p Hr; rewrite Eh3; by apply Hkp|]].
  2:{ intros _. split_and!; [|unfold small; by rewrite Eh3|intros _; eapply evolved_trans; [exact Hev|]; apply evolved_same; [done|unfold g3, g2; by destruct (_ <=? _)..]]. rewrite Hst. unfold g3, g2. destruct (_ <=? _); [done|]. change (GCSsweepstring <= ph_gcstate (phase g1)). rewrite Ep. change (GCSsweepstring <= gcstate g). by rewrite Hst. }
  assert (ph_sweepstrgc (phase g1) = i + 1) as Epos by (by rewrite Ep).
  pose proof (sweeping_evolved _ _ Hsw Hev) as Hsw1. pose proof (kept_udata_evolved _ _ _ Hev Hk) as Hk1. pose proof (grounded_roots _ _ (ev_roots _ _ Hev) Han) as Han1.
  assert (small g3) as Hsm3 by (unfold small; by rewrite Eh3). assert (st_size (strt g1) <= i + 1 /\ g2 = set_gcstate GCSsweep g1 \/ i + 1 < st_size (strt g1) /\ g2 = g1) as [[Hend Eg2]|[Hend Eg2]] by (unfold g2; rewrite Epos; case_zbool (st_size (strt g1) <=? i + 1); auto).
  - eapply (co_sweep _ g3 SC' T [] (R ++ main g1 :: UD)); [by unfold g3; rewrite Eg2| |exact Hsm3|].
    + unfold g3. rewrite Eg2. eapply (sweeping_root_same SC' T [] (R ++ main g1 :: UD) g1); try done. split; try done.
      * intros p (L & HL & HpL)%list_elem_of_In%in_concat. apply list_elem_of_In, list_elem_of_lookup in HL as [j Hj]. apply (Hcl j L); [|done|by apply list_elem_of_In]. apply lookup_lt_Some in Hj. lia.
      * rewrite Ep. exact Hgc.
      * by eapply root_part_start.
    + rewrite Eh3. cbn [length]. lia.
  - assert (phase g3 = phase g1) as Ep3 by (unfold g3; by rewrite Eg2). eapply (co_strings _ g3 R UD SC' OP T U); [by unfold gcstate in *; rewrite Ep3, Ep| |exact Hsm3|].
    + eapply (sweeping_strings_same _ _ _ _ _ _ g1); try done; [|unfold g3; by rewrite Eg2..]. split; try done; [lia| |by rewrite Ep]. intros j L Hj. apply Hcl. lia.
    + rewrite Eh3, Ep3, Epos. lia.
Qed.

Lemma udata_size R UD SC OP T U g : rested R UD SC OP T U g -> (length T <= size (heap g))%nat.
Proof.
  intros Hre. pose proof (re_outer _ _ _ _ _ _ _ Hre) as Ho. apply nodup_size.
  - pose proof (od_nodup _ _ _ _ Ho) as Hnd. rewrite app_comm_cons, app_assoc in Hnd. by apply NoDup_app in Hnd as (_ & _ & ?).
  - intros p Hp. destruct (re_udata _ _ _ _ _ _ _ Hre p Hp) as (x & Ex & _). by exists x.
Qed.

Lemma step_sweep n SC T K rest g : gcstate g = GCSsweep -> sweeping_root SC T K rest g -> small g -> (size (heap g) - length K + size (heap g) + 3 <= n)%nat -> stepped n g.
Proof.
  intros Hst Hs Hsm Hn. destruct (root_phase_step SC T K rest g Hs Hsm Hst) as (K' & rest' & g1 & E & Hp & Hget & H0 & Hev & El & Ep & Hprog). pose proof Hs as [Hsw Hk Han Hstr Hpos _].
  pose proof (sweeping_evolved _ _ Hsw Hev) as Hsw1. pose proof (kept_udata_evolved _ _ _ Hev Hk) as Hk1. pose proof (grounded_roots _ _ (ev_roots _ _ Hev) Han) as Han1. pose proof (all_clean_evolved _ _ _ Hev Hstr) as Hstr1. pose proof (evolved_small _ _ Hev) as Hsz. pose proof (keeps_evolved _ _ Hsw Hev) as Hkp.
  set (g2 := set_sweepgc (at_pos AtRoot K') g1). assert (pos_get (at_pos AtRoot K') g2 = Ok (hd 0 rest')) as Hget2 by exact Hget.
  assert (singlestep calltm g = (g3 <- (if hd 0 rest' =? 0 then g3 <- checkSizes g2; Ok (set_gcstate GCSfinalize g3) else Ok g2); Ok (GCSWEEPMAX * GCSWEEPCOST, swept (totalbytes g) g3))) as Estep.
  { unfold singlestep. rewrite Hst. cbn [Z.eqb Pos.eqb GCSsweep GCSsweepstring GCSpause GCSpropagate]. rewrite E. cbn [bind]. fold g2. by rewrite Hget2. }
  assert (gcstate g2 = GCSsweep) as Hst2 by (unfold gcstate in *; change (ph_gcstate (phase g2)) with (ph_gcstate (phase g1)); by rewrite Ep).
  assert (evolved g1 g2) as Hev2 by (by apply evolved_same). assert (sweeping_root SC T K' rest' g2) as Hs2.
  { split; [by eapply sweeping_evolved|done|done|done|done|by eapply root_part_rebase]. }
  assert (small g1) as Hsm1 by (by eapply small_evolved). destruct rest' as [|a rest'].
  - cbn [hd Z.eqb] in Estep. destruct (all_swept SC T g2 g2 K') as (R & UD & OP & U & Hre & _); [apply Hs2..|]. destruct (checkSizes_post R UD SC OP T U g2) as (g3 & SC3 & Ec & Hi3 & Ho3 & Hs3 & _ & El3 & Ep3 & Er3); [apply Hre|apply Hre|by rewrite Hst2|].
    rewrite Ec in Estep. cbn [bind] in Estep. pose proof (evolved_eqv g2 g3 Hs3 Ep3 Er3) as Hev3.
    assert (rested R UD SC3 OP T U g3) as Hre3.
    { eapply rested_evolved; [exact Hre|exact Hev3|done|done|done|]. intros p y Ey Hp'. destruct (heap_eqv_r _ _ _ _ Hs3 Ey) as (z & Ez & Em & _). pose proof (re_clean _ _ _ _ _ _ _ Hre p z Ez Hp') as Hz. unfold clean, isblack, bit in *. by rewrite Em. }
    eexists _, _, (pred n). split; [exact Estep|]. split; [lia|]. split.
    + eapply (co_finalize _ _ R UD SC3 OP T U); [done|by eapply rested_same|]. pose proof (udata_size _ _ _ _ _ _ _ Hre) as HT. change (heap g2) with (heap g1) in HT. lia.
    + pose proof (keeps_evolved _ _ Hsw (evolved_trans _ _ _ Hev (evolved_trans _ _ _ Hev2 Hev3))) as Hkp3. split; [exact Hkp3|]. intros _. rewrite Hst. split; [done|]. pose proof (small_evolved _ _ Hev3 Hsm1) as Hsm3. split; [exact Hsm3|]. intros _.
      eapply evolved_trans; [exact Hev|]. eapply evolved_trans; [exact Hev2|]. eapply evolved_trans; [exact Hev3|]. by apply evolved_same.
  - assert (a <> 0) as Ha by (intros ->; apply H0; by left). cbn [hd] in Estep. rewrite (proj2 (Z.eqb_neq _ _)) in Estep by done. cbn [bind] in Estep. destruct Hprog as [?|Hprog]; [done|].
    assert (length K' < size (heap g1))%nat as HK'.
    { destruct Hp as (R & UD & OP & U & Esp & [Hi Ho _ _ _] & _). enough (length (K' ++ a :: rest') <= size (heap g1))%nat as Hle by (rewrite length_app in Hle; cbn in Hle; lia). rewrite <- Esp. apply nodup_size.
      - pose proof (od_nodup _ _ _ _ Ho) as Hnd. rewrite app_comm_cons, app_assoc in Hnd. by apply NoDup_app in Hnd as (? & _).
      - intros p (K2 & K3 & E2)%list_elem_of_split. destruct (root_homes _ _ _ _ _ _ _ Ho E2) as (x & Ex & _). by exists x. }
    eexists _, _, (pred n). split; [exact Estep|]. split; [lia|]. split.
    + eapply (co_sweep _ _ SC T K' (a :: rest')); [exact Hst2|by eapply (sweeping_root_same SC T K' (a :: rest') g2)|exact Hsm1|]. change (heap (swept (totalbytes g) g2)) with (heap g1). lia.
    + split; [exact Hkp|]. intros _. change (gcstate (swept (totalbytes g) g2)) with (gcstate g2). rewrite Hst, Hst2. split; [done|]. split; [done|]. intros _. eapply evolved_trans; [exact Hev|]. by apply evolved_same.
Qed.

Lemma step_finalize n R UD SC OP T U g : gcstate g = GCSfinalize -> rested R UD SC OP T U g -> (length T + 2 <= n)%nat -> stepped n g.
Proof.
  intros Hst Hre Hn. assert (singlestep calltm g = if negb (tmudata g =? 0) then
      (g1 <- GCTM calltm g; let e := ac_estimate (accounts g1) in Ok (GCFINALIZECOST, if GCFINALIZECOST <? e then set_estimate (e - GCFINALIZECOST) g1 else g1))
    else Ok (0, set_gcdept 0 (set_gcstate GCSpause g))) as Estep by (unfold singlestep; by rewrite Hst).
  pose proof (re_sweeping _ _ _ _ _ _ _ Hre) as Hsw. destruct T as [|o T].
  - destruct (od_tmu _ _ _ _ (re_outer _ _ _ _ _ _ _ Hre)) as [[_ Ht]|(_ & [] & ? & ? & _)]; [|done..]. rewrite Ht in Estep. cbn [Z.eqb negb] in Estep. eexists _, _, (pred n). split; [exact Estep|]. split; [lia|]. split.
    + eapply (co_pause _ _ R UD SC OP U); [done|by eapply rested_same].
    + split; [|rewrite Hst; by intros []%Z.lt_irrefl]. intros p Hr. destruct (reach_live g p Hsw Hr) as (x & Ex & _). by exists x, x.
  - destruct (od_tmu _ _ _ _ (re_outer _ _ _ _ _ _ _ Hre)) as [[? _]|(Ht & _)]; [done|]. rewrite (proj2 (Z.eqb_neq _ _)) in Estep by done. cbn [negb] in Estep.
    destruct (GCTM_post calltm R UD SC OP T U g o calltm_ok Hre Hst) as (R' & UD' & SC' & OP' & U' & g1 & E & Hre1 & Hst1 & Hp). rewrite E in Estep. cbn [bind] in Estep. eexists _, _, (pred n). split; [exact Estep|]. cbn [length] in Hn. split; [lia|].
    assert (forall b, keeps g (if (b : bool) then set_estimate (ac_estimate (accounts g1) - GCFINALIZECOST) g1 else g1)) as Hkp by (intros []; by apply keeps_persists).
    split; [|split; [apply Hkp|rewrite Hst; by intros []%Z.lt_irrefl]]. destruct (_ <? _); (eapply (co_finalize _ _ R' UD' SC' OP' T U'); [done|by eapply rested_same|lia]).
Qed.

(** A step of the collector ends, frees nothing that is reached, and brings
    the cycle nearer to its end. *)
Lemma singlestep_post n g : collecting n g -> gcstate g <> GCSpause -> stepped n g.
Proof.
  intros Hc Hst. destruct Hc as [R UD SC OP U E Hre|R UD SC OP T U [|o G] GA W E Hp Hsm Hn|R UD SC OP T U E Hs Hsm Hn|SC T K rest E Hs Hsm Hn|R UD SC OP T U E Hre Hn]; [done| | | | |].
  - by eapply step_atomic.
  - by eapply step_propagate.
  - by eapply step_strings.
  - by eapply step_sweep.
  - by eapply step_finalize.
Qed.
Lemma pause_step R UD SC OP U g : gcstate g = GCSpause -> rested R UD SC OP [] U g -> small g -> exists g', singlestep calltm g = Ok (0, g') /\ gcstate g' = GCSpropagate /\ collecting (4 * size (heap g) + length SC + 5) g' /\ keeps g g'.
Proof.
  intros Hst Hre Hsm. destruct (markroot_post _ _ _ _ _ _ _ Hre) as (g' & G & E & Hp & Hst' & Ew & Er & Ed & Htt). assert (size (heap g') = size (heap g)) as Hsz by (rewrite <- !size_dom; by rewrite Ed).
  exists g'. assert (singlestep calltm g = (g <- markroot g; Ok (0, g))) as -> by (unfold singlestep; by rewrite Hst). rewrite E. cbn [bind]. split; [done|]. split; [done|]. split.
  - eapply co_propagate; [done|exact Hp|unfold small; by rewrite Hsz|]. pose proof (whites_size (heap g')). pose proof (marking_gray_size _ _ _ _ _ _ _ (pg_marking _ _ _ _ _ _ _ _ _ _ Hp)). rewrite Hsz in *. lia.
  - apply keeps_persists; [apply Hre|exact Htt].
Qed.

(** * A full collection *)

Lemma chains_length g SC OP U : inner g SC OP U -> length SC = length (st_hash (strt g)).
Proof. intros Hi. pose proof (od_strt _ _ _ _ Hi) as (_ & Hf & _). symmetry. by eapply Forall2_length. Qed.
Lemma collecting_bound n g : collecting n g -> exists n', (n' < cycle_bound g)%nat /\ collecting n' g.
Proof.
  intros Hc. unfold cycle_bound. destruct Hc as [R UD SC OP U E Hre|R UD SC OP T U G GA W E Hp Hsm _|R UD SC OP T U E Hs Hsm _|SC T K rest E Hs Hsm _|R UD SC OP T U E Hre _].
  - exists 0%nat. split; [lia|by eapply co_pause].
  - exists (whites (heap g) + length G + length SC + 2 * size (heap g) + 5)%nat. split; [|by eapply co_propagate]. pose proof (whites_size (heap g)). pose proof (marking_gray_size _ _ _ _ _ _ _ (pg_marking _ _ _ _ _ _ _ _ _ _ Hp)).
    rewrite (chains_length _ _ _ _ (pg_inner _ _ _ _ _ _ _ _ _ _ Hp)). lia.
  - exists (length SC - Z.to_nat (ph_sweepstrgc (phase g)) + 2 * size (heap g) + 4)%nat. split; [|by eapply co_strings]. rewrite (chains_length _ _ _ _ (ss_inner _ _ _ _ _ _ _ Hs)). lia.
  - exists (size (heap g) - length K + size (heap g) + 3)%nat. split; [lia|by eapply co_sweep].
  - exists (length T + 2)%nat. split; [|by eapply co_finalize]. pose proof (udata_size _ _ _ _ _ _ _ Hre). lia.
Qed.
Lemma collecting_state n g : collecting n g -> 0 <= gcstate g <= GCSfinalize.
Proof. intros []; match goal with E : gcstate g = _ |- _ => by rewrite E end. Qed.

Lemma until_finalize k n g : collecting n g -> GCSsweepstring <= gcstate g -> small g -> (n < k)%nat ->
  exists g' n', loop k (until calltm GCSfinalize) g = Ok g' /\ collecting n' g' /\ gcstate g' = GCSfinalize /\ small g' /\ evolved g g'.
Proof.
  revert n g. induction k as [|k IH]; intros n g Hc Hst Hsm Hk; [lia|]. cbn [loop]. unfold until at 1. destruct (Z.eqb_spec (gcstate g) GCSfinalize) as [E|Hne]; [exists g, n; split_and!; try done; apply evolved_refl|].
  pose proof (collecting_state _ _ Hc) as Hr. destruct (singlestep_post n g Hc) as (c & g1 & n1 & E & Hn & Hc1 & _ & Hgs); [unfold GCSsweepstring, GCSpause in *; lia|]. rewrite E. cbn [bind]. destruct Hgs as (Hgs & Hsm1 & Hev1); [lia|]. destruct (IH n1 g1) as (g' & n' & ? & ? & ? & ? & Hev); [done|lia|done|lia|].
  exists g', n'. split_and!; try done. eapply evolved_trans; [by apply Hev1|done].
Qed.
Lemma until_pause k n g : collecting n g -> (n < k)%nat -> exists g', loop k (until calltm GCSpause) g = Ok g' /\ gcstate g' = GCSpause /\ exists R UD SC OP U, rested R UD SC OP [] U g'.
Proof.
  revert n g. induction k as [|k IH]; intros n g Hc Hk; [lia|]. cbn [loop]. unfold until at 1. destruct (Z.eqb_spec (gcstate g) GCSpause) as [E|Hne].
  - exists g. split; [done|]. split; [done|]. destruct Hc as [R UD SC OP U _ Hre|? ? ? ? ? ? ? ? ? E'|? ? ? ? ? ? E'|? ? ? ? E'|? ? ? ? ? ? E']; [by exists R, UD, SC, OP, U|..]; by rewrite E in E'.
  - destruct (singlestep_post n g Hc Hne) as (c & g1 & n1 & E & Hn & Hc1 & _ & _). rewrite E. cbn [bind]. apply (IH n1); [done|lia].
Qed.

(** Everything is swept when the collector was not sweeping. *)
Definition resweep g : gstate N := set_lists (mkLists 0 0 0) (set_phase (mkPhase GCSsweepstring (currentwhite g) 0 AtRoot) g).
Lemma resweep_post R UD SC OP T U g : sweeping g -> inner g SC OP U -> outer g R UD T -> kept_udata g T -> grounded g -> small g -> exists n, collecting n (resweep g).
Proof.
  intros Hsw Hi Ho Hk Han Hsm. assert (evolved g (resweep g)) as Hev by (by apply evolved_same). pose proof (od_strt _ _ _ _ Hi) as (_ & _ & k & Hk2 & Ek). eexists. eapply (co_strings _ _ R UD SC OP T U); [done| |exact Hsm|reflexivity]. split.
  - by eapply sweeping_evolved.
  - by eapply (inner_same g).
  - by eapply (outer_same g).
  - by eapply kept_udata_evolved.
  - done.
  - change (strt (resweep g)) with (strt g). rewrite Ek. split; [done|]. apply Z.pow_pos_nonneg; lia.
  - intros i L Hi0. cbn in Hi0. lia.
  - done.
Qed.
Lemma propagating_sweeping R UD SC OP T U g G GA W : propagating R UD SC OP T U g G GA W -> sweeping g /\ kept_udata g T /\ grounded g.
Proof.
  intros [M Ho Hi (Hv & Ht & Hn) _]. assert (forall p x, heap g !! p = Some x -> live g x) as Hl by (intros p x Ex; apply (mk_colour _ _ _ _ _ _ _ M p x Ex)). split; [split|split; [|done]].
  - apply (mk_white _ _ _ _ _ _ _ M).
  - apply (mk_null _ _ _ _ _ _ _ M).
  - apply (mk_ok _ _ _ _ _ _ _ M).
  - intros p x c t Ex _ Hr. destruct (mk_refs _ _ _ _ _ _ _ M p x c t Ex Hr) as (y & Ey & Et). exists y. split_and!; [done|done|by eapply Hl].
  - intros c t Hr. destruct (Ht c t Hr) as (y & Ey & Et). exists y. split_and!; [done|done|by eapply Hl].
  - intros p Hp. destruct (proj1 (od_homes_udata _ _ _ _ Ho p)) as (x & Ex & _); [rewrite elem_of_app; tauto|]. exists x. split; [done|]. apply (mk_colour _ _ _ _ _ _ _ M p x Ex).
Qed.

Lemma fullgc_post n g : collecting n g -> small g ->
  exists g', luaC_fullgc calltm g = Ok g' /\ gcstate g' = GCSpause /\ exists R UD SC OP U, rested R UD SC OP [] U g'.
Proof.
  intros Hc Hsm. unfold luaC_fullgc. cbv zeta. set (g0 := if gcstate g <=? GCSpropagate then _ else g).
  assert (exists n0, collecting n0 g0 /\ GCSsweepstring <= gcstate g0 /\ small g0) as (n0 & Hc0 & Hst0 & Hsm0).
  { unfold g0. destruct Hc as [R UD SC OP U E Hre|R UD SC OP T U G GA W E Hp|R UD SC OP T U E Hs Hsm' Hn|SC T K rest E Hs Hsm' Hn|R UD SC OP T U E Hre Hn]; rewrite E.
    - destruct (resweep_post R UD SC OP [] U g) as [n0 Hn0]; [apply Hre..|done|]. exists n0. by split_and!.
    - destruct (propagating_sweeping _ _ _ _ _ _ _ _ _ _ Hp) as (? & ? & ?). destruct (resweep_post R UD SC OP T U g) as [n0 Hn0]; [done|apply Hp|apply Hp|done..|]. exists n0. by split_and!.
    - exists n. split_and!; [by eapply co_strings|cbn; by rewrite E|done].
    - exists n. split_and!; [by eapply co_sweep|cbn; by rewrite E|done].
    - exists n. split_and!; [by eapply co_finalize|cbn; by rewrite E|done]. }
  destruct (collecting_bound _ _ Hc0) as (n1 & Hn1 & Hc1). destruct (until_finalize (cycle_bound g0) n1 g0 Hc1 Hst0 Hsm0 Hn1) as (g2 & n2 & -> & Hc2 & Hst2 & Hsm2 & _). cbn [bind].
  destruct Hc2 as [R UD SC OP U E|R UD SC OP T U G GA W E|R UD SC OP T U E|SC T K rest E|R UD SC OP T U E Hre Hn]; try (by rewrite Hst2 in E).
  destruct (markroot_post _ _ _ _ _ _ _ Hre) as (g3 & G & -> & Hp & Hst3 & _ & _ & Ed & _). cbn [bind]. assert (small g3) as Hsm3 by (unfold small; rewrite <- size_dom, Ed, size_dom; exact Hsm2).
  assert (collecting (whites (heap g3) + length G + length SC + 2 * size (heap g3) + 5) g3) as Hc3 by (by eapply co_propagate). destruct (collecting_bound _ _ Hc3) as (n4 & Hn4 & Hc4).
  destruct (until_pause (2 * cycle_bound g3) n4 g3 Hc4) as (g5 & -> & Hst5 & R5 & UD5 & SC5 & OP5 & U5 & Hre5); [lia|]. cbn [bind]. eexists. split; [done|]. split; [done|]. exists R5, UD5, SC5, OP5, U5. by eapply rested_same.
Qed.

(** ** Incremental collections *)

Lemma collecting_accounts n g a : collecting n g -> collecting n (set_accounts a g).
Proof.
  intros [R UD SC OP U E Hre|R UD SC OP T U G GA W E [M Ho Hi Hr Hm] Hsm Hn|R UD SC OP T U E Hs Hsm Hn|SC T K rest E Hs Hsm Hn|R UD SC OP T U E Hre Hn].
  - eapply co_pause; [done|by eapply rested_same].
  - eapply co_propagate; [done| |done|exact Hn]. split; [by apply marking_accounts|by eapply (outer_same g)|by eapply (inner_same g)|done|done].
  - eapply co_strings; [done|by eapply (sweeping_strings_same _ _ _ _ _ _ g)|done|exact Hn].
  - eapply co_sweep; [done|by eapply (sweeping_root_same _ _ _ _ g)|done|exact Hn].
  - eapply co_finalize; [done|by eapply rested_same|done].
Qed.

Lemma step_loop_post k n lim g : collecting n g -> gcstate g <> GCSpause -> (n < k)%nat -> exists g' n', loop k (step_loop calltm) (lim, g) = Ok g' /\ collecting n' g'.
Proof.
  revert n lim g. induction k as [|k IH]; intros n lim g Hc Hst Hk; [lia|]. cbn [loop]. unfold step_loop at 1. destruct (singlestep_post n g Hc Hst) as (c & g1 & n1 & E & Hn & Hc1 & _). rewrite E. cbn [bind].
  destruct (Z.eqb_spec (gcstate g1) GCSpause) as [E1|Hne]; [by exists g1, n1|]. destruct (_ <? _); [apply (IH n1); [done|done|lia]|by exists g1, n1].
Qed.
Lemma step_post n g : collecting n g -> small g -> exists g' n', luaC_step calltm g = Ok g' /\ collecting n' g'.
Proof.
  intros Hc Hsm. unfold luaC_step. cbv zeta. set (g0 := set_gcdept _ g). set (lim := if _ =? 0 then _ else _). assert (collecting n g0) as Hc0 by (by apply collecting_accounts).
  enough (exists g' n', loop (2 * cycle_bound g0) (step_loop calltm) (lim, g0) = Ok g' /\ collecting n' g') as (g' & n' & -> & Hc').
  { cbn [bind]. repeat match goal with |- context [if ?b then _ else _] => destruct b end; (eexists _, n'; split; [done|]); by repeat apply collecting_accounts. }
  destruct (decide (gcstate g0 = GCSpause)) as [Hst|Hst].
  - destruct Hc0 as [R UD SC OP U E Hre|? ? ? ? ? ? ? ? ? E'|? ? ? ? ? ? E'|? ? ? ? E'|? ? ? ? ? ? E']; [|by rewrite Hst in E'..]. destruct (pause_step R UD SC OP U g0 Hst Hre Hsm) as (g1 & E1 & Hst1 & Hc1 & _).
    pose proof (chains_length _ _ _ _ (re_inner _ _ _ _ _ _ _ Hre)) as Hl. assert (exists k, (2 * cycle_bound g0 = S k /\ 4 * size (heap g0) + length SC + 5 < k)%nat) as (k & -> & Hk) by (unfold cycle_bound; exists (2 * cycle_bound g0 - 1)%nat; unfold cycle_bound; lia).
    cbn [loop]. unfold step_loop at 1. rewrite E1. cbn [bind]. rewrite Hst1. cbn [Z.eqb GCSpropagate GCSpause]. destruct (_ <? _); cbn [bind]; [|by eexists _, _]. eapply step_loop_post; [exact Hc1|by rewrite Hst1|done].
  - destruct (collecting_bound _ _ Hc0) as (n1 & Hn1 & Hc1). eapply step_loop_post; [exact Hc1|done|lia].
Qed.
End Step.
End Collect.
