(* ===== verification/LuaGcSpec.v ===== *)
(** What the collector of Lua promises: a step frees no object that can be
    reached, sweeping frees all others, a full collection comes to its end, and
    the write barrier keeps the invariant of the mark phase. *)
From stdpp Require Import base gmap list.
From Stdlib Require Import ZArith Lia SpecFloat.
From S2P Require Import Prelude LuaNumber LuaTable LuaString LuaHeap LuaMark LuaGc LuaMarkWf LuaMarkSpec LuaTraverse LuaOwn LuaFinalize LuaAtomic LuaUnlink LuaClose LuaSweep LuaCycle LuaCollect.
Open Scope Z_scope.

(** * A small state *)

(** The main thread, an upvalue that nothing refers to, with a string in it. *)
Definition tiny_thread : lua_State spec_float := mkThread Nil [Nil; Nil; Nil] 1 [1] 8 0.
Definition tiny_heap (m1 m2 m3 : Z) : gmap Z (GCObject spec_float) :=
  <[16 := mkObj 0 m1 0 (TTHREAD tiny_thread)]> (<[32 := mkObj 16 m2 0 (TUPVAL (UClosed (Str 48)))]> (<[48 := mkObj 0 m3 0 (TSTRING 0 [97])]> ∅)).
Definition tiny (state white m1 m2 m3 : Z) : gstate spec_float :=
  mkGstate (tiny_heap m1 m2 m3) (mkLists 0 0 0) (mkOwners 32 (mkStrt [48; 0] 1 2) 0 UVHEAD UVHEAD) (mkPhase state white 0 AtRoot) (mkAccounts 0 1000 0 0 200 200 0)
    (mkRootset Nil 16 [0; 0] (replicate 17 48) 16).

Section Tiny.
Variables state white m1 m2 m3 : Z.
Abbreviation g := (tiny state white m1 m2 m3).

Lemma tiny_lookup p x : heap g !! p = Some x ->
  p = 16 /\ x = mkObj 0 m1 0 (TTHREAD tiny_thread) \/ p = 32 /\ x = mkObj 16 m2 0 (TUPVAL (UClosed (Str 48))) \/ p = 48 /\ x = mkObj 0 m3 0 (TSTRING 0 [97]).
Proof. cbn. unfold tiny_heap. intros E. repeat (apply lookup_insert_Some in E as [[<- <-]|[_ E]]; [auto|]). done. Qed.
Lemma tiny_homed o p : homed (heap g) o p <-> (p = 16 /\ o = HRoot) \/ (p = 32 /\ o = HRoot) \/ (p = 48 /\ o = HString).
Proof.
  split.
  - intros (x & Ex & <-). apply tiny_lookup in Ex as [[-> ->]|[[-> ->]|[-> ->]]]; auto.
  - intros [[-> ->]|[[-> ->]|[-> ->]]]; by eexists.
Qed.
Lemma tiny_ok : heap_ok (heap g).
Proof. intros p x Ex. apply tiny_lookup in Ex as [[-> ->]|[[-> ->]|[-> ->]]]; cbn; [|done..]. split_and!; [done|repeat constructor|cbn; lia|cbn; lia]. Qed.
Lemma tiny_outer : outer g [32] [] [].
Proof.
  split.
  - cbn. split_and!; [done|done|]. eexists. split; [done|]. cbn. split_and!; [done|done|]. by eexists.
  - by left.
  - apply (bool_decide_unpack _). by vm_compute.
  - intros p. rewrite tiny_homed. unfold main. cbn. rewrite !elem_of_cons, elem_of_nil. naive_solver.
  - intros p. rewrite tiny_homed. cbn. rewrite elem_of_nil. naive_solver.
Qed.
Hypothesis unfixed : Z.testbit m2 FIXEDBIT = false /\ Z.testbit m3 FIXEDBIT = false.
Lemma tiny_inner : inner g [[48]; []] (fun _ => []) [].
Proof.
  split.
  - done.
  - by eexists _, _.
  - split; [done|]. split; [|by exists 1]. repeat constructor; cbn; try done. by eexists.
  - intros p x t Ex Et. apply tiny_lookup in Ex as [[-> ->]|[[-> ->]|[-> ->]]]; [|done..]. injection Et as <-. done.
  - done.
  - split_and!; [apply (bool_decide_unpack _); by vm_compute|intros _; constructor|constructor].
  - intros p. rewrite tiny_homed. cbn. rewrite elem_of_cons, elem_of_nil. naive_solver.
  - intros th p. rewrite tiny_homed. rewrite elem_of_nil. naive_solver.
  - intros p. rewrite elem_of_nil. split; [done|]. intros (x & Ex & Eo). by apply tiny_lookup in Ex as [[-> ->]|[[-> ->]|[-> ->]]].
  - intros p x Ex Hf. destruct unfixed as [H2 H3]. apply tiny_lookup in Ex as [[-> ->]|[[-> ->]|[-> ->]]]; [by right| |by left]. unfold bit in Hf. cbn [o_marked] in Hf. congruence.
Qed.
End Tiny.

Lemma tiny_grounded state white m1 m2 m3 : grounded (tiny state white m1 m2 m3).
Proof. split; [done|]. intros e He. apply lookup_lt_is_Some_2. cbn. lia. Qed.
Lemma tiny_sweeping state white m1 m2 m3 : white_ok (tiny state white m1 m2 m3) -> live (tiny state white m1 m2 m3) (mkObj 0 m1 0 (TTHREAD tiny_thread)) ->
  live (tiny state white m1 m2 m3) (mkObj 0 m3 0 (TSTRING 0 [97])) \/ ~ live (tiny state white m1 m2 m3) (mkObj 16 m2 0 (TUPVAL (UClosed (Str 48)))) -> sweeping (tiny state white m1 m2 m3).
Proof.
  intros Hw H1 H23. split; [done|done|apply tiny_ok| |].
  - intros p x c t Ex Hl Hr. apply tiny_lookup in Ex as [[-> ->]|[[-> ->]|[-> ->]]]; cbn in Hr.
    + by apply not_elem_of_nil in Hr.
    + apply list_elem_of_singleton in Hr as [= -> ->]. destruct H23 as [H3|H2]; [|done]. eexists. split; [done|]. by split.
    + by apply not_elem_of_nil in Hr.
  - intros c t Hr. assert ((c, t) = (16, LUA_TTHREAD)) as [= -> ->] by (cbn in Hr; repeat (apply elem_of_cons in Hr as [?|Hr]; [done|]); by apply not_elem_of_nil in Hr). eexists. split; [done|]. by split.
Qed.
(** Between two cycles, and with a dead upvalue and a dead string. *)
Definition tiny_rest : gstate spec_float := tiny GCSpause 33 97 1 1.
Definition tiny_dead : gstate spec_float := tiny GCSsweepstring 34 96 1 1.

Lemma tiny_rested : rested [32] [] [[48]; []] (fun _ => []) [] [] tiny_rest.
Proof.
  split.
  - apply tiny_sweeping; [by left|done|by left].
  - by apply tiny_inner.
  - apply tiny_outer.
  - intros p x Ex _. by apply tiny_lookup in Ex as [[-> ->]|[[-> ->]|[-> ->]]].
  - intros p Hp. by apply not_elem_of_nil in Hp.
  - apply tiny_grounded.
Qed.
Lemma tiny_dead_sweeps : sweeping_strings [32] [] [[48]; []] (fun _ => []) [] [] tiny_dead.
Proof.
  split.
  - apply tiny_sweeping; [by right|done|by right].
  - by apply tiny_inner.
  - apply tiny_outer.
  - intros p Hp. by apply not_elem_of_nil in Hp.
  - apply tiny_grounded.
  - done.
  - intros i L Hi. cbn in Hi. lia.
  - done.
Qed.
(** A finalizer that does nothing. *)
Lemma no_finalizer : finalizer_ok (fun _ _ (g : gstate spec_float) => Ok g).
Proof. intros R UD SC OP T U tm u g Hre Hst _. exists R, UD, SC, OP, U, g. split_and!; [done|done|done|apply persists_refl]. Qed.

(** * The theorems *)

Section Spec.
Context {N : Type} `{LuaNumber N}.
Implicit Types (g : gstate N) (x y : GCObject N) (v : TValue N).

(** The colour of the object at [p] is right, but for the value [v] that was
    stored in it. *)
Record fine_but v (h : gmap Z (GCObject N)) (L : list Z) (p : Z) x : Prop := {
  fb_listed : p ∈ L -> isgray x = true;
  fb_gray : isgray x = true -> (listed (o_body x) = true -> p ∈ L) /\ match o_body x with TUSERDATA _ _ _ | TUPVAL (UClosed _) => False | _ => True end;
  fb_black : isblack x = true -> (forall c t, (c, t) ∈ refs h (o_body x) -> nonwhite h c \/ (c, t) ∈ vrefs v) /\ is_thread (o_body x) = false /\ is_open (o_body x) = false
}.
Lemma fine_but_done v h L p x : fine_but v h L p x -> (isblack x = true -> all_marked h (vrefs v)) -> (p ∈ L -> isgray x = true) /\ fine False h L p x.
Proof.
  intros [F1 F2 F3] Hv. split; [done|]. split; [done| |done]. intros Hb. destruct (F3 Hb) as (Hr & Ht & Ho). split_and!; [|done|done]. intros c t Hc. destruct (Hr c t Hc) as [?|Hc']; [done|by eapply Hv].
Qed.
Lemma barrier_cases p x v g : heap g !! p = Some x -> typed_refs (heap g) (vrefs v) ->
  luaC_barrier p v g = Ok g /\ (isblack x = true -> all_marked (heap g) (vrefs v)) \/
  isblack x = true /\ exists c y, is_Some (heap g !! c) /\ (forall d t, (d, t) ∈ vrefs v -> d = c) /\ heap g !! c = Some y /\ iswhite y = true /\ luaC_barrier p v g = luaC_barrierf p c g.
Proof.
  intros Ex Ht. unfold luaC_barrier. assert (vrefs v = [] /\ gcvalue v = None \/ exists c t, vrefs v = [(c, t)] /\ gcvalue v = Some c) as [[Er ->]|(c & t & Er & ->)] by (destruct v; cbn; eauto).
  - left. split; [done|]. intros _ d u Hd. rewrite Er in Hd. by apply not_elem_of_nil in Hd.
  - rewrite Er in *. destruct (Ht c t) as (y & Ey & _); [by left|]. unfold luaC_objbarrier. rewrite (obj_at_ok _ _ _ Ey). cbn [bind]. rewrite (obj_at_ok _ _ _ Ex). cbn [bind].
    destruct (iswhite y) eqn:Hw; [destruct (isblack x) eqn:Hb|]; cbn [andb]; [right|left..].
    + split; [done|]. exists c, y. split_and!; [by exists y|intros d u Hd; apply list_elem_of_singleton in Hd; congruence|done|done|done].
    + by split.
    + split; [done|]. intros _ d u Hd. apply list_elem_of_singleton in Hd as [= -> ->]. by exists y.
Qed.

(** C25: the write barrier returns and keeps the invariant of the mark phase:
    when the value [v] has been stored in the object at [p], whose colour was
    right before, all colours are right again after luaC_barrier; no object
    becomes white. *)
Theorem barrier_keeps_marking E D g G GA W p x v :
  gcstate g = GCSpropagate -> marking (also p E) D False g G GA W -> heap g !! p = Some x -> typed_refs (heap g) (vrefs v) -> fine_but v (heap g) (G ++ GA ++ W) p x ->
  exists g' G', luaC_barrier p v g = Ok g' /\ marking E D False g' G' GA W /\ marked g g' /\ kept g g'.
Proof.
  intros Hst M Ex Ht F. destruct (barrier_cases p x v g Ex Ht) as [[-> Hv]|(Hb & c & y & Hc & Hvc & Ey & Hw & ->)].
  - exists g, G. destruct (fine_but_done _ _ _ _ _ F Hv). split_and!; [done|by eapply marking_done|apply marked_refl|apply kept_refl].
  - unfold luaC_barrierf. rewrite Hst, Z.eqb_refl. assert (iswhite x = false) as Hwx. { destruct (iswhite x) eqn:E1; [|done]. destruct (mk_colour _ _ _ _ _ _ _ M p x Ex) as [_ C]. rewrite C in Hb; done. }
    pose proof (markobject_post _ _ _ _ _ _ _ c M Hc) as Hm. unfold markobject in Hm. rewrite (obj_at_ok _ _ _ Ey) in Hm. cbn [bind] in Hm. rewrite Hw in Hm.
    destruct (exempt_kept _ _ _ _ _ _ _ _ _ p x Hm Ex Hwx) as (g' & G' & -> & M' & Hmk & K & _ & Hn & z & Ez & Hs & Hsm). exists g', G'. split_and!; [done| |done|done].
    assert (isblack z = true) as Hbz by (by rewrite (same_black _ _ Hsm)). assert (isgray z = false) as Hgz by (unfold isgray; by rewrite Hbz). destruct (fb_black _ _ _ _ _ F Hb) as (Hr & Hth & Hop).
    destruct Hs as [_ Hs']. destruct (body_sim_listed _ _ Hs') as (_ & So & St). eapply marking_done; [exact M'|exact Ez| |split; [congruence| |done]].
    + rewrite Hgz. intros Hp. apply elem_of_app in Hp as [Hp|Hp].
      * destruct (mk_listed _ _ _ _ _ _ _ M' p) as (w & Ew & _ & _ & Hg); [apply elem_of_app; by left|]. rewrite Ez in Ew. injection Ew as <-. rewrite <- Hgz. apply Hg. by left.
      * assert (isgray x = true) as Hg by (apply (fb_listed _ _ _ _ _ F), elem_of_app; by right). unfold isgray in Hg. by rewrite Hb in Hg.
    + intros _. rewrite So, St. split_and!; [|done|done]. intros d t Hd. destruct (Hr d t) as [Hnw|Hdv]; [by eapply (refs_sim (heap g) (heap g') p x z); [apply Hmk|apply M|..]|by apply (md_mono _ _ Hmk)|].
      by rewrite (Hvc d t Hdv).
Qed.

(** C4: from any state in which the collector can be, with a finalizer that
    returns, one step of it returns; it leaves such a state again, one step
    nearer to the next pause unless it began there; and every object that can
    be reached from the roots is still there, with its type. *)
Theorem singlestep_frees_only_garbage calltm n g : finalizer_ok calltm -> collecting n g -> small g ->
  exists k g' n', singlestep calltm g = Ok (k, g') /\ collecting n' g' /\ (gcstate g <> GCSpause -> (n' < n)%nat) /\
    forall p, reach g p -> exists x y, heap g !! p = Some x /\ heap g' !! p = Some y /\ gch_tt y = gch_tt x.
Proof.
  intros Hf Hc Hsm. destruct (decide (gcstate g = GCSpause)) as [Hst|Hst].
  - destruct Hc as [R UD SC OP U E Hre|? ? ? ? ? ? ? ? ? E'|? ? ? ? ? ? E'|? ? ? ? E'|? ? ? ? ? ? E']; [|by rewrite Hst in E'..]. destruct (pause_step calltm R UD SC OP U g Hst Hre Hsm) as (g' & E1 & _ & Hc1 & Hk). by eexists _, g', _.
  - destruct (singlestep_post calltm Hf n g Hc Hst) as (k & g' & n' & E & Hn & Hc' & Hk & _). by exists k, g', n'.
Qed.

Lemma collecting_sweeping n g : collecting n g -> sweeping g.
Proof. intros [R UD SC OP U E Hre|R UD SC OP T U G GA W E Hp Hsm _|R UD SC OP T U E Hs Hsm _|SC T K rest E Hs Hsm _|R UD SC OP T U E Hre _]; [apply Hre|by eapply propagating_sweeping|apply Hs|apply Hs|apply Hre]. Qed.

(** C26: a step of the collector leaves a heap without dangling pointers: every
    object that can be reached after it has a body that is in order (the slots
    of stacks, tables and open upvalues exist), and each of its references is
    to an object of the type of the reference. *)
Theorem singlestep_well_typed calltm n g : finalizer_ok calltm -> collecting n g -> small g ->
  exists k g', singlestep calltm g = Ok (k, g') /\
    forall p, reach g' p -> exists x, heap g' !! p = Some x /\ body_ok (heap g') (o_body x) /\ forall c t, (c, t) ∈ refs (heap g') (o_body x) -> reach g' c /\ exists y, heap g' !! c = Some y /\ gch_tt y = t.
Proof.
  intros Hf Hc Hsm. assert (exists k g' n', singlestep calltm g = Ok (k, g') /\ collecting n' g') as (k & g' & n' & E & Hc').
  { destruct (decide (gcstate g = GCSpause)) as [Hst|Hst].
    - destruct Hc as [R UD SC OP U E Hre|? ? ? ? ? ? ? ? ? E'|? ? ? ? ? ? E'|? ? ? ? E'|? ? ? ? ? ? E']; [|by rewrite Hst in E'..]. destruct (pause_step calltm R UD SC OP U g Hst Hre Hsm) as (g' & E1 & _ & Hc1 & Hk). by eexists _, g', _.
    - destruct (singlestep_post calltm Hf n g Hc Hst) as (k & g' & n' & E & Hn & Hc' & _). by exists k, g', n'. }
  exists k, g'. split; [done|]. intros p Hp. pose proof (collecting_sweeping _ _ Hc') as Hsw. destruct (reach_live g' p Hsw Hp) as (x & Ex & Hl). exists x. split_and!; [done|by apply (sw_ok _ Hsw p)|].
  intros c t Hr. split; [by eapply reach_ref|]. destruct (sw_live _ Hsw p x c t Ex Hl Hr) as (y & Ey & Et & _). by exists y.
Qed.

(** C7: when the collector begins to sweep, the steps up to the finalizers
    return, and free exactly the dead: every live object stays, and what stays
    was live, or is a fixed string. *)
Theorem sweep_frees_the_dead calltm n g : finalizer_ok calltm -> collecting n g -> GCSsweepstring <= gcstate g -> small g ->
  exists g', loop (cycle_bound g) (until calltm GCSfinalize) g = Ok g' /\ gcstate g' = GCSfinalize /\
    (forall p x, heap g !! p = Some x -> live g x -> exists y, heap g' !! p = Some y /\ gch_tt y = gch_tt x) /\
    (forall p y, heap g' !! p = Some y -> exists x, heap g !! p = Some x /\ gch_tt y = gch_tt x /\ (live g x \/ gch_tt x = LUA_TSTRING /\ bit x FIXEDBIT = true)).
Proof.
  intros Hf Hc Hst Hsm. destruct (collecting_bound n g Hc) as (n1 & Hn1 & Hc1). destruct (until_finalize calltm Hf (cycle_bound g) n1 g Hc1 Hst Hsm Hn1) as (g' & n' & E & Hc' & Hst' & _ & Hev). exists g'. split_and!; [done|done| |].
  - intros p x Ex Hl. destruct (ev_forth _ _ Hev p x Ex Hl) as (y & Ey & Et & _). by exists y.
  - intros p y Ey. destruct (ev_back _ _ Hev p y Ey) as (x & Ex & Et & _ & _ & _ & HL & _). exists x. split_and!; [done|done|]. apply HL, (live_white g g'); [apply (ev_white _ _ Hev)|].
    destruct Hc' as [? ? ? ? ? E'|? ? ? ? ? ? ? ? ? E'|? ? ? ? ? ? E'|? ? ? ? E'|R UD SC OP T U _ Hre]; [by rewrite Hst' in E'..|]. by apply (rested_live _ _ _ _ _ _ _ _ _ Hre Ey).
Qed.

(** C6: from any state in which the collector can be, a full collection
    returns, and the collector pauses.  Every object that is left is white of
    the current cycle, and what the roots and the objects refer to is there,
    with the type of the reference. *)
Theorem fullgc_completes calltm n g : finalizer_ok calltm -> collecting n g -> small g ->
  exists g', luaC_fullgc calltm g = Ok g' /\ gcstate g' = GCSpause /\ collecting 0 g' /\ (forall p x, heap g' !! p = Some x -> clean g' x) /\
    (forall c t, (c, t) ∈ root_refs g' -> exists y, heap g' !! c = Some y /\ gch_tt y = t) /\
    forall p x c t, heap g' !! p = Some x -> (c, t) ∈ refs (heap g') (o_body x) -> exists y, heap g' !! c = Some y /\ gch_tt y = t.
Proof.
  intros Hf Hc Hsm. destruct (fullgc_post calltm Hf n g Hc Hsm) as (g' & E & Hst & R & UD & SC & OP & U & Hre). pose proof (re_sweeping _ _ _ _ _ _ _ Hre) as Hsw. exists g'. split_and!; [done|done|by eapply co_pause| | |].
  - intros p x Ex. apply (re_clean _ _ _ _ _ _ _ Hre p x Ex), not_elem_of_nil.
  - intros c t Hr. destruct (sw_roots _ Hsw c t Hr) as (y & Ey & Et & _). by exists y.
  - intros p x c t Ex Hr. destruct (sw_live _ Hsw p x c t Ex (proj1 (rested_live _ _ _ _ _ _ _ _ _ Hre Ex)) Hr) as (y & Ey & Et & _). by exists y.
Qed.
End Spec.

Lemma singlestep_frees_only_garbage_witness : exists k g' n', singlestep (fun _ _ g => Ok g) tiny_rest = Ok (k, g') /\ collecting n' g' /\ (gcstate tiny_rest <> GCSpause -> (n' < 0)%nat) /\
  forall p, reach tiny_rest p -> exists x y, heap tiny_rest !! p = Some x /\ heap g' !! p = Some y /\ gch_tt y = gch_tt x.
Proof. apply (singlestep_frees_only_garbage _ 0 tiny_rest); [exact no_finalizer|exact (co_pause 0 tiny_rest _ _ _ _ _ eq_refl tiny_rested)|by vm_compute]. Defined.

Lemma singlestep_well_typed_witness : exists k g', singlestep (fun _ _ g => Ok g) tiny_rest = Ok (k, g') /\
  forall p, reach g' p -> exists x, heap g' !! p = Some x /\ body_ok (heap g') (o_body x) /\ forall c t, (c, t) ∈ refs (heap g') (o_body x) -> reach g' c /\ exists y, heap g' !! c = Some y /\ gch_tt y = t.
Proof. apply (singlestep_well_typed _ 0 tiny_rest); [exact no_finalizer|exact (co_pause 0 tiny_rest _ _ _ _ _ eq_refl tiny_rested)|by vm_compute]. Defined.

Lemma sweep_frees_the_dead_witness : exists g', loop (cycle_bound tiny_dead) (until (fun _ _ g => Ok g) GCSfinalize) tiny_dead = Ok g' /\ gcstate g' = GCSfinalize /\
  (forall p x, heap tiny_dead !! p = Some x -> live tiny_dead x -> exists y, heap g' !! p = Some y /\ gch_tt y = gch_tt x) /\
  (forall p y, heap g' !! p = Some y -> exists x, heap tiny_dead !! p = Some x /\ gch_tt y = gch_tt x /\ (live tiny_dead x \/ gch_tt x = LUA_TSTRING /\ bit x FIXEDBIT = true)).
Proof.
  apply (sweep_frees_the_dead _ 100 tiny_dead); [exact no_finalizer| |by vm_compute|by vm_compute].
  apply (co_strings 100 tiny_dead _ _ _ _ _ _ eq_refl tiny_dead_sweeps); [by vm_compute|apply Nat.leb_le; by vm_compute].
Defined.
(** The upvalue and the string are gone. *)
Example sweep_example : (g' <- loop (cycle_bound tiny_dead) (until (fun _ _ g => Ok g) GCSfinalize) tiny_dead; Ok (elements (dom (heap g')))) = Ok [16].
Proof. by vm_compute. Qed.

Lemma fullgc_completes_witness : exists g', luaC_fullgc (fun _ _ g => Ok g) tiny_rest = Ok g' /\ gcstate g' = GCSpause /\ collecting 0 g' /\ (forall p x, heap g' !! p = Some x -> clean g' x) /\
  (forall c t, (c, t) ∈ root_refs g' -> exists y, heap g' !! c = Some y /\ gch_tt y = t) /\
  forall p x c t, heap g' !! p = Some x -> (c, t) ∈ refs (heap g') (o_body x) -> exists y, heap g' !! c = Some y /\ gch_tt y = t.
Proof. apply (fullgc_completes _ 0 tiny_rest); [exact no_finalizer|exact (co_pause 0 tiny_rest _ _ _ _ _ eq_refl tiny_rested)|by vm_compute]. Defined.

(** The upvalue is black, and the string in it white. *)
Definition tiny_stored : gstate spec_float := tiny GCSpropagate 33 97 4 1.
Lemma tiny_stored_marking : marking (also 32 (fun _ => False)) (fun _ => True) False tiny_stored [] [] [].
Proof.
  split; try done.
  - by left.
  - apply tiny_ok.
  - intros p x c t Ex Hr. apply tiny_lookup in Ex as [[-> ->]|[[-> ->]|[-> ->]]]; cbn in Hr; [by apply not_elem_of_nil in Hr| |by apply not_elem_of_nil in Hr]. apply list_elem_of_singleton in Hr as [= -> ->]. by eexists.
  - intros p x Ex. by apply tiny_lookup in Ex as [[-> ->]|[[-> ->]|[-> ->]]].
  - constructor.
  - intros p Hp. by apply not_elem_of_nil in Hp.
  - intros p x Ex HE. apply tiny_lookup in Ex as [[-> ->]|[[-> ->]|[-> ->]]]; [by split|destruct HE; by left|by split].
  - intros p x _ Hp. by apply not_elem_of_nil in Hp.
Qed.
Lemma barrier_keeps_marking_witness : exists g' G', luaC_barrier 32 (Str 48) tiny_stored = Ok g' /\ marking (fun _ => False) (fun _ => True) False g' G' [] [] /\ marked tiny_stored g' /\ kept tiny_stored g'.
Proof.
  apply (barrier_keeps_marking (fun _ => False) (fun _ => True) tiny_stored [] [] [] 32 (mkObj 16 4 0 (TUPVAL (UClosed (Str 48)))) (Str 48)); [done|exact tiny_stored_marking|done| |].
  - intros c t Hc. apply list_elem_of_singleton in Hc as [= -> ->]. by eexists.
  - split; [intros Hp; by apply not_elem_of_nil in Hp|done|]. intros _. split_and!; [intros c t Hc; by right|done|done].
Defined.
