(* ===== verification/LuaProto.v ===== *)
(** Function prototypes of Lua (lua/src/lobject.h, Proto): the data that the
    compiler produces, that luac writes to a file and loads back, and that the
    bytecode verifier checks.  An array with its size field is a list; a
    [TString*] is the bytes of the string, [None] for NULL; a number is any
    type [N]. *)
From stdpp Require Import base list.
From Stdlib Require Import ZArith Lia.
From S2P Require Import Prelude.
Open Scope Z_scope.

(** Constants: the values [DumpConstants] can write. *)
Inductive constant (N : Type) : Type :=
  | KNil
  | KBool (b : Z)
  | KNumber (n : N)
  | KString (s : option bytes).
Arguments KNil {N}.
Arguments KBool {N} b.
Arguments KNumber {N} n.
Arguments KString {N} s.

Record LocVar := mkLocVar { varname : option bytes; startpc : Z; endpc : Z }.

Inductive Proto (N : Type) : Type := mkProto {
  source : option bytes;
  linedefined : Z;
  lastlinedefined : Z;
  nups : Z;
  numparams : Z;
  is_vararg : Z;
  maxstacksize : Z;
  code : list Z;
  k : list (constant N);
  p : list (Proto N);
  lineinfo : list Z;
  locvars : list LocVar;
  upvalues : list (option bytes)
}.
Arguments mkProto {N} _ _ _ _ _ _ _ _ _ _ _ _ _.
Arguments source {N} _.
Arguments linedefined {N} _.
Arguments lastlinedefined {N} _.
Arguments nups {N} _.
Arguments numparams {N} _.
Arguments is_vararg {N} _.
Arguments maxstacksize {N} _.
Arguments code {N} _.
Arguments k {N} _.
Arguments p {N} _.
Arguments lineinfo {N} _.
Arguments locvars {N} _.
Arguments upvalues {N} _.

Definition VARARG_HASARG : Z := 1.
Definition VARARG_ISVARARG : Z := 2.
Definition VARARG_NEEDSARG : Z := 4.
Definition LUA_MULTRET : Z := -1.
Definition MAXSTACK : Z := 250.

Section Proto.
Context {N : Type}.
Implicit Types (f : Proto N).

Definition sizecode f : Z := Z.of_nat (length (code f)).
Definition sizek f : Z := Z.of_nat (length (k f)).
Definition sizep f : Z := Z.of_nat (length (p f)).
Definition sizelineinfo f : Z := Z.of_nat (length (lineinfo f)).
Definition sizelocvars f : Z := Z.of_nat (length (locvars f)).
Definition sizeupvalues f : Z := Z.of_nat (length (upvalues f)).

(** [pt->code[i]], [&pt->k[i]], [pt->p[i]]: outside the vector the C code has
    no defined result. *)
Definition at_ {A} (l : list A) (i : Z) (what : string) : res A :=
  if 0 <=? i then lift (l !! Z.to_nat i) what else Err what.
Definition code_at f (i : Z) : res Z := at_ (code f) i "code read out of bounds".
Definition k_at f (i : Z) : res (constant N) := at_ (k f) i "constant read out of bounds".
Definition p_at f (i : Z) : res (Proto N) := at_ (p f) i "prototype read out of bounds".

Lemma at_ok {A} (l : list A) i what :
  0 <= i < Z.of_nat (length l) -> exists x, at_ l i what = Ok x /\ l !! Z.to_nat i = Some x.
Proof.
  intros Hi. unfold at_. destruct (Z.leb_spec 0 i); [|lia].
  destruct (lookup_lt_is_Some_2 l (Z.to_nat i)) as [x Hx]; [lia|]. exists x. by rewrite Hx.
Qed.

Lemma at_inv {A} (l : list A) i what x :
  at_ l i what = Ok x -> 0 <= i < Z.of_nat (length l) /\ l !! Z.to_nat i = Some x.
Proof.
  unfold at_. destruct (Z.leb_spec 0 i); [|done].
  destruct (l !! Z.to_nat i) as [y|] eqn:E; [|done]. intros [= ->].
  apply lookup_lt_Some in E as ?. split; [lia|done].
Qed.

(** Induction over the nested functions. *)
Lemma Proto_ind' (P : Proto N -> Prop) :
  (forall f, Forall P (p f) -> P f) -> forall f, P f.
Proof.
  intros Hf. fix IH 1. intros f. apply Hf. destruct f. cbn.
  induction p0; constructor; [apply IH|done].
Qed.

Fixpoint depth f : nat := S (foldr (fun g d => Nat.max (depth g) d) O (p f)).
End Proto.
