(* ===== verification/LuaCode.v ===== *)
(** The code generator of Lua (lua/src/lcode.c): instructions and jump lists,
    registers, the constant table, and the expressions.

    The state is the part of FuncState and of its Proto that the generator
    uses.  The arrays [f->code] and [f->lineinfo] are lists: the entries up to
    their length have been written, [pc] is the next to write (jumponcond steps
    back over the last one).  luaM_growvector fails when one more element does
    not fit under its limit.  [u] of an expdesc is a record with the fields of
    the union, which are never read through another member.  Jump lists are
    followed with as many steps as there are instructions. *)
From stdpp Require Import base list.
From Stdlib Require Import ZArith Lia.
From S2P Require Import Prelude LuaOpcodes LuaNumber LuaTable LuaProto.
Open Scope Z_scope.

Definition NO_JUMP : Z := -1.
Definition LFIELDS_PER_FLUSH : Z := 50.

Inductive BinOpr :=
  | OPR_ADD | OPR_SUB | OPR_MUL | OPR_DIV | OPR_MOD | OPR_POW | OPR_CONCAT
  | OPR_NE | OPR_EQ | OPR_LT | OPR_LE | OPR_GT | OPR_GE | OPR_AND | OPR_OR | OPR_NOBINOPR.
Inductive UnOpr := OPR_MINUS | OPR_NOT | OPR_LEN | OPR_NOUNOPR.

Inductive expkind :=
  | VVOID | VNIL | VTRUE | VFALSE | VK | VKNUM | VLOCAL | VUPVAL | VGLOBAL | VINDEXED | VJMP
  | VRELOCABLE | VNONRELOC | VCALL | VVARARG.
#[export] Instance expkind_eq_dec : EqDecision expkind.
Proof. solve_decision. Defined.

Record expdesc (N : Type) := mkExp { e_k : expkind; e_info : Z; e_aux : Z; e_nval : N; e_t : Z; e_f : Z }.
Arguments mkExp {N} _ _ _ _ _ _.
Arguments e_k {N} _.
Arguments e_info {N} _.
Arguments e_aux {N} _.
Arguments e_nval {N} _.
Arguments e_t {N} _.
Arguments e_f {N} _.

Record FuncState (N : Type) := mkFS {
  fs_code : list Z;
  fs_lineinfo : list Z;
  fs_pc : Z;
  fs_lasttarget : Z;
  fs_jpc : Z;
  fs_freereg : Z;
  fs_nactvar : Z;
  fs_maxstacksize : Z;
  fs_h : Table N;             (** to find constants in [fs_kk] *)
  fs_kk : list (TValue N);    (** the constants; its length is [nk] *)
  fs_lastline : Z             (** [ls->lastline] *)
}.
Arguments mkFS {N} _ _ _ _ _ _ _ _ _ _ _.
Arguments fs_code {N} _.
Arguments fs_lineinfo {N} _.
Arguments fs_pc {N} _.
Arguments fs_lasttarget {N} _.
Arguments fs_jpc {N} _.
Arguments fs_freereg {N} _.
Arguments fs_nactvar {N} _.
Arguments fs_maxstacksize {N} _.
Arguments fs_h {N} _.
Arguments fs_kk {N} _.
Arguments fs_lastline {N} _.

(** The arithmetic of lua_Number on which constants are folded (luaconf.h). *)
Class NumArith (N : Type) := {
  num_zero : N;
  luai_numadd : N -> N -> N;
  luai_numsub : N -> N -> N;
  luai_nummul : N -> N -> N;
  luai_numdiv : N -> N -> N;
  luai_numpow : N -> N -> N;
  luai_numunm : N -> N;
  num_floor : N -> N
}.
Definition luai_nummod {N} `{NumArith N} (a b : N) : N := luai_numsub a (luai_nummul (num_floor (luai_numdiv a b)) b).

Declare Scope code_scope.
Delimit Scope code_scope with K.

Section Code.
Context {N : Type} `{LuaNumber N} `{NumArith N}.
Variable tsv_hash : Z -> Z.
(** The table [fs->h] as a key, which stands for the constant nil. *)
Variable h_key : TValue N.
Implicit Types (fs : FuncState N) (e : expdesc N).

Definition M (A : Type) : Type := FuncState N -> res (A * FuncState N).
Definition ret {A} (a : A) : M A := fun fs => Ok (a, fs).
Definition mbind {A B} (m : M A) (k : A -> M B) : M B := fun fs => '(a, fs) <- m fs; k a fs.
Definition fail {A} (msg : string) : M A := fun _ => Err msg.
Definition get : M (FuncState N) := fun fs => Ok (fs, fs).
Definition modify (f : FuncState N -> FuncState N) : M unit := fun fs => Ok (tt, f fs).
Local Notation "x <~ m ; k" := (mbind m (fun x => k)) (at level 20, m at level 100, k at level 200) : code_scope.
Local Notation "m ;; k" := (mbind m (fun _ => k)) (at level 100, k at level 200) : code_scope.
Local Open Scope code_scope.

Definition set_code (c : list Z) fs : FuncState N :=
  mkFS c (fs_lineinfo fs) (fs_pc fs) (fs_lasttarget fs) (fs_jpc fs) (fs_freereg fs) (fs_nactvar fs) (fs_maxstacksize fs) (fs_h fs) (fs_kk fs) (fs_lastline fs).
Definition set_lineinfo (l : list Z) fs : FuncState N :=
  mkFS (fs_code fs) l (fs_pc fs) (fs_lasttarget fs) (fs_jpc fs) (fs_freereg fs) (fs_nactvar fs) (fs_maxstacksize fs) (fs_h fs) (fs_kk fs) (fs_lastline fs).
Definition set_pc (p : Z) fs : FuncState N :=
  mkFS (fs_code fs) (fs_lineinfo fs) p (fs_lasttarget fs) (fs_jpc fs) (fs_freereg fs) (fs_nactvar fs) (fs_maxstacksize fs) (fs_h fs) (fs_kk fs) (fs_lastline fs).
Definition set_lasttarget (x : Z) fs : FuncState N :=
  mkFS (fs_code fs) (fs_lineinfo fs) (fs_pc fs) x (fs_jpc fs) (fs_freereg fs) (fs_nactvar fs) (fs_maxstacksize fs) (fs_h fs) (fs_kk fs) (fs_lastline fs).
Definition set_jpc (x : Z) fs : FuncState N :=
  mkFS (fs_code fs) (fs_lineinfo fs) (fs_pc fs) (fs_lasttarget fs) x (fs_freereg fs) (fs_nactvar fs) (fs_maxstacksize fs) (fs_h fs) (fs_kk fs) (fs_lastline fs).
Definition set_freereg (x : Z) fs : FuncState N :=
  mkFS (fs_code fs) (fs_lineinfo fs) (fs_pc fs) (fs_lasttarget fs) (fs_jpc fs) x (fs_nactvar fs) (fs_maxstacksize fs) (fs_h fs) (fs_kk fs) (fs_lastline fs).
Definition set_maxstacksize (x : Z) fs : FuncState N :=
  mkFS (fs_code fs) (fs_lineinfo fs) (fs_pc fs) (fs_lasttarget fs) (fs_jpc fs) (fs_freereg fs) (fs_nactvar fs) x (fs_h fs) (fs_kk fs) (fs_lastline fs).
Definition set_constants (h : Table N) (k : list (TValue N)) fs : FuncState N :=
  mkFS (fs_code fs) (fs_lineinfo fs) (fs_pc fs) (fs_lasttarget fs) (fs_jpc fs) (fs_freereg fs) (fs_nactvar fs) (fs_maxstacksize fs) h k (fs_lastline fs).

Definition set_k (k : expkind) e : expdesc N := mkExp k (e_info e) (e_aux e) (e_nval e) (e_t e) (e_f e).
Definition set_info (i : Z) e : expdesc N := mkExp (e_k e) i (e_aux e) (e_nval e) (e_t e) (e_f e).
Definition set_ki (k : expkind) (i : Z) e : expdesc N := mkExp k i (e_aux e) (e_nval e) (e_t e) (e_f e).
Definition set_t (t : Z) e : expdesc N := mkExp (e_k e) (e_info e) (e_aux e) (e_nval e) t (e_f e).
Definition set_f (f : Z) e : expdesc N := mkExp (e_k e) (e_info e) (e_aux e) (e_nval e) (e_t e) f.

Definition hasjumps e : bool := negb (e_t e =? e_f e).
Definition isnumeral e : bool := bool_decide (e_k e = VKNUM) && (e_t e =? NO_JUMP) && (e_f e =? NO_JUMP).

(** * Instructions and jump lists *)

Definition bad_code : string := "access outside the code".
Definition code_at (pc : Z) : M Z := fun fs =>
  if pc <? 0 then Err bad_code else match fs_code fs !! Z.to_nat pc with Some i => Ok (i, fs) | None => Err bad_code end.
Definition put_code (pc i : Z) : M unit := fun fs =>
  if (pc <? 0) || (Z.of_nat (length (fs_code fs)) <=? pc) then Err bad_code
  else Ok (tt, set_code (<[Z.to_nat pc := i]> (fs_code fs)) fs).

(** [v[n] = x] after luaM_growvector. *)
Definition grown_put (v : list Z) (n x : Z) : list Z :=
  if n <? Z.of_nat (length v) then <[Z.to_nat n := x]> v else v ++ [x].

Definition fixjump (pc dest : Z) : M unit :=
  jmp <~ code_at pc;
  let offset := dest - (pc + 1) in
  if MAXARG_sBx <? Z.abs offset then fail "control structure too long" else put_code pc (SETARG_sBx jmp offset).

Definition luaK_getlabel : M Z :=
  fs <~ get; modify (set_lasttarget (fs_pc fs));; ret (fs_pc fs).

Definition getjump (pc : Z) : M Z :=
  i <~ code_at pc;
  let offset := GETARG_sBx i in
  ret (if offset =? NO_JUMP then NO_JUMP else (pc + 1) + offset).

(** The position of the instruction that controls the jump at [pc]. *)
Definition getjumpcontrol (pc : Z) : M Z :=
  if 1 <=? pc then i <~ code_at (pc - 1); ret (if testTMode (GET_OPCODE i) then pc - 1 else pc) else ret pc.

(** The loops over jump lists. *)
Definition each_jump {S R} (body : S -> M (S + R)) (s : S) : M R := fun fs =>
  loop (2 + length (fs_code fs)) (fun '(s, fs) => '(r, fs) <- body s fs; Ok (match r with inl s => inl (s, fs) | inr r => inr (r, fs) end)) (s, fs).

Definition need_value (list : Z) : M bool :=
  each_jump (fun list =>
    if list =? NO_JUMP then ret (inr false)
    else
      c <~ getjumpcontrol list; i <~ code_at c;
      if negb (GET_OPCODE i =? op_num OP_TESTSET) then ret (inr true)
      else next <~ getjump list; ret (inl next)) list.

Definition patchtestreg (node reg : Z) : M bool :=
  c <~ getjumpcontrol node; i <~ code_at c;
  if negb (GET_OPCODE i =? op_num OP_TESTSET) then ret false
  else
    (if negb (reg =? NO_REG) && negb (reg =? GETARG_B i) then put_code c (SETARG_A i reg)
     else put_code c (CREATE_ABC (op_num OP_TEST) (GETARG_B i) 0 (GETARG_C i)));;
    ret true.

Definition removevalues (list : Z) : M unit :=
  each_jump (fun list =>
    if list =? NO_JUMP then ret (inr tt)
    else patchtestreg list NO_REG;; next <~ getjump list; ret (inl next)) list.

Definition patchlistaux (list vtarget reg dtarget : Z) : M unit :=
  each_jump (fun list =>
    if list =? NO_JUMP then ret (inr tt)
    else
      next <~ getjump list;
      b <~ patchtestreg list reg;
      (if b : bool then fixjump list vtarget else fixjump list dtarget);;
      ret (inl next)) list.

Definition dischargejpc : M unit :=
  fs <~ get; patchlistaux (fs_jpc fs) (fs_pc fs) NO_REG (fs_pc fs);; modify (set_jpc NO_JUMP).

(** The new head of the list [l1]. *)
Definition luaK_concat (l1 l2 : Z) : M Z :=
  if l2 =? NO_JUMP then ret l1
  else if l1 =? NO_JUMP then ret l2
  else
    last <~ each_jump (fun list => next <~ getjump list; ret (if next =? NO_JUMP then inr list else inl next)) l1;
    fixjump last l2;; ret l1.

Definition luaK_patchtohere (list : Z) : M unit :=
  luaK_getlabel;; fs <~ get; j <~ luaK_concat (fs_jpc fs) list; modify (set_jpc j).

Definition luaK_patchlist (list target : Z) : M unit :=
  fs <~ get;
  if target =? fs_pc fs then luaK_patchtohere list else patchlistaux list target NO_REG target.

Definition luaK_code (i line : Z) : M Z :=
  dischargejpc;;
  fs <~ get;
  let pc := fs_pc fs in
  if MAX_INT <? pc + 1 then fail "code size overflow"
  else
    modify (set_code (grown_put (fs_code fs) pc i));;
    modify (set_lineinfo (grown_put (fs_lineinfo fs) pc line));;
    modify (set_pc (pc + 1));; ret pc.

Definition luaK_codeABC (o : OpCode) (a b c : Z) : M Z :=
  fs <~ get; luaK_code (CREATE_ABC (op_num o) a b c) (fs_lastline fs).
Definition luaK_codeABx (o : OpCode) (a bc : Z) : M Z :=
  fs <~ get; luaK_code (CREATE_ABx (op_num o) a bc) (fs_lastline fs).
Definition luaK_codeAsBx (o : OpCode) (a sbx : Z) : M Z := luaK_codeABx o a (sbx + MAXARG_sBx).

Definition luaK_fixline (line : Z) : M unit :=
  fs <~ get;
  if (fs_pc fs - 1 <? 0) || (Z.of_nat (length (fs_lineinfo fs)) <=? fs_pc fs - 1) then fail bad_code
  else modify (set_lineinfo (<[Z.to_nat (fs_pc fs - 1) := line]> (fs_lineinfo fs))).

Definition luaK_nil (from n : Z) : M unit :=
  let code := luaK_codeABC OP_LOADNIL from (from + n - 1) 0;; ret tt in
  fs <~ get;
  if fs_lasttarget fs <? fs_pc fs then
    if fs_pc fs =? 0 then if fs_nactvar fs <=? from then ret tt else code
    else
      previous <~ code_at (fs_pc fs - 1);
      if GET_OPCODE previous =? op_num OP_LOADNIL then
        let pfrom := GETARG_A previous in
        let pto := GETARG_B previous in
        if (pfrom <=? from) && (from <=? pto + 1) then
          if pto <? from + n - 1 then put_code (fs_pc fs - 1) (SETARG_B previous (from + n - 1)) else ret tt
        else code
      else code
  else code.

Definition luaK_jump : M Z :=
  fs <~ get;
  let jpc := fs_jpc fs in
  modify (set_jpc NO_JUMP);;
  j <~ luaK_codeAsBx OP_JMP 0 NO_JUMP;
  luaK_concat j jpc.

Definition luaK_ret (first nret : Z) : M unit := luaK_codeABC OP_RETURN first (nret + 1) 0;; ret tt.

Definition condjump (op : OpCode) (A B C : Z) : M Z := luaK_codeABC op A B C;; luaK_jump.

Definition code_label (A b jump : Z) : M Z := luaK_getlabel;; luaK_codeABC OP_LOADBOOL A b jump.

(** * Registers *)

Definition luaK_checkstack (n : Z) : M unit :=
  fs <~ get;
  let newstack := fs_freereg fs + n in
  if fs_maxstacksize fs <? newstack then
    if MAXSTACK <=? newstack then fail "function or expression too complex"
    else modify (set_maxstacksize (u8 newstack))
  else ret tt.

Definition luaK_reserveregs (n : Z) : M unit :=
  luaK_checkstack n;; fs <~ get; modify (set_freereg (fs_freereg fs + n)).

Definition freereg (reg : Z) : M unit :=
  fs <~ get;
  if negb (ISK reg) && (fs_nactvar fs <=? reg) then modify (set_freereg (fs_freereg fs - 1)) else ret tt.

Definition freeexp e : M unit := if decide (e_k e = VNONRELOC) then freereg (e_info e) else ret tt.

(** * Constants *)

Definition addk (k v : TValue N) : M Z := fun fs =>
  '(h, idx) <- luaH_set tsv_hash (fs_h fs) k;
  match slot_get h idx with
  | Number n => Ok (lua_number2int n, set_constants h (fs_kk fs) fs)
  | _ =>
      let nk := Z.of_nat (length (fs_kk fs)) in
      let h := slot_set h idx (Number (cast_num nk)) in
      if MAXARG_Bx <? nk + 1 then Err "constant table overflow"
      else Ok (nk, set_constants h (fs_kk fs ++ [v]) fs)
  end.

Definition luaK_stringK (s : Z) : M Z := addk (Str s) (Str s).
Definition luaK_numberK (r : N) : M Z := addk (Number r) (Number r).
Definition boolK (b : bool) : M Z := addk (Bool b) (Bool b).
Definition nilK : M Z := addk h_key Nil.

(** * Expressions *)

Definition luaK_setreturns e (nresults : Z) : M unit :=
  match e_k e with
  | VCALL => i <~ code_at (e_info e); put_code (e_info e) (SETARG_C i (nresults + 1))
  | VVARARG =>
      i <~ code_at (e_info e); put_code (e_info e) (SETARG_B i (nresults + 1));;
      i <~ code_at (e_info e); fs <~ get; put_code (e_info e) (SETARG_A i (fs_freereg fs));;
      luaK_reserveregs 1
  | _ => ret tt
  end.

Definition luaK_setoneret e : M (expdesc N) :=
  match e_k e with
  | VCALL => i <~ code_at (e_info e); ret (set_ki VNONRELOC (GETARG_A i) e)
  | VVARARG => i <~ code_at (e_info e); put_code (e_info e) (SETARG_B i 2);; ret (set_k VRELOCABLE e)
  | _ => ret e
  end.

Definition luaK_dischargevars e : M (expdesc N) :=
  match e_k e with
  | VLOCAL => ret (set_k VNONRELOC e)
  | VUPVAL => i <~ luaK_codeABC OP_GETUPVAL 0 (e_info e) 0; ret (set_ki VRELOCABLE i e)
  | VGLOBAL => i <~ luaK_codeABx OP_GETGLOBAL 0 (e_info e); ret (set_ki VRELOCABLE i e)
  | VINDEXED =>
      freereg (e_aux e);; freereg (e_info e);;
      i <~ luaK_codeABC OP_GETTABLE 0 (e_info e) (e_aux e); ret (set_ki VRELOCABLE i e)
  | VVARARG | VCALL => luaK_setoneret e
  | _ => ret e
  end.

Definition discharge2reg e (reg : Z) : M (expdesc N) :=
  e <~ luaK_dischargevars e;
  let done := ret (set_ki VNONRELOC reg e) in
  match e_k e with
  | VNIL => luaK_nil reg 1;; done
  | VFALSE | VTRUE => luaK_codeABC OP_LOADBOOL reg (if decide (e_k e = VTRUE) then 1 else 0) 0;; done
  | VK => luaK_codeABx OP_LOADK reg (e_info e);; done
  | VKNUM => k <~ luaK_numberK (e_nval e); luaK_codeABx OP_LOADK reg k;; done
  | VRELOCABLE => i <~ code_at (e_info e); put_code (e_info e) (SETARG_A i reg);; done
  | VNONRELOC => (if negb (reg =? e_info e) then luaK_codeABC OP_MOVE reg (e_info e) 0;; ret tt else ret tt);; done
  | _ => ret e
  end.

Definition discharge2anyreg e : M (expdesc N) :=
  if decide (e_k e <> VNONRELOC) then luaK_reserveregs 1;; fs <~ get; discharge2reg e (fs_freereg fs - 1) else ret e.

Definition exp2reg e (reg : Z) : M (expdesc N) :=
  e <~ discharge2reg e reg;
  e <~ (if decide (e_k e = VJMP) then t <~ luaK_concat (e_t e) (e_info e); ret (set_t t e) else ret e);
  (if hasjumps e then
     nt <~ need_value (e_t e);
     nv <~ (if nt : bool then ret true else need_value (e_f e));
     pfpt <~ (if nv : bool then
                fj <~ (if decide (e_k e = VJMP) then ret NO_JUMP else luaK_jump);
                p_f <~ code_label reg 0 1;
                p_t <~ code_label reg 1 0;
                luaK_patchtohere fj;; ret (p_f, p_t)
              else ret (NO_JUMP, NO_JUMP));
     final <~ luaK_getlabel;
     patchlistaux (e_f e) final reg (fst pfpt);;
     patchlistaux (e_t e) final reg (snd pfpt)
   else ret tt);;
  ret (mkExp VNONRELOC reg (e_aux e) (e_nval e) NO_JUMP NO_JUMP).

Definition luaK_exp2nextreg e : M (expdesc N) :=
  e <~ luaK_dischargevars e;
  freeexp e;; luaK_reserveregs 1;; fs <~ get; exp2reg e (fs_freereg fs - 1).

(** The register, which is also in the description. *)
Definition luaK_exp2anyreg e : M (Z * expdesc N) :=
  e <~ luaK_dischargevars e;
  let default := e <~ luaK_exp2nextreg e; ret (e_info e, e) in
  if decide (e_k e = VNONRELOC) then
    if negb (hasjumps e) then ret (e_info e, e)
    else
      fs <~ get;
      if fs_nactvar fs <=? e_info e then e' <~ exp2reg e (e_info e); ret (e_info e', e') else default
  else default.

Definition luaK_exp2val e : M (expdesc N) :=
  if hasjumps e then r <~ luaK_exp2anyreg e; ret (snd r) else luaK_dischargevars e.

Definition luaK_exp2RK e : M (Z * expdesc N) :=
  e <~ luaK_exp2val e;
  match e_k e with
  | VKNUM | VTRUE | VFALSE | VNIL =>
      fs <~ get;
      if Z.of_nat (length (fs_kk fs)) <=? MAXINDEXRK then
        i <~ (if decide (e_k e = VNIL) then nilK
              else if decide (e_k e = VKNUM) then luaK_numberK (e_nval e)
              else boolK (bool_decide (e_k e = VTRUE)));
        ret (RKASK i, set_ki VK i e)
      else luaK_exp2anyreg e
  | VK => if e_info e <=? MAXINDEXRK then ret (RKASK (e_info e), e) else luaK_exp2anyreg e
  | _ => luaK_exp2anyreg e
  end.

Definition luaK_storevar (var ex : expdesc N) : M unit :=
  match e_k var with
  | VLOCAL => freeexp ex;; exp2reg ex (e_info var);; ret tt
  | VUPVAL => r <~ luaK_exp2anyreg ex; luaK_codeABC OP_SETUPVAL (fst r) (e_info var) 0;; freeexp (snd r)
  | VGLOBAL => r <~ luaK_exp2anyreg ex; luaK_codeABx OP_SETGLOBAL (fst r) (e_info var);; freeexp (snd r)
  | VINDEXED => r <~ luaK_exp2RK ex; luaK_codeABC OP_SETTABLE (e_info var) (e_aux var) (fst r);; freeexp (snd r)
  | _ => freeexp ex
  end.

Definition luaK_self e (key : expdesc N) : M (expdesc N) :=
  r <~ luaK_exp2anyreg e;
  let e := snd r in
  freeexp e;;
  fs <~ get;
  let func := fs_freereg fs in
  luaK_reserveregs 2;;
  rk <~ luaK_exp2RK key;
  luaK_codeABC OP_SELF func (e_info e) (fst rk);;
  freeexp (snd rk);;
  ret (set_ki VNONRELOC func e).

Definition invertjump e : M unit :=
  pc <~ getjumpcontrol (e_info e);
  i <~ code_at pc;
  put_code pc (SETARG_A i (if GETARG_A i =? 0 then 1 else 0)).

Definition jumponcond e (cond : Z) : M Z :=
  let other :=
    e <~ discharge2anyreg e;
    freeexp e;;
    condjump OP_TESTSET NO_REG (e_info e) cond in
  if decide (e_k e = VRELOCABLE) then
    ie <~ code_at (e_info e);
    if GET_OPCODE ie =? op_num OP_NOT then
      fs <~ get; modify (set_pc (fs_pc fs - 1));;
      condjump OP_TEST (GETARG_B ie) 0 (if cond =? 0 then 1 else 0)
    else other
  else other.

Definition luaK_goiftrue e : M (expdesc N) :=
  e <~ luaK_dischargevars e;
  pc <~ match e_k e with
        | VK | VKNUM | VTRUE => ret NO_JUMP
        | VFALSE => luaK_jump
        | VJMP => invertjump e;; ret (e_info e)
        | _ => jumponcond e 0
        end;
  f <~ luaK_concat (e_f e) pc;
  luaK_patchtohere (e_t e);;
  ret (set_t NO_JUMP (set_f f e)).

Definition luaK_goiffalse e : M (expdesc N) :=
  e <~ luaK_dischargevars e;
  pc <~ match e_k e with
        | VNIL | VFALSE => ret NO_JUMP
        | VTRUE => luaK_jump
        | VJMP => ret (e_info e)
        | _ => jumponcond e 1
        end;
  t <~ luaK_concat (e_t e) pc;
  luaK_patchtohere (e_f e);;
  ret (set_f NO_JUMP (set_t t e)).

Definition codenot e : M (expdesc N) :=
  e <~ luaK_dischargevars e;
  e <~ match e_k e with
       | VNIL | VFALSE => ret (set_k VTRUE e)
       | VK | VKNUM | VTRUE => ret (set_k VFALSE e)
       | VJMP => invertjump e;; ret e
       | VRELOCABLE | VNONRELOC =>
           e <~ discharge2anyreg e;
           freeexp e;;
           i <~ luaK_codeABC OP_NOT 0 (e_info e) 0;
           ret (set_ki VRELOCABLE i e)
       | _ => ret e
       end;
  let e := mkExp (e_k e) (e_info e) (e_aux e) (e_nval e) (e_f e) (e_t e) in
  removevalues (e_f e);; removevalues (e_t e);; ret e.

Definition luaK_indexed (t k : expdesc N) : M (expdesc N) :=
  r <~ luaK_exp2RK k; ret (mkExp VINDEXED (e_info t) (fst r) (e_nval t) (e_t t) (e_f t)).

(** The folded [e1], if any. *)
Definition constfolding (op : OpCode) (e1 e2 : expdesc N) : option (expdesc N) :=
  if negb (isnumeral e1) || negb (isnumeral e2) then None
  else
    let v1 := e_nval e1 in
    let v2 := e_nval e2 in
    let r := match op with
             | OP_ADD => Some (luai_numadd v1 v2)
             | OP_SUB => Some (luai_numsub v1 v2)
             | OP_MUL => Some (luai_nummul v1 v2)
             | OP_DIV => if luai_numeq v2 num_zero then None else Some (luai_numdiv v1 v2)
             | OP_MOD => if luai_numeq v2 num_zero then None else Some (luai_nummod v1 v2)
             | OP_POW => Some (luai_numpow v1 v2)
             | OP_UNM => Some (luai_numunm v1)
             | OP_LEN => None
             | _ => Some num_zero
             end in
    match r with
    | Some r => if luai_numisnan r then None else Some (mkExp (e_k e1) (e_info e1) (e_aux e1) r (e_t e1) (e_f e1))
    | None => None
    end.

Definition codearith (op : OpCode) (e1 e2 : expdesc N) : M (expdesc N) :=
  match constfolding op e1 e2 with
  | Some e1 => ret e1
  | None =>
      r2 <~ (if decide (op <> OP_UNM /\ op <> OP_LEN) then luaK_exp2RK e2 else ret (0, e2));
      r1 <~ luaK_exp2RK e1;
      let (o2, e2) := r2 : Z * expdesc N in
      let (o1, e1) := r1 : Z * expdesc N in
      (if o2 <? o1 then freeexp e1;; freeexp e2 else freeexp e2;; freeexp e1);;
      i <~ luaK_codeABC op 0 o1 o2;
      ret (set_ki VRELOCABLE i e1)
  end.

Definition codecomp (op : OpCode) (cond : Z) (e1 e2 : expdesc N) : M (expdesc N) :=
  r1 <~ luaK_exp2RK e1;
  r2 <~ luaK_exp2RK e2;
  let (o1, e1) := r1 : Z * expdesc N in
  let (o2, e2) := r2 : Z * expdesc N in
  freeexp e2;; freeexp e1;;
  i <~ (if (cond =? 0) && bool_decide (op <> OP_EQ) then condjump op 1 o2 o1 else condjump op cond o1 o2);
  ret (set_ki VJMP i e1).

Definition luaK_prefix (op : UnOpr) e : M (expdesc N) :=
  let e2 := mkExp VKNUM 0 0 num_zero NO_JUMP NO_JUMP in
  match op with
  | OPR_MINUS =>
      e <~ (if decide (e_k e = VK) then r <~ luaK_exp2anyreg e; ret (snd r) else ret e);
      codearith OP_UNM e e2
  | OPR_NOT => codenot e
  | OPR_LEN => r <~ luaK_exp2anyreg e; codearith OP_LEN (snd r) e2
  | OPR_NOUNOPR => ret e
  end.

Definition luaK_infix (op : BinOpr) (v : expdesc N) : M (expdesc N) :=
  match op with
  | OPR_AND => luaK_goiftrue v
  | OPR_OR => luaK_goiffalse v
  | OPR_CONCAT => luaK_exp2nextreg v
  | OPR_ADD | OPR_SUB | OPR_MUL | OPR_DIV | OPR_MOD | OPR_POW =>
      if negb (isnumeral v) then r <~ luaK_exp2RK v; ret (snd r) else ret v
  | _ => r <~ luaK_exp2RK v; ret (snd r)
  end.

Definition luaK_posfix (op : BinOpr) (e1 e2 : expdesc N) : M (expdesc N) :=
  match op with
  | OPR_AND =>
      e2 <~ luaK_dischargevars e2; f <~ luaK_concat (e_f e2) (e_f e1); ret (set_f f e2)
  | OPR_OR =>
      e2 <~ luaK_dischargevars e2; t <~ luaK_concat (e_t e2) (e_t e1); ret (set_t t e2)
  | OPR_CONCAT =>
      e2 <~ luaK_exp2val e2;
      let other := e2 <~ luaK_exp2nextreg e2; codearith OP_CONCAT e1 e2 in
      if decide (e_k e2 = VRELOCABLE) then
        i <~ code_at (e_info e2);
        if GET_OPCODE i =? op_num OP_CONCAT then
          freeexp e1;;
          i <~ code_at (e_info e2);
          put_code (e_info e2) (SETARG_B i (e_info e1));;
          ret (set_ki VRELOCABLE (e_info e2) e1)
        else other
      else other
  | OPR_ADD => codearith OP_ADD e1 e2
  | OPR_SUB => codearith OP_SUB e1 e2
  | OPR_MUL => codearith OP_MUL e1 e2
  | OPR_DIV => codearith OP_DIV e1 e2
  | OPR_MOD => codearith OP_MOD e1 e2
  | OPR_POW => codearith OP_POW e1 e2
  | OPR_EQ => codecomp OP_EQ 1 e1 e2
  | OPR_NE => codecomp OP_EQ 0 e1 e2
  | OPR_LT => codecomp OP_LT 1 e1 e2
  | OPR_LE => codecomp OP_LE 1 e1 e2
  | OPR_GT => codecomp OP_LT 0 e1 e2
  | OPR_GE => codecomp OP_LE 0 e1 e2
  | OPR_NOBINOPR => ret e1
  end.

Definition luaK_setlist (base nelems tostore : Z) : M unit :=
  let c := Z.quot (nelems - 1) LFIELDS_PER_FLUSH + 1 in
  let b := if tostore =? LUA_MULTRET then 0 else tostore in
  (if c <=? MAXARG_C then luaK_codeABC OP_SETLIST base b c;; ret tt
   else
     luaK_codeABC OP_SETLIST base b 0;;
     fs <~ get; luaK_code (u32 c) (fs_lastline fs);; ret tt);;
  modify (set_freereg (base + 1)).
End Code.
