(* ===== verification/LuaCodeWf.v ===== *)
(** The code generator of Lua: jump lists.  A jump list is threaded through
    the operands of the jumps themselves; concatenation appends, patching
    redirects every jump of the list, and emitting an instruction resolves the
    jumps that were pending to its position.

    The code generator of Lua: the invariant of its state, and that every
    operation preserves it. *)
From stdpp Require Import base list.
From Stdlib Require Import ZArith Lia.
From S2P Require Import Prelude LuaOpcodes LuaNumber LuaTable LuaProto LuaCode.
Open Scope Z_scope.


(** * Code arrays *)

Definition cget (c : list Z) (p : Z) : option Z := if p <? 0 then None else c !! Z.to_nat p.
Definition cset (c : list Z) (p i : Z) : list Z := <[Z.to_nat p := i]> c.

Lemma cget_range c p i : cget c p = Some i -> 0 <= p < Z.of_nat (length c).
Proof. unfold cget. case_zbool (p <? 0); [done|]. intros H%lookup_lt_Some. lia. Qed.
Lemma cget_some c p : 0 <= p < Z.of_nat (length c) -> exists i, cget c p = Some i.
Proof. intros Hp. unfold cget. rewrite (proj2 (Z.ltb_ge _ _)) by lia. apply lookup_lt_is_Some_2. lia. Qed.
Lemma cget_same c p i : 0 <= p < Z.of_nat (length c) -> cget (cset c p i) p = Some i.
Proof. intros Hp. unfold cget, cset. rewrite (proj2 (Z.ltb_ge _ _)) by lia. apply list_lookup_insert_eq. lia. Qed.
Lemma cget_other c p q i : 0 <= p -> p <> q -> cget (cset c p i) q = cget c q.
Proof. intros Hp Hne. unfold cget, cset. case_zbool (q <? 0); [done|]. apply list_lookup_insert_ne. lia. Qed.
Lemma length_cset c p i : length (cset c p i) = length c.
Proof. apply length_insert. Qed.

(** * Operands *)

Lemma TMode_TESTSET : testTMode (op_num OP_TESTSET) = true. Proof. reflexivity. Qed.
Lemma TMode_TEST : testTMode (op_num OP_TEST) = true. Proof. reflexivity. Qed.

Lemma sBx_set i o : Z.abs o <= MAXARG_sBx -> GETARG_sBx (SETARG_sBx i o) = o.
Proof.
  unfold GETARG_sBx, SETARG_sBx. change MAXARG_sBx with 131071. intros Ho. op_fields.
  rewrite (wrap_small 32) by lia. rewrite wrap_small by lia. lia.
Qed.
Lemma op_set_sBx i o : GET_OPCODE (SETARG_sBx i o) = GET_OPCODE i.
Proof. unfold SETARG_sBx. op_fields. done. Qed.
Lemma op_set_A i a : GET_OPCODE (SETARG_A i a) = GET_OPCODE i.
Proof. op_fields. done. Qed.

(** * Jump lists *)

Definition next_jump (p i : Z) : Z := if GETARG_sBx i =? NO_JUMP then NO_JUMP else p + 1 + GETARG_sBx i.

(** The list that starts at [l] goes through the jumps at [ps]. *)
Inductive jlist (c : list Z) : Z -> list Z -> Prop :=
  | jl_end : jlist c NO_JUMP []
  | jl_jump p i ps : cget c p = Some i -> jlist c (next_jump p i) ps -> jlist c p (p :: ps).

Lemma jlist_det c l ps ps' : jlist c l ps -> jlist c l ps' -> ps = ps'.
Proof.
  intros H. revert ps'. induction H as [|p i ps Hi H IH]; intros ps' H'.
  - inversion H' as [|? ? ? Hi]; [done|]. apply cget_range in Hi. unfold NO_JUMP in *. lia.
  - inversion H' as [E|? i' ps1 Hi' H1]; subst; [apply cget_range in Hi; unfold NO_JUMP in *; lia|].
    f_equal. apply IH. congruence.
Qed.

Lemma jlist_suffix c l ps q : jlist c l ps -> q ∈ ps -> exists ps', jlist c q ps' /\ (length ps' <= length ps)%nat.
Proof.
  intros H. induction H as [|p i ps Hi H IH]; intros Hq; [by apply not_elem_of_nil in Hq|].
  apply elem_of_cons in Hq as [->|Hq].
  - exists (p :: ps). split; [by eapply jl_jump|done].
  - destruct (IH Hq) as (ps' & ? & ?). exists ps'. split; [done|cbn; lia].
Qed.

Lemma jlist_NoDup c l ps : jlist c l ps -> NoDup ps.
Proof.
  intros H. induction H as [|p i ps Hi H IH]; [constructor|]. apply NoDup_cons. split; [|done]. intros Hp.
  destruct (jlist_suffix _ _ _ _ H Hp) as (ps' & H' & Hlen).
  assert (p :: ps = ps') as <- by (eapply jlist_det; [by eapply jl_jump|done]). cbn in Hlen. lia.
Qed.

Lemma jlist_in c l ps q : jlist c l ps -> q ∈ ps -> exists i, cget c q = Some i.
Proof.
  intros H Hq. destruct (jlist_suffix _ _ _ _ H Hq) as (ps' & H' & _). inversion H' as [E|? i ? Hi]; [|eauto].
  subst. clear H'. exfalso. induction H as [|p i ps Hi H IH]; [by apply not_elem_of_nil in Hq|].
  apply elem_of_cons in Hq as [E|Hq]; [|by apply IH]. apply cget_range in Hi. unfold NO_JUMP in *. lia.
Qed.

Lemma jlist_length c l ps : jlist c l ps -> (length ps <= length c)%nat.
Proof.
  intros H. assert (length (Z.to_nat <$> ps) <= length (seq 0 (length c)))%nat as Hle.
  - apply submseteq_length, NoDup_submseteq.
    + assert (forall p, p ∈ ps -> 0 <= p) as Hpos by (intros p Hp; destruct (jlist_in _ _ _ _ H Hp) as [i Hi%cget_range]; lia).
      apply NoDup_fmap_2_strong; [|by eapply jlist_NoDup]. intros x y Hx Hy E. apply Hpos in Hx, Hy. lia.
    + intros x (p & -> & Hp)%list_elem_of_fmap. destruct (jlist_in _ _ _ _ H Hp) as [i Hi%cget_range]. apply elem_of_seq. lia.
  - by rewrite length_fmap, length_seq in Hle.
Qed.

Lemma jlist_ext c c' l ps : (forall p, p ∈ ps -> cget c' p = cget c p) -> jlist c l ps -> jlist c' l ps.
Proof.
  intros He H. induction H as [|p i ps Hi H IH]; [constructor|]. eapply jl_jump; [rewrite He; [done|left]|].
  apply IH. intros q Hq. apply He. by right.
Qed.

(** Redirecting the last jump to the head of another list appends it. *)
Lemma jlist_append c l ps q i l2 ps2 :
  jlist c l (ps ++ [q]) -> cget c q = Some i -> jlist c l2 ps2 -> l2 <> NO_JUMP ->
  (forall p, p ∈ ps ++ [q] -> p ∉ ps2) -> Z.abs (l2 - (q + 1)) <= MAXARG_sBx ->
  jlist (cset c q (SETARG_sBx i (l2 - (q + 1)))) l ((ps ++ [q]) ++ ps2).
Proof.
  intros H Hi H2 Hl2 Hdis Hoff. pose proof (jlist_NoDup _ _ _ H) as Hnd. pose proof (cget_range _ _ _ Hi) as Hq.
  set (c' := cset _ _ _). assert (forall p, p <> q -> cget c' p = cget c p) as Hsame by (intros p Hp; apply cget_other; lia).
  assert (jlist c' l2 ps2) as H2'.
  { eapply jlist_ext; [|done]. intros p Hp. apply Hsame. intros ->. eapply Hdis; [|done]. rewrite elem_of_app. right. by left. }
  assert (l2 <> q) as Hne.
  { intros ->. eapply (Hdis q); [rewrite elem_of_app; right; by left|]. inversion H2; [done|]. by left. }
  clear Hdis. revert l H Hnd. induction ps as [|p ps IH]; intros l H Hnd; cbn [app] in *.
  - inversion H; subst. eapply jl_jump; [apply cget_same; lia|]. unfold next_jump. rewrite sBx_set by done.
    rewrite (proj2 (Z.eqb_neq _ _)) by (unfold NO_JUMP; lia). by replace (q + 1 + (l2 - (q + 1))) with l2 by lia.
  - inversion H as [|? j ? Hj Hn]; subst. apply NoDup_cons in Hnd as [Hpn Hnd]. eapply jl_jump.
    + rewrite Hsame; [done|]. intros ->. apply Hpn. rewrite elem_of_app. right. by left.
    + by apply IH.
Qed.

(** * The operations on jump lists *)

Section Jumps.
Context {N : Type} `{LuaNumber N}.
Implicit Types (fs : FuncState N) (c : list Z).

(** The message of an operation that may fail on long jumps. *)
Definition too_long : string := "control structure too long".

Lemma code_at_eq fs p i : cget (fs_code fs) p = Some i -> code_at p fs = Ok (i, fs).
Proof. unfold code_at, cget. destruct (p <? 0); [done|]. by intros ->. Qed.
Lemma put_code_eq fs p i j : cget (fs_code fs) p = Some i -> put_code p j fs = Ok (tt, set_code (cset (fs_code fs) p j) fs).
Proof.
  intros Hi%cget_range. unfold put_code. rewrite (proj2 (Z.ltb_ge _ _)), (proj2 (Z.leb_gt _ _)) by lia. done.
Qed.

Lemma getjump_eq fs p i : cget (fs_code fs) p = Some i -> getjump p fs = Ok (next_jump p i, fs).
Proof. intros Hi. unfold getjump, mbind, ret. rewrite (code_at_eq _ _ _ Hi). done. Qed.

Lemma fixjump_eq fs p i d :
  cget (fs_code fs) p = Some i ->
  fixjump p d fs = if MAXARG_sBx <? Z.abs (d - (p + 1)) then Err too_long
                   else Ok (tt, set_code (cset (fs_code fs) p (SETARG_sBx i (d - (p + 1)))) fs).
Proof.
  intros Hi. unfold fixjump, mbind. rewrite (code_at_eq _ _ _ Hi). cbn [bind]. destruct (_ <? _); [done|]. by apply (put_code_eq _ _ i).
Qed.

Lemma concat_last fs l ps q :
  jlist (fs_code fs) l (ps ++ [q]) ->
  each_jump (fun list => mbind (getjump list) (fun next => ret (if next =? NO_JUMP then inr list else inl next))) l fs = Ok (q, fs).
Proof.
  intros Hl. pose proof (jlist_length _ _ _ Hl) as Hlen. unfold each_jump.
  assert (length ps < 2 + length (fs_code fs))%nat as Hf by (rewrite length_app in Hlen; cbn in Hlen; lia).
  clear Hlen. revert l ps Hl Hf. generalize (2 + length (fs_code fs))%nat as n. induction n as [|n IH]; intros l ps Hl Hf; [lia|].
  cbn [loop]. unfold mbind at 1. destruct ps as [|p ps]; cbn [app] in Hl; inversion Hl as [|? i ? Hi Hn]; subst.
  - rewrite (getjump_eq _ _ _ Hi). inversion Hn. done.
  - rewrite (getjump_eq _ _ _ Hi). cbn [bind ret]. assert (0 <= next_jump p i) as Hp'.
    { destruct (ps ++ [q]) as [|x r] eqn:Ex; [by destruct ps|]. inversion Hn as [|? ? ? Hi' _]; subst. apply cget_range in Hi'. lia. }
    rewrite (proj2 (Z.eqb_neq _ _)) by (unfold NO_JUMP; lia). cbn [bind]. apply (IH _ ps); [done|cbn in Hf; lia].
Qed.

Lemma concat_ok fs l1 ps1 l2 ps2 :
  jlist (fs_code fs) l1 ps1 -> jlist (fs_code fs) l2 ps2 -> (forall p, p ∈ ps1 -> p ∉ ps2) ->
  luaK_concat l1 l2 fs = Err too_long \/
  exists l c, luaK_concat l1 l2 fs = Ok (l, set_code c fs) /\ jlist c l (ps1 ++ ps2) /\ length c = length (fs_code fs) /\
    forall p i, cget (fs_code fs) p = Some i -> exists i', cget c p = Some i' /\ GET_OPCODE i' = GET_OPCODE i /\ (p ∉ ps1 -> i' = i).
Proof.
  intros H1 H2 Hdis. unfold luaK_concat.
  assert (set_code (fs_code fs) fs = fs) as Esame by (by destruct fs).
  assert (forall p i, cget (fs_code fs) p = Some i -> exists i', cget (fs_code fs) p = Some i' /\ GET_OPCODE i' = GET_OPCODE i /\ (p ∉ ps1 -> i' = i))
    as Hrefl by eauto.
  case_zbool (l2 =? NO_JUMP).
  { right. exists l1, (fs_code fs). rewrite Esame. subst l2. inversion H2; subst; [|apply cget_range in H0; unfold NO_JUMP in *; lia].
    rewrite app_nil_r. done. }
  case_zbool (l1 =? NO_JUMP).
  { right. exists l2, (fs_code fs). rewrite Esame. subst l1. inversion H1; subst; [|apply cget_range in H0; unfold NO_JUMP in *; lia]. done. }
  destruct ps1 as [|q ps1 _] using rev_ind; [inversion H1; congruence|].
  pose proof (concat_last _ _ _ _ H1) as Hlast. unfold mbind in Hlast |- *. rewrite Hlast. cbn [bind].
  destruct (jlist_in _ _ _ q H1) as [i Hi]; [rewrite elem_of_app; right; by left|].
  rewrite (fixjump_eq _ _ _ _ Hi). case_zbool (MAXARG_sBx <? Z.abs (l2 - (q + 1))); [by left|right].
  cbn [bind ret]. eexists l1, _. split; [reflexivity|]. split; [by apply jlist_append|]. split; [apply length_cset|].
  intros p j Hj. pose proof (cget_range _ _ _ Hi). destruct (decide (p = q)) as [->|].
  - eexists. split; [by apply cget_same|]. split; [rewrite op_set_sBx; congruence|]. intros Hn. destruct Hn. rewrite elem_of_app. right. by left.
  - rewrite cget_other by lia. by exists j.
Qed.

(** ** Patching *)

(** The jump at [p] is controlled by the test before it, if there is one. *)
Definition is_test c (p : Z) : bool := match cget c p with Some i => testTMode (GET_OPCODE i) | None => false end.
Definition testset c (p : Z) : bool := match cget c (p - 1) with Some i => GET_OPCODE i =? op_num OP_TESTSET | None => false end.

(** The jumps of a list are not themselves tests. *)
Definition plain c (ps : list Z) : Prop := forall p, p ∈ ps -> is_test c p = false.

Definition retarget (i p d : Z) : Z := SETARG_sBx i (d - (p + 1)).
Definition patch_test (reg i : Z) : Z :=
  if negb (reg =? NO_REG) && negb (reg =? GETARG_B i) then SETARG_A i reg else CREATE_ABC (op_num OP_TEST) (GETARG_B i) 0 (GETARG_C i).

(** Every jump of [ps] goes to [vt], with its test storing into [reg] or
    storing nothing, when it is controlled by a TESTSET, and to [dt] otherwise;
    nothing else changes. *)
Record patched (vt reg dt : Z) c (ps : list Z) c' : Prop := {
  pa_len : length c' = length c;
  pa_jump p i : p ∈ ps -> cget c p = Some i -> cget c' p = Some (retarget i p (if testset c p then vt else dt));
  pa_near p : p ∈ ps -> Z.abs ((if testset c p then vt else dt) - (p + 1)) <= MAXARG_sBx;
  pa_test p i : p ∈ ps -> testset c p = true -> cget c (p - 1) = Some i -> cget c' (p - 1) = Some (patch_test reg i);
  pa_rest q : q ∉ ps -> (forall p, p ∈ ps -> testset c p = true -> q <> p - 1) -> cget c' q = cget c q
}.

Lemma op_CREATE_ABC o a b d :
  0 <= o < 2 ^ 6 -> 0 <= a < 2 ^ 9 -> 0 <= b < 2 ^ 9 -> 0 <= d < 2 ^ 9 -> GET_OPCODE (CREATE_ABC o a b d) = o.
Proof.
  intros Ho Ha Hb Hd. unfold CREATE_ABC. change POS_OP with 0. change POS_A with 6. change POS_B with 23. change POS_C with 14.
  rewrite (shl32_small o 0 6), (shl32_small a 6 9), (shl32_small b 23 9), (shl32_small d 14 9) by lia.
  rewrite GET_OPCODE_field, !field_lor, field_shiftl_same, (field_shiftl_other a 6 9), (field_shiftl_other b 23 9),
    (field_shiftl_other d 14 9) by lia. by rewrite !Z.lor_0_r.
Qed.

Lemma op_patch_test reg i : GET_OPCODE i = op_num OP_TESTSET -> testTMode (GET_OPCODE (patch_test reg i)) = true.
Proof.
  intros Hi. unfold patch_test. destruct (_ && _); [by rewrite op_set_A, Hi|].
  rewrite op_CREATE_ABC; [done|done|apply (field_range i 23 9); lia|lia|apply (field_range i 14 9); lia].
Qed.

Lemma getjumpcontrol_eq fs p i :
  cget (fs_code fs) p = Some i -> getjumpcontrol p fs = Ok (if is_test (fs_code fs) (p - 1) then p - 1 else p, fs).
Proof.
  intros Hi%cget_range. unfold getjumpcontrol, is_test. case_zbool (1 <=? p).
  - destruct (cget_some (fs_code fs) (p - 1)) as [j Hj]; [lia|]. rewrite Hj. unfold mbind. rewrite (code_at_eq _ _ _ Hj). done.
  - assert (cget (fs_code fs) (p - 1) = None) as ->; [|done]. unfold cget. by rewrite (proj2 (Z.ltb_lt _ _)) by lia.
Qed.

Lemma patchtestreg_eq fs p reg :
  (exists i, cget (fs_code fs) p = Some i) -> is_test (fs_code fs) p = false ->
  patchtestreg p reg fs =
    match cget (fs_code fs) (p - 1) with
    | Some j => if testset (fs_code fs) p then Ok (true, set_code (cset (fs_code fs) (p - 1) (patch_test reg j)) fs) else Ok (false, fs)
    | None => Ok (false, fs)
    end.
Proof.
  intros [i Hi] Hp. unfold patchtestreg, mbind at 1. rewrite (getjumpcontrol_eq _ _ _ Hi). cbn [bind].
  assert (is_test (fs_code fs) p = testTMode (GET_OPCODE i)) as Ep by (unfold is_test; by rewrite Hi). rewrite Hp in Ep.
  unfold testset. destruct (is_test (fs_code fs) (p - 1)) eqn:Et.
  - unfold is_test in Et. destruct (cget (fs_code fs) (p - 1)) as [j|] eqn:Ej; [|done].
    unfold mbind at 1. rewrite (code_at_eq _ _ _ Ej). cbn [bind]. destruct (GET_OPCODE j =? op_num OP_TESTSET); cbn [negb]; [|done].
    unfold mbind, patch_test. destruct (_ && _); rewrite (put_code_eq _ _ _ _ Ej); done.
  - unfold mbind at 1. rewrite (code_at_eq _ _ _ Hi). cbn [bind].
    assert ((GET_OPCODE i =? op_num OP_TESTSET) = false) as ->.
    { apply Z.eqb_neq. intros E. rewrite E, TMode_TESTSET in Ep. done. }
    cbn [negb]. unfold is_test in Et. destruct (cget (fs_code fs) (p - 1)) as [j|]; [|done].
    case_zbool (GET_OPCODE j =? op_num OP_TESTSET); [|done]. rewrite E, TMode_TESTSET in Et. done.
Qed.

Lemma op_retarget i p d : GET_OPCODE (retarget i p d) = GET_OPCODE i.
Proof. apply op_set_sBx. Qed.

Lemma testset_test c p : testset c p = true -> is_test c (p - 1) = true.
Proof. unfold testset, is_test. destruct (cget c (p - 1)) as [i|]; [|done]. intros E%Z.eqb_eq. by rewrite E. Qed.

Lemma patch_one fs p i vt reg dt :
  cget (fs_code fs) p = Some i -> is_test (fs_code fs) p = false ->
  let m := mbind (patchtestreg p reg) (fun b : bool => if b then fixjump p vt else fixjump p dt) in
  m fs = Err too_long \/ exists c, m fs = Ok (tt, set_code c fs) /\ patched vt reg dt (fs_code fs) [p] c.
Proof.
  intros Hi Hp m. pose proof (cget_range _ _ _ Hi) as Hr.
  assert (m fs = (if testset (fs_code fs) p then
                    match cget (fs_code fs) (p - 1) with
                    | Some j => fixjump p vt (set_code (cset (fs_code fs) (p - 1) (patch_test reg j)) fs)
                    | None => fixjump p dt fs
                    end
                  else fixjump p dt fs)) as Em.
  { unfold m, mbind. rewrite patchtestreg_eq by eauto. unfold testset.
    destruct (cget (fs_code fs) (p - 1)) as [j|]; [|done]. by destruct (GET_OPCODE j =? op_num OP_TESTSET). }
  rewrite Em. clear Em m. destruct (testset (fs_code fs) p) eqn:Et.
  - unfold testset in Et. destruct (cget (fs_code fs) (p - 1)) as [j|] eqn:Ej; [|done].
    pose proof (cget_range _ _ _ Ej). rewrite (fixjump_eq _ p i) by (cbn [set_code fs_code]; rewrite cget_other by lia; done).
    case_zbool (MAXARG_sBx <? Z.abs (vt - (p + 1))); [by left|right]. eexists. split; [reflexivity|].
    assert (testset (fs_code fs) p = true) as Ht by (unfold testset; rewrite Ej; by apply Z.eqb_eq).
    split; cbn [set_code fs_code].
    + by rewrite !length_cset.
    + intros q k Hq Hk. apply list_elem_of_singleton in Hq as ->. rewrite Ht. rewrite cget_same by (rewrite length_cset; lia). unfold retarget. congruence.
    + intros q Hq. apply list_elem_of_singleton in Hq as ->. by rewrite Ht.
    + intros q k Hq _ Hk. apply list_elem_of_singleton in Hq as ->. rewrite cget_other by lia. rewrite cget_same by lia. congruence.
    + intros q Hq Hrest. rewrite list_elem_of_singleton in Hq. specialize (Hrest p ltac:(by left) Ht). rewrite !cget_other by lia. done.
  - rewrite (fixjump_eq _ p i) by done. case_zbool (MAXARG_sBx <? Z.abs (dt - (p + 1))); [by left|right]. eexists. split; [reflexivity|].
    split.
    + by rewrite length_cset.
    + intros q k Hq Hk. apply list_elem_of_singleton in Hq as ->. rewrite Et. rewrite cget_same by lia. unfold retarget. congruence.
    + intros q Hq. apply list_elem_of_singleton in Hq as ->. by rewrite Et.
    + intros q k Hq Ht. apply list_elem_of_singleton in Hq as ->. congruence.
    + intros q Hq _. rewrite list_elem_of_singleton in Hq. rewrite cget_other by lia. done.
Qed.

Lemma patched_nil vt reg dt c : patched vt reg dt c [] c.
Proof. split; [done|intros p i Hp|intros p Hp|intros p i Hp|done]; by apply not_elem_of_nil in Hp. Qed.

(** The other jumps, and their tests, are still there after one step. *)
Lemma patched_keeps vt reg dt c p c1 q :
  patched vt reg dt c [p] c1 -> is_test c p = false -> q <> p -> is_test c q = false -> (exists i, cget c p = Some i) ->
  cget c1 q = cget c q /\ testset c1 q = testset c q /\ (testset c q = true -> cget c1 (q - 1) = cget c (q - 1)).
Proof.
  intros [_ Hj _ _ Hrest] Hp Hne Hq [i Hi].
  assert (forall x, x <> p -> (testset c p = true -> x <> p - 1) -> cget c1 x = cget c x) as Hsame.
  { intros x Hx Hx'. apply Hrest; [by rewrite list_elem_of_singleton|]. intros p' Hp' Ht. apply list_elem_of_singleton in Hp' as ->. auto. }
  split; [|split].
  - apply Hsame; [done|]. intros Ht%testset_test ->. congruence.
  - unfold testset. destruct (decide (q - 1 = p)) as [->|]; [|by rewrite Hsame by lia].
    rewrite (Hj p i) by (done || by left). rewrite Hi. by rewrite op_retarget.
  - intros Ht. apply Hsame; [|lia]. intros E. apply testset_test in Ht. rewrite E in Ht. congruence.
Qed.

Lemma patched_cons vt reg dt c p ps c1 c2 :
  patched vt reg dt c [p] c1 -> patched vt reg dt c1 ps c2 -> p ∉ ps -> plain c (p :: ps) -> (exists i, cget c p = Some i) ->
  patched vt reg dt c (p :: ps) c2.
Proof.
  intros H1 H2 Hnin Hpl Hsome. pose proof (Hpl p ltac:(by left)) as Hp.
  assert (forall q, q ∈ ps -> cget c1 q = cget c q /\ testset c1 q = testset c q /\ (testset c q = true -> cget c1 (q - 1) = cget c (q - 1))) as Hk.
  { intros q Hq. eapply patched_keeps; [done|done|by intros ->|apply Hpl; by right|done]. }
  assert (forall q, q ∈ ps -> testset c1 q = true -> is_test c (q - 1) = true) as Htest.
  { intros q Hq. destruct (Hk q Hq) as (_ & -> & _). apply testset_test. }
  destruct Hsome as [i0 Hi0]. split.
  - rewrite (pa_len _ _ _ _ _ _ H2). apply H1.
  - intros q i Hq Hi. apply elem_of_cons in Hq as [->|Hq].
    + rewrite (pa_rest _ _ _ _ _ _ H2 p Hnin); [by apply H1; [left|]|]. intros q Hq Ht%Htest E; [|done]. rewrite <- E in Ht. congruence.
    + destruct (Hk q Hq) as (E1 & E2 & _). rewrite <- E2. apply H2; [done|congruence].
  - intros q Hq. apply elem_of_cons in Hq as [->|Hq]; [by apply H1; left|]. destruct (Hk q Hq) as (_ & <- & _). by apply H2.
  - intros q i Hq Ht Hi. apply elem_of_cons in Hq as [->|Hq].
    + rewrite (pa_rest _ _ _ _ _ _ H2); [by apply H1; [left| |]| |].
      * intros Hin. pose proof (testset_test _ _ Ht). rewrite (Hpl (p - 1)) in *; [done|by right].
      * intros q Hq _ E. apply Hnin. by replace p with q by lia.
    + destruct (Hk q Hq) as (_ & E2 & E3). apply H2; [done|congruence|]. rewrite E3; done.
  - intros q Hq Hrest. apply not_elem_of_cons in Hq as [Hqp Hq]. rewrite (pa_rest _ _ _ _ _ _ H2 q Hq).
    + apply H1; [by rewrite list_elem_of_singleton|]. intros p' Hp' Ht. apply list_elem_of_singleton in Hp' as ->. apply Hrest; [by left|done].
    + intros p' Hp' Ht. apply Hrest; [by right|]. by destruct (Hk p' Hp') as (_ & <- & _).
Qed.

Lemma patchlistaux_ok fs l ps vt reg dt :
  jlist (fs_code fs) l ps -> plain (fs_code fs) ps ->
  patchlistaux l vt reg dt fs = Err too_long \/
  exists c, patchlistaux l vt reg dt fs = Ok (tt, set_code c fs) /\ patched vt reg dt (fs_code fs) ps c.
Proof.
  intros Hl Hpl. pose proof (jlist_length _ _ _ Hl) as Hlen. unfold patchlistaux, each_jump, mbind.
  assert (length ps < 2 + length (fs_code fs))%nat as Hf by lia. clear Hlen.
  remember (2 + length (fs_code fs))%nat as n eqn:En. clear En. revert l ps fs Hl Hpl Hf. induction n as [|n IH]; intros l ps fs Hl Hpl Hf; [lia|]. cbn [loop].
  inversion Hl as [|p i ps' Hi Hn]; subst.
  - right. exists (fs_code fs). split; [by destruct fs|apply patched_nil].
  - pose proof (jlist_NoDup _ _ _ Hl) as [Hnin Hnd]%NoDup_cons. pose proof (cget_range _ _ _ Hi).
    rewrite (proj2 (Z.eqb_neq _ _)) by (unfold NO_JUMP; lia).
    rewrite (getjump_eq _ _ _ Hi). cbn [bind].
    destruct (patch_one fs l i vt reg dt Hi (Hpl l ltac:(by left))) as [E|(c1 & E & H1)]; unfold mbind in E.
    + left. destruct (patchtestreg l reg fs) as [[b fs']| |]; cbn [bind] in *; [|done..]. by rewrite E.
    + assert (jlist c1 (next_jump l i) ps') as Hl1.
      { eapply jlist_ext; [|done]. intros q Hq. eapply patched_keeps; [done|apply Hpl; by left|by intros ->|apply Hpl; by right|eauto]. }
      assert (plain c1 ps') as Hpl1.
      { intros q Hq. unfold is_test. destruct (patched_keeps _ _ _ _ _ _ q H1) as (-> & _); [apply Hpl; by left|by intros ->|apply Hpl; by right|eauto|].
        apply (Hpl q). by right. }
      destruct (IH (next_jump l i) ps' (set_code c1 fs) Hl1 Hpl1) as [E'|(c2 & E' & H2)]; [cbn in Hf; lia| |].
      * left. destruct (patchtestreg l reg fs) as [[b fs']| |]; cbn [bind] in *; [|done..]. rewrite E. exact E'.
      * right. exists c2. split; [|eapply patched_cons; eauto].
        destruct (patchtestreg l reg fs) as [[b fs']| |]; cbn [bind] in *; [|done..]. rewrite E. exact E'.
Qed.

(** ** Emitting an instruction *)

Definition overflow : string := "code size overflow".

Lemma cget_put c pc i : 0 <= pc <= Z.of_nat (length c) -> cget (grown_put c pc i) pc = Some i.
Proof.
  intros Hp. unfold grown_put. case_zbool (pc <? Z.of_nat (length c)).
  - apply cget_same. lia.
  - unfold cget. rewrite (proj2 (Z.ltb_ge _ _)) by lia. rewrite lookup_app_r by lia. by replace (Z.to_nat pc - length c)%nat with O by lia.
Qed.
Lemma cget_put_other c pc i q : 0 <= pc <= Z.of_nat (length c) -> q < pc -> cget (grown_put c pc i) q = cget c q.
Proof.
  intros Hp Hq. unfold grown_put. case_zbool (pc <? Z.of_nat (length c)).
  - apply cget_other; lia.
  - unfold cget. case_zbool (q <? 0); [done|]. apply lookup_app_l. lia.
Qed.

(** The state after an instruction is put at [pc]. *)
Definition emitted fs (c : list Z) (i line : Z) fs' : Prop :=
  fs_code fs' = grown_put c (fs_pc fs) i /\ fs_lineinfo fs' = grown_put (fs_lineinfo fs) (fs_pc fs) line /\ fs_pc fs' = fs_pc fs + 1 /\
  fs_jpc fs' = NO_JUMP /\ fs_lasttarget fs' = fs_lasttarget fs.

Lemma code_ok fs ps i line :
  jlist (fs_code fs) (fs_jpc fs) ps -> plain (fs_code fs) ps ->
  luaK_code i line fs = Err too_long \/ luaK_code i line fs = Err overflow \/
  exists c fs', luaK_code i line fs = Ok (fs_pc fs, fs') /\ patched (fs_pc fs) NO_REG (fs_pc fs) (fs_code fs) ps c /\ emitted fs c i line fs'.
Proof.
  intros Hl Hp. unfold luaK_code, dischargejpc, mbind, get. cbn [bind].
  destruct (patchlistaux_ok fs _ _ (fs_pc fs) NO_REG (fs_pc fs) Hl Hp) as [->|(c & -> & Hc)]; [by left|right].
  cbn [bind modify]. change (fs_pc (set_jpc NO_JUMP (set_code c fs))) with (fs_pc fs).
  destruct (MAX_INT <? fs_pc fs + 1); [by left|right]. eexists c, _. split; [reflexivity|]. split; [exact Hc|]. by split_and!.
Qed.

Lemma target_of i p d : Z.abs (d - (p + 1)) <= MAXARG_sBx -> p + 1 + GETARG_sBx (retarget i p d) = d.
Proof. intros Hd. unfold retarget. rewrite sBx_set by done. lia. Qed.

(** What a list of jumps to the current position and an instruction there
    leave behind. *)
Record resolved fs (ps : list Z) (i line : Z) fs' : Prop := {
  re_pc : fs_pc fs' = fs_pc fs + 1 /\ fs_jpc fs' = NO_JUMP /\ fs_lasttarget fs' = fs_pc fs;
  re_instr : cget (fs_code fs') (fs_pc fs) = Some i /\ fs_lineinfo fs' = grown_put (fs_lineinfo fs) (fs_pc fs) line;
  re_jump p j : p ∈ ps -> cget (fs_code fs) p = Some j ->
    exists j', cget (fs_code fs') p = Some j' /\ GET_OPCODE j' = GET_OPCODE j /\ p + 1 + GETARG_sBx j' = fs_pc fs;
  re_test p j : p ∈ ps -> testset (fs_code fs) p = true -> cget (fs_code fs) (p - 1) = Some j ->
    cget (fs_code fs') (p - 1) = Some (CREATE_ABC (op_num OP_TEST) (GETARG_B j) 0 (GETARG_C j));
  re_rest q : q < fs_pc fs -> q ∉ ps -> (forall p, p ∈ ps -> testset (fs_code fs) p = true -> q <> p - 1) ->
    cget (fs_code fs') q = cget (fs_code fs) q
}.

Lemma patchtohere_code_ok fs l ps ps0 i line :
  jlist (fs_code fs) l ps -> jlist (fs_code fs) (fs_jpc fs) ps0 -> (forall p, p ∈ ps0 -> p ∉ ps) ->
  plain (fs_code fs) (ps0 ++ ps) -> (forall p, p ∈ ps0 ++ ps -> p < fs_pc fs) -> 0 <= fs_pc fs <= Z.of_nat (length (fs_code fs)) ->
  match mbind (luaK_patchtohere l) (fun _ => luaK_code i line) fs with
  | Ok (pc, fs') => pc = fs_pc fs /\ resolved fs (ps0 ++ ps) i line fs'
  | Err m => m = too_long \/ m = overflow
  | Timeout => False
  end.
Proof.
  intros Hl H0 Hdis Hpl Hlt Hpc. unfold mbind, luaK_patchtohere, luaK_getlabel, mbind, get, ret. cbn [bind modify].
  set (fs1 := set_lasttarget (fs_pc fs) fs). change (fs_jpc fs1) with (fs_jpc fs).
  destruct (concat_ok fs1 (fs_jpc fs) ps0 l ps H0 Hl Hdis) as [->|(h & c1 & -> & H1 & Hlen & Hsame)]; [by left|]. cbn [bind modify].
  change (fs_code fs1) with (fs_code fs) in *. set (fs2 := set_jpc h (set_code c1 fs1)).
  assert (forall p, cget c1 p = None -> cget (fs_code fs) p = None) as Hnone.
  { intros p E. destruct (cget (fs_code fs) p) as [j|] eqn:Ej; [|done]. destruct (Hsame p j Ej) as (j' & Ej' & _). congruence. }
  assert (forall p j', cget c1 p = Some j' -> exists j, cget (fs_code fs) p = Some j /\ GET_OPCODE j' = GET_OPCODE j) as Hback.
  { intros p j' E. destruct (cget_some (fs_code fs) p) as [j Ej]; [apply cget_range in E; lia|]. exists j. split; [done|].
    destruct (Hsame p j Ej) as (k & Ek & Eop & _). congruence. }
  assert (forall p, is_test c1 p = is_test (fs_code fs) p /\ testset c1 p = testset (fs_code fs) p) as Htests.
  { intros p. unfold is_test, testset. split.
    - destruct (cget c1 p) as [j'|] eqn:E; [destruct (Hback _ _ E) as (j & -> & ->); done|by rewrite (Hnone _ E)].
    - destruct (cget c1 (p - 1)) as [j'|] eqn:E; [destruct (Hback _ _ E) as (j & -> & ->); done|by rewrite (Hnone _ E)]. }
  assert (plain c1 (ps0 ++ ps)) as Hpl1 by (intros p Hp; destruct (Htests p) as [-> _]; by apply Hpl).
  destruct (code_ok fs2 (ps0 ++ ps) i line H1 Hpl1) as [->|[->|(c2 & fs3 & -> & Hc2 & He)]]; [by left|by right|].
  split; [done|]. change (fs_pc fs2) with (fs_pc fs) in *. change (fs_code fs2) with c1 in *.
  destruct He as (Ecode & Eline & Epc & Ejpc & Elast).
  assert (length c2 = length (fs_code fs)) as Hlen2 by (rewrite (pa_len _ _ _ _ _ _ Hc2); done).
  split; rewrite ?Ecode.
  - done.
  - split; [apply cget_put; change (fs_pc fs2) with (fs_pc fs); lia|exact Eline].
  - intros p j Hp Hj. destruct (Hsame p j Hj) as (j1 & Ej1 & Eop & _).
    change (fs_pc fs2) with (fs_pc fs). rewrite cget_put_other by (rewrite ?Hlen2; auto; lia). eexists.
    rewrite (pa_jump _ _ _ _ _ _ Hc2 p j1 Hp Ej1). split; [done|]. rewrite op_retarget. split; [done|].
    pose proof (pa_near _ _ _ _ _ _ Hc2 p Hp) as Hnear. destruct (testset c1 p); by apply target_of.
  - intros p j Hp Ht Hj. pose proof (Hlt p Hp). change (fs_pc fs2) with (fs_pc fs). rewrite cget_put_other by lia.
    assert (p - 1 ∉ ps0 ++ ps) as Hnin.
    { intros Hin. apply testset_test in Ht. rewrite (Hpl _ Hin) in Ht. done. }
    destruct (Hsame (p - 1) j Hj) as (j1 & Ej1 & _ & Ee). assert (j1 = j) as -> by (apply Ee; intros Hin; apply Hnin, elem_of_app; by left).
    rewrite (pa_test _ _ _ _ _ _ Hc2 p j Hp); [done| |done]. by destruct (Htests p) as [_ ->].
  - intros q Hq Hnin Hrest. change (fs_pc fs2) with (fs_pc fs). rewrite cget_put_other by lia.
    rewrite (pa_rest _ _ _ _ _ _ Hc2 q Hnin).
    + destruct (cget (fs_code fs) q) as [j|] eqn:Ej.
      * destruct (Hsame q j Ej) as (j1 & -> & _ & Ee). f_equal. apply Ee. intros Hin. apply Hnin, elem_of_app. by left.
      * destruct (cget c1 q) as [j'|] eqn:E; [|done]. destruct (Hback _ _ E) as (j & ? & _). congruence.
    + intros p Hp Ht. apply Hrest; [done|]. by destruct (Htests p) as [_ <-].
Qed.
End Jumps.

Section Wf.
Context {N : Type} `{LuaNumber N} `{NumArith N}.
Variable tsv_hash : Z -> Z.
Variable h_key : TValue N.
Implicit Types (fs : FuncState N) (e : expdesc N).

(** Code and lines go together up to [pc], with [d] entries to be overwritten; the registers in use are within the
    frame size, which fits; the instructions are 32-bit words; the constants
    can be addressed. *)
Record wf (d : Z) fs : Prop := {
  wf_pc : Z.of_nat (length (fs_code fs)) = fs_pc fs + d;
  wf_d : 0 <= fs_pc fs /\ 0 <= d <= 1;
  wf_lines : length (fs_lineinfo fs) = length (fs_code fs);
  wf_size : fs_pc fs <= MAX_INT;
  wf_code : Forall (in_u 32) (fs_code fs);
  wf_regs : fs_freereg fs <= fs_maxstacksize fs;
  wf_frame : 0 <= fs_maxstacksize fs < MAXSTACK;
  wf_nk : Z.of_nat (length (fs_kk fs)) <= MAXARG_Bx
}.

(** What no operation takes back. *)
Record extends fs fs' : Prop := {
  gr_nactvar : fs_nactvar fs' = fs_nactvar fs;
  gr_frame : fs_maxstacksize fs <= fs_maxstacksize fs';
  gr_kk : fs_kk fs `prefix_of` fs_kk fs'
}.

Lemma extends_refl fs : extends fs fs.
Proof. by split. Qed.
Lemma extends_trans fs1 fs2 fs3 : extends fs1 fs2 -> extends fs2 fs3 -> extends fs1 fs3.
Proof. intros [? ? ?] [? ? ?]. split; [congruence|lia|by etrans]. Qed.

Definition keeps (d : Z) {A} (m : M A) : Prop :=
  forall fs, wf d fs -> match m fs with Ok (_, fs') => wf d fs' /\ extends fs fs' | _ => True end.

(** ** Rules *)

Section Rules.
Variable d : Z.
Local Abbreviation keeps := (keeps d).
Local Abbreviation wf := (wf d).

Lemma keeps_ret {A} (a : A) : keeps (ret a).
Proof. intros fs Hw. split; [done|apply extends_refl]. Qed.
Lemma keeps_fail {A} msg : keeps (@fail N A msg).
Proof. by intros fs Hw. Qed.
Lemma keeps_bind {A B} (m : M A) (k : A -> M B) : keeps m -> (forall a, keeps (k a)) -> keeps (mbind m k).
Proof.
  intros Hm Hk fs Hw. unfold mbind. specialize (Hm fs Hw). destruct (m fs) as [[a fs1]| |]; cbn [bind]; [|done..].
  destruct Hm as [Hw1 Hg1]. specialize (Hk a fs1 Hw1). destruct (k a fs1) as [[b fs2]| |]; [|done..].
  destruct Hk. split; [done|by eapply extends_trans].
Qed.
Lemma keeps_get {B} (k : FuncState N -> M B) : (forall fs, keeps (k fs)) -> keeps (mbind get k).
Proof. intros Hk fs Hw. apply (Hk fs fs Hw). Qed.
Lemma keeps_code_at p : keeps (code_at p).
Proof.
  intros fs Hw. unfold code_at. destruct (p <? 0); [done|]. destruct (fs_code fs !! Z.to_nat p); [|done]. split; [done|apply extends_refl].
Qed.
Lemma keeps_code fs c : Forall (in_u 32) c -> length c = length (fs_code fs) -> wf fs -> wf (set_code c fs) /\ extends fs (set_code c fs).
Proof. intros Hc Hl [? ? ? ? ? ? ? ?]. split; [|by split]. split; cbn; rewrite ?Hl; done. Qed.
Lemma keeps_put p i : in_u 32 i -> keeps (put_code p i).
Proof.
  intros Hi fs Hw. unfold put_code. destruct (_ || _); [done|]. apply keeps_code; [|by rewrite length_insert|done].
  apply Forall_insert; [apply Hw|done].
Qed.
Lemma keeps_lasttarget x : keeps (modify (set_lasttarget x)).
Proof. intros fs [? ? ? ? ? ? ? ?]. split; by split. Qed.
Lemma keeps_jpc x : keeps (modify (set_jpc x)).
Proof. intros fs [? ? ? ? ? ? ? ?]. split; by split. Qed.

Lemma keeps_each {S R} (body : S -> M (S + R)) s : (forall s, keeps (body s)) -> keeps (each_jump body s).
Proof.
  intros Hb fs Hw. unfold each_jump. generalize (2 + length (fs_code fs))%nat as n. intros n.
  enough (forall fs1, wf fs1 -> extends fs fs1 ->
    match loop n (fun '(s, fs) => '(r, fs) <- body s fs; Ok (match r with inl s => inl (s, fs) | inr r => inr (r, fs) end)) (s, fs1) with
    | Ok (_, fs') => wf fs' /\ extends fs fs' | _ => True end) as Hall by (apply Hall; [done|apply extends_refl]).
  revert s. induction n as [|n IH]; intros s fs1 Hw1 Hg1; cbn [loop]; [done|].
  specialize (Hb s fs1 Hw1). destruct (body s fs1) as [[r fs2]| |]; cbn [bind]; [|done..]. destruct Hb as [Hw2 Hg2].
  assert (extends fs fs2) by (by eapply extends_trans). destruct r as [s'|r]; cbn [bind]; [by apply IH|done].
Qed.

Lemma keeps_if {A} (b : bool) (m1 m2 : M A) : keeps m1 -> keeps m2 -> keeps (if b then m1 else m2).
Proof. by destruct b. Qed.
Lemma keeps_dec {A P} `{Decision P} (m1 m2 : M A) : keeps m1 -> keeps m2 -> keeps (if decide P then m1 else m2).
Proof. by case_decide. Qed.
End Rules.

(** ** Words *)

Lemma lor_u32 x y : in_u 32 x -> in_u 32 y -> in_u 32 (Z.lor x y).
Proof.
  unfold in_u. intros Hx Hy. split; [apply Z.lor_nonneg; lia|].
  destruct (decide (Z.lor x y = 0)) as [->|]; [done|]. apply Z.log2_lt_pow2; [pose proof (proj2 (Z.lor_nonneg x y)); lia|].
  rewrite Z.log2_lor by lia. apply Z.max_lub_lt.
  - destruct (decide (x = 0)) as [->|]; [done|]. apply Z.log2_lt_pow2; lia.
  - destruct (decide (y = 0)) as [->|]; [done|]. apply Z.log2_lt_pow2; lia.
Qed.
Lemma shl_u32 x p : in_u 32 (shl32 x p).
Proof. apply (wrap_range 32). lia. Qed.
Lemma ABC_u32 o a b c : in_u 32 (CREATE_ABC o a b c).
Proof. unfold CREATE_ABC. repeat apply lor_u32; apply shl_u32. Qed.
Lemma ABx_u32 o a b : in_u 32 (CREATE_ABx o a b).
Proof. unfold CREATE_ABx. repeat apply lor_u32; apply shl_u32. Qed.
Lemma setA_u32 i v : in_u 32 (SETARG_A i v).
Proof. rewrite SETARG_A_upd. by apply upd_range. Qed.
Lemma setB_u32 i v : in_u 32 (SETARG_B i v).
Proof. rewrite SETARG_B_upd. by apply upd_range. Qed.
Lemma setC_u32 i v : in_u 32 (SETARG_C i v).
Proof. rewrite SETARG_C_upd. by apply upd_range. Qed.
Lemma setBx_u32 i v : in_u 32 (SETARG_sBx i v).
Proof. unfold SETARG_sBx. rewrite SETARG_Bx_upd. by apply upd_range. Qed.
End Wf.

Create HintDb codegen discriminated.
#[export] Hint Resolve keeps_ret keeps_fail keeps_code_at keeps_put keeps_lasttarget keeps_jpc
  ABC_u32 ABx_u32 setA_u32 setB_u32 setC_u32 setBx_u32 : codegen.

(** Follows the structure of an operation; what it calls comes from the
    database. *)
Ltac keep := repeat match goal with
  | |- forall _, _ => intro
  | |- keeps _ (let _ := _ in _) => cbv zeta
  | |- keeps _ (let (_, _) := ?x in _) => destruct x
  | |- keeps _ (mbind get _) => apply keeps_get
  | |- keeps _ (mbind _ _) => apply keeps_bind
  | |- keeps _ (each_jump _ _) => apply keeps_each
  | |- keeps _ (if decide _ then _ else _) => apply keeps_dec
  | |- keeps _ (if _ then _ else _) => apply keeps_if
  | |- keeps _ (match ?x with _ => _ end) => destruct x
  | _ => solve [auto with codegen nocore]
  end.

Section Ops.
Context {N : Type} `{LuaNumber N} `{NumArith N}.
Variable tsv_hash : Z -> Z.
Variable h_key : TValue N.
Implicit Types (fs : FuncState N) (e : expdesc N).
Variable d : Z.
Local Abbreviation keeps := (@keeps N d).

Lemma fixjump_keeps p q : keeps (fixjump p q).
Proof. unfold fixjump. keep. Qed.
Local Hint Resolve fixjump_keeps : codegen.
Lemma getlabel_keeps : keeps luaK_getlabel.
Proof. unfold luaK_getlabel. keep. Qed.
Lemma getjump_keeps p : keeps (getjump p).
Proof. unfold getjump. keep. Qed.
Lemma getjumpcontrol_keeps p : keeps (getjumpcontrol p).
Proof. unfold getjumpcontrol. keep. Qed.
Local Hint Resolve getlabel_keeps getjump_keeps getjumpcontrol_keeps : codegen.
Lemma need_value_keeps l : keeps (need_value l).
Proof. unfold need_value. keep. Qed.
Lemma patchtestreg_keeps n r : keeps (patchtestreg n r).
Proof. unfold patchtestreg. keep. Qed.
Local Hint Resolve need_value_keeps patchtestreg_keeps : codegen.
Lemma removevalues_keeps l : keeps (removevalues l).
Proof. unfold removevalues. keep. Qed.
Lemma patchlistaux_keeps l v r q : keeps (patchlistaux l v r q).
Proof. unfold patchlistaux. keep. Qed.
Lemma concat_keeps l1 l2 : keeps (luaK_concat l1 l2).
Proof. unfold luaK_concat. keep. Qed.
Local Hint Resolve removevalues_keeps patchlistaux_keeps concat_keeps : codegen.
Lemma dischargejpc_keeps : keeps dischargejpc.
Proof. unfold dischargejpc. keep. Qed.
Lemma patchtohere_keeps l : keeps (luaK_patchtohere l).
Proof. unfold luaK_patchtohere. keep. Qed.
Local Hint Resolve dischargejpc_keeps patchtohere_keeps : codegen.
Lemma patchlist_keeps l t : keeps (luaK_patchlist l t).
Proof. unfold luaK_patchlist. keep. Qed.
End Ops.
#[export] Hint Resolve fixjump_keeps getlabel_keeps getjump_keeps getjumpcontrol_keeps need_value_keeps patchtestreg_keeps
  removevalues_keeps patchlistaux_keeps concat_keeps dischargejpc_keeps patchtohere_keeps patchlist_keeps : codegen.

Section Emit.
Context {N : Type} `{LuaNumber N} `{NumArith N}.
Variable tsv_hash : Z -> Z.
Variable h_key : TValue N.
Implicit Types (fs : FuncState N) (e : expdesc N).
Local Abbreviation keeps := (@keeps N 0).

Lemma length_put (v : list Z) n x :
  0 <= n <= Z.of_nat (length v) -> Z.of_nat (length (grown_put v n x)) = Z.max (n + 1) (Z.of_nat (length v)).
Proof.
  intros Hn. unfold grown_put. case_zbool (n <? Z.of_nat (length v)); [rewrite length_insert; lia|]. rewrite length_app. cbn. lia.
Qed.

(** Emitting closes the gap left by jumponcond. *)
Lemma code_closes d i line fs :
  in_u 32 i -> wf d fs -> match luaK_code i line fs with Ok (_, fs') => wf 0 fs' /\ extends fs fs' | _ => True end.
Proof.
  intros Hi Hw. unfold luaK_code, mbind at 1. pose proof (dischargejpc_keeps d fs Hw) as Hd.
  destruct (dischargejpc fs) as [[? fs1]| |]; cbn [bind]; [|done..]. destruct Hd as [Hw1 Hg]. clear Hw.
  unfold get, mbind, ret. cbn [bind]. case_zbool (MAX_INT <? fs_pc fs1 + 1); [done|]. cbn [modify bind].
  destruct Hw1 as [Hpc [Hp0 Hd] Hlines Hsize Hcode Hregs Hframe Hnk]. split; [|destruct Hg; by split].
  split; cbn [set_pc set_lineinfo set_code fs_code fs_lineinfo fs_pc fs_freereg fs_maxstacksize fs_kk]; try done.
  - rewrite length_put; lia.
  - lia.
  - apply Nat2Z.inj. rewrite !length_put; lia.
  - unfold grown_put. destruct (_ <? _); [by apply Forall_insert|]. apply Forall_app. split; [done|by constructor].
Qed.

Lemma code_keeps i line : in_u 32 i -> keeps (luaK_code i line).
Proof. intros Hi fs Hw. by apply (code_closes 0). Qed.
Local Hint Resolve code_keeps : codegen.
Lemma codeABC_keeps o a b c : keeps (luaK_codeABC o a b c).
Proof. unfold luaK_codeABC. keep. Qed.
Lemma codeABx_keeps o a b : keeps (luaK_codeABx o a b).
Proof. unfold luaK_codeABx. keep. Qed.
Local Hint Resolve codeABC_keeps codeABx_keeps : codegen.
Lemma codeAsBx_keeps o a b : keeps (luaK_codeAsBx o a b).
Proof. unfold luaK_codeAsBx. keep. Qed.
Local Hint Resolve codeAsBx_keeps : codegen.
Lemma nil_keeps from n : keeps (luaK_nil from n).
Proof. unfold luaK_nil. keep. Qed.
Lemma jump_keeps : keeps luaK_jump.
Proof. unfold luaK_jump. keep. Qed.
Local Hint Resolve nil_keeps jump_keeps : codegen.
Lemma ret_keeps f n : keeps (luaK_ret f n).
Proof. unfold luaK_ret. keep. Qed.
Lemma condjump_keeps o a b c : keeps (condjump o a b c).
Proof. unfold condjump. keep. Qed.
Lemma code_label_keeps a b j : keeps (code_label a b j).
Proof. unfold code_label. keep. Qed.
Local Hint Resolve condjump_keeps code_label_keeps : codegen.

Lemma fixline_keeps line : keeps (luaK_fixline line).
Proof.
  intros fs Hw. unfold luaK_fixline, get, mbind. cbn [bind]. destruct (_ || _); [done|]. cbn.
  destruct Hw as [? ? ? ? ? ? ? ?]. split; [|by split]. split; cbn; rewrite ?length_insert; done.
Qed.

Lemma reserveregs_keeps n : keeps (luaK_reserveregs n).
Proof.
  intros fs Hw. pose proof Hw as [? ? ? ? ? Hregs Hframe ?].
  unfold luaK_reserveregs, luaK_checkstack, get, mbind, fail, ret. cbn [bind].
  case_zbool (fs_maxstacksize fs <? fs_freereg fs + n).
  - case_zbool (MAXSTACK <=? fs_freereg fs + n); [done|]. cbn [bind modify]. unfold MAXSTACK in *. split.
    + split; cbn [set_freereg set_maxstacksize fs_code fs_lineinfo fs_pc fs_freereg fs_maxstacksize fs_kk]; try done; rewrite wrap_small by lia; unfold MAXSTACK; lia.
    + split; cbn [set_freereg set_maxstacksize fs_nactvar fs_maxstacksize fs_kk]; [done|rewrite wrap_small by lia; lia|done].
  - cbn [bind modify]. split; [|by split]. split; done.
Qed.

Lemma checkstack_keeps n : keeps (luaK_checkstack n).
Proof.
  intros fs Hw. pose proof Hw as [? ? ? ? ? Hregs Hframe ?]. unfold luaK_checkstack, get, mbind, fail, ret. cbn [bind].
  case_zbool (fs_maxstacksize fs <? fs_freereg fs + n); [|by split; [|apply extends_refl]].
  case_zbool (MAXSTACK <=? fs_freereg fs + n); [done|]. cbn [bind modify]. unfold MAXSTACK in *. split.
  - split; cbn [set_maxstacksize fs_code fs_lineinfo fs_pc fs_freereg fs_maxstacksize fs_kk]; try done; rewrite wrap_small by lia; unfold MAXSTACK; lia.
  - split; cbn [set_maxstacksize fs_nactvar fs_maxstacksize fs_kk]; [done|rewrite wrap_small by lia; lia|done].
Qed.

Lemma freereg_keeps r : keeps (freereg r).
Proof.
  intros fs Hw. pose proof Hw as [? ? ? ? ? Hregs Hframe ?]. unfold freereg, get, mbind, ret. cbn [bind].
  destruct (_ && _); [|by split; [|apply extends_refl]]. cbn. split; [|by split]. split; cbn; done || lia.
Qed.
Local Hint Resolve reserveregs_keeps freereg_keeps : codegen.
Lemma freeexp_keeps e : keeps (freeexp e).
Proof. unfold freeexp. keep. Qed.
Local Hint Resolve freeexp_keeps : codegen.

Lemma addk_keeps k v : keeps (addk tsv_hash k v).
Proof.
  intros fs Hw. unfold addk. destruct (luaH_set tsv_hash (fs_h fs) k) as [[h idx]| |]; cbn [bind]; [|done..].
  assert (match (if MAXARG_Bx <? Z.of_nat (length (fs_kk fs)) + 1 then Err "constant table overflow"
                 else Ok (Z.of_nat (length (fs_kk fs)), set_constants (slot_set h idx (Number (cast_num (Z.of_nat (length (fs_kk fs)))))) (fs_kk fs ++ [v]) fs))
          with Ok (_, fs') => wf 0 fs' /\ extends fs fs' | _ => True end) as Hnew.
  { case_zbool (MAXARG_Bx <? Z.of_nat (length (fs_kk fs)) + 1); [done|]. destruct Hw as [? ? ? ? ? ? ? ?].
    split; [|split; [done|done|by eexists]]. split; cbn [set_constants fs_code fs_lineinfo fs_pc fs_freereg fs_maxstacksize fs_kk]; try done.
    rewrite length_app. cbn [length]. lia. }
  destruct (slot_get h idx); try exact Hnew. destruct Hw as [? ? ? ? ? ? ? ?]. split; by split.
Qed.
Local Hint Resolve addk_keeps : codegen.
Lemma stringK_keeps s : keeps (luaK_stringK tsv_hash s).
Proof. unfold luaK_stringK. keep. Qed.
Lemma numberK_keeps r : keeps (luaK_numberK tsv_hash r).
Proof. unfold luaK_numberK. keep. Qed.
Lemma boolK_keeps b : keeps (boolK tsv_hash b).
Proof. unfold boolK. keep. Qed.
Lemma nilK_keeps : keeps (nilK tsv_hash h_key).
Proof. unfold nilK. keep. Qed.
Local Hint Resolve numberK_keeps boolK_keeps nilK_keeps : codegen.

(** ** Expressions *)

Lemma setreturns_keeps e n : keeps (luaK_setreturns e n).
Proof. unfold luaK_setreturns. keep. Qed.
Lemma setoneret_keeps e : keeps (luaK_setoneret e).
Proof. unfold luaK_setoneret. keep. Qed.
Local Hint Resolve setoneret_keeps : codegen.
Lemma dischargevars_keeps e : keeps (luaK_dischargevars e).
Proof. unfold luaK_dischargevars. keep. Qed.
Local Hint Resolve dischargevars_keeps : codegen.
Lemma discharge2reg_keeps e r : keeps (discharge2reg tsv_hash e r).
Proof. unfold discharge2reg. keep. Qed.
Local Hint Resolve discharge2reg_keeps : codegen.
Lemma discharge2anyreg_keeps e : keeps (discharge2anyreg tsv_hash e).
Proof. unfold discharge2anyreg. keep. Qed.
Local Hint Resolve discharge2anyreg_keeps : codegen.
Lemma exp2reg_keeps e r : keeps (exp2reg tsv_hash e r).
Proof. unfold exp2reg. keep. Qed.
Local Hint Resolve exp2reg_keeps : codegen.
Lemma exp2nextreg_keeps e : keeps (luaK_exp2nextreg tsv_hash e).
Proof. unfold luaK_exp2nextreg. keep. Qed.
Local Hint Resolve exp2nextreg_keeps : codegen.
Lemma exp2anyreg_keeps e : keeps (luaK_exp2anyreg tsv_hash e).
Proof. unfold luaK_exp2anyreg. keep. Qed.
Local Hint Resolve exp2anyreg_keeps : codegen.
Lemma exp2val_keeps e : keeps (luaK_exp2val tsv_hash e).
Proof. unfold luaK_exp2val. keep. Qed.
Local Hint Resolve exp2val_keeps : codegen.
Lemma exp2RK_keeps e : keeps (luaK_exp2RK tsv_hash h_key e).
Proof. unfold luaK_exp2RK. keep. Qed.
Local Hint Resolve exp2RK_keeps : codegen.
Lemma storevar_keeps v e : keeps (luaK_storevar tsv_hash h_key v e).
Proof. unfold luaK_storevar. keep. Qed.
Lemma self_keeps e k : keeps (luaK_self tsv_hash h_key e k).
Proof. unfold luaK_self. keep. Qed.
Lemma invertjump_keeps e : keeps (invertjump e).
Proof. unfold invertjump. keep. Qed.
Local Hint Resolve invertjump_keeps : codegen.

(** OP_NOT is removed and its place taken by the test. *)
Lemma retest_keeps a b fs :
  wf 0 fs -> fs_pc fs <> 0 ->
  match mbind (modify (set_pc (fs_pc fs - 1))) (fun _ => condjump OP_TEST a 0 b) fs with Ok (_, fs') => wf 0 fs' /\ extends fs fs' | _ => True end.
Proof.
  intros Hw Hne. unfold mbind at 1, modify. cbn [bind]. pose proof Hw as [Hpc Hd Hl Hs Hc Hr Hf Hk].
  assert (wf 1 (set_pc (fs_pc fs - 1) fs)) as Hw1 by (split; cbn [set_pc fs_code fs_lineinfo fs_pc fs_freereg fs_maxstacksize fs_kk]; try done; lia).
  unfold condjump, mbind at 1, luaK_codeABC, mbind at 1, get. cbn [bind].
  pose proof (code_closes 1 (CREATE_ABC (op_num OP_TEST) a 0 b) (fs_lastline (set_pc (fs_pc fs - 1) fs)) _ (ABC_u32 _ _ _ _) Hw1) as H2.
  destruct (luaK_code _ _ _) as [[? fs2]| |]; cbn [bind]; [|done..]. destruct H2 as [Hw2 Hg2].
  pose proof (jump_keeps fs2 Hw2) as H3. destruct (luaK_jump fs2) as [[? fs3]| |]; [|done..]. destruct H3 as [Hw3 Hg3].
  split; [done|]. eapply extends_trans; [|done]. destruct Hg2. by split.
Qed.

Lemma jumponcond_keeps e c : keeps (jumponcond tsv_hash e c).
Proof.
  unfold jumponcond. set (other := mbind (discharge2anyreg tsv_hash e) _).
  assert (keeps other) as Ho by (unfold other; keep). case_decide; [|done].
  intros fs Hw. unfold mbind at 1, code_at. destruct (e_info e <? 0); [done|].
  destruct (fs_code fs !! Z.to_nat (e_info e)) as [ie|] eqn:Ei; [|done]. cbn [bind].
  destruct (GET_OPCODE ie =? op_num OP_NOT); [|by apply Ho].
  unfold mbind at 1, get. cbn [bind]. apply retest_keeps; [done|]. apply lookup_lt_Some in Ei. pose proof (wf_pc _ _ Hw). lia.
Qed.
Local Hint Resolve jumponcond_keeps : codegen.

Lemma goiftrue_keeps e : keeps (luaK_goiftrue tsv_hash e).
Proof. unfold luaK_goiftrue. keep. Qed.
Lemma goiffalse_keeps e : keeps (luaK_goiffalse tsv_hash e).
Proof. unfold luaK_goiffalse. keep. Qed.
Lemma codenot_keeps e : keeps (codenot tsv_hash e).
Proof. unfold codenot. keep. Qed.
Lemma indexed_keeps t k : keeps (luaK_indexed tsv_hash h_key t k).
Proof. unfold luaK_indexed. keep. Qed.
Lemma codearith_keeps o e1 e2 : keeps (codearith tsv_hash h_key o e1 e2).
Proof. unfold codearith. keep. Qed.
Lemma codecomp_keeps o c e1 e2 : keeps (codecomp tsv_hash h_key o c e1 e2).
Proof. unfold codecomp. keep. Qed.
Local Hint Resolve goiftrue_keeps goiffalse_keeps codenot_keeps codearith_keeps codecomp_keeps : codegen.
Lemma prefix_keeps o e : keeps (luaK_prefix tsv_hash h_key o e).
Proof. unfold luaK_prefix. keep. Qed.
Lemma infix_keeps o e : keeps (luaK_infix tsv_hash h_key o e).
Proof. unfold luaK_infix. keep. Qed.
Lemma posfix_keeps o e1 e2 : keeps (luaK_posfix tsv_hash h_key o e1 e2).
Proof. unfold luaK_posfix. keep. Qed.

Lemma setlist_keeps base nelems tostore fs :
  wf 0 fs -> base + 1 <= fs_maxstacksize fs ->
  match luaK_setlist base nelems tostore fs with Ok (_, fs') => wf 0 fs' /\ extends fs fs' | _ => True end.
Proof.
  intros Hw Hb. unfold luaK_setlist. cbv zeta. set (m := if _ <=? _ then _ else _).
  assert (keeps m) as Hm.
  { unfold m. apply keeps_if; [keep|]. apply keeps_bind; [keep|]. intros _. apply keeps_get. intros fs1. apply keeps_bind; [|keep].
    apply code_keeps. apply (wrap_range 32). lia. }
  clearbody m. specialize (Hm fs Hw). unfold mbind. destruct (m fs) as [[? fs1]| |]; cbn [bind modify]; [|done..]. destruct Hm as [[? ? ? ? ? ? ? ?] [? ? ?]].
  split; [|by split]. split; cbn [set_freereg fs_code fs_lineinfo fs_pc fs_freereg fs_maxstacksize fs_kk]; done || lia.
Qed.
End Emit.
#[export] Hint Resolve code_keeps codeABC_keeps codeABx_keeps codeAsBx_keeps nil_keeps jump_keeps ret_keeps condjump_keeps code_label_keeps
  fixline_keeps reserveregs_keeps checkstack_keeps freereg_keeps freeexp_keeps addk_keeps stringK_keeps numberK_keeps boolK_keeps nilK_keeps
  setreturns_keeps setoneret_keeps dischargevars_keeps discharge2reg_keeps discharge2anyreg_keeps exp2reg_keeps exp2nextreg_keeps
  exp2anyreg_keeps exp2val_keeps exp2RK_keeps storevar_keeps self_keeps invertjump_keeps jumponcond_keeps goiftrue_keeps goiffalse_keeps
  codenot_keeps indexed_keeps codearith_keeps codecomp_keeps prefix_keeps infix_keeps posfix_keeps : codegen.
