(* ===== verification/LuaCodeSpec.v ===== *)
(** The code generator of Lua: the constant table, and the theorems on the
    generator. *)
From stdpp Require Import base list relations.
From Stdlib Require Import ZArith Lia.
From S2P Require Import Prelude LuaOpcodes LuaNumber LuaTable LuaTableWf LuaTableSet LuaTableSpec LuaProto LuaCode LuaCodeWf.
Open Scope Z_scope.

(** * Constants *)

Section Constants.
Context {N : Type} `{LuaNumber N}.
Variable tsv_hash : Z -> Z.
Variable h_key : TValue N.
Implicit Types (fs : FuncState N) (k v w : TValue N).
Local Abbreviation rawequal := luaO_rawequalObj.
Local Abbreviation content := (content tsv_hash).

(** The key of a constant in [fs->h]. *)
Definition key_of v : TValue N := match v with Nil => h_key | _ => v end.

(** [fs->h] maps the key of every constant to its index, and nothing else. *)
Record indexed fs : Prop := {
  ix_wf : wf_table tsv_hash (fs_h fs);
  ix_in i v : fs_kk fs !! i = Some v -> content (fs_h fs) (key_of v) = Number (cast_num (Z.of_nat i));
  ix_out k : content (fs_h fs) k = Nil \/
    exists i v, fs_kk fs !! i = Some v /\ content (fs_h fs) k = Number (cast_num (Z.of_nat i)) /\ rawequal (key_of v) k = true;
  ix_len : Z.of_nat (length (fs_kk fs)) <= MAXARG_Bx
}.

Lemma index_small i : 0 <= i <= MAXARG_Bx -> in_s 32 i.
Proof. unfold in_s. change MAXARG_Bx with 262143. lia. Qed.
Lemma number_of_index i : 0 <= i <= MAXARG_Bx -> lua_number2int (cast_num i) = i.
Proof. intros Hi%index_small. apply number2int_eq; [done|]. by apply numeq_cast. Qed.

(** No two constants are raw-equal. *)
Lemma indexed_distinct fs i j v w :
  indexed fs -> fs_kk fs !! i = Some v -> fs_kk fs !! j = Some w -> rawequal (key_of v) (key_of w) = true -> i = j.
Proof.
  intros [Hwf Hin _ Hlen] Hi Hj E. pose proof (lookup_lt_Some _ _ _ Hi). pose proof (lookup_lt_Some _ _ _ Hj).
  assert (cast_num (Z.of_nat i) = cast_num (Z.of_nat j)) as Ec.
  { enough (Number (cast_num (Z.of_nat i)) = Number (cast_num (Z.of_nat j))) as Ee by (by injection Ee).
    rewrite <- (Hin _ _ Hi), <- (Hin _ _ Hj). by apply content_rawequal. }
  apply Nat2Z.inj. rewrite <- (number_of_index (Z.of_nat i)), <- (number_of_index (Z.of_nat j)) by lia. by rewrite Ec.
Qed.

Definition table_overflow : string := "table overflow".
Definition constant_overflow : string := "constant table overflow".

(** The outcome of interning the constant [v]. *)
Definition interned fs v (r : Z * FuncState N) : Prop :=
  exists w, indexed r.2 /\ fs_kk fs `prefix_of` fs_kk r.2 /\ 0 <= r.1 /\ fs_kk r.2 !! Z.to_nat r.1 = Some w /\
    rawequal (key_of w) (key_of v) = true /\
    (fs_kk r.2 = fs_kk fs \/ fs_kk r.2 = fs_kk fs ++ [v] /\ r.1 = Z.of_nat (length (fs_kk fs)) /\
       forall u, u ∈ fs_kk fs -> rawequal (key_of u) (key_of v) = false).

Lemma addk_ok fs v :
  indexed fs -> key_of v <> Nil -> rawequal (key_of v) (key_of v) = true ->
  ends (fun m => m = table_overflow \/ m = constant_overflow) (interned fs v) (addk tsv_hash (key_of v) v fs).
Proof.
  intros Hix Hnil Hself. pose proof Hix as [Hwf Hin Hout Hlen]. unfold addk, luaH_set. set (k := key_of v) in *.
  destruct (set_total tsv_hash (fs_h fs) k 0 Hwf (conj Hnil Hself)) as [(h & s & E & Hs)|[_ E]]; unfold newkey_fuel; rewrite E; cbn [bind]; [|by left].
  destruct (set_assign tsv_hash (fs_h fs) k h s (Number (cast_num (Z.of_nat (length (fs_kk fs))))) (conj Hnil Hself) Hs) as [Hwf2 Hupd].
  destruct Hs as [Hwf1 Hget Hsame].
  assert (slot_get h s = content (fs_h fs) k) as Eslot by (rewrite <- Hsame; unfold LuaTableSet.content; by rewrite Hget).
  rewrite Eslot. destruct (Hout k) as [En|(i & u & Hi & En & Eu)]; rewrite En.
  - case_zbool (MAXARG_Bx <? Z.of_nat (length (fs_kk fs)) + 1); [by right|]. cbn [ends]. exists v. cbn [fst snd set_constants fs_kk fs_h].
    assert (forall j u, fs_kk fs !! j = Some u -> rawequal k (key_of u) = false) as Hfresh.
    { intros j u Hj. destruct (rawequal k (key_of u)) eqn:Er; [|done]. exfalso.
      rewrite (content_rawequal _ _ _ _ Hwf Er), (Hin _ _ Hj) in En. done. }
    split; [|split_and!].
    + split; cbn [set_constants fs_kk fs_h]; [done| | |rewrite length_app; cbn [length]; lia].
      * intros j u Hj. rewrite Hupd. unfold upd_content. apply lookup_app_Some in Hj as [Hj|[Hge Hj]].
        -- rewrite (Hfresh j u Hj). by apply Hin.
        -- apply list_lookup_singleton_Some in Hj as [Hj <-]. change (key_of v) with k. rewrite Hself. do 3 f_equal. lia.
      * intros w. rewrite Hupd. unfold upd_content. destruct (rawequal k w) eqn:Er.
        -- right. exists (length (fs_kk fs)), v. split; [|done]. rewrite lookup_app_r by lia. by rewrite Nat.sub_diag.
        -- destruct (Hout w) as [?|(j & u & Hj & ? & ?)]; [by left|right]. exists j, u. split; [|done]. by apply lookup_app_l_Some.
    + by eexists.
    + lia.
    + rewrite Nat2Z.id, lookup_app_r by lia. by rewrite Nat.sub_diag.
    + done.
    + right. split_and!; [done|done|]. intros u [j Hj]%list_elem_of_lookup. rewrite rawequal_sym. by eapply Hfresh.
  - cbn [ends]. pose proof (lookup_lt_Some _ _ _ Hi). rewrite number_of_index by lia. exists u. cbn [fst snd set_constants fs_kk fs_h].
    rewrite Nat2Z.id. split_and!; [|done|lia|done|done|by left]. split; cbn [set_constants fs_kk fs_h]; [done| | |done].
    + intros j w Hj. rewrite Hsame. by apply Hin.
    + intros w. rewrite Hsame. apply Hout.
Qed.
End Constants.

(** * Histories of a function under construction *)

(** What the parser does with the state of a function: it calls the
    operations of the generator, in any order and on any descriptions, and it
    moves the number of registers in use within the frame (it drops
    temporaries at the end of a statement and the locals of a block) together
    with the number of active variables.  The table under construction is in a
    register when its items are flushed. *)
Section Histories.
Context {N : Type} `{LuaNumber N} `{NumArith N}.
Variable tsv_hash : Z -> Z.
Variable h_key : TValue N.

Definition set_nactvar (n : Z) (fs : FuncState N) : FuncState N :=
  mkFS (fs_code fs) (fs_lineinfo fs) (fs_pc fs) (fs_lasttarget fs) (fs_jpc fs) (fs_freereg fs) n (fs_maxstacksize fs) (fs_h fs) (fs_kk fs) (fs_lastline fs).

Inductive operation : forall A : Type, M (N := N) A -> Prop :=
  | op_codeABC o a b c : operation _ (luaK_codeABC o a b c)
  | op_codeABx o a b : operation _ (luaK_codeABx o a b)
  | op_codeAsBx o a b : operation _ (luaK_codeAsBx o a b)
  | op_fixline line : operation _ (luaK_fixline line)
  | op_nil from n : operation _ (luaK_nil from n)
  | op_reserveregs n : operation _ (luaK_reserveregs n)
  | op_checkstack n : operation _ (luaK_checkstack n)
  | op_stringK s : operation _ (luaK_stringK tsv_hash s)
  | op_numberK r : operation _ (luaK_numberK tsv_hash r)
  | op_dischargevars e : operation _ (luaK_dischargevars e)
  | op_exp2anyreg e : operation _ (luaK_exp2anyreg tsv_hash e)
  | op_exp2nextreg e : operation _ (luaK_exp2nextreg tsv_hash e)
  | op_exp2val e : operation _ (luaK_exp2val tsv_hash e)
  | op_exp2RK e : operation _ (luaK_exp2RK tsv_hash h_key e)
  | op_self e k : operation _ (luaK_self tsv_hash h_key e k)
  | op_indexed t k : operation _ (luaK_indexed tsv_hash h_key t k)
  | op_goiftrue e : operation _ (luaK_goiftrue tsv_hash e)
  | op_storevar v e : operation _ (luaK_storevar tsv_hash h_key v e)
  | op_setreturns e n : operation _ (luaK_setreturns e n)
  | op_setoneret e : operation _ (luaK_setoneret e)
  | op_jump : operation _ luaK_jump
  | op_ret first n : operation _ (luaK_ret first n)
  | op_patchlist l t : operation _ (luaK_patchlist l t)
  | op_patchtohere l : operation _ (luaK_patchtohere l)
  | op_concat l1 l2 : operation _ (luaK_concat l1 l2)
  | op_getlabel : operation _ luaK_getlabel
  | op_prefix o e : operation _ (luaK_prefix tsv_hash h_key o e)
  | op_infix o e : operation _ (luaK_infix tsv_hash h_key o e)
  | op_posfix o e1 e2 : operation _ (luaK_posfix tsv_hash h_key o e1 e2).

Inductive gstep (fs : FuncState N) : FuncState N -> Prop :=
  | gs_operation A m (a : A) fs' : operation A m -> m fs = Ok (a, fs') -> gstep fs fs'
  | gs_setlist base n tostore fs' : base + 1 <= fs_maxstacksize fs -> luaK_setlist base n tostore fs = Ok (tt, fs') -> gstep fs fs'
  | gs_parser x n : x <= fs_maxstacksize fs -> gstep fs (set_freereg x (set_nactvar n fs)).

Lemma operation_keeps A m : operation A m -> keeps 0 m.
Proof. intros []; auto with codegen. Qed.

Lemma gstep_ok fs fs' : wf 0 fs -> gstep fs fs' ->
  wf 0 fs' /\ fs_kk fs `prefix_of` fs_kk fs' /\ fs_maxstacksize fs <= fs_maxstacksize fs'.
Proof.
  intros Hw [A m a fs1 Hop E|base n tostore fs1 Hb E|x n Hx].
  - pose proof (operation_keeps A m Hop fs Hw) as Hk. rewrite E in Hk. by destruct Hk as [? []].
  - pose proof (setlist_keeps base n tostore fs Hw Hb) as Hk. rewrite E in Hk. by destruct Hk as [? []].
  - split; [|done]. destruct Hw. by split.
Qed.

Lemma gsteps_ok fs fs' : wf 0 fs -> rtc gstep fs fs' ->
  wf 0 fs' /\ fs_kk fs `prefix_of` fs_kk fs' /\ fs_maxstacksize fs <= fs_maxstacksize fs'.
Proof.
  intros Hw Hs. induction Hs as [|fs fs1 fs2 H1 _ IH]; [done|]. destruct (gstep_ok _ _ Hw H1) as (Hw1 & Hk1 & Hm1).
  destruct (IH Hw1) as (? & ? & ?). split; [done|]. split; [by etrans|lia].
Qed.
End Histories.

(** * A function with a few instructions *)

Module Sample.
Import SpecFloat.

(** IEEE arithmetic; [pow] multiplies as often as a small exponent says. *)
#[export] Instance binary64_arith : NumArith spec_float := {|
  num_zero := S754_zero false;
  luai_numadd := SFadd 53 1024;
  luai_numsub := SFsub 53 1024;
  luai_nummul := SFmul 53 1024;
  luai_numdiv := SFdiv 53 1024;
  luai_numpow x y := Nat.iter (Z.to_nat (Z.min 64 (Binary64.to_int y))) (SFmul 53 1024 x) (Binary64.of_int 1);
  luai_numunm := SFopp;
  num_floor x := match Binary64.trunc x with
                 | Some k => let d := Binary64.of_int k in if SFltb x d then Binary64.of_int (k - 1) else d
                 | None => x
                 end
|}.

(** [open_func]: nothing generated yet. *)
Definition opened : FuncState spec_float := mkFS [] [] 0 (-1) NO_JUMP 0 0 2 new_table [] 1.
Definition h_key : TValue spec_float := GC 5 0.

Lemma opened_wf : wf 0 opened.
Proof. by split. Qed.
Lemma opened_indexed : indexed sample_hash h_key opened.
Proof.
  destruct (luaH_new_ok sample_hash 0 0 new_table) as [Hw Hc]; [done|done|reflexivity|].
  split; [exact Hw|done| |done]. intros k. left. apply Hc.
Qed.

Definition after {A} (m : M (N := spec_float) A) fs : FuncState spec_float := match m fs with Ok (_, fs') => fs' | _ => fs end.

(** A test that stores into register 7 and two jumps, the second one to the
    first. *)
Definition jumps : FuncState spec_float :=
  after (mbind (luaK_codeABC OP_TESTSET 7 3 1) (fun _ => mbind luaK_jump (fun p => mbind luaK_jump (fun q => luaK_concat q p)))) opened.
End Sample.

(** * The theorems *)

Section Theorems.
Context {N : Type} `{LuaNumber N} `{NumArith N}.
Variable tsv_hash : Z -> Z.
Variable h_key : TValue N.
Implicit Types fs : FuncState N.


(** the constant table interns.  luaK_stringK, luaK_numberK, boolK and nilK
    return the index of a constant that is raw-equal to the one asked for, and
    add one only when there was none; constants keep their index; no two of
    them are ever raw-equal; NaN apart, the only failures are a full table. *)
Theorem addk_interns fs v :
  indexed tsv_hash h_key fs -> key_of h_key v <> Nil -> luaO_rawequalObj (key_of h_key v) (key_of h_key v) = true ->
  ends (fun m => m = table_overflow \/ m = constant_overflow)
    (fun r => interned tsv_hash h_key fs v r /\
       forall i j u w, fs_kk r.2 !! i = Some u -> fs_kk r.2 !! j = Some w ->
         luaO_rawequalObj (key_of h_key u) (key_of h_key w) = true -> i = j)
    (addk tsv_hash (key_of h_key v) v fs).
Proof.
  intros Hix Hnil Hself. eapply ends_weaken; [by apply addk_ok|]. intros r Hr. split; [exact Hr|].
  intros i j u w. destruct Hr as (? & Hix' & _). by eapply indexed_distinct.
Qed.

(** C32: whatever operations of the generator are applied to a function, with
    any operands, as long as none of them raises an error: the instructions
    are 32-bit words, one line number each, as many as [pc]; the registers in
    use are within the frame, and the frame is smaller than MAXSTACK, so that
    its size never wraps in its byte; every constant can be addressed by the
    operand of OP_LOADK; the frame never shrinks and no constant changes its
    index. *)
Theorem codegen_invariant fs fs' :
  wf 0 fs -> rtc (gstep tsv_hash h_key) fs fs' ->
  wf 0 fs' /\ fs_kk fs `prefix_of` fs_kk fs' /\ fs_maxstacksize fs <= fs_maxstacksize fs'.
Proof. apply gsteps_ok. Qed.
End Theorems.

Section Witnesses.
Import SpecFloat Sample.


Lemma addk_interns_witness :
  exists r, luaK_stringK sample_hash 65 opened = Ok r /\ interned sample_hash h_key opened (Str 65) r.
Proof.
  pose proof (addk_interns sample_hash h_key opened (Str 65) opened_indexed) as Hk.
  assert (exists r, luaK_stringK sample_hash 65 opened = Ok r) as [r Er] by (eexists; vm_compute; reflexivity).
  exists r. split; [exact Er|]. unfold luaK_stringK in Er. cbn [key_of] in Hk. rewrite Er in Hk. apply Hk; [discriminate|reflexivity].
Defined.

Lemma codegen_invariant_witness : wf 0 jumps.
Proof.
  apply (codegen_invariant sample_hash h_key opened jumps opened_wf).
  assert (forall A (m : M A) a fs fs' fs2, operation sample_hash h_key A m -> m fs = Ok (a, fs') ->
    rtc (gstep sample_hash h_key) fs' fs2 -> rtc (gstep sample_hash h_key) fs fs2) as Hstep.
  { intros A m a fs fs' fs2 Hm Hf. apply rtc_l. by eapply gs_operation. }
  eapply Hstep; [apply (op_codeABC _ _ OP_TESTSET 7 3 1)|vm_compute; reflexivity|].
  eapply Hstep; [apply op_jump|vm_compute; reflexivity|].
  eapply Hstep; [apply op_jump|vm_compute; reflexivity|].
  eapply Hstep; [apply (op_concat _ _ 2 1)|vm_compute; reflexivity|].
  assert (forall fs : FuncState spec_float, fs = jumps -> rtc (gstep sample_hash h_key) fs jumps) as Hend by (intros fs ->; apply rtc_refl).
  apply Hend. vm_compute. reflexivity.
Defined.

(** The two zeros are raw-equal, so the one asked for second is the other. *)
Example minus_zero_is_zero :
  let fs := after (luaK_numberK sample_hash (S754_zero false)) opened in
  match luaK_numberK sample_hash (S754_zero true) fs with
  | Ok (i, fs') => i = 0 /\ fs_kk fs' = [Number (S754_zero false)]
  | _ => False
  end.
Proof. vm_compute. done. Qed.
End Witnesses.
