(* ===== verification/LuaDebug.v ===== *)
(** The bytecode verifier of Lua (lua/src/ldebug.c): symbolic execution of a
    prototype, run by the loader on every precompiled function.

    The VM trusts verified code: it does not check registers, constant indices
    or jumps.  The theorems say what an accepted function guarantees, that the
    verifier itself stays within the function, and, in two examples, where the
    guarantee has a hole. *)
From stdpp Require Import base list.
From Stdlib Require Import ZArith Lia.
From S2P Require Import Prelude LuaOpcodes LuaProto.
Open Scope Z_scope.

(** [check(x)] makes the enclosing function return 0, here [None]. *)
Notation "'check' b ; m" := (if b then m else Ok None)
  (at level 20, b at level 100, m at level 200) : c_scope.

Definition b2z (b : bool) : Z := if b then 1 else 0.

Section Verifier.
Context {N : Type}.
Implicit Types (pt : Proto N) (pc reg a b c last : Z).

Definition checkreg pt (r : Z) : bool := r <? maxstacksize pt.

(** The assertions on [numparams] are compiled out. *)
Definition precheck pt : res (option unit) :=
  check (maxstacksize pt <=? MAXSTACK);
  check (sizeupvalues pt <=? nups pt);
  check ((sizelineinfo pt =? sizecode pt) || (sizelineinfo pt =? 0));
  i <- code_at pt (sizecode pt - 1);
  check (GET_OPCODE i =? op_num OP_RETURN);
  Ok (Some tt).

Definition luaG_checkopenop (i : Z) : bool :=
  match opcode_of (GET_OPCODE i) with
  | Some OP_CALL | Some OP_TAILCALL | Some OP_RETURN | Some OP_SETLIST => GETARG_B i =? 0
  | _ => false
  end.
Definition checkopenop pt pc : res bool := i <- code_at pt (pc + 1); Ok (luaG_checkopenop i).

Definition checkArgMode pt (r mode : Z) : bool :=
  if mode =? OpArgMask_num OpArgN then r =? 0
  else if mode =? OpArgMask_num OpArgU then true
  else if mode =? OpArgMask_num OpArgR then checkreg pt r
  else if ISK r then INDEXK r <? sizek pt else r <? maxstacksize pt.

(** Operands [b], [c], checked according to the mode of the instruction. *)
Definition operands pt pc (op i : Z) : res (option (Z * Z)) :=
  if getOpMode op =? OpMode_num iABC then
    let b := GETARG_B i in
    let c := GETARG_C i in
    check (checkArgMode pt b (getBMode op));
    check (checkArgMode pt c (getCMode op));
    Ok (Some (b, c))
  else if getOpMode op =? OpMode_num iABx then
    let b := GETARG_Bx i in
    check (if getBMode op =? OpArgMask_num OpArgK then b <? sizek pt else true);
    Ok (Some (b, 0))
  else if getOpMode op =? OpMode_num iAsBx then
    let b := GETARG_sBx i in
    if getBMode op =? OpArgMask_num OpArgR then
      let dest := pc + 1 + b in
      check ((0 <=? dest) && (dest <? sizecode pt));
      if 0 <? dest then
        d <- code_at pt (dest - 1);
        check (negb ((GET_OPCODE d =? op_num OP_SETLIST) && (GETARG_C d =? 0)));
        Ok (Some (b, 0))
      else Ok (Some (b, 0))
    else Ok (Some (b, 0))
  else Ok (Some (0, 0)).

(** The pseudo-instructions after OP_CLOSURE, [j] to [j + n - 1]. *)
Fixpoint check_pseudo pt pc (j : Z) (n : nat) : res (option unit) :=
  match n with
  | O => Ok (Some tt)
  | S n' =>
      i <- code_at pt (pc + j);
      let op1 := GET_OPCODE i in
      check ((op1 =? op_num OP_GETUPVAL) || (op1 =? op_num OP_MOVE));
      check_pseudo pt pc (j + 1) n'
  end.

(** The main switch; returns the new [pc] (before its increment) and [last]. *)
Definition exec_op pt (lastpc reg : Z) (o : OpCode) pc a b c last : res (option (Z * Z)) :=
  let do_jump :=
    let dest := pc + 1 + b in
    if negb (reg =? NO_REG) && (pc <? dest) && (dest <=? lastpc) then Ok (Some (pc + b, last))
    else Ok (Some (pc, last)) in
  match o with
  | OP_LOADBOOL => check ((c =? 0) || (pc + 2 <? sizecode pt)); Ok (Some (pc, last))
  | OP_LOADNIL => Ok (Some (pc, if (a <=? reg) && (reg <=? b) then pc else last))
  | OP_GETUPVAL | OP_SETUPVAL => check (b <? nups pt); Ok (Some (pc, last))
  | OP_GETGLOBAL | OP_SETGLOBAL =>
      kb <- k_at pt b;
      check (match kb with KString _ => true | _ => false end);
      Ok (Some (pc, last))
  | OP_SELF =>
      check (checkreg pt (a + 1));
      Ok (Some (pc, if reg =? a + 1 then pc else last))
  | OP_CONCAT => check (b <? c); Ok (Some (pc, last))
  | OP_TFORLOOP =>
      check (1 <=? c);
      check (checkreg pt (a + 2 + c));
      Ok (Some (pc, if a + 2 <=? reg then pc else last))
  | OP_FORLOOP | OP_FORPREP => check (checkreg pt (a + 3)); do_jump
  | OP_JMP => do_jump
  | OP_CALL | OP_TAILCALL =>
      check (if negb (b =? 0) then checkreg pt (a + b - 1) else true);
      let c := c - 1 in
      let last := if a <=? reg then pc else last in
      if c =? LUA_MULTRET then
        o <- checkopenop pt pc;
        check o; Ok (Some (pc, last))
      else
        check (if negb (c =? 0) then checkreg pt (a + c - 1) else true);
        Ok (Some (pc, last))
  | OP_RETURN =>
      let b := b - 1 in
      check (if 0 <? b then checkreg pt (a + b - 1) else true);
      Ok (Some (pc, last))
  | OP_SETLIST =>
      check (if 0 <? b then checkreg pt (a + b) else true);
      Ok (Some (if c =? 0 then pc + 1 else pc, last))
  | OP_CLOSURE =>
      check (b <? sizep pt);
      f <- p_at pt b;
      let nup := nups f in
      check (pc + nup <? sizecode pt);
      r <- check_pseudo pt pc 1 (Z.to_nat nup);
      match r with
      | None => Ok None
      | Some _ => Ok (Some (if negb (reg =? NO_REG) then pc + nup else pc, last))
      end
  | OP_VARARG =>
      check (negb (Z.land (is_vararg pt) VARARG_ISVARARG =? 0) &&
             (Z.land (is_vararg pt) VARARG_NEEDSARG =? 0));
      let b := b - 1 in
      if b =? LUA_MULTRET then
        o <- checkopenop pt pc;
        check o; check (checkreg pt (a + b - 1)); Ok (Some (pc, last))
      else check (checkreg pt (a + b - 1)); Ok (Some (pc, last))
  | _ => Ok (Some (pc, last))
  end.

(** The checks made for one instruction. *)
Definition check_instr pt (lastpc reg pc last : Z) : res (option (Z * Z)) :=
  i <- code_at pt pc;
  let op := GET_OPCODE i in
  let a := GETARG_A i in
  match opcode_of op with
  | None => Ok None
  | Some o =>
      check (checkreg pt a);
      bc <- operands pt pc op i;
      match bc with
      | None => Ok None
      | Some (b, c) =>
          let last := if testAMode op && (a =? reg) then pc else last in
          if testTMode op then
            check (pc + 2 <? sizecode pt);
            j <- code_at pt (pc + 1);
            check (GET_OPCODE j =? op_num OP_JMP);
            exec_op pt lastpc reg o pc a b c last
          else exec_op pt lastpc reg o pc a b c last
      end
  end.

(** One turn of the loop; a failed check leaves it with 0. *)
Definition symb_step pt (lastpc reg : Z) (s : Z * Z) : res ((Z * Z) + Z) :=
  let '(pc, last) := s in
  if pc <? lastpc then
    r <- check_instr pt lastpc reg pc last;
    match r with
    | None => Ok (inr 0)
    | Some (pc, last) => Ok (inl (pc + 1, last))
    end
  else i <- code_at pt last; Ok (inr i).

Definition symbexec pt (lastpc reg : Z) : res Z :=
  r <- precheck pt;
  match r with
  | None => Ok 0
  | Some _ => loop (Z.to_nat lastpc + 1) (symb_step pt lastpc reg) (0, sizecode pt - 1)
  end.

Definition luaG_checkcode pt : res bool :=
  i <- symbexec pt (sizecode pt) NO_REG; Ok (negb (i =? 0)).
End Verifier.

(** * Facts about the opcode table *)

Lemma opcode_of_num o : opcode_of (op_num o) = Some o.
Proof. by destruct o. Qed.

Lemma opcode_of_inv n o : opcode_of n = Some o -> n = op_num o.
Proof.
  unfold opcode_of. destruct (Z.ltb_spec n 0); [done|]. intros Hn.
  assert (Z.to_nat n < 38)%nat as Hlt by (apply lookup_lt_Some in Hn; done).
  assert (forall k, (k < 38)%nat -> forall o, all_opcodes !! k = Some o -> Z.of_nat k = op_num o) as Hall.
  { intros k Hk. do 38 (destruct k as [|k]; [intros ? [= <-]; reflexivity|]). lia. }
  rewrite <- (Hall _ Hlt _ Hn). lia.
Qed.

Definition mode_of (o : OpCode) : OpMode :=
  match o with
  | OP_LOADK | OP_GETGLOBAL | OP_SETGLOBAL | OP_CLOSURE => iABx
  | OP_JMP | OP_FORLOOP | OP_FORPREP => iAsBx
  | _ => iABC
  end.
Lemma getOpMode_num o : getOpMode (op_num o) = OpMode_num (mode_of o).
Proof. by destruct o. Qed.

(** The instructions followed by a jump. *)
Definition is_test (o : OpCode) : bool :=
  match o with OP_EQ | OP_LT | OP_LE | OP_TEST | OP_TESTSET | OP_TFORLOOP => true | _ => false end.
Lemma testTMode_num o : testTMode (op_num o) = is_test o.
Proof. by destruct o. Qed.

Lemma args_range i :
  0 <= GETARG_A i < 256 /\ 0 <= GETARG_B i < 512 /\ 0 <= GETARG_C i < 512 /\ 0 <= GETARG_Bx i < 262144.
Proof.
  autorewrite with opfields. split_and!;
    (apply (field_range i 6 8); lia) || (apply (field_range i 23 9); lia) ||
    (apply (field_range i 14 9); lia) || (apply (field_range i 14 18); lia).
Qed.

(** An instruction word followed by a count. *)
Definition setlist0 (i : Z) : bool := (GET_OPCODE i =? op_num OP_SETLIST) && (GETARG_C i =? 0).

Section Sound.
Context {N : Type} (pt : Proto N).
Implicit Types (pc reg last i : Z) (o : OpCode).

(** What the operand checks establish. *)
Record operands_ok pc o i b c : Prop := {
  op_abc : mode_of o = iABC ->
    b = GETARG_B i /\ c = GETARG_C i /\ checkArgMode pt b (getBMode (op_num o)) = true /\
    checkArgMode pt c (getCMode (op_num o)) = true;
  op_abx : mode_of o = iABx ->
    b = GETARG_Bx i /\ (getBMode (op_num o) = OpArgMask_num OpArgK -> b < sizek pt);
  op_asbx : mode_of o = iAsBx ->
    b = GETARG_sBx i /\ 0 <= pc + 1 + b < sizecode pt /\
    (0 < pc + 1 + b -> exists d, code_at pt (pc + b) = Ok d /\ setlist0 d = false)
}.

Lemma operands_total pc o i :
  exists r, operands pt pc (op_num o) i = Ok r /\
    match r with Some (b, c) => operands_ok pc o i b c | None => True end.
Proof.
  unfold operands. rewrite getOpMode_num. destruct (mode_of o) eqn:Em; cbn [OpMode_num Z.eqb].
  - destruct (checkArgMode pt (GETARG_B i) _) eqn:E1; [|by eexists].
    destruct (checkArgMode pt (GETARG_C i) _) eqn:E2; [|by eexists].
    eexists. split; [done|]. by split; rewrite Em.
  - destruct (if _ =? OpArgMask_num OpArgK then _ else _) eqn:E1; [|by eexists].
    eexists. split; [done|]. split; rewrite Em; try done. intros _. split; [done|].
    intros E. rewrite E in E1. by apply Z.ltb_lt.
  - assert ((getBMode (op_num o) =? OpArgMask_num OpArgR) = true) as -> by by destruct o.
    destruct ((0 <=? pc + 1 + GETARG_sBx i) && (pc + 1 + GETARG_sBx i <? sizecode pt)) eqn:E1; [|by eexists].
    zbool. case_zbool (0 <? pc + 1 + GETARG_sBx i).
    + destruct (at_ok (code pt) (pc + 1 + GETARG_sBx i - 1) "code read out of bounds") as (d & Hd & _);
        [unfold sizecode in *; lia|].
      unfold code_at at 1. rewrite Hd. cbn [bind]. fold (setlist0 d).
      destruct (setlist0 d) eqn:Es; cbn [negb]; [by eexists|].
      eexists. split; [done|]. split; rewrite Em; try done. intros _. split_and!; [done..|].
      intros _. exists d. split; [|done]. unfold code_at. by replace (pc + GETARG_sBx i) with (pc + 1 + GETARG_sBx i - 1) by lia.
    + eexists. split; [done|]. split; rewrite Em; try done. intros _. split_and!; [done..|lia].
Qed.

Lemma precheck_inv : precheck pt = Ok (Some tt) ->
  maxstacksize pt <= MAXSTACK /\ exists i, code_at pt (sizecode pt - 1) = Ok i /\ GET_OPCODE i = op_num OP_RETURN.
Proof.
  unfold precheck. case_zbool (maxstacksize pt <=? MAXSTACK); [|done].
  destruct (sizeupvalues pt <=? nups pt); [|done].
  destruct ((sizelineinfo pt =? sizecode pt) || (sizelineinfo pt =? 0)); [|done].
  destruct (code_at pt (sizecode pt - 1)) as [i| |]; cbn [bind]; [|done..].
  case_zbool (GET_OPCODE i =? op_num OP_RETURN); [|done]. intros _. split; [done|]. by exists i.
Qed.

Lemma code_at_ok pc : 0 <= pc < sizecode pt -> exists i, code_at pt pc = Ok i.
Proof. intros Hpc. destruct (at_ok (code pt) pc "code read out of bounds") as (i & ? & _); [done|eauto]. Qed.
Lemma code_at_inv pc i : code_at pt pc = Ok i -> 0 <= pc < sizecode pt.
Proof. intros Hi. by apply at_inv in Hi as [? _]. Qed.

Definition ends_in_return : Prop :=
  exists i, code_at pt (sizecode pt - 1) = Ok i /\ GET_OPCODE i = op_num OP_RETURN.

(** An instruction that does not return is not the last one. *)
Lemma not_last pc i o :
  ends_in_return -> code_at pt pc = Ok i -> opcode_of (GET_OPCODE i) = Some o -> o <> OP_RETURN ->
  pc + 1 < sizecode pt.
Proof.
  intros (r & Hr & Hret) Hi Ho Hne. pose proof (code_at_inv pc i Hi).
  destruct (Z.eq_dec pc (sizecode pt - 1)) as [E|]; [|lia]. exfalso. apply Hne.
  rewrite E in Hi. assert (i = r) as -> by congruence. rewrite Hret, opcode_of_num in Ho. congruence.
Qed.

(** * The verifier stays within the function *)

Definition subs_ok : Prop := Forall (fun g => 0 <= nups g) (p pt).

Lemma check_pseudo_total pc j n :
  0 <= pc + j -> pc + j + Z.of_nat n <= sizecode pt -> is_ok (check_pseudo pt pc j n).
Proof.
  revert j. induction n as [|n IH]; intros j H0 Hn; [by eexists|]. cbn [check_pseudo].
  destruct (code_at_ok (pc + j)) as [i ->]; [lia|]. cbn [bind].
  destruct (_ || _); [|by eexists]. apply IH; lia.
Qed.

Lemma checkopenop_total pc : 0 <= pc + 1 < sizecode pt -> is_ok (checkopenop pt pc).
Proof. intros Hpc. unfold checkopenop. destruct (code_at_ok (pc + 1) Hpc) as [i ->]. by eexists. Qed.

(** The outcome of a step that stays in bounds. *)
Definition good_step pc last (m : res (option (Z * Z))) : Prop :=
  match m with
  | Ok None => True
  | Ok (Some (pc', last')) => pc <= pc' /\ (last' = last \/ last' = pc)
  | _ => False
  end.

Lemma exec_op_total lastpc reg pc i o b c last :
  subs_ok -> ends_in_return -> 0 <= pc -> code_at pt pc = Ok i -> opcode_of (GET_OPCODE i) = Some o ->
  operands_ok pc o i b c ->
  good_step pc last (exec_op pt lastpc reg o pc (GETARG_A i) b c last).
Proof.
  intros Hsub Hret Hpc Hi Ho [Habc Habx Hasbx].
  pose proof (not_last pc i o Hret Hi Ho) as Hlast. pose proof (args_range i) as (HA & HB & HC & HBx).
  unfold exec_op, good_step.
  assert (forall m : res (option (Z * Z)), match m with Ok None => True
    | Ok (Some (pc', last')) => pc <= pc' /\ (last' = last \/ last' = pc) | _ => False end ->
    forall b : bool, match (if b then m else Ok None) with Ok None => True
    | Ok (Some (pc', last')) => pc <= pc' /\ (last' = last \/ last' = pc) | _ => False end) as Hchk
    by (intros m Hm []; done).
  assert (forall x : bool, (if x then pc else last) = last \/ (if x then pc else last) = pc) as Hl
    by (intros []; auto).
  destruct (decide (o = OP_CLOSURE)) as [->|Hnc].
  { destruct (Habx eq_refl) as [-> Hk].
    case_zbool (GETARG_Bx i <? sizep pt); [|done].
    destruct (at_ok (p pt) (GETARG_Bx i) "prototype read out of bounds") as (g & Hg & Hg');
      [unfold sizep in *; lia|].
    unfold p_at. rewrite Hg. cbn [bind]. case_zbool (pc + nups g <? sizecode pt); [|done].
    pose proof (Forall_lookup_1 _ _ _ _ Hsub Hg') as Hn. cbn in Hn.
    destruct (check_pseudo_total pc 1 (Z.to_nat (nups g))) as [r ->]; [lia|lia|]. cbn [bind].
    destruct r; [|done]. split; [destruct (negb _); lia|auto]. }
  destruct o; cbn [mode_of] in *; repeat apply Hchk; try (split; [lia|auto]);
    try (destruct (Habx eq_refl) as [-> Hk]).
  - destruct (at_ok (k pt) (GETARG_Bx i) "constant read out of bounds") as (kb & Hkb & _);
      [specialize (Hk eq_refl); unfold sizek in *; lia|].
    unfold k_at. rewrite Hkb. cbn [bind]. apply Hchk. split; [lia|auto].
  - destruct (at_ok (k pt) (GETARG_Bx i) "constant read out of bounds") as (kb & Hkb & _);
      [specialize (Hk eq_refl); unfold sizek in *; lia|].
    unfold k_at. rewrite Hkb. cbn [bind]. apply Hchk. split; [lia|auto].
  - case_zbool (negb (reg =? NO_REG) && (pc <? pc + 1 + b) && (pc + 1 + b <=? lastpc)); split; auto; lia.
  - destruct (_ =? LUA_MULTRET); [|apply Hchk; split; [lia|apply Hl]].
    destruct (checkopenop_total pc) as [x ->]; [specialize (Hlast ltac:(done)); lia|].
    cbn [bind]. apply Hchk. split; [lia|apply Hl].
  - destruct (_ =? LUA_MULTRET); [|apply Hchk; split; [lia|apply Hl]].
    destruct (checkopenop_total pc) as [x ->]; [specialize (Hlast ltac:(done)); lia|].
    cbn [bind]. apply Hchk. split; [lia|apply Hl].
  - case_zbool (negb (reg =? NO_REG) && (pc <? pc + 1 + b) && (pc + 1 + b <=? lastpc)); split; auto; lia.
  - case_zbool (negb (reg =? NO_REG) && (pc <? pc + 1 + b) && (pc + 1 + b <=? lastpc)); split; auto; lia.
  - split; [|auto]. destruct (c =? 0); lia.
  - done.
  - destruct (_ =? LUA_MULTRET); [|apply Hchk; split; [lia|auto]].
    destruct (checkopenop_total pc) as [x ->]; [specialize (Hlast ltac:(done)); lia|].
    cbn [bind]. repeat apply Hchk. split; [lia|auto].
Qed.

Lemma check_instr_total lastpc reg pc last :
  subs_ok -> ends_in_return -> 0 <= pc < sizecode pt ->
  good_step pc last (check_instr pt lastpc reg pc last).
Proof.
  intros Hsub Hret Hpc. unfold check_instr. destruct (code_at_ok pc Hpc) as [i Hi]. rewrite Hi. cbn [bind].
  destruct (opcode_of (GET_OPCODE i)) as [o|] eqn:Ho; [|done].
  rewrite (opcode_of_inv _ _ Ho). destruct (checkreg pt (GETARG_A i)); [|done].
  destruct (operands_total pc o i) as (r & -> & Hr). cbn [bind]. destruct r as [[b c]|]; [|done].
  set (last1 := if _ && _ then pc else last).
  pose proof (exec_op_total lastpc reg pc i o b c last1 Hsub Hret ltac:(lia) Hi Ho Hr) as Hg.
  assert (good_step pc last (exec_op pt lastpc reg o pc (GETARG_A i) b c last1)) as Hg'.
  { unfold good_step in *. destruct (exec_op _ _ _ _ _ _ _ _ _) as [[[pc' last']|]| |]; try done.
    unfold last1 in Hg. destruct (_ && _); intuition. }
  destruct (testTMode (op_num o)); [|done]. case_zbool (pc + 2 <? sizecode pt); [|done].
  destruct (code_at_ok (pc + 1)) as [j ->]; [lia|]. cbn [bind]. by destruct (_ =? op_num OP_JMP).
Qed.

Lemma symbexec_ok lastpc reg :
  subs_ok -> 0 < sizecode pt -> 0 <= lastpc <= sizecode pt -> is_ok (symbexec pt lastpc reg).
Proof.
  intros Hsub Hsz Hl. unfold symbexec.
  assert (is_ok (precheck pt)) as [[[]|] Hp].
  { unfold precheck. repeat (destruct (_ <=? _); [|by eexists]). destruct (_ || _); [|by eexists].
    destruct (code_at_ok (sizecode pt - 1)) as [i ->]; [lia|]. cbn. destruct (_ =? _); by eexists. }
  2: { rewrite Hp. by eexists. }
  rewrite Hp. cbn [bind]. destruct (precheck_inv Hp) as [_ Hret].
  destruct (loop_total (fun s : Z * Z => 0 <= s.1 /\ 0 <= s.2 < sizecode pt)
    (fun s => Z.to_nat (lastpc - s.1)) (fun _ : Z => True) (symb_step pt lastpc reg) (0, sizecode pt - 1)
    (Z.to_nat lastpc + 1)) as (r & Hr & _); [|cbn; lia|cbn; lia|by exists r].
  intros [pc last] [Hpc Hlast]. cbn [fst snd] in *. unfold symb_step. case_zbool (pc <? lastpc).
  - pose proof (check_instr_total lastpc reg pc last Hsub Hret ltac:(lia)) as Hg.
    unfold good_step in Hg. destruct (check_instr pt lastpc reg pc last) as [[[pc' last']|]| |]; try done.
    cbn [bind fst snd]. split; [|lia]. split; [lia|]. destruct Hg as [_ [->| ->]]; lia.
  - destruct (code_at_ok last Hlast) as [i ->]. done.
Qed.

(** * What an accepted function guarantees *)

(** The positions the verifier looks at: all but the counts after OP_SETLIST. *)
Inductive scanned : Z -> Prop :=
  | scanned_0 : scanned 0
  | scanned_next pc i : scanned pc -> code_at pt pc = Ok i ->
      scanned (if setlist0 i then pc + 2 else pc + 1).

Lemma scanned_nonneg pc : scanned pc -> 0 <= pc.
Proof. induction 1; [done|]. destruct (setlist0 i); lia. Qed.

Lemma scanned_or_count d :
  0 <= d <= sizecode pt -> scanned d \/ exists i, scanned (d - 1) /\ code_at pt (d - 1) = Ok i /\ setlist0 i = true.
Proof.
  intros Hd. remember (Z.to_nat d) as n eqn:En. revert d Hd En.
  induction n as [|n IH]; intros d Hd En; [left; replace d with 0 by lia; constructor|].
  destruct (code_at_ok (d - 1)) as [i Hi]; [lia|].
  destruct (IH (d - 1)) as [Hs|(j & Hs & Hj & Hsl)]; [lia|lia| |].
  - destruct (setlist0 i) eqn:E; [right; eauto|left].
    pose proof (scanned_next _ _ Hs Hi) as Hn. rewrite E in Hn. by replace (d - 1 + 1) with d in Hn by lia.
  - left. pose proof (scanned_next _ _ Hs Hj) as Hn. rewrite Hsl in Hn. by replace (d - 1 - 1 + 2) with d in Hn by lia.
Qed.

(** Where control goes after an instruction, as luaV_execute does; a test is
    followed by a jump that it executes or skips. *)
Definition succs pc i o : list Z :=
  match o with
  | OP_JMP | OP_FORPREP => [pc + 1 + GETARG_sBx i]
  | OP_FORLOOP => [pc + 1 + GETARG_sBx i; pc + 1]
  | OP_EQ | OP_LT | OP_LE | OP_TEST | OP_TESTSET | OP_TFORLOOP => [pc + 1; pc + 2]
  | OP_LOADBOOL => if GETARG_C i =? 0 then [pc + 1] else [pc + 2]
  | OP_RETURN => []
  | OP_SETLIST => if GETARG_C i =? 0 then [pc + 2] else [pc + 1]
  | OP_CLOSURE => match p_at pt (GETARG_Bx i) with Ok g => [pc + 1 + nups g] | _ => [] end
  | _ => [pc + 1]
  end.

(** The registers an instruction accesses by fixed operands (the largest, for a
    range), and the constants. *)
Definition rk (x : Z) : list Z := if ISK x then [] else [x].
Definition kk (x : Z) : list Z := if ISK x then [INDEXK x] else [].
Definition regs_of i o : list Z :=
  let a := GETARG_A i in let b := GETARG_B i in let c := GETARG_C i in
  match o with
  | OP_MOVE | OP_UNM | OP_NOT | OP_LEN | OP_TESTSET | OP_LOADNIL => [a; b]
  | OP_GETTABLE => [a; b] ++ rk c
  | OP_SETTABLE | OP_ADD | OP_SUB | OP_MUL | OP_DIV | OP_MOD | OP_POW => a :: rk b ++ rk c
  | OP_EQ | OP_LT | OP_LE => rk b ++ rk c
  | OP_SELF => [a; a + 1; b] ++ rk c
  | OP_CONCAT => [a; b; c]
  | OP_JMP => []
  | OP_CALL | OP_TAILCALL =>
      a :: (if b =? 0 then [] else [a + b - 1]) ++ (if c <=? 1 then [] else [a + c - 2])
  | OP_RETURN | OP_VARARG => a :: if b <=? 1 then [] else [a + b - 2]
  | OP_FORLOOP | OP_FORPREP => [a; a + 3]
  | OP_TFORLOOP => [a; a + 2 + c]
  | OP_SETLIST => a :: if b =? 0 then [] else [a + b]
  | _ => [a]
  end.
Definition consts_of i o : list Z :=
  let b := GETARG_B i in let c := GETARG_C i in
  match o with
  | OP_LOADK | OP_GETGLOBAL | OP_SETGLOBAL => [GETARG_Bx i]
  | OP_GETTABLE | OP_SELF => kk c
  | OP_SETTABLE | OP_ADD | OP_SUB | OP_MUL | OP_DIV | OP_MOD | OP_POW | OP_EQ | OP_LT | OP_LE => kk b ++ kk c
  | _ => []
  end.

(** The two cases the verifier forgets: OP_LOADBOOL skipping an OP_SETLIST into
    its count, and a count that is the last word of the code. *)
Definition hole pc i o : Prop :=
  (o = OP_LOADBOOL /\ GETARG_C i <> 0 /\ exists j, code_at pt (pc + 1) = Ok j /\ setlist0 j = true) \/
  (setlist0 i = true /\ pc + 2 = sizecode pt).

Record safe pc i o : Prop := {
  sf_regs r : r ∈ regs_of i o -> 0 <= r < maxstacksize pt;
  sf_consts x : x ∈ consts_of i o -> 0 <= x < sizek pt;
  sf_global : o = OP_GETGLOBAL \/ o = OP_SETGLOBAL -> exists s, k_at pt (GETARG_Bx i) = Ok (KString s);
  sf_upval : o = OP_GETUPVAL \/ o = OP_SETUPVAL -> 0 <= GETARG_B i < nups pt;
  sf_closure : o = OP_CLOSURE -> is_ok (p_at pt (GETARG_Bx i));
  sf_succs pc' : pc' ∈ succs pc i o -> (0 <= pc' < sizecode pt /\ scanned pc') \/ hole pc i o
}.

(** ** The argument modes *)

Definition bmode_of (o : OpCode) : OpArgMask :=
  match o with
  | OP_MOVE | OP_LOADNIL | OP_GETTABLE | OP_SELF | OP_UNM | OP_NOT | OP_LEN | OP_CONCAT
  | OP_JMP | OP_TEST | OP_TESTSET | OP_FORLOOP | OP_FORPREP => OpArgR
  | OP_LOADK | OP_GETGLOBAL | OP_SETGLOBAL | OP_SETTABLE | OP_ADD | OP_SUB | OP_MUL | OP_DIV
  | OP_MOD | OP_POW | OP_EQ | OP_LT | OP_LE => OpArgK
  | OP_TFORLOOP | OP_CLOSE => OpArgN
  | _ => OpArgU
  end.
Definition cmode_of (o : OpCode) : OpArgMask :=
  match o with
  | OP_CONCAT => OpArgR
  | OP_GETTABLE | OP_SETTABLE | OP_SELF | OP_ADD | OP_SUB | OP_MUL | OP_DIV
  | OP_MOD | OP_POW | OP_EQ | OP_LT | OP_LE => OpArgK
  | OP_LOADBOOL | OP_NEWTABLE | OP_TEST | OP_TESTSET | OP_CALL | OP_TAILCALL | OP_TFORLOOP
  | OP_SETLIST => OpArgU
  | _ => OpArgN
  end.
Lemma getBMode_num o : getBMode (op_num o) = OpArgMask_num (bmode_of o).
Proof. by destruct o. Qed.
Lemma getCMode_num o : getCMode (op_num o) = OpArgMask_num (cmode_of o).
Proof. by destruct o. Qed.

Definition arg_ok (r : Z) (m : OpArgMask) : Prop :=
  match m with
  | OpArgN => r = 0
  | OpArgU => True
  | OpArgR => r < maxstacksize pt
  | OpArgK => if ISK r then INDEXK r < sizek pt else r < maxstacksize pt
  end.
Lemma checkArgMode_inv r m : checkArgMode pt r (OpArgMask_num m) = true -> arg_ok r m.
Proof.
  destruct m; unfold checkArgMode, checkreg; cbn; [apply Z.eqb_eq|done|apply Z.ltb_lt|].
  destruct (ISK r); apply Z.ltb_lt.
Qed.

Lemma rk_ok r x : 0 <= r -> arg_ok r OpArgK -> x ∈ rk r -> 0 <= x < maxstacksize pt.
Proof.
  unfold rk, arg_ok. destruct (ISK r); [intros _ _ []%elem_of_nil|].
  intros ? ? ->%list_elem_of_singleton. lia.
Qed.
Lemma kk_ok r x : 0 <= r -> arg_ok r OpArgK -> x ∈ kk r -> 0 <= x < sizek pt.
Proof.
  unfold kk, arg_ok. destruct (ISK r); [|intros _ _ []%elem_of_nil].
  intros ? ? ->%list_elem_of_singleton. split; [|done]. unfold INDEXK. apply Z.land_nonneg. by left.
Qed.

(** ** One accepted instruction *)

Record accepted pc i o b c : Prop := {
  ac_code : code_at pt pc = Ok i;
  ac_op : opcode_of (GET_OPCODE i) = Some o;
  ac_a : GETARG_A i < maxstacksize pt;
  ac_operands : operands_ok pc o i b c;
  ac_test : is_test o = true -> pc + 2 < sizecode pt /\
    exists j, code_at pt (pc + 1) = Ok j /\ GET_OPCODE j = op_num OP_JMP;
  ac_exec : exists last r, exec_op pt (sizecode pt) NO_REG o pc (GETARG_A i) b c last = Ok (Some r)
}.

Lemma check_instr_inv pc last i r :
  code_at pt pc = Ok i -> check_instr pt (sizecode pt) NO_REG pc last = Ok (Some r) ->
  exists o b c last', accepted pc i o b c /\
    exec_op pt (sizecode pt) NO_REG o pc (GETARG_A i) b c last' = Ok (Some r).
Proof.
  intros Hi. unfold check_instr. rewrite Hi. cbn [bind].
  destruct (opcode_of (GET_OPCODE i)) as [o|] eqn:Ho; [|done]. rewrite (opcode_of_inv _ _ Ho).
  destruct (checkreg pt (GETARG_A i)) eqn:Ha; [|done].
  destruct (operands_total pc o i) as (m & -> & Hm). cbn [bind]. destruct m as [[b c]|]; [|done].
  rewrite testTMode_num. set (last' := if _ && _ then pc else last).
  assert (opcode_of (GET_OPCODE i) = Some o) as Ho' by done.
  destruct (is_test o) eqn:Et.
  - case_zbool (pc + 2 <? sizecode pt); [|done].
    destruct (code_at pt (pc + 1)) as [j| |] eqn:Hj; cbn [bind]; [|done..].
    case_zbool (GET_OPCODE j =? op_num OP_JMP); [|done]. intros He. exists o, b, c, last'.
    split; [|done]. split; eauto. by apply Z.ltb_lt.
  - intros He. exists o, b, c, last'. split; [|done]. split; eauto; [by apply Z.ltb_lt|congruence].
Qed.

(** Without tracing, the verifier goes to the next instruction. *)
Lemma exec_op_next o pc i b c last pc' last' :
  opcode_of (GET_OPCODE i) = Some o -> operands_ok pc o i b c ->
  exec_op pt (sizecode pt) NO_REG o pc (GETARG_A i) b c last = Ok (Some (pc', last')) ->
  pc' + 1 = if setlist0 i then pc + 2 else pc + 1.
Proof.
  intros Ho Hop. unfold setlist0. rewrite (opcode_of_inv _ _ Ho).
  assert (o <> OP_SETLIST -> (op_num o =? op_num OP_SETLIST) = false) as Hne by (by destruct o).
  destruct (decide (o = OP_SETLIST)) as [->|Hn].
  - destruct (op_abc _ _ _ _ _ Hop eq_refl) as (_ & -> & _). unfold exec_op.
    destruct (if 0 <? b then _ else _); [|done]. intros [= <- <-]. cbn [andb].
    change (op_num OP_SETLIST =? op_num OP_SETLIST) with true. cbn [andb].
    destruct (GETARG_C i =? 0); lia.
  - rewrite (Hne Hn). cbn [andb]. intros He. f_equal. revert He. unfold exec_op.
    change (NO_REG =? NO_REG) with true. cbn [negb andb].
    assert (forall (b : bool) (m : res (option (Z * Z))), (if b then m else Ok None) = Ok (Some (pc', last')) ->
      m = Ok (Some (pc', last'))) as Hchk by (by intros []).
    destruct o; try done; repeat (intros ?%Hchk; revert H); try (by intros [= <- _]);
      repeat match goal with
      | |- (if _ then _ else Ok None) = _ -> _ => intros Hx%Hchk; revert Hx
      | |- bind ?m _ = _ -> _ => destruct m as [?| |]; cbn [bind]; [|done..]
      | |- (match ?x with Some _ => _ | None => _ end) = _ -> _ => destruct x; [|done]
      | |- (if ?x then _ else _) = _ -> _ => destruct x
      end; by intros [= <- _].
Qed.

Section Accepted.
Hypothesis Hacc : luaG_checkcode pt = Ok true.

Lemma acc_precheck : precheck pt = Ok (Some tt).
Proof.
  unfold luaG_checkcode, symbexec in Hacc. destruct (precheck pt) as [[[]|]| |]; cbn in Hacc; done.
Qed.

Lemma acc_return : ends_in_return.
Proof. destruct (precheck_inv acc_precheck) as [_ ?]. done. Qed.

Lemma acc_scan pc : scanned pc ->
  exists fuel last r, r <> 0 /\ loop fuel (symb_step pt (sizecode pt) NO_REG) (pc, last) = Ok r.
Proof.
  induction 1 as [|pc i Hs IH Hi].
  - unfold luaG_checkcode, symbexec in Hacc. rewrite acc_precheck in Hacc. cbn [bind] in Hacc.
    destruct (loop _ _ _) as [r| |] eqn:E; [|done..]. cbn in Hacc.
    eexists _, _, r. split; [|exact E]. intros ->. done.
  - destruct IH as (fuel & last & r & Hr & Hl). destruct fuel as [|fuel]; [done|]. cbn [loop] in Hl.
    unfold symb_step in Hl at 1. pose proof (code_at_inv pc i Hi) as Hpc.
    replace (pc <? sizecode pt) with true in Hl by lia.
    destruct (check_instr pt (sizecode pt) NO_REG pc last) as [[[pc1 last1]|]| |] eqn:Ec; cbn [bind] in Hl;
      [|congruence|done|done].
    destruct (check_instr_inv _ _ _ _ Hi Ec) as (o & b & c & last' & Ha & He).
    rewrite (exec_op_next o pc i b c last' pc1 last1) in Hl; [|apply Ha|apply Ha|done].
    by exists fuel, last1, r.
Qed.

Lemma acc_instr pc i :
  scanned pc -> code_at pt pc = Ok i -> exists o b c, accepted pc i o b c.
Proof.
  intros Hs Hi. destruct (acc_scan pc Hs) as (fuel & last & r & Hr & Hl).
  destruct fuel as [|fuel]; [done|]. cbn [loop] in Hl. unfold symb_step in Hl at 1.
  pose proof (code_at_inv pc i Hi) as Hpc. replace (pc <? sizecode pt) with true in Hl by lia.
  destruct (check_instr pt (sizecode pt) NO_REG pc last) as [[r'|]| |] eqn:Ec; cbn [bind] in Hl;
    [|congruence|done|done].
  destruct (check_instr_inv _ _ _ _ Hi Ec) as (o & b & c & last' & Ha & _). eauto.
Qed.

(** ** Its operands are in range *)

Lemma exec_some (x : bool) (m : res (option (Z * Z))) r :
  (if x then m else Ok None) = Ok (Some r) -> x = true /\ m = Ok (Some r).
Proof. by destruct x. Qed.

Ltac exec_inv H :=
  unfold exec_op in H;
  repeat match type of H with
  | (if _ then _ else Ok None) = Ok (Some _) => apply exec_some in H as [? H]
  end.

Definition reg_ok (r : Z) : Prop := 0 <= r < maxstacksize pt.

Lemma rk_regs r : 0 <= r -> arg_ok r OpArgK -> Forall reg_ok (rk r).
Proof. intros ? ?. apply Forall_forall. intros x. by apply rk_ok. Qed.

Lemma opt_reg (x : bool) y : (x = false -> reg_ok y) -> Forall reg_ok (if x then [] else [y]).
Proof. intros Hy. destruct x; constructor; [by apply Hy|constructor]. Qed.

(** The operands of an iABC instruction, with their modes. *)
Lemma acc_args pc i o b c :
  accepted pc i o b c -> mode_of o = iABC ->
  b = GETARG_B i /\ c = GETARG_C i /\ arg_ok (GETARG_B i) (bmode_of o) /\ arg_ok (GETARG_C i) (cmode_of o).
Proof.
  intros Hacc' Hm. destruct (op_abc _ _ _ _ _ (ac_operands _ _ _ _ _ Hacc') Hm) as (-> & -> & Hb & Hc).
  rewrite getBMode_num in Hb. rewrite getCMode_num in Hc.
  by split_and!; [| |apply checkArgMode_inv..].
Qed.

Definition simple_op (o : OpCode) : bool :=
  match o with
  | OP_SELF | OP_CALL | OP_TAILCALL | OP_RETURN | OP_FORLOOP | OP_FORPREP | OP_TFORLOOP | OP_SETLIST
  | OP_VARARG => false
  | _ => true
  end.

Lemma acc_regs_simple pc i o b c :
  accepted pc i o b c -> simple_op o = true -> Forall reg_ok (regs_of i o).
Proof.
  intros Hacc' Hs. pose proof (args_range i) as (HA & HB & HC & _).
  pose proof (ac_a _ _ _ _ _ Hacc') as Ha. pose proof (acc_args _ _ _ _ _ Hacc') as Hargs. clear Hacc'.
  destruct o; try discriminate Hs; clear Hs; cbn [mode_of bmode_of cmode_of] in Hargs;
    try (specialize (Hargs eq_refl) as (_ & _ & Hb & Hc)); cbn [arg_ok] in Hb, Hc || idtac;
    unfold regs_of; rewrite ?Forall_cons, ?Forall_app, ?Forall_cons; unfold reg_ok;
    split_and?; try (apply rk_regs; [lia|assumption]); try lia; apply Forall_nil_2.
Qed.

Lemma acc_regs pc i o b c : accepted pc i o b c -> Forall reg_ok (regs_of i o).
Proof.
  intros Hacc'. destruct (simple_op o) eqn:Hs; [by eapply acc_regs_simple|].
  pose proof (args_range i) as (HA & HB & HC & _).
  pose proof (ac_a _ _ _ _ _ Hacc') as Ha. pose proof (acc_args _ _ _ _ _ Hacc') as Hargs.
  destruct (ac_exec _ _ _ _ _ Hacc') as (last & r & He). clear Hacc'.
  destruct o; try discriminate Hs; clear Hs; cbn [mode_of bmode_of cmode_of] in Hargs;
    try (specialize (Hargs eq_refl) as (-> & -> & Hb & Hc));
    exec_inv He; unfold checkreg in *; unfold regs_of; rewrite ?Forall_cons, ?Forall_app, ?Forall_cons.
  - zbool. cbn [arg_ok] in Hb. unfold reg_ok.
    split_and?; try (apply rk_regs; [lia|assumption]); try lia; apply Forall_nil_2.
  - unfold LUA_MULTRET in He. split; [unfold reg_ok; lia|]. split; apply opt_reg; intros E; unfold reg_ok; try rewrite E in *; zbool.
    + cbn [negb] in *. zbool. lia.
    + replace (GETARG_C i - 1 =? -1) with false in He by lia. apply exec_some in He as [Hc' _].
      replace (GETARG_C i - 1 =? 0) with false in Hc' by lia. cbn [negb] in Hc'. zbool. lia.
  - unfold LUA_MULTRET in He. split; [unfold reg_ok; lia|]. split; apply opt_reg; intros E; unfold reg_ok; try rewrite E in *; zbool.
    + cbn [negb] in *. zbool. lia.
    + replace (GETARG_C i - 1 =? -1) with false in He by lia. apply exec_some in He as [Hc' _].
      replace (GETARG_C i - 1 =? 0) with false in Hc' by lia. cbn [negb] in Hc'. zbool. lia.
  - split; [unfold reg_ok; lia|]. apply opt_reg. intros E. unfold reg_ok. zbool.
    replace (0 <? GETARG_B i - 1) with true in H by lia. zbool. lia.
  - zbool. unfold reg_ok. split_and!; try lia; apply Forall_nil_2.
  - zbool. unfold reg_ok. split_and!; try lia; apply Forall_nil_2.
  - zbool. unfold reg_ok. split_and!; try lia; apply Forall_nil_2.
  - split; [unfold reg_ok; lia|]. apply opt_reg. intros E. unfold reg_ok. zbool.
    replace (0 <? GETARG_B i) with true in H by lia. zbool. lia.
  - split; [unfold reg_ok; lia|]. apply opt_reg. intros E. unfold reg_ok, LUA_MULTRET in *. zbool.
    replace (GETARG_B i - 1 =? -1) with false in He by lia. apply exec_some in He as [Hc' _]. zbool. lia.
Qed.

Lemma acc_consts pc i o b c x : accepted pc i o b c -> x ∈ consts_of i o -> 0 <= x < sizek pt.
Proof.
  intros Hacc' Hx. pose proof (args_range i) as (HA & HB & HC & HBx).
  pose proof (acc_args _ _ _ _ _ Hacc') as Hargs.
  pose proof (op_abx _ _ _ _ _ (ac_operands _ _ _ _ _ Hacc')) as Habx. clear Hacc'.
  rewrite getBMode_num in Habx. unfold consts_of in Hx.
  destruct o; cbn [mode_of bmode_of cmode_of] in *; try (by apply elem_of_nil in Hx);
    try (specialize (Hargs eq_refl) as (_ & _ & Hb & Hc)); try apply elem_of_app in Hx as [Hx|Hx];
    try (apply (kk_ok (GETARG_B i)); [lia|assumption|assumption]);
    try (apply (kk_ok (GETARG_C i)); [lia|assumption|assumption]);
    apply list_elem_of_singleton in Hx; subst x; destruct (Habx eq_refl) as [-> Hk];
    specialize (Hk eq_refl); lia.
Qed.

(** ** Control stays inside the scanned code *)

Lemma setlist0_op i o : opcode_of (GET_OPCODE i) = Some o -> setlist0 i = true -> o = OP_SETLIST /\ GETARG_C i = 0.
Proof.
  intros Ho%opcode_of_inv. unfold setlist0. rewrite Ho. intros Hs. zbool. split; [|done].
  destruct o; done.
Qed.

Lemma acc_next pc i o :
  scanned pc -> code_at pt pc = Ok i -> opcode_of (GET_OPCODE i) = Some o -> o <> OP_RETURN ->
  setlist0 i = false -> 0 <= pc + 1 < sizecode pt /\ scanned (pc + 1).
Proof.
  intros Hs Hi Ho Hne H0. pose proof (not_last pc i o acc_return Hi Ho Hne). pose proof (scanned_nonneg pc Hs).
  pose proof (scanned_next pc i Hs Hi) as Hn. rewrite H0 in Hn. split; [lia|done].
Qed.

Lemma acc_jump pc i o b c :
  accepted pc i o b c -> mode_of o = iAsBx ->
  0 <= pc + 1 + GETARG_sBx i < sizecode pt /\ scanned (pc + 1 + GETARG_sBx i).
Proof.
  intros Ha Hm. destruct (op_asbx _ _ _ _ _ (ac_operands _ _ _ _ _ Ha) Hm) as (-> & Hr & Hd).
  split; [done|]. destruct (scanned_or_count (pc + 1 + GETARG_sBx i)) as [?|(j & Hs & Hj & Hsl)]; [lia|done|].
  pose proof (code_at_inv _ _ Hj). destruct Hd as (d & Hd & Hd0); [lia|].
  replace (pc + 1 + GETARG_sBx i - 1) with (pc + GETARG_sBx i) in Hj by lia. congruence.
Qed.

Lemma check_pseudo_inv pc j n :
  check_pseudo pt pc j n = Ok (Some tt) -> forall d, j <= d < j + Z.of_nat n ->
  exists i o, code_at pt (pc + d) = Ok i /\ opcode_of (GET_OPCODE i) = Some o /\ (o = OP_GETUPVAL \/ o = OP_MOVE).
Proof.
  revert j. induction n as [|n IH]; intros j Hc d Hd; [lia|]. cbn [check_pseudo] in Hc.
  destruct (code_at pt (pc + j)) as [i| |] eqn:Hi; cbn [bind] in Hc; [|done..].
  destruct (_ || _) eqn:E; [|done]. destruct (Z.eq_dec d j) as [->|]; [|apply (IH (j + 1)); [done|lia]].
  exists i. apply orb_true_iff in E as [E|E]; zbool; rewrite E, opcode_of_num; eauto.
Qed.

Lemma acc_closure pc i b c :
  subs_ok -> scanned pc -> accepted pc i OP_CLOSURE b c ->
  exists g, p_at pt (GETARG_Bx i) = Ok g /\ 0 <= pc + 1 + nups g < sizecode pt /\ scanned (pc + 1 + nups g).
Proof.
  intros Hsub Hs Ha. destruct (op_abx _ _ _ _ _ (ac_operands _ _ _ _ _ Ha) eq_refl) as [-> _].
  destruct (ac_exec _ _ _ _ _ Ha) as (last & r & He). exec_inv He.
  destruct (p_at pt (GETARG_Bx i)) as [g| |] eqn:Hg; cbn [bind] in He; [|done..].
  apply exec_some in He as [Hn He]. zbool.
  destruct (check_pseudo pt pc 1 (Z.to_nat (nups g))) as [[[]|]| |] eqn:Hps; cbn [bind] in He; [|done..].
  apply at_inv in Hg as [_ Hg]. pose proof (Forall_lookup_1 _ _ _ _ Hsub Hg) as Hnu. cbn in Hnu.
  pose proof (scanned_nonneg pc Hs).
  assert (forall n : nat, Z.of_nat n <= nups g ->
    scanned (pc + 1 + Z.of_nat n) /\ pc + 1 + Z.of_nat n < sizecode pt) as Hall.
  { induction n as [|n IH]; intros Hle.
    - replace (pc + 1 + Z.of_nat 0) with (pc + 1) by lia.
      pose proof (acc_next pc i OP_CLOSURE Hs (ac_code _ _ _ _ _ Ha) (ac_op _ _ _ _ _ Ha) ltac:(done)) as Hnx.
      destruct (setlist0 i) eqn:Es; [|destruct (Hnx eq_refl); split; [done|lia]].
      apply (setlist0_op i _ (ac_op _ _ _ _ _ Ha)) in Es as [? _]. done.
    - destruct (IH ltac:(lia)) as [IHs _].
      destruct (check_pseudo_inv pc 1 _ Hps (1 + Z.of_nat n) ltac:(lia)) as (j & o & Hj & Ho & Hor).
      rewrite Z.add_assoc in Hj.
      pose proof (acc_next _ j o IHs Hj Ho ltac:(by destruct Hor; subst)) as Hnx.
      replace (pc + 1 + Z.of_nat (S n)) with (pc + 1 + Z.of_nat n + 1) by lia.
      destruct (setlist0 j) eqn:Es; [|destruct (Hnx eq_refl); split; [done|lia]].
      apply (setlist0_op j _ Ho) in Es as [? _]. by destruct Hor; subst. }
  exists g. split; [done|]. destruct (Hall (Z.to_nat (nups g)) ltac:(lia)) as [H1 H2].
  rewrite Z2Nat.id in H1, H2 by lia. split; [lia|done].
Qed.

(** A test is followed by a jump. *)
Lemma acc_test_succs pc i o b c pc' :
  scanned pc -> accepted pc i o b c -> is_test o = true -> pc' ∈ [pc + 1; pc + 2] ->
  0 <= pc' < sizecode pt /\ scanned pc'.
Proof.
  intros Hs Ha Ht Hin. pose proof (ac_code _ _ _ _ _ Ha) as Hi. pose proof (ac_op _ _ _ _ _ Ha) as Ho.
  destruct (ac_test _ _ _ _ _ Ha Ht) as (Hr & j & Hj & HJ). pose proof (scanned_nonneg pc Hs).
  assert (setlist0 i = false) as H0.
  { destruct (setlist0 i) eqn:E; [|done]. apply (setlist0_op i o Ho) in E as [-> _]. done. }
  assert (o <> OP_RETURN) as Hret by (intros ->; done).
  destruct (acc_next pc i o Hs Hi Ho Hret H0) as [Hr1 Hs1].
  rewrite elem_of_cons, list_elem_of_singleton in Hin. destruct Hin as [-> | ->]; [done|].
  split; [lia|]. pose proof (scanned_next _ _ Hs1 Hj) as Hn.
  assert (setlist0 j = false) as Hj0 by (unfold setlist0; by rewrite HJ).
  rewrite Hj0 in Hn. by replace (pc + 1 + 1) with (pc + 2) in Hn by lia.
Qed.

Lemma acc_succs pc i o b c pc' :
  subs_ok -> scanned pc -> accepted pc i o b c -> pc' ∈ succs pc i o ->
  (0 <= pc' < sizecode pt /\ scanned pc') \/ hole pc i o.
Proof.
  intros Hsub Hs Ha Hin. pose proof (ac_code _ _ _ _ _ Ha) as Hi. pose proof (ac_op _ _ _ _ _ Ha) as Ho.
  pose proof (acc_next pc i o Hs Hi Ho) as Hnext. pose proof (acc_jump pc i o b c Ha) as Hjump.
  assert (o <> OP_SETLIST -> setlist0 i = false) as Hns.
  { intros Hne. destruct (setlist0 i) eqn:E; [|done]. by apply (setlist0_op i o Ho) in E as [? _]. }
  pose proof (scanned_nonneg pc Hs).
  assert (forall j, code_at pt (pc + 1) = Ok j -> setlist0 j = false ->
    scanned (pc + 1) -> scanned (pc + 2)) as Hskip.
  { intros j Hj Hj0 Hs1. pose proof (scanned_next _ _ Hs1 Hj) as Hn. rewrite Hj0 in Hn.
    by replace (pc + 1 + 1) with (pc + 2) in Hn by lia. }
  destruct o; cbn [succs mode_of is_test] in *; try (specialize (Hns ltac:(done)));
    try (specialize (Hnext ltac:(done))); try (specialize (Hjump eq_refl));
    try (left; apply list_elem_of_singleton in Hin; subst; by apply Hnext || by apply Hjump).
  - destruct (Hnext Hns) as [Hr1 Hs1].
    destruct (GETARG_C i =? 0) eqn:Ec; apply list_elem_of_singleton in Hin; subst pc'; [by left|].
    destruct (acc_args _ _ _ _ _ Ha eq_refl) as (_ & -> & _).
    destruct (ac_exec _ _ _ _ _ Ha) as (last & r & He). exec_inv He. rewrite Ec in H0. cbn [orb] in H0. zbool.
    destruct (code_at_ok (pc + 1) Hr1) as [j Hj]. destruct (setlist0 j) eqn:Ej.
    + right. left. eauto.
    + left. split; [lia|]. by eapply Hskip.
  - left. by apply (acc_test_succs pc i _ b c pc' Hs Ha).
  - left. by apply (acc_test_succs pc i _ b c pc' Hs Ha).
  - left. by apply (acc_test_succs pc i _ b c pc' Hs Ha).
  - left. by apply (acc_test_succs pc i _ b c pc' Hs Ha).
  - left. by apply (acc_test_succs pc i _ b c pc' Hs Ha).
  - by apply elem_of_nil in Hin.
  - left. rewrite elem_of_cons, list_elem_of_singleton in Hin. destruct Hin as [-> | ->]; [done|by apply Hnext, Hns].
  - left. by apply (acc_test_succs pc i _ b c pc' Hs Ha).
  - destruct (setlist0 i) eqn:Es.
    + apply (setlist0_op i _ Ho) in Es as Hc. destruct Hc as [_ Hc]. rewrite Hc in Hin.
      apply list_elem_of_singleton in Hin. subst pc'. pose proof (scanned_next pc i Hs Hi) as Hn. rewrite Es in Hn.
      pose proof (not_last pc i _ acc_return Hi Ho ltac:(done)).
      destruct (Z.eq_dec (pc + 2) (sizecode pt)); [right; by right|left]. split; [lia|done].
    + left. unfold setlist0 in Es. rewrite (opcode_of_inv _ _ Ho) in Es.
      change (op_num OP_SETLIST =? op_num OP_SETLIST) with true in Es. cbn [andb] in Es. rewrite Es in Hin.
      apply list_elem_of_singleton in Hin. subst pc'. by apply Hnext.
  - left. destruct (acc_closure pc i b c Hsub Hs Ha) as (g & Hg & Hr). rewrite Hg in Hin.
    apply list_elem_of_singleton in Hin. by subst pc'.
Qed.

Lemma acc_safe pc i : subs_ok -> scanned pc -> code_at pt pc = Ok i ->
  exists o, opcode_of (GET_OPCODE i) = Some o /\ safe pc i o.
Proof.
  intros Hsub Hs Hi. destruct (acc_instr pc i Hs Hi) as (o & b & c & Ha).
  exists o. split; [apply Ha|]. pose proof (args_range i) as (_ & HB & _ & HBx).
  split.
  - intros r Hr. pose proof (acc_regs _ _ _ _ _ Ha) as Hall. rewrite Forall_forall in Hall. by apply Hall.
  - intros x. by eapply acc_consts.
  - destruct (ac_exec _ _ _ _ _ Ha) as (last & r & He).
    intros [->| ->]; destruct (op_abx _ _ _ _ _ (ac_operands _ _ _ _ _ Ha) eq_refl) as [-> _];
      unfold exec_op in He; destruct (k_at pt (GETARG_Bx i)) as [[| | |s]| |]; cbn [bind] in He; try done; by exists s.
  - destruct (ac_exec _ _ _ _ _ Ha) as (last & r & He).
    intros [->| ->]; destruct (acc_args _ _ _ _ _ Ha eq_refl) as (-> & _); exec_inv He; zbool; lia.
  - intros ->. destruct (acc_closure pc i b c Hsub Hs Ha) as (g & Hg & _). by exists g.
  - intros pc'. by eapply acc_succs.
Qed.
End Accepted.

(** symbexec terminates on every function that has code, whatever words,
    constants and sizes a file gave it, and reads nothing outside the code, the
    constants and the nested functions. *)
Theorem symbexec_in_bounds lastpc reg :
  subs_ok -> 0 < sizecode pt -> 0 <= lastpc <= sizecode pt -> is_ok (symbexec pt lastpc reg).
Proof. apply symbexec_ok. Qed.

End Sound.

(** * Examples *)

Definition leaf (words : list Z) (ks : list (constant unit)) : Proto unit :=
  mkProto None 0 0 0 0 0 4 words ks [] [] [] [].
Definition ins (o : OpCode) (a b c : Z) : Z := CREATE_ABC (op_num o) a b c.

(** [local t = {} ; return t["x"] or 1], more or less. *)
Definition good_code : list Z :=
  [ins OP_NEWTABLE 0 0 0; ins OP_GETTABLE 1 0 256; ins OP_TEST 1 0 0;
   CREATE_ABx (op_num OP_JMP) 0 (MAXARG_sBx + 1); ins OP_LOADBOOL 1 1 0; ins OP_RETURN 1 2 0].
Definition good : Proto unit := leaf good_code [KString (Some (lit "x"))].

Lemma symbexec_in_bounds_witness : is_ok (symbexec good 6 NO_REG).
Proof.
  apply symbexec_in_bounds; [constructor|reflexivity|split; [discriminate|vm_compute; discriminate]].
Defined.


(** A function without code makes the verifier read [code[-1]]. *)
Example checkcode_empty_code : luaG_checkcode (leaf [] []) = Err "code read out of bounds".
Proof. reflexivity. Qed.

(** OP_LOADBOOL may skip an OP_SETLIST and execute its count, here a
    GETTABLE on registers that do not exist: the function is accepted. *)
Definition hole1_code : list Z :=
  [ins OP_LOADBOOL 0 1 1; ins OP_SETLIST 0 1 0; ins OP_GETTABLE 200 200 200; ins OP_RETURN 0 1 0].
Example loadbool_hole :
  luaG_checkcode (leaf hole1_code []) = Ok true /\
  2 ∈ succs (leaf hole1_code []) 0 (ins OP_LOADBOOL 0 1 1) OP_LOADBOOL /\
  hole1_code !! 2%nat = Some (ins OP_GETTABLE 200 200 200).
Proof. vm_compute. split_and!; [done|left|done]. Qed.

(** The count of an OP_SETLIST may be the last word, taken for the final
    OP_RETURN: control then leaves the code. *)
Definition hole2_code : list Z := [ins OP_SETLIST 0 1 0; ins OP_RETURN 0 1 0].
Example setlist_hole :
  luaG_checkcode (leaf hole2_code []) = Ok true /\
  succs (leaf hole2_code []) 0 (ins OP_SETLIST 0 1 0) OP_SETLIST = [sizecode (leaf hole2_code [])].
Proof. vm_compute. done. Qed.
