(* ===== verification/LuaZio.v ===== *)
(** Buffered input streams of Lua (lua/src/lzio.c).

    A stream pulls blocks from a reader supplied by the caller (lua_Reader): a
    function that gives the next block, empty (NULL or size 0) at the end.  The
    interface [ByteSource] states what the loader of precompiled code needs of
    its input; the streams are an instance. *)
From stdpp Require Import base list.
From Stdlib Require Import ZArith Lia.
From S2P Require Import Prelude.
Open Scope nat_scope.

Definition EOZ : Z := -1.

(** [zp] is the block from [z->p] on; [zn] is the size_t field [z->n]. *)
Record Zio (R : Type) := mkZio { zn : Z; zp : bytes; data : R }.
Arguments mkZio {R} _ _ _.
Arguments zn {R} _.
Arguments zp {R} _.
Arguments data {R} _.

Section Zio.
Context {R : Type}.
Variable reader : R -> bytes * R.
Implicit Types (z : Zio R).

Definition luaZ_init (r : R) : Zio R := mkZio 0 [] r.

(** The first byte of a new block is consumed. *)
Definition luaZ_fill z : Z * Zio R :=
  let '(buff, r) := reader (data z) in
  match buff with
  | [] => (EOZ, mkZio (zn z) (zp z) r)
  | c :: rest => (c, mkZio (Z.of_nat (length buff) - 1) rest r)
  end.

(** [*z->p] when the block is exhausted has no defined value. *)
Definition luaZ_lookahead z : res (Z * Zio R) :=
  if (zn z =? 0)%Z then
    let '(c, z) := luaZ_fill z in
    if (c =? EOZ)%Z then Ok (EOZ, z)
    else Ok (c, mkZio (zn z + 1) (c :: zp z) (data z))
  else
    match zp z with
    | c :: _ => Ok (c, z)
    | [] => Err "read past the buffer"
    end.

(** [((z)->n--)>0 ? char2int( *(z)->p++) : luaZ_fill(z)] *)
Definition zgetc z : res (Z * Zio R) :=
  let z' := mkZio (u64 (zn z - 1)) (zp z) (data z) in
  if (0 <? zn z)%Z then
    match zp z with
    | c :: rest => Ok (c, mkZio (zn z') rest (data z))
    | [] => Err "read past the buffer"
    end
  else Ok (luaZ_fill z').

(** The bytes read, the number of missing ones, and the stream. *)
Fixpoint read_loop (fuel : nat) z (acc : bytes) (n : nat) : res (bytes * nat * Zio R) :=
  match fuel with
  | O => Timeout
  | S fuel' =>
      if n =? 0 then Ok (acc, 0, z)
      else
        '(c, z) <- luaZ_lookahead z;
        if (c =? EOZ)%Z then Ok (acc, n, z)
        else
          let m := if (Z.of_nat n <=? zn z)%Z then n else Z.to_nat (zn z) in
          read_loop fuel' (mkZio (zn z - Z.of_nat m) (drop m (zp z)) (data z))
            (acc ++ take m (zp z)) (n - m)
  end.

(** Each turn reads a byte at least. *)
Definition luaZ_read z (n : nat) : res (bytes * nat * Zio R) := read_loop (S n) z [] n.

(** * What a stream delivers *)

(** The bytes a reader gives until its first empty block. *)
Inductive delivers : R -> bytes -> Prop :=
  | delivers_end r r' : reader r = ([], r') -> delivers r []
  | delivers_block r r' c l s : reader r = (c :: l, r') -> Forall is_byte (c :: l) -> delivers r' s ->
      delivers r ((c :: l) ++ s).

Record content z (s : bytes) : Prop := {
  co_n : zn z = Z.of_nat (length (zp z));
  co_small : (zn z < 2 ^ 64)%Z;
  co_bytes : Forall is_byte (zp z);
  co_rest : exists s', s = zp z ++ s' /\ delivers (data z) s'
}.

Lemma byte_not_eoz c : is_byte c -> (c =? EOZ)%Z = false.
Proof. unfold is_byte, EOZ. lia. Qed.

Hypothesis reader_small : forall r, (Z.of_nat (length (fst (reader r))) < 2 ^ 64)%Z.

(** A look at the next byte loads a block if there is one. *)
Lemma lookahead_ok z s :
  content z s ->
  match s with
  | [] => exists z', luaZ_lookahead z = Ok (EOZ, z')
  | c :: _ => exists z' l, luaZ_lookahead z = Ok (c, z') /\ content z' s /\ zp z' = c :: l
  end.
Proof.
  intros [Hn Hsm Hb (s' & -> & Hd)]. unfold luaZ_lookahead, luaZ_fill.
  destruct (zp z) as [|c l] eqn:Ep; cbn [length app] in *.
  - rewrite Hn. cbn [Z.of_nat Z.eqb]. destruct Hd as [r r' Hr|r r' c l s Hr Hl Hd]; rewrite Hr.
    + rewrite Z.eqb_refl. by eexists.
    + pose proof (reader_small r) as Hs. rewrite Hr in Hs. cbn [fst] in Hs.
      rewrite byte_not_eoz by by inversion Hl. cbn [app]. eexists _, l. split; [done|]. split; [|done].
      split; cbn [zn zp data length] in *; [lia|lia|done|]. by exists s.
  - rewrite Hn, (proj2 (Z.eqb_neq (Z.of_nat (S (length l))) 0)) by lia.
    exists z, l. split; [done|]. split; [|done]. split; rewrite ?Ep; cbn [length]; try done. by exists s'.
Qed.

Lemma read_loop_ok fuel z s acc n :
  content z s -> n < fuel ->
  if n <=? length s
  then exists z', read_loop fuel z acc n = Ok (acc ++ take n s, 0, z') /\ content z' (drop n s)
  else exists z', read_loop fuel z acc n = Ok (acc ++ s, n - length s, z').
Proof.
  revert z s acc n. induction fuel as [|fuel IH]; intros z s acc n Hc Hf; [lia|]. cbn [read_loop].
  destruct n as [|n]; cbn [Nat.eqb].
  { cbn. exists z. by rewrite app_nil_r. }
  pose proof (lookahead_ok z s Hc) as Hl. destruct s as [|c s].
  { destruct Hl as (z' & ->). cbn [bind]. rewrite Z.eqb_refl. exists z'. cbn. by rewrite app_nil_r. }
  destruct Hl as (z' & l & -> & [Hn Hsm Hb (s' & Hs & Hd)] & Hp). cbn [bind].
  rewrite Hp in *. rewrite byte_not_eoz by by inversion Hb.
  set (m := if (_ <=? _)%Z then _ else _).
  assert (m = Nat.min (S n) (length (c :: l)) /\ 0 < m) as [Hm Hm0].
  { unfold m. rewrite Hn. destruct (Z.leb_spec (Z.of_nat (S n)) (Z.of_nat (length (c :: l)))); cbn [length] in *; lia. }
  assert (content (mkZio (zn z' - Z.of_nat m) (drop m (c :: l)) (data z')) (drop m (c :: s))) as Hc'.
  { split; cbn [zn zp data].
    - rewrite length_drop, Hn. lia.
    - lia.
    - by apply Forall_drop.
    - exists s'. split; [|done]. rewrite Hs, drop_app_le by lia. done. }
  assert (take m (c :: s) = take m (c :: l)) as Ht by (rewrite Hs, take_app_le by lia; done).
  specialize (IH _ _ (acc ++ take m (c :: l)) (S n - m) Hc' ltac:(lia)).
  rewrite length_drop in IH. rewrite <- Ht in *.
  assert (m <= length (c :: s)) by (rewrite Hs, length_app; lia).
  destruct (Nat.leb_spec (S n - m) (length (c :: s) - m)), (Nat.leb_spec (S n) (length (c :: s))); try lia.
  - destruct IH as (z2 & -> & Hc2). exists z2. rewrite drop_drop in Hc2.
    replace (m + (S n - m)) with (S n) in Hc2 by lia. split; [|done].
    rewrite <- app_assoc. do 3 f_equal. rewrite <- (take_drop m (take (S n) (c :: s))).
    rewrite take_take, Nat.min_l by lia. f_equal. by rewrite skipn_firstn_comm.
  - destruct IH as (z2 & ->). exists z2. rewrite <- app_assoc, take_drop. do 3 f_equal. lia.
Qed.
End Zio.

(** * The interface of a source of bytes *)

Class ByteSource (S : Type) := {
  bs_read : S -> nat -> res (bytes * nat * S);
  bs_content : S -> bytes -> Prop;
  bs_read_ok s l n : bs_content s l -> n <= length l ->
    exists s', bs_read s n = Ok (take n l, 0, s') /\ bs_content s' (drop n l);
  bs_read_short s l n : bs_content s l -> length l < n ->
    exists b m s', bs_read s n = Ok (b, Datatypes.S m, s')
}.

(** A reader whose blocks are smaller than the address space. *)
Class Reader {R : Type} (reader : R -> bytes * R) : Prop :=
  reader_small r : (Z.of_nat (length (fst (reader r))) < 2 ^ 64)%Z.

#[export, refine] Instance zio_source {R} (reader : R -> bytes * R) `{Hr : !Reader reader} : ByteSource (Zio R) := {|
  bs_read := luaZ_read reader;
  bs_content := content reader
|}.
Proof.
  - intros z l n Hc Hn. pose proof (read_loop_ok reader Hr (S n) z l [] n Hc ltac:(lia)) as Hok.
    by rewrite (proj2 (Nat.leb_le _ _) Hn) in Hok.
  - intros z l n Hc Hn. pose proof (read_loop_ok reader Hr (S n) z l [] n Hc ltac:(lia)) as Hok.
    rewrite (proj2 (Nat.leb_gt _ _) Hn) in Hok. destruct Hok as (z' & Hz).
    exists l, (n - length l - 1), z'. unfold luaZ_read. rewrite Hz. repeat f_equal. lia.
Defined.

(** * A reader that gives the bytes of a string [k] at a time *)
Definition chunk_reader (k : nat) (l : bytes) : bytes * bytes := (take (S k) l, drop (S k) l).

#[export] Instance chunk_reader_small k : (Z.of_nat (S k) < 2 ^ 64)%Z -> Reader (chunk_reader k).
Proof. intros Hk l. cbn [fst chunk_reader]. rewrite length_take. lia. Qed.

Lemma chunk_delivers k l : Forall is_byte l -> delivers (chunk_reader k) l l.
Proof.
  remember (length l) as n eqn:En. assert (length l <= n) as Hn by lia. clear En.
  revert l Hn. induction n as [|n IH]; intros l Hn Hb.
  - destruct l; [|cbn in Hn; lia]. by eapply delivers_end.
  - destruct l as [|c l]; [by eapply delivers_end|].
    pose proof (delivers_block (chunk_reader k) (c :: l) (drop k l) c (take k l) (drop k l)) as Hd.
    cbn [app] in Hd. rewrite take_drop in Hd. apply Hd; [done| |apply IH].
    + inversion Hb. constructor; [done|]. by apply Forall_take.
    + rewrite length_drop. cbn in Hn. lia.
    + inversion Hb. by apply Forall_drop.
Qed.

(** luaZ_read, whatever blocks the reader cuts the input into, returns the
    first [n] bytes of what remains and leaves the rest, or returns all that
    remains and the number of missing bytes; it terminates because every turn
    of its loop consumes a byte. *)
Theorem luaZ_read_correct {R} (reader : R -> bytes * R) `{!Reader reader} z s n :
  content reader z s ->
  if n <=? length s
  then exists z', luaZ_read reader z n = Ok (take n s, 0, z') /\ content reader z' (drop n s)
  else exists z', luaZ_read reader z n = Ok (s, n - length s, z').
Proof. intros Hc. apply (read_loop_ok reader reader_small (S n) z s [] n Hc). lia. Qed.

Lemma init_content {R} (reader : R -> bytes * R) r s :
  delivers reader r s -> content reader (luaZ_init r) s.
Proof. intros Hd. split; [done|done|constructor|]. by exists s. Qed.

Lemma luaZ_read_correct_witness :
  exists z', luaZ_read (chunk_reader 1) (luaZ_init (lit "precompiled")) 5 = Ok (lit "preco", 0, z') /\
    content (chunk_reader 1) z' (lit "mpiled").
Proof.
  assert (Reader (chunk_reader 1)) as Hr by (apply chunk_reader_small; reflexivity).
  apply (luaZ_read_correct (chunk_reader 1) (luaZ_init (lit "precompiled")) (lit "precompiled") 5).
  apply init_content, chunk_delivers, lit_byte.
Defined.
