(* ===== verification/LuaDump.v ===== *)
(** Precompiled chunks of Lua: the writer (lua/src/ldump.c), on a little-endian
    machine with 4-byte int, 8-byte size_t and 8-byte numbers.  The output goes
    to a writer supplied by the caller (lua_Writer), which takes a block and
    returns a status; after the first non-zero status nothing more is written. *)
From stdpp Require Import base list.
From Stdlib Require Import ZArith Lia SpecFloat.
From S2P Require Import Prelude LuaNumber LuaProto.
Open Scope Z_scope.

(** The object representation of a lua_Number, 8 bytes; [num_valid] are the
    values the machine has. *)
Class NumberRep (N : Type) := {
  num_rep : N -> bytes;
  rep_num : bytes -> N;
  num_valid : N -> Prop;
  num_rep_length n : length (num_rep n) = 8%nat;
  rep_num_rep n : num_valid n -> rep_num (num_rep n) = n
}.

(** Doubles in the IEEE 754 interchange format, least significant byte first. *)
Module DoubleRep.

Definition fields (s : bool) (ex fr : Z) : spec_float :=
  if ex =? 2047 then (if fr =? 0 then S754_infinity s else S754_nan)
  else if ex =? 0 then
    match fr with Zpos m => S754_finite s m (-1074) | _ => S754_zero s end
  else match fr + 2 ^ 52 with Zpos m => S754_finite s m (ex - 1075) | _ => S754_nan end.
Definition of_bits (z : Z) : spec_float :=
  fields (2 ^ 63 <=? z) ((z / 2 ^ 52) mod 2048) (z mod 2 ^ 52).

(** The doubles: canonical mantissas and exponents in range. *)
Definition valid (x : spec_float) : Prop :=
  match x with
  | S754_finite _ m e =>
      (Zpos m < 2 ^ 52 /\ e = -1074) \/ (2 ^ 52 <= Zpos m < 2 ^ 53 /\ -1074 <= e <= 971)
  | _ => True
  end.

Lemma of_bits_fields (s : bool) ex fr :
  0 <= ex < 2048 -> 0 <= fr < 2 ^ 52 ->
  of_bits (Z.shiftl (Z.b2z s) 63 + (Z.shiftl ex 52 + fr)) = fields s ex fr /\
  0 <= Z.shiftl (Z.b2z s) 63 + (Z.shiftl ex 52 + fr) < 2 ^ 64.
Proof.
  intros He Hf. rewrite !Z.shiftl_mul_pow2 by lia. unfold of_bits.
  replace (Z.b2z s * 2 ^ 63 + (ex * 2 ^ 52 + fr)) with ((Z.b2z s * 2 ^ 11 + ex) * 2 ^ 52 + fr) by lia.
  rewrite Z.div_add_l, (Z.div_small fr), Z.add_0_r by lia.
  rewrite (Z.add_comm _ fr), Z.mod_add, (Z.mod_small fr) by lia.
  rewrite (Z.add_comm _ ex). change 2048 with (2 ^ 11). rewrite Z.mod_add, Z.mod_small by lia.
  assert ((2 ^ 63 <=? fr + (ex + Z.b2z s * 2 ^ 11) * 2 ^ 52) = s) as ->.
  { destruct s; cbn [Z.b2z]; [apply Z.leb_le|apply Z.leb_gt]; lia. }
  split; [done|destruct s; cbn [Z.b2z]; lia].
Qed.

Lemma of_bits_bits x : valid x -> of_bits (Binary64.bits x) = x /\ 0 <= Binary64.bits x < 2 ^ 64.
Proof.
  intros Hx. destruct x as [s|s| |s m e]; cbn [valid Binary64.bits] in *; [by destruct s..| |]; [done|].
  assert (exists ex fr, 0 <= ex < 2047 /\ 0 <= fr < 2 ^ 52 /\ fields s ex fr = S754_finite s m e /\
    (if Zpos m <? 2 ^ 52 then Zpos m else Z.shiftl (e + 1075) 52 + (Zpos m - 2 ^ 52)) = Z.shiftl ex 52 + fr)
    as (ex & fr & He & Hf & E & ->).
  { destruct (Z.ltb_spec (Zpos m) (2 ^ 52)); destruct Hx as [[? ->]|[? ?]]; try lia.
    - exists 0, (Zpos m). split_and!; try lia; done.
    - exists (e + 1075), (Zpos m - 2 ^ 52). split_and!; try lia. unfold fields.
      rewrite (proj2 (Z.eqb_neq _ _)), (proj2 (Z.eqb_neq _ _)) by lia.
      replace (Zpos m - 2 ^ 52 + 2 ^ 52) with (Zpos m) by lia. f_equal. lia. }
  destruct (of_bits_fields s ex fr ltac:(lia) Hf) as [-> ?]. done.
Qed.

#[export, refine] Instance double_rep : NumberRep spec_float := {|
  num_rep x := le_bytes 8 (Binary64.bits x);
  rep_num b := of_bits (le_value b);
  num_valid := valid
|}.
Proof.
  - intros n. exact (length_le_bytes 8 _).
  - intros x Hx. destruct (of_bits_bits x Hx) as [E Hr].
    rewrite le_value_bytes, Z.mod_small; [done|]. exact Hr.
Defined.
End DoubleRep.

Definition LUA_TNIL : Z := 0.
Definition LUA_TBOOLEAN : Z := 1.
Definition LUA_TNUMBER : Z := 3.
Definition LUA_TSTRING : Z := 4.

Definition ttype {N} (o : constant N) : Z :=
  match o with
  | KNil => LUA_TNIL
  | KBool _ => LUA_TBOOLEAN
  | KNumber _ => LUA_TNUMBER
  | KString _ => LUA_TSTRING
  end.

(** The header: signature, version, format, endianness, sizes, and whether
    numbers are integers; lundump.c, luaU_header. *)
Definition LUAC_VERSION : Z := 0x51.
Definition LUAC_FORMAT : Z := 0.
Definition LUA_SIGNATURE : bytes := 27 :: lit "Lua".
Definition luaU_header : bytes := LUA_SIGNATURE ++ [LUAC_VERSION; LUAC_FORMAT; 1; 4; 8; 4; 8; 0].
Definition LUAC_HEADERSIZE : nat := 12.

Section Dump.
Context {N : Type} `{NumberRep N} {W : Type}.
Variable writer : W -> bytes -> Z * W.
Implicit Types (f : Proto N).

Record DumpState := mkDump { strip : bool; status : Z; data : W }.
Implicit Types (D : DumpState).

Definition DumpBlock (b : bytes) D : DumpState :=
  if status D =? 0 then
    let '(st, d) := writer (data D) b in mkDump (strip D) st d
  else D.

Definition DumpChar (y : Z) D : DumpState := DumpBlock [u8 y] D.
Definition DumpInt (x : Z) D : DumpState := DumpBlock (le_bytes 4 (u32 x)) D.
Definition DumpNumber (x : N) D : DumpState := DumpBlock (num_rep x) D.

(** [DumpVector(b, n, size, D)] for a vector of 4-byte integers. *)
Definition DumpVector (v : list Z) D : DumpState :=
  let D := DumpInt (Z.of_nat (length v)) D in
  DumpBlock (concat (map (fun x => le_bytes 4 (u32 x)) v)) D.

Definition DumpString (s : option bytes) D : DumpState :=
  match s with
  | None => DumpBlock (le_bytes 8 0) D
  | Some s =>
      let size := u64 (Z.of_nat (length s) + 1) in
      let D := DumpBlock (le_bytes 8 size) D in
      DumpBlock (s ++ [0]) D
  end.

Definition DumpCode f D : DumpState := DumpVector (code f) D.

Definition DumpConstant (o : constant N) D : DumpState :=
  let D := DumpChar (ttype o) D in
  match o with
  | KNil => D
  | KBool b => DumpChar b D
  | KNumber n => DumpNumber n D
  | KString s => DumpString s D
  end.

(** [dumpf] is DumpFunction, for the nested functions. *)
Definition DumpConstants (dumpf : Proto N -> DumpState -> DumpState) f D : DumpState :=
  let D := DumpInt (sizek f) D in
  let D := fold_left (fun D o => DumpConstant o D) (k f) D in
  let D := DumpInt (sizep f) D in
  fold_left (fun D g => dumpf g D) (p f) D.

Definition DumpLocVar (v : LocVar) D : DumpState :=
  let D := DumpString (varname v) D in
  let D := DumpInt (startpc v) D in
  DumpInt (endpc v) D.

(** [n = (D->strip) ? 0 : f->size] followed by [n] elements. *)
Definition DumpDebug f D : DumpState :=
  let D := DumpVector (if strip D then [] else lineinfo f) D in
  let vs := if strip D then [] else locvars f in
  let D := DumpInt (Z.of_nat (length vs)) D in
  let D := fold_left (fun D v => DumpLocVar v D) vs D in
  let us := if strip D then [] else upvalues f in
  let D := DumpInt (Z.of_nat (length us)) D in
  fold_left (fun D u => DumpString u D) us D.

(** Strings are interned: the test [f->source==p] compares their bytes. *)
Fixpoint DumpFunction (src : option bytes) f D : DumpState :=
  let D := DumpString (if bool_decide (source f = src) || strip D then None else source f) D in
  let D := DumpInt (linedefined f) D in
  let D := DumpInt (lastlinedefined f) D in
  let D := DumpChar (nups f) D in
  let D := DumpChar (numparams f) D in
  let D := DumpChar (is_vararg f) D in
  let D := DumpChar (maxstacksize f) D in
  let D := DumpCode f D in
  let D := DumpConstants (DumpFunction (source f)) f D in
  DumpDebug f D.

Definition DumpHeader D : DumpState := DumpBlock luaU_header D.

(** The status, and what the writer has made of its data. *)
Definition luaU_dump f (w : W) (strip : bool) : Z * W :=
  let D := mkDump strip 0 w in
  let D := DumpHeader D in
  let D := DumpFunction None f D in
  (status D, data D).

(** * The blocks written *)

Definition string_blocks (s : option bytes) : list bytes :=
  match s with
  | None => [le_bytes 8 0]
  | Some s => [le_bytes 8 (u64 (Z.of_nat (length s) + 1)); s ++ [0]]
  end.
Definition int_block (x : Z) : bytes := le_bytes 4 (u32 x).
Definition vector_blocks (v : list Z) : list bytes :=
  [int_block (Z.of_nat (length v)); concat (map int_block v)].
Definition constant_blocks (o : constant N) : list bytes :=
  [u8 (ttype o)] :: match o with
                    | KNil => []
                    | KBool b => [[u8 b]]
                    | KNumber n => [num_rep n]
                    | KString s => string_blocks s
                    end.
Definition locvar_blocks (v : LocVar) : list bytes :=
  string_blocks (varname v) ++ [int_block (startpc v); int_block (endpc v)].
Definition debug_blocks (st : bool) f : list bytes :=
  vector_blocks (if st then [] else lineinfo f) ++
  int_block (Z.of_nat (length (if st then [] else locvars f))) ::
  concat (map locvar_blocks (if st then [] else locvars f)) ++
  int_block (Z.of_nat (length (if st then [] else upvalues f))) ::
  concat (map string_blocks (if st then [] else upvalues f)).
Definition scalar_blocks (st : bool) (src : option bytes) f : list bytes :=
  string_blocks (if bool_decide (source f = src) || st then None else source f) ++
  [int_block (linedefined f); int_block (lastlinedefined f); [u8 (nups f)]; [u8 (numparams f)];
   [u8 (is_vararg f)]; [u8 (maxstacksize f)]].

Fixpoint function_blocks (st : bool) (src : option bytes) f : list bytes :=
  scalar_blocks st src f ++ vector_blocks (code f) ++
  int_block (sizek f) :: concat (map constant_blocks (k f)) ++
  int_block (sizep f) :: concat (map (function_blocks st (source f)) (p f)) ++
  debug_blocks st f.

(** The status and data once a list of blocks has been given to the writer,
    stopping at the first error. *)
Fixpoint write_all (w : W) (bs : list bytes) : Z * W :=
  match bs with
  | [] => (0, w)
  | b :: bs => let '(st, w) := writer w b in if st =? 0 then write_all w bs else (st, w)
  end.

Definition dump_all (bs : list bytes) D : DumpState := fold_left (fun D b => DumpBlock b D) bs D.

Lemma strip_block b D : strip (DumpBlock b D) = strip D.
Proof. unfold DumpBlock. destruct (status D =? 0); [|done]. by destruct (writer (data D) b). Qed.
Lemma strip_all bs D : strip (dump_all bs D) = strip D.
Proof.
  revert D. induction bs as [|b bs IH]; intros D; [done|]. cbn. unfold dump_all in IH.
  by rewrite IH, strip_block.
Qed.
Lemma dump_all_app bs bs' D : dump_all (bs ++ bs') D = dump_all bs' (dump_all bs D).
Proof. apply fold_left_app. Qed.

Lemma dump_all_cons b bs D : dump_all (b :: bs) D = dump_all bs (DumpBlock b D).
Proof. done. Qed.

Lemma DumpString_blocks s D : DumpString s D = dump_all (string_blocks s) D.
Proof. by destruct s. Qed.
Lemma DumpVector_blocks v D : DumpVector v D = dump_all (vector_blocks v) D.
Proof. done. Qed.
Lemma DumpConstant_blocks o D : DumpConstant o D = dump_all (constant_blocks o) D.
Proof. unfold constant_blocks, DumpConstant. destruct o; try done. by rewrite DumpString_blocks. Qed.
Lemma DumpLocVar_blocks v D : DumpLocVar v D = dump_all (locvar_blocks v) D.
Proof. unfold DumpLocVar, locvar_blocks. by rewrite dump_all_app, DumpString_blocks. Qed.

(** A loop over a vector writes the blocks of its elements in order. *)
Lemma dump_list {A} (d : A -> DumpState -> DumpState) (bl : A -> list bytes) l D :
  (forall x D', x ∈ l -> strip D' = strip D -> d x D' = dump_all (bl x) D') ->
  fold_left (fun D x => d x D) l D = dump_all (concat (map bl l)) D.
Proof.
  revert D. induction l as [|x l IH]; intros D Hd; [done|]. cbn [fold_left map concat].
  rewrite dump_all_app, (Hd x D) by (done || left). apply IH.
  intros y D' Hy Hs. apply Hd; [by right|]. by rewrite Hs, strip_all.
Qed.

Lemma DumpDebug_blocks f D : DumpDebug f D = dump_all (debug_blocks (strip D) f) D.
Proof.
  unfold DumpDebug, debug_blocks, DumpInt. rewrite DumpVector_blocks, strip_all.
  rewrite (dump_list DumpLocVar locvar_blocks) by (intros; apply DumpLocVar_blocks).
  rewrite !strip_all, !strip_block, !strip_all.
  rewrite (dump_list DumpString string_blocks) by (intros; apply DumpString_blocks).
  by rewrite !dump_all_app, dump_all_cons, dump_all_app, dump_all_cons.
Qed.

Lemma DumpConstants_blocks (dumpf : Proto N -> DumpState -> DumpState) (bl : Proto N -> list bytes) f D :
  (forall g D', g ∈ p f -> strip D' = strip D -> dumpf g D' = dump_all (bl g) D') ->
  DumpConstants dumpf f D = dump_all (int_block (sizek f) :: concat (map constant_blocks (k f)) ++
    int_block (sizep f) :: concat (map bl (p f))) D.
Proof.
  intros Hd. unfold DumpConstants, DumpInt.
  rewrite (dump_list DumpConstant constant_blocks) by (intros; apply DumpConstant_blocks).
  rewrite (dump_list dumpf bl).
  - by rewrite dump_all_cons, dump_all_app, dump_all_cons.
  - intros g D' Hg Hs. apply Hd; [done|]. by rewrite Hs, strip_block, strip_all, strip_block.
Qed.

Lemma function_blocks_eq st src f :
  function_blocks st src f = scalar_blocks st src f ++ vector_blocks (code f) ++
    (int_block (sizek f) :: concat (map constant_blocks (k f)) ++
     int_block (sizep f) :: concat (map (function_blocks st (source f)) (p f))) ++ debug_blocks st f.
Proof. destruct f. cbn [function_blocks]. by rewrite <- !app_comm_cons, <- !app_assoc, <- app_comm_cons. Qed.

Lemma DumpFunction_blocks f src D :
  DumpFunction src f D = dump_all (function_blocks (strip D) src f) D.
Proof.
  revert src D. induction f as [f IH] using Proto_ind'. intros src D. rewrite Forall_forall in IH.
  rewrite function_blocks_eq, !dump_all_app.
  set (D1 := dump_all (scalar_blocks (strip D) src f) D).
  assert (DumpFunction src f D = DumpDebug f (DumpConstants (DumpFunction (source f)) f (DumpCode f D1))) as ->.
  { unfold D1, scalar_blocks. rewrite dump_all_app, <- DumpString_blocks. by destruct f. }
  set (D2 := dump_all (vector_blocks (code f)) D1).
  assert (strip D2 = strip D) as E2 by (unfold D2, D1; by rewrite !strip_all).
  change (DumpCode f D1) with D2. rewrite DumpDebug_blocks.
  rewrite (DumpConstants_blocks _ (function_blocks (strip D) (source f))).
  - by rewrite strip_all, E2.
  - intros g D' Hg Hs. rewrite IH by done. by rewrite Hs, E2.
Qed.

Lemma dump_all_error bs D : status D <> 0 -> dump_all bs D = D.
Proof.
  intros Hs. induction bs as [|b bs IH]; [done|]. rewrite dump_all_cons. unfold DumpBlock.
  by rewrite (proj2 (Z.eqb_neq _ _) Hs).
Qed.

Lemma dump_all_write bs D :
  status D = 0 -> (status (dump_all bs D), data (dump_all bs D)) = write_all (data D) bs.
Proof.
  revert D. induction bs as [|b bs IH]; intros D Hs; [cbn; by rewrite Hs|].
  rewrite dump_all_cons. cbn [write_all]. unfold DumpBlock. rewrite Hs. cbn [Z.eqb].
  destruct (writer (data D) b) as [st w]. case_zbool (st =? 0).
  - by rewrite IH.
  - by rewrite dump_all_error.
Qed.

Definition chunk_blocks (st : bool) f : list bytes := luaU_header :: function_blocks st None f.

Lemma dump_blocks f w st : luaU_dump f w st = write_all w (chunk_blocks st f).
Proof.
  unfold luaU_dump, chunk_blocks. rewrite <- (dump_all_write _ (mkDump st 0 w)) by done.
  rewrite dump_all_cons. unfold DumpHeader. by rewrite DumpFunction_blocks, strip_block.
Qed.

(** luaU_dump gives the writer the blocks of the chunk in order, and its
    status is the first non-zero one the writer returns: after an error the
    writer is not called again. *)
Theorem luaU_dump_writes f w st : luaU_dump f w st = write_all w (chunk_blocks st f).
Proof. apply dump_blocks. Qed.
End Dump.

(** The writer of string.dump: it appends and never fails. *)
Definition append_writer (w b : bytes) : Z * bytes := (0, w ++ b).

Lemma write_append w bs : write_all append_writer w bs = (0, w ++ concat bs).
Proof.
  revert w. induction bs as [|b bs IH]; intros w; cbn; [by rewrite app_nil_r|].
  by rewrite IH, app_assoc.
Qed.
