(* ===== verification/LuaUndump.v ===== *)
(** Precompiled chunks of Lua: the loader (lua/src/lundump.c), over any source
    of bytes, and the round trip with the writer. *)
From stdpp Require Import base list.
From Stdlib Require Import ZArith Lia Ascii SpecFloat.
From Stdlib Require String.
From S2P Require Import Prelude LuaNumber LuaOpcodes LuaProto LuaDebug LuaZio LuaDump.
Open Scope Z_scope.

Section Undump.
Context {N : Type} `{NumberRep N} {S : Type} `{ByteSource S}.
Implicit Types (s : S).

(** Loading functions: they read the stream, and may fail. *)
Definition Load (A : Type) : Type := S -> res (A * S).
Definition ret {A} (a : A) : Load A := fun s => Ok (a, s).
Definition andThen {A B} (m : Load A) (f : A -> Load B) : Load B :=
  fun s => '(a, s) <- m s; f a s.

Variable name : string.       (** [S->name] *)

Definition error {A} (why : string) : Load A :=
  fun _ => Err (String.append name (String.append ": " (String.append why " in precompiled chunk"))).

Definition LoadBlock (size : nat) : Load bytes := fun s =>
  '(b, r, s) <- bs_read s size;
  if (r =? 0)%nat then Ok (b, s) else error "unexpected end" s.

(** A [char] is signed. *)
Definition LoadChar : Load Z := andThen (LoadBlock 1) (fun b => ret (swrap 8 (le_value b))).
Definition LoadByte : Load Z := andThen LoadChar (fun c => ret (u8 c)).
Definition LoadInt : Load Z :=
  andThen (LoadBlock 4) (fun b =>
    let x := s32 (le_value b) in if x <? 0 then error "bad integer" else ret x).
Definition LoadNumber : Load N := andThen (LoadBlock 8) (fun b => ret (rep_num b)).

Definition LoadString : Load (option bytes) :=
  andThen (LoadBlock 8) (fun b =>
    let size := le_value b in
    if size =? 0 then ret None
    else andThen (LoadBlock (Z.to_nat size)) (fun b => ret (Some (take (Z.to_nat (size - 1)) b)))).

(** A vector of [n] 4-byte elements. *)
Fixpoint elements (conv : Z -> Z) (n : nat) (b : bytes) : list Z :=
  match n with
  | O => []
  | Datatypes.S n' => conv (le_value (take 4 b)) :: elements conv n' (drop 4 b)
  end.
Definition LoadVector (conv : Z -> Z) (n : Z) : Load (list Z) :=
  andThen (LoadBlock (Z.to_nat n * 4)) (fun b => ret (elements conv (Z.to_nat n) b)).
Definition LoadCode : Load (list Z) := andThen LoadInt (fun n => LoadVector u32 n).

(** [for (i=0; i<n; i++) v[i] = load] *)
Fixpoint load_n {A} (n : nat) (m : Load A) : Load (list A) :=
  match n with
  | O => ret []
  | Datatypes.S n' => andThen m (fun a => andThen (load_n n' m) (fun l => ret (a :: l)))
  end.

Definition LoadConstant : Load (constant N) :=
  andThen LoadChar (fun t =>
    if t =? LUA_TNIL then ret KNil
    else if t =? LUA_TBOOLEAN then andThen LoadChar (fun b => ret (KBool b))
    else if t =? LUA_TNUMBER then andThen LoadNumber (fun n => ret (KNumber n))
    else if t =? LUA_TSTRING then andThen LoadString (fun str => ret (KString str))
    else error "bad constant").

(** [loadf] is LoadFunction, for the nested functions. *)
Definition LoadConstants (loadf : Load (Proto N)) : Load (list (constant N) * list (Proto N)) :=
  andThen LoadInt (fun n => andThen (load_n (Z.to_nat n) LoadConstant) (fun ks =>
  andThen LoadInt (fun n => andThen (load_n (Z.to_nat n) loadf) (fun ps => ret (ks, ps))))).

Definition LoadLocVar : Load LocVar :=
  andThen LoadString (fun v => andThen LoadInt (fun a => andThen LoadInt (fun b => ret (mkLocVar v a b)))).

Definition LoadDebug : Load (list Z * list LocVar * list (option bytes)) :=
  andThen LoadInt (fun n => andThen (LoadVector s32 n) (fun li =>
  andThen LoadInt (fun n => andThen (load_n (Z.to_nat n) LoadLocVar) (fun lv =>
  andThen LoadInt (fun n => andThen (load_n (Z.to_nat n) LoadString) (fun uv => ret (li, lv, uv))))))).

Definition checked (f : Proto N) : Load (Proto N) := fun s =>
  b <- luaG_checkcode f; if b then Ok (f, s) else error "bad code" s.

(** [psrc] is the source of the enclosing function; [fuel] bounds the nesting,
    and every function takes a byte at least. *)
Fixpoint LoadFunction (fuel : nat) (psrc : option bytes) : Load (Proto N) :=
  match fuel with
  | O => fun _ => Timeout
  | Datatypes.S fuel' =>
      andThen LoadString (fun src =>
      let src := match src with None => psrc | Some _ => src end in
      andThen LoadInt (fun ld => andThen LoadInt (fun lld =>
      andThen LoadByte (fun nu => andThen LoadByte (fun np =>
      andThen LoadByte (fun va => andThen LoadByte (fun ms =>
      andThen LoadCode (fun cd =>
      andThen (LoadConstants (LoadFunction fuel' src)) (fun '(ks, ps) =>
      andThen LoadDebug (fun '(li, lv, uv) =>
      checked (mkProto src ld lld nu np va ms cd ks ps li lv uv)))))))))))
  end.

Definition LoadHeader : Load unit :=
  andThen (LoadBlock LUAC_HEADERSIZE) (fun h =>
    if bool_decide (h = luaU_header) then ret tt else error "bad header").
End Undump.

(** The name used in messages. *)
Definition chunk_name (name : string) : string :=
  match name with
  | String.String c rest =>
      if (nat_of_ascii c =? 64)%nat || (nat_of_ascii c =? 61)%nat then rest
      else if (nat_of_ascii c =? 27)%nat then "binary string"
      else name
  | String.EmptyString => name
  end.

Definition luaU_undump {N} `{NumberRep N} {S} `{ByteSource S} (fuel : nat) (name : string) : Load (S := S) (Proto N) :=
  let name := chunk_name name in
  andThen (LoadHeader name) (fun _ => LoadFunction name fuel (Some (lit "=?"))).

(** * Reading back what was written *)
Section RoundTrip.
Context {N : Type} `{NumberRep N} {S : Type} `{ByteSource S} (name : string).

(** [m] reads exactly the bytes [b] and returns [a]. *)
Definition loads {A} (m : Load (S := S) A) (b : bytes) (a : A) : Prop :=
  forall s rest, bs_content s (b ++ rest) -> exists s', m s = Ok (a, s') /\ bs_content s' rest.

Lemma loads_ret {A} (a : A) : loads (ret a) [] a.
Proof. intros s rest Hs. by exists s. Qed.

Lemma loads_then {A B} (m : Load A) (f : A -> Load B) b1 b2 a r :
  loads m b1 a -> loads (f a) b2 r -> loads (andThen m f) (b1 ++ b2) r.
Proof.
  intros Hm Hf s rest Hs. rewrite <- app_assoc in Hs. destruct (Hm s _ Hs) as (s1 & E1 & Hs1).
  destruct (Hf s1 rest Hs1) as (s2 & E2 & Hs2). exists s2. unfold andThen. rewrite E1. by cbn.
Qed.

Lemma loads_last {A B} (m : Load A) (f : A -> B) b a :
  loads m b a -> loads (andThen m (fun x => ret (f x))) b (f a).
Proof. intros Hm. rewrite <- (app_nil_r b). eapply loads_then; [done|apply loads_ret]. Qed.

Lemma loads_block b : loads (LoadBlock name (length b)) b b.
Proof.
  intros s rest Hs. destruct (bs_read_ok s _ (length b) Hs) as (s' & E & Hs').
  { rewrite length_app. lia. }
  rewrite take_app_length, drop_app_length in *. exists s'. split; [|done].
  unfold LoadBlock. rewrite E. done.
Qed.

Lemma loads_block' n b : length b = n -> loads (LoadBlock name n) b b.
Proof. intros <-. apply loads_block. Qed.

Lemma loads_char y : in_s 8 y -> loads (LoadChar name) [u8 y] y.
Proof.
  intros Hy. unfold LoadChar. replace y with (swrap 8 (le_value [u8 y])) at 2.
  - apply (loads_last _ (fun b => swrap 8 (le_value b))). by apply loads_block'.
  - cbn [le_value]. rewrite Z.mul_0_r, Z.add_0_r, swrap_wrap by lia. by apply swrap_small.
Qed.

Lemma loads_byte y : in_u 8 y -> loads (LoadByte name) [u8 y] y.
Proof.
  intros Hy. unfold LoadByte. replace y with (u8 (swrap 8 y)) at 2.
  - apply (loads_last _ u8). unfold LoadChar. replace (swrap 8 y) with (swrap 8 (le_value [u8 y])).
    + apply (loads_last _ (fun b => swrap 8 (le_value b))). by apply loads_block'.
    + cbn [le_value]. by rewrite Z.mul_0_r, Z.add_0_r, swrap_wrap by lia.
  - rewrite wrap_swrap by lia. by apply wrap_small.
Qed.

Definition is_int (x : Z) : Prop := 0 <= x < 2 ^ 31.

Lemma le_value_4 x : le_value (le_bytes 4 (u32 x)) = u32 x.
Proof. rewrite le_value_bytes. apply Z.mod_small. apply (wrap_range 32). lia. Qed.

Lemma loads_int x : is_int x -> loads (LoadInt name) (int_block x) x.
Proof.
  unfold is_int. intros Hx. unfold LoadInt. rewrite <- (app_nil_r (int_block x)).
  eapply loads_then; [by apply loads_block'|]. unfold int_block. rewrite le_value_4, swrap_wrap, swrap_small by (change (32 - 1) with 31; lia).
  cbv zeta. case_zbool (x <? 0); [lia|]. apply loads_ret.
Qed.

Lemma loads_number n : num_valid n -> loads (LoadNumber name) (num_rep n) n.
Proof.
  intros Hn. unfold LoadNumber. rewrite <- (rep_num_rep n Hn) at 2.
  apply (loads_last _ rep_num). apply loads_block', num_rep_length.
Qed.

Definition string_ok (s : option bytes) : Prop :=
  match s with None => True | Some s => Z.of_nat (length s) + 1 < 2 ^ 64 end.

Lemma loads_string s : string_ok s -> loads (LoadString name) (concat (string_blocks s)) s.
Proof.
  destruct s as [s|]; cbn [string_ok string_blocks concat]; intros Hs; unfold LoadString.
  - eapply loads_then; [by apply loads_block', length_le_bytes|].
    assert (le_value (le_bytes 8 (u64 (Z.of_nat (length s) + 1))) = Z.of_nat (length s) + 1) as ->.
    { rewrite le_value_bytes, wrap_small by lia. apply Z.mod_small. lia. }
    cbv zeta. case_zbool (Z.of_nat (length s) + 1 =? 0); [lia|]. rewrite app_nil_r.
    replace (Some s) with (Some (take (Z.to_nat (Z.of_nat (length s) + 1 - 1)) (s ++ [0]))).
    + apply (loads_last _ (fun b => Some (take _ b))). apply loads_block'. rewrite length_app. cbn. lia.
    + replace (Z.to_nat (Z.of_nat (length s) + 1 - 1)) with (length s) by lia. by rewrite take_app_length.
  - rewrite app_nil_r, <- (app_nil_r (le_bytes 8 0)). eapply loads_then; [by apply loads_block', length_le_bytes|].
    apply loads_ret.
Qed.

Lemma elements_blocks conv v rest :
  Forall (fun x => conv (u32 x) = x) v -> elements conv (length v) (concat (map int_block v) ++ rest) = v.
Proof.
  induction 1 as [|x v Hx Hv IH]; [done|]. cbn [length elements map concat]. rewrite <- app_assoc.
  rewrite take_app_le, drop_app_le by (unfold int_block; rewrite length_le_bytes; lia).
  rewrite take_ge, drop_ge by (unfold int_block; rewrite length_le_bytes; lia).
  unfold int_block at 1. rewrite le_value_4, Hx. f_equal. apply IH.
Qed.

Lemma length_int_blocks v : length (concat (map int_block v)) = (length v * 4)%nat.
Proof. induction v as [|x v IH]; [done|]. cbn [map concat]. rewrite length_app, IH. done. Qed.

Lemma loads_elems conv v :
  Forall (fun x => conv (u32 x) = x) v ->
  loads (LoadVector name conv (Z.of_nat (length v))) (concat (map int_block v)) v.
Proof.
  intros Hv. unfold LoadVector. rewrite Nat2Z.id.
  pose proof (elements_blocks conv v [] Hv) as He. rewrite app_nil_r in He. rewrite <- He at 3.
  apply (loads_last _ (elements conv (length v))). apply loads_block'. apply length_int_blocks.
Qed.

Lemma loads_n {A B} (m : Load B) (bl : A -> list bytes) (g : A -> B) (l : list A) :
  (forall x, x ∈ l -> loads m (concat (bl x)) (g x)) ->
  loads (load_n (length l) m) (concat (concat (map bl l))) (map g l).
Proof.
  induction l as [|x l IH]; intros Hm; [apply loads_ret|]. cbn [length load_n map concat]. rewrite concat_app.
  eapply loads_then; [apply Hm; left|]. apply (loads_last _ (cons (g x))). apply IH.
  intros y Hy. apply Hm. by right.
Qed.

Definition constant_ok (o : constant N) : Prop :=
  match o with KNil => True | KBool b => in_s 8 b | KNumber n => num_valid n | KString s => string_ok s end.

Lemma loads_constant o : constant_ok o -> loads (LoadConstant name) (concat (constant_blocks o)) o.
Proof.
  intros Ho. unfold LoadConstant, constant_blocks. cbn [concat].
  eapply (loads_then _ _ [u8 (ttype o)]); [apply loads_char; by destruct o|].
  destruct o; cbn [ttype]; cbn.
  - apply loads_ret.
  - apply (loads_last _ KBool). by apply loads_char.
  - rewrite app_nil_r. apply (loads_last _ KNumber). by apply loads_number.
  - apply (loads_last _ KString). by apply loads_string.
Qed.

Definition locvar_ok (v : LocVar) : Prop := string_ok (varname v) /\ is_int (startpc v) /\ is_int (endpc v).

Lemma loads_locvar v : locvar_ok v -> loads (LoadLocVar name) (concat (locvar_blocks v)) v.
Proof.
  intros (Hv & Hs & He). unfold LoadLocVar, locvar_blocks. rewrite concat_app. cbn [concat]. rewrite app_nil_r.
  eapply loads_then; [by apply loads_string|]. eapply loads_then; [by apply loads_int|].
  destruct v as [vn a b]. apply (loads_last _ (mkLocVar vn a)). by apply loads_int.
Qed.

(** ** Functions *)

Inductive every (P : Proto N -> Prop) : Proto N -> Prop :=
  | every_intro f : P f -> Forall (every P) (p f) -> every P f.

Lemma every_inv P f : every P f -> P f /\ Forall (every P) (p f).
Proof. by destruct 1. Qed.

(** What the C types, and the loader's test for negative integers, ask. *)
Record writable (f : Proto N) : Prop := {
  wr_source : string_ok (source f);
  wr_lines : is_int (linedefined f) /\ is_int (lastlinedefined f);
  wr_bytes : in_u 8 (nups f) /\ in_u 8 (numparams f) /\ in_u 8 (is_vararg f) /\ in_u 8 (maxstacksize f);
  wr_code : Forall (in_u 32) (code f) /\ is_int (sizecode f);
  wr_k : Forall constant_ok (k f) /\ is_int (sizek f);
  wr_p : is_int (sizep f);
  wr_lineinfo : Forall (in_s 32) (lineinfo f) /\ is_int (sizelineinfo f);
  wr_locvars : Forall locvar_ok (locvars f) /\ is_int (sizelocvars f);
  wr_upvalues : Forall string_ok (upvalues f) /\ is_int (sizeupvalues f)
}.

(** The function that comes back: debug information may have been stripped,
    and a function without a source of its own takes the one of its parent.
    [pd] and [pl] are the parent's sources at dump and load time. *)
Fixpoint loaded (st : bool) (pd pl : option bytes) (f : Proto N) : Proto N :=
  let s0 := if bool_decide (source f = pd) || st then None else source f in
  let src := match s0 with None => pl | Some _ => s0 end in
  mkProto src (linedefined f) (lastlinedefined f) (nups f) (numparams f) (is_vararg f) (maxstacksize f)
    (code f) (k f) (map (loaded st (source f) src) (p f))
    (if st then [] else lineinfo f) (if st then [] else locvars f) (if st then [] else upvalues f).

Lemma loads_constants (loadf : Load (Proto N)) (bl : Proto N -> list bytes) (g : Proto N -> Proto N) f :
  Forall constant_ok (k f) -> is_int (sizek f) -> is_int (sizep f) ->
  (forall x, x ∈ p f -> loads loadf (concat (bl x)) (g x)) ->
  loads (LoadConstants name loadf)
    (concat (int_block (sizek f) :: concat (map constant_blocks (k f)) ++ int_block (sizep f) :: concat (map bl (p f))))
    (k f, map g (p f)).
Proof.
  intros Hk Hsk Hsp Hp. unfold LoadConstants. cbn [concat]. rewrite concat_app. cbn [concat].
  eapply loads_then; [by apply loads_int|]. unfold sizek; rewrite Nat2Z.id.
  pose proof (loads_n (LoadConstant name) constant_blocks id (k f)) as Hn. rewrite map_id in Hn.
  eapply loads_then; [apply Hn; intros o Ho; apply loads_constant; by eapply Forall_forall in Ho|].
  eapply loads_then; [by apply loads_int|]. unfold sizep; rewrite Nat2Z.id.
  apply (loads_last _ (fun ps => (k f, ps))). by apply loads_n.
Qed.

Lemma loads_debug st f :
  writable f ->
  loads (LoadDebug name) (concat (debug_blocks st f))
    (if st then [] else lineinfo f, if st then [] else locvars f, if st then [] else upvalues f).
Proof.
  intros Hw. destruct (wr_lineinfo _ Hw) as [Hli Hni], (wr_locvars _ Hw) as [Hlv Hnl], (wr_upvalues _ Hw) as [Huv Hnu].
  assert (forall li lv uv, Forall (in_s 32) li -> is_int (Z.of_nat (length li)) ->
    Forall locvar_ok lv -> is_int (Z.of_nat (length lv)) -> Forall string_ok uv -> is_int (Z.of_nat (length uv)) ->
    loads (LoadDebug name) (concat (vector_blocks li ++ int_block (Z.of_nat (length lv)) ::
      concat (map locvar_blocks lv) ++ int_block (Z.of_nat (length uv)) :: concat (map string_blocks uv))) (li, lv, uv)) as Hall.
  { intros li lv uv H1 H2 H3 H4 H5 H6. unfold LoadDebug, vector_blocks. cbn [app concat].
    rewrite concat_app. cbn [concat].
    eapply loads_then; [by apply loads_int|]. eapply loads_then.
    { apply loads_elems. eapply Forall_impl; [exact H1|]. intros x Hx. cbn.
      rewrite swrap_wrap by lia. by apply swrap_small. }
    eapply loads_then; [by apply loads_int|]. rewrite Nat2Z.id. eapply loads_then.
    { pose proof (loads_n (LoadLocVar name) locvar_blocks id lv) as Hn. rewrite map_id in Hn.
      apply Hn. intros v Hv. apply loads_locvar. by eapply Forall_forall in Hv. }
    eapply loads_then; [by apply loads_int|]. rewrite Nat2Z.id. apply (loads_last _ (fun uv => (li, lv, uv))).
    pose proof (loads_n (LoadString name) string_blocks id uv) as Hn. rewrite map_id in Hn.
    apply Hn. intros v Hv. apply loads_string. by eapply Forall_forall in Hv. }
  unfold debug_blocks. destruct st; apply Hall; done.
Qed.

Lemma loads_checked (f : Proto N) : luaG_checkcode f = Ok true -> loads (checked name f) [] f.
Proof. intros Hc s rest Hs. exists s. unfold checked. by rewrite Hc. Qed.

Lemma loaded_eq st pd pl (f : Proto N) :
  loaded st pd pl f =
  let s0 := if bool_decide (source f = pd) || st then None else source f in
  let src := match s0 with None => pl | Some _ => s0 end in
  mkProto src (linedefined f) (lastlinedefined f) (nups f) (numparams f) (is_vararg f) (maxstacksize f)
    (code f) (k f) (map (loaded st (source f) src) (p f))
    (if st then [] else lineinfo f) (if st then [] else locvars f) (if st then [] else upvalues f).
Proof. by destruct f. Qed.

Lemma depth_nested (f g : Proto N) : g ∈ p f -> (depth g < depth f)%nat.
Proof.
  destruct f as [? ? ? ? ? ? ? ? ? fp ? ? ?]. cbn [p depth]. intros Hg.
  induction fp as [|h fp IH]; [by apply elem_of_nil in Hg|]. cbn [foldr].
  apply elem_of_cons in Hg as [->|Hg]; [lia|]. specialize (IH Hg). lia.
Qed.

Lemma loads_function st (f : Proto N) fuel pd pl :
  (depth f <= fuel)%nat -> every writable f ->
  every (fun g => luaG_checkcode g = Ok true) (loaded st pd pl f) ->
  loads (LoadFunction name fuel pl) (concat (function_blocks st pd f)) (loaded st pd pl f).
Proof.
  revert fuel pd pl. induction f as [f IH] using Proto_ind'. intros fuel pd pl Hd Hw Hc.
  apply every_inv in Hw as [Hw Hws]. apply every_inv in Hc as [Hc Hcs].
  destruct fuel as [|fuel]; [destruct f; cbn in Hd; lia|].
  rewrite function_blocks_eq. rewrite loaded_eq in *. cbv zeta in *. cbn [p] in Hcs.
  set (s0 := if bool_decide (source f = pd) || st then None else source f) in *.
  set (src := match s0 with None => pl | Some _ => s0 end) in *.
  assert (string_ok s0) as Hs0 by (unfold s0; destruct (_ || st); [done|apply Hw]).
  destruct (wr_lines _ Hw) as [Hl1 Hl2], (wr_bytes _ Hw) as (Hb1 & Hb2 & Hb3 & Hb4).
  unfold scalar_blocks. fold s0. rewrite !(concat_app (_ ++ _)), (concat_app (string_blocks s0)).
  rewrite (concat_app (vector_blocks (code f))).
  set (cb := int_block (sizek f) :: _). rewrite (concat_app cb). cbn [concat]. rewrite <- !app_assoc. cbn [app].
  cbn [LoadFunction].
  eapply loads_then; [by apply loads_string|]. fold src.
  do 2 (eapply loads_then; [by apply loads_int|]).
  do 4 (eapply (loads_then _ _ [_]); [by apply loads_byte|]).
  eapply loads_then.
  { unfold LoadCode, vector_blocks. cbn [concat]. rewrite app_nil_r.
    eapply loads_then; [apply loads_int, Hw|]. apply loads_elems.
    eapply Forall_impl; [apply (wr_code _ Hw)|]. intros x Hx. cbn. rewrite wrap_mod_idemp by lia. by apply wrap_small. }
  eapply loads_then.
  { apply (loads_constants _ (function_blocks st (source f)) (loaded st (source f) src)); try apply Hw.
    intros g Hg. rewrite Forall_forall in IH, Hws. apply IH; [done| |by apply Hws|].
    - pose proof (depth_nested f g Hg). lia.
    - rewrite Forall_forall in Hcs. apply Hcs. by apply list_elem_of_fmap_2. }
  cbn beta iota. rewrite <- (app_nil_r (concat (debug_blocks st f))).
  eapply loads_then; [by apply loads_debug|]. cbn beta iota. by apply loads_checked.
Qed.
End RoundTrip.

Section Chunk.
Context {N : Type} `{NumberRep N} {S : Type} `{ByteSource S}.

Lemma undump_dump (f : Proto N) (st : bool) name fuel s rest :
  (depth f <= fuel)%nat -> every writable f ->
  every (fun g => luaG_checkcode g = Ok true) (loaded st None (Some (lit "=?")) f) ->
  bs_content s (concat (chunk_blocks st f) ++ rest) ->
  exists s', luaU_undump fuel name s = Ok (loaded st None (Some (lit "=?")) f, s') /\ bs_content s' rest.
Proof.
  intros Hd Hw Hc Hs. assert (loads (luaU_undump fuel name) (concat (chunk_blocks st f))
    (loaded st None (Some (lit "=?")) f)) as Hl; [|by apply Hl].
  unfold luaU_undump, chunk_blocks. cbn [concat]. eapply loads_then; [|by apply loads_function].
  unfold LoadHeader. rewrite <- (app_nil_r luaU_header). eapply loads_then; [by apply loads_block'|].
  rewrite bool_decide_true by done. apply loads_ret.
Qed.

(** With its debug information, and sources as the compiler sets them, the
    same function comes back. *)
Lemma loaded_id (f : Proto N) pd :
  every (fun g => exists s, source g = Some s) f -> loaded false pd pd f = f.
Proof.
  revert pd. induction f as [f IH] using Proto_ind'. intros pd [[s Hs] Hss]%every_inv.
  rewrite loaded_eq. cbv zeta. rewrite orb_false_r. rewrite Hs.
  set (s0 := if bool_decide (Some s = pd) then None else Some s).
  assert (match s0 with None => pd | Some _ => s0 end = Some s) as ->.
  { unfold s0. case_bool_decide; congruence. }
  assert (map (loaded false (Some s) (Some s)) (p f) = p f) as ->.
  { rewrite Forall_forall in IH, Hss. rewrite <- (map_id (p f)) at 2. apply List.map_ext_in.
    intros g Hg%list_elem_of_In. apply IH; [done|by apply Hss]. }
  rewrite <- Hs. by destruct f.
Qed.

(** * Any input *)

(** On a stream of at most [n] bytes, [m] takes at least [d] bytes and returns a
    value in [P], or fails with a message. *)
Definition reads (n d : nat) {A} (m : Load (S := S) A) (P : A -> Prop) : Prop :=
  forall s l, bs_content s l -> (length l <= n)%nat ->
  match m s with
  | Ok (a, s') => P a /\ exists l', bs_content s' l' /\ (length l' + d <= length l)%nat
  | Err _ => True
  | Timeout => False
  end.

Lemma reads_ret n {A} (a : A) (P : A -> Prop) : P a -> reads n 0 (ret a) P.
Proof. intros Ha s l Hs _. split; [done|]. exists l. split; [done|lia]. Qed.

Lemma reads_error n d {A} name why (P : A -> Prop) : reads n d (error name why) P.
Proof. by intros s l Hs _. Qed.

Lemma reads_then n d1 d2 {A B} (m : Load A) (f : A -> Load B) P Q :
  reads n d1 m P -> ((d1 <= n)%nat -> forall a, P a -> reads (n - d1) d2 (f a) Q) ->
  reads n (d1 + d2) (andThen m f) Q.
Proof.
  intros Hm Hf s l Hs Hn. specialize (Hm s l Hs Hn). unfold andThen.
  destruct (m s) as [[a s1]| |]; cbn [bind]; [|done..]. destruct Hm as (Ha & l1 & Hs1 & Hl1).
  specialize (Hf ltac:(lia) a Ha s1 l1 Hs1 ltac:(lia)).
  destruct (f a s1) as [[b s2]| |]; [|done..]. destruct Hf as (? & l2 & ? & ?). split; [done|].
  exists l2. split; [done|lia].
Qed.

(** The same, when the number of bytes does not matter. *)
Lemma reads_then0 n {A B} (m : Load A) (f : A -> Load B) P Q :
  reads n 0 m P -> (forall a, P a -> reads n 0 (f a) Q) -> reads n 0 (andThen m f) Q.
Proof. intros Hm Hf. apply (reads_then n 0 0 m f P Q Hm). intros _ a Ha. rewrite Nat.sub_0_r. auto. Qed.

Lemma reads_weaken n d {A} (m : Load A) (P Q : A -> Prop) :
  reads n d m P -> (forall a, P a -> Q a) -> reads n 0 m Q.
Proof.
  intros Hm HP s l Hs Hn. specialize (Hm s l Hs Hn). destruct (m s) as [[a s1]| |]; [|done..].
  destruct Hm as (? & l1 & ? & ?). split; [auto|]. exists l1. split; [done|lia].
Qed.

Abbreviation any := (fun _ => True).

Section Any.
Context (name : string).

Lemma reads_block n sz : reads n sz (LoadBlock name sz) any.
Proof.
  intros s l Hs _. unfold LoadBlock. destruct (Nat.le_gt_cases sz (length l)) as [Hle|Hgt].
  - destruct (bs_read_ok s l sz Hs Hle) as (s' & -> & Hs'). cbn. split; [done|].
    exists (drop sz l). split; [done|]. rewrite length_drop. lia.
  - destruct (bs_read_short s l sz Hs Hgt) as (b & m & s' & ->). done.
Qed.

Lemma reads_then_any n {A B} (m : Load A) (f : A -> Load B) Q :
  reads n 0 m any -> (forall a, reads n 0 (f a) Q) -> reads n 0 (andThen m f) Q.
Proof. intros Hm Hf. by eapply reads_then0. Qed.

Lemma reads_block0 n sz : reads n 0 (LoadBlock name sz) any.
Proof. by eapply reads_weaken; [apply reads_block|]. Qed.

Ltac reads_tac :=
  repeat first
    [ apply reads_block0 | apply reads_error | (apply reads_ret; exact I)
    | assumption | apply reads_then_any; [|intros ?]
    | match goal with |- reads _ _ (if ?b then _ else _) _ => destruct b end ].

Lemma reads_char n : reads n 0 (LoadChar name) any.
Proof. unfold LoadChar. reads_tac. Qed.
Lemma reads_byte n : reads n 0 (LoadByte name) (in_u 8).
Proof.
  unfold LoadByte. apply (reads_then0 n _ _ any); [apply reads_char|]. intros c _. apply reads_ret.
  apply wrap_range. lia.
Qed.
Lemma reads_int n : reads n 0 (LoadInt name) any.
Proof. unfold LoadInt. reads_tac. Qed.
Lemma reads_string n : reads n 8 (LoadString name) any.
Proof.
  unfold LoadString. apply (reads_then n 8 0 _ _ any); [apply reads_block|]. intros _ b _. cbv zeta. reads_tac.
Qed.
Lemma reads_string0 n : reads n 0 (LoadString name) any.
Proof. by eapply reads_weaken; [apply reads_string|]. Qed.
Lemma reads_vector n conv k : reads n 0 (LoadVector name conv k) any.
Proof. unfold LoadVector. reads_tac. Qed.
Lemma reads_n n k {A} (m : Load A) (P : A -> Prop) : reads n 0 m P -> reads n 0 (load_n k m) (Forall P).
Proof.
  intros Hm. induction k as [|k IH]; cbn [load_n]; [by apply reads_ret|].
  eapply reads_then0; [exact Hm|]. intros a Ha. eapply reads_then0; [exact IH|]. intros l Hl.
  apply reads_ret. by constructor.
Qed.
Lemma reads_n_any n k {A} (m : Load A) : reads n 0 m any -> reads n 0 (load_n k m) any.
Proof. intros Hm. by eapply reads_weaken; [apply reads_n, Hm|]. Qed.

Lemma reads_constant n : reads n 0 (LoadConstant name) any.
Proof.
  unfold LoadConstant. apply reads_then_any; [apply reads_char|intros t].
  destruct (t =? LUA_TNIL); [by apply reads_ret|].
  destruct (t =? LUA_TBOOLEAN); [apply reads_then_any; [apply reads_char|]; intros; by apply reads_ret|].
  destruct (t =? LUA_TNUMBER); [unfold LoadNumber; reads_tac|].
  destruct (t =? LUA_TSTRING); [|apply reads_error].
  apply reads_then_any; [apply reads_string0|]. intros. by apply reads_ret.
Qed.
Lemma reads_locvar n : reads n 0 (LoadLocVar name) any.
Proof.
  unfold LoadLocVar. apply reads_then_any; [apply reads_string0|intros v].
  apply reads_then_any; [apply reads_int|intros a]. apply reads_then_any; [apply reads_int|intros b]. reads_tac.
Qed.
Lemma reads_debug n : reads n 0 (LoadDebug name) any.
Proof.
  unfold LoadDebug. apply reads_then_any; [apply reads_int|intros a].
  apply reads_then_any; [apply reads_vector|intros li]. apply reads_then_any; [apply reads_int|intros b].
  apply reads_then_any; [apply reads_n_any, reads_locvar|intros lv]. apply reads_then_any; [apply reads_int|intros c].
  apply reads_then_any; [apply reads_n_any, reads_string0|intros uv]. reads_tac.
Qed.

(** A function the loader returns. *)
Definition accepted_function (f : Proto N) : Prop :=
  every (fun g => luaG_checkcode g = Ok true) f /\ in_u 8 (nups f).

Lemma reads_checked n (f : Proto N) :
  in_u 8 (nups f) -> Forall accepted_function (p f) -> reads n 0 (checked name f) accepted_function.
Proof.
  intros Hn Hp s l Hs _. unfold checked.
  assert (subs_ok f) as Hsub by (eapply Forall_impl; [exact Hp|]; intros g [_ Hg]; unfold in_u in Hg; lia).
  assert (luaG_checkcode f <> Timeout) as Ht.
  { unfold luaG_checkcode. destruct (Z_lt_le_dec 0 (sizecode f)) as [Hpos|Hz].
    - destruct (symbexec_ok f (sizecode f) NO_REG Hsub Hpos ltac:(lia)) as [r ->]. done.
    - unfold symbexec, precheck. repeat (destruct (_ <=? _); [|done]). destruct (_ || _); [|done].
      unfold code_at, at_. by rewrite (proj2 (Z.leb_gt 0 (sizecode f - 1))) by lia. }
  destruct (luaG_checkcode f) as [[]| |] eqn:Hc; cbn [bind]; [|done..]. split; [|exists l; split; [done|lia]].
  split; [|done]. constructor; [done|]. eapply Forall_impl; [exact Hp|]. by intros g [? _].
Qed.

Lemma reads_function fuel n psrc :
  (n < fuel)%nat -> reads n 0 (LoadFunction name fuel psrc) accepted_function.
Proof.
  revert n psrc. induction fuel as [|fuel IH]; intros n psrc Hn; [lia|]. cbn [LoadFunction].
  eapply reads_weaken; [|done]. eapply (reads_then n 8 0); [apply reads_string|]. intros H8 src _. cbv zeta.
  apply reads_then_any; [apply reads_int|intros ld]. apply reads_then_any; [apply reads_int|intros lld].
  eapply reads_then0; [apply reads_byte|intros nu Hnu]. apply (reads_then0 _ _ _ _ _ (reads_byte _)); intros np _.
  apply (reads_then0 _ _ _ _ _ (reads_byte _)); intros va _. apply (reads_then0 _ _ _ _ _ (reads_byte _)); intros ms _.
  apply reads_then_any; [unfold LoadCode; apply reads_then_any; [apply reads_int|intros; apply reads_vector]|intros cd].
  apply (reads_then0 _ _ _ (fun kp => Forall accepted_function kp.2)).
  { unfold LoadConstants. apply reads_then_any; [apply reads_int|intros nk].
    apply reads_then_any; [apply reads_n_any, reads_constant|intros ks]. apply reads_then_any; [apply reads_int|intros nn].
    eapply reads_then0; [apply reads_n, IH; lia|]. intros ps Hps. by apply reads_ret. }
  intros [ks ps] Hps. cbn [snd] in Hps. apply reads_then_any; [apply reads_debug|intros [[li lv] uv]].
  by apply reads_checked.
Qed.
End Any.


(** C11: what luaU_dump writes, luaU_undump reads back: for every function whose
    fields have values of their C types, and whose code the verifier accepts,
    loading the written bytes, delivered in any way, returns the function with
    the debug information that was kept, and leaves what follows unread. *)
Theorem undump_inverts_dump (f : Proto N) (st : bool) name fuel s rest :
  (depth f <= fuel)%nat -> every writable f ->
  every (fun g => luaG_checkcode g = Ok true) (loaded st None (Some (lit "=?")) f) ->
  bs_content s (snd (luaU_dump append_writer f [] st) ++ rest) ->
  exists s', luaU_undump fuel name s = Ok (loaded st None (Some (lit "=?")) f, s') /\ bs_content s' rest.
Proof. intros Hd Hw Hc Hs. rewrite dump_blocks, write_append in Hs. by apply undump_dump. Qed.
End Chunk.

(** * Examples *)

Section Examples.
(** A main function with a nested one, doubles as numbers, delivered two bytes
    at a time, with one byte after the chunk. *)
Definition inner : Proto spec_float :=
  mkProto (Some (lit "@f.lua")) 1 2 0 0 0 2
    [ins OP_LOADK 0 0 0; ins OP_RETURN 0 2 0] [KNumber (Binary64.of_int 10); KString (Some (lit "s"))]
    [] [1; 2] [mkLocVar (Some (lit "x")) 1 2] [].
Definition main : Proto spec_float :=
  mkProto (Some (lit "@f.lua")) 0 0 0 0 2 2
    [ins OP_CLOSURE 0 0 0; ins OP_RETURN 0 1 0] [KNil; KBool 1] [inner] [2; 2] [] [].

Lemma two_small : Reader (chunk_reader 1).
Proof. by apply chunk_reader_small. Qed.
#[local] Existing Instances two_small DoubleRep.double_rep.

Definition main_bytes : bytes := snd (luaU_dump append_writer main [] false) ++ [0].
Definition main_stream : Zio bytes := luaZ_init main_bytes.

Lemma main_accepted : every (fun g => luaG_checkcode g = Ok true) (loaded false None (Some (lit "=?")) main).
Proof.
  constructor; [vm_compute; reflexivity|]. constructor; [|constructor].
  constructor; [vm_compute; reflexivity|constructor].
Qed.

Ltac concretely :=
  split; unfold main, inner; cbn [source linedefined lastlinedefined nups numparams is_vararg maxstacksize code k p
    lineinfo locvars upvalues]; split_and?; repeat constructor;
  vm_compute; first [exact I | discriminate | done | (right; split_and!; (done || discriminate))].

Lemma main_writable : every writable main.
Proof.
  assert (writable main) by concretely. assert (writable inner) by concretely. by repeat constructor.
Qed.

Lemma main_content : bs_content main_stream main_bytes.
Proof. apply init_content, chunk_delivers. vm_compute. repeat constructor; discriminate. Qed.


Lemma undump_inverts_dump_witness :
  exists s', luaU_undump 2 "@f.lua" main_stream = Ok (main, s') /\ bs_content s' [0].
Proof.
  apply (undump_inverts_dump main false "@f.lua" 2 main_stream [0]);
    [vm_compute; repeat constructor|exact main_writable|exact main_accepted|exact main_content].
Defined.
End Examples.
