(* ===== verification/LuaStrMatch.v ===== *)
(** Pattern matching of Lua (lua/src/lstrlib.c): the matcher.

    The subject [src] and the pattern [pat] are byte strings followed by the
    terminating zero that C code may read; a pointer into one of them is an
    index.  A read beyond the terminator is the error [oob], which the theorems
    exclude.  Character classes are those of the C locale.  Counters of type
    int do not overflow on strings below 2 GB. *)
From stdpp Require Import base list.
From Stdlib Require Import ZArith Lia.
From S2P Require Import Prelude.
Open Scope Z_scope.

(** * ctype.h in the C locale *)
Definition in_range (a b c : Z) : bool := (a <=? c) && (c <=? b).
Definition isupper (c : Z) : bool := in_range 65 90 c.
Definition islower (c : Z) : bool := in_range 97 122 c.
Definition isalpha (c : Z) : bool := isupper c || islower c.
Definition isdigit (c : Z) : bool := in_range 48 57 c.
Definition isalnum (c : Z) : bool := isalpha c || isdigit c.
Definition isxdigit (c : Z) : bool := isdigit c || in_range 65 70 c || in_range 97 102 c.
Definition iscntrl (c : Z) : bool := in_range 0 31 c || (c =? 127).
Definition isspace (c : Z) : bool := in_range 9 13 c || (c =? 32).
Definition ispunct (c : Z) : bool := in_range 33 126 c && negb (isalnum c).
Definition tolower (c : Z) : Z := if isupper c then c + 32 else c.
Definition toupper (c : Z) : Z := if islower c then c - 32 else c.

(** The characters the matcher treats specially. *)
Definition L_ESC : Z := 37.
Definition ch_lpar : Z := 40.
Definition ch_rpar : Z := 41.
Definition ch_lbr : Z := 91.
Definition ch_rbr : Z := 93.
Definition ch_caret : Z := 94.
Definition ch_dash : Z := 45.
Definition ch_dot : Z := 46.
Definition ch_dollar : Z := 36.
Definition ch_quest : Z := 63.
Definition ch_star : Z := 42.
Definition ch_plus : Z := 43.

Definition oob : string := "read out of bounds".

(** [match_class] on [c] for the class letter [cl] *)
Definition match_class (c cl : Z) : bool :=
  let signed (r : bool) := if islower cl then r else negb r in
  let l := tolower cl in
  if l =? 97 then signed (isalpha c)
  else if l =? 99 then signed (iscntrl c)
  else if l =? 100 then signed (isdigit c)
  else if l =? 108 then signed (islower c)
  else if l =? 112 then signed (ispunct c)
  else if l =? 115 then signed (isspace c)
  else if l =? 117 then signed (isupper c)
  else if l =? 119 then signed (isalnum c)
  else if l =? 120 then signed (isxdigit c)
  else if l =? 122 then signed (c =? 0)
  else cl =? c.

(** * State of a match *)
Definition CAP_UNFINISHED : Z := -1.
Definition CAP_POSITION : Z := -2.
Definition LUA_MAXCAPTURES : nat := 32.

Record Capture := mkCapture { c_init : nat; c_len : Z }.
(** [capture] is the array of LUA_MAXCAPTURES entries; those from [level] on
    hold garbage. *)
Record MatchState := mkMS { level : nat; capture : list Capture }.

(** [*p] in a zero-terminated string *)
Definition read (l : bytes) (i : nat) : res Z :=
  match l !! i with
  | Some c => Ok c
  | None => if (i =? length l)%nat then Ok 0 else Err oob
  end.

(** [memcmp(l + i, l + j, n) == 0] *)
Definition mem_eq (l : bytes) (i j n : nat) : res bool :=
  if ((i + n <=? S (length l)) && (j + n <=? S (length l)))%nat
  then Ok (bool_decide (take n (drop i (l ++ [0])) = take n (drop j (l ++ [0]))))
  else Err oob.

Section Match.
Variables (src pat : bytes).
Implicit Types (ms : MatchState) (s p ep : nat) (c : Z).
Local Open Scope nat_scope.
Local Notation "a =z b" := (Z.eqb a b) (at level 70).

Definition cap_at ms l : res Capture := lift (capture ms !! l) oob.
Definition set_cap ms l (c : Capture) : MatchState := mkMS (level ms) (<[l := c]> (capture ms)).

Definition check_capture ms (l : Z) : res nat :=
  let l := (l - 49)%Z in
  if (l <? 0)%Z || (Z.of_nat (level ms) <=? l)%Z then Err "invalid capture index"
  else
    c <- cap_at ms (Z.to_nat l);
    if c_len c =z CAP_UNFINISHED then Err "invalid capture index" else Ok (Z.to_nat l).

Fixpoint capture_to_close ms (lv : nat) : res nat :=
  match lv with
  | O => Err "invalid pattern capture"
  | S l =>
      c <- cap_at ms l;
      if c_len c =z CAP_UNFINISHED then Ok l else capture_to_close ms l
  end.

(** The do-while loop of classend. *)
Definition classend_step p : res (nat + nat) :=
  c <- read pat p;
  if c =z 0 then Err "malformed pattern (missing ']')"
  else
    n <- read pat (p + 1);
    let p := if (c =z L_ESC) && negb (n =z 0) then p + 2 else p + 1 in
    e <- read pat p;
    if e =z ch_rbr then Ok (inr (p + 1)) else Ok (inl p).

Definition classend p : res nat :=
  c <- read pat p;
  if c =z L_ESC then
    n <- read pat (p + 1);
    if n =z 0 then Err "malformed pattern (ends with '%')" else Ok (p + 2)
  else if c =z ch_lbr then
    n <- read pat (p + 1);
    loop (S (length pat)) classend_step (if n =z ch_caret then p + 2 else p + 1)
  else Ok (p + 1).

(** One turn of [while (++p < ec)], for the sign [sig]. *)
Definition bracket_step c (ec : nat) (sig : bool) p : res (nat + bool) :=
  let p := p + 1 in
  if p <? ec then
    x <- read pat p;
    if x =z L_ESC then
      cl <- read pat (p + 1);
      Ok (if match_class c cl then inr sig else inl (p + 1))
    else
      n <- read pat (p + 1);
      if (n =z ch_dash) && (p + 2 <? ec) then
        y <- read pat (p + 2);
        Ok (if in_range x y c then inr sig else inl (p + 2))
      else Ok (if x =z c then inr sig else inl p)
  else Ok (inr (negb sig)).

Definition matchbracketclass c p ec : res bool :=
  n <- read pat (p + 1);
  if n =z ch_caret then loop (S ec) (bracket_step c ec false) (p + 1)
  else loop (S ec) (bracket_step c ec true) p.

Definition singlematch c p ep : res bool :=
  x <- read pat p;
  if x =z ch_dot then Ok true
  else if x =z L_ESC then (cl <- read pat (p + 1); Ok (match_class c cl))
  else if x =z ch_lbr then matchbracketclass c p (ep - 1)
  else Ok (x =z c).

(** [s<ms->src_end && singlematch(uchar( *s), p, ep)] *)
Definition single_at s p ep : res bool :=
  if s <? length src then (c <- read src s; singlematch c p ep) else Ok false.

Definition balance_step (b e : Z) (st : nat * Z) : res (nat * Z + option nat) :=
  let '(s, cont) := st in
  let s := s + 1 in
  if s <? length src then
    c <- read src s;
    if c =z e then
      let cont := (cont - 1)%Z in
      Ok (if cont =z 0 then inr (Some (s + 1)) else inl (s, cont))
    else if c =z b then Ok (inl (s, cont + 1)%Z)
    else Ok (inl (s, cont))
  else Ok (inr None).

Definition matchbalance s p : res (option nat) :=
  b <- read pat p;
  if b =z 0 then Err "unbalanced pattern"
  else
    e <- read pat (p + 1);
    if e =z 0 then Err "unbalanced pattern"
    else
      c <- read src s;
      if negb (c =z b) then Ok None
      else loop (S (length src)) (balance_step b e) (s, 1%Z).

(** The results of [match]: the end of the match or NULL, and the state. *)
Definition outcome : Type := option nat * MatchState.

(** [match_] is the recursive call. *)
Section Cases.
Variable match_ : MatchState -> nat -> nat -> res outcome.

Definition count_step p ep (si : nat * nat) : res (nat * nat + nat) :=
  let '(s, i) := si in
  m <- single_at (s + i) p ep;
  Ok (if m : bool then inl (s, i + 1) else inr i).

(** [while (i>=0)]: from [i] repetitions down to 0. *)
Fixpoint expand_down ms s ep (i : nat) : res outcome :=
  '(r, ms) <- match_ ms (s + i) (ep + 1);
  match r, i with
  | Some e, _ => Ok (Some e, ms)
  | None, O => Ok (None, ms)
  | None, S i' => expand_down ms s ep i'
  end.

Definition max_expand ms s p ep : res outcome :=
  i <- loop (S (length src)) (count_step p ep) (s, 0);
  expand_down ms s ep i.

Definition min_step p ep (st : MatchState * nat) : res (MatchState * nat + outcome) :=
  let '(ms, s) := st in
  '(r, ms) <- match_ ms s (ep + 1);
  match r with
  | Some e => Ok (inr (Some e, ms))
  | None =>
      m <- single_at s p ep;
      Ok (if m : bool then inl (ms, s + 1) else inr (None, ms))
  end.

Definition min_expand ms s p ep : res outcome :=
  loop (S (length src)) (min_step p ep) (ms, s).

Definition start_capture ms s p (what : Z) : res outcome :=
  let lv := level ms in
  if LUA_MAXCAPTURES <=? lv then Err "too many captures"
  else
    let ms := mkMS (lv + 1) (<[lv := mkCapture s what]> (capture ms)) in
    '(r, ms) <- match_ ms s p;
    match r with
    | None => Ok (None, mkMS (level ms - 1) (capture ms))
    | Some e => Ok (Some e, ms)
    end.

Definition end_capture ms s p : res outcome :=
  l <- capture_to_close ms (level ms);
  c <- cap_at ms l;
  let ms := set_cap ms l (mkCapture (c_init c) (Z.of_nat s - Z.of_nat (c_init c))) in
  '(r, ms) <- match_ ms s p;
  match r with
  | None =>
      c <- cap_at ms l;
      Ok (None, set_cap ms l (mkCapture (c_init c) CAP_UNFINISHED))
  | Some e => Ok (Some e, ms)
  end.

Definition match_capture ms s (l : Z) : res (option nat) :=
  l <- check_capture ms l;
  c <- cap_at ms l;
  let len := u64 (c_len c) in
  if (len <=? Z.of_nat (length src - s))%Z then
    b <- mem_eq src (c_init c) s (Z.to_nat len);
    Ok (if b : bool then Some (s + Z.to_nat len) else None)
  else Ok None.

(** The label [dflt]: a pattern item. *)
Definition match_default ms s p : res outcome :=
  ep <- classend p;
  m <- single_at s p ep;
  x <- read pat ep;
  if x =z ch_quest then
    if m : bool then
      '(r, ms) <- match_ ms (s + 1) (ep + 1);
      match r with
      | Some e => Ok (Some e, ms)
      | None => match_ ms s (ep + 1)
      end
    else match_ ms s (ep + 1)
  else if x =z ch_star then max_expand ms s p ep
  else if x =z ch_plus then (if m : bool then max_expand ms (s + 1) p ep else Ok (None, ms))
  else if x =z ch_dash then min_expand ms s p ep
  else if m : bool then match_ ms (s + 1) ep else Ok (None, ms).

Definition match_frontier ms s p : res outcome :=
  x <- read pat p;
  if negb (x =z ch_lbr) then Err "missing '[' after '%f' in pattern"
  else
    ep <- classend p;
    previous <- (if s =? 0 then Ok 0%Z else read src (s - 1));
    b <- matchbracketclass previous p (ep - 1);
    if b : bool then Ok (None, ms)
    else
      c <- read src s;
      b <- matchbracketclass c p (ep - 1);
      if b : bool then match_ ms s ep else Ok (None, ms).

Definition match_esc ms s p : res outcome :=
  x <- read pat (p + 1);
  if x =z 98 then
    r <- matchbalance s (p + 2);
    match r with
    | None => Ok (None, ms)
    | Some s => match_ ms s (p + 4)
    end
  else if x =z 102 then match_frontier ms s (p + 2)
  else if isdigit x then
    r <- match_capture ms s x;
    match r with
    | None => Ok (None, ms)
    | Some s => match_ ms s (p + 2)
    end
  else match_default ms s p.

Definition match_case ms s p : res outcome :=
  x <- read pat p;
  if x =z ch_lpar then
    y <- read pat (p + 1);
    if y =z ch_rpar then start_capture ms s (p + 2) CAP_POSITION
    else start_capture ms s (p + 1) CAP_UNFINISHED
  else if x =z ch_rpar then end_capture ms s (p + 1)
  else if x =z L_ESC then match_esc ms s p
  else if x =z 0 then Ok (Some s, ms)
  else if x =z ch_dollar then
    y <- read pat (p + 1);
    if y =z 0 then Ok (if s =? length src then Some s else None, ms)
    else match_default ms s p
  else match_default ms s p.
End Cases.

(** Every call of [match], and every [goto init], advances in the pattern. *)
Fixpoint do_match (fuel : nat) ms s p : res outcome :=
  match fuel with
  | O => Timeout
  | S fuel' => match_case (do_match fuel') ms s p
  end.
Definition match_ ms s p : res outcome := do_match (S (length pat)) ms s p.
End Match.
