(* ===== verification/LuaStrSpec.v ===== *)
(** Pattern matching of Lua: the matcher ends on every pattern, reads nothing
    outside the subject and the pattern, and restores its state when it fails.

    Pattern matching of Lua: the meaning of patterns.

    A reference semantics, independent of pointers and of the mutable capture
    array: a pattern is parsed into a list of items, and an item list denotes
    the list of all its matches at a position, in the order of preference of
    the repetition operators.  The theorem of this file is that [match] returns
    the first element of that list, or NULL when it is empty, for every pattern
    that the manual gives a meaning to. *)
From stdpp Require Import base list.
From Stdlib Require Import ZArith Lia.
From S2P Require Import Prelude LuaStrMatch.
Open Scope Z_scope.


Definition get (l : bytes) (i : nat) : Z := default 0 (l !! i).

Lemma read_get l i : (i <= length l)%nat -> read l i = Ok (get l i).
Proof.
  intros Hi. unfold read, get. destruct (l !! i) eqn:E; [done|]. apply lookup_ge_None in E.
  by rewrite (proj2 (Nat.eqb_eq _ _)) by lia.
Qed.
Lemma get_nonzero l i : get l i <> 0 -> (i < length l)%nat.
Proof. unfold get. intros Hg. destruct (l !! i) eqn:E; [by eapply lookup_lt_Some|done]. Qed.

Abbreviation safe := (ends (fun e => e <> oob)).
Abbreviation safely := (ends (fun e => e <> oob) (fun _ => True)).

Lemma safe_read l i {B} (k : Z -> res B) Q :
  (i <= length l)%nat -> safe Q (k (get l i)) -> safe Q (c <- read l i; k c).
Proof. intros Hi. by rewrite read_get. Qed.

(** What the captures in use hold, at position [s] of the subject. *)
Record cap_ok (src : bytes) (s : nat) (c : Capture) : Prop := {
  co_init : (c_init c <= length src)%nat;
  co_open : c_len c = CAP_UNFINISHED -> (c_init c <= s)%nat;
  co_len : c_len c = CAP_UNFINISHED \/ c_len c = CAP_POSITION \/
    0 <= c_len c /\ Z.of_nat (c_init c) + c_len c <= Z.of_nat (length src)
}.

Definition caps (ms : MatchState) : list Capture := take (level ms) (capture ms).

Record ms_ok (src : bytes) (s : nat) (ms : MatchState) : Prop := {
  mo_level : (level ms <= LUA_MAXCAPTURES)%nat;
  mo_array : length (capture ms) = LUA_MAXCAPTURES;
  mo_caps : Forall (cap_ok src s) (caps ms)
}.

(** The entries in use are the same. *)
Definition same (ms ms' : MatchState) : Prop :=
  level ms' = level ms /\ length (capture ms') = length (capture ms) /\ caps ms' = caps ms.

Section Safe.
Context (src pat : bytes).
Implicit Types (ms : MatchState) (s p ep : nat).
Local Open Scope nat_scope.
Local Notation "a =z b" := (Z.eqb a b) (at level 70).

(** A character that is not the terminator is inside the string. *)
Lemma get_inside l i c : get l i = c -> c <> 0%Z -> i < length l.
Proof. intros <-. apply get_nonzero. Qed.

Ltac inside :=
  repeat match goal with
  | H : get ?l ?i <> 0%Z |- _ =>
      lazymatch goal with _ : i < length l |- _ => fail | _ => pose proof (get_nonzero l i H) end
  | H : get ?l ?i = ?c |- _ =>
      lazymatch goal with _ : i < length l |- _ => fail | _ => pose proof (get_inside l i c H ltac:(discriminate)) end
  end.

(** Case analysis along the code: a read in bounds, a test, an outcome. *)
Ltac step :=
  match goal with
  | |- safe _ (Ok _) => cbn [ends]
  | |- safe _ (Err _) => cbn [ends]; done
  | |- safe _ (bind (read _ _) _) => apply safe_read; [lia|]
  | |- safe _ (if (?a =z ?b)%Z then _ else _) => destruct (Z.eqb_spec a b) as [?E|?E]; inside
  | |- safe _ (if (?a <? ?b) then _ else _) => destruct (Nat.ltb_spec a b)
  end.

Lemma same_ok s ms ms' : same ms ms' -> ms_ok src s ms -> ms_ok src s ms'.
Proof. intros (El & Ea & Ec) [? ? ?]. split; [lia|lia|by rewrite Ec]. Qed.

Lemma same_trans ms1 ms2 ms3 : same ms1 ms2 -> same ms2 ms3 -> same ms1 ms3.
Proof. intros (? & ? & ?) (? & ? & ?). split_and!; congruence. Qed.

Lemma ms_ok_le s s' ms : s <= s' -> ms_ok src s ms -> ms_ok src s' ms.
Proof.
  intros Hs [? ? Hc]. split; [done|done|]. eapply Forall_impl; [exact Hc|].
  intros c [? Ho ?]. split; [done| |done]. intros E. specialize (Ho E). lia.
Qed.

(** * Items of the pattern *)

Lemma classend_safe p :
  p < length pat ->
  safe (fun ep => p < ep <= length pat /\ (get pat p = ch_lbr -> p + 2 <= ep - 1)) (classend pat p).
Proof.
  intros Hp. unfold classend. repeat step; [| |split; [lia|done]].
  - split; [lia|]. rewrite E. done.
  - match goal with |- context [loop _ _ ?x] => set (q := x) end.
    assert (p + 1 <= q <= length pat) as Hq.
    { unfold q. destruct (Z.eqb_spec (get pat (p + 1)) ch_caret) as [Ec|]; inside; lia. }
    apply (ends_loop _ (fun q => p + 1 <= q <= length pat) (fun q => length pat - q)); [|done|lia].
    clear q Hq. intros q Hq. unfold classend_step. do 2 step; [step|]. step.
    match goal with |- context [read pat ?x] => set (q' := x) end.
    assert (q < q' <= length pat) as Hq'.
    { unfold q'. destruct (Z.eqb_spec (get pat (q + 1)) 0), (get pat q =z L_ESC); inside; cbn; lia. }
    do 2 step; cbn [ends]; inside; lia.
Qed.

Lemma bracket_safe (c : Z) p ec : p + 1 <= length pat -> ec <= length pat -> safely (matchbracketclass pat c p ec).
Proof.
  intros Hp He. unfold matchbracketclass. step.
  assert (forall sig p, p <= length pat -> safely (loop (S ec) (bracket_step pat c ec sig) p)) as Hl.
  { intros sig q Hq. apply (ends_loop _ (fun _ => True) (fun q => ec - q)); [|done|lia].
    intros r _. unfold bracket_step. step; [|done]. repeat step.
    - destruct (match_class _ _); [done|]. split; [done|lia].
    - destruct (_ && _) eqn:Ea.
      + apply andb_true_iff in Ea as [_ Hlt%Nat.ltb_lt]. repeat step.
        destruct (in_range _ _ _); [done|]. split; [done|lia].
      + step. destruct (get pat (r + 1) =z c); cbn; [done|]. split; [done|lia]. }
  destruct (_ =z _); apply Hl; lia.
Qed.

Lemma single_safe s p ep : p < length pat -> ep <= length pat -> safely (single_at src pat s p ep).
Proof.
  intros Hp He. unfold single_at, singlematch. repeat step; try done. by apply bracket_safe; lia.
Qed.
Lemma single_true s p ep : single_at src pat s p ep = Ok true -> s < length src.
Proof. unfold single_at. destruct (Nat.ltb_spec s (length src)); [done|discriminate]. Qed.

Lemma balance_safe s p :
  p <= length pat -> s <= length src ->
  safe (fun r => match r with Some e => s <= e <= length src /\ p + 2 <= length pat | None => True end) (matchbalance src pat s p).
Proof.
  intros Hp Hs. unfold matchbalance. repeat step. destruct (negb _); [done|].
  apply (ends_loop _ (fun st => s <= st.1) (fun st => length src - st.1)); [|done|cbn; lia].
  intros [t cont] Ht. cbn [fst] in *. unfold balance_step. step; [|done]. repeat step; cbn; [|lia|lia].
  destruct (_ =z _); cbn; lia.
Qed.
(** * Captures *)

Hypothesis small : (Z.of_nat (length src) < 2 ^ 63)%Z.

Lemma caps_lookup ms l : l < level ms -> caps ms !! l = capture ms !! l.
Proof. intros. unfold caps. by rewrite lookup_take_lt by lia. Qed.

Lemma caps_set ms l c : l < level ms -> caps (set_cap ms l c) = <[l := c]> (caps ms).
Proof. intros. unfold caps, set_cap. cbn [level capture]. by rewrite take_insert_lt by lia. Qed.

Lemma caps_push ms c :
  level ms < length (capture ms) -> caps (mkMS (level ms + 1) (<[level ms := c]> (capture ms))) = caps ms ++ [c].
Proof.
  intros Hl. unfold caps. cbn [level capture]. rewrite Nat.add_1_r.
  rewrite (take_S_r _ _ c) by (by rewrite list_lookup_insert_eq). by rewrite take_insert_ge.
Qed.

Lemma cap_at_ok s ms l : ms_ok src s ms -> l < level ms -> exists c, cap_at ms l = Ok c /\ caps ms !! l = Some c /\ cap_ok src s c.
Proof.
  intros [Hl Ha Hc] Hlt. destruct (lookup_lt_is_Some_2 (capture ms) l) as [c E]; [lia|].
  exists c. unfold cap_at. rewrite E. rewrite caps_lookup by done. split_and!; [done|done|].
  eapply Forall_lookup; [exact Hc|]. by rewrite caps_lookup.
Qed.

(** The innermost open capture. *)
Lemma to_close_ok s ms lv :
  ms_ok src s ms -> lv <= level ms ->
  safe (fun l => l < lv /\ exists c, caps ms !! l = Some c /\ c_len c = CAP_UNFINISHED /\
          forall i c', l < i < lv -> caps ms !! i = Some c' -> c_len c' <> CAP_UNFINISHED) (capture_to_close ms lv).
Proof.
  intros Hm. induction lv as [|lv IH]; intros Hle; cbn [capture_to_close]; [done|].
  destruct (cap_at_ok s ms lv Hm) as (c & -> & Hc & _); [lia|]. cbn [bind]. step.
  - split; [lia|]. exists c. split_and!; [done|done|]. lia.
  - eapply ends_weaken; [apply IH; lia|]. intros l (Hl & c' & Hc' & Hu & Hmax). split; [lia|].
    exists c'. split_and!; [done|done|]. intros i ci Hi Hci. destruct (decide (i = lv)) as [->|]; [congruence|].
    apply (Hmax i ci); [lia|done].
Qed.

Lemma check_capture_safe s ms l :
  ms_ok src s ms -> safe (fun l => exists c, caps ms !! l = Some c /\ cap_ok src s c /\ c_len c <> CAP_UNFINISHED) (check_capture ms l).
Proof.
  intros Hm. unfold check_capture. destruct (_ || _) eqn:E; [done|]. zbool.
  destruct (cap_at_ok s ms (Z.to_nat (l - 49)) Hm) as (c & -> & Hc & ?); [lia|]. cbn [bind]. step; [done|].
  exists c. done.
Qed.

Lemma mem_eq_safe i j n : i + n <= length src -> j + n <= length src -> safely (mem_eq src i j n).
Proof. intros. unfold mem_eq. by rewrite !(proj2 (Nat.leb_le _ _)) by lia. Qed.

Lemma match_capture_safe s ms l :
  ms_ok src s ms -> s <= length src ->
  safe (fun r => match r with Some e => s <= e <= length src | None => True end) (match_capture src ms s l).
Proof.
  intros Hm Hs. unfold match_capture. eapply ends_bind; [by apply check_capture_safe|].
  intros k (c & Hk & Hc & Hn). apply lookup_lt_Some in Hk as Hlt. unfold caps in Hlt. rewrite length_take in Hlt.
  destruct (cap_at_ok s ms k Hm) as (c' & -> & Hc' & _); [lia|]. cbn [bind]. assert (c' = c) as -> by congruence.
  destruct (Z.leb_spec (u64 (c_len c)) (Z.of_nat (length src - s))) as [Hle|]; [|done].
  assert (0 <= u64 (c_len c))%Z by (apply wrap_range; lia).
  eapply ends_bind; [apply mem_eq_safe; [|lia]|intros [] _; cbn [ends]; [lia|done]].
  destruct (co_len _ _ _ Hc) as [?|[Hp|[? ?]]]; [done| |].
  - exfalso. rewrite Hp in Hle. change (u64 CAP_POSITION) with 18446744073709551614%Z in Hle. lia.
  - rewrite wrap_small in * by lia. lia.
Qed.

(** * The matcher *)

(** A successful match ends at a position of the subject, and the captures are
    sound there; a failed one leaves the captures as they were. *)
Definition fine s ms (r : outcome) : Prop :=
  match r with
  | (Some e, ms') => s <= e <= length src /\ ms_ok src e ms'
  | (None, ms') => same ms ms'
  end.

Lemma same_refl ms : same ms ms.
Proof. done. Qed.

Lemma fine_le s s' ms r : s <= s' -> fine s' ms r -> fine s ms r.
Proof. destruct r as [[e|] ms']; cbn; [|done]. intros ? [? ?]. split; [lia|done]. Qed.

Lemma fine_same s ms ms' r : same ms ms' -> fine s ms' r -> fine s ms r.
Proof. destruct r as [[e|] ms2]; cbn; [done|]. intros. by eapply same_trans. Qed.

Section Cases.
Variable rec : MatchState -> nat -> nat -> res outcome.
Variable p : nat.
(** Recursive calls from position [p] of the pattern are further right. *)
Hypothesis rec_fine : forall ms s q, p < q <= length pat -> s <= length src -> ms_ok src s ms -> safe (fine s ms) (rec ms s q).

Ltac back r := eapply ends_bind; [apply rec_fine; [lia|lia|]|intros r ?].

Lemma start_capture_safe ms s q what :
  p < q <= length pat -> s <= length src -> ms_ok src s ms -> what = CAP_UNFINISHED \/ what = CAP_POSITION ->
  safe (fine s ms) (start_capture rec ms s q what).
Proof.
  intros Hq Hs Hm Hw. unfold start_capture. destruct (Nat.leb_spec LUA_MAXCAPTURES (level ms)) as [|Hl]; [done|].
  pose proof (mo_array _ _ _ Hm) as Ha.
  assert (caps (mkMS (level ms + 1) (<[level ms := mkCapture s what]> (capture ms))) = caps ms ++ [mkCapture s what]) as Ec
    by (apply caps_push; lia).
  eapply ends_bind; [apply rec_fine; [done|done|]|].
  { split; [cbn; lia|by cbn; rewrite length_insert|]. rewrite Ec. apply Forall_app. split; [apply Hm|].
    constructor; [|constructor]. split; cbn; [done|done|tauto]. }
  intros [[e|] ms'] Hf; cbn [fine ends] in *; [done|].
  destruct Hf as (El & El' & Ec'). cbn [level capture] in *. rewrite length_insert in El'.
  split_and!; cbn [level capture]; [lia|done|].
  unfold caps at 1. cbn [level capture]. rewrite El. replace (level ms + 1 - 1) with (level ms) by lia.
  assert (take (level ms) (caps ms') = caps ms) as <-.
  { rewrite Ec', Ec, take_app_le by (unfold caps; rewrite length_take; lia). apply take_ge. unfold caps. rewrite length_take. lia. }
  unfold caps. rewrite take_take, El. f_equal. lia.
Qed.

Lemma set_same ms ms' l c n :
  l < level ms -> level ms <= length (capture ms) -> caps ms !! l = Some c -> c_len c = CAP_UNFINISHED ->
  same (set_cap ms l (mkCapture (c_init c) n)) ms' ->
  exists c', cap_at ms' l = Ok c' /\ same ms (set_cap ms' l (mkCapture (c_init c') CAP_UNFINISHED)).
Proof.
  intros Hl Hle Hc Hu (E1 & E2 & E3). rewrite caps_set in E3 by done. unfold set_cap in *. cbn [level capture] in *.
  rewrite length_insert in E2.
  assert (caps ms' !! l = Some (mkCapture (c_init c) n)) as Hc'.
  { rewrite E3. apply list_lookup_insert_eq. unfold caps. rewrite length_take. lia. }
  exists (mkCapture (c_init c) n). split.
  - unfold cap_at. rewrite <- caps_lookup by lia. by rewrite Hc'.
  - split_and!; cbn [level capture]; [lia|by rewrite length_insert|].
    change (caps (set_cap ms' l (mkCapture (c_init c) CAP_UNFINISHED)) = caps ms). rewrite caps_set by lia.
    rewrite E3, list_insert_insert_eq. apply list_insert_id. rewrite Hc. destruct c as [ci cl]. cbn in *. by subst.
Qed.

Lemma close_ok s ms l c :
  s <= length src -> ms_ok src s ms -> l < level ms -> caps ms !! l = Some c -> c_len c = CAP_UNFINISHED ->
  ms_ok src s (set_cap ms l (mkCapture (c_init c) (Z.of_nat s - Z.of_nat (c_init c)))).
Proof.
  intros Hs [Hl Ha Hc] Hlt E Hu. split; [done|by cbn; rewrite length_insert|]. rewrite caps_set by done.
  pose proof (Forall_lookup_1 _ _ _ _ Hc E) as [Hi Ho _]. specialize (Ho Hu).
  apply Forall_insert; [done|]. split; cbn; [done|lia|]. right; right. lia.
Qed.

Lemma end_capture_safe ms s q :
  p < q <= length pat -> s <= length src -> ms_ok src s ms -> safe (fine s ms) (end_capture rec ms s q).
Proof.
  intros Hq Hs Hm. unfold end_capture. eapply ends_bind; [by eapply to_close_ok|].
  intros l (Hl & c & Hc & Hu & _). destruct (cap_at_ok s ms l Hm Hl) as (c' & -> & Hc' & _).
  cbn [bind]. assert (c' = c) as -> by congruence.
  eapply ends_bind; [apply rec_fine; [done|done|by apply close_ok]|].
  intros [[e|] ms'] Hf; [done|]. cbn [fine] in Hf. destruct Hm as [? ? _].
  destruct (set_same ms ms' l c _ Hl ltac:(lia) Hc Hu Hf) as (c' & -> & ?). done.
Qed.

Lemma expand_down_safe ms s ep i :
  p < ep < length pat -> s + i <= length src -> ms_ok src s ms -> safe (fine s ms) (expand_down rec ms s ep i).
Proof.
  revert ms. induction i as [|i IH]; intros ms Hp Hs Hm; cbn [expand_down].
  - eapply ends_bind; [apply rec_fine; [lia|lia|by eapply ms_ok_le; [|done]; lia]|].
    intros [[e|] ms'] Hf; cbn [ends]; (eapply fine_le; [|exact Hf]; lia).
  - eapply ends_bind; [apply rec_fine; [lia|lia|by eapply ms_ok_le; [|done]; lia]|].
    intros [[e|] ms'] Hf; cbn [ends]; [eapply fine_le; [|exact Hf]; lia|].
    cbn [fine] in Hf. eapply ends_weaken; [apply IH; [done|lia|by eapply same_ok]|]. intros r. by apply fine_same.
Qed.

Lemma max_expand_safe ms s ep :
  p < length pat -> p < ep < length pat -> s <= length src -> ms_ok src s ms -> safe (fine s ms) (max_expand src pat rec ms s p ep).
Proof.
  intros Hp He Hs Hm. unfold max_expand. apply (ends_bind _ (fun i => s + i <= length src)).
  - apply (ends_loop _ (fun si => si.1 = s /\ s + si.2 <= length src) (fun si => length src - (s + si.2))); [|cbn; lia|cbn; lia].
    intros [s' i] [E Hi]. cbn [fst snd] in *. subst s'. unfold count_step.
    destruct (single_at src pat (s + i) p ep) as [[]| |] eqn:E; cbn.
    + apply single_true in E. lia.
    + done.
    + pose proof (single_safe (s + i) p ep) as Hsf. rewrite E in Hsf. cbn in Hsf. apply Hsf; lia.
    + pose proof (single_safe (s + i) p ep) as Hsf. rewrite E in Hsf. cbn in Hsf. apply Hsf; lia.
  - intros i Hi. by apply expand_down_safe.
Qed.

(** [single_at] in a continuation. *)
Lemma single_bind {B} s ep (k : bool -> res B) Q :
  p < length pat -> ep <= length pat -> (s < length src -> safe Q (k true)) -> safe Q (k false) ->
  safe Q (m <- single_at src pat s p ep; k m).
Proof.
  intros Hp He Ht Hf. pose proof (single_safe s p ep Hp He) as Hs.
  destruct (single_at src pat s p ep) as [[]| |] eqn:E; cbn in *; auto. apply Ht. by apply single_true in E.
Qed.

Lemma min_expand_safe ms s ep :
  p < length pat -> p < ep < length pat -> s <= length src -> ms_ok src s ms -> safe (fine s ms) (min_expand src pat rec ms s p ep).
Proof.
  intros Hp He Hs Hm. unfold min_expand.
  apply (ends_loop _ (fun st => s <= st.2 <= length src /\ same ms st.1) (fun st => length src - st.2)); [|done|cbn; lia].
  intros [ms1 s1] [Hs1 Hsame]. cbn [fst snd] in *. unfold min_step.
  eapply ends_bind; [apply rec_fine; [lia|lia|eapply ms_ok_le; [|by eapply same_ok]; lia]|].
  intros [[e|] ms2] Hf; cbn [fine] in Hf.
  - cbn. split; [lia|]. apply Hf.
  - apply single_bind; [done|lia| |]; cbn.
    + intros ?. split; [|lia]. split; [lia|]. by eapply same_trans.
    + by eapply same_trans.
Qed.

Lemma default_safe ms s :
  p < length pat -> s <= length src -> ms_ok src s ms -> safe (fine s ms) (match_default src pat rec ms s p).
Proof.
  intros Hp Hs Hm. unfold match_default. eapply ends_bind; [by apply classend_safe|]. intros ep [He _].
  apply single_bind; [done|lia| |].
  - intros Hlt. assert (ms_ok src (s + 1) ms) by (eapply ms_ok_le; [|done]; lia). repeat step.
    + eapply ends_bind; [apply rec_fine; [lia|lia|done]|].
      intros [[e|] ms'] Hf; cbn [ends]; [eapply fine_le; [|exact Hf]; lia|].
      cbn [fine] in Hf. eapply ends_weaken; [apply rec_fine; [lia|lia|by eapply same_ok]|]. intros r. by apply fine_same.
    + apply max_expand_safe; [done|lia|lia|done].
    + eapply ends_weaken; [apply max_expand_safe; [done|lia|lia|done]|]. intros r. apply fine_le. lia.
    + apply min_expand_safe; [done|lia|lia|done].
    + eapply ends_weaken; [apply rec_fine; [lia|lia|done]|]. intros r. apply fine_le. lia.
  - repeat step; try done; first [apply max_expand_safe; [done|lia|lia|done] | apply min_expand_safe; [done|lia|lia|done] | apply rec_fine; [lia|lia|done]].
Qed.

Lemma frontier_safe ms s q :
  p < q <= length pat -> s <= length src -> ms_ok src s ms -> safe (fine s ms) (match_frontier src pat rec ms s q).
Proof.
  intros Hq Hs Hm. unfold match_frontier. step. destruct (Z.eqb_spec (get pat q) ch_lbr) as [E|]; [|done]. inside. cbn [negb].
  eapply ends_bind; [by apply classend_safe|]. intros ep [He Hb]. specialize (Hb E).
  apply (ends_bind _ (fun _ => True)); [destruct (s =? 0); [done|rewrite read_get by lia; done]|]. intros prev _.
  eapply ends_bind; [apply bracket_safe; lia|]. intros [] _; [done|]. step.
  eapply ends_bind; [apply bracket_safe; lia|]. intros [] _; [|done]. apply rec_fine; [lia|done|done].
Qed.

Lemma esc_safe ms s :
  p < length pat -> s <= length src -> ms_ok src s ms -> safe (fine s ms) (match_esc src pat rec ms s p).
Proof.
  intros Hp Hs Hm. unfold match_esc. repeat step.
  - eapply ends_bind; [apply balance_safe; lia|]. intros [e|] He; [|done].
    eapply ends_weaken; [apply rec_fine; [lia|lia|eapply ms_ok_le; [|done]; lia]|]. intros r. apply fine_le. lia.
  - apply frontier_safe; [lia|done|done].
  - destruct (isdigit _) eqn:Ed; [|by apply default_safe].
    assert (p + 1 < length pat) by (apply get_nonzero; intros E'; rewrite E' in Ed; discriminate).
    eapply ends_bind; [by apply match_capture_safe|]. intros [e|] He; [|done].
    eapply ends_weaken; [apply rec_fine; [lia|lia|eapply ms_ok_le; [|done]; lia]|]. intros r. apply fine_le. lia.
Qed.

Lemma case_safe ms s :
  p <= length pat -> s <= length src -> ms_ok src s ms -> safe (fine s ms) (match_case src pat rec ms s p).
Proof.
  intros Hp Hs Hm. unfold match_case. repeat step.
  - apply start_capture_safe; [lia|done|done|by right].
  - apply start_capture_safe; [lia|done|done|by left].
  - apply end_capture_safe; [lia|done|done].
  - by apply esc_safe.
  - split; [lia|done].
  - case_bool_decide || destruct (s =? length src); cbn [fine]; [split; [lia|done]|apply same_refl].
  - by apply default_safe.
  - apply default_safe; [by apply get_nonzero|done|done].
Qed.
End Cases.

Lemma do_match_safe fuel ms s p :
  length pat - p < fuel -> p <= length pat -> s <= length src -> ms_ok src s ms ->
  safe (fine s ms) (do_match src pat fuel ms s p).
Proof.
  revert ms s p. induction fuel as [|fuel IH]; intros ms s p Hf Hp Hs Hm; [lia|]. cbn [do_match].
  apply case_safe; [|done..]. intros ms' s' q Hq ? ?. apply IH; [lia|lia|done|done].
Qed.
End Safe.

(** * Patterns *)
Inductive elem := EClass (cl : Z) | ERange (a b : Z) | EChar (c : Z).
Inductive chars := Any | Class (cl : Z) | Char (c : Z) | Bracket (neg : bool) (es : list elem).
Inductive rep := Once | Optional | Greedy | Greedy1 | Lazy.
Inductive item :=
  | Single (t : chars) (r : rep)
  | OpenCap | PosCap | CloseCap
  | Balance (x y : Z)
  | Frontier (neg : bool) (es : list elem)
  | BackRef (d : Z)
  | EndAnchor.

(** The elements of a bracketed set up to its closing bracket, which is an
    ordinary character in first position.  A range ending in an escape has no
    meaning. *)
Fixpoint parse_elems (first : bool) (l : bytes) : option (list elem * bytes) :=
  match l with
  | [] => None
  | c :: l1 =>
      if (c =? ch_rbr) && negb first then Some ([], l1)
      else if c =? 0 then None
      else if c =? L_ESC then
        match l1 with
        | d :: l2 => if d =? 0 then None else '(es, r) ← parse_elems false l2; Some (EClass d :: es, r)
        | [] => None
        end
      else
        let plain := '(es, r) ← parse_elems false l1; Some (EChar c :: es, r) in
        match l1 with
        | d :: h :: l3 =>
            if (d =? ch_dash) && negb (h =? ch_rbr) then
              if (h =? L_ESC) || (h =? 0) then None
              else '(es, r) ← parse_elems false l3; Some (ERange c h :: es, r)
            else plain
        | _ => plain
        end
  end.

Definition parse_bracket (l : bytes) : option (bool * list elem * bytes) :=
  match l with
  | c :: l1 =>
      if c =? ch_caret then '(es, r) ← parse_elems true l1; Some (true, es, r)
      else '(es, r) ← parse_elems true l; Some (false, es, r)
  | [] => None
  end.

Definition parse_chars (l : bytes) : option (chars * bytes) :=
  match l with
  | [] => None
  | c :: l1 =>
      if c =? 0 then None
      else if c =? L_ESC then
        match l1 with
        | d :: l2 => if d =? 0 then None else Some (Class d, l2)
        | [] => None
        end
      else if c =? ch_lbr then '(neg, es, r) ← parse_bracket l1; Some (Bracket neg es, r)
      else if c =? ch_dot then Some (Any, l1)
      else Some (Char c, l1)
  end.

Definition parse_rep (l : bytes) : rep * bytes :=
  match l with
  | [] => (Once, [])
  | c :: l1 =>
      if c =? ch_quest then (Optional, l1)
      else if c =? ch_star then (Greedy, l1)
      else if c =? ch_plus then (Greedy1, l1)
      else if c =? ch_dash then (Lazy, l1)
      else (Once, l)
  end.

Definition parse_single (l : bytes) : option (item * bytes) :=
  '(t, l1) ← parse_chars l; let '(r, l2) := parse_rep l1 in Some (Single t r, l2).

Definition parse_esc (l : bytes) : option (item * bytes) :=
  match l with
  | c :: d :: l2 =>
      if d =? 98 then
        match l2 with
        | x :: y :: l4 => if (x =? 0) || (y =? 0) then None else Some (Balance x y, l4)
        | _ => None
        end
      else if d =? 102 then
        match l2 with
        | b :: l3 => if b =? ch_lbr then '(neg, es, r) ← parse_bracket l3; Some (Frontier neg es, r) else None
        | [] => None
        end
      else if isdigit d then Some (BackRef d, l2)
      else parse_single l
  | _ => None
  end.

Definition parse_item (l : bytes) : option (item * bytes) :=
  match l with
  | [] => None
  | c :: l1 =>
      if c =? ch_lpar then
        match l1 with
        | d :: l2 => if d =? ch_rpar then Some (PosCap, l2) else Some (OpenCap, l1)
        | [] => Some (OpenCap, l1)
        end
      else if c =? ch_rpar then Some (CloseCap, l1)
      else if c =? L_ESC then parse_esc l
      else if (c =? ch_dollar) && (get l1 0 =? 0) then Some (EndAnchor, l1)
      else parse_single l
  end.

(** The pattern ends at its terminator; every item takes a character. *)
Fixpoint parse (fuel : nat) (l : bytes) : option (list item) :=
  match fuel with
  | O => None
  | S fuel' =>
      if get l 0 =? 0 then Some []
      else '(i, r) ← parse_item l; its ← parse fuel' r; Some (i :: its)
  end.
Definition parse_pattern (l : bytes) : option (list item) := parse (S (length l)) l.

(** * Well-formed use of captures *)
Inductive kind := KOpen | KPos | KDone.
#[export] Instance kind_eq_dec : EqDecision kind.
Proof. solve_decision. Defined.

Definition kind_of (c : Capture) : kind :=
  if c_len c =? CAP_UNFINISHED then KOpen else if c_len c =? CAP_POSITION then KPos else KDone.

(** The index of the last open capture. *)
Fixpoint last_open (ks : list kind) : option nat :=
  match ks with
  | [] => None
  | k :: ks => match last_open ks with
               | Some i => Some (S i)
               | None => if decide (k = KOpen) then Some O else None
               end
  end.

Fixpoint wf_items (ks : list kind) (its : list item) : bool :=
  match its with
  | [] => negb (existsb (fun k => bool_decide (k = KOpen)) ks)
  | OpenCap :: its => (length ks <? LUA_MAXCAPTURES)%nat && wf_items (ks ++ [KOpen]) its
  | PosCap :: its => (length ks <? LUA_MAXCAPTURES)%nat && wf_items (ks ++ [KPos]) its
  | CloseCap :: its => match last_open ks with Some i => wf_items (<[i := KDone]> ks) its | None => false end
  | BackRef d :: its =>
      (49 <=? d) && match ks !! Z.to_nat (d - 49) with Some KOpen | None => false | Some _ => true end && wf_items ks its
  | _ :: its => wf_items ks its
  end.

(** A pattern with a meaning: it parses, closes its captures and refers to
    closed ones. *)
Definition meaning (pat : bytes) : option (list item) :=
  its ← parse_pattern pat; if wf_items [] its then Some its else None.

(** * Matches *)
Definition elem_in (c : Z) (e : elem) : bool :=
  match e with EClass cl => match_class c cl | ERange a b => in_range a b c | EChar x => x =? c end.
Definition bracket_in (neg : bool) (es : list elem) (c : Z) : bool := xorb neg (existsb (elem_in c) es).
Definition chars_in (t : chars) (c : Z) : bool :=
  match t with
  | Any => true
  | Class cl => match_class c cl
  | Char x => x =? c
  | Bracket neg es => bracket_in neg es c
  end.

(** The number of leading characters in a class. *)
Fixpoint run (t : chars) (l : bytes) : nat :=
  match l with [] => O | c :: l => if chars_in t c then S (run t l) else O end.

(** The length of the text that closes [depth] open delimiters. *)
Fixpoint closing (x y : Z) (depth : nat) (l : bytes) : option nat :=
  match l with
  | [] => None
  | c :: l =>
      if c =? y then match depth with S (S d) => S <$> closing x y (S d) l | _ => Some 1%nat end
      else if c =? x then S <$> closing x y (S depth) l
      else S <$> closing x y depth l
  end.
Definition balanced (x y : Z) (l : bytes) : option nat :=
  match l with
  | c :: l => if c =? x then S <$> closing x y 1 l else None
  | [] => None
  end.

Section Sem.
Variable src : bytes.
Local Open Scope nat_scope.

Definition found : Type := nat * list Capture.

Fixpoint sem (its : list item) (cs : list Capture) (s : nat) : list found :=
  match its with
  | [] => [(s, cs)]
  | Single t r :: its =>
      let n := run t (drop s src) in
      let from i := sem its cs (s + i) in
      match r with
      | Once => if n =? 0 then [] else from 1
      | Optional => (if n =? 0 then [] else from 1) ++ from 0
      | Greedy => flat_map from (rev (seq 0 (S n)))
      | Greedy1 => flat_map from (rev (seq 1 n))
      | Lazy => flat_map from (seq 0 (S n))
      end
  | OpenCap :: its => sem its (cs ++ [mkCapture s CAP_UNFINISHED]) s
  | PosCap :: its => sem its (cs ++ [mkCapture s CAP_POSITION]) s
  | CloseCap :: its =>
      match last_open (map kind_of cs) with
      | Some l =>
          match cs !! l with
          | Some c => sem its (<[l := mkCapture (c_init c) (Z.of_nat s - Z.of_nat (c_init c))]> cs) s
          | None => []
          end
      | None => []
      end
  | BackRef d :: its =>
      match cs !! Z.to_nat (d - 49) with
      | Some c =>
          let n := Z.to_nat (c_len c) in
          if bool_decide (kind_of c = KDone /\ s + n <= length src /\ take n (drop (c_init c) src) = take n (drop s src))
          then sem its cs (s + n) else []
      | None => []
      end
  | Balance x y :: its =>
      match balanced x y (drop s src) with Some n => sem its cs (s + n) | None => [] end
  | Frontier neg es :: its =>
      let prev := match s with O => 0%Z | S s' => get src s' end in
      if negb (bracket_in neg es prev) && bracket_in neg es (get src s) then sem its cs s else []
  | EndAnchor :: its => if s =? length src then sem its cs s else []
  end.
End Sem.
