(* ===== verification/LuaStrRefine.v ===== *)
(** Pattern matching of Lua: the matcher computes the first match of the
    reference semantics. *)
From stdpp Require Import base list.
From Stdlib Require Import ZArith Lia.
From S2P Require Import Prelude LuaStrMatch LuaStrSpec.
Open Scope Z_scope.

Section Refine.
Context (src pat : bytes).
Implicit Types (ms : MatchState) (s p q ep ec : nat).
Local Open Scope nat_scope.
Local Notation "a =z b" := (Z.eqb a b) (at level 70).

(** [l] is what a pointer to position [q] of the pattern sees. *)
Definition sees q (l : bytes) : Prop := q <= length pat /\ drop q pat = l.

Lemma sees_cons q c l : sees q (c :: l) -> get pat q = c /\ q < length pat /\ sees (q + 1) l.
Proof.
  intros [Hq Hd]. assert (length (drop q pat) = S (length l)) as Hl by by rewrite Hd.
  rewrite length_drop in Hl. split_and!; [|lia|split; [lia|]].
  - unfold get. rewrite <- (Nat.add_0_r q), <- lookup_drop, Hd. done.
  - rewrite <- drop_drop, Hd. done.
Qed.
Lemma sees_get q l i : sees q l -> get pat (q + i) = get l i.
Proof. intros [_ <-]. unfold get. by rewrite lookup_drop. Qed.
Lemma sees_get0 q l : sees q l -> get pat q = get l 0.
Proof. intros Hs. rewrite <- (sees_get q l 0 Hs). f_equal. lia. Qed.
Lemma sees_length q l : sees q l -> q + length l = length pat.
Proof. intros [? <-]. rewrite length_drop. lia. Qed.

(** Follow the pointer along known characters. *)
Ltac walk :=
  repeat match goal with
  | H : sees _ (_ :: _) |- _ => apply sees_cons in H as (? & ? & H)
  end; rewrite <- ?Nat.add_assoc in *; cbn [Nat.add] in *.

Lemma bind_read {A} q (k : Z -> res A) : q <= length pat -> (c <- read pat q; k c) = k (get pat q).
Proof. intros. by rewrite read_get. Qed.

Lemma bind_read_src {A} s (k : Z -> res A) : s <= length src -> (c <- read src s; k c) = k (get src s).
Proof. intros. by rewrite read_get. Qed.

Lemma classend_next q fuel :
  q < length pat -> get pat q <> 0%Z ->
  let q' := if (get pat q =z L_ESC) && negb (get pat (q + 1) =z 0) then q + 2 else q + 1 in
  q' <= length pat ->
  loop (S fuel) (classend_step pat) q = if get pat q' =z ch_rbr then Ok (q' + 1) else loop fuel (classend_step pat) q'.
Proof.
  intros Hq Hn q' Hq'. cbn [loop]. unfold classend_step at 1. rewrite bind_read by lia.
  rewrite (proj2 (Z.eqb_neq _ _) Hn), bind_read by lia. fold q'. rewrite bind_read by done.
  by destruct (get pat q' =z ch_rbr).
Qed.

(** A set in the pattern: where it ends, and what it contains. *)
Record set_ok (first : bool) q es (r : bytes) ec : Prop := {
  se_range : q <= ec < length pat;
  se_rest : sees (ec + 1) r;
  se_end fuel : ec - q < fuel ->
    (if negb first && (get pat q =z ch_rbr) then Ok (q + 1) else loop fuel (classend_step pat) q) = Ok (ec + 1);
  se_in c sig fuel p : S p = q -> ec - q < fuel ->
    loop fuel (bracket_step pat c ec sig) p = Ok (if existsb (elem_in c) es then sig else negb sig)
}.

Lemma bracket_next c ec sig fuel p :
  p + 1 < ec -> ec < length pat ->
  loop (S fuel) (bracket_step pat c ec sig) p =
  let q := p + 1 in
  if get pat q =z L_ESC then
    if match_class c (get pat (q + 1)) then Ok sig else loop fuel (bracket_step pat c ec sig) (q + 1)
  else if (get pat (q + 1) =z ch_dash) && (q + 2 <? ec) then
    if in_range (get pat q) (get pat (q + 2)) c then Ok sig else loop fuel (bracket_step pat c ec sig) (q + 2)
  else if get pat q =z c then Ok sig else loop fuel (bracket_step pat c ec sig) q.
Proof.
  intros Hp He. cbn [loop]. unfold bracket_step at 1. rewrite (proj2 (Nat.ltb_lt _ _) Hp), bind_read by lia.
  cbv zeta. destruct (_ =z L_ESC).
  - rewrite bind_read by lia. by destruct (match_class _ _).
  - rewrite bind_read by lia. destruct (_ && _) eqn:E.
    + apply andb_true_iff in E as [_ E%Nat.ltb_lt]. rewrite bind_read by lia. by destruct (in_range _ _ _).
    + by destruct (_ =z c).
Qed.

Lemma set_close q r : sees q (ch_rbr :: r) -> set_ok false q [] r q.
Proof.
  intros Hs. apply sees_cons in Hs as (E & Hq & Hs). split; [lia|done| |].
  - intros fuel _. by rewrite E.
  - intros c sig [|fuel] p Hp Hf; [lia|]. cbn [loop]. unfold bracket_step at 1.
    by rewrite (proj2 (Nat.ltb_ge _ _)) by lia.
Qed.

Lemma set_class first q d l es r ec :
  sees q (L_ESC :: d :: l) -> d <> 0%Z -> set_ok false (q + 2) es r ec -> set_ok first q (EClass d :: es) r ec.
Proof.
  intros Hl Hd [Hr Hrest Hend Hin]. walk. split; [lia|done| |].
  - intros [|fuel] Hf; [lia|]. rewrite H. cbn [L_ESC ch_rbr Z.eqb Pos.eqb]. rewrite andb_false_r.
    rewrite classend_next; rewrite ?H, ?H1; [|lia|done|]; cbn [L_ESC Z.eqb Pos.eqb];
      rewrite (proj2 (Z.eqb_neq _ _) Hd); cbn [negb andb]; [|lia].
    replace (q + 2 + 1) with (q + 3) by lia. apply (Hend fuel). lia.
  - intros x sig [|fuel] p Hp Hf; [lia|]. rewrite bracket_next by lia. cbv zeta.
    replace (p + 1) with q by lia. rewrite H, H1. cbn [L_ESC Z.eqb Pos.eqb existsb elem_in].
    destruct (match_class x d); [done|]. cbn [orb]. apply Hin; lia.
Qed.

(** One character that is not an escape, for [classend]. *)
Lemma end_char (first : bool) q c es r ec fuel :
  get pat q = c -> c <> 0%Z -> c <> L_ESC -> (first = true \/ c <> ch_rbr) -> q + 1 <= ec < length pat ->
  (forall fuel, ec - (q + 1) < fuel ->
    (if get pat (q + 1) =z ch_rbr then Ok (q + 1 + 1) else loop fuel (classend_step pat) (q + 1)) = Ok es) ->
  ec - q < fuel ->
  (if negb first && (get pat q =z ch_rbr) then Ok r else loop fuel (classend_step pat) q) = Ok es.
Proof.
  intros E H0 He Hf Hr Hend Hfuel. destruct fuel as [|fuel]; [lia|].
  assert (negb first && (get pat q =z ch_rbr) = false) as ->.
  { rewrite E. destruct Hf as [->|Hc]; [done|]. by rewrite (proj2 (Z.eqb_neq _ _) Hc), andb_false_r. }
  assert ((get pat q =z L_ESC) = false) as Hn by (rewrite E; by apply Z.eqb_neq).
  rewrite classend_next; rewrite ?Hn; [|lia|by rewrite E|cbn; lia]. cbn [andb]. apply Hend. lia.
Qed.

Lemma set_range first q c h l es r ec :
  sees q (c :: ch_dash :: h :: l) -> c <> 0%Z -> c <> L_ESC -> (first = true \/ c <> ch_rbr) ->
  h <> ch_rbr -> h <> L_ESC -> h <> 0%Z ->
  set_ok false (q + 3) es r ec -> set_ok first q (ERange c h :: es) r ec.
Proof.
  intros Hl Hc0 Hce Hcr Hr He H0 [Hrg Hrest Hend Hin]. walk. split; [lia|done| |].
  - intros fuel Hf. apply (end_char _ _ c _ _ ec); [done..|lia| |done]. clear fuel Hf. intros fuel Hf.
    apply (end_char false _ ch_dash _ _ ec); [done|done|done|by right|lia| |done]. clear fuel Hf. intros fuel Hf.
    rewrite <- !Nat.add_assoc. cbn [Nat.add].
    apply (end_char false _ h _ _ ec); [done|done|done|by right|lia| |lia]. intros fuel' Hf'.
    rewrite <- !Nat.add_assoc. cbn [Nat.add]. apply Hend. lia.
  - intros x sig [|fuel] p Hp Hf; [lia|]. rewrite bracket_next by lia. cbv zeta.
    replace (p + 1) with q by lia. rewrite H, H2, H4, (proj2 (Z.eqb_neq _ _) Hce), (proj2 (Nat.ltb_lt _ _)) by lia.
    cbn [andb ch_dash Z.eqb Pos.eqb existsb elem_in]. destruct (in_range c h x); [done|]. cbn [orb]. apply Hin; lia.
Qed.

Lemma set_char first q c l es r ec :
  sees q (c :: l) -> c <> 0%Z -> c <> L_ESC -> (first = true \/ c <> ch_rbr) ->
  (get pat (q + 1) = ch_dash -> ec <= q + 2) ->
  set_ok false (q + 1) es r ec -> set_ok first q (EChar c :: es) r ec.
Proof.
  intros Hl Hc0 Hce Hcr Hd [Hrg Hrest Hend Hin]. walk. split; [lia|done| |].
  - intros fuel Hf. apply (end_char _ _ c _ _ ec); [done..|lia| |done]. clear fuel Hf. intros fuel Hf.
    rewrite <- Nat.add_assoc. cbn [Nat.add]. apply Hend. lia.
  - intros x sig [|fuel] p Hp Hf; [lia|]. rewrite bracket_next by lia. cbv zeta.
    replace (p + 1) with q by lia. rewrite H, (proj2 (Z.eqb_neq _ _) Hce).
    assert ((get pat (q + 1) =z ch_dash) && (q + 2 <? ec) = false) as ->.
    { destruct (Z.eqb_spec (get pat (q + 1)) ch_dash) as [E|]; [|done]. apply Nat.ltb_ge. by apply Hd. }
    cbn [existsb elem_in]. destruct (c =z x); [done|]. cbn [orb]. apply Hin; lia.
Qed.

(** A dash before the closing bracket is the last element. *)
Lemma dash_last q es r ec :
  get pat q = ch_dash -> get pat (q + 1) = ch_rbr -> q + 1 < length pat -> set_ok false q es r ec -> ec <= q + 1.
Proof.
  intros E E' Hq [Hr _ Hend _]. specialize (Hend (S (length pat)) ltac:(lia)). rewrite E in Hend. cbn [ch_dash ch_rbr Z.eqb Pos.eqb negb andb] in Hend.
  rewrite classend_next in Hend; rewrite ?E in *; [|lia|done|cbn; lia]. cbn [ch_dash L_ESC Z.eqb Pos.eqb andb] in Hend.
  rewrite E' in Hend. cbn in Hend. injection Hend. lia.
Qed.

Lemma parse_elems_ok l first q es r :
  sees q l -> parse_elems first l = Some (es, r) -> exists ec, set_ok first q es r ec.
Proof.
  remember (length l) as n eqn:En. revert l En first q es r.
  induction n as [n IH] using lt_wf_ind. intros l En first q es r Hs Hp.
  destruct l as [|c l1]; [done|]. cbn [parse_elems] in Hp. cbn [length] in En.
  destruct ((c =z ch_rbr) && negb first) eqn:Hcl.
  { injection Hp as <- <-. apply andb_true_iff in Hcl as [->%Z.eqb_eq ->%negb_true_iff]. exists q. by apply set_close. }
  assert (first = true \/ c <> ch_rbr) as Hcr.
  { apply andb_false_iff in Hcl as [?%Z.eqb_neq|?%negb_false_iff]; auto. }
  destruct (Z.eqb_spec c 0) as [|Hc0]; [done|].
  destruct (Z.eqb_spec c L_ESC) as [->|Hce].
  - destruct l1 as [|d l2]; [done|]. destruct (Z.eqb_spec d 0) as [|Hd]; [done|].
    destruct (parse_elems false l2) as [[es' r']|] eqn:Ep; [|done]. injection Hp as <- <-.
    assert (sees (q + 2) l2) as Hs2 by (walk; done).
    destruct (IH (length l2) ltac:(cbn in En; lia) l2 eq_refl false (q + 2) es' r' Hs2 Ep) as [ec Hec].
    exists ec. by eapply set_class.
  - assert (forall es' r', parse_elems false l1 = Some (es', r') -> exists ec, set_ok false (q + 1) es' r' ec) as Hnext.
    { intros es' r' E. walk. by apply (IH (length l1) ltac:(lia) l1 eq_refl false). }
    assert ((forall d h l3, l1 = d :: h :: l3 -> d = ch_dash -> h = ch_rbr) ->
      ('(es, r) ← parse_elems false l1; Some (EChar c :: es, r)) = Some (es, r) -> exists ec, set_ok first q es r ec) as Hplain.
    { intros Hdash E. destruct (parse_elems false l1) as [[es' r']|] eqn:Ep; [|done]. injection E as <- <-.
      destruct (Hnext _ _ eq_refl) as [ec Hec]. exists ec. eapply set_char; try done.
      intros Ed. pose proof (se_range _ _ _ _ _ Hec). pose proof (sees_length _ _ Hs). cbn [length] in *.
      destruct l1 as [|d [|h l3]]; cbn [length] in *; [lia|lia|]. walk.
      specialize (Hdash d h l3 eq_refl ltac:(congruence)). pose proof (dash_last (q + 1) es' r' ec) as Hl.
      rewrite <- Nat.add_assoc in Hl. cbn [Nat.add] in Hl. apply Hl; [done|congruence|lia|done]. }
    destruct l1 as [|d [|h l3]]; [by apply Hplain..|].
    destruct ((d =z ch_dash) && negb (h =z ch_rbr)) eqn:Hr; [|].
    + apply andb_true_iff in Hr as [->%Z.eqb_eq Hhr%negb_true_iff]. apply Z.eqb_neq in Hhr.
      destruct ((h =z L_ESC) || (h =z 0)) eqn:Hh; [done|]. zbool.
      destruct (parse_elems false l3) as [[es' r']|] eqn:Ep; [|done]. injection Hp as <- <-.
      assert (sees (q + 3) l3) as Hs3 by (walk; done).
      destruct (IH (length l3) ltac:(cbn in En; lia) l3 eq_refl false (q + 3) es' r' Hs3 Ep) as [ec Hec].
      exists ec. by eapply set_range.
    + apply Hplain; [|done]. intros d' h' l' [= <- <- <-] ->. cbn in Hr. apply negb_false_iff, Z.eqb_eq in Hr. done.
Qed.

(** A bracketed set from its opening bracket on. *)
Lemma parse_bracket_ok q l neg es r :
  get pat q = ch_lbr -> q < length pat -> sees (q + 1) l -> parse_bracket l = Some (neg, es, r) ->
  exists ec, q < ec /\ sees (ec + 1) r /\ classend pat q = Ok (ec + 1) /\
    forall c, matchbracketclass pat c q ec = Ok (bracket_in neg es c).
Proof.
  intros Eq Hq Hs Hp. unfold classend, matchbracketclass. rewrite !bind_read, Eq by lia. cbn [L_ESC ch_lbr Z.eqb Pos.eqb].
  setoid_rewrite bind_read; [|lia..]. destruct l as [|c l1]; [done|]. cbn [parse_bracket] in Hp.
  pose proof (sees_get0 _ _ Hs) as E. cbn in E. rewrite E. destruct (c =z ch_caret).
  - destruct (parse_elems true l1) as [[es' r']|] eqn:Ep; [|done]. injection Hp as <- <- <-.
    assert (sees (q + 2) l1) as Hs1 by (walk; done).
    destruct (parse_elems_ok l1 true (q + 2) es' r' Hs1 Ep) as [ec [Hr Hrest Hend Hin]].
    exists ec. split_and!; [lia|done|apply (Hend (S (length pat))); lia|].
    intros x. rewrite (Hin x false) by lia. unfold bracket_in. by destruct (existsb _ _).
  - destruct (parse_elems true (c :: l1)) as [[es' r']|] eqn:Ep; [|done]. injection Hp as <- <- <-.
    destruct (parse_elems_ok (c :: l1) true (q + 1) es' r' Hs Ep) as [ec [Hr Hrest Hend Hin]].
    exists ec. split_and!; [lia|done|apply (Hend (S (length pat))); lia|].
    intros x. rewrite (Hin x true) by lia. unfold bracket_in. by destruct (existsb _ _).
Qed.

Lemma parse_chars_ok q l t r :
  sees q l -> parse_chars l = Some (t, r) ->
  exists ep, q < ep /\ sees ep r /\ classend pat q = Ok ep /\ forall c, singlematch pat c q ep = Ok (chars_in t c).
Proof.
  intros Hs Hp. destruct l as [|c l1]; [done|]. cbn [parse_chars] in Hp.
  assert (get pat q = c /\ q < length pat /\ sees (q + 1) l1) as (E & Hq & Hs1) by (by apply sees_cons).
  destruct (Z.eqb_spec c 0) as [|Hc0]; [done|]. unfold singlematch.
  destruct (Z.eqb_spec c L_ESC) as [->|Hce]; [|destruct (Z.eqb_spec c ch_lbr) as [->|Hcl]].
  - destruct l1 as [|d l2]; [done|]. destruct (Z.eqb_spec d 0) as [|Hd]; [done|]. injection Hp as <- <-.
    apply sees_cons in Hs1 as (Ed & ? & Hs1). exists (q + 2). rewrite <- Nat.add_assoc in Hs1. split_and!; [lia|done| |].
    + unfold classend. rewrite bind_read, E by lia. cbn [L_ESC Z.eqb Pos.eqb]. rewrite bind_read, Ed by lia.
      by rewrite (proj2 (Z.eqb_neq _ _) Hd).
    + intros c. rewrite bind_read, E by lia. cbn [L_ESC ch_dot Z.eqb Pos.eqb]. by rewrite bind_read, Ed by lia.
  - destruct (parse_bracket l1) as [[[neg es] r']|] eqn:Ep; [|done]. injection Hp as <- <-.
    destruct (parse_bracket_ok q l1 neg es r' E Hq Hs1 Ep) as (ec & Hec & Hr & Hend & Hin).
    exists (ec + 1). split_and!; [lia|done|done|]. intros c. rewrite bind_read, E by lia.
    cbn [L_ESC ch_dot ch_lbr Z.eqb Pos.eqb]. rewrite Nat.add_sub. apply Hin.
  - assert (classend pat q = Ok (q + 1)) as Hend.
    { unfold classend. rewrite bind_read, E by lia.
      by rewrite (proj2 (Z.eqb_neq _ _) Hce), (proj2 (Z.eqb_neq _ _) Hcl). }
    exists (q + 1). destruct (Z.eqb_spec c ch_dot) as [->|Hcd]; injection Hp as <- <-.
    + split_and!; [lia|done|done|]. intros c. rewrite bind_read, E by lia. done.
    + split_and!; [lia|done|done|]. intros x. rewrite bind_read, E by lia.
      by rewrite (proj2 (Z.eqb_neq _ _) Hcd), (proj2 (Z.eqb_neq _ _) Hce), (proj2 (Z.eqb_neq _ _) Hcl).
Qed.

(** * Repetition *)
Definition test (t : chars) s : bool := match src !! s with Some c => chars_in t c | None => false end.

Lemma drop_src s : drop s src = match src !! s with Some c => c :: drop (s + 1) src | None => [] end.
Proof.
  destruct (src !! s) eqn:E; [rewrite Nat.add_1_r; by apply drop_S|]. apply drop_ge. by apply lookup_ge_None.
Qed.

Lemma run_test t s : run t (drop s src) = if test t s then S (run t (drop (s + 1) src)) else 0.
Proof. rewrite drop_src. unfold test. by destruct (src !! s). Qed.

Section Item.
Context (p ep : nat) (t : chars).
Hypothesis Hsingle : forall c, singlematch pat c p ep = Ok (chars_in t c).

Lemma single_at_test s : single_at src pat s p ep = Ok (test t s).
Proof.
  unfold single_at, test. destruct (Nat.ltb_spec s (length src)) as [Hlt|Hge].
  - rewrite read_get by lia. cbn [bind]. rewrite Hsingle. unfold get.
    by destruct (lookup_lt_is_Some_2 _ _ Hlt) as [c ->].
  - by rewrite (proj2 (lookup_ge_None _ _)) by lia.
Qed.

Lemma count_run s i fuel :
  length src - (s + i) < fuel -> loop fuel (count_step src pat p ep) (s, i) = Ok (i + run t (drop (s + i) src)).
Proof.
  revert i. induction fuel as [|fuel IH]; intros i Hf; [lia|]. cbn [loop]. unfold count_step at 1.
  rewrite single_at_test. cbn [bind]. rewrite run_test. destruct (test t (s + i)) eqn:E; [|f_equal; lia].
  assert (s + i < length src) by (unfold test in E; destruct (src !! (s + i)) eqn:E'; [by eapply lookup_lt_Some|done]).
  rewrite IH by lia. replace (s + i + 1) with (s + (i + 1)) by lia. f_equal. lia.
Qed.
End Item.

(** * First matches *)
Definition first_is (m : res outcome) (L : list found) : Prop :=
  exists r ms', m = Ok (r, ms') /\
    match head L with Some (e, cs) => r = Some e /\ caps ms' = cs | None => r = None end.

Lemma first_fail ms : first_is (Ok (None, ms)) [].
Proof. by eexists _, _. Qed.

(** The next alternative after a failure. *)
Lemma first_or (Q : outcome -> Prop) m L L' (k : MatchState -> res outcome) :
  safe Q m -> first_is m L ->
  (forall ms', Q (None, ms') -> first_is (k ms') L') ->
  first_is ('(r, ms') <- m; match r with Some e => Ok (Some e, ms') | None => k ms' end) (L ++ L').
Proof.
  intros Hs (r & ms' & -> & Hr) Hk. cbn [bind ends] in *. destruct L as [|[e cs] L]; cbn [head app] in *.
  - subst r. by apply Hk.
  - destruct Hr as [-> <-]. by exists (Some e), ms'.
Qed.

(** The state may be changed after a failure. *)
Lemma first_undo m L (k : outcome -> res outcome) :
  first_is m L -> (forall e ms', k (Some e, ms') = Ok (Some e, ms')) ->
  (forall ms', m = Ok (None, ms') -> exists ms2, k (None, ms') = Ok (None, ms2)) -> first_is (bind m k) L.
Proof.
  intros (r & ms' & E & Hr) Hk Hn. rewrite E. cbn [bind]. unfold first_is. destruct (head L) as [[e cs]|].
  - destruct Hr as [-> <-]. rewrite Hk. by eexists _, _.
  - subst r. destruct (Hn ms' E) as [ms2 ->]. by eexists _, _.
Qed.

Hypothesis small : (Z.of_nat (length src) < 2 ^ 63)%Z.

Definition denotes q (its : list item) : Prop := exists fuel l, sees q l /\ parse fuel l = Some its.

Definition kinds ms : list kind := map kind_of (caps ms).

Lemma flat_map_shift {A} (f : nat -> list A) s l :
  flat_map (fun i => f (s + i)) (map S l) = flat_map (fun i => f (s + 1 + i)) l.
Proof.
  induction l as [|i l IH]; [done|]. cbn [map flat_map]. rewrite IH. f_equal. f_equal. lia.
Qed.

Lemma denotes_le q its : denotes q its -> q <= length pat.
Proof. by intros (? & ? & [? _] & _). Qed.

Section Cases.
Variable rec : MatchState -> nat -> nat -> res outcome.
Variable p : nat.
Hypothesis rec_fine : forall ms s q, p < q <= length pat -> s <= length src -> ms_ok src s ms -> safe (fine src s ms) (rec ms s q).
Hypothesis rec_first : forall its ms s q, p < q -> denotes q its -> wf_items (kinds ms) its = true ->
  s <= length src -> ms_ok src s ms -> first_is (rec ms s q) (sem src its (caps ms) s).

Lemma kinds_same ms ms' : same ms ms' -> kinds ms' = kinds ms.
Proof. unfold kinds. by intros (_ & _ & ->). Qed.

Section Repeat.
Context (ep : nat) (t : chars) (its : list item).
Hypothesis Hp : p < ep < length pat.
Hypothesis Hsingle : forall c, singlematch pat c p ep = Ok (chars_in t c).
Hypothesis Hden : denotes (ep + 1) its.

Lemma down_first ms s i :
  wf_items (kinds ms) its = true -> ms_ok src s ms -> s + i <= length src ->
  first_is (expand_down rec ms s ep i) (flat_map (fun i => sem src its (caps ms) (s + i)) (rev (seq 0 (S i)))).
Proof.
  revert ms. induction i as [|i IH]; intros ms Hw Hm Hs;
    (assert (ms_ok src (s + 0) ms) by (eapply ms_ok_le; [|done]; lia) || idtac).
  - cbn. apply (first_or (fine src (s + 0) ms)); [apply rec_fine; [lia|lia|done]|apply rec_first; [lia|done..]|].
    intros ms' _. apply first_fail.
  - assert (ms_ok src (s + S i) ms) by (eapply ms_ok_le; [|done]; lia).
    rewrite seq_S, rev_app_distr. cbn [app rev flat_map expand_down Nat.add].
    apply (first_or (fine src (s + S i) ms)); [apply rec_fine; [lia|lia|done]|apply rec_first; [lia|done..]|].
    intros ms' Hsame. cbn [fine] in Hsame. destruct Hsame as (? & ? & Ec).
    rewrite <- Ec. apply IH; [by unfold kinds; rewrite Ec|by eapply same_ok|lia].
Qed.

Lemma greedy_first ms s :
  wf_items (kinds ms) its = true -> ms_ok src s ms -> s <= length src ->
  first_is (max_expand src pat rec ms s p ep)
    (flat_map (fun i => sem src its (caps ms) (s + i)) (rev (seq 0 (S (run t (drop s src)))))).
Proof.
  intros Hw Hm Hs. unfold max_expand. rewrite (count_run p ep t Hsingle) by lia. cbn [bind Nat.add].
  rewrite Nat.add_0_r. apply down_first; [done|done|].
  assert (forall l, run t l <= length l) as Hr.
  { intros l. induction l as [|c l IH]; cbn; [done|]. destruct (chars_in t c); lia. }
  specialize (Hr (drop s src)). rewrite length_drop in Hr. lia.
Qed.

Lemma lazy_first fuel ms s :
  wf_items (kinds ms) its = true -> ms_ok src s ms -> s <= length src -> length src - s < fuel ->
  first_is (loop fuel (min_step src pat rec p ep) (ms, s))
    (flat_map (fun i => sem src its (caps ms) (s + i)) (seq 0 (S (run t (drop s src))))).
Proof.
  revert ms s. induction fuel as [|fuel IH]; intros ms s Hw Hm Hs Hf; [lia|]. cbn [loop]. unfold min_step at 1.
  pose proof (rec_fine ms s (ep + 1) ltac:(lia) Hs Hm) as Hsafe.
  destruct (rec_first its ms s (ep + 1) ltac:(lia) Hden Hw Hs Hm) as (r & ms' & E & Hr).
  rewrite E in *. cbn [bind ends seq flat_map] in *. rewrite Nat.add_0_r.
  destruct (sem src its (caps ms) s) as [|[e cs] L] eqn:Es; cbn [head app] in *.
  - subst r. rewrite (single_at_test p ep t Hsingle). cbn [bind]. rewrite run_test.
    destruct (test t s) eqn:Et; [|by eexists _, _].
    assert (s < length src) by (unfold test in Et; destruct (src !! s) eqn:E'; [by eapply lookup_lt_Some|done]).
    cbn [fine] in Hsafe. pose proof Hsafe as (? & ? & Ec).
    rewrite <- fmap_S_seq. change (S <$> ?l) with (map S l). rewrite flat_map_shift, <- Ec.
    apply IH; [by rewrite (kinds_same _ _ Hsafe)|eapply ms_ok_le; [|by eapply same_ok]; lia|lia|lia].
  - destruct Hr as [-> <-]. by eexists _, _.
Qed.
End Repeat.

Lemma default_first ms s l t r l2 its fuel :
  sees p l -> parse_single l = Some (Single t r, l2) -> parse fuel l2 = Some its ->
  wf_items (kinds ms) its = true -> s <= length src -> ms_ok src s ms ->
  first_is (match_default src pat rec ms s p) (sem src (Single t r :: its) (caps ms) s).
Proof.
  intros Hl Hp Hits Hw Hs Hm. unfold parse_single in Hp.
  destruct (parse_chars l) as [[t' l1]|] eqn:Et; [|done]. cbn in Hp.
  destruct (parse_rep l1) as [r' l2'] eqn:Er. injection Hp as -> -> ->.
  destruct (parse_chars_ok p l t l1 Hl Et) as (ep & Hep & Hs1 & Hend & Hsingle).
  unfold match_default. rewrite Hend. cbn [bind]. rewrite (single_at_test p ep t Hsingle). cbn [bind].
  rewrite bind_read by apply Hs1. rewrite (sees_get0 _ _ Hs1).
  assert (test t s = true -> s < length src) as Hlt.
  { unfold test. destruct (src !! s) eqn:E; [|done]. intros _. by eapply lookup_lt_Some. }
  assert (forall q, sees q l2 -> denotes q its) as Hden by (intros q Hq; by exists fuel, l2).
  assert (s < length src -> ms_ok src (s + 1) ms) as Hm1 by (intros; eapply ms_ok_le; [|done]; lia).
  cbn [sem]. rewrite run_test.
  assert (forall c l', l1 = c :: l' -> ep < length pat /\ sees (ep + 1) l') as Hcons.
  { intros c l' ->. apply sees_cons in Hs1. tauto. }
  destruct l1 as [|c l1].
  { cbn in Er. injection Er as <- <-. cbn [get lookup list_lookup default]. cbn.
    destruct (test t s) eqn:E; cbn [Nat.eqb]; [|apply first_fail].
    apply rec_first; [lia|by apply Hden|done|specialize (Hlt eq_refl); lia|auto]. }
  destruct (Hcons c l1 eq_refl) as [Hep' Hs2]. cbn [parse_rep] in Er. change (get (c :: l1) 0) with c.
  destruct (c =z ch_quest); [|destruct (c =z ch_star); [|destruct (c =z ch_plus); [|destruct (c =z ch_dash)]]]; injection Er as <- <-.
  - specialize (Hden _ Hs2). destruct (test t s) eqn:E; cbn [Nat.eqb app].
    + specialize (Hlt eq_refl). apply (first_or (fine src (s + 1) ms)); [apply rec_fine; [lia|lia|auto]|apply rec_first; [lia|done|done|lia|auto]|].
      intros ms' Hsame. cbn [fine] in Hsame. pose proof Hsame as (_ & _ & Ec). rewrite <- Ec, Nat.add_0_r.
      apply rec_first; [lia|done|by rewrite (kinds_same _ _ Hsame)|done|by eapply same_ok].
    + rewrite Nat.add_0_r. apply rec_first; [lia|done..].
  - rewrite <- run_test. apply greedy_first; [lia|done|by apply Hden|done..].
  - destruct (test t s) eqn:E; [|apply first_fail]. specialize (Hlt eq_refl).
    rewrite <- fmap_S_seq. change (S <$> ?l) with (map S l). rewrite <- map_rev, flat_map_shift.
    apply greedy_first; [lia|done|by apply Hden|done|auto|lia].
  - rewrite <- run_test. apply lazy_first; [lia|done|by apply Hden|done..|lia].
  - destruct (test t s) eqn:E; cbn [Nat.eqb]; [|apply first_fail].
    apply rec_first; [lia|by apply Hden|done|specialize (Hlt eq_refl); lia|auto].
Qed.

(** ** Captures *)
Lemma start_first ms s q what its :
  p < q -> denotes q its -> what = CAP_UNFINISHED \/ what = CAP_POSITION ->
  length (kinds ms) < LUA_MAXCAPTURES -> wf_items (kinds ms ++ [kind_of (mkCapture s what)]) its = true ->
  s <= length src -> ms_ok src s ms ->
  first_is (start_capture rec ms s q what) (sem src its (caps ms ++ [mkCapture s what]) s).
Proof.
  intros Hq Hd Hwhat Hlen Hw Hs Hm. pose proof (mo_array _ _ _ Hm) as Ha. pose proof (mo_level _ _ _ Hm) as Hl.
  assert (length (kinds ms) = level ms) as Ek by (unfold kinds, caps; rewrite length_map, length_take; lia).
  unfold start_capture. rewrite (proj2 (Nat.leb_gt _ _)) by lia.
  set (ms1 := mkMS _ _). assert (caps ms1 = caps ms ++ [mkCapture s what]) as Ec by (apply caps_push; lia).
  rewrite <- Ec. apply first_undo; [|done|by eexists]. apply rec_first; [done|done| |done|].
  - unfold kinds. by rewrite Ec, map_app.
  - split; [cbn; lia|by cbn; rewrite length_insert|]. rewrite Ec. apply Forall_app. split; [apply Hm|].
    constructor; [|constructor]. split; cbn; [done|done|tauto].
Qed.

Lemma last_open_spec ks i :
  last_open ks = Some i -> ks !! i = Some KOpen /\ forall j, i < j -> ks !! j <> Some KOpen.
Proof.
  assert (forall ks, last_open ks = None -> forall j, ks !! j <> Some KOpen) as Hnone.
  { clear. intros ks. induction ks as [|k ks IH]; intros E j; cbn in *; [done|].
    destruct (last_open ks); [done|]. destruct (decide (k = KOpen)); [done|]. destruct j; cbn; [congruence|by apply IH]. }
  revert i. induction ks as [|k ks IH]; intros i E; cbn in E; [done|]. destruct (last_open ks) as [i'|] eqn:El.
  - injection E as <-. destruct (IH i' eq_refl) as [? Hj]. split; [done|]. intros [|j] ?; [lia|]. apply Hj. lia.
  - destruct (decide (k = KOpen)) as [->|]; [|done]. injection E as <-. split; [done|]. intros [|j] ?; [lia|]. exact (Hnone ks El j).
Qed.

Lemma kind_open c : kind_of c = KOpen <-> c_len c = CAP_UNFINISHED.
Proof.
  unfold kind_of. destruct (Z.eqb_spec (c_len c) CAP_UNFINISHED); [done|]. by destruct (_ =z _).
Qed.

Lemma to_close_first s ms l c lv :
  ms_ok src s ms -> l < lv <= level ms -> caps ms !! l = Some c -> c_len c = CAP_UNFINISHED ->
  (forall j c', l < j -> caps ms !! j = Some c' -> c_len c' <> CAP_UNFINISHED) -> capture_to_close ms lv = Ok l.
Proof.
  intros Hm Hl Hc Hu Hmax. induction lv as [|lv IH]; [lia|]. cbn [capture_to_close].
  destruct (cap_at_ok src s ms lv Hm) as (c' & -> & Hc' & _); [lia|]. cbn [bind].
  destruct (decide (lv = l)) as [->|].
  - assert (c' = c) as -> by congruence. by rewrite Hu.
  - rewrite (proj2 (Z.eqb_neq _ _)) by (eapply Hmax; [|done]; lia). apply IH. lia.
Qed.

Lemma end_first ms s q its l :
  p < q -> denotes q its -> last_open (kinds ms) = Some l -> wf_items (<[l := KDone]> (kinds ms)) its = true ->
  s <= length src -> ms_ok src s ms ->
  first_is (end_capture rec ms s q) (sem src (CloseCap :: its) (caps ms) s).
Proof.
  intros Hq Hd Hlast Hw Hs Hm. cbn [sem]. change (map kind_of (caps ms)) with (kinds ms). rewrite Hlast.
  apply last_open_spec in Hlast as [Hopen Hmax]. unfold kinds in Hopen. change (map kind_of (caps ms)) with (kind_of <$> caps ms) in Hopen.
  rewrite list_lookup_fmap in Hopen. destruct (caps ms !! l) as [c|] eqn:Hc; [|done]. injection Hopen as Hk.
  apply kind_open in Hk as Hu.
  assert (l < level ms) as Hlt.
  { apply lookup_lt_Some in Hc. unfold caps in Hc. rewrite length_take in Hc. lia. }
  unfold end_capture. rewrite (to_close_first s ms l c (level ms)); [|done|lia|done|done|].
  2: { intros j c' Hj Hc' Hu'. apply (Hmax j Hj). unfold kinds. change (map kind_of (caps ms)) with (kind_of <$> caps ms).
       rewrite list_lookup_fmap, Hc'. cbn. f_equal. by apply kind_open. }
  cbn [bind]. destruct (cap_at_ok src s ms l Hm Hlt) as (c' & E & Hc' & Hco). rewrite E. cbn [bind].
  assert (c' = c) as -> by congruence. pose proof (close_ok src s ms l c Hs Hm Hlt Hc Hu) as Hok.
  set (c2 := mkCapture _ _) in *. pose proof (rec_fine (set_cap ms l c2) s q ltac:(by pose proof (denotes_le _ _ Hd)) Hs Hok) as Hsafe.
  rewrite <- caps_set by done. apply first_undo; [|done|].
  - apply rec_first; [done|done| |done|done]. unfold kinds. rewrite caps_set by done.
    change (map kind_of ?x) with (kind_of <$> x). rewrite list_fmap_insert.
    assert (kind_of c2 = KDone) as ->; [|done]. pose proof (co_open _ _ _ Hco Hu). unfold kind_of, c2. cbn [c_len].
    unfold CAP_UNFINISHED, CAP_POSITION. by rewrite !(proj2 (Z.eqb_neq _ _)) by lia.
  - intros ms' E'. rewrite E' in Hsafe. cbn [ends fine] in Hsafe.
    destruct (set_same src ms ms' l c _ Hlt ltac:(destruct Hm; lia) Hc Hu Hsafe) as (c' & -> & ?). by eexists.
Qed.

Lemma mem_eq_src i j n :
  i + n <= length src -> j + n <= length src ->
  mem_eq src i j n = Ok (bool_decide (take n (drop i src) = take n (drop j src))).
Proof.
  intros Hi Hj. unfold mem_eq. rewrite !(proj2 (Nat.leb_le _ _)) by lia. cbn [andb].
  by rewrite !drop_app_le, !take_app_le by (rewrite ?length_drop; lia).
Qed.

Lemma match_capture_eq ms s d c :
  ms_ok src s ms -> s <= length src -> (49 <= d)%Z -> caps ms !! Z.to_nat (d - 49) = Some c -> kind_of c <> KOpen ->
  match_capture src ms s d =
  let n := Z.to_nat (c_len c) in
  Ok (if bool_decide (kind_of c = KDone /\ s + n <= length src /\ take n (drop (c_init c) src) = take n (drop s src))
      then Some (s + n) else None).
Proof.
  intros Hm Hs Hd Hc Hk. unfold match_capture, check_capture.
  assert (Z.to_nat (d - 49) < level ms) as Hlt.
  { apply lookup_lt_Some in Hc. unfold caps in Hc. rewrite length_take in Hc. lia. }
  rewrite (proj2 (Z.ltb_ge _ _)), (proj2 (Z.leb_gt _ _)) by lia. cbn [orb].
  destruct (cap_at_ok src s ms _ Hm Hlt) as (c' & -> & Hc' & Hco). cbn [bind]. assert (c' = c) as -> by congruence.
  rewrite kind_open in Hk. rewrite (proj2 (Z.eqb_neq _ _) Hk). cbn [bind].
  unfold cap_at at 1. rewrite <- caps_lookup, Hc by done. cbn [bind lift].
  destruct (co_len _ _ _ Hco) as [?|[Hp|[Hl1 Hl2]]]; [done| |].
  - rewrite Hp. change (u64 CAP_POSITION) with 18446744073709551614%Z. rewrite (proj2 (Z.leb_gt _ _)) by lia.
    rewrite bool_decide_false; [done|]. unfold kind_of. rewrite Hp. by intros [[=] _].
  - rewrite wrap_small by lia.
    assert (kind_of c = KDone) as Ek.
    { unfold kind_of, CAP_UNFINISHED, CAP_POSITION. by rewrite !(proj2 (Z.eqb_neq _ _)) by lia. }
    destruct (Z.leb_spec (c_len c) (Z.of_nat (length src - s))).
    + rewrite mem_eq_src by lia. cbn [bind]. f_equal. case_bool_decide as E1; case_bool_decide as E2; [done| | |done].
      * exfalso. apply E2. split_and!; [done|lia|done].
      * exfalso. apply E1, E2.
    + rewrite bool_decide_false; [done|]. lia.
Qed.

Lemma balance_closing x y fuel s cont :
  (0 < cont)%Z -> length src - s < fuel ->
  loop fuel (balance_step src x y) (s, cont) = Ok ((fun n => s + 1 + n) <$> closing x y (Z.to_nat cont) (drop (s + 1) src)).
Proof.
  revert s cont. induction fuel as [|fuel IH]; intros s cont Hc Hf; [lia|]. cbn [loop]. unfold balance_step at 1.
  rewrite (drop_src (s + 1)). destruct (Nat.ltb_spec (s + 1) (length src)) as [Hlt|Hge].
  - destruct (lookup_lt_is_Some_2 _ _ Hlt) as [c E]. rewrite E. unfold read. rewrite E. cbn [bind closing].
    assert (forall d o, (0 < d)%Z -> Z.to_nat d = o -> loop fuel (balance_step src x y) (s + 1, d) =
      Ok ((fun n => s + 1 + n) <$> (S <$> closing x y o (drop (s + 1 + 1) src)))) as Hnext.
    { intros d o Hd <-. rewrite IH by lia. f_equal. destruct (closing _ _ _ _); cbn; [f_equal; lia|done]. }
    destruct (c =z y); [|destruct (c =z x)].
    + destruct (Z.eqb_spec (cont - 1) 0) as [E'|E']; cbn [bind].
      * replace cont with 1%Z by lia. done.
      * rewrite (Hnext _ (Z.to_nat (cont - 1))) by lia.
        replace (Z.to_nat cont) with (S (S (Z.to_nat (cont - 2)))) by lia. do 4 f_equal. lia.
    + apply Hnext; lia.
    + by apply Hnext.
  - rewrite (proj2 (lookup_ge_None _ _)) by lia. done.
Qed.

Lemma matchbalance_eq s q x y :
  get pat q = x -> get pat (q + 1) = y -> x <> 0%Z -> y <> 0%Z -> q + 1 < length pat -> s <= length src ->
  matchbalance src pat s q = Ok (Nat.add s <$> balanced x y (drop s src)).
Proof.
  intros Ex Ey Hx Hy Hq Hs. unfold matchbalance. rewrite bind_read, Ex, (proj2 (Z.eqb_neq _ _) Hx) by lia.
  rewrite bind_read, Ey, (proj2 (Z.eqb_neq _ _) Hy) by lia. rewrite read_get by lia. cbn [bind].
  rewrite drop_src. unfold get. destruct (src !! s) as [c|] eqn:E; cbn [default from_option id balanced].
  - destruct (c =z x); cbn [negb]; [|reflexivity]. rewrite balance_closing by lia. change (Z.to_nat 1) with 1.
    f_equal. destruct (closing _ _ _ _); cbn; [f_equal; lia|done].
  - rewrite (proj2 (Z.eqb_neq 0 x)) by congruence. reflexivity.
Qed.

Lemma frontier_first ms s q l neg es r its fuel :
  p < q -> sees q (ch_lbr :: l) -> parse_bracket l = Some (neg, es, r) -> parse fuel r = Some its ->
  wf_items (kinds ms) its = true -> s <= length src -> ms_ok src s ms ->
  first_is (match_frontier src pat rec ms s q) (sem src (Frontier neg es :: its) (caps ms) s).
Proof.
  intros Hq Hl Hp Hits Hw Hs Hm. apply sees_cons in Hl as (E & Hlt & Hl). unfold match_frontier.
  rewrite bind_read, E by lia. cbn [negb ch_lbr Z.eqb Pos.eqb].
  destruct (parse_bracket_ok q l neg es r E Hlt Hl Hp) as (ec & Hec & Hr & -> & Hin). cbn [bind].
  rewrite Nat.add_sub. cbn [sem].
  assert ((if s =? 0 then Ok 0%Z else read src (s - 1)) = Ok (match s with O => 0%Z | S s' => get src s' end)) as ->.
  { destruct s as [|s]; [done|]. cbn [Nat.eqb]. rewrite read_get by lia. do 2 f_equal. lia. }
  cbn [bind]. rewrite Hin. cbn [bind]. destruct (bracket_in _ _ _); cbn [negb andb]; [apply first_fail|].
  rewrite bind_read_src by done. rewrite Hin. cbn [bind]. destruct (bracket_in _ _ _); [|apply first_fail].
  apply rec_first; [lia|by exists fuel, r|done..].
Qed.

(** ** Items *)
Lemma single_first ms s l i r its fuel :
  sees p l -> parse_single l = Some (i, r) -> parse fuel r = Some its -> wf_items (kinds ms) (i :: its) = true ->
  s <= length src -> ms_ok src s ms -> first_is (match_default src pat rec ms s p) (sem src (i :: its) (caps ms) s).
Proof.
  intros Hl Hp Hits Hw Hs Hm. assert (exists t rp, i = Single t rp) as (t & rp & ->).
  { unfold parse_single in Hp. destruct (parse_chars l) as [[t l1]|]; [|done]. cbn in Hp.
    destruct (parse_rep l1) as [rp l2]. injection Hp as <- _. eauto. }
  by eapply default_first.
Qed.

Lemma esc_first ms s l i r its fuel :
  sees p l -> get l 0 = L_ESC -> parse_esc l = Some (i, r) -> parse fuel r = Some its -> wf_items (kinds ms) (i :: its) = true ->
  s <= length src -> ms_ok src s ms -> first_is (match_esc src pat rec ms s p) (sem src (i :: its) (caps ms) s).
Proof.
  intros Hl Hc Hp Hits Hw Hs Hm. destruct l as [|c [|d l2]]; [done|done|]. pose proof Hl as Hl0.
  apply sees_cons in Hl as (E & Hlt & Hl). apply sees_cons in Hl as (Ed & Hlt2 & Hl). rewrite <- Nat.add_assoc in Hl. cbn [Nat.add] in Hl.
  unfold match_esc. rewrite bind_read, Ed by lia. cbn [parse_esc] in Hp.
  assert (forall e q, s <= e <= length src -> p < q -> sees q r -> wf_items (kinds ms) its = true ->
    first_is (rec ms e q) (sem src its (caps ms) e)) as Hnext.
  { intros e q He Hq Hr Hw'. apply rec_first; [done|by exists fuel, r|done|lia|]. eapply ms_ok_le; [|done]. lia. }
  destruct (d =z 98); [|destruct (d =z 102); [|destruct (isdigit d) eqn:Edig]].
  - destruct l2 as [|x [|y l4]]; [done|done|]. destruct ((x =z 0) || (y =z 0)) eqn:Exy; [done|]. zbool.
    injection Hp as <- <-. apply sees_cons in Hl as (Ex & Hlt3 & Hl). apply sees_cons in Hl as (Ey & Hlt4 & Hl).
    rewrite <- Nat.add_assoc in Hl. cbn [Nat.add] in Hl.
    rewrite (matchbalance_eq s (p + 2) x y) by first [done|lia]. cbn [bind sem].
    pose proof (balance_safe src pat s (p + 2) ltac:(lia) Hs) as Hb. rewrite (matchbalance_eq s (p + 2) x y) in Hb by first [done|lia].
    destruct (balanced x y (drop s src)) as [n|]; [|apply first_fail]. cbn in Hb |- *.
    replace (p + 4) with (p + (2 + 2)) by lia. apply Hnext; [lia|lia|by rewrite Nat.add_assoc|done].
  - destruct l2 as [|b l3]; [done|]. destruct (Z.eqb_spec b ch_lbr) as [->|]; [|done].
    destruct (parse_bracket l3) as [[[neg es] r']|] eqn:Ep; [|done]. injection Hp as <- <-.
    eapply frontier_first; [|exact Hl|done|done|done|done|done]. lia.
  - injection Hp as <- <-. cbn [wf_items] in Hw. apply andb_true_iff in Hw as [[Hd Hk]%andb_true_iff Hw]. zbool.
    unfold kinds in Hk. change (map kind_of (caps ms)) with (kind_of <$> caps ms) in Hk. rewrite list_lookup_fmap in Hk.
    destruct (caps ms !! Z.to_nat (d - 49)) as [c'|] eqn:Hc'; [|done]. cbn in Hk.
    assert (kind_of c' <> KOpen) by (intros Ek; rewrite Ek in Hk; done).
    rewrite (match_capture_eq ms s d c') by first [done|lia].
    cbn [bind sem]. rewrite Hc'. cbv zeta. case_bool_decide as Hb; [|apply first_fail].
    apply Hnext; [lia|lia|done|done].
  - by eapply single_first.
Qed.

Lemma item_first ms s l i r its fuel :
  sees p l -> get l 0 <> 0%Z -> parse_item l = Some (i, r) -> parse fuel r = Some its -> wf_items (kinds ms) (i :: its) = true ->
  s <= length src -> ms_ok src s ms -> first_is (match_case src pat rec ms s p) (sem src (i :: its) (caps ms) s).
Proof.
  intros Hl Hn Hp Hits Hw Hs Hm. destruct l as [|c l1]; [done|]. pose proof Hl as Hl0.
  apply sees_cons in Hl as (E & Hlt & Hl). unfold match_case. rewrite bind_read, E by lia. cbn [parse_item] in Hp.
  change (get (c :: l1) 0) with c in Hn. pose proof (sees_get0 _ _ Hl) as E1.
  assert (forall q, sees q r -> denotes q its) as Hden by (intros q Hq; by exists fuel, r).
  destruct (c =z ch_lpar); [|destruct (c =z ch_rpar); [|destruct (Z.eqb_spec c L_ESC) as [->|]]].
  - rewrite bind_read, E1 by lia. destruct l1 as [|d l2]; change (get (d :: l2) 0) with d || change (get [] 0) with 0%Z.
    + cbn [ch_rpar Z.eqb]. injection Hp as <- <-. cbn [wf_items] in Hw. apply andb_true_iff in Hw as [?%Nat.ltb_lt Hw].
      apply start_first; [lia|by apply Hden|by left|done|done|done|done].
    + destruct (d =z ch_rpar); injection Hp as <- <-; cbn [wf_items] in Hw; apply andb_true_iff in Hw as [?%Nat.ltb_lt Hw].
      * apply sees_cons in Hl as (_ & _ & Hl). rewrite <- Nat.add_assoc in Hl.
        apply start_first; [lia|by apply Hden|by right|done|done|done|done].
      * apply start_first; [lia|by apply Hden|by left|done|done|done|done].
  - injection Hp as <- <-. cbn [wf_items] in Hw. destruct (last_open (kinds ms)) as [k|] eqn:Ek; [|done].
    eapply end_first; [lia|by apply Hden|done|done|done|done].
  - by eapply esc_first.
  - rewrite (proj2 (Z.eqb_neq _ _) Hn). destruct (c =z ch_dollar); cbn [andb] in Hp; [|by eapply single_first].
    rewrite bind_read, E1 by lia. destruct (get l1 0 =z 0) eqn:E0; [|by eapply single_first].
    injection Hp as <- <-. assert (its = []) as -> by (destruct fuel; cbn [parse] in Hits; [done|]; rewrite E0 in Hits; congruence).
    cbn [sem]. destruct (s =? length src); [by eexists _, _|apply first_fail].
Qed.
End Cases.

Lemma do_match_first fuel its ms s q :
  length pat - q < fuel -> denotes q its -> wf_items (kinds ms) its = true -> s <= length src -> ms_ok src s ms ->
  first_is (do_match src pat fuel ms s q) (sem src its (caps ms) s).
Proof.
  revert its ms s q. induction fuel as [|fuel IH]; intros its ms s q Hf Hd Hw Hs Hm; [lia|].
  pose proof (denotes_le _ _ Hd) as Hq. destruct Hd as ([|n] & l & Hl & Hp); [done|]. cbn [parse do_match] in *.
  destruct (Z.eqb_spec (get l 0) 0) as [E|E].
  - injection Hp as <-. unfold match_case. rewrite bind_read, (sees_get0 _ _ Hl), E by lia. cbn. by eexists _, _.
  - destruct (parse_item l) as [[i r]|] eqn:Ei; [|done]. cbn in Hp. destruct (parse n r) as [its'|] eqn:Er; [|done].
    injection Hp as <-. eapply (item_first _ q); [| |done|done|done|done|done|done|done].
    + intros ms' s' q' ? ? ?. apply do_match_safe; [done|lia|lia|done|done].
    + intros its'' ms' s' q' ? Hd' ? ? ?. apply IH; [|done..]. pose proof (denotes_le _ _ Hd'). lia.
Qed.
End Refine.
