(* ===== verification/LuaStrLib.v ===== *)
(** The string library of Lua (lua/src/lstrlib.c): substrings, search,
    matching and substitution. *)
From stdpp Require Import base list.
From Stdlib Require Import ZArith Lia.
From S2P Require Import Prelude LuaStrMatch LuaStrSpec LuaStrRefine.
Open Scope Z_scope.

(** The Lua values these functions push; other types are one constructor. *)
Inductive Value := VNil | VBool (b : bool) | VInt (n : Z) | VStr (b : bytes) | VOther.

(** * Characters and substrings *)

Definition str_len (s : bytes) : Z := Z.of_nat (length s).

Definition posrelat (pos : Z) (len : nat) : Z := if 0 <=? pos then pos else Z.of_nat len + pos + 1.

Definition str_sub (s : bytes) (i j : Z) : bytes :=
  let l := length s in
  let start := posrelat i l in
  let end_ := posrelat j l in
  let start := if start <? 1 then 1 else start in
  let end_ := if Z.of_nat l <? end_ then Z.of_nat l else end_ in
  if start <=? end_ then take (Z.to_nat (end_ - start + 1)) (drop (Z.to_nat (start - 1)) s) else [].

(** [while (l--) luaL_addchar(&b, s[l])] *)
Fixpoint reverse_loop (s : bytes) (l : nat) : bytes :=
  match l with O => [] | S l => get s l :: reverse_loop s l end.
Definition str_reverse (s : bytes) : bytes := reverse_loop s (length s).
Definition str_lower (s : bytes) : bytes := map tolower s.
Definition str_upper (s : bytes) : bytes := map toupper s.

Fixpoint rep_loop (s : bytes) (n : nat) : bytes := match n with O => [] | S n => s ++ rep_loop s n end.
Definition str_rep (s : bytes) (n : Z) : bytes := rep_loop s (Z.to_nat n).

(** [%q] of string.format. *)
Definition quote_char (c : Z) : bytes :=
  if (c =? 34) || (c =? 92) || (c =? 10) then [92; c]
  else if c =? 13 then lit "\r"
  else if c =? 0 then lit "\000"
  else [c].
Fixpoint quote_loop (s : bytes) (b : bytes) : bytes :=
  match s with
  | [] => b
  | c :: s => quote_loop s (b ++ quote_char c)
  end.
Definition addquoted (s : bytes) (b : bytes) : bytes := quote_loop s (b ++ [34]) ++ [34].

(** [(size_t)pose > l] is an unsigned comparison. *)
Definition str_byte (s : bytes) (i : Z) (j : option Z) : res (list Value) :=
  let l := length s in
  let posi := posrelat i l in
  let pose := posrelat (match j with Some j => j | None => posi end) l in
  let posi := if posi <=? 0 then 1 else posi in
  let pose := if Z.of_nat l <? u64 pose then Z.of_nat l else pose in
  if pose <? posi then Ok []
  else
    let n := s32 (pose - posi + 1) in
    if posi + n <=? pose then Err "string slice too long"
    else Ok (map (fun c => VInt (u8 c)) (take (Z.to_nat n) (drop (Z.to_nat (posi - 1)) s))).

Fixpoint str_char (args : list Z) : res bytes :=
  match args with
  | [] => Ok []
  | c :: args => if u8 c =? c then b <- str_char args; Ok (u8 c :: b) else Err "invalid value"
  end.

(** * Plain search *)

(** memchr on the [n] bytes from [from] on *)
Fixpoint memchr (l : bytes) (c : Z) (n from : nat) : option nat :=
  match n with
  | O => None
  | S n => if get l from =? c then Some from else memchr l c n (S from)
  end.

Definition lmemfind_step (src s2 : bytes) (c0 : Z) (st : nat * nat) : res (nat * nat + option nat) :=
  let '(s1, l1) := st in
  if (0 <? l1)%nat then
    match memchr src c0 l1 s1 with
    | None => Ok (inr None)
    | Some init =>
        let init := S init in
        if bool_decide (take (length s2) (drop init src) = s2) then Ok (inr (Some (init - 1)%nat))
        else Ok (inl (init, (l1 - (init - s1))%nat))
    end
  else Ok (inr None).

(** The index in [src] of the first occurrence of [s2] from [s1] on. *)
Definition lmemfind (src : bytes) (s1 : nat) (s2 : bytes) : res (option nat) :=
  let l1 := (length src - s1)%nat in
  match s2 with
  | [] => Ok (Some s1)
  | c0 :: s2 =>
      if (l1 <? S (length s2))%nat then Ok None
      else loop (S (length src)) (lmemfind_step src s2 c0) (s1, (l1 - length s2)%nat)
  end.

Definition SPECIALS : bytes := lit "^$*+?.([%-".
Definition is_special (c : Z) : bool := bool_decide (c ∈ SPECIALS).
(** [strpbrk(p, SPECIALS) == NULL] *)
Fixpoint no_specials (p : bytes) : bool :=
  match p with [] => true | c :: p => if c =? 0 then true else negb (is_special c) && no_specials p end.

(** * Captures *)
Section Lib.
Variables (src pat : bytes).
(** What the automatic variable [ms] holds before it is used. *)
Variable junk : list Capture.
Implicit Types (ms : MatchState) (s e : nat).

Definition slice s (n : nat) : bytes := take n (drop s src).

Definition push_onecapture ms (i : nat) s e : res Value :=
  if (level ms <=? i)%nat then
    if (i =? 0)%nat then Ok (VStr (slice s (e - s))) else Err "invalid capture index"
  else
    c <- cap_at ms i;
    if c_len c =? CAP_UNFINISHED then Err "unfinished capture"
    else if c_len c =? CAP_POSITION then Ok (VInt (Z.of_nat (c_init c) + 1))
    else Ok (VStr (slice (c_init c) (Z.to_nat (c_len c)))).

Fixpoint push_loop ms s e (n i : nat) : res (list Value) :=
  match n with
  | O => Ok []
  | S n => v <- push_onecapture ms i s e; vs <- push_loop ms s e n (S i); Ok (v :: vs)
  end.
(** [whole] is the match, NULL for string.find. *)
Definition push_captures ms (whole : option (nat * nat)) : res (list Value) :=
  let '(s, e) := match whole with Some se => se | None => (O, O) end in
  let nlevels := if (level ms =? 0)%nat && match whole with Some _ => true | None => false end then 1%nat else level ms in
  push_loop ms s e nlevels 0.

Definition anchored : bool := get pat 0 =? ch_caret.
Definition pat_start : nat := if anchored then 1 else 0.

(** * Search *)
Definition find_step (find : bool) (st : list Capture * nat) : res (list Capture * nat + list Value) :=
  let '(cap, s1) := st in
  '(r, ms) <- match_ src pat (mkMS 0 cap) s1 pat_start;
  match r with
  | Some e =>
      if find then vs <- push_captures ms None; Ok (inr (VInt (Z.of_nat s1 + 1) :: VInt (Z.of_nat e) :: vs))
      else vs <- push_captures ms (Some (s1, e)); Ok (inr vs)
  | None =>
      if (s1 <? length src)%nat && negb anchored then Ok (inl (capture ms, S s1)) else Ok (inr [VNil])
  end.

Definition str_find_aux (find : bool) (init : Z) (plain : bool) : res (list Value) :=
  let init := posrelat init (length src) - 1 in
  let init := if init <? 0 then O else if Z.of_nat (length src) <? init then length src else Z.to_nat init in
  if find && (plain || no_specials pat) then
    s2 <- lmemfind src init pat;
    match s2 with
    | Some s2 => Ok [VInt (Z.of_nat s2 + 1); VInt (Z.of_nat s2 + Z.of_nat (length pat))]
    | None => Ok [VNil]
    end
  else loop (S (S (length src))) (find_step find) (junk, init).

Definition str_find (init : Z) (plain : bool) : res (list Value) := str_find_aux true init plain.
Definition str_match (init : Z) : res (list Value) := str_find_aux false init false.

(** * gmatch: one call of the iterator, on its third upvalue *)
Definition gmatch_step (st : list Capture * nat) : res (list Capture * nat + option (list Value * nat)) :=
  let '(cap, s) := st in
  if (s <=? length src)%nat then
    '(r, ms) <- match_ src pat (mkMS 0 cap) s 0;
    match r with
    | Some e =>
        let newstart := if (e =? s)%nat then S e else e in
        vs <- push_captures ms (Some (s, e)); Ok (inr (Some (vs, newstart)))
    | None => Ok (inl (capture ms, S s))
    end
  else Ok (inr None).
Definition gmatch_aux (start : nat) : res (option (list Value * nat)) :=
  loop (S (S (length src))) gmatch_step (junk, start).

(** * gsub *)

(** The third argument: a string (or number), a function, a table, or anything
    else.  A call and an index operation are functions on values. *)
Inductive Repl :=
  | RString (news : bytes)
  | RFunction (f : list Value -> Value)
  | RTable (t : Value -> Value)
  | ROther.
(** [lua_number2str] on the integers of position captures *)
Variable number2str : Z -> bytes.

(** [luaL_addvalue] *)
Definition value_text (v : Value) : bytes :=
  match v with VStr b => b | VInt n => number2str n | _ => [] end.

Fixpoint add_s ms s e (news : bytes) : res bytes :=
  match news with
  | [] => Ok []
  | c :: news =>
      if negb (c =? L_ESC) then b <- add_s ms s e news; Ok (c :: b)
      else
        match news with
        | [] => Ok [0]             (** the terminating zero is added *)
        | d :: news =>
            if negb (isdigit d) then b <- add_s ms s e news; Ok (d :: b)
            else if d =? 48 then b <- add_s ms s e news; Ok (slice s (e - s) ++ b)
            else
              v <- push_onecapture ms (Z.to_nat (d - 49)) s e;
              b <- add_s ms s e news; Ok (value_text v ++ b)
        end
  end.

Definition add_value ms s e (repl : Repl) : res bytes :=
  let result v :=
    match v with
    | VNil | VBool false => Ok (slice s (e - s))
    | VStr _ | VInt _ => Ok (value_text v)
    | _ => Err "invalid replacement value"
    end in
  match repl with
  | RString news => add_s ms s e news
  | RFunction f => vs <- push_captures ms (Some (s, e)); result (f vs)
  | RTable t => v <- push_onecapture ms 0 s e; result (t v)
  | ROther => Err "string/function/table expected"
  end.

(** One turn of the loop, on the position, the count and the buffer. *)
Definition gsub_step (repl : Repl) (max_s : Z) (st : list Capture * nat * Z * bytes)
    : res (list Capture * nat * Z * bytes + nat * Z * bytes) :=
  let '(cap, s, n, b) := st in
  if n <? max_s then
    '(r, ms) <- match_ src pat (mkMS 0 cap) s pat_start;
    nb <- match r with
          | Some e => v <- add_value ms s e repl; Ok (n + 1, b ++ v)
          | None => Ok (n, b)
          end;
    let '(n, b) := nb in
    let next :=
      match r with
      | Some e => if (s <? e)%nat then Some (e, b)
                  else if (s <? length src)%nat then Some (S s, b ++ [get src s]) else None
      | None => if (s <? length src)%nat then Some (S s, b ++ [get src s]) else None
      end in
    match next with
    | Some (s, b) => Ok (if anchored then inr (s, n, b) else inl (capture ms, s, n, b))
    | None => Ok (inr (s, n, b))
    end
  else Ok (inr (s, n, b)).

Definition str_gsub (repl : Repl) (max_s : option Z) : res (bytes * Z) :=
  let max_s := match max_s with Some m => m | None => s32 (Z.of_nat (length src) + 1) end in
  '(s, n, b) <- loop (S (S (length src))) (gsub_step repl max_s) (junk, O, 0, []);
  Ok (b ++ drop s src, n).
End Lib.

(** * Specifications *)

(** The captures of a match as Lua values. *)
Definition cap_value (src : bytes) (c : Capture) : Value :=
  if decide (kind_of c = KPos) then VInt (Z.of_nat (c_init c) + 1)
  else VStr (slice src (c_init c) (Z.to_nat (c_len c))).
Definition cap_values (src : bytes) (cs : list Capture) (s e : nat) : list Value :=
  match cs with [] => [VStr (slice src s (e - s))] | _ => map (cap_value src) cs end.

(** The first match at the first position that has one. *)
Definition leftmost (src : bytes) (its : list item) (starts : list nat) : option (nat * found) :=
  head (flat_map (fun s => match sem src its [] s with [] => [] | f :: _ => [(s, f)] end) starts).

Definition find_result (src : bytes) (find : bool) (m : option (nat * found)) : list Value :=
  match m with
  | None => [VNil]
  | Some (s, (e, cs)) =>
      if find then VInt (Z.of_nat s + 1) :: VInt (Z.of_nat e) :: map (cap_value src) cs
      else cap_values src cs s e
  end.

Section Proofs.
Context (src pat : bytes).
Hypothesis small : Z.of_nat (length src) < 2 ^ 63.
Local Open Scope nat_scope.

Definition before s (cs : list Capture) : Prop := Forall (fun c => c_init c <= s) cs.

Lemma before_le s s' cs : s <= s' -> before s cs -> before s' cs.
Proof. intros Hs Hb. eapply Forall_impl; [exact Hb|]. cbn. lia. Qed.

Definition all_closed (cs : list Capture) : Prop := Forall (fun c => kind_of c <> KOpen) cs.

Lemma closed_kind c s : c_init c <= s -> kind_of (mkCapture (c_init c) (Z.of_nat s - Z.of_nat (c_init c))) = KDone.
Proof.
  intros Hc. unfold kind_of, CAP_UNFINISHED, CAP_POSITION. cbn [c_len].
  by rewrite !(proj2 (Z.eqb_neq _ _)) by lia.
Qed.

(** No capture is left open by a pattern with a meaning. *)
Lemma sem_closed its cs s e cs' :
  wf_items (map kind_of cs) its = true -> before s cs -> (e, cs') ∈ sem src its cs s -> all_closed cs'.
Proof.
  revert cs s. induction its as [|i its IH]; intros cs s Hw Hb Hin.
  - cbn in Hw, Hin. apply list_elem_of_singleton in Hin as [= <- <-]. apply negb_true_iff in Hw.
    apply Forall_forall. intros c Hc Hk. enough (existsb (fun k => bool_decide (k = KOpen)) (map kind_of cs') = true) by congruence.
    apply existsb_exists. exists (kind_of c). split; [|by apply bool_decide_eq_true].
    apply in_map. by apply list_elem_of_In.
  - assert (forall n, wf_items (map kind_of cs) its = true -> (e, cs') ∈ sem src its cs (s + n) -> all_closed cs') as Hone.
    { intros n Hw' Hl. eapply IH; [done| |done]. eapply before_le; [|done]. lia. }
    assert (forall l, wf_items (map kind_of cs) its = true ->
      (e, cs') ∈ flat_map (fun i => sem src its cs (s + i)) l -> all_closed cs') as Hmany.
    { intros l Hw' Hl. apply list_elem_of_In, in_flat_map in Hl as (k & _ & Hk%list_elem_of_In). by eapply Hone. }
    assert (forall what, before s (cs ++ [mkCapture s what])) as Hpush.
    { intros what. apply Forall_app. split; [done|]. by repeat constructor. }
    pose proof (not_elem_of_nil (e, cs')) as Hnil.
    destruct i as [t r| | | |x y|neg es|d|]; cbn [sem wf_items] in *.
    + destruct r; [| |by eapply Hmany..].
      * destruct (_ =? 0); [done|by eapply Hone].
      * apply elem_of_app in Hin as [Hin|Hin]; [destruct (_ =? 0); [done|]|]; by eapply Hone.
    + apply andb_true_iff in Hw as [_ Hw]. eapply IH; [|apply Hpush|exact Hin]. by rewrite map_app.
    + apply andb_true_iff in Hw as [_ Hw]. eapply IH; [|apply Hpush|exact Hin]. by rewrite map_app.
    + destruct (last_open (map kind_of cs)) as [l|] eqn:El; [|done]. destruct (cs !! l) as [c|] eqn:Ec; [|done].
      pose proof (Forall_lookup_1 _ _ _ _ Hb Ec) as Hc. eapply IH; [| |exact Hin].
      * change (map kind_of ?x) with (kind_of <$> x). by rewrite list_fmap_insert, closed_kind.
      * by apply Forall_insert.
    + destruct (balanced _ _ _); [by eapply Hone|done].
    + destruct (_ && _); [by eapply IH|done].
    + apply andb_true_iff in Hw as [_ Hw]. destruct (cs !! _); [|done]. case_bool_decide; [by eapply Hone|done].
    + destruct (_ =? _); [by eapply IH|done].
Qed.

(** ** Captures as values *)
Lemma push_one s e ms i c :
  level ms <= length (capture ms) -> caps ms !! i = Some c -> kind_of c <> KOpen ->
  push_onecapture src ms i s e = Ok (cap_value src c).
Proof.
  intros Hl Hc Hk. assert (i < level ms) as Hi.
  { apply lookup_lt_Some in Hc. unfold caps in Hc. rewrite length_take in Hc. lia. }
  unfold push_onecapture. rewrite (proj2 (Nat.leb_gt _ _)) by lia. unfold cap_at.
  rewrite <- caps_lookup, Hc by done. cbn [lift bind]. unfold cap_value, kind_of in *.
  destruct (c_len c =? CAP_UNFINISHED)%Z; [done|]. by destruct (c_len c =? CAP_POSITION)%Z.
Qed.

Lemma push_all s e ms i :
  level ms <= length (capture ms) -> all_closed (caps ms) -> i <= level ms ->
  push_loop src ms s e (level ms - i) i = Ok (map (cap_value src) (drop i (caps ms))).
Proof.
  intros Hl Hc Hi. remember (level ms - i) as n eqn:En. revert i Hi En. induction n as [|n IH]; intros i Hi En; cbn [push_loop].
  - rewrite drop_ge; [done|]. unfold caps. rewrite length_take. lia.
  - destruct (lookup_lt_is_Some_2 (caps ms) i) as [c E]; [unfold caps; rewrite length_take; lia|].
    rewrite (push_one s e ms i c Hl E) by exact (Forall_lookup_1 _ _ _ _ Hc E). cbn [bind].
    rewrite IH by lia. cbn [bind]. by rewrite (drop_S _ _ _ E).
Qed.

Lemma push_captures_ok ms (whole : option (nat * nat)) :
  level ms <= length (capture ms) -> all_closed (caps ms) ->
  push_captures src ms whole =
  Ok (match whole with None => map (cap_value src) (caps ms) | Some (s, e) => cap_values src (caps ms) s e end).
Proof.
  intros Hl Hc. assert (length (caps ms) = level ms) as El by (unfold caps; rewrite length_take; lia).
  pose proof (fun s e => push_all s e ms 0 Hl Hc ltac:(lia)) as Ha. rewrite Nat.sub_0_r in Ha. setoid_rewrite drop_0 in Ha.
  unfold push_captures. destruct whole as [[s e]|]; [|by rewrite andb_false_r, Ha]. rewrite andb_true_r.
  unfold cap_values. destruct (Nat.eqb_spec (level ms) 0) as [E|E].
  - destruct (caps ms); [|cbn in El; lia]. cbn [push_loop]. unfold push_onecapture. by rewrite E.
  - rewrite Ha. destruct (caps ms); [cbn in El; lia|done].
Qed.

(** ** The first match *)
Lemma ms0_ok cap s : length cap = LUA_MAXCAPTURES -> ms_ok src s (mkMS 0 cap).
Proof. intros Hc. split; cbn; [lia|done|constructor]. Qed.

Lemma match_safe cap s q :
  length cap = LUA_MAXCAPTURES -> s <= length src -> q <= length pat ->
  safe (fine src s (mkMS 0 cap)) (match_ src pat (mkMS 0 cap) s q).
Proof. intros. apply do_match_safe; [done|lia|done|done|by apply ms0_ok]. Qed.

Lemma match_first cap s q its :
  length cap = LUA_MAXCAPTURES -> s <= length src -> q <= length pat -> meaning (drop q pat) = Some its ->
  first_is (match_ src pat (mkMS 0 cap) s q) (sem src its [] s).
Proof.
  intros Hc Hs Hq Hm. unfold meaning in Hm. destruct (parse_pattern (drop q pat)) as [its'|] eqn:Ep; [|done]. cbn in Hm.
  destruct (wf_items [] its') eqn:Ew; [|done]. injection Hm as ->.
  apply (do_match_first src pat small _ its (mkMS 0 cap)); [lia|by exists (S (length (drop q pat))), (drop q pat)|done|done|by apply ms0_ok].
Qed.

Lemma meaning_closed q its s e cs :
  meaning (drop q pat) = Some its -> (e, cs) ∈ sem src its [] s -> all_closed cs.
Proof.
  unfold meaning. destruct (parse_pattern (drop q pat)) as [its'|]; [|done]. cbn.
  destruct (wf_items [] its') eqn:Ew; [|done]. intros [= ->]. apply sem_closed; [done|constructor].
Qed.

Lemma pat_start_le : pat_start pat <= length pat.
Proof.
  unfold pat_start, anchored. destruct (Z.eqb_spec (get pat 0) ch_caret) as [E|]; [|lia].
  pose proof (get_inside pat 0 _ E ltac:(done)). lia.
Qed.

Lemma find_loop find its cap s fuel :
  meaning (drop (pat_start pat) pat) = Some its -> length cap = LUA_MAXCAPTURES -> s <= length src -> length src - s < fuel ->
  loop fuel (find_step src pat find) (cap, s) =
  Ok (find_result src find (leftmost src its (if anchored pat then [s] else seq s (S (length src - s))))).
Proof.
  intros Hm. revert cap s. induction fuel as [|fuel IH]; intros cap s Hc Hs Hf; [lia|]. cbn [loop]. unfold find_step at 1.
  pose proof (match_safe cap s _ Hc Hs pat_start_le) as Hsafe.
  destruct (match_first cap s _ its Hc Hs pat_start_le Hm) as (r & ms & E & Hr). rewrite E in *. cbn [bind ends] in *.
  assert (leftmost src its (if anchored pat then [s] else seq s (S (length src - s))) =
    match sem src its [] s with
    | f :: _ => Some (s, f)
    | [] => if anchored pat then None else leftmost src its (seq (S s) (length src - s))
    end) as ->.
  { unfold leftmost. destruct (anchored pat); cbn [seq flat_map app]; destruct (sem src its [] s); done. }
  destruct (sem src its [] s) as [|[e cs] L] eqn:Es; cbn [head] in Hr.
  - subst r. cbn [fine] in Hsafe. destruct Hsafe as (_ & El & _). cbn in El.
    destruct (Nat.ltb_spec s (length src)) as [Hlt|Hge], (anchored pat) eqn:Ea; cbn [negb andb bind]; [done| |done|].
    + rewrite IH by lia. replace (length src - s) with (S (length src - S s)) by lia. done.
    + replace (length src - s) with 0 by lia. done.
  - destruct Hr as [-> <-]. cbn [fine] in Hsafe. destruct Hsafe as [? [Hl Ha _]].
    assert (all_closed (caps ms)) as Hcl by (eapply meaning_closed; [done|rewrite Es; left]).
    destruct find; rewrite push_captures_ok by (done || lia); done.
Qed.
End Proofs.

(** C36: the matcher ends on every subject and every pattern, malformed ones
    included: it returns NULL or an end position within the subject, or raises
    one of its errors, and it never reads outside the two strings. *)
Theorem match_in_bounds src pat cap s q :
  Z.of_nat (length src) < 2 ^ 63 -> length cap = LUA_MAXCAPTURES -> (s <= length src)%nat -> (q <= length pat)%nat ->
  ends (fun e => e <> oob) (fun r => match r.1 with Some e => (s <= e <= length src)%nat | None => True end) (match_ src pat (mkMS 0 cap) s q).
Proof.
  intros. eapply ends_weaken; [by apply match_safe|]. intros [[e|] ms]; [|done]. cbn. tauto.
Qed.

(** C12: for a pattern with a meaning, the matcher returns the end and the
    captures of the first match of the reference semantics, or NULL when there
    is none: greedy, lazy and optional items are tried in the documented order
    and backtracking forgets nothing. *)
Theorem match_is_first src pat cap s its :
  Z.of_nat (length src) < 2 ^ 63 -> length cap = LUA_MAXCAPTURES -> (s <= length src)%nat -> meaning pat = Some its ->
  exists r ms, match_ src pat (mkMS 0 cap) s 0 = Ok (r, ms) /\
    match head (sem src its [] s) with
    | Some (e, cs) => r = Some e /\ caps ms = cs
    | None => r = None
    end.
Proof. intros. apply match_first; [done|done|done|lia|done]. Qed.

(** C37: string.find and string.match with a pattern return the captures of the
    first match at the leftmost position from [init] on that has one, or nil; an
    anchored pattern is tried at one position only. *)
Theorem find_leftmost src pat junk its find init :
  Z.of_nat (length src) < 2 ^ 63 -> length junk = LUA_MAXCAPTURES ->
  meaning (drop (pat_start pat) pat) = Some its ->
  find = false \/ no_specials pat = false -> 1 <= init <= Z.of_nat (length src) + 1 ->
  str_find_aux src pat junk find init false =
  Ok (find_result src find (leftmost src its
    (if anchored pat then [Z.to_nat (init - 1)] else seq (Z.to_nat (init - 1)) (S (length src - Z.to_nat (init - 1)))))).
Proof.
  intros Hs Hj Hm Hf Hi. unfold str_find_aux, posrelat. rewrite (proj2 (Z.leb_le 0 init)) by lia.
  rewrite (proj2 (Z.ltb_ge (init - 1) 0)), (proj2 (Z.ltb_ge (Z.of_nat (length src)) (init - 1))) by lia.
  assert (find && (false || no_specials pat) = false) as -> by (destruct Hf as [->| ->]; [done|apply andb_false_r]).
  apply find_loop; [done|done|done|lia|lia].
Qed.

(** ** Plain search *)
Section Plain.
Context (src : bytes) (c0 : Z) (s2 : bytes).
Local Open Scope nat_scope.

Definition occurs (i : nat) : Prop := take (length (c0 :: s2)) (drop i src) = c0 :: s2.

Lemma memchr_spec c n from :
  match memchr src c n from with
  | Some i => from <= i < from + n /\ get src i = c /\ forall j, from <= j < i -> get src j <> c
  | None => forall j, from <= j < from + n -> get src j <> c
  end.
Proof.
  revert from. induction n as [|n IH]; intros from; cbn [memchr]; [lia|]. destruct (Z.eqb_spec (get src from) c) as [E|E].
  - split_and!; [lia|lia|done|lia].
  - specialize (IH (S from)). destruct (memchr src c n (S from)) as [i|].
    + destruct IH as (? & ? & Hj). split_and!; [lia|lia|done|]. intros j Hij. destruct (decide (j = from)) as [->|]; [done|apply Hj; lia].
    + intros j Hij. destruct (decide (j = from)) as [->|]; [done|apply IH; lia].
Qed.

Lemma occurs_split i : occurs i <-> i < length src /\ get src i = c0 /\ take (length s2) (drop (S i) src) = s2.
Proof.
  unfold occurs, get. rewrite drop_src. cbn [length]. destruct (src !! i) as [c|] eqn:E.
  - apply lookup_lt_Some in E. rewrite Nat.add_1_r. cbn. split; [by intros [= -> ?]|by intros (_ & -> & ->)].
  - split; [done|]. apply lookup_ge_None in E. lia.
Qed.

Lemma occurs_range i : occurs i -> i + S (length s2) <= length src.
Proof. unfold occurs. intros E. apply (f_equal length) in E. rewrite length_take, length_drop in E. cbn [length] in E. lia. Qed.

Definition leftmost_occurrence (s1 : nat) (r : option nat) : Prop :=
  match r with
  | Some i => s1 <= i /\ occurs i /\ forall j, s1 <= j < i -> ~ occurs j
  | None => forall j, s1 <= j -> ~ occurs j
  end.

Lemma lmemfind_loop s1 l1 :
  s1 + l1 + length s2 = length src ->
  exists r, loop (S (length src)) (lmemfind_step src s2 c0) (s1, l1) = Ok r /\ leftmost_occurrence s1 r.
Proof.
  intros Hl.
  apply (loop_total (fun st => s1 <= st.1 /\ st.1 + st.2 + length s2 = length src /\ forall j, s1 <= j < st.1 -> ~ occurs j) snd);
    [|cbn; split_and!; [done|done|lia]|cbn; lia].
  clear l1 Hl. intros [s l] (Hs & Hl & Hno). cbn [fst snd] in *. unfold lmemfind_step.
  destruct (Nat.ltb_spec 0 l) as [Hpos|Hz].
  2: { intros j Hj Ho. pose proof (occurs_range j Ho). apply (Hno j); [lia|done]. }
  pose proof (memchr_spec c0 l s) as Hm. destruct (memchr src c0 l s) as [i|].
  - destruct Hm as (Hi & Ei & Hj).
    assert (forall j, s1 <= j < i -> ~ occurs j) as Hno'.
    { intros j Hij. destruct (decide (j < s)); [apply Hno; lia|]. intros [_ [Ho _]]%occurs_split. by apply (Hj j); [lia|]. }
    case_bool_decide as Eb; cbn [bind].
    + rewrite Nat.sub_succ, Nat.sub_0_r. split_and!; [lia|apply occurs_split; split_and!; [lia|done|done]|done].
    + cbn [fst snd]. split_and!; [lia|lia| |lia]. intros j Hij. destruct (decide (j = i)) as [->|]; [by intros (_ & _ & ?)%occurs_split|apply Hno'; lia].
  - intros j Hj Ho. pose proof (occurs_range j Ho). destruct (decide (j < s)); [by apply (Hno j)|].
    apply occurs_split in Ho as (_ & E & _). apply (Hm j); [lia|done].
Qed.
End Plain.

(** The plain search returns the first position at which the text occurs,
    and fails only if it occurs nowhere; it terminates. *)
Theorem lmemfind_leftmost src s1 c0 s2 :
  (s1 <= length src)%nat -> exists r, lmemfind src s1 (c0 :: s2) = Ok r /\ leftmost_occurrence src c0 s2 s1 r.
Proof.
  intros Hs. unfold lmemfind. destruct (Nat.ltb_spec (length src - s1) (S (length s2))) as [Hlt|Hge].
  - exists None. split; [done|]. intros j Hj Ho. pose proof (occurs_range src c0 s2 j Ho). lia.
  - apply lmemfind_loop. lia.
Qed.

(** ** Substitution *)
Lemma take_slice src s e : (s <= e)%nat -> take s src ++ slice src s (e - s) = take e src.
Proof.
  intros He. unfold slice. rewrite <- (take_drop s (take e src)), take_take, Nat.min_l by lia. f_equal.
  by rewrite skipn_firstn_comm.
Qed.
Lemma take_one src s : (s < length src)%nat -> take s src ++ [get src s] = take (S s) src.
Proof.
  intros Hs. destruct (lookup_lt_is_Some_2 _ _ Hs) as [c E]. unfold get. rewrite E. by erewrite take_S_r.
Qed.

Lemma add_s_whole src number2str ms s e : add_s src number2str ms s e (lit "%0") = Ok (slice src s (e - s)).
Proof. change (lit "%0") with [37; 48]. rewrite <- (app_nil_r (slice src s (e - s))). reflexivity. Qed.

(** gsub keeps everything outside the matches and copies what a match
    covers: replacing every match of any pattern by itself gives the subject
    back, with at most [max_s] substitutions; the loop ends even on empty
    matches. *)
Theorem gsub_identity src pat junk number2str max_s :
  Z.of_nat (length src) < 2 ^ 63 -> length junk = LUA_MAXCAPTURES ->
  ends (fun e => e <> oob) (fun r => r.1 = src /\ 0 <= r.2 <= Z.max 0 max_s)
    (str_gsub src pat junk number2str (RString (lit "%0")) (Some max_s)).
Proof.
  intros Hsm Hj. unfold str_gsub.
  apply (ends_bind _ (fun r => let '(s, n, b) := r in b = take s src /\ 0 <= n <= Z.max 0 max_s)).
  2: { intros [[s n] b] [-> Hn]. cbn. by rewrite take_drop. }
  apply (ends_loop _ (fun st => let '(cap, s, n, b) := st in
      length cap = LUA_MAXCAPTURES /\ (s <= length src)%nat /\ b = take s src /\ 0 <= n <= Z.max 0 max_s)
    (fun st => let '(cap, s, n, b) := st in (length src - s)%nat)); [|split_and!; [done|lia|done|lia|lia]|cbn; lia].
  intros [[[cap s] n] b] (Hc & Hs & -> & Hn). unfold gsub_step. destruct (Z.ltb_spec n max_s); [|cbn; done].
  eapply ends_bind; [by apply (match_safe src pat Hsm); [..|apply pat_start_le]|].
  intros [[e|] ms] Hf; cbn [fine] in Hf.
  - destruct Hf as [He [_ Ha _]]. cbn [add_value]. rewrite add_s_whole. cbn [bind]. rewrite take_slice by lia.
    destruct (Nat.ltb_spec s e); [destruct (anchored pat); cbn; split_and!; (done || lia)|].
    replace e with s by lia. destruct (Nat.ltb_spec s (length src)).
    + rewrite take_one by done. destruct (anchored pat); cbn; split_and!; (done || lia).
    + cbn. split; [done|lia].
  - destruct Hf as (_ & El & _). cbn in El. cbn [bind]. destruct (Nat.ltb_spec s (length src)).
    + rewrite take_one by done. destruct (anchored pat); cbn; split_and!; (done || lia).
    + cbn. split; [done|lia].
Qed.

(** * Examples *)

Definition ex_src : bytes := lit "  key = (a(b)c) ]x".
Definition ex_pat : bytes := lit "(%w+)%s*=()%s*%b()".
Definition ex_junk : list Capture := replicate LUA_MAXCAPTURES (mkCapture 7 7).

Example ex_find :
  str_find ex_src ex_pat ex_junk 1 false = Ok [VInt 3; VInt 15; VStr (lit "key"); VInt 8].
Proof. vm_compute. reflexivity. Qed.

(** A lazy item, a set with a range and a leading bracket, a frontier. *)
Example ex_match :
  str_match ex_src (lit ".-[]a-c]%f[)]") ex_junk 1 = Ok [VStr (lit "  key = (a(b")].
Proof. vm_compute. reflexivity. Qed.

(** A range that ends in an escape: the set contains its closing bracket. *)
Example range_to_escape :
  matchbracketclass (lit "[x-%%]") ch_rbr 0 5 = Ok true /\ meaning (lit "[x-%%]") = None.
Proof. vm_compute. done. Qed.

(** string.byte with an end before the string: the unsigned comparison makes it
    the whole string instead of nothing. *)
Example byte_negative_end : str_byte (lit "abc") 1 (Some (-10)) = Ok [VInt 97; VInt 98; VInt 99].
Proof. vm_compute. reflexivity. Qed.

Lemma match_in_bounds_witness :
  ends (fun e => e <> oob) (fun r => match r.1 with Some e => (2 <= e <= length ex_src)%nat | None => True end)
    (match_ ex_src ex_pat (mkMS 0 ex_junk) 2 0).
Proof. apply match_in_bounds; [reflexivity|reflexivity|cbn; lia|lia]. Defined.

Definition ex_items : list item := default [] (meaning ex_pat).

Lemma match_is_first_witness :
  exists r ms, match_ ex_src ex_pat (mkMS 0 ex_junk) 2 0 = Ok (r, ms) /\
    match head (sem ex_src ex_items [] 2) with
    | Some (e, cs) => r = Some e /\ caps ms = cs
    | None => r = None
    end.
Proof. apply match_is_first; [reflexivity|reflexivity|cbn; lia|vm_compute; reflexivity]. Defined.

Lemma find_leftmost_witness :
  str_find_aux ex_src ex_pat ex_junk true 1 false =
  Ok (find_result ex_src true (leftmost ex_src ex_items (seq 0 19))).
Proof.
  apply (find_leftmost ex_src ex_pat ex_junk ex_items true 1);
    [reflexivity|reflexivity|vm_compute; reflexivity|right; vm_compute; reflexivity|vm_compute; split; discriminate].
Defined.
Lemma gsub_identity_witness :
  ends (fun e => e <> oob) (fun r => r.1 = ex_src /\ 0 <= r.2 <= Z.max 0 5)
    (str_gsub ex_src (lit "%s*") ex_junk (fun _ => []) (RString (lit "%0")) (Some 5)).
Proof. apply gsub_identity; reflexivity. Defined.
