(* ===== verification/LuaLex.v ===== *)
(** The lexical analyzer of Lua (lua/src/llex.c), and the text of numbers
    (luaO_str2d of lobject.c).

    A function takes the lexer state and returns the new one, or raises the
    syntax error with its whole message.  The input is a buffered stream
    (LuaZio).  A string is its bytes: the reserved words are the keys of the map
    that luaX_init makes, and the strings of a function are a set.  Every loop
    is bounded by [fuel]. *)
From stdpp Require Import base gmap list.
From Stdlib Require Import ZArith Lia.
From S2P Require Import Prelude LuaObject LuaString LuaZio LuaStrMatch.
Open Scope Z_scope.

Definition ch_nl : Z := 10.
Definition ch_cr : Z := 13.
Definition ch_quote : Z := 34.
Definition ch_apos : Z := 39.
Definition ch_slash : Z := 92.
Definition ch_lt : Z := 60.
Definition ch_eq : Z := 61.
Definition ch_gt : Z := 62.
Definition ch_tilde : Z := 126.
Definition ch_under : Z := 95.

(** * Tokens *)
Definition FIRST_RESERVED : Z := 257.
Definition luaX_tokens : list bytes :=
  [lit "and"; lit "break"; lit "do"; lit "else"; lit "elseif"; lit "end"; lit "false"; lit "for"; lit "function"; lit "if"; lit "in"; lit "local"; lit "nil"; lit "not"; lit "or"; lit "repeat"; lit "return"; lit "then"; lit "true"; lit "until"; lit "while"; lit ".."; lit "..."; lit "=="; lit ">="; lit "<="; lit "~="; lit "<number>"; lit "<name>"; lit "<string>"; lit "<eof>"].
Definition TK_WHILE : Z := 277.
Definition TK_CONCAT : Z := 278.
Definition TK_DOTS : Z := 279.
Definition TK_EQ : Z := 280.
Definition TK_GE : Z := 281.
Definition TK_LE : Z := 282.
Definition TK_NE : Z := 283.
Definition TK_NUMBER : Z := 284.
Definition TK_NAME : Z := 285.
Definition TK_STRING : Z := 286.
Definition TK_EOS : Z := 287.
Definition NUM_RESERVED : nat := Z.to_nat (TK_WHILE - FIRST_RESERVED + 1).

(** The field [reserved] of the strings of reserved words. *)
Definition luaX_init : gmap bytes Z :=
  foldl (fun reserved i => match luaX_tokens !! i with Some w => <[w := u8 (Z.of_nat i + 1)]> reserved | None => reserved end) ∅ (seq 0 NUM_RESERVED).

(** * Numbers

    strtod and strtoul give the number and where they stopped in the text. *)
Class NumberText (N : Type) := {
  strtod : bytes -> N * nat;
  strtoul : bytes -> Z -> Z * nat;
  cast_num : Z -> N;
  number2str : Z -> bytes
}.

(** The C string at the start of some bytes. *)
Fixpoint cstr (b : bytes) : bytes :=
  match b with
  | [] => []
  | c :: b => if c =? 0 then [] else c :: cstr b
  end.

Fixpoint skip_spaces (s : bytes) : bytes :=
  match s with
  | [] => []
  | c :: s' => if isspace c then skip_spaces s' else s
  end.

Definition luaO_str2d {N : Type} `{NumberText N} (s : bytes) : option N :=
  let '(result, endptr) := strtod s in
  if (endptr =? 0)%nat then None
  else
    let c := default 0 (s !! endptr) in
    let '(result, endptr) := if (c =? 120) || (c =? 88) then let '(x, e) := strtoul s 16 in (cast_num x, e) else (result, endptr) in
    match skip_spaces (drop endptr s) with
    | [] => Some result
    | _ => None
    end.

(** * The state *)
Inductive SemInfo (N : Type) := SemR (r : N) | SemTS (ts : bytes).
Arguments SemR {N} r.
Arguments SemTS {N} ts.
Record Token (N : Type) := mkToken { token : Z; seminfo : option (SemInfo N) }.
Arguments mkToken {N} _ _.
Arguments token {N} _.
Arguments seminfo {N} _.

Record LexState (N R : Type) := mkLex {
  current : Z;
  linenumber : Z;
  lastline : Z;
  ls_t : Token N;
  ls_lookahead : Token N;
  (** the keys of the table [fs->h] *)
  fs_h : gset bytes;
  ls_z : Zio R;
  buffer : bytes;
  buffsize : Z;
  source : bytes;
  decpoint : Z
}.
Arguments mkLex {N R} _ _ _ _ _ _ _ _ _ _ _.
Arguments current {N R} _.
Arguments linenumber {N R} _.
Arguments lastline {N R} _.
Arguments ls_t {N R} _.
Arguments ls_lookahead {N R} _.
Arguments fs_h {N R} _.
Arguments ls_z {N R} _.
Arguments buffer {N R} _.
Arguments buffsize {N R} _.
Arguments source {N R} _.
Arguments decpoint {N R} _.

Section Lexer.
Context {N R : Type} `{NumberText N}.
(** The lua_Reader, the reserved words of the string table, and the decimal
    point of the locale. *)
Variable reader : R -> bytes * R.
Variable reserved : gmap bytes Z.
Variable decimal_point : Z.
Variable fuel : nat.
Implicit Types ls : LexState N R.

Definition set_input ls (c : Z) (z : Zio R) := mkLex c (linenumber ls) (lastline ls) (ls_t ls) (ls_lookahead ls) (fs_h ls) z (buffer ls) (buffsize ls) (source ls) (decpoint ls).
Definition set_buffer ls b n := mkLex (current ls) (linenumber ls) (lastline ls) (ls_t ls) (ls_lookahead ls) (fs_h ls) (ls_z ls) b n (source ls) (decpoint ls).
Definition set_line ls n := mkLex (current ls) n (lastline ls) (ls_t ls) (ls_lookahead ls) (fs_h ls) (ls_z ls) (buffer ls) (buffsize ls) (source ls) (decpoint ls).
Definition set_lastline ls n := mkLex (current ls) (linenumber ls) n (ls_t ls) (ls_lookahead ls) (fs_h ls) (ls_z ls) (buffer ls) (buffsize ls) (source ls) (decpoint ls).
Definition set_tokens ls (t la : Token N) := mkLex (current ls) (linenumber ls) (lastline ls) t la (fs_h ls) (ls_z ls) (buffer ls) (buffsize ls) (source ls) (decpoint ls).
Definition set_strings ls h := mkLex (current ls) (linenumber ls) (lastline ls) (ls_t ls) (ls_lookahead ls) h (ls_z ls) (buffer ls) (buffsize ls) (source ls) (decpoint ls).
Definition set_decpoint ls c := mkLex (current ls) (linenumber ls) (lastline ls) (ls_t ls) (ls_lookahead ls) (fs_h ls) (ls_z ls) (buffer ls) (buffsize ls) (source ls) c.

Definition next ls : res (LexState N R) := '(c, z) <- zgetc reader (ls_z ls); Ok (set_input ls c z).
Definition currIsNewline ls : bool := (current ls =? ch_nl) || (current ls =? ch_cr).
Definition luaZ_resetbuffer ls : LexState N R := set_buffer ls [] (buffsize ls).

(** * Errors *)
Definition MAXSRC : Z := 80.
Definition luaX_token2str (token : Z) : bytes :=
  if token <? FIRST_RESERVED then
    if iscntrl token then lit "char(" ++ number2str token ++ lit ")" else cstr [u8 token]
  else default [] (luaX_tokens !! Z.to_nat (token - FIRST_RESERVED)).

(** The bytes of a message as a string. *)
Fixpoint text (b : bytes) : string :=
  match b with
  | [] => String.EmptyString
  | c :: b => String.String (Ascii.ascii_of_nat (Z.to_nat c)) (text b)
  end.

(** [near] is the text of the token, when the error is about one. *)
Definition lexmsg (source : bytes) (line : Z) (msg : string) (near : option bytes) : string :=
  text (luaO_chunkid source MAXSRC ++ lit ":" ++ number2str line ++ lit ": " ++ lit msg ++
        match near with Some t => lit " near '" ++ cstr t ++ lit "'" | None => [] end).

(** A character is added to the buffer, which doubles when it is full. *)
Definition save (c : Z) ls : res (LexState N R) :=
  let n := Z.of_nat (length (buffer ls)) in
  if buffsize ls <? n + 1 then
    if MAX_SIZET / 2 <=? buffsize ls then Err (lexmsg (source ls) (linenumber ls) "lexical element too long" None)
    else Ok (set_buffer ls (buffer ls ++ [u8 c]) (buffsize ls * 2))
  else Ok (set_buffer ls (buffer ls ++ [u8 c]) (buffsize ls)).
Definition save_and_next ls : res (LexState N R) := ls <- save (current ls) ls; next ls.

Definition txtToken (token : Z) ls : res bytes :=
  if (token =? TK_NAME) || (token =? TK_STRING) || (token =? TK_NUMBER) then ls <- save 0 ls; Ok (buffer ls)
  else Ok (luaX_token2str token).

Definition luaX_lexerror {A} (msg : string) (token : Z) ls : res A :=
  if token =? 0 then Err (lexmsg (source ls) (linenumber ls) msg None)
  else t <- txtToken token ls; Err (lexmsg (source ls) (linenumber ls) msg (Some t)).
Definition luaX_syntaxerror {A} (msg : string) ls : res A := luaX_lexerror msg (token (ls_t ls)) ls.

(** * Strings and lines *)
Definition luaX_newstring (str : bytes) ls : LexState N R * bytes := (set_strings ls ({[str]} ∪ fs_h ls), str).

Definition MAX_INT : Z := 2 ^ 31 - 1 - 2.
Definition too_many_lines : string := "chunk has too many lines".
Definition inclinenumber ls : res (LexState N R) :=
  let old := current ls in
  ls <- next ls;
  ls <- (if currIsNewline ls && negb (current ls =? old) then next ls else Ok ls);
  let ls := set_line ls (linenumber ls + 1) in
  if MAX_INT <=? linenumber ls then luaX_syntaxerror too_many_lines ls else Ok ls.

Definition LUA_MINBUFFER : Z := 32.
Definition luaX_setinput (z : Zio R) (source : bytes) (buff : bytes) (ls : LexState N R) : res (LexState N R) :=
  next (mkLex (current ls) 1 1 (ls_t ls) (mkToken TK_EOS (seminfo (ls_lookahead ls))) ∅ z buff LUA_MINBUFFER source ch_dot).

(** strchr also finds the zero that ends the set. *)
Definition check_next (set : string) ls : res (bool * LexState N R) :=
  if bool_decide (u8 (current ls) ∈ lit set ++ [0]) then ls <- save_and_next ls; Ok (true, ls) else Ok (false, ls).

(** * Numerals *)
Definition buffreplace (from to : Z) ls : LexState N R := set_buffer ls ((fun c => if c =? from then to else c) <$> buffer ls) (buffsize ls).

Definition malformed_number : string := "malformed number".
Definition trydecpoint ls : res (LexState N R * SemInfo N) :=
  let old := decpoint ls in
  let ls := set_decpoint ls decimal_point in
  let ls := buffreplace old decimal_point ls in
  match luaO_str2d (cstr (buffer ls)) with
  | Some r => Ok (ls, SemR r)
  | None => let ls := buffreplace decimal_point ch_dot ls in luaX_lexerror malformed_number TK_NUMBER ls
  end.

(** [while (test(ls->current)) save_and_next(ls)] *)
Definition save_while (test : Z -> bool) ls : res (LexState N R) :=
  loop fuel (fun ls => if test (current ls) then ls <- save_and_next ls; Ok (inl ls) else Ok (inr ls)) ls.

Definition read_numeral ls : res (LexState N R * SemInfo N) :=
  ls <- save_and_next ls;
  ls <- save_while (fun c => isdigit c || (c =? ch_dot)) ls;
  '(e, ls) <- check_next "Ee" ls;
  ls <- (if e : bool then '(_, ls) <- check_next "+-" ls; Ok ls else Ok ls);
  ls <- save_while (fun c => isalnum c || (c =? ch_under)) ls;
  ls <- save 0 ls;
  let ls := buffreplace ch_dot (decpoint ls) ls in
  match luaO_str2d (cstr (buffer ls)) with
  | Some r => Ok (ls, SemR r)
  | None => trydecpoint ls
  end.

(** * Long brackets *)
Definition skip_sep ls : res (Z * LexState N R) :=
  let s := current ls in
  ls <- save_and_next ls;
  '(count, ls) <- loop fuel (fun '(count, ls) =>
    if current ls =? ch_eq then ls <- save_and_next ls; Ok (inl (count + 1, ls)) else Ok (inr (count, ls))) (0, ls);
  Ok (if current ls =? s then count else - count - 1, ls).

Definition unfinished_long_string : string := "unfinished long string".
Definition unfinished_long_comment : string := "unfinished long comment".
Definition nesting_deprecated : string := "nesting of [[...]] is deprecated".

(** One turn of the loop; [keep] says that it is a string and not a comment. *)
Definition long_string_step (keep : bool) (sep : Z) ls : res (LexState N R + LexState N R) :=
  if current ls =? EOZ then luaX_lexerror (if keep then unfinished_long_string else unfinished_long_comment) TK_EOS ls
  else if current ls =? ch_lbr then
    '(n, ls) <- skip_sep ls;
    if n =? sep then
      ls <- save_and_next ls;
      if sep =? 0 then luaX_lexerror nesting_deprecated ch_lbr ls else Ok (inl ls)
    else Ok (inl ls)
  else if current ls =? ch_rbr then
    '(n, ls) <- skip_sep ls;
    if n =? sep then ls <- save_and_next ls; Ok (inr ls) else Ok (inl ls)
  else if currIsNewline ls then
    ls <- save ch_nl ls;
    ls <- inclinenumber ls;
    Ok (inl (if keep then ls else luaZ_resetbuffer ls))
  else ls <- (if keep then save_and_next ls else next ls); Ok (inl ls).

(** [len] bytes of the buffer from [from]. *)
Definition buffer_part (from len : Z) ls : bytes := take (Z.to_nat len) (drop (Z.to_nat from) (buffer ls)).

Definition read_long_string (keep : bool) (sep : Z) ls : res (LexState N R * option (SemInfo N)) :=
  ls <- save_and_next ls;
  ls <- (if currIsNewline ls then inclinenumber ls else Ok ls);
  ls <- loop fuel (long_string_step keep sep) ls;
  if keep then
    let '(ls, ts) := luaX_newstring (buffer_part (2 + sep) (Z.of_nat (length (buffer ls)) - 2 * (2 + sep)) ls) ls in Ok (ls, Some (SemTS ts))
  else Ok (ls, None).

(** * Quoted strings *)
Definition unfinished_string : string := "unfinished string".
Definition escape_too_large : string := "escape sequence too large".

Definition escape_code (c : Z) : option Z :=
  if c =? 97 then Some 7 else if c =? 98 then Some 8 else if c =? 102 then Some 12 else if c =? 110 then Some 10
  else if c =? 114 then Some 13 else if c =? 116 then Some 9 else if c =? 118 then Some 11 else None.

(** At most [n] digits, and at least one. *)
Fixpoint escape_digits (n : nat) (c : Z) ls : res (Z * LexState N R) :=
  let c := 10 * c + (current ls - 48) in
  ls <- next ls;
  match n with
  | S (S _ as n) => if isdigit (current ls) then escape_digits n c ls else Ok (c, ls)
  | _ => Ok (c, ls)
  end.

(** After the backslash. *)
Definition read_escape ls : res (LexState N R) :=
  ls <- next ls;
  match escape_code (current ls) with
  | Some c => ls <- save c ls; next ls
  | None =>
      if currIsNewline ls then ls <- save ch_nl ls; inclinenumber ls
      else if current ls =? EOZ then Ok ls
      else if negb (isdigit (current ls)) then save_and_next ls
      else
        '(c, ls) <- escape_digits 3 0 ls;
        if 255 <? c then luaX_lexerror escape_too_large TK_STRING ls else save c ls
  end.

Definition string_step (del : Z) ls : res (LexState N R + LexState N R) :=
  if current ls =? del then Ok (inr ls)
  else if current ls =? EOZ then luaX_lexerror unfinished_string TK_EOS ls
  else if currIsNewline ls then luaX_lexerror unfinished_string TK_STRING ls
  else if current ls =? ch_slash then ls <- read_escape ls; Ok (inl ls)
  else ls <- save_and_next ls; Ok (inl ls).

Definition read_string (del : Z) ls : res (LexState N R * SemInfo N) :=
  ls <- save_and_next ls;
  ls <- loop fuel (string_step del) ls;
  ls <- save_and_next ls;
  let '(ls, ts) := luaX_newstring (buffer_part 1 (Z.of_nat (length (buffer ls)) - 2) ls) ls in
  Ok (ls, SemTS ts).

(** * The analyzer *)
Definition invalid_delimiter : string := "invalid long string delimiter".

(** A token, with its value if it has one. *)
Abbreviation found := (LexState N R * Z * option (SemInfo N))%type.

Definition skip_line ls : res (LexState N R) :=
  loop fuel (fun ls => if negb (currIsNewline ls) && negb (current ls =? EOZ) then ls <- next ls; Ok (inl ls) else Ok (inr ls)) ls.

(** After the two dashes of a comment. *)
Definition read_comment ls : res (LexState N R) :=
  if current ls =? ch_lbr then
    '(sep, ls) <- skip_sep ls;
    let ls := luaZ_resetbuffer ls in
    if 0 <=? sep then '(ls, _) <- read_long_string false sep ls; Ok (luaZ_resetbuffer ls)
    else skip_line ls
  else skip_line ls.

(** A character that may be followed by [=]. *)
Definition maybe_equal (c tk : Z) ls : res found :=
  ls <- next ls;
  if negb (current ls =? ch_eq) then Ok (ls, c, None) else ls <- next ls; Ok (ls, tk, None).

Definition read_bracket ls : res found :=
  '(sep, ls) <- skip_sep ls;
  if 0 <=? sep then '(ls, s) <- read_long_string true sep ls; Ok (ls, TK_STRING, s)
  else if sep =? -1 then Ok (ls, ch_lbr, None)
  else luaX_lexerror invalid_delimiter TK_STRING ls.

Definition read_dots ls : res found :=
  ls <- save_and_next ls;
  '(two, ls) <- check_next "." ls;
  if two : bool then
    '(three, ls) <- check_next "." ls;
    Ok (ls, if three : bool then TK_DOTS else TK_CONCAT, None)
  else if negb (isdigit (current ls)) then Ok (ls, ch_dot, None)
  else '(ls, r) <- read_numeral ls; Ok (ls, TK_NUMBER, Some r).

Definition read_name ls : res found :=
  ls <- save_and_next ls;
  ls <- save_while (fun c => isalnum c || (c =? ch_under)) ls;
  let '(ls, ts) := luaX_newstring (buffer ls) ls in
  let r := default 0 (reserved !! ts) in
  Ok (if 0 <? r then (ls, r - 1 + FIRST_RESERVED, None) else (ls, TK_NAME, Some (SemTS ts))).

Definition llex_step ls : res (LexState N R + found) :=
  let c := current ls in
  if currIsNewline ls then ls <- inclinenumber ls; Ok (inl ls)
  else if c =? ch_dash then
    ls <- next ls;
    if negb (current ls =? ch_dash) then Ok (inr (ls, c, None))
    else ls <- next ls; ls <- read_comment ls; Ok (inl ls)
  else if c =? ch_lbr then t <- read_bracket ls; Ok (inr t)
  else if c =? ch_eq then t <- maybe_equal ch_eq TK_EQ ls; Ok (inr t)
  else if c =? ch_lt then t <- maybe_equal ch_lt TK_LE ls; Ok (inr t)
  else if c =? ch_gt then t <- maybe_equal ch_gt TK_GE ls; Ok (inr t)
  else if c =? ch_tilde then t <- maybe_equal ch_tilde TK_NE ls; Ok (inr t)
  else if (c =? ch_quote) || (c =? ch_apos) then '(ls, s) <- read_string c ls; Ok (inr (ls, TK_STRING, Some s))
  else if c =? ch_dot then t <- read_dots ls; Ok (inr t)
  else if c =? EOZ then Ok (inr (ls, TK_EOS, None))
  else if isspace c then ls <- next ls; Ok (inl ls)
  else if isdigit c then '(ls, r) <- read_numeral ls; Ok (inr (ls, TK_NUMBER, Some r))
  else if isalpha c || (c =? ch_under) then t <- read_name ls; Ok (inr t)
  else ls <- next ls; Ok (inr (ls, c, None)).

Definition llex ls : res found := loop fuel llex_step (luaZ_resetbuffer ls).

(** A token without a value leaves the old one. *)
Definition with_value (t : Z) (s : option (SemInfo N)) (old : Token N) : Token N := mkToken t (match s with Some _ => s | None => seminfo old end).

Definition luaX_next ls : res (LexState N R) :=
  let ls := set_lastline ls (linenumber ls) in
  if negb (token (ls_lookahead ls) =? TK_EOS) then Ok (set_tokens ls (ls_lookahead ls) (mkToken TK_EOS (seminfo (ls_lookahead ls))))
  else '(ls, t, s) <- llex ls; Ok (set_tokens ls (with_value t s (ls_t ls)) (ls_lookahead ls)).

Definition luaX_lookahead ls : res (LexState N R) :=
  '(ls, t, s) <- llex ls; Ok (set_tokens ls (ls_t ls) (with_value t s (ls_lookahead ls))).
End Lexer.
