(* ===== verification/LuaLexSpec.v ===== *)
(** The lexical analyzer of Lua reads tokens: a scanner on sequences of bytes,
    which says what a token is, and the proof that llex, on a buffered stream
    with a growing buffer, does the same, for every way in which the reader cuts
    the input into blocks. *)
From stdpp Require Import base gmap list.
From Stdlib Require Import ZArith Lia.
From S2P Require Import Prelude LuaObject LuaString LuaZio LuaStrMatch LuaStrLib LuaLex.
Open Scope Z_scope.

(** * The scanner *)

(** A result, the input after it and the line; or an error and its line. *)
Inductive lexed (A : Type) := Got (a : A) (rest : bytes) (line : Z) | Bad (msg : string) (line : Z) | Stuck.
Arguments Got {A} a rest line.
Arguments Bad {A} msg line.
Arguments Stuck {A}.

Definition lbind {A B} (r : lexed A) (k : A -> bytes -> Z -> lexed B) : lexed B :=
  match r with Got a rest line => k a rest line | Bad msg line => Bad msg line | Stuck => Stuck end.
Definition push (b : bytes) (r : lexed bytes) : lexed bytes := lbind r (fun x rest line => Got (b ++ x) rest line).

Fixpoint take_while (p : Z -> bool) (s : bytes) : bytes :=
  match s with [] => [] | c :: s => if p c then c :: take_while p s else [] end.
Fixpoint drop_while (p : Z -> bool) (s : bytes) : bytes :=
  match s with [] => [] | c :: s' => if p c then drop_while p s' else s end.

Definition newline (c : Z) : bool := (c =? ch_nl) || (c =? ch_cr).
Definition name_char (c : Z) : bool := isalnum c || (c =? ch_under).
Definition numeral_char (c : Z) : bool := isdigit c || (c =? ch_dot).
Definition is_eq (c : Z) : bool := c =? ch_eq.
Definition not_newline (c : Z) : bool := negb (newline c).

(** The input after a line break that begins with [c]: "\n", "\r", "\n\r" or "\r\n". *)
Definition after_newline (c : Z) (s : bytes) : bytes :=
  match s with c' :: s' => if newline c' && negb (c' =? c) then s' else s | [] => [] end.
Definition next_line {A} (line : Z) (k : Z -> lexed A) : lexed A :=
  if MAX_INT <=? line + 1 then Bad too_many_lines (line + 1) else k (line + 1).

(** A decimal escape has at most three digits. *)
Fixpoint escape_value (n : nat) (c : Z) (s : bytes) : Z * bytes :=
  match n, s with
  | S n, d :: s' => if isdigit d then escape_value n (10 * c + (d - 48)) s' else (c, s)
  | _, _ => (c, s)
  end.

(** After a backslash, the character [e]: the bytes it stands for. *)
Definition escape (e : Z) (s : bytes) (line : Z) : lexed bytes :=
  match escape_code e with
  | Some v => Got [v] s line
  | None =>
      if newline e then next_line line (Got [ch_nl] (after_newline e s))
      else if isdigit e then
        let '(v, rest) := escape_value 3 0 (e :: s) in
        if 255 <? v then Bad escape_too_large line else Got [v] rest line
      else Got [e] s line
  end.

(** A quoted string, after its first delimiter. *)
Fixpoint string_body (n : nat) (del : Z) (s : bytes) (line : Z) : lexed bytes :=
  match n with
  | O => Stuck
  | S n =>
      match s with
      | [] => Bad unfinished_string line
      | c :: s =>
          if c =? del then Got [] s line
          else if newline c then Bad unfinished_string line
          else if c =? ch_slash then
            match s with
            | [] => Bad unfinished_string line
            | e :: s' => lbind (escape e s' line) (fun v rest line => push v (string_body n del rest line))
            end
          else push [c] (string_body n del s line)
      end
  end.

(** A bracket, signs of equality, and what follows. *)
Definition sep_of (c : Z) (s : bytes) : Z :=
  let k := Z.of_nat (length (take_while is_eq s)) in
  match drop_while is_eq s with d :: _ => if d =? c then k else - k - 1 | [] => - k - 1 end.

(** A long string or comment, after its opening bracket. *)
Fixpoint long_body (n : nat) (keep : bool) (sep : Z) (s : bytes) (line : Z) : lexed bytes :=
  match n with
  | O => Stuck
  | S n =>
      match s with
      | [] => Bad (if keep then unfinished_long_string else unfinished_long_comment) line
      | c :: s =>
          if c =? ch_lbr then
            let text := c :: take_while is_eq s in
            if sep_of c s =? sep then
              if sep =? 0 then Bad nesting_deprecated line
              else push (text ++ [c]) (long_body n keep sep (tail (drop_while is_eq s)) line)
            else push text (long_body n keep sep (drop_while is_eq s) line)
          else if c =? ch_rbr then
            let text := c :: take_while is_eq s in
            if sep_of c s =? sep then Got [] (tail (drop_while is_eq s)) line
            else push text (long_body n keep sep (drop_while is_eq s) line)
          else if newline c then next_line line (fun line => push [ch_nl] (long_body n keep sep (after_newline c s) line))
          else push [c] (long_body n keep sep s line)
      end
  end.

(** From the second bracket: a line break there does not count. *)
Definition long_string (keep : bool) (sep : Z) (s : bytes) (line : Z) : lexed bytes :=
  match s with
  | _ :: c :: s' =>
      if newline c then next_line line (fun line => long_body (S (length s)) keep sep (after_newline c s') line)
      else long_body (S (length s)) keep sep (c :: s') line
  | _ => long_body (S (length s)) keep sep [] line
  end.

(** A numeral: its text and what follows. *)
Definition one_of (set : string) (s : bytes) : bytes * bytes :=
  match s with c :: s' => if bool_decide (c ∈ lit set ++ [0]) then ([c], s') else ([], s) | [] => ([], []) end.
Definition numeral (s : bytes) : bytes * bytes :=
  match s with
  | [] => ([], [])
  | c :: s =>
      let s1 := drop_while numeral_char s in
      let '(e, s2) := one_of "Ee" s1 in
      let '(sign, s3) := match e with [] => ([], s2) | _ => one_of "+-" s2 end in
      (c :: take_while numeral_char s ++ e ++ sign ++ take_while name_char s3, drop_while name_char s3)
  end.

Section Scan.
Context {N : Type} `{NumberText N}.
Variable reserved : gmap bytes Z.

Abbreviation item := (Z * option (SemInfo N))%type.

Definition number (text rest : bytes) (line : Z) : lexed item :=
  match luaO_str2d (cstr text) with Some r => Got (TK_NUMBER, Some (SemR r)) rest line | None => Bad malformed_number line end.
Definition word (w rest : bytes) (line : Z) : lexed item :=
  let r := default 0 (reserved !! w) in
  if 0 <? r then Got (r - 1 + FIRST_RESERVED, None) rest line else Got (TK_NAME, Some (SemTS w)) rest line.
Definition equal_or (c tk : Z) (s : bytes) (line : Z) : lexed item :=
  match s with d :: s' => if d =? ch_eq then Got (tk, None) s' line else Got (c, None) s line | [] => Got (c, None) [] line end.

(** After a bracket. *)
Definition bracket (s : bytes) (line : Z) : lexed item :=
  if 0 <=? sep_of ch_lbr s then lbind (long_string true (sep_of ch_lbr s) (drop_while is_eq s) line) (fun x rest line => Got (TK_STRING, Some (SemTS x)) rest line)
  else if sep_of ch_lbr s =? -1 then Got (ch_lbr, None) (drop_while is_eq s) line
  else Bad invalid_delimiter line.

(** After a dot. *)
Definition dots (s : bytes) (line : Z) : lexed item :=
  match one_of "." s with
  | ([], _) =>
      match s with
      | d :: _ => if isdigit d then let '(text, rest) := numeral s in number (ch_dot :: text) rest line else Got (ch_dot, None) s line
      | [] => Got (ch_dot, None) [] line
      end
  | (_, s) => match one_of "." s with ([], _) => Got (TK_CONCAT, None) s line | (_, s) => Got (TK_DOTS, None) s line end
  end.

(** After the two dashes of a comment. *)
Definition comment (s : bytes) (line : Z) : lexed unit :=
  match s with
  | b :: s' =>
      if (b =? ch_lbr) && (0 <=? sep_of b s')
      then lbind (long_string false (sep_of b s') (drop_while is_eq s') line) (fun _ rest line => Got tt rest line)
      else Got tt (drop_while not_newline s) line
  | [] => Got tt [] line
  end.

(** A token, after blanks and comments. *)
Fixpoint scan (n : nat) (s : bytes) (line : Z) : lexed item :=
  match n with
  | O => Stuck
  | S n =>
      match s with
      | [] => Got (TK_EOS, None) [] line
      | c :: s =>
          if newline c then next_line line (scan n (after_newline c s))
          else if c =? ch_dash then
            match s with
            | d :: s' =>
                if d =? ch_dash then lbind (comment s' line) (fun _ rest line => scan n rest line)
                else Got (ch_dash, None) s line
            | [] => Got (ch_dash, None) [] line
            end
          else if c =? ch_lbr then bracket s line
          else if c =? ch_eq then equal_or c TK_EQ s line
          else if c =? ch_lt then equal_or c TK_LE s line
          else if c =? ch_gt then equal_or c TK_GE s line
          else if c =? ch_tilde then equal_or c TK_NE s line
          else if (c =? ch_quote) || (c =? ch_apos) then
            lbind (string_body (S (length s)) c s line) (fun x rest line => Got (TK_STRING, Some (SemTS x)) rest line)
          else if c =? ch_dot then dots s line
          else if isspace c then scan n s line
          else if isdigit c then let '(text, rest) := numeral (c :: s) in number text rest line
          else if isalpha c || (c =? ch_under) then word (c :: take_while name_char s) (drop_while name_char s) line
          else Got (c, None) s line
      end
  end.
End Scan.

(** * The analyzer follows the scanner *)
Section Follows.
Context {N R : Type} `{NumberText N}.
Variable reader : R -> bytes * R.
Context `{!Reader reader}.
Variable reserved : gmap bytes Z.
Variable fuel : nat.
(** What does not change while a token is read, and the strings of the function. *)
Variable fixed : Z * Token N * Token N * bytes.
Variable strings : gset bytes.
Implicit Types (ls : LexState N R) (s b rest : bytes) (line : Z).

Definition frame ls : Z * Token N * Token N * bytes := (lastline ls, ls_t ls, ls_lookahead ls, source ls).

(** The current character is the first of the remaining input [s]. *)
Definition at_ s ls : Prop :=
  match s with
  | [] => current ls = EOZ
  | c :: s => current ls = c /\ is_byte c /\ content reader (ls_z ls) s
  end.

Record conf s b line ls : Prop := {
  cf_at : at_ s ls;
  cf_buffer : buffer ls = b;
  cf_room : Z.of_nat (length b) <= buffsize ls /\ 0 < buffsize ls;
  cf_line : linenumber ls = line;
  cf_frame : frame ls = fixed;
  cf_strings : strings ⊆ fs_h ls;
  cf_decpoint : decpoint ls = ch_dot
}.

(** Inputs are smaller than half of what a buffer can hold. *)
Definition fits b s : Prop := Z.of_nat (length b) + Z.of_nat (length s) < 2 ^ 62.

Lemma zgetc_ok z s :
  content reader z s ->
  exists z', zgetc reader z = Ok (match s with [] => EOZ | c :: _ => c end, z') /\
    match s with [] => True | c :: s => is_byte c /\ content reader z' s end.
Proof.
  intros [Hn Hsm Hb (s' & -> & Hd)]. unfold zgetc, luaZ_fill. cbn [data].
  destruct (zp z) as [|c l] eqn:Ep; cbn [length app] in *.
  - rewrite Hn. cbn [Z.of_nat Z.ltb Z.compare]. destruct Hd as [r r' Hr|r r' c l s Hr Hl Hd]; rewrite Hr.
    + by eexists.
    + pose proof (reader_small r) as Hs. rewrite Hr in Hs. cbn [fst app length] in *. inversion Hl.
      eexists. split; [done|]. split; [done|]. split; cbn [zn zp data]; [lia|lia|done|]. by exists s.
  - rewrite Hn, (proj2 (Z.ltb_lt 0 (Z.of_nat (S (length l))))) by lia. inversion Hb.
    eexists. split; [done|]. split; [done|].
    split; cbn [zn zp data]; [rewrite wrap_small by lia; lia..|done|]. by exists s'.
Qed.

Lemma next_ok c s b line ls :
  conf (c :: s) b line ls -> exists ls', next reader ls = Ok ls' /\ conf s b line ls'.
Proof.
  intros [(Hc & Hb & Hz) ??????]. destruct (zgetc_ok _ _ Hz) as (z' & Hg & Hz'). unfold next. rewrite Hg. cbn [bind].
  eexists. split; [done|]. split; cbn; try done. destruct s; [done|]. cbn. naive_solver.
Qed.

Lemma save_ok c s b line ls :
  conf s b line ls -> Z.of_nat (length b) <= 2 ^ 62 -> exists ls', save c ls = Ok ls' /\ conf s (b ++ [u8 c]) line ls'.
Proof.
  intros [Ha Hb [Hr1 Hr2] Hl Hf Hst Hd] Hs. unfold save. rewrite Hb.
  assert (MAX_SIZET / 2 > 2 ^ 62) as Hm by (vm_compute; done).
  destruct (Z.ltb_spec (buffsize ls) (Z.of_nat (length b) + 1)).
  - destruct (Z.leb_spec (MAX_SIZET / 2) (buffsize ls)); [lia|]. eexists. split; [done|].
    split; cbn; try done. rewrite length_app. cbn. lia.
  - eexists. split; [done|]. split; cbn; try done. rewrite length_app. cbn. lia.
Qed.

Lemma save_and_next_ok c s b line ls :
  conf (c :: s) b line ls -> fits b (c :: s) -> exists ls', save_and_next reader ls = Ok ls' /\ conf s (b ++ [c]) line ls'.
Proof.
  intros Hc Hf. pose proof (cf_at _ _ _ _ Hc) as (Hcu & Hb & _). unfold save_and_next.
  unfold fits in Hf. destruct (save_ok (current ls) _ _ _ _ Hc ltac:(lia)) as (ls1 & -> & H1). cbn [bind].
  rewrite Hcu, u8_byte in H1 by done. exact (next_ok _ _ _ _ _ H1).
Qed.

Lemma reset_ok s b line ls : conf s b line ls -> conf s [] line (luaZ_resetbuffer ls).
Proof. intros [??[??]????]. split; cbn; try done. lia. Qed.

(** Every error has the line of its message, and a part of the input. *)
Lemma error_ok {A} msg tok s b line ls :
  conf s b line ls -> Z.of_nat (length b) <= 2 ^ 62 ->
  exists near, luaX_lexerror (A := A) msg tok ls = Err (lexmsg (snd fixed) line msg near).
Proof.
  intros Hc Hs. assert (source ls = snd fixed) as Hso by (rewrite <- (cf_frame _ _ _ _ Hc); done).
  rewrite <- Hso, <- (cf_line _ _ _ _ Hc). unfold luaX_lexerror, txtToken.
  destruct (tok =? 0); [by eexists|]. destruct (_ || _); [|by eexists].
  destruct (save_ok 0 _ _ _ _ Hc Hs) as (ls1 & -> & _). by eexists.
Qed.

Definition agrees {A B} (m : res A) (r : lexed B) (Q : A -> B -> bytes -> Z -> Prop) : Prop :=
  match r with
  | Got a rest line => exists x, m = Ok x /\ Q x a rest line
  | Bad msg line => exists near, m = Err (lexmsg (snd fixed) line msg near)
  | Stuck => False
  end.

Lemma agrees_bind {A A' B B'} (m : res A) (r : lexed B) Q (k : A -> res A') (k' : B -> bytes -> Z -> lexed B') Q' :
  agrees m r Q -> (forall x a rest line, Q x a rest line -> agrees (k x) (k' a rest line) Q') ->
  agrees (bind m k) (lbind r k') Q'.
Proof.
  destruct r as [a rest line|msg line|]; cbn; [|by intros (near & ->); exists near|done].
  intros (x & -> & HQ) Hk. exact (Hk x a rest line HQ).
Qed.

Lemma agrees_weaken {A B} (m : res A) (r : lexed B) (Q Q' : A -> B -> bytes -> Z -> Prop) :
  agrees m r Q -> (forall x a rest line, Q x a rest line -> Q' x a rest line) -> agrees m r Q'.
Proof. destruct r; cbn; try done. intros (x & -> & HQ) HQ'. eauto. Qed.

Lemma agrees_push {A} (m : res A) p (r : lexed bytes) (Q : A -> bytes -> bytes -> Z -> Prop) :
  agrees m r (fun x a rest line => Q x (p ++ a) rest line) -> agrees m (push p r) Q.
Proof. destruct r; cbn; done. Qed.

Lemma agrees_error {A B} msg tok s b line ls (Q : A -> B -> bytes -> Z -> Prop) :
  conf s b line ls -> Z.of_nat (length b) <= 2 ^ 62 -> agrees (luaX_lexerror msg tok ls) (Bad msg line) Q.
Proof. apply error_ok. Qed.

Lemma current_at s b line ls : conf s b line ls -> current ls = match s with [] => EOZ | c :: _ => c end.
Proof. intros Hc. pose proof (cf_at _ _ _ _ Hc) as Ha. destruct s; [done|apply Ha]. Qed.

Lemma byte_at c s b line ls : conf (c :: s) b line ls -> is_byte c.
Proof. intros Hc. by pose proof (cf_at _ _ _ _ Hc) as (_ & ? & _). Qed.

Lemma fits_le b s b' s' : fits b s -> (length b' + length s' <= length b + length s)%nat -> fits b' s'.
Proof. unfold fits. lia. Qed.

Lemma fits_room b s : fits b s -> Z.of_nat (length b) <= 2 ^ 62.
Proof. unfold fits. lia. Qed.

Lemma after_newline_length c s : (length (after_newline c s) <= length s)%nat.
Proof. destruct s as [|c' s]; [done|]. cbn. case_match; cbn; lia. Qed.

Lemma newline_byte c : newline c = true -> c <> EOZ.
Proof. intros Hn ->. done. Qed.

Lemma curr_newline s b line ls : conf s b line ls -> currIsNewline ls = match s with [] => false | c :: _ => newline c end.
Proof. intros Hc. unfold currIsNewline. rewrite (current_at _ _ _ _ Hc). by destruct s. Qed.

Lemma inclinenumber_ok {A B} c s b line ls (k : LexState N R -> res A) (k' : Z -> lexed B) Q :
  conf (c :: s) b line ls -> Z.of_nat (length b) <= 2 ^ 62 ->
  (forall ls', conf (after_newline c s) b (line + 1) ls' -> agrees (k ls') (k' (line + 1)) Q) ->
  agrees (bind (inclinenumber reader ls) k) (next_line line k') Q.
Proof.
  intros Hc Hb Hk. unfold inclinenumber, next_line.
  destruct (next_ok _ _ _ _ _ Hc) as (ls1 & -> & H1). cbn [bind].
  rewrite (curr_newline _ _ _ _ H1), (current_at _ _ _ _ H1), (current_at _ _ _ _ Hc).
  assert (exists ls2, (if match s with [] => false | c0 :: _ => newline c0 end && negb (match s with [] => EOZ | c0 :: _ => c0 end =? c) then next reader ls1 else Ok ls1) = Ok ls2 /\ conf (after_newline c s) b line ls2) as (ls2 & -> & H2).
  { destruct s as [|c' s]; [by eexists|]. cbn [after_newline].
    destruct (newline c' && negb (c' =? c)); [exact (next_ok _ _ _ _ _ H1)|by eexists]. }
  cbn [bind]. rewrite (cf_line _ _ _ _ H2). cbn [linenumber set_line].
  assert (conf (after_newline c s) b (line + 1) (set_line ls2 (line + 1))) as H3.
  { destruct H2. by split. }
  destruct (MAX_INT <=? line + 1); [|exact (Hk _ H3)]. unfold luaX_syntaxerror.
  destruct (error_ok (A := LexState N R) too_many_lines (token (ls_t (set_line ls2 (line + 1)))) _ _ _ _ H3 Hb) as (near & ->). by exists near.
Qed.

Lemma save_while_ok k p s b line ls :
  p EOZ = false -> conf s b line ls -> fits b s -> (length s < k)%nat ->
  exists ls', save_while reader k p ls = Ok ls' /\ conf (drop_while p s) (b ++ take_while p s) line ls'.
Proof.
  intros Hp. unfold save_while. revert s b ls. induction k as [|k IH]; intros s b ls Hc Hf Hk; [lia|]. cbn [loop].
  rewrite (current_at _ _ _ _ Hc). destruct s as [|c s]; cbn [drop_while take_while].
  - rewrite Hp. cbn [bind]. eexists. split; [done|]. by rewrite app_nil_r.
  - destruct (p c) eqn:Ec; cbn [bind].
    + destruct (save_and_next_ok _ _ _ _ _ Hc Hf) as (ls1 & -> & H1). cbn [bind length] in *.
      destruct (IH _ _ _ H1 ltac:(apply (fits_le _ _ _ _ Hf); rewrite length_app; cbn; lia) ltac:(lia)) as (ls2 & -> & H2).
      exists ls2. split; [done|]. by rewrite <- app_assoc in H2.
    + eexists. split; [done|]. by rewrite app_nil_r.
Qed.

Lemma skip_line_ok k s b line ls :
  conf s b line ls -> (length s < k)%nat -> exists ls', skip_line reader k ls = Ok ls' /\ conf (drop_while not_newline s) b line ls'.
Proof.
  unfold skip_line. revert s ls. induction k as [|k IH]; intros s ls Hc Hk; [lia|]. cbn [loop].
  rewrite (curr_newline _ _ _ _ Hc), (current_at _ _ _ _ Hc). destruct s as [|c s]; cbn [drop_while].
  - cbn [negb andb Z.eqb EOZ]. cbn. by eexists.
  - rewrite (byte_not_eoz c) by exact (byte_at _ _ _ _ _ Hc). rewrite andb_true_r. fold (not_newline c).
    destruct (not_newline c); cbn [bind]; [|by eexists].
    destruct (next_ok _ _ _ _ _ Hc) as (ls1 & -> & H1). cbn [bind length] in *. exact (IH _ _ H1 ltac:(lia)).
Qed.

(** ** Quoted strings *)
Lemma escape_digits_S n v ls :
  escape_digits reader (S (S n)) v ls =
  (let v' := 10 * v + (current ls - 48) in ls <- next reader ls; if isdigit (current ls) then escape_digits reader (S n) v' ls else Ok (v', ls)).
Proof. done. Qed.

Lemma escape_value_S n v d s :
  escape_value (S n) v (d :: s) = if isdigit d then escape_value n (10 * v + (d - 48)) s else (v, d :: s).
Proof. done. Qed.

Lemma escape_digits_ok n v d s b line ls :
  isdigit d = true -> 0 <= v -> conf (d :: s) b line ls ->
  exists v' rest ls', escape_digits reader (S n) v ls = Ok (v', ls') /\ escape_value (S n) v (d :: s) = (v', rest) /\
    0 <= v' /\ conf rest b line ls' /\ (length rest <= length s)%nat.
Proof.
  revert v d s ls. induction n as [|n IH]; intros v d s ls Hd Hv Hc.
  all: assert (0 <= 10 * v + (d - 48)) as Hv' by (unfold isdigit, in_range in Hd; lia).
  all: destruct (next_ok _ _ _ _ _ Hc) as (ls1 & He1 & H1).
  - cbn [escape_digits escape_value]. rewrite Hd, He1. cbn [bind]. rewrite (current_at _ _ _ _ Hc).
    eexists _, s, ls1. split_and!; done.
  - rewrite escape_digits_S, escape_value_S, He1, Hd. cbn [bind].
    rewrite (current_at _ _ _ _ H1), (current_at _ _ _ _ Hc). destruct s as [|d' s]; [by exists (10 * v + (d - 48)), [], ls1|].
    destruct (isdigit d') eqn:Ed.
    + destruct (IH _ _ _ _ Ed Hv' H1) as (v' & rest & ls' & He & Hv2 & H2 & H3 & H4).
      exists v', rest, ls'. cbn [length]. split_and!; try done; lia.
    + cbn [escape_value]. rewrite Ed. by exists (10 * v + (d - 48)), (d' :: s), ls1.
Qed.

Lemma newline_cases c : newline c = true -> c = ch_nl \/ c = ch_cr.
Proof. unfold newline, ch_nl, ch_cr. lia. Qed.

Lemma escape_code_small e v : escape_code e = Some v -> u8 v = v.
Proof. unfold escape_code. intros He. repeat case_match; simplify_eq; done. Qed.

Lemma read_escape_ok e s b line ls :
  conf (ch_slash :: e :: s) b line ls -> fits b (e :: s) ->
  agrees (read_escape reader ls) (escape e s line) (fun ls' v rest line' =>
    conf rest (b ++ v) line' ls' /\ (length v + length rest <= S (length s))%nat /\ (length rest <= length s)%nat).
Proof.
  intros Hc Hf. unfold read_escape, escape. destruct (next_ok _ _ _ _ _ Hc) as (ls1 & -> & H1). cbn [bind].
  rewrite (current_at _ _ _ _ H1), (curr_newline _ _ _ _ H1).
  pose proof (byte_at _ _ _ _ _ H1) as He. destruct (escape_code e) as [v|] eqn:Ev.
  { destruct (save_ok v _ _ _ _ H1 (fits_room _ _ Hf)) as (ls2 & -> & H2). cbn [bind].
    destruct (next_ok _ _ _ _ _ H2) as (ls3 & -> & H3). rewrite (escape_code_small _ _ Ev) in H3. by exists ls3. }
  destruct (newline e).
  { destruct (save_ok ch_nl _ _ _ _ H1 (fits_room _ _ Hf)) as (ls2 & -> & H2). cbn [bind].
    pose proof (after_newline_length e s). unfold fits in Hf. rewrite <- (bind_ret (inclinenumber reader ls2)).
    apply (inclinenumber_ok _ _ _ _ _ _ _ _ H2); [rewrite length_app; cbn [length] in *; lia|].
    intros ls3 H3. exists ls3. cbn. split_and!; try done; lia. }
  rewrite (byte_not_eoz e) by done. destruct (isdigit e) eqn:Ed; cbn [negb].
  2: { destruct (save_and_next_ok _ _ _ _ _ H1 Hf) as (ls2 & -> & H2). by exists ls2. }
  destruct (escape_digits_ok 2 0 e s b line ls1 Ed ltac:(lia) H1) as (v & rest & ls2 & -> & -> & Hv & H2 & Hr). cbn [bind].
  destruct (Z.ltb_spec 255 v); [exact (agrees_error _ _ _ _ _ _ _ H2 (fits_room _ _ Hf))|].
  destruct (save_ok v _ _ _ _ H2 (fits_room _ _ Hf)) as (ls3 & -> & H3). rewrite u8_byte in H3 by (unfold is_byte; lia).
  exists ls3. cbn. split_and!; try done; lia.
Qed.

(** One turn of a loop. *)
Lemma agrees_turn {S A B} k (step : S -> res (S + A)) (st : S) (r : lexed B) Q :
  (exists st', step st = Ok (inl st') /\ agrees (loop k step st') r Q) -> agrees (loop (Datatypes.S k) step st) r Q.
Proof. intros (st' & Hs & Ha). cbn [loop]. by rewrite Hs. Qed.

Lemma agrees_stop {S A B} k (step : S -> res (S + A)) (st : S) msg tok s b line ls (Q : A -> B -> bytes -> Z -> Prop) :
  step st = luaX_lexerror msg tok ls -> conf s b line ls -> Z.of_nat (length b) <= 2 ^ 62 ->
  agrees (loop (Datatypes.S k) step st) (Bad msg line) Q.
Proof.
  intros Hs Hc Hb. cbn [loop]. rewrite Hs. destruct (error_ok (A := S + A) msg tok _ _ _ _ Hc Hb) as (near & ->). by exists near.
Qed.

Lemma string_body_ok n k del s b line ls :
  del = ch_quote \/ del = ch_apos -> conf s b line ls -> fits b s -> (length s < n)%nat -> (length s < k)%nat ->
  agrees (loop k (string_step reader del) ls) (string_body n del s line)
    (fun ls' x rest line' => conf (del :: rest) (b ++ x) line' ls' /\ fits (b ++ x) (del :: rest)).
Proof.
  intros Hdel. assert (is_byte del) as Hdb by (unfold is_byte, ch_quote, ch_apos in *; lia).
  assert ((EOZ =? del) = false) as Hed by (unfold is_byte, EOZ in *; lia). clear Hdel.
  revert k s b line ls. induction n as [|n IH]; intros k s b line ls Hc Hf Hn Hk; [lia|].
  destruct k as [|k]; [lia|]. cbn [string_body].
  assert (forall p s' line' ls', conf s' (b ++ p) line' ls' -> (length p + length s' <= length s)%nat -> (length s' < length s)%nat ->
    agrees (loop k (string_step reader del) ls') (push p (string_body n del s' line'))
      (fun ls' x rest line' => conf (del :: rest) (b ++ x) line' ls' /\ fits (b ++ x) (del :: rest))) as Hgo.
  { intros p s' line' ls' H1 Hl Hl'. apply agrees_push.
    refine (agrees_weaken _ _ _ _ (IH k s' (b ++ p) line' ls' H1 _ ltac:(lia) ltac:(lia)) _).
    - apply (fits_le _ _ _ _ Hf). rewrite length_app. lia.
    - intros x a rest l' Hx. by rewrite <- app_assoc in Hx. }
  assert (string_step reader del ls = string_step reader del ls) as Hs by done. revert Hs. unfold string_step at 2.
  rewrite (current_at _ _ _ _ Hc), (curr_newline _ _ _ _ Hc).
  destruct s as [|c s]; [rewrite Hed; intros Hs; exact (agrees_stop _ _ _ _ _ _ _ _ _ _ Hs Hc (fits_room _ _ Hf))|].
  cbn [length] in *. destruct (Z.eqb_spec c del) as [->|_].
  { intros Hs. cbn [loop]. rewrite Hs. exists ls. split; [done|]. by rewrite app_nil_r. }
  rewrite (byte_not_eoz c) by exact (byte_at _ _ _ _ _ Hc).
  destruct (newline c); [intros Hs; exact (agrees_stop _ _ _ _ _ _ _ _ _ _ Hs Hc (fits_room _ _ Hf))|].
  destruct (c =? ch_slash) eqn:Esl; intros Hs.
  2: { destruct (save_and_next_ok _ _ _ _ _ Hc Hf) as (ls1 & Hs1 & H1). rewrite Hs1 in Hs.
       apply agrees_turn. exists ls1. split; [done|]. apply (Hgo [c]); [done|cbn; lia|lia]. }
  apply Z.eqb_eq in Esl as ->. cbn [loop]. rewrite Hs. destruct s as [|e s].
  { unfold read_escape. destruct (next_ok _ _ _ _ _ Hc) as (ls1 & -> & H1). cbn [bind].
    rewrite (curr_newline _ _ _ _ H1), (current_at _ _ _ _ H1). change (escape_code EOZ) with (@None Z). rewrite Z.eqb_refl. cbn [bind]. destruct k as [|k]; [cbn in *; lia|].
    assert (string_step reader del ls1 = luaX_lexerror unfinished_string TK_EOS ls1) as Hs1 by (unfold string_step; by rewrite (current_at _ _ _ _ H1), Hed).
    exact (agrees_stop _ _ _ _ _ _ _ _ _ _ Hs1 H1 (fits_room _ _ Hf)). }
  rewrite !bind_bind. cbn [length] in *. refine (agrees_bind _ _ _ _ _ _ (read_escape_ok e s b line ls Hc (fits_le _ _ _ _ Hf _)) _); [cbn; lia|].
  intros ls1 v rest line1 (H1 & Hl & Hl'). cbn [bind]. apply Hgo; [done|lia|lia].
Qed.

(** ** Long brackets *)
Lemma while_length p s : (length (take_while p s) + length (drop_while p s) = length s)%nat.
Proof. induction s as [|c s IH]; cbn; [done|]. destruct (p c); cbn; lia. Qed.

Lemma sep_of_pos c s :
  0 <= sep_of c s ->
  exists s', drop_while is_eq s = c :: s' /\ Z.of_nat (length (take_while is_eq s)) = sep_of c s /\ (length s' + length (take_while is_eq s) < length s)%nat.
Proof.
  unfold sep_of. pose proof (while_length is_eq s). destruct (drop_while is_eq s) as [|d s']; [lia|].
  destruct (Z.eqb_spec d c) as [->|]; [|lia]. cbn in *. exists s'. split_and!; [done|done|lia].
Qed.

Lemma skip_equals k n s b line ls :
  conf s b line ls -> fits b s -> (length s < k)%nat ->
  exists ls', loop k (fun '(count, ls) => if current ls =? ch_eq then ls <- save_and_next reader ls; Ok (inl (count + 1, ls)) else Ok (inr (count, ls))) (n, ls)
      = Ok (n + Z.of_nat (length (take_while is_eq s)), ls') /\
    conf (drop_while is_eq s) (b ++ take_while is_eq s) line ls'.
Proof.
  revert n s b ls. induction k as [|k IH]; intros n s b ls Hc Hf Hk; [lia|]. cbn [loop].
  rewrite (current_at _ _ _ _ Hc). destruct s as [|c s]; cbn [drop_while take_while].
  { cbn. exists ls. by rewrite Z.add_0_r, app_nil_r. }
  change (c =? ch_eq) with (is_eq c). destruct (is_eq c); cbn [bind].
  - destruct (save_and_next_ok _ _ _ _ _ Hc Hf) as (ls1 & -> & H1). cbn [bind length] in *.
    destruct (IH (n + 1) _ _ _ H1 ltac:(apply (fits_le _ _ _ _ Hf); rewrite length_app; cbn; lia) ltac:(lia)) as (ls2 & -> & H2).
    exists ls2. rewrite <- app_assoc in H2. split; [|done]. rewrite <- Z.add_assoc. do 3 f_equal. lia.
  - exists ls. by rewrite Z.add_0_r, app_nil_r.
Qed.

Lemma skip_sep_ok c s b line ls :
  conf (c :: s) b line ls -> fits b (c :: s) -> (length s < fuel)%nat ->
  exists ls', skip_sep reader fuel ls = Ok (sep_of c s, ls') /\ conf (drop_while is_eq s) (b ++ c :: take_while is_eq s) line ls'.
Proof.
  intros Hc Hf Hk. unfold skip_sep. destruct (save_and_next_ok _ _ _ _ _ Hc Hf) as (ls1 & -> & H1). cbn [bind].
  destruct (skip_equals fuel 0 _ _ _ _ H1 ltac:(apply (fits_le _ _ _ _ Hf); rewrite length_app; cbn; lia) Hk) as (ls2 & -> & H2). cbn [bind].
  exists ls2. rewrite <- app_assoc in H2. split; [|done]. rewrite (current_at _ _ _ _ H2), (current_at _ _ _ _ Hc), Z.add_0_l.
  unfold sep_of. destruct (drop_while is_eq s); [|done].
  pose proof (byte_at _ _ _ _ _ Hc). by rewrite (proj2 (Z.eqb_neq EOZ c)) by (unfold is_byte, EOZ in *; lia).
Qed.

(** The second bracket of a pair. *)
Lemma second_bracket c s b line ls :
  0 <= sep_of c s -> conf (drop_while is_eq s) (b ++ c :: take_while is_eq s) line ls -> fits b (c :: s) ->
  exists s' ls', drop_while is_eq s = c :: s' /\ save_and_next reader ls = Ok ls' /\
    conf s' (b ++ c :: take_while is_eq s ++ [c]) line ls' /\
    Z.of_nat (length (c :: take_while is_eq s ++ [c])) = sep_of c s + 2 /\ (length s' + length (take_while is_eq s) < length s)%nat.
Proof.
  intros Hs Hc Hf. destruct (sep_of_pos c s Hs) as (s' & Hd & Hl & Hl'). rewrite Hd in Hc. exists s'.
  destruct (save_and_next_ok _ _ _ _ _ Hc) as (ls' & Hn & H1); [apply (fits_le _ _ _ _ Hf); rewrite length_app; cbn in *; lia|].
  exists ls'. rewrite <- app_assoc in H1. split_and!; try done. cbn. rewrite length_app. cbn. lia.
Qed.

(** The characters of a comment are not all in the buffer. *)
Definition long_result (keep : bool) (sep : Z) b s ls (x rest : bytes) line : Prop :=
  (length rest < length s)%nat /\
  if keep then exists close, Z.of_nat (length close) = sep + 2 /\ conf rest (b ++ x ++ close) line ls
  else exists b', conf rest b' line ls.

Lemma long_result_push keep sep b s p s' ls x rest line :
  (length s' <= length s)%nat -> long_result keep sep (b ++ p) s' ls x rest line -> long_result keep sep b s ls (p ++ x) rest line.
Proof.
  intros Hl [Hr Hk]. split; [lia|]. destruct keep; [|done]. destruct Hk as (close & Hcl & Hc). exists close. split; [done|].
  by rewrite <- !app_assoc in *.
Qed.

Lemma long_body_ok n k keep sep s b line ls :
  0 <= sep -> conf s b line ls -> fits b s -> (length s < n)%nat -> (length s < k)%nat -> (length s < fuel)%nat ->
  agrees (loop k (long_string_step reader fuel keep sep) ls) (long_body n keep sep s line) (long_result keep sep b s).
Proof.
  intros Hsep. revert k s b line ls. induction n as [|n IH]; intros k s b line ls Hc Hf Hn Hk Hfu; [lia|].
  destruct k as [|k]; [lia|]. cbn [long_body].
  assert (forall p b' s' line' ls', conf s' b' line' ls' -> (keep = true -> b' = b ++ p) -> (length b' + length s' <= length b + length s)%nat -> (length s' < length s)%nat ->
    agrees (loop k (long_string_step reader fuel keep sep) ls') (push p (long_body n keep sep s' line')) (long_result keep sep b s)) as Hgo.
  { intros p b' s' line' ls' H1 Hb Hl Hl'. apply agrees_push.
    refine (agrees_weaken _ _ _ _ (IH k s' b' line' ls' H1 (fits_le _ _ _ _ Hf Hl) ltac:(lia) ltac:(lia) ltac:(lia)) _).
    intros x a rest l' Hx. destruct keep; [|split; [destruct Hx; lia|by destruct Hx]].
    rewrite Hb in Hx by done. apply (long_result_push _ _ _ _ _ s'); [lia|done]. }
  assert (long_string_step reader fuel keep sep ls = long_string_step reader fuel keep sep ls) as Hs by done. revert Hs. unfold long_string_step at 2.
  rewrite (current_at _ _ _ _ Hc), (curr_newline _ _ _ _ Hc).
  destruct s as [|c s]; [rewrite Z.eqb_refl; intros Hs; exact (agrees_stop _ _ _ _ _ _ _ _ _ _ Hs Hc (fits_room _ _ Hf))|].
  rewrite (byte_not_eoz c) by exact (byte_at _ _ _ _ _ Hc). cbn [length] in *.
  destruct (skip_sep_ok _ _ _ _ _ Hc Hf ltac:(lia)) as (ls1 & Hs1 & H1). rewrite Hs1. cbn [bind].
  pose proof (while_length is_eq s) as Hw.
  destruct (c =? ch_lbr) eqn:Elb; [apply Z.eqb_eq in Elb as ->|].
  { destruct (Z.eqb_spec (sep_of ch_lbr s) sep) as [Esep|_]; intros Hs.
    2: { apply agrees_turn. exists ls1. split; [done|]. apply (Hgo _ _ _ _ _ H1); [done| |lia].
         rewrite length_app. cbn. lia. }
    destruct (second_bracket ch_lbr s b line ls1 ltac:(lia) H1 Hf) as (s' & ls2 & -> & Hs2 & H2 & _ & Hl). rewrite Hs2 in Hs. cbn [bind tail] in *.
    destruct (sep =? 0).
    - refine (agrees_stop _ _ _ _ _ _ _ _ _ _ Hs H2 _). unfold fits in Hf. rewrite length_app. cbn [length] in *. rewrite length_app. cbn. lia.
    - apply agrees_turn. exists ls2. split; [done|]. apply (Hgo _ _ _ _ _ H2); [done| |lia]. rewrite !length_app. cbn. rewrite length_app. cbn. lia. }
  destruct (c =? ch_rbr) eqn:Erb; [apply Z.eqb_eq in Erb as ->|].
  { destruct (Z.eqb_spec (sep_of ch_rbr s) sep) as [Esep|_]; intros Hs.
    2: { apply agrees_turn. exists ls1. split; [done|]. apply (Hgo _ _ _ _ _ H1); [done| |lia].
         rewrite length_app. cbn. lia. }
    destruct (second_bracket ch_rbr s b line ls1 ltac:(lia) H1 Hf) as (s' & ls2 & -> & Hs2 & H2 & Hcl & Hl). rewrite Hs2 in Hs. cbn [bind tail] in *.
    cbn [loop]. rewrite Hs. exists ls2. split; [done|]. split; [cbn; lia|].
    destruct keep; [|by eexists]. eexists. split; [rewrite Hcl; lia|done]. }
  destruct (newline c) eqn:Enl; intros Hs.
  - cbn [loop]. rewrite Hs. destruct (save_ok ch_nl _ _ _ _ Hc (fits_room _ _ Hf)) as (ls2 & -> & H2). cbn [bind].
    rewrite bind_bind. pose proof (after_newline_length c s). unfold fits in Hf.
    apply (inclinenumber_ok _ _ _ _ _ _ _ _ H2); [rewrite length_app; cbn [length] in *; lia|].
    intros ls3 H3. cbn [bind]. destruct keep; [apply (Hgo _ _ _ _ _ H3)|apply (Hgo _ _ _ _ _ (reset_ok _ _ _ _ H3))]; try done; rewrite ?length_app; cbn; lia.
  - cbn [loop]. rewrite Hs. destruct keep.
    + destruct (save_and_next_ok _ _ _ _ _ Hc Hf) as (ls2 & -> & H2). cbn [bind]. apply (Hgo _ _ _ _ _ H2); [done| |lia]. rewrite length_app. cbn. lia.
    + destruct (next_ok _ _ _ _ _ Hc) as (ls2 & -> & H2). cbn [bind]. apply (Hgo _ _ _ _ _ H2); [done|lia..].
Qed.

(** What a string is among the strings of the function. *)
Definition held ls (v : option (SemInfo N)) : Prop := forall x, v = Some (SemTS x) -> x ∈ fs_h ls.

Lemma newstring_ok s b line ls x :
  conf s b line ls -> conf s b line (fst (luaX_newstring x ls)) /\ held (fst (luaX_newstring x ls)) (Some (SemTS x)).
Proof.
  intros [????? Hs ?]. split; [split; try done; cbn; set_solver|]. intros y [= <-]. cbn. set_solver.
Qed.

Lemma buffer_part_ok s b p x q line ls from len :
  conf s b line ls -> b = p ++ x ++ q -> Z.of_nat (length p) = from -> Z.of_nat (length x) = len -> buffer_part from len ls = x.
Proof.
  intros Hc -> <- <-. unfold buffer_part. rewrite (cf_buffer _ _ _ _ Hc), !Nat2Z.id, drop_app_length. apply take_app_length.
Qed.

Lemma read_long_string_ok keep sep s b line ls :
  0 <= sep -> conf s b line ls -> (exists c s', s = c :: s') -> (keep = true -> Z.of_nat (length b) = sep + 1) -> fits b s -> (length s < fuel)%nat ->
  agrees (read_long_string reader fuel keep sep ls) (long_string keep sep s line) (fun '(ls', v) x rest line' =>
    (length rest < length s)%nat /\ (exists b', conf rest b' line' ls') /\ v = (if keep then Some (SemTS x) else None) /\ held ls' v).
Proof.
  intros Hsep Hc (c0 & s0 & ->) Hb Hf Hk. unfold read_long_string.
  destruct (save_and_next_ok _ _ _ _ _ Hc Hf) as (ls1 & -> & H1). cbn [bind].
  assert (fits (b ++ [c0]) s0) as Hf1 by (apply (fits_le _ _ _ _ Hf); rewrite length_app; cbn; lia).
  rewrite (curr_newline _ _ _ _ H1). cbn [length] in Hk.
  assert (forall line2 s2 ls2, conf s2 (b ++ [c0]) line2 ls2 -> (length s2 <= length s0)%nat ->
    agrees (ls' <- loop fuel (long_string_step reader fuel keep sep) ls2;
            if keep then let '(ls, ts) := luaX_newstring (buffer_part (2 + sep) (Z.of_nat (length (buffer ls')) - 2 * (2 + sep)) ls') ls' in Ok (ls, Some (SemTS ts)) else Ok (ls', None))
      (long_body (S (length (c0 :: s0))) keep sep s2 line2) (fun '(ls', v) x rest line' =>
        (length rest < length (c0 :: s0))%nat /\ (exists b', conf rest b' line' ls') /\ v = (if keep then Some (SemTS x) else None) /\ held ls' v)) as Hgo.
  { intros line2 s2 ls2 H2 Hl. pose proof (long_body_ok (S (length (c0 :: s0))) fuel keep sep s2 _ line2 ls2 Hsep H2
      ltac:(apply (fits_le _ _ _ _ Hf1); lia) ltac:(cbn; lia) ltac:(lia) ltac:(lia)) as Hl2.
    destruct (long_body _ _ _ _ _) as [x rest line3|msg line3|]; [|by destruct Hl2 as (near & ->); exists near|done].
    destruct Hl2 as (ls3 & -> & Hr & H3). cbn [bind]. destruct keep; [|eexists; split; [done|]; split; [cbn; lia|split_and!; done]].
    destruct H3 as (close & Hcl & H3). destruct (newstring_ok _ _ _ _ x H3) as [H4 Ha].
    assert (buffer_part (2 + sep) (Z.of_nat (length (buffer ls3)) - 2 * (2 + sep)) ls3 = x) as ->.
    { apply (buffer_part_ok _ _ (b ++ [c0]) x close _ _ _ _ H3); [done|specialize (Hb eq_refl); rewrite length_app; cbn; lia|].
      specialize (Hb eq_refl). rewrite (cf_buffer _ _ _ _ H3), !length_app. cbn. lia. }
    eexists. split; [done|]. split; [cbn; lia|]. split_and!; [eauto|done|done]. }
  destruct s0 as [|c s0]; [exact (Hgo _ _ _ H1 ltac:(lia))|]. cbn [long_string].
  destruct (newline c); [|exact (Hgo _ _ _ H1 ltac:(lia))].
  pose proof (after_newline_length c s0).
  apply (inclinenumber_ok _ _ _ _ _ _ _ _ H1); [exact (fits_room _ _ Hf1)|]. intros ls2 H2. apply Hgo; [done|cbn; lia].
Qed.

Lemma read_string_ok del s line ls :
  del = ch_quote \/ del = ch_apos -> conf (del :: s) [] line ls -> fits [] (del :: s) -> (length s < fuel)%nat ->
  agrees (read_string reader fuel del ls) (string_body (S (length s)) del s line) (fun '(ls', v) x rest line' =>
    (exists b, conf rest b line' ls') /\ v = SemTS x /\ held ls' (Some v)).
Proof.
  intros Hdel Hc Hf Hk. unfold read_string. destruct (save_and_next_ok _ _ _ _ _ Hc Hf) as (ls1 & -> & H1). cbn [bind app].
  pose proof (string_body_ok (S (length s)) fuel del s [del] line ls1 Hdel H1 (fits_le _ _ [del] s Hf ltac:(cbn; lia)) ltac:(lia) Hk) as Hb.
  destruct (string_body _ _ _ _) as [x rest line2|msg line2|]; [|by destruct Hb as (near & ->); exists near|done].
  destruct Hb as (ls2 & -> & H2 & Hf2). cbn [bind]. destruct (save_and_next_ok _ _ _ _ _ H2 Hf2) as (ls3 & -> & H3). cbn [bind].
  assert (buffer_part 1 (Z.of_nat (length (buffer ls3)) - 2) ls3 = x) as ->.
  { apply (buffer_part_ok _ _ [del] x [del] _ _ _ _ H3); [by rewrite app_assoc|done|].
    rewrite (cf_buffer _ _ _ _ H3), !length_app. cbn. lia. }
  destruct (newstring_ok _ _ _ _ x H3) as [H4 Ha]. eexists. split; [done|]. split_and!; [eauto|done|done].
Qed.

(** ** Numerals and names *)
Lemma one_of_length set s : (length (fst (one_of set s)) + length (snd (one_of set s)) = length s)%nat.
Proof. destruct s as [|c s]; cbn; [done|]. case_bool_decide; done. Qed.

Lemma one_of_nil set s s' : one_of set s = ([], s') -> s' = s.
Proof. destruct s as [|c s]; cbn; [by intros [= <-]|]. case_bool_decide; by intros [=]. Qed.

Lemma check_next_ok set s b line ls :
  255 ∉ lit set ++ [0] -> conf s b line ls -> fits b s ->
  exists ls', check_next reader set ls = Ok (match fst (one_of set s) with [] => false | _ => true end, ls') /\
    conf (snd (one_of set s)) (b ++ fst (one_of set s)) line ls'.
Proof.
  intros Hset Hc Hf. unfold check_next. rewrite (current_at _ _ _ _ Hc). destruct s as [|c s]; cbn [one_of].
  - rewrite bool_decide_false by done. exists ls. cbn. by rewrite app_nil_r.
  - rewrite u8_byte by exact (byte_at _ _ _ _ _ Hc). case_bool_decide.
    + destruct (save_and_next_ok _ _ _ _ _ Hc Hf) as (ls1 & -> & H1). by exists ls1.
    + exists ls. cbn. by rewrite app_nil_r.
Qed.

Lemma cstr_zero b : cstr (b ++ [0]) = cstr b.
Proof. induction b as [|c b IH]; cbn; [done|]. by rewrite IH. Qed.

Lemma buffreplace_same s b line ls c : conf s b line ls -> conf s b line (buffreplace c c ls).
Proof.
  intros [? Hb ?????]. assert ((fun x => if x =? c then c else x) <$> buffer ls = b) as Hm.
  { rewrite Hb. clear. induction b as [|x b IH]; cbn; [done|]. rewrite IH. f_equal. destruct (Z.eqb_spec x c); done. }
  by split.
Qed.

Abbreviation item := (Z * option (SemInfo N))%type.

Lemma number_read s b text line ls :
  conf s b line ls -> b = text ++ [0] -> Z.of_nat (length b) <= 2 ^ 62 ->
  agrees (match luaO_str2d (cstr (buffer (buffreplace ch_dot (decpoint ls) ls))) with
          | Some r => Ok (buffreplace ch_dot (decpoint ls) ls, SemR r)
          | None => trydecpoint ch_dot (buffreplace ch_dot (decpoint ls) ls)
          end) (number text s line)
    (fun '(ls', v) (i : item) rest line' => i = (TK_NUMBER, Some v) /\ (exists r, v = SemR r) /\ conf rest b line' ls').
Proof.
  intros Hc -> Hl. rewrite (cf_decpoint _ _ _ _ Hc). pose proof (buffreplace_same _ _ _ _ ch_dot Hc) as H1.
  unfold number. rewrite (cf_buffer _ _ _ _ H1), cstr_zero. destruct (luaO_str2d (cstr text)) as [r|] eqn:Er; [eexists; split; [done|]; by split_and!; [|eexists|]|].
  unfold trydecpoint. rewrite (cf_decpoint _ _ _ _ H1).
  assert (conf s (text ++ [0]) line (set_decpoint (buffreplace ch_dot ch_dot ls) ch_dot)) as H2 by (by destruct H1).
  pose proof (buffreplace_same _ _ _ _ ch_dot H2) as H3. rewrite (cf_buffer _ _ _ _ H3), cstr_zero, Er.
  exact (agrees_error _ _ _ _ _ _ _ (buffreplace_same _ _ _ _ ch_dot H3) Hl).
Qed.

Lemma read_numeral_ok c s b line ls :
  conf (c :: s) b line ls -> fits b (c :: s) -> (length s < fuel)%nat ->
  agrees (read_numeral reader ch_dot fuel ls) (let '(text, rest) := numeral (c :: s) in number (b ++ text) rest line)
    (fun '(ls', v) (i : item) rest line' => i = (TK_NUMBER, Some v) /\ (exists r, v = SemR r) /\ exists b', conf rest b' line' ls').
Proof.
  intros Hc Hf Hk. unfold read_numeral, numeral. destruct (save_and_next_ok _ _ _ _ _ Hc Hf) as (ls1 & -> & H1). cbn [bind].
  assert (forall b' s', (length b' + length s' <= length b + S (length s))%nat -> fits b' s') as Hfits.
  { intros b' s' Hl. exact (fits_le _ _ _ _ Hf Hl). }
  pose proof (while_length numeral_char s) as Hw. change (fun c0 : Z => isdigit c0 || (c0 =? ch_dot)) with numeral_char.
  destruct (save_while_ok fuel numeral_char _ _ _ _ eq_refl H1) as (ls2 & -> & H2); [apply Hfits; rewrite length_app; cbn; lia|done|]. cbn [bind].
  set (s1 := drop_while numeral_char s) in *. pose proof (one_of_length "Ee" s1) as Hw2.
  destruct (check_next_ok "Ee" _ _ _ _ ltac:(vm_compute; set_solver) H2) as (ls3 & -> & H3); [apply Hfits; rewrite !length_app; cbn; lia|]. cbn [bind].
  destruct (one_of "Ee" s1) as [e s2]. cbn [fst snd] in *.
  set (r := match e with [] => ([], s2) | _ => one_of "+-" s2 end).
  assert (length (fst r) + length (snd r) = length s2)%nat as Hw3 by (unfold r; destruct e; [done|apply one_of_length]).
  assert (exists ls4, (if match e with [] => false | _ => true end then '(_, ls) <- check_next reader "+-" ls3; Ok ls else Ok ls3) = Ok ls4 /\
    conf (snd r) (((b ++ [c]) ++ take_while numeral_char s) ++ e ++ fst r) line ls4) as (ls4 & -> & H4).
  { unfold r. destruct e as [|ec e]; [exists ls3; cbn [fst snd app]; by rewrite app_nil_r in *|].
    destruct (check_next_ok "+-" _ _ _ _ ltac:(vm_compute; set_solver) H3) as (ls4 & -> & H4); [apply Hfits; rewrite !length_app in *; cbn in *; lia|].
    exists ls4. split; [done|]. by rewrite <- !app_assoc in *. }
  cbn [bind]. destruct r as [sign s3]. cbn [fst snd] in *. pose proof (while_length name_char s3) as Hw4.
  change (fun c0 : Z => isalnum c0 || (c0 =? ch_under)) with name_char.
  destruct (save_while_ok fuel name_char _ _ _ _ eq_refl H4) as (ls5 & -> & H5); [apply Hfits; rewrite !length_app in *; cbn in *; lia|lia|]. cbn [bind].
  unfold fits in Hf. cbn [length] in Hf.
  destruct (save_ok 0 _ _ _ _ H5) as (ls6 & -> & H6); [rewrite !length_app in *; cbn in *; lia|]. cbn [bind]. change (u8 0) with 0 in H6.
  refine (agrees_weaken _ _ _ _ (number_read _ _ (b ++ c :: take_while numeral_char s ++ e ++ sign ++ take_while name_char s3) _ _ H6 _ _) _).
  - by rewrite <- !app_assoc; cbn; rewrite <- ?app_assoc.
  - rewrite !length_app in *. cbn in *. lia.
  - intros [ls7 v] i rest line' (? & ? & ?). eauto.
Qed.

(** Which tokens have a value. *)
Definition valued (i : item) rest : Prop :=
  match snd i with
  | Some _ => fst i = TK_NUMBER \/ fst i = TK_NAME \/ fst i = TK_STRING
  | None => fst i < TK_NUMBER \/ fst i = TK_EOS /\ rest = []
  end.

Lemma valued_eos t v rest : valued (t, v) rest -> t = TK_EOS -> rest = [].
Proof. unfold valued, TK_NUMBER, TK_NAME, TK_STRING, TK_EOS. destruct v; cbn; [lia|]. intros [?|[_ ?]]; [lia|done]. Qed.

(** A token that was found. *)
Definition is_found (f : LexState N R * Z * option (SemInfo N)) (i : item) rest line : Prop :=
  let '(ls', t, v) := f in i = (t, v) /\ valued i rest /\ (exists b, conf rest b line ls') /\ held ls' v.

Lemma found_plain t s b line ls :
  t < TK_NUMBER -> conf s b line ls -> agrees (Ok (ls, t, None)) (Got (t, None) s line) is_found.
Proof.
  intros Ht Hc. eexists. split; [done|]. split; [done|]. split; [|by split; [eauto|]].
  by left.
Qed.

Lemma found_value t v s line ls :
  valued (t, Some v) s -> (exists b, conf s b line ls) -> held ls (Some v) -> agrees (Ok (ls, t, Some v)) (Got (t, Some v) s line) is_found.
Proof. intros Ht Hc Ha. eexists. split; [done|]. by split. Qed.

Lemma byte_plain c : is_byte c -> c < TK_NUMBER.
Proof. unfold is_byte, TK_NUMBER. lia. Qed.

Hypothesis reserved_small : forall w r, reserved !! w = Some r -> r <= Z.of_nat NUM_RESERVED.

Lemma reserved_plain w : 0 < default 0 (reserved !! w) -> default 0 (reserved !! w) - 1 + FIRST_RESERVED < TK_NUMBER.
Proof.
  pose proof (reserved_small w) as Hw. destruct (reserved !! w) as [r|]; [|done]. specialize (Hw r eq_refl). change (Z.of_nat NUM_RESERVED) with 21 in Hw.
  unfold FIRST_RESERVED, TK_NUMBER. cbn. lia.
Qed.

Lemma read_name_ok c s line ls :
  conf (c :: s) [] line ls -> fits [] (c :: s) -> (length s < fuel)%nat ->
  agrees (read_name reader reserved fuel ls) (word reserved (c :: take_while name_char s) (drop_while name_char s) line) is_found.
Proof.
  intros Hc Hf Hk. unfold read_name, word. destruct (save_and_next_ok _ _ _ _ _ Hc Hf) as (ls1 & -> & H1). cbn [bind app].
  change (fun c0 : Z => isalnum c0 || (c0 =? ch_under)) with name_char.
  destruct (save_while_ok fuel name_char _ _ _ _ eq_refl H1) as (ls2 & -> & H2); [apply (fits_le _ _ _ _ Hf); cbn; lia|done|]. cbn [bind].
  rewrite (cf_buffer _ _ _ _ H2). cbn [app luaX_newstring].
  destruct (newstring_ok _ _ _ _ (c :: take_while name_char s) H2) as [H3 Ha]. cbn [fst luaX_newstring] in *.
  destruct (Z.ltb_spec 0 (default 0 (reserved !! (c :: take_while name_char s)))) as [Hr|_].
  - apply (found_plain _ _ _ _ _ (reserved_plain _ Hr) H3).
  - apply found_value; [by right; left|by eexists|done].
Qed.

Lemma maybe_equal_ok c tk s line ls :
  tk < TK_NUMBER -> conf (c :: s) [] line ls -> agrees (maybe_equal reader c tk ls) (equal_or c tk s line) is_found.
Proof.
  intros Htk Hc. pose proof (byte_plain _ (byte_at _ _ _ _ _ Hc)) as Hcs. unfold maybe_equal, equal_or. destruct (next_ok _ _ _ _ _ Hc) as (ls1 & -> & H1). cbn [bind].
  rewrite (current_at _ _ _ _ H1). destruct s as [|d s]; [exact (found_plain _ _ _ _ _ Hcs H1)|].
  destruct (d =? ch_eq); cbn [negb].
  - destruct (next_ok _ _ _ _ _ H1) as (ls2 & -> & H2). exact (found_plain _ _ _ _ _ Htk H2).
  - exact (found_plain _ _ _ _ _ Hcs H1).
Qed.

(** ** Comments and the whole *)
Lemma while_le p s : (length (drop_while p s) <= length s)%nat.
Proof. pose proof (while_length p s). lia. Qed.

(** What follows the two dashes of a comment. *)
Lemma read_comment_ok s line ls :
  conf s [] line ls -> fits [] s -> (length s < fuel)%nat ->
  agrees (read_comment reader fuel ls) (comment s line)
    (fun ls' _ rest line' => conf rest [] line' ls' /\ (length rest <= length s)%nat).
Proof.
  intros Hc Hf Hk. unfold read_comment, comment. rewrite (current_at _ _ _ _ Hc). destruct s as [|c s].
  { rewrite (proj2 (Z.eqb_neq EOZ ch_lbr)) by done. destruct (skip_line_ok fuel _ _ _ _ Hc Hk) as (ls1 & -> & H1). by exists ls1. }
  destruct (c =? ch_lbr) eqn:Elb; cbn [andb].
  2: { destruct (skip_line_ok fuel _ _ _ _ Hc Hk) as (ls1 & -> & H1). exists ls1. split; [done|]. split; [done|apply while_le]. }
  apply Z.eqb_eq in Elb as ->. cbn [length] in Hk. destruct (skip_sep_ok _ _ _ _ _ Hc Hf ltac:(lia)) as (ls1 & -> & H1). cbn [bind app] in *.
  pose proof (while_length is_eq s) as Hw. pose proof (reset_ok _ _ _ _ H1) as H1'.
  destruct (Z.leb_spec 0 (sep_of ch_lbr s)) as [Hsep|_].
  - destruct (sep_of_pos ch_lbr s Hsep) as (s' & Hd & Hl & Hl'). rewrite Hd in *.
    pose proof (read_long_string_ok false (sep_of ch_lbr s) (ch_lbr :: s') [] line _ Hsep H1' ltac:(eauto) ltac:(done)
      ltac:(apply (fits_le _ _ _ _ Hf); cbn in *; lia) ltac:(cbn in *; lia)) as Hr.
    destruct (long_string _ _ _ _) as [x rest line2|msg line2|]; [|by destruct Hr as (near & ->); exists near|done].
    destruct Hr as ([ls2 v] & -> & Hlr & (b' & H2) & _). exists (luaZ_resetbuffer ls2). split; [done|].
    split; [exact (reset_ok _ _ _ _ H2)|]. cbn in *. lia.
  - assert (drop_while not_newline (ch_lbr :: s) = drop_while not_newline (drop_while is_eq s)) as ->.
    { cbn. clear. induction s as [|c s IH]; cbn; [done|]. destruct (is_eq c) eqn:Ec; [|done].
      rewrite <- IH. apply Z.eqb_eq in Ec as ->. done. }
    destruct (skip_line_ok fuel _ _ _ _ H1' ltac:(lia)) as (ls2 & -> & H2). exists ls2. split; [done|]. split; [done|].
    pose proof (while_le not_newline (drop_while is_eq s)). cbn. lia.
Qed.

(** A dot, two or three, or a numeral. *)
Lemma dot_ok s line ls :
  conf (ch_dot :: s) [] line ls -> fits [] (ch_dot :: s) -> (length s < fuel)%nat ->
  agrees (read_dots reader ch_dot fuel ls) (dots s line) is_found.
Proof.
  intros Hc Hf Hk. assert (ch_dot < TK_NUMBER) as Hdot by done. unfold read_dots, dots. destruct (save_and_next_ok _ _ _ _ _ Hc Hf) as (ls1 & -> & H1). cbn [bind app] in *.
  pose proof (one_of_length "." s) as Hw. assert (255 ∉ lit "." ++ [0]) as Hset by (vm_compute; set_solver).
  destruct (check_next_ok "." _ _ _ _ Hset H1 ltac:(apply (fits_le _ _ _ _ Hf); cbn in *; lia)) as (ls2 & -> & H2). cbn [bind].
  destruct (one_of "." s) as [e s2] eqn:Eo. cbn [fst snd] in *. destruct e as [|d e].
  - apply one_of_nil in Eo as ->.
    rewrite (current_at _ _ _ _ H2), app_nil_r in *. destruct s as [|d s].
    { exact (found_plain _ _ _ _ _ Hdot H2). }
    destruct (isdigit d); cbn [negb].
    2: { exact (found_plain _ _ _ _ _ Hdot H2). }
    cbn [length] in *. pose proof (read_numeral_ok _ _ _ _ _ H2 ltac:(apply (fits_le _ _ _ _ Hf); cbn in *; lia) ltac:(lia)) as Hn.
    destruct (numeral (d :: s)) as [text rest]. cbn [app] in Hn. destruct (number _ _ _) as [i rest' l'|msg l'|]; [|by destruct Hn as (near & ->); exists near|done].
    destruct Hn as ([ls3 v] & -> & -> & (r & ->) & Hb). apply found_value; [by left|done|done].
  - cbn [length] in *. destruct (check_next_ok "." _ _ _ _ Hset H2 ltac:(apply (fits_le _ _ _ _ Hf); cbn in *; lia)) as (ls3 & -> & H3). cbn [bind].
    destruct (one_of "." s2) as [[|d' e'] s3] eqn:Eo2; [apply one_of_nil in Eo2 as ->|]; cbn [fst snd] in *.
    all: by refine (found_plain _ _ _ _ _ _ H3).
Qed.

(** A long string, or a bracket. *)
Lemma bracket_ok s line ls :
  conf (ch_lbr :: s) [] line ls -> fits [] (ch_lbr :: s) -> (length s < fuel)%nat ->
  agrees (read_bracket reader fuel ls) (bracket s line) is_found.
Proof.
  intros Hc Hf Hk. unfold read_bracket, bracket. destruct (skip_sep_ok _ _ _ _ _ Hc Hf Hk) as (ls1 & -> & H1). cbn [bind app] in *.
  pose proof (while_length is_eq s) as Hw.
  assert (fits (ch_lbr :: take_while is_eq s) (drop_while is_eq s)) as Hf1 by (apply (fits_le _ _ _ _ Hf); cbn; lia).
  destruct (Z.leb_spec 0 (sep_of ch_lbr s)) as [Hsep|_].
  - destruct (sep_of_pos ch_lbr s Hsep) as (s' & Hd & Hl & Hl').
    refine (agrees_bind _ _ _ _ _ _ (read_long_string_ok true (sep_of ch_lbr s) _ _ line _ Hsep H1 _ _ Hf1 _) _); [eauto|cbn; lia|lia|].
    intros [ls2 v] x rest line2 (_ & Hc2 & -> & Ha). apply found_value; [by right; right|done|done].
  - destruct (_ =? -1); [by refine (found_plain _ _ _ _ _ _ H1)|].
    exact (agrees_error _ _ _ _ _ _ _ H1 (fits_room _ _ Hf1)).
Qed.

(** The end of the loop. *)
Lemma agrees_last {S A B} (m : res A) (r : lexed B) Q (k : S -> res A) :
  agrees m r Q -> agrees (bind (bind m (fun t => Ok (inr t))) (fun r => match r with inl s => k s | inr r => Ok r end)) r Q.
Proof. destruct m, r; cbn; done. Qed.

Lemma llex_ok n k s line ls :
  conf s [] line ls -> fits [] s -> (length s < n)%nat -> (length s < k)%nat -> (length s < fuel)%nat ->
  agrees (loop k (llex_step reader reserved ch_dot fuel) ls) (scan reserved n s line) is_found.
Proof.
  revert k s line ls. induction n as [|n IH]; intros k s line ls Hc Hf Hn Hk Hfu; [lia|]. destruct k as [|k]; [lia|].
  assert (forall s' line' ls', conf s' [] line' ls' -> (length s' < length s)%nat ->
    agrees (loop k (llex_step reader reserved ch_dot fuel) ls') (scan reserved n s' line') is_found) as Hgo.
  { intros s' line' ls' H1 Hl. apply IH; [done|apply (fits_le _ _ _ _ Hf); cbn; lia|lia..]. }
  cbn [loop scan]. unfold llex_step at 1. rewrite (current_at _ _ _ _ Hc), (curr_newline _ _ _ _ Hc). destruct s as [|c s].
  { exists (ls, TK_EOS, None). split; [done|]. split; [done|]. split; [by right|]. by split; [eauto|]. }
  pose proof (byte_at _ _ _ _ _ Hc) as Hb. cbn [length] in *. destruct (newline c).
  { rewrite bind_bind. apply (inclinenumber_ok _ _ _ _ _ _ _ _ Hc); [done|]. intros ls1 H1. cbn [bind].
    apply Hgo; [done|]. pose proof (after_newline_length c s). lia. }
  destruct (c =? ch_dash) eqn:Ed.
  { apply Z.eqb_eq in Ed as ->. destruct (next_ok _ _ _ _ _ Hc) as (ls1 & -> & H1). cbn [bind].
    rewrite (current_at _ _ _ _ H1). destruct s as [|d s].
    { by refine (found_plain _ _ _ _ _ _ H1). }
    destruct (d =? ch_dash); cbn [negb].
    2: { by refine (found_plain _ _ _ _ _ _ H1). }
    destruct (next_ok _ _ _ _ _ H1) as (ls2 & -> & H2). cbn [bind length] in *. rewrite bind_bind.
    refine (agrees_bind _ _ _ _ _ _ (read_comment_ok _ _ _ H2 (fits_le _ _ _ _ Hf _) _) _); [cbn; lia|lia|].
    intros ls3 x rest line3 [H3 Hl]. apply Hgo; [done|lia]. }
  destruct (c =? ch_lbr) eqn:Elb.
  { apply Z.eqb_eq in Elb as ->. apply agrees_last, bracket_ok; [done|done|lia]. }
  destruct (c =? ch_eq) eqn:E1; [apply Z.eqb_eq in E1 as ->; apply agrees_last, maybe_equal_ok; [done|done]|].
  destruct (c =? ch_lt) eqn:E2; [apply Z.eqb_eq in E2 as ->; apply agrees_last, maybe_equal_ok; [done|done]|].
  destruct (c =? ch_gt) eqn:E3; [apply Z.eqb_eq in E3 as ->; apply agrees_last, maybe_equal_ok; [done|done]|].
  destruct (c =? ch_tilde) eqn:E4; [apply Z.eqb_eq in E4 as ->; apply agrees_last, maybe_equal_ok; [done|done]|].
  destruct ((c =? ch_quote) || (c =? ch_apos)) eqn:E5.
  { rewrite !bind_bind. assert (c = ch_quote \/ c = ch_apos) as Hq by lia.
    refine (agrees_bind _ _ _ _ _ _ (read_string_ok c s line ls Hq Hc Hf ltac:(lia)) _).
    intros [ls2 v] x rest line2 (H2 & -> & Ha). apply found_value; [by right; right|done|done]. }
  destruct (c =? ch_dot) eqn:E6.
  { apply Z.eqb_eq in E6 as ->. apply agrees_last, dot_ok; [done|done|lia]. }
  rewrite (byte_not_eoz c Hb). destruct (isspace c).
  { destruct (next_ok _ _ _ _ _ Hc) as (ls1 & -> & H1). cbn [bind]. apply Hgo; [done|lia]. }
  destruct (isdigit c).
  { rewrite !bind_bind. pose proof (read_numeral_ok _ _ _ _ _ Hc Hf ltac:(lia)) as Hnu.
    destruct (numeral (c :: s)) as [text rest]. cbn [app] in Hnu. destruct (number _ _ _) as [i rest' l'|msg l'|]; [|by destruct Hnu as (near & ->); exists near|done].
    destruct Hnu as ([ls3 v] & -> & -> & (r & ->) & Hb2). apply found_value; [by left|done|done]. }
  destruct (isalpha c || (c =? ch_under)); [apply agrees_last, read_name_ok; [done|done|lia]|].
  destruct (next_ok _ _ _ _ _ Hc) as (ls1 & -> & H1). cbn [bind]. exact (found_plain _ _ _ _ _ (byte_plain _ Hb) H1).
Qed.
End Follows.

(** * Tokens are not empty *)
Section Shorter.
Context {N : Type} `{NumberText N}.
Implicit Types (s rest : bytes) (line : Z).

Definition shorter {A} (n : nat) (r : lexed A) : Prop :=
  match r with Got _ rest _ => (length rest < n)%nat | _ => True end.

Lemma shorter_bind {A B} n m (r : lexed A) (k : A -> bytes -> Z -> lexed B) :
  shorter n r -> (forall a rest line, (length rest < n)%nat -> shorter m (k a rest line)) -> shorter m (lbind r k).
Proof. destruct r; cbn; auto. Qed.

Lemma shorter_push n p r : shorter n r -> shorter n (push p r).
Proof. by destruct r. Qed.

Lemma shorter_line {A} n line (k : Z -> lexed A) : shorter n (k (line + 1)) -> shorter n (next_line line k).
Proof. unfold next_line. by case_match. Qed.

Lemma shorter_le {A} n m (r : lexed A) : (n <= m)%nat -> shorter n r -> shorter m r.
Proof. destruct r; cbn; lia. Qed.

Lemma escape_value_length n v s : (length (snd (escape_value n v s)) <= length s)%nat.
Proof.
  revert v s. induction n as [|n IH]; intros v [|d s]; [done..|]. cbn [escape_value]. destruct (isdigit d); [|done].
  specialize (IH (10 * v + (d - 48)) s). cbn. lia.
Qed.

Lemma escape_shorter e s line : shorter (S (length s)) (escape e s line).
Proof.
  unfold escape. destruct (escape_code e); [cbn; lia|]. destruct (newline e).
  { apply shorter_line. pose proof (after_newline_length e s). cbn. lia. }
  destruct (isdigit e) eqn:Ed; [|cbn; lia]. rewrite escape_value_S, Ed.
  pose proof (escape_value_length 2 (10 * 0 + (e - 48)) s). destruct (escape_value 2 _ s) as [v rest].
  case_match; cbn in *; [done|lia].
Qed.

Lemma string_body_shorter n del s line : shorter (length s) (string_body n del s line).
Proof.
  revert s line. induction n as [|n IH]; intros s line; [done|]. cbn [string_body]. destruct s as [|c s]; [done|].
  destruct (c =? del); [cbn; lia|]. destruct (newline c); [done|]. destruct (c =? ch_slash).
  2: { apply shorter_push, (shorter_le (length s)), IH. cbn. lia. }
  destruct s as [|e s]; [done|]. apply (shorter_bind _ _ _ _ (escape_shorter e s line)). intros v rest l Hl.
  apply shorter_push, (shorter_le (length rest)), IH. cbn. lia.
Qed.

Lemma tail_length s : (length (tail s) <= length s)%nat.
Proof. destruct s; cbn; lia. Qed.

Lemma long_body_shorter n keep sep s line : shorter (length s) (long_body n keep sep s line).
Proof.
  revert s line. induction n as [|n IH]; intros s line; [done|]. cbn [long_body]. destruct s as [|c s]; [done|].
  pose proof (while_le is_eq s). pose proof (tail_length (drop_while is_eq s)). pose proof (after_newline_length c s).
  assert (forall p s' l, (length s' <= length s)%nat -> shorter (length (c :: s)) (push p (long_body n keep sep s' l))) as Hgo.
  { intros p s' l Hl. apply shorter_push, (shorter_le (length s')), IH. cbn. lia. }
  repeat case_match; try done; try (apply Hgo; lia); [cbn; lia|]. apply shorter_line, Hgo. lia.
Qed.

Lemma long_string_shorter keep sep s line : shorter (Nat.max 1 (length s)) (long_string keep sep s line).
Proof.
  assert (forall n s' l, (length s' <= length s)%nat -> shorter (Nat.max 1 (length s)) (long_body n keep sep s' l)) as Hgo.
  { intros n s' l Hl. apply (shorter_le (length s')), long_body_shorter. lia. }
  unfold long_string. destruct s as [|c0 [|c s]]; try (apply Hgo; cbn; lia). pose proof (after_newline_length c s).
  destruct (newline c); [apply shorter_line|]; apply Hgo; cbn; lia.
Qed.

Lemma comment_shorter s line : shorter (S (length s)) (comment s line).
Proof.
  unfold comment. destruct s as [|b s]; [cbn; lia|]. pose proof (while_le not_newline (b :: s)). destruct (_ && _); [|cbn in *; lia].
  apply (shorter_bind _ _ _ _ (long_string_shorter _ _ _ _)). intros a rest l Hl. pose proof (while_le is_eq s). cbn in *. lia.
Qed.

Lemma numeral_length s : (length (snd (numeral s)) <= pred (length s))%nat.
Proof.
  destruct s as [|c s]; [done|]. unfold numeral. pose proof (while_le numeral_char s).
  pose proof (one_of_length "Ee" (drop_while numeral_char s)). destruct (one_of "Ee" _) as [e s2]. cbn [fst snd] in *.
  pose proof (one_of_length "+-" s2). destruct e; [|destruct (one_of "+-" s2) as [sign s3]]; cbn [fst snd length pred] in *.
  - pose proof (while_le name_char s2). lia.
  - pose proof (while_le name_char s3). lia.
Qed.

Lemma number_shorter text rest n line : (length rest < n)%nat -> shorter n (number (N := N) text rest line).
Proof. unfold number. by case_match. Qed.

Lemma dots_shorter s line : shorter (S (length s)) (dots (N := N) s line).
Proof.
  unfold dots. pose proof (one_of_length "." s) as Hw. destruct (one_of "." s) as [[|d e] s2]; cbn [fst snd length] in *.
  - destruct s as [|d s]; [cbn; lia|]. pose proof (numeral_length (d :: s)). destruct (isdigit d); [|cbn; lia].
    destruct (numeral (d :: s)) as [text rest]. apply number_shorter. cbn in *. lia.
  - pose proof (one_of_length "." s2). destruct (one_of "." s2) as [[|d' e'] s3]; cbn in *; lia.
Qed.

Lemma bracket_shorter s line : shorter (S (length s)) (bracket (N := N) s line).
Proof.
  unfold bracket. pose proof (while_le is_eq s). destruct (0 <=? _).
  - apply (shorter_bind _ _ _ _ (long_string_shorter _ _ _ _)). intros a rest l Hl. cbn. lia.
  - case_match; cbn; [lia|done].
Qed.

Variable reserved : gmap bytes Z.

(** At the end of the input the token is the end of the stream. *)
Definition consumes s (r : lexed (Z * option (SemInfo N))) : Prop :=
  match r with Got i rest _ => (length rest < length s)%nat \/ i = (TK_EOS, None) /\ rest = [] | _ => True end.

Lemma consumes_shorter s r : shorter (length s) r -> consumes s r.
Proof. destruct r; cbn; auto. Qed.

Lemma scan_consumes n s line : consumes s (scan reserved n s line).
Proof.
  revert s line. induction n as [|n IH]; intros s line; [done|]. cbn [scan]. destruct s as [|c s]; [cbn; auto|].
  assert (forall s' l, (length s' <= length s)%nat -> consumes (c :: s) (scan reserved n s' l)) as Hgo.
  { intros s' l Hl. specialize (IH s' l). destruct (scan reserved n s' l); cbn in *; [|done..]. destruct IH; [left; lia|by right]. }
  pose proof (after_newline_length c s). destruct (newline c).
  { unfold next_line. case_match; [done|]. by apply Hgo. }
  destruct (c =? ch_dash).
  { destruct s as [|d s]; [cbn; lia|]. destruct (d =? ch_dash); [|cbn; lia].
    pose proof (comment_shorter s line). destruct (comment s line) as [a rest l| |]; [|done..]. apply Hgo. cbn in *. lia. }
  destruct (c =? ch_lbr); [apply consumes_shorter, bracket_shorter|].
  assert (forall c tk, consumes (c :: s) (equal_or c tk s line)) as Heq.
  { intros. unfold equal_or. repeat case_match; cbn; lia. }
  repeat (case_match; [done|]). destruct (_ || _).
  { apply consumes_shorter. refine (shorter_bind _ _ _ _ (string_body_shorter _ _ _ _) _). intros. cbn. lia. }
  destruct (c =? ch_dot); [apply consumes_shorter, dots_shorter|]. destruct (isspace c); [apply Hgo; lia|]. destruct (isdigit c).
  { pose proof (numeral_length (c :: s)). destruct (numeral (c :: s)) as [text rest]. apply consumes_shorter, number_shorter. cbn in *. lia. }
  destruct (_ || _); [|cbn; lia]. apply consumes_shorter. unfold word. pose proof (while_le name_char s). case_match; cbn; lia.
Qed.
End Shorter.

(** * Sequences of tokens *)
Section Sequences.
Context {N R : Type} `{NumberText N}.
Variable reader : R -> bytes * R.
Context `{!Reader reader}.
Variable reserved : gmap bytes Z.
Variable fuel : nat.
Implicit Types (ls : LexState N R) (s b rest : bytes) (line : Z).

Abbreviation item := (Z * option (SemInfo N))%type.

(** The value of a token, when it has one. *)
Definition value (t : Token N) : option (SemInfo N) :=
  if (token t =? TK_NUMBER) || (token t =? TK_NAME) || (token t =? TK_STRING) then seminfo t else None.

(** The tokens that a client sees, and how it ends. *)
Fixpoint lex_tokens (n : nat) ls : list item * res unit :=
  match n with
  | O => ([], Timeout)
  | S n =>
      match luaX_next reader reserved ch_dot fuel ls with
      | Ok ls =>
          if token (ls_t ls) =? TK_EOS then ([], Ok tt)
          else let '(l, e) := lex_tokens n ls in ((token (ls_t ls), value (ls_t ls)) :: l, e)
      | Err e => ([], Err e)
      | Timeout => ([], Timeout)
      end
  end.

Fixpoint scan_tokens (n : nat) s line : list item * lexed unit :=
  match n with
  | O => ([], Stuck)
  | S n =>
      match scan reserved (S (length s)) s line with
      | Got (t, v) rest line =>
          if t =? TK_EOS then ([], Got tt rest line)
          else let '(l, e) := scan_tokens n rest line in ((t, v) :: l, e)
      | Bad msg line => ([], Bad msg line)
      | Stuck => ([], Stuck)
      end
  end.

(** Between two tokens, with [s] to be read. *)
Record reading s line ls : Prop := {
  rd_at : at_ reader s ls;
  rd_line : linenumber ls = line;
  rd_lookahead : token (ls_lookahead ls) = TK_EOS;
  rd_decpoint : decpoint ls = ch_dot;
  rd_buffer : 0 < buffsize ls
}.

Hypothesis reserved_small : forall w r, reserved !! w = Some r -> r <= Z.of_nat NUM_RESERVED.

Definition start ls : Z * Token N * Token N * bytes := (linenumber ls, ls_t ls, ls_lookahead ls, source ls).

(** What a call of luaX_next leaves. *)
Record was_read ls ls' (i : item) rest line : Prop := {
  wr_reading : reading rest line ls';
  wr_token : (token (ls_t ls'), value (ls_t ls')) = i;
  wr_source : source ls' = source ls;
  wr_lastline : lastline ls' = linenumber ls;
  wr_anchored : forall x, value (ls_t ls') = Some (SemTS x) -> x ∈ fs_h ls';
  wr_strings : fs_h ls ⊆ fs_h ls'
}.

Lemma value_valued t v rest old : valued (t, v) rest -> value (with_value t v old) = v.
Proof.
  unfold valued, value, with_value, TK_NUMBER, TK_NAME, TK_STRING, TK_EOS. cbn. destruct v; cbn.
  - intros Ht. replace ((t =? 284) || (t =? 285) || (t =? 286)) with true by lia. done.
  - intros Ht. replace ((t =? 284) || (t =? 285) || (t =? 286)) with false by lia. done.
Qed.

Lemma next_scans s line ls :
  reading s line ls -> (length s < fuel)%nat -> Z.of_nat (length s) < 2 ^ 62 ->
  agrees (start ls) (luaX_next reader reserved ch_dot fuel ls) (scan reserved (S (length s)) s line) (was_read ls).
Proof.
  intros [Ha Hl Hla Hd Hb] Hf Hs. unfold luaX_next. cbn [set_lastline ls_lookahead]. rewrite Hla, Z.eqb_refl. cbn [negb].
  set (ls0 := luaZ_resetbuffer (set_lastline ls (linenumber ls))).
  assert (conf reader (start ls) (fs_h ls) s [] line ls0) as Hc by (split; cbn; try done; split; [lia|done]).
  pose proof (llex_ok reader reserved fuel (start ls) (fs_h ls) reserved_small (S (length s)) fuel s line ls0 Hc
    ltac:(unfold fits; cbn; lia) ltac:(lia) Hf Hf) as Hx. unfold llex. fold ls0.
  destruct (scan reserved (S (length s)) s line) as [i rest l|msg l|]; [|by destruct Hx as (near & ->); exists near|done].
  destruct Hx as ([[ls1 t] v] & -> & -> & Hv & (b & Hc1) & Han). cbn [bind]. eexists. split; [done|].
  pose proof (value_valued _ _ _ (ls_t ls1) Hv) as Hval. destruct Hc1 as [H1 H2 [H3 H3'] H4 H5 H6 H7]. unfold frame, start in H5.
  injection H5 as H51 H52 H53 H54. split; cbn; try done; [|by rewrite Hval|by rewrite Hval].
  split; cbn; try done. by rewrite H53.
Qed.

Lemma lex_tokens_scan n s line ls :
  reading s line ls -> (length s < fuel)%nat -> Z.of_nat (length s) < 2 ^ 62 -> (length s < n)%nat ->
  exists e', lex_tokens n ls = (fst (scan_tokens n s line), e') /\
    match snd (scan_tokens n s line) with
    | Got _ _ _ => e' = Ok tt
    | Bad msg line => exists near, e' = Err (lexmsg (source ls) line msg near)
    | Stuck => False
    end.
Proof.
  revert s line ls. induction n as [|n IH]; intros s line ls Hr Hf Hs Hn; [lia|]. cbn [lex_tokens scan_tokens].
  pose proof (next_scans s line ls Hr Hf Hs) as Hx. pose proof (scan_consumes reserved (S (length s)) s line) as Hco.
  destruct (scan reserved (S (length s)) s line) as [[t v] rest l|msg l|]; [|destruct Hx as (near & ->); cbn; eauto|done].
  destruct Hx as (ls1 & -> & Hw). pose proof (wr_token _ _ _ _ _ Hw) as [= -> ->].
  destruct (t =? TK_EOS) eqn:Et; [cbn; eauto|]. destruct Hco as [Hlt|[Heos _]]; [|by simplify_eq].
  destruct (IH rest l ls1 (wr_reading _ _ _ _ _ Hw) ltac:(lia) ltac:(lia) ltac:(lia)) as (e' & -> & He).
  rewrite (wr_source _ _ _ _ _ Hw) in He. destruct (scan_tokens n rest l) as [l' e]. by exists e'.
Qed.

(** A look ahead keeps the current token. *)
Lemma lookahead_scans s line ls :
  reading s line ls -> (length s < fuel)%nat -> Z.of_nat (length s) < 2 ^ 62 ->
  agrees (start ls) (luaX_lookahead reader reserved ch_dot fuel ls) (scan reserved (S (length s)) s line) (fun ls' i rest line' =>
    (token (ls_lookahead ls'), value (ls_lookahead ls')) = i /\ (fst i = TK_EOS -> rest = []) /\ ls_t ls' = ls_t ls /\ source ls' = source ls /\
    reading rest line' (set_tokens ls' (ls_lookahead ls') (mkToken TK_EOS (seminfo (ls_lookahead ls'))))).
Proof.
  intros [Ha Hl Hla Hd Hb] Hf Hs. unfold luaX_lookahead. set (ls0 := luaZ_resetbuffer ls).
  assert (conf reader (frame ls) (fs_h ls) s [] line ls0) as Hc by (split; cbn; try done; split; [lia|done]).
  pose proof (llex_ok reader reserved fuel (frame ls) (fs_h ls) reserved_small (S (length s)) fuel s line ls0 Hc
    ltac:(unfold fits; cbn; lia) ltac:(lia) Hf Hf) as Hx. unfold llex. fold ls0.
  destruct (scan reserved (S (length s)) s line) as [i rest l|msg l|]; [|by destruct Hx as (near & ->); exists near|done].
  destruct Hx as ([[ls1 t] v] & -> & -> & Hv & (b & Hc1) & Han). cbn [bind]. eexists. split; [done|].
  pose proof (value_valued _ _ _ (ls_lookahead ls1) Hv) as Hval. destruct Hc1 as [H1 H2 [H3 H3'] H4 H5 H6 H7]. unfold frame in H5.
  injection H5 as H51 H52 H53 H54. cbn. rewrite Hval. split_and!; try done. exact (valued_eos _ _ _ Hv).
Qed.

Lemma setinput_reading z s source buff ls :
  content reader z s -> exists ls', luaX_setinput reader z source buff ls = Ok ls' /\ reading s 1 ls' /\ LuaLex.source ls' = source.
Proof.
  intros Hz. unfold luaX_setinput, next. cbn [ls_z]. destruct (zgetc_ok reader _ _ Hz) as (z' & -> & Hz'). cbn [bind].
  eexists. split; [done|]. split; [|done]. split; cbn; try done. destruct s; [done|]. cbn. naive_solver.
Qed.
End Sequences.

Lemma luaX_init_small w r : luaX_init !! w = Some r -> r <= Z.of_nat NUM_RESERVED.
Proof.
  assert (map_Forall (fun _ r => r <= Z.of_nat NUM_RESERVED) luaX_init) as Hi by (apply (bool_decide_unpack _); vm_compute; done).
  apply Hi.
Qed.

(** * Tokens that are written and read back *)
Section Printed.
Context {N : Type} `{NumberText N}.
Implicit Types (s rest w x : bytes) (line : Z) (i : Z * option (SemInfo N)).
Abbreviation item := (Z * option (SemInfo N))%type.

(** The text of a token: luaX_token2str, and %q of string.format. *)
Definition print_item i : bytes :=
  match i with
  | (t, None) => luaX_token2str t
  | (t, Some (SemTS x)) => if t =? TK_STRING then addquoted x [] else x
  | (t, Some (SemR _)) => []
  end.
Definition print_items (l : list item) : bytes := flat_map (fun i => print_item i ++ [32]) l.

Definition symbols : bytes := lit "!#$%&()*+,-./:;<=>?@[\]^`{|}~".
Definition name_start (c : Z) : bool := isalpha c || (c =? ch_under).
Definition is_name (w : bytes) : bool := match w with c :: w => name_start c && forallb name_char w | [] => false end.

(** What can be written: characters and words of the language, names, strings. *)
Definition printable i : Prop :=
  match i with
  | (t, None) => t ∈ symbols \/ FIRST_RESERVED <= t < TK_NUMBER
  | (t, Some (SemTS x)) => t = TK_STRING /\ Forall is_byte x \/ t = TK_NAME /\ is_name x = true /\ luaX_init !! x = None
  | (t, Some (SemR _)) => False
  end.

Lemma quote_loop_app x b : quote_loop x b = b ++ flat_map quote_char x.
Proof. revert b. induction x as [|c x IH]; intros b; cbn; [by rewrite app_nil_r|]. by rewrite IH, app_assoc. Qed.

Lemma addquoted_eq x : addquoted x [] = ch_quote :: flat_map quote_char x ++ [ch_quote].
Proof. unfold addquoted. by rewrite quote_loop_app. Qed.

(** A line break in a string is written after a backslash, and what follows it
    is not a carriage return, which would belong to it. *)
Lemma after_quoted x rest : after_newline ch_nl (flat_map quote_char x ++ ch_quote :: rest) = flat_map quote_char x ++ ch_quote :: rest.
Proof.
  destruct x as [|c x]; [done|]. cbn [flat_map]. unfold quote_char.
  destruct (_ || _) eqn:E1; [done|]. destruct (Z.eqb_spec c 13); [done|]. destruct (c =? 0); [done|]. cbn.
  replace (newline c) with false; [done|]. unfold newline, ch_nl, ch_cr. lia.
Qed.

Lemma string_body_escape n e s line :
  string_body (S n) ch_quote (ch_slash :: e :: s) line = lbind (escape e s line) (fun v rest line => push v (string_body n ch_quote rest line)).
Proof. done. Qed.

Lemma quoted_body n x rest line :
  (length (flat_map quote_char x ++ ch_quote :: rest) < n)%nat -> line + Z.of_nat (length x) < MAX_INT ->
  exists line', string_body n ch_quote (flat_map quote_char x ++ ch_quote :: rest) line = Got x rest line' /\
    line' <= line + Z.of_nat (length x).
Proof.
  revert x line. induction n as [|n IH]; intros x line Hn Hl; [lia|]. destruct x as [|c x].
  { exists line. cbn. split; [done|lia]. }
  cbn [flat_map length] in *. rewrite <- app_assoc in *. pose proof (after_quoted x rest) as Haq.
  set (s := flat_map quote_char x ++ ch_quote :: rest) in *. rewrite length_app in Hn.
  assert (forall l, (length s < n)%nat -> l <= line + 1 -> exists line', push [c] (string_body n ch_quote s l) = Got (c :: x) rest line' /\ line' <= line + Z.of_nat (S (length x))) as Hgo.
  { intros l Hs Hl1. destruct (IH x l Hs ltac:(lia)) as (line' & He & Hle). fold s in He. rewrite He. exists line'. split; [done|lia]. }
  revert Hn. unfold quote_char.
  destruct (Z.eqb_spec c 34) as [->|]; [cbn; intros; apply Hgo; lia|].
  destruct (Z.eqb_spec c 92) as [->|]; [cbn; intros; apply Hgo; lia|].
  destruct (Z.eqb_spec c 10) as [->|].
  { intros Hn. cbn [orb]. change ([92; 10] ++ s) with (ch_slash :: ch_nl :: s). rewrite string_body_escape.
    change (escape ch_nl s line) with (next_line line (Got [ch_nl] (after_newline ch_nl s))). rewrite Haq.
    unfold next_line. destruct (Z.leb_spec MAX_INT (line + 1)); [lia|]. cbn in Hn. apply Hgo; lia. }
  destruct (Z.eqb_spec c 13) as [->|]; [cbn; intros; apply Hgo; lia|].
  destruct (Z.eqb_spec c 0) as [->|]; [cbn; intros; apply Hgo; lia|]. cbn.
  intros Hn. replace (c =? ch_quote) with false by (unfold ch_quote; lia).
  replace (newline c) with false by (unfold newline, ch_nl, ch_cr; lia).
  replace (c =? ch_slash) with false by (unfold ch_slash; lia). apply Hgo; lia.
Qed.

Lemma take_name w rest : forallb name_char w = true -> take_while name_char (w ++ 32 :: rest) = w /\ drop_while name_char (w ++ 32 :: rest) = 32 :: rest.
Proof. induction w as [|c w IH]; cbn; [done|]. intros [-> Hw]%andb_prop. destruct (IH Hw) as [-> ->]. done. Qed.

(** A word followed by a blank. *)
Lemma scan_word n w rest line :
  is_name w = true -> scan luaX_init (S n) (w ++ 32 :: rest) line = word luaX_init (N := N) w (32 :: rest) line.
Proof.
  destruct w as [|c w]; [done|]. cbn [is_name]. intros [Hc Hw]%andb_prop. cbn [app scan].
  destruct (take_name w rest Hw) as [-> ->].
  assert (isalpha c || (c =? ch_under) = true) as -> by done.
  assert (c = 95 \/ 65 <= c <= 90 \/ 97 <= c <= 122) as Hr.
  { unfold name_start, isalpha, isupper, islower, in_range, ch_under in Hc. lia. }
  replace (newline c) with false by (unfold newline, ch_nl, ch_cr; lia).
  replace (isspace c) with false by (unfold isspace, in_range; lia).
  replace (isdigit c) with false by (unfold isdigit, in_range; lia).
  unfold ch_dash, ch_lbr, ch_eq, ch_lt, ch_gt, ch_tilde, ch_quote, ch_apos, ch_dot.
  do 9 (rewrite (proj2 (Z.eqb_neq c _)) by lia). done.
Qed.

Lemma scan_symbol n c rest line : c ∈ symbols -> scan luaX_init (S n) (c :: 32 :: rest) line = Got (c, @None (SemInfo N)) (32 :: rest) line.
Proof.
  intros Hc. assert (Forall (fun c => scan luaX_init (S n) (c :: 32 :: rest) line = Got (c, @None (SemInfo N)) (32 :: rest) line) symbols) as Hs.
  { repeat constructor. }
  by apply (proj1 (Forall_forall _ _) Hs).
Qed.

(** The words and operators of the language. *)
Definition reserved_text (t : Z) : bytes := default [] (luaX_tokens !! Z.to_nat (t - FIRST_RESERVED)).
Definition is_keyword (t : Z) : bool :=
  is_name (reserved_text t) && match luaX_init !! reserved_text t with Some r => r =? t - 256 | None => false end || (277 <? t).

Lemma scan_reserved n t rest line :
  FIRST_RESERVED <= t < TK_NUMBER -> scan luaX_init (S n) (luaX_token2str (N := N) t ++ 32 :: rest) line = Got (t, None) (32 :: rest) line.
Proof.
  intros Ht. assert (luaX_token2str (N := N) t = reserved_text t) as ->.
  { unfold luaX_token2str. by rewrite (proj2 (Z.ltb_ge t FIRST_RESERVED)) by lia. }
  assert (In t (seqZ FIRST_RESERVED (TK_NUMBER - FIRST_RESERVED))) as Hin by (apply list_elem_of_In, elem_of_seqZ; lia).
  assert (forallb is_keyword (seqZ FIRST_RESERVED (TK_NUMBER - FIRST_RESERVED)) = true) as Hw by (vm_compute; reflexivity).
  apply (proj1 (forallb_forall _ _) Hw t), orb_prop in Hin as [[Hd Hi]%andb_prop|Hd].
  - rewrite scan_word by done. unfold word. destruct (luaX_init !! reserved_text t) as [r|]; [|done].
    apply Z.eqb_eq in Hi as ->. cbn. replace (0 <? t - 256) with true by (unfold FIRST_RESERVED in *; lia). f_equal. f_equal. unfold FIRST_RESERVED. lia.
  - assert (In t [278; 279; 280; 281; 282; 283]) as Ht2 by (unfold TK_NUMBER in Ht; cbn; lia).
    assert (Forall (fun t => scan luaX_init (S n) (reserved_text t ++ 32 :: rest) line = Got (t, @None (SemInfo N)) (32 :: rest) line) [278; 279; 280; 281; 282; 283]) as Ho by (repeat constructor).
    apply (proj1 (Forall_forall _ _) Ho). by apply list_elem_of_In.
Qed.

Lemma scan_quoted n x rest line :
  line + Z.of_nat (length x) < MAX_INT ->
  exists line', scan luaX_init (S n) (addquoted x [] ++ rest) line = Got (TK_STRING, Some (SemTS (N := N) x)) rest line' /\ line' <= line + Z.of_nat (length x).
Proof.
  intros Hl. rewrite addquoted_eq. cbn [app]. rewrite <- app_assoc. cbn [app].
  destruct (quoted_body (S (length (flat_map quote_char x ++ ch_quote :: rest))) x rest line ltac:(lia) Hl) as (line' & He & Hle).
  exists line'. split; [|done]. change (scan luaX_init (S n) (ch_quote :: flat_map quote_char x ++ ch_quote :: rest) line)
    with (lbind (string_body (S (length (flat_map quote_char x ++ ch_quote :: rest))) ch_quote (flat_map quote_char x ++ ch_quote :: rest) line)
           (fun x rest line => Got (TK_STRING, Some (SemTS (N := N) x)) rest line)). by rewrite He.
Qed.

Lemma flat_map_length x : (length x <= length (flat_map quote_char x))%nat.
Proof.
  induction x as [|c x IH]; cbn; [done|]. rewrite length_app.
  assert (1 <= length (quote_char c))%nat by (unfold quote_char; repeat case_match; cbn; lia). lia.
Qed.

Lemma scan_printed n i rest line :
  printable i -> line + Z.of_nat (length (print_item i)) < MAX_INT ->
  exists line', scan luaX_init (S n) (print_item i ++ 32 :: rest) line = Got i (32 :: rest) line' /\ line' <= line + Z.of_nat (length (print_item i)).
Proof.
  destruct i as [t [[r|x]|]]; cbn [printable print_item]; [done|..].
  - intros [[-> Hx]|(-> & Hx & Hi)] Hl.
    + rewrite Z.eqb_refl in *. assert (length x <= length (addquoted x []))%nat.
      { rewrite addquoted_eq. pose proof (flat_map_length x). cbn. rewrite length_app. lia. }
      destruct (scan_quoted n x (32 :: rest) line ltac:(lia)) as (line' & He & Hle). exists line'. split; [done|lia].
    + cbn [Z.eqb]. exists line. change (TK_NAME =? TK_STRING) with false in *. cbv iota in *.
      rewrite scan_word by done. unfold word. rewrite Hi. split; [done|lia].
  - intros [Ht|Ht] Hl.
    + exists line. assert (luaX_token2str (N := N) t = [t]) as ->.
      { assert (Forall (fun t => luaX_token2str (N := N) t = [t]) symbols) as Hs by (repeat constructor). by apply (proj1 (Forall_forall _ _) Hs). }
      cbn [app]. rewrite scan_symbol by done. split; [done|lia].
    + exists line. rewrite scan_reserved by done. split; [done|lia].
Qed.

Lemma printable_not_eos i : printable i -> (fst i =? TK_EOS) = false.
Proof.
  destruct i as [t [[r|x]|]]; cbn [printable fst]; [done|by intros [[-> _]|(-> & _)]|].
  assert (forallb (fun c => c <? 256) symbols = true) as Hs by (vm_compute; reflexivity).
  intros [Ht|Ht]; [|unfold TK_NUMBER, TK_EOS in *; lia].
  apply list_elem_of_In, (proj1 (forallb_forall _ _) Hs) in Ht. unfold TK_EOS. lia.
Qed.

Lemma items_length l : (length l <= length (print_items l))%nat.
Proof.
  induction l as [|i l IH]; cbn; [done|]. rewrite !length_app. cbn. unfold print_items in IH. lia.
Qed.

Lemma scan_tokens_printed n blank l line :
  blank = [] \/ blank = [32] -> Forall printable l -> line + Z.of_nat (length (print_items l)) < MAX_INT -> (length l < n)%nat ->
  exists line', scan_tokens luaX_init n (blank ++ print_items l) line = (l, Got tt [] line').
Proof.
  intros Hblank Hl. revert n blank line Hblank. induction Hl as [|i l Hi Hl IH]; intros n blank line Hblank Hlen Hn; (destruct n as [|n]; [cbn in *; lia|]).
  { exists line. by destruct Hblank as [-> | ->]. }
  cbn [print_items flat_map length] in *. rewrite length_app in Hlen.
  assert (print_item i ++ [32] ++ print_items l = (print_item i ++ [32]) ++ print_items l) as Happ by (by rewrite app_assoc).
  assert (exists line', scan luaX_init (S (length (blank ++ (print_item i ++ [32]) ++ print_items l))) (blank ++ (print_item i ++ [32]) ++ print_items l) line = Got i (32 :: print_items l) line' /\
    line' <= line + Z.of_nat (length (print_item i))) as (line' & He & Hle).
  { rewrite length_app in Hlen. rewrite <- Happ. destruct Hblank as [-> | ->].
    - apply scan_printed; [done|lia].
    - change (scan luaX_init (S (length ([32] ++ print_item i ++ [32] ++ print_items l))) ([32] ++ print_item i ++ [32] ++ print_items l) line)
        with (scan luaX_init (S (length (print_item i ++ [32] ++ print_items l))) (print_item i ++ [32] ++ print_items l) line).
      apply scan_printed; [done|lia]. }
  unfold print_items in *. cbn [scan_tokens]. rewrite He. destruct i as [t v] eqn:Ei. rewrite <- Ei in *.
  pose proof (printable_not_eos i Hi) as Ht. rewrite Ei in Ht. cbn [fst] in Ht. rewrite Ht. rewrite length_app in Hlen. cbn [length] in Hlen.
  destruct (IH n [32] line' ltac:(by right) ltac:(lia) ltac:(lia)) as (line2 & Hr). cbn [app] in Hr. rewrite Hr. exists line2. by rewrite Ei.
Qed.
End Printed.

(** * Numbers that are decimal digits *)
Module Digits.
Fixpoint digits (b : bytes) (x : Z) (n : nat) : Z * nat :=
  match b with c :: b => if isdigit c then digits b (10 * x + (c - 48)) (S n) else (x, n) | [] => (x, n) end.
Fixpoint decimal (fuel : nat) (n : Z) : bytes :=
  match fuel with O => [] | S f => if n <? 10 then [48 + n] else decimal f (n / 10) ++ [48 + n mod 10] end.
#[export] Instance digits_text : NumberText Z := {|
  strtod b := digits b 0 0;
  strtoul b _ := (0, 0%nat);
  cast_num x := x;
  number2str := decimal 20
|}.
Definition fresh : LexState Z bytes := mkLex 0 0 0 (mkToken 0 None) (mkToken TK_EOS None) ∅ (luaZ_init []) [] 32 [] ch_dot.
Definition chunk : bytes := lit "x = 12 .. 'a\065' --[=[ ] ]=] ~= while".

(** strchr finds the zero at the end of its set: a zero byte after a dot is
    taken for a second dot. *)
Example nul_is_a_dot : scan (N := Z) luaX_init 3 [46; 0; 120] 1 = Got (TK_CONCAT, None) [120] 1.
Proof. reflexivity. Qed.
End Digits.
Import Digits.

(** * Theorems *)

(** A chunk is read: the tokens from the first call of luaX_next on. *)
Definition lex_chunk {N R : Type} `{NumberText N} (reader : R -> bytes * R) (fuel n : nat) (z : Zio R) (source buff : bytes) (ls : LexState N R) : list (Z * option (SemInfo N)) * res unit :=
  match luaX_setinput reader z source buff ls with
  | Ok ls => lex_tokens reader luaX_init fuel n ls
  | Err e => ([], Err e)
  | Timeout => ([], Timeout)
  end.

(** C3: the analyzer reads the tokens of the scanner.  For every way in which the
    reader cuts the chunk into blocks, the tokens that luaX_next gives one after
    another, with their values, are those of the scanner on the whole chunk, and it
    ends as the scanner does: at the end of the chunk, or with the message and
    the line of the same error; it does not read past the end or fill its
    buffer, and every loop ends. *)
Theorem lexer_reads_tokens {N R : Type} `{NumberText N} (reader : R -> bytes * R) `{!Reader reader}
    fuel n z s source buff (ls : LexState N R) :
  content reader z s -> (length s < fuel)%nat -> (length s < n)%nat -> Z.of_nat (length s) < 2 ^ 62 ->
  exists e, lex_chunk reader fuel n z source buff ls = (fst (scan_tokens luaX_init n s 1), e) /\
    match snd (scan_tokens (N := N) luaX_init n s 1) with
    | Got _ _ _ => e = Ok tt
    | Bad msg line => exists near, e = Err (lexmsg (N := N) source line msg near)
    | Stuck => False
    end.
Proof.
  intros Hz Hf Hn Hs. unfold lex_chunk. destruct (setinput_reading reader z s source buff ls Hz) as (ls1 & -> & Hr & <-).
  exact (lex_tokens_scan reader luaX_init fuel luaX_init_small n s 1 ls1 Hr Hf Hs Hn).
Qed.

Lemma lexer_reads_tokens_witness :
  fst (lex_chunk (chunk_reader 2) 60 60 (luaZ_init Digits.chunk) (lit "=x") [] Digits.fresh) =
  [(TK_NAME, Some (SemTS (lit "x"))); (ch_eq, None); (TK_NUMBER, Some (SemR 12)); (TK_CONCAT, None);
   (TK_STRING, Some (SemTS (lit "aA"))); (TK_NE, None); (TK_WHILE, None)].
Proof.
  assert (Reader (chunk_reader 2)) as Hr by (apply chunk_reader_small; reflexivity).
  destruct (lexer_reads_tokens (chunk_reader 2) 60 60 (luaZ_init Digits.chunk) Digits.chunk (lit "=x") [] Digits.fresh) as (e & He & _).
  - apply init_content, chunk_delivers, lit_byte.
  - apply Nat.ltb_lt. vm_compute. reflexivity.
  - apply Nat.ltb_lt. vm_compute. reflexivity.
  - reflexivity.
  - rewrite He. vm_compute. reflexivity.
Defined.

(** C13: tokens that are written are read back.  A sequence of symbols, words of the
    language, names and strings of any bytes, written with luaX_token2str and the
    format %q, a blank after each, is what the analyzer reads, however the
    text is cut into blocks. *)
Theorem printed_tokens_read_back {N R : Type} `{NumberText N} (reader : R -> bytes * R) `{!Reader reader}
    fuel z l source buff (ls : LexState N R) :
  content reader z (print_items l) -> Forall printable l ->
  (length (print_items l) < fuel)%nat -> 1 + Z.of_nat (length (print_items l)) < MAX_INT ->
  lex_chunk reader fuel fuel z source buff ls = (l, Ok tt).
Proof.
  intros Hz Hl Hf Hm. unfold lex_chunk. destruct (setinput_reading reader z _ source buff ls Hz) as (ls1 & -> & Hr & _).
  assert (MAX_INT < 2 ^ 62) by done. pose proof (items_length l).
  destruct (lex_tokens_scan reader luaX_init fuel luaX_init_small fuel _ 1 ls1 Hr Hf ltac:(lia) Hf) as (e & -> & He).
  destruct (scan_tokens_printed fuel [] l 1 ltac:(by left) Hl Hm ltac:(lia)) as (line & Hs). cbn [app] in Hs. rewrite Hs in *. cbn in *. by rewrite He.
Qed.

Lemma printed_tokens_read_back_witness :
  let l := [(TK_NAME, Some (SemTS (lit "x"))); (ch_eq, None); (TK_STRING, Some (SemTS [34; 10; 0; 49])); (TK_WHILE, None)] in
  lex_chunk (chunk_reader 2) 60 60 (luaZ_init (print_items (N := Z) l)) (lit "=x") [] Digits.fresh = (l, Ok tt).
Proof.
  assert (Reader (chunk_reader 2)) as Hr by (apply chunk_reader_small; reflexivity).
  apply (printed_tokens_read_back (chunk_reader 2) 60).
  - apply init_content, chunk_delivers. apply (bool_decide_unpack _). vm_compute. exact I.
  - apply Forall_cons; split; [right; split_and!; reflexivity|].
    apply Forall_cons; split; [left; apply (bool_decide_unpack _); vm_compute; exact I|].
    apply Forall_cons; split; [left; split; [reflexivity|apply (bool_decide_unpack _); vm_compute; exact I]|].
    apply Forall_cons; split; [right; split; [discriminate|reflexivity]|constructor].
  - apply Nat.ltb_lt. vm_compute. reflexivity.
  - reflexivity.
Defined.

(** C31: looking ahead changes nothing.  A token that is looked at and then taken
    is the one that would have been read, with the same value, and the
    analyzer goes on behind it; errors are those of reading it, and the
    current token stays while the analyzer looks ahead. *)
Theorem lookahead_then_next {N R : Type} `{NumberText N} (reader : R -> bytes * R) `{!Reader reader} fuel s line (ls : LexState N R) :
  reading reader s line ls -> (length s < fuel)%nat -> Z.of_nat (length s) < 2 ^ 62 ->
  match scan luaX_init (S (length s)) s line with
  | Got i rest line' => exists ls1 ls2,
      luaX_lookahead reader luaX_init ch_dot fuel ls = Ok ls1 /\ ls_t ls1 = ls_t ls /\
      luaX_next reader luaX_init ch_dot fuel ls1 = Ok ls2 /\ (token (ls_t ls2), value (ls_t ls2)) = i /\ reading reader rest line' ls2
  | Bad msg line' => exists near, luaX_lookahead reader luaX_init ch_dot fuel ls = Err (lexmsg (N := N) (source ls) line' msg near)
  | Stuck => False
  end.
Proof.
  intros Hr Hf Hs. pose proof (lookahead_scans reader luaX_init fuel luaX_init_small s line ls Hr Hf Hs) as Hl.
  destruct (scan luaX_init (S (length s)) s line) as [i rest l|msg l|]; [|done..].
  destruct Hl as (ls1 & Hl1 & Hi & Hend & Ht & Hso & Hr1). exists ls1. destruct (Z.eqb_spec (token (ls_lookahead ls1)) TK_EOS) as [He|He].
  - assert (i = (TK_EOS, None)) as Hi2 by (rewrite <- Hi; unfold value; by rewrite He).
    assert (rest = []) as ->.
    { apply Hend. by rewrite Hi2. }
    assert (reading reader [] l ls1) as Hr2 by (destruct Hr1; by split).
    destruct (next_scans reader luaX_init fuel luaX_init_small [] l ls1 Hr2 ltac:(cbn; lia) ltac:(done)) as (ls2 & Hn & Hw).
    exists ls2. destruct Hw. rewrite Hi2. by split_and!.
  - unfold luaX_next. cbn [set_lastline ls_lookahead]. rewrite (proj2 (Z.eqb_neq _ _) He). eexists. split_and!; try done.
    destruct Hr1. by split.
Qed.

Lemma lookahead_then_next_witness :
  exists ls ls1 ls2, luaX_setinput (chunk_reader 2) (luaZ_init (lit "x = y")) (lit "=x") [] Digits.fresh = Ok ls /\
    luaX_lookahead (chunk_reader 2) luaX_init ch_dot 60 ls = Ok ls1 /\ luaX_next (chunk_reader 2) luaX_init ch_dot 60 ls1 = Ok ls2 /\
    value (ls_t ls2) = Some (SemTS (lit "x")) /\ reading (chunk_reader 2) (lit " = y") 1 ls2.
Proof.
  assert (Reader (chunk_reader 2)) as Hr by (apply chunk_reader_small; reflexivity).
  destruct (setinput_reading (chunk_reader 2) (luaZ_init (lit "x = y")) (lit "x = y") (lit "=x") [] Digits.fresh) as (ls & Hs & Hrd & _).
  { apply init_content, chunk_delivers, lit_byte. }
  pose proof (lookahead_then_next (chunk_reader 2) 60 (lit "x = y") 1 ls Hrd ltac:(apply Nat.ltb_lt; reflexivity) ltac:(reflexivity)) as Hl.
  assert (scan luaX_init (S (length (lit "x = y"))) (lit "x = y") 1 = Got (TK_NAME, Some (SemTS (N := Z) (lit "x"))) (lit " = y") 1) as He by (vm_compute; reflexivity).
  rewrite He in Hl. destruct Hl as (ls1 & ls2 & H1 & _ & H2 & Ht & H3). exists ls, ls1, ls2. injection Ht as _ Hv. by split_and!.
Defined.
