(* ===== verification/LuaTabLib.v ===== *)
(** The table library of Lua (lua/src/ltablib.c): table.insert, remove, concat,
    foreachi, and the in-place quicksort of table.sort.

    These functions reach a table only through its integer keys, so a table is
    the map of its integer keys here, a missing key reading as nil; the table
    component shows that tables behave as maps.  [getn] is luaL_getn, any border
    of the table. *)
From stdpp Require Import base gmap list sorting.
From Stdlib Require Import ZArith Lia.
From S2P Require Import Prelude.
Open Scope Z_scope.

Section TabLib.
Context {V : Type}.
(** The integer keys of a table; [None] is nil. *)
Abbreviation tab := (gmap Z V).
Implicit Types (t : tab) (v : V).

Definition rawgeti t (i : Z) : option V := t !! i.
Definition rawseti t (i : Z) (o : option V) : tab := partial_alter (fun _ => o) i t.

Variable getn : tab -> Z.

(** [f] is the call of the argument, its non-nil result ends the loop. *)
Fixpoint foreachi_loop (f : Z -> option V -> option V) t (k : nat) (i : Z) : option V :=
  match k with
  | O => None
  | S k => match f i (rawgeti t i) with Some v => Some v | None => foreachi_loop f t k (i + 1) end
  end.
Definition foreachi (f : Z -> option V -> option V) t : option V := foreachi_loop f t (Z.to_nat (getn t)) 1.

(** [for (i = e; i > pos; i--) t[i] = t[i-1]], [k] turns *)
Fixpoint move_up t (i : Z) (k : nat) : tab :=
  match k with O => t | S k => move_up (rawseti t i (rawgeti t (i - 1))) (i - 1) k end.

(** [pos] is absent in a call with two arguments. *)
Definition tinsert t (pos : option Z) (o : option V) : tab :=
  let e := getn t + 1 in
  match pos with
  | None => rawseti t e o
  | Some pos =>
      let e := if e <? pos then pos else e in
      rawseti (move_up t e (Z.to_nat (e - pos))) pos o
  end.

(** [for ( ;pos<e; pos++) t[pos] = t[pos+1]], [k] turns *)
Fixpoint move_down t (pos : Z) (k : nat) : tab :=
  match k with O => t | S k => move_down (rawseti t pos (rawgeti t (pos + 1))) (pos + 1) k end.

(** The results pushed, and the table. *)
Definition tremove t (pos : option Z) : list (option V) * tab :=
  let e := getn t in
  let pos := match pos with Some p => p | None => e end in
  if e =? 0 then ([], t)
  else ([rawgeti t pos], rawseti (move_down t pos (Z.to_nat (e - pos))) e None).

(** [text] gives the bytes of a string or number, [None] for other values. *)
Fixpoint concat_loop (text : option V -> option bytes) (sep : bytes) t (last i : Z) (k : nat) : res bytes :=
  match k with
  | O => Ok []
  | S k =>
      match text (rawgeti t i) with
      | None => Err "table contains non-strings"
      | Some b =>
          r <- concat_loop text sep t last (i + 1) k;
          Ok (b ++ (if i =? last then [] else sep) ++ r)
      end
  end.
Definition tconcat (text : option V -> option bytes) t (sep : bytes) (i : Z) (last : option Z) : res bytes :=
  let last := match last with Some l => l | None => getn t end in
  concat_loop text sep t last i (Z.to_nat (last - i + 1)).

(** * Quicksort *)

(** [sort_comp]: the order function, or lua_lessthan; either may raise. *)
Variable sort_comp : option V -> option V -> res bool.

(** [set2] after pushing [x], then [y]: y goes to [i], x to [j]. *)
Definition set2 t (i j : Z) (x y : option V) : tab := rawseti (rawseti t i y) j x.

(** [while (rawgeti(++i), sort_comp(a[i], P))] *)
Definition scan_up t (P : option V) (u : Z) (i : Z) : res (Z + Z) :=
  let i := i + 1 in
  b <- sort_comp (rawgeti t i) P;
  if b : bool then (if u <? i then Err "invalid order function for sorting" else Ok (inl i)) else Ok (inr i).
Definition scan_down t (P : option V) (l : Z) (j : Z) : res (Z + Z) :=
  let j := j - 1 in
  b <- sort_comp P (rawgeti t j);
  if b : bool then (if j <? l then Err "invalid order function for sorting" else Ok (inl j)) else Ok (inr j).

(** One turn of the [for (;;)] on the table, [i] and [j]. *)
Definition partition_step (P : option V) (l u : Z) (n : nat) (s : tab * Z * Z) : res (tab * Z * Z + tab * Z) :=
  let '(t, i, j) := s in
  i <- loop n (scan_up t P u) i;
  j <- loop n (scan_down t P l) j;
  Ok (if j <? i then inr (t, i) else inl (set2 t i j (rawgeti t i) (rawgeti t j), i, j)).

(** The median of three: a[l], a[i], a[u] in order. *)
Definition order_ends t (l u : Z) : res tab :=
  b <- sort_comp (rawgeti t u) (rawgeti t l);
  Ok (if b : bool then set2 t l u (rawgeti t l) (rawgeti t u) else t).
Definition order_middle t (l i u : Z) : res tab :=
  b <- sort_comp (rawgeti t i) (rawgeti t l);
  if b : bool then Ok (set2 t i l (rawgeti t i) (rawgeti t l))
  else
    b <- sort_comp (rawgeti t u) (rawgeti t i);
    Ok (if b : bool then set2 t i u (rawgeti t i) (rawgeti t u) else t).

(** [fuel] bounds both the recursion and the turns of the loop. *)
Fixpoint auxsort (fuel : nat) t (l u : Z) : res tab :=
  match fuel with
  | O => Timeout
  | S fuel' =>
      if l <? u then
        t <- order_ends t l u;
        if u - l =? 1 then Ok t
        else
          let i := Z.quot (s32 (l + u)) 2 in
          t <- order_middle t l i u;
          if u - l =? 2 then Ok t
          else
            let P := rawgeti t i in
            let t := set2 t i (u - 1) P (rawgeti t (u - 1)) in
            let n := Z.to_nat (u - l + 3) in
            '(t, i) <- loop n (partition_step P l u n) (t, l, u - 1);
            let t := set2 t (u - 1) i (rawgeti t (u - 1)) (rawgeti t i) in
            let '(j, i, l, u) :=
              if i - l <? u - i then (l, i - 1, i + 1, u) else (i + 1, u, l, i - 1) in
            t <- auxsort fuel' t j i;
            auxsort fuel' t l u
      else Ok t
  end.

Definition sort t : res tab := let n := getn t in auxsort (S (Z.to_nat n)) t 1 n.
End TabLib.
