(* ===== verification/LuaTabSort.v ===== *)
(** table.sort of Lua sorts: with a valid order it terminates, raises no error,
    and leaves in positions 1 to n a sorted permutation of what was there. *)
From stdpp Require Import base gmap list sorting.
From Stdlib Require Import ZArith Lia.
From S2P Require Import Prelude LuaTabLib.
Open Scope Z_scope.

(** * Segments of a table *)
Section Segments.
Context {V : Type}.
Implicit Types (t : gmap Z V).

Definition seg t (l u : Z) : list (option V) := map (fun k => t !! k) (seqZ l (u - l + 1)).

(** Only positions [l] to [u] change, and they are permuted. *)
Definition perm_on (l u : Z) t t' : Prop :=
  (forall k, k < l \/ u < k -> t' !! k = t !! k) /\ seg t' l u ≡ₚ seg t l u.

Definition swap t (i j : Z) : gmap Z V := set2 t i j (rawgeti t i) (rawgeti t j).

Lemma rawseti_get t i o k : rawseti t i o !! k = if decide (i = k) then o else t !! k.
Proof.
  unfold rawseti. case_decide as E; [subst; apply lookup_partial_alter_eq|by apply lookup_partial_alter_ne].
Qed.

Definition exchange (i j k : Z) : Z := if decide (j = k) then i else if decide (i = k) then j else k.

Lemma swap_get t i j k : swap t i j !! k = t !! exchange i j k.
Proof. unfold swap, set2, rawgeti, exchange. rewrite !rawseti_get. by repeat case_decide. Qed.

Lemma exchange_range i j k l u : l <= i <= u -> l <= j <= u -> l <= k <= u -> l <= exchange i j k <= u.
Proof. unfold exchange. repeat case_decide; lia. Qed.
Lemma exchange_inv i j k : exchange i j (exchange i j k) = k.
Proof. unfold exchange. repeat case_decide; lia. Qed.

Lemma seg_ext t t' l u : (forall k, l <= k <= u -> t' !! k = t !! k) -> seg t' l u = seg t l u.
Proof. intros H. apply map_ext_in. intros k Hk%list_elem_of_In%elem_of_seqZ. apply H. lia. Qed.

Lemma swap_perm t i j l u : l <= i <= u -> l <= j <= u -> perm_on l u t (swap t i j).
Proof.
  intros Hi Hj. split.
  - intros k Hk. rewrite swap_get. unfold exchange. repeat case_decide; lia || done.
  - unfold seg. rewrite (map_ext _ (fun k => t !! exchange i j k)) by apply swap_get.
    rewrite <- (map_map (exchange i j) (fun k => t !! k)). apply (fmap_Permutation (fun k => t !! k)).
    apply NoDup_Permutation.
    + apply (NoDup_fmap_2_strong (exchange i j)); [|apply NoDup_seqZ].
      intros x y _ _ E. by rewrite <- (exchange_inv i j x), E, exchange_inv.
    + apply NoDup_seqZ.
    + intros k. change (map ?f ?x) with (f <$> x). rewrite list_elem_of_fmap, elem_of_seqZ. split.
      * intros (y & -> & Hy%elem_of_seqZ). pose proof (exchange_range i j y l u Hi Hj). lia.
      * intros Hk. exists (exchange i j k). rewrite exchange_inv, elem_of_seqZ. split; [done|].
        pose proof (exchange_range i j k l u Hi Hj). lia.
Qed.

Lemma perm_refl l u t : perm_on l u t t.
Proof. done. Qed.
Lemma perm_trans l u t1 t2 t3 : perm_on l u t1 t2 -> perm_on l u t2 t3 -> perm_on l u t1 t3.
Proof. intros [H1 P1] [H2 P2]. split; [|by rewrite P2]. intros k Hk. by rewrite H2, H1. Qed.

Lemma seg_app t l m u : l <= m + 1 -> m <= u -> seg t l u = seg t l m ++ seg t (m + 1) u.
Proof.
  intros. unfold seg. rewrite <- map_app. f_equal.
  replace (u - l + 1) with ((m - l + 1) + (u - (m + 1) + 1)) by lia. rewrite seqZ_app by lia. do 2 f_equal. lia.
Qed.

Lemma perm_widen l u l' u' t t' : l <= l' -> u' <= u -> l' <= u' + 1 -> perm_on l' u' t t' -> perm_on l u t t'.
Proof.
  intros Hl Hu Hlu [Hk Hp]. split; [intros k ?; apply Hk; lia|].
  rewrite (seg_app t' l (l' - 1) u), (seg_app t l (l' - 1) u) by lia.
  replace (l' - 1 + 1) with l' by lia. rewrite (seg_app t' l' u' u), (seg_app t l' u' u) by lia.
  rewrite Hp, (seg_ext t t' l (l' - 1)), (seg_ext t t' (u' + 1) u); [done|intros; apply Hk; lia..].
Qed.

(** A property of all values of a segment does not depend on their order. *)
Lemma perm_all (Q : option V -> Prop) l u t t' :
  perm_on l u t t' -> (forall k, l <= k <= u -> Q (t !! k)) -> forall k, l <= k <= u -> Q (t' !! k).
Proof.
  intros [_ Hp] Hq k Hk. assert (Forall Q (seg t' l u)) as Hf.
  { rewrite Hp. apply Forall_forall. intros x Hx. apply list_elem_of_fmap in Hx as (y & -> & Hy%elem_of_seqZ). apply Hq. lia. }
  rewrite Forall_forall in Hf. apply Hf. apply list_elem_of_fmap. exists k. split; [done|]. apply elem_of_seqZ. lia.
Qed.
End Segments.

(** * Correctness *)
Section Sort.
Context {V : Type} (comp : option V -> option V -> res bool) (D : V -> Prop) (lt : V -> V -> bool).
Implicit Types (t : gmap Z V) (a b c : option V).

(** [comp] is a strict weak order on the values in [D]. *)
Record valid_order : Prop := {
  vo_comp x y : D x -> D y -> comp (Some x) (Some y) = Ok (lt x y);
  vo_asym x y : D x -> D y -> lt x y = true -> lt y x = false;
  vo_cotrans x y z : D x -> D y -> D z -> lt y x = false -> lt z y = false -> lt z x = false
}.
Hypothesis Hvo : valid_order.

Definition inD a : Prop := match a with Some x => D x | None => False end.
Definition le a b : Prop := match a, b with Some x, Some y => lt y x = false | _, _ => True end.

Lemma le_trans a b c : inD a -> inD b -> inD c -> le a b -> le b c -> le a c.
Proof. destruct a, b, c; cbn; try done. apply (vo_cotrans Hvo). Qed.
Lemma le_refl a : inD a -> le a a.
Proof. destruct a as [x|]; cbn; [|done]. intros Hx. destruct (lt x x) eqn:E; [|done]. by rewrite (vo_asym Hvo x x Hx Hx E) in E. Qed.
Lemma comp_le a b : inD a -> inD b -> exists r : bool, comp a b = Ok r /\ if r then le a b else le b a.
Proof.
  destruct a as [x|], b as [y|]; cbn; try done. intros Hx Hy. exists (lt x y). split; [by apply (vo_comp Hvo)|].
  destruct (lt x y) eqn:E; [by apply (vo_asym Hvo)|done].
Qed.
Lemma comp_false a b : inD a -> inD b -> le b a -> comp a b = Ok false.
Proof. destruct a as [x|], b as [y|]; cbn; try done. intros Hx Hy E. by rewrite (vo_comp Hvo), E. Qed.

Definition full t (l u : Z) : Prop := forall k, l <= k <= u -> inD (t !! k).
Definition sorted t (l u : Z) : Prop := forall i j, l <= i <= j -> j <= u -> le (t !! i) (t !! j).

Lemma full_perm t t' l u : perm_on l u t t' -> full t l u -> full t' l u.
Proof. intros Hp Hf. exact (perm_all inD l u t t' Hp Hf). Qed.

Local Hint Resolve full_perm swap_perm perm_refl : core.

(** Scanning for an element that is not on the right side of the pivot. *)
Lemma scan_up_ok t P l u i s n :
  full t l u -> inD P -> l <= i < s -> s <= u -> le P (t !! s) -> s - i <= Z.of_nat n ->
  exists i', loop n (scan_up comp t P u) i = Ok i' /\ i < i' <= s /\ le P (t !! i') /\ forall k, i < k < i' -> le (t !! k) P.
Proof.
  intros Hf HP Hi Hs Hstop Hn. revert i Hi Hn. induction n as [|n IH]; intros i Hi Hn; [lia|]. cbn [loop]. unfold scan_up at 1, rawgeti.
  destruct (comp_le (t !! (i + 1)) P) as (r & E & Hr); [apply Hf; lia|done|]. destruct r.
  - assert (i + 1 <> s) as Hne by (intros E'; rewrite E', comp_false in E; [done|apply Hf; lia|done|done]).
    rewrite E. cbn [bind]. case_zbool (u <? i + 1); [lia|]. cbn [bind].
    destruct (IH (i + 1)) as (i' & -> & Hi' & Hle & Hall); [lia|lia|]. exists i'. split_and!; [done|lia|lia|done|].
    intros k Hk. destruct (decide (k = i + 1)) as [->|]; [done|apply Hall; lia].
  - rewrite E. cbn [bind]. exists (i + 1). split_and!; [done|lia|lia|done|lia].
Qed.
Lemma scan_down_ok t P l u j s n :
  full t l u -> inD P -> s < j <= u -> l <= s -> le (t !! s) P -> j - s <= Z.of_nat n ->
  exists j', loop n (scan_down comp t P l) j = Ok j' /\ s <= j' < j /\ le (t !! j') P /\ forall k, j' < k < j -> le P (t !! k).
Proof.
  intros Hf HP Hj Hs Hstop Hn. revert j Hj Hn. induction n as [|n IH]; intros j Hj Hn; [lia|]. cbn [loop]. unfold scan_down at 1, rawgeti.
  destruct (comp_le P (t !! (j - 1))) as (r & E & Hr); [done|apply Hf; lia|]. destruct r.
  - assert (j - 1 <> s) as Hne by (intros E'; rewrite E', comp_false in E; [done|done|apply Hf; lia|done]).
    rewrite E. cbn [bind]. case_zbool (j - 1 <? l); [lia|]. cbn [bind].
    destruct (IH (j - 1)) as (j' & -> & Hj' & Hle & Hall); [lia|lia|]. exists j'. split_and!; [done|lia|lia|done|].
    intros k Hk. destruct (decide (k = j - 1)) as [->|]; [done|apply Hall; lia].
  - rewrite E. cbn [bind]. exists (j - 1). split_and!; [done|lia|lia|done|lia].
Qed.

(** The invariant of the partition, around the pivot kept in [u - 1]. *)
Record part (t0 : gmap Z V) (P : option V) (l u : Z) (s : gmap Z V * Z * Z) : Prop := {
  pa_perm : perm_on l u t0 s.1.1;
  pa_i : l <= s.1.2 < u - 1;
  pa_j : l < s.2 <= u - 1;
  pa_ij : s.1.2 <= s.2;
  pa_pivot : s.1.1 !! (u - 1) = P;
  pa_low k : l <= k <= s.1.2 -> le (s.1.1 !! k) P;
  pa_high k : s.2 <= k <= u -> le P (s.1.1 !! k)
}.

Lemma swap_left t i j : swap t i j !! i = t !! j.
Proof. rewrite swap_get. unfold exchange. repeat case_decide; by subst. Qed.
Lemma swap_right t i j : swap t i j !! j = t !! i.
Proof. rewrite swap_get. unfold exchange. by case_decide. Qed.
Lemma swap_elsewhere t i j k : k <> i -> k <> j -> swap t i j !! k = t !! k.
Proof. intros. rewrite swap_get. unfold exchange. by repeat case_decide. Qed.

Lemma partition_ok t0 P l u s n :
  full t0 l u -> inD P -> u - l + 3 <= Z.of_nat n -> part t0 P l u s ->
  exists t i, loop n (partition_step comp P l u n) s = Ok (t, i) /\ perm_on l u t0 t /\ l < i <= u - 1 /\ t !! (u - 1) = P /\
    (forall k, l <= k < i -> le (t !! k) P) /\ (forall k, i <= k <= u -> le P (t !! k)).
Proof.
  intros Hf HP Hn Hpart.
  destruct (loop_total (part t0 P l u) (fun s => Z.to_nat (s.2 - s.1.2))
    (fun r => perm_on l u t0 r.1 /\ l < r.2 <= u - 1 /\ r.1 !! (u - 1) = P /\
      (forall k, l <= k < r.2 -> le (r.1 !! k) P) /\ (forall k, r.2 <= k <= u -> le P (r.1 !! k)))
    (partition_step comp P l u n) s n) as ([t i] & E & H); [|done|destruct Hpart; lia|by exists t, i].
  clear s Hpart. intros [[t i] j] [Hp Hi Hj Hij HPu Hlow Hhigh]. cbn [fst snd] in *.
  assert (full t l u) as Hft by (by eapply full_perm). unfold partition_step.
  destruct (scan_up_ok t P l u i (u - 1) n) as (i' & -> & Hi' & Hle & Hbelow); [done|done|lia|lia|apply Hhigh; lia|lia|]. cbn [bind].
  destruct (scan_down_ok t P l u j l n) as (j' & -> & Hj' & Hge & Habove); [done|done|lia|lia|apply Hlow; lia|lia|]. cbn [bind].
  case_zbool (j' <? i'); cbn [fst snd].
  - split_and!; [done|lia|lia|done| |].
    + intros k Hk. destruct (decide (k <= i)); [apply Hlow; lia|apply Hbelow; lia].
    + intros k Hk. destruct (decide (j <= k)); [apply Hhigh; lia|apply Habove; lia].
  - fold (swap t i' j'). split; [split; cbn [fst snd]|lia].
    + eapply perm_trans; [exact Hp|]. apply swap_perm; lia.
    + lia.
    + lia.
    + lia.
    + by rewrite swap_elsewhere by lia.
    + intros k Hk. destruct (decide (k = i')) as [->|]; [by rewrite swap_left|]. rewrite swap_elsewhere by lia.
      destruct (decide (k <= i)); [apply Hlow; lia|apply Hbelow; lia].
    + intros k Hk. destruct (decide (k = j')) as [->|]; [by rewrite swap_right|]. rewrite swap_elsewhere by lia.
      destruct (decide (j <= k)); [apply Hhigh; lia|apply Habove; lia].
Qed.

Lemma order_ends_ok t l u :
  full t l u -> l < u -> exists t', order_ends comp t l u = Ok t' /\ perm_on l u t t' /\ le (t' !! l) (t' !! u).
Proof.
  intros Hf Hlu. unfold order_ends, rawgeti.
  destruct (comp_le (t !! u) (t !! l)) as (r & -> & Hr); [apply Hf; lia..|]. cbn [bind].
  destruct r; eexists; (split; [done|]); [|by split].
  fold (rawgeti t l) (rawgeti t u). fold (swap t l u). split; [apply swap_perm; lia|].
  by rewrite swap_left, swap_right.
Qed.

Lemma order_middle_ok t l i u :
  full t l u -> l < i < u -> le (t !! l) (t !! u) ->
  exists t', order_middle comp t l i u = Ok t' /\ perm_on l u t t' /\ le (t' !! l) (t' !! i) /\ le (t' !! i) (t' !! u).
Proof.
  intros Hf Hi Hlu. unfold order_middle, rawgeti.
  destruct (comp_le (t !! i) (t !! l)) as (r & -> & Hr); [apply Hf; lia..|]. cbn [bind]. destruct r.
  - eexists; split; [done|]. fold (rawgeti t l) (rawgeti t i). fold (swap t i l). split; [apply swap_perm; lia|].
    by rewrite swap_left, swap_right, swap_elsewhere by lia.
  - destruct (comp_le (t !! u) (t !! i)) as (r & -> & Hr'); [apply Hf; lia..|]. cbn [bind].
    destruct r; eexists; (split; [done|]); [|by split].
    fold (rawgeti t u) (rawgeti t i). fold (swap t i u). split; [apply swap_perm; lia|].
    by rewrite swap_left, swap_right, swap_elsewhere by lia.
Qed.

(** Two sorted halves on the right sides of a pivot. *)
Lemma sorted_join t l i u P :
  full t l u -> l <= i <= u -> t !! i = P -> sorted t l (i - 1) -> sorted t (i + 1) u ->
  (forall k, l <= k < i -> le (t !! k) P) -> (forall k, i < k <= u -> le P (t !! k)) -> sorted t l u.
Proof.
  intros Hf Hi HP Hs1 Hs2 Hlow Hhigh x y Hxy Hy.
  assert (forall k, l <= k <= i -> le (t !! k) P) as Hlow'.
  { intros k Hk. destruct (decide (k = i)) as [->|]; [rewrite HP; apply le_refl; rewrite <- HP; apply Hf; lia|apply Hlow; lia]. }
  assert (forall k, i <= k <= u -> le P (t !! k)) as Hhigh'.
  { intros k Hk. destruct (decide (k = i)) as [->|]; [rewrite HP; apply le_refl; rewrite <- HP; apply Hf; lia|apply Hhigh; lia]. }
  destruct (decide (y < i)); [apply Hs1; lia|]. destruct (decide (i < x)); [apply Hs2; lia|].
  apply (le_trans _ P); [apply Hf; lia|rewrite <- HP; apply Hf; lia|apply Hf; lia|apply Hlow'; lia|apply Hhigh'; lia].
Qed.

Lemma sorted_outside l u l' u' t t' :
  perm_on l' u' t t' -> u < l' \/ u' < l -> sorted t l u -> sorted t' l u.
Proof. intros [Hk _] Hd Hs x y Hxy Hy. rewrite !Hk by lia. by apply Hs. Qed.

(** A value property that holds on a segment still holds there. *)
Definition keeps (l u : Z) t t' : Prop :=
  forall Q : option V -> Prop, (forall k, l <= k <= u -> Q (t !! k)) -> forall k, l <= k <= u -> Q (t' !! k).

Section Halves.
Context (rec : gmap Z V -> Z -> Z -> res (gmap Z V)) (l u : Z).
Hypothesis rec_sorts : forall t l' u', l <= l' -> u' <= u -> u' - l' < u - l -> l' <= u' + 1 -> full t l' u' ->
  exists t', rec t l' u' = Ok t' /\ perm_on l' u' t t' /\ sorted t' l' u'.

(** Sorting two disjoint segments. *)
Lemma two_ranges t l1 u1 l2 u2 :
  full t l u -> l <= l1 <= u1 + 1 -> l <= l2 <= u2 + 1 -> u1 <= u -> u2 <= u -> u1 - l1 < u - l -> u2 - l2 < u - l ->
  u1 < l2 \/ u2 < l1 ->
  exists t', (t <- rec t l1 u1; rec t l2 u2) = Ok t' /\ perm_on l u t t' /\ sorted t' l1 u1 /\ sorted t' l2 u2 /\
    keeps l1 u1 t t' /\ keeps l2 u2 t t' /\ forall k, k < l1 \/ u1 < k -> k < l2 \/ u2 < k -> t' !! k = t !! k.
Proof.
  intros Hf H1 H2 Hu1 Hu2 Hs1 Hs2 Hd.
  destruct (rec_sorts t l1 u1) as (t1 & -> & Hpm1 & Hso1); [lia..|intros k Hk; apply Hf; lia|]. cbn [bind].
  pose proof Hpm1 as [Hk1 Hp1].
  destruct (rec_sorts t1 l2 u2) as (t2 & -> & Hpm2 & Hso2); [lia..|intros k Hk; rewrite Hk1 by lia; apply Hf; lia|].
  pose proof Hpm2 as [Hk2 Hp2]. exists t2. split_and!; [done| | |done| | |].
  - eapply perm_trans; [apply (perm_widen l u l1 u1)|apply (perm_widen l u l2 u2)]; done || lia.
  - eapply (sorted_outside l1 u1 l2 u2 t1); [done|lia|done].
  - intros Q HQ k Hk. rewrite Hk2 by lia. exact (perm_all Q l1 u1 t t1 Hpm1 HQ k Hk).
  - intros Q HQ. apply (perm_all Q l2 u2 t1 t2 Hpm2). intros k Hk. rewrite Hk1 by lia. by apply HQ.
  - intros k ? ?. by rewrite Hk2, Hk1.
Qed.

(** Sorting both sides of a pivot, in either order. *)
Lemma two_halves t i P (b : bool) :
  full t l u -> l < i < u -> t !! i = P ->
  (forall k, l <= k < i -> le (t !! k) P) -> (forall k, i < k <= u -> le P (t !! k)) ->
  exists t', (let '(j, k, l', u') := if b then (l, i - 1, i + 1, u) else (i + 1, u, l, i - 1) in
              t <- rec t j k; rec t l' u') = Ok t' /\ perm_on l u t t' /\ sorted t' l u.
Proof.
  intros Hf Hi HP Hlow Hhigh.
  assert (forall t', perm_on l u t t' -> sorted t' l (i - 1) -> sorted t' (i + 1) u -> keeps l (i - 1) t t' -> keeps (i + 1) u t t' ->
    t' !! i = t !! i -> sorted t' l u) as Hjoin.
  { intros t' Hp Hs1 Hs2 Hk1 Hk2 Ei. apply (sorted_join t' l i u P); [by eapply full_perm|lia|congruence|done|done| |].
    - intros k Hk. apply (Hk1 (fun a => le a P)); [|lia]. intros; apply Hlow; lia.
    - intros k Hk. apply (Hk2 (fun a => le P a)); [|lia]. intros; apply Hhigh; lia. }
  destruct b.
  - destruct (two_ranges t l (i - 1) (i + 1) u) as (t' & -> & Hp & ? & ? & ? & ? & Hk); [done|lia..|].
    exists t'. split_and!; [done|done|]. apply Hjoin; try done. apply Hk; lia.
  - destruct (two_ranges t (i + 1) u l (i - 1)) as (t' & -> & Hp & ? & ? & ? & ? & Hk); [done|lia..|].
    exists t'. split_and!; [done|done|]. apply Hjoin; try done. apply Hk; lia.
Qed.
End Halves.

Lemma auxsort_ok fuel t l u :
  1 <= l -> u < 2 ^ 30 -> l <= u + 1 -> u - l + 1 < Z.of_nat fuel -> full t l u ->
  exists t', auxsort comp fuel t l u = Ok t' /\ perm_on l u t t' /\ sorted t' l u.
Proof.
  revert t l u. induction fuel as [|fuel IH]; intros t l u Hl Hu Hlu Hfuel Hf; [lia|]. cbn [auxsort].
  case_zbool (l <? u).
  2: { exists t. split_and!; [done|apply perm_refl|]. intros x y Hxy Hy. assert (x = y) as -> by lia. apply le_refl, Hf. lia. }
  destruct (order_ends_ok t l u Hf) as (t1 & -> & Hp1 & Hends); [lia|]. cbn [bind].
  pose proof (full_perm t t1 l u Hp1 Hf) as Hf1.
  case_zbool (u - l =? 1).
  { exists t1. split_and!; [done|done|]. intros x y Hxy Hy. destruct (decide (x = y)) as [->|]; [apply le_refl, Hf1; lia|].
    assert (x = l) as -> by lia. by assert (y = u) as -> by lia. }
  assert (s32 (l + u) = l + u) as -> by (apply swrap_small; lia). rewrite Z.quot_div_nonneg by lia.
  pose proof (Z.div_mod (l + u) 2 ltac:(lia)). pose proof (Z.mod_pos_bound (l + u) 2 ltac:(lia)). set (i := (l + u) / 2) in *.
  destruct (order_middle_ok t1 l i u Hf1) as (t2 & -> & Hp2 & Hli & Hiu); [lia|done|]. cbn [bind].
  pose proof (full_perm t1 t2 l u Hp2 Hf1) as Hf2.
  case_zbool (u - l =? 2).
  { exists t2. split_and!; [done|by eapply perm_trans|]. assert (i = l + 1) as Ei by lia.
    assert (le (t2 !! l) (t2 !! u)) by (apply (le_trans _ (t2 !! i)); try done; apply Hf2; lia).
    intros x y Hxy Hy. destruct (decide (x = y)) as [->|]; [apply le_refl, Hf2; lia|].
    assert (x = l \/ x = i) as [->| ->] by lia; [assert (y = i \/ y = u) as [->| ->] by lia; done|by assert (y = u) as -> by lia]. }
  unfold rawgeti. fold (rawgeti t2 i) (rawgeti t2 (u - 1)). fold (swap t2 i (u - 1)).
  pose proof (swap_perm t2 i (u - 1) l u ltac:(lia) ltac:(lia)) as Hp3. pose proof (full_perm _ _ l u Hp3 Hf2) as Hf3.
  destruct (partition_ok (swap t2 i (u - 1)) (rawgeti t2 i) l u (swap t2 i (u - 1), l, u - 1) (Z.to_nat (u - l + 3)))
    as (t4 & i4 & -> & Hp4 & Hi4 & HP4 & Hlow & Hhigh); [done|apply Hf2; lia|lia| |].
  { split; cbn [fst snd]; [apply perm_refl|lia|lia|lia|by rewrite swap_right| |].
    - intros k Hk. assert (k = l) as -> by lia. by rewrite swap_elsewhere by lia.
    - intros k Hk. destruct (decide (k = u - 1)) as [->|]; [rewrite swap_right; apply le_refl, Hf2; lia|].
      assert (k = u) as -> by lia. by rewrite swap_elsewhere by lia. }
  cbn [bind]. fold (rawgeti t4 (u - 1)) (rawgeti t4 i4). fold (swap t4 (u - 1) i4).
  pose proof (swap_perm t4 (u - 1) i4 l u ltac:(lia) ltac:(lia)) as Hp5.
  assert (perm_on l u t (swap t4 (u - 1) i4)) as Hp by (do 4 (eapply perm_trans; [eassumption|]); done).
  pose proof (full_perm _ _ l u Hp Hf) as Hf5.
  destruct (two_halves (auxsort comp fuel) l u) with (t := swap t4 (u - 1) i4) (i := i4) (P := rawgeti t2 i) (b := i4 - l <? u - i4)
    as (t' & Er & Hp' & Hs'); [|done|lia|by rewrite swap_right| | |].
  - intros t0 l' u' ? ? ? ? ?. apply IH; [lia|lia|lia|lia|done].
  - intros k Hk. rewrite swap_elsewhere by lia. apply Hlow. lia.
  - intros k Hk. destruct (decide (k = u - 1)) as [->|]; [rewrite swap_left; apply Hhigh; lia|].
    rewrite swap_elsewhere by lia. apply Hhigh. lia.
  - exists t'. split_and!; [exact Er|by eapply perm_trans|done].
Qed.
End Sort.

(** * Insertion and removal *)
Section Sequences.
Context {V : Type} (getn : gmap Z V -> Z).
Implicit Types (t : gmap Z V) (l : list V).

(** What luaL_getn promises: a border of the table. *)
Hypothesis getn_border : forall t,
  0 <= getn t /\ (getn t = 0 \/ t !! getn t <> None) /\ t !! (getn t + 1) = None.

(** The positive integer keys are those of a list. *)
Definition is_seq t l : Prop := forall k, 1 <= k -> t !! k = l !! Z.to_nat (k - 1).

Lemma getn_seq t l : is_seq t l -> getn t = Z.of_nat (length l).
Proof.
  intros Hs. destruct (getn_border t) as (H0 & Hn & H1). rewrite Hs in H1 by lia. apply lookup_ge_None in H1.
  destruct Hn as [Hn|Hn]; [lia|]. destruct (decide (getn t = 0)); [lia|]. rewrite Hs in Hn by lia.
  apply not_eq_None_Some, lookup_lt_is_Some in Hn. lia.
Qed.

Lemma move_up_get t i k j :
  move_up t i k !! j = if decide (i - Z.of_nat k < j <= i) then t !! (j - 1) else t !! j.
Proof.
  revert t i. induction k as [|k IH]; intros t i; cbn [move_up].
  - case_decide; [lia|done].
  - rewrite IH, !rawseti_get. unfold rawgeti. repeat case_decide; try lia; try done. by replace i with j by lia.
Qed.
Lemma move_down_get t i k j :
  move_down t i k !! j = if decide (i <= j < i + Z.of_nat k) then t !! (j + 1) else t !! j.
Proof.
  revert t i. induction k as [|k IH]; intros t i; cbn [move_down].
  - case_decide; [lia|done].
  - rewrite IH, !rawseti_get. unfold rawgeti. repeat case_decide; try lia; try done. by replace i with j by lia.
Qed.

Lemma tinsert_seq t l pos v :
  is_seq t l -> 1 <= pos <= Z.of_nat (length l) + 1 ->
  is_seq (tinsert getn t (Some pos) (Some v)) (inserted l (Z.to_nat (pos - 1)) v).
Proof.
  intros Hs Hpos k Hk. unfold tinsert. rewrite (getn_seq t l Hs). case_zbool (Z.of_nat (length l) + 1 <? pos); [lia|].
  rewrite rawseti_get, inserted_get by lia. rewrite move_up_get. repeat case_decide; try lia; try done.
  - rewrite Hs by lia. f_equal. lia.
  - by apply Hs.
  - rewrite Hs by lia. rewrite !lookup_ge_None_2 by lia. done.
Qed.

Lemma tremove_seq t l pos :
  is_seq t l -> 1 <= pos <= Z.of_nat (length l) ->
  fst (tremove getn t (Some pos)) = [l !! Z.to_nat (pos - 1)] /\
  is_seq (snd (tremove getn t (Some pos))) (delete (Z.to_nat (pos - 1)) l).
Proof.
  intros Hs Hpos. unfold tremove. rewrite (getn_seq t l Hs). case_zbool (Z.of_nat (length l) =? 0); [lia|]. cbn [fst snd]. split.
  - unfold rawgeti. by rewrite Hs by lia.
  - intros k Hk. rewrite rawseti_get, move_down_get. destruct (decide (Z.to_nat (k - 1) < Z.to_nat (pos - 1))%nat).
    + rewrite list_lookup_delete_lt by lia. repeat case_decide; try lia. by apply Hs.
    + rewrite list_lookup_delete_ge by lia. repeat case_decide; try lia.
      * by rewrite lookup_ge_None_2 by lia.
      * rewrite Hs by lia. f_equal. lia.
      * rewrite Hs by lia. rewrite !lookup_ge_None_2 by lia. done.
Qed.

End Sequences.

(** C14: table.sort with a strict weak order on the values of a table without
    holes terminates without an error: it permutes positions 1 to n, touches no
    other key, and no element is smaller than one before it. *)
Theorem sort_sorts {V} (getn : gmap Z V -> Z) comp (D : V -> Prop) (lt : V -> V -> bool) (t : gmap Z V) :
  valid_order comp D lt -> 0 <= getn t < 2 ^ 30 -> full D t 1 (getn t) ->
  exists t', sort getn comp t = Ok t' /\ perm_on 1 (getn t) t t' /\ sorted lt t' 1 (getn t).
Proof. intros Hv Hn Hf. apply (auxsort_ok comp D lt Hv); [lia|lia|lia|lia|done]. Qed.

(** Table.insert puts the value at its position and shifts the rest of the
    sequence; table.remove at that position returns the value and gives the
    sequence back. *)
Theorem insert_then_remove {V} (getn : gmap Z V -> Z) (t : gmap Z V) (l : list V) (pos : Z) (v : V) :
  (forall t, 0 <= getn t /\ (getn t = 0 \/ t !! getn t <> None) /\ t !! (getn t + 1) = None) ->
  is_seq t l -> 1 <= pos <= Z.of_nat (length l) + 1 ->
  let t' := tinsert getn t (Some pos) (Some v) in
  is_seq t' (inserted l (Z.to_nat (pos - 1)) v) /\
  fst (tremove getn t' (Some pos)) = [Some v] /\ is_seq (snd (tremove getn t' (Some pos))) l.
Proof.
  intros Hb Hs Hpos t'. pose proof (tinsert_seq getn Hb t l pos v Hs Hpos) as Hi. split; [done|].
  destruct (tremove_seq getn Hb t' _ pos Hi) as [E Hr].
  - unfold inserted. rewrite length_app, length_take. cbn [length]. rewrite length_drop. lia.
  - rewrite inserted_get in E by lia. rewrite delete_inserted in Hr by lia. by rewrite decide_True in E.
Qed.

(** * Examples *)

(** A border by counting up from 1. *)
Fixpoint count_border {V} (t : gmap Z V) (fuel : nat) (n : Z) : Z :=
  match fuel with
  | O => n
  | S fuel => match t !! (n + 1) with Some _ => count_border t fuel (n + 1) | None => n end
  end.
Definition size_getn {V} (t : gmap Z V) : Z := count_border t (size t) 0.

Definition of_list {V} (l : list V) : gmap Z V := list_to_map (zip (seqZ 1 (Z.of_nat (length l))) l).
Definition zcomp (a b : option Z) : res bool :=
  match a, b with Some x, Some y => Ok (x / 10 <? y / 10) | _, _ => Err "attempt to compare nil with number" end.

(** More keys than the table has entries cannot all be present. *)
Lemma keys_bound {V} (t : gmap Z V) n :
  0 <= n -> (forall k, 1 <= k <= n -> is_Some (t !! k)) -> n <= Z.of_nat (size t).
Proof.
  intros Hn Hall. assert (list_to_set (seqZ 1 n) ⊆ (dom t : gset Z)) as Hsub.
  { intros k Hk. apply elem_of_list_to_set, elem_of_seqZ in Hk. apply elem_of_dom, Hall. lia. }
  apply subseteq_size in Hsub. rewrite size_list_to_set, length_seqZ, size_dom in Hsub by apply NoDup_seqZ. lia.
Qed.

Lemma count_border_ok {V} (t : gmap Z V) fuel n :
  0 <= n -> (forall k, 1 <= k <= n -> is_Some (t !! k)) -> Z.of_nat (size t) <= n + Z.of_nat fuel ->
  let b := count_border t fuel n in 0 <= b /\ (b = 0 \/ t !! b <> None) /\ t !! (b + 1) = None.
Proof.
  assert (forall n, 0 <= n -> (forall k, 1 <= k <= n -> is_Some (t !! k)) -> n = 0 \/ t !! n <> None) as Hlast.
  { intros m Hm Hall. destruct (decide (m = 0)); [by left|right]. apply not_eq_None_Some, Hall. lia. }
  revert n. induction fuel as [|fuel IH]; intros n Hn Hall Hf; cbn [count_border]; cbv zeta.
  - split_and!; [done|by apply Hlast|]. destruct (t !! (n + 1)) eqn:E; [|done].
    assert (n + 1 <= Z.of_nat (size t)); [|lia]. apply keys_bound; [lia|]. intros k Hk.
    destruct (decide (k = n + 1)) as [->|]; [by rewrite E|apply Hall; lia].
  - destruct (t !! (n + 1)) eqn:E; [|split_and!; [done|by apply Hlast|done]].
    apply IH; [lia| |lia]. intros k Hk. destruct (decide (k = n + 1)) as [->|]; [by rewrite E|apply Hall; lia].
Qed.
Lemma size_getn_border {V} (t : gmap Z V) :
  0 <= size_getn t /\ (size_getn t = 0 \/ t !! size_getn t <> None) /\ t !! (size_getn t + 1) = None.
Proof. apply count_border_ok; lia. Qed.

(** An order on the tens of the numbers below 100. *)
Lemma zcomp_valid : valid_order zcomp (fun x => 0 <= x < 100) (fun x y => x / 10 <? y / 10).
Proof. split; [done|..]; intros *; intros; zbool; first [apply Z.ltb_ge; lia | lia]. Qed.

Definition numbers : gmap Z Z := of_list [52; 31; 35; 10; 77; 30; 53; 11].

Example sort_numbers :
  match sort size_getn zcomp numbers with Ok t => t = of_list [11; 10; 35; 30; 31; 52; 53; 77] | _ => False end.
Proof. vm_compute. reflexivity. Qed.

Lemma sort_sorts_witness :
  exists t', sort size_getn zcomp numbers = Ok t' /\ perm_on 1 8 numbers t' /\ sorted (fun x y => x / 10 <? y / 10) t' 1 8.
Proof.
  apply (sort_sorts size_getn zcomp (fun x => 0 <= x < 100) (fun x y => x / 10 <? y / 10) numbers).
  - exact zcomp_valid.
  - split; [discriminate|reflexivity].
  - change (size_getn numbers) with 8. intros k Hk.
    assert (k = 1 \/ k = 2 \/ k = 3 \/ k = 4 \/ k = 5 \/ k = 6 \/ k = 7 \/ k = 8) as Hc by lia.
    destruct_or! Hc; subst k; vm_compute; split; (discriminate || reflexivity).
Defined.

Lemma insert_then_remove_witness :
  let t' := tinsert size_getn (of_list [1; 2; 3]) (Some 2) (Some 9) in
  is_seq t' [1; 9; 2; 3] /\ fst (tremove size_getn t' (Some 2)) = [Some 9] /\ is_seq (snd (tremove size_getn t' (Some 2))) [1; 2; 3].
Proof.
  apply (insert_then_remove size_getn (of_list [1; 2; 3]) [1; 2; 3] 2 9); [exact size_getn_border| |split; discriminate].
  intros k Hk. destruct (decide (k <= 3)) as [Hle|Hgt].
  - assert (k = 1 \/ k = 2 \/ k = 3) as Hc by lia. destruct_or! Hc; subst k; vm_compute; reflexivity.
  - rewrite (lookup_ge_None_2 [1; 2; 3]) by (cbn; lia). apply not_elem_of_list_to_map_1. intros Hin.
    change (k ∈ [1; 2; 3]) in Hin. set_unfold. lia.
Defined.

(** table.remove past the end removes the last element. *)
Example remove_past_end :
  let r := tremove size_getn (of_list [1; 2; 3]) (Some 7) in fst r = [None] /\ snd r = of_list [1; 2].
Proof. vm_compute. done. Qed.
