(* ===== verification/CamlMemory.v ===== *)
(** Memory of the OCaml runtime: 64-bit words, and the headers of blocks
    (mlvalues.h, gc.h).  Memory is a map from word addresses (a byte address
    divided by 8) to words; an access outside the map is an error. *)
From stdpp Require Import base gmap list.
From Stdlib Require Import ZArith Lia.
From S2P Require Import Prelude.
Open Scope Z_scope.

(** * Headers *)
Definition Caml_white : Z := 0.
Definition Caml_blue : Z := 512.
Definition Caml_black : Z := 768.
Definition Max_wosize : Z := 2 ^ 54 - 1.
Definition Wosize_hd (h : Z) : Z := Z.shiftr h 10.
Definition Whsize_wosize (sz : Z) : Z := u64 (sz + 1).
Definition Wosize_whsize (sz : Z) : Z := u64 (sz - 1).
Definition Whsize_hd (h : Z) : Z := Whsize_wosize (Wosize_hd h).
Definition Make_header (wosize tag color : Z) : Z := u64 (u64 (Z.shiftl wosize 10) + color + tag).
Definition Bluehd_hd (h : Z) : Z := Z.lor (Z.land h (Z.lxor (2 ^ 64 - 1) Caml_black)) Caml_blue.
Definition Tag_hd (h : Z) : Z := Z.land h 255.

(** * Words *)
Abbreviation memory := (gmap Z Z).
Definition segv : string := "access outside the heap".
Definition rd (m : memory) (a : Z) : res Z := lift (m !! a) segv.
Definition wr (m : memory) (a v : Z) : res memory :=
  match m !! a with Some _ => Ok (<[a := v]> m) | None => Err segv end.
