(* ===== verification/CamlFreelist.v ===== *)
(** The free list of the OCaml major heap (ocaml/byterun/freelist.c), on a
    64-bit machine.

    A pointer is a word address, NULL is 0.  A block is named by the address
    of its first field; its header is the word before it.  A free block holds
    the address of the next free block in its first field. *)
From stdpp Require Import base gmap list.
From Stdlib Require Import ZArith Lia.
From S2P Require Import Prelude CamlMemory.
Open Scope Z_scope.

Record fl_state := mkFl {
  mem : memory;
  fl_prev : Z;                (** current allocation pointer *)
  fl_last : Z;                (** last block, after a failed allocation *)
  caml_fl_merge : Z;          (** current insertion pointer *)
  caml_fl_cur_size : Z;
  last_fragment : Z
}.

Section Freelist.
(** The address of [sentinel.first_bp]. *)
Variable Fl_head : Z.
Implicit Types (st : fl_state).

Definition Hd_bp (m : memory) (bp : Z) : res Z := rd m (bp - 1).
Definition Next (m : memory) (bp : Z) : res Z := rd m bp.

Definition set_mem st (m : memory) : fl_state :=
  mkFl m (fl_prev st) (fl_last st) (caml_fl_merge st) (caml_fl_cur_size st) (last_fragment st).

(** The block of [wh_sz] words at the end of the free block [cur]. *)
Definition allocate_block (wh_sz prev cur : Z) st : res (Z * fl_state) :=
  h <- Hd_bp (mem st) cur;
  if Wosize_hd h <? u64 (wh_sz + 1) then
    let size := u64 (caml_fl_cur_size st - Whsize_hd h) in
    n <- Next (mem st) cur;
    m <- wr (mem st) prev n;
    let merge := if caml_fl_merge st =? cur then prev else caml_fl_merge st in
    m <- wr m (cur - 1) (Make_header 0 0 Caml_white);
    Ok (cur + Wosize_hd h - wh_sz, mkFl m prev (fl_last st) merge size (last_fragment st))
  else
    let size := u64 (caml_fl_cur_size st - wh_sz) in
    m <- wr (mem st) (cur - 1) (Make_header (u64 (Wosize_hd h - wh_sz)) 0 Caml_blue);
    Ok (cur + Wosize_hd h - wh_sz, mkFl m prev (fl_last st) (caml_fl_merge st) size (last_fragment st)).

(** The loops of caml_fl_allocate: [inr (prev, cur)] is a block large enough,
    or [cur = 0] when [stop prev cur] held first. *)
Definition search_step (m : memory) (wo_sz : Z) (stop : Z -> Z -> bool) (s : Z * Z) : res (Z * Z + Z * Z) :=
  let '(prev, cur) := s in
  if stop prev cur then Ok (inr (prev, 0))
  else
    h <- Hd_bp m cur;
    if wo_sz <=? Wosize_hd h then Ok (inr (prev, cur))
    else n <- Next m cur; Ok (inl (cur, n)).

Definition caml_fl_allocate (fuel : nat) (wo_sz : Z) st : res (Z * fl_state) :=
  let m := mem st in
  cur <- Next m (fl_prev st);
  '(prev, cur) <- loop fuel (search_step m wo_sz (fun _ cur => cur =? 0)) (fl_prev st, cur);
  if negb (cur =? 0) then allocate_block (Whsize_wosize wo_sz) prev cur st
  else
    let st := mkFl m (fl_prev st) prev (caml_fl_merge st) (caml_fl_cur_size st) (last_fragment st) in
    cur <- Next m Fl_head;
    '(prev, cur) <- loop fuel (search_step m wo_sz (fun prev _ => prev =? fl_prev st)) (Fl_head, cur);
    if negb (cur =? 0) then allocate_block (Whsize_wosize wo_sz) prev cur st
    else Ok (0, st).

Definition caml_fl_init_merge st : fl_state :=
  mkFl (mem st) (fl_prev st) (fl_last st) Fl_head (caml_fl_cur_size st) 0.

Definition caml_fl_reset st : res fl_state :=
  m <- wr (mem st) Fl_head 0;
  Ok (caml_fl_init_merge (mkFl m Fl_head (fl_last st) (caml_fl_merge st) 0 (last_fragment st))).

(** Merging with the fragment before [bp]: the block and its header. *)
Definition merge_fragment (bp hd : Z) st : res (Z * Z * fl_state) :=
  if last_fragment st =? bp - 1 then
    h <- Hd_bp (mem st) bp;
    let bp_whsz := Whsize_hd h in
    if bp_whsz <=? Max_wosize then
      let hd := Make_header bp_whsz 0 Caml_white in
      let bp := last_fragment st in
      m <- wr (mem st) (bp - 1) hd;
      Ok (bp, hd, mkFl m (fl_prev st) (fl_last st) (caml_fl_merge st)
                    (u64 (caml_fl_cur_size st + Whsize_wosize 0)) (last_fragment st))
    else Ok (bp, hd, st)
  else Ok (bp, hd, st).

(** Merging with the free block [cur] after it: header, next block, end. *)
Definition merge_next (bp hd prev cur : Z) st : res (Z * Z * Z * fl_state) :=
  let adj := bp + Wosize_hd hd in
  if adj =? cur - 1 then
    next_cur <- Next (mem st) cur;
    h <- Hd_bp (mem st) cur;
    let cur_whsz := Whsize_hd h in
    if u64 (Wosize_hd hd + cur_whsz) <=? Max_wosize then
      m <- wr (mem st) prev next_cur;
      let p := if fl_prev st =? cur then prev else fl_prev st in
      let hd := Make_header (u64 (Wosize_hd hd + cur_whsz)) 0 Caml_blue in
      m <- wr m (bp - 1) hd;
      Ok (hd, next_cur, bp + Wosize_hd hd,
          mkFl m p (fl_last st) (caml_fl_merge st) (caml_fl_cur_size st) (last_fragment st))
    else Ok (hd, cur, adj, st)
  else Ok (hd, cur, adj, st).

(** Merging with the free block [prev], or insertion after it. *)
Definition merge_prev (bp hd prev cur : Z) st : res fl_state :=
  hp <- Hd_bp (mem st) prev;
  let prev_wosz := Wosize_hd hp in
  if (prev + prev_wosz =? bp - 1) && (u64 (prev_wosz + Whsize_hd hd) <? Max_wosize) then
    m <- wr (mem st) (prev - 1) (Make_header (u64 (prev_wosz + Whsize_hd hd)) 0 Caml_blue);
    Ok (set_mem st m)
  else if negb (Wosize_hd hd =? 0) then
    m <- wr (mem st) (bp - 1) (Bluehd_hd hd);
    m <- wr m bp cur;
    m <- wr m prev bp;
    Ok (mkFl m (fl_prev st) (fl_last st) bp (caml_fl_cur_size st) (last_fragment st))
  else
    Ok (mkFl (mem st) (fl_prev st) (fl_last st) (caml_fl_merge st)
         (u64 (caml_fl_cur_size st - Whsize_wosize 0)) bp).

(** The head pointer of the block after [bp]. *)
Definition caml_fl_merge_block (bp : Z) st : res (Z * fl_state) :=
  hd <- Hd_bp (mem st) bp;
  let st := mkFl (mem st) (fl_prev st) (fl_last st) (caml_fl_merge st)
              (u64 (caml_fl_cur_size st + Whsize_hd hd)) (last_fragment st) in
  let prev := caml_fl_merge st in
  cur <- Next (mem st) prev;
  '(bp, hd, st) <- merge_fragment bp hd st;
  '(hd, cur, adj, st) <- merge_next bp hd prev cur st;
  st <- merge_prev bp hd prev cur st;
  Ok (adj, st).

(** [while (cur != NULL && cur < bp)] *)
Definition insert_step (m : memory) (bp : Z) (s : Z * Z) : res (Z * Z + Z * Z) :=
  let '(prev, cur) := s in
  if negb (cur =? 0) && (cur <? bp) then n <- Next m cur; Ok (inl (cur, n)) else Ok (inr (prev, cur)).

(** [sweep_hp] is caml_gc_sweep_hp. *)
Definition caml_fl_add_block (fuel : nat) (sweep_hp bp : Z) st : res fl_state :=
  h <- Hd_bp (mem st) bp;
  let size := u64 (caml_fl_cur_size st + Whsize_hd h) in
  if fl_last st <? bp then
    m <- wr (mem st) (fl_last st) bp;
    m <- wr m bp 0;
    Ok (mkFl m (fl_prev st) (fl_last st) (caml_fl_merge st) size (last_fragment st))
  else
    cur <- Next (mem st) Fl_head;
    '(prev, cur) <- loop fuel (insert_step (mem st) bp) (Fl_head, cur);
    m <- wr (mem st) bp cur;
    m <- wr m prev bp;
    let merge := if (prev =? caml_fl_merge st) && (bp <=? sweep_hp) then bp else caml_fl_merge st in
    Ok (mkFl m (fl_prev st) (fl_last st) merge size (last_fragment st)).

(** Cutting [size] words from [p] on into blocks of at most Max_wosize. *)
Definition make_step (do_merge : bool) (s : Z * Z * fl_state) : res (Z * Z * fl_state + fl_state) :=
  let '(p, size, st) := s in
  if 0 <? size then
    let sz := if Whsize_wosize Max_wosize <? size then Whsize_wosize Max_wosize else size in
    m <- wr (mem st) p (Make_header (Wosize_whsize sz) 0 Caml_white);
    let st := set_mem st m in
    '(_, st) <- (if do_merge then caml_fl_merge_block (p + 1) st else Ok (0, st));
    Ok (inl (p + sz, size - sz, st))
  else Ok (inr st).
Definition caml_make_free_blocks (fuel : nat) (p size : Z) (do_merge : bool) st : res fl_state :=
  loop fuel (make_step do_merge) (p, size, st).
End Freelist.
