(* ===== verification/CamlFreelistOk.v ===== *)
(** The free list of OCaml: its invariant, and what allocation does to it.

    The free list of OCaml: insertion of blocks, with coalescing. *)
From stdpp Require Import base gmap list.
From Stdlib Require Import ZArith Lia.
From S2P Require Import Prelude CamlMemory CamlFreelist.
Open Scope Z_scope.


(** * Headers *)
Lemma Wosize_make wo tag color :
  0 <= wo <= Max_wosize -> 0 <= tag + color < 2 ^ 10 -> Wosize_hd (Make_header wo tag color) = wo.
Proof.
  unfold Max_wosize, Wosize_hd, Make_header. intros Hw Ht. rewrite Z.shiftl_mul_pow2, Z.shiftr_div_pow2 by lia.
  rewrite (wrap_small 64 (wo * 2 ^ 10)) by lia. rewrite wrap_small by lia.
  replace (wo * 2 ^ 10 + color + tag) with (wo * 2 ^ 10 + (tag + color)) by lia.
  rewrite Z.div_add_l, Z.div_small by lia. lia.
Qed.

Lemma Wosize_range h : 0 <= h < 2 ^ 64 -> 0 <= Wosize_hd h <= Max_wosize.
Proof.
  intros Hh. unfold Wosize_hd, Max_wosize. rewrite Z.shiftr_div_pow2 by lia.
  assert (0 <= h / 2 ^ 10) by (apply Z.div_pos; lia). assert (h / 2 ^ 10 < 2 ^ 54) by (apply Z.div_lt_upper_bound; lia). lia.
Qed.

Lemma Wosize_blue h : 0 <= h < 2 ^ 64 -> Wosize_hd (Bluehd_hd h) = Wosize_hd h.
Proof.
  intros Hh. unfold Wosize_hd, Bluehd_hd. apply Z.bits_inj'. intros i Hi.
  rewrite !Z.shiftr_spec, Z.lor_spec, Z.land_spec, Z.lxor_spec by lia.
  replace (2 ^ 64 - 1) with (Z.ones 64) by reflexivity.
  assert (Z.testbit Caml_blue (i + 10) = false) as -> by (apply Z.bits_above_log2; [done|cbn; lia]).
  assert (Z.testbit Caml_black (i + 10) = false) as -> by (apply Z.bits_above_log2; [done|cbn; lia]).
  rewrite xorb_false_r, orb_false_r. destruct (decide (i + 10 < 64)).
  - rewrite Z.ones_spec_low, andb_true_r by lia. done.
  - rewrite Z.ones_spec_high, andb_false_r by lia. symmetry. destruct (decide (h = 0)) as [->|]; [apply Z.bits_0|].
    apply Z.bits_above_log2; [lia|]. assert (Z.log2 h < 64) by (apply Z.log2_lt_pow2; lia). lia.
Qed.

(** * The invariant *)

(** The size of the block [b] in memory [m], by its header. *)
Definition wsz (m : memory) (b : Z) : Z := match m !! (b - 1) with Some h => Wosize_hd h | None => 0 end.

(** The words of the block, header included. *)
Definition in_block (m : memory) (b a : Z) : Prop := b - 1 <= a < b + wsz m b.
Definition covers (m : memory) (bs : list Z) (a : Z) : Prop := exists b, b ∈ bs /\ in_block m b a.

Fixpoint total (m : memory) (bs : list Z) : Z :=
  match bs with [] => 0 | b :: bs => wsz m b + 1 + total m bs end.

Section Invariant.
Variable Fl_head : Z.
Implicit Types (st : fl_state) (m : memory) (bs : list Z).

(** The sentinel and the fillers around it are apart from the range [lo, hi). *)
Definition away (lo hi : Z) : Prop := hi <= Fl_head - 2 \/ Fl_head + 2 <= lo.

Record blk m (b : Z) : Prop := {
  bk_hd : is_Some (m !! (b - 1));
  bk_size : 1 <= wsz m b <= Max_wosize;
  bk_low : 2 <= b;
  bk_away : away (b - 1) (b + wsz m b)
}.

(** The list [bs] of free blocks, [e] words being counted that are in none. *)
Record fl_ok (e : Z) bs st : Prop := {
  fo_link k p : (Fl_head :: bs) !! k = Some p -> mem st !! p = Some (default 0 (bs !! k));
  fo_head : is_Some (mem st !! (Fl_head - 1)) /\ wsz (mem st) Fl_head = 0;
  fo_order i j b b' : (i < j)%nat -> bs !! i = Some b -> bs !! j = Some b' -> b + wsz (mem st) b < b';
  fo_blk b : b ∈ bs -> blk (mem st) b;
  fo_prev : fl_prev st ∈ Fl_head :: bs;
  fo_merge : caml_fl_merge st ∈ Fl_head :: bs;
  fo_size : caml_fl_cur_size st = u64 (total (mem st) bs + e)
}.

Lemma ord_index e bs st i j b b' :
  fl_ok e bs st -> bs !! i = Some b -> bs !! j = Some b' -> (i < j)%nat \/ (i = j /\ b = b') \/ (j < i)%nat.
Proof. intros _ Hi Hj. destruct (lt_eq_lt_dec i j) as [[|E]|]; [by left|right; left; subst; split; congruence|by right; right]. Qed.

(** Different blocks are apart, and apart from the sentinel. *)
Lemma fo_disjoint e bs st b b' :
  fl_ok e bs st -> b ∈ bs -> b' ∈ bs -> b = b' \/ b + wsz (mem st) b < b' \/ b' + wsz (mem st) b' < b.
Proof.
  intros Hok [i Hi]%list_elem_of_lookup [j Hj]%list_elem_of_lookup.
  destruct (ord_index e bs st i j b b' Hok Hi Hj) as [H|[[_ ->]|H]]; [|by left|].
  - right; left. by eapply fo_order.
  - right; right. by eapply fo_order.
Qed.

Lemma fo_nodup e bs st : fl_ok e bs st -> NoDup (Fl_head :: bs).
Proof.
  intros Hok. apply NoDup_cons. split.
  - intros Hin. destruct (fo_blk _ _ _ Hok _ Hin) as [_ [? _] _ Ha]. unfold away in Ha. lia.
  - apply NoDup_alt. intros i j b Hi Hj. destruct (decide (i = j)); [done|].
    assert (1 <= wsz (mem st) b) by (eapply bk_size, fo_blk; [done|by eapply list_elem_of_lookup_2]).
    destruct (decide (i < j)%nat); [|].
    + pose proof (fo_order _ _ _ Hok i j b b ltac:(lia) Hi Hj). lia.
    + pose proof (fo_order _ _ _ Hok j i b b ltac:(lia) Hj Hi). lia.
Qed.

Lemma node_index e bs st k k' p : fl_ok e bs st -> (Fl_head :: bs) !! k = Some p -> (Fl_head :: bs) !! k' = Some p -> k = k'.
Proof. intros Hok. apply NoDup_lookup. by eapply fo_nodup. Qed.

(** Headers and first fields do not overlap. *)
Lemma node_not_header e bs st p b : fl_ok e bs st -> p ∈ Fl_head :: bs -> b ∈ Fl_head :: bs -> p <> b - 1.
Proof.
  intros Hok Hp Hb. apply elem_of_cons in Hp, Hb.
  destruct Hp as [->|Hp], Hb as [->|Hb]; [lia| | |].
  - destruct (fo_blk _ _ _ Hok _ Hb) as [_ [? _] _ Ha]. unfold away in Ha. lia.
  - destruct (fo_blk _ _ _ Hok _ Hp) as [_ [? _] _ Ha]. unfold away in Ha. lia.
  - pose proof (bk_size _ _ (fo_blk _ _ _ Hok _ Hb)). pose proof (bk_size _ _ (fo_blk _ _ _ Hok _ Hp)).
    destruct (fo_disjoint _ _ _ _ _ Hok Hp Hb) as [->|[?|?]]; lia.
Qed.

Lemma header_inj (b b' : Z) : b - 1 = b' - 1 -> b = b'.
Proof. lia. Qed.

Lemma wsz_eq m m' b : m' !! (b - 1) = m !! (b - 1) -> wsz m' b = wsz m b.
Proof. unfold wsz. by intros ->. Qed.
Lemma blk_eq m m' b : m' !! (b - 1) = m !! (b - 1) -> blk m b -> blk m' b.
Proof. intros E [? ? ? ?]. split; rewrite ?(wsz_eq m m' b E), ?E; done. Qed.
Lemma total_eq m m' bs : (forall b, b ∈ bs -> m' !! (b - 1) = m !! (b - 1)) -> total m' bs = total m bs.
Proof.
  induction bs as [|b bs IH]; intros H; [done|]. cbn. rewrite IH, (wsz_eq m m' b); [done|apply H; left|].
  intros; apply H. by right.
Qed.

(** A header can be read. *)
Lemma Hd_ok m b : is_Some (m !! (b - 1)) -> exists h, Hd_bp m b = Ok h /\ wsz m b = Wosize_hd h /\ m !! (b - 1) = Some h.
Proof. intros [h E]. exists h. unfold Hd_bp, rd, wsz. by rewrite E. Qed.
Lemma wr_ok m a v : is_Some (m !! a) -> wr m a v = Ok (<[a := v]> m).
Proof. intros [x E]. unfold wr. by rewrite E. Qed.

Lemma total_split m bs k b : bs !! k = Some b -> total m bs = wsz m b + 1 + total m (delete k bs).
Proof.
  revert k. induction bs as [|c bs IH]; intros [|k] H; [done|done|by injection H as ->|].
  change (delete (S k) (c :: bs)) with (c :: delete k bs). cbn [total]. rewrite (IH k H). lia.
Qed.

Lemma delete_get bs k i : delete k bs !! i = if decide (i < k)%nat then bs !! i else bs !! S i.
Proof. case_decide; [by apply list_lookup_delete_lt|apply list_lookup_delete_ge; lia]. Qed.

Lemma elem_of_delete bs k b : b ∈ delete k bs -> b ∈ bs.
Proof. intros [i Hi]%list_elem_of_lookup. rewrite delete_get in Hi. case_decide; by eapply list_elem_of_lookup_2. Qed.

(** ** Unlinking the block at index [k] *)

(** The memory after the word of the previous node has been redirected, and
    perhaps other words written, none of them a header or link in use. *)
Lemma unlink_link e bs st k prev cur m' :
  fl_ok e bs st -> (Fl_head :: bs) !! k = Some prev -> bs !! k = Some cur ->
  m' !! prev = Some (default 0 (bs !! S k)) ->
  (forall p, p ∈ Fl_head :: bs -> p <> prev -> p <> cur -> m' !! p = mem st !! p) ->
  forall i p, (Fl_head :: delete k bs) !! i = Some p -> m' !! p = Some (default 0 (delete k bs !! i)).
Proof.
  intros Hok Hp Hc Hm' Hother i p Hi.
  assert (forall j q, (Fl_head :: bs) !! j = Some q -> j <> k -> j <> S k -> m' !! q = Some (default 0 (bs !! j))) as Hj.
  { intros j q Hq Hjk Hjk'. rewrite Hother; [by eapply fo_link|by eapply list_elem_of_lookup_2| |].
    - intros ->. apply Hjk. by eapply node_index.
    - intros ->. apply Hjk'. by eapply node_index. }
  rewrite delete_get. destruct i as [|i]; cbn in Hi.
  - injection Hi as <-. destruct k as [|k]; cbn in Hp.
    + injection Hp as <-. cbn. exact Hm'.
    + rewrite decide_True by lia. apply (Hj O); [done|lia|lia].
  - rewrite delete_get in Hi. destruct (decide (i < k)%nat) as [Hlt|Hge].
    + destruct (decide (S i < k)%nat).
      * apply (Hj (S i)); [done|lia|lia].
      * assert (k = S i) as -> by lia. change (bs !! i = Some prev) in Hp. assert (p = prev) as -> by congruence. exact Hm'.
    + rewrite decide_False by lia. apply (Hj (S (S i))); [done|lia|lia].
Qed.

Lemma delete_elem e bs st k cur b :
  fl_ok e bs st -> bs !! k = Some cur -> b ∈ delete k bs -> b ∈ bs /\ b <> cur.
Proof.
  intros Hok Hc Hb. split; [by eapply elem_of_delete|]. intros ->. apply list_elem_of_lookup in Hb as [i Hi].
  rewrite delete_get in Hi. pose proof (fo_nodup _ _ _ Hok) as [_ Hnd]%NoDup_cons. case_decide.
  - assert (i = k) by (by eapply NoDup_lookup). lia.
  - assert (S i = k) by (by eapply NoDup_lookup). lia.
Qed.

Lemma unlink_ok e bs st k prev cur m' prev' merge' last frag size :
  fl_ok e bs st -> (Fl_head :: bs) !! k = Some prev -> bs !! k = Some cur ->
  m' !! prev = Some (default 0 (bs !! S k)) ->
  (forall p, p ∈ Fl_head :: bs -> p <> prev -> p <> cur -> m' !! p = mem st !! p) ->
  (forall b, b ∈ Fl_head :: bs -> b <> cur -> m' !! (b - 1) = mem st !! (b - 1)) ->
  prev' ∈ Fl_head :: delete k bs -> merge' ∈ Fl_head :: delete k bs ->
  forall e', size = u64 (total (mem st) (delete k bs) + e') ->
  fl_ok e' (delete k bs) (mkFl m' prev' last merge' size frag).
Proof.
  intros Hok Hp Hc Hm' Hother Hhd Hprev Hmerge e' Hsize.
  pose proof (fun b => delete_elem e bs st k cur b Hok Hc) as Hdel.
  assert (forall b, b ∈ delete k bs -> m' !! (b - 1) = mem st !! (b - 1)) as Hhd'.
  { intros b [Hb Hne]%Hdel. apply Hhd; [by right|done]. }
  assert (Fl_head <> cur) as Hnh.
  { pose proof (fo_nodup _ _ _ Hok) as [Hn _]%NoDup_cons. intros ->. apply Hn. by eapply list_elem_of_lookup_2. }
  split; cbn [mem fl_prev caml_fl_merge caml_fl_cur_size].
  - by eapply unlink_link.
  - pose proof (fo_head _ _ _ Hok) as [? ?]. rewrite (wsz_eq (mem st) m') by (apply Hhd; [left|done]).
    rewrite Hhd by (left || done). done.
  - intros i j b b' Hij Hi Hj. rewrite (wsz_eq (mem st) m') by (apply Hhd'; by eapply list_elem_of_lookup_2).
    rewrite delete_get in Hi, Hj. repeat case_decide; (eapply (fo_order _ _ _ Hok); [|done|done]); lia.
  - intros b Hb. apply (blk_eq (mem st)); [by apply Hhd'|]. eapply fo_blk; [done|]. by apply Hdel.
  - done.
  - done.
  - by rewrite (total_eq (mem st) m') by done.
Qed.

(** The link of the node before index [k], and membership of nodes. *)
Lemma link_next e bs st k cur : fl_ok e bs st -> bs !! k = Some cur -> Next (mem st) cur = Ok (default 0 (bs !! S k)).
Proof. intros Hok Hc. unfold Next, rd. by rewrite (fo_link _ _ _ Hok (S k) cur Hc). Qed.
Lemma node_keep bs k p : p ∈ Fl_head :: bs -> (forall cur, bs !! k = Some cur -> p <> cur) -> p ∈ Fl_head :: delete k bs.
Proof.
  intros [->|Hp]%elem_of_cons Hne; [left|right]. apply list_elem_of_lookup in Hp as [i Hi].
  destruct (lt_eq_lt_dec i k) as [[Hl| ->]|Hg]; [| by specialize (Hne p Hi)|].
  - apply (list_elem_of_lookup_2 _ i). by rewrite delete_get, decide_True by lia.
  - apply (list_elem_of_lookup_2 _ (i - 1)). rewrite delete_get, decide_False by lia. by replace (S (i - 1)) with i by lia.
Qed.
Lemma prev_keep e bs st k p cur : fl_ok e bs st -> (Fl_head :: bs) !! k = Some p -> bs !! k = Some cur -> p ∈ Fl_head :: delete k bs.
Proof.
  intros Hok Hp Hc. apply node_keep; [by eapply list_elem_of_lookup_2|]. intros cur' Hc' ->.
  assert (k = S k); [|lia]. by eapply node_index.
Qed.

(** * Allocation *)

Lemma Whsize_ok sz : 0 <= sz <= Max_wosize -> Whsize_wosize sz = sz + 1.
Proof. unfold Whsize_wosize, Max_wosize. intros. apply wrap_small. lia. Qed.
Lemma u64_sub x y : u64 (u64 x - y) = u64 (x - y).
Proof. rewrite <- !Z.add_opp_r. apply wrap_add_l. Qed.

(** The range [r, r + wh) has been taken from the free list; a single word
    before it may be left out as an empty block. *)
Record allocated m bs m' bs' (r wh : Z) : Prop := {
  al_inside a : r <= a < r + wh -> covers m bs a;
  al_disjoint a : covers m' bs' a -> covers m bs a /\ ~ r <= a < r + wh;
  al_rest a : covers m bs a -> ~ r <= a < r + wh ->
    covers m' bs' a \/ (a = r - 1 /\ m' !! a = Some (Make_header 0 0 Caml_white))
}.

Lemma detach_ok e bs st k prev cur wo :
  fl_ok e bs st -> (Fl_head :: bs) !! k = Some prev -> bs !! k = Some cur -> 1 <= wo ->
  wo <= wsz (mem st) cur < wo + 2 ->
  exists st', allocate_block (wo + 1) prev cur st = Ok (cur + wsz (mem st) cur - (wo + 1), st') /\
    fl_ok e (delete k bs) st' /\ allocated (mem st) bs (mem st') (delete k bs) (cur + wsz (mem st) cur - (wo + 1)) (wo + 1).
Proof.
  intros Hok Hp Hc Hwo Hsz. pose proof (list_elem_of_lookup_2 _ _ _ Hc) as Hin. pose proof (list_elem_of_lookup_2 _ _ _ Hp) as Hpin.
  destruct (fo_blk _ _ _ Hok _ Hin) as [Hhd Hsize Hlow Haway].
  destruct (Hd_ok (mem st) cur Hhd) as (h & Eh & Ew & Em). unfold allocate_block. rewrite Eh. cbn [bind].
  unfold Max_wosize in Hsize. rewrite <- Ew. rewrite wrap_small by lia. rewrite (proj2 (Z.ltb_lt _ _)) by lia.
  rewrite (link_next _ _ _ _ _ Hok Hc). cbn [bind]. rewrite wr_ok by (rewrite (fo_link _ _ _ Hok k prev Hp); eauto). cbn [bind].
  assert (prev <> cur - 1) as Hpc by (eapply node_not_header; [done|done|by right]).
  rewrite wr_ok by (rewrite lookup_insert_ne by done; done). cbn [bind].
  eexists. split; [done|]. set (m' := <[cur - 1 := _]> _).
  assert (forall b, b ∈ Fl_head :: bs -> b <> cur -> m' !! (b - 1) = mem st !! (b - 1)) as Hh.
  { intros b Hb Hne. unfold m'. rewrite !lookup_insert_ne; [done|eapply node_not_header; [done|done|done]|lia]. }
  split.
  - eapply (unlink_ok e bs st k prev cur m'); [done|done|done| | |exact Hh|by eapply prev_keep| |].
    + unfold m'. rewrite lookup_insert_ne by lia. by rewrite lookup_insert_eq.
    + intros p Hpp ? ?. unfold m'. rewrite !lookup_insert_ne; [done|done|]. intros E. symmetry in E. revert E.
      eapply node_not_header; [done|done|by right].
    + case_zbool (caml_fl_merge st =? cur); [by eapply prev_keep|]. apply node_keep; [apply Hok|]. intros c Hc'. congruence.
    + rewrite (fo_size _ _ _ Hok), u64_sub. f_equal. rewrite (total_split _ _ _ _ Hc). unfold Whsize_hd.
      rewrite <- Ew, Whsize_ok by (unfold Max_wosize; lia). lia.
  - cbn [mem]. pose proof (fun b => delete_elem e bs st k cur b Hok Hc) as Hdel.
    split.
    + intros a Ha. exists cur. split; [done|]. unfold in_block. lia.
    + intros a (b & [Hb Hne]%Hdel & Hab). unfold in_block in Hab. rewrite (wsz_eq (mem st) m') in Hab by (apply Hh; [by right|done]).
      split; [exists b; split; [done|exact Hab]|]. destruct (fo_disjoint _ _ _ _ _ Hok Hb Hin) as [?|[?|?]]; [done|lia|lia].
    + intros a (b & Hb & Hab) Hna. destruct (decide (b = cur)) as [->|Hne].
      * right. unfold in_block in Hab. assert (a = cur - 1) as -> by lia. split; [lia|]. unfold m'. by rewrite lookup_insert_eq.
      * left. exists b. split.
        -- assert (b ∈ Fl_head :: delete k bs) as [->|?]%elem_of_cons; [apply node_keep; [by right|intros c Hc'; congruence]| |done].
           pose proof (fo_nodup _ _ _ Hok) as [Hn _]%NoDup_cons. done.
        -- unfold in_block. rewrite (wsz_eq (mem st) m') by (apply Hh; [by right|done]). done.
Qed.

Lemma split_ok e bs st k prev cur wo :
  fl_ok e bs st -> (Fl_head :: bs) !! k = Some prev -> bs !! k = Some cur -> 1 <= wo -> wo + 2 <= wsz (mem st) cur ->
  exists st', allocate_block (wo + 1) prev cur st = Ok (cur + wsz (mem st) cur - (wo + 1), st') /\
    fl_ok e bs st' /\ allocated (mem st) bs (mem st') bs (cur + wsz (mem st) cur - (wo + 1)) (wo + 1).
Proof.
  intros Hok Hp Hc Hwo Hsz. pose proof (list_elem_of_lookup_2 _ _ _ Hc) as Hin. pose proof (list_elem_of_lookup_2 _ _ _ Hp) as Hpin.
  destruct (fo_blk _ _ _ Hok _ Hin) as [Hhd Hsize Hlow Haway]. unfold away in Haway.
  destruct (Hd_ok (mem st) cur Hhd) as (h & Eh & Ew & Em). unfold allocate_block. rewrite Eh. cbn [bind].
  unfold Max_wosize in Hsize. rewrite <- Ew.
  rewrite (wrap_small 64 (wo + 1 + 1)) by lia. rewrite (proj2 (Z.ltb_ge _ _)) by lia.
  rewrite (wrap_small 64 (wsz (mem st) cur - (wo + 1))) by lia. rewrite wr_ok by done. cbn [bind]. eexists. split; [done|]. set (m' := <[cur - 1 := _]> _).
  assert (forall b, b <> cur -> wsz m' b = wsz (mem st) b) as Hw.
  { intros b Hne. apply wsz_eq. unfold m'. rewrite lookup_insert_ne; [done|lia]. }
  assert (wsz m' cur = wsz (mem st) cur - (wo + 1)) as Hwc.
  { unfold wsz at 1, m'. rewrite lookup_insert_eq. apply Wosize_make; [unfold Max_wosize; lia|unfold Caml_blue; lia]. }
  assert (forall b, wsz m' b <= wsz (mem st) b) as Hwle by (intros b; destruct (decide (b = cur)) as [->|]; [lia|rewrite Hw by done; lia]).
  split.
  - split; cbn [mem fl_prev caml_fl_merge caml_fl_cur_size].
    + intros i p Hi. unfold m'. rewrite lookup_insert_ne; [by eapply fo_link|]. intros E. symmetry in E. revert E.
      eapply node_not_header; [done|by eapply list_elem_of_lookup_2|by right].
    + pose proof (fo_head _ _ _ Hok) as [? ?]. rewrite Hw by (intros ->; lia). split; [|done]. unfold m'. rewrite lookup_insert_ne by lia. done.
    + intros i j b b' Hij Hi Hj. pose proof (fo_order _ _ _ Hok i j b b' Hij Hi Hj). specialize (Hwle b). lia.
    + intros b Hb. destruct (fo_blk _ _ _ Hok _ Hb) as [? [? ?] ? Ha]. unfold away in Ha. split.
      * unfold m'. apply lookup_insert_is_Some'. by right.
      * destruct (decide (b = cur)) as [->|]; [unfold Max_wosize; lia|by rewrite Hw].
      * done.
      * specialize (Hwle b). unfold away. lia.
    + done.
    + apply Hok.
    + rewrite (fo_size _ _ _ Hok), u64_sub. f_equal. rewrite (total_split (mem st) _ _ _ Hc), (total_split m' _ _ _ Hc), Hwc.
      rewrite (total_eq (mem st) m'); [lia|]. intros b Hb. unfold m'. rewrite lookup_insert_ne; [done|].
      apply (delete_elem _ _ _ _ _ _ Hok Hc) in Hb as [_ ?]. lia.
  - cbn [mem]. split.
    + intros a Ha. exists cur. split; [done|]. unfold in_block. lia.
    + intros a (b & Hb & Hab). unfold in_block in Hab. split; [exists b; split; [done|]; unfold in_block; specialize (Hwle b); lia|].
      destruct (decide (b = cur)) as [->|Hne]; [lia|]. rewrite Hw in Hab by done.
      destruct (fo_disjoint _ _ _ _ _ Hok Hb Hin) as [?|[?|?]]; [done|lia|lia].
    + intros a (b & Hb & Hab) Hna. left. exists b. split; [done|]. unfold in_block in *.
      destruct (decide (b = cur)) as [->|]; [lia|by rewrite Hw].
Qed.

(** The outcome of a search: a block that is large enough, after its
    predecessor, or none among those with index in [k, n). *)
Definition found_or_end (wo : Z) (n k : nat) bs st (r : Z * Z) : Prop :=
  (exists j, (Fl_head :: bs) !! j = Some r.1 /\ bs !! j = Some r.2 /\ wo <= wsz (mem st) r.2) \/
  (r.2 = 0 /\ (Fl_head :: bs) !! n = Some r.1 /\ forall j b, (k <= j < n)%nat -> bs !! j = Some b -> wsz (mem st) b < wo).

Lemma search_ok e bs st wo stop n fuel k p :
  fl_ok e bs st -> (n <= length bs)%nat ->
  (forall k p, (k <= n)%nat -> (Fl_head :: bs) !! k = Some p -> stop p (default 0 (bs !! k)) = bool_decide (k = n)) ->
  (k <= n)%nat -> (Fl_head :: bs) !! k = Some p -> (n - k < fuel)%nat ->
  exists r, loop fuel (search_step (mem st) wo stop) (p, default 0 (bs !! k)) = Ok r /\ found_or_end wo n k bs st r.
Proof.
  intros Hok Hn Hstop. revert k p. induction fuel as [|fuel IH]; intros k p Hk Hp Hf; [lia|]. cbn [loop]. unfold search_step at 1.
  rewrite (Hstop k p Hk Hp). case_bool_decide as E.
  - subst k. cbn [bind]. eexists. split; [done|]. right. split_and!; [done|done|lia].
  - destruct (lookup_lt_is_Some_2 bs k) as [cur Hc]; [lia|]. rewrite Hc. change (default 0 (Some cur)) with cur.
    destruct (Hd_ok (mem st) cur) as (h & -> & Ew & _); [eapply bk_hd, fo_blk; [done|by eapply list_elem_of_lookup_2]|]. cbn [bind].
    rewrite <- Ew. case_zbool (wo <=? wsz (mem st) cur).
    + cbn [bind]. eexists. split; [done|]. left. exists k. done.
    + rewrite (link_next _ _ _ _ _ Hok Hc). cbn [bind].
      destruct (IH (S k) cur) as (r & -> & Hr); [lia|done|lia|]. exists r. split; [done|].
      destruct Hr as [?|(? & ? & Hall)]; [by left|right]. split_and!; [done|done|]. intros j b Hj Hb.
      destruct (decide (j = k)) as [->|]; [|apply (Hall j); [lia|done]]. by assert (b = cur) as -> by congruence.
Qed.

Lemma found_allocates e bs st st0 k prev cur wo :
  fl_ok e bs st0 -> mem st0 = mem st -> (Fl_head :: bs) !! k = Some prev -> bs !! k = Some cur -> 1 <= wo -> wo <= wsz (mem st) cur ->
  exists r st' bs', allocate_block (Whsize_wosize wo) prev cur st0 = Ok (r, st') /\ r <> 0 /\
    fl_ok e bs' st' /\ allocated (mem st) bs (mem st') bs' r (wo + 1).
Proof.
  intros Hok Em Hp Hc Hwo Hsz. pose proof (list_elem_of_lookup_2 _ _ _ Hc) as Hin. destruct (fo_blk _ _ _ Hok _ Hin) as [_ Hsize Hlow _].
  rewrite Em in Hsize. rewrite Whsize_ok by lia. rewrite <- Em in *.
  destruct (decide (wsz (mem st0) cur < wo + 2)).
  - destruct (detach_ok e bs st0 k prev cur wo) as (st' & E & ? & ?); [done..|lia|]. eexists _, st', _. split; [exact E|]. split; [lia|]. done.
  - destruct (split_ok e bs st0 k prev cur wo) as (st' & E & ? & ?); [done..|lia|]. eexists _, st', _. split; [exact E|]. split; [lia|]. done.
Qed.

Lemma block_nonzero e bs st k : fl_ok e bs st -> (k <= length bs)%nat -> (default 0 (bs !! k) =? 0) = bool_decide (k = length bs).
Proof.
  intros Hok Hk. case_bool_decide as E.
  - subst. by rewrite lookup_ge_None_2 by lia.
  - destruct (lookup_lt_is_Some_2 bs k) as [b Hb]; [lia|]. rewrite Hb. cbn. apply Z.eqb_neq.
    pose proof (bk_low _ _ (fo_blk _ _ _ Hok b ltac:(by eapply list_elem_of_lookup_2))). lia.
Qed.

Lemma allocate_total e bs st wo fuel :
  fl_ok e bs st -> 1 <= wo -> (length bs < fuel)%nat ->
  exists r st', caml_fl_allocate Fl_head fuel wo st = Ok (r, st') /\
    if r =? 0 then fl_ok e bs st' /\ mem st' = mem st /\ (Fl_head :: bs) !! length bs = Some (fl_last st') /\
                   forall b, b ∈ bs -> wsz (mem st) b < wo
    else exists bs', fl_ok e bs' st' /\ allocated (mem st) bs (mem st') bs' r (wo + 1).
Proof.
  intros Hok Hwo Hfuel. unfold caml_fl_allocate.
  pose proof (fo_prev _ _ _ Hok) as [k0 Hk0]%list_elem_of_lookup.
  assert (k0 <= length bs)%nat as Hk0l by (apply lookup_lt_Some in Hk0; cbn in Hk0; lia).
  unfold Next, rd. rewrite (fo_link _ _ _ Hok k0 _ Hk0). cbn [lift bind].
  destruct (search_ok e bs st wo (fun _ cur => cur =? 0) (length bs) fuel k0 (fl_prev st)) as ([p1 c1] & -> & H1); [done|lia| |done|done|lia|].
  { intros k p Hk _. by apply (block_nonzero e bs st). }
  cbn [bind]. destruct H1 as [(j & Hj1 & Hj2 & Hj3)|(Ez & Hlast & Hall1)]; cbn [fst snd] in *.
  - assert (c1 <> 0) as Hnz by (pose proof (bk_low _ _ (fo_blk _ _ _ Hok c1 ltac:(by eapply list_elem_of_lookup_2))); lia).
    rewrite (proj2 (Z.eqb_neq _ _) Hnz). cbn [negb].
    destruct (found_allocates e bs st st j p1 c1 wo) as (r & st' & bs' & E & Hr & ? & ?); [done..|]. exists r, st'. split; [exact E|].
    rewrite (proj2 (Z.eqb_neq _ _) Hr). by exists bs'.
  - subst c1. cbn [Z.eqb negb]. set (st1 := mkFl _ _ _ _ _ _).
    assert (fl_ok e bs st1) as Hok1 by (destruct Hok; by split).
    pose proof (fo_link _ _ _ Hok O Fl_head eq_refl) as ->. cbn [lift bind].
    destruct (search_ok e bs st1 wo (fun prev _ => prev =? fl_prev st) k0 fuel 0 Fl_head) as ([p2 c2] & E2 & H2); [done|done| |lia|done|lia|].
    { intros k p Hk Hp. case_bool_decide as E; [subst; apply Z.eqb_eq; congruence|]. apply Z.eqb_neq. intros ->. apply E. by eapply node_index. }
    change (mem st1) with (mem st) in E2. change (fl_prev st1) with (fl_prev st). rewrite E2. cbn [bind].
    destruct H2 as [(j & Hj1 & Hj2 & Hj3)|(Ez & _ & Hall2)]; cbn [fst snd] in *.
    + assert (c2 <> 0) as Hnz by (pose proof (bk_low _ _ (fo_blk _ _ _ Hok c2 ltac:(by eapply list_elem_of_lookup_2))); lia).
      rewrite (proj2 (Z.eqb_neq _ _) Hnz). cbn [negb].
      destruct (found_allocates e bs st st1 j p2 c2 wo) as (r & st' & bs' & E & Hr & ? & ?); [done..|]. exists r, st'. split; [exact E|].
      rewrite (proj2 (Z.eqb_neq _ _) Hr). by exists bs'.
    + subst c2. cbn [Z.eqb negb]. exists 0, st1. split; [done|]. cbn [Z.eqb]. split_and!; [done|done|done|].
      intros b [j Hj]%list_elem_of_lookup. destruct (decide (j < k0)%nat); [apply (Hall2 j); [lia|done]|].
      apply (Hall1 j); [|done]. apply lookup_lt_Some in Hj. lia.
Qed.
End Invariant.

Section Merge.
Variable Fl_head : Z.
Implicit Types (st : fl_state) (m : memory) (bs : list Z).
Local Abbreviation fl_ok := (fl_ok Fl_head).
Local Abbreviation away := (away Fl_head).
Local Abbreviation blk := (blk Fl_head).

(** The words [lo, hi) lie between the blocks before index [k] and the others. *)
Record fits m bs (k : nat) (lo hi : Z) : Prop := {
  ft_before j b : (j < k)%nat -> bs !! j = Some b -> b + wsz m b <= lo;
  ft_after j b : (k <= j)%nat -> bs !! j = Some b -> hi <= b - 1;
  ft_away : away lo hi;
  ft_low : 1 <= lo < hi
}.

Lemma fits_shrink m bs k lo lo' hi : lo <= lo' < hi -> fits m bs k lo hi -> fits m bs k lo' hi.
Proof.
  intros Hlo [Hb Ha Haw ?]. unfold CamlFreelistOk.away in *. split; [|done|unfold CamlFreelistOk.away; lia|lia].
  intros j b Hj E. specialize (Hb j b Hj E). lia.
Qed.

Lemma fits_outside m bs k lo hi b a : fits m bs k lo hi -> b ∈ bs -> in_block m b a -> lo <= a < hi -> False.
Proof.
  intros Hf [j Hj]%list_elem_of_lookup Hin Ha. unfold in_block in Hin. destruct (decide (j < k)%nat).
  - pose proof (ft_before _ _ _ _ _ Hf j b ltac:(lia) Hj). lia.
  - pose proof (ft_after _ _ _ _ _ Hf j b ltac:(lia) Hj). lia.
Qed.

(** Addresses in the range are not in use by the list. *)
Lemma fits_not_node e m bs k lo hi st p a :
  fl_ok e bs st -> mem st = m -> fits m bs k lo hi -> p ∈ Fl_head :: bs -> lo <= a < hi -> p <> a /\ p - 1 <> a.
Proof.
  intros Hok <- Hf [->|Hp]%elem_of_cons Ha.
  - pose proof (ft_away _ _ _ _ _ Hf) as Haw. unfold CamlFreelistOk.away in Haw. lia.
  - pose proof (bk_size _ _ _ (fo_blk _ _ _ _ Hok _ Hp)). split; intros E.
    + eapply (fits_outside _ _ _ _ _ p a Hf Hp); [unfold in_block; lia|done].
    + eapply (fits_outside _ _ _ _ _ p a Hf Hp); [unfold in_block; lia|done].
Qed.

Lemma fl_ok_fields e e' bs st last frag size prev merge :
  fl_ok e bs st -> prev ∈ Fl_head :: bs -> merge ∈ Fl_head :: bs -> size = u64 (total (mem st) bs + e') ->
  fl_ok e' bs (mkFl (mem st) prev last merge size frag).
Proof. intros [? ? ? ? ? ? ?] ? ? ?. by split. Qed.

(** A write in a range that fits. *)
Lemma write_ok e bs st k lo hi a v :
  fl_ok e bs st -> fits (mem st) bs k lo hi -> lo <= a < hi ->
  fl_ok e bs (set_mem st (<[a := v]> (mem st))) /\ (forall b, b ∈ Fl_head :: bs -> wsz (<[a := v]> (mem st)) b = wsz (mem st) b).
Proof.
  intros Hok Hf Ha.
  assert (forall b, b ∈ Fl_head :: bs -> <[a := v]> (mem st) !! b = mem st !! b /\ <[a := v]> (mem st) !! (b - 1) = mem st !! (b - 1)) as Hsame.
  { intros b Hb. destruct (fits_not_node _ _ _ _ _ _ _ _ _ Hok eq_refl Hf Hb Ha). rewrite !lookup_insert_ne by done. done. }
  assert (forall b, b ∈ Fl_head :: bs -> wsz (<[a := v]> (mem st)) b = wsz (mem st) b) as Hw.
  { intros b Hb. apply wsz_eq. by apply Hsame. }
  split; [|done]. split; cbn [mem set_mem fl_prev caml_fl_merge caml_fl_cur_size].
  - intros i p Hi. destruct (Hsame p ltac:(by eapply list_elem_of_lookup_2)) as [-> _]. by eapply fo_link.
  - rewrite Hw by left. destruct (Hsame Fl_head ltac:(left)) as [_ ->]. apply Hok.
  - intros i j b b' Hij Hi Hj. rewrite Hw by (right; by eapply list_elem_of_lookup_2). by eapply (fo_order _ _ _ _ Hok).
  - intros b Hb. eapply blk_eq; [|by eapply fo_blk]. apply Hsame. by right.
  - apply Hok.
  - apply Hok.
  - rewrite (fo_size _ _ _ _ Hok). do 2 f_equal. symmetry. apply total_eq. intros b Hb. apply Hsame. by right.
Qed.

Lemma fits_eq m m' bs k lo hi :
  (forall b, b ∈ bs -> wsz m' b = wsz m b) -> fits m bs k lo hi -> fits m' bs k lo hi.
Proof.
  intros Hw [Hb Ha ? ?]. split; [|done..]. intros j b Hj E. rewrite Hw by (by eapply list_elem_of_lookup_2). by eapply Hb.
Qed.
Lemma covers_eq m m' bs a : (forall b, b ∈ bs -> wsz m' b = wsz m b) -> covers m' bs a <-> covers m bs a.
Proof.
  intros Hw. unfold covers, in_block. split; intros (b & Hb & Hab); exists b; (split; [done|]); specialize (Hw b Hb); lia.
Qed.

(** ** Linking a block in at index [k] *)
Lemma total_inserted m bs k b : total m (inserted bs k b) = wsz m b + 1 + total m bs.
Proof.
  unfold inserted. revert k. induction bs as [|c bs IH]; intros [|k]; cbn; try done. specialize (IH k). cbn in IH. lia.
Qed.
Lemma elem_inserted bs k b x : x ∈ inserted bs k b <-> x = b \/ x ∈ bs.
Proof.
  unfold inserted. rewrite elem_of_app, elem_of_cons. assert (x ∈ bs <-> x ∈ take k bs \/ x ∈ drop k bs) as ->; [|tauto].
  rewrite <- elem_of_app, take_drop. done.
Qed.

Lemma insert_ok e bs st k prev bp m' prev' merge' last frag size e' :
  fl_ok e bs st -> (Fl_head :: bs) !! k = Some prev -> fits (mem st) bs k (bp - 1) (bp + wsz m' bp) ->
  is_Some (m' !! (bp - 1)) -> 1 <= wsz m' bp <= Max_wosize ->
  m' !! bp = Some (default 0 (bs !! k)) -> m' !! prev = Some bp ->
  (forall p, p ∈ Fl_head :: bs -> p <> prev -> m' !! p = mem st !! p) ->
  (forall b, b ∈ Fl_head :: bs -> m' !! (b - 1) = mem st !! (b - 1)) ->
  prev' ∈ Fl_head :: inserted bs k bp -> merge' ∈ Fl_head :: inserted bs k bp ->
  size = u64 (total (mem st) bs + (wsz m' bp + 1) + e') ->
  fl_ok e' (inserted bs k bp) (mkFl m' prev' last merge' size frag) /\
  forall a, covers m' (inserted bs k bp) a <-> covers (mem st) bs a \/ bp - 1 <= a < bp + wsz m' bp.
Proof.
  intros Hok Hp Hf Hhd Hsz Hbp Hprev Hlink Hheads Hp' Hm' Hsize.
  assert (k <= length bs)%nat as Hk by (apply lookup_lt_Some in Hp; cbn in Hp; lia).
  assert (forall b, b ∈ Fl_head :: bs -> wsz m' b = wsz (mem st) b) as Hw by (intros b Hb; apply wsz_eq; by apply Hheads).
  split; [split; cbn [mem fl_prev caml_fl_merge caml_fl_cur_size]|].
  - assert (forall i q, (Fl_head :: bs) !! i = Some q -> i <> k -> m' !! q = Some (default 0 (bs !! i))) as Hother.
    { intros i q Hq Hik. rewrite Hlink; [by eapply fo_link|by eapply list_elem_of_lookup_2|]. intros ->. apply Hik. by eapply node_index. }
    intros [|i] p Hi.
    + injection Hi as <-. rewrite inserted_get by lia. case_decide as E; [subst k; cbn in Hp; injection Hp as <-; done|].
      rewrite decide_True by lia. by apply (Hother O).
    + change (inserted bs k bp !! i = Some p) in Hi. rewrite inserted_get in Hi |- * by lia.
      destruct (decide (i = k)) as [->|].
      * injection Hi as <-. rewrite decide_False, decide_False by lia. by replace (S k - 1)%nat with k by lia.
      * destruct (decide (i < k)%nat) as [Hlt|Hge].
        -- case_decide as E; [subst k; assert (p = prev) as -> by (change (bs !! i = Some prev) in Hp; congruence); done|].
           rewrite decide_True by lia. by apply (Hother (S i)).
        -- rewrite decide_False, decide_False by lia. replace (S i - 1)%nat with i by lia. apply Hother; [|lia].
           destruct i as [|i]; [lia|]. by replace (S i - 1)%nat with i in Hi by lia.
  - rewrite Hw by left. rewrite Hheads by left. apply Hok.
  - intros i j b b' Hij Hi Hj. rewrite inserted_get in Hi, Hj by lia.
    destruct (decide (i = k)) as [->|]; [|destruct (decide (j = k)) as [->|]].
    + injection Hi as <-. rewrite !decide_False in Hj by lia. pose proof (ft_after _ _ _ _ _ Hf (j - 1) b' ltac:(lia) Hj). lia.
    + injection Hj as <-. rewrite decide_True in Hi by lia. rewrite Hw by (right; by eapply list_elem_of_lookup_2).
      pose proof (ft_before _ _ _ _ _ Hf i b ltac:(lia) Hi). lia.
    + assert (b ∈ bs) as Hb by (repeat case_decide; eapply list_elem_of_lookup_2; exact Hi). rewrite Hw by (by right).
      repeat case_decide; try lia; (eapply (fo_order _ _ _ _ Hok); [|done|done]); lia.
  - intros b [->|Hb]%elem_inserted.
    + split; [done|done|pose proof (ft_low _ _ _ _ _ Hf); lia|apply Hf].
    + eapply blk_eq; [|by eapply fo_blk]. apply Hheads. by right.
  - done.
  - done.
  - rewrite Hsize, total_inserted. f_equal. rewrite (total_eq (mem st) m'); [lia|]. intros b Hb. apply Hheads. by right.
  - intros a. unfold covers. split.
    + intros (b & [->|Hb]%elem_inserted & Hab); [by right|left]. exists b. split; [done|]. unfold in_block in *. rewrite Hw in Hab by (by right). done.
    + intros [(b & Hb & Hab)|Ha]; [exists b|exists bp]; rewrite elem_inserted; (split; [by auto|]); unfold in_block in *; [|done].
      by rewrite Hw by (by right).
Qed.

(** * caml_fl_merge_block *)

(** The block [bp] with header [hd] is to be inserted at index [k], where the
    insertion pointer is; its words are already counted. *)
Record pending bs k bp hd st : Prop := {
  pd_ok : fl_ok (Wosize_hd hd + 1) bs st;
  pd_prev : (Fl_head :: bs) !! k = Some (caml_fl_merge st);
  pd_hd : 0 <= hd < 2 ^ 64;
  pd_fits : fits (mem st) bs k (bp - 1) (bp + Wosize_hd hd);
  pd_mem : is_Some (mem st !! (bp - 1)) /\ (1 <= Wosize_hd hd -> is_Some (mem st !! bp))
}.

(** What the list covers together with the pending block. *)
Definition with_block m bs (bp hd a : Z) : Prop := covers m bs a \/ bp - 1 <= a < bp + Wosize_hd hd.

(** The operations never unmap a word. *)
Definition keeps m m' : Prop := forall a, is_Some (m !! a) -> is_Some (m' !! a).
Lemma keeps_refl m : keeps m m.
Proof. by intros a. Qed.
Lemma keeps_insert m m' a v : keeps m m' -> keeps m (<[a := v]> m').
Proof. intros H x Hx. apply lookup_insert_is_Some'. right. by apply H. Qed.
Local Hint Resolve keeps_refl keeps_insert : core.

(** The blocks from index [k] on start at [hi] or above. *)
Definition after bs (k : nat) (hi : Z) : Prop := forall j b, (k <= j)%nat -> bs !! j = Some b -> hi <= b - 1.

Lemma header_range wo color : 0 <= Make_header wo 0 color < 2 ^ 64.
Proof. apply (wrap_range 64). lia. Qed.

Lemma merge_fragment_ok bs k bp hd st :
  pending bs k bp hd st -> mem st !! (bp - 1) = Some hd ->
  (last_fragment st = bp - 1 -> is_Some (mem st !! (bp - 2)) /\ fits (mem st) bs k (bp - 2) (bp + Wosize_hd hd)) ->
  exists bp' hd' st', merge_fragment bp hd st = Ok (bp', hd', st') /\ pending bs k bp' hd' st' /\
    caml_fl_merge st' = caml_fl_merge st /\ bp' + Wosize_hd hd' = bp + Wosize_hd hd /\
    (bp' = bp \/ bp' = bp - 1 /\ last_fragment st = bp - 1) /\ (forall a, covers (mem st') bs a <-> covers (mem st) bs a) /\
    last_fragment st' = last_fragment st /\ keeps (mem st) (mem st').
Proof.
  intros Hpd Em Hfrag. pose proof Hpd as [Hok Hprev Hhd Hf [Hm1 Hm2]].
  assert (exists bp' hd' st', Ok (bp, hd, st) = Ok (bp', hd', st') /\ pending bs k bp' hd' st' /\
    caml_fl_merge st' = caml_fl_merge st /\ bp' + Wosize_hd hd' = bp + Wosize_hd hd /\
    (bp' = bp \/ bp' = bp - 1 /\ last_fragment st = bp - 1) /\ (forall a, covers (mem st') bs a <-> covers (mem st) bs a) /\
    last_fragment st' = last_fragment st /\ keeps (mem st) (mem st')) as Hsame.
  { exists bp, hd, st. split_and!; try done; by left. }
  unfold merge_fragment. case_zbool (last_fragment st =? bp - 1); [|done]. destruct (Hfrag E) as [Hm3 Hf'].
  destruct (Hd_ok (mem st) bp Hm1) as (h & Eh & _ & Emh). assert (h = hd) as -> by congruence. rewrite Eh. cbn [bind].
  pose proof (Wosize_range hd Hhd) as Hw. unfold Max_wosize in Hw.
  assert (Whsize_hd hd = Wosize_hd hd + 1) as -> by (apply Whsize_ok; unfold Max_wosize; lia).
  case_zbool (Wosize_hd hd + 1 <=? Max_wosize); [|done]. rewrite E.
  assert (bp - 1 - 1 = bp - 2) as -> by lia. rewrite wr_ok by done. cbn [bind].
  set (hd' := Make_header _ _ _). assert (Wosize_hd hd' = Wosize_hd hd + 1) as Ew by (apply Wosize_make; [lia|done]).
  destruct (write_ok _ bs st k _ _ (bp - 2) hd' Hok Hf') as [Hok' Hw']; [lia|].
  eexists _, hd', _. split; [done|]. split; [|split_and!; [done|lia|by right| |done|cbn [mem]; auto]].
  - split; cbn [mem caml_fl_merge].
    + eapply (fl_ok_fields _ (Wosize_hd hd' + 1) bs _ (fl_last st) (bp - 1)) in Hok'; [exact Hok'|apply Hok|apply Hok|]. cbn [mem set_mem].
      pose proof (fo_size _ _ _ _ Hok') as Hs. cbn [mem set_mem caml_fl_cur_size] in Hs. rewrite Hs.
      rewrite wrap_add_l. f_equal. rewrite Ew. change (Whsize_wosize 0) with 1. lia.
    + done.
    + apply header_range.
    + eapply (fits_eq (mem st)); [intros b Hb; apply Hw'; by right|].
      replace (bp - 1 - 1) with (bp - 2) by lia. replace (bp - 1 + Wosize_hd hd') with (bp + Wosize_hd hd) by lia. done.
    + replace (bp - 1 - 1) with (bp - 2) by lia. rewrite lookup_insert_eq. split; [done|]. intros _. rewrite lookup_insert_ne by lia. done.
  - intros a. apply covers_eq. intros b Hb. apply Hw'. by right.
Qed.

Lemma merge_next_ok bs k bp hd st :
  pending bs k bp hd st ->
  exists bs' hd' st', merge_next bp hd (caml_fl_merge st) (default 0 (bs !! k)) st =
      Ok (hd', default 0 (bs' !! k), bp + Wosize_hd hd', st') /\ pending bs' k bp hd' st' /\
    caml_fl_merge st' = caml_fl_merge st /\ Wosize_hd hd <= Wosize_hd hd' /\ last_fragment st' = last_fragment st /\
    (forall a, with_block (mem st') bs' bp hd' a <-> with_block (mem st) bs bp hd a) /\
    keeps (mem st) (mem st') /\ (forall hi, after bs k hi -> after bs' k hi) /\
    (hd' = hd \/ exists cur, bs !! k = Some cur /\ bp + Wosize_hd hd = cur - 1).
Proof.
  intros Hpd. pose proof Hpd as [Hok Hprev Hhd Hf [Hm1 Hm2]].
  assert (exists bs' hd' st', Ok (hd, default 0 (bs !! k), bp + Wosize_hd hd, st) =
      Ok (hd', default 0 (bs' !! k), bp + Wosize_hd hd', st') /\ pending bs' k bp hd' st' /\
    caml_fl_merge st' = caml_fl_merge st /\ Wosize_hd hd <= Wosize_hd hd' /\ last_fragment st' = last_fragment st /\
    (forall a, with_block (mem st') bs' bp hd' a <-> with_block (mem st) bs bp hd a) /\
    keeps (mem st) (mem st') /\ (forall hi, after bs k hi -> after bs' k hi) /\
    (hd' = hd \/ exists cur, bs !! k = Some cur /\ bp + Wosize_hd hd = cur - 1)) as Hsame.
  { exists bs, hd, st. split_and!; auto. lia. }
  unfold merge_next. case_zbool (bp + Wosize_hd hd =? default 0 (bs !! k) - 1); [|done].
  pose proof (Wosize_range hd Hhd) as Hw. pose proof (ft_low _ _ _ _ _ Hf) as Hlow.
  destruct (bs !! k) as [cur|] eqn:Hc; cbn in E; [|lia]. change (default 0 (Some cur)) with cur in *.
  rewrite (link_next _ _ _ _ _ _ Hok Hc). cbn [bind]. pose proof (list_elem_of_lookup_2 _ _ _ Hc) as Hin.
  destruct (fo_blk _ _ _ _ Hok _ Hin) as [Hch Hcs _ Hca]. destruct (Hd_ok (mem st) cur Hch) as (h & -> & Ew & _). cbn [bind].
  unfold Whsize_hd. rewrite <- Ew, Whsize_ok by lia. unfold Max_wosize in Hw, Hcs. rewrite wrap_small by lia.
  case_zbool (Wosize_hd hd + (wsz (mem st) cur + 1) <=? Max_wosize); [|done].
  pose proof (list_elem_of_lookup_2 _ _ _ Hprev) as Hpin.
  rewrite wr_ok by (rewrite (fo_link _ _ _ _ Hok k _ Hprev); eauto). cbn [bind].
  assert (caml_fl_merge st <> bp - 1) as Hne by (eapply (fits_not_node _ _ _ _ _ _ _ _ _ Hok eq_refl Hf Hpin); lia).
  rewrite wr_ok by (rewrite lookup_insert_ne by done; done). cbn [bind].
  set (hd' := Make_header _ _ _).
  assert (Wosize_hd hd' = Wosize_hd hd + (wsz (mem st) cur + 1)) as Ew' by (apply Wosize_make; [lia|done]).
  set (m' := <[bp - 1 := hd']> _).
  assert (forall p, p ∈ Fl_head :: bs -> p <> bp - 1 /\ p - 1 <> bp - 1) as Hapart.
  { intros p Hp. eapply (fits_not_node _ _ _ _ _ _ _ _ _ Hok eq_refl Hf Hp). lia. }
  assert (forall b, b ∈ Fl_head :: bs -> m' !! (b - 1) = mem st !! (b - 1)) as Hh.
  { intros b Hb. destruct (Hapart b Hb). unfold m'. rewrite !lookup_insert_ne; [done|eapply node_not_header; done|done]. }
  exists (delete k bs), hd'. rewrite delete_get, decide_False by lia. eexists. split; [done|].
  assert (forall b, b ∈ delete k bs -> wsz m' b = wsz (mem st) b) as Hw'.
  { intros b Hb. apply wsz_eq, Hh. right. by eapply elem_of_delete. }
  split_and!; [|done|lia|done| |unfold m'; cbn [mem]; auto| |right; exists cur; split; [done|lia]].
  3: { intros hi Haft j b Hj Hjb. rewrite delete_get, decide_False in Hjb by lia. eapply Haft; [|exact Hjb]. lia. }
  - split; cbn [mem caml_fl_merge].
    + eapply (unlink_ok Fl_head _ bs st k (caml_fl_merge st) cur m'); [done|done|done| | | | |by eapply prev_keep|].
      * unfold m'. rewrite lookup_insert_ne by done. by rewrite lookup_insert_eq.
      * intros p Hp ? ?. destruct (Hapart p Hp). unfold m'. by rewrite !lookup_insert_ne by done.
      * intros b Hb _. by apply Hh.
      * case_zbool (fl_prev st =? cur); [by eapply prev_keep|]. apply node_keep; [apply Hok|]. intros c Hc'. congruence.
      * rewrite (fo_size _ _ _ _ Hok), (total_split _ _ _ _ Hc). f_equal. lia.
    + destruct k as [|k]; [by cbn in *|]. change (delete (S k) bs !! k = Some (caml_fl_merge st)).
      rewrite delete_get, decide_True by lia. exact Hprev.
    + apply header_range.
    + destruct Hf as [Hb Ha Haw ?]. split.
      * intros j b Hj Hjb. rewrite delete_get, decide_True in Hjb by done. rewrite (wsz_eq (mem st) m'); [by eapply Hb|].
        apply Hh. right. by eapply list_elem_of_lookup_2.
      * intros j b Hj Hjb. rewrite delete_get, decide_False in Hjb by lia.
        pose proof (fo_order _ _ _ _ Hok k (S j) cur b ltac:(lia) Hc Hjb). lia.
      * unfold CamlFreelistOk.away in *. lia.
      * lia.
    + unfold m'. split; [by rewrite lookup_insert_eq|]. intros _. rewrite lookup_insert_ne by lia.
      destruct (decide (caml_fl_merge st = bp)) as [->|Hn]; [by rewrite lookup_insert_eq|rewrite lookup_insert_ne by done].
      destruct (decide (1 <= Wosize_hd hd)); [by apply Hm2|]. replace bp with (cur - 1) by lia. done.
  - intros a. unfold with_block, covers. rewrite Ew'. split.
    + intros [(b & Hb & Hab)|Ha].
      * left. exists b. unfold in_block in *. rewrite Hw' in Hab by done. split; [by eapply elem_of_delete|done].
      * destruct (decide (a < bp + Wosize_hd hd)); [right; lia|left]. exists cur. split; [done|]. unfold in_block. lia.
    + intros [(b & Hb & Hab)|Ha]; [|right; lia]. destruct (decide (b = cur)) as [->|Hbc].
      * right. unfold in_block in Hab. lia.
      * left. exists b. assert (b ∈ Fl_head :: delete k bs) as [->|Hbd]%elem_of_cons.
        { apply node_keep; [by right|intros c Hc'; congruence]. }
        { pose proof (fo_nodup _ _ _ _ Hok) as [Hn _]%NoDup_cons. done. }
        split; [done|]. unfold in_block in *. by rewrite Hw'.
Qed.

(** Extending the block at index [j] over the words after it. *)
Lemma grow_ok bs st j prev wo hd' :
  fl_ok (wo + 1) bs st -> bs !! j = Some prev -> fits (mem st) bs (S j) (prev + wsz (mem st) prev) (prev + wsz (mem st) prev + 1 + wo) ->
  0 <= wo -> Wosize_hd hd' = wsz (mem st) prev + (wo + 1) -> Wosize_hd hd' <= Max_wosize ->
  let m' := <[prev - 1 := hd']> (mem st) in
  fl_ok 0 bs (set_mem st m') /\ wsz m' prev = Wosize_hd hd' /\ (forall b, b <> prev -> wsz m' b = wsz (mem st) b) /\
  forall a, covers m' bs a <-> covers (mem st) bs a \/ prev + wsz (mem st) prev <= a < prev + wsz (mem st) prev + 1 + wo.
Proof.
  intros Hok Hj Hf Hwo Ew Hmax m'. pose proof (list_elem_of_lookup_2 _ _ _ Hj) as Hin.
  destruct (fo_blk _ _ _ _ Hok _ Hin) as [Hhd Hsize Hlow Haway].
  assert (wsz m' prev = Wosize_hd hd') as Hwp by (unfold wsz, m'; by rewrite lookup_insert_eq).
  assert (forall b, b <> prev -> wsz m' b = wsz (mem st) b) as Hw.
  { intros b Hb. apply wsz_eq. unfold m'. rewrite lookup_insert_ne by lia. done. }
  split; [|split_and!; [done|done|]]; [split; cbn [mem set_mem fl_prev caml_fl_merge caml_fl_cur_size]|].
  - intros i p Hi. unfold m'. rewrite lookup_insert_ne; [by eapply fo_link|]. intros E. symmetry in E. revert E.
    eapply node_not_header; [done|by eapply list_elem_of_lookup_2|by right].
  - pose proof (fo_head _ _ _ _ Hok) as [? ?].
    assert (Fl_head <> prev) by (intros ->; lia). rewrite Hw by done. split; [|done]. unfold m'. rewrite lookup_insert_ne by lia. done.
  - intros i i' b b' Hij Hi Hj'. pose proof (fo_order _ _ _ _ Hok i i' b b' Hij Hi Hj').
    destruct (decide (b = prev)) as [->|]; [|by rewrite Hw]. assert (i = j) as -> by (eapply (node_index _ _ _ _ (S i) (S j)) in Hok; [|done..]; lia).
    pose proof (ft_after _ _ _ _ _ Hf i' b' ltac:(lia) Hj'). lia.
  - intros b Hb. destruct (decide (b = prev)) as [->|].
    + split; [unfold m'; rewrite lookup_insert_eq; done|lia|done|].
      pose proof (ft_away _ _ _ _ _ Hf) as Ha. unfold CamlFreelistOk.away in *. lia.
    + eapply blk_eq; [|by eapply fo_blk]. unfold m'. rewrite lookup_insert_ne by lia. done.
  - apply Hok.
  - apply Hok.
  - rewrite (fo_size _ _ _ _ Hok), (total_split (mem st) _ _ _ Hj), (total_split m' _ _ _ Hj), Hwp, Ew.
    rewrite (total_eq (mem st) m'); [f_equal; lia|]. intros b Hb. unfold m'. rewrite lookup_insert_ne; [done|].
    apply (delete_elem _ _ _ _ _ _ _ Hok Hj) in Hb as [_ ?]. lia.
  - intros a. unfold covers, in_block. split.
    + intros (b & Hb & Hab). destruct (decide (b = prev)) as [->|].
      * destruct (decide (a < prev + wsz (mem st) prev)); [left; exists prev; split; [done|lia]|right; lia].
      * left. exists b. split; [done|]. by rewrite Hw in Hab.
    + intros [(b & Hb & Hab)|Ha]; [|exists prev; split; [done|lia]]. exists b. split; [done|].
      destruct (decide (b = prev)) as [->|]; [lia|by rewrite Hw].
Qed.
End Merge.
