(* ===== verification/CamlFreelistSpec.v ===== *)
(** The free list of OCaml: the theorems on allocation, on the sweep
    ([caml_fl_merge_block], [caml_make_free_blocks]) and on heap extensions
    ([caml_fl_add_block]). *)
From stdpp Require Import base gmap list.
From Stdlib Require Import ZArith Lia.
From S2P Require Import Prelude CamlMemory CamlFreelist CamlFreelistOk.
Open Scope Z_scope.

Section Spec.
Variable Fl_head : Z.
Implicit Types (st : fl_state) (m : memory) (bs : list Z).
Local Abbreviation fl_ok := (fl_ok Fl_head).
Local Abbreviation fits := (fits Fl_head).
Local Abbreviation pending := (pending Fl_head).
Local Hint Resolve keeps_refl keeps_insert : core.

Definition before m bs (k : nat) (lo : Z) : Prop := forall j b, (j < k)%nat -> bs !! j = Some b -> b + wsz m b <= lo.

(** After merging the block that ends at [adj]: it is covered, unless it is an
    empty one, which is remembered. *)
Record merged bs k bp hd st bs' k' st' : Prop := {
  mg_ok : fl_ok 0 bs' st';
  mg_node : (Fl_head :: bs') !! k' = Some (caml_fl_merge st');
  mg_keeps : keeps (mem st) (mem st');
  mg_after hi : after bs k hi -> after bs' k' hi;
  mg_case :
    last_fragment st' = last_fragment st /\ before (mem st') bs' k' (bp + Wosize_hd hd) /\
      (forall a, covers (mem st') bs' a <-> with_block (mem st) bs bp hd a) \/
    Wosize_hd hd = 0 /\ last_fragment st' = bp /\ before (mem st') bs' k' (bp - 1) /\
      (forall a, covers (mem st') bs' a <-> covers (mem st) bs a)
}.

Lemma merge_extend_ok bs k bp hd st hp cur :
  pending bs k bp hd st -> Hd_bp (mem st) (caml_fl_merge st) = Ok hp -> wsz (mem st) (caml_fl_merge st) = Wosize_hd hp ->
  caml_fl_merge st + Wosize_hd hp = bp - 1 -> u64 (Wosize_hd hp + Whsize_hd hd) < Max_wosize ->
  exists st', merge_prev bp hd (caml_fl_merge st) cur st = Ok st' /\ merged bs k bp hd st bs k st'.
Proof.
  intros [Hok Hprev Hhd Hf [Hm1 Hm2]] Ehp Ewp Eadj Hlt. unfold merge_prev. rewrite Ehp. cbn [bind].
  rewrite Eadj, Z.eqb_refl, (proj2 (Z.ltb_lt _ _) Hlt). cbn [andb].
  pose proof (fo_head _ _ _ _ Hok) as [_ Hh0]. pose proof (ft_away _ _ _ _ _ _ Hf) as Haw. unfold away in Haw.
  pose proof (ft_low _ _ _ _ _ _ Hf) as Hlow. pose proof (Wosize_range hd Hhd) as Hw.
  assert (Whsize_hd hd = Wosize_hd hd + 1) as Ewh by (apply Whsize_ok; lia). rewrite Ewh in *.
  destruct k as [|j]. { injection Hprev as E. rewrite <- E in *. lia. }
  change (bs !! j = Some (caml_fl_merge st)) in Hprev. set (prev := caml_fl_merge st) in *.
  pose proof (list_elem_of_lookup_2 _ _ _ Hprev) as Hin. destruct (fo_blk _ _ _ _ Hok _ Hin) as [Hph Hps _ _].
  unfold Max_wosize in *. rewrite wrap_small in Hlt |- * by lia.
  rewrite wr_ok by done. cbn [bind]. eexists. split; [done|]. set (hd' := Make_header _ _ _).
  assert (Wosize_hd hd' = wsz (mem st) prev + (Wosize_hd hd + 1)) as Ew'.
  { unfold hd'. rewrite Wosize_make; [lia|unfold Max_wosize; lia|done]. }
  assert (prev + wsz (mem st) prev = bp - 1) as Eb by lia.
  destruct (grow_ok Fl_head bs st j prev (Wosize_hd hd) hd') as (Hok' & Hwp & Hwo & Hcov); [done|done| |lia|done|unfold Max_wosize; lia|].
  { rewrite Eb. replace (bp - 1 + 1 + Wosize_hd hd) with (bp + Wosize_hd hd) by lia. done. }
  split; cbn [mem set_mem caml_fl_merge last_fragment]; [done|done|auto|done|]. left. split_and!; [done| |].
  - intros i b Hi Hb. destruct (decide (b = prev)) as [->|]; [lia|]. rewrite Hwo by done.
    pose proof (ft_before _ _ _ _ _ _ Hf i b Hi Hb). lia.
  - intros a. rewrite Hcov, Eb. unfold with_block. replace (bp - 1 + 1 + Wosize_hd hd) with (bp + Wosize_hd hd) by lia. done.
Qed.

Lemma merge_link_ok bs k bp hd st prev' last frag m' :
  pending bs k bp hd st -> Wosize_hd hd <> 0 -> prev' = fl_prev st ->
  m' = <[caml_fl_merge st := bp]> (<[bp := default 0 (bs !! k)]> (<[bp - 1 := Bluehd_hd hd]> (mem st))) ->
  frag = last_fragment st ->
  merged bs k bp hd st (inserted bs k bp) (S k) (mkFl m' prev' last bp (caml_fl_cur_size st) frag).
Proof.
  intros [Hok Hprev Hhd Hf [Hm1 Hm2]] Hw0 -> Em' ->.
  pose proof (Wosize_range hd Hhd) as Hw. pose proof (list_elem_of_lookup_2 _ _ _ Hprev) as Hpin.
  assert (k <= length bs)%nat as Hk by (apply lookup_lt_Some in Hprev; cbn in Hprev; lia).
  assert (forall p a, p ∈ Fl_head :: bs -> bp - 1 <= a < bp + Wosize_hd hd -> p <> a /\ p - 1 <> a) as Hap.
  { intros p a Hp Ha. eapply (fits_not_node Fl_head _ _ _ _ _ _ _ _ _ Hok eq_refl Hf Hp). lia. }
  destruct (Hap _ bp Hpin ltac:(lia)) as [Hpb _]. destruct (Hap _ (bp - 1) Hpin ltac:(lia)) as [Hpb1 _].
  assert (m' !! (bp - 1) = Some (Bluehd_hd hd)) as Ehd.
  { rewrite Em'. rewrite !lookup_insert_ne by lia. by rewrite lookup_insert_eq. }
  assert (wsz m' bp = Wosize_hd hd) as Ew by (unfold wsz; rewrite Ehd; by apply Wosize_blue).
  destruct (insert_ok Fl_head (Wosize_hd hd + 1) bs st k (caml_fl_merge st) bp m' (fl_prev st) bp last (last_fragment st) (caml_fl_cur_size st) 0)
    as [Hok' Hcov]; try done.
  - by rewrite Ew.
  - lia.
  - rewrite Em', lookup_insert_ne by done. by rewrite lookup_insert_eq.
  - rewrite Em'. by rewrite lookup_insert_eq.
  - intros p Hp Hne. destruct (Hap p bp Hp ltac:(lia)), (Hap p (bp - 1) Hp ltac:(lia)). rewrite Em', !lookup_insert_ne by lia. done.
  - intros b Hb. destruct (Hap b bp Hb ltac:(lia)), (Hap b (bp - 1) Hb ltac:(lia)). rewrite Em', !lookup_insert_ne; [done|lia|lia|].
    eapply node_not_header; done.
  - pose proof (fo_prev _ _ _ _ Hok) as [->|?]%elem_of_cons; [left|right]. apply elem_inserted. by right.
  - right. apply elem_inserted. by left.
  - rewrite (fo_size _ _ _ _ Hok), Ew. f_equal. lia.
  - split; cbn [mem caml_fl_merge last_fragment]; [done| | | |left; split_and!; [done| |]].
    + change (inserted bs k bp !! k = Some bp). rewrite inserted_get by lia. by rewrite decide_True by done.
    + rewrite Em'. auto.
    + intros hi Ha j b Hj Hb. rewrite inserted_get in Hb by lia. rewrite !decide_False in Hb by lia.
      by apply (Ha (j - 1)%nat); [lia|].
    + intros j b Hj Hb. rewrite inserted_get in Hb by lia. destruct (decide (j = k)) as [->|].
      * injection Hb as <-. lia.
      * rewrite decide_True in Hb by lia. rewrite (wsz_eq (mem st) m').
        -- pose proof (ft_before _ _ _ _ _ _ Hf j b ltac:(lia) Hb). lia.
        -- assert (b ∈ Fl_head :: bs) as Hb' by (right; by eapply list_elem_of_lookup_2).
           destruct (Hap b bp Hb' ltac:(lia)), (Hap b (bp - 1) Hb' ltac:(lia)). rewrite Em', !lookup_insert_ne; [done|lia|lia|].
           eapply (node_not_header _ _ bs st); done.
    + intros a. rewrite Hcov, Ew. done.
Qed.

Lemma merge_prev_ok bs k bp hd st :
  pending bs k bp hd st ->
  exists bs' k' st', merge_prev bp hd (caml_fl_merge st) (default 0 (bs !! k)) st = Ok st' /\ merged bs k bp hd st bs' k' st'.
Proof.
  intros Hpd. pose proof Hpd as [Hok Hprev Hhd Hf [Hm1 Hm2]].
  pose proof (list_elem_of_lookup_2 _ _ _ Hprev) as Hpin.
  assert (is_Some (mem st !! (caml_fl_merge st - 1))) as Hph.
  { apply elem_of_cons in Hpin as [->|Hpin]; [apply Hok|]. by eapply bk_hd, fo_blk. }
  destruct (Hd_ok _ _ Hph) as (hp & Ehp & Ewp & _).
  destruct ((caml_fl_merge st + Wosize_hd hp =? bp - 1) && (u64 (Wosize_hd hp + Whsize_hd hd) <? Max_wosize)) eqn:Eb.
  - apply andb_true_iff in Eb as [E1%Z.eqb_eq E2%Z.ltb_lt]. exists bs, k. by eapply merge_extend_ok.
  - unfold merge_prev. rewrite Ehp. cbn [bind]. rewrite Eb. case_zbool (Wosize_hd hd =? 0); cbn [negb].
    + eexists bs, k, _. split; [done|]. split; cbn [mem caml_fl_merge last_fragment]; [|done|auto|done|].
      * eapply fl_ok_fields; [done|apply Hok|apply Hok|]. rewrite (fo_size _ _ _ _ Hok), u64_sub. f_equal.
        change (Whsize_wosize 0) with 1. lia.
      * right. split_and!; [done|done| |done]. intros j b Hj Hb. eapply (ft_before _ _ _ _ _ _ Hf); done.
    + pose proof (Wosize_range hd Hhd) as Hw. rewrite wr_ok by done. cbn [bind].
      rewrite wr_ok by (apply lookup_insert_is_Some'; right; apply Hm2; lia). cbn [bind].
      rewrite wr_ok. 2:{ apply lookup_insert_is_Some'; right. apply lookup_insert_is_Some'; right. rewrite (fo_link _ _ _ _ Hok k _ Hprev). eauto. }
      cbn [bind]. eexists _, _, _. split; [done|]. by apply merge_link_ok.
Qed.

(** ** One step of the sweep *)

(** The first word that merging the block with header at [p] may use. *)
Definition frag_lo st (p : Z) : Z := if last_fragment st =? p then p - 1 else p.

(** The sweep is at [p], and may free the words up to [hi]: the insertion
    pointer is the last node before [p], and no free block is in the way. *)
Record ready bs st (p hi : Z) : Prop := {
  ry_frag : last_fragment st <= p;
  ry_mem : last_fragment st = p -> is_Some (mem st !! (p - 1));
  ry_node : exists k, (Fl_head :: bs) !! k = Some (caml_fl_merge st) /\ before (mem st) bs k (frag_lo st p) /\ after bs k hi;
  ry_away : away Fl_head (frag_lo st p) hi;
  ry_low : 1 <= frag_lo st p
}.

(** What freeing the words [p, q) does to the words covered. *)
Record swept bs st bs' st' (p q : Z) : Prop := {
  sw_incl a : covers (mem st) bs a -> covers (mem st') bs' a;
  sw_new a : covers (mem st') bs' a -> covers (mem st) bs a \/ frag_lo st p <= a < q;
  sw_all a : p <= a < q -> covers (mem st') bs' a \/ (a = q - 1 /\ last_fragment st' = q)
}.

Lemma ready_pending bs st bp hd hi size :
  fl_ok 0 bs st -> ready bs st (bp - 1) hi -> mem st !! (bp - 1) = Some hd -> 0 <= hd < 2 ^ 64 ->
  bp + Wosize_hd hd <= hi -> (1 <= Wosize_hd hd -> is_Some (mem st !! bp)) -> size = u64 (caml_fl_cur_size st + Whsize_hd hd) ->
  let st1 := mkFl (mem st) (fl_prev st) (fl_last st) (caml_fl_merge st) size (last_fragment st) in
  exists k, pending bs k bp hd st1 /\ after bs k hi /\ Next (mem st1) (caml_fl_merge st1) = Ok (default 0 (bs !! k)) /\
    (last_fragment st1 = bp - 1 -> is_Some (mem st1 !! (bp - 2)) /\ fits (mem st1) bs k (bp - 2) (bp + Wosize_hd hd)).
Proof.
  intros Hok [Hfr Hm (k & Hk & Hb & Ha) Haw Hlow] Ehd Hhd Hhi Hbp -> st1. exists k.
  pose proof (Wosize_range hd Hhd) as Hw.
  assert (forall lo, frag_lo st (bp - 1) <= lo <= bp - 1 -> fits (mem st) bs k lo (bp + Wosize_hd hd)) as Hfit.
  { intros lo Hlo. unfold away in Haw. split.
    - intros j b Hj Hjb. specialize (Hb j b Hj Hjb). lia.
    - intros j b Hj Hjb. specialize (Ha j b Hj Hjb). lia.
    - unfold away. lia.
    - lia. }
  assert (frag_lo st (bp - 1) <= bp - 1) as Hle by (unfold frag_lo; case_zbool (last_fragment st =? bp - 1); lia).
  split_and!; [|done| |].
  - unfold st1. split; cbn [mem caml_fl_merge]; [|done|done|apply Hfit; lia|rewrite Ehd; split; [done|exact Hbp]].
    eapply fl_ok_fields; [done|apply Hok|apply Hok|]. rewrite (fo_size _ _ _ _ Hok), wrap_add_l. f_equal.
    unfold Whsize_hd. rewrite Whsize_ok by done. lia.
  - unfold st1, Next, rd. cbn [mem caml_fl_merge]. by rewrite (fo_link _ _ _ _ Hok k _ Hk).
  - unfold st1. cbn [mem last_fragment]. intros E. replace (bp - 2) with (bp - 1 - 1) by lia. split; [by apply Hm|].
    apply Hfit. unfold frag_lo. rewrite E, Z.eqb_refl. lia.
Qed.

Lemma merge_block_ok bs st bp hd hi :
  fl_ok 0 bs st -> ready bs st (bp - 1) hi -> mem st !! (bp - 1) = Some hd -> 0 <= hd < 2 ^ 64 ->
  bp + Wosize_hd hd <= hi -> (1 <= Wosize_hd hd -> is_Some (mem st !! bp)) ->
  exists adj bs' st', caml_fl_merge_block bp st = Ok (adj, st') /\ bp + Wosize_hd hd <= adj /\ fl_ok 0 bs' st' /\
    keeps (mem st) (mem st') /\ ready bs' st' adj (Z.max hi adj) /\ swept bs st bs' st' (bp - 1) (bp + Wosize_hd hd) /\
    (adj = bp + Wosize_hd hd \/ hi <= bp + Wosize_hd hd) /\ (last_fragment st' = bp + Wosize_hd hd -> Wosize_hd hd = 0).
Proof.
  intros Hok Hr Ehd Hhd Hhi Hbp. unfold caml_fl_merge_block. unfold Hd_bp, rd at 1. rewrite Ehd. cbn [lift bind].
  set (size := u64 _).
  destruct (ready_pending bs st bp hd hi size Hok Hr Ehd Hhd Hhi Hbp eq_refl) as (k & Hpd & Haft & Enext & Hfrag).
  set (st1 := mkFl _ _ _ _ _ _) in *. assert (mem st1 = mem st /\ last_fragment st1 = last_fragment st) as [Em1 Efr1] by done.
  clearbody st1. rewrite <- Em1 in Ehd.
  rewrite Enext. cbn [bind].
  destruct (merge_fragment_ok Fl_head bs k bp hd st1 Hpd Ehd Hfrag) as (bp2 & hd2 & st2 & -> & Hpd2 & Em2 & Eend & Hbp2 & Hcov2 & Efr2 & Hk2).
  cbn [bind]. rewrite <- Em2.
  destruct (merge_next_ok Fl_head bs k bp2 hd2 st2 Hpd2) as (bs3 & hd3 & st3 & -> & Hpd3 & Em3 & Hw3 & Efr3 & Hcov3 & Hk3 & Ha3 & Hd3).
  cbn [bind]. rewrite <- Em3.
  destruct (merge_prev_ok bs3 k bp2 hd3 st3 Hpd3) as (bs4 & k4 & st4 & -> & [Hok4 Hn4 Hk4 Ha4 Hcase]). cbn [bind].
  exists (bp2 + Wosize_hd hd3), bs4, st4.
  assert (last_fragment st3 = last_fragment st) as Efr by (by rewrite Efr3, Efr2).
  rewrite Em1 in *.
  pose proof (pd_fits _ _ _ _ _ _ Hpd3) as Hf3. pose proof (ft_low _ _ _ _ _ _ Hf3) as Hlow3.
  assert (0 <= Wosize_hd hd2) as Hw2 by (apply Wosize_range, Hpd2).
  assert (0 <= Wosize_hd hd) as Hw by (by apply Wosize_range).
  assert (frag_lo st (bp - 1) <= bp2 - 1) as Hlo2.
  { unfold frag_lo. case_zbool (last_fragment st =? bp - 1); destruct Hbp2 as [->|[-> ?]]; lia. }
  assert (forall a, with_block (mem st3) bs3 bp2 hd3 a <-> covers (mem st) bs a \/ bp2 - 1 <= a < bp + Wosize_hd hd) as Hwb.
  { intros a. rewrite Hcov3. unfold with_block. rewrite Hcov2, <- Eend. done. }
  assert (forall a, covers (mem st3) bs3 a -> covers (mem st) bs a \/ bp2 - 1 <= a < bp + Wosize_hd hd) as Hwb'.
  { intros a Ha. apply Hwb. by left. }
  pose proof (ry_frag _ _ _ _ Hr) as Hfr0. pose proof (ry_away _ _ _ _ Hr) as Haw0. pose proof (ft_away _ _ _ _ _ _ Hf3) as Haw3.
  unfold away in Haw0, Haw3.
  assert (after bs4 k4 (Z.max hi (bp2 + Wosize_hd hd3))) as Haft4.
  { intros j b Hj Hb. apply (Ha4 hi) in Hb as ?; [|by apply Ha3|done]. apply (Ha4 (bp2 + Wosize_hd hd3)) in Hb; [lia|exact (ft_after _ _ _ _ _ _ Hf3)|done]. }
  split_and!; [done|lia|done|intros a Ha; by apply Hk4, Hk3, Hk2| | | |].
  3: { destruct Hd3 as [->|(cur & Hc & Ec)]; [left; lia|right]. apply (Haft k cur) in Hc; lia. }
  3: { destruct Hcase as [(-> & _)|(Ez & _)]; [rewrite Efr; lia|]. destruct Hbp2 as [->|[-> ?]]; lia. }
  - destruct Hcase as [(Efr4 & Hb4 & _)|(Ez & Efr4 & Hb4 & _)].
    + assert (frag_lo st4 (bp2 + Wosize_hd hd3) = bp2 + Wosize_hd hd3) as Efl.
      { unfold frag_lo. rewrite Efr4, Efr. case_zbool (last_fragment st =? bp2 + Wosize_hd hd3); lia. }
      split; rewrite ?Efl; [lia|lia|exists k4; done|unfold away; lia|lia].
    + rewrite Ez, Z.add_0_r in *.
      assert (frag_lo st4 bp2 = bp2 - 1) as Efl by (unfold frag_lo; rewrite Efr4, Z.eqb_refl; lia).
      split; rewrite ?Efl; [lia| |exists k4; done|unfold away; lia|lia].
      intros _. apply Hk4. apply (pd_mem _ _ _ _ _ _ Hpd3).
  - destruct Hcase as [(_ & _ & Hc)|(Ez & Efr4 & _ & Hc)].
    + split; intros a; rewrite ?Hc, ?Hwb; [tauto|intros [?|?]; [by left|right; lia]|].
      intros Ha. left. right. destruct Hbp2 as [->|[-> ?]]; lia.
    + assert (bp2 = bp /\ Wosize_hd hd = 0) as [-> ->] by (destruct Hbp2 as [->|[-> ?]]; lia). rewrite Z.add_0_r in *.
      split; intros a; rewrite ?Hc; [|intros [?|?]%Hwb'; [by left|right; lia]|].
      * intros Ha. destruct (proj2 (Hwb a) (or_introl Ha)) as [?|Hin]; [done|]. exfalso.
        rewrite Ez in Hin. assert (a = bp - 1) as -> by lia.
        destruct Ha as (b & Hb & Hab). pose proof (pd_fits _ _ _ _ _ _ Hpd) as Hf. rewrite Em1 in Hf.
        eapply (fits_outside Fl_head _ _ _ _ _ b (bp - 1) Hf Hb Hab). lia.
      * intros Ha. right. split; [lia|]. by rewrite Efr4.
Qed.

(** ** A range of words *)

Lemma write_ready bs st p hi a v :
  fl_ok 0 bs st -> ready bs st p hi -> p <= a < hi ->
  let st' := set_mem st (<[a := v]> (mem st)) in
  fl_ok 0 bs st' /\ ready bs st' p hi /\ forall x, covers (mem st') bs x <-> covers (mem st) bs x.
Proof.
  intros Hok [Hfr Hm (k & Hk & Hb & Ha) Haw Hlow] Hin st'.
  assert (frag_lo st p <= p) as Hle by (unfold frag_lo; case_zbool (last_fragment st =? p); lia).
  assert (fits (mem st) bs k (frag_lo st p) hi) as Hf by (split; [exact Hb|exact Ha|done|lia]).
  destruct (write_ok Fl_head 0 bs st k _ _ a v Hok Hf) as [Hok' Hw]; [lia|].
  split_and!; [done| |].
  - split; [done| |exists k; split_and!; [done| |done]|done|done].
    + intros E. apply lookup_insert_is_Some'. right. by apply Hm.
    + intros j b Hj Hjb. cbn [st' mem set_mem]. rewrite Hw by (right; by eapply list_elem_of_lookup_2). by eapply Hb.
  - intros x. apply covers_eq. intros b Hb'. apply Hw. by right.
Qed.

Lemma swept_trans bs st bs1 st1 bs2 st2 p q r :
  swept bs st bs1 st1 p q -> swept bs1 st1 bs2 st2 q r -> last_fragment st1 <> q -> p <= q < r ->
  swept bs st bs2 st2 p r.
Proof.
  intros [I1 N1 A1] [I2 N2 A2] Hne Hpq.
  assert (frag_lo st p <= p) by (unfold frag_lo; case_zbool (last_fragment st =? p); lia).
  assert (frag_lo st1 q = q) as Eq by (unfold frag_lo; case_zbool (last_fragment st1 =? q); done).
  rewrite Eq in N2. split; intros a.
  - auto.
  - intros [[?|?]%N1|?]%N2; [by left|right; lia|right; lia].
  - intros Ha. destruct (decide (a < q)); [|apply A2; lia]. destruct (A1 a ltac:(lia)) as [?|[-> ?]]; [left; auto|done].
Qed.

Lemma make_free_ok fuel p size bs st :
  fl_ok 0 bs st -> ready bs st p (p + size) -> (forall a, p <= a < p + size -> is_Some (mem st !! a)) ->
  0 <= size <= Z.of_nat fuel * 2 ^ 54 ->
  exists st' bs', caml_make_free_blocks (S fuel) p size true st = Ok st' /\ fl_ok 0 bs' st' /\
    keeps (mem st) (mem st') /\ swept bs st bs' st' p (p + size).
Proof.
  unfold caml_make_free_blocks. revert p size bs st. induction fuel as [|fuel IH]; intros p size bs st Hok Hr Hm Hs.
  - assert (size = 0) as -> by lia. exists st, bs. split_and!; [done|done|apply keeps_refl|].
    split; [done|by left|intros; lia].
  - set (f := S fuel) in *. cbn [loop]. unfold make_step at 1. case_zbool (0 <? size).
    2:{ cbn [bind]. exists st, bs. split_and!; [done|done|apply keeps_refl|]. split; [done|by left|intros; lia]. }
    change (Whsize_wosize Max_wosize) with (2 ^ 54). set (sz := if _ <? _ then _ else _).
    assert (0 < sz <= size /\ sz <= 2 ^ 54 /\ size - sz <= Z.of_nat fuel * 2 ^ 54 /\ (sz < size -> sz = 2 ^ 54)) as (Hsz & Hmax & Hrest & Hfull).
    { unfold sz. unfold f in Hs. case_zbool (2 ^ 54 <? size); lia. }
    clearbody sz. rewrite wr_ok by (apply Hm; lia). cbn [bind]. set (hd := Make_header _ _ _).
    assert (Wosize_hd hd = sz - 1) as Ew.
    { unfold hd, Wosize_whsize. rewrite wrap_small by lia. apply Wosize_make; [unfold Max_wosize; lia|done]. }
    destruct (write_ready bs st p (p + size) p hd Hok Hr) as (Hok1 & Hr1 & Hcov1); [lia|]. set (st1 := set_mem st _) in *.
    destruct (merge_block_ok bs st1 (p + 1) hd (p + size)) as (adj & bs2 & st2 & E2 & Hadj & Hok2 & Hk2 & Hr2 & Hsw & Hend & Hfrag); [done| | | | | |].
    { by replace (p + 1 - 1) with p by lia. }
    { unfold st1. cbn [mem set_mem]. replace (p + 1 - 1) with p by lia. apply lookup_insert_eq. }
    { apply header_range. }
    { lia. }
    { intros Hw1. unfold st1. cbn [mem set_mem]. apply lookup_insert_is_Some'. right. apply Hm. lia. }
    rewrite E2. cbn [bind]. replace (p + 1 - 1) with p in Hsw by lia. replace (p + 1 + Wosize_hd hd) with (p + sz) in Hsw, Hadj by lia.
    assert (swept bs st bs2 st2 p (p + sz)) as Hsw'.
    { destruct Hsw as [I N A]. split; intros a; rewrite <- ?Hcov1; [apply I|apply N|apply A]. }
    replace (p + 1 + Wosize_hd hd) with (p + sz) in Hend, Hfrag by lia.
    assert (keeps (mem st) (mem st2)) as Hk2' by (intros a Ha; apply Hk2; by apply (keeps_insert _ _ _ _ (keeps_refl _))).
    destruct (decide (sz = size)) as [->|].
    + replace (size - size) with 0 by lia. unfold f. cbn [loop make_step Z.ltb Z.compare bind]. by exists st2, bs2.
    + destruct Hend as [->|?]; [|lia]. rewrite Z.max_l in Hr2 by lia.
      destruct (IH (p + sz) (size - sz) bs2 st2) as (st3 & bs3 & E3 & Hok3 & Hk3 & Hsw3); [done| | |lia|].
      { by replace (p + sz + (size - sz)) with (p + size) by lia. }
      { intros a Ha. apply Hk2', Hm. lia. }
      replace (p + sz + (size - sz)) with (p + size) in Hsw3 by lia.
      exists st3, bs3. split_and!; [done|done|intros a Ha; by apply Hk3, Hk2'|].
      eapply swept_trans; [done|done| |lia]. intros ?%Hfrag. rewrite Hfull in Ew by lia. lia.
Qed.

(** ** Heap extensions *)

Lemma insert_loop_ok e bs st k lo hi bp fuel j p :
  fl_ok e bs st -> fits (mem st) bs k lo hi -> lo < bp < hi -> (j <= k <= length bs)%nat -> (Fl_head :: bs) !! j = Some p -> (k - j < fuel)%nat ->
  exists prev, loop fuel (insert_step (mem st) bp) (p, default 0 (bs !! j)) = Ok (prev, default 0 (bs !! k)) /\
    (Fl_head :: bs) !! k = Some prev.
Proof.
  intros Hok Hf Hbp. revert j p. induction fuel as [|fuel IH]; intros j p Hj Hp Hfuel; [lia|]. cbn [loop]. unfold insert_step at 1.
  rewrite (block_nonzero Fl_head e bs st j Hok) by lia. destruct (decide (j = k)) as [->|].
  - case_bool_decide as E; cbn [negb andb bind]; [by exists p|].
    destruct (lookup_lt_is_Some_2 bs k) as [b Hb]; [lia|]. rewrite Hb. cbn [default from_option id].
    pose proof (ft_after _ _ _ _ _ _ Hf k b ltac:(lia) Hb). rewrite (proj2 (Z.ltb_ge _ _)) by lia. by exists p.
  - rewrite bool_decide_false by lia. destruct (lookup_lt_is_Some_2 bs j) as [b Hb]; [lia|]. rewrite Hb. cbn [default from_option id negb].
    pose proof (ft_before _ _ _ _ _ _ Hf j b ltac:(lia) Hb). pose proof (bk_size _ _ _ (fo_blk _ _ _ _ Hok b ltac:(by eapply list_elem_of_lookup_2))).
    rewrite (proj2 (Z.ltb_lt _ _)) by lia. cbn [andb]. rewrite (link_next _ _ _ _ _ _ Hok Hb). cbn [bind].
    apply (IH (S j) b); [lia|done|lia].
Qed.

(** The two writes that link [bp] in after the node at index [k]. *)
Lemma link_ok bs st k prev bp last merge size frag :
  fl_ok 0 bs st -> (Fl_head :: bs) !! k = Some prev -> fits (mem st) bs k (bp - 1) (bp + wsz (mem st) bp) ->
  is_Some (mem st !! (bp - 1)) -> 1 <= wsz (mem st) bp <= Max_wosize -> merge = caml_fl_merge st \/ merge = bp ->
  size = u64 (caml_fl_cur_size st + (wsz (mem st) bp + 1)) ->
  forall m', m' !! prev = Some bp -> m' !! bp = Some (default 0 (bs !! k)) -> (forall a, a <> prev -> a <> bp -> m' !! a = mem st !! a) ->
  fl_ok 0 (inserted bs k bp) (mkFl m' (fl_prev st) last merge size frag) /\
  forall a, covers m' (inserted bs k bp) a <-> covers (mem st) bs a \/ bp - 1 <= a < bp + wsz (mem st) bp.
Proof.
  intros Hok Hp Hf Hhd Hsz Hmerge Hsize m' Hm1 Hm2 Hm3. pose proof (list_elem_of_lookup_2 _ _ _ Hp) as Hpin.
  assert (forall p a, p ∈ Fl_head :: bs -> bp - 1 <= a <= bp -> p <> a /\ p - 1 <> a) as Hap.
  { intros p a Hpi Ha. eapply (fits_not_node Fl_head _ _ _ _ _ _ _ _ _ Hok eq_refl Hf Hpi). lia. }
  pose proof (Hap prev (bp - 1) Hpin ltac:(lia)). pose proof (Hap prev bp Hpin ltac:(lia)).
  assert (m' !! (bp - 1) = mem st !! (bp - 1)) as Eh by (apply Hm3; lia).
  pose proof (wsz_eq (mem st) m' bp Eh) as Ew. rewrite <- Ew in *.
  assert (forall x, x = bp \/ x ∈ Fl_head :: bs -> x ∈ Fl_head :: inserted bs k bp) as Hx.
  { intros x [->|[->|?]%elem_of_cons]; [right|left|right]; rewrite ?elem_inserted; auto. }
  eapply insert_ok; try done.
  - by rewrite Eh.
  - intros p Hpi Hne. apply Hm3; [done|]. by apply (Hap p bp Hpi); lia.
  - intros b Hb. destruct (Hap b bp Hb ltac:(lia)). apply Hm3; [|done]. intros E. symmetry in E. revert E. by apply (node_not_header _ _ _ _ _ _ Hok).
  - apply Hx. right. apply Hok.
  - apply Hx. destruct Hmerge as [->| ->]; [right; apply Hok|by left].
  - rewrite Hsize, (fo_size _ _ _ _ Hok), wrap_add_l. f_equal. lia.
Qed.

Lemma add_block_ok fuel sweep_hp bs st k bp :
  fl_ok 0 bs st -> (Fl_head :: bs) !! length bs = Some (fl_last st) -> (k <= length bs)%nat ->
  fits (mem st) bs k (bp - 1) (bp + wsz (mem st) bp) -> 1 <= wsz (mem st) bp <= Max_wosize ->
  is_Some (mem st !! (bp - 1)) -> is_Some (mem st !! bp) -> (length bs < fuel)%nat ->
  exists st', caml_fl_add_block Fl_head fuel sweep_hp bp st = Ok st' /\ fl_ok 0 (inserted bs k bp) st' /\
    forall a, covers (mem st') (inserted bs k bp) a <-> covers (mem st) bs a \/ bp - 1 <= a < bp + wsz (mem st) bp.
Proof.
  intros Hok Hlast Hk Hf Hsz Hhd Hbp Hfuel. unfold caml_fl_add_block.
  destruct (Hd_ok _ _ Hhd) as (h & -> & Ew & _). cbn [bind]. unfold Whsize_hd. rewrite <- Ew, Whsize_ok by lia.
  assert (forall p, p ∈ Fl_head :: bs -> p <> bp /\ p - 1 <> bp) as Hap.
  { intros p Hpi. eapply (fits_not_node Fl_head _ _ _ _ _ _ _ _ _ Hok eq_refl Hf Hpi). lia. }
  case_zbool (fl_last st <? bp).
  - assert (k = length bs) as ->.
    { destruct (decide (k = length bs)) as [|]; [done|]. destruct bs as [|b0 bs0]; [cbn [length] in *; lia|].
      pose proof (ft_after _ _ _ _ _ _ Hf (length bs0) (fl_last st) ltac:(cbn [length] in *; lia) Hlast). lia. }
    rewrite wr_ok by (rewrite (fo_link _ _ _ _ Hok _ _ Hlast); done). cbn [bind].
    rewrite wr_ok by (apply lookup_insert_is_Some'; by right). cbn [bind]. eexists. split; [done|].
    destruct (Hap _ (list_elem_of_lookup_2 _ _ _ Hlast)).
    eapply (link_ok bs st); [done|done|done|done|done|by left|done| | |]; cbn [mem].
    + rewrite lookup_insert_ne by done. by rewrite lookup_insert_eq.
    + by rewrite lookup_insert_eq, lookup_ge_None_2 by lia.
    + intros a ? ?. by rewrite !lookup_insert_ne by done.
  - unfold Next at 1, rd. rewrite (fo_link _ _ _ _ Hok O Fl_head eq_refl). cbn [lift bind].
    destruct (insert_loop_ok 0 bs st k _ _ bp fuel O Fl_head Hok Hf) as (prev & -> & Hp); [lia|lia|done|lia|]. cbn [bind].
    rewrite wr_ok by done. cbn [bind].
    rewrite wr_ok by (apply lookup_insert_is_Some'; right; rewrite (fo_link _ _ _ _ Hok _ _ Hp); done). cbn [bind]. eexists. split; [done|].
    destruct (Hap _ (list_elem_of_lookup_2 _ _ _ Hp)).
    eapply (link_ok bs st); [done|done|done|done|done| |done| | |]; cbn [mem].
    + case_match; [by right|by left].
    + by rewrite lookup_insert_eq.
    + rewrite lookup_insert_ne by done. by rewrite lookup_insert_eq.
    + intros a ? ?. by rewrite !lookup_insert_ne by done.
Qed.
End Spec.

(** * The theorems *)

(** C20: [caml_fl_allocate] on a well-formed free list always answers.  NULL
    means that no free block has [wo] fields, and changes nothing in memory;
    [fl_last] is then the end of the list.  Otherwise the answer is a range of
    [wo + 1] free words that leaves the list: the list stays well formed, its
    blocks cover the words they did less that range, except perhaps for one
    word before it, which becomes an empty white block. *)
Theorem allocate_sound Fl_head bs st wo fuel :
  fl_ok Fl_head 0 bs st -> 1 <= wo -> (length bs < fuel)%nat ->
  exists r st', caml_fl_allocate Fl_head fuel wo st = Ok (r, st') /\
    if r =? 0 then fl_ok Fl_head 0 bs st' /\ mem st' = mem st /\ (Fl_head :: bs) !! length bs = Some (fl_last st') /\
                   forall b, b ∈ bs -> wsz (mem st) b < wo
    else exists bs', fl_ok Fl_head 0 bs' st' /\ allocated (mem st) bs (mem st') bs' r (wo + 1).
Proof. apply allocate_total. Qed.

(** C21: [caml_fl_merge_block], at the place the sweep has reached, frees the
    block [bp]: every word of the block is covered by the list afterwards, or
    the block is a single word which is remembered as the fragment; what was
    covered stays covered, nothing beyond the block and the previous fragment
    is added, the size counter is right, and the sweep can go on from the
    address returned. *)
Theorem merge_block_frees Fl_head bs st bp hd hi :
  fl_ok Fl_head 0 bs st -> ready Fl_head bs st (bp - 1) hi -> mem st !! (bp - 1) = Some hd -> 0 <= hd < 2 ^ 64 ->
  bp + Wosize_hd hd <= hi -> (1 <= Wosize_hd hd -> is_Some (mem st !! bp)) ->
  exists adj bs' st', caml_fl_merge_block bp st = Ok (adj, st') /\ bp + Wosize_hd hd <= adj /\ fl_ok Fl_head 0 bs' st' /\
    keeps (mem st) (mem st') /\ ready Fl_head bs' st' adj (Z.max hi adj) /\ swept bs st bs' st' (bp - 1) (bp + Wosize_hd hd).
Proof.
  intros Hok Hr Ehd Hhd Hhi Hbp.
  destruct (merge_block_ok Fl_head bs st bp hd hi Hok Hr Ehd Hhd Hhi Hbp) as (adj & bs' & st' & ? & ? & ? & ? & ? & ? & _).
  by exists adj, bs', st'.
Qed.

(** [caml_make_free_blocks] with merging gives every word of the range to
    the free list (a last single word may be left as the fragment), for a
    range of any size, in as many rounds as it has pieces of the largest size. *)
Theorem make_free_blocks_frees Fl_head fuel p size bs st :
  fl_ok Fl_head 0 bs st -> ready Fl_head bs st p (p + size) -> (forall a, p <= a < p + size -> is_Some (mem st !! a)) ->
  0 <= size <= Z.of_nat fuel * 2 ^ 54 ->
  exists st' bs', caml_make_free_blocks (S fuel) p size true st = Ok st' /\ fl_ok Fl_head 0 bs' st' /\
    keeps (mem st) (mem st') /\ swept bs st bs' st' p (p + size).
Proof. apply make_free_ok. Qed.

(** [caml_fl_add_block], after a failed allocation, links the new block in
    at its place in address order: the list stays well formed and covers
    exactly the words of the block in addition. *)
Theorem add_block_inserts Fl_head fuel sweep_hp bs st k bp :
  fl_ok Fl_head 0 bs st -> (Fl_head :: bs) !! length bs = Some (fl_last st) -> (k <= length bs)%nat ->
  fits Fl_head (mem st) bs k (bp - 1) (bp + wsz (mem st) bp) -> 1 <= wsz (mem st) bp <= Max_wosize ->
  is_Some (mem st !! (bp - 1)) -> is_Some (mem st !! bp) -> (length bs < fuel)%nat ->
  exists st', caml_fl_add_block Fl_head fuel sweep_hp bp st = Ok st' /\ fl_ok Fl_head 0 (inserted bs k bp) st' /\
    forall a, covers (mem st') (inserted bs k bp) a <-> covers (mem st) bs a \/ bp - 1 <= a < bp + wsz (mem st) bp.
Proof. apply add_block_ok. Qed.

(** ** A heap with two free blocks, [11, 15) and [21, 24) *)
Definition demo_mem : memory := list_to_map
  [(1, 0); (2, 11); (10, Make_header 4 0 Caml_blue); (11, 21); (12, 0); (13, 0); (14, 0);
   (15, Make_header 4 0 Caml_white); (16, 0); (17, 0); (18, 0); (19, 0);
   (20, Make_header 3 0 Caml_blue); (21, 0); (22, 0); (23, 0); (30, Make_header 2 0 Caml_white); (31, 0); (32, 0)].
Definition demo : fl_state := mkFl demo_mem 2 21 11 9 0.

Lemma demo_ok : fl_ok 2 0 [11; 21] demo.
Proof.
  split.
  - intros [|[|[|k]]] p H; [..|done]; injection H as <-; vm_compute; reflexivity.
  - split; [eexists|]; vm_compute; reflexivity.
  - intros [|[|i]] [|[|j]] b b' Hij Hi Hj; try done; try lia. injection Hi as <-. injection Hj as <-. vm_compute. reflexivity.
  - intros b Hb. apply elem_of_cons in Hb as [->|Hb]; [|apply list_elem_of_singleton in Hb as ->].
    + split; [eexists; vm_compute; reflexivity|split; vm_compute; discriminate|lia|right; vm_compute; discriminate].
    + split; [eexists; vm_compute; reflexivity|split; vm_compute; discriminate|lia|right; vm_compute; discriminate].
  - left.
  - right; left.
  - vm_compute. reflexivity.
Qed.

Lemma demo_ready : ready 2 [11; 21] demo 15 20.
Proof.
  split; [cbn; lia|done|exists 1%nat; split_and!; [done| |]|right; vm_compute; discriminate|vm_compute; discriminate].
  - intros [|j] b Hj Hb; [|lia]. injection Hb as <-. vm_compute. discriminate.
  - intros [|[|j]] b Hj Hb; [lia| |done]. injection Hb as <-. lia.
Qed.

Example allocate_sound_witness : exists r st', caml_fl_allocate 2 3 2 demo = Ok (r, st') /\
    if r =? 0 then fl_ok 2 0 [11; 21] st' /\ mem st' = mem demo /\ [2; 11; 21] !! 2%nat = Some (fl_last st') /\
                   forall b, b ∈ [11; 21] -> wsz (mem demo) b < 2
    else exists bs', fl_ok 2 0 bs' st' /\ allocated (mem demo) [11; 21] (mem st') bs' r 3.
Proof. apply (allocate_sound 2 [11; 21] demo 2 3); [apply demo_ok|lia|cbn; lia]. Defined.

Example merge_block_frees_witness :
  exists adj bs' st', caml_fl_merge_block 16 demo = Ok (adj, st') /\ 16 + Wosize_hd 4096 <= adj /\ fl_ok 2 0 bs' st' /\
    keeps (mem demo) (mem st') /\ ready 2 bs' st' adj (Z.max 20 adj) /\ swept [11; 21] demo bs' st' (16 - 1) (16 + Wosize_hd 4096).
Proof.
  apply (merge_block_frees 2 [11; 21] demo 16 4096 20);
    [apply demo_ok|apply demo_ready|vm_compute; reflexivity|lia|vm_compute; discriminate|intros _; eexists; vm_compute; reflexivity].
Defined.

Example make_free_blocks_frees_witness :
  exists st' bs', caml_make_free_blocks 2 15 5 true demo = Ok st' /\ fl_ok 2 0 bs' st' /\
    keeps (mem demo) (mem st') /\ swept [11; 21] demo bs' st' 15 (15 + 5).
Proof.
  apply (make_free_blocks_frees 2 1 15 5 [11; 21] demo); [apply demo_ok|apply demo_ready| |lia].
  intros a Ha. assert (a = 15 \/ a = 16 \/ a = 17 \/ a = 18 \/ a = 19) as [H|[H|[H|[H|H]]]] by lia; subst a; eexists; vm_compute; reflexivity.
Defined.

Example add_block_inserts_witness : exists st', caml_fl_add_block 2 3 40 31 demo = Ok st' /\ fl_ok 2 0 (inserted [11; 21] 2 31) st' /\
    forall a, covers (mem st') (inserted [11; 21] 2 31) a <-> covers (mem demo) [11; 21] a \/ 31 - 1 <= a < 31 + wsz (mem demo) 31.
Proof.
  apply (add_block_inserts 2 3 40 [11; 21] demo 2 31);
    [apply demo_ok|done|cbn; lia| |vm_compute; split; discriminate|eexists; vm_compute; reflexivity..|cbn; lia].
  split.
  - intros [|[|j]] b Hj Hb; [..|lia]; injection Hb as <-; vm_compute; discriminate.
  - intros [|[|j]] b Hj Hb; [lia..|done].
  - right. vm_compute. discriminate.
  - split; [lia|vm_compute; reflexivity].
Defined.

(** The sweep is past the new block, and [caml_fl_merge] was the last node:
    it is left behind the block that is now the last one before the sweep,
    contrary to what the second branch ensures. *)
Example add_block_keeps_merge_behind :
  match caml_fl_add_block 2 3 40 31 (mkFl demo_mem 2 21 21 9 0) with
  | Ok st => caml_fl_merge st = 21 /\ mem st !! 21 = Some 31
  | _ => False
  end.
Proof. vm_compute. split; reflexivity. Qed.
