(* ===== verification/CamlRoots.v ===== *)
(** The global roots of the OCaml runtime (ocaml/byterun/globroots.c): the
    addresses that C code registered, in a skip list ordered by address.

    A node is named by its address; NULL is 0.  The first node is the variable
    caml_global_roots itself, whose vector of links has NUM_LEVELS cells; a
    node of level [n] has [n + 1] cells.  A read outside a node is an error.
    caml_stat_alloc gives the address of a new block. *)
From stdpp Require Import base gmap list.
From Stdlib Require Import ZArith Lia.
From S2P Require Import Prelude.
Open Scope Z_scope.

Record global_root := mkRoot { gr_root : Z; gr_forward : list Z }.
Definition NUM_LEVELS : Z := 17.
(** The address of the variable, which no new block has. *)
Definition caml_global_roots : Z := 8.
(** The nodes, the field [level] of the first one, and the random seed. *)
Record root_state := mkRoots { gr_nodes : gmap Z global_root; gr_level : Z; random_seed : Z }.
Definition no_roots : root_state := mkRoots {[ caml_global_roots := mkRoot 0 (replicate (Z.to_nat NUM_LEVELS) 0) ]} 0 0.

Definition bad_node : string := "access outside a node".
Definition fwd (m : gmap Z global_root) (e : Z) (i : nat) : option Z := m !! e ≫= fun n => gr_forward n !! i.
Definition forward (m : gmap Z global_root) (e i : Z) : res Z := lift (fwd m e (Z.to_nat i)) bad_node.
Definition set_forward (m : gmap Z global_root) (e i v : Z) : res (gmap Z global_root) :=
  _ <- forward m e i;
  Ok (alter (fun n => mkRoot (gr_root n) (<[Z.to_nat i := v]> (gr_forward n))) e m).
Definition root_at (m : gmap Z global_root) (e : Z) : res Z := lift (gr_root <$> m !! e) bad_node.
(** A write to the local array update. *)
Definition set_update (update : list Z) (i e : Z) : res (list Z) :=
  if i <? Z.of_nat (length update) then Ok (<[Z.to_nat i := e]> update) else Err bad_node.

(** * Random levels *)

Definition random_step (s : Z * Z) : res (Z * Z + Z) :=
  let '(level, r) := s in
  if Z.land r 0xC0000000 =? 0xC0000000 then Ok (inl (level + 1, u32 (Z.shiftl r 2))) else Ok (inr level).
(** The level, and the seed for the next one. *)
Definition random_level (seed : Z) : res (Z * Z) :=
  let r := u32 (seed * 69069 + 25173) in
  level <- loop 18 random_step (0, r);
  Ok (level, r).

(** * Finding the place of a root *)

(** The last node of a level before [r]. *)
Definition advance_step (m : gmap Z global_root) (r i e : Z) : res (Z + Z) :=
  f <- forward m e i;
  if f =? 0 then Ok (inr e)
  else
    root <- root_at m f;
    if r <=? root then Ok (inr e) else Ok (inl f).

Definition cursor_step (m : gmap Z global_root) (r : Z) (s : Z * Z * list Z) : res (Z * Z * list Z + Z * list Z) :=
  let '(i, e, update) := s in
  if 0 <=? i then
    e <- loop (2 + size m) (advance_step m r i) e;
    update <- set_update update i e;
    Ok (inl (i - 1, e, update))
  else Ok (inr (e, update)).

Definition find_place (st : root_state) (r : Z) : res (Z * list Z) :=
  loop (2 + Z.to_nat (gr_level st)) (cursor_step (gr_nodes st) r) (gr_level st, caml_global_roots, replicate (Z.to_nat NUM_LEVELS) 0).

(** Whether the node after the place is one for [r]. *)
Definition is_at (m : gmap Z global_root) (r e : Z) : res bool :=
  if e =? 0 then Ok false else root <- root_at m e; Ok (root =? r).

(** * Registration *)

Section Register.
Variable caml_stat_alloc : gmap Z global_root -> Z.

Definition raise_step (new_level : Z) (s : Z * list Z) : res (Z * list Z + list Z) :=
  let '(i, update) := s in
  if i <=? new_level then
    update <- set_update update i caml_global_roots;
    Ok (inl (i + 1, update))
  else Ok (inr update).

Definition link_step (update : list Z) (e new_level : Z) (s : Z * gmap Z global_root) : res (Z * gmap Z global_root + gmap Z global_root) :=
  let '(i, m) := s in
  if i <=? new_level then
    u <- lift (update !! Z.to_nat i) bad_node;
    f <- forward m u i;
    m <- set_forward m e i f;
    m <- set_forward m u i e;
    Ok (inl (i + 1, m))
  else Ok (inr m).

Definition caml_register_global_root (r : Z) (st : root_state) : res root_state :=
  let m := gr_nodes st in
  '(e, update) <- find_place st r;
  e <- forward m e 0;
  present <- is_at m r e;
  if (present : bool) then Ok st
  else
    '(new_level, seed) <- random_level (random_seed st);
    '(update, level) <-
      (if gr_level st <? new_level then
         update <- loop (2 + Z.to_nat new_level) (raise_step new_level) (gr_level st + 1, update);
         Ok (update, new_level)
       else Ok (update, gr_level st));
    let e := caml_stat_alloc m in
    let m := <[e := mkRoot r (replicate (Z.to_nat (new_level + 1)) 0)]> m in
    m <- loop (2 + Z.to_nat new_level) (link_step update e new_level) (0, m);
    Ok (mkRoots m level seed).
End Register.

(** * Removal *)

Definition unlink_step (update : list Z) (e level : Z) (s : Z * gmap Z global_root) : res (Z * gmap Z global_root + gmap Z global_root) :=
  let '(i, m) := s in
  if i <=? level then
    u <- lift (update !! Z.to_nat i) bad_node;
    f <- forward m u i;
    if f =? e then
      g <- forward m e i;
      m <- set_forward m u i g;
      Ok (inl (i + 1, m))
    else Ok (inl (i + 1, m))
  else Ok (inr m).

Definition lower_step (m : gmap Z global_root) (level : Z) : res (Z + Z) :=
  if 0 <? level then
    f <- forward m caml_global_roots level;
    if f =? 0 then Ok (inl (level - 1)) else Ok (inr level)
  else Ok (inr level).

Definition caml_remove_global_root (r : Z) (st : root_state) : res root_state :=
  let m := gr_nodes st in
  '(e, update) <- find_place st r;
  e <- forward m e 0;
  present <- is_at m r e;
  if (present : bool) then
    m <- loop (2 + Z.to_nat (gr_level st)) (unlink_step update e (gr_level st)) (0, m);
    let m := delete e m in
    level <- loop (2 + Z.to_nat (gr_level st)) (lower_step m) (gr_level st);
    Ok (mkRoots m level (random_seed st))
  else Ok st.

(** * The scan of the collector (roots.c) *)

(** The addresses that the loop over the list passes to its function. *)
Definition scan_step (m : gmap Z global_root) (s : Z * list Z) : res (Z * list Z + list Z) :=
  let '(gr, seen) := s in
  if gr =? 0 then Ok (inr seen)
  else
    root <- root_at m gr;
    gr <- forward m gr 0;
    Ok (inl (gr, seen ++ [root])).
Definition scan_global_roots (st : root_state) : res (list Z) :=
  gr <- forward (gr_nodes st) caml_global_roots 0;
  loop (2 + size (gr_nodes st)) (scan_step (gr_nodes st)) (gr, []).
