(* ===== verification/CamlRootsSpec.v ===== *)
(** The global roots are a set: the skip list is a list of nodes in order of
    address, of which every level links those that are tall enough. *)
From stdpp Require Import base gmap list sorting.
From Stdlib Require Import ZArith Lia.
From S2P Require Import Prelude CamlRoots.
Open Scope Z_scope.

Implicit Types (m : gmap Z global_root) (i j : nat) (e h : Z) (l L A B : list Z).

(** * Random levels *)

(** Two bits of 32 are consumed for each level, so there are at most 16. *)
Lemma random_level_ok seed : exists level seed', random_level seed = Ok (level, seed') /\ 0 <= level < NUM_LEVELS.
Proof.
  unfold random_level. set (r0 := u32 _). assert (0 <= r0 < 2 ^ 32) as Hr0 by (apply Z.mod_pos_bound; lia).
  assert (ends (fun _ => False) (fun x => 0 <= x < NUM_LEVELS) (loop 18 random_step (0, r0))) as H.
  { apply (ends_loop _ (fun s => 0 <= s.1 <= 16 /\ 0 <= s.2 < 2 ^ 32 /\ exists q, s.2 = q * 4 ^ s.1) (fun s => Z.to_nat (17 - s.1))).
    - intros [x r]. cbn [fst snd]. intros (Hx & Hr & q & Eq). unfold random_step. destruct (Z.eqb_spec (Z.land r 0xC0000000) 0xC0000000) as [Eb|_]; cbn [ends fst snd]; [|unfold NUM_LEVELS; lia].
      assert (x <> 16) as Hne.
      { intros ->. change (4 ^ 16) with (2 ^ 32) in Eq. assert (r = 0) as -> by nia. rewrite Z.land_0_l in Eb. done. }
      split; [|lia]. split; [lia|]. split; [apply Z.mod_pos_bound; lia|]. exists (q mod 4 ^ (15 - x)).
      unfold u32, wrap. rewrite Z.shiftl_mul_pow2 by lia. rewrite Eq.
      replace (q * 4 ^ x * 2 ^ 2) with (q * 4 ^ (x + 1)) by (rewrite Z.pow_add_r by lia; change (4 ^ 1) with 4; change (2 ^ 2) with 4; ring).
      replace (2 ^ 32) with (4 ^ (15 - x) * 4 ^ (x + 1)) by (rewrite <- Z.pow_add_r by lia; replace (15 - x + (x + 1)) with 16 by lia; done).
      apply Z.mul_mod_distr_r; apply Z.pow_nonzero; lia.
    - cbn. split; [lia|]. split; [done|]. exists r0. lia.
    - cbn. lia. }
  destruct (loop 18 random_step (0, r0)) as [x| |]; [|done..]. exists x, r0. by split.
Qed.

(** * Lanes *)

(** The links of level [i] go from [e] through [l] to the end. *)
Fixpoint lane m i e l : Prop :=
  match l with
  | [] => fwd m e i = Some 0
  | a :: l => fwd m e i = Some a /\ a <> 0 /\ lane m i a l
  end.
(** The last node of [l], or [e]. *)
Fixpoint end_of e l : Z := match l with [] => e | a :: l => end_of a l end.

Lemma end_of_app e A B : end_of e (A ++ B) = end_of (end_of e A) B.
Proof. revert e. induction A as [|a A IH]; intros e; [done|]. apply IH. Qed.
Lemma end_of_in e l : end_of e l ∈ e :: l.
Proof. revert e. induction l as [|a l IH]; intros e; [by left|]. right. apply IH. Qed.
Lemma lane_suffix m i e A B : lane m i e (A ++ B) -> lane m i (end_of e A) B.
Proof. revert e. induction A as [|a A IH]; intros e; [done|]. intros (_ & _ & H). by apply IH. Qed.
Lemma lane_frame m m' i e l : (forall b, b ∈ e :: l -> fwd m' b i = fwd m b i) -> lane m i e l -> lane m' i e l.
Proof.
  revert e. induction l as [|a l IH]; intros e Hf; cbn [lane].
  - by rewrite Hf by left.
  - intros (E & Ha & Hl). rewrite Hf by left. split_and!; [done|done|]. apply IH; [|done]. intros b Hb. apply Hf. by right.
Qed.

Lemma lane_insert m m' i e A B x :
  lane m i e (A ++ B) -> NoDup (e :: A ++ B) -> x ∉ e :: A ++ B -> x <> 0 ->
  fwd m' (end_of e A) i = Some x -> fwd m' x i = fwd m (end_of e A) i -> (forall b, b <> x -> b <> end_of e A -> fwd m' b i = fwd m b i) ->
  lane m' i e (A ++ x :: B).
Proof.
  revert e. induction A as [|a A IH]; intros e Hl Hnd Hx H0 Ee Ex Hf; cbn [app end_of] in *.
  - split_and!; [done|done|]. apply NoDup_cons in Hnd as [He _]. apply not_elem_of_cons in Hx as [Hxe Hx].
    destruct B as [|b B]; cbn [lane] in *; [by rewrite Ex|]. destruct Hl as (E & Hb & Hl). rewrite Ex. split_and!; [done|done|].
    apply lane_frame with m; [|done]. intros c Hc. apply Hf; [intros ->; done|intros ->; done].
  - cbn [lane] in *. destruct Hl as (E & Ha & Hl). apply NoDup_cons in Hnd as [He Hnd]. apply not_elem_of_cons in Hx as [Hxe Hx].
    split_and!; [|done|by apply IH]. rewrite Hf; [done|done|]. intros ->. apply He. rewrite app_comm_cons. apply elem_of_app. left. apply end_of_in.
Qed.

Lemma lane_remove m m' i e A B x :
  lane m i e (A ++ x :: B) -> NoDup (e :: A ++ x :: B) ->
  fwd m' (end_of e A) i = fwd m x i -> (forall b, b <> end_of e A -> fwd m' b i = fwd m b i) ->
  lane m' i e (A ++ B).
Proof.
  revert e. induction A as [|a A IH]; intros e Hl Hnd Ee Hf; cbn [app end_of] in *.
  - destruct Hl as (E & _ & Hl). apply NoDup_cons in Hnd as [He _]. apply not_elem_of_cons in He as [_ He]. destruct B as [|b B]; cbn [lane] in *; [by rewrite Ee|].
    destruct Hl as (Eb & Hb & Hl). rewrite Ee. split_and!; [done|done|]. apply lane_frame with m; [|done]. intros c Hc. apply Hf. by intros ->.
  - cbn [lane] in *. destruct Hl as (E & Ha & Hl). apply NoDup_cons in Hnd as [He Hnd]. split_and!; [|done|by apply IH].
    rewrite Hf; [done|]. intros ->. apply He. rewrite app_comm_cons. apply elem_of_app. left. apply end_of_in.
Qed.

(** A sparser lane ends at a node of a denser one. *)
Lemma filter_end (P Q : Z -> Prop) `{!forall x, Decision (P x), !forall x, Decision (Q x)} e l :
  (forall x, P x -> Q x) -> exists A B, filter Q l = A ++ B /\ end_of e A = end_of e (filter P l).
Proof.
  intros HPQ. revert e. induction l as [|a l IH]; intros e; [by exists [], []|]. rewrite !filter_cons. destruct (decide (P a)) as [HP|HP].
  - rewrite decide_True by auto. destruct (IH a) as (A & B & -> & E). by exists (a :: A), B.
  - destruct (decide (Q a)) as [HQ|HQ]; [|apply IH]. destruct (filter P l) as [|b l'] eqn:El; [by eexists [], _|].
    destruct (IH a) as (A & B & -> & E). by exists (a :: A), B.
Qed.

(** * Steps of the search *)

Definition below m (r a : Z) : Prop := exists n, m !! a = Some n /\ gr_root n < r.
Definition above m (r a : Z) : Prop := exists n, m !! a = Some n /\ r <= gr_root n.

Lemma advance_ok m r i k e A B :
  lane m i e (A ++ B) -> Forall (below m r) A -> Forall (above m r) B -> (length A < k)%nat ->
  loop k (advance_step m r (Z.of_nat i)) e = Ok (end_of e A).
Proof.
  intros Hl HA HB. revert e A Hl HA. induction k as [|k IH]; intros e A Hl HA Hk; [lia|]. cbn [loop]. unfold advance_step at 1, forward. rewrite Nat2Z.id.
  destruct A as [|a A]; cbn [app end_of] in *.
  - destruct B as [|b B]; cbn [lane] in Hl; [by rewrite Hl|]. destruct Hl as (E & Hb & _). rewrite E. cbn [lift bind]. rewrite (proj2 (Z.eqb_neq _ _)) by done.
    apply Forall_cons in HB as [(n & En & Hr) _]. unfold root_at. rewrite En. cbn [fmap option_fmap option_map lift bind]. by rewrite (proj2 (Z.leb_le _ _)).
  - destruct Hl as (E & Ha & Hl). rewrite E. cbn [lift bind]. rewrite (proj2 (Z.eqb_neq _ _)) by done.
    apply Forall_cons in HA as [(n & En & Hr) HA]. unfold root_at. rewrite En. cbn [fmap option_fmap option_map lift bind]. rewrite (proj2 (Z.leb_gt _ _)) by done.
    cbn [bind]. apply IH; [done..|]. cbn in Hk. lia.
Qed.

(** * The skip list *)

Definition height m e : nat := match m !! e with Some n => length (gr_forward n) | None => 0%nat end.
Definition root_of m e : Z := match m !! e with Some n => gr_root n | None => 0 end.
(** The nodes of [l] that level [i] links. *)
Definition tall m i l : list Z := filter (fun a => (i < height m a)%nat) l.

(** The nodes [L] in order of their roots, with [lvl] the highest level. *)
Record skiplist m (lvl : nat) L : Prop := {
  sk_nodup : NoDup (caml_global_roots :: L);
  sk_sorted : StronglySorted Z.lt (root_of m <$> L);
  sk_nodes a : is_Some (m !! a) <-> a ∈ caml_global_roots :: L;
  sk_head : height m caml_global_roots = 17%nat;
  sk_heights : Forall (fun a => (0 < height m a <= S lvl)%nat) L;
  sk_lanes i : (i < 17)%nat -> lane m i caml_global_roots (tall m i L);
  sk_level : (lvl < 17)%nat;
  sk_tight : lvl = 0%nat \/ Exists (fun a => height m a = S lvl) L
}.

Lemma tall_app m i A B : tall m i (A ++ B) = tall m i A ++ tall m i B.
Proof. apply filter_app. Qed.
Lemma tall_none m i L lvl : Forall (fun a => (0 < height m a <= S lvl)%nat) L -> (lvl < i)%nat -> tall m i L = [].
Proof.
  intros H Hi. unfold tall. induction H as [|a L [_ Ha] H IH]; [done|]. rewrite filter_cons, decide_False by lia. done.
Qed.
Lemma tall_all m L lvl : Forall (fun a => (0 < height m a <= S lvl)%nat) L -> tall m 0 L = L.
Proof. intros H. unfold tall. induction H as [|a L [Ha _] H IH]; [done|]. rewrite filter_cons, decide_True by done. by rewrite IH. Qed.
Lemma tall_sub m i L a : a ∈ tall m i L -> a ∈ L.
Proof. by intros [_ ?]%list_elem_of_filter. Qed.
Lemma tall_ext m m' i l : (forall a, a ∈ l -> height m' a = height m a) -> tall m' i l = tall m i l.
Proof.
  unfold tall. induction l as [|a l IH]; intros H; [done|]. rewrite !filter_cons, (H a) by left. rewrite IH; [done|]. intros b Hb. apply H. by right.
Qed.
Lemma tall_forall (P : Z -> Prop) m i L : Forall P L -> Forall P (tall m i L).
Proof. rewrite !Forall_forall. intros H a Ha. by eapply H, tall_sub. Qed.
Lemma tall_nodup m i L e : NoDup (e :: L) -> NoDup (e :: tall m i L).
Proof. intros [He Hn]%NoDup_cons. apply NoDup_cons. split; [by intros ?%tall_sub|by apply NoDup_filter]. Qed.

(** The nodes before and after the place of [r]. *)
Lemma split_at m lvl L r :
  skiplist m lvl L -> exists L1 L2, L = L1 ++ L2 /\ Forall (below m r) L1 /\ Forall (above m r) L2.
Proof.
  intros Hs. pose proof (sk_sorted _ _ _ Hs) as Hso.
  assert (forall a, a ∈ L -> exists n, m !! a = Some n /\ root_of m a = gr_root n) as Hn.
  { intros a Ha. destruct (proj2 (sk_nodes _ _ _ Hs a)) as [n E]; [by right|]. exists n. unfold root_of. by rewrite E. }
  clear Hs. induction L as [|a L IH]; [by exists [], []|]. cbn in Hso. apply StronglySorted_inv in Hso as [Hso Ha].
  destruct (Hn a) as (n & En & Er); [by left|]. destruct (Z.ltb_spec (gr_root n) r) as [Hlt|Hge].
  - destruct IH as (L1 & L2 & -> & H1 & H2); [done| |].
    + intros b Hb. apply Hn. by right.
    + exists (a :: L1), L2. split_and!; [done| |done]. constructor; [by exists n|done].
  - exists [], (a :: L). split_and!; [done|constructor|]. constructor; [by exists n|].
    rewrite Forall_forall in *. intros b Hb. destruct (Hn b) as (nb & Eb & Erb); [by right|]. exists nb. split; [done|].
    assert (root_of m a < root_of m b); [|lia]. apply Ha, list_elem_of_fmap. by exists b.
Qed.

Lemma skiplist_size m lvl L : skiplist m lvl L -> size m = S (length L).
Proof.
  intros Hs. rewrite <- (size_dom m). replace (dom m) with (list_to_set (caml_global_roots :: L) : gset Z).
  - rewrite size_list_to_set by apply (sk_nodup _ _ _ Hs). done.
  - apply set_eq. intros a. rewrite elem_of_list_to_set, elem_of_dom. symmetry. apply (sk_nodes _ _ _ Hs).
Qed.

(** The local array [update]: the last node before the place, level by level. *)
Definition places m L1 (lvl : nat) (update : list Z) : Prop :=
  length update = 17%nat /\ forall i, (i <= lvl)%nat -> update !! i = Some (end_of caml_global_roots (tall m i L1)).

Lemma set_update_ok update i e : (i < length update)%nat -> set_update update (Z.of_nat i) e = Ok (<[i := e]> update).
Proof. intros H. unfold set_update. rewrite (proj2 (Z.ltb_lt _ _)) by lia. by rewrite Nat2Z.id. Qed.

Lemma cursor_loop m lvl L1 L2 r n e update k :
  skiplist m lvl (L1 ++ L2) -> Forall (below m r) L1 -> Forall (above m r) L2 ->
  (n <= S lvl)%nat -> e = end_of caml_global_roots (tall m n L1) -> length update = 17%nat ->
  (forall i, (n <= i <= lvl)%nat -> update !! i = Some (end_of caml_global_roots (tall m i L1))) -> (n < k)%nat ->
  exists update', loop k (cursor_step m r) (Z.of_nat n - 1, e, update) = Ok (end_of caml_global_roots L1, update') /\ places m L1 lvl update'.
Proof.
  intros Hs H1 H2. pose proof (sk_heights _ _ _ Hs) as Hh. pose proof (sk_level _ _ _ Hs) as Hlvl. revert e update k.
  induction n as [|n IH]; intros e update k Hn He Hu Hup Hk; (destruct k as [|k]; [lia|]); cbn [loop]; unfold cursor_step at 1.
  - rewrite (proj2 (Z.leb_gt _ _)) by lia. cbn [bind]. exists update. rewrite He. rewrite (tall_all m L1 lvl) by (by apply Forall_app in Hh as [? _]).
    split; [done|]. split; [done|]. intros i Hi. apply Hup. lia.
  - rewrite (proj2 (Z.leb_le _ _)) by lia. replace (Z.of_nat (S n) - 1) with (Z.of_nat n) by lia.
    destruct (filter_end (fun a => (S n < height m a)%nat) (fun a => (n < height m a)%nat) caml_global_roots L1) as (A & B & EAB & Ee); [intros; lia|].
    pose proof (sk_lanes _ _ _ Hs n ltac:(lia)) as Hl. rewrite tall_app in Hl. unfold tall in Hl at 1. rewrite EAB, <- app_assoc in Hl.
    apply lane_suffix in Hl. rewrite Ee in Hl. fold (tall m (S n) L1) in Hl. rewrite <- He in Hl.
    assert (Forall (below m r) (tall m n L1)) as Hb by (by apply tall_forall). unfold tall in Hb. rewrite EAB in Hb. apply Forall_app in Hb as [_ Hb].
    rewrite (advance_ok m r n (2 + size m) e B (tall m n L2) Hl Hb).
    + cbn [bind]. assert (end_of e B = end_of caml_global_roots (tall m n L1)) as Een.
      { unfold tall at 1. rewrite EAB, end_of_app, Ee. by rewrite He. }
      rewrite set_update_ok by lia. cbn [bind]. apply IH; [lia|done|by rewrite length_insert| |lia]. intros i Hi. destruct (decide (i = n)) as [->|Hne].
      * rewrite list_lookup_insert_eq by lia. by rewrite Een.
      * rewrite list_lookup_insert_ne by done. apply Hup. lia.
    + by apply tall_forall.
    + rewrite (skiplist_size _ _ _ Hs), length_app. assert (length (A ++ B) <= length L1)%nat by (rewrite <- EAB; apply length_filter). rewrite length_app in *. lia.
Qed.

Lemma find_place_ok st lvl L1 L2 r :
  gr_level st = Z.of_nat lvl -> skiplist (gr_nodes st) lvl (L1 ++ L2) -> Forall (below (gr_nodes st) r) L1 -> Forall (above (gr_nodes st) r) L2 ->
  exists update, find_place st r = Ok (end_of caml_global_roots L1, update) /\ places (gr_nodes st) L1 lvl update.
Proof.
  intros Hl Hs H1 H2. unfold find_place. rewrite Hl. pose proof (sk_heights _ _ _ Hs) as Hh. apply Forall_app in Hh as [Hh _].
  pose proof (cursor_loop (gr_nodes st) lvl L1 L2 r (S lvl) caml_global_roots (replicate (Z.to_nat NUM_LEVELS) 0) (2 + Z.to_nat (Z.of_nat lvl)) Hs H1 H2) as H.
  replace (Z.of_nat (S lvl) - 1) with (Z.of_nat lvl) in H by lia. apply H; [lia| |by rewrite length_replicate|intros; lia|lia].
  by rewrite (tall_none _ _ _ lvl) by (done || lia).
Qed.

(** Whether [r] is there shows in the first node after its place. *)
Lemma is_at_ok m lvl L1 L2 r :
  skiplist m lvl (L1 ++ L2) -> Forall (above m r) L2 ->
  exists e, forward m (end_of caml_global_roots L1) 0 = Ok e /\
    ((is_at m r e = Ok true /\ exists L2', L2 = e :: L2' /\ root_of m e = r) \/
     (is_at m r e = Ok false /\ Forall (fun a => r < root_of m a) L2)).
Proof.
  intros Hs H2. pose proof (sk_lanes _ _ _ Hs 0%nat ltac:(lia)) as Hl. rewrite (tall_all _ _ _ (sk_heights _ _ _ Hs)) in Hl. apply lane_suffix in Hl.
  pose proof (sk_sorted _ _ _ Hs) as Hso. rewrite fmap_app in Hso. apply StronglySorted_app_1_r in Hso.
  unfold forward. change (Z.to_nat 0) with 0%nat. destruct L2 as [|a L2]; cbn [lane] in Hl.
  - rewrite Hl. exists 0. split; [done|]. right. by split.
  - destruct Hl as (E & Ha & _). rewrite E. exists a. split; [done|]. unfold is_at. rewrite (proj2 (Z.eqb_neq _ _)) by done.
    apply Forall_cons in H2 as [(n & En & Hr) H2]. unfold root_at, root_of. rewrite En. cbn [fmap option_fmap option_map lift bind].
    destruct (Z.eqb_spec (gr_root n) r) as [->|Hne]; [left; split; [done|by exists L2]|right]. split; [done|]. cbn in Hso. apply StronglySorted_inv in Hso as [_ Hso].
    unfold root_of in Hso. rewrite En in Hso. constructor; [rewrite En; lia|]. rewrite Forall_forall in *. intros b Hb. specialize (Hso _ (list_elem_of_fmap_2 (root_of m) _ _ Hb)). unfold root_of in Hso. lia.
Qed.

(** * Changing links *)

(** The same nodes with the same roots and heights. *)
Definition shape (n : global_root) : Z * nat := (gr_root n, length (gr_forward n)).
Definition same_shape m m' : Prop := forall a, shape <$> m !! a = shape <$> m' !! a.

Lemma same_shape_height m m' a : same_shape m m' -> height m' a = height m a.
Proof. intros H. specialize (H a). unfold height. destruct (m !! a), (m' !! a); cbn in H; try done. by injection H. Qed.
Lemma same_shape_root m m' a : same_shape m m' -> root_of m' a = root_of m a.
Proof. intros H. specialize (H a). unfold root_of. destruct (m !! a), (m' !! a); cbn in H; try done. by injection H. Qed.
Lemma same_shape_some m m' a : same_shape m m' -> is_Some (m' !! a) <-> is_Some (m !! a).
Proof. intros H. specialize (H a). destruct (m !! a), (m' !! a); cbn in H; try done. Qed.
Lemma same_shape_tall m m' i l : same_shape m m' -> tall m' i l = tall m i l.
Proof. intros H. apply tall_ext. intros a _. by apply same_shape_height. Qed.

Lemma fwd_height m e i : is_Some (fwd m e i) <-> (i < height m e)%nat.
Proof. unfold fwd, height. destruct (m !! e); cbn; [apply lookup_lt_is_Some|]. split; [by intros [??]|lia]. Qed.

Lemma lane_head m i e l : lane m i e l -> fwd m e i = Some (match l with [] => 0 | a :: _ => a end).
Proof. destruct l; cbn; [done|]. by intros [? _]. Qed.
Lemma forward_ok m e i v : fwd m e i = Some v -> forward m e (Z.of_nat i) = Ok v.
Proof. intros E. unfold forward. by rewrite Nat2Z.id, E. Qed.

Lemma set_forward_ok m e i v : is_Some (fwd m e i) ->
  exists m', set_forward m e (Z.of_nat i) v = Ok m' /\ same_shape m m' /\ fwd m' e i = Some v /\
    forall b j, b <> e \/ j <> i -> fwd m' b j = fwd m b j.
Proof.
  intros [w E]. unfold set_forward. rewrite (forward_ok _ _ _ _ E). cbn [bind]. eexists. split; [done|].
  rewrite Nat2Z.id. unfold fwd in *. destruct (m !! e) as [n|] eqn:En; [|done]. cbn in E. split_and!.
  - intros b. destruct (decide (b = e)) as [->|Hne]; [rewrite lookup_alter_eq, En; cbn; unfold shape; cbn; by rewrite length_insert|by rewrite lookup_alter_ne].
  - rewrite lookup_alter_eq, En. cbn. apply list_lookup_insert_eq. by eapply lookup_lt_Some.
  - intros b j Hbj. destruct (decide (b = e)) as [->|Hne]; [|by rewrite lookup_alter_ne]. destruct Hbj as [?|Hj]; [done|].
    rewrite lookup_alter_eq, En. cbn. by rewrite list_lookup_insert_ne.
Qed.

Lemma same_shape_trans m1 m2 m3 : same_shape m1 m2 -> same_shape m2 m3 -> same_shape m1 m3.
Proof. intros H1 H2 a. by rewrite H1. Qed.

(** The links of levels below [i] have been changed, those above not yet. *)
Definition half_done m m' i L L' : Prop :=
  same_shape m m' /\ (forall j, (j < i)%nat -> lane m' j caml_global_roots (tall m j L')) /\
  forall j, (i <= j < 17)%nat -> lane m' j caml_global_roots (tall m j L).

Lemma lane_other m m' i j e l : (forall b j, j <> i -> fwd m' b j = fwd m b j) -> j <> i -> lane m j e l -> lane m' j e l.
Proof. intros Hf Hj. apply lane_frame. intros b _. by apply Hf. Qed.

(** Insertion at every level of the new node. *)
Lemma link_loop m update x nl L1 L2 i m' k :
  NoDup (caml_global_roots :: L1 ++ L2) -> x ∉ caml_global_roots :: L1 ++ L2 -> x <> 0 -> height m x = S nl -> (nl < 17)%nat ->
  (forall i, (i <= nl)%nat -> update !! i = Some (end_of caml_global_roots (tall m i L1))) ->
  (i <= S nl)%nat -> half_done m m' i (L1 ++ L2) (L1 ++ x :: L2) -> (S nl - i < k)%nat ->
  exists m'', loop k (link_step update x (Z.of_nat nl)) (Z.of_nat i, m') = Ok m'' /\ half_done m m'' (S nl) (L1 ++ L2) (L1 ++ x :: L2).
Proof.
  intros Hnd Hx H0 Hhx Hnl Hup. revert i m'. induction k as [|k IH]; intros i m' Hi (Hs & Hlo & Hhi) Hk; [lia|]. cbn [loop]. unfold link_step at 1.
  destruct (decide (i = S nl)) as [->|Hne].
  - rewrite (proj2 (Z.leb_gt _ _)) by lia. cbn [bind]. exists m'. by split.
  - rewrite (proj2 (Z.leb_le _ _)) by lia. rewrite Nat2Z.id, Hup by lia. cbn [lift bind]. set (u := end_of _ _).
    pose proof (Hhi i ltac:(lia)) as Hl. rewrite tall_app in Hl. pose proof (lane_head _ _ _ _ (lane_suffix _ _ _ _ _ Hl)) as Eu.
    fold u in Eu. rewrite (forward_ok _ _ _ _ Eu). cbn [bind]. set (f := match tall m i L2 with [] => 0 | a :: _ => a end) in *.
    destruct (set_forward_ok m' x i f) as (m1 & -> & Hs1 & Ex1 & Hf1); [apply fwd_height; rewrite (same_shape_height m); [lia|done]|]. cbn [bind].
    assert (u <> x) as Hux.
    { intros <-. apply Hx. pose proof (end_of_in caml_global_roots (tall m i L1)) as Hin. fold u in Hin. apply elem_of_cons in Hin as [->|Hin]; [by left|].
      right. apply elem_of_app. left. by eapply tall_sub. }
    destruct (set_forward_ok m1 u i x) as (m2 & -> & Hs2 & Eu2 & Hf2); [rewrite Hf1 by auto; by rewrite Eu|]. cbn [bind].
    replace (Z.of_nat i + 1) with (Z.of_nat (S i)) by lia. apply IH; [lia| |lia].
    assert (forall b j, j <> i -> fwd m2 b j = fwd m' b j) as Hoth by (intros b j Hj; rewrite Hf2, Hf1 by auto; done).
    split; [by eapply same_shape_trans, same_shape_trans|]. split.
    + intros j Hj. destruct (decide (j = i)) as [->|Hji]; [|apply (lane_other m' m2 i j); [done..|]; apply Hlo; lia].
      rewrite tall_app. unfold tall at 2. rewrite filter_cons, decide_True by lia. fold (tall m i L2).
      pose proof (tall_nodup m i _ _ Hnd) as Hnd'. rewrite tall_app in Hnd'.
      apply lane_insert with m'; try done.
      * rewrite <- tall_app. intros [->|Hin]%elem_of_cons; [by apply Hx; left|]. apply Hx. right. by eapply tall_sub.
      * rewrite Hf2 by auto. rewrite Ex1. by fold u; rewrite Eu.
      * intros b Hb1 Hb2. rewrite Hf2, Hf1 by auto. done.
    + intros j Hj. apply (lane_other m' m2 i j); [done|lia|]. apply Hhi. lia.
Qed.

Lemma raise_loop update i nl k :
  length update = 17%nat -> (nl < 17)%nat -> (S nl - i < k)%nat -> (i <= S nl)%nat ->
  exists update', loop k (raise_step (Z.of_nat nl)) (Z.of_nat i, update) = Ok update' /\ length update' = 17%nat /\
    forall j, update' !! j = if decide (i <= j <= nl)%nat then Some caml_global_roots else update !! j.
Proof.
  intros Hl Hnl. revert i update Hl. induction k as [|k IH]; intros i update Hl Hk Hi; [lia|]. cbn [loop]. unfold raise_step at 1.
  destruct (decide (i = S nl)) as [->|Hne].
  - rewrite (proj2 (Z.leb_gt _ _)) by lia. cbn [bind]. exists update. split_and!; [done..|]. intros j. rewrite decide_False by lia. done.
  - rewrite (proj2 (Z.leb_le _ _)) by lia. rewrite set_update_ok by lia. cbn [bind]. replace (Z.of_nat i + 1) with (Z.of_nat (S i)) by lia.
    destruct (IH (S i) (<[i := caml_global_roots]> update)) as (u' & -> & Hl' & Hu'); [by rewrite length_insert|lia|lia|]. exists u'. split_and!; [done..|]. intros j. rewrite Hu'.
    destruct (decide (j = i)) as [->|Hji].
    + rewrite decide_False, decide_True by lia. apply list_lookup_insert_eq. lia.
    + rewrite list_lookup_insert_ne by done. destruct (decide (S i <= j <= nl)%nat), (decide (i <= j <= nl)%nat); (done || lia).
Qed.

(** * Registration *)

Definition fresh_blocks (malloc : gmap Z global_root -> Z) : Prop := forall m, m !! malloc m = None /\ malloc m <> 0.

Lemma sorted_insert m r L1 L2 :
  StronglySorted Z.lt ((root_of m <$> L1) ++ (root_of m <$> L2)) -> Forall (below m r) L1 -> Forall (fun a => r < root_of m a) L2 ->
  StronglySorted Z.lt ((root_of m <$> L1) ++ r :: (root_of m <$> L2)).
Proof.
  intros Hso H1 H2. induction L1 as [|a L1 IH]; cbn in *.
  - constructor; [done|]. by apply Forall_fmap.
  - apply StronglySorted_inv in Hso as [Hso Ha]. apply Forall_cons in H1 as [(n & En & Hr) H1]. constructor; [by apply IH|].
    apply Forall_app in Ha as [Ha1 Ha2]. apply Forall_app. split; [done|]. constructor; [|done]. unfold root_of. by rewrite En.
Qed.

(** The skip list with a new node between [L1] and [L2]. *)
Lemma inserted_ok m lvl L1 L2 r x nl m' :
  skiplist m lvl (L1 ++ L2) -> Forall (below m r) L1 -> Forall (fun a => r < root_of m a) L2 -> m !! x = None -> x <> 0 -> (nl < 17)%nat ->
  let m0 := <[x := mkRoot r (replicate (S nl) 0)]> m in
  half_done m0 m' (S nl) (L1 ++ L2) (L1 ++ x :: L2) -> skiplist m' (Nat.max lvl nl) (L1 ++ x :: L2) /\ root_of m' x = r /\
    forall a, a ∈ L1 ++ L2 -> root_of m' a = root_of m a.
Proof.
  intros Hs H1 H2 Hx H0 Hnl m0 (Hsh & Hlo & Hhi). pose proof Hs as [Hnd Hso Hno Hhd Hhe Hla Hlv Hti].
  assert (x ∉ caml_global_roots :: L1 ++ L2) as HxL by (rewrite <- Hno, Hx; by intros [??]).
  assert (height m0 x = S nl) as Hhx by (unfold height, m0; rewrite lookup_insert_eq; cbn; by rewrite length_replicate).
  assert (forall a, a <> x -> height m0 a = height m a) as Hha by (intros a Ha; unfold height, m0; by rewrite lookup_insert_ne).
  assert (forall a, a <> x -> root_of m0 a = root_of m a) as Hra by (intros a Ha; unfold root_of, m0; by rewrite lookup_insert_ne).
  assert (forall a, a ∈ caml_global_roots :: L1 ++ L2 -> a <> x) as Hne by (by intros a Ha ->).
  assert (root_of m' x = r) as Hrx by (rewrite (same_shape_root _ _ _ Hsh); unfold root_of, m0; by rewrite lookup_insert_eq).
  assert (forall a, a ∈ L1 ++ L2 -> root_of m' a = root_of m a) as Hr'.
  { intros a Ha. rewrite (same_shape_root _ _ _ Hsh). apply Hra, Hne. by right. }
  assert (L1 ++ x :: L2 ≡ₚ x :: L1 ++ L2) as Hperm by (by rewrite Permutation_middle).
  split; [|by split]. split.
  - rewrite Hperm. rewrite (Permutation_swap x caml_global_roots). by apply NoDup_cons.
  - rewrite fmap_app, fmap_cons, Hrx. rewrite fmap_app in Hso.
    rewrite (list_fmap_ext (root_of m') (root_of m) L1), (list_fmap_ext (root_of m') (root_of m) L2).
    + by apply sorted_insert.
    + intros i a Ha. apply Hr', elem_of_app. right. by eapply list_elem_of_lookup_2.
    + intros i a Ha. apply Hr', elem_of_app. left. by eapply list_elem_of_lookup_2.
  - intros a. rewrite (same_shape_some m0) by done. rewrite Hperm, (Permutation_swap x caml_global_roots), elem_of_cons, <- Hno. unfold m0.
    destruct (decide (a = x)) as [->|Hax]; [rewrite lookup_insert_eq; split; [by left|by eexists]|]. rewrite lookup_insert_ne by done. naive_solver.
  - rewrite (same_shape_height m0) by done. rewrite Hha; [done|]. apply Hne. by left.
  - rewrite Hperm. constructor; [rewrite (same_shape_height m0) by done; lia|]. rewrite Forall_forall in *. intros a Ha.
    rewrite (same_shape_height m0) by done. rewrite Hha by (apply Hne; by right). specialize (Hhe a Ha). lia.
  - intros i Hi. rewrite (same_shape_tall m0) by done. destruct (decide (i < S nl)%nat) as [Hlt|Hge]; [by apply Hlo|].
    rewrite tall_app. unfold tall at 2. rewrite filter_cons, decide_False by lia. fold (tall m0 i L2). rewrite <- tall_app. apply Hhi. lia.
  - lia.
  - destruct (decide (lvl <= nl)%nat).
    + right. apply Exists_exists. exists x. split; [apply elem_of_app; right; by left|]. rewrite (same_shape_height m0) by done. lia.
    + destruct Hti as [->|Hti]; [lia|]. right. apply Exists_exists in Hti as (a & Ha & Hta). apply Exists_exists. exists a.
      split; [rewrite Hperm; by right|]. rewrite (same_shape_height m0) by done. rewrite Hha by (apply Hne; by right). lia.
Qed.

(** The state holds the set [S] of roots. *)
Definition holds_roots (st : root_state) (S : gset Z) : Prop :=
  exists lvl L, gr_level st = Z.of_nat lvl /\ skiplist (gr_nodes st) lvl L /\ S = list_to_set (root_of (gr_nodes st) <$> L).

Lemma register_ok malloc st S r : fresh_blocks malloc -> holds_roots st S ->
  exists st', caml_register_global_root malloc r st = Ok st' /\ holds_roots st' ({[ r ]} ∪ S).
Proof.
  intros Hf (lvl & L & Hlv & Hs & ->). set (m := gr_nodes st) in *. destruct (split_at m lvl L r Hs) as (L1 & L2 & -> & H1 & H2).
  unfold caml_register_global_root. fold m. destruct (find_place_ok st lvl L1 L2 r Hlv Hs H1 H2) as (update & -> & Hul & Hup). cbn [bind].
  destruct (is_at_ok m lvl L1 L2 r Hs H2) as (e & -> & Hat). cbn [bind].
  destruct Hat as [[-> (L2' & -> & Er)]|[-> H3]]; cbn [bind].
  - exists st. split; [done|]. exists lvl, (L1 ++ e :: L2'). split_and!; [done..|]. fold m. apply set_eq. intros a. rewrite elem_of_union, elem_of_singleton.
    split; [intros [->|?]; [|done]|by right]. apply elem_of_list_to_set, list_elem_of_fmap. exists e. split; [done|]. apply elem_of_app. right. by left.
  - destruct (random_level_ok (random_seed st)) as (lev & seed & -> & Hlev). cbn [bind]. unfold NUM_LEVELS in Hlev.
    destruct (Z_of_nat_complete lev) as [nl ->]; [lia|]. set (x := malloc m). destruct (Hf m) as [Hx H0]. fold x in Hx, H0.
    pose proof (sk_level _ _ _ Hs) as Hlvl. pose proof (sk_heights _ _ _ Hs) as Hhe. pose proof (proj1 (Forall_app _ _ _) Hhe) as [Hhe1 Hhe2].
    replace (gr_level st) with (Z.of_nat lvl).
    assert (exists update', (if Z.of_nat lvl <? Z.of_nat nl then
        update <- loop (2 + Z.to_nat (Z.of_nat nl)) (raise_step (Z.of_nat nl)) (Z.of_nat lvl + 1, update); Ok (update, Z.of_nat nl)
      else Ok (update, Z.of_nat lvl)) = Ok (update', Z.of_nat (Nat.max lvl nl)) /\
      forall i, (i <= nl)%nat -> update' !! i = Some (end_of caml_global_roots (tall m i L1))) as (update' & -> & Hup').
    { destruct (Z.ltb_spec (Z.of_nat lvl) (Z.of_nat nl)) as [Hlt|Hge].
      - replace (Z.of_nat lvl + 1) with (Z.of_nat (Datatypes.S lvl)) by lia.
        destruct (raise_loop update (Datatypes.S lvl) nl (2 + Z.to_nat (Z.of_nat nl))) as (u' & -> & _ & Hu'); [lia..|]. exists u'.
        split; [cbn; do 2 f_equal; lia|]. intros i Hi. rewrite Hu'. destruct (decide (Datatypes.S lvl <= i <= nl)%nat); [|apply Hup; lia].
        by rewrite (tall_none _ _ _ lvl) by (done || lia).
      - exists update. split; [do 2 f_equal; lia|]. intros i Hi. apply Hup. lia. }
    cbn [bind]. replace (Z.to_nat (Z.of_nat nl + 1)) with (Datatypes.S nl) by lia. set (m0 := <[x := _]> m).
    assert (x ∉ caml_global_roots :: L1 ++ L2) as HxL by (rewrite <- (sk_nodes _ _ _ Hs), Hx; by intros [??]).
    assert (forall i l, (forall a, a ∈ l -> a <> x) -> tall m0 i l = tall m i l) as Ht.
    { intros i l Hl. apply tall_ext. intros a Ha. unfold height, m0. rewrite lookup_insert_ne; [done|]. intros <-. by apply (Hl x). }
    destruct (link_loop m0 update' x nl L1 L2 0 m0 (2 + Z.to_nat (Z.of_nat nl))) as (m' & El & Hd).
    + apply (sk_nodup _ _ _ Hs).
    + done.
    + done.
    + unfold height, m0. rewrite lookup_insert_eq. cbn. by rewrite length_replicate.
    + lia.
    + intros i Hi. rewrite Ht; [by apply Hup'|]. intros a Ha ->. apply HxL. right. apply elem_of_app. by left.
    + lia.
    + split; [done|]. split; [intros; lia|]. intros j Hj. rewrite Ht by (intros a Ha ->; by apply HxL; right).
      apply lane_frame with m; [|apply (sk_lanes _ _ _ Hs); lia]. intros b Hb. unfold fwd, m0. rewrite lookup_insert_ne; [done|]. intros <-. apply HxL.
      apply elem_of_cons in Hb as [->|Hb]; [by left|]. right. by eapply tall_sub.
    + lia.
    + change (Z.of_nat 0) with 0 in El. rewrite El. cbn [bind]. eexists. split; [done|].
      destruct (inserted_ok m lvl L1 L2 r x nl m' Hs H1 H3 Hx H0 ltac:(lia) Hd) as (Hs' & Hrx & Hr').
      exists (Nat.max lvl nl), (L1 ++ x :: L2). split_and!; [done..|]. cbn [gr_nodes]. apply set_eq. intros a.
      rewrite elem_of_union, elem_of_singleton, !elem_of_list_to_set, !list_elem_of_fmap. split.
      * intros [->|(b & -> & Hb)]; [exists x; split; [done|]; apply elem_of_app; right; by left|]. exists b. split; [by rewrite Hr'|].
        apply elem_of_app in Hb as [Hb|Hb]; apply elem_of_app; [by left|right; by right].
      * intros (b & -> & Hb). apply elem_of_app in Hb as [Hb|[->|Hb]%elem_of_cons]; [|by left|]; right; exists b; (split; [rewrite Hr'; [done|]|]); apply elem_of_app; auto.
Qed.

(** * Removal *)

Lemma unlink_loop m update x lvl L1 L2 i m' k :
  NoDup (caml_global_roots :: L1 ++ x :: L2) -> x <> 0 -> (lvl < 17)%nat ->
  (forall i, (i <= lvl)%nat -> update !! i = Some (end_of caml_global_roots (tall m i L1))) ->
  (i <= S lvl)%nat -> half_done m m' i (L1 ++ x :: L2) (L1 ++ L2) -> (S lvl - i < k)%nat ->
  exists m'', loop k (unlink_step update x (Z.of_nat lvl)) (Z.of_nat i, m') = Ok m'' /\ half_done m m'' (S lvl) (L1 ++ x :: L2) (L1 ++ L2).
Proof.
  intros Hnd H0 Hlvl Hup. revert i m'. induction k as [|k IH]; intros i m' Hi (Hs & Hlo & Hhi) Hk; [lia|]. cbn [loop]. unfold unlink_step at 1.
  destruct (decide (i = S lvl)) as [->|Hne].
  - rewrite (proj2 (Z.leb_gt _ _)) by lia. cbn [bind]. exists m'. by split.
  - rewrite (proj2 (Z.leb_le _ _)) by lia. rewrite Nat2Z.id, Hup by lia. cbn [lift bind]. set (u := end_of _ _).
    pose proof (Hhi i ltac:(lia)) as Hl. pose proof (tall_nodup m i _ _ Hnd) as Hnd'. rewrite tall_app in Hl, Hnd'.
    pose proof (lane_suffix _ _ _ _ _ Hl) as Hl2. fold u in Hl2. unfold tall in Hl2. rewrite filter_cons in Hl2.
    replace (Z.of_nat i + 1) with (Z.of_nat (S i)) by lia.
    destruct (decide (i < height m x)%nat) as [Hx|Hx].
    + destruct Hl2 as (Eu & _ & Hl2). rewrite (forward_ok _ _ _ _ Eu). cbn [bind]. rewrite Z.eqb_refl. pose proof (lane_head _ _ _ _ Hl2) as Ex.
      rewrite (forward_ok _ _ _ _ Ex). cbn [bind]. destruct (set_forward_ok m' u i (match tall m i L2 with [] => 0 | a :: _ => a end)) as (m1 & E1 & Hs1 & Eu1 & Hf1); [by rewrite Eu|].
      unfold tall in E1. rewrite E1. cbn [bind]. apply IH; [lia| |lia]. split; [by eapply same_shape_trans|].
      assert (forall b j, j <> i -> fwd m1 b j = fwd m' b j) as Hoth by (intros b j Hj; by rewrite Hf1 by auto). split.
      * intros j Hj. destruct (decide (j = i)) as [->|Hji]; [|apply (lane_other m' m1 i j); [done..|]; apply Hlo; lia]. rewrite tall_app.
        unfold tall at 2 in Hl. unfold tall at 2 in Hnd'. rewrite filter_cons, decide_True in Hl, Hnd' by done.
        eapply lane_remove; [exact Hl|exact Hnd'|by rewrite Ex; exact Eu1|]. intros b Hb. apply Hf1. by left.
      * intros j Hj. apply (lane_other m' m1 i j); [done|lia|]. apply Hhi. lia.
    + pose proof (lane_head _ _ _ _ Hl2) as Eu. rewrite (forward_ok _ _ _ _ Eu). cbn [bind]. rewrite (proj2 (Z.eqb_neq _ _)).
      * apply IH; [lia| |lia]. split; [done|]. split; [|intros j Hj; apply Hhi; lia]. intros j Hj. destruct (decide (j = i)) as [->|Hji]; [|apply Hlo; lia].
        rewrite tall_app. unfold tall at 2 in Hl. by rewrite filter_cons, decide_False in Hl by done.
      * fold (tall m i L2). destruct (tall m i L2) as [|b l] eqn:El; [done|]. intros ->. apply NoDup_cons in Hnd as [_ Hnd]. apply NoDup_app in Hnd as (_ & _ & Hnd).
        apply NoDup_cons in Hnd as [Hx2 _]. apply Hx2. apply (tall_sub m i). rewrite El. by left.
Qed.

(** The level comes down to the tallest node that is left. *)
Lemma lower_loop m L lvl k :
  (forall i, (i < 17)%nat -> lane m i caml_global_roots (tall m i L)) -> Forall (fun a => (0 < height m a <= S lvl)%nat) L -> (lvl < 17)%nat -> (lvl < k)%nat ->
  exists lvl', loop k (lower_step m) (Z.of_nat lvl) = Ok (Z.of_nat lvl') /\ (lvl' <= lvl)%nat /\ Forall (fun a => (0 < height m a <= S lvl')%nat) L /\
    (lvl' = 0%nat \/ Exists (fun a => height m a = S lvl') L).
Proof.
  intros Hla. revert lvl. induction k as [|k IH]; intros lvl Hh Hl Hk; [lia|]. cbn [loop]. unfold lower_step at 1. destruct lvl as [|lvl].
  - cbn. exists 0%nat. split_and!; [done|lia|done|by left].
  - rewrite (proj2 (Z.ltb_lt _ _)) by lia. pose proof (Hla (S lvl) Hl) as Hlane. rewrite (forward_ok _ _ _ _ (lane_head _ _ _ _ Hlane)). cbn [bind].
    destruct (tall m (S lvl) L) as [|a l] eqn:Et; cbn [bind].
    + rewrite Z.eqb_refl. cbn [bind]. replace (Z.of_nat (S lvl) - 1) with (Z.of_nat lvl) by lia. destruct (IH lvl) as (lvl' & -> & ? & ? & ?); [|lia|lia|exists lvl'; split_and!; (done || lia)].
      rewrite Forall_forall in *. intros a Ha. specialize (Hh a Ha). destruct (decide (height m a = S (S lvl))); [|lia].
      assert (a ∈ tall m (S lvl) L) as Hin by (apply list_elem_of_filter; split; [lia|done]). rewrite Et in Hin. by apply not_elem_of_nil in Hin.
    + destruct Hlane as (_ & Ha & _). rewrite (proj2 (Z.eqb_neq _ _)) by done. cbn [bind]. exists (S lvl). split_and!; [done|lia|done|].
      right. apply Exists_exists. assert (a ∈ tall m (S lvl) L) as Hin by (rewrite Et; by left). apply list_elem_of_filter in Hin as [Hta Hin].
      exists a. split; [done|]. rewrite Forall_forall in Hh. specialize (Hh a Hin). lia.
Qed.

(** The skip list without a node, up to its level. *)
Lemma deleted_ok m lvl L1 L2 x m' :
  skiplist m lvl (L1 ++ x :: L2) -> half_done m m' (S lvl) (L1 ++ x :: L2) (L1 ++ L2) ->
  let m2 := delete x m' in
  (forall a, a ∈ caml_global_roots :: L1 ++ L2 -> root_of m2 a = root_of m a) /\
  Forall (fun a => (0 < height m2 a <= S lvl)%nat) (L1 ++ L2) /\
  (forall i, (i < 17)%nat -> lane m2 i caml_global_roots (tall m2 i (L1 ++ L2))) /\
  forall lvl', (lvl' < 17)%nat -> Forall (fun a => (0 < height m2 a <= S lvl')%nat) (L1 ++ L2) ->
    lvl' = 0%nat \/ Exists (fun a => height m2 a = S lvl') (L1 ++ L2) -> skiplist m2 lvl' (L1 ++ L2).
Proof.
  intros [Hnd Hso Hno Hhd Hhe Hla Hlvl _] (Hsh & Hlo & Hhi) m2.
  rewrite <- Permutation_middle, (Permutation_swap x caml_global_roots) in Hnd. apply NoDup_cons in Hnd as [HxL Hnd].
  assert (forall a, a ∈ caml_global_roots :: L1 ++ L2 -> a <> x) as Hne by (by intros a Ha ->).
  assert (forall a, a <> x -> height m2 a = height m a) as Hhx.
  { intros a Ha. rewrite <- (same_shape_height m m') by done. unfold height, m2. by rewrite lookup_delete_ne. }
  assert (forall a, a <> x -> root_of m2 a = root_of m a) as Hrx.
  { intros a Ha. rewrite <- (same_shape_root m m') by done. unfold root_of, m2. by rewrite lookup_delete_ne. }
  rewrite <- Permutation_middle in Hhe. apply Forall_cons in Hhe as [Hhx0 Hhe].
  assert (forall i, (i < 17)%nat -> lane m2 i caml_global_roots (tall m2 i (L1 ++ L2))) as Hla2.
  { intros i Hi. rewrite (tall_ext m m2) by (intros a Ha; apply Hhx, Hne; by right). apply lane_frame with m'.
    - intros b Hb. unfold fwd, m2. rewrite lookup_delete_ne; [done|]. intros <-. apply HxL. apply elem_of_cons in Hb as [->|Hb]; [by left|right; by eapply tall_sub].
    - destruct (decide (i < S lvl)%nat); [by apply Hlo|]. specialize (Hhi i ltac:(lia)).
      rewrite (tall_none _ _ _ lvl) in Hhi; [|rewrite <- Permutation_middle; by constructor|lia]. by rewrite (tall_none _ _ _ lvl) by (done || lia). }
  split_and!.
  - intros a Ha. by apply Hrx, Hne.
  - rewrite Forall_forall in *. intros a Ha. rewrite Hhx by (apply Hne; by right). by apply Hhe.
  - done.
  - intros lvl' Hl' Hh' Ht'. split; try done.
    + rewrite fmap_app in Hso. rewrite (list_fmap_ext (root_of m2) (root_of m)).
      * rewrite fmap_app. clear -Hso. induction L1 as [|a L1 IH]; cbn in *; apply StronglySorted_inv in Hso as [Hso Ha]; [done|].
        constructor; [by apply IH|]. apply Forall_app in Ha as [? Ha]. apply Forall_cons in Ha as [_ ?]. by apply Forall_app.
      * intros i a Ha. apply Hrx, Hne. right. by eapply list_elem_of_lookup_2.
    + intros a. unfold m2. destruct (decide (a = x)) as [->|Hax].
      * rewrite lookup_delete_eq. split; [by intros [??]|done].
      * rewrite lookup_delete_ne by done. rewrite (same_shape_some m) by done. rewrite Hno, <- Permutation_middle, (Permutation_swap x caml_global_roots), elem_of_cons. naive_solver.
    + rewrite Hhx; [done|]. apply Hne. by left.
Qed.

Lemma remove_ok st S r : holds_roots st S -> exists st', caml_remove_global_root r st = Ok st' /\ holds_roots st' (S ∖ {[ r ]}).
Proof.
  intros (lvl & L & Hlv & Hs & ->). set (m := gr_nodes st) in *. destruct (split_at m lvl L r Hs) as (L1 & L2 & -> & H1 & H2).
  unfold caml_remove_global_root. fold m. destruct (find_place_ok st lvl L1 L2 r Hlv Hs H1 H2) as (update & -> & Hul & Hup). cbn [bind].
  assert (forall a, a ∈ L1 -> root_of m a <> r) as Hne1.
  { intros a Ha. rewrite Forall_forall in H1. destruct (H1 a Ha) as (n & En & ?). unfold root_of. rewrite En. lia. }
  destruct (is_at_ok m lvl L1 L2 r Hs H2) as (x & -> & Hat). cbn [bind]. destruct Hat as [[-> (L2' & -> & Er)]|[-> H3]]; cbn [bind].
  - rewrite Hlv. pose proof (sk_level _ _ _ Hs) as Hlvl. assert (x <> 0) as H0.
    { pose proof (sk_lanes _ _ _ Hs 0%nat ltac:(lia)) as Hla. rewrite (tall_all m _ lvl) in Hla by apply (sk_heights _ _ _ Hs).
      apply lane_suffix in Hla. by destruct Hla as (_ & ? & _). }
    destruct (unlink_loop m update x lvl L1 L2' 0 m (2 + Z.to_nat (Z.of_nat lvl)) (sk_nodup _ _ _ Hs) H0 Hlvl Hup) as (m' & El & Hd); [lia| |lia|].
    { split; [done|]. split; [intros; lia|]. intros j Hj. apply (sk_lanes _ _ _ Hs). lia. }
    change (Z.of_nat 0) with 0 in El. rewrite El. cbn [bind]. destruct (deleted_ok m lvl L1 L2' x m' Hs Hd) as (Hr2 & Hhe2 & Hla2 & Hsk).
    destruct (lower_loop (delete x m') (L1 ++ L2') lvl (2 + Z.to_nat (Z.of_nat lvl)) Hla2 Hhe2 Hlvl) as (lvl' & -> & Hle & Hhe3 & Hti3); [lia|].
    cbn [bind]. eexists. split; [done|]. exists lvl', (L1 ++ L2'). split; [done|]. cbn [gr_nodes]. split; [apply Hsk; (done || lia)|].
    apply set_eq. intros a. rewrite elem_of_difference, elem_of_singleton, !elem_of_list_to_set, !list_elem_of_fmap. split.
    + intros [(b & -> & Hb) Har]. exists b. assert (b ∈ L1 ++ L2') as Hb' by (apply elem_of_app in Hb as [?|[->|?]%elem_of_cons]; [| done|]; apply elem_of_app; auto).
      split; [|done]. symmetry. apply Hr2. by right.
    + intros (b & -> & Hb). rewrite Hr2 by (by right). pose proof (sk_sorted _ _ _ Hs) as Hso. apply elem_of_app in Hb as [Hb|Hb].
      * split; [exists b; split; [done|]; apply elem_of_app; by left|by apply Hne1].
      * split; [exists b; split; [done|]; apply elem_of_app; right; by right|]. rewrite fmap_app in Hso. apply StronglySorted_app_1_r in Hso. cbn in Hso.
        apply StronglySorted_inv in Hso as [_ Hso]. rewrite Forall_forall in Hso. specialize (Hso _ (list_elem_of_fmap_2 (root_of m) _ _ Hb)). lia.
  - exists st. split; [done|]. exists lvl, (L1 ++ L2). split_and!; [done..|]. fold m. apply set_eq. intros a.
    rewrite elem_of_difference, elem_of_singleton. split; [by intros [? _]|]. intros Ha. split; [done|]. intros ->.
    apply elem_of_list_to_set, list_elem_of_fmap in Ha as (b & Eb & Hb). apply elem_of_app in Hb as [Hb|Hb]; [by apply (Hne1 b)|].
    rewrite Forall_forall in H3. specialize (H3 b Hb). lia.
Qed.

(** * The scan *)

Lemma scan_loop m e l seen k :
  lane m 0 e l -> (forall a, a ∈ l -> is_Some (m !! a)) -> (length l < k)%nat ->
  loop k (scan_step m) (match l with [] => 0 | a :: _ => a end, seen) = Ok (seen ++ (root_of m <$> l)).
Proof.
  revert e l seen. induction k as [|k IH]; intros e l seen Hl Hn Hk; [lia|]. cbn [loop]. unfold scan_step at 1. destruct l as [|a l].
  - cbn. by rewrite app_nil_r.
  - destruct Hl as (_ & Ha & Hl). rewrite (proj2 (Z.eqb_neq _ _)) by done. destruct (Hn a) as [n En]; [by left|].
    unfold root_at at 1. rewrite En. cbn [fmap option_fmap option_map lift bind]. change 0 with (Z.of_nat 0) at 1. rewrite (forward_ok _ _ _ _ (lane_head _ _ _ _ Hl)).
    cbn [bind]. rewrite (IH a l).
    + cbn. rewrite <- app_assoc. unfold root_of at 2. by rewrite En.
    + done.
    + intros b Hb. apply Hn. by right.
    + cbn in Hk. lia.
Qed.

Lemma scan_ok st S : holds_roots st S ->
  exists rs, scan_global_roots st = Ok rs /\ StronglySorted Z.lt rs /\ list_to_set rs = S.
Proof.
  intros (lvl & L & _ & Hs & ->). unfold scan_global_roots. set (m := gr_nodes st) in *.
  pose proof (sk_lanes _ _ _ Hs 0%nat ltac:(lia)) as Hl. rewrite (tall_all m _ lvl) in Hl by apply (sk_heights _ _ _ Hs).
  change 0 with (Z.of_nat 0) at 1. rewrite (forward_ok _ _ _ _ (lane_head _ _ _ _ Hl)). cbn [bind]. rewrite (scan_loop m caml_global_roots L).
  - eexists. split; [done|]. split; [apply (sk_sorted _ _ _ Hs)|done].
  - done.
  - intros a Ha. apply (sk_nodes _ _ _ Hs). by right.
  - rewrite (skiplist_size _ _ _ Hs). lia.
Qed.

(** * The set of roots *)

Inductive root_op : Type := Register (r : Z) | Remove (r : Z).
(** What an operation means. *)
Definition root_effect (o : root_op) (S : gset Z) : gset Z := match o with Register r => {[ r ]} ∪ S | Remove r => S ∖ {[ r ]} end.

Section Run.
Variable caml_stat_alloc : gmap Z global_root -> Z.

Definition run_op (st : res root_state) (o : root_op) : res root_state :=
  s <- st;
  match o with Register r => caml_register_global_root caml_stat_alloc r s | Remove r => caml_remove_global_root r s end.
Definition run_ops (os : list root_op) : res root_state := foldl run_op (Ok no_roots) os.

Lemma no_roots_hold : holds_roots no_roots ∅.
Proof.
  exists 0%nat, []. split; [done|]. split; [|done]. split; try done.
  - apply NoDup_singleton.
  - constructor.
  - intros a. unfold no_roots. cbn [gr_nodes]. rewrite lookup_singleton_is_Some, list_elem_of_singleton. done.
  - intros i Hi. cbn. do 17 (destruct i as [|i]; [done|]). lia.
  - lia.
  - by left.
Qed.

(** C28: The skip list of global roots implements a set.  After any sequence of
    registrations and removals from the empty list, whatever levels the
    generator gave, no operation having read outside a node or run on, the scan
    of the collector visits exactly the roots registered and not removed since,
    each one once, in order of address. *)
Theorem global_roots_refine (os : list root_op) :
  fresh_blocks caml_stat_alloc ->
  exists st rs, run_ops os = Ok st /\ scan_global_roots st = Ok rs /\ StronglySorted Z.lt rs /\
    list_to_set rs = foldl (fun S o => root_effect o S) (∅ : gset Z) os.
Proof.
  intros Hf. assert (exists st, run_ops os = Ok st /\ holds_roots st (foldl (fun S o => root_effect o S) ∅ os)) as (st & E & H).
  { unfold run_ops. generalize no_roots_hold. generalize no_roots. generalize (∅ : gset Z).
    induction os as [|o os IH]; intros S st H; cbn [foldl]; [by exists st|]. unfold run_op at 2. cbn [bind]. destruct o as [r|r].
    - destruct (register_ok caml_stat_alloc st S r Hf H) as (st' & -> & H'). by apply IH.
    - destruct (remove_ok st S r H) as (st' & -> & H'). by apply IH. }
  destruct (scan_ok st _ H) as (rs & Er & Hso & Hset). by exists st, rs.
Qed.
End Run.

(** An allocator that never reuses a block. *)
Definition next_block m : Z := map_fold (fun k _ acc => Z.max k acc) 0 m + 8.
Lemma next_block_fresh : fresh_blocks next_block.
Proof.
  intros m. unfold next_block.
  assert ((forall a n, m !! a = Some n -> a <= map_fold (fun k _ acc => Z.max k acc) 0 m) /\ 0 <= map_fold (fun k _ acc => Z.max k acc) 0 m) as [Hb H0].
  { apply (map_fold_weak_ind (fun acc m => (forall a n, m !! a = Some n -> a <= acc) /\ 0 <= acc)); [done|].
    intros k us m' acc _ [IH H0]. split; [|lia]. intros a n E.
    destruct (decide (k = a)) as [->|Hne]; [lia|]. rewrite lookup_insert_ne in E by done. specialize (IH a n E). lia. }
  split; [|lia]. destruct (m !! _) as [n|] eqn:E; [|done]. specialize (Hb _ _ E). lia.
Qed.

Definition sample_ops : list root_op := [Register 400; Register 100; Register 300; Register 100; Remove 400; Register 200; Remove 500].

Example sample_scan : (st <- run_ops next_block sample_ops; scan_global_roots st) = Ok [100; 200; 300].
Proof. vm_compute. reflexivity. Qed.

Lemma global_roots_refine_witness :
  exists st rs, run_ops next_block sample_ops = Ok st /\ scan_global_roots st = Ok rs /\ list_to_set rs = ({[ 100; 200; 300 ]} : gset Z).
Proof.
  destruct (global_roots_refine next_block sample_ops next_block_fresh) as (st & rs & E & Es & _ & Hset). exists st, rs. split; [exact E|]. split; [exact Es|].
  rewrite Hset. vm_compute. reflexivity.
Defined.
