(* ===== verification/CamlTables.v ===== *)
(** The tables of 16-bit numbers that the OCaml lexing and parsing engines
    read ([Short] in lexing.c and parsing.c, on a little-endian machine), and
    arrays with the accesses outside them as errors. *)
From stdpp Require Import base list.
From Stdlib Require Import ZArith Lia.
From S2P Require Import Prelude.
Open Scope Z_scope.

Definition outside : string := "access outside an array".

(** [t[n]], for an index of type int. *)
Definition index {A} (t : list A) (n : Z) : res A :=
  if n <? 0 then Err outside else lift (t !! Z.to_nat n) outside.
Definition Short (tbl : list Z) (n : Z) : res Z := index tbl n.
(** [t[n] = x] *)
Definition update {A} (t : list A) (n : Z) (x : A) : res (list A) :=
  if (n <? 0) || (Z.of_nat (length t) <=? n) then Err outside else Ok (<[Z.to_nat n := x]> t).

Lemma index_ends {A} (t : list A) n : index t n <> Timeout.
Proof. unfold index. destruct (n <? 0); [done|]. by destruct (t !! _). Qed.
Lemma update_ends {A} (t : list A) n x : update t n x <> Timeout.
Proof. unfold update. by destruct (_ || _). Qed.
Lemma index_update {A} (t t' : list A) n x : update t n x = Ok t' -> 0 <= n < Z.of_nat (length t) /\ t' = <[Z.to_nat n := x]> t.
Proof. unfold update. destruct (_ || _) eqn:E; [done|]. intros [= <-]. zbool. split; [lia|done]. Qed.
