(* ===== verification/CamlLexing.v ===== *)
(** The lexing engines of OCaml (ocaml/byterun/lexing.c): the table-driven
    automata that ocamllex generates tables for.

    An OCaml integer is a [Z], a string a list of bytes, a table of 16-bit
    numbers a list of [Z] ([Short] reads it).  An access outside a table, the
    buffer or the memory is an error.  [lex_buffer_len] and the positions are
    OCaml integers; the comparisons of the source on tagged values are the
    comparisons of the integers. *)
From stdpp Require Import base list.
From Stdlib Require Import ZArith Lia.
From S2P Require Import Prelude CamlTables.
Open Scope Z_scope.

(** The fields the engines use; the others are for the ML code. *)
Record lexer_buffer := mkLexbuf {
  lex_buffer : bytes;
  lex_buffer_len : Z;
  lex_start_pos : Z;
  lex_curr_pos : Z;
  lex_last_pos : Z;
  lex_last_action : Z;
  lex_eof_reached : bool;
  lex_mem : list Z
}.

Record lexing_table := mkTable {
  lex_base : list Z;
  lex_backtrk : list Z;
  lex_default : list Z;
  lex_trans : list Z;
  lex_check : list Z;
  lex_base_code : list Z;
  lex_backtrk_code : list Z;
  lex_default_code : list Z;
  lex_trans_code : list Z;
  lex_check_code : list Z;
  lex_code : bytes
}.

Definition empty_token : string := "lexing: empty token".

Implicit Types (lb : lexer_buffer).
Definition set_first lb : lexer_buffer :=
  mkLexbuf (lex_buffer lb) (lex_buffer_len lb) (lex_curr_pos lb) (lex_curr_pos lb) (lex_curr_pos lb) (-1) (lex_eof_reached lb) (lex_mem lb).
Definition set_last lb (action : Z) : lexer_buffer :=
  mkLexbuf (lex_buffer lb) (lex_buffer_len lb) (lex_start_pos lb) (lex_curr_pos lb) (lex_curr_pos lb) action (lex_eof_reached lb) (lex_mem lb).
Definition set_curr lb (pos : Z) : lexer_buffer :=
  mkLexbuf (lex_buffer lb) (lex_buffer_len lb) (lex_start_pos lb) pos (lex_last_pos lb) (lex_last_action lb) (lex_eof_reached lb) (lex_mem lb).
Definition clear_eof lb : lexer_buffer :=
  mkLexbuf (lex_buffer lb) (lex_buffer_len lb) (lex_start_pos lb) (lex_curr_pos lb) (lex_last_pos lb) (lex_last_action lb) false (lex_mem lb).
Definition set_mem lb (m : list Z) : lexer_buffer :=
  mkLexbuf (lex_buffer lb) (lex_buffer_len lb) (lex_start_pos lb) (lex_curr_pos lb) (lex_last_pos lb) (lex_last_action lb) (lex_eof_reached lb) m.

(** Both engines start alike: first entry, or reentry after a refill. *)
Definition enter (start_state : Z) lb : Z * lexer_buffer :=
  if 0 <=? start_state then (start_state, set_first lb) else (- start_state - 1, lb).

Section Engine.
Variable tbl : lexing_table.

(** The next input symbol: [None] when a refill is needed. *)
Definition next_char lb : res (option (Z * lexer_buffer)) :=
  if lex_buffer_len lb <=? lex_curr_pos lb then
    if negb (lex_eof_reached lb) then Ok None else Ok (Some (256, lb))
  else
    c <- index (lex_buffer lb) (lex_curr_pos lb);
    Ok (Some (c, set_curr lb (lex_curr_pos lb + 1))).

Definition next_state (state base c : Z) : res Z :=
  k <- Short (lex_check tbl) (base + c);
  if k =? state then Short (lex_trans tbl) (base + c) else Short (lex_default tbl) state.

(** No transition: back to the last backtrack point. *)
Definition backtrack lb : res (Z * lexer_buffer) :=
  let lb := set_curr lb (lex_last_pos lb) in
  if lex_last_action lb =? -1 then Err empty_token else Ok (lex_last_action lb, lb).

Definition lex_step (s : Z * lexer_buffer) : res (Z * lexer_buffer + Z * lexer_buffer) :=
  let '(state, lb) := s in
  base <- Short (lex_base tbl) state;
  if base <? 0 then Ok (inr (- base - 1, lb))
  else
    backtrk <- Short (lex_backtrk tbl) state;
    let lb := if 0 <=? backtrk then set_last lb backtrk else lb in
    n <- next_char lb;
    match n with
    | None => Ok (inr (- state - 1, lb))
    | Some (c, lb) =>
        state <- next_state state base c;
        if state <? 0 then r <- backtrack lb; Ok (inr r)
        else Ok (inl (state, if c =? 256 then clear_eof lb else lb))
    end.

Definition caml_lex_engine (fuel : nat) (start_state : Z) lb : res (Z * lexer_buffer) :=
  loop fuel lex_step (enter start_state lb).

(** ** The engine with a memory of positions *)

(** Both interpreters of memory instructions; [v] is what the source 255
    stands for: the current position (run_mem), or -1 (run_tag). *)
Fixpoint run_code (pc : bytes) (mem : list Z) (v : Z) : res (list Z) :=
  match pc with
  | [] => Err outside
  | dst :: pc =>
      if dst =? 255 then Ok mem
      else match pc with
           | [] => Err outside
           | src :: pc =>
               x <- (if src =? 255 then Ok v else index mem src);
               mem <- update mem dst x;
               run_code pc mem v
           end
  end.
Definition at_offset (pc_off : Z) : res bytes :=
  if pc_off <? 0 then Err outside else Ok (drop (Z.to_nat pc_off) (lex_code tbl)).
Definition run_mem (pc_off : Z) (mem : list Z) (curr_pos : Z) : res (list Z) :=
  pc <- at_offset pc_off; run_code pc mem curr_pos.
Definition run_tag (pc_off : Z) (mem : list Z) : res (list Z) :=
  pc <- at_offset pc_off; run_code pc mem (-1).

(** The memory moves on the transition of [pstate] by [c]. *)
Definition moves (pstate c : Z) lb : res lexer_buffer :=
  base_code <- Short (lex_base_code tbl) pstate;
  k <- Short (lex_check_code tbl) (base_code + c);
  pc_off <- (if k =? pstate then Short (lex_trans_code tbl) (base_code + c) else Short (lex_default_code tbl) pstate);
  if 0 <? pc_off then m <- run_mem pc_off (lex_mem lb) (lex_curr_pos lb); Ok (set_mem lb m) else Ok lb.

Definition new_lex_step (s : Z * lexer_buffer) : res (Z * lexer_buffer + Z * lexer_buffer) :=
  let '(state, lb) := s in
  base <- Short (lex_base tbl) state;
  if base <? 0 then
    pc_off <- Short (lex_base_code tbl) state;
    m <- run_tag pc_off (lex_mem lb);
    Ok (inr (- base - 1, set_mem lb m))
  else
    backtrk <- Short (lex_backtrk tbl) state;
    lb <- (if 0 <=? backtrk then
             pc_off <- Short (lex_backtrk_code tbl) state;
             m <- run_tag pc_off (lex_mem lb);
             Ok (set_last (set_mem lb m) backtrk)
           else Ok lb);
    n <- next_char lb;
    match n with
    | None => Ok (inr (- state - 1, lb))
    | Some (c, lb) =>
        let pstate := state in
        state <- next_state state base c;
        if state <? 0 then r <- backtrack lb; Ok (inr r)
        else
          lb <- moves pstate c lb;
          Ok (inl (state, if c =? 256 then clear_eof lb else lb))
    end.

Definition caml_new_lex_engine (fuel : nat) (start_state : Z) lb : res (Z * lexer_buffer) :=
  loop fuel new_lex_step (enter start_state lb).
End Engine.
