(* ===== verification/CamlLexingSpec.v ===== *)
(** The lexing engines of OCaml: the automaton of the tables, longest match,
    refills, and the engine with a memory against the one without. *)
From stdpp Require Import base list numbers.
From Stdlib Require Import ZArith Lia.
From S2P Require Import Prelude CamlTables CamlLexing.
Open Scope Z_scope.

Section Automaton.
Variable tbl : lexing_table.
Implicit Types (lb : lexer_buffer) (w u : list Z).

(** * The automaton *)

(** The tables have [n] states, and no access leaves them. *)
Definition state_ok (n s : Z) : bool :=
  match Short (lex_base tbl) s with
  | Ok b =>
      if b <? 0 then true
      else match Short (lex_backtrk tbl) s with
           | Ok _ => forallb (fun c => match next_state tbl s b c with Ok s' => s' <? n | _ => false end) (seqZ 0 257)
           | _ => false
           end
  | _ => false
  end.
Definition tables_ok (n : Z) : bool := forallb (state_ok n) (seqZ 0 n).

Definition accepts (s a : Z) : Prop :=
  exists b, Short (lex_base tbl) s = Ok b /\ (b < 0 /\ a = - b - 1 \/ 0 <= b /\ 0 <= a /\ Short (lex_backtrk tbl) s = Ok a).
Definition trans (s c s' : Z) : Prop :=
  exists b, Short (lex_base tbl) s = Ok b /\ 0 <= b /\ next_state tbl s b c = Ok s' /\ 0 <= s'.

Inductive path (s0 : Z) : list Z -> Z -> Prop :=
  | path_nil : path s0 [] s0
  | path_snoc w s c s' : path s0 w s -> trans s c s' -> path s0 (w ++ [c]) s'.

Definition recognized (s0 : Z) w (a : Z) : Prop := exists s, path s0 w s /\ accepts s a.

Lemma trans_det s c s1 s2 : trans s c s1 -> trans s c s2 -> s1 = s2.
Proof. intros (b & E1 & _ & E2 & _) (b' & E1' & _ & E2' & _). congruence. Qed.
Lemma accepts_det s a1 a2 : accepts s a1 -> accepts s a2 -> a1 = a2.
Proof.
  intros (b & E1 & H1) (b' & E1' & H2). assert (b' = b) as -> by congruence.
  destruct H1 as [[? ->]|(? & ? & ?)], H2 as [[? ->]|(? & ? & ?)]; lia || congruence.
Qed.
Lemma accepts_nonneg s a : accepts s a -> 0 <= a.
Proof. intros (b & _ & [[? ->]|(? & ? & _)]); lia. Qed.

Lemma path_snoc_inv s0 w c s : path s0 (w ++ [c]) s -> exists s1, path s0 w s1 /\ trans s1 c s.
Proof.
  intros H. inversion H as [E|w' s1 c' s' Hp Ht E]; [by destruct w|]. apply app_inj_2 in E as [-> [= ->]]; [|done]. eauto.
Qed.
Lemma path_det s0 w s1 s2 : path s0 w s1 -> path s0 w s2 -> s1 = s2.
Proof.
  revert s1 s2. induction w as [|c w IH] using rev_ind; intros s1 s2 H1 H2.
  - assert (forall s, path s0 [] s -> s = s0) as Hn by (intros s Hs; inversion Hs as [|w ? ? ? _ _ E]; [done|by destruct w]).
    by rewrite (Hn _ H1), (Hn _ H2).
  - apply path_snoc_inv in H1 as (t1 & Hp1 & Ht1), H2 as (t2 & Hp2 & Ht2).
    assert (t2 = t1) as -> by eauto. by eapply trans_det.
Qed.
Lemma path_prefix s0 w v s : path s0 (w ++ v) s -> exists s1, path s0 w s1.
Proof.
  revert s. induction v as [|c v IH] using rev_ind; intros s; [rewrite app_nil_r; eauto|].
  rewrite app_assoc. intros (s1 & H & _)%path_snoc_inv. eauto.
Qed.

(** When the automaton is stuck after [w], nothing longer is recognized. *)
Definition stuck s0 w (c : Z) : Prop := forall s s', path s0 w s -> ~ trans s c s'.
Lemma stuck_longer s0 w c v a : stuck s0 w c -> ~ recognized s0 (w ++ c :: v) a.
Proof.
  intros Hs (s & Hp & _). change (c :: v) with ([c] ++ v) in Hp. rewrite app_assoc in Hp.
  apply path_prefix in Hp as (s1 & Hp). apply path_snoc_inv in Hp as (s2 & ? & ?). by eapply Hs.
Qed.

(** * Longest match *)

(** The characters of [w], without the end-of-file symbol 256, which the
    automaton reads without moving. *)
Definition consumed w : Z := Z.of_nat (length (filter (fun c => c <> 256) w)).

(** [w] is the longest word of [P] that is recognized, as action [a]. *)
Definition longest s0 (P : list Z -> Prop) w (a : Z) : Prop :=
  P w /\ recognized s0 w a /\ forall w' a', P w' -> (length w < length w')%nat -> ~ recognized s0 w' a'.
Definition none s0 (P : list Z -> Prop) : Prop := forall w a, P w -> ~ recognized s0 w a.

(** The backtrack point records the longest match in [P]. *)
Definition recorded s0 start (P : list Z -> Prop) lb : Prop :=
  lex_last_action lb = -1 /\ none s0 P \/
  0 <= lex_last_action lb /\ exists w, longest s0 P w (lex_last_action lb) /\ lex_last_pos lb = start + consumed w.

(** The engine has read [u] since it was at [start] in state [s0]. *)
Record running s0 start u s lb : Prop := {
  ru_path : path s0 u s;
  ru_start : lex_start_pos lb = start;
  ru_curr : lex_curr_pos lb = start + consumed u;
  ru_last : exists here, recorded s0 start (fun w => w `prefix_of` u /\ (here \/ w <> u)) lb
}.

(** What can be read before the next refill. *)
Definition input lb : list Z :=
  drop (Z.to_nat (lex_curr_pos lb)) (take (Z.to_nat (lex_buffer_len lb)) (lex_buffer lb)) ++
  (if lex_eof_reached lb then [256] else []).
Record lexbuf_ok lb : Prop := {
  lo_curr : 0 <= lex_curr_pos lb <= lex_buffer_len lb;
  lo_len : lex_buffer_len lb <= Z.of_nat (length (lex_buffer lb));
  lo_bytes : Forall is_byte (lex_buffer lb)
}.

Definition answers s0 start u (r : res (Z * lexer_buffer)) : Prop :=
  match r with
  | Ok (a, lb) =>
      (0 <= a /\ exists w, longest s0 (fun w => w `prefix_of` u) w a /\ lex_curr_pos lb = start + consumed w) \/
      (a < 0 /\ running s0 start u (- a - 1) lb /\ lexbuf_ok lb /\ input lb = [])
  | Err m => m = empty_token /\ none s0 (fun w => w `prefix_of` u)
  | Timeout => False
  end.

Lemma consumed_snoc w c : consumed (w ++ [c]) = consumed w + (if c =? 256 then 0 else 1).
Proof.
  unfold consumed. rewrite list.filter_app, length_app, Nat2Z.inj_add. f_equal.
  case_zbool (c =? 256); [rewrite filter_cons_False by lia|rewrite filter_cons_True by lia]; done.
Qed.

Lemma prefix_length_eq (w u : list Z) : w `prefix_of` u -> length w = length u -> w = u.
Proof.
  intros [v ->] E. rewrite length_app in E. destruct v; [by rewrite app_nil_r|cbn in E; lia].
Qed.

(** The record is up to date once the current state has been looked at. *)
Lemma settle s0 start u s lb a :
  running s0 start u s lb -> 0 <= a -> accepts s a ->
  recorded s0 start (fun w => w `prefix_of` u) (set_last lb a).
Proof.
  intros [Hp _ Hc _] Ha Hacc. right. split; [done|]. exists u. split; [|done]. split_and!; [done|by exists s|].
  intros w' a' Hw' Hlt. apply prefix_length in Hw'. lia.
Qed.

Lemma settle_none s0 start u s lb :
  running s0 start u s lb -> (forall a, ~ accepts s a) -> recorded s0 start (fun w => w `prefix_of` u) lb.
Proof.
  intros [Hp _ _ [here Hl]] Hna.
  assert (forall a, ~ recognized s0 u a) as Hu.
  { intros a (s' & Hp' & Ha). assert (s' = s) as -> by by eapply path_det. by eapply Hna. }
  destruct Hl as [[? Hn]|[? (w & (Hw & Hr & Hmax) & ?)]].
  - left. split; [done|]. intros w a Hw Hr. destruct (decide (w = u)) as [->|]; [by eapply Hu|]. eapply Hn; [split; [done|by right]|done].
  - right. split; [done|]. exists w. split; [|done]. split_and!; [by apply Hw|done|].
    intros w' a' Hw' Hlt Hr'. destruct (decide (w' = u)) as [->|]; [by eapply Hu|].
    eapply Hmax; [split; [done|by right]|done|done].
Qed.

Lemma recorded_ext s0 start P Q lb :
  (forall w, P w <-> Q w) -> recorded s0 start P lb -> recorded s0 start Q lb.
Proof.
  intros HPQ [[? Hn]|[? (w & (Hw & ? & Hmax) & ?)]]; [left|right]; (split; [done|]).
  - intros w a Hw. by apply Hn, HPQ.
  - exists w. split; [|done]. split_and!; [by apply HPQ|done|]. intros w' a' Hw'. by apply Hmax, HPQ.
Qed.

(** * One step of the engine *)

Definition same_last lb lb' : Prop :=
  lex_start_pos lb' = lex_start_pos lb /\ lex_last_pos lb' = lex_last_pos lb /\ lex_last_action lb' = lex_last_action lb.

Lemma next_char_ok lb :
  lexbuf_ok lb ->
  match next_char lb with
  | Ok None => input lb = []
  | Ok (Some (c, lb')) =>
      0 <= c <= 256 /\ lexbuf_ok lb' /\ same_last lb lb' /\ lex_curr_pos lb' = lex_curr_pos lb + (if c =? 256 then 0 else 1) /\
      input lb = c :: input (if c =? 256 then clear_eof lb' else lb')
  | _ => False
  end.
Proof.
  intros [[Hc1 Hc2] Hlen Hb]. unfold next_char, input. case_zbool (lex_buffer_len lb <=? lex_curr_pos lb).
  - assert (drop (Z.to_nat (lex_curr_pos lb)) (take (Z.to_nat (lex_buffer_len lb)) (lex_buffer lb)) = []) as Ed.
    { apply drop_ge. rewrite length_take. lia. }
    rewrite Ed. destruct (lex_eof_reached lb) eqn:Eeof; cbn [negb app]; [|done].
    split_and!; [lia|lia|by split|done..|cbn; lia|]. cbn [Z.eqb Pos.eqb clear_eof lex_curr_pos lex_buffer_len lex_buffer lex_eof_reached].
    by rewrite Ed.
  - unfold index. rewrite (proj2 (Z.ltb_ge _ _)) by lia.
    destruct (lookup_lt_is_Some_2 (lex_buffer lb) (Z.to_nat (lex_curr_pos lb))) as [c Ec]; [lia|]. rewrite Ec. cbn [lift bind].
    assert (is_byte c) as Hbc by (rewrite Forall_lookup in Hb; by eapply Hb). unfold is_byte in Hbc.
    assert ((c =? 256) = false) as -> by lia.
    split_and!; [lia|lia|split; cbn; done || lia|done..|].
    cbn [set_curr lex_curr_pos lex_buffer_len lex_buffer lex_eof_reached].
    erewrite (drop_S (take _ _)) by (rewrite lookup_take_lt by lia; exact Ec). by replace (Z.to_nat (lex_curr_pos lb + 1)) with (S (Z.to_nat (lex_curr_pos lb))) by lia.
Qed.

Lemma prefix_cases (w u rest : list Z) c :
  w `prefix_of` u ++ c :: rest -> w `prefix_of` u \/ exists v, w = u ++ c :: v.
Proof.
  revert w. induction u as [|x u IH]; intros [|y w] H; cbn in H; [left; apply prefix_nil| |left; apply prefix_nil|].
  - apply prefix_cons_inv_1 in H as ->. right. by exists w.
  - pose proof (prefix_cons_inv_1 _ _ _ _ H) as ->. apply prefix_cons_inv_2, IH in H as [?|[v ->]]; [left; by apply prefix_cons|right; by exists v].
Qed.

Lemma prefix_snoc_proper (w u : list Z) c : w `prefix_of` u <-> w `prefix_of` u ++ [c] /\ w <> u ++ [c].
Proof.
  split.
  - intros Hw. split; [by apply prefix_app_r|]. intros ->. apply prefix_length in Hw. rewrite length_app in Hw. cbn in Hw. lia.
  - intros [[t Et] Hne]. destruct t as [|x t _] using rev_ind; [rewrite app_nil_r in Et; congruence|].
    rewrite app_assoc in Et. apply app_inj_2 in Et as [-> _]; [|done]. by exists t.
Qed.

Lemma state_ok_inv n s :
  tables_ok n = true -> 0 <= s < n ->
  exists b, Short (lex_base tbl) s = Ok b /\ (b < 0 \/ 0 <= b /\ exists k, Short (lex_backtrk tbl) s = Ok k /\
    forall c, 0 <= c <= 256 -> exists s', next_state tbl s b c = Ok s' /\ s' < n).
Proof.
  unfold tables_ok. rewrite forallb_forall. intros Hall Hs. specialize (Hall s).
  rewrite <- list_elem_of_In, elem_of_seqZ in Hall. specialize (Hall ltac:(lia)). unfold state_ok in Hall.
  destruct (Short (lex_base tbl) s) as [b| |]; [|done..]. exists b. split; [done|]. case_zbool (b <? 0); [by left|right].
  split; [done|]. destruct (Short (lex_backtrk tbl) s) as [k| |]; [|done..]. exists k. split; [done|]. intros c Hc.
  rewrite forallb_forall in Hall. specialize (Hall c). rewrite <- list_elem_of_In, elem_of_seqZ in Hall. specialize (Hall ltac:(lia)).
  destruct (next_state tbl s b c) as [s'| |]; [|done..]. exists s'. split; [done|]. lia.
Qed.

(** No word longer than [u] is recognized when the automaton is stuck there. *)
Lemma longest_stuck s0 u c rest w a :
  stuck s0 u c -> longest s0 (fun w => w `prefix_of` u) w a -> longest s0 (fun w => w `prefix_of` u ++ c :: rest) w a.
Proof.
  intros Hs (Hw & Hr & Hmax). split_and!; [by apply prefix_app_r|done|]. intros w' a' [Hw'|[v ->]]%prefix_cases Hlt; [by eapply Hmax|].
  by apply stuck_longer.
Qed.
Lemma none_stuck s0 u c rest :
  stuck s0 u c -> none s0 (fun w => w `prefix_of` u) -> none s0 (fun w => w `prefix_of` u ++ c :: rest).
Proof. intros Hs Hn w a [Hw|[v ->]]%prefix_cases; [by apply Hn|by apply stuck_longer]. Qed.

Definition failing s0 (U : list Z) (m : string) : Prop := m = empty_token /\ none s0 (fun w => w `prefix_of` U).
Definition answer s0 start (U : list Z) (r : Z * lexer_buffer) : Prop :=
  0 <= r.1 /\ (exists w, longest s0 (fun w => w `prefix_of` U) w r.1 /\ lex_curr_pos r.2 = start + consumed w) \/
  r.1 < 0 /\ running s0 start U (- r.1 - 1) r.2 /\ lexbuf_ok r.2 /\ input r.2 = [].
Definition reading (n : Z) s0 start (U : list Z) (x : Z * lexer_buffer) : Prop :=
  0 <= x.1 < n /\ lexbuf_ok x.2 /\ exists u, running s0 start u x.1 x.2 /\ u ++ input x.2 = U.

Lemma backtrack_ok s0 start u c rest lb lb' :
  stuck s0 u c -> recorded s0 start (fun w => w `prefix_of` u) lb -> same_last lb lb' ->
  ends (failing s0 (u ++ c :: rest)) (answer s0 start (u ++ c :: rest)) (backtrack lb').
Proof.
  intros Hs Hr (_ & Ep & Ea). unfold backtrack. cbn [set_curr lex_last_action]. rewrite Ea.
  destruct Hr as [[-> Hn]|[Hpos (w & Hl & Ew)]].
  - cbn. split; [done|]. by apply none_stuck.
  - rewrite (proj2 (Z.eqb_neq _ _)) by lia. cbn. left. cbn [fst snd set_curr lex_curr_pos]. split; [done|]. exists w.
    split; [by apply longest_stuck|]. by rewrite Ep.
Qed.

Lemma final_answer s0 start u s lb b U :
  running s0 start u s lb -> Short (lex_base tbl) s = Ok b -> b < 0 -> u `prefix_of` U -> answer s0 start U (- b - 1, lb).
Proof.
  intros [Hp _ Hc _] Eb Hb Hu. left. cbn [fst snd]. split; [lia|]. exists u. split; [|done]. split_and!; [done| |].
  - exists s. split; [done|]. exists b. split; [done|]. left. lia.
  - destruct Hu as [rest ->]. intros w' a' Hw' Hlt. destruct rest as [|c rest].
    + rewrite app_nil_r in Hw'. apply prefix_length in Hw'. lia.
    + apply prefix_cases in Hw' as [Hw'|[v ->]]; [apply prefix_length in Hw'; lia|]. apply stuck_longer.
      intros s1 s' Hp1 (b' & Eb' & ? & _). assert (s1 = s) as -> by by eapply path_det. assert (b' = b) as -> by congruence. lia.
Qed.

Lemma lex_step_ok n s0 start U x :
  tables_ok n = true -> reading n s0 start U x ->
  ends (failing s0 U) (fun r => match r with
                                | inl x' => reading n s0 start U x' /\ (length (input x'.2) < length (input x.2))%nat
                                | inr r => answer s0 start U r
                                end) (lex_step tbl x).
Proof.
  destruct x as [s lb]. intros Htab (Hs & Hlb & u & Hrun & HU). cbn [fst snd] in *.
  destruct (state_ok_inv n s Htab Hs) as (b & Eb & Hcase). unfold lex_step. rewrite Eb. cbn [bind].
  destruct Hcase as [Hb|(Hb & k & Ek & Hnext)].
  { rewrite (proj2 (Z.ltb_lt _ _)) by done. cbn. eapply final_answer; [done|done|done|]. rewrite <- HU. by apply prefix_app_r. }
  rewrite (proj2 (Z.ltb_ge _ _)) by done. rewrite Ek. cbn [bind]. set (lb1 := if 0 <=? k then _ else _).
  assert (recorded s0 start (fun w => w `prefix_of` u) lb1) as Hrec.
  { unfold lb1. case_zbool (0 <=? k).
    - eapply settle; [done|done|]. exists b. split; [done|]. by right.
    - eapply settle_none; [done|]. intros a (b' & Eb' & [[? _]|(_ & ? & E')]); [assert (b' = b) as -> by congruence; lia|congruence || (rewrite Ek in E'; injection E'; lia)]. }
  assert (input lb1 = input lb /\ lexbuf_ok lb1 /\ lex_curr_pos lb1 = lex_curr_pos lb /\ lex_start_pos lb1 = lex_start_pos lb) as (Ein & Hlb1 & Ecur & Est).
  { unfold lb1. case_match; [|done]. destruct Hlb. split_and!; by try split. }
  clearbody lb1. rewrite <- Ein in *. pose proof (next_char_ok lb1 Hlb1) as Hnc.
  destruct (next_char lb1) as [[[c lb2]|]| |]; try done; cbn [bind].
  - destruct Hnc as (Hc & Hlb2 & Hsame & Ecur2 & Ein2). destruct (Hnext c Hc) as (s' & Es' & Hs'). rewrite Es'. cbn [bind].
    rewrite Ein2 in HU. case_zbool (s' <? 0).
    + assert (stuck s0 u c) as Hst.
      { intros s1 s2 Hp1 (b' & Eb' & _ & E' & ?). assert (s1 = s) as -> by (eapply path_det; [done|apply Hrun]).
        assert (b' = b) as -> by congruence. assert (s2 = s') as -> by congruence. lia. }
      pose proof (backtrack_ok s0 start u c (input (if c =? 256 then clear_eof lb2 else lb2)) lb1 lb2 Hst Hrec Hsame) as Hbt. rewrite HU in Hbt.
      eapply ends_bind; [exact Hbt|]. intros r Hr. exact Hr.
    + cbn. destruct Hsame as (E1 & E2 & E3). set (lb3 := if c =? 256 then _ else _) in *.
      assert (lexbuf_ok lb3 /\ lex_curr_pos lb3 = lex_curr_pos lb2 /\ lex_start_pos lb3 = lex_start_pos lb2 /\
              lex_last_pos lb3 = lex_last_pos lb2 /\ lex_last_action lb3 = lex_last_action lb2) as (Hlb3 & F1 & F2 & F3 & F4).
      { unfold lb3. case_match; [|done]. destruct Hlb2. split_and!; by try split. }
      clearbody lb3. split; [|rewrite Ein2; cbn; lia]. split_and!; cbn [fst snd]; [lia|done|done|]. exists (u ++ [c]).
      split; [|by rewrite <- app_assoc]. split.
      * eapply path_snoc; [apply Hrun|]. by exists b.
      * rewrite F2, E1, Est. apply Hrun.
      * rewrite F1, Ecur2, Ecur, consumed_snoc, (ru_curr _ _ _ _ _ Hrun). lia.
      * exists False. unfold recorded in *. rewrite F3, F4, E2, E3. eapply (recorded_ext s0 start (fun w => w `prefix_of` u) _ lb1) in Hrec; [exact Hrec|].
        intros w. rewrite (prefix_snoc_proper w u c). tauto.
  - rewrite Hnc, app_nil_r in HU. subst U. cbn. right. cbn [fst snd]. replace (- (- s - 1) - 1) with s by lia. split_and!; [lia| |done|done].
    destruct Hrun as [? ? ? _]. split; [done|congruence|congruence|]. exists True. eapply recorded_ext; [|exact Hrec]. intros w. tauto.
Qed.

(** A call: a first entry in [s0], or a reentry after [u] was read. *)
Definition called s0 start u (start_state : Z) lb : Prop :=
  0 <= start_state /\ s0 = start_state /\ u = [] /\ start = lex_curr_pos lb \/
  start_state < 0 /\ running s0 start u (- start_state - 1) lb.

Lemma engine_ok n s0 start u start_state lb fuel :
  tables_ok n = true -> lexbuf_ok lb -> called s0 start u start_state lb ->
  (if 0 <=? start_state then start_state else - start_state - 1) < n -> (length (input lb) < fuel)%nat ->
  ends (failing s0 (u ++ input lb)) (answer s0 start (u ++ input lb)) (caml_lex_engine tbl fuel start_state lb).
Proof.
  intros Htab Hlb Hcall Hn Hfuel. unfold caml_lex_engine.
  assert (reading n s0 start (u ++ input lb) (enter start_state lb) /\ input (enter start_state lb).2 = input lb) as [Hread Ein].
  { unfold enter. destruct Hcall as [(H0 & -> & -> & ->)|[H0 Hrun]].
    - rewrite (proj2 (Z.leb_le _ _)) in * by done. split; [|done]. split_and!; [done|done| |].
      + destruct Hlb. by split.
      + exists []. split; [|done]. split; [apply path_nil|done|unfold consumed; cbn; lia|]. exists False. left. split; [done|].
        intros w a [[v Ev] [[]|Hne]]. destruct w; [by destruct Hne|done].
    - rewrite (proj2 (Z.leb_gt _ _)) in * by done. split; [|done]. split_and!; [cbn; lia|done|done|]. by exists u. }
  apply (ends_loop _ (reading n s0 start (u ++ input lb)) (fun x => length (input x.2))); [|done|by rewrite Ein].
  intros x Hx. by apply (lex_step_ok n).
Qed.
End Automaton.

(** * Refills *)

Lemma loop_more {S R : Type} (body : S -> res (S + R)) n n' s :
  (n <= n')%nat -> loop n body s <> Timeout -> loop n' body s = loop n body s.
Proof.
  revert n' s. induction n as [|n IH]; intros n' s Hn; cbn; [done|]. destruct n' as [|n']; [lia|]. cbn.
  destruct (body s) as [[s'|r']| |]; cbn; try done. intros ?. apply IH; [lia|done].
Qed.

(** What the ML code does between two calls: [new] is appended to the contents
    of the buffer. *)
Definition refilled (new : bytes) (eof : bool) (lb : lexer_buffer) : lexer_buffer :=
  mkLexbuf (take (Z.to_nat (lex_buffer_len lb)) (lex_buffer lb) ++ new) (lex_buffer_len lb + Z.of_nat (length new))
    (lex_start_pos lb) (lex_curr_pos lb) (lex_last_pos lb) (lex_last_action lb) eof (lex_mem lb).

Section Refill.
Variable tbl : lexing_table.
Variables (new : bytes) (eof : bool).
Implicit Types (lb : lexer_buffer).
Local Abbreviation refill := (refilled new eof).

Lemma next_char_refill lb c lb' :
  lexbuf_ok lb -> lex_eof_reached lb = false -> next_char lb = Ok (Some (c, lb')) ->
  next_char (refill lb) = Ok (Some (c, refill lb')) /\ lexbuf_ok lb' /\ lex_eof_reached lb' = false /\ (c =? 256) = false /\
  lex_last_action lb' = lex_last_action lb.
Proof.
  intros [[Hc1 Hc2] Hlen Hb] He. unfold next_char. rewrite He. case_zbool (lex_buffer_len lb <=? lex_curr_pos lb); [done|].
  unfold index at 1. rewrite (proj2 (Z.ltb_ge _ _)) by lia.
  destruct (lex_buffer lb !! Z.to_nat (lex_curr_pos lb)) as [x|] eqn:Ex; [|done]. cbn [lift bind]. intros [= -> <-].
  assert (is_byte c) as Hbc by (rewrite Forall_lookup in Hb; by eapply Hb). unfold is_byte in Hbc.
  split_and!; [|split; cbn; done || lia|done|lia|done].
  cbn [refilled lex_buffer_len lex_curr_pos lex_buffer]. rewrite (proj2 (Z.leb_gt _ _)) by lia.
  unfold index. rewrite (proj2 (Z.ltb_ge _ _)) by lia.
  rewrite lookup_app_l by (rewrite length_take; lia). rewrite lookup_take_lt by lia. rewrite Ex. done.
Qed.

Definition backtracked (state : Z) lb : res lexer_buffer :=
  backtrk <- Short (lex_backtrk tbl) state; Ok (if 0 <=? backtrk then set_last lb backtrk else lb).

(** A step that does not ask for a refill is the same on the larger buffer;
    one that does has only updated the backtrack point. *)
Lemma lex_step_refill s lb :
  lexbuf_ok lb -> lex_eof_reached lb = false -> -1 <= lex_last_action lb ->
  match lex_step tbl (s, lb) with
  | Ok (inl (s', lb')) => lex_step tbl (s, refill lb) = Ok (inl (s', refill lb')) /\
      0 <= s' /\ lexbuf_ok lb' /\ lex_eof_reached lb' = false /\ -1 <= lex_last_action lb'
  | Ok (inr (a, lb')) => 0 <= a \/ a = - s - 1 /\ lex_step tbl (s, refill lb) = lex_step tbl (s, refill lb')
  | _ => True
  end.
Proof.
  intros Hlb He Ha. unfold lex_step. destruct (Short (lex_base tbl) s) as [b| |]; [|done..]. cbn [bind].
  case_zbool (b <? 0); [left; lia|]. destruct (Short (lex_backtrk tbl) s) as [k| |]; [|done..]. cbn [bind].
  set (upd := fun lb => if 0 <=? k then set_last lb k else lb).
  assert (forall lb, upd (refill lb) = refill (upd lb)) as Hupd by (intros l; unfold upd; by case_match).
  assert (lexbuf_ok (upd lb) /\ lex_eof_reached (upd lb) = false /\ -1 <= lex_last_action (upd lb)) as (Hlb' & He' & Ha').
  { unfold upd. case_zbool (0 <=? k); [|done]. split_and!; [destruct Hlb; by split|done|cbn; lia]. }
  assert (forall lb, upd (upd lb) = upd lb) as Hidem by (intros l; unfold upd; by case_match).
  change (if 0 <=? k then set_last lb k else lb) with (upd lb).
  change (if 0 <=? k then set_last (refill lb) k else refill lb) with (upd (refill lb)). rewrite Hupd.
  destruct (next_char (upd lb)) as [[[c lb2]|]| |] eqn:En; cbn [bind]; [|right|done..].
  - destruct (next_char_refill _ _ _ Hlb' He' En) as (-> & Hlb2 & He2 & Ec & Ea). cbn [bind]. rewrite Ec.
    destruct (next_state tbl s b c) as [s'| |]; [|done..]. cbn [bind]. case_zbool (s' <? 0).
    + unfold backtrack. cbn [set_curr lex_last_action]. case_zbool (lex_last_action lb2 =? -1); [done|]. cbn. left. lia.
    + cbn. split_and!; [done|lia|done|done|lia].
  - split; [done|]. change (if 0 <=? k then set_last (refill (upd lb)) k else refill (upd lb)) with (upd (refill (upd lb))).
    by rewrite Hupd, Hidem.
Qed.

Lemma loop_refill fuel1 fuel2 s lb t lb1 :
  lexbuf_ok lb -> lex_eof_reached lb = false -> -1 <= lex_last_action lb -> 0 <= t ->
  loop fuel1 (lex_step tbl) (s, lb) = Ok (- t - 1, lb1) -> loop fuel2 (lex_step tbl) (t, refill lb1) <> Timeout ->
  loop (fuel1 + fuel2) (lex_step tbl) (s, refill lb) = loop fuel2 (lex_step tbl) (t, refill lb1).
Proof.
  intros Hlb He Ha Ht. revert s lb Hlb He Ha. induction fuel1 as [|f IH]; intros s lb Hlb He Ha; [done|].
  pose proof (lex_step_refill s lb Hlb He Ha) as Hstep. cbn [loop Nat.add].
  destruct (lex_step tbl (s, lb)) as [[[s' lb']|[a lb']]| |]; cbn [bind]; try done.
  - destruct Hstep as (-> & ? & ? & ? & ?). cbn [bind]. by apply IH.
  - intros [= -> ->] Hr. destruct Hstep as [?|[Es Hstep]]; [lia|]. assert (s = t) as -> by lia. rewrite Hstep.
    change (loop (S (f + fuel2)) (lex_step tbl) (t, refill lb1) = loop fuel2 (lex_step tbl) (t, refill lb1)).
    apply loop_more; [lia|done].
Qed.
End Refill.

(** * The engine with a memory *)

Section Memory.
Variable tbl : lexing_table.
Variables n k : Z.
Implicit Types (lb : lexer_buffer) (m : list Z).

(** The program at [pc] ends, and stays inside a memory of [k] cells. *)
Fixpoint code_fits (pc : bytes) : bool :=
  match pc with
  | dst :: pc =>
      if dst =? 255 then true
      else match pc with
           | src :: pc => (0 <=? dst) && (dst <? k) && ((src =? 255) || (0 <=? src) && (src <? k)) && code_fits pc
           | [] => false
           end
  | [] => false
  end.
Definition offset_fits (o : res Z) : bool :=
  match o with Ok off => (0 <=? off) && code_fits (drop (Z.to_nat off) (lex_code tbl)) | _ => false end.

(** The offset of the moves of [moves]. *)
Definition move_offset (pstate c : Z) : res Z :=
  base_code <- Short (lex_base_code tbl) pstate;
  q <- Short (lex_check_code tbl) (base_code + c);
  if q =? pstate then Short (lex_trans_code tbl) (base_code + c) else Short (lex_default_code tbl) pstate.
Definition move_fits (o : res Z) : bool :=
  match o with Ok off => if 0 <? off then offset_fits o else true | _ => false end.

Definition codes_ok_at (s : Z) : bool :=
  match Short (lex_base tbl) s with
  | Ok b =>
      if b <? 0 then offset_fits (Short (lex_base_code tbl) s)
      else match Short (lex_backtrk tbl) s with
           | Ok a => (if 0 <=? a then offset_fits (Short (lex_backtrk_code tbl) s) else true) &&
                     forallb (fun c => move_fits (move_offset s c)) (seqZ 0 257)
           | _ => false
           end
  | _ => false
  end.
Definition codes_ok : bool := forallb codes_ok_at (seqZ 0 n).

Lemma run_code_fits v pc m :
  code_fits pc = true -> Z.of_nat (length m) = k -> exists m', run_code pc m v = Ok m' /\ Z.of_nat (length m') = k.
Proof.
  intros H Hm. assert (exists l, (length pc <= l)%nat) as [l Hl] by eauto. revert pc m H Hm Hl.
  induction l as [|l IH]; intros [|dst [|src pc]] m H Hm Hl; cbn in *; try done; try lia.
  - case_zbool (dst =? 255); [|done]. by exists m.
  - case_zbool (dst =? 255); [by exists m|]. zbool.
    assert (exists x, (if src =? 255 then Ok v else index m src) = Ok x) as [x ->].
    { case_zbool (src =? 255); [by eexists|]. rewrite orb_false_l in *. zbool. unfold index. rewrite (proj2 (Z.ltb_ge _ _)) by done.
      destruct (lookup_lt_is_Some_2 m (Z.to_nat src)) as [x ->]; [lia|]. by exists x. }
    cbn [bind]. unfold update. rewrite (proj2 (Z.ltb_ge _ _)), (proj2 (Z.leb_gt _ _)) by lia. cbn [bind].
    apply IH; [done|by rewrite length_insert|lia].
Qed.

Lemma offset_run o off v m :
  o = Ok off -> offset_fits o = true -> Z.of_nat (length m) = k ->
  exists m', (pc <- at_offset tbl off; run_code pc m v) = Ok m' /\ Z.of_nat (length m') = k.
Proof.
  intros -> H Hm. cbn in H. zbool. unfold at_offset. rewrite (proj2 (Z.ltb_ge _ _)) by done. cbn [bind]. by apply run_code_fits.
Qed.

(** The result, with another memory. *)
Definition with_mem {A} m (r : res (A * lexer_buffer)) : res (A * lexer_buffer) :=
  match r with Ok (a, lb) => Ok (a, set_mem lb m) | Err e => Err e | Timeout => Timeout end.

Lemma next_char_mem m lb :
  next_char (set_mem lb m) = match next_char lb with Ok (Some (c, lb')) => Ok (Some (c, set_mem lb' m)) | r => r end.
Proof.
  unfold next_char. cbn [set_mem lex_buffer_len lex_curr_pos lex_eof_reached lex_buffer].
  destruct (_ <=? _); [by destruct (lex_eof_reached lb)|]. by destruct (index _ _).
Qed.
Lemma backtrack_mem m lb : backtrack (set_mem lb m) = with_mem m (backtrack lb).
Proof. unfold backtrack. cbn [set_mem set_curr lex_last_action lex_last_pos]. by destruct (_ =? _). Qed.

Lemma new_step_agrees s lb m :
  tables_ok tbl n = true -> codes_ok = true -> 0 <= s < n -> lexbuf_ok lb -> Z.of_nat (length m) = k ->
  exists m', Z.of_nat (length m') = k /\
    new_lex_step tbl (s, set_mem lb m) =
      match lex_step tbl (s, lb) with
      | Ok (inl (s', lb')) => Ok (inl (s', set_mem lb' m'))
      | Ok (inr (a, lb')) => Ok (inr (a, set_mem lb' m'))
      | Err e => Err e
      | Timeout => Timeout
      end /\
    match lex_step tbl (s, lb) with Ok (inl (s', lb')) => 0 <= s' < n /\ lexbuf_ok lb' | _ => True end.
Proof.
  intros Htab Hcodes Hs Hlb Hm. destruct (state_ok_inv tbl n s Htab Hs) as (b & Eb & Hcase).
  assert (codes_ok_at s = true) as Hat.
  { unfold codes_ok in Hcodes. rewrite forallb_forall in Hcodes. apply Hcodes. rewrite <- list_elem_of_In, elem_of_seqZ. lia. }
  unfold codes_ok_at in Hat. unfold new_lex_step, lex_step. rewrite Eb in *. cbn [bind].
  destruct Hcase as [Hb|(Hb & a & Ea & Hnext)].
  { rewrite (proj2 (Z.ltb_lt _ _)) in * by done. destruct (Short (lex_base_code tbl) s) as [off| |] eqn:Eo; [|done..]. cbn [bind].
    destruct (offset_run _ off (-1) m eq_refl Hat Hm) as (m' & E & Hm'). unfold run_tag. cbn [set_mem lex_mem]. rewrite E. by exists m'. }
  rewrite (proj2 (Z.ltb_ge _ _)) in * by done. rewrite Ea in *. cbn [bind].
  apply andb_true_iff in Hat as [Hback Hmoves]. set (lb1 := if 0 <=? a then set_last lb a else lb).
  assert (exists m1, Z.of_nat (length m1) = k /\
    (if 0 <=? a then pc_off <- Short (lex_backtrk_code tbl) s; m' <- run_tag tbl pc_off (lex_mem (set_mem lb m)); Ok (set_last (set_mem (set_mem lb m) m') a)
     else Ok (set_mem lb m)) = Ok (set_mem lb1 m1)) as (m1 & Hm1 & ->).
  { unfold lb1. case_zbool (0 <=? a); [|by exists m]. destruct (Short (lex_backtrk_code tbl) s) as [off| |] eqn:Eo; [|done..]. cbn [bind].
    destruct (offset_run _ off (-1) m eq_refl Hback Hm) as (m' & E' & Hm'). unfold run_tag. cbn [set_mem lex_mem]. rewrite E'. by exists m'. }
  cbn [bind]. assert (lexbuf_ok lb1) as Hlb1 by (unfold lb1; case_match; [destruct Hlb; by split|done]). clearbody lb1.
  rewrite next_char_mem. pose proof (next_char_ok lb1 Hlb1) as Hnc.
  destruct (next_char lb1) as [[[c lb2]|]| |]; try done; cbn [bind]; [|by exists m1].
  destruct Hnc as (Hc & Hlb2 & _). destruct (Hnext c Hc) as (s' & Es' & Hs'). rewrite Es'. cbn [bind].
  case_zbool (s' <? 0).
  { exists m1. rewrite backtrack_mem. by destruct (backtrack lb2) as [[? ?]| |]. }
  rewrite forallb_forall in Hmoves. specialize (Hmoves c). rewrite <- list_elem_of_In, elem_of_seqZ in Hmoves.
  specialize (Hmoves ltac:(lia)).
  assert (exists m2, Z.of_nat (length m2) = k /\ moves tbl s c (set_mem lb2 m1) = Ok (set_mem lb2 m2)) as (m2 & Hm2 & ->).
  { unfold moves, move_offset in *. destruct (Short (lex_base_code tbl) s) as [bc| |]; [|done..]. cbn [bind] in *.
    destruct (Short (lex_check_code tbl) (bc + c)) as [q| |]; [|done..]. cbn [bind] in *.
    destruct (if q =? s then _ else _) as [off| |] eqn:Eo; [|done..]. cbn [bind move_fits] in *. case_zbool (0 <? off); [|by exists m1].
    destruct (offset_run _ off (lex_curr_pos (set_mem lb2 m1)) m1 eq_refl Hmoves Hm1) as (m' & E' & Hm'). unfold run_mem.
    change (lex_mem (set_mem lb2 m1)) with m1. rewrite E'. cbn [bind]. by exists m'. }
  cbn [bind]. exists m2. split; [done|]. split; [by destruct (c =? 256)|]. split; [lia|]. destruct (c =? 256); [destruct Hlb2; by split|done].
Qed.

Lemma new_engine_loop fuel s lb m :
  tables_ok tbl n = true -> codes_ok = true -> 0 <= s < n -> lexbuf_ok lb -> Z.of_nat (length m) = k ->
  exists m', Z.of_nat (length m') = k /\
    loop fuel (new_lex_step tbl) (s, set_mem lb m) = with_mem m' (loop fuel (lex_step tbl) (s, lb)).
Proof.
  intros Htab Hcodes. revert s lb m. induction fuel as [|f IH]; intros s lb m Hs Hlb Hm; cbn [loop]; [by exists m|].
  destruct (new_step_agrees s lb m Htab Hcodes Hs Hlb Hm) as (m1 & Hm1 & -> & Hnext).
  destruct (lex_step tbl (s, lb)) as [[[s' lb']|[a lb']]| |]; cbn [bind with_mem]; [|by exists m1..].
  destruct Hnext. by apply IH.
Qed.
End Memory.

(** * The theorems *)

(** C16: the lexing engine on complete tables answers, after at most as many
    steps as there is input plus one: with the action and the end of the
    longest word, among the prefixes of what has been read since the first
    entry and of the input, that the automaton recognizes; with the error
    "empty token" when there is none; or with a request to refill in a state
    from which a reentry continues the same search. *)
Theorem lex_engine_longest tbl n s0 start u start_state lb fuel :
  tables_ok tbl n = true -> lexbuf_ok lb -> called tbl s0 start u start_state lb ->
  (if 0 <=? start_state then start_state else - start_state - 1) < n -> (length (input lb) < fuel)%nat ->
  ends (failing tbl s0 (u ++ input lb)) (answer tbl s0 start (u ++ input lb)) (caml_lex_engine tbl fuel start_state lb).
Proof. apply engine_ok. Qed.

(** a refill is transparent: calling the engine, having the buffer refilled
    and calling it again gives what one call on the larger buffer gives. *)
Theorem refill_transparent tbl new eof fuel1 fuel2 start_state t lb lb1 :
  lexbuf_ok lb -> lex_eof_reached lb = false -> 0 <= start_state \/ -1 <= lex_last_action lb -> 0 <= t ->
  caml_lex_engine tbl fuel1 start_state lb = Ok (- t - 1, lb1) ->
  caml_lex_engine tbl fuel2 (- t - 1) (refilled new eof lb1) <> Timeout ->
  caml_lex_engine tbl (fuel1 + fuel2) start_state (refilled new eof lb) =
  caml_lex_engine tbl fuel2 (- t - 1) (refilled new eof lb1).
Proof.
  intros Hlb He Hstart Ht. unfold caml_lex_engine, enter.
  rewrite (proj2 (Z.leb_gt 0 (- t - 1))) by lia. replace (- (- t - 1) - 1) with t by lia.
  case_zbool (0 <=? start_state).
  - change (set_first (refilled new eof lb)) with (refilled new eof (set_first lb)).
    apply loop_refill; [destruct Hlb; by split|done|done|done].
  - apply loop_refill; [done|done|lia|done].
Qed.

(** C33: the engine with a memory gives the answer of the engine without one,
    and changes nothing else: its memory instructions, checked in the tables,
    always end and stay inside the memory. *)
Theorem new_engine_agrees tbl n k fuel start_state lb :
  tables_ok tbl n = true -> codes_ok tbl n k = true -> lexbuf_ok lb -> Z.of_nat (length (lex_mem lb)) = k ->
  (if 0 <=? start_state then start_state else - start_state - 1) < n ->
  exists m, Z.of_nat (length m) = k /\
    caml_new_lex_engine tbl fuel start_state lb = with_mem m (caml_lex_engine tbl fuel start_state lb).
Proof.
  intros Htab Hcodes Hlb Hm Hs. unfold caml_new_lex_engine, caml_lex_engine, enter. case_zbool (0 <=? start_state).
  - apply (new_engine_loop tbl n k fuel start_state (set_first lb) (lex_mem lb)); [done|done|done|destruct Hlb; by split|done].
  - pose proof (new_engine_loop tbl n k fuel (- start_state - 1) lb (lex_mem lb) Htab Hcodes ltac:(lia) Hlb Hm) as H.
    assert (set_mem lb (lex_mem lb) = lb) as E2 by (by destruct lb). by rewrite E2 in H.
Qed.

(** ** The automaton for "a" (action 0) and "abc" (action 1) *)
Definition row (x y z : Z) : list Z := replicate 97 (-1) ++ [x; y; z] ++ replicate 157 (-1).
Definition demo_tbl : lexing_table :=
  mkTable [0; 0; 0; -2] [-1; 0; -1; -1] [-1; -1; -1; -1] (row 1 2 3) (row 0 1 2)
    [0; 0; 0; 0] [0; 0; 0; 0] [0; 0; 0; 0] (row 1 0 0) (row 0 (-1) (-1)) [255; 0; 255; 255].
(** "abd", after one character *)
Definition demo_lb : lexer_buffer := mkLexbuf [120; 97; 98; 100] 4 0 1 0 0 false [0].
(** "xab", of which "x" is used up *)
Definition demo_lb1 : lexer_buffer := mkLexbuf [120; 97; 98] 3 0 1 0 0 false [0].

Lemma demo_lb_ok : lexbuf_ok demo_lb.
Proof. split; [cbn; lia|cbn; lia|]. repeat constructor; unfold is_byte; lia. Qed.
Lemma demo_lb1_ok : lexbuf_ok demo_lb1.
Proof. split; [cbn; lia|cbn; lia|]. repeat constructor; unfold is_byte; lia. Qed.

Example demo_backtracks :
  match caml_new_lex_engine demo_tbl 4 0 demo_lb with Ok (a, lb) => a = 0 /\ lex_curr_pos lb = 2 /\ lex_mem lb = [2] | _ => False end.
Proof. vm_compute. by split_and!. Qed.

Example lex_engine_longest_witness :
  ends (failing demo_tbl 0 ([] ++ input demo_lb)) (answer demo_tbl 0 1 ([] ++ input demo_lb)) (caml_lex_engine demo_tbl 4 0 demo_lb).
Proof.
  apply (lex_engine_longest demo_tbl 4 0 1 [] 0 demo_lb 4);
    [vm_compute; reflexivity|apply demo_lb_ok|left; split; [lia|split_and!; reflexivity]|reflexivity|vm_compute; lia].
Defined.

Example refill_transparent_witness :
  exists lb1, caml_lex_engine demo_tbl 3 0 demo_lb1 = Ok (- 2 - 1, lb1) /\
    caml_lex_engine demo_tbl (3 + 2) 0 (refilled [99] false demo_lb1) = caml_lex_engine demo_tbl 2 (- 2 - 1) (refilled [99] false lb1).
Proof.
  eexists. split; [vm_compute; reflexivity|].
  apply (refill_transparent demo_tbl [99] false 3 2 0 2 demo_lb1);
    [apply demo_lb1_ok|reflexivity|left; lia|lia|vm_compute; reflexivity|vm_compute; discriminate].
Defined.

Example new_engine_agrees_witness :
  exists m, Z.of_nat (length m) = 1 /\ caml_new_lex_engine demo_tbl 4 0 demo_lb = with_mem m (caml_lex_engine demo_tbl 4 0 demo_lb).
Proof.
  apply (new_engine_agrees demo_tbl 4 1 4 0 demo_lb);
    [vm_compute; reflexivity|vm_compute; reflexivity|apply demo_lb_ok|reflexivity|reflexivity].
Defined.
