(* ===== verification/CamlParsing.v ===== *)
(** The LR parsing engine of OCaml (ocaml/byterun/parsing.c): a coroutine of
    the ML code, which reads the tokens, grows the stacks, computes the
    semantic actions and calls the error function.

    [V] is the type of semantic values ([val0] is the OCaml integer 0) and [P]
    the type of positions; a table of 16-bit numbers is a list of [Z].  The
    labels of the source are constructors of [label], and a jump is a step of
    the engine.  Indices are [Z]: an index that would wrap around in C is an
    access outside a stack here, an error in both.  The tracing of the parser
    (caml_parser_trace) is left out. *)
From stdpp Require Import base list.
From Stdlib Require Import ZArith Lia.
From S2P Require Import Prelude CamlTables.
Open Scope Z_scope.

Definition ERRCODE : Z := 256.

Record parser_tables := mkTables {
  transl_const : list Z;
  transl_block : list Z;
  lhs : list Z;
  len : list Z;
  defred : list Z;
  dgoto : list Z;
  sindex : list Z;
  rindex : list Z;
  gindex : list Z;
  tablesize : Z;
  table : list Z;
  check : list Z
}.

(** Input codes *)
Inductive parser_input := START | TOKEN_READ | STACKS_GROWN_1 | STACKS_GROWN_2 | SEMANTIC_ACTION_COMPUTED | ERROR_DETECTED.
(** Output codes *)
Inductive parser_output := READ_TOKEN | RAISE_PARSE_ERROR | GROW_STACKS_1 | GROW_STACKS_2 | COMPUTE_SEMANTIC_ACTION | CALL_ERROR_FUNCTION.

Section Engine.
Context {V P : Type}.
Variable val0 : V.
Variable tables : parser_tables.

Record parser_env := mkEnv {
  s_stack : list Z;
  v_stack : list V;
  symb_start_stack : list P;
  symb_end_stack : list P;
  stacksize : Z;
  stackbase : Z;
  curr_char : Z;
  lval : V;
  symb_start : P;
  symb_end : P;
  asp : Z;
  rule_len : Z;
  rule_number : Z;
  sp : Z;
  state : Z;
  errflag : Z
}.

(** The token handed over by the lexer: Is_long, or a block with a field 0. *)
Inductive token :=
  | Const (n : Z)
  | Block (tag : Z) (v : V).

Inductive arg :=
  | Token (t : token)
  | Value (v : V)
  | Nothing.

(** The local variables that live across labels. *)
Record locals := mkLoc { l_state : Z; l_sp : Z; l_errflag : Z }.

Inductive label :=
  | L_loop | L_testshift | L_recover
  | L_shift (n2 : Z) | L_shift_recover (n2 : Z) | L_push
  | L_reduce (n : Z) | L_semantic_action.

Implicit Types (env : parser_env) (l : locals).

Definition set_stacks env ss vs sts es : parser_env :=
  mkEnv ss vs sts es (stacksize env) (stackbase env) (curr_char env) (lval env) (symb_start env) (symb_end env)
    (asp env) (rule_len env) (rule_number env) (sp env) (state env) (errflag env).
Definition set_curr env (c : Z) (v : V) : parser_env :=
  mkEnv (s_stack env) (v_stack env) (symb_start_stack env) (symb_end_stack env) (stacksize env) (stackbase env) c v
    (symb_start env) (symb_end env) (asp env) (rule_len env) (rule_number env) (sp env) (state env) (errflag env).
Definition set_rule env (a n m : Z) : parser_env :=
  mkEnv (s_stack env) (v_stack env) (symb_start_stack env) (symb_end_stack env) (stacksize env) (stackbase env) (curr_char env)
    (lval env) (symb_start env) (symb_end env) a m n (sp env) (state env) (errflag env).
Definition SAVE l env : parser_env :=
  mkEnv (s_stack env) (v_stack env) (symb_start_stack env) (symb_end_stack env) (stacksize env) (stackbase env) (curr_char env)
    (lval env) (symb_start env) (symb_end env) (asp env) (rule_len env) (rule_number env) (l_sp l) (l_state l) (l_errflag l).
Definition RESTORE env : locals := mkLoc (state env) (sp env) (errflag env).

(** The entry of the compressed table for index [n1] and symbol [c]:
    [n1 != 0 && n2 >= 0 && n2 <= tablesize && check[n2] == c]. *)
Definition find (n1 c : Z) : res (option Z) :=
  let n2 := n1 + c in
  if negb (n1 =? 0) && (0 <=? n2) && (n2 <=? tablesize tables) then
    k <- Short (check tables) n2; Ok (if k =? c then Some n2 else None)
  else Ok None.

(** The loop of recover that discards states: [None] when the base is reached. *)
Definition discard_step (env : parser_env) (sp : Z) : res (Z + option (Z * Z)) :=
  state1 <- index (s_stack env) sp;
  n1 <- Short (sindex tables) state1;
  f <- find n1 ERRCODE;
  match f with
  | Some n2 => Ok (inr (Some (sp, n2)))
  | None => if sp <=? stackbase env then Ok (inr None) else Ok (inl (sp - 1))
  end.

Abbreviation next := (fun lb l env => Ok (inl (lb, l, env))).
Abbreviation return_ := (fun out env => Ok (inr (out, env))).

Definition engine_step (fuel : nat) (c : label * locals * parser_env) : res (label * locals * parser_env + parser_output * parser_env) :=
  let '(lb, l, env) := c in
  match lb with
  | L_loop =>
      n <- Short (defred tables) (l_state l);
      if negb (n =? 0) then next (L_reduce n) l env
      else if 0 <=? curr_char env then next L_testshift l env
      else return_ READ_TOKEN (SAVE l env)
  | L_testshift =>
      n1 <- Short (sindex tables) (l_state l);
      f <- find n1 (curr_char env);
      match f with
      | Some n2 => next (L_shift n2) l env
      | None =>
          n1 <- Short (rindex tables) (l_state l);
          f <- find n1 (curr_char env);
          match f with
          | Some n2 => n <- Short (table tables) n2; next (L_reduce n) l env
          | None => if 0 <? l_errflag l then next L_recover l env else return_ CALL_ERROR_FUNCTION (SAVE l env)
          end
      end
  | L_recover =>
      if l_errflag l <? 3 then
        r <- loop fuel (discard_step env) (l_sp l);
        match r with
        | Some (sp, n2) => next (L_shift_recover n2) (mkLoc (l_state l) sp 3) env
        | None => return_ RAISE_PARSE_ERROR env
        end
      else if curr_char env =? 0 then return_ RAISE_PARSE_ERROR env
      else next L_loop l (set_curr env (-1) (lval env))
  | L_shift n2 =>
      let e := if 0 <? l_errflag l then l_errflag l - 1 else l_errflag l in
      next (L_shift_recover n2) (mkLoc (l_state l) (l_sp l) e) (set_curr env (-1) (lval env))
  | L_shift_recover n2 =>
      s <- Short (table tables) n2;
      let l := mkLoc s (l_sp l + 1) (l_errflag l) in
      if l_sp l <? stacksize env then next L_push l env else return_ GROW_STACKS_1 (SAVE l env)
  | L_push =>
      ss <- update (s_stack env) (l_sp l) (l_state l);
      vs <- update (v_stack env) (l_sp l) (lval env);
      sts <- update (symb_start_stack env) (l_sp l) (symb_start env);
      es <- update (symb_end_stack env) (l_sp l) (symb_end env);
      next L_loop l (set_stacks env ss vs sts es)
  | L_reduce n =>
      m <- Short (len tables) n;
      let env := set_rule env (l_sp l) n m in
      let sp := l_sp l - m + 1 in
      m <- Short (lhs tables) n;
      state1 <- index (s_stack env) (sp - 1);
      n1 <- Short (gindex tables) m;
      f <- find n1 state1;
      s <- match f with Some n2 => Short (table tables) n2 | None => Short (dgoto tables) m end;
      let l := mkLoc s sp (l_errflag l) in
      if sp <? stacksize env then next L_semantic_action l env else return_ GROW_STACKS_2 (SAVE l env)
  | L_semantic_action => return_ COMPUTE_SEMANTIC_ACTION (SAVE l env)
  end.

(** The code at [case SEMANTIC_ACTION_COMPUTED], up to [goto loop]. *)
Definition semantic_action_computed (v : V) env : res parser_env :=
  ss <- update (s_stack env) (sp env) (state env);
  vs <- update (v_stack env) (sp env) v;
  p <- index (symb_end_stack env) (asp env);
  es <- update (symb_end_stack env) (sp env) p;
  sts <- (if asp env <? sp env then q <- index es (asp env); update (symb_start_stack env) (sp env) q
          else Ok (symb_start_stack env));
  Ok (set_stacks env ss vs sts es).

(** The code at [case TOKEN_READ], up to [testshift]. *)
Definition token_read (t : token) env : res parser_env :=
  match t with
  | Block tag v => c <- index (transl_block tables) tag; Ok (set_curr env c v)
  | Const n => c <- index (transl_const tables) n; Ok (set_curr env c val0)
  end.

Definition caml_parse_engine (fuel : nat) env (cmd : parser_input) (a : arg) : res (parser_output * parser_env) :=
  let run lb l env := loop fuel (engine_step fuel) (lb, l, env) in
  match cmd, a with
  | START, _ => run L_loop (mkLoc 0 (sp env) 0) env
  | TOKEN_READ, Token t => env' <- token_read t env; run L_testshift (RESTORE env) env'
  | STACKS_GROWN_1, _ => run L_push (RESTORE env) env
  | STACKS_GROWN_2, _ => run L_semantic_action (RESTORE env) env
  | SEMANTIC_ACTION_COMPUTED, Value v => env' <- semantic_action_computed v env; run L_loop (RESTORE env) env'
  | ERROR_DETECTED, _ => run L_recover (RESTORE env) env
  | TOKEN_READ, _ | SEMANTIC_ACTION_COMPUTED, _ => Err "no such call"
  end.
End Engine.
Arguments parser_env : clear implicits.
Arguments token : clear implicits.
Arguments arg : clear implicits.
