(* ===== verification/CamlParsingSpec.v ===== *)
(** The LR parsing engine of OCaml: every call ends, and in a parsing session
    the stacks are at all times a path of the LR automaton whose values are
    the attributes of derivations of the tokens read. *)
From stdpp Require Import base list.
From Stdlib Require Import ZArith Lia.
From S2P Require Import Prelude CamlTables CamlParsing.
Open Scope Z_scope.

(** * Termination *)

Section Ends.
Context {V P : Type}.
Variable tables : parser_tables.
Implicit Types (env : parser_env V P) (l : locals).

(** A bound on the steps left. *)
Definition steps_left (c : label * locals * parser_env V P) : nat :=
  let '(lb, l, env) := c in
  let pending := 0 <=? curr_char env in
  let late := negb (l_errflag l <? 3) in
  let loop := (if pending then if late then 8 else 13 else 3)%nat in
  match lb with
  | L_semantic_action => 1
  | L_reduce _ => 2
  | L_loop => loop
  | L_push => 1 + loop
  | L_shift_recover _ => 2 + loop
  | L_shift _ => 6
  | L_testshift => if pending && negb late then 12 else 7
  | L_recover => if late then 4 else if pending then 11 else 6
  end%nat.

Lemma never_loop {S R : Type} (I : S -> Prop) (m : S -> nat) (body : S -> res (S + R)) s n :
  (forall s, I s -> match body s with Ok (inl s') => I s' /\ m s' < m s | Timeout => False | _ => True end)%nat ->
  I s -> (m s < n)%nat -> loop n body s <> Timeout.
Proof.
  intros Hb. revert s. induction n as [|n IH]; intros s Hs Hm; [lia|]. cbn [loop]. specialize (Hb s Hs).
  destruct (body s) as [[s'|r]| |]; cbn [bind]; try done. destruct Hb. apply IH; [done|lia].
Qed.

Lemma find_ends n1 c : find tables n1 c <> Timeout.
Proof. unfold find. case_match; [|done]. unfold Short. pose proof (index_ends (check tables) (n1 + c)). by destruct (index _ _). Qed.

Lemma discard_ends fuel env sp : (Z.to_nat (sp - stackbase env) < fuel)%nat -> loop fuel (discard_step tables env) sp <> Timeout.
Proof.
  apply (never_loop (fun _ => True) (fun sp => Z.to_nat (sp - stackbase env))); [|done]. clear. intros sp _. unfold discard_step, Short.
  pose proof (index_ends (s_stack env) sp). destruct (index (s_stack env) sp) as [s1| |]; cbn [bind]; [|done..].
  pose proof (index_ends (sindex tables) s1). destruct (index (sindex tables) s1) as [n1| |]; cbn [bind]; [|done..].
  pose proof (find_ends n1 ERRCODE). destruct (find tables n1 ERRCODE) as [[n2|]| |]; cbn [bind]; [done| |done..].
  case_zbool (sp <=? stackbase env); [done|split; [done|lia]].
Qed.

Lemma discard_le fuel env sp sp' n2 :
  loop fuel (discard_step tables env) sp = Ok (Some (sp', n2)) -> sp' <= sp.
Proof.
  revert sp. induction fuel as [|f IH]; intros sp; [done|]. cbn [loop]. intros (r & Hd & Hr)%bind_Ok.
  unfold discard_step in Hd. apply bind_Ok in Hd as (s1 & _ & (n1 & _ & (o & _ & Hd)%bind_Ok)%bind_Ok).
  destruct r as [z|r]; [|injection Hr as ->; destruct o; [by injection Hd as -> _|by destruct (sp <=? stackbase env)]].
  destruct o; [done|]. destruct (sp <=? stackbase env); [done|]. injection Hd as <-. apply IH in Hr. lia.
Qed.
End Ends.

(** Runs through the accesses of a step, none of which can time out. *)
Ltac access :=
  match goal with
  | |- context [bind (index ?t ?n) _] => pose proof (index_ends t n); destruct (index t n) as [?| |]; cbn [bind]; [|done..]
  | |- context [bind (update ?t ?n ?x) _] => pose proof (update_ends t n x); destruct (update t n x) as [?| |]; cbn [bind]; [|done..]
  | |- context [bind (find ?t ?n ?c) _] => pose proof (find_ends t n c); destruct (find t n c) as [[?|]| |]; cbn [bind]; [| |done..]
  end.

(** Decides the boolean tests. *)
Ltac tests := repeat match goal with
  | |- context [if ?b then _ else _] => match b with context [if _ then _ else _] => fail 1 | _ => let E := fresh "E" in destruct b eqn:E end
  | H : context [if ?b then _ else _] |- _ => match b with context [if _ then _ else _] => fail 1 | _ => let E := fresh "E" in destruct b eqn:E end
  end; zbool.

Section Ends2.
Context {V P : Type}.
Variable tables : parser_tables.
Implicit Types (env : parser_env V P) (l : locals).

(** The inner loop has fuel for the states that can be discarded. *)
Definition bounded (fuel : nat) (c : label * locals * parser_env V P) : Prop :=
  let '(lb, l, env) := c in
  match lb with
  | L_reduce _ | L_semantic_action => True
  | _ => (Z.to_nat (l_sp l - stackbase env) + steps_left c < fuel)%nat
  end.

Ltac crunch :=
  tests; try done; cbn [bounded steps_left set_curr set_stacks curr_char stackbase l_errflag l_sp l_state Z.leb Z.ltb Z.compare Pos.compare Pos.compare_cont negb andb] in *;
  (split; [done || (tests; cbn [andb] in *; lia)|tests; cbn [andb] in *; lia]).

Lemma engine_step_ends fuel c :
  bounded fuel c ->
  match engine_step tables fuel c with
  | Ok (inl c') => bounded fuel c' /\ (steps_left c' < steps_left c)%nat
  | Timeout => False
  | _ => True
  end.
Proof.
  destruct c as [[lb l] env]. intros Hb. unfold engine_step.
  destruct lb; unfold Short; cbn [bounded steps_left] in Hb.
  - access. crunch.
  - repeat access; crunch.
  - destruct (l_errflag l <? 3) eqn:E; cbn [negb] in Hb; [|crunch].
    assert (Z.to_nat (l_sp l - stackbase env) < fuel)%nat as Hf by (tests; lia).
    pose proof (discard_ends tables fuel env (l_sp l) Hf) as Ht. destruct (loop _ _ _) as [[[sp' n2]|]| |] eqn:El; cbn [bind]; try done.
    apply discard_le in El. crunch.
  - crunch.
  - access. crunch.
  - repeat access. crunch.
  - repeat access; crunch.
  - done.
Qed.

Lemma steps_bound (c : label * locals * parser_env V P) : (steps_left c <= 15)%nat.
Proof. destruct c as [[lb l] env]. destruct lb; cbn; tests; lia. Qed.

Lemma run_ends fuel lb l env :
  (Z.to_nat (l_sp l - stackbase env) + 15 < fuel)%nat -> loop fuel (engine_step tables fuel) (lb, l, env) <> Timeout.
Proof.
  intros Hf. pose proof (steps_bound (lb, l, env)). apply (never_loop (bounded fuel) steps_left); [apply engine_step_ends| |lia].
  unfold bounded. destruct lb; try done; lia.
Qed.

Lemma engine_ends (val0 : V) fuel env cmd (a : arg V) :
  (Z.to_nat (sp env - stackbase env) + 15 < fuel)%nat -> caml_parse_engine val0 tables fuel env cmd a <> Timeout.
Proof.
  intros Hf. unfold caml_parse_engine. destruct cmd; try (apply run_ends; done).
  - destruct a as [t| |]; try done. unfold token_read. destruct t; access; by apply run_ends.
  - destruct a as [|v|]; try done. unfold semantic_action_computed. repeat access.
    case_match; [repeat access|cbn [bind]]; by apply run_ends.
Qed.
End Ends2.

(** * Sessions *)

Section Session.
Context {V P : Type}.
Variable val0 : V.
Variable tables : parser_tables.
(** The semantic action of each rule, applied to the values of its right-hand side. *)
Variable action : Z -> list V -> V.
Implicit Types (env : parser_env V P) (l : locals) (es : list (Z * V)).

(** A token: its code in the tables, and its value. *)
Abbreviation tok := (Z * V)%type.
Definition token_of (t : token V) (k : tok) : Prop :=
  match t with
  | Block tag v => index (transl_block tables) tag = Ok k.1 /\ k.2 = v
  | Const n => index (transl_const tables) n = Ok k.1 /\ k.2 = val0
  end.

Inductive symbol := T (c : Z) | N (x : Z).

(** The transitions of the automaton: shifts, and gotos after a reduction. *)
Definition leads (s : Z) (X : symbol) (s' : Z) : Prop :=
  match X with
  | T c => exists n1 n2, Short (sindex tables) s = Ok n1 /\ find tables n1 c = Ok (Some n2) /\ Short (table tables) n2 = Ok s'
  | N x => exists n1 f, Short (gindex tables) x = Ok n1 /\ find tables n1 s = Ok f /\
      match f with Some n2 => Short (table tables) n2 | None => Short (dgoto tables) x end = Ok s'
  end.

(** [derives X v w]: [w] is the yield of a derivation from [X] whose attribute
    is [v]; [spells vs w]: the same for a sequence of symbols. *)
Inductive derives : symbol -> V -> list tok -> Prop :=
  | d_token c v : derives (T c) v [(c, v)]
  | d_rule n x vs w : Short (len tables) n = Ok (Z.of_nat (length vs)) -> Short (lhs tables) n = Ok x ->
      spells vs w -> derives (N x) (action n vs) w
with spells : list V -> list tok -> Prop :=
  | spells_nil : spells [] []
  | spells_snoc vs w X v w' : spells vs w -> derives X v w' -> spells (vs ++ [v]) (w ++ w').

(** The entries above the base of the stack: a path of the automaton from
    state 0, and the tokens that its values derive. *)
Definition top es : Z := match last es with Some (s, _) => s | None => 0 end.
Inductive stacked : list (Z * V) -> list tok -> Prop :=
  | stacked_nil : stacked [] []
  | stacked_snoc es w s X v w' : stacked es w -> leads (top es) X s -> derives X v w' -> stacked (es ++ [(s, v)]) (w ++ w').

Definition holds env es : Prop :=
  1 <= stackbase env /\ forall i s v, es !! i = Some (s, v) ->
    s_stack env !! (Z.to_nat (stackbase env) + i)%nat = Some s /\ v_stack env !! (Z.to_nat (stackbase env) + i)%nat = Some v.
Definition height env (n : nat) : Z := stackbase env - 1 + Z.of_nat n.

Lemma stacked_snoc_inv es s v w :
  stacked (es ++ [(s, v)]) w -> exists w1 X w2, w = w1 ++ w2 /\ stacked es w1 /\ leads (top es) X s /\ derives X v w2.
Proof.
  intros H. inversion H as [E|es' w1 s' X v' w2 ? ? ? E]; [by destruct es|]. apply app_inj_2 in E as [-> [= -> ->]]; [|done].
  by exists w1, X, w2.
Qed.

Lemma stacked_split es2 es1 w :
  stacked (es1 ++ es2) w -> exists w1 w2, w = w1 ++ w2 /\ stacked es1 w1 /\ spells es2.*2 w2.
Proof.
  revert w. induction es2 as [|[s v] es2 IH] using rev_ind; intros w.
  - rewrite app_nil_r. intros H. exists w, []. rewrite app_nil_r. split_and!; [done|done|constructor].
  - rewrite app_assoc. intros (wa & X & wb & -> & (w1 & w2 & -> & Hst & Hsp)%IH & _ & Hd)%stacked_snoc_inv.
    exists w1, (w2 ++ wb). rewrite app_assoc, fmap_app. split_and!; [done|done|]. by eapply spells_snoc.
Qed.

Lemma top_snoc es s v : top (es ++ [(s, v)]) = s.
Proof. unfold top. by rewrite last_snoc. Qed.

(** A push on top of [es]. *)
Lemma holds_push env env' es s v ss vs sts sends :
  holds env es -> update (s_stack env) (height env (S (length es))) s = Ok ss -> update (v_stack env) (height env (S (length es))) v = Ok vs ->
  env' = set_stacks env ss vs sts sends -> holds env' (es ++ [(s, v)]).
Proof.
  intros [Hb Hget] [Hs ->]%index_update [Hv ->]%index_update ->. unfold height in *.
  replace (Z.to_nat (stackbase env - 1 + Z.of_nat (S (length es)))) with (Z.to_nat (stackbase env) + length es)%nat by lia.
  split; [done|]. cbn [set_stacks stackbase s_stack v_stack]. intros i s' v' Hi.
  apply lookup_app_Some in Hi as [Hi|[Hle Hi]].
  - pose proof (lookup_lt_Some _ _ _ Hi). rewrite !list_lookup_insert_ne by lia. by apply Hget.
  - apply list_lookup_singleton_Some in Hi as [Ei [= -> ->]]. replace i with (length es) by lia.
    rewrite !list_lookup_insert_eq by lia. done.
Qed.

(** ** The invariant *)

(** The token read and not yet shifted. *)
Definition pending env (p : list tok) : Prop :=
  curr_char env < 0 /\ p = [] \/ 0 <= curr_char env /\ p = [(curr_char env, lval env)].

(** [all] is what has been read: the stack derives it, up to the pending token. *)
Definition parsing (all : list tok) l env : Prop :=
  exists es w p, holds env es /\ stacked es w /\ all = w ++ p /\ pending env p /\
    l_sp l = height env (length es) /\ l_state l = top es /\ l_errflag l = 0.

(** The token is to be pushed in state [l_state l]. *)
Definition pushing (all : list tok) l env : Prop :=
  exists es w c, holds env es /\ stacked es w /\ all = w ++ [(c, lval env)] /\ curr_char env = -1 /\
    l_sp l = height env (S (length es)) /\ leads (top es) (T c) (l_state l) /\ l_errflag l = 0.

(** The top entries are to be reduced, if the rule is not longer than the stack. *)
Definition reducing (all : list tok) l env : Prop :=
  stackbase env <= l_sp l ->
  exists es es2 w w2 p x, holds env (es ++ es2) /\ stacked es w /\ spells es2.*2 w2 /\ all = w ++ w2 ++ p /\ pending env p /\
    asp env = height env (length (es ++ es2)) /\ rule_len env = Z.of_nat (length es2) /\
    Short (len tables) (rule_number env) = Ok (Z.of_nat (length es2)) /\ Short (lhs tables) (rule_number env) = Ok x /\
    l_sp l = height env (S (length es)) /\ (es <> [] -> leads (top es) (N x) (l_state l)) /\ l_errflag l = 0.

Definition at_label (all : list tok) (c : label * locals * parser_env V P) : Prop :=
  let '(lb, l, env) := c in
  match lb with
  | L_loop | L_reduce _ => parsing all l env
  | L_testshift => parsing all l env /\ 0 <= curr_char env
  | L_shift n2 => parsing all l env /\ 0 <= curr_char env /\
      forall s, Short (table tables) n2 = Ok s -> leads (l_state l) (T (curr_char env)) s
  | L_shift_recover n2 =>
      forall s, Short (table tables) n2 = Ok s -> pushing all (mkLoc s (l_sp l + 1) (l_errflag l)) env
  | L_push => pushing all l env
  | L_semantic_action => reducing all l env
  | L_recover => False
  end.

Definition well_parsed (all : list tok) (out : parser_output) env : Prop :=
  match out with
  | READ_TOKEN => parsing all (RESTORE env) env /\ curr_char env < 0
  | GROW_STACKS_1 => pushing all (RESTORE env) env
  | GROW_STACKS_2 | COMPUTE_SEMANTIC_ACTION => reducing all (RESTORE env) env
  | CALL_ERROR_FUNCTION => parsing all (RESTORE env) env /\ 0 <= curr_char env
  | RAISE_PARSE_ERROR => False
  end.

Lemma last_lookup es s v : last es = Some (s, v) -> es !! (length es - 1)%nat = Some (s, v).
Proof. rewrite last_lookup. intros <-. f_equal. lia. Qed.

Lemma top_index env es s1 :
  holds env es -> es <> [] -> index (s_stack env) (height env (length es)) = Ok s1 -> s1 = top es.
Proof.
  intros [Hb Hget] Hne. unfold index, height. case_match eqn:E; [done|]. clear E.
  destruct (last es) as [[s v]|] eqn:El; [|by apply last_None in El]. unfold top. rewrite El.
  pose proof (last_lookup _ _ _ El) as Hl. destruct (Hget _ _ _ Hl) as [Hs _].
  assert (length es <> 0)%nat by (by destruct es).
  replace (Z.to_nat (stackbase env - 1 + Z.of_nat (length es))) with (Z.to_nat (stackbase env) + (length es - 1))%nat by lia.
  rewrite Hs. cbn. congruence.
Qed.

Hypothesis Hlens : Forall (fun m => 0 <= m) (len tables).

Lemma reduce_ok all l env n m x state1 n1 f s :
  parsing all l env -> Short (len tables) n = Ok m -> Short (lhs tables) n = Ok x ->
  index (s_stack env) (l_sp l - m + 1 - 1) = Ok state1 -> Short (gindex tables) x = Ok n1 -> find tables n1 state1 = Ok f ->
  match f with Some n2 => Short (table tables) n2 | None => Short (dgoto tables) x end = Ok s ->
  reducing all (mkLoc s (l_sp l - m + 1) (l_errflag l)) (set_rule env (l_sp l) n m).
Proof.
  intros (es & w & p & Hh & Hst & -> & Hp & Hsp & Hs & He) Em Ex E1 En1 Ef Es. unfold reducing. cbn [l_sp l_state l_errflag].
  change (stackbase (set_rule env (l_sp l) n m)) with (stackbase env). intros Hlow.
  assert (0 <= m) as Hm.
  { unfold Short, index in Em. destruct (n <? 0); [done|]. destruct (len tables !! Z.to_nat n) as [y|] eqn:Ey; [|done]. injection Em as <-.
    rewrite Forall_lookup in Hlens. by eapply Hlens. }
  unfold height in Hsp. set (k := Z.to_nat m).
  assert (k <= length es)%nat as Hk by lia. set (es1 := take (length es - k) es). set (es2 := drop (length es - k) es).
  assert (es = es1 ++ es2) as Ees by (symmetry; apply take_drop).
  assert (length es1 = length es - k /\ length es2 = k)%nat as [Hl1 Hl2].
  { unfold es1, es2. rewrite length_take, length_drop. lia. }
  clearbody es1 es2. subst es. rewrite length_app in *. destruct (stacked_split _ _ _ Hst) as (w1 & w2 & -> & Hst1 & Hsp2).
  exists es1, es2, w1, w2, p, x. rewrite <- app_assoc, length_app.
  unfold height. cbn [set_rule asp rule_len rule_number stackbase].
  replace (Z.of_nat (length es2)) with m by lia.
  split; [exact Hh|]. split_and!; [done|done|done|exact Hp|lia|done|done|done|lia| |done].
  intros Hne. assert (state1 = top es1) as ->.
  { eapply top_index; [|done|].
    - destruct Hh as [Hb Hget]. split; [exact Hb|]. intros i s' v' Hi. eapply Hget. by apply lookup_app_l_Some.
    - rewrite <- E1. f_equal. unfold height. lia. }
  by exists n1, f.
Qed.

Lemma push_ok all l env ss vs sts sends :
  pushing all l env -> update (s_stack env) (l_sp l) (l_state l) = Ok ss -> update (v_stack env) (l_sp l) (lval env) = Ok vs ->
  parsing all l (set_stacks env ss vs sts sends).
Proof.
  intros (es & w & c & Hh & Hst & -> & Hc & Hsp & Hm & He) Es Ev. rewrite Hsp in Es, Ev.
  exists (es ++ [(l_state l, lval env)]), (w ++ [(c, lval env)]), [].
  split; [by eapply holds_push|]. rewrite app_nil_r, top_snoc, length_app, Nat.add_comm.
  split_and!; [by eapply stacked_snoc; [| |constructor]|done|left; split; [cbn; lia|done]|done|done|done].
Qed.

Lemma shift_ok all l env s :
  parsing all l env -> 0 <= curr_char env -> leads (l_state l) (T (curr_char env)) s ->
  pushing all (mkLoc s (l_sp l + 1) (if 0 <? l_errflag l then l_errflag l - 1 else l_errflag l)) (set_curr env (-1) (lval env)).
Proof.
  intros (es & w & p & Hh & Hst & -> & Hp & Hsp & Hs & He) Hc Hm. exists es, w, (curr_char env).
  destruct Hp as [[? _]|[_ ->]]; [lia|]. rewrite Hs in Hm. split; [exact Hh|]. cbn [l_sp l_state l_errflag]. rewrite He.
  split_and!; [done|done|done|unfold height in *; cbn [set_curr stackbase]; lia|exact Hm|done].
Qed.

Lemma step_ok all fuel c :
  at_label all c ->
  match engine_step tables fuel c with
  | Ok (inl c') => at_label all c'
  | Ok (inr (out, env)) => well_parsed all out env
  | _ => True
  end.
Proof.
  destruct c as [[lb l] env]. intros H. unfold engine_step. destruct lb; cbn [at_label] in H.
  - destruct (Short (defred tables) (l_state l)) as [n| |]; cbn [bind]; [|done..]. destruct (negb (n =? 0)); [exact H|].
    case_zbool (0 <=? curr_char env); [done|]. split; [exact H|done].
  - destruct H as [H Hc]. destruct (Short (sindex tables) (l_state l)) as [n1| |] eqn:E1; cbn [bind]; [|done..].
    destruct (find tables n1 (curr_char env)) as [[n2|]| |] eqn:E2; cbn [bind]; [|clear E1 E2|done..].
    { split_and!; [exact H|done|]. intros s Es. by exists n1, n2. }
    destruct (Short (rindex tables) (l_state l)) as [n1'| |]; cbn [bind]; [|done..].
    destruct (find tables n1' (curr_char env)) as [[n2|]| |]; cbn [bind]; [| |done..].
    + by destruct (Short (table tables) n2).
    + assert (l_errflag l = 0) as -> by (by destruct H as (? & ? & ? & ? & ? & ? & ? & ? & ? & ?)). split; [exact H|done].
  - done.
  - destruct H as (H & Hc & Hm). cbn. intros s Es. apply shift_ok; [done|done|by apply Hm].
  - destruct (Short (table tables) n2) as [s| |]; cbn [bind]; [|done..]. specialize (H s eq_refl). cbn zeta.
    destruct (_ <? _); exact H.
  - destruct (update (s_stack env) (l_sp l) (l_state l)) as [ss| |] eqn:E1; cbn [bind]; [|done..].
    destruct (update (v_stack env) (l_sp l) (lval env)) as [vs| |] eqn:E2; cbn [bind]; [|done..].
    destruct (update (symb_start_stack env) _ _) as [sts| |]; cbn [bind]; [|done..].
    destruct (update (symb_end_stack env) _ _) as [sends| |]; cbn [bind]; [|done..]. by apply push_ok.
  - destruct (Short (len tables) n) as [m| |] eqn:Em; cbn [bind]; [|done..].
    destruct (Short (lhs tables) n) as [x| |] eqn:Ex; cbn [bind]; [|done..].
    change (s_stack (set_rule env (l_sp l) n m)) with (s_stack env).
    destruct (index (s_stack env) (l_sp l - m + 1 - 1)) as [state1| |] eqn:E1; cbn [bind]; [|done..].
    destruct (Short (gindex tables) x) as [n1| |] eqn:En; cbn [bind]; [|done..].
    destruct (find tables n1 state1) as [f| |] eqn:Ef; cbn [bind]; [|done..].
    destruct (match f with Some n2 => _ | None => _ end) as [s| |] eqn:Es; cbn [bind]; [|done..].
    pose proof (reduce_ok all l env n m x state1 n1 f s H Em Ex E1 En Ef Es) as Hr. destruct (_ <? _); exact Hr.
  - exact H.
Qed.

Lemma run_ok all fuel lb l env out env' :
  at_label all (lb, l, env) -> loop fuel (engine_step tables fuel) (lb, l, env) = Ok (out, env') -> well_parsed all out env'.
Proof.
  intros H E. revert E. apply (loop_partial (at_label all) (fun r => well_parsed all r.1 r.2)); [|done].
  intros c Hc. pose proof (step_ok all fuel c Hc). by destruct (engine_step tables fuel c) as [[|[]]| |].
Qed.

(** ** The ML code *)

(** The values that a semantic action sees. *)
Definition args env : list V :=
  take (Z.to_nat (rule_len env)) (drop (Z.to_nat (asp env - rule_len env + 1)) (v_stack env)).

(** The stacks have been copied into larger ones. *)
Definition grown env env' : Prop :=
  exists ss vs sts sends size, s_stack env `prefix_of` ss /\ v_stack env `prefix_of` vs /\
    env' = mkEnv ss vs sts sends size (stackbase env) (curr_char env) (lval env) (symb_start env) (symb_end env)
      (asp env) (rule_len env) (rule_number env) (sp env) (state env) (errflag env).

Definition at_pos env (p q : P) : parser_env V P :=
  mkEnv (s_stack env) (v_stack env) (symb_start_stack env) (symb_end_stack env) (stacksize env) (stackbase env) (curr_char env)
    (lval env) p q (asp env) (rule_len env) (rule_number env) (sp env) (state env) (errflag env).

(** Parsing from the entry point [curr_char env], without error recovery: the
    tokens read so far, and the last answer of the engine. *)
Inductive session : list tok -> parser_output -> parser_env V P -> Prop :=
  | s_start fuel env out env' : 0 <= sp env -> stackbase env = sp env + 1 -> 0 <= curr_char env ->
      caml_parse_engine val0 tables fuel env START Nothing = Ok (out, env') -> session [(curr_char env, lval env)] out env'
  | s_token all env p q t k fuel out env' : session all READ_TOKEN env -> token_of t k -> 0 <= k.1 ->
      caml_parse_engine val0 tables fuel (at_pos env p q) TOKEN_READ (Token t) = Ok (out, env') -> session (all ++ [k]) out env'
  | s_grown_1 all env env1 fuel out env' : session all GROW_STACKS_1 env -> grown env env1 ->
      caml_parse_engine val0 tables fuel env1 STACKS_GROWN_1 Nothing = Ok (out, env') -> session all out env'
  | s_grown_2 all env env1 fuel out env' : session all GROW_STACKS_2 env -> grown env env1 ->
      caml_parse_engine val0 tables fuel env1 STACKS_GROWN_2 Nothing = Ok (out, env') -> session all out env'
  | s_action all env fuel out env' : session all COMPUTE_SEMANTIC_ACTION env -> stackbase env < sp env ->
      caml_parse_engine val0 tables fuel env SEMANTIC_ACTION_COMPUTED (Value (action (rule_number env) (args env))) = Ok (out, env') ->
      session all out env'.

Lemma holds_grown env env' es : grown env env' -> holds env es -> holds env' es.
Proof.
  intros (ss & vs & sts & sends & size & Hs & Hv & ->) [Hb Hget]. split; [done|]. intros i s v Hi.
  destruct (Hget i s v Hi). split; by eapply prefix_lookup_Some.
Qed.

Lemma token_ok all env p q t k env' :
  parsing all (RESTORE env) env -> curr_char env < 0 -> token_of t k -> 0 <= k.1 ->
  token_read val0 tables t (at_pos env p q) = Ok env' -> parsing (all ++ [k]) (RESTORE (at_pos env p q)) env' /\ 0 <= curr_char env'.
Proof.
  intros (es & w & pd & Hh & Hst & -> & Hp & Hrest) Hc Ht Hk E. destruct Hp as [[_ ->]|[? _]]; [|lia]. rewrite app_nil_r.
  assert (env' = set_curr (at_pos env p q) k.1 k.2) as ->.
  { destruct t as [n|tag v]; destruct Ht as [Ei Ev]; cbn in E; rewrite Ei in E; cbn in E; injection E as <-; by rewrite Ev. }
  split; [|done]. exists es, w, [k]. split; [exact Hh|]. split; [done|]. split; [done|]. split; [right; split; [done|by destruct k]|exact Hrest].
Qed.

Lemma args_ok env es es2 :
  holds env (es ++ es2) -> asp env = height env (length (es ++ es2)) -> rule_len env = Z.of_nat (length es2) -> args env = es2.*2.
Proof.
  intros [Hb Hget] Ea El. unfold args, height in *. rewrite El, Ea, length_app, Nat2Z.id.
  replace (Z.to_nat (stackbase env - 1 + Z.of_nat (length es + length es2) - Z.of_nat (length es2) + 1))
    with (Z.to_nat (stackbase env) + length es)%nat by lia.
  apply list_eq. intros i. rewrite list_lookup_fmap. destruct (decide (i < length es2)%nat).
  - rewrite lookup_take_lt, lookup_drop by done. destruct (lookup_lt_is_Some_2 es2 i) as [[s v] Hi]; [done|]. rewrite Hi. cbn.
    destruct (Hget (length es + i)%nat s v) as [_ Hv]; [rewrite lookup_app_r by lia; by replace (length es + i - length es)%nat with i by lia|].
    by rewrite Nat.add_assoc in Hv.
  - rewrite lookup_take_ge, lookup_ge_None_2 by lia. done.
Qed.

Lemma action_ok all env env' :
  reducing all (RESTORE env) env -> stackbase env < sp env ->
  semantic_action_computed (action (rule_number env) (args env)) env = Ok env' -> parsing all (RESTORE env) env'.
Proof.
  intros Hr Hlt E. destruct (Hr ltac:(cbn; lia)) as (es & es2 & w & w2 & p & x & Hh & Hst & Hsp & -> & Hp & Ea & Erl & En & Ex & Esp & Hm & He).
  cbn [RESTORE l_sp l_state l_errflag] in *. unfold semantic_action_computed in E.
  apply bind_Ok in E as (ss & E1 & (vs & E2 & (q & _ & (sends & _ & (sts & _ & [= <-])%bind_Ok)%bind_Ok)%bind_Ok)%bind_Ok).
  rewrite (args_ok _ _ _ Hh Ea Erl) in *. rewrite Esp in E1, E2. set (v := action _ _) in *.
  assert (holds env es) as Hh1.
  { destruct Hh as [Hb Hget]. split; [done|]. intros i s' v' Hi. apply Hget. by apply lookup_app_l_Some. }
  exists (es ++ [(state env, v)]), (w ++ w2), p. split; [by eapply holds_push|].
  assert (es <> []) as Hne by (intros ->; unfold height in Esp; cbn in Esp; lia).
  rewrite top_snoc, length_app, Nat.add_comm, app_assoc. split; [|split_and!; [done|exact Hp|exact Esp|done|exact He]].
  eapply stacked_snoc; [done|by apply Hm|]. apply d_rule; [by rewrite length_fmap|done|done].
Qed.

Lemma session_ok all out env : session all out env -> well_parsed all out env.
Proof.
  induction 1 as [fuel env out env' Hsp Hb Hc E|all env p q t k fuel out env' _ [IH Hc] Ht Hk E|all env env1 fuel out env' _ IH Hg E|
    all env env1 fuel out env' _ IH Hg E|all env fuel out env' _ IH Hlt E]; unfold caml_parse_engine in E.
  - eapply run_ok; [|exact E]. exists [], [], [(curr_char env, lval env)].
    split; [split; [lia|done]|]. split_and!; [constructor|done|by right|unfold height; cbn; lia|done|done].
  - apply bind_Ok in E as (env1 & Et & E). eapply run_ok; [|exact E]. by eapply token_ok.
  - eapply run_ok; [|exact E]. destruct IH as (es & w & c & Hh & Hrest). pose proof (holds_grown _ _ _ Hg Hh).
    destruct Hg as (ss & vs & sts & sends & size & _ & _ & ->). exists es, w, c. split; [done|exact Hrest].
  - eapply run_ok; [|exact E]. intros Hlow.
    assert (stackbase env <= sp env) as Hlow' by (by destruct Hg as (ss & vs & sts & sends & size & _ & _ & ->)).
    destruct (IH Hlow') as (es & es2 & w & w2 & p & x & Hh & Hrest). pose proof (holds_grown _ _ _ Hg Hh).
    destruct Hg as (ss & vs & sts & sends & size & _ & _ & ->). exists es, es2, w, w2, p, x. split; [done|exact Hrest].
  - apply bind_Ok in E as (env1 & Ev & E). eapply run_ok; [|exact E]. by eapply action_ok.
Qed.
End Session.

(** * The theorems *)

(** C15: in a parsing session without error recovery, whatever the tables, the
    stacks hold at every answer of the engine a path of the LR automaton from
    its initial state, whose values are the attributes of derivations of the
    tokens read, in their order, up to the token not yet shifted; and when a
    semantic action is asked for, the values it will see are those of a
    right-hand side of the length of its rule, and the state to be pushed is
    the goto of the state below by its left-hand side. *)
Theorem session_derives {V P} (val0 : V) tables (action : Z -> list V -> V) all out (env : parser_env V P) :
  Forall (fun m => 0 <= m) (len tables) -> session val0 tables action all out env -> well_parsed tables action all out env.
Proof. intros Hlens Hs. by eapply session_ok. Qed.

(** C40: every call of the parsing engine ends, with any tables and any
    environment: there are at most fifteen jumps, one of which may run through
    the states on the stack to discard them. *)
Theorem parse_engine_ends {V P} (val0 : V) tables fuel (env : parser_env V P) cmd a :
  (Z.to_nat (sp env - stackbase env) + 15 < fuel)%nat -> caml_parse_engine val0 tables fuel env cmd a <> Timeout.
Proof. apply engine_ends. Qed.

(** ** The grammar [S -> a], with the entry token 1 and the token [a] = 2 *)
Definition demo_tables : parser_tables :=
  mkTables [] [2] [0; 1; 0] [0; 1; 2] [0; 0; 1; 2] [0; 3] [1; 1; 0; 0] [0; 0; 0; 0] [0; 0] 3 [0; 0; 1; 2] [-1; -1; 1; 2].
Definition demo_env : parser_env Z nat :=
  mkEnv (replicate 5 0) (replicate 5 0) (replicate 5 0%nat) (replicate 5 0%nat) 5 1 1 0 0%nat 0%nat 0 0 0 0 0 0.
Definition demo_action (n : Z) (vs : list Z) : Z := 100 * n + foldr Z.add 0 vs.

Definition answer_of {V P} (r : res (parser_output * parser_env V P)) (d : parser_env V P) : parser_env V P :=
  match r with Ok (_, env) => env | _ => d end.
Definition demo_env1 := Eval vm_compute in answer_of (caml_parse_engine 0 demo_tables 20 demo_env START Nothing) demo_env.
Definition demo_env2 := Eval vm_compute in
  answer_of (caml_parse_engine 0 demo_tables 20 (at_pos demo_env1 1%nat 2%nat) TOKEN_READ (Token (Block 0 42))) demo_env.

Lemma demo_session : session 0 demo_tables demo_action [(1, 0); (2, 42)] COMPUTE_SEMANTIC_ACTION demo_env2.
Proof.
  apply (s_token 0 demo_tables demo_action [(1, 0)] demo_env1 1%nat 2%nat (Block 0 42) (2, 42) 20);
    [|split; reflexivity|cbn; lia|vm_compute; reflexivity].
  apply (s_start 0 demo_tables demo_action 20 demo_env); [cbn; lia|reflexivity|cbn; lia|vm_compute; reflexivity].
Qed.

Example demo_args : args demo_env2 = [42] /\ rule_number demo_env2 = 1 /\ state demo_env2 = 3.
Proof. vm_compute. by split_and!. Qed.

Example session_derives_witness : well_parsed demo_tables demo_action [(1, 0); (2, 42)] COMPUTE_SEMANTIC_ACTION demo_env2.
Proof. apply (session_derives 0); [repeat constructor; discriminate|apply demo_session]. Defined.

Example parse_engine_ends_witness : caml_parse_engine 0 demo_tables 20 demo_env ERROR_DETECTED Nothing <> Timeout.
Proof. apply parse_engine_ends. vm_compute. lia. Defined.
