(* ===== verification/CamlValues.v ===== *)
(** Values of OCaml (ocaml/byterun/mlvalues.h, minor_gc.h, major_gc.h): tagged
    integers, blocks in memory, and the tests on addresses, on a little-endian
    machine with 64-bit words.

    A value is an intnat, a signed 64-bit [Z]; an address is used as an
    unsigned one.  The runtime keeps where its blocks are: the table of atoms,
    the bounds of the minor heap and of the major heap, and the page table. *)
From stdpp Require Import base gmap list.
From Stdlib Require Import ZArith Lia SpecFloat.
From S2P Require Import Prelude CamlMemory.
Open Scope Z_scope.

(** * Integers *)
Definition Is_long (x : Z) : bool := negb (Z.land x 1 =? 0).
Definition Is_block (x : Z) : bool := Z.land x 1 =? 0.
Definition Val_long (x : Z) : Z := s64 (Z.shiftl x 1 + 1).
Definition Long_val (x : Z) : Z := Z.shiftr x 1.
Definition Val_int (x : Z) : Z := Val_long x.
Definition Val_bool (b : bool) : Z := Val_int (if b then 1 else 0).

(** * Tags *)
Definition Lazy_tag : Z := 246.
Definition Closure_tag : Z := 247.
Definition Object_tag : Z := 248.
Definition Infix_tag : Z := 249.
Definition Forward_tag : Z := 250.
Definition Abstract_tag : Z := 251.
Definition String_tag : Z := 252.
Definition Double_tag : Z := 253.
Definition Double_array_tag : Z := 254.
Definition Custom_tag : Z := 255.

(** * Blocks *)
Record heap := mkHeap {
  words : memory;
  caml_atom_table : Z;
  caml_young_start : Z;
  caml_young_end : Z;
  caml_heap_start : Z;
  caml_heap_end : Z;
  caml_page_table : Z -> bool
}.

Section Blocks.
Variable h : heap.

(** The word and the byte at a byte address. *)
Definition word_at (a : Z) : res Z := if u64 a mod 8 =? 0 then rd (words h) (u64 a / 8) else Err segv.
Definition byte_at (a : Z) : res Z := w <- rd (words h) (u64 a / 8); Ok (Z.land (Z.shiftr w (8 * (u64 a mod 8))) 255).

Definition Field (v i : Z) : res Z := w <- word_at (v + 8 * i); Ok (s64 w).
Definition Hd_val (v : Z) : res Z := word_at (v - 8).
Definition Tag_val (v : Z) : res Z := hd <- Hd_val v; Ok (Tag_hd hd).
Definition Wosize_val (v : Z) : res Z := hd <- Hd_val v; Ok (Wosize_hd hd).
Definition Bosize_val (v : Z) : res Z := sz <- Wosize_val v; Ok (u64 (sz * 8)).
Definition Forward_val (v : Z) : res Z := Field v 0.
Definition Oid_val (v : Z) : res Z := f <- Field v 1; Ok (Long_val f).
Definition Infix_offset_val (v : Z) : res Z := Bosize_val v.
Definition Byte_u (v i : Z) : res Z := byte_at (v + i).
Definition Byte (v i : Z) : res Z := b <- byte_at (v + i); Ok (swrap 8 b).

(** The last byte of a string says how many bytes of padding precede it. *)
Definition caml_string_length (s : Z) : res Z :=
  bo <- Bosize_val s; let temp := u64 (bo - 1) in b <- Byte s temp; Ok (u64 (temp - b)).

(** The bits of the double at an address. *)
Definition Double_field (v i : Z) : res Z := word_at (v + 8 * i).
Definition Double_val (v : Z) : res Z := Double_field v 0.

Definition Atom (tag : Z) : Z := caml_atom_table h + 8 * tag + 8.
Definition Is_atom (v : Z) : bool := (Atom 0 <=? v) && (v <=? Atom 255).
Definition Is_young (v : Z) : bool := (u64 v <? caml_young_end h) && (caml_young_start h <? u64 v).
Definition Page_log : Z := 12.
Definition Page (p : Z) : Z := Z.shiftr (u64 p) Page_log.
Definition Is_in_heap (p : Z) : bool := (caml_heap_start h <=? u64 p) && (u64 p <? caml_heap_end h) && caml_page_table h (Page p).

(** A block the runtime knows, whose header can be read. *)
Definition known (v : Z) : bool := Is_atom v || Is_young v || Is_in_heap v.
End Blocks.

(** * Doubles *)

(** The number with the given bits (IEEE 754, binary64). *)
Definition double_of_bits (b : Z) : spec_float :=
  let s := Z.testbit b 63 in
  let e := Z.land (Z.shiftr b 52) 2047 in
  let f := Z.land b (Z.ones 52) in
  if e =? 2047 then (if f =? 0 then S754_infinity s else S754_nan)
  else if e =? 0 then match f with Zpos m => S754_finite s m (-1074) | _ => S754_zero s end
  else match f + 2 ^ 52 with Zpos m => S754_finite s m (e - 1075) | _ => S754_nan end.
Definition double_lt (d1 d2 : Z) : bool := SFltb (double_of_bits d1) (double_of_bits d2).
Definition double_eq (d1 d2 : Z) : bool := SFeqb (double_of_bits d1) (double_of_bits d2).

(** * Custom blocks (custom.h)

    The first field of a custom block is the address of its operations.  The
    comparison also says whether it set [caml_compare_unordered]. *)
Class CustomOps := {
  custom_compare : Z -> option (heap -> Z -> Z -> res (Z * bool));
  custom_hash : Z -> option (heap -> Z -> res Z)
}.

(** The raw data of a custom block of 4 and of 8 bytes, sign extended. *)
Definition Int32_val (h : heap) (v : Z) : res Z := w <- Field h v 1; Ok (s32 w).
Definition Int64_val (h : heap) (v : Z) : res Z := Field h v 1.
Definition Nativeint_val (h : heap) (v : Z) : res Z := Field h v 1.
