(* ===== verification/CamlTrees.v ===== *)
(** The trees that OCaml values represent: a value is a graph in memory, with
    sharing and forward pointers, and polymorphic comparison and hashing are
    functions of the tree it unfolds to. *)
From stdpp Require Import base gmap list.
From Stdlib Require Import ZArith Lia.
From S2P Require Import Prelude CamlMemory CamlValues.
Open Scope Z_scope.

Inductive tree :=
  | TLong (n : Z)
  | TOut (a : Z)                            (** a pointer the runtime does not know *)
  | TString (s : bytes)
  | TDouble (d : Z)
  | TDoubles (ds : list Z)
  | TAbstract
  | TObject (oid : Z)
  | TCustom (ops : Z) (data : list Z)
  | TInfix (t : tree)                       (** inside the closure [t] *)
  | TForward (t : tree)
  | TBlock (tag : Z) (ts : list tree).

(** Induction with the hypothesis for every child of a block. *)
Section Induction.
Variable P : tree -> Prop.
Hypothesis Plong : forall n, P (TLong n).
Hypothesis Pout : forall a, P (TOut a).
Hypothesis Pstring : forall s, P (TString s).
Hypothesis Pdouble : forall d, P (TDouble d).
Hypothesis Pdoubles : forall ds, P (TDoubles ds).
Hypothesis Pabstract : P TAbstract.
Hypothesis Pobject : forall oid, P (TObject oid).
Hypothesis Pcustom : forall ops data, P (TCustom ops data).
Hypothesis Pinfix : forall t, P t -> P (TInfix t).
Hypothesis Pforward : forall t, P t -> P (TForward t).
Hypothesis Pblock : forall tag ts, Forall P ts -> P (TBlock tag ts).

Fixpoint tree_ind' (t : tree) : P t :=
  match t with
  | TLong n => Plong n
  | TOut a => Pout a
  | TString s => Pstring s
  | TDouble d => Pdouble d
  | TDoubles ds => Pdoubles ds
  | TAbstract => Pabstract
  | TObject oid => Pobject oid
  | TCustom ops data => Pcustom ops data
  | TInfix t => Pinfix t (tree_ind' t)
  | TForward t => Pforward t (tree_ind' t)
  | TBlock tag ts => Pblock tag ts ((fix all ts : Forall P ts := match ts with
      | [] => Forall_nil_2 P
      | t :: ts => Forall_cons_2 P t ts (tree_ind' t) (all ts)
      end) ts)
  end.
End Induction.

(** Forward pointers do not show. *)
Fixpoint strip (t : tree) : tree :=
  match t with
  | TForward t => strip t
  | TInfix t => TInfix (strip t)
  | TBlock tag ts => TBlock tag (map strip ts)
  | _ => t
  end.

Definition is_out (t : tree) : bool := match t with TOut _ => true | _ => false end.

Fixpoint tsize (t : tree) : nat :=
  match t with
  | TForward t | TInfix t => S (tsize t)
  | TBlock _ ts => S (list_sum (map tsize ts))
  | _ => 1%nat
  end.

Lemma tsize_pos t : (0 < tsize t)%nat.
Proof. destruct t; cbn; lia. Qed.

(** * Representation *)
Section Repr.
Variable h : heap.

(** [known] block with the given tag. *)
Definition block (v tag : Z) : Prop := Is_block v = true /\ known h v = true /\ Tag_val h v = Ok tag.

Definition plain_tag (tag : Z) : Prop :=
  0 <= tag < 256 /\ tag <> String_tag /\ tag <> Double_tag /\ tag <> Double_array_tag /\ tag <> Abstract_tag /\
  tag <> Infix_tag /\ tag <> Object_tag /\ tag <> Custom_tag /\ tag <> Forward_tag.

(** The words [ws] at the address [a]. *)
Fixpoint words_at (a : Z) (ws : list Z) : Prop :=
  match ws with [] => True | w :: ws => word_at h a = Ok w /\ words_at (a + 8) ws end.
Fixpoint bytes_at (a : Z) (bs : bytes) : Prop :=
  match bs with [] => True | b :: bs => byte_at h a = Ok b /\ bytes_at (a + 1) bs end.

(** [v] represents [t].  No forward pointer leads outside the heap: the source
    compares such a value by its address and not by what it leads to. *)
Fixpoint repr (t : tree) (v : Z) : Prop :=
  match t with
  | TLong n => Is_long v = true /\ in_s 64 v /\ Long_val v = n
  | TOut a => Is_block v = true /\ in_s 64 v /\ known h v = false /\ v = a
  | TString s => block v String_tag /\ caml_string_length h v = Ok (Z.of_nat (length s)) /\ Z.of_nat (length s) < 2 ^ 57 /\ bytes_at v s
  | TDouble d => block v Double_tag /\ Double_val h v = Ok d
  | TDoubles ds => block v Double_array_tag /\ Wosize_val h v = Ok (Z.of_nat (length ds)) /\ Z.of_nat (length ds) <= Max_wosize /\ words_at v ds
  | TAbstract => block v Abstract_tag
  | TObject oid => block v Object_tag /\ Oid_val h v = Ok oid
  | TCustom ops data =>
      block v Custom_tag /\ Wosize_val h v = Ok (Z.of_nat (length data) + 1) /\ Field h v 0 = Ok ops /\ words_at (v + 8) data
  | TInfix t => block v Infix_tag /\ exists off, Infix_offset_val h v = Ok off /\ repr t (v - off)
  | TForward t => block v Forward_tag /\ is_out (strip t) = false /\ exists w, Forward_val h v = Ok w /\ repr t w
  | TBlock tag ts =>
      plain_tag tag /\ block v tag /\ Wosize_val h v = Ok (Z.of_nat (length ts)) /\ Z.of_nat (length ts) <= Max_wosize /\
      (fix fields (ts : list tree) (a : Z) : Prop :=
         match ts with [] => True | t :: ts => (exists w, Field h a 0 = Ok w /\ repr t w) /\ fields ts (a + 8) end) ts v
  end.

(** The values at the address [a] represent the trees [ts]. *)
Fixpoint fields (ts : list tree) (a : Z) : Prop :=
  match ts with [] => True | t :: ts => (exists w, Field h a 0 = Ok w /\ repr t w) /\ fields ts (a + 8) end.

Lemma repr_block tag ts v :
  repr (TBlock tag ts) v <-> plain_tag tag /\ block v tag /\ Wosize_val h v = Ok (Z.of_nat (length ts)) /\ Z.of_nat (length ts) <= Max_wosize /\ fields ts v.
Proof. done. Qed.
End Repr.
