(* ===== verification/CamlCompare.v ===== *)
(** Structural comparison of OCaml (ocaml/byterun/compare.c).

    The comparison goes through two values in parallel with an explicit stack
    of the fields that remain, [count] of them from the addresses [v1] and [v2].
    The stack is a list, the top first, and its size is part of the state: it
    doubles when it is full, up to COMPARE_STACK_MAX_SIZE.  malloc succeeds. *)
From stdpp Require Import base gmap list.
From Stdlib Require Import ZArith Lia.
From S2P Require Import Prelude CamlMemory CamlValues.
Open Scope Z_scope.

Record compare_item := mkItem { ci_v1 : Z; ci_v2 : Z; ci_count : Z }.

Definition COMPARE_STACK_INIT_SIZE : Z := 256.
Definition COMPARE_STACK_MAX_SIZE : Z := 1024 * 1024.

Definition out_of_memory : string := "Out_of_memory".
Definition abstract_value : string := "equal: abstract value".
Definition functional_value : string := "equal: functional value".

(** The new size of the stack. *)
Definition compare_resize_stack (size : Z) : res Z :=
  let newsize := 2 * size in
  if COMPARE_STACK_MAX_SIZE <=? newsize then Err out_of_memory else Ok newsize.

Definition LESS : Z := -1.
Definition EQUAL : Z := 0.
Definition GREATER : Z := 1.
Definition UNORDERED : Z := - 2 ^ 63.

Section Compare.
Context `{CustomOps}.
Variable h : heap.

(** The bytes of two strings: the first difference. *)
Fixpoint compare_bytes (len : nat) (p1 p2 : Z) : res (option Z) :=
  match len with
  | O => Ok None
  | S len =>
      b1 <- byte_at h p1;
      b2 <- byte_at h p2;
      if b1 =? b2 then compare_bytes len (p1 + 1) (p2 + 1) else Ok (Some (b1 - b2))
  end.

(** Two doubles: the result, if it is known. *)
Definition compare_doubles (total : bool) (d1 d2 : Z) : option Z :=
  if double_lt d1 d2 then Some LESS
  else if double_lt d2 d1 then Some GREATER
  else if negb (double_eq d1 d2) then
    if negb total then Some UNORDERED
    else if double_eq d1 d1 then Some GREATER
    else if double_eq d2 d2 then Some LESS
    else None
  else None.

Fixpoint compare_double_fields (total : bool) (n : nat) (v1 v2 i : Z) : res (option Z) :=
  match n with
  | O => Ok None
  | S n =>
      d1 <- Double_field h v1 i;
      d2 <- Double_field h v2 i;
      match compare_doubles total d1 d2 with
      | Some r => Ok (Some r)
      | None => compare_double_fields total n v1 v2 (i + 1)
      end
  end.

Record cstate := mkCState { cs_v1 : Z; cs_v2 : Z; cs_stack : list compare_item; cs_size : Z }.

(** [next_item] of the source. *)
Definition next_item (stack : list compare_item) (size : Z) : res (cstate + Z) :=
  match stack with
  | [] => Ok (inr EQUAL)
  | it :: stack =>
      v1 <- Field h (ci_v1 it) 0;
      v2 <- Field h (ci_v2 it) 0;
      let count := ci_count it - 1 in
      Ok (inl (mkCState v1 v2 (if count =? 0 then stack else mkItem (ci_v1 it + 8) (ci_v2 it + 8) count :: stack) size))
  end.

Definition is_forward (v : Z) : res bool := if known h v then t <- Tag_val h v; Ok (t =? Forward_tag) else Ok false.

(** The blocks [v1] and [v2], both known, with the tag [t1]. *)
Definition compare_blocks (total : bool) (t1 v1 v2 : Z) (stack : list compare_item) (size : Z) : res (cstate + Z) :=
  let break := next_item stack size in
  let return_or_break (r : option Z) := match r with Some r => Ok (inr r) | None => break end in
  if t1 =? String_tag then
    if v1 =? v2 then break
    else
      len1 <- caml_string_length h v1;
      len2 <- caml_string_length h v2;
      r <- compare_bytes (Z.to_nat (if len1 <=? len2 then len1 else len2)) v1 v2;
      match r with
      | Some r => Ok (inr r)
      | None => if negb (len1 =? len2) then Ok (inr (s64 (len1 - len2))) else break
      end
  else if t1 =? Double_tag then
    d1 <- Double_val h v1;
    d2 <- Double_val h v2;
    return_or_break (compare_doubles total d1 d2)
  else if t1 =? Double_array_tag then
    sz1 <- Wosize_val h v1;
    sz2 <- Wosize_val h v2;
    if negb (sz1 =? sz2) then Ok (inr (s64 (sz1 - sz2)))
    else r <- compare_double_fields total (Z.to_nat sz1) v1 v2 0; return_or_break r
  else if t1 =? Abstract_tag then Err abstract_value
  else if (t1 =? Closure_tag) || (t1 =? Infix_tag) then Err functional_value
  else if t1 =? Object_tag then
    oid1 <- Oid_val h v1;
    oid2 <- Oid_val h v2;
    if negb (oid1 =? oid2) then Ok (inr (oid1 - oid2)) else break
  else if t1 =? Custom_tag then
    ops <- Field h v1 0;
    match custom_compare ops with
    | None => Err abstract_value
    | Some compare =>
        '(r, caml_compare_unordered) <- compare h v1 v2;
        if caml_compare_unordered && negb total then Ok (inr UNORDERED)
        else if negb (r =? 0) then Ok (inr r)
        else break
    end
  else
    sz1 <- Wosize_val h v1;
    sz2 <- Wosize_val h v2;
    if negb (sz1 =? sz2) then Ok (inr (s64 (sz1 - sz2)))
    else if sz1 =? 0 then break
    else
      '(stack, size) <-
        (if 1 <? sz1 then
           size <- (if size <=? Z.of_nat (length stack) + 1 then compare_resize_stack size else Ok size);
           Ok (mkItem (v1 + 8) (v2 + 8) (sz1 - 1) :: stack, size)
         else Ok (stack, size));
      w1 <- Field h v1 0;
      w2 <- Field h v2 0;
      Ok (inl (mkCState w1 w2 stack size)).

(** One round of the loop of compare_val. *)
Definition compare_step (total : bool) (s : cstate) : res (cstate + Z) :=
  let v1 := cs_v1 s in
  let v2 := cs_v2 s in
  let continue (v1 v2 : Z) := Ok (inl (mkCState v1 v2 (cs_stack s) (cs_size s))) in
  let next := next_item (cs_stack s) (cs_size s) in
  if (v1 =? v2) && total then next
  else if Is_long v1 then
    if v1 =? v2 then next
    else if Is_long v2 then Ok (inr (Long_val v1 - Long_val v2))
    else
      fwd <- is_forward v2;
      if fwd : bool then w <- Forward_val h v2; continue v1 w else Ok (inr LESS)
  else if Is_long v2 then
    fwd <- is_forward v1;
    if fwd : bool then w <- Forward_val h v1; continue w v2 else Ok (inr GREATER)
  else if negb (known h v1) || negb (known h v2) then
    if v1 =? v2 then next else Ok (inr (Z.shiftr v1 1 - Z.shiftr v2 1))
  else
    t1 <- Tag_val h v1;
    t2 <- Tag_val h v2;
    if t1 =? Forward_tag then w <- Forward_val h v1; continue w v2
    else if t2 =? Forward_tag then w <- Forward_val h v2; continue v1 w
    else if negb (t1 =? t2) then Ok (inr (t1 - t2))
    else compare_blocks total t1 v1 v2 (cs_stack s) (cs_size s).

Definition compare_val (fuel : nat) (v1 v2 : Z) (total : bool) : res Z :=
  loop fuel (compare_step total) (mkCState v1 v2 [] COMPARE_STACK_INIT_SIZE).

Definition caml_compare (fuel : nat) (v1 v2 : Z) : res Z :=
  r <- compare_val fuel v1 v2 true;
  Ok (if r <? 0 then Val_int LESS else if 0 <? r then Val_int GREATER else Val_int EQUAL).
Definition caml_equal (fuel : nat) (v1 v2 : Z) : res Z :=
  r <- compare_val fuel v1 v2 false; Ok (Val_bool (r =? 0)).
Definition caml_notequal (fuel : nat) (v1 v2 : Z) : res Z :=
  r <- compare_val fuel v1 v2 false; Ok (Val_bool (negb (r =? 0))).
Definition caml_lessthan (fuel : nat) (v1 v2 : Z) : res Z :=
  r <- compare_val fuel v1 v2 false; Ok (Val_bool ((r <? 0) && negb (r =? UNORDERED))).
Definition caml_lessequal (fuel : nat) (v1 v2 : Z) : res Z :=
  r <- compare_val fuel v1 v2 false; Ok (Val_bool ((r <=? 0) && negb (r =? UNORDERED))).
Definition caml_greaterthan (fuel : nat) (v1 v2 : Z) : res Z :=
  r <- compare_val fuel v1 v2 false; Ok (Val_bool (0 <? r)).
Definition caml_greaterequal (fuel : nat) (v1 v2 : Z) : res Z :=
  r <- compare_val fuel v1 v2 false; Ok (Val_bool (0 <=? r)).
End Compare.
