(* ===== verification/CamlHash.v ===== *)
(** The generic hash function of OCaml (ocaml/byterun/hash.c).

    The accumulator is a 64-bit word.  The counters start from OCaml integers
    and only go down; they are not large enough to wrap. *)
From stdpp Require Import base gmap list.
From Stdlib Require Import ZArith Lia.
From S2P Require Import Prelude CamlMemory CamlValues.
Open Scope Z_scope.

Record hash_state := mkHash { hash_accu : Z; hash_univ_limit : Z; hash_univ_count : Z }.

Definition Alpha : Z := 65599.
Definition Beta : Z := 19.
Definition Combine (new : Z) (s : hash_state) : hash_state :=
  mkHash (u64 (hash_accu s * Alpha + new)) (hash_univ_limit s) (hash_univ_count s).
Definition Combine_small (new : Z) (s : hash_state) : hash_state :=
  mkHash (u64 (hash_accu s * Beta + new)) (hash_univ_limit s) (hash_univ_count s).
Definition one_limit (s : hash_state) : hash_state := mkHash (hash_accu s) (hash_univ_limit s - 1) (hash_univ_count s).
Definition one_count (s : hash_state) : hash_state := mkHash (hash_accu s) (hash_univ_limit s) (hash_univ_count s - 1).

Section Hash.
Context `{CustomOps}.
Variable h : heap.

(** [n] bytes from the address [p]. *)
Fixpoint hash_bytes (n : nat) (p : Z) (s : hash_state) : res hash_state :=
  match n with
  | O => Ok s
  | S n => b <- byte_at h p; hash_bytes n (p + 1) (Combine_small b s)
  end.

(** The fields below [i], the last first. *)
Fixpoint hash_fields (aux : Z -> hash_state -> res hash_state) (obj : Z) (i : nat) (s : hash_state) : res hash_state :=
  match i with
  | O => Ok s
  | S i => f <- Field h obj (Z.of_nat i); s <- aux f s; hash_fields aux obj i s
  end.

(** The doubles from the byte [j], [n] of them. *)
Fixpoint hash_doubles (n : nat) (obj j : Z) (s : hash_state) : res hash_state :=
  match n with
  | O => Ok s
  | S n => s <- hash_bytes 8 (obj + j) s; hash_doubles n obj (j + 8) s
  end.

(** The switch on the tag, but for Forward_tag. *)
Definition hash_block (aux : Z -> hash_state -> res hash_state) (tag obj : Z) (s : hash_state) : res hash_state :=
  if tag =? String_tag then
    i <- caml_string_length h obj; hash_bytes (Z.to_nat i) obj (one_count s)
  else if tag =? Double_tag then hash_bytes 8 obj (one_count s)
  else if tag =? Double_array_tag then
    bo <- Bosize_val h obj; hash_doubles (Z.to_nat (bo / 8)) obj 0 (one_count s)
  else if tag =? Abstract_tag then Ok s
  else if tag =? Infix_tag then off <- Infix_offset_val h obj; aux (obj - off) s
  else if tag =? Object_tag then oid <- Oid_val h obj; Ok (Combine oid (one_count s))
  else if tag =? Custom_tag then
    ops <- Field h obj 0;
    match custom_hash ops with
    | None => Ok s
    | Some hash => x <- hash h obj; Ok (Combine x (one_count s))
    end
  else
    i <- Wosize_val h obj;
    hash_fields aux obj (Z.to_nat i) (Combine_small tag (one_count s)).

(** From [again]: forward pointers are followed. *)
Definition again_step (aux : Z -> hash_state -> res hash_state) (s : hash_state) (obj : Z) : res (Z + hash_state) :=
  if Is_long obj then Ok (inr (Combine (Long_val obj) (one_count s)))
  else if known h obj then
    tag <- Tag_val h obj;
    if tag =? Forward_tag then w <- Forward_val h obj; Ok (inl w)
    else s <- hash_block aux tag obj s; Ok (inr s)
  else Ok (inr (Combine obj s)).

(** [fuel] bounds the depth of the recursion and the chains of forward
    pointers. *)
Fixpoint hash_aux (fuel : nat) (obj : Z) (s : hash_state) : res hash_state :=
  match fuel with
  | O => Timeout
  | S n =>
      let s := one_limit s in
      if (hash_univ_count s <? 0) || (hash_univ_limit s <? 0) then Ok s
      else loop fuel (again_step (hash_aux n) s) obj
  end.

Definition caml_hash_univ_param (fuel : nat) (count limit obj : Z) : res Z :=
  s <- hash_aux fuel obj (mkHash 0 (Long_val limit) (Long_val count));
  Ok (Val_long (Z.land (hash_accu s) 0x3FFFFFFF)).
End Hash.

(** Variant tags: the bytes before the terminating zero. *)
Definition caml_hash_variant (tag : bytes) : Z :=
  let accu := fold_left (fun accu c => Val_int (s32 (223 * s32 (Long_val accu) + c))) tag (Val_int 0) in
  s32 (s64 (Z.land accu (Val_long 0x7FFFFFFF))).
