(* ===== verification/CamlOrder.v ===== *)
(** The order on trees that the comparison of OCaml decides: integers come
    first, then blocks by tag; strings and arrays are ordered as the source
    says, other blocks by size and then field by field. *)
From stdpp Require Import base gmap list.
From Stdlib Require Import ZArith Lia SpecFloat.
From S2P Require Import Prelude CamlMemory CamlValues CamlTrees.
Open Scope Z_scope.

(** * Comparisons *)

(** [None]: not ordered. *)
Abbreviation ordering := (option comparison).
Definition andthen (c k : ordering) : ordering := match c with Some Eq => k | _ => c end.

Fixpoint lex {A} (f : A -> A -> ordering) (l l' : list A) : ordering :=
  match l, l' with
  | x :: l, y :: l' => andthen (f x y) (lex f l l')
  | _, _ => Some Eq
  end.

Definition by_length {A} (l l' : list A) (k : ordering) : ordering :=
  andthen (Some (Z.of_nat (length l) ?= Z.of_nat (length l'))) k.

Fixpoint bytes_cmp (s s' : bytes) : comparison :=
  match s, s' with
  | [], [] => Eq
  | [], _ => Lt
  | _, [] => Gt
  | b :: s, b' :: s' => match b ?= b' with Eq => bytes_cmp s s' | c => c end
  end.

(** NaN is equal to itself and less than the others in a total comparison. *)
Definition is_nan (d : Z) : bool := match double_of_bits d with S754_nan => true | _ => false end.
Definition double_cmp (total : bool) (d1 d2 : Z) : ordering :=
  match SFcompare (double_of_bits d1) (double_of_bits d2) with
  | Some c => Some c
  | None => if total then Some (if is_nan d1 then if is_nan d2 then Eq else Lt else Gt) else None
  end.

(** Composition: what is known of [a] against [c] from [a] against [b] and [b]
    against [c]. *)
Definition comp3 (ab bc ac : comparison) : Prop :=
  match ab, bc with
  | Eq, x => ac = x
  | x, Eq => ac = x
  | Lt, Lt => ac = Lt
  | Gt, Gt => ac = Gt
  | _, _ => True
  end.
Definition comp3' (ab bc ac : ordering) : Prop :=
  match ab, bc, ac with Some a, Some b, Some c => comp3 a b c | _, _, _ => False end.

Lemma comp3_Z a b c : comp3 (a ?= b) (b ?= c) (a ?= c).
Proof.
  unfold comp3. destruct (Z.compare_spec a b), (Z.compare_spec b c), (Z.compare_spec a c); try done; lia.
Qed.

Lemma comp3_andthen a b c a' b' c' : comp3' a b c -> (a = Some Eq -> b = Some Eq -> comp3' a' b' c') ->
  is_Some a' -> is_Some b' -> is_Some c' -> comp3' (andthen a a') (andthen b b') (andthen c c').
Proof.
  intros H H' [? ->] [? ->] [? ->]. destruct a as [[]|], b as [[]|], c as [[]|]; cbn in *; try done; try (by apply H').
  all: repeat (match goal with x : comparison |- _ => destruct x end; try done; cbn in * ).
Qed.

(** ** Doubles *)

(** Doubles in total order, NaN first. *)
Definition double_rank (b : Z) : Z :=
  if is_nan b then - 2 ^ 64
  else
    let x := Z.land (Z.shiftr b 52) 2047 * 2 ^ 52 + Z.land b (Z.ones 52) in
    if Z.testbit b 63 then - x else x.

(** What a double is: a sign, an exponent field and a fraction. *)
Lemma double_view b :
  exists s e f, 0 <= e < 2048 /\ 0 <= f < 2 ^ 52 /\
    double_of_bits b = (if e =? 2047 then (if f =? 0 then S754_infinity s else S754_nan)
                        else if e =? 0 then match f with Zpos m => S754_finite s m (-1074) | _ => S754_zero s end
                        else match f + 2 ^ 52 with Zpos m => S754_finite s m (e - 1075) | _ => S754_nan end) /\
    double_rank b = (if (e =? 2047) && negb (f =? 0) then - 2 ^ 64 else if s then - (e * 2 ^ 52 + f) else e * 2 ^ 52 + f).
Proof.
  exists (Z.testbit b 63), (Z.land (Z.shiftr b 52) 2047), (Z.land b (Z.ones 52)).
  assert (0 <= Z.land (Z.shiftr b 52) 2047 < 2048) as He by (change 2047 with (Z.ones 11); rewrite Z.land_ones by lia; apply Z.mod_pos_bound; lia).
  assert (0 <= Z.land b (Z.ones 52) < 2 ^ 52) as Hf by (rewrite Z.land_ones by lia; apply Z.mod_pos_bound; lia).
  split; [done|]. split; [done|]. split; [done|]. unfold double_rank, is_nan, double_of_bits.
  set (e := Z.land (Z.shiftr b 52) 2047) in *. set (f := Z.land b (Z.ones 52)) in *. clearbody e f.
  destruct (e =? 2047); [by destruct (f =? 0)|]. cbn [andb].
  destruct (e =? 0); [by destruct f|]. by destruct (f + 2 ^ 52) eqn:E; try lia.
Qed.

Inductive double_case : spec_float -> Z -> Prop :=
  | dc_nan : double_case S754_nan (- 2 ^ 64)
  | dc_inf s : double_case (S754_infinity s) (if s : bool then - (2047 * 2 ^ 52) else 2047 * 2 ^ 52)
  | dc_zero s : double_case (S754_zero s) 0
  | dc_finite s m e : -1074 <= e <= 971 -> Zpos m < 2 ^ 53 -> (-1074 < e -> 2 ^ 52 <= Zpos m) ->
      double_case (S754_finite s m e) (if s : bool then - ((e + 1074) * 2 ^ 52 + Zpos m) else (e + 1074) * 2 ^ 52 + Zpos m).

Lemma double_cases b : double_case (double_of_bits b) (double_rank b).
Proof.
  destruct (double_view b) as (s & e & f & He & Hf & -> & ->). case_zbool (e =? 2047); cbn [andb].
  - case_zbool (f =? 0); cbn [negb]; [|constructor]. subst. replace (2047 * 2 ^ 52 + 0) with (2047 * 2 ^ 52) by lia. constructor.
  - case_zbool (e =? 0).
    + subst e. destruct f as [|m|m]; [|change (-1074) with (0 - 1074)|lia].
      * replace (if s then _ else _) with 0 by (by destruct s). constructor.
      * replace (if s then _ else _) with (if s then - ((-1074 + 1074) * 2 ^ 52 + Zpos m) else (-1074 + 1074) * 2 ^ 52 + Zpos m) by (destruct s; lia).
        by constructor; lia.
    + destruct (f + 2 ^ 52) as [|m|m] eqn:Em; [lia| |lia].
      replace (if s then _ else _) with (if s then - ((e - 1075 + 1074) * 2 ^ 52 + Zpos m) else (e - 1075 + 1074) * 2 ^ 52 + Zpos m) by (destruct s; lia).
      by constructor; lia.
Qed.

Lemma magnitude_cmp e1 m1 e2 m2 :
  -1074 <= e1 -> -1074 <= e2 -> Zpos m1 < 2 ^ 53 -> Zpos m2 < 2 ^ 53 -> (-1074 < e1 -> 2 ^ 52 <= Zpos m1) -> (-1074 < e2 -> 2 ^ 52 <= Zpos m2) ->
  match e1 ?= e2 with Eq => Pos.compare_cont Eq m1 m2 | c => c end = ((e1 + 1074) * 2 ^ 52 + Zpos m1 ?= (e2 + 1074) * 2 ^ 52 + Zpos m2).
Proof.
  intros. change (Pos.compare_cont Eq m1 m2) with (Zpos m1 ?= Zpos m2).
  destruct (Z.compare_spec e1 e2); [subst; destruct (Z.compare_spec (Zpos m1) (Zpos m2))|..]; symmetry;
    rewrite ?Z.compare_eq_iff, ?Z.compare_lt_iff, ?Z.compare_gt_iff; lia.
Qed.

(** The total comparison of doubles is that of their ranks. *)
Lemma double_cmp_rank d1 d2 : double_cmp true d1 d2 = Some (double_rank d1 ?= double_rank d2).
Proof.
  unfold double_cmp, is_nan. destruct (double_cases d1) as [|s1|s1|s1 m1 e1 He1 Hm1 Hn1], (double_cases d2) as [|s2|s2|s2 m2 e2 He2 Hm2 Hn2].
  all: try destruct s1; try destruct s2; cbn [SFcompare]; try done.
  all: f_equal; try (rewrite <- Z.compare_opp; fail).
  all: try (symmetry; rewrite ?Z.compare_lt_iff, ?Z.compare_gt_iff; lia).
  - rewrite Z.compare_opp, <- magnitude_cmp by (try done; lia). by destruct (Z.compare_spec e1 e2), (Z.compare_spec e2 e1); try lia; subst; rewrite ?Pos.compare_cont_antisym.
  - rewrite <- magnitude_cmp by (try done; lia). by destruct (Z.compare_spec e1 e2).
Qed.

(** * Trees *)

(** The interface of custom blocks: what a comparison and a hash function
    compute from the raw data, with the laws that make them part of a total
    order and compatible with it. *)
Class CustomLaws `{CustomOps} := {
  valid_data : Z -> list Z -> Prop;
  data_compare : Z -> list Z -> list Z -> Z * bool;
  data_hash : Z -> list Z -> Z;
  custom_compare_data ops f h v1 v2 p1 p2 :
    custom_compare ops = Some f -> valid_data ops p1 -> valid_data ops p2 ->
    repr h (TCustom ops p1) v1 -> repr h (TCustom ops p2) v2 -> f h v1 v2 = Ok (data_compare ops p1 p2);
  custom_hash_data ops f h v p :
    custom_hash ops = Some f -> valid_data ops p -> repr h (TCustom ops p) v -> f h v = Ok (data_hash ops p);
  data_compare_int ops p1 p2 : in_s 32 (data_compare ops p1 p2).1;
  data_compare_refl ops p : valid_data ops p -> data_compare ops p p = (0, false);
  data_compare_comp ops p1 p2 p3 : valid_data ops p1 -> valid_data ops p2 -> valid_data ops p3 ->
    comp3 ((data_compare ops p1 p2).1 ?= 0) ((data_compare ops p2 p3).1 ?= 0) ((data_compare ops p1 p3).1 ?= 0);
  data_compare_opp ops p1 p2 : valid_data ops p1 -> valid_data ops p2 ->
    ((data_compare ops p2 p1).1 ?= 0) = CompOpp ((data_compare ops p1 p2).1 ?= 0);
  data_hash_compare ops p1 p2 : valid_data ops p1 -> valid_data ops p2 -> (data_compare ops p1 p2).1 = 0 -> data_hash ops p1 = data_hash ops p2
}.

(** Integers before blocks, blocks by tag. *)
Definition rank_of (t : tree) : Z :=
  match t with
  | TLong _ => -1
  | TOut _ => -2
  | TString _ => String_tag
  | TDouble _ => Double_tag
  | TDoubles _ => Double_array_tag
  | TAbstract => Abstract_tag
  | TObject _ => Object_tag
  | TCustom _ _ => Custom_tag
  | TInfix _ => Infix_tag
  | TForward _ => Forward_tag
  | TBlock tag _ => tag
  end.

Section Order.
Context `{CustomLaws}.

Definition custom_cmp (total : bool) (ops : Z) (p p' : list Z) : ordering :=
  let '(r, unordered) := data_compare ops p p' in if unordered && negb total then None else Some (r ?= 0).

Fixpoint tcmp (total : bool) (t t' : tree) : ordering :=
  andthen (Some (rank_of t ?= rank_of t'))
    match t, t' with
    | TLong a, TLong b | TOut a, TOut b | TObject a, TObject b => Some (a ?= b)
    | TString s, TString s' => Some (bytes_cmp s s')
    | TDouble d, TDouble d' => double_cmp total d d'
    | TDoubles ds, TDoubles ds' => by_length ds ds' (lex (double_cmp total) ds ds')
    | TCustom ops p, TCustom _ p' => custom_cmp total ops p p'
    | TBlock _ ts, TBlock _ ts' => by_length ts ts' (lex (tcmp total) ts ts')
    | _, _ => Some Eq
    end.

(** The trees that can be compared: pointers outside the heap only with each
    other, custom blocks only with custom blocks of the same operations, which
    have a comparison; functional and abstract values only with what differs
    from them in its tag. *)
Fixpoint comparable (t t' : tree) : Prop :=
  match t, t' with
  | TOut _, TOut _ => True
  | TOut _, _ | _, TOut _ => False
  | TLong _, TLong _ | TString _, TString _ | TDouble _, TDouble _ | TDoubles _, TDoubles _ | TObject _, TObject _ => True
  | TCustom ops p, TCustom ops' p' => ops = ops' /\ custom_compare ops <> None /\ valid_data ops p /\ valid_data ops p'
  | TBlock tag ts, TBlock tag' ts' =>
      tag = tag' -> tag <> Closure_tag /\
      (fix all (ts ts' : list tree) : Prop := match ts, ts' with t :: ts, t' :: ts' => comparable t t' /\ all ts ts' | _, _ => True end) ts ts'
  | _, _ => rank_of t <> rank_of t'
  end.

Fixpoint all_comparable (ts ts' : list tree) : Prop :=
  match ts, ts' with t :: ts, t' :: ts' => comparable t t' /\ all_comparable ts ts' | _, _ => True end.
Lemma comparable_block tag ts ts' : comparable (TBlock tag ts) (TBlock tag ts') -> tag <> Closure_tag /\ all_comparable ts ts'.
Proof. intros Hc. by destruct (Hc eq_refl). Qed.

(** ** Laws *)

Lemma bytes_cmp_refl s : bytes_cmp s s = Eq.
Proof. induction s as [|b s IH]; [done|]. cbn. by rewrite Z.compare_refl. Qed.
Lemma bytes_cmp_opp s s' : bytes_cmp s' s = CompOpp (bytes_cmp s s').
Proof.
  revert s'. induction s as [|b s IH]; intros [|b' s']; cbn; try done. rewrite (Z.compare_antisym b b'). by destruct (b ?= b'); cbn.
Qed.
Lemma bytes_cmp_comp s1 s2 s3 : comp3 (bytes_cmp s1 s2) (bytes_cmp s2 s3) (bytes_cmp s1 s3).
Proof.
  revert s2 s3. induction s1 as [|a s1 IH]; intros [|b s2] [|c s3]; cbn; try done; try (by destruct (_ ?= _); try destruct (bytes_cmp _ _)).
  pose proof (comp3_Z a b c) as Hz. specialize (IH s2 s3). unfold comp3 in *. destruct (a ?= b), (b ?= c), (a ?= c); try done;
    destruct (bytes_cmp s1 s2), (bytes_cmp s2 s3); done.
Qed.

Lemma lex_comp {A} (f : A -> A -> ordering) l1 l2 l3 :
  length l1 = length l2 -> length l2 = length l3 ->
  (forall i x y z, l1 !! i = Some x -> l2 !! i = Some y -> l3 !! i = Some z -> comp3' (f x y) (f y z) (f x z)) ->
  comp3' (lex f l1 l2) (lex f l2 l3) (lex f l1 l3).
Proof.
  revert l2 l3. induction l1 as [|x l1 IH]; intros [|y l2] [|z l3] H12 H23 Hf; try done. cbn [lex].
  pose proof (Hf O x y z eq_refl eq_refl eq_refl) as Hx.
  assert (comp3' (lex f l1 l2) (lex f l2 l3) (lex f l1 l3)) as Hl by (apply IH; [by injection H12|by injection H23|intros i; apply (Hf (S i))]).
  apply comp3_andthen; [done|done|..]; unfold comp3' in Hl; destruct (lex f l1 l2), (lex f l2 l3), (lex f l1 l3); try done; by eexists.
Qed.

(** Of two trees with the same rank. *)
Definition within (total : bool) (t t' : tree) : ordering :=
  match t, t' with
  | TLong a, TLong b | TOut a, TOut b | TObject a, TObject b => Some (a ?= b)
  | TString s, TString s' => Some (bytes_cmp s s')
  | TDouble d, TDouble d' => double_cmp total d d'
  | TDoubles ds, TDoubles ds' => by_length ds ds' (lex (double_cmp total) ds ds')
  | TCustom ops p, TCustom _ p' => custom_cmp total ops p p'
  | TBlock _ ts, TBlock _ ts' => by_length ts ts' (lex (tcmp total) ts ts')
  | _, _ => Some Eq
  end.
Lemma tcmp_eq total t t' : tcmp total t t' = andthen (Some (rank_of t ?= rank_of t')) (within total t t').
Proof. by destruct t. Qed.

Lemma andthen_some a b : is_Some a -> is_Some b -> is_Some (andthen a b).
Proof. intros [[] ->] [? ->]; by eexists. Qed.
Lemma lex_some {A} (f : A -> A -> ordering) l l' : (forall x y, x ∈ l -> is_Some (f x y)) -> is_Some (lex f l l').
Proof.
  revert l'. induction l as [|x l IH]; intros [|y l'] Hf; try by eexists. cbn. apply andthen_some; [apply Hf; by left|]. apply IH. intros ?? ?. apply Hf. by right.
Qed.
Lemma double_some d d' : is_Some (double_cmp true d d').
Proof. rewrite double_cmp_rank. by eexists. Qed.
Lemma custom_total ops p p' : custom_cmp true ops p p' = Some ((data_compare ops p p').1 ?= 0).
Proof. unfold custom_cmp. destruct (data_compare ops p p') as [r u]. by rewrite andb_false_r. Qed.

Lemma tcmp_some t t' : is_Some (tcmp true t t').
Proof.
  revert t'. induction t using tree_ind'; intros t'; rewrite tcmp_eq; (apply andthen_some; [by eexists|]); destruct t'; cbn [within]; try by eexists.
  - apply double_some.
  - apply andthen_some; [by eexists|]. apply lex_some. intros. apply double_some.
  - rewrite custom_total. by eexists.
  - apply andthen_some; [by eexists|]. apply lex_some. intros x y Hx. rewrite Forall_forall in H1. by apply H1.
Qed.
Lemma within_some t t' : is_Some (within true t t').
Proof.
  destruct t, t'; cbn [within]; try by eexists.
  - apply double_some.
  - apply andthen_some; [by eexists|]. apply lex_some. intros. apply double_some.
  - rewrite custom_total. by eexists.
  - apply andthen_some; [by eexists|]. apply lex_some. intros. apply tcmp_some.
Qed.

Lemma comp3'_Z a b c : comp3' (Some (a ?= b)) (Some (b ?= c)) (Some (a ?= c)).
Proof. apply comp3_Z. Qed.

Lemma comp3_keys (r1 r2 r3 : Z) a b c : (r1 = r2 -> r2 = r3 -> comp3' a b c) -> is_Some a -> is_Some b -> is_Some c ->
  comp3' (andthen (Some (r1 ?= r2)) a) (andthen (Some (r2 ?= r3)) b) (andthen (Some (r1 ?= r3)) c).
Proof.
  intros Hk Ha Hb Hc. apply comp3_andthen; [apply comp3'_Z| |done..]. intros E1 E2. injection E1 as E1. injection E2 as E2.
  by apply Hk; apply Z.compare_eq.
Qed.

Lemma by_length_comp {A} (f : A -> A -> ordering) (l1 l2 l3 : list A) :
  (forall l l', is_Some (lex f l l')) ->
  (length l1 = length l2 -> length l2 = length l3 -> comp3' (lex f l1 l2) (lex f l2 l3) (lex f l1 l3)) ->
  comp3' (by_length l1 l2 (lex f l1 l2)) (by_length l2 l3 (lex f l2 l3)) (by_length l1 l3 (lex f l1 l3)).
Proof.
  intros Hs Hl. unfold by_length. apply comp3_keys; [|apply Hs..]. intros. apply Hl; lia.
Qed.

Lemma all_comparable_lookup ts ts' i t t' : all_comparable ts ts' -> ts !! i = Some t -> ts' !! i = Some t' -> comparable t t'.
Proof.
  revert ts' i. induction ts as [|x ts IH]; intros [|y ts'] [|i] Hc; try done.
  - cbn. intros [= ->] [= ->]. apply Hc.
  - cbn. apply IH. apply Hc.
Qed.

(** Comparable trees of the same rank are made in the same way. *)
Definition shape (t : tree) : nat :=
  match t with
  | TLong _ => 0 | TOut _ => 1 | TString _ => 2 | TDouble _ => 3 | TDoubles _ => 4 | TAbstract => 5 | TObject _ => 6
  | TCustom _ _ => 7 | TInfix _ => 8 | TForward _ => 9 | TBlock _ _ => 10
  end.
Lemma same_shape t t' : comparable t t' -> rank_of t = rank_of t' -> shape t = shape t'.
Proof. intros Hc Hr. destruct t, t'; cbn [comparable] in Hc; try reflexivity; try (exfalso; exact (Hc Hr)); try (exfalso; exact Hc). Qed.
End Order.

Ltac same_shape t' H :=
  let E := fresh in
  match type of H with comparable ?a ?b => assert (shape a = shape b) as E by (apply (same_shape a b H); assumption) end;
  destruct t'; try discriminate E; clear E.

Section Laws.
Context `{CustomLaws}.

(** Transitivity. *)
Lemma tcmp_comp t1 t2 t3 : comparable t1 t2 -> comparable t2 t3 -> comparable t1 t3 -> comp3' (tcmp true t1 t2) (tcmp true t2 t3) (tcmp true t1 t3).
Proof.
  revert t2 t3. induction t1 using tree_ind'; intros t2 t3 H12 H23 H13; rewrite !tcmp_eq;
    (apply comp3_keys; [intros E12 E23|apply within_some..]); same_shape t2 H12; same_shape t3 H23; cbn [within].
  - apply comp3'_Z.
  - apply comp3'_Z.
  - apply bytes_cmp_comp.
  - rewrite !double_cmp_rank. apply comp3'_Z.
  - apply by_length_comp; [intros; apply lex_some; intros; apply double_some|]. intros. apply lex_comp; [done|done|].
    intros. rewrite !double_cmp_rank. apply comp3'_Z.
  - by destruct H12.
  - apply comp3'_Z.
  - destruct H12 as (-> & _ & ? & ?), H23 as (-> & _ & ? & ?). rewrite !custom_total. by apply data_compare_comp.
  - by destruct H12.
  - by destruct H12.
  - cbn [rank_of] in *. subst. destruct (H12 eq_refl) as [_ C12], (H23 eq_refl) as [_ C23], (H13 eq_refl) as [_ C13].
    apply by_length_comp; [intros; apply lex_some; intros; apply tcmp_some|]. intros. apply lex_comp; [done|done|].
    intros i x y z Hx Hy Hz. rewrite Forall_lookup in H1. apply (H1 i x Hx).
    + by apply (all_comparable_lookup ts ts0 i).
    + by apply (all_comparable_lookup ts0 ts1 i).
    + by apply (all_comparable_lookup ts ts1 i).
Qed.

(** Symmetry. *)
Definition opposite (c : ordering) : ordering := option_map CompOpp c.
Lemma opposite_andthen a b a' b' : a' = opposite a -> b' = opposite b -> andthen a' b' = opposite (andthen a b).
Proof. intros -> ->. by destruct a as [[]|]. Qed.
Lemma opposite_Z a b : Some (b ?= a) = opposite (Some (a ?= b)).
Proof. cbn. by rewrite Z.compare_antisym. Qed.
Lemma opposite_lex {A} (f : A -> A -> ordering) l l' :
  (forall i x y, l !! i = Some x -> l' !! i = Some y -> f y x = opposite (f x y)) -> lex f l' l = opposite (lex f l l').
Proof.
  revert l'. induction l as [|x l IH]; intros [|y l'] Hf; try done. cbn. apply opposite_andthen; [by apply (Hf O)|].
  apply IH. intros i. apply (Hf (S i)).
Qed.

Lemma opposite_keys (r1 r2 : Z) a a' : (r1 = r2 -> a' = opposite a) -> andthen (Some (r2 ?= r1)) a' = opposite (andthen (Some (r1 ?= r2)) a).
Proof.
  intros Ha. destruct (Z.eq_dec r1 r2) as [E|E]; [apply opposite_andthen; [apply opposite_Z|by apply Ha]|].
  rewrite (Z.compare_antisym r1 r2). destruct (Z.compare_spec r1 r2); done.
Qed.

Lemma tcmp_opp t t' : comparable t t' -> tcmp true t' t = opposite (tcmp true t t').
Proof.
  revert t'. induction t using tree_ind'; intros t' Hc; rewrite !tcmp_eq; (apply opposite_keys; intros Er); same_shape t' Hc; cbn [within].
  - apply opposite_Z.
  - apply opposite_Z.
  - cbn. by rewrite (bytes_cmp_opp s).
  - rewrite !double_cmp_rank. apply opposite_Z.
  - apply opposite_keys. intros _. apply opposite_lex. intros. rewrite !double_cmp_rank. apply opposite_Z.
  - by destruct Hc.
  - apply opposite_Z.
  - destruct Hc as (-> & _ & ? & ?). rewrite !custom_total. cbn. by rewrite <- data_compare_opp.
  - by destruct Hc.
  - by destruct Hc.
  - cbn [rank_of] in Er. subst. destruct (Hc eq_refl) as [_ Hall]. apply opposite_keys. intros _. apply opposite_lex. intros i x y Hx Hy.
    rewrite Forall_lookup in H1. apply (H1 i x Hx). by apply (all_comparable_lookup ts ts0 i).
Qed.

(** Reflexivity. *)
Lemma lex_refl {A} (f : A -> A -> ordering) l : (forall i x, l !! i = Some x -> f x x = Some Eq) -> lex f l l = Some Eq.
Proof. induction l as [|x l IH]; intros Hf; [done|]. cbn. rewrite (Hf O x eq_refl). apply IH. intros i. apply (Hf (S i)). Qed.
Lemma tcmp_refl t : comparable t t -> tcmp true t t = Some Eq.
Proof.
  induction t using tree_ind'; intros Hc; rewrite tcmp_eq, Z.compare_refl; cbn [within andthen]; rewrite ?Z.compare_refl; try done.
  - by rewrite bytes_cmp_refl.
  - by rewrite double_cmp_rank, Z.compare_refl.
  - unfold by_length. rewrite Z.compare_refl. apply lex_refl. intros. by rewrite double_cmp_rank, Z.compare_refl.
  - destruct Hc as (_ & _ & ? & _). by rewrite custom_total, data_compare_refl.
  - destruct (Hc eq_refl) as [_ Hall]. unfold by_length. rewrite Z.compare_refl. apply lex_refl. intros i x Hx.
    rewrite Forall_lookup in H1. apply (H1 i x Hx). by apply (all_comparable_lookup ts ts i).
Qed.
End Laws.
