(* ===== verification/CamlCompareSpec.v ===== *)
(** Structural comparison of OCaml: it decides the order on trees, without
    ever overflowing its stack on values that are not too deep. *)
From stdpp Require Import base gmap list.
From Stdlib Require Import ZArith Lia SpecFloat.
From S2P Require Import Prelude CamlMemory CamlValues CamlCompare CamlTrees CamlOrder.
Open Scope Z_scope.

(** * Memory *)
Section Memory.
Variable h : heap.

Lemma Field_range v i w : Field h v i = Ok w -> in_s 64 w.
Proof. unfold Field. destruct (word_at h _); cbn; [|done..]. intros [= <-]. unfold in_s. by apply swrap_range. Qed.
Lemma Field_shift v i : Field h (v + 8 * i) 0 = Field h v i.
Proof. unfold Field. by rewrite Z.add_0_r. Qed.
Lemma Tag_range v t : Tag_val h v = Ok t -> 0 <= t < 256.
Proof.
  unfold Tag_val. destruct (Hd_val h v) as [hd| |]; cbn [bind]; [|done..]. intros [= <-]. unfold Tag_hd. change 255 with (Z.ones 8).
  rewrite Z.land_ones by lia. apply Z.mod_pos_bound. lia.
Qed.
Lemma byte_range a b : byte_at h a = Ok b -> 0 <= b < 256.
Proof.
  unfold byte_at. destruct (rd _ _) as [w| |]; cbn [bind]; [|done..]. intros [= <-]. change 255 with (Z.ones 8).
  rewrite Z.land_ones by lia. apply Z.mod_pos_bound. lia.
Qed.
Lemma land_1 v : Z.land v 1 = v mod 2.
Proof. change 1 with (Z.ones 1). by rewrite Z.land_ones. Qed.
Lemma long_split v : Is_long v = true -> v = 2 * Long_val v + 1.
Proof.
  unfold Is_long, Long_val. rewrite land_1, Z.shiftr_div_pow2 by lia. change (2 ^ 1) with 2. pose proof (Z.div_mod v 2). pose proof (Z.mod_pos_bound v 2).
  case_zbool (v mod 2 =? 0); [done|]. lia.
Qed.
Lemma block_split v : Is_block v = true -> v = 2 * Z.shiftr v 1.
Proof.
  unfold Is_block. rewrite land_1, Z.shiftr_div_pow2 by lia. change (2 ^ 1) with 2. pose proof (Z.div_mod v 2). intros Hz%Z.eqb_eq. lia.
Qed.
Lemma long_block v : Is_block v = negb (Is_long v).
Proof. unfold Is_block, Is_long. by rewrite negb_involutive. Qed.
Lemma block_long v tag : block h v tag -> Is_long v = false.
Proof. intros (Hb & _). rewrite long_block in Hb. by destruct (Is_long v). Qed.

Lemma words_at_det a ws ws' : length ws = length ws' -> words_at h a ws -> words_at h a ws' -> ws = ws'.
Proof.
  revert a ws'. induction ws as [|w ws IH]; intros a [|w' ws'] Hl H1 H2; try done. cbn in H1, H2. destruct H1 as [E1 H1], H2 as [E2 H2].
  f_equal; [congruence|]. eapply IH; [by injection Hl|done|done].
Qed.
Lemma bytes_at_det a bs bs' : length bs = length bs' -> bytes_at h a bs -> bytes_at h a bs' -> bs = bs'.
Proof.
  revert a bs'. induction bs as [|w bs IH]; intros a [|w' bs'] Hl H1 H2; try done. cbn in H1, H2. destruct H1 as [E1 H1], H2 as [E2 H2].
  f_equal; [congruence|]. eapply IH; [by injection Hl|done|done].
Qed.

(** The kind of value that represents a tree. *)
Lemma repr_kind t v : repr h t v ->
  match t with
  | TLong _ => Is_long v = true
  | TOut _ => Is_long v = false /\ known h v = false
  | _ => Is_long v = false /\ known h v = true /\ Tag_val h v = Ok (rank_of t)
  end.
Proof.
  assert (forall tag, block h v tag -> Is_long v = false /\ known h v = true /\ Tag_val h v = Ok tag) as Hb.
  { intros tag Hb. split; [by eapply block_long|apply Hb]. }
  destruct t; cbn; intros Hr; try (apply Hb, Hr).
  - apply Hr.
  - destruct Hr as (Hv & _ & Hk & _). rewrite long_block in Hv. by destruct (Is_long v).
Qed.

Lemma repr_shape t t' v : repr h t v -> repr h t' v -> shape t = shape t' /\ rank_of t = rank_of t'.
Proof.
  intros H1 H2. pose proof (repr_kind _ _ H1) as K1. pose proof (repr_kind _ _ H2) as K2.
  assert (forall tag ts, repr h (TBlock tag ts) v -> plain_tag tag) as Hp by (intros ? ? [? _]; done).
  destruct t, t'; cbn [rank_of shape] in *; try (split; reflexivity); try (exfalso; intuition congruence).
  all: destruct K1 as (? & ? & E1), K2 as (? & ? & E2); assert (Ok (A:=Z) _ = Ok _) as E by (etrans; [symmetry; exact E1|exact E2]); injection E as E.
  all: try (by subst); try (unfold Double_tag, Double_array_tag, String_tag, Abstract_tag, Object_tag, Custom_tag, Infix_tag, Forward_tag in E; lia).
  all: exfalso; first [apply Hp in H1|apply Hp in H2]; unfold plain_tag in *; intuition congruence.
Qed.

Lemma repr_det t t' v : repr h t v -> repr h t' v -> t = t'.
Proof.
  revert t' v. induction t using tree_ind'; intros t' v H1 H2; destruct (repr_shape _ _ _ H1 H2) as [Es Er]; destruct t'; try discriminate Es; clear Es;
    cbn [repr] in H1, H2.
  - f_equal. destruct H1 as (_ & _ & <-), H2 as (_ & _ & <-). done.
  - f_equal. destruct H1 as (_ & _ & _ & <-), H2 as (_ & _ & _ & <-). done.
  - destruct H1 as (_ & E1 & _ & B1), H2 as (_ & E2 & _ & B2). f_equal. eapply bytes_at_det; [|done|done]. rewrite E1 in E2. injection E2. lia.
  - destruct H1 as (_ & E1), H2 as (_ & E2). congruence.
  - destruct H1 as (_ & E1 & _ & B1), H2 as (_ & E2 & _ & B2). f_equal. eapply words_at_det; [|done|done]. rewrite E1 in E2. injection E2. lia.
  - done.
  - destruct H1 as (_ & E1), H2 as (_ & E2). congruence.
  - destruct H1 as (_ & E1 & F1 & B1), H2 as (_ & E2 & F2 & B2). f_equal; [congruence|]. eapply words_at_det; [|done|done]. rewrite E1 in E2. injection E2. lia.
  - destruct H1 as (_ & o1 & E1 & R1), H2 as (_ & o2 & E2 & R2). f_equal. eapply IHt; [done|]. congruence.
  - destruct H1 as (_ & _ & o1 & E1 & R1), H2 as (_ & _ & o2 & E2 & R2). f_equal. eapply IHt; [done|]. congruence.
  - apply repr_block in H1 as (_ & _ & E1 & _ & F1), H2 as (_ & _ & E2 & _ & F2). cbn in Er. f_equal; [done|].
    assert (length ts = length ts0) as Hl by (rewrite E1 in E2; injection E2; lia). clear E1 E2 Er. rename ts0 into ts'.
    revert v ts' Hl F1 F2. induction H as [|t ts Ht Hts IH]; intros v [|t' ts'] Hl F1 F2; try done. cbn in F1, F2.
    destruct F1 as [(w1 & E1 & R1) F1], F2 as [(w2 & E2 & R2) F2]. f_equal; [eapply Ht; [done|]; congruence|]. eapply IH; [by injection Hl|done|done].
Qed.
End Memory.

(** * Results *)

(** What compare_val returns for an ordering. *)
Definition agrees (c : ordering) (r : Z) : Prop :=
  match c with None => r = UNORDERED | Some c => UNORDERED < r /\ (r ?= 0) = c end.

(** What a comparison that goes on when it finds no difference returns. *)
Definition partial (c : ordering) (r : option Z) : Prop :=
  match r with None => c = Some Eq | Some r => agrees c r /\ c <> Some Eq end.

Lemma agrees_sub a b : 0 <= a < 2 ^ 62 -> 0 <= b < 2 ^ 62 -> agrees (Some (a ?= b)) (a - b).
Proof. intros. split; [unfold UNORDERED; lia|]. destruct (Z.compare_spec a b); rewrite ?Z.compare_eq_iff, ?Z.compare_lt_iff, ?Z.compare_gt_iff; lia. Qed.
Lemma agrees_diff a b : - 2 ^ 62 <= a < 2 ^ 62 -> - 2 ^ 62 <= b < 2 ^ 62 -> agrees (Some (a ?= b)) (a - b).
Proof. intros. split; [unfold UNORDERED; lia|]. destruct (Z.compare_spec a b); rewrite ?Z.compare_eq_iff, ?Z.compare_lt_iff, ?Z.compare_gt_iff; lia. Qed.
Lemma compare_neq a b : a <> b -> Some (a ?= b) <> Some Eq.
Proof. intros Hne E. injection E as E. by apply Z.compare_eq in E. Qed.
Lemma shift_range v : in_s 64 v -> - 2 ^ 62 <= Z.shiftr v 1 < 2 ^ 62.
Proof. unfold in_s. rewrite Z.shiftr_div_pow2 by lia. change (64 - 1) with 63. intros. change (2 ^ 1) with 2. pose proof (Z.div_mod v 2). pose proof (Z.mod_pos_bound v 2). lia. Qed.

Section Local.
Variable h : heap.
Variable total : bool.

Lemma compare_bytes_ok s1 s2 p1 p2 :
  bytes_at h p1 s1 -> bytes_at h p2 s2 ->
  exists r, compare_bytes h (Nat.min (length s1) (length s2)) p1 p2 = Ok r /\
    match r with
    | Some d => agrees (Some (bytes_cmp s1 s2)) d /\ bytes_cmp s1 s2 <> Eq
    | None => bytes_cmp s1 s2 = (Z.of_nat (length s1) ?= Z.of_nat (length s2))
    end.
Proof.
  revert s2 p1 p2. induction s1 as [|b1 s1 IH]; intros [|b2 s2] p1 p2 H1 H2; try (exists None; split; done).
  cbn in H1, H2. destruct H1 as [E1 H1], H2 as [E2 H2]. cbn [Nat.min length compare_bytes]. rewrite E1, E2. cbn [bind].
  pose proof (byte_range _ _ _ E1). pose proof (byte_range _ _ _ E2). case_zbool (b1 =? b2).
  - subst b2. destruct (IH s2 _ _ H1 H2) as (r & -> & Hr). exists r. split; [done|]. cbn [bytes_cmp]. rewrite Z.compare_refl.
    destruct r; [done|]. rewrite Hr. by rewrite !Nat2Z.inj_compare.
  - eexists. split; [done|]. cbn [bytes_cmp]. assert (agrees (Some (b1 ?= b2)) (b1 - b2)) as Ha by (apply agrees_sub; lia).
    destruct (Z.compare_spec b1 b2); done.
Qed.

Lemma SFcompare_swap x y : SFcompare y x = option_map CompOpp (SFcompare x y).
Proof.
  destruct x as [sx|sx| |sx mx ex], y as [sy|sy| |sy my ey]; cbn; try done; try (by destruct sx); try (by destruct sy); try (by destruct sx, sy).
  rewrite (Z.compare_antisym ex ey). destruct sx, sy; cbn; try done; destruct (ex ?= ey); cbn; try done;
    rewrite ?CompOpp_involutive; change (Pos.compare_cont Eq) with Pos.compare; by rewrite (Pos.compare_antisym mx my), ?CompOpp_involutive.
Qed.

Lemma compare_doubles_ok d1 d2 : partial (double_cmp total d1 d2) (compare_doubles total d1 d2).
Proof.
  unfold compare_doubles, double_cmp, double_lt, double_eq, SFltb, SFeqb. rewrite (SFcompare_swap (double_of_bits d1)).
  destruct (SFcompare (double_of_bits d1) (double_of_bits d2)) as [[]|] eqn:E; cbn; try done.
  destruct total; cbn [negb]; [|by split].
  assert (forall d, SFcompare (double_of_bits d) (double_of_bits d) = if is_nan d then None else Some Eq) as Hself.
  { intros d. unfold is_nan. destruct (double_of_bits d) as [[]|[]| |[] m e]; try done; cbn; rewrite Z.compare_refl;
      change (Pos.compare_cont Eq m m) with (Pos.compare m m); by rewrite Pos.compare_refl. }
  rewrite !Hself. destruct (is_nan d1) eqn:N1, (is_nan d2) eqn:N2; try done.
Qed.

Lemma partial_andthen c k r r' : partial c r -> (c = Some Eq -> partial k r') -> partial (andthen c k) (match r with Some x => Some x | None => r' end).
Proof. destruct r as [x|]; cbn; [|intros -> Hk; by apply Hk]. intros [Ha Hn] _. by destruct c as [[]|]. Qed.

Lemma word_at_shift a i : word_at h (a + 8 * i) = Double_field h a i.
Proof. done. Qed.

Lemma compare_double_fields_ok ds1 ds2 v1 v2 i :
  length ds1 = length ds2 -> words_at h (v1 + 8 * i) ds1 -> words_at h (v2 + 8 * i) ds2 ->
  exists r, compare_double_fields h total (length ds1) v1 v2 i = Ok r /\ partial (lex (double_cmp total) ds1 ds2) r.
Proof.
  revert ds2 i. induction ds1 as [|d1 ds1 IH]; intros [|d2 ds2] i Hl H1 H2; try done; [by exists None|].
  cbn [words_at] in H1, H2. destruct H1 as [E1 H1], H2 as [E2 H2]. cbn [length compare_double_fields]. unfold Double_field. rewrite E1, E2. cbn [bind lex].
  destruct (IH ds2 (i + 1)) as (r & Er & Hr); [by injection Hl|by replace (v1 + 8 * (i + 1)) with (v1 + 8 * i + 8) by lia|by replace (v2 + 8 * (i + 1)) with (v2 + 8 * i + 8) by lia|].
  pose proof (compare_doubles_ok d1 d2) as Hd. pose proof (partial_andthen _ _ _ r Hd (fun _ => Hr)) as Hp.
  destruct (compare_doubles total d1 d2); eexists; (split; [|exact Hp]); [done|exact Er].
Qed.
End Local.

(** * The traversal *)

(** The height of stack that a tree needs: the last field of a block is
    compared when the item of the block has left the stack. *)
Fixpoint need (t : tree) : Z :=
  match t with
  | TForward t => need t
  | TBlock _ ts => (fix needs (ts : list tree) : Z :=
      match ts with [] => 0 | t :: ts => match ts with [] => need t | _ => Z.max (1 + need t) (needs ts) end end) ts
  | _ => 0
  end.
Fixpoint needs (ts : list tree) : Z :=
  match ts with [] => 0 | t :: ts => match ts with [] => need t | _ => Z.max (1 + need t) (needs ts) end end.
Lemma need_pos t : 0 <= need t.
Proof.
  induction t using tree_ind'; cbn [need]; try lia. induction H as [|t ts Ht Hts IH]; [lia|]. destruct ts; [done|]. lia.
Qed.

Definition sizes (ts : list tree) : nat := list_sum (map tsize ts).

Section Traversal.
Context `{CustomLaws}.
Variable h : heap.
Variable total : bool.

(** What is left to compare: lists of fields, in pairs. *)
Definition frames := (list (list tree * list tree)).
Definition frame_ok (it : compare_item) (fr : list tree * list tree) : Prop :=
  fr.1 <> [] /\ length fr.1 = length fr.2 /\ ci_count it = Z.of_nat (length fr.1) /\
  fields h fr.1 (ci_v1 it) /\ fields h fr.2 (ci_v2 it) /\ all_comparable (map strip fr.1) (map strip fr.2).

Definition frame_cmp (fr : list tree * list tree) : ordering := lex (tcmp total) (map strip fr.1) (map strip fr.2).
Fixpoint rest (L : frames) : ordering := match L with [] => Some Eq | fr :: L => andthen (frame_cmp fr) (rest L) end.
Fixpoint msize (L : frames) : nat := match L with [] => 0 | fr :: L => sizes fr.1 + sizes fr.2 + msize L end.
Definition max_items : Z := 2 ^ 19 - 1.
Fixpoint fits (L : frames) : Prop := match L with [] => True | fr :: L => Z.of_nat (length L) + needs fr.1 <= max_items /\ fits L end.

Record inv (C : ordering) (s : cstate) (t1 t2 : tree) (L : frames) : Prop := {
  in_v1 : repr h t1 (cs_v1 s);
  in_v2 : repr h t2 (cs_v2 s);
  in_cmp : comparable (strip t1) (strip t2);
  in_stack : Forall2 frame_ok (cs_stack s) L;
  in_fits : Z.of_nat (length L) + need t1 <= max_items /\ fits L;
  in_res : andthen (tcmp total (strip t1) (strip t2)) (rest L) = C
}.

(** The outcome of a round: the answer, or a state with less to compare. *)
Definition good (C : ordering) (m : nat) (x : res (cstate + Z)) : Prop :=
  (exists r, x = Ok (inr r) /\ agrees C r) \/
  (exists s t1 t2 L, x = Ok (inl s) /\ inv C s t1 t2 L /\ (tsize t1 + tsize t2 + msize L <= m)%nat).

Lemma andthen_assoc a b c : andthen (andthen a b) c = andthen a (andthen b c).
Proof. by destruct a as [[]|]. Qed.

Lemma next_good C stack size L : Forall2 frame_ok stack L -> fits L -> rest L = C -> good C (msize L) (next_item h stack size).
Proof.
  intros Hf Hfit Hr. destruct Hf as [|it fr stack L Hit Hf]; cbn [next_item].
  - left. eexists. split; [done|]. rewrite <- Hr. by split.
  - right. destruct fr as [[|t1 ts1] [|t2 ts2]]; destruct Hit as (Hne & Hl & Hc & F1 & F2 & Hcmp); cbn [fst snd] in *; try done.
    cbn in F1, F2. destruct F1 as [(w1 & E1 & R1) F1], F2 as [(w2 & E2 & R2) F2]. rewrite E1, E2. cbn [bind].
    cbn [map all_comparable] in Hcmp. destruct Hcmp as [Hcmp Hcmps]. cbn [fits fst] in Hfit. destruct Hfit as [Hfit Hfits].
    rewrite <- Hr. cbn [rest]. unfold frame_cmp. cbn [fst snd map lex]. rewrite andthen_assoc.
    case_zbool (ci_count it - 1 =? 0).
    + assert (ts1 = []) as -> by (destruct ts1; [done|cbn [length] in Hc; lia]). destruct ts2; [|done].
      eexists _, t1, t2, L. split; [reflexivity|]. split; [|cbn; lia]. split; try done.
    + assert (ts1 <> []) as Hne1 by (intros ->; cbn [length] in Hc; lia).
      assert (needs (t1 :: ts1) = Z.max (1 + need t1) (needs ts1)) as Hn by (by destruct ts1). rewrite Hn in Hfit.
      eexists _, t1, t2, ((ts1, ts2) :: L). split; [reflexivity|]. split; [|cbn; lia].
      split; cbn [cs_v1 cs_v2 cs_stack fits fst]; try done; [|split; [cbn [length]; lia|split; [lia|done]]].
      constructor; [|done]. repeat split; cbn [fst snd ci_count ci_v1 ci_v2]; try done; [by injection Hl|cbn [length] in Hc; lia].
Qed.

Lemma good_le C m m' x : good C m x -> (m <= m')%nat -> good C m' x.
Proof. intros [?|(s & t1 & t2 & L & ? & ? & ?)] Hm; [by left|right]. exists s, t1, t2, L. split; [done|]. split; [done|lia]. Qed.

(** A comparison without traversal. *)
Lemma partial_good c stack size L r :
  partial c r -> Forall2 frame_ok stack L -> fits L ->
  good (andthen c (rest L)) (msize L) (match r with Some r => Ok (inr r) | None => next_item h stack size end).
Proof.
  intros Hp Hs Hf. destruct r as [r|]; cbn in Hp.
  - left. exists r. split; [done|]. destruct Hp as [Ha Hn]. by destruct c as [[]|].
  - subst c. by apply next_good.
Qed.

Lemma return_good c C m L r : agrees c r -> c <> Some Eq -> andthen c (rest L) = C -> good C m (Ok (inr r)).
Proof. intros Ha Hn <-. left. exists r. split; [done|]. by destruct c as [[]|]. Qed.

Lemma tcmp_within t1 t2 : rank_of t1 = rank_of t2 -> tcmp total t1 t2 = within total t1 t2.
Proof. intros E. by rewrite tcmp_eq, E, Z.compare_refl. Qed.

Lemma custom_refl ops p : valid_data ops p -> custom_cmp total ops p p = Some Eq.
Proof. intros Hv. unfold custom_cmp. by rewrite data_compare_refl. Qed.

Lemma andthen_neq x k k' : x <> Eq -> andthen (andthen (Some x) k) k' = Some x.
Proof. by destruct x. Qed.
Lemma good_neq C m x k k' r : x <> Eq -> agrees (Some x) r -> andthen (andthen (Some x) k) k' = C -> good C m (Ok (inr r)).
Proof. intros Hx Ha <-. rewrite andthen_neq by done. left. by exists r. Qed.
Lemma agrees_s64 n m : Z.of_nat n < 2 ^ 57 -> Z.of_nat m < 2 ^ 57 -> agrees (Some (Z.of_nat n ?= Z.of_nat m)) (s64 (Z.of_nat n - Z.of_nat m)).
Proof. intros. rewrite swrap_small by lia. apply agrees_sub; lia. Qed.
Lemma compare_neq' a b : a <> b -> (a ?= b) <> Eq.
Proof. intros Hne E. by apply Z.compare_eq in E. Qed.

(** A traversed block. *)
Lemma fields_good C v1 v2 stack size tag ts1 ts2 L :
  plain_tag tag -> tag <> Closure_tag ->
  Wosize_val h v1 = Ok (Z.of_nat (length ts1)) -> Wosize_val h v2 = Ok (Z.of_nat (length ts2)) ->
  Z.of_nat (length ts1) <= Max_wosize -> Z.of_nat (length ts2) <= Max_wosize ->
  fields h ts1 v1 -> fields h ts2 v2 -> all_comparable (map strip ts1) (map strip ts2) ->
  Forall2 frame_ok stack L -> Z.of_nat (length L) + needs ts1 <= max_items -> fits L ->
  andthen (by_length ts1 ts2 (lex (tcmp total) (map strip ts1) (map strip ts2))) (rest L) = C ->
  good C (sizes ts1 + sizes ts2 + msize L) (compare_blocks h total tag v1 v2 stack size).
Proof.
  intros Ht Hcl W1 W2 M1 M2 F1 F2 Hc Hs Hfit Hfits HC. unfold compare_blocks. destruct Ht as (_ & Ht).
  do 7 (rewrite (proj2 (Z.eqb_neq tag _)) by tauto). rewrite (proj2 (Z.eqb_neq tag Custom_tag)) by tauto. cbn [orb].
  rewrite W1, W2. cbn [bind]. unfold by_length in HC. unfold Max_wosize in *.
  case_zbool (Z.of_nat (length ts1) =? Z.of_nat (length ts2)); cbn [negb].
  2: { eapply good_neq; [|by apply agrees_s64; lia|exact HC]. by apply compare_neq'. }
  assert (length ts1 = length ts2) as El by lia. rewrite El, Z.compare_refl in HC. cbn [andthen] in HC.
  destruct ts1 as [|t1 ts1], ts2 as [|t2 ts2]; try done; [by apply next_good|].
  cbn in F1, F2. destruct F1 as [(w1 & E1 & R1) F1], F2 as [(w2 & E2 & R2) F2]. cbn [map all_comparable] in Hc. destruct Hc as [Hc Hcs].
  cbn [map lex] in HC. rewrite andthen_assoc in HC. rewrite (proj2 (Z.eqb_neq _ 0)) by (cbn [length]; lia).
  case_zbool (1 <? Z.of_nat (length (t1 :: ts1))).
  - assert (ts1 <> []) as Hne1 by (intros ->; cbn [length] in *; lia).
    assert (needs (t1 :: ts1) = Z.max (1 + need t1) (needs ts1)) as Hn by (by destruct ts1). rewrite Hn in Hfit.
    pose proof (need_pos t1). assert (length stack = length L) as Es by (by eapply Forall2_length).
    assert (exists size', (if size <=? Z.of_nat (length stack) + 1 then compare_resize_stack size else Ok size) = Ok size') as [size' ->].
    { unfold compare_resize_stack, COMPARE_STACK_MAX_SIZE. unfold max_items in Hfit.
      case_zbool (size <=? Z.of_nat (length stack) + 1); [|by eexists]. rewrite (proj2 (Z.leb_gt _ _)) by lia. by eexists. }
    cbn [bind]. rewrite E1, E2. cbn [bind]. right.
    eexists _, t1, t2, ((ts1, ts2) :: L). split; [reflexivity|]. split; [|cbn; unfold sizes; lia].
    split; cbn [cs_v1 cs_v2 cs_stack fits fst]; try done; [|split; [cbn [length]; lia|split; [lia|done]]].
    constructor; [|done]. repeat split; cbn [fst snd ci_count ci_v1 ci_v2]; try done; [by injection El|cbn [length]; lia].
  - assert (ts1 = []) as -> by (destruct ts1; [done|cbn [length] in *; lia]). destruct ts2; [|done].
    cbn [bind]. rewrite E1, E2. cbn [bind]. right. eexists _, t1, t2, L. split; [reflexivity|]. split; [|cbn; lia]. by split.
Qed.

Lemma shape_strip t : rank_of t <> Forward_tag -> shape (strip t) = shape t.
Proof. by destruct t. Qed.
Lemma rank_strip t : shape t <> 9%nat -> rank_of (strip t) = rank_of t.
Proof. by destruct t. Qed.

(** Two blocks of the same tag. *)
Lemma blocks_good C v1 v2 stack size t1 t2 L :
  inv C (mkCState v1 v2 stack size) t1 t2 L -> rank_of t1 = rank_of t2 -> shape t1 <> 9%nat -> shape t2 <> 9%nat ->
  Is_long v1 = false -> known h v1 = true ->
  good C (tsize t1 + tsize t2 + msize L - 1) (compare_blocks h total (rank_of t1) v1 v2 stack size).
Proof.
  intros [R1 R2 Hc Hs [Hfit Hfits] HC] Er N1 N2 Hl Hk. cbn [cs_v1 cs_v2 cs_stack] in *.
  assert (rank_of (strip t1) = rank_of (strip t2)) as Er' by (by rewrite !rank_strip).
  pose proof (same_shape _ _ Hc Er') as Hsh. rewrite tcmp_within in HC by done.
  assert (forall m, (m <= tsize t1 + tsize t2 + msize L - 1)%nat -> forall x, good C m x -> good C (tsize t1 + tsize t2 + msize L - 1) x) as Hle
    by (intros; by eapply good_le).
  pose proof (tsize_pos t1) as P1. pose proof (tsize_pos t2) as P2.
  destruct t1, t2; try discriminate Hsh; try (by destruct N1); try (by destruct N2); cbn [strip within] in HC; cbn [rank_of].
  - destruct R1 as [R1 _]. congruence.
  - destruct R1 as (_ & _ & R1 & _). congruence.
  - destruct R1 as (_ & E1 & L1 & B1), R2 as (_ & E2 & L2 & B2). apply (Hle (msize L)); [lia|].
    change (compare_blocks h total String_tag v1 v2 stack size) with
      (if v1 =? v2 then next_item h stack size else
       len1 <- caml_string_length h v1; len2 <- caml_string_length h v2;
       r <- compare_bytes h (Z.to_nat (if len1 <=? len2 then len1 else len2)) v1 v2;
       match r with Some r => Ok (inr r) | None => if negb (len1 =? len2) then Ok (inr (s64 (len1 - len2))) else next_item h stack size end).
    case_zbool (v1 =? v2).
    + subst v2. apply next_good; [done|done|]. assert (s = s0) as <- by (eapply bytes_at_det; [|done|done]; rewrite E1 in E2; injection E2; lia).
      by rewrite bytes_cmp_refl in HC.
    + rewrite E1, E2. cbn [bind]. replace (Z.to_nat _) with (Nat.min (length s) (length s0)) by (case_zbool (Z.of_nat (length s) <=? Z.of_nat (length s0)); lia).
      destruct (compare_bytes_ok h s s0 v1 v2 B1 B2) as (r & -> & Hr). cbn [bind]. destruct r as [r|].
      * eapply return_good; [apply Hr| |exact HC]. intros Ee. injection Ee. apply Hr.
      * rewrite Hr in HC. destruct (Z.eqb_spec (Z.of_nat (length s)) (Z.of_nat (length s0))) as [Es|Es]; cbn [negb].
        -- apply next_good; [done|done|]. rewrite <- HC, Es, Z.compare_refl. done.
        -- eapply return_good; [by apply agrees_s64; lia|by apply compare_neq|exact HC].
  - destruct R1 as (_ & E1), R2 as (_ & E2). apply (Hle (msize L)); [lia|].
    change (compare_blocks h total Double_tag v1 v2 stack size) with
      (d1 <- Double_val h v1; d2 <- Double_val h v2; match compare_doubles total d1 d2 with Some r => Ok (inr r) | None => next_item h stack size end).
    rewrite E1, E2. cbn [bind]. rewrite <- HC. apply partial_good; [apply compare_doubles_ok|done|done].
  - destruct R1 as (_ & E1 & L1 & B1), R2 as (_ & E2 & L2 & B2). apply (Hle (msize L)); [lia|]. unfold Max_wosize in *.
    change (compare_blocks h total Double_array_tag v1 v2 stack size) with
      (sz1 <- Wosize_val h v1; sz2 <- Wosize_val h v2;
       if negb (sz1 =? sz2) then Ok (inr (s64 (sz1 - sz2)))
       else r <- compare_double_fields h total (Z.to_nat sz1) v1 v2 0; match r with Some r => Ok (inr r) | None => next_item h stack size end).
    rewrite E1, E2. cbn [bind]. unfold by_length in HC. destruct (Z.eqb_spec (Z.of_nat (length ds)) (Z.of_nat (length ds0))) as [Es|Es]; cbn [negb].
    + rewrite Es, Z.compare_refl in HC. cbn [andthen] in HC. rewrite Nat2Z.id.
      destruct (compare_double_fields_ok h total ds ds0 v1 v2 0) as (r & -> & Hr); [lia|by rewrite Z.add_0_r|by rewrite Z.add_0_r|].
      cbn [bind]. rewrite <- HC. by apply partial_good.
    + eapply good_neq; [|by apply agrees_s64; lia|exact HC]. by apply compare_neq'.
  - destruct R1 as (_ & E1), R2 as (_ & E2). apply (Hle (msize L)); [lia|].
    change (compare_blocks h total Object_tag v1 v2 stack size) with
      (oid1 <- Oid_val h v1; oid2 <- Oid_val h v2; if negb (oid1 =? oid2) then Ok (inr (oid1 - oid2)) else next_item h stack size).
    rewrite E1, E2. cbn [bind]. case_zbool (oid =? oid0); cbn [negb].
    + subst oid0. rewrite Z.compare_refl in HC. by apply next_good.
    + eapply return_good; [|by apply compare_neq|exact HC].
      assert (forall v o, Oid_val h v = Ok o -> - 2 ^ 62 <= o < 2 ^ 62) as Ho.
      { intros v o. unfold Oid_val. destruct (Field h v 1) eqn:Ef; cbn [bind]; [|done..]. intros [= <-]. by eapply shift_range, Field_range. }
      apply agrees_diff; by eapply Ho.
  - destruct Hc as (<- & Hf & D1 & D2). apply (Hle (msize L)); [lia|].
    pose proof R1 as (_ & _ & E1 & _).
    change (compare_blocks h total Custom_tag v1 v2 stack size) with
      (ops <- Field h v1 0;
       match custom_compare ops with
       | None => Err abstract_value
       | Some compare =>
           '(r, caml_compare_unordered) <- compare h v1 v2;
           if caml_compare_unordered && negb total then Ok (inr UNORDERED)
           else if negb (r =? 0) then Ok (inr r) else next_item h stack size
       end).
    rewrite E1. cbn [bind]. destruct (custom_compare ops) as [f|] eqn:Ef; [|done].
    rewrite (custom_compare_data ops f h v1 v2 data data0 Ef D1 D2 R1 R2). cbn [bind].
    unfold custom_cmp in HC. pose proof (data_compare_int ops data data0) as Hi. unfold in_s in Hi. change (32 - 1) with 31 in Hi.
    destruct (data_compare ops data data0) as [r u]. cbn [fst] in Hi. cbv beta iota in HC. destruct (u && negb total).
    + by apply (return_good None C _ L).
    + case_zbool (r =? 0); cbn [negb].
      * subst r. apply next_good; [done|done|exact HC].
      * apply (return_good (Some (r ?= 0)) C _ L); [|by apply compare_neq|exact HC]. split; [unfold UNORDERED; lia|done].
  - apply repr_block in R1 as (T1 & _ & W1 & M1 & F1), R2 as (T2 & _ & W2 & M2 & F2). cbn [rank_of] in Er. subst tag0.
    destruct (Hc eq_refl) as [Hcl Hall]. apply (Hle (sizes ts + sizes ts0 + msize L)%nat); [cbn [tsize]; unfold sizes; lia|].
    eapply fields_good; try done. unfold by_length in *. by rewrite !length_map in HC.
Qed.

(** ** A round *)

Lemma tsize_two t1 t2 : (2 <= tsize t1 + tsize t2)%nat.
Proof. pose proof (tsize_pos t1). pose proof (tsize_pos t2). lia. Qed.

Lemma forward_of t v : repr h t v -> Is_long v = false ->
  is_forward h v = Ok (if decide (shape t = 9%nat) then true else false) /\
  (shape t = 9%nat -> exists w t', Forward_val h v = Ok w /\ repr h t' w /\ strip t = strip t' /\ tsize t = S (tsize t') /\ need t = need t').
Proof.
  intros Hr Hl. pose proof (repr_kind _ _ _ Hr) as Hk. unfold is_forward. split.
  - destruct t; cbn [shape]; try congruence; destruct Hk as (? & Hk & Ht) || destruct Hk as (? & Hk); rewrite Hk; try done; cbn in Ht |- *; rewrite Ht; try done.
    cbn [bind]. f_equal. apply repr_block in Hr as ((_ & Hp) & _). by rewrite (proj2 (Z.eqb_neq _ _)) by tauto.
  - destruct t; try done. intros _. destruct Hr as (_ & _ & w & E & R). by exists w, t.
Qed.

(** The descriptions of what the values are. *)
Lemma long_tree t v : repr h t v -> Is_long v = true -> t = TLong (Long_val v) /\ in_s 64 v.
Proof.
  intros Hr Hl. pose proof (repr_kind _ _ _ Hr) as Hk. destruct t; try (destruct Hk as [? _]; congruence). destruct Hr as (_ & ? & <-). done.
Qed.
Lemma out_tree t v : repr h t v -> Is_long v = false -> known h v = false -> t = TOut v /\ in_s 64 v /\ Is_block v = true.
Proof.
  intros Hr Hl Hn. pose proof (repr_kind _ _ _ Hr) as Hk. destruct t; try congruence; try (destruct Hk as (_ & ? & _); congruence).
  by destruct Hr as (? & ? & _ & <-).
Qed.
Lemma known_tree t v : repr h t v -> Is_long v = false -> known h v = true ->
  Tag_val h v = Ok (rank_of t) /\ 0 <= rank_of t < 256 /\ is_out (strip t) = false /\ (rank_of t = Forward_tag -> shape t = 9%nat).
Proof.
  intros Hr Hl Hn. pose proof (repr_kind _ _ _ Hr) as Hk.
  assert (Tag_val h v = Ok (rank_of t)) as Ht by (destruct t; try congruence; try (destruct Hk as [? ?]; congruence); apply Hk).
  split; [done|]. split; [by eapply Tag_range|]. split.
  - destruct t; try done; [by destruct Hk; congruence|]. destruct Hr as (_ & ? & _). done.
  - destruct t; try done. apply repr_block in Hr as ((_ & Hp) & _). intros E. cbn in E. tauto.
Qed.

Lemma comparable_out t1 t2 : comparable t1 t2 -> is_out t1 = is_out t2.
Proof. by destruct t1, t2. Qed.

(** A step through a forward pointer. *)
Lemma forward_good1 C s t1 t2 L w t1' : inv C s t1 t2 L -> repr h t1' w -> strip t1 = strip t1' -> tsize t1 = S (tsize t1') -> need t1 = need t1' ->
  good C (tsize t1 + tsize t2 + msize L - 1) (Ok (inl (mkCState w (cs_v2 s) (cs_stack s) (cs_size s)))).
Proof.
  intros [R1 R2 Hc Hs Hf HC] Hr Es Et En. right. eexists _, t1', t2, L. split; [done|]. split; [|lia].
  rewrite Es in *. rewrite En in Hf. by split.
Qed.
Lemma forward_good2 C s t1 t2 L w t2' : inv C s t1 t2 L -> repr h t2' w -> strip t2 = strip t2' -> tsize t2 = S (tsize t2') ->
  good C (tsize t1 + tsize t2 + msize L - 1) (Ok (inl (mkCState (cs_v1 s) w (cs_stack s) (cs_size s)))).
Proof.
  intros [R1 R2 Hc Hs Hf HC] Hr Es Et. right. eexists _, t1, t2', L. split; [done|]. split; [|lia].
  rewrite Es in *. by split.
Qed.

Lemma equal_good C s t1 t2 L : inv C s t1 t2 L -> tcmp total (strip t1) (strip t2) = Some Eq ->
  good C (tsize t1 + tsize t2 + msize L - 1) (next_item h (cs_stack s) (cs_size s)).
Proof.
  intros [R1 R2 Hc Hs [_ Hf] HC] E. rewrite E in HC. pose proof (tsize_two t1 t2). eapply good_le; [by apply next_good|lia].
Qed.

Lemma tcmp_rank t1 t2 k : rank_of t1 <> rank_of t2 -> andthen (tcmp total t1 t2) k = Some (rank_of t1 ?= rank_of t2).
Proof. intros Hn. rewrite tcmp_eq. apply andthen_neq. by apply compare_neq'. Qed.

(** The first value is an integer. *)
Lemma long_good1 C s t1 t2 L : inv C s t1 t2 L -> Is_long (cs_v1 s) = true -> cs_v1 s <> cs_v2 s ->
  good C (tsize t1 + tsize t2 + msize L - 1)
    (if Is_long (cs_v2 s) then Ok (inr (Long_val (cs_v1 s) - Long_val (cs_v2 s)))
     else fwd <- is_forward h (cs_v2 s);
          if fwd : bool then w <- Forward_val h (cs_v2 s); Ok (inl (mkCState (cs_v1 s) w (cs_stack s) (cs_size s))) else Ok (inr LESS)).
Proof.
  intros Hi Hl Hne. pose proof Hi as [R1 R2 Hc Hs Hf HC]. destruct (long_tree _ _ R1 Hl) as [-> Hr1]. destruct (Is_long (cs_v2 s)) eqn:Hl2.
  - destruct (long_tree _ _ R2 Hl2) as [-> Hr2]. cbn [strip] in HC. rewrite tcmp_within in HC by done. cbn [within] in HC.
    eapply return_good; [apply agrees_diff; by apply shift_range| |exact HC]. apply compare_neq. intros E. apply Hne.
    rewrite (long_split _ Hl), (long_split _ Hl2), E. done.
  - destruct (forward_of _ _ R2 Hl2) as [-> Hfw]. cbn [bind]. destruct (decide (shape t2 = 9%nat)) as [E|E].
    + destruct (Hfw E) as (w & t2' & -> & R & Es & Et & _). cbn [bind]. by eapply forward_good2.
    + cbn [strip] in HC. assert (0 <= rank_of t2) as Hr.
      { destruct (known h (cs_v2 s)) eqn:Hk; [by destruct (known_tree _ _ R2 Hl2 Hk) as (_ & ? & _); lia|].
        destruct (out_tree _ _ R2 Hl2 Hk) as [-> _]. by destruct Hc. }
      assert (rank_of (TLong (Long_val (cs_v1 s))) <> rank_of (strip t2)) as Hn by (rewrite (rank_strip t2) by done; cbn; lia).
      left. eexists. split; [done|]. rewrite <- HC, tcmp_rank by done. rewrite (rank_strip t2) by done.
      cbn [rank_of]. rewrite (proj2 (Z.compare_lt_iff _ _)) by lia. done.
Qed.

Lemma long_good2 C s t1 t2 L : inv C s t1 t2 L -> Is_long (cs_v1 s) = false -> Is_long (cs_v2 s) = true ->
  good C (tsize t1 + tsize t2 + msize L - 1)
    (fwd <- is_forward h (cs_v1 s);
     if fwd : bool then w <- Forward_val h (cs_v1 s); Ok (inl (mkCState w (cs_v2 s) (cs_stack s) (cs_size s))) else Ok (inr GREATER)).
Proof.
  intros Hi Hl1 Hl. pose proof Hi as [R1 R2 Hc Hs Hf HC]. destruct (long_tree _ _ R2 Hl) as [-> Hr2].
  destruct (forward_of _ _ R1 Hl1) as [-> Hfw]. cbn [bind]. destruct (decide (shape t1 = 9%nat)) as [E|E].
  - destruct (Hfw E) as (w & t1' & -> & R & Es & Et & En). cbn [bind]. by eapply forward_good1.
  - assert (0 <= rank_of t1) as Hr.
    { destruct (known h (cs_v1 s)) eqn:Hk; [by destruct (known_tree _ _ R1 Hl1 Hk) as (_ & ? & _); lia|].
      destruct (out_tree _ _ R1 Hl1 Hk) as [-> _]. by destruct Hc. }
    cbn [strip] in HC. assert (rank_of (strip t1) <> rank_of (TLong (Long_val (cs_v2 s)))) as Hn by (rewrite (rank_strip t1) by done; cbn; lia).
    left. eexists. split; [done|]. rewrite <- HC, tcmp_rank by done. rewrite (rank_strip t1) by done.
    cbn [rank_of]. rewrite (proj2 (Z.compare_gt_iff _ _)) by lia. done.
Qed.

(** Both are blocks, one of them out of the heap. *)
Lemma out_good C s t1 t2 L : inv C s t1 t2 L -> Is_long (cs_v1 s) = false -> Is_long (cs_v2 s) = false ->
  known h (cs_v1 s) = false \/ known h (cs_v2 s) = false -> cs_v1 s <> cs_v2 s ->
  good C (tsize t1 + tsize t2 + msize L - 1) (Ok (inr (Z.shiftr (cs_v1 s) 1 - Z.shiftr (cs_v2 s) 1))).
Proof.
  intros Hi Hl1 Hl2 Hk Hne. pose proof Hi as [R1 R2 Hc Hs Hf HC]. pose proof (comparable_out _ _ Hc) as Ho.
  assert (known h (cs_v1 s) = false /\ known h (cs_v2 s) = false) as [K1 K2].
  { destruct (known h (cs_v1 s)) eqn:K1, (known h (cs_v2 s)) eqn:K2; try done; [by destruct Hk|..].
    - destruct (known_tree _ _ R1 Hl1 K1) as (_ & _ & E & _), (out_tree _ _ R2 Hl2 K2) as [-> _]. by rewrite E in Ho.
    - destruct (known_tree _ _ R2 Hl2 K2) as (_ & _ & E & _), (out_tree _ _ R1 Hl1 K1) as [-> _]. by rewrite E in Ho. }
  destruct (out_tree _ _ R1 Hl1 K1) as (-> & I1 & B1), (out_tree _ _ R2 Hl2 K2) as (-> & I2 & B2).
  cbn [strip] in HC. rewrite tcmp_within in HC by done. cbn [within] in HC.
  pose proof (block_split _ B1) as S1. pose proof (block_split _ B2) as S2.
  assert ((cs_v1 s ?= cs_v2 s) = (Z.shiftr (cs_v1 s) 1 ?= Z.shiftr (cs_v2 s) 1)) as Hcmp.
  { rewrite (Zmult_compare_compat_l (Z.shiftr (cs_v1 s) 1) _ 2) by lia. by rewrite <- S1, <- S2. }
  eapply return_good; [|by apply compare_neq|exact HC]. rewrite Hcmp. apply agrees_diff; by apply shift_range.
Qed.

(** Both are blocks that the runtime knows. *)
Lemma known_good C s t1 t2 L : inv C s t1 t2 L -> Is_long (cs_v1 s) = false -> Is_long (cs_v2 s) = false ->
  known h (cs_v1 s) = true -> known h (cs_v2 s) = true ->
  good C (tsize t1 + tsize t2 + msize L - 1)
    (t1 <- Tag_val h (cs_v1 s);
     t2 <- Tag_val h (cs_v2 s);
     if t1 =? Forward_tag then w <- Forward_val h (cs_v1 s); Ok (inl (mkCState w (cs_v2 s) (cs_stack s) (cs_size s)))
     else if t2 =? Forward_tag then w <- Forward_val h (cs_v2 s); Ok (inl (mkCState (cs_v1 s) w (cs_stack s) (cs_size s)))
     else if negb (t1 =? t2) then Ok (inr (t1 - t2))
     else compare_blocks h total t1 (cs_v1 s) (cs_v2 s) (cs_stack s) (cs_size s)).
Proof.
  intros Hi Hl1 Hl2 K1 K2. pose proof Hi as [R1 R2 Hc Hs Hf HC].
  destruct (known_tree _ _ R1 Hl1 K1) as (E1 & Hr1 & _ & F1), (known_tree _ _ R2 Hl2 K2) as (E2 & Hr2 & _ & F2).
  rewrite E1, E2. cbn [bind]. destruct (Z.eqb_spec (rank_of t1) Forward_tag) as [N1|N1].
  { destruct (forward_of _ _ R1 Hl1) as [_ Hfw]. destruct (Hfw (F1 N1)) as (w & t1' & -> & R & Es & Et & En). cbn [bind]. by eapply forward_good1. }
  destruct (Z.eqb_spec (rank_of t2) Forward_tag) as [N2|N2].
  { destruct (forward_of _ _ R2 Hl2) as [_ Hfw]. destruct (Hfw (F2 N2)) as (w & t2' & -> & R & Es & Et & _). cbn [bind]. by eapply forward_good2. }
  assert (shape t1 <> 9%nat) as S1 by (by destruct t1). assert (shape t2 <> 9%nat) as S2 by (by destruct t2).
  destruct (Z.eqb_spec (rank_of t1) (rank_of t2)) as [Er|Er]; cbn [negb]; [|].
  - destruct s. by apply blocks_good.
  - left. eexists. split; [done|]. rewrite <- HC, tcmp_rank, !rank_strip by (rewrite ?rank_strip; done). apply agrees_sub; lia.
Qed.

Lemma step_good C s t1 t2 L : inv C s t1 t2 L -> good C (tsize t1 + tsize t2 + msize L - 1) (compare_step h total s).
Proof.
  intros Hi. pose proof Hi as [R1 R2 Hc Hs Hf HC]. unfold compare_step. destruct (Z.eqb_spec (cs_v1 s) (cs_v2 s)) as [E|E].
  - assert (t1 = t2) as <- by (eapply repr_det; [done|by rewrite E]).
    assert (total = true \/ total = false) as [Et|Et] by (destruct total; auto).
    { replace (true && total) with true by (by rewrite Et). eapply equal_good; [done|]. rewrite Et. by apply tcmp_refl. }
    replace (true && total) with false by (by rewrite Et).
    destruct (Is_long (cs_v1 s)) eqn:Hl1.
    { destruct (long_tree _ _ R1 Hl1) as [-> _]. eapply equal_good; [done|]. cbn. by rewrite Z.compare_refl. }
    rewrite <- E, Hl1. destruct (known h (cs_v1 s)) eqn:Hk; cbn [negb orb].
    2: { destruct (out_tree _ _ R1 Hl1 Hk) as [-> _]. eapply equal_good; [done|]. cbn. by rewrite Z.compare_refl. }
    pose proof (known_good C s t1 t1 L Hi Hl1) as Hg. rewrite <- E in Hg. by apply Hg.
  - cbn [andb]. destruct (Is_long (cs_v1 s)) eqn:Hl1; [by apply long_good1|]. destruct (Is_long (cs_v2 s)) eqn:Hl2; [by apply long_good2|].
    destruct (known h (cs_v1 s)) eqn:K1; cbn [negb orb]; [destruct (known h (cs_v2 s)) eqn:K2; cbn [negb]|].
    + by apply known_good.
    + apply out_good; auto.
    + apply out_good; auto.
Qed.

Lemma loop_good C n s t1 t2 L : inv C s t1 t2 L -> (tsize t1 + tsize t2 + msize L < n)%nat ->
  exists r, loop n (compare_step h total) s = Ok r /\ agrees C r.
Proof.
  revert s t1 t2 L. induction n as [|n IH]; intros s t1 t2 L Hi Hn; [lia|]. cbn [loop]. pose proof (tsize_two t1 t2).
  destruct (step_good _ _ _ _ _ Hi) as [(r & -> & Hr)|(s' & t1' & t2' & L' & -> & Hi' & Hm)]; cbn [bind]; [by exists r|].
  apply (IH s' t1' t2' L' Hi'). lia.
Qed.

(** Values no deeper than the stack compare as their trees do. *)
Lemma compare_val_ok fuel v1 v2 t1 t2 :
  repr h t1 v1 -> repr h t2 v2 -> comparable (strip t1) (strip t2) -> need t1 <= max_items -> (tsize t1 + tsize t2 < fuel)%nat ->
  exists r, compare_val h fuel v1 v2 total = Ok r /\ agrees (tcmp total (strip t1) (strip t2)) r.
Proof.
  intros R1 R2 Hc Hn Hf. eapply (loop_good _ fuel (mkCState v1 v2 [] COMPARE_STACK_INIT_SIZE) t1 t2 []); [|cbn; lia].
  split; try done. cbn [rest]. by destruct (tcmp total (strip t1) (strip t2)) as [[]|].
Qed.
End Traversal.
