(* ===== verification/CamlHashSpec.v ===== *)
(** The generic hash function of OCaml is a function of the tree a value
    represents, the same on trees that compare equal. *)
From stdpp Require Import base gmap list.
From Stdlib Require Import ZArith Lia SpecFloat.
From S2P Require Import Prelude CamlMemory CamlValues CamlCompare CamlHash CamlTrees CamlOrder CamlCompareSpec.
Open Scope Z_scope.

(** * Bytes of words *)
Section Bytes.
Variable h : heap.

Lemma byte_of_word v w k : word_at h v = Ok w -> 0 <= k < 8 -> byte_at h (v + k) = Ok (Z.land (Z.shiftr w (8 * k)) 255).
Proof.
  unfold word_at, byte_at. case_zbool (u64 v mod 8 =? 0); [|done]. intros Hw Hk.
  pose proof (wrap_range 64 v ltac:(lia)) as Hr.
  assert (u64 v = 8 * (u64 v / 8)) as Ed by (pose proof (Z.div_mod (u64 v) 8); lia). set (q := u64 v / 8) in *.
  assert (u64 (v + k) = 8 * q + k) as ->.
  { rewrite <- (wrap_add_l 64), Ed. apply wrap_small. lia. }
  rewrite (Z.mul_comm 8 q), Z.div_add_l, Z.div_small, Z.add_0_r by lia. rewrite Hw. cbn [bind].
  by rewrite (Z.add_comm (q * 8)), Z.mod_add, Z.mod_small by lia.
Qed.

Lemma hash_bytes_ok n p bs s : length bs = n -> bytes_at h p bs -> hash_bytes h n p s = Ok (fold_left (fun s b => Combine_small b s) bs s).
Proof.
  revert n p s. induction bs as [|b bs IH]; intros [|n] p s Hl Hb; try done. cbn in Hb. destruct Hb as [E Hb]. cbn [hash_bytes fold_left].
  rewrite E. cbn [bind]. apply IH; [by injection Hl|done].
Qed.

Lemma le_bytes_at n w v k : word_at h v = Ok w -> 0 <= k -> k + Z.of_nat n <= 8 -> bytes_at h (v + k) (le_bytes n (Z.shiftr w (8 * k))).
Proof.
  intros Hw. revert k. induction n as [|n IH]; intros k Hk Hn; [done|]. cbn [le_bytes bytes_at]. split.
  - rewrite (byte_of_word v w k Hw) by lia. f_equal. change 255 with (Z.ones 8). rewrite Z.land_ones by lia. done.
  - rewrite <- Z.add_assoc. replace (Z.shiftr w (8 * k) / 256) with (Z.shiftr w (8 * (k + 1))); [apply IH; lia|].
    replace (8 * (k + 1)) with (8 * k + 8) by lia. by rewrite <- Z.shiftr_shiftr, (Z.shiftr_div_pow2 _ 8) by lia.
Qed.
End Bytes.

(** * Hashing trees *)
Section Trees.
Context `{CustomLaws}.

(** A call of the hash function: nothing once a counter is below zero. *)
Definition guarded (f : hash_state -> hash_state) (s : hash_state) : hash_state :=
  let s := one_limit s in if (hash_univ_count s <? 0) || (hash_univ_limit s <? 0) then s else f s.

Definition combine_bytes (bs : bytes) (s : hash_state) : hash_state := fold_left (fun s b => Combine_small b s) bs s.

Fixpoint tree_hash (t : tree) (s : hash_state) : hash_state :=
  match t with
  | TLong n => Combine n (one_count s)
  | TOut a => Combine a s
  | TString bs => combine_bytes bs (one_count s)
  | TDouble d => combine_bytes (le_bytes 8 d) (one_count s)
  | TDoubles ds => fold_left (fun s d => combine_bytes (le_bytes 8 d) s) ds (one_count s)
  | TAbstract => s
  | TObject oid => Combine oid (one_count s)
  | TCustom ops data => match custom_hash ops with None => s | Some _ => Combine (data_hash ops data) (one_count s) end
  | TInfix t => guarded (tree_hash t) s
  | TForward t => tree_hash t s
  | TBlock tag ts => fold_right (fun t s => guarded (tree_hash t) s) (Combine_small tag (one_count s)) ts
  end.

(** Every custom block holds data its operations accept. *)
Fixpoint valid_customs (t : tree) : Prop :=
  match t with
  | TCustom ops data => valid_data ops data
  | TInfix t | TForward t => valid_customs t
  | TBlock _ ts => (fix all (ts : list tree) : Prop := match ts with [] => True | t :: ts => valid_customs t /\ all ts end) ts
  | _ => True
  end.

Section Refinement.
Variable h : heap.

Lemma hash_doubles_ok ds obj j s : words_at h (obj + j) ds -> hash_doubles h (length ds) obj j s = Ok (fold_left (fun s d => combine_bytes (le_bytes 8 d) s) ds s).
Proof.
  revert j s. induction ds as [|d ds IH]; intros j s Hw; [done|]. cbn [words_at] in Hw. destruct Hw as [E Hw]. cbn [length hash_doubles fold_left].
  pose proof (le_bytes_at h 8 d (obj + j) 0 E ltac:(lia) ltac:(lia)) as Hb. rewrite Z.mul_0_r, Z.shiftr_0_r, Z.add_0_r in Hb.
  rewrite (hash_bytes_ok h 8 (obj + j) (le_bytes 8 d) s (length_le_bytes _ _) Hb). cbn [bind]. apply IH. by replace (obj + (j + 8)) with (obj + j + 8) by lia.
Qed.

Lemma hash_fields_ok aux obj ts s :
  (forall t v s, t ∈ ts -> repr h t v -> aux v s = Ok (guarded (tree_hash t) s)) -> fields h ts obj ->
  hash_fields h aux obj (length ts) s = Ok (fold_right (fun t s => guarded (tree_hash t) s) s ts).
Proof.
  intros Haux Hf. revert s. induction ts as [|t ts IH] using rev_ind; intros s; [done|].
  rewrite length_app, Nat.add_comm, fold_right_app. cbn [length Nat.add hash_fields fold_right].
  assert (exists w, Field h obj (Z.of_nat (length ts)) = Ok w /\ repr h t w) as (w & E & R).
  { clear IH Haux. revert obj Hf. induction ts as [|u ts IH]; intros obj Hf; [destruct Hf as [(w & E & R) _]; by exists w|].
    destruct Hf as [_ Hf]. destruct (IH _ Hf) as (w & E & R). exists w. split; [|done]. rewrite <- E, <- !(Field_shift h _ (Z.of_nat _)).
    f_equal. cbn [length]. lia. }
  rewrite E. cbn [bind]. rewrite (Haux t w s) by (done || (apply elem_of_app; right; by left)). cbn [bind]. apply IH.
  - intros t' v s' Ht'. apply Haux. apply elem_of_app. by left.
  - clear IH Haux E. revert obj Hf. induction ts as [|u ts IH]; intros obj Hf; [done|]. destruct Hf as [? Hf]. split; [done|]. by apply IH.
Qed.

Lemma valid_child tag ts t : valid_customs (TBlock tag ts) -> t ∈ ts -> valid_customs t.
Proof. cbn. induction ts as [|u ts IH]; intros Hv Ht; [by apply not_elem_of_nil in Ht|]. destruct Hv as [Hu Hv]. apply elem_of_cons in Ht as [->|Ht]; [done|]. by apply IH. Qed.
Lemma size_child tag ts t : t ∈ ts -> (tsize t < tsize (TBlock tag ts))%nat.
Proof.
  intros Ht. change (tsize (TBlock tag ts)) with (S (list_sum (map tsize ts))). enough (tsize t <= list_sum (map tsize ts))%nat by lia.
  induction ts as [|u ts IH]; [by apply not_elem_of_nil in Ht|]. change (list_sum _) with (tsize u + list_sum (map tsize ts))%nat.
  apply elem_of_cons in Ht as [->|Ht]; [lia|]. specialize (IH Ht). lia.
Qed.

Lemma hash_block_ok aux t v s :
  (forall t' v s, (tsize t' < tsize t)%nat -> repr h t' v -> valid_customs t' -> aux v s = Ok (guarded (tree_hash t') s)) ->
  repr h t v -> valid_customs t -> Is_long v = false -> known h v = true -> shape t <> 9%nat ->
  hash_block h aux (rank_of t) v s = Ok (tree_hash t s).
Proof.
  intros Haux Hr Hv Hl Hk Hs. destruct t; cbn [rank_of tree_hash].
  - destruct Hr as [Hr _]. congruence.
  - destruct Hr as (_ & _ & Hr & _). congruence.
  - destruct Hr as (_ & E & _ & Hb).
    change (hash_block h aux String_tag v s) with (i <- caml_string_length h v; hash_bytes h (Z.to_nat i) v (one_count s)).
    rewrite E. cbn [bind]. rewrite Nat2Z.id. by apply hash_bytes_ok.
  - destruct Hr as (_ & E). change (hash_block h aux Double_tag v s) with (hash_bytes h 8 v (one_count s)).
    unfold Double_val, Double_field in E. rewrite Z.mul_0_r, Z.add_0_r in E.
    pose proof (le_bytes_at h 8 d v 0 E ltac:(lia) ltac:(lia)) as Hb. rewrite Z.mul_0_r, Z.shiftr_0_r, Z.add_0_r in Hb.
    by rewrite (hash_bytes_ok h 8 v (le_bytes 8 d) _ (length_le_bytes _ _) Hb).
  - destruct Hr as (_ & E & Hm & Hw).
    change (hash_block h aux Double_array_tag v s) with (bo <- Bosize_val h v; hash_doubles h (Z.to_nat (bo / 8)) v 0 (one_count s)).
    unfold Bosize_val. rewrite E. cbn [bind]. unfold Max_wosize in Hm. rewrite wrap_small by lia. rewrite Z.div_mul, Nat2Z.id by lia.
    apply hash_doubles_ok. by rewrite Z.add_0_r.
  - done.
  - destruct Hr as (_ & E). change (hash_block h aux Object_tag v s) with (oid <- Oid_val h v; Ok (Combine oid (one_count s))). by rewrite E.
  - pose proof Hr as (_ & _ & E & _).
    change (hash_block h aux Custom_tag v s) with
      (ops <- Field h v 0; match custom_hash ops with None => Ok s | Some hash => x <- hash h v; Ok (Combine x (one_count s)) end).
    rewrite E. cbn [bind]. destruct (custom_hash ops) as [f|] eqn:Ef; [|done]. by rewrite (custom_hash_data ops f h v data Ef Hv Hr).
  - destruct Hr as (_ & off & E & R). change (hash_block h aux Infix_tag v s) with (off <- Infix_offset_val h v; aux (v - off) s).
    rewrite E. cbn [bind]. apply Haux; [cbn; lia|done|done].
  - done.
  - apply repr_block in Hr as ((_ & Ht) & _ & E & _ & F). unfold hash_block.
    do 4 (rewrite (proj2 (Z.eqb_neq tag _)) by tauto). do 3 (rewrite (proj2 (Z.eqb_neq tag _)) by tauto).
    rewrite E. cbn [bind]. rewrite Nat2Z.id. apply hash_fields_ok; [|done].
    intros t' v' s' Ht' R'. apply Haux; [by apply size_child|done|by eapply valid_child].
Qed.

Lemma again_ok n k aux t v s :
  (forall t' v s, (tsize t' <= n)%nat -> repr h t' v -> valid_customs t' -> aux v s = Ok (guarded (tree_hash t') s)) ->
  repr h t v -> valid_customs t -> (tsize t <= S n)%nat -> (tsize t <= k)%nat ->
  loop k (again_step h aux s) v = Ok (tree_hash t s).
Proof.
  intros Haux. revert t v. induction k as [|k IH]; intros t v Hr Hv Hn Hk; [pose proof (tsize_pos t); lia|]. cbn [loop]. unfold again_step.
  destruct (Is_long v) eqn:Hl; [destruct (long_tree _ _ _ Hr Hl) as [-> _]; done|].
  destruct (known h v) eqn:Kn; [|destruct (out_tree _ _ _ Hr Hl Kn) as [-> _]; done].
  destruct (known_tree _ _ _ Hr Hl Kn) as (E & _ & _ & Hf). rewrite E. cbn [bind]. destruct (Z.eqb_spec (rank_of t) Forward_tag) as [N|N].
  - destruct t; try discriminate (Hf N). destruct Hr as (_ & _ & w & -> & R). cbn [bind tree_hash]. cbn [tsize] in *. apply IH; [done|done|lia|lia].
  - rewrite (hash_block_ok aux t v s); [done| |done|done|done|done|by destruct t]. intros. apply Haux; [lia|done|done].
Qed.

Lemma hash_aux_ok n t v s : repr h t v -> valid_customs t -> (tsize t <= n)%nat -> hash_aux h n v s = Ok (guarded (tree_hash t) s).
Proof.
  revert t v s. induction n as [|n IH]; intros t v s Hr Hv Hn; [pose proof (tsize_pos t); lia|]. cbn [hash_aux]. unfold guarded.
  destruct (_ || _); [done|]. apply (again_ok n); [|done|done|done|done]. intros. by apply IH.
Qed.
End Refinement.
End Trees.

(** * Equal trees have equal hashes *)

Lemma le_bytes_mod n x y : x mod 2 ^ (8 * Z.of_nat n) = y mod 2 ^ (8 * Z.of_nat n) -> le_bytes n x = le_bytes n y.
Proof.
  revert x y. induction n as [|n IH]; intros x y E; [done|]. cbn [le_bytes].
  replace (2 ^ (8 * Z.of_nat (S n))) with (256 * 2 ^ (8 * Z.of_nat n)) in E by (replace (8 * Z.of_nat (S n)) with (8 + 8 * Z.of_nat n) by lia; by rewrite Z.pow_add_r by lia).
  rewrite !Z.rem_mul_r in E by lia. pose proof (Z.mod_pos_bound x 256). pose proof (Z.mod_pos_bound y 256).
  f_equal; [lia|]. apply IH. lia.
Qed.

(** Doubles other than NaN and the two zeros. *)
Definition regular (d : Z) : Prop := match double_of_bits d with S754_nan | S754_zero _ => False | _ => True end.

Lemma double_fields b :
  b mod 2 ^ 64 = (if Z.testbit b 63 then 2 ^ 63 else 0) + (Z.land (Z.shiftr b 52) 2047 * 2 ^ 52 + Z.land b (Z.ones 52)) /\
  0 <= Z.land (Z.shiftr b 52) 2047 * 2 ^ 52 + Z.land b (Z.ones 52) < 2 ^ 63.
Proof.
  change 2047 with (Z.ones 11). rewrite !Z.land_ones, Z.shiftr_div_pow2 by lia.
  pose proof (Z.mod_pos_bound (b / 2 ^ 52) (2 ^ 11)). pose proof (Z.mod_pos_bound b (2 ^ 52)). split; [|lia].
  replace (2 ^ 64) with (2 ^ 52 * (2 ^ 11 * 2)) by lia. rewrite Z.rem_mul_r, (Z.rem_mul_r (b / 2 ^ 52)) by lia.
  rewrite Z.div_div by lia. replace (2 ^ 52 * 2 ^ 11) with (2 ^ 63) by lia.
  assert ((b / 2 ^ 63) mod 2 = Z.b2z (Z.testbit b 63)) as -> by (by rewrite Z.testbit_spec').
  destruct (Z.testbit b 63); cbn [Z.b2z]; lia.
Qed.

Lemma regular_eq d1 d2 : regular d1 -> regular d2 -> double_rank d1 = double_rank d2 -> le_bytes 8 d1 = le_bytes 8 d2.
Proof.
  intros R1 R2 E. apply le_bytes_mod. change (8 * Z.of_nat 8) with 64.
  destruct (double_fields d1) as [-> B1], (double_fields d2) as [-> B2]. unfold double_rank, is_nan in E. unfold regular in *.
  assert (forall d, match double_of_bits d with S754_nan | S754_zero _ => False | _ => True end ->
    Z.land (Z.shiftr d 52) 2047 * 2 ^ 52 + Z.land d (Z.ones 52) <> 0) as Hz.
  { intros d. unfold double_of_bits. intros Hr E0.
    assert (0 <= Z.land (Z.shiftr d 52) 2047) by (apply Z.land_nonneg; lia). assert (0 <= Z.land d (Z.ones 52)) by (rewrite Z.land_ones by lia; apply Z.mod_pos_bound; lia).
    assert (Z.land (Z.shiftr d 52) 2047 = 0) as E1 by lia. assert (Z.land d (Z.ones 52) = 0) as E2 by lia. by rewrite E1, E2 in Hr. }
  pose proof (Hz _ R1) as Z1. pose proof (Hz _ R2) as Z2. clear Hz.
  set (x1 := Z.land (Z.shiftr d1 52) 2047 * 2 ^ 52 + Z.land d1 (Z.ones 52)) in *.
  set (x2 := Z.land (Z.shiftr d2 52) 2047 * 2 ^ 52 + Z.land d2 (Z.ones 52)) in *. clearbody x1 x2.
  assert ((if Z.testbit d1 63 then - x1 else x1) = (if Z.testbit d2 63 then - x2 else x2)) as Ex by (by destruct (double_of_bits d1), (double_of_bits d2)).
  clear E R1 R2. destruct (Z.testbit d1 63), (Z.testbit d2 63); lia.
Qed.

Fixpoint regular_doubles (t : tree) : Prop :=
  match t with
  | TDouble d => regular d
  | TDoubles ds => Forall regular ds
  | TInfix t | TForward t => regular_doubles t
  | TBlock _ ts => (fix all (ts : list tree) : Prop := match ts with [] => True | t :: ts => regular_doubles t /\ all ts end) ts
  | _ => True
  end.

Section Equal.
Context `{CustomLaws}.

Lemma tree_hash_strip t s : tree_hash (strip t) s = tree_hash t s.
Proof.
  revert s. induction t using tree_ind'; intros s'; cbn [strip tree_hash]; try done.
  - unfold guarded. destruct (_ || _); [done|]. apply IHt.
  - induction H1 as [|t ts Ht Hts IH]; [done|]. cbn [map fold_right]. rewrite IH. unfold guarded. destruct (_ || _); [done|]. apply Ht.
Qed.

Lemma andthen_eq a b : andthen a b = Some Eq -> a = Some Eq /\ b = Some Eq.
Proof. by destruct a as [[]|]. Qed.
Lemma bytes_cmp_eq s1 s2 : bytes_cmp s1 s2 = Eq -> s1 = s2.
Proof.
  revert s2. induction s1 as [|b1 s1 IH]; intros [|b2 s2]; cbn; try done. destruct (Z.compare_spec b1 b2); try done. intros E. f_equal; auto.
Qed.
Lemma key_eq a b k : andthen (Some (a ?= b)) k = Some Eq -> a = b /\ k = Some Eq.
Proof. intros [E Ek]%andthen_eq. split; [|done]. injection E as E. by apply Z.compare_eq. Qed.

(** Lists compared as equal, element by element. *)
Lemma lex_eq {A} (f : A -> A -> ordering) l l' : length l = length l' -> lex f l l' = Some Eq -> Forall2 (fun x y => f x y = Some Eq) l l'.
Proof.
  revert l'. induction l as [|x l IH]; intros [|y l'] Hl E; try done. cbn in E. apply andthen_eq in E as [E1 E2].
  constructor; [done|]. apply IH; [by injection Hl|done].
Qed.

Lemma double_hash_eq d1 d2 : regular d1 -> regular d2 -> double_cmp true d1 d2 = Some Eq -> le_bytes 8 d1 = le_bytes 8 d2.
Proof. intros R1 R2 E. apply regular_eq; [done|done|]. rewrite double_cmp_rank in E. apply (inj Some) in E. by apply Z.compare_eq. Qed.

Lemma tree_hash_eq t1 t2 s : comparable t1 t2 -> tcmp true t1 t2 = Some Eq -> regular_doubles t1 -> regular_doubles t2 -> tree_hash t1 s = tree_hash t2 s.
Proof.
  revert t2 s. induction t1 using tree_ind'; intros t2 s' Hc E F1 F2; rewrite tcmp_eq in E; apply key_eq in E as [Er E]; same_shape t2 Hc; cbn [within] in E;
    cbn [tree_hash].
  - injection E as E. apply Z.compare_eq in E. by subst.
  - injection E as E. apply Z.compare_eq in E. by subst.
  - injection E as E. apply bytes_cmp_eq in E. by subst.
  - by rewrite (double_hash_eq d d0).
  - apply key_eq in E as [El E]. cbn in F1, F2. apply lex_eq in E; [|lia]. generalize (one_count s'). clear El Hc Er.
    induction E as [|d1 d2 ds ds' Ed Eds IH]; intros st; [done|]. apply Forall_cons in F1 as [R1 F1], F2 as [R2 F2]. cbn [fold_left].
    rewrite (double_hash_eq d1 d2) by done. by apply IH.
  - done.
  - injection E as E. apply Z.compare_eq in E. by subst.
  - destruct Hc as (<- & _ & V1 & V2). rewrite custom_total in E. injection E as E. apply Z.compare_eq in E. by rewrite (data_hash_compare ops data data0).
  - destruct (Hc Er).
  - destruct (Hc Er).
  - cbn [rank_of] in Er. subst tag0. destruct (Hc eq_refl) as [_ Hall]. apply key_eq in E as [El E]. apply lex_eq in E; [|lia]. cbn in F1, F2.
    generalize (Combine_small tag (one_count s')). clear El Hc. intros st. revert Hall F1 F2. induction E as [|t1 t2 ts ts' Et Ets IH]; intros Hall F1 F2; [done|].
    apply Forall_cons in H1 as [Ht Hts]. destruct Hall as [Hc Hall], F1 as [Rt F1], F2 as [Rt' F2]. cbn [fold_right]. rewrite IH by done.
    unfold guarded. destruct (_ || _); [done|]. by apply Ht.
Qed.
End Equal.
