(* ===== verification/CamlInts.v ===== *)
(** Integers of OCaml (ocaml/byterun/ints.c): reading integers from strings,
    the arithmetic of int32, int64 and nativeint, and their custom operations,
    on a 64-bit machine with native 64-bit arithmetic.

    A boxed integer is its value.  A C string is the list of its bytes; a
    pointer into it is the suffix that starts there, and the terminating zero is
    what the empty suffix reads.  The code is compiled without
    NONSTANDARD_DIV_MOD.  Signed overflow wraps; what the machine traps is an
    error. *)
From stdpp Require Import base gmap list.
From Stdlib Require Import ZArith Lia.
From S2P Require Import Prelude CamlMemory CamlValues.
Open Scope Z_scope.

(** * Reading integers *)

Definition int_of_string_failure : string := "int_of_string".

(** The byte a pointer reads. *)
Definition deref (p : bytes) : Z := match p with [] => 0 | c :: _ => c end.

(** The base, the sign and what follows the prefix. *)
Definition parse_sign_and_base (p : bytes) : Z * Z * bytes :=
  let '(sign, p) := if deref p =? 45 then (-1, tail p) else (1, p) in
  if deref p =? 48 then
    let c := deref (tail p) in
    if (c =? 120) || (c =? 88) then (16, sign, drop 2 p)
    else if (c =? 111) || (c =? 79) then (8, sign, drop 2 p)
    else if (c =? 98) || (c =? 66) then (2, sign, drop 2 p)
    else (10, sign, p)
  else (10, sign, p).

Definition parse_digit (c : Z) : Z :=
  if (48 <=? c) && (c <=? 57) then c - 48
  else if (65 <=? c) && (c <=? 70) then c - 65 + 10
  else if (97 <=? c) && (c <=? 102) then c - 97 + 10
  else -1.

(** The loop over the digits: the number read so far and what is left. *)
Fixpoint parse_digits (base threshold res : Z) (p : bytes) : Prelude.res (Z * bytes) :=
  match p with
  | [] => Ok (res, [])
  | c :: p' =>
      if c =? 95 then parse_digits base threshold res p'
      else
        let d := parse_digit c in
        if (d <? 0) || (base <=? d) then Ok (res, p)
        else if threshold <? res then Err int_of_string_failure
        else
          let res := u64 (base * res + d) in
          if res <? d then Err int_of_string_failure else parse_digits base threshold res p'
  end.

Definition parse_intnat (s : bytes) (nbits : Z) : res Z :=
  let '(base, sign, p) := parse_sign_and_base s in
  let threshold := (2 ^ 64 - 1) / base in
  let d := parse_digit (deref p) in
  if (d <? 0) || (base <=? d) then Err int_of_string_failure
  else
    '(res, p) <- parse_digits base threshold d (tail p);
    if negb (bool_decide (p = [])) then Err int_of_string_failure
    else if (if base =? 10 then u64 (Z.shiftl 1 (nbits - 1)) <? res else (nbits <? 64) && (u64 (Z.shiftl 1 nbits) <=? res)) then Err int_of_string_failure
    else Ok (if sign <? 0 then s64 (- s64 res) else s64 res).

Definition caml_int_of_string (s : bytes) : res Z := n <- parse_intnat s 63; Ok (Long_val (Val_long n)).
Definition caml_int32_of_string (s : bytes) : res Z := n <- parse_intnat s 32; Ok (s32 n).
Definition caml_nativeint_of_string (s : bytes) : res Z := parse_intnat s 64.

Definition caml_int64_of_string (s : bytes) : res Z :=
  let max_uint64 := u64 (Z.lor (Z.shiftl 0xFFFFFFFF 32) 0xFFFFFFFF) in
  let max_int64 := u64 (Z.lor (Z.shiftl 0x80000000 32) 0) in
  let '(base, sign, p) := parse_sign_and_base s in
  let threshold := max_uint64 / base in
  let d := parse_digit (deref p) in
  if (d <? 0) || (base <=? d) then Err int_of_string_failure
  else
    '(res, p) <- parse_digits base threshold d (tail p);
    if negb (bool_decide (p = [])) then Err int_of_string_failure
    else if (base =? 10) && (max_int64 <? res) then Err int_of_string_failure
    else Ok (s64 (if sign <? 0 then u64 (- res) else res)).

(** * Arithmetic *)

Definition zero_divide : string := "Division_by_zero".
Definition overflow_trap : string := "integer overflow in a division".
Definition bad_shift : string := "shift by more than the width".

Definition three_way (i1 i2 : Z) : Z := (if i2 <? i1 then 1 else 0) - (if i1 <? i2 then 1 else 0).

(** Tagged integers are compared as they are. *)
Definition caml_int_compare (v1 v2 : Z) : Z := Val_int (three_way v1 v2).

(** The division and the remainder of C on [w] bits. *)
Definition c_div (w i1 i2 : Z) : res Z :=
  if i2 =? 0 then Err zero_divide else if (i1 =? - 2 ^ (w - 1)) && (i2 =? -1) then Err overflow_trap else Ok (Z.quot i1 i2).
Definition c_mod (w i1 i2 : Z) : res Z :=
  if i2 =? 0 then Err zero_divide else if (i1 =? - 2 ^ (w - 1)) && (i2 =? -1) then Err overflow_trap else Ok (Z.rem i1 i2).
Definition c_shift (w n : Z) (r : Z) : res Z := if (n <? 0) || (w <=? n) then Err bad_shift else Ok r.

Definition caml_int32_neg (i : Z) : Z := s32 (- i).
Definition caml_int32_add (i1 i2 : Z) : Z := s32 (i1 + i2).
Definition caml_int32_sub (i1 i2 : Z) : Z := s32 (i1 - i2).
Definition caml_int32_mul (i1 i2 : Z) : Z := s32 (i1 * i2).
Definition caml_int32_div (i1 i2 : Z) : res Z := c_div 32 i1 i2.
Definition caml_int32_mod (i1 i2 : Z) : res Z := c_mod 32 i1 i2.
Definition caml_int32_and (i1 i2 : Z) : Z := Z.land i1 i2.
Definition caml_int32_or (i1 i2 : Z) : Z := Z.lor i1 i2.
Definition caml_int32_xor (i1 i2 : Z) : Z := Z.lxor i1 i2.
Definition caml_int32_shift_left (i n : Z) : res Z := c_shift 32 n (s32 (Z.shiftl i n)).
Definition caml_int32_shift_right (i n : Z) : res Z := c_shift 32 n (Z.shiftr i n).
Definition caml_int32_shift_right_unsigned (i n : Z) : res Z := c_shift 32 n (s32 (Z.shiftr (u32 i) n)).
Definition caml_int32_of_int (n : Z) : Z := s32 n.
Definition caml_int32_to_int (i : Z) : Z := Long_val (Val_long i).
Definition caml_int32_compare (i1 i2 : Z) : Z := three_way i1 i2.

Definition caml_int64_neg (i : Z) : Z := s64 (- i).
Definition caml_int64_add (i1 i2 : Z) : Z := s64 (i1 + i2).
Definition caml_int64_sub (i1 i2 : Z) : Z := s64 (i1 - i2).
Definition caml_int64_mul (i1 i2 : Z) : Z := s64 (i1 * i2).
Definition caml_int64_div (i1 i2 : Z) : res Z := c_div 64 i1 i2.
Definition caml_int64_mod (i1 i2 : Z) : res Z := c_mod 64 i1 i2.
Definition caml_int64_and (i1 i2 : Z) : Z := Z.land i1 i2.
Definition caml_int64_or (i1 i2 : Z) : Z := Z.lor i1 i2.
Definition caml_int64_xor (i1 i2 : Z) : Z := Z.lxor i1 i2.
Definition caml_int64_shift_left (i n : Z) : res Z := c_shift 64 n (s64 (Z.shiftl i n)).
Definition caml_int64_shift_right (i n : Z) : res Z := c_shift 64 n (Z.shiftr i n).
Definition caml_int64_shift_right_unsigned (i n : Z) : res Z := c_shift 64 n (s64 (Z.shiftr (u64 i) n)).
Definition caml_int64_of_int (n : Z) : Z := n.
Definition caml_int64_to_int (i : Z) : Z := Long_val (Val_long i).
Definition caml_int64_of_int32 (i : Z) : Z := i.
Definition caml_int64_to_int32 (i : Z) : Z := s32 i.
Definition caml_int64_of_nativeint (i : Z) : Z := i.
Definition caml_int64_to_nativeint (i : Z) : Z := i.
Definition caml_int64_compare (i1 i2 : Z) : Z := three_way i1 i2.

(** nativeint, on 64 bits *)
Definition caml_nativeint_neg (i : Z) : Z := s64 (- i).
Definition caml_nativeint_add (i1 i2 : Z) : Z := s64 (i1 + i2).
Definition caml_nativeint_sub (i1 i2 : Z) : Z := s64 (i1 - i2).
Definition caml_nativeint_mul (i1 i2 : Z) : Z := s64 (i1 * i2).
Definition caml_nativeint_div (i1 i2 : Z) : res Z := c_div 64 i1 i2.
Definition caml_nativeint_mod (i1 i2 : Z) : res Z := c_mod 64 i1 i2.
Definition caml_nativeint_and (i1 i2 : Z) : Z := Z.land i1 i2.
Definition caml_nativeint_or (i1 i2 : Z) : Z := Z.lor i1 i2.
Definition caml_nativeint_xor (i1 i2 : Z) : Z := Z.lxor i1 i2.
Definition caml_nativeint_shift_left (i n : Z) : res Z := c_shift 64 n (s64 (Z.shiftl i n)).
Definition caml_nativeint_shift_right (i n : Z) : res Z := c_shift 64 n (Z.shiftr i n).
Definition caml_nativeint_shift_right_unsigned (i n : Z) : res Z := c_shift 64 n (s64 (Z.shiftr (u64 i) n)).
Definition caml_nativeint_of_int (n : Z) : Z := n.
Definition caml_nativeint_to_int (i : Z) : Z := Long_val (Val_long i).
Definition caml_nativeint_of_int32 (i : Z) : Z := i.
Definition caml_nativeint_to_int32 (i : Z) : Z := s32 i.
Definition caml_nativeint_compare (i1 i2 : Z) : Z := three_way i1 i2.

(** * Custom operations *)
Section Custom.
(** The addresses of the operations. *)
Variables caml_int32_ops caml_int64_ops caml_nativeint_ops : Z.

Definition int32_cmp (h : heap) (v1 v2 : Z) : res (Z * bool) :=
  i1 <- Int32_val h v1; i2 <- Int32_val h v2; Ok (three_way i1 i2, false).
Definition int32_hash (h : heap) (v : Z) : res Z := Int32_val h v.
Definition int64_cmp (h : heap) (v1 v2 : Z) : res (Z * bool) :=
  i1 <- Int64_val h v1; i2 <- Int64_val h v2; Ok (three_way i1 i2, false).
Definition int64_hash (h : heap) (v : Z) : res Z := Int64_val h v.
Definition nativeint_cmp (h : heap) (v1 v2 : Z) : res (Z * bool) :=
  i1 <- Nativeint_val h v1; i2 <- Nativeint_val h v2; Ok (three_way i1 i2, false).
Definition nativeint_hash (h : heap) (v : Z) : res Z := Nativeint_val h v.

Definition int_ops : CustomOps := {|
  custom_compare ops :=
    if ops =? caml_int32_ops then Some int32_cmp
    else if ops =? caml_int64_ops then Some int64_cmp
    else if ops =? caml_nativeint_ops then Some nativeint_cmp
    else None;
  custom_hash ops :=
    if ops =? caml_int32_ops then Some int32_hash
    else if ops =? caml_int64_ops then Some int64_hash
    else if ops =? caml_nativeint_ops then Some nativeint_hash
    else None
|}.
End Custom.
