(* ===== verification/CamlIntsSpec.v ===== *)
(** Integers of OCaml: what reading an integer computes, that printing in
    decimal and reading are inverse, and the laws of the custom operations. *)
From stdpp Require Import base gmap list.
From Stdlib Require Import ZArith Lia.
From S2P Require Import Prelude CamlMemory CamlValues CamlTrees CamlOrder CamlInts.
Open Scope Z_scope.

(** * Literals *)

(** The number denoted by digits after [acc], without bounds; [None] when a
    character is neither a digit nor an underscore. *)
Fixpoint digits_value (base acc : Z) (p : bytes) : option Z :=
  match p with
  | [] => Some acc
  | c :: p =>
      if c =? 95 then digits_value base acc p
      else let d := parse_digit c in if (0 <=? d) && (d <? base) then digits_value base (base * acc + d) p else None
  end.

(** An optional sign, an optional base, a digit, then digits and underscores:
    the base, the sign and the magnitude. *)
Definition literal (s : bytes) : option (Z * Z * Z) :=
  let '(base, sign, p) := parse_sign_and_base s in
  match p with
  | c :: p =>
      let d := parse_digit c in
      if (0 <=? d) && (d <? base) then match digits_value base d p with Some n => Some (base, sign, n) | None => None end else None
  | [] => None
  end.

(** The largest magnitude: of the most negative number in decimal, of an
    unsigned number in the other bases. *)
Definition max_magnitude (base nbits : Z) : Z := if base =? 10 then 2 ^ (nbits - 1) else 2 ^ nbits - 1.

Definition of_literal (s : bytes) (nbits : Z) : option Z :=
  match literal s with
  | Some (base, sign, n) => if n <=? max_magnitude base nbits then Some (sign * n) else None
  | None => None
  end.

Lemma base_cases s base sign p : parse_sign_and_base s = (base, sign, p) -> (base = 2 \/ base = 8 \/ base = 10 \/ base = 16) /\ (sign = 1 \/ sign = -1).
Proof.
  unfold parse_sign_and_base. destruct (deref s =? 45); repeat destruct (_ =? _); cbn; repeat destruct (_ || _); intros [= <- <- <-]; lia.
Qed.

Lemma digits_value_ge base acc p n : 2 <= base -> 0 <= acc -> digits_value base acc p = Some n -> acc <= n.
Proof.
  intros Hb. revert acc. induction p as [|c p IH]; intros acc Ha; cbn; [intros [= <-]; lia|].
  destruct (c =? 95); [by apply IH|]. case_zbool (0 <=? parse_digit c); cbn [andb]; [|done]. destruct (_ <? _); [|done].
  intros Hn. apply IH in Hn; nia.
Qed.

(** The loop computes the number, and detects when it does not fit. *)
Lemma parse_digits_ok base r p :
  2 <= base <= 16 -> 0 <= r < 2 ^ 64 ->
  match digits_value base r p with
  | Some n => parse_digits base ((2 ^ 64 - 1) / base) r p = if n <? 2 ^ 64 then Ok (n, []) else Err int_of_string_failure
  | None => parse_digits base ((2 ^ 64 - 1) / base) r p = Err int_of_string_failure \/
      exists r' p', p' <> [] /\ parse_digits base ((2 ^ 64 - 1) / base) r p = Ok (r', p')
  end.
Proof.
  intros Hb. revert r. induction p as [|c p IH]; intros r Hr; cbn [digits_value parse_digits].
  { by rewrite (proj2 (Z.ltb_lt _ _)) by lia. }
  destruct (c =? 95); [by apply IH|]. set (d := parse_digit c). set (thr := (2 ^ 64 - 1) / base) in *.
  case_zbool (0 <=? d); cbn [andb].
  2: { right. eexists _, _. split; [|by rewrite (proj2 (Z.ltb_lt _ _)) by lia]. done. }
  rewrite (proj2 (Z.ltb_ge d 0)) by lia. cbn [orb]. destruct (Z.ltb_spec d base) as [Hd|Hd].
  2: { right. eexists _, _. split; [|by rewrite (proj2 (Z.leb_le _ _)) by lia]. done. }
  rewrite (proj2 (Z.leb_gt _ _)) by lia.
  pose proof (Z.div_mod (2 ^ 64 - 1) base ltac:(lia)) as Hdm. pose proof (Z.mod_pos_bound (2 ^ 64 - 1) base ltac:(lia)) as Hmb. fold thr in Hdm.
  assert (2 ^ 64 <= base * r + d -> forall x, digits_value base (base * r + d) p = Some x -> 2 ^ 64 <= x) as Hbig.
  { intros Hge x Hx. apply digits_value_ge in Hx; lia. }
  destruct (Z.ltb_spec thr r) as [Ht|Ht].
  - assert (2 ^ 64 <= base * r + d) as Hge by nia. destruct (digits_value _ _ _) as [n|]; [|by left].
    by rewrite (proj2 (Z.ltb_ge _ _)) by auto.
  - assert (base * r < 2 ^ 64) as Hlt by nia. destruct (Z.ltb_spec (base * r + d) (2 ^ 64)) as [Hs|Hs].
    + assert (0 <= base * r) by nia. rewrite wrap_small by lia. rewrite (proj2 (Z.ltb_ge _ _)) by lia. apply IH. lia.
    + assert (u64 (base * r + d) = base * r + d - 2 ^ 64) as -> by (unfold wrap; symmetry; apply (Z.mod_unique_pos _ _ 1); lia).
      rewrite (proj2 (Z.ltb_lt _ _)) by lia. destruct (digits_value _ _ _) as [n|]; [|by left]. by rewrite (proj2 (Z.ltb_ge _ _)) by auto.
Qed.

(** What both readers do: read the magnitude, then decide on it. *)
Definition reading (k : Z -> Z -> Z -> res Z) (s : bytes) : res Z :=
  let '(base, sign, p) := parse_sign_and_base s in
  let threshold := (2 ^ 64 - 1) / base in
  let d := parse_digit (deref p) in
  if (d <? 0) || (base <=? d) then Err int_of_string_failure
  else
    '(res, p) <- parse_digits base threshold d (tail p);
    if negb (bool_decide (p = [])) then Err int_of_string_failure else k base sign res.

Lemma reading_ok k s :
  reading k s = match literal s with
                | Some (base, sign, n) => if n <? 2 ^ 64 then k base sign n else Err int_of_string_failure
                | None => Err int_of_string_failure
                end.
Proof.
  unfold reading, literal. destruct (parse_sign_and_base s) as [[base sign] p] eqn:Ep.
  destruct (base_cases _ _ _ _ Ep) as [Hb Hs]. assert (2 <= base <= 16) as Hb16 by lia.
  destruct p as [|c p]; [by destruct Hb as [->|[->|[->| ->]]]|]. cbn [deref tail]. set (d := parse_digit c).
  case_zbool (0 <=? d); cbn [andb]; [|by rewrite (proj2 (Z.ltb_lt _ _)) by lia].
  rewrite (proj2 (Z.ltb_ge d 0)) by lia. cbn [orb]. destruct (Z.ltb_spec d base) as [Hd|Hd]; [|by rewrite (proj2 (Z.leb_le _ _)) by lia].
  rewrite (proj2 (Z.leb_gt _ _)) by lia.
  pose proof (parse_digits_ok base d p Hb16 ltac:(lia)) as Hp. destruct (digits_value base d p) as [n|] eqn:En.
  - rewrite Hp. destruct (n <? 2 ^ 64); [|done]. cbn [bind]. by rewrite bool_decide_true.
  - destruct Hp as [->|(r & p' & Hne & ->)]; [done|]. cbn [bind]. by rewrite bool_decide_false.
Qed.

Lemma literal_sign s base sign n : literal s = Some (base, sign, n) -> sign = 1 \/ sign = -1.
Proof.
  unfold literal. destruct (parse_sign_and_base s) as [[b sg] p] eqn:Ep. destruct (base_cases _ _ _ _ Ep) as [_ Hs].
  destruct p as [|c p]; [done|]. cbv zeta. destruct (_ && _); [|done]. destruct (digits_value _ _ _); [|done]. by intros [= _ <- _].
Qed.

Lemma s64_opp x : s64 (- s64 x) = s64 (- x).
Proof.
  rewrite <- (swrap_wrap 64 (- s64 x)), <- (swrap_wrap 64 (- x)) by lia. f_equal.
  pose proof (wrap_swrap 64 x ltac:(lia)) as Hx. unfold wrap in *. rewrite <- !Z.sub_0_l, Zminus_mod, Hx, <- Zminus_mod. done.
Qed.

Lemma parse_intnat_ok s nbits :
  1 <= nbits <= 64 ->
  parse_intnat s nbits = match of_literal s nbits with Some n => Ok (s64 n) | None => Err int_of_string_failure end.
Proof.
  intros Hn. etrans; [apply (reading_ok (fun base sign res =>
    if (if base =? 10 then u64 (Z.shiftl 1 (nbits - 1)) <? res else (nbits <? 64) && (u64 (Z.shiftl 1 nbits) <=? res)) then Err int_of_string_failure
    else Ok (if sign <? 0 then s64 (- s64 res) else s64 res)))|].
  unfold of_literal, max_magnitude. destruct (literal s) as [[[base sign] n]|] eqn:El; [|done].
  assert (2 ^ (nbits - 1) <= 2 ^ 63) by (apply Z.pow_le_mono_r; lia). assert (2 ^ nbits <= 2 ^ 64) by (apply Z.pow_le_mono_r; lia).
  assert (0 < 2 ^ (nbits - 1)) by (apply Z.pow_pos_nonneg; lia). rewrite !Z.shiftl_1_l, (wrap_small 64 (2 ^ (nbits - 1))) by lia.
  assert ((if sign <? 0 then s64 (- s64 n) else s64 n) = s64 (sign * n)) as ->.
  { destruct (literal_sign _ _ _ _ El) as [->| ->]; cbn [Z.ltb Z.compare]; [by rewrite Z.mul_1_l|]. rewrite s64_opp. f_equal; lia. }
  destruct (Z.ltb_spec n (2 ^ 64)) as [Hl|Hl].
  2: { destruct (base =? 10); by rewrite (proj2 (Z.leb_gt _ _)) by lia. }
  destruct (base =? 10).
  - destruct (Z.ltb_spec (2 ^ (nbits - 1)) n); [by rewrite (proj2 (Z.leb_gt _ _)) by lia|by rewrite (proj2 (Z.leb_le _ _)) by lia].
  - destruct (Z.ltb_spec nbits 64); cbn [andb].
    + assert (2 ^ nbits <= 2 ^ 63) by (apply Z.pow_le_mono_r; lia). assert (0 < 2 ^ nbits) by (apply Z.pow_pos_nonneg; lia). rewrite wrap_small by lia.
      destruct (Z.leb_spec (2 ^ nbits) n); [by rewrite (proj2 (Z.leb_gt _ _)) by lia|by rewrite (proj2 (Z.leb_le _ _)) by lia].
    + assert (nbits = 64) as -> by lia. by rewrite (proj2 (Z.leb_le _ _)) by lia.
Qed.

(** The two readers of 64-bit integers agree. *)
Lemma int64_of_string_ok s : caml_int64_of_string s = match of_literal s 64 with Some n => Ok (s64 n) | None => Err int_of_string_failure end.
Proof.
  etrans; [apply (reading_ok (fun base sign res => if (base =? 10) && (2 ^ 63 <? res) then Err int_of_string_failure
    else Ok (s64 (if sign <? 0 then u64 (- res) else res))))|].
  unfold of_literal, max_magnitude. destruct (literal s) as [[[base sign] n]|] eqn:El; [|done].
  assert (s64 (if sign <? 0 then u64 (- n) else n) = s64 (sign * n)) as ->.
  { destruct (literal_sign _ _ _ _ El) as [->| ->]; cbn [Z.ltb Z.compare]; [by rewrite Z.mul_1_l|]. rewrite swrap_wrap by lia. f_equal; lia. }
  destruct (Z.ltb_spec n (2 ^ 64)) as [Hl|Hl]; [|destruct (base =? 10); by rewrite (proj2 (Z.leb_gt _ _)) by lia].
  destruct (base =? 10); cbn [andb]; [|by rewrite (proj2 (Z.leb_le _ _)) by lia].
  change (2 ^ (64 - 1)) with (2 ^ 63). destruct (Z.ltb_spec (2 ^ 63) n); [by rewrite (proj2 (Z.leb_gt _ _)) by lia|by rewrite (proj2 (Z.leb_le _ _)) by lia].
Qed.

(** * Decimal notation *)

Fixpoint dec_digits (fuel : nat) (n : Z) : bytes :=
  match fuel with
  | O => []
  | S fuel => if n <? 10 then [48 + n] else dec_digits fuel (n / 10) ++ [48 + n mod 10]
  end.
(** A number in decimal: its digits, after a minus sign if it is negative. *)
Definition decimal (n : Z) : bytes :=
  let digits := dec_digits (S (Z.to_nat (Z.log2 (Z.abs n)))) (Z.abs n) in if n <? 0 then 45 :: digits else digits.

Lemma parse_digit_dec d : 0 <= d < 10 -> parse_digit (48 + d) = d /\ 48 + d <> 95 /\ 48 + d <> 45.
Proof. intros Hd. unfold parse_digit. rewrite !(proj2 (Z.leb_le _ _)) by lia. cbn [andb]. lia. Qed.

Lemma digits_value_app base acc p q : digits_value base acc (p ++ q) = match digits_value base acc p with Some a => digits_value base a q | None => None end.
Proof.
  revert acc. induction p as [|c p IH]; intros acc; [done|]. cbn. destruct (c =? 95); [apply IH|]. destruct (_ && _); [apply IH|done].
Qed.

Lemma digits_value_one acc d : 0 <= d < 10 -> digits_value 10 acc [48 + d] = Some (10 * acc + d).
Proof.
  intros Hd. destruct (parse_digit_dec d Hd) as (E & E1 & _). cbn [digits_value]. rewrite (proj2 (Z.eqb_neq _ _)) by lia. rewrite E.
  by rewrite (proj2 (Z.leb_le _ _)), (proj2 (Z.ltb_lt _ _)) by lia.
Qed.

(** Digits, the first of them zero only for zero. *)
Lemma dec_digits_ok fuel n : (0 < fuel)%nat -> 0 <= n -> n < 2 ^ Z.of_nat fuel ->
  exists d p, dec_digits fuel n = (48 + d) :: p /\ 0 <= d < 10 /\ (d = 0 -> n = 0 /\ p = []) /\ digits_value 10 0 (dec_digits fuel n) = Some n.
Proof.
  revert n. induction fuel as [|fuel IH]; intros n Hpos Hn Hf; [lia|]. cbn [dec_digits].
  case_zbool (n <? 10).
  - exists n, []. split; [done|]. split; [lia|]. split; [done|]. rewrite digits_value_one by lia. done.
  - rewrite Nat2Z.inj_succ, Z.pow_succ_r in Hf by lia.
    assert (1 <= n / 10 < 2 ^ Z.of_nat fuel) as Hq by (split; [apply Z.div_le_lower_bound; lia|apply Z.div_lt_upper_bound; lia]).
    destruct (IH (n / 10)) as (d & p & E1 & Hd & Hz & Hv); [destruct fuel; [cbn in Hq; lia|lia]|by apply Z.div_pos; lia|by apply Z.div_lt_upper_bound; lia|].
    exists d, (p ++ [48 + n mod 10]). split; [by rewrite E1|]. split; [done|]. split.
    + intros Hd0. destruct (Hz Hd0) as [Hq0 _]. lia.
    + rewrite digits_value_app, Hv, digits_value_one by (apply Z.mod_pos_bound; lia). f_equal. pose proof (Z.div_mod n 10). lia.
Qed.

Lemma parse_decimal n :
  exists d p, parse_sign_and_base (decimal n) = (10, (if n <? 0 then -1 else 1), (48 + d) :: p) /\ 0 <= d < 10 /\
    digits_value 10 0 ((48 + d) :: p) = Some (Z.abs n).
Proof.
  unfold decimal. set (fuel := S (Z.to_nat (Z.log2 (Z.abs n)))).
  destruct (dec_digits_ok fuel (Z.abs n)) as (d & p & Ed & Hd & Hz & Hv); [lia|lia| |].
  { unfold fuel. rewrite Nat2Z.inj_succ, Z2Nat.id by apply Z.log2_nonneg. destruct (Z.eq_dec (Z.abs n) 0) as [->|]; [done|]. apply Z.log2_spec. lia. }
  rewrite Ed in *. exists d, p. split; [|done]. destruct (parse_digit_dec d Hd) as (_ & _ & H45).
  assert (forall sg : Z, (if 48 + d =? 48 then
       if (deref p =? 120) || (deref p =? 88) then (16, sg, drop 2 ((48 + d) :: p) : bytes)
       else if (deref p =? 111) || (deref p =? 79) then (8, sg, drop 2 ((48 + d) :: p))
       else if (deref p =? 98) || (deref p =? 66) then (2, sg, drop 2 ((48 + d) :: p))
       else (10, sg, (48 + d) :: p) else (10, sg, (48 + d) :: p)) = (10, sg, (48 + d) :: p) :> Z * Z * bytes) as Hpre.
  { intros sg. destruct (Z.eqb_spec (48 + d) 48); [|done]. destruct Hz as [_ ->]; [lia|]. done. }
  unfold parse_sign_and_base. destruct (n <? 0); cbn [deref tail].
  - rewrite Z.eqb_refl. apply Hpre.
  - rewrite (proj2 (Z.eqb_neq _ _)) by done. apply Hpre.
Qed.

Lemma of_literal_decimal n nbits : - 2 ^ (nbits - 1) <= n < 2 ^ (nbits - 1) -> of_literal (decimal n) nbits = Some n.
Proof.
  intros Hn. unfold of_literal, literal. destruct (parse_decimal n) as (d & p & -> & Hd & Hv).
  destruct (parse_digit_dec d Hd) as (Ed & E95 & _). cbn [digits_value] in Hv. rewrite (proj2 (Z.eqb_neq _ _)) in Hv by done. rewrite Ed in *.
  rewrite (proj2 (Z.leb_le 0 d)), (proj2 (Z.ltb_lt d 10)) in * by lia. cbn [andb] in *. rewrite Z.mul_0_r, Z.add_0_l in Hv. rewrite Hv.
  unfold max_magnitude. rewrite Z.eqb_refl. rewrite (proj2 (Z.leb_le _ _)) by lia. f_equal. case_zbool (n <? 0); lia.
Qed.

(** * The custom operations of boxed integers *)
Section Laws.
Variables caml_int32_ops caml_int64_ops caml_nativeint_ops : Z.

(** One word of data, read as 32 or as 64 bits. *)
Definition boxed_value (ops : Z) (data : list Z) : Z :=
  match data with w :: _ => if ops =? caml_int32_ops then s32 (s64 w) else s64 w | [] => 0 end.

Lemma three_way_cmp a b : (three_way a b ?= 0) = (a ?= b).
Proof. unfold three_way. destruct (Z.ltb_spec b a), (Z.ltb_spec a b), (Z.compare_spec a b); try done; lia. Qed.
Lemma three_way_range a b : - 1 <= three_way a b <= 1.
Proof. unfold three_way. destruct (_ <? _), (_ <? _); lia. Qed.

Lemma boxed_data h ops data v : repr h (TCustom ops data) v -> length data = 1%nat -> exists w, data = [w] /\ Field h v 1 = Ok (s64 w).
Proof.
  intros (_ & _ & _ & Hw) Hl. destruct data as [|w [|]]; try done. exists w. split; [done|]. unfold Field. destruct Hw as [E _].
  rewrite Z.mul_1_r. by rewrite E.
Qed.

#[refine] Definition int_laws : @CustomLaws (int_ops caml_int32_ops caml_int64_ops caml_nativeint_ops) := {|
  valid_data ops data := length data = 1%nat;
  data_compare ops p1 p2 := (three_way (boxed_value ops p1) (boxed_value ops p2), false);
  data_hash ops p := boxed_value ops p
|}.
Proof.
  - intros ops f h v1 v2 p1 p2 Hf H1 H2 R1 R2. destruct (boxed_data _ _ _ _ R1 H1) as (w1 & -> & E1), (boxed_data _ _ _ _ R2 H2) as (w2 & -> & E2).
    cbn in Hf. unfold boxed_value.
    destruct (ops =? caml_int32_ops); [|destruct (ops =? caml_int64_ops); [|destruct (ops =? caml_nativeint_ops); [|done]]];
      injection Hf as <-; unfold int32_cmp, int64_cmp, nativeint_cmp, Int32_val, Int64_val, Nativeint_val; by rewrite E1, E2.
  - intros ops f h v p Hf H1 R1. destruct (boxed_data _ _ _ _ R1 H1) as (w1 & -> & E1). cbn in Hf. unfold boxed_value.
    destruct (ops =? caml_int32_ops); [|destruct (ops =? caml_int64_ops); [|destruct (ops =? caml_nativeint_ops); [|done]]];
      injection Hf as <-; unfold int32_hash, int64_hash, nativeint_hash, Int32_val, Int64_val, Nativeint_val; by rewrite E1.
  - intros ops p1 p2. cbn [fst]. unfold in_s. pose proof (three_way_range (boxed_value ops p1) (boxed_value ops p2)). change (32 - 1) with 31. lia.
  - intros ops p _. unfold three_way. by rewrite Z.ltb_irrefl.
  - intros ops p1 p2 p3 _ _ _. cbn [fst]. rewrite !three_way_cmp. apply comp3_Z.
  - intros ops p1 p2 _ _. cbn [fst]. rewrite !three_way_cmp. by rewrite Z.compare_antisym.
  - intros ops p1 p2 _ _. cbn [fst]. intros E. pose proof (three_way_cmp (boxed_value ops p1) (boxed_value ops p2)) as Hc.
    rewrite E in Hc. symmetry in Hc. by apply Z.compare_eq in Hc.
Defined.
End Laws.

(** * The theorems *)

Lemma wrap_wrap_le w w' x : 0 <= w <= w' -> wrap w (wrap w' x) = wrap w x.
Proof.
  intros Hw. unfold wrap. replace (2 ^ w') with (2 ^ w * 2 ^ (w' - w)) by (rewrite <- Z.pow_add_r by lia; f_equal; lia).
  rewrite Z.rem_mul_r by (apply Z.pow_nonzero || apply Z.pow_pos_nonneg; lia). rewrite Z.mul_comm, Z.mod_add by (apply Z.pow_nonzero; lia).
  apply Z.mod_mod. apply Z.pow_nonzero; lia.
Qed.
Lemma swrap_swrap_le w w' x : 0 < w <= w' -> swrap w (swrap w' x) = swrap w x.
Proof.
  intros Hw. rewrite <- (swrap_wrap w (swrap w' x)), <- (wrap_wrap_le w w' (swrap w' x)), wrap_swrap, wrap_wrap_le, swrap_wrap by lia. done.
Qed.
Lemma Long_Val_long x : Long_val (Val_long x) = swrap 63 x.
Proof.
  unfold Long_val, Val_long, swrap. rewrite Z.shiftl_mul_pow2, Z.shiftr_div_pow2 by lia. change (2 ^ 1) with 2. change (64 - 1) with 63. change (63 - 1) with 62.
  pose proof (Z.div_mod (x + 2 ^ 62) (2 ^ 63) ltac:(lia)) as Hd. pose proof (Z.mod_pos_bound (x + 2 ^ 62) (2 ^ 63) ltac:(lia)) as Hm.
  set (m := (x + 2 ^ 62) mod 2 ^ 63) in *. set (k := (x + 2 ^ 62) / 2 ^ 63) in *.
  assert ((x * 2 + 1 + 2 ^ 63) mod 2 ^ 64 = 2 * m + 1) as -> by (symmetry; apply (Z.mod_unique_pos _ _ k); lia).
  symmetry. apply (Z.div_unique_pos _ _ _ 1); lia.
Qed.


(** a number written in decimal is read back, by every type it fits. *)
Theorem decimal_roundtrip n :
  (in_s 63 n -> caml_int_of_string (decimal n) = Ok n) /\
  (in_s 32 n -> caml_int32_of_string (decimal n) = Ok n) /\
  (in_s 64 n -> caml_nativeint_of_string (decimal n) = Ok n /\ caml_int64_of_string (decimal n) = Ok n).
Proof.
  unfold in_s, caml_int_of_string, caml_int32_of_string, caml_nativeint_of_string.
  split; [|split]; intros Hn; rewrite ?int64_of_string_ok, !parse_intnat_ok, of_literal_decimal by done || lia; cbn [bind].
  - by rewrite Long_Val_long, swrap_swrap_le, swrap_small by lia.
  - by rewrite swrap_swrap_le, swrap_small by lia.
  - by rewrite swrap_small by lia.
Qed.

Lemma decimal_roundtrip_witness : caml_int_of_string (lit "-42") = Ok (-42).
Proof. apply (decimal_roundtrip (-42)). vm_compute. split; [discriminate|reflexivity]. Defined.

(** 2^62 is read as the smallest int: its magnitude is the one allowed for the
    negative number. *)
Example two_62 : caml_int_of_string (decimal (2 ^ 62)) = Ok (- 2 ^ 62).
Proof. vm_compute. done. Qed.

Example reads_bases :
  caml_int_of_string (lit "-0x_1F") = Err int_of_string_failure /\ caml_int_of_string (lit "-0x1_F") = Ok (-31) /\
  caml_int32_of_string (lit "0xFFFFFFFF") = Ok (-1) /\ caml_int32_of_string (lit "0x1_0000_0000") = Err int_of_string_failure.
Proof. vm_compute. done. Qed.

(** The smallest int32 divided by -1 overflows, which the code does not check. *)
Example min_div : caml_int32_div (- 2 ^ 31) (-1) = Err overflow_trap.
Proof. vm_compute. done. Qed.
