(* ===== verification/CamlPolymorphic.v ===== *)
(** The polymorphic primitives of OCaml: the theorems on comparison and
    hashing, and a heap on which they are evaluated. *)
From stdpp Require Import base gmap list.
From Stdlib Require Import ZArith Lia SpecFloat.
From S2P Require Import Prelude CamlMemory CamlValues CamlCompare CamlHash CamlTrees CamlOrder CamlCompareSpec CamlHashSpec CamlInts CamlIntsSpec.
Open Scope Z_scope.

(** * Specifications *)

Definition ordering_is (c : ordering) (x : comparison) : bool :=
  match c, x with Some Lt, Lt | Some Eq, Eq | Some Gt, Gt => true | _, _ => false end.
Definition sign_of (c : ordering) : Z := match c with Some Lt => -1 | Some Gt => 1 | _ => 0 end.

Section Primitives.
Context `{CustomLaws}.
Variable h : heap.

(** The two values represent trees that can be compared, within the limits of
    the stack and of the bound on the rounds. *)
Record comparison_ready (fuel : nat) (v1 v2 : Z) (t1 t2 : tree) : Prop := {
  cr_1 : repr h t1 v1;
  cr_2 : repr h t2 v2;
  cr_comparable : comparable (strip t1) (strip t2);
  cr_depth : need t1 <= max_items;
  cr_fuel : (tsize t1 + tsize t2 < fuel)%nat
}.

Lemma caml_compare_ok fuel v1 v2 t1 t2 : comparison_ready fuel v1 v2 t1 t2 ->
  caml_compare h fuel v1 v2 = Ok (Val_int (sign_of (tcmp true (strip t1) (strip t2)))).
Proof.
  intros [R1 R2 Hc Hd Hf]. unfold caml_compare. destruct (compare_val_ok h true fuel v1 v2 t1 t2 R1 R2 Hc Hd Hf) as (r & -> & Ha). cbn [bind].
  destruct (tcmp_some (strip t1) (strip t2)) as [c Ec]. rewrite Ec in *. destruct Ha as [_ Ha].
  destruct c; [apply Z.compare_eq in Ha|apply -> Z.compare_lt_iff in Ha|apply -> Z.compare_gt_iff in Ha]; cbn [sign_of].
  - by subst r.
  - by rewrite (proj2 (Z.ltb_lt _ _)) by lia.
  - by rewrite (proj2 (Z.ltb_ge _ _)), (proj2 (Z.ltb_lt 0 r)) by lia.
Qed.

(** The primitives that look at the sign of the result. *)
Lemma relation_ok (p : Z -> bool) (q : ordering -> bool) fuel v1 v2 t1 t2 :
  (forall c r, agrees c r -> p r = q c) -> comparison_ready fuel v1 v2 t1 t2 ->
  (r <- compare_val h fuel v1 v2 false; Ok (Val_bool (p r))) = Ok (Val_bool (q (tcmp false (strip t1) (strip t2)))).
Proof.
  intros Hp [R1 R2 Hc Hd Hf]. destruct (compare_val_ok h false fuel v1 v2 t1 t2 R1 R2 Hc Hd Hf) as (r & -> & Ha). cbn [bind]. by rewrite (Hp _ _ Ha).
Qed.

Ltac by_sign :=
  let c := fresh "c" in let r := fresh "r" in let Ha := fresh "Ha" in
  intros c r Ha; unfold UNORDERED; destruct c as [c|]; cbn [agrees] in Ha; [destruct Ha as [? Ha]; unfold UNORDERED in *; destruct c;
    [apply Z.compare_eq in Ha|apply -> Z.compare_lt_iff in Ha|apply -> Z.compare_gt_iff in Ha]|unfold UNORDERED in Ha; subst r; reflexivity]; cbn [ordering_is negb orb]; lia.

(** C19: polymorphic comparison decides the order on trees: caml_compare returns
    the sign of the total order, in which NaN is equal to itself, and the six
    relations hold exactly when the partial order says so, none of them but
    caml_notequal when the values are not ordered.  Sharing and forward
    pointers make no difference.  The explicit stack does not overflow as long
    as no field but the last ones nests deeper than its limit, so lists of any
    length are compared; the comparison always ends. *)
Theorem compare_decides_order fuel v1 v2 t1 t2 :
  comparison_ready fuel v1 v2 t1 t2 ->
  let c := tcmp false (strip t1) (strip t2) in
  caml_compare h fuel v1 v2 = Ok (Val_int (sign_of (tcmp true (strip t1) (strip t2)))) /\
  caml_equal h fuel v1 v2 = Ok (Val_bool (ordering_is c Eq)) /\
  caml_notequal h fuel v1 v2 = Ok (Val_bool (negb (ordering_is c Eq))) /\
  caml_lessthan h fuel v1 v2 = Ok (Val_bool (ordering_is c Lt)) /\
  caml_lessequal h fuel v1 v2 = Ok (Val_bool (ordering_is c Lt || ordering_is c Eq)) /\
  caml_greaterthan h fuel v1 v2 = Ok (Val_bool (ordering_is c Gt)) /\
  caml_greaterequal h fuel v1 v2 = Ok (Val_bool (ordering_is c Gt || ordering_is c Eq)).
Proof.
  intros Hr c. split; [by apply caml_compare_ok|].
  split; [eapply (relation_ok (fun r => r =? 0) (fun c => ordering_is c Eq)); [by_sign|done]|].
  split; [eapply (relation_ok (fun r => negb (r =? 0)) (fun c => negb (ordering_is c Eq))); [by_sign|done]|].
  split; [eapply (relation_ok (fun r => (r <? 0) && negb (r =? UNORDERED)) (fun c => ordering_is c Lt)); [by_sign|done]|].
  split; [eapply (relation_ok (fun r => (r <=? 0) && negb (r =? UNORDERED)) (fun c => ordering_is c Lt || ordering_is c Eq)); [by_sign|done]|].
  split; [eapply (relation_ok (fun r => 0 <? r) (fun c => ordering_is c Gt)); [by_sign|done]|].
  eapply (relation_ok (fun r => 0 <=? r) (fun c => ordering_is c Gt || ordering_is c Eq)); [by_sign|done].
Qed.

Lemma sign_inj c c' : Ok (Val_int (sign_of (Some c))) = Ok (Val_int (sign_of (Some c'))) -> c = c'.
Proof. by destruct c, c'. Qed.

(** caml_compare is a total preorder on values that can be compared, floats
    included: a value is equal to itself, exchanging the arguments changes the
    sign, and of three values the results compose, so that equal values can
    replace one another and less is transitive. *)
Theorem compare_is_order fuel v1 v2 v3 t1 t2 t3 :
  comparison_ready fuel v1 v1 t1 t1 -> comparison_ready fuel v1 v2 t1 t2 -> comparison_ready fuel v2 v1 t2 t1 ->
  comparison_ready fuel v2 v3 t2 t3 -> comparison_ready fuel v1 v3 t1 t3 ->
  caml_compare h fuel v1 v1 = Ok (Val_int 0) /\
  exists c12 c23 c13,
    caml_compare h fuel v1 v2 = Ok (Val_int (sign_of (Some c12))) /\
    caml_compare h fuel v2 v1 = Ok (Val_int (sign_of (Some (CompOpp c12)))) /\
    caml_compare h fuel v2 v3 = Ok (Val_int (sign_of (Some c23))) /\
    caml_compare h fuel v1 v3 = Ok (Val_int (sign_of (Some c13))) /\
    comp3 c12 c23 c13.
Proof.
  intros H11 H12 H21 H23 H13.
  rewrite (caml_compare_ok _ _ _ _ _ H11), (caml_compare_ok _ _ _ _ _ H12), (caml_compare_ok _ _ _ _ _ H21), (caml_compare_ok _ _ _ _ _ H23),
    (caml_compare_ok _ _ _ _ _ H13).
  pose proof (cr_comparable _ _ _ _ _ H11) as C11. pose proof (cr_comparable _ _ _ _ _ H12) as C12. pose proof (cr_comparable _ _ _ _ _ H23) as C23.
  pose proof (cr_comparable _ _ _ _ _ H13) as C13. rewrite tcmp_refl by done. split; [done|].
  rewrite (tcmp_opp _ _ C12). pose proof (tcmp_comp _ _ _ C12 C23 C13) as Hc.
  destruct (tcmp true (strip t1) (strip t2)) as [c12|], (tcmp true (strip t2) (strip t3)) as [c23|], (tcmp true (strip t1) (strip t3)) as [c13|]; try done.
  by exists c12, c23, c13.
Qed.

Lemma hash_value_ok fuel count limit v t : repr h t v -> valid_customs t -> (tsize t <= fuel)%nat ->
  caml_hash_univ_param h fuel count limit v =
    Ok (Val_long (Z.land (hash_accu (guarded (tree_hash t) (mkHash 0 (Long_val limit) (Long_val count)))) 0x3FFFFFFF)).
Proof. intros Hr Hv Hf. unfold caml_hash_univ_param. by rewrite (hash_aux_ok h fuel t v _ Hr Hv Hf). Qed.

(** C27: values that polymorphic comparison finds equal have the same hash,
    whatever the limits on what is inspected, unless they contain a NaN or a
    zero double; the hash always exists and is an integer below 2^30. *)
Theorem hash_respects_compare fuel count limit v1 v2 t1 t2 :
  comparison_ready fuel v1 v2 t1 t2 -> caml_compare h fuel v1 v2 = Ok (Val_int 0) ->
  valid_customs t1 -> valid_customs t2 -> regular_doubles (strip t1) -> regular_doubles (strip t2) ->
  exists n, 0 <= n < 2 ^ 30 /\
    caml_hash_univ_param h fuel count limit v1 = Ok (Val_long n) /\ caml_hash_univ_param h fuel count limit v2 = Ok (Val_long n).
Proof.
  intros Hr Hc V1 V2 F1 F2. pose proof Hr as [R1 R2 Hcmp _ Hf]. rewrite (caml_compare_ok _ _ _ _ _ Hr) in Hc.
  assert (tcmp true (strip t1) (strip t2) = Some Eq) as E.
  { destruct (tcmp_some (strip t1) (strip t2)) as [c Ec]. rewrite Ec in *. f_equal. by apply (sign_inj c Eq). }
  rewrite (hash_value_ok _ _ _ _ _ R1 V1), (hash_value_ok _ _ _ _ _ R2 V2) by lia. eexists. split; [|split; [reflexivity|]].
  - change 0x3FFFFFFF with (Z.ones 30). rewrite Z.land_ones by lia. by apply Z.mod_pos_bound.
  - assert (forall s, guarded (tree_hash t2) s = guarded (tree_hash t1) s) as Hg; [|by rewrite Hg].
    intros s. unfold guarded. destruct (_ || _); [done|]. rewrite <- (tree_hash_strip t1), <- (tree_hash_strip t2). symmetry. by apply tree_hash_eq.
Qed.
End Primitives.

(** * A heap *)

Module Sample.
Definition int32_ops : Z := 64.
Definition int64_ops : Z := 128.
Definition nativeint_ops : Z := 192.
#[export] Instance sample_ops : CustomOps := int_ops int32_ops int64_ops nativeint_ops.
#[export] Instance sample_laws : CustomLaws := int_laws int32_ops int64_ops nativeint_ops.

(** The blocks of the heap, from address 4096: two lists of a pair of the
    string ab and the Int64 5 followed by the double 2.5.  The second goes
    through a forward pointer and shares the string. *)
Definition block_words (tag : Z) (fs : list Z) : list Z := Make_header (Z.of_nat (length fs)) tag 0 :: fs.
Definition bits_2_5 : Z := 0x4004000000000000.
Definition blocks : list Z :=
  block_words String_tag [0x0500000000006261] ++           (* 4104 *)
  block_words Custom_tag [int64_ops; 5] ++                 (* 4120 *)
  block_words 0 [4104; 4120] ++                            (* 4144 *)
  block_words Double_tag [bits_2_5] ++                     (* 4168 *)
  block_words 0 [4168; Val_long 0] ++                      (* 4184 *)
  block_words 0 [4144; 4184] ++                            (* 4208 *)
  block_words Custom_tag [int64_ops; 5] ++                 (* 4232 *)
  block_words 0 [4104; 4232] ++                            (* 4256 *)
  block_words Forward_tag [4256] ++                        (* 4280 *)
  block_words 0 [4280; 4184] ++                            (* 4296 *)
  block_words Double_tag [0] ++                            (* 4320 *)
  block_words Double_tag [2 ^ 63].                         (* 4336 *)
Definition sample_heap : heap :=
  mkHeap (list_to_map (zip (map Z.of_nat (seq 512 40)) blocks)) (2 ^ 40) 0 0 4096 8192 (fun _ => true).

Definition pair_tree : tree := TBlock 0 [TString [97; 98]; TCustom int64_ops [5]].
Definition list1 : tree := TBlock 0 [pair_tree; TBlock 0 [TDouble bits_2_5; TLong 0]].
Definition list2 : tree := TBlock 0 [TForward pair_tree; TBlock 0 [TDouble bits_2_5; TLong 0]].
End Sample.

Section Witnesses.
Import Sample.

Ltac evaluate :=
  match goal with
  | |- _ /\ _ => split; evaluate
  | |- exists _, _ => eexists; evaluate
  | |- True => exact I
  | |- ?x <> ?y => discriminate
  | |- _ <= _ => vm_compute; discriminate
  | |- _ < _ => vm_compute; reflexivity
  | |- _ = _ => vm_compute; reflexivity
  end.

Lemma list1_repr : repr sample_heap list1 4208.
Proof. unfold list1, pair_tree. cbn [repr bytes_at words_at]. unfold plain_tag, block, in_s. evaluate. Qed.
Lemma list2_repr : repr sample_heap list2 4296.
Proof. unfold list2, pair_tree. cbn [repr bytes_at words_at]. unfold plain_tag, block, in_s. evaluate. Qed.
Lemma lists_comparable : comparable (strip list1) (strip list2).
Proof. cbn. intuition (try discriminate; try done). Qed.
Lemma lists_ready : comparison_ready sample_heap 100 4208 4296 list1 list2.
Proof. split; [apply list1_repr|apply list2_repr|apply lists_comparable|vm_compute; discriminate|vm_compute; lia]. Qed.
Lemma list1_ready : comparison_ready sample_heap 100 4208 4208 list1 list1.
Proof. split; [apply list1_repr|apply list1_repr|apply lists_comparable|vm_compute; discriminate|vm_compute; lia]. Qed.
Lemma lists_ready' : comparison_ready sample_heap 100 4296 4208 list2 list1.
Proof. split; [apply list2_repr|apply list1_repr|apply lists_comparable|vm_compute; discriminate|vm_compute; lia]. Qed.

Lemma compare_decides_order_witness : caml_equal sample_heap 100 4208 4296 = Ok (Val_bool true).
Proof. exact (proj1 (proj2 (compare_decides_order sample_heap 100 4208 4296 list1 list2 lists_ready))). Defined.

Lemma compare_is_order_witness :
  caml_compare sample_heap 100 4208 4208 = Ok (Val_int 0) /\
  exists c12 c23 c13,
    caml_compare sample_heap 100 4208 4296 = Ok (Val_int (sign_of (Some c12))) /\
    caml_compare sample_heap 100 4296 4208 = Ok (Val_int (sign_of (Some (CompOpp c12)))) /\
    caml_compare sample_heap 100 4296 4208 = Ok (Val_int (sign_of (Some c23))) /\
    caml_compare sample_heap 100 4208 4208 = Ok (Val_int (sign_of (Some c13))) /\
    comp3 c12 c23 c13.
Proof.
  exact (compare_is_order sample_heap 100 4208 4296 4208 list1 list2 list1 list1_ready lists_ready lists_ready' lists_ready' list1_ready).
Defined.

Lemma hash_respects_compare_witness :
  exists n, 0 <= n < 2 ^ 30 /\
    caml_hash_univ_param sample_heap 100 21 201 4208 = Ok (Val_long n) /\ caml_hash_univ_param sample_heap 100 21 201 4296 = Ok (Val_long n).
Proof.
  apply (hash_respects_compare sample_heap 100 21 201 4208 4296 list1 list2 lists_ready).
  - vm_compute. reflexivity.
  - vm_compute. repeat split.
  - vm_compute. repeat split.
  - vm_compute. repeat split.
  - vm_compute. repeat split.
Defined.

(** The two zeros are equal and have different hashes. *)
Example zeros_hash :
  caml_compare sample_heap 100 4320 4336 = Ok (Val_int 0) /\
  caml_hash_univ_param sample_heap 100 (Val_long 10) (Val_long 100) 4320 = Ok (Val_long 0) /\
  caml_hash_univ_param sample_heap 100 (Val_long 10) (Val_long 100) 4336 = Ok (Val_long 128).
Proof. vm_compute. done. Qed.
End Witnesses.
