(* ===== verification/CamlMd5.v ===== *)
(** OCaml's MD5 (ocaml/byterun/md5.c), on a little-endian machine with 64-bit
    pointers: the compression function, the streaming context, and the proof
    that any way of cutting the input gives the digest of RFC 1321. *)
From stdpp Require Import base list sets.
From Stdlib Require Import ZArith Lia.
From S2P Require Import Prelude.
Open Scope Z_scope.

(** * Bytes and words *)

(** The uint32 stored in four bytes, and back. *)
Definition word (b : bytes) : Z :=
  match b with
  | [b0; b1; b2; b3] => b0 + Z.shiftl b1 8 + Z.shiftl b2 16 + Z.shiftl b3 24
  | _ => 0
  end.
Definition word_bytes (w : Z) : bytes :=
  [Z.land w 255; Z.land (Z.shiftr w 8) 255; Z.land (Z.shiftr w 16) 255; Z.land (Z.shiftr w 24) 255].

(** [((uint32 * ) in)[0 .. n-1]] *)
Fixpoint words (n : nat) (b : bytes) : list Z :=
  match n with
  | O => []
  | S n' => word (take 4 b) :: words n' (drop 4 b)
  end.

(** [memcpy(dst + off, src, length src)] *)
Definition memcpy (dst : bytes) (off : nat) (src : bytes) : bytes :=
  take off dst ++ src ++ drop (off + length src) dst.
Definition memset0 (dst : bytes) (off n : nat) : bytes := memcpy dst off (replicate n 0).

(** * The compression function *)

Inductive reg := Ar | Br | Cr | Dr.
Inductive core := F1 | F2 | F3 | F4.

Definition not32 (x : Z) : Z := u32 (Z.lnot x).
Definition f1 (x y z : Z) : Z := Z.lxor z (Z.land x (Z.lxor y z)).
Definition f2 (x y z : Z) : Z := f1 z x y.
Definition f3 (x y z : Z) : Z := Z.lxor (Z.lxor x y) z.
Definition f4 (x y z : Z) : Z := Z.lxor y (Z.lor x (not32 z)).
Definition core_fun (f : core) : Z -> Z -> Z -> Z :=
  match f with F1 => f1 | F2 => f2 | F3 => f3 | F4 => f4 end.

(** One statement [MD5STEP(f, w, x, y, z, in[k] + c, s)] on the registers. *)
Record stmt := MD5STEP {
  st_f : core; st_w : reg; st_x : reg; st_y : reg; st_z : reg; st_k : nat; st_c : Z; st_s : Z
}.

Record regs := mkRegs { ra : Z; rb : Z; rc : Z; rd : Z }.
Definition rget (r : regs) (x : reg) : Z :=
  match x with Ar => ra r | Br => rb r | Cr => rc r | Dr => rd r end.
Definition rset (r : regs) (x : reg) (v : Z) : regs :=
  match x with
  | Ar => mkRegs v (rb r) (rc r) (rd r)
  | Br => mkRegs (ra r) v (rc r) (rd r)
  | Cr => mkRegs (ra r) (rb r) v (rd r)
  | Dr => mkRegs (ra r) (rb r) (rc r) v
  end.

(** [w += f(x, y, z) + data, w = w<<s | w>>(32-s), w += x] *)
Definition md5step (f : core) (w x y z data s : Z) : Z :=
  let w := u32 (w + u32 (core_fun f x y z + data)) in
  let w := Z.lor (u32 (Z.shiftl w s)) (Z.shiftr w (32 - s)) in
  u32 (w + x).

Definition exec_stmt (inp : list Z) (r : regs) (s : stmt) : regs :=
  rset r (st_w s)
    (md5step (st_f s) (rget r (st_w s)) (rget r (st_x s)) (rget r (st_y s)) (rget r (st_z s))
       (u32 (nth (st_k s) inp 0 + st_c s)) (st_s s)).

Definition transform_body : list stmt :=
  [
   MD5STEP F1 Ar Br Cr Dr 0 0xd76aa478 7; MD5STEP F1 Dr Ar Br Cr 1 0xe8c7b756 12;
   MD5STEP F1 Cr Dr Ar Br 2 0x242070db 17; MD5STEP F1 Br Cr Dr Ar 3 0xc1bdceee 22;
   MD5STEP F1 Ar Br Cr Dr 4 0xf57c0faf 7; MD5STEP F1 Dr Ar Br Cr 5 0x4787c62a 12;
   MD5STEP F1 Cr Dr Ar Br 6 0xa8304613 17; MD5STEP F1 Br Cr Dr Ar 7 0xfd469501 22;
   MD5STEP F1 Ar Br Cr Dr 8 0x698098d8 7; MD5STEP F1 Dr Ar Br Cr 9 0x8b44f7af 12;
   MD5STEP F1 Cr Dr Ar Br 10 0xffff5bb1 17; MD5STEP F1 Br Cr Dr Ar 11 0x895cd7be 22;
   MD5STEP F1 Ar Br Cr Dr 12 0x6b901122 7; MD5STEP F1 Dr Ar Br Cr 13 0xfd987193 12;
   MD5STEP F1 Cr Dr Ar Br 14 0xa679438e 17; MD5STEP F1 Br Cr Dr Ar 15 0x49b40821 22;
   MD5STEP F2 Ar Br Cr Dr 1 0xf61e2562 5; MD5STEP F2 Dr Ar Br Cr 6 0xc040b340 9;
   MD5STEP F2 Cr Dr Ar Br 11 0x265e5a51 14; MD5STEP F2 Br Cr Dr Ar 0 0xe9b6c7aa 20;
   MD5STEP F2 Ar Br Cr Dr 5 0xd62f105d 5; MD5STEP F2 Dr Ar Br Cr 10 0x02441453 9;
   MD5STEP F2 Cr Dr Ar Br 15 0xd8a1e681 14; MD5STEP F2 Br Cr Dr Ar 4 0xe7d3fbc8 20;
   MD5STEP F2 Ar Br Cr Dr 9 0x21e1cde6 5; MD5STEP F2 Dr Ar Br Cr 14 0xc33707d6 9;
   MD5STEP F2 Cr Dr Ar Br 3 0xf4d50d87 14; MD5STEP F2 Br Cr Dr Ar 8 0x455a14ed 20;
   MD5STEP F2 Ar Br Cr Dr 13 0xa9e3e905 5; MD5STEP F2 Dr Ar Br Cr 2 0xfcefa3f8 9;
   MD5STEP F2 Cr Dr Ar Br 7 0x676f02d9 14; MD5STEP F2 Br Cr Dr Ar 12 0x8d2a4c8a 20;
   MD5STEP F3 Ar Br Cr Dr 5 0xfffa3942 4; MD5STEP F3 Dr Ar Br Cr 8 0x8771f681 11;
   MD5STEP F3 Cr Dr Ar Br 11 0x6d9d6122 16; MD5STEP F3 Br Cr Dr Ar 14 0xfde5380c 23;
   MD5STEP F3 Ar Br Cr Dr 1 0xa4beea44 4; MD5STEP F3 Dr Ar Br Cr 4 0x4bdecfa9 11;
   MD5STEP F3 Cr Dr Ar Br 7 0xf6bb4b60 16; MD5STEP F3 Br Cr Dr Ar 10 0xbebfbc70 23;
   MD5STEP F3 Ar Br Cr Dr 13 0x289b7ec6 4; MD5STEP F3 Dr Ar Br Cr 0 0xeaa127fa 11;
   MD5STEP F3 Cr Dr Ar Br 3 0xd4ef3085 16; MD5STEP F3 Br Cr Dr Ar 6 0x04881d05 23;
   MD5STEP F3 Ar Br Cr Dr 9 0xd9d4d039 4; MD5STEP F3 Dr Ar Br Cr 12 0xe6db99e5 11;
   MD5STEP F3 Cr Dr Ar Br 15 0x1fa27cf8 16; MD5STEP F3 Br Cr Dr Ar 2 0xc4ac5665 23;
   MD5STEP F4 Ar Br Cr Dr 0 0xf4292244 6; MD5STEP F4 Dr Ar Br Cr 7 0x432aff97 10;
   MD5STEP F4 Cr Dr Ar Br 14 0xab9423a7 15; MD5STEP F4 Br Cr Dr Ar 5 0xfc93a039 21;
   MD5STEP F4 Ar Br Cr Dr 12 0x655b59c3 6; MD5STEP F4 Dr Ar Br Cr 3 0x8f0ccc92 10;
   MD5STEP F4 Cr Dr Ar Br 10 0xffeff47d 15; MD5STEP F4 Br Cr Dr Ar 1 0x85845dd1 21;
   MD5STEP F4 Ar Br Cr Dr 8 0x6fa87e4f 6; MD5STEP F4 Dr Ar Br Cr 15 0xfe2ce6e0 10;
   MD5STEP F4 Cr Dr Ar Br 6 0xa3014314 15; MD5STEP F4 Br Cr Dr Ar 13 0x4e0811a1 21;
   MD5STEP F4 Ar Br Cr Dr 4 0xf7537e82 6; MD5STEP F4 Dr Ar Br Cr 11 0xbd3af235 10;
   MD5STEP F4 Cr Dr Ar Br 2 0x2ad7d2bb 15; MD5STEP F4 Br Cr Dr Ar 9 0xeb86d391 21].

(** [caml_MD5Transform(buf, in)], [in] as 16 words. *)
Definition caml_MD5Transform (buf : regs) (inp : list Z) : regs :=
  let r := fold_left (exec_stmt inp) transform_body buf in
  mkRegs (u32 (ra buf + ra r)) (u32 (rb buf + rb r)) (u32 (rc buf + rc r)) (u32 (rd buf + rd r)).

(** * The context *)

Record MD5Context := mkCtx {
  buf : regs;
  bits0 : Z;
  bits1 : Z;
  inb : bytes
}.

Definition init_buf : regs := mkRegs 0x67452301 0xefcdab89 0x98badcfe 0x10325476.

(** The bytes of [in] are left as they are. *)
Definition caml_MD5Init (ctx : MD5Context) : MD5Context := mkCtx init_buf 0 0 (inb ctx).

(** [caml_MD5Transform(ctx->buf, (uint32 * ) ctx->in)] *)
Definition transform_in (ctx : MD5Context) : MD5Context :=
  mkCtx (caml_MD5Transform (buf ctx) (words 16 (inb ctx))) (bits0 ctx) (bits1 ctx) (inb ctx).
Definition with_in (ctx : MD5Context) (i : bytes) : MD5Context :=
  mkCtx (buf ctx) (bits0 ctx) (bits1 ctx) i.

(** [while (len >= 64)], then the remaining bytes; [fuel] turns. *)
Fixpoint update_blocks (fuel : nat) (ctx : MD5Context) (data : bytes) : MD5Context :=
  match fuel with
  | O => with_in ctx (memcpy (inb ctx) 0 data)
  | S fuel' =>
      if (64 <=? length data)%nat then
        update_blocks fuel' (transform_in (with_in ctx (memcpy (inb ctx) 0 (take 64 data)))) (drop 64 data)
      else with_in ctx (memcpy (inb ctx) 0 data)
  end.

Definition caml_MD5Update (ctx : MD5Context) (data : bytes) : MD5Context :=
  let len := Z.of_nat (length data) in
  let t := bits0 ctx in
  let b0 := u32 (t + u32 (Z.shiftl (u32 len) 3)) in
  let b1 := if b0 <? t then u32 (bits1 ctx + 1) else bits1 ctx in
  let b1 := u32 (b1 + u32 (Z.shiftr len 29)) in
  let ctx := mkCtx (buf ctx) b0 b1 (inb ctx) in
  let t := Z.to_nat (Z.land (Z.shiftr t 3) 0x3f) in
  if (t =? 0)%nat then update_blocks (length data / 64) ctx data
  else
    let n := (64 - t)%nat in
    if (length data <? n)%nat then with_in ctx (memcpy (inb ctx) t data)
    else
      let ctx := transform_in (with_in ctx (memcpy (inb ctx) t (take n data))) in
      update_blocks (length (drop n data) / 64) ctx (drop n data).

(** The digest, and the context it leaves: [memset(ctx, 0, sizeof(ctx))] clears
    the size of a pointer, that is [buf[0]] and [buf[1]]. *)
Definition caml_MD5Final (ctx : MD5Context) : bytes * MD5Context :=
  let count := Z.to_nat (Z.land (Z.shiftr (bits0 ctx) 3) 0x3F) in
  let ctx := with_in ctx (memcpy (inb ctx) count [0x80]) in
  let p := S count in
  let count := (64 - 1 - count)%nat in
  let ctx :=
    if (count <? 8)%nat then
      let ctx := transform_in (with_in ctx (memset0 (inb ctx) p count)) in
      with_in ctx (memset0 (inb ctx) 0 56)
    else with_in ctx (memset0 (inb ctx) p (count - 8)) in
  let ctx := with_in ctx (memcpy (inb ctx) 56 (word_bytes (bits0 ctx))) in
  let ctx := with_in ctx (memcpy (inb ctx) 60 (word_bytes (bits1 ctx))) in
  let ctx := transform_in ctx in
  let digest := word_bytes (ra (buf ctx)) ++ word_bytes (rb (buf ctx)) ++
                word_bytes (rc (buf ctx)) ++ word_bytes (rd (buf ctx)) in
  (digest, mkCtx (mkRegs 0 0 (rc (buf ctx)) (rd (buf ctx))) (bits0 ctx) (bits1 ctx) (inb ctx)).

(** [caml_md5_string(str, ofs, len)]; [stack] is the uninitialised context. *)
Definition caml_md5_string (stack : MD5Context) (str : bytes) (ofs len : nat) : bytes :=
  fst (caml_MD5Final (caml_MD5Update (caml_MD5Init stack) (take len (drop ofs str)))).

(** * RFC 1321 *)
Module RFC1321.
Definition F (x y z : Z) : Z := Z.lor (Z.land x y) (Z.land (Z.lnot x) z).
Definition G (x y z : Z) : Z := Z.lor (Z.land x z) (Z.land y (Z.lnot z)).
Definition H (x y z : Z) : Z := Z.lxor x (Z.lxor y z).
Definition I (x y z : Z) : Z := Z.lxor y (Z.lor x (not32 z)).

(** floor(2^32 * abs(sin(i + 1))) *)
Definition T : list Z :=
  [
   0xd76aa478; 0xe8c7b756; 0x242070db; 0xc1bdceee; 0xf57c0faf; 0x4787c62a; 0xa8304613; 0xfd469501;
   0x698098d8; 0x8b44f7af; 0xffff5bb1; 0x895cd7be; 0x6b901122; 0xfd987193; 0xa679438e; 0x49b40821;
   0xf61e2562; 0xc040b340; 0x265e5a51; 0xe9b6c7aa; 0xd62f105d; 0x02441453; 0xd8a1e681; 0xe7d3fbc8;
   0x21e1cde6; 0xc33707d6; 0xf4d50d87; 0x455a14ed; 0xa9e3e905; 0xfcefa3f8; 0x676f02d9; 0x8d2a4c8a;
   0xfffa3942; 0x8771f681; 0x6d9d6122; 0xfde5380c; 0xa4beea44; 0x4bdecfa9; 0xf6bb4b60; 0xbebfbc70;
   0x289b7ec6; 0xeaa127fa; 0xd4ef3085; 0x04881d05; 0xd9d4d039; 0xe6db99e5; 0x1fa27cf8; 0xc4ac5665;
   0xf4292244; 0x432aff97; 0xab9423a7; 0xfc93a039; 0x655b59c3; 0x8f0ccc92; 0xffeff47d; 0x85845dd1;
   0x6fa87e4f; 0xfe2ce6e0; 0xa3014314; 0x4e0811a1; 0xf7537e82; 0xbd3af235; 0x2ad7d2bb; 0xeb86d391].

Definition fn (i : nat) : Z -> Z -> Z -> Z :=
  (if i <? 16 then F else if i <? 32 then G else if i <? 48 then H else I)%nat.
Definition idx (i : nat) : nat :=
  ((if i <? 16 then i else if i <? 32 then 5 * i + 1 else if i <? 48 then 3 * i + 5 else 7 * i) mod 16)%nat.
Definition shifts (i : nat) : list Z :=
  if (i <? 16)%nat then [7; 12; 17; 22] else if (i <? 32)%nat then [5; 9; 14; 20]
  else if (i <? 48)%nat then [4; 11; 16; 23] else [6; 10; 15; 21].
Definition shift (i : nat) : Z := nth (Nat.modulo i 4) (shifts i) 0.
Definition rotl (x s : Z) : Z := Z.lor (u32 (Z.shiftl x s)) (Z.shiftr x (32 - s)).

Definition round (m : list Z) (st : Z * Z * Z * Z) (i : nat) : Z * Z * Z * Z :=
  let '(a, b, c, d) := st in
  (d, u32 (b + rotl (u32 (a + fn i b c d + nth (idx i) m 0 + nth i T 0)) (shift i)), b, c).

Definition compress (h : Z * Z * Z * Z) (m : list Z) : Z * Z * Z * Z :=
  let '(a, b, c, d) := h in
  let '(a', b', c', d') := fold_left (round m) (seq 0 64) h in
  (u32 (a + a'), u32 (b + b'), u32 (c + c'), u32 (d + d')).

(** Blocks of 64 bytes. *)
Fixpoint process (n : nat) (h : Z * Z * Z * Z) (m : bytes) : Z * Z * Z * Z :=
  match n with
  | O => h
  | S n' => process n' (compress h (words 16 (take 64 m))) (drop 64 m)
  end.

(** Zeros that bring a message and its 0x80 byte to 56 modulo 64. *)
Definition pad_zeros (len : nat) : nat := ((55 + 64 - len mod 64) mod 64)%nat.
Definition padded (m : bytes) : bytes :=
  let bits := (8 * Z.of_nat (length m)) mod 2 ^ 64 in
  m ++ [0x80] ++ replicate (pad_zeros (length m)) 0 ++
  word_bytes (bits mod 2 ^ 32) ++ word_bytes (bits / 2 ^ 32).

Definition md5 (m : bytes) : bytes :=
  let p := padded m in
  let '(a, b, c, d) := process (length p / 64) (0x67452301, 0xefcdab89, 0x98badcfe, 0x10325476) p in
  word_bytes a ++ word_bytes b ++ word_bytes c ++ word_bytes d.
End RFC1321.

Definition hex : bytes -> list Z := flat_map (fun b => [b / 16; b mod 16]).
Definition ctx0 : MD5Context := mkCtx (mkRegs 0 0 0 0) 0 0 (replicate 64 0xAA).

(** The RFC's test vectors: the empty string, and the alphabet. *)
Example rfc_empty : RFC1321.md5 [] =
  [0xd4;0x1d;0x8c;0xd9;0x8f;0x00;0xb2;0x04;0xe9;0x80;0x09;0x98;0xec;0xf8;0x42;0x7e].
Proof. vm_compute. reflexivity. Qed.
Example md5_abc : caml_md5_string ctx0 (lit "abc") 0 3 =
  [0x90;0x01;0x50;0x98;0x3c;0xd2;0x4f;0xb0;0xd6;0x96;0x3f;0x7d;0x28;0xe1;0x7f;0x72].
Proof. vm_compute. reflexivity. Qed.

(** * The compression function is the one of the RFC *)

Ltac bitwise :=
  apply Z.bits_inj'; intros ? ?; rewrite ?Z.lxor_spec, ?Z.lor_spec, ?Z.land_spec, ?Z.lxor_spec, ?Z.lnot_spec by done;
  repeat match goal with |- context [Z.testbit ?a ?n] => destruct (Z.testbit a n) end; reflexivity.

Lemma f1_F x y z : f1 x y z = RFC1321.F x y z.
Proof. unfold f1, RFC1321.F. bitwise. Qed.
Lemma f2_G x y z : f2 x y z = RFC1321.G x y z.
Proof. unfold f2, f1, RFC1321.G. bitwise. Qed.
Lemma f3_H x y z : f3 x y z = RFC1321.H x y z.
Proof. unfold f3, RFC1321.H. bitwise. Qed.

#[export] Instance reg_eq_dec : EqDecision reg.
Proof. solve_decision. Defined.
#[export] Instance core_eq_dec : EqDecision core.
Proof. solve_decision. Defined.

Definition core_of (i : nat) : core :=
  if (i <? 16)%nat then F1 else if (i <? 32)%nat then F2 else if (i <? 48)%nat then F3 else F4.

Lemma core_fn i x y z : core_fun (core_of i) x y z = RFC1321.fn i x y z.
Proof.
  unfold core_of, RFC1321.fn. destruct (i <? 16)%nat; [apply f1_F|].
  destruct (i <? 32)%nat; [apply f2_G|]. destruct (i <? 48)%nat; [apply f3_H|done].
Qed.

Lemma md5step_round f w x y z m c s :
  md5step f w x y z (u32 (m + c)) s = u32 (x + RFC1321.rotl (u32 (w + core_fun f x y z + m + c)) s).
Proof.
  unfold md5step. fold (RFC1321.rotl (u32 (w + u32 (core_fun f x y z + u32 (m + c)))) s).
  rewrite (Z.add_comm _ x), wrap_add_r, Z.add_assoc, wrap_add_r.
  do 4 f_equal. lia.
Qed.

(** The code renames the registers where the RFC rotates them. *)
Definition names : Type := reg * reg * reg * reg.
Definition rotate (nm : names) : names := let '(w, x, y, z) := nm in (z, w, x, y).
Definition distinct (nm : names) : Prop := let '(w, x, y, z) := nm in NoDup [w; x; y; z].
Definition read (r : regs) (nm : names) : Z * Z * Z * Z :=
  let '(w, x, y, z) := nm in (rget r w, rget r x, rget r y, rget r z).

Definition matches (i : nat) (nm : names) (s : stmt) : Prop :=
  nm = (st_w s, st_x s, st_y s, st_z s) /\ st_f s = core_of i /\ st_k s = RFC1321.idx i /\
  st_c s = nth i RFC1321.T 0 /\ st_s s = RFC1321.shift i.

Fixpoint follows (i : nat) (nm : names) (l : list stmt) : Prop :=
  match l with
  | [] => True
  | s :: l => matches i nm s /\ follows (S i) (rotate nm) l
  end.

Lemma rget_rset r x v y : rget (rset r x v) y = if decide (y = x) then v else rget r y.
Proof. by destruct x, y. Qed.

Lemma exec_round inp i nm s r :
  matches i nm s -> distinct nm -> read (exec_stmt inp r s) (rotate nm) = RFC1321.round inp (read r nm) i.
Proof.
  intros (-> & Hf & Hk & Hc & Hs) Hd. unfold exec_stmt. cbn [rotate read distinct RFC1321.round] in *.
  rewrite !rget_rset, md5step_round, Hf, Hk, Hc, Hs, core_fn.
  set (w := st_w s) in *. set (x := st_x s) in *. set (y := st_y s) in *. set (z := st_z s) in *.
  rewrite !NoDup_cons in Hd. rewrite (decide_True _ _ (eq_refl w)), !decide_False by set_solver. done.
Qed.

Fixpoint rotates (n : nat) (nm : names) : names :=
  match n with O => nm | S n => rotates n (rotate nm) end.

Lemma exec_rounds inp l i nm r :
  follows i nm l -> distinct nm ->
  read (fold_left (exec_stmt inp) l r) (rotates (length l) nm) =
  fold_left (RFC1321.round inp) (seq i (length l)) (read r nm).
Proof.
  revert i nm r. induction l as [|s l IH]; intros i nm r Hf Hd; [done|]. destruct Hf as [Hm Hf].
  cbn [length rotates fold_left seq]. rewrite (IH (S i)); [|done|].
  - by rewrite (exec_round inp i).
  - destruct nm as [[[w x] y] z]. cbn in *. rewrite !NoDup_cons in *. set_solver.
Qed.

Definition read4 (r : regs) : Z * Z * Z * Z := (ra r, rb r, rc r, rd r).

Lemma body_follows : follows 0 (Ar, Br, Cr, Dr) transform_body.
Proof. cbn [follows transform_body rotate]. unfold matches. repeat split. Qed.
Lemma body_length : length transform_body = 64%nat.
Proof. reflexivity. Qed.
Lemma body_rotates : rotates 64 (Ar, Br, Cr, Dr) = (Ar, Br, Cr, Dr).
Proof. reflexivity. Qed.
Lemma read_names r : read r (Ar, Br, Cr, Dr) = read4 r.
Proof. reflexivity. Qed.

Lemma transform_read buf inp :
  read4 (caml_MD5Transform buf inp) = RFC1321.compress (read4 buf) inp.
Proof.
  pose proof (exec_rounds inp transform_body 0 (Ar, Br, Cr, Dr) buf body_follows
    ltac:(repeat constructor; set_solver)) as He.
  rewrite body_length, body_rotates in He.
  unfold caml_MD5Transform, RFC1321.compress. rewrite !read_names in He. rewrite <- He.
  generalize (fold_left (exec_stmt inp) transform_body buf). by intros [].
Qed.

(** C35: the unrolled compression function, with its 64 hand-written steps, its
    renamed registers and its rewritten boolean functions, computes the
    compression function of RFC 1321 on every state and block. *)
Theorem transform_is_rfc1321 buf inp :
  read4 (caml_MD5Transform buf inp) = RFC1321.compress (read4 buf) inp.
Proof. apply transform_read. Qed.

(** * Streaming *)
Section Streaming.
Open Scope nat_scope.
Implicit Types (m data full tail rest : bytes) (ctx : MD5Context).

Lemma memcpy_at full rest s :
  length s <= length rest -> memcpy (full ++ rest) (length full) s = full ++ s ++ drop (length s) rest.
Proof.
  intros Hs. unfold memcpy. rewrite take_app_length. do 2 f_equal.
  rewrite drop_app_ge by lia. f_equal. lia.
Qed.

Lemma memcpy_0 rest s : length s <= length rest -> memcpy rest 0 s = s ++ drop (length s) rest.
Proof. intros Hs. apply (memcpy_at [] rest s Hs). Qed.

Lemma memcpy_all rest s : length s = length rest -> memcpy rest 0 s = s.
Proof. intros Hs. rewrite memcpy_0 by lia. rewrite drop_ge by lia. apply app_nil_r. Qed.

Lemma process_app q n h full rest :
  length full = 64 * q ->
  RFC1321.process (q + n) h (full ++ rest) = RFC1321.process n (RFC1321.process q h full) rest.
Proof.
  revert h full. induction q as [|q IH]; intros h full Hl.
  - destruct full; [done|cbn in Hl; lia].
  - cbn [RFC1321.process Nat.add]. rewrite take_app_le, drop_app_le by lia.
    apply IH. rewrite length_drop. lia.
Qed.

Lemma process_block q h full blk :
  length full = 64 * q -> length blk = 64 ->
  RFC1321.process (S q) h (full ++ blk) = RFC1321.compress (RFC1321.process q h full) (words 16 blk).
Proof.
  intros Hf Hb. replace (S q) with (q + 1) by lia. rewrite process_app by done.
  cbn [RFC1321.process]. by rewrite take_ge by lia.
Qed.

(** The blocks of [full] have been compressed, [tail] is in the buffer. *)
Record holds ctx (h : Z * Z * Z * Z) full tail : Prop := {
  ho_full : length full = 64 * (length full / 64);
  ho_tail : length tail < 64;
  ho_buf : read4 (buf ctx) = RFC1321.process (length full / 64) h full;
  ho_in : exists rest, inb ctx = tail ++ rest /\ length (tail ++ rest) = 64
}.

Definition same_bits ctx ctx' : Prop := bits0 ctx' = bits0 ctx /\ bits1 ctx' = bits1 ctx.

Lemma div64 n q : n = 64 * q -> n / 64 = q.
Proof. intros ->. rewrite Nat.mul_comm. by apply Nat.div_mul. Qed.

Lemma holds_in ctx h full tail : holds ctx h full tail -> length (inb ctx) = 64.
Proof. intros []. by destruct ho_in0 as (rest & -> & ?). Qed.

(** The buffer is filled up to a whole block, which is compressed. *)
Lemma holds_block ctx h full tail data :
  holds ctx h full tail -> length tail + length data = 64 ->
  holds (transform_in (with_in ctx (memcpy (inb ctx) (length tail) data))) h (full ++ tail ++ data) [].
Proof.
  intros Ho Hd. destruct Ho as [Hf Ht Hb (rest & Hin & Hlen)]. rewrite length_app in Hlen.
  assert (memcpy (inb ctx) (length tail) data = tail ++ data) as Hm.
  { rewrite Hin, memcpy_at, drop_ge, app_nil_r by lia. done. }
  assert (length (full ++ tail ++ data) / 64 = S (length full / 64)) as Hq
    by (apply div64; rewrite !length_app; lia).
  split.
  - rewrite Hq. rewrite !length_app. lia.
  - cbn. lia.
  - cbn [transform_in with_in buf inb]. rewrite Hm, transform_read, Hb, Hq, process_block; [done|lia|rewrite length_app; lia].
  - exists (tail ++ data). cbn. rewrite Hm. split; [done|]. rewrite length_app. lia.
Qed.

(** Fewer bytes than a block go to the buffer. *)
Lemma holds_tail ctx h full tail data :
  holds ctx h full tail -> length tail + length data < 64 ->
  holds (with_in ctx (memcpy (inb ctx) (length tail) data)) h full (tail ++ data).
Proof.
  intros [Hf Ht Hb (rest & Hin & Hlen)] Hd. rewrite length_app in Hlen. split; try done.
  - rewrite length_app. lia.
  - exists (drop (length data) rest). cbn. rewrite Hin, memcpy_at, <- app_assoc by lia.
    split; [done|]. rewrite !length_app, length_drop. lia.
Qed.

Lemma update_blocks_ok fuel ctx h full data :
  holds ctx h full [] -> length data < 64 * S fuel ->
  exists full' tail', full' ++ tail' = full ++ data /\
    holds (update_blocks fuel ctx data) h full' tail' /\ same_bits ctx (update_blocks fuel ctx data).
Proof.
  revert ctx full data. induction fuel as [|fuel IH]; intros ctx full data Ho Hd; cbn [update_blocks].
  { exists full, data. split; [done|]. split; [|done]. apply (holds_tail ctx h full []); [done|cbn; lia]. }
  destruct (Nat.leb_spec 64 (length data)) as [Hge|Hlt].
  - pose proof (holds_block ctx h full [] (take 64 data) Ho) as Hb. cbn [length app Nat.add] in Hb.
    destruct (IH _ _ (drop 64 data) (Hb ltac:(rewrite length_take; lia))) as (f' & t' & E & Ho' & Hs').
    { rewrite length_drop. lia. }
    exists f', t'. split; [|done]. rewrite E, <- app_assoc. by rewrite take_drop.
  - exists full, data. split; [done|]. split; [|done]. apply (holds_tail ctx h full []); [done|cbn; lia].
Qed.

(** The 64-bit count of bits, in two words. *)
Definition counts ctx m : Prop :=
  in_u 32 (bits0 ctx) /\ in_u 32 (bits1 ctx) /\
  exists k, (8 * Z.of_nat (length m) = bits0 ctx + 2 ^ 32 * bits1 ctx + 2 ^ 64 * k)%Z.

Record absorbed ctx m : Prop := {
  ab_counts : counts ctx m;
  ab_holds : exists full tail, full ++ tail = m /\ holds ctx (read4 init_buf) full tail
}.

Lemma counts_tail ctx full tail q :
  counts ctx (full ++ tail) -> length full = 64 * q -> length tail < 64 ->
  Z.to_nat (Z.land (Z.shiftr (bits0 ctx) 3) 0x3f) = length tail.
Proof.
  intros (H0 & H1 & k & Hk) Hf Ht. rewrite length_app in Hk.
  change 0x3f%Z with (Z.ones 6). rewrite Z.land_ones, Z.shiftr_div_pow2 by lia.
  assert (bits0 ctx = (8 * (64 * (Z.of_nat q - 2 ^ 23 * bits1 ctx - 2 ^ 55 * k) + Z.of_nat (length tail)))%Z) as -> by lia.
  change (2 ^ 3)%Z with 8%Z. change (2 ^ 6)%Z with 64%Z.
  rewrite Z.mul_comm, Z.div_mul, Z.add_comm, Z.mul_comm, Z.mod_add, Z.mod_small by lia. lia.
Qed.

Lemma update_counts ctx m data :
  counts ctx m -> counts (mkCtx (buf ctx)
    (u32 (bits0 ctx + u32 (Z.shiftl (u32 (Z.of_nat (length data))) 3)))
    (u32 ((if u32 (bits0 ctx + u32 (Z.shiftl (u32 (Z.of_nat (length data))) 3)) <? bits0 ctx
           then u32 (bits1 ctx + 1) else bits1 ctx) + u32 (Z.shiftr (Z.of_nat (length data)) 29)))%Z
    (inb ctx)) (m ++ data).
Proof.
  intros (H0 & H1 & k & Hk). set (L := Z.of_nat (length data)). unfold counts, in_u in *. cbn [bits0 bits1].
  split; [apply wrap_range; lia|]. split; [apply wrap_range; lia|].
  rewrite length_app, Nat2Z.inj_add. fold L. rewrite Z.shiftr_div_pow2, Z.shiftl_mul_pow2 by lia.
  change (2 ^ 3)%Z with 8%Z.
  assert (u32 (u32 L * 8) = 8 * L - 2 ^ 32 * (L / 2 ^ 29))%Z as ->.
  { unfold wrap. rewrite Zmult_mod_idemp_l, (Z.mod_eq (L * 8)) by lia.
    change (2 ^ 32)%Z with (2 ^ 29 * 8)%Z at 2. rewrite Z.div_mul_cancel_r by lia. lia. }
  pose proof (Z.div_mod L (2 ^ 29) ltac:(lia)) as HL. pose proof (Z.mod_pos_bound L (2 ^ 29) ltac:(lia)).
  set (s := (L / 2 ^ 29)%Z) in *. set (x := (8 * L - 2 ^ 32 * s)%Z).
  assert (0 <= x < 2 ^ 32)%Z by (unfold x; lia).
  assert (exists c, u32 (bits0 ctx + x) = bits0 ctx + x - 2 ^ 32 * c /\
    (if u32 (bits0 ctx + x) <? bits0 ctx then c = 1 else c = 0))%Z as (c & -> & Hc).
  { destruct (Z_lt_le_dec (bits0 ctx + x) (2 ^ 32)).
    - exists 0%Z. rewrite wrap_small by lia. split; [lia|]. case_zbool (bits0 ctx + x <? bits0 ctx)%Z; lia.
    - exists 1%Z. unfold wrap. rewrite <- (Z.mod_add _ (-1)), Z.mod_small by lia.
      split; [lia|]. case_zbool (bits0 ctx + x + -1 * 2 ^ 32 <? bits0 ctx)%Z; lia. }
  assert (u32 ((if bits0 ctx + x - 2 ^ 32 * c <? bits0 ctx then u32 (bits1 ctx + 1) else bits1 ctx) + u32 s)
    = u32 (bits1 ctx + c + s))%Z as ->.
  { rewrite wrap_add_r. destruct (_ <? _)%Z; subst c; [apply wrap_add_l|by rewrite Z.add_0_r]. }
  unfold wrap. rewrite (Z.mod_eq (bits1 ctx + c + s)) by lia.
  exists (k + (bits1 ctx + c + s) / 2 ^ 32)%Z. unfold x. lia.
Qed.

Lemma init_absorbed ctx : length (inb ctx) = 64 -> absorbed (caml_MD5Init ctx) [].
Proof.
  intros Hl. split; [split; [done|split; [done|by exists 0%Z]]|].
  exists [], []. split; [done|]. split; try done; [cbn; lia|]. by exists (inb ctx).
Qed.

Lemma with_counts ctx ctx' m : counts ctx m -> same_bits ctx ctx' -> counts ctx' m.
Proof. unfold counts. by intros Hc [-> ->]. Qed.

Lemma fuel_enough n : n < 64 * S (n / 64).
Proof. pose proof (Nat.div_mod n 64). pose proof (Nat.mod_upper_bound n 64). lia. Qed.

Lemma update_absorbed ctx m data :
  absorbed ctx m -> absorbed (caml_MD5Update ctx data) (m ++ data).
Proof.
  intros [Hc (full & tail & E & Ho)]. subst m. unfold caml_MD5Update.
  pose proof (update_counts ctx _ data Hc) as Hc'.
  rewrite (counts_tail ctx full tail (length full / 64)) by (done || apply Ho).
  set (ctx1 := mkCtx _ _ _ _) in *.
  assert (holds ctx1 (read4 init_buf) full tail) as Ho1 by (by destruct Ho).
  clearbody ctx1. rewrite <- app_assoc in Hc'. rewrite <- app_assoc.
  destruct (Nat.eqb_spec (length tail) 0) as [E0|E0]; [|destruct (Nat.ltb_spec (length data) (64 - length tail))].
  - destruct tail; [|done].
    destruct (update_blocks_ok (length data / 64) ctx1 _ full data Ho1 (fuel_enough _)) as (f & t & Eq & ? & ?).
    split; [by eapply with_counts|]. by exists f, t.
  - split; [by eapply with_counts|]. exists full, (tail ++ data). split; [done|].
    apply holds_tail; [done|lia].
  - pose proof (ho_tail _ _ _ _ Ho1).
    pose proof (holds_block ctx1 _ full tail (take (64 - length tail) data) Ho1) as Hb.
    destruct (update_blocks_ok (length (drop (64 - length tail) data) / 64) _ _ _ (drop (64 - length tail) data)
      (Hb ltac:(rewrite length_take; lia)) (fuel_enough _)) as (f & t & Eq & ? & Hs).
    split; [by eapply with_counts|]. exists f, t. split; [|done].
    rewrite Eq, <- !app_assoc. by rewrite take_drop.
Qed.

(** * The end of the message *)

Lemma pad_zeros_eq q t : t < 64 -> RFC1321.pad_zeros (64 * q + t) = if t <? 56 then 55 - t else 119 - t.
Proof.
  intros Ht. unfold RFC1321.pad_zeros. rewrite (Nat.add_comm (64 * q)), (Nat.mul_comm 64 q), Nat.Div0.mod_add, (Nat.mod_small t) by lia.
  destruct (Nat.ltb_spec t 56).
  - replace (55 + 64 - t) with (55 - t + 1 * 64) by lia. rewrite Nat.Div0.mod_add. apply Nat.mod_small. lia.
  - replace (55 + 64 - t) with (119 - t) by lia. apply Nat.mod_small. lia.
Qed.

Lemma length_word_bytes w : length (word_bytes w) = 4.
Proof. done. Qed.

(** Completing the buffer, whose first [n] bytes are [l], to a block. *)
Lemma pad_block (l rest : bytes) b0 b1 :
  length l = 56 -> length (l ++ rest) = 64 ->
  memcpy (memcpy (l ++ rest) 56 (word_bytes b0)) 60 (word_bytes b1) = l ++ word_bytes b0 ++ word_bytes b1.
Proof.
  intros Hl Hr. rewrite length_app in Hr. rewrite <- Hl at 1.
  rewrite memcpy_at by (rewrite length_word_bytes; lia).
  rewrite app_assoc. replace 60 with (length (l ++ word_bytes b0)) by (rewrite length_app, length_word_bytes; lia).
  rewrite memcpy_at by (rewrite length_drop, !length_word_bytes; lia).
  rewrite !length_word_bytes, drop_drop, (drop_ge rest), app_nil_r by lia. by rewrite <- app_assoc.
Qed.

Lemma bits_split ctx m :
  counts ctx m ->
  let bits := ((8 * Z.of_nat (length m)) mod 2 ^ 64)%Z in
  (bits mod 2 ^ 32)%Z = bits0 ctx /\ (bits / 2 ^ 32)%Z = bits1 ctx.
Proof.
  intros (H0 & H1 & k & Hk). unfold in_u in *.
  assert ((8 * Z.of_nat (length m)) mod 2 ^ 64 = bits0 ctx + bits1 ctx * 2 ^ 32)%Z as E.
  { rewrite Hk.
    rewrite (Z.mul_comm _ k), Z.mod_add by lia. rewrite Z.mod_small; lia. }
  cbv zeta. rewrite E. split.
  - rewrite Z.mod_add, Z.mod_small by lia. done.
  - rewrite Z.div_add, Z.div_small by lia. done.
Qed.

Definition digest (h : Z * Z * Z * Z) : bytes :=
  let '(a, b, c, d) := h in word_bytes a ++ word_bytes b ++ word_bytes c ++ word_bytes d.

Lemma md5_blocks full l q n :
  length full = 64 * q -> length l = 64 * n -> forall m, RFC1321.padded m = full ++ l ->
  RFC1321.md5 m = digest (RFC1321.process n (RFC1321.process q (read4 init_buf) full) l).
Proof.
  intros Hf Hl m Hm. unfold RFC1321.md5. rewrite Hm.
  rewrite (div64 _ (q + n)) by (rewrite length_app; lia). by rewrite process_app.
Qed.

Lemma memset0_at full rest n :
  n <= length rest -> memset0 (full ++ rest) (length full) n = full ++ replicate n 0%Z ++ drop n rest.
Proof. intros Hn. unfold memset0. rewrite memcpy_at; rewrite length_replicate; done. Qed.

Lemma final_absorbed ctx m : absorbed ctx m -> fst (caml_MD5Final ctx) = RFC1321.md5 m.
Proof.
  intros [Hc (full & tail & E & Ho)]. subst m.
  pose proof (ho_full _ _ _ _ Ho) as Hf. pose proof (ho_tail _ _ _ _ Ho) as Ht.
  set (q := length full / 64) in *. destruct (bits_split ctx _ Hc) as [B0 B1].
  assert (RFC1321.padded (full ++ tail) = full ++ (tail ++ [0x80%Z]) ++
    replicate (if length tail <? 56 then 55 - length tail else 119 - length tail) 0%Z ++
    word_bytes (bits0 ctx) ++ word_bytes (bits1 ctx)) as Hpad.
  { unfold RFC1321.padded. rewrite B0, B1, length_app, Hf, pad_zeros_eq by done. by rewrite <- !app_assoc. }
  unfold caml_MD5Final. rewrite (counts_tail ctx full tail q) by done.
  destruct Ho as [_ _ Hb (rest & Hin & Hlen)]. rewrite Hin. rewrite length_app in Hlen.
  rewrite memcpy_at by (cbn; lia). cbn [length].
  set (l := tail ++ [0x80%Z]) in *.
  assert (tail ++ [0x80%Z] ++ drop 1 rest = l ++ drop 1 rest) as -> by (unfold l; by rewrite <- app_assoc). assert (length l = S (length tail)) as Hl
    by (unfold l; rewrite length_app; cbn; lia). rewrite <- Hl.
  cbn [with_in inb bits0 bits1 buf].
  destruct (Nat.ltb_spec (length tail) 56) as [Hs|Hs], (Nat.ltb_spec (64 - 1 - length tail) 8); try lia.
  - rewrite memset0_at by (rewrite length_drop; lia). rewrite (app_assoc l).
    cbn [with_in inb bits0 bits1 buf transform_in fst].
    rewrite pad_block; [|rewrite length_app, length_replicate; lia|
      rewrite !length_app, length_replicate, !length_drop; lia].
    set (r := caml_MD5Transform _ _). change (digest (read4 r) = RFC1321.md5 (full ++ tail)).
    unfold r. rewrite transform_read, Hb. symmetry.
    rewrite (md5_blocks full (l ++ replicate (55 - length tail) 0%Z ++ word_bytes (bits0 ctx) ++ word_bytes (bits1 ctx)) q 1).
    + cbn [RFC1321.process]. rewrite take_ge by (rewrite !length_app, length_replicate, !length_word_bytes; lia).
      replace (64 - 1 - length tail - 8) with (55 - length tail) by lia. by rewrite <- app_assoc.
    + done.
    + rewrite !length_app, length_replicate, !length_word_bytes; lia.
    + done.
  - rewrite memset0_at by (rewrite length_drop; lia).
    cbn [with_in inb bits0 bits1 buf transform_in fst].
    set (blk := l ++ _ ++ _).
    assert (blk = l ++ replicate (63 - length tail) 0%Z) as ->.
    { unfold blk. rewrite (drop_ge (drop _ _)), app_nil_r by (rewrite length_drop; lia).
      done. }
    set (blk' := l ++ replicate (63 - length tail) 0%Z).
    assert (length blk' = 64) as Hb' by (unfold blk'; rewrite length_app, length_replicate; lia).
    pose proof (memset0_at [] blk' 56 ltac:(lia)) as Hm. cbn [length app] in Hm. rewrite Hm.
    rewrite pad_block; [|by rewrite length_replicate|rewrite length_app, length_replicate, length_drop; lia].
    set (r := caml_MD5Transform _ _). change (digest (read4 r) = RFC1321.md5 (full ++ tail)).
    unfold r. rewrite !transform_read, Hb. symmetry.
    rewrite (md5_blocks full (blk' ++ replicate 56 0%Z ++ word_bytes (bits0 ctx) ++ word_bytes (bits1 ctx)) q 2).
    + cbn [RFC1321.process]. rewrite (take_app_le blk'), (take_ge blk'), (drop_app_ge blk'), Hb' by lia.
      cbn [Nat.sub]. rewrite drop_0. by rewrite take_ge by (rewrite !length_app, length_replicate, !length_word_bytes; lia).
    + done.
    + rewrite !length_app, length_replicate, !length_word_bytes; lia.
    + rewrite Hpad. replace (119 - length tail) with (63 - length tail + 56) by lia.
      unfold blk'. by rewrite replicate_add, <- !app_assoc.
Qed.

Lemma updates_absorbed chunks ctx m :
  absorbed ctx m -> absorbed (fold_left caml_MD5Update chunks ctx) (m ++ concat chunks).
Proof.
  revert ctx m. induction chunks as [|c chunks IH]; intros ctx m Ha; cbn; [by rewrite app_nil_r|].
  rewrite app_assoc. by apply IH, update_absorbed.
Qed.

(** C34: however a message is cut into the buffers given to successive calls of
    caml_MD5Update, and whatever the context and its buffer held before
    caml_MD5Init, caml_MD5Final returns the digest RFC 1321 gives for the whole
    message: the partial block, the two-word bit count with its carry, and the
    one- or two-block padding are right for every length. *)
Theorem md5_streaming ctx chunks :
  length (inb ctx) = 64 ->
  fst (caml_MD5Final (fold_left caml_MD5Update chunks (caml_MD5Init ctx))) = RFC1321.md5 (concat chunks).
Proof. intros Hl. apply final_absorbed. by apply (updates_absorbed chunks _ []), init_absorbed. Qed.

Lemma md5_streaming_witness :
  fst (caml_MD5Final (fold_left caml_MD5Update [lit "a"; []; lit "bc"] (caml_MD5Init ctx0))) =
  RFC1321.md5 (lit "abc").
Proof. apply (md5_streaming ctx0 [lit "a"; []; lit "bc"]). reflexivity. Defined.
End Streaming.

(** The clearing of the context by caml_MD5Final stops after a pointer's size:
    the last bytes of the message stay in the buffer. *)
Example final_leaves_message :
  take 6 (inb (snd (caml_MD5Final (caml_MD5Update (caml_MD5Init ctx0) (lit "secret"))))) = lit "secret".
Proof. vm_compute. reflexivity. Qed.
