(* ===== verification/CamlIntext.v ===== *)
(** What output and input of structured values share (ocaml/byterun/intext.h,
    custom.c, reverse.h, ints.c): the codes of the format, integers in
    big-endian order, writing in the heap, and the custom blocks.

    The two programs keep a state, which an error leaves as it is: a computation
    returns an outcome and the state it stopped in. *)
From stdpp Require Import base gmap list.
From Stdlib Require Import ZArith Lia.
From S2P Require Import Prelude CamlMemory CamlValues.
Open Scope Z_scope.

(** * Computations with a state *)
Definition prog (S A : Type) : Type := S -> res A * S.

Definition ret {S A} (a : A) : prog S A := fun s => (Ok a, s).
Definition then_ {S A B} (m : prog S A) (k : A -> prog S B) : prog S B := fun s =>
  match m s with
  | (Ok a, s) => k a s
  | (Err e, s) => (Err e, s)
  | (Timeout, s) => (Timeout, s)
  end.
Notation "x <~ m ; k" := (then_ m (fun x => k)) (at level 20, m at level 100, k at level 200) : c_scope.
Notation "m ;; k" := (then_ m (fun _ => k)) (at level 100, k at level 200, right associativity) : c_scope.

Definition out_of_fuel {S A} : prog S A := fun s => (Timeout, s).

(** An observation of the state, and a change of it. *)
Definition look {S A} (f : S -> res A) : prog S A := fun s => (f s, s).
Definition change {S} (f : S -> res S) : prog S unit := fun s =>
  match f s with
  | Ok s => (Ok tt, s)
  | Err e => (Err e, s)
  | Timeout => (Timeout, s)
  end.

(** * Codes *)
Definition Intext_magic_number : Z := 0x8495A6BE.
Definition PREFIX_SMALL_BLOCK : Z := 0x80.
Definition PREFIX_SMALL_INT : Z := 0x40.
Definition PREFIX_SMALL_STRING : Z := 0x20.
Definition CODE_INT8 : Z := 0x0.
Definition CODE_INT16 : Z := 0x1.
Definition CODE_INT32 : Z := 0x2.
Definition CODE_INT64 : Z := 0x3.
Definition CODE_SHARED8 : Z := 0x4.
Definition CODE_SHARED16 : Z := 0x5.
Definition CODE_SHARED32 : Z := 0x6.
Definition CODE_BLOCK32 : Z := 0x8.
Definition CODE_BLOCK64 : Z := 0x13.
Definition CODE_STRING8 : Z := 0x9.
Definition CODE_STRING32 : Z := 0xA.
Definition CODE_DOUBLE_BIG : Z := 0xB.
Definition CODE_DOUBLE_LITTLE : Z := 0xC.
Definition CODE_DOUBLE_ARRAY8_BIG : Z := 0xD.
Definition CODE_DOUBLE_ARRAY8_LITTLE : Z := 0xE.
Definition CODE_DOUBLE_ARRAY32_BIG : Z := 0xF.
Definition CODE_DOUBLE_ARRAY32_LITTLE : Z := 0x7.
Definition CODE_CODEPOINTER : Z := 0x10.
Definition CODE_INFIXPOINTER : Z := 0x11.
Definition CODE_CUSTOM : Z := 0x12.
Definition CODE_DOUBLE_NATIVE : Z := CODE_DOUBLE_LITTLE.
Definition CODE_DOUBLE_ARRAY8_NATIVE : Z := CODE_DOUBLE_ARRAY8_LITTLE.
Definition CODE_DOUBLE_ARRAY32_NATIVE : Z := CODE_DOUBLE_ARRAY32_LITTLE.
Definition ENTRIES_PER_TRAIL_BLOCK : Z := 1025.
Definition SIZE_EXTERN_OUTPUT_BLOCK : Z := 8100.

(** The code area of the program and its checksum (fix_code.h). *)
Record code_area := mkCode {
  caml_code_area_start : Z;
  caml_code_area_end : Z;
  caml_code_checksum : bytes
}.

(** * Headers (gc.h) *)
Definition Color_hd (hd : Z) : Z := Z.land hd Caml_black.
Definition Whitehd_hd (hd : Z) : Z := Z.land hd (Z.lxor (2 ^ 64 - 1) Caml_black).
Definition Colornum_hd (hd : Z) : Z := Z.land (Z.shiftr hd 8) 3.
Definition Coloredhd_hd (hd colnum : Z) : Z := Z.lor (Z.land hd (Z.lxor (2 ^ 64 - 1) Caml_black)) (Z.shiftl colnum 8).
Definition Infix_offset_hd (hd : Z) : Z := u64 (Wosize_hd hd * 8).
Definition Double_wosize : Z := 1.

(** * Writing in the heap *)
Definition set_words (h : heap) (m : memory) : heap :=
  mkHeap m (caml_atom_table h) (caml_young_start h) (caml_young_end h) (caml_heap_start h) (caml_heap_end h) (caml_page_table h).
Definition set_word (h : heap) (a w : Z) : res heap :=
  if u64 a mod 8 =? 0 then m <- wr (words h) (u64 a / 8) w; Ok (set_words h m) else Err segv.
Definition set_Field (h : heap) (v i x : Z) : res heap := set_word h (v + 8 * i) (u64 x).
Definition set_Hd (h : heap) (v hd : Z) : res heap := set_word h (v - 8) hd.

(** A word with one of its bytes replaced. *)
Definition put_byte (w i b : Z) : Z := Z.lor (Z.ldiff w (Z.shiftl 255 (8 * i))) (Z.shiftl (u8 b) (8 * i)).
Definition set_byte (h : heap) (a b : Z) : res heap :=
  w <- rd (words h) (u64 a / 8);
  m <- wr (words h) (u64 a / 8) (put_byte w (u64 a mod 8) b);
  Ok (set_words h m).

(** memmove from and to the heap *)
Fixpoint get_bytes (h : heap) (a : Z) (n : nat) : res bytes :=
  match n with
  | O => Ok []
  | S n => b <- byte_at h a; bs <- get_bytes h (a + 1) n; Ok (b :: bs)
  end.
Fixpoint set_bytes (h : heap) (a : Z) (bs : bytes) : res heap :=
  match bs with
  | [] => Ok h
  | b :: bs => h <- set_byte h a b; set_bytes h (a + 1) bs
  end.

(** * Bytes of integers *)

(** [val >> 8 * (n - 1)], ..., [val >> 8], [val], each stored in a char. *)
Fixpoint be_bytes (n : nat) (val : Z) : bytes :=
  match n with
  | O => []
  | S n => u8 (Z.shiftr val (8 * Z.of_nat n)) :: be_bytes n val
  end.

(** ([b_0] << 8 * (n - 1)) + ... + [b_n-1] *)
Definition be_value (bs : bytes) : Z := fold_left (fun acc b => Z.shiftl acc 8 + b) bs 0.

(** The same with the first byte sign extended. *)
Definition be_signed (bs : bytes) : Z :=
  match bs with
  | [] => 0
  | b :: bs => fold_left (fun acc b => Z.shiftl acc 8 + b) bs (swrap 8 b)
  end.

(** * Custom blocks (custom.h, custom.c)

    A serializer makes a number of writes and says the size of the data on 32
    and 64 bits; a deserializer reads the input and gives the data, the size and
    what it left of the input. *)
Class CustomMarshal := {
  custom_identifier : Z -> bytes;
  custom_serialize : Z -> option (heap -> Z -> res (list bytes * Z * Z));
  custom_deserialize : Z -> option (bytes -> res (bytes * Z * bytes))
}.

Definition Custom_ops_val (h : heap) (v : Z) : res Z := Field h v 0.

Section CustomTable.
Context `{CustomMarshal}.

(** The registered operations, the last one first. *)
Definition caml_register_custom_operations (custom_ops_table : list Z) (ops : Z) : list Z := ops :: custom_ops_table.

(** The C string at the start of the input, without its zero. *)
Fixpoint c_string (p : bytes) : option bytes :=
  match p with
  | [] => None
  | b :: p => if b =? 0 then Some [] else s ← c_string p; Some (b :: s)
  end.

Fixpoint caml_find_custom_operations (custom_ops_table : list Z) (ident : bytes) : option Z :=
  match custom_ops_table with
  | [] => None
  | ops :: l => if bool_decide (custom_identifier ops = ident) then Some ops else caml_find_custom_operations l ident
  end.
End CustomTable.

(** * Functions for writing user-defined marshallers (extern.c, intern.c)

    What each writes; what it reads and the input it leaves.  Doubles have the
    endianness of integers: little (ARCH_FLOAT_ENDIANNESS is 0x01234567). *)
Definition caml_serialize_int_1 (i : Z) : bytes := be_bytes 1 i.
Definition caml_serialize_int_2 (i : Z) : bytes := be_bytes 2 i.
Definition caml_serialize_int_4 (i : Z) : bytes := be_bytes 4 i.

(** [len] items of [n] bytes in memory, each reversed. *)
Fixpoint reverse_items (n len : nat) (data : bytes) : bytes :=
  match len with
  | O => []
  | S len => rev (take n data) ++ reverse_items n len (drop n data)
  end.
Definition caml_serialize_block_1 (data : bytes) (len : nat) : bytes := take len data.
Definition caml_serialize_block_2 (data : bytes) (len : nat) : bytes := reverse_items 2 len data.
Definition caml_serialize_block_4 (data : bytes) (len : nat) : bytes := reverse_items 4 len data.
Definition caml_serialize_block_8 (data : bytes) (len : nat) : bytes := reverse_items 8 len data.
Definition caml_serialize_block_float_8 (data : bytes) (len : nat) : bytes := take (8 * len) data.
Definition caml_serialize_int_8 (i : Z) : bytes := caml_serialize_block_8 (le_bytes 8 i) 1.
Definition caml_serialize_float_4 (f : Z) : bytes := caml_serialize_block_4 (le_bytes 4 f) 1.
Definition caml_serialize_float_8 (d : Z) : bytes := caml_serialize_block_8 (le_bytes 8 d) 1.

Definition end_of_input : string := "read past the end of the input".

(** [n] bytes of the input. *)
Definition split_input (n : nat) (src : bytes) : res (bytes * bytes) :=
  if (n <=? length src)%nat then Ok (take n src, drop n src) else Err end_of_input.

Definition caml_deserialize_uint_1 (src : bytes) : res (Z * bytes) := '(b, src) <- split_input 1 src; Ok (be_value b, src).
Definition caml_deserialize_sint_1 (src : bytes) : res (Z * bytes) := '(b, src) <- split_input 1 src; Ok (be_signed b, src).
Definition caml_deserialize_uint_2 (src : bytes) : res (Z * bytes) := '(b, src) <- split_input 2 src; Ok (be_value b, src).
Definition caml_deserialize_sint_2 (src : bytes) : res (Z * bytes) := '(b, src) <- split_input 2 src; Ok (be_signed b, src).
Definition caml_deserialize_uint_4 (src : bytes) : res (Z * bytes) := '(b, src) <- split_input 4 src; Ok (be_value b, src).
Definition caml_deserialize_sint_4 (src : bytes) : res (Z * bytes) := '(b, src) <- split_input 4 src; Ok (be_signed b, src).
Definition caml_deserialize_block_1 (len : nat) (src : bytes) : res (bytes * bytes) := split_input len src.
Definition caml_deserialize_block_2 (len : nat) (src : bytes) : res (bytes * bytes) :=
  '(b, src) <- split_input (2 * len) src; Ok (reverse_items 2 len b, src).
Definition caml_deserialize_block_4 (len : nat) (src : bytes) : res (bytes * bytes) :=
  '(b, src) <- split_input (4 * len) src; Ok (reverse_items 4 len b, src).
Definition caml_deserialize_block_8 (len : nat) (src : bytes) : res (bytes * bytes) :=
  '(b, src) <- split_input (8 * len) src; Ok (reverse_items 8 len b, src).
Definition caml_deserialize_block_float_8 (len : nat) (src : bytes) : res (bytes * bytes) := split_input (8 * len) src.
Definition caml_deserialize_uint_8 (src : bytes) : res (Z * bytes) := '(i, src) <- caml_deserialize_block_8 1 src; Ok (le_value i, src).
Definition caml_deserialize_sint_8 (src : bytes) : res (Z * bytes) := '(i, src) <- caml_deserialize_block_8 1 src; Ok (s64 (le_value i), src).
Definition caml_deserialize_float_4 (src : bytes) : res (Z * bytes) := '(f, src) <- caml_deserialize_block_4 1 src; Ok (le_value f, src).
Definition caml_deserialize_float_8 (src : bytes) : res (Z * bytes) := '(d, src) <- caml_deserialize_block_float_8 1 src; Ok (le_value d, src).

(** * The custom operations of the boxed integers (ints.c) *)
Section BoxedIntegers.
Variables caml_int32_ops caml_int64_ops caml_nativeint_ops : Z.

Definition int32_serialize (h : heap) (v : Z) : res (list bytes * Z * Z) :=
  i <- Int32_val h v; Ok ([caml_serialize_int_4 i], 4, 4).
Definition int32_deserialize (src : bytes) : res (bytes * Z * bytes) :=
  '(i, src) <- caml_deserialize_sint_4 src; Ok (le_bytes 4 i, 4, src).

Definition int64_serialize (h : heap) (v : Z) : res (list bytes * Z * Z) :=
  i <- Int64_val h v; Ok ([caml_serialize_int_8 i], 8, 8).
Definition int64_deserialize (src : bytes) : res (bytes * Z * bytes) :=
  '(i, src) <- caml_deserialize_sint_8 src; Ok (le_bytes 8 i, 8, src).

Definition nativeint_serialize (h : heap) (v : Z) : res (list bytes * Z * Z) :=
  l <- Nativeint_val h v;
  Ok (if (l <=? 0x7FFFFFFF) && (- 0x80000000 <=? l) then [caml_serialize_int_1 1; caml_serialize_int_4 (s32 l)]
      else [caml_serialize_int_1 2; caml_serialize_int_8 l], 4, 8).
Definition ill_formed_nativeint : string := "input_value: ill-formed native integer".
Definition nativeint_deserialize (src : bytes) : res (bytes * Z * bytes) :=
  '(c, src) <- caml_deserialize_uint_1 src;
  if c =? 1 then '(i, src) <- caml_deserialize_sint_4 src; Ok (le_bytes 8 i, 8, src)
  else if c =? 2 then '(i, src) <- caml_deserialize_sint_8 src; Ok (le_bytes 8 i, 8, src)
  else Err ill_formed_nativeint.

Definition caml_init_custom_operations (custom_ops_table : list Z) : list Z :=
  caml_register_custom_operations (caml_register_custom_operations (caml_register_custom_operations
    custom_ops_table caml_int32_ops) caml_nativeint_ops) caml_int64_ops.

(** _i, _j and _n *)
Definition int_marshal : CustomMarshal := {|
  custom_identifier ops := if ops =? caml_int32_ops then lit "_i" else if ops =? caml_int64_ops then lit "_j" else if ops =? caml_nativeint_ops then lit "_n" else [];
  custom_serialize ops :=
    if ops =? caml_int32_ops then Some int32_serialize
    else if ops =? caml_int64_ops then Some int64_serialize
    else if ops =? caml_nativeint_ops then Some nativeint_serialize
    else None;
  custom_deserialize ops :=
    if ops =? caml_int32_ops then Some int32_deserialize
    else if ops =? caml_int64_ops then Some int64_deserialize
    else if ops =? caml_nativeint_ops then Some nativeint_deserialize
    else None
|}.
End BoxedIntegers.
