(* ===== verification/CamlIntextOk.v ===== *)
(** Lemmas for output and input of values: headers and their bits, integers in
    bytes, and the words and bytes of the heap at aligned addresses. *)
From stdpp Require Import base gmap list.
From Stdlib Require Import ZArith Lia.
From S2P Require Import Prelude CamlMemory CamlValues CamlIntext.
Open Scope Z_scope.

(** Arithmetic with divisions by constants. *)
Ltac zdiv := Z.div_mod_to_equations; lia.

(** * Headers *)

(** What clears the colour of a header. *)
Lemma mask_bit n : 0 <= n -> Z.testbit (Z.lxor (2 ^ 64 - 1) Caml_black) n = (n <? 64) && negb ((n =? 8) || (n =? 9)).
Proof.
  intros Hn. destruct (Z.ltb_spec n 64) as [Hlt|Hge].
  - assert (Forall (fun k => Z.testbit (Z.lxor (2 ^ 64 - 1) Caml_black) k = negb ((k =? 8) || (k =? 9))) (seqZ 0 64)) as Hall
      by (vm_compute; repeat constructor).
    rewrite Forall_forall in Hall. apply Hall. apply elem_of_seqZ. lia.
  - apply Z.bits_above_log2; [done|]. apply Z.lt_le_trans with 64; [vm_compute; done|done].
Qed.

Lemma black_bit n : 0 <= n -> Z.testbit Caml_black n = (n =? 8) || (n =? 9).
Proof.
  intros Hn. destruct (Z.ltb_spec n 10) as [Hlt|Hge].
  - assert (Forall (fun k => Z.testbit Caml_black k = (k =? 8) || (k =? 9)) (seqZ 0 10)) as Hall by (vm_compute; repeat constructor).
    rewrite Forall_forall in Hall. apply Hall. apply elem_of_seqZ. lia.
  - rewrite Z.bits_above_log2; [lia|done|]. change (Z.log2 Caml_black) with 9. lia.
Qed.

Lemma blue_bit n : 0 <= n -> Z.testbit Caml_blue n = (n =? 9).
Proof. intros. change Caml_blue with (2 ^ 9). rewrite Z.pow2_bits_eqb by lia. apply Z.eqb_sym. Qed.

Lemma small_bits x w n : 0 <= x < 2 ^ w -> w <= n -> Z.testbit x n = false.
Proof.
  intros Hx Hn. destruct (Z.eqb_spec x 0) as [->|]; [by rewrite Z.bits_0|]. apply Z.bits_above_log2; [lia|].
  apply Z.lt_le_trans with w; [|done]. apply Z.log2_lt_pow2; lia.
Qed.

Ltac hd_bits :=
  unfold Tag_hd, Wosize_hd, Color_hd, Bluehd_hd, Coloredhd_hd, Colornum_hd, Whitehd_hd;
  apply Z.bits_inj'; let n := fresh "n" in let Hn := fresh "Hn" in intros n Hn;
  repeat first [rewrite Z.land_spec | rewrite Z.lor_spec | rewrite Z.shiftr_spec by lia | rewrite mask_bit by lia | rewrite black_bit by lia
               | rewrite blue_bit by lia | rewrite Z.shiftl_spec by lia].

Lemma Tag_blue hd : Tag_hd (Bluehd_hd hd) = Tag_hd hd.
Proof.
  hd_bits. destruct (Z.ltb_spec n 8).
  - rewrite (proj2 (Z.ltb_lt n 64)), (proj2 (Z.eqb_neq n 8)), (proj2 (Z.eqb_neq n 9)) by lia. cbn. by rewrite andb_true_r, orb_false_r.
  - by rewrite (small_bits 255 8 n), !andb_false_r by lia.
Qed.
Lemma Tag_white hd : Tag_hd (Whitehd_hd hd) = Tag_hd hd.
Proof.
  hd_bits. destruct (Z.ltb_spec n 8).
  - rewrite (proj2 (Z.ltb_lt n 64)), (proj2 (Z.eqb_neq n 8)), (proj2 (Z.eqb_neq n 9)) by lia. cbn. by rewrite andb_true_r.
  - by rewrite (small_bits 255 8 n), !andb_false_r by lia.
Qed.
Lemma Wosize_white hd : 0 <= hd < 2 ^ 64 -> Wosize_hd (Whitehd_hd hd) = Wosize_hd hd.
Proof.
  intros Hh. hd_bits. rewrite (proj2 (Z.eqb_neq (n + 10) 8)), (proj2 (Z.eqb_neq (n + 10) 9)) by lia. cbn. rewrite andb_true_r.
  destruct (Z.ltb_spec (n + 10) 64); [by rewrite andb_true_r|by rewrite (small_bits hd 64) by lia].
Qed.
Lemma White_bound w hd : 0 <= w -> 0 <= hd < 2 ^ w -> 0 <= Whitehd_hd hd < 2 ^ w.
Proof.
  intros Hw Hh. unfold Whitehd_hd. set (m := Z.lxor _ _). assert (0 <= m) by (vm_compute; done). assert (0 <= Z.land hd m) by (apply Z.land_nonneg; lia). split; [done|].
  destruct (Z.eqb_spec (Z.land hd m) 0) as [->|]; [lia|]. destruct (Z.eqb_spec hd 0) as [->|]; [by rewrite Z.land_0_l in *|]. apply Z.log2_lt_pow2; [lia|].
  pose proof (Z.log2_land hd m). assert (Z.log2 hd < w) by (apply Z.log2_lt_pow2; lia). lia.
Qed.
Lemma Wosize_blue' hd : 0 <= hd < 2 ^ 64 -> Wosize_hd (Bluehd_hd hd) = Wosize_hd hd.
Proof.
  intros Hh. hd_bits. rewrite (proj2 (Z.eqb_neq (n + 10) 8)), (proj2 (Z.eqb_neq (n + 10) 9)) by lia. cbn. rewrite andb_true_r, orb_false_r.
  destruct (Z.ltb_spec (n + 10) 64); [by rewrite andb_true_r|by rewrite (small_bits hd 64) by lia].
Qed.
Lemma Color_blue hd : Color_hd (Bluehd_hd hd) = Caml_blue.
Proof.
  hd_bits. destruct (Z.eqb_spec n 8), (Z.eqb_spec n 9); subst; cbn; rewrite ?andb_false_r, ?andb_true_r, ?orb_true_r; try done; lia.
Qed.
Lemma Colored_blue hd : 0 <= hd < 2 ^ 64 -> Coloredhd_hd (Bluehd_hd hd) (Colornum_hd hd) = hd.
Proof.
  intros Hh. hd_bits. destruct (Z.ltb_spec n 8).
  { rewrite (Z.testbit_neg_r 3 (n - 8)), (proj2 (Z.ltb_lt n 64)), (proj2 (Z.eqb_neq n 8)), (proj2 (Z.eqb_neq n 9)) by lia. cbn.
    by rewrite !andb_true_r, andb_false_r, !orb_false_r. }
  rewrite Z.shiftr_spec by lia. replace (n - 8 + 8) with n by lia.
  destruct (Z.eqb_spec n 8) as [->|]; [cbn; by rewrite andb_true_r, andb_false_r|].
  destruct (Z.eqb_spec n 9) as [->|]; [cbn; by rewrite andb_true_r, andb_false_r|].
  rewrite (small_bits 3 2 (n - 8)) by lia. cbn. rewrite andb_true_r, andb_false_r, !orb_false_r.
  destruct (Z.ltb_spec n 64); [by rewrite !andb_true_r|by rewrite (small_bits hd 64 n) by lia].
Qed.

(** The entry of the trail packs an address and a colour. *)
Lemma Colornum_range hd : 0 <= Colornum_hd hd < 4.
Proof. unfold Colornum_hd. change 3 with (Z.ones 2). rewrite Z.land_ones by lia. apply Z.mod_pos_bound. lia. Qed.
Lemma packed o c : 0 <= c < 4 -> o mod 8 = 0 -> Z.land (Z.lor o c) 3 = c /\ Z.land (Z.lor o c) (Z.lnot 3) = o.
Proof.
  intros Hc Ho. assert (forall n, 0 <= n < 2 -> Z.testbit o n = false) as Hlow.
  { intros n Hn. rewrite <- (Z.mod_pow2_bits_low o 3 n) by lia. change (2 ^ 3) with 8. by rewrite Ho, Z.bits_0. }
  assert (forall n, 0 <= n -> Z.testbit 3 n = (n <? 2)) as H3 by (intros n Hn; change 3 with (Z.ones 2); rewrite Z.testbit_ones by lia; lia).
  split; apply Z.bits_inj'; intros n Hn; rewrite !Z.land_spec, Z.lor_spec, ?Z.lnot_spec, H3 by lia; case_zbool (n <? 2).
  - by rewrite Hlow, andb_true_r by lia.
  - by rewrite andb_false_r, (small_bits c 2) by lia.
  - by rewrite Hlow, andb_false_r by lia.
  - by rewrite (small_bits c 2), andb_true_r, orb_false_r by lia.
Qed.

Lemma Make_tag sz tag color : 0 <= sz < 2 ^ 54 -> 0 <= tag < 256 -> color = Caml_white \/ color = Caml_black ->
  Tag_hd (Make_header sz tag color) = tag /\ Wosize_hd (Make_header sz tag color) = sz /\ 0 <= Make_header sz tag color < 2 ^ 64.
Proof.
  intros Hs Ht Hc. unfold Make_header. rewrite Z.shiftl_mul_pow2 by lia.
  assert (0 <= color <= 768) as Hcr by (destruct Hc; subst; unfold Caml_white, Caml_black; lia).
  rewrite (wrap_small 64 (sz * 2 ^ 10)), (wrap_small 64) by lia.
  unfold Tag_hd, Wosize_hd. change 255 with (Z.ones 8). rewrite Z.land_ones, Z.shiftr_div_pow2 by lia. split_and!; [| |lia|lia].
  - destruct Hc; subst; unfold Caml_white, Caml_black.
    + replace (sz * 2 ^ 10 + 0 + tag) with (tag + (sz * 4) * 2 ^ 8) by lia. rewrite Z.mod_add by lia. apply Z.mod_small. lia.
    + replace (sz * 2 ^ 10 + 768 + tag) with (tag + (sz * 4 + 3) * 2 ^ 8) by lia. rewrite Z.mod_add by lia. apply Z.mod_small. lia.
  - symmetry. apply (Z.div_unique _ _ _ (color + tag)); lia.
Qed.
Lemma Color_div hd : Color_hd hd = (hd / 256) mod 4 * 256.
Proof.
  change 4 with (2 ^ 2). change 256 with (2 ^ 8). rewrite <- Z.land_ones, <- Z.shiftr_div_pow2, <- Z.shiftl_mul_pow2 by lia. unfold Color_hd.
  apply Z.bits_inj'. intros k Hk. rewrite Z.land_spec, black_bit by lia. destruct (Z.lt_ge_cases k 8).
  - rewrite Z.shiftl_spec_low, !(proj2 (Z.eqb_neq _ _)) by lia. apply andb_false_r.
  - rewrite Z.shiftl_spec, Z.land_spec, Z.shiftr_spec by lia. replace (k - 8 + 8) with k by lia. f_equal. destruct (Z.lt_ge_cases (k - 8) 2).
    + rewrite Z.ones_spec_low by lia. destruct (Z.eqb_spec k 8), (Z.eqb_spec k 9); (done || lia).
    + rewrite Z.ones_spec_high by lia. by rewrite !(proj2 (Z.eqb_neq _ _)) by lia.
Qed.
Lemma Color_made n tag color : 0 <= n < 2 ^ 54 -> 0 <= tag < 256 -> color = Caml_white \/ color = Caml_black -> Color_hd (Make_header n tag color) = color.
Proof.
  intros Hn Ht Hc. rewrite Color_div. unfold Make_header. rewrite Z.shiftl_mul_pow2 by lia. change (2 ^ 10) with 1024. rewrite (wrap_small 64 (n * 1024)) by lia.
  destruct Hc as [-> | ->]; unfold Caml_white, Caml_black; rewrite (wrap_small 64) by lia; zdiv.
Qed.
Lemma Wosize_bound hd : 0 <= hd < 2 ^ 64 -> 0 <= Wosize_hd hd < 2 ^ 54.
Proof. intros. unfold Wosize_hd. rewrite Z.shiftr_div_pow2 by lia. split; [apply Z.div_pos; lia|apply Z.div_lt_upper_bound; lia]. Qed.
Lemma Tag_bound hd : 0 <= Tag_hd hd < 256.
Proof. unfold Tag_hd. change 255 with (Z.ones 8). rewrite Z.land_ones by lia. apply Z.mod_pos_bound. lia. Qed.

(** * Integers in bytes *)
Lemma length_be n x : length (be_bytes n x) = n.
Proof. induction n as [|n IH]; cbn [be_bytes length]; [done|by rewrite IH]. Qed.

Lemma u8_is_byte x : is_byte (u8 x).
Proof. apply (wrap_range 8 x). lia. Qed.
Lemma be_bytes_byte n x : Forall is_byte (be_bytes n x).
Proof. induction n as [|n IH]; constructor; [apply u8_is_byte|done]. Qed.
Lemma be_fold n x acc : fold_left (fun acc b => Z.shiftl acc 8 + b) (be_bytes n x) acc = acc * 2 ^ (8 * Z.of_nat n) + x mod 2 ^ (8 * Z.of_nat n).
Proof.
  revert acc. induction n as [|n IH]; intros acc; cbn [be_bytes fold_left]; [rewrite Z.mod_1_r; lia|].
  rewrite IH, Z.shiftl_mul_pow2, Z.shiftr_div_pow2 by lia. replace (8 * Z.of_nat (S n)) with (8 * Z.of_nat n + 8) by lia.
  rewrite Z.pow_add_r by lia. unfold wrap. set (p := 2 ^ (8 * Z.of_nat n)). change (2 ^ 8) with 256.
  assert (0 < p) by (apply Z.pow_pos_nonneg; lia).
  rewrite Z.rem_mul_r by lia. lia.
Qed.
Lemma be_value_bytes n x : be_value (be_bytes n x) = x mod 2 ^ (8 * Z.of_nat n).
Proof. unfold be_value. rewrite be_fold. lia. Qed.
Lemma be_value_32 x : 0 <= x < 2 ^ 32 -> be_value (be_bytes 4 x) = x.
Proof. intros. rewrite be_value_bytes. apply Z.mod_small. done. Qed.

Lemma be_signed_bytes n x : (0 < n)%nat -> be_signed (be_bytes n x) = swrap (8 * Z.of_nat n) x.
Proof.
  intros Hn. destruct n as [|n]; [lia|]. cbn [be_bytes be_signed]. rewrite be_fold, swrap_wrap, Z.shiftr_div_pow2 by lia.
  replace (8 * Z.of_nat (S n)) with (8 * Z.of_nat n + 8) by lia. unfold swrap.
  replace (8 * Z.of_nat n + 8 - 1) with (8 * Z.of_nat n + 7) by lia. rewrite !Z.pow_add_r by lia.
  set (p := 2 ^ (8 * Z.of_nat n)). change (2 ^ 8) with 256. change (2 ^ (8 - 1)) with 128. change (2 ^ 7) with 128.
  assert (0 < p) by (apply Z.pow_pos_nonneg; lia).
  replace (x + p * 128) with (x + 128 * p) by lia. rewrite Z.rem_mul_r, Z.mod_add, Z.div_add by lia. lia.
Qed.

(** * Words of the heap *)
Section Words.
Variable h : heap.

Lemma word_at_ok a : 0 <= a < 2 ^ 64 -> a mod 8 = 0 -> word_at h a = rd (words h) (a / 8).
Proof. intros Ha Hm. unfold word_at. rewrite (wrap_small 64), Hm by done. done. Qed.

Lemma Field_ok v i : 0 <= v + 8 * i < 2 ^ 64 -> v mod 8 = 0 -> Field h v i = (w <- rd (words h) (v / 8 + i); Ok (s64 w)).
Proof.
  intros Ha Hm. unfold Field. rewrite word_at_ok; [|done|rewrite Z.mul_comm, Z.mod_add; lia].
  replace (v + 8 * i) with (v + i * 8) by lia. by rewrite Z.div_add by lia.
Qed.

Lemma Hd_val_word v : 8 <= v < 2 ^ 64 -> v mod 8 = 0 -> Hd_val h v = rd (words h) (v / 8 - 1).
Proof.
  intros Ha Hm. unfold Hd_val. replace (v - 8) with (v + (-1) * 8) by lia.
  rewrite word_at_ok, Z.div_add; [done|lia|lia|by rewrite Z.mod_add by lia].
Qed.

Lemma set_word_ok a w : 0 <= a < 2 ^ 64 -> a mod 8 = 0 -> is_Some (words h !! (a / 8)) ->
  set_word h a w = Ok (set_words h (<[a / 8 := w]> (words h))).
Proof. intros Ha Hm [x Hx]. unfold set_word, wr. rewrite (wrap_small 64), Hm by done. cbn. by rewrite Hx. Qed.

Lemma set_Hd_ok v w : 8 <= v < 2 ^ 64 -> v mod 8 = 0 -> is_Some (words h !! (v / 8 - 1)) ->
  set_Hd h v w = Ok (set_words h (<[v / 8 - 1 := w]> (words h))).
Proof.
  intros Ha Hm Hs. unfold set_Hd. replace (v - 8) with (v + (-1) * 8) by lia.
  assert ((v + -1 * 8) / 8 = v / 8 - 1) as E by (rewrite Z.div_add; lia).
  rewrite set_word_ok, E; [done|lia|by rewrite Z.mod_add by lia|by rewrite E].
Qed.

Lemma set_Field_ok v i x : 0 <= v + 8 * i < 2 ^ 64 -> v mod 8 = 0 -> is_Some (words h !! (v / 8 + i)) ->
  set_Field h v i x = Ok (set_words h (<[v / 8 + i := u64 x]> (words h))).
Proof.
  intros Ha Hm Hs. unfold set_Field. assert ((v + 8 * i) / 8 = v / 8 + i) as E by (replace (8 * i) with (i * 8) by lia; rewrite Z.div_add; lia).
  rewrite set_word_ok, E; [done|lia|rewrite Z.mul_comm, Z.mod_add; lia|by rewrite E].
Qed.
End Words.

Lemma rd_some m a w : m !! a = Some w -> rd m a = Ok w.
Proof. intros E. unfold rd. by rewrite E. Qed.
Lemma words_set h m : words (set_words h m) = m.
Proof. done. Qed.
Lemma set_words_twice h m m' : set_words (set_words h m) m' = set_words h m'.
Proof. done. Qed.
Lemma set_words_same h : set_words h (words h) = h.
Proof. by destruct h. Qed.
Lemma known_set h m v : known (set_words h m) v = known h v.
Proof. done. Qed.
Lemma u64_s64 x : 0 <= x < 2 ^ 64 -> u64 (s64 x) = x.
Proof. intros. rewrite wrap_swrap by lia. by apply wrap_small. Qed.
Lemma s64_u64 x : in_s 64 x -> s64 (u64 x) = x.
Proof. intros. rewrite swrap_wrap by lia. by apply swrap_small. Qed.
Lemma s64_range x : in_s 64 (s64 x).
Proof. apply (swrap_range 64 x). lia. Qed.
#[export] Hint Resolve s64_range : cdev.

(** * Bytes of the heap *)
Definition byte_of (w i : Z) : Z := Z.land (Z.shiftr w (8 * i)) 255.

Lemma byte_of_div w i : 0 <= i -> byte_of w i = (w / 2 ^ (8 * i)) mod 256.
Proof. intros. unfold byte_of. change 255 with (Z.ones 8). by rewrite Z.land_ones, Z.shiftr_div_pow2 by lia. Qed.

Lemma put_byte_same w i b : 0 <= i -> byte_of (put_byte w i b) i = u8 b.
Proof.
  intros Hi. unfold byte_of, put_byte. pose proof (wrap_range 8 b ltac:(lia)) as Hb. apply Z.bits_inj'. intros n Hn.
  rewrite Z.land_spec, Z.shiftr_spec, Z.lor_spec, Z.ldiff_spec, !Z.shiftl_spec by lia.
  replace (n + 8 * i - 8 * i) with n by lia. destruct (Z.ltb_spec n 8).
  - change 255 with (Z.ones 8). rewrite Z.ones_spec_low by lia. cbn. by rewrite andb_false_r, andb_true_r.
  - by rewrite (small_bits 255 8), (small_bits (u8 b) 8), andb_false_r by lia.
Qed.
Lemma put_byte_other w i j b : 0 <= i -> 0 <= j -> i <> j -> byte_of (put_byte w i b) j = byte_of w j.
Proof.
  intros Hi Hj Hne. unfold byte_of, put_byte. pose proof (wrap_range 8 b ltac:(lia)) as Hb. apply Z.bits_inj'. intros n Hn.
  rewrite !Z.land_spec, !Z.shiftr_spec, Z.lor_spec, Z.ldiff_spec, !Z.shiftl_spec by lia.
  destruct (Z.ltb_spec n 8); [|by rewrite (small_bits 255 8 n), !andb_false_r by lia].
  assert (Z.testbit 255 (n + 8 * j - 8 * i) = false /\ Z.testbit (u8 b) (n + 8 * j - 8 * i) = false) as [-> ->].
  { destruct (Z.lt_ge_cases i j); [split; apply (small_bits _ 8); lia|rewrite !Z.testbit_neg_r by lia; done]. }
  cbn. by rewrite andb_true_r, orb_false_r.
Qed.

Lemma byte_at_ok h a w : 0 <= a < 2 ^ 64 -> words h !! (a / 8) = Some w -> byte_at h a = Ok (byte_of w (a mod 8)).
Proof. intros Ha Hw. unfold byte_at. rewrite (wrap_small 64) by done. by rewrite (rd_some _ _ _ Hw). Qed.

Lemma byte_of_byte w i : is_byte (byte_of w i).
Proof. unfold byte_of, is_byte. change 255 with (Z.ones 8). rewrite Z.land_ones by lia. apply Z.mod_pos_bound. lia. Qed.

(** Bytes read are the bytes at the addresses. *)
Lemma get_bytes_get h a n bs : get_bytes h a n = Ok bs <-> length bs = n /\ forall j b, bs !! j = Some b -> byte_at h (a + Z.of_nat j) = Ok b.
Proof.
  revert a bs. induction n as [|n IH]; intros a bs; cbn [get_bytes].
  { split; [intros [= <-]; split; [done|intros j b; by rewrite lookup_nil]|intros [?%nil_length_inv _]; by subst]. }
  rewrite bind_Ok. split.
  - intros (b & Hb & Hk). apply bind_Ok in Hk as (bs' & [Hl Hj]%IH & [= <-]). cbn [length]. split; [by rewrite Hl|].
    intros [|j] c Hc; [injection Hc as <-; by rewrite Z.add_0_r|]. replace (a + Z.of_nat (S j)) with (a + 1 + Z.of_nat j) by lia. by apply Hj.
  - intros [Hl Hj]. destruct bs as [|b bs]; [done|]. exists b. split; [specialize (Hj 0%nat b eq_refl); by rewrite Z.add_0_r in Hj|].
    apply bind_Ok. exists bs. split; [|done]. apply IH. split; [by injection Hl|]. intros j c Hc.
    replace (a + 1 + Z.of_nat j) with (a + Z.of_nat (S j)) by lia. by apply Hj.
Qed.

Lemma get_bytes_ok h a n : 0 <= a -> a + Z.of_nat n <= 2 ^ 64 -> (forall j, 0 <= j < Z.of_nat n -> is_Some (words h !! ((a + j) / 8))) ->
  exists bs, get_bytes h a n = Ok bs /\ length bs = n /\ Forall is_byte bs.
Proof.
  revert a. induction n as [|n IH]; intros a Ha Hn Hs; [by exists []|].
  destruct (Hs 0 ltac:(lia)) as [w Hw]. rewrite Z.add_0_r in Hw. cbn [get_bytes]. rewrite (byte_at_ok h a w) by (done || lia). cbn [bind].
  destruct (IH (a + 1)) as (bs & -> & Hl & Hb); [lia|lia| |].
  { intros j Hj. replace (a + 1 + j) with (a + (j + 1)) by lia. apply Hs. lia. }
  exists (byte_of w (a mod 8) :: bs). cbn. rewrite Hl. split_and!; [done|done|]. constructor; [apply byte_of_byte|done].
Qed.

Lemma get_bytes_ext h h' a n : 0 <= a -> a + Z.of_nat n <= 2 ^ 64 -> (forall j, 0 <= j < Z.of_nat n -> words h' !! ((a + j) / 8) = words h !! ((a + j) / 8)) ->
  get_bytes h' a n = get_bytes h a n.
Proof.
  revert a. induction n as [|n IH]; intros a Ha Hn Hs; [done|]. cbn [get_bytes]. unfold byte_at, rd. rewrite (wrap_small 64) by lia.
  pose proof (Hs 0 ltac:(lia)) as H0. rewrite Z.add_0_r in H0. rewrite H0.
  rewrite IH; [done|lia|lia|]. intros j Hj. replace (a + 1 + j) with (a + (j + 1)) by lia. apply Hs. lia.
Qed.

(** Bytes read are not affected by words written elsewhere. *)
Lemma get_bytes_words g g' a n bs : 0 <= a -> a + Z.of_nat n <= 2 ^ 64 -> (forall w, a < 8 * w + 8 -> 8 * w < a + Z.of_nat n -> words g' !! w = words g !! w) ->
  get_bytes g a n = Ok bs -> get_bytes g' a n = Ok bs.
Proof. intros Ha Hn Hw <-. apply get_bytes_ext; [done|done|]. intros j Hj. apply Hw; zdiv. Qed.

Lemma get_bytes_bytes h a n bs : get_bytes h a n = Ok bs -> Forall is_byte bs /\ length bs = n.
Proof.
  intros Hb. apply get_bytes_get in Hb as [Hl Hb]. split; [|done]. apply Forall_lookup. intros j b Hj. apply Hb in Hj. unfold byte_at in Hj.
  apply bind_Ok in Hj as (w & _ & [= <-]). apply byte_of_byte.
Qed.
(** A word is its bytes. *)
Lemma le_bytes_get n x j : (j < n)%nat -> le_bytes n x !! j = Some (byte_of x (Z.of_nat j)).
Proof.
  revert x j. induction n as [|n IH]; intros x j Hj; [lia|]. destruct j as [|j]; cbn [le_bytes].
  - cbn. rewrite byte_of_div by lia. by rewrite Z.div_1_r.
  - change ((x mod 256 :: le_bytes n (x / 256)) !! S j) with (le_bytes n (x / 256) !! j). rewrite IH by lia. f_equal.
    rewrite !byte_of_div by lia. replace (8 * Z.of_nat (S j)) with (8 + 8 * Z.of_nat j) by lia.
    rewrite Z.pow_add_r by lia. rewrite <- Z.div_div by lia. done.
Qed.
Lemma get_bytes_word h a w : 0 <= a < 2 ^ 64 -> a mod 8 = 0 -> words h !! (a / 8) = Some w -> get_bytes h a 8 = Ok (le_bytes 8 w).
Proof.
  intros Ha Hm Hw. apply get_bytes_get. split; [apply length_le_bytes|]. intros j b Hj.
  pose proof (lookup_lt_Some _ _ _ Hj) as Hlt. rewrite length_le_bytes in Hlt. rewrite le_bytes_get in Hj by done. injection Hj as <-.
  assert ((a + Z.of_nat j) / 8 = a / 8 /\ (a + Z.of_nat j) mod 8 = Z.of_nat j /\ a + Z.of_nat j < 2 ^ 64) as (E1 & E2 & E3) by (split_and!; zdiv).
  rewrite (byte_at_ok h _ w), E2 by (lia || by rewrite E1). done.
Qed.

(** Writing bytes changes the bytes written and no other. *)
Lemma set_byte_ok h a b : 0 <= a < 2 ^ 64 -> is_Some (words h !! (a / 8)) ->
  exists w, set_byte h a b = Ok (set_words h (<[a / 8 := w]> (words h))) /\
    forall x, 0 <= x < 2 ^ 64 -> byte_at (set_words h (<[a / 8 := w]> (words h))) x = if x =? a then Ok (u8 b) else byte_at h x.
Proof.
  intros Ha [w Hw]. unfold set_byte. rewrite (wrap_small 64), (rd_some _ _ _ Hw) by done. cbn [bind]. unfold wr. rewrite Hw. cbn [bind].
  eexists. split; [done|]. intros x Hx. unfold byte_at, rd. rewrite (wrap_small 64), words_set by done.
  destruct (Z.eq_dec (x / 8) (a / 8)) as [E|E].
  - rewrite E, lookup_insert_eq, Hw. cbn. pose proof (Z.mod_pos_bound x 8). pose proof (Z.mod_pos_bound a 8). case_zbool (x =? a).
    + subst x. f_equal. apply put_byte_same. lia.
    + f_equal. apply put_byte_other; [lia|lia|zdiv].
  - rewrite lookup_insert_ne by done. case_zbool (x =? a); [congruence|done].
Qed.

Lemma set_bytes_ok h a bs : 0 <= a -> a + Z.of_nat (length bs) <= 2 ^ 64 -> (forall j, 0 <= j < Z.of_nat (length bs) -> is_Some (words h !! ((a + j) / 8))) ->
  exists m, set_bytes h a bs = Ok (set_words h m) /\
    (forall w, is_Some (words h !! w) -> is_Some (m !! w)) /\
    (forall w, (8 * w + 8 <= a \/ a + Z.of_nat (length bs) <= 8 * w) -> m !! w = words h !! w) /\
    (forall x, 0 <= x < 2 ^ 64 -> byte_at (set_words h m) x =
       match bs !! Z.to_nat (x - a) with Some b => if a <=? x then Ok (u8 b) else byte_at h x | None => byte_at h x end).
Proof.
  revert h a. induction bs as [|b bs IH]; intros h a Ha Hn Hs.
  { exists (words h). split_and!; [by rewrite set_words_same|done|done|]. intros x Hx. rewrite lookup_nil. by rewrite set_words_same. }
  cbn [length] in Hn, Hs. pose proof (Hs 0 ltac:(lia)) as H0. rewrite Z.add_0_r in H0.
  destruct (set_byte_ok h a b ltac:(lia) H0) as (w & Hset & Hby). cbn [set_bytes]. rewrite Hset. cbn [bind].
  destruct (IH (set_words h (<[a / 8 := w]> (words h))) (a + 1)) as (m & -> & Hdom & Hw & Hm); [lia|lia| |].
  { intros j Hj. rewrite words_set. apply lookup_insert_is_Some'. right. replace (a + 1 + j) with (a + (j + 1)) by lia. apply Hs. lia. }
  rewrite set_words_twice in *. exists m. split; [done|]. split_and!.
  - intros x Hx. apply Hdom. rewrite words_set. apply lookup_insert_is_Some'. by right.
  - intros x Hx. cbn [length] in Hx. rewrite Hw by lia. rewrite words_set, lookup_insert_ne by zdiv. done.
  - intros x Hx. rewrite Hm, Hby by done. destruct (Z.lt_trichotomy x a) as [Hlt|[->|Hgt]].
    + case_zbool (x =? a); [lia|]. case_zbool (a <=? x); [lia|]. case_zbool (a + 1 <=? x); [lia|].
      destruct (bs !! _), ((b :: bs) !! _); done.
    + rewrite Z.eqb_refl. replace (a - a) with 0 by lia. change ((b :: bs) !! Z.to_nat 0) with (Some b).
      case_zbool (a <=? a); [|lia]. case_zbool (a + 1 <=? a); [lia|]. by destruct (bs !! _).
    + replace (Z.to_nat (x - a)) with (S (Z.to_nat (x - (a + 1)))) by lia.
      change ((b :: bs) !! S (Z.to_nat (x - (a + 1)))) with (bs !! Z.to_nat (x - (a + 1))).
      case_zbool (x =? a); [lia|]. case_zbool (a <=? x); [|lia]. case_zbool (a + 1 <=? x); [done|lia].
Qed.
