(* ===== verification/CamlStr.v ===== *)
(** OCaml strings (ocaml/byterun/str.c, and caml_alloc_string of alloc.c).

    A string is a block of whole words; the last byte of the block says how many
    bytes of padding precede it, and those are zero.  The allocator is a class:
    its laws are in CamlStrSpec. *)
From stdpp Require Import base gmap list.
From Stdlib Require Import ZArith Lia.
From S2P Require Import Prelude CamlMemory CamlValues CamlIntext.
Open Scope Z_scope.

Definition Int_val (x : Z) : Z := s32 (Long_val x).
Definition Val_false : Z := Val_int 0.
Definition Val_true : Z := Val_int 1.
Definition Val_unit : Z := Val_int 0.
Definition Val_not (x : Z) : Z := Val_false + Val_true - x.

(** * Allocation *)

(** The allocator (alloc.c, memory.c): blocks of a size and a tag. *)
Class Allocator := {
  caml_alloc_small : heap -> Z -> Z -> res (heap * Z);
  caml_alloc_shr : heap -> Z -> Z -> res (heap * Z)
}.

Definition Max_young_wosize : Z := 256.

Section Alloc.
Context `{Allocator}.

Definition caml_alloc_string (h : heap) (len : Z) : res (heap * Z) :=
  let wosize := u64 (len + 8) / 8 in
  '(h, result) <- if wosize <=? Max_young_wosize then caml_alloc_small h wosize String_tag else caml_alloc_shr h wosize String_tag;
  h <- set_Field h result (wosize - 1) 0;
  let offset_index := u64 (wosize * 8) - 1 in
  h <- set_byte h (result + offset_index) (offset_index - len);
  Ok (h, result).

Definition string_create : string := "String.create".

Definition caml_create_string (h : heap) (len : Z) : res (heap * Z) :=
  let size := u64 (Long_val len) in
  if Max_wosize * 8 - 1 <? size then Err string_create else caml_alloc_string h size.
End Alloc.

(** * Access *)
Definition out_of_bounds : string := "index out of bounds".

Section Strings.
Variable h : heap.

Definition caml_ml_string_length (s : Z) : res Z :=
  bo <- Bosize_val h s; let temp := u64 (bo - 1) in b <- Byte h s temp; Ok (Val_long (u64 (temp - b))).

(** [idx] is compared as unsigned, after the test of its sign. *)
Definition caml_string_get (str index : Z) : res Z :=
  let idx := Long_val index in
  if idx <? 0 then Err out_of_bounds
  else len <- caml_string_length h str;
       if len <=? idx then Err out_of_bounds else b <- Byte_u h str idx; Ok (Val_int b).

Definition caml_string_set (str index newval : Z) : res (Z * heap) :=
  let idx := Long_val index in
  if idx <? 0 then Err out_of_bounds
  else len <- caml_string_length h str;
       if len <=? idx then Err out_of_bounds else h' <- set_byte h (str + idx) (Int_val newval); Ok (Val_unit, h').

(** * Comparison *)

(** [n] fields, from the [i]th. *)
Fixpoint equal_words (s1 s2 i : Z) (n : nat) : res bool :=
  match n with
  | O => Ok true
  | S n => w1 <- Field h s1 i; w2 <- Field h s2 i; if w1 =? w2 then equal_words s1 s2 (i + 1) n else Ok false
  end.

Definition caml_string_equal (s1 s2 : Z) : res Z :=
  if s1 =? s2 then Ok Val_true
  else
    sz1 <- Wosize_val h s1;
    sz2 <- Wosize_val h s2;
    if negb (sz1 =? sz2) then Ok Val_false
    else b <- equal_words s1 s2 0 (Z.to_nat sz1); Ok (if b : bool then Val_true else Val_false).

Definition caml_string_notequal (s1 s2 : Z) : res Z := b <- caml_string_equal s1 s2; Ok (Val_not b).

(** The sign of the first difference of two byte sequences of one length. *)
Fixpoint memcmp (b1 b2 : bytes) : Z :=
  match b1, b2 with
  | c1 :: b1, c2 :: b2 => if c1 =? c2 then memcmp b1 b2 else c1 - c2
  | _, _ => 0
  end.

Definition caml_string_compare (s1 s2 : Z) : res Z :=
  if s1 =? s2 then Ok (Val_int 0)
  else
    len1 <- caml_string_length h s1;
    len2 <- caml_string_length h s2;
    b1 <- get_bytes h s1 (Z.to_nat (if len1 <=? len2 then len1 else len2));
    b2 <- get_bytes h s2 (Z.to_nat (if len1 <=? len2 then len1 else len2));
    let res := memcmp b1 b2 in
    Ok (if res <? 0 then Val_int (-1) else if 0 <? res then Val_int 1
        else if len1 <? len2 then Val_int (-1) else if len2 <? len1 then Val_int 1 else Val_int 0).

Definition caml_string_lessthan (s1 s2 : Z) : res Z := c <- caml_string_compare s1 s2; Ok (if c <? Val_int 0 then Val_true else Val_false).
Definition caml_string_lessequal (s1 s2 : Z) : res Z := c <- caml_string_compare s1 s2; Ok (if c <=? Val_int 0 then Val_true else Val_false).
Definition caml_string_greaterthan (s1 s2 : Z) : res Z := c <- caml_string_compare s1 s2; Ok (if Val_int 0 <? c then Val_true else Val_false).
Definition caml_string_greaterequal (s1 s2 : Z) : res Z := c <- caml_string_compare s1 s2; Ok (if Val_int 0 <=? c then Val_true else Val_false).

(** * Copies

    The number of bytes is an int in the first, and then a size_t. *)
Definition caml_blit_string (s1 ofs1 s2 ofs2 n : Z) : res (Z * heap) :=
  b <- get_bytes h (s1 + Long_val ofs1) (Z.to_nat (u64 (Int_val n)));
  h' <- set_bytes h (s2 + Long_val ofs2) b;
  Ok (Val_unit, h').

Definition caml_fill_string (s offset len init : Z) : res (Z * heap) :=
  h' <- set_bytes h (s + Long_val offset) (replicate (Z.to_nat (u64 (Long_val len))) (u8 (Int_val init)));
  Ok (Val_unit, h').

Definition caml_bitvect_test (bv n : Z) : res Z :=
  let pos := Int_val n in
  b <- Byte_u h bv (Z.shiftr pos 3); Ok (Val_int (Z.land b (Z.shiftl 1 (Z.land pos 7)))).
End Strings.
