(* ===== verification/CamlStrSpec.v ===== *)
(** OCaml strings as sequences of bytes: what a block in the heap has to be to
    stand for one, and that every function of str.c does what the corresponding
    operation on sequences does. *)
From stdpp Require Import base gmap list.
From Stdlib Require Import ZArith Lia.
From S2P Require Import Prelude CamlMemory CamlValues CamlIntext CamlIntextOk CamlStr.
Open Scope Z_scope.

(** * Strings in the heap *)
Definition slen (bs : bytes) : Z := Z.of_nat (length bs).

(** The words of a string of a length, and the bytes of its block. *)
Definition wos (len : Z) : Z := (len + 8) / 8.
Definition padding (len : Z) : Z := 7 - len mod 8.
Definition padded (bs : bytes) : bytes := bs ++ replicate (Z.to_nat (padding (slen bs))) 0 ++ [padding (slen bs)].

Record is_string (h : heap) (s : Z) (bs : bytes) : Prop := {
  st_addr : 8 <= s /\ s mod 8 = 0 /\ s + 8 * wos (slen bs) <= 2 ^ 63;
  st_hd : exists hd, words h !! (s / 8 - 1) = Some hd /\ Wosize_hd hd = wos (slen bs) /\ Tag_hd hd = String_tag;
  st_bytes : get_bytes h s (Z.to_nat (8 * wos (slen bs))) = Ok (padded bs)
}.

Lemma padding_range len : 0 <= padding len < 8.
Proof. unfold padding. pose proof (Z.mod_pos_bound len 8). lia. Qed.
Lemma wos_padding len : 8 * wos len = len + padding len + 1.
Proof. unfold wos, padding. zdiv. Qed.
Lemma length_padded bs : Z.of_nat (length (padded bs)) = 8 * wos (slen bs).
Proof. unfold padded. rewrite !length_app, length_replicate. pose proof (padding_range (slen bs)). rewrite wos_padding. cbn [length]. unfold slen in *. lia. Qed.
Lemma slen_nonneg bs : 0 <= slen bs.
Proof. unfold slen. lia. Qed.
Lemma wos_pos len : 0 <= len -> 0 < wos len.
Proof. unfold wos. intros. zdiv. Qed.

(** The padding says where the string ends. *)
Lemma padded_inj bs bs' : padded bs = padded bs' -> bs = bs'.
Proof.
  unfold padded. intros E. rewrite !app_assoc in E. apply app_inj_tail in E as [E Ep]. rewrite <- Ep in E. by apply app_inv_tail in E.
Qed.

(** ** Parts of bytes read *)
Lemma get_bytes_part h a n B o k : get_bytes h a n = Ok B -> (o + k <= n)%nat -> get_bytes h (a + Z.of_nat o) k = Ok (take k (drop o B)).
Proof.
  intros [Hl Hb]%get_bytes_get Hk. apply get_bytes_get. split; [rewrite length_take, length_drop; lia|]. intros j b Hj.
  apply lookup_take_Some in Hj as [Hj Hlt]. rewrite lookup_drop in Hj. replace (a + Z.of_nat o + Z.of_nat j) with (a + Z.of_nat (o + j)) by lia. by apply Hb.
Qed.

Lemma le_value_inj b b' : length b = length b' -> Forall is_byte b -> Forall is_byte b' -> le_value b = le_value b' -> b = b'.
Proof.
  revert b'. induction b as [|c b IH]; intros [|c' b'] Hl Hb Hb' E; try done. inversion_clear Hb; inversion_clear Hb'. cbn [le_value] in E.
  unfold is_byte in *. assert (c = c' /\ le_value b = le_value b') as [-> E'] by lia. f_equal. apply IH; [by injection Hl|done..].
Qed.
Lemma le_value_range b : Forall is_byte b -> 0 <= le_value b < 2 ^ (8 * Z.of_nat (length b)).
Proof.
  induction 1 as [|c b Hc _ IH]; [done|]. cbn [le_value length]. replace (8 * Z.of_nat (S (length b))) with (8 + 8 * Z.of_nat (length b)) by lia.
  rewrite Z.pow_add_r by lia. unfold is_byte in Hc. lia.
Qed.

(** A field, from the bytes of the block. *)
Lemma bytes_word h a n B o : get_bytes h a n = Ok B -> 0 <= a -> a + Z.of_nat n <= 2 ^ 63 -> (o < n)%nat -> exists w, words h !! ((a + Z.of_nat o) / 8) = Some w.
Proof.
  intros HB Ha Hn Ho. pose proof (get_bytes_part h a n B o 1 HB ltac:(lia)) as H1. cbn [get_bytes] in H1. apply bind_Ok in H1 as (b & Hb & _). unfold byte_at in Hb.
  rewrite (wrap_small 64) in Hb by lia. apply bind_Ok in Hb as (w & Hw & _). unfold rd in Hw. destruct (words h !! _) as [w'|]; [by exists w'|done].
Qed.
Lemma bytes_field h a n B i : get_bytes h a n = Ok B -> 0 <= a -> a mod 8 = 0 -> a + Z.of_nat n <= 2 ^ 63 -> 0 <= i -> 8 * i + 8 <= Z.of_nat n ->
  Field h a i = Ok (s64 (le_value (take 8 (drop (Z.to_nat (8 * i)) B)))).
Proof.
  intros HB Ha Hm Hn Hi Hin. destruct (bytes_word h a n B (Z.to_nat (8 * i)) HB Ha Hn ltac:(lia)) as [w Hw]. rewrite Z2Nat.id in Hw by lia.
  rewrite Field_ok by lia. replace ((a + 8 * i) / 8) with (a / 8 + i) in Hw by zdiv. rewrite (rd_some _ _ _ Hw). cbn [bind]. f_equal.
  pose proof (get_bytes_part h a n B (Z.to_nat (8 * i)) 8 HB ltac:(lia)) as H8. rewrite Z2Nat.id in H8 by lia.
  rewrite (get_bytes_word h _ w) in H8; [|lia|zdiv|by replace ((a + 8 * i) / 8) with (a / 8 + i) by zdiv].
  assert (le_bytes 8 w = take 8 (drop (Z.to_nat (8 * i)) B)) as E by congruence. rewrite <- E, le_value_bytes. change (8 * Z.of_nat 8) with 64. symmetry. apply (swrap_wrap 64). lia.
Qed.

(** ** Equality of blocks of bytes, word by word *)
Lemma words_bytes b b' : length b = 8%nat -> length b' = 8%nat -> Forall is_byte b -> Forall is_byte b' ->
  s64 (le_value b) = s64 (le_value b') -> b = b'.
Proof.
  intros Hl Hl' Hb Hb' E. apply le_value_inj; [congruence|done|done|]. pose proof (le_value_range b Hb) as R. pose proof (le_value_range b' Hb') as R'.
  rewrite Hl in R. rewrite Hl' in R'. rewrite <- (u64_s64 (le_value b)), <- (u64_s64 (le_value b')) by done. by rewrite E.
Qed.

Lemma equal_words_ok h s1 s2 n1 n2 B1 B2 : get_bytes h s1 n1 = Ok B1 -> get_bytes h s2 n2 = Ok B2 ->
  0 <= s1 -> s1 mod 8 = 0 -> s1 + Z.of_nat n1 <= 2 ^ 63 -> 0 <= s2 -> s2 mod 8 = 0 -> s2 + Z.of_nat n2 <= 2 ^ 63 ->
  forall n i, 0 <= i -> 8 * (i + Z.of_nat n) <= Z.of_nat n1 -> 8 * (i + Z.of_nat n) <= Z.of_nat n2 ->
  equal_words h s1 s2 i n = Ok (bool_decide (take (8 * n) (drop (Z.to_nat (8 * i)) B1) = take (8 * n) (drop (Z.to_nat (8 * i)) B2))).
Proof.
  intros G1 G2 A1 M1 L1 A2 M2 L2 n. destruct (get_bytes_bytes _ _ _ _ G1) as [F1 E1]. destruct (get_bytes_bytes _ _ _ _ G2) as [F2 E2].
  induction n as [|n IH]; intros i Hi H1 H2; cbn [equal_words]; [by rewrite bool_decide_eq_true_2|].
  rewrite (bytes_field _ _ _ _ i G1), (bytes_field _ _ _ _ i G2) by lia. cbn [bind].
  set (D1 := drop (Z.to_nat (8 * i)) B1). set (D2 := drop (Z.to_nat (8 * i)) B2).
  assert (length D1 >= 8 * S n /\ length D2 >= 8 * S n)%nat as [HD1 HD2] by (unfold D1, D2; rewrite !length_drop; lia).
  assert (Forall is_byte D1 /\ Forall is_byte D2) as [FD1 FD2] by (unfold D1, D2; split; by apply Forall_drop).
  assert (forall D : bytes, take (8 * S n) D = take 8 D ++ take (8 * n) (drop 8 D)) as Hsp.
  { intros D. replace (8 * S n)%nat with (8 + 8 * n)%nat by lia. rewrite <- (take_take_drop D 8 (8 * n)). done. }
  rewrite !Hsp. case_zbool (s64 (le_value (take 8 D1)) =? s64 (le_value (take 8 D2))).
  - apply words_bytes in E; [|rewrite length_take; lia..|by apply Forall_take|by apply Forall_take]. rewrite IH by lia.
    replace (Z.to_nat (8 * (i + 1))) with (Z.to_nat (8 * i) + 8)%nat by lia. rewrite <- !drop_drop. fold D1 D2. rewrite E. f_equal. apply bool_decide_ext. split; [by intros ->|by intros ?%app_inv_head].
  - rewrite bool_decide_eq_false_2; [done|]. intros Hc. apply app_inj_1 in Hc as [Hc _]; [congruence|rewrite !length_take; lia].
Qed.

(** ** Order *)
Fixpoint lex (b1 b2 : bytes) : comparison :=
  match b1, b2 with
  | [], [] => Eq
  | [], _ => Lt
  | _, [] => Gt
  | c1 :: b1, c2 :: b2 => match c1 ?= c2 with Eq => lex b1 b2 | c => c end
  end.
Definition sign (c : comparison) : Z := match c with Eq => 0 | Lt => -1 | Gt => 1 end.

(** What caml_string_compare does with the first bytes and the lengths. *)
Lemma memcmp_lex b1 b2 : let m := memcmp (take (length b1 `min` length b2) b1) (take (length b1 `min` length b2) b2) in
  (if m <? 0 then -1 else if 0 <? m then 1 else if slen b1 <? slen b2 then -1 else if slen b2 <? slen b1 then 1 else 0) = sign (lex b1 b2).
Proof.
  revert b2. induction b1 as [|c1 b1 IH]; intros [|c2 b2]; cbn; try done. rewrite <- Z.sub_0_r at 1.
  destruct (Z.compare_spec c1 c2) as [->|Hlt|Hgt].
  - rewrite Z.eqb_refl. rewrite <- IH. cbn. unfold slen. cbn [length]. rewrite Z.sub_0_r.
    replace (Z.of_nat (S (length b1)) <? Z.of_nat (S (length b2))) with (Z.of_nat (length b1) <? Z.of_nat (length b2)) by (destruct (Z.ltb_spec (Z.of_nat (length b1)) (Z.of_nat (length b2))); symmetry; [apply Z.ltb_lt|apply Z.ltb_ge]; lia).
    replace (Z.of_nat (S (length b2)) <? Z.of_nat (S (length b1))) with (Z.of_nat (length b2) <? Z.of_nat (length b1)) by (destruct (Z.ltb_spec (Z.of_nat (length b2)) (Z.of_nat (length b1))); symmetry; [apply Z.ltb_lt|apply Z.ltb_ge]; lia).
    done.
  - rewrite (proj2 (Z.eqb_neq c1 c2)) by lia. by rewrite Z.sub_0_r, (proj2 (Z.ltb_lt (c1 - c2) 0)) by lia.
  - rewrite (proj2 (Z.eqb_neq c1 c2)) by lia. rewrite Z.sub_0_r, (proj2 (Z.ltb_ge (c1 - c2) 0)) by lia. by rewrite (proj2 (Z.ltb_lt 0 (c1 - c2))) by lia.
Qed.

Lemma lex_same b : lex b b = Eq.
Proof. induction b as [|c b IH]; [done|]. cbn. by rewrite Z.compare_refl. Qed.

(** * Reading a string *)
Section Reading.
Variables (h : heap) (s : Z) (bs : bytes).
Hypothesis S : is_string h s bs.

Lemma string_facts : 8 <= s /\ s mod 8 = 0 /\ s + 8 * wos (slen bs) <= 2 ^ 63 /\ 0 < wos (slen bs) /\ 8 * wos (slen bs) = slen bs + padding (slen bs) + 1 /\ 0 <= padding (slen bs) < 8 /\ 0 <= slen bs.
Proof.
  destruct (st_addr _ _ _ S) as (A & M & L). pose proof (slen_nonneg bs) as N. pose proof (wos_pos _ N). pose proof (wos_padding (slen bs)). pose proof (padding_range (slen bs)). split_and!; lia || done.
Qed.

Lemma string_bytes : Forall is_byte bs.
Proof. destruct (get_bytes_bytes _ _ _ _ (st_bytes _ _ _ S)) as [F _]. unfold padded in F. by apply Forall_app in F as [F _]. Qed.

Lemma string_wosize : Wosize_val h s = Ok (wos (slen bs)).
Proof.
  pose proof string_facts as (A & M & L & P & _). destruct (st_hd _ _ _ S) as (hd & Hhd & Hw & _). unfold Wosize_val.
  rewrite Hd_val_word, (rd_some _ _ _ Hhd) by (lia || done). cbn. by rewrite Hw.
Qed.
Lemma string_bosize : Bosize_val h s = Ok (8 * wos (slen bs)).
Proof. pose proof string_facts as (A & M & L & P & _). unfold Bosize_val. rewrite string_wosize. cbn. rewrite (wrap_small 64) by lia. f_equal. lia. Qed.

(** The bytes from one of the string. *)
Lemma string_part o k : 0 <= o -> o + Z.of_nat k <= slen bs -> get_bytes h (s + o) k = Ok (take k (drop (Z.to_nat o) bs)).
Proof.
  intros Ho Hk. pose proof string_facts as (A & M & L & P & W & R & N).
  pose proof (get_bytes_part h s _ _ (Z.to_nat o) k (st_bytes _ _ _ S) ltac:(lia)) as H1. rewrite Z2Nat.id in H1 by lia. rewrite H1. f_equal. unfold padded.
  unfold slen in *. rewrite drop_app_le, take_app_le by (rewrite ?length_drop; lia). done.
Qed.
Lemma string_byte o : 0 <= o < slen bs -> exists c, bs !! Z.to_nat o = Some c /\ byte_at h (s + o) = Ok c.
Proof.
  intros Ho. destruct (lookup_lt_is_Some_2 bs (Z.to_nat o)) as [c Hc]; [unfold slen in Ho; lia|]. exists c. split; [done|].
  pose proof (string_part o 1 ltac:(lia) ltac:(lia)) as H1. cbn [get_bytes] in H1. apply bind_Ok in H1 as (b & Hb & [= H1]).
  rewrite Hb. f_equal. rewrite (drop_S bs c) in H1 by done. by injection H1.
Qed.

Lemma string_length : caml_string_length h s = Ok (slen bs).
Proof.
  pose proof string_facts as (A & M & L & P & W & R & N). unfold caml_string_length, Byte. rewrite string_bosize. cbn [bind]. rewrite (wrap_small 64 (_ - 1)) by lia.
  pose proof (st_bytes _ _ _ S) as [Hl Hb]%get_bytes_get. specialize (Hb (Z.to_nat (8 * wos (slen bs) - 1)) (padding (slen bs))).
  rewrite Z2Nat.id in Hb by lia. rewrite Hb.
  - cbn [bind]. rewrite (swrap_small 8) by lia. rewrite (wrap_small 64) by lia. f_equal. lia.
  - unfold padded. rewrite app_assoc, lookup_app_r; rewrite length_app, length_replicate; unfold slen in *; [|lia].
    replace (Z.to_nat _ - _)%nat with 0%nat by lia. done.
Qed.
Lemma string_ml_length : caml_ml_string_length h s = Ok (Val_long (slen bs)).
Proof.
  pose proof string_length as H1. unfold caml_string_length, caml_ml_string_length in *. destruct (Bosize_val h s) as [bo| |]; [|done|done]. cbn [bind] in *.
  destruct (Byte h s (u64 (bo - 1))) as [b| |]; [|done|done]. cbn [bind] in *. by injection H1 as ->.
Qed.
End Reading.

(** A string is what it is: a block stands for one sequence. *)
Lemma string_unique h s bs bs' : is_string h s bs -> is_string h s bs' -> bs = bs'.
Proof.
  intros S1 S2. pose proof (string_length _ _ _ S1) as L1. pose proof (string_length _ _ _ S2) as L2.
  pose proof (string_part _ _ _ S1 0 (length bs) ltac:(lia) ltac:(unfold slen; lia)) as P1. pose proof (string_part _ _ _ S2 0 (length bs') ltac:(lia) ltac:(unfold slen; lia)) as P2.
  assert (length bs = length bs') as E by (unfold slen in *; rewrite L1 in L2; injection L2; lia). rewrite <- E in P2. rewrite P1 in P2.
  rewrite !drop_0, !firstn_all2 in P2 by lia. congruence.
Qed.

(** ** Comparison *)
Section Comparing.
Variables (h : heap) (s1 s2 : Z) (bs1 bs2 : bytes).
Hypothesis S1 : is_string h s1 bs1.
Hypothesis S2 : is_string h s2 bs2.

Lemma string_equal_ok : caml_string_equal h s1 s2 = Ok (Val_bool (bool_decide (bs1 = bs2))).
Proof.
  pose proof (string_facts _ _ _ S1) as (A1 & M1 & L1 & P1 & W1 & R1 & N1). pose proof (string_facts _ _ _ S2) as (A2 & M2 & L2 & P2 & W2 & R2 & N2).
  unfold caml_string_equal. case_zbool (s1 =? s2). { subst s2. rewrite bool_decide_eq_true_2; [done|]. by eapply string_unique. }
  rewrite (string_wosize _ _ _ S1), (string_wosize _ _ _ S2). cbn [bind]. case_zbool (negb (wos (slen bs1) =? wos (slen bs2))).
  { rewrite bool_decide_eq_false_2; [done|]. intros ->. done. }
  pose proof (st_bytes _ _ _ S1) as G1. pose proof (st_bytes _ _ _ S2) as G2.
  rewrite (equal_words_ok h s1 s2 _ _ _ _ G1 G2) by lia. cbn [bind]. change (Z.to_nat (8 * 0)) with 0%nat. rewrite !drop_0.
  rewrite !firstn_all2 by (pose proof (length_padded bs1); pose proof (length_padded bs2); lia).
  rewrite (bool_decide_ext (padded bs1 = padded bs2) (bs1 = bs2)); [by destruct (bool_decide _)|]. split; [apply padded_inj|by intros ->].
Qed.

Lemma string_compare_ok : caml_string_compare h s1 s2 = Ok (Val_int (sign (lex bs1 bs2))).
Proof.
  pose proof (string_facts _ _ _ S1) as (A1 & M1 & L1 & P1 & W1 & R1 & N1). pose proof (string_facts _ _ _ S2) as (A2 & M2 & L2 & P2 & W2 & R2 & N2).
  unfold caml_string_compare. case_zbool (s1 =? s2). { subst s2. by rewrite (string_unique _ _ _ _ S1 S2), lex_same. }
  rewrite (string_length _ _ _ S1), (string_length _ _ _ S2). cbn [bind].
  replace (Z.to_nat (if slen bs1 <=? slen bs2 then slen bs1 else slen bs2)) with (length bs1 `min` length bs2)%nat by (unfold slen; destruct (Z.leb_spec (Z.of_nat (length bs1)) (Z.of_nat (length bs2))); lia).
  pose proof (string_part _ _ _ S1 0 (length bs1 `min` length bs2) ltac:(lia) ltac:(unfold slen; lia)) as Q1.
  pose proof (string_part _ _ _ S2 0 (length bs1 `min` length bs2) ltac:(lia) ltac:(unfold slen; lia)) as Q2.
  rewrite Z.add_0_r, drop_0 in Q1, Q2. rewrite Q1, Q2. cbn [bind]. f_equal. rewrite <- (memcmp_lex bs1 bs2). cbv zeta.
  by repeat destruct (_ <? _).
Qed.
End Comparing.

(** * Writing in a string *)
Definition splice (bs : bytes) (o : nat) (b : bytes) : bytes := take o bs ++ b ++ drop (o + length b) bs.

Lemma length_splice bs o b : (o + length b <= length bs)%nat -> length (splice bs o b) = length bs.
Proof. intros. unfold splice. rewrite !length_app, length_take, length_drop. lia. Qed.
Lemma slen_splice bs o b : (o + length b <= length bs)%nat -> slen (splice bs o b) = slen bs.
Proof. intros. unfold slen. by rewrite length_splice. Qed.
Lemma splice_app bs l o b : (o + length b <= length bs)%nat -> splice (bs ++ l) o b = splice bs o b ++ l.
Proof. intros. unfold splice. rewrite take_app_le, drop_app_le by lia. by rewrite <- !app_assoc. Qed.
Lemma splice_get bs o b j : (o + length b <= length bs)%nat ->
  splice bs o b !! j = if (o <=? j)%nat && (j <? o + length b)%nat then b !! (j - o)%nat else bs !! j.
Proof.
  intros Hl. unfold splice. destruct (Nat.leb_spec o j), (Nat.ltb_spec j (o + length b)); cbn [andb].
  - rewrite lookup_app_r by (rewrite length_take; lia). rewrite length_take. rewrite lookup_app_l by lia. f_equal. lia.
  - rewrite lookup_app_r by (rewrite length_take; lia). rewrite length_take. rewrite lookup_app_r by lia. rewrite lookup_drop. f_equal. lia.
  - rewrite lookup_app_l by (rewrite length_take; lia). by rewrite lookup_take_lt by lia.
  - rewrite lookup_app_l by (rewrite length_take; lia). by rewrite lookup_take_lt by lia.
Qed.

(** A string is as its words are. *)
Lemma string_frame h m s bs : is_string h s bs -> (forall a, s / 8 - 1 <= a < s / 8 + wos (slen bs) -> m !! a = words h !! a) -> is_string (set_words h m) s bs.
Proof.
  intros S Hm. pose proof (string_facts _ _ _ S) as (A & M & L & P & W & R & N). split.
  - apply (st_addr _ _ _ S).
  - destruct (st_hd _ _ _ S) as (hd & Hhd & Hr). exists hd. split; [|done]. rewrite words_set, Hm by lia. done.
  - eapply get_bytes_words, (st_bytes _ _ _ S); [lia|lia|]. intros w H1 H2. rewrite words_set. apply Hm. zdiv.
Qed.

Lemma string_write h s bs o b : is_string h s bs -> 0 <= o -> o + slen b <= slen bs -> Forall is_byte b ->
  exists m, set_bytes h (s + o) b = Ok (set_words h m) /\ is_string (set_words h m) s (splice bs (Z.to_nat o) b) /\
    (forall a, is_Some (words h !! a) -> is_Some (m !! a)) /\ (forall a, a < s / 8 \/ s / 8 + wos (slen bs) <= a -> m !! a = words h !! a).
Proof.
  intros S Ho Hl Hb. pose proof (string_facts _ _ _ S) as (A & M & L & P & W & R & N). unfold slen in Hl. pose proof (st_bytes _ _ _ S) as G.
  destruct (set_bytes_ok h (s + o) b) as (m & Hset & Hdom & Hw & Hby); [lia|unfold slen in *; lia| |].
  { intros j Hj. destruct (bytes_word h s _ _ (Z.to_nat (o + j)) G ltac:(lia) ltac:(lia) ltac:(unfold slen in *; lia)) as [w Hw]. rewrite Z2Nat.id in Hw by lia.
    exists w. by rewrite <- Z.add_assoc. }
  assert (Z.to_nat o + length b <= length bs)%nat as Hln by (unfold slen in *; lia).
  exists m. split_and!; [done| |done|].
  - split; rewrite ?slen_splice by done.
    + apply (st_addr _ _ _ S).
    + destruct (st_hd _ _ _ S) as (hd & Hhd & Hr). exists hd. split; [|done]. rewrite words_set, Hw by (left; zdiv). done.
    + apply get_bytes_get in G as [Gl Gb]. apply get_bytes_get. unfold padded in *. rewrite slen_splice by done. rewrite <- splice_app by done.
      set (B := bs ++ _) in *. assert (length bs <= length B)%nat by (unfold B; rewrite length_app; lia). split; [by rewrite length_splice by lia|].
      intros j c Hj. rewrite splice_get in Hj by lia. rewrite Hby.
      2:{ split; [lia|]. assert (j < length B)%nat; [|lia]. destruct ((_ <=? _)%nat && _) eqn:E; [|by eapply lookup_lt_Some]. apply lookup_lt_Some in Hj. apply andb_true_iff in E as [E%Nat.leb_le _]. lia. }
      destruct (Nat.leb_spec (Z.to_nat o) j) as [Hle|Hgt]; cbn [andb] in Hj.
      * replace (Z.to_nat (s + Z.of_nat j - (s + o))) with (j - Z.to_nat o)%nat by lia. destruct (Nat.ltb_spec j (Z.to_nat o + length b)).
        -- rewrite Hj. case_zbool (s + o <=? s + Z.of_nat j); [|lia]. by rewrite u8_byte by (rewrite Forall_lookup in Hb; by eapply Hb).
        -- rewrite lookup_ge_None_2 by lia. by apply Gb.
      * rewrite (Gb _ _ Hj). case_zbool (s + o <=? s + Z.of_nat j); [lia|]. by destruct (b !! _).
  - intros a Ha. apply Hw. destruct (decide (0 < slen b)); unfold slen in *; [|destruct b; [|cbn in *; lia]]; zdiv.
Qed.

(** * The allocator

    Which blocks are in use is the allocator's knowledge: [live].  A block is new
    when it is apart from all of these, and writing in blocks does not change
    which they are. *)
Definition no_memory : string := "out of memory".
Definition wosize_at (h : heap) (b : Z) : Z := Wosize_hd (default 0 (words h !! (b / 8 - 1))).

Class AllocatorLaws `{Allocator} := {
  live : heap -> Z -> Prop;
  live_size h b : live h b -> 0 < wosize_at h b;
  live_apart h b b' : live h b -> live h b' -> b <> b' -> b / 8 + wosize_at h b <= b' / 8 - 1 \/ b' / 8 + wosize_at h b' <= b / 8 - 1;
  live_write h m : (forall a, is_Some (words h !! a) -> is_Some (m !! a)) -> (forall b, live h b -> m !! (b / 8 - 1) = words h !! (b / 8 - 1)) ->
    forall b, live h b -> live (set_words h m) b;
  alloc_ok h n tag : 0 < n <= Max_wosize -> 0 <= tag < 256 ->
    match (if n <=? Max_young_wosize then caml_alloc_small h n tag else caml_alloc_shr h n tag) with
    | Ok (h', b) => exists m color, h' = set_words h m /\ (color = Caml_white \/ color = Caml_black) /\
        8 <= b /\ b mod 8 = 0 /\ b + 8 * n <= 2 ^ 63 /\ m !! (b / 8 - 1) = Some (Make_header n tag color) /\
        (forall a, b / 8 <= a < b / 8 + n -> is_Some (m !! a)) /\
        (forall a, a < b / 8 - 1 \/ b / 8 + n <= a -> m !! a = words h !! a) /\
        live h' b /\ forall s, live h s -> live h' s /\ (s / 8 + wosize_at h s <= b / 8 - 1 \/ b / 8 + n <= s / 8 - 1)
    | Err e => e = no_memory
    | Timeout => False
    end
}.

(** [M] says which strings there are, and what is in them. *)
Section Map.
Context `{AllocatorLaws}.

Definition strings (h : heap) (M : gmap Z bytes) : Prop := forall s bs, M !! s = Some bs -> is_string h s bs /\ live h s.

Lemma string_wosize_at h s bs : is_string h s bs -> wosize_at h s = wos (slen bs).
Proof. intros S. destruct (st_hd _ _ _ S) as (hd & Hhd & Hw & _). unfold wosize_at. by rewrite Hhd. Qed.

(** One string is written. *)
Lemma strings_write h M s bs o b : strings h M -> M !! s = Some bs -> 0 <= o -> o + slen b <= slen bs -> Forall is_byte b ->
  exists h', set_bytes h (s + o) b = Ok h' /\ strings h' (<[s := splice bs (Z.to_nat o) b]> M).
Proof.
  intros T Hs Ho Hl Hb. destruct (T s bs Hs) as [S Ls]. destruct (string_write h s bs o b S Ho Hl Hb) as (m & E & S' & Hdom & Hw).
  exists (set_words h m). split; [done|]. pose proof (string_wosize_at _ _ _ S) as Ews.
  assert (forall t, live h t -> live (set_words h m) t) as HL.
  { apply live_write; [done|]. intros t Lt. destruct (decide (t = s)) as [->|Hne]; [apply Hw; lia|]. destruct (live_apart h s t Ls Lt ltac:(done)) as [?|?]; apply Hw; [lia|].
    pose proof (live_size h t Lt). lia. }
  intros t bt Ht. destruct (decide (t = s)) as [->|Hne].
  - rewrite lookup_insert_eq in Ht. injection Ht as <-. split; [done|]. by apply HL.
  - rewrite lookup_insert_ne in Ht by done. destruct (T t bt Ht) as [St Lt]. split; [|by apply HL]. apply string_frame; [done|]. intros a Ha. apply Hw.
    pose proof (string_wosize_at _ _ _ St). destruct (live_apart h s t Ls Lt ltac:(done)); lia.
Qed.

Lemma wosize_at_hd h b hd : words h !! (b / 8 - 1) = Some hd -> wosize_at h b = Wosize_hd hd.
Proof. intros E. unfold wosize_at. by rewrite E. Qed.

(** The live blocks after writing in the data of one of them. *)
Lemma live_data h m b : live h b -> (forall a, is_Some (words h !! a) -> is_Some (m !! a)) ->
  (forall a, a < b / 8 \/ b / 8 + wosize_at h b <= a -> m !! a = words h !! a) -> forall t, live h t -> live (set_words h m) t.
Proof.
  intros Lb Hdom Hw. apply live_write; [done|]. intros t Lt. apply Hw. destruct (decide (t = b)) as [->|Hne]; [lia|].
  pose proof (live_size h t Lt). destruct (live_apart h b t Lb Lt); [done|lia..].
Qed.
End Map.

(** A block whose last word was cleared, and then given its last byte, is a string. *)
Lemma block_string h m s len hd w : 0 <= len -> 8 <= s -> s mod 8 = 0 -> s + 8 * wos len <= 2 ^ 63 ->
  m !! (s / 8 - 1) = Some hd -> Wosize_hd hd = wos len -> Tag_hd hd = String_tag -> (forall a, s / 8 <= a < s / 8 + wos len -> is_Some (m !! a)) ->
  m !! (s / 8 + (wos len - 1)) = Some w -> (forall i, 0 <= i < 8 -> byte_of w i = if i =? 7 then padding len else 0) ->
  exists bs, slen bs = len /\ is_string (set_words h m) s bs.
Proof.
  intros Hl As Ms Ls Hhd Ew Et Hdom Hlast Hb. pose proof (wos_padding len) as W. pose proof (padding_range len) as R. pose proof (wos_pos len Hl) as P.
  destruct (get_bytes_ok (set_words h m) s (Z.to_nat (8 * wos len))) as (B & HB & HlB & HbB); [lia|lia| |].
  { intros j Hj. apply Hdom. zdiv. }
  pose proof HB as [_ HBj]%get_bytes_get. set (bs := take (Z.to_nat len) B). assert (length bs = Z.to_nat len) as Hbs by (unfold bs; rewrite length_take; lia).
  assert (slen bs = len) as Hsl by (unfold slen; lia). exists bs. split; [done|]. split; rewrite Hsl; [done|by exists hd|]. rewrite HB. f_equal.
  symmetry. apply list_eq. intros j. unfold padded. rewrite Hsl. destruct (Nat.lt_ge_cases j (Z.to_nat len)) as [Hj|Hj].
  { rewrite lookup_app_l by lia. unfold bs. by rewrite lookup_take_lt by lia. }
  rewrite lookup_app_r by lia. destruct (B !! j) as [c|] eqn:Ec.
  - pose proof (lookup_lt_Some _ _ _ Ec) as Hlt. specialize (HBj j c Ec). rewrite (byte_at_ok _ _ w) in HBj; [|lia|rewrite words_set; by replace ((s + Z.of_nat j) / 8) with (s / 8 + (wos len - 1)) by zdiv].
    rewrite Hb in HBj by (apply Z.mod_pos_bound; lia). injection HBj as <-. assert (Z.of_nat j < len + padding len + 1) by lia.
    case_zbool ((s + Z.of_nat j) mod 8 =? 7).
    + rewrite lookup_app_r by (rewrite length_replicate; zdiv). rewrite length_replicate. replace (j - length bs - Z.to_nat (padding len))%nat with 0%nat by zdiv. done.
    + rewrite lookup_app_l by (rewrite length_replicate; zdiv). apply lookup_replicate_2. zdiv.
  - apply lookup_ge_None_1 in Ec. apply lookup_ge_None_2. rewrite length_app, length_replicate. cbn [length]. lia.
Qed.

Lemma last_word len : 0 <= len -> forall i, 0 <= i < 8 -> byte_of (put_byte 0 7 (padding len)) i = if i =? 7 then padding len else 0.
Proof.
  intros Hl i Hi. pose proof (padding_range len). case_zbool (i =? 7).
  - subst i. rewrite put_byte_same by lia. apply (wrap_small 8). lia.
  - rewrite put_byte_other by lia. unfold byte_of. by rewrite Z.shiftr_0_l.
Qed.

(** ** A new string *)
Section Alloc.
Context `{AllocatorLaws}.

Lemma alloc_string_ok h M len : strings h M -> 0 <= len <= 8 * Max_wosize - 1 ->
  match caml_alloc_string h len with
  | Ok (h', s) => exists bs, slen bs = len /\ M !! s = None /\ strings h' (<[s := bs]> M)
  | Err e => e = no_memory
  | Timeout => False
  end.
Proof.
  intros T Hl. unfold caml_alloc_string. unfold Max_wosize in Hl. rewrite (wrap_small 64) by lia. fold (wos len). set (n := wos len).
  pose proof (wos_padding len) as W. pose proof (padding_range len) as R. assert (0 < n <= Max_wosize) as Hn by (unfold n, Max_wosize; pose proof (wos_pos len); lia).
  pose proof (alloc_ok h n String_tag Hn ltac:(done)) as A. destruct (if n <=? Max_young_wosize then _ else _) as [[h1 s]|e|]; [|done|done].
  destruct A as (m & color & -> & Hc & As & Ms & Ls & Hhd & Hdom & Hw & Lv & Hap). cbn [bind]. unfold Max_wosize in Hn.
  pose proof (Make_tag n String_tag color ltac:(lia) ltac:(done) Hc) as (Et & Ew & _).
  rewrite set_Field_ok; [|lia|done|apply Hdom; lia]. cbn [bind]. rewrite words_set, set_words_twice. change (u64 0) with 0. set (m1 := <[s / 8 + (n - 1) := 0]> m).
  rewrite (wrap_small 64) by lia. assert ((s + (n * 8 - 1)) / 8 = s / 8 + (n - 1) /\ (s + (n * 8 - 1)) mod 8 = 7) as [Elast E7] by (split; zdiv).
  unfold set_byte. rewrite (wrap_small 64 (s + _)), Elast, E7, words_set by lia. unfold rd, wr. replace (m1 !! (s / 8 + (n - 1))) with (Some 0) by (unfold m1; by rewrite lookup_insert_eq).
  cbn [bind lift]. rewrite set_words_twice. replace (n * 8 - 1 - len) with (padding len) by (unfold n; lia). unfold m1. rewrite insert_insert_eq. set (m2 := <[s / 8 + (n - 1) := _]> m).
  assert (forall a, a < s / 8 \/ s / 8 + n <= a -> m2 !! a = m !! a) as Hm2 by (intros a Ha; unfold m2; rewrite lookup_insert_ne by lia; done).
  destruct (block_string h m2 s len (Make_header n String_tag color) (put_byte 0 7 (padding len))) as (bs & Hbs & Sb); try done; [lia|rewrite Hm2 by lia; done| |unfold m2; by rewrite lookup_insert_eq|apply last_word; lia|].
  { intros a Ha. apply lookup_insert_is_Some'. right. by apply Hdom. }
  assert (forall t, live (set_words h m) t -> live (set_words h m2) t) as HL.
  { change (set_words h m2) with (set_words (set_words h m) m2). apply (live_data (set_words h m) m2 s); [done| |].
    - intros a Ha. apply lookup_insert_is_Some'. by right.
    - intros a Ha. apply Hm2. rewrite (wosize_at_hd (set_words h m) s _ Hhd), Ew in Ha. lia. }
  exists bs. split_and!; [done| |].
  - apply eq_None_not_Some. intros [b' Hb']. destruct (T s b' Hb') as [S' L']. destruct (Hap s L') as [_ Hx]. pose proof (live_size _ s L'). lia.
  - intros t bt Ht. destruct (decide (t = s)) as [->|Hne].
    + rewrite lookup_insert_eq in Ht. injection Ht as <-. split; [done|]. by apply HL.
    + rewrite lookup_insert_ne in Ht by done. destruct (T t bt Ht) as [St Lt]. destruct (Hap t Lt) as [Lt' Ht']. split; [|by apply HL].
      apply string_frame; [done|]. intros a Ha. rewrite (string_wosize_at _ _ _ St) in Ht'. rewrite Hm2 by lia. apply Hw. lia.
Qed.
End Alloc.

(** * The operations *)
Inductive relation_op := Less | LessEqual | Greater | GreaterEqual.
Inductive string_op :=
  | Create (len : Z)
  | Length (s : Z)
  | Get (s i : Z)
  | SetByte (s i c : Z)
  | Equal (s1 s2 : Z)
  | NotEqual (s1 s2 : Z)
  | Compare (s1 s2 : Z)
  | Related (r : relation_op) (s1 s2 : Z)
  | Blit (s1 ofs1 s2 ofs2 n : Z)
  | Fill (s ofs len c : Z)
  | BitTest (s n : Z).

(** What the code does: a value and the heap. *)
Definition exec `{Allocator} (h : heap) (op : string_op) : res (Z * heap) :=
  match op with
  | Create len => '(h', s) <- caml_create_string h len; Ok (s, h')
  | Length s => v <- caml_ml_string_length h s; Ok (v, h)
  | Get s i => v <- caml_string_get h s i; Ok (v, h)
  | SetByte s i c => caml_string_set h s i c
  | Equal s1 s2 => v <- caml_string_equal h s1 s2; Ok (v, h)
  | NotEqual s1 s2 => v <- caml_string_notequal h s1 s2; Ok (v, h)
  | Compare s1 s2 => v <- caml_string_compare h s1 s2; Ok (v, h)
  | Related r s1 s2 =>
      v <- match r with
           | Less => caml_string_lessthan h s1 s2
           | LessEqual => caml_string_lessequal h s1 s2
           | Greater => caml_string_greaterthan h s1 s2
           | GreaterEqual => caml_string_greaterequal h s1 s2
           end; Ok (v, h)
  | Blit s1 ofs1 s2 ofs2 n => caml_blit_string h s1 ofs1 s2 ofs2 n
  | Fill s ofs len c => caml_fill_string h s ofs len c
  | BitTest s n => v <- caml_bitvect_test h s n; Ok (v, h)
  end.

(** What it means, on sequences. *)
Definition related (r : relation_op) (c : comparison) : bool :=
  match r, c with
  | Less, Lt | LessEqual, (Lt | Eq) | Greater, Gt | GreaterEqual, (Gt | Eq) => true
  | _, _ => false
  end.
(** A slice of a sequence is within it. *)
Definition within (bs : bytes) (ofs len : Z) : Prop := 0 <= ofs /\ 0 <= len /\ ofs + len <= slen bs.

Inductive means (M : gmap Z bytes) : string_op -> res Z -> gmap Z bytes -> Prop :=
  | means_create len s bs : slen bs = Long_val len -> M !! s = None -> means M (Create len) (Ok s) (<[s := bs]> M)
  | means_create_bad len : ~ 0 <= Long_val len <= 8 * Max_wosize - 1 -> means M (Create len) (Err string_create) M
  | means_create_full len : means M (Create len) (Err no_memory) M
  | means_length s bs : M !! s = Some bs -> means M (Length s) (Ok (Val_long (slen bs))) M
  | means_get s bs i c : M !! s = Some bs -> 0 <= Long_val i -> bs !! Z.to_nat (Long_val i) = Some c -> means M (Get s i) (Ok (Val_int c)) M
  | means_get_out s bs i : M !! s = Some bs -> ~ 0 <= Long_val i < slen bs -> means M (Get s i) (Err out_of_bounds) M
  | means_set s bs i c : M !! s = Some bs -> 0 <= Long_val i < slen bs ->
      means M (SetByte s i c) (Ok Val_unit) (<[s := <[Z.to_nat (Long_val i) := Long_val c mod 256]> bs]> M)
  | means_set_out s bs i c : M !! s = Some bs -> ~ 0 <= Long_val i < slen bs -> means M (SetByte s i c) (Err out_of_bounds) M
  | means_equal s1 s2 bs1 bs2 : M !! s1 = Some bs1 -> M !! s2 = Some bs2 -> means M (Equal s1 s2) (Ok (Val_bool (bool_decide (bs1 = bs2)))) M
  | means_notequal s1 s2 bs1 bs2 : M !! s1 = Some bs1 -> M !! s2 = Some bs2 -> means M (NotEqual s1 s2) (Ok (Val_bool (bool_decide (bs1 <> bs2)))) M
  | means_compare s1 s2 bs1 bs2 : M !! s1 = Some bs1 -> M !! s2 = Some bs2 -> means M (Compare s1 s2) (Ok (Val_int (sign (lex bs1 bs2)))) M
  | means_related r s1 s2 bs1 bs2 : M !! s1 = Some bs1 -> M !! s2 = Some bs2 -> means M (Related r s1 s2) (Ok (Val_bool (related r (lex bs1 bs2)))) M
  | means_blit s1 o1 s2 o2 n bs1 bs2 : M !! s1 = Some bs1 -> M !! s2 = Some bs2 ->
      means M (Blit s1 o1 s2 o2 n) (Ok Val_unit)
        (<[s2 := splice bs2 (Z.to_nat (Long_val o2)) (take (Z.to_nat (Long_val n)) (drop (Z.to_nat (Long_val o1)) bs1))]> M)
  | means_fill s o n c bs : M !! s = Some bs ->
      means M (Fill s o n c) (Ok Val_unit) (<[s := splice bs (Z.to_nat (Long_val o)) (replicate (Z.to_nat (Long_val n)) (Long_val c mod 256))]> M)
  | means_bit s n bs c : M !! s = Some bs -> bs !! Z.to_nat (Long_val n / 8) = Some c ->
      means M (BitTest s n) (Ok (Val_int (if Z.testbit c (Long_val n mod 8) then 2 ^ (Long_val n mod 8) else 0))) M.

(** What the callers check: strings of the heap, and slices in them for the two
    operations that have no test.  The length of a copy has to be an int, and so
    has the number of a bit. *)
Definition has (M : gmap Z bytes) (s : Z) (P : bytes -> Prop) : Prop := exists bs, M !! s = Some bs /\ P bs.
Definition any (bs : bytes) : Prop := True.
Definition allowed (M : gmap Z bytes) (op : string_op) : Prop :=
  match op with
  | Create len => in_s 64 len
  | Length s | Get s _ | SetByte s _ _ => has M s any
  | Equal s1 s2 | NotEqual s1 s2 | Compare s1 s2 | Related _ s1 s2 => has M s1 any /\ has M s2 any
  | Blit s1 o1 s2 o2 n =>
      has M s1 (fun bs => within bs (Long_val o1) (Long_val n)) /\ has M s2 (fun bs => within bs (Long_val o2) (Long_val n)) /\ Long_val n < 2 ^ 31
  | Fill s o n c => has M s (fun bs => within bs (Long_val o) (Long_val n))
  | BitTest s n => has M s (fun bs => 0 <= Long_val n < 8 * slen bs) /\ Long_val n < 2 ^ 31
  end.

Section Refines.
Context `{AllocatorLaws}.
Variables (h : heap) (M : gmap Z bytes).
Hypothesis T : strings h M.

(** How an operation ends. *)
Definition refines (op : string_op) : Prop :=
  match exec h op with
  | Ok (v, h') => exists M', means M op (Ok v) M' /\ strings h' M'
  | Err e => means M op (Err e) M
  | Timeout => False
  end.

Lemma Int_val_byte c : u8 (Int_val c) = Long_val c mod 256.
Proof.
  unfold Int_val, wrap, swrap. change (2 ^ 8) with 256. change (2 ^ 32) with (256 * 2 ^ 24). change (2 ^ (32 - 1)) with (256 * 2 ^ 23). set (x := Long_val c).
  rewrite (Z.mod_eq (x + _)) by lia. replace (x + 256 * 2 ^ 23 - 256 * 2 ^ 24 * ((x + 256 * 2 ^ 23) / (256 * 2 ^ 24)) - 256 * 2 ^ 23)
    with (x + (- (2 ^ 24 * ((x + 256 * 2 ^ 23) / (256 * 2 ^ 24)))) * 256) by lia. by rewrite Z.mod_add by lia.
Qed.

Lemma create_refines len : in_s 64 len -> refines (Create len).
Proof.
  intros Hl. unfold refines, exec, caml_create_string. assert (- 2 ^ 63 <= Long_val len < 2 ^ 63) as Hr.
  { unfold in_s in Hl. change (2 ^ (64 - 1)) with (2 ^ 63) in Hl. unfold Long_val. rewrite Z.shiftr_div_pow2 by lia. change (2 ^ 1) with 2. zdiv. }
  destruct (decide (0 <= Long_val len <= 8 * Max_wosize - 1)) as [Hin|Hout].
  - unfold Max_wosize in *. rewrite (wrap_small 64) by lia. rewrite (proj2 (Z.ltb_ge _ _)) by lia.
    pose proof (alloc_string_ok h M (Long_val len) T Hin) as A. destruct (caml_alloc_string h (Long_val len)) as [[h' s]|e|]; cbn [bind]; [|subst e; constructor|done].
    destruct A as (bs & Hb & Hn & T'). exists (<[s := bs]> M). split; [by constructor|done].
  - rewrite (proj2 (Z.ltb_lt _ _)); [by constructor|]. unfold Max_wosize in *. destruct (Z.lt_ge_cases (Long_val len) 0).
    + replace (u64 (Long_val len)) with (Long_val len + 2 ^ 64); [lia|]. unfold wrap. rewrite <- (Z.mod_add (Long_val len) 1) by lia. symmetry. apply Z.mod_small. lia.
    + rewrite (wrap_small 64) by lia. lia.
Qed.

Lemma get_refines s i bs : M !! s = Some bs -> refines (Get s i).
Proof.
  intros Hs. destruct (T s bs Hs) as [S _]. unfold refines, exec, caml_string_get. case_zbool (Long_val i <? 0); [apply (means_get_out _ s bs); [done|lia]|].
  rewrite (string_length _ _ _ S). cbn [bind]. case_zbool (slen bs <=? Long_val i); [apply (means_get_out _ s bs); [done|lia]|].
  destruct (string_byte _ _ _ S (Long_val i) ltac:(lia)) as (c & Hc & Hb). unfold Byte_u. rewrite Hb. cbn [bind]. exists M. split; [|done]. by apply (means_get _ s bs).
Qed.

Lemma set_refines s i c bs : M !! s = Some bs -> refines (SetByte s i c).
Proof.
  intros Hs. destruct (T s bs Hs) as [S _]. unfold refines, exec, caml_string_set. case_zbool (Long_val i <? 0); [apply (means_set_out _ s bs); [done|lia]|].
  rewrite (string_length _ _ _ S). cbn [bind]. case_zbool (slen bs <=? Long_val i); [apply (means_set_out _ s bs); [done|lia]|].
  set (n := Long_val i) in *. assert (is_byte (Long_val c mod 256)) as Hc by (apply Z.mod_pos_bound; lia).
  destruct (strings_write h M s bs n [Long_val c mod 256] T Hs ltac:(lia) ltac:(unfold slen in *; cbn; lia) ltac:(by constructor)) as (h' & Hset & T').
  cbn [set_bytes] in Hset. assert (set_byte h (s + n) (Int_val c) = Ok h') as ->.
  { apply bind_Ok in Hset as (h1 & Hset & [= <-]). rewrite <- Hset, <- Int_val_byte. unfold set_byte, put_byte. by rewrite wrap_mod_idemp by lia. }
  cbn [bind]. exists (<[s := <[Z.to_nat n := Long_val c mod 256]> bs]> M). split; [apply means_set; [done|lia]|].
  replace (<[Z.to_nat n := _]> bs) with (splice bs (Z.to_nat n) [Long_val c mod 256]); [done|]. unfold splice, slen in *. rewrite insert_take_drop by lia.
  cbn [length app]. by rewrite Nat.add_1_r.
Qed.

Lemma compare_refines r s1 s2 bs1 bs2 : M !! s1 = Some bs1 -> M !! s2 = Some bs2 ->
  refines (Equal s1 s2) /\ refines (NotEqual s1 s2) /\ refines (Compare s1 s2) /\ refines (Related r s1 s2).
Proof.
  intros H1 H2. destruct (T s1 bs1 H1) as [S1 _]. destruct (T s2 bs2 H2) as [S2 _]. unfold refines, exec. split_and!.
  - rewrite (string_equal_ok _ _ _ _ _ S1 S2). exists M. split; [by constructor|done].
  - unfold caml_string_notequal. rewrite (string_equal_ok _ _ _ _ _ S1 S2). exists M. split; [|done].
    replace (Val_not _) with (Val_bool (bool_decide (bs1 <> bs2))); [by constructor|]. by repeat case_bool_decide.
  - rewrite (string_compare_ok _ _ _ _ _ S1 S2). exists M. split; [by constructor|done].
  - assert (match r with Less => caml_string_lessthan h s1 s2 | LessEqual => caml_string_lessequal h s1 s2 | Greater => caml_string_greaterthan h s1 s2 | GreaterEqual => caml_string_greaterequal h s1 s2 end
      = Ok (Val_bool (related r (lex bs1 bs2)))) as ->.
    { destruct r; unfold caml_string_lessthan, caml_string_lessequal, caml_string_greaterthan, caml_string_greaterequal; rewrite (string_compare_ok _ _ _ _ _ S1 S2);
        by destruct (lex bs1 bs2). }
    exists M. split; [by constructor|done].
Qed.

Lemma blit_refines s1 o1 s2 o2 n bs1 bs2 : M !! s1 = Some bs1 -> M !! s2 = Some bs2 ->
  within bs1 (Long_val o1) (Long_val n) -> within bs2 (Long_val o2) (Long_val n) -> Long_val n < 2 ^ 31 -> refines (Blit s1 o1 s2 o2 n).
Proof.
  intros H1 H2 (W1 & W2 & W3) (V1 & V2 & V3) Hn. destruct (T s1 bs1 H1) as [S1 _]. unfold refines, exec, caml_blit_string.
  unfold Int_val. rewrite (swrap_small 32) by lia. rewrite (wrap_small 64) by lia. rewrite (string_part _ _ _ S1) by lia. cbn [bind].
  set (b := take _ _). assert (slen b = Long_val n) as Hb by (unfold b, slen in *; rewrite length_take, length_drop; lia).
  destruct (strings_write h M s2 bs2 (Long_val o2) b T H2 ltac:(lia) ltac:(lia)) as (h' & -> & T').
  { apply Forall_take, Forall_drop. by apply (string_bytes h s1). }
  cbn [bind]. eexists. split; [by eapply means_blit|done].
Qed.

Lemma fill_refines s o n c bs : M !! s = Some bs -> within bs (Long_val o) (Long_val n) -> refines (Fill s o n c).
Proof.
  intros Hs (V1 & V2 & V3). destruct (T s bs Hs) as [S _]. pose proof (string_facts _ _ _ S) as (A & _ & L & _ & W & R & _). unfold refines, exec, caml_fill_string. rewrite (wrap_small 64 (Long_val n)), Int_val_byte by lia.
  destruct (strings_write h M s bs (Long_val o) (replicate (Z.to_nat (Long_val n)) (Long_val c mod 256)) T Hs ltac:(lia)) as (h' & -> & T').
  { unfold slen in *. rewrite length_replicate. lia. }
  { apply Forall_replicate. apply Z.mod_pos_bound. lia. }
  cbn [bind]. eexists. split; [by eapply means_fill|done].
Qed.

Lemma bit_refines s n bs : M !! s = Some bs -> 0 <= Long_val n < 8 * slen bs -> Long_val n < 2 ^ 31 -> refines (BitTest s n).
Proof.
  intros Hs Hn H31. destruct (T s bs Hs) as [S _]. unfold refines, exec, caml_bitvect_test, Int_val. rewrite (swrap_small 32) by lia. set (p := Long_val n) in *.
  rewrite Z.shiftr_div_pow2 by lia. change (2 ^ 3) with 8. change 7 with (Z.ones 3). rewrite Z.land_ones by lia. change (2 ^ 3) with 8.
  destruct (string_byte _ _ _ S (p / 8) ltac:(zdiv)) as (c & Hc & Hb). unfold Byte_u. rewrite Hb. cbn [bind]. exists M. split; [|done].
  rewrite Z.shiftl_1_l. replace (Z.land c (2 ^ (p mod 8))) with (if Z.testbit c (p mod 8) then 2 ^ (p mod 8) else 0); [by apply (means_bit _ s n bs)|].
  pose proof (Z.mod_pos_bound p 8). apply Z.bits_inj'. intros k Hk. rewrite Z.land_spec, Z.pow2_bits_eqb by lia. destruct (Z.eqb_spec (p mod 8) k) as [->|Hne].
  - rewrite andb_true_r. destruct (Z.testbit c k); [apply Z.pow2_bits_true; lia|by rewrite Z.bits_0].
  - rewrite andb_false_r. destruct (Z.testbit c (p mod 8)); [apply Z.pow2_bits_false; lia|apply Z.bits_0].
Qed.
End Refines.


(** * An allocator

    Blocks one after the other from the word 1, and room up to the word [2 ^ 60]. *)
Section Bump.
Fixpoint nth_header (h : heap) (k : nat) : option Z :=
  match k with
  | O => Some 1
  | S k => a ← nth_header h k; hd ← words h !! a; if 0 <? Wosize_hd hd then Some (a + 1 + Wosize_hd hd) else None
  end.
Fixpoint first_free (h : heap) (fuel : nat) (a : Z) : option Z :=
  match fuel with
  | O => None
  | S fuel =>
      match words h !! a with
      | Some hd => if 0 <? Wosize_hd hd then first_free h fuel (a + 1 + Wosize_hd hd) else Some a
      | None => Some a
      end
  end.
Definition new_block (m : memory) (a n tag : Z) : memory := <[a := Make_header n tag Caml_white]> (foldr (fun i m => <[a + 1 + i := 0]> m) m (seqZ 0 n)).
Definition bump (h : heap) (n tag : Z) : res (heap * Z) :=
  match first_free h (S (size (words h))) 1 with
  | Some a => if a + 1 + n <=? 2 ^ 60 then Ok (set_words h (new_block (words h) a n tag), 8 * (a + 1)) else Err no_memory
  | None => Err no_memory
  end.
#[local] Instance bump_alloc : Allocator := {| caml_alloc_small := bump; caml_alloc_shr := bump |}.

Definition in_chain (h : heap) (b : Z) : Prop := b mod 8 = 0 /\ 0 < wosize_at h b /\ exists k, nth_header h k = Some (b / 8 - 1).

Lemma chain_step h k a : nth_header h (S k) = Some a -> exists a0 hd, nth_header h k = Some a0 /\ words h !! a0 = Some hd /\ 0 < Wosize_hd hd /\ a = a0 + 1 + Wosize_hd hd.
Proof.
  cbn [nth_header]. destruct (nth_header h k) as [a0|]; [|done]. cbn. destruct (words h !! a0) as [hd|] eqn:E; [|done]. cbn. case_zbool (0 <? Wosize_hd hd); [|done].
  intros [= <-]. by exists a0, hd.
Qed.
Lemma chain_ge h k a : nth_header h k = Some a -> 1 <= a.
Proof. revert a. induction k as [|k IH]; intros a; [intros [= <-]; lia|]. intros (a0 & hd & H0 & _ & Hw & ->)%chain_step. pose proof (IH _ H0). lia. Qed.
Lemma chain_order h j k a a' : (j < k)%nat -> nth_header h j = Some a -> nth_header h k = Some a' -> exists hd, words h !! a = Some hd /\ 0 < Wosize_hd hd /\ a + 1 + Wosize_hd hd <= a'.
Proof.
  intros Hjk Hj. revert a'. induction Hjk as [|k Hjk IH]; intros a' (a0 & hd & H0 & Hhd & Hw & ->)%chain_step.
  - rewrite Hj in H0. injection H0 as <-. exists hd. split_and!; [done|done|lia].
  - destruct (IH a0 H0) as (hd' & ? & ? & ?). exists hd'. split_and!; [done|done|lia].
Qed.
Lemma first_free_chain h fuel k a a' : nth_header h k = Some a -> first_free h fuel a = Some a' -> exists j, (k <= j)%nat /\ nth_header h j = Some a' /\ forall hd, words h !! a' = Some hd -> Wosize_hd hd <= 0.
Proof.
  revert k a. induction fuel as [|fuel IH]; intros k a Hk; cbn [first_free]; [done|]. destruct (words h !! a) as [hd|] eqn:E.
  - case_zbool (0 <? Wosize_hd hd).
    + intros Hf. destruct (IH (S k) (a + 1 + Wosize_hd hd)) as (j & Hj & R); [|done|exists j; split; [lia|done]]. cbn [nth_header]. rewrite Hk. cbn. rewrite E. cbn. by rewrite (proj2 (Z.ltb_lt _ _)).
    + intros [= <-]. exists k. split_and!; [lia|done|]. intros hd'. rewrite E. intros [= <-]. lia.
  - intros [= <-]. exists k. split_and!; [lia|done|]. by rewrite E.
Qed.

Lemma new_block_get m a n tag x : 0 <= n -> new_block m a n tag !! x = if x =? a then Some (Make_header n tag Caml_white) else if (a + 1 <=? x) && (x <? a + 1 + n) then Some 0 else m !! x.
Proof.
  intros Hn. unfold new_block. case_zbool (x =? a); [subst; apply lookup_insert_eq|]. rewrite lookup_insert_ne by done.
  assert (forall l, foldr (fun i m => <[a + 1 + i := 0]> m) m l !! x = if decide (x - (a + 1) ∈ l) then Some 0 else m !! x) as Hl.
  { induction l as [|i l IH]; cbn [foldr]; [done|]. destruct (decide (x = a + 1 + i)) as [->|Hne].
    - rewrite lookup_insert_eq, decide_True; [done|]. replace (a + 1 + i - (a + 1)) with i by lia. by left.
    - rewrite lookup_insert_ne, IH by done. destruct (decide (x - (a + 1) ∈ l)) as [Hi|Hi], (decide (x - (a + 1) ∈ i :: l)) as [Hj|Hj]; try done.
      + destruct Hj. by right.
      + apply elem_of_cons in Hj as [?|?]; [lia|done]. }
  rewrite Hl. destruct (decide _) as [Hi|Hi]; rewrite elem_of_seqZ in Hi.
  - by rewrite (proj2 (andb_true_iff _ _)) by (split; [apply Z.leb_le|apply Z.ltb_lt]; lia).
  - destruct ((a + 1 <=? x) && (x <? a + 1 + n)) eqn:E2; [|done]. zbool. lia.
Qed.

Lemma chain_keep h m k a : (forall b, in_chain h b -> m !! (b / 8 - 1) = words h !! (b / 8 - 1)) -> nth_header h k = Some a -> nth_header (set_words h m) k = Some a.
Proof.
  intros Hm. revert a. induction k as [|k IH]; intros a; [done|]. intros (a0 & hd & H0 & Hhd & Hw & ->)%chain_step. cbn [nth_header]. rewrite (IH _ H0). cbn.
  assert ((8 * (a0 + 1)) / 8 - 1 = a0) as Ea by (rewrite Z.mul_comm, Z.div_mul; lia). specialize (Hm (8 * (a0 + 1))). rewrite Ea in Hm. rewrite Hm, Hhd.
  { cbn. by rewrite (proj2 (Z.ltb_lt _ _)). }
  split_and!; [by rewrite Z.mul_comm, Z.mod_mul|unfold wosize_at; rewrite Ea, Hhd; done|]. exists k. by rewrite Ea.
Qed.
#[local] Instance bump_laws : AllocatorLaws.
Proof.
  refine {| live := in_chain |}.
  - intros h b (_ & Hw & _). done.
  - intros h b b' (Mb & Hw & k & Hk) (Mb' & Hw' & k' & Hk') Hne. assert (b / 8 <> b' / 8) as Hd by zdiv. assert (k <> k') as Hkk by (intros ->; rewrite Hk in Hk'; injection Hk'; lia).
    destruct (Nat.lt_total k k') as [Hlt|[|Hlt]]; [left|done|right].
    + destruct (chain_order _ _ _ _ _ Hlt Hk Hk') as (hd & Hhd & _ & Hle). rewrite (wosize_at_hd _ _ _ Hhd). lia.
    + destruct (chain_order _ _ _ _ _ Hlt Hk' Hk) as (hd & Hhd & _ & Hle). rewrite (wosize_at_hd _ _ _ Hhd). lia.
  - intros h m _ Hm b L. pose proof L as (Mb & Hw & k & Hk). split_and!; [done|unfold wosize_at; by rewrite words_set, (Hm b L)|]. exists k. by apply chain_keep.
  - intros h n tag Hn Ht. replace (if n <=? Max_young_wosize then caml_alloc_small h n tag else caml_alloc_shr h n tag) with (bump h n tag) by (by destruct (n <=? _)). unfold bump.
    destruct (first_free h _ 1) as [a|] eqn:Ef; [|done]. case_zbool (a + 1 + n <=? 2 ^ 60); [|done].
    destruct (first_free_chain h _ 0 1 a eq_refl Ef) as (j & _ & Hj & Hend). pose proof (chain_ge _ _ _ Hj) as Ha. set (m := new_block (words h) a n tag).
    assert (8 * (a + 1) / 8 = a + 1) as E8 by (rewrite Z.mul_comm, Z.div_mul; lia). unfold Max_wosize in Hn.
    pose proof (Make_tag n tag Caml_white ltac:(lia) ltac:(done) ltac:(by left)) as (_ & Ew & _).
    assert (forall x, m !! x = if x =? a then Some (Make_header n tag Caml_white) else if (a + 1 <=? x) && (x <? a + 1 + n) then Some 0 else words h !! x) as Hm by (intros x; apply new_block_get; lia).
    assert (forall b, in_chain h b -> b / 8 - 1 < a /\ b / 8 + wosize_at h b <= a) as Hbelow.
    { intros b (Mb & Hw & k & Hk). assert (b / 8 - 1 <> a) as Hne. { intros Eb. unfold wosize_at in Hw. rewrite Eb in Hw. destruct (words h !! a) as [hd|] eqn:E1; [specialize (Hend hd eq_refl); cbn in Hw; lia|]. by cbn in Hw. }
      destruct (Nat.lt_total k j) as [Hlt|[->|Hlt]].
      - destruct (chain_order _ _ _ _ _ Hlt Hk Hj) as (hd & Hhd & ? & ?). rewrite (wosize_at_hd _ _ _ Hhd). lia.
      - rewrite Hk in Hj. injection Hj. lia.
      - destruct (chain_order _ _ _ _ _ Hlt Hj Hk) as (hd & Hhd & ? & ?). specialize (Hend hd Hhd). lia. }
    assert (forall b, in_chain h b -> m !! (b / 8 - 1) = words h !! (b / 8 - 1)) as Hkeep.
    { intros b Lb. destruct (Hbelow b Lb). rewrite Hm, (proj2 (Z.eqb_neq _ _)) by lia. by rewrite (proj2 (Z.leb_gt (a + 1) _)) by lia. }
    exists m, Caml_white. rewrite E8. replace (a + 1 - 1) with a by lia. split_and!; [done|by left|lia|by rewrite Z.mul_comm, Z.mod_mul|lia|by rewrite Hm, Z.eqb_refl| | | |].
    + intros x Hx. rewrite Hm, (proj2 (Z.eqb_neq _ _)) by lia. rewrite (proj2 (andb_true_iff _ _)) by (split; [apply Z.leb_le|apply Z.ltb_lt]; lia). by exists 0.
    + intros x Hx. rewrite Hm, (proj2 (Z.eqb_neq _ _)) by lia. destruct ((a + 1 <=? x) && (x <? a + 1 + n)) eqn:E2; [zbool; lia|done].
    + split_and!; [by rewrite Z.mul_comm, Z.mod_mul| |].
      * rewrite (wosize_at_hd _ _ (Make_header n tag Caml_white)); [lia|]. rewrite E8, words_set, Hm. replace (a + 1 - 1) with a by lia. by rewrite Z.eqb_refl.
      * exists j. rewrite E8. replace (a + 1 - 1) with a by lia. by apply chain_keep.
    + intros s Ls. destruct (Hbelow s Ls) as [B1 B2]. split; [|left; lia]. destruct Ls as (Ms & Hw & k & Hk). split_and!; [done| |exists k; by apply chain_keep].
      unfold wosize_at. rewrite words_set, Hkeep; [done|by split_and!; [..|exists k]].
Defined.

(** Three strings: "ab", "ab" and "abcdefghi". *)
Definition three_words : list (Z * Z) :=
  [(1, Make_header 1 String_tag Caml_white); (2, le_value [97; 98; 0; 0; 0; 0; 0; 5]);
   (3, Make_header 1 String_tag Caml_white); (4, le_value [97; 98; 0; 0; 0; 0; 0; 5]);
   (5, Make_header 2 String_tag Caml_white); (6, le_value [97; 98; 99; 100; 101; 102; 103; 104]); (7, le_value [105; 0; 0; 0; 0; 0; 0; 6])].
Definition three : heap := mkHeap (list_to_map three_words) 0 0 0 0 0 (fun _ => false).
Definition three_strings : gmap Z bytes := list_to_map [(16, [97; 98]); (32, [97; 98]); (48, [97; 98; 99; 100; 101; 102; 103; 104; 105])].

Lemma three_ok : strings three three_strings.
Proof.
  intros s bs Hs. assert (s = 16 /\ bs = [97; 98] \/ s = 32 /\ bs = [97; 98] \/ s = 48 /\ bs = [97; 98; 99; 100; 101; 102; 103; 104; 105]) as Hc.
  { apply elem_of_list_to_map_2 in Hs. repeat (apply elem_of_cons in Hs as [[= <- <-]|Hs]; [tauto|]). by apply not_elem_of_nil in Hs. }
  assert (forall s bs k hd, 8 <= s /\ s mod 8 = 0 /\ s + 8 * wos (slen bs) <= 2 ^ 63 -> words three !! (s / 8 - 1) = Some hd -> Wosize_hd hd = wos (slen bs) -> Tag_hd hd = String_tag ->
    get_bytes three s (Z.to_nat (8 * wos (slen bs))) = Ok (padded bs) -> nth_header three k = Some (s / 8 - 1) -> is_string three s bs /\ live three s) as Hmk.
  { intros t bt k hd Ha Hhd Hw Ht Hb Hk. split; [split; [done|by exists hd|done]|]. split_and!; [tauto| |by exists k]. rewrite (wosize_at_hd _ _ _ Hhd), Hw. apply wos_pos, slen_nonneg. }
  destruct Hc as [[-> ->]|[[-> ->]|[-> ->]]]; [apply (Hmk _ _ 0%nat (Make_header 1 String_tag Caml_white))|apply (Hmk _ _ 1%nat (Make_header 1 String_tag Caml_white))|apply (Hmk _ _ 2%nat (Make_header 2 String_tag Caml_white))];
    by vm_compute.
Qed.

(** A copy that overlaps its source, then a new string. *)
Definition shift_right : string_op := Blit 48 (Val_long 0) 48 (Val_long 2) (Val_long 7).
Example shifted : match exec three shift_right with Ok (_, h') => caml_string_get h' 48 (Val_long 8) | _ => Err segv end = Ok (Val_int 103).
Proof. vm_compute. reflexivity. Qed.
Example created : match exec three (Create (Val_long 20)) with Ok (s, h') => (s, caml_ml_string_length h' s) | _ => (0, Err segv) end = (72, Ok (Val_long 20)).
Proof. vm_compute. reflexivity. Qed.
End Bump.
