(* ===== verification/CamlExtern.v ===== *)
(** Output of structured values (ocaml/byterun/extern.c).

    The objects that were written are marked in place: their header becomes
    blue and their first field their number; a trail remembers what was there,
    and replaying it undoes the marks.  The output is a list of buffers (or the
    one of the user), of which the last is filled up to extern_ptr.  malloc
    succeeds.  The recursion is bounded by [fuel]. *)
From stdpp Require Import base gmap list.
From Stdlib Require Import ZArith Lia.
From S2P Require Import Prelude CamlMemory CamlValues CamlIntext CamlStr.
Open Scope Z_scope.

Record trail_entry := mkTrail { te_obj : Z; te_field0 : Z }.

Record xstate := mkX {
  x_heap : heap;
  obj_counter : Z;
  size_32 : Z;
  size_64 : Z;
  (** the entries of the current trail block, and the previous ones, the last first *)
  extern_trail_block : list trail_entry;
  extern_trail_previous : list (list trail_entry);
  (** the buffers that are complete, in order, the current one, and its room *)
  extern_output : list bytes;
  extern_block : bytes;
  extern_room : Z
}.

Definition set_heap (s : xstate) (h : heap) : xstate :=
  mkX h (obj_counter s) (size_32 s) (size_64 s) (extern_trail_block s) (extern_trail_previous s) (extern_output s) (extern_block s) (extern_room s).
Definition set_sizes (s : xstate) (n s32 s64 : Z) : xstate :=
  mkX (x_heap s) n s32 s64 (extern_trail_block s) (extern_trail_previous s) (extern_output s) (extern_block s) (extern_room s).
Definition set_trail (s : xstate) (blk : list trail_entry) (prev : list (list trail_entry)) : xstate :=
  mkX (x_heap s) (obj_counter s) (size_32 s) (size_64 s) blk prev (extern_output s) (extern_block s) (extern_room s).
Definition set_output (s : xstate) (out : list bytes) (blk : bytes) (room : Z) : xstate :=
  mkX (x_heap s) (obj_counter s) (size_32 s) (size_64 s) (extern_trail_block s) (extern_trail_previous s) out blk room.

Abbreviation extern := (prog xstate).
Definition blen (b : bytes) : Z := Z.of_nat (length b).

(** * The trail *)
Definition init_extern_trail (s : xstate) : xstate := set_trail s [] [].

Definition restore_entry (h : heap) (ent : trail_entry) : res heap :=
  let colornum := Z.land (te_obj ent) 3 in
  let obj := Z.land (te_obj ent) (Z.lnot 3) in
  hd <- Hd_val h obj;
  h <- set_Hd h obj (Coloredhd_hd hd colornum);
  set_Field h obj 0 (te_field0 ent).
Fixpoint restore_entries (h : heap) (ents : list trail_entry) : res heap :=
  match ents with
  | [] => Ok h
  | ent :: ents => h <- restore_entry h ent; restore_entries h ents
  end.
Fixpoint restore_blocks (h : heap) (blks : list (list trail_entry)) : res heap :=
  match blks with
  | [] => Ok h
  | blk :: blks => h <- restore_entries h blk; restore_blocks h blks
  end.
Definition extern_replay_trail (s : xstate) : res xstate :=
  h <- restore_blocks (x_heap s) (extern_trail_block s :: extern_trail_previous s);
  Ok (init_extern_trail (set_heap s h)).

Section Extern.
Context `{CustomMarshal}.
Variable code : code_area.
Variables (extern_ignore_sharing extern_closures userprovided : bool).

Definition extern_record_location (obj : Z) : extern unit :=
  if extern_ignore_sharing then ret tt
  else change (fun s =>
    let '(blk, prev) :=
      if Z.of_nat (length (extern_trail_block s)) =? ENTRIES_PER_TRAIL_BLOCK then ([], extern_trail_block s :: extern_trail_previous s)
      else (extern_trail_block s, extern_trail_previous s) in
    hdr <- Hd_val (x_heap s) obj;
    field0 <- Field (x_heap s) obj 0;
    h <- set_Hd (x_heap s) obj (Bluehd_hd hdr);
    h <- set_Field h obj 0 (obj_counter s);
    Ok (set_sizes (set_trail (set_heap s h) (blk ++ [mkTrail (Z.lor obj (Colornum_hd hdr)) field0]) prev)
          (u64 (obj_counter s + 1)) (size_32 s) (size_64 s))).

(** * Errors *)
Definition raise {A} (msg : string) : extern A := change extern_replay_trail;; fun s => (Err msg, s).
Definition free_extern_output (s : xstate) : xstate := if userprovided then s else set_output s [] [] 0.
Definition extern_invalid_argument {A} (msg : string) : extern A :=
  change extern_replay_trail;; change (fun s => Ok (free_extern_output s));; fun s => (Err msg, s).

(** * Output *)
Definition init_extern_output (s : xstate) : xstate := set_output s [] [] SIZE_EXTERN_OUTPUT_BLOCK.

Definition buffer_overflow : string := "Marshal.to_buffer: buffer overflow".

Definition grow_extern_output (required : Z) : extern unit :=
  if userprovided then raise buffer_overflow
  else change (fun s =>
    let extra := if required <=? Z.quot SIZE_EXTERN_OUTPUT_BLOCK 2 then 0 else required in
    Ok (set_output s (extern_output s ++ [extern_block s]) [] (SIZE_EXTERN_OUTPUT_BLOCK + extra))).

(** What every function that writes does: room for all of it, then the bytes. *)
Definition put (bs : bytes) : extern unit := fun s =>
  ((if extern_room s <? blen (extern_block s) + blen bs then grow_extern_output (blen bs) else ret tt);;
   change (fun s => Ok (set_output s (extern_output s) (extern_block s ++ bs) (extern_room s)))) s.

Definition Write (c : Z) : extern unit := put [u8 c].
Definition writeblock (h : heap) (data len : Z) : extern unit := bs <~ look (fun _ => get_bytes h data (Z.to_nat len)); put bs.
Definition writeblock_float8 (h : heap) (data ndoubles : Z) : extern unit := writeblock h data (ndoubles * 8).
Definition writecode8 (c val : Z) : extern unit := put (u8 c :: be_bytes 1 val).
Definition writecode16 (c val : Z) : extern unit := put (u8 c :: be_bytes 2 val).
Definition write32 (val : Z) : extern unit := put (be_bytes 4 val).
Definition writecode32 (c val : Z) : extern unit := put (u8 c :: be_bytes 4 val).
Definition writecode64 (c val : Z) : extern unit := put (u8 c :: be_bytes 8 val).

Definition extern_output_length (s : xstate) : Z := blen (concat (extern_output s)) + blen (extern_block s).

(** * Values *)
Definition extern_int (n : Z) : extern unit :=
  if (0 <=? n) && (n <? 0x40) then Write (PREFIX_SMALL_INT + n)
  else if (- 2 ^ 7 <=? n) && (n <? 2 ^ 7) then writecode8 CODE_INT8 n
  else if (- 2 ^ 15 <=? n) && (n <? 2 ^ 15) then writecode16 CODE_INT16 n
  else if (n <? - 2 ^ 31) || (2 ^ 31 <=? n) then writecode64 CODE_INT64 n
  else writecode32 CODE_INT32 n.

(** The blocks to which a forward pointer must be kept. *)
Definition keeps_forward (h : heap) (f : Z) : res bool :=
  if Is_block f && (Is_young h f || Is_in_heap h f) then
    t <- Tag_val h f; Ok ((t =? Forward_tag) || (t =? Lazy_tag) || (t =? Double_tag))
  else Ok false.

Definition extern_atom (tag hd : Z) : extern unit :=
  if tag <? 16 then Write (PREFIX_SMALL_BLOCK + tag) else writecode32 CODE_BLOCK32 hd.

Definition extern_shared (v : Z) : extern unit :=
  n <~ look (fun s => Field (x_heap s) v 0);
  d <~ look (fun s => Ok (u64 (obj_counter s - u64 n)));
  if d <? 0x100 then writecode8 CODE_SHARED8 d
  else if d <? 0x10000 then writecode16 CODE_SHARED16 d
  else writecode32 CODE_SHARED32 d.

Definition add_sizes (d32 d64 : Z) : extern unit :=
  change (fun s => Ok (set_sizes s (obj_counter s) (u64 (size_32 s + d32)) (u64 (size_64 s + d64)))).

Definition extern_string (v : Z) : extern unit :=
  h <~ look (fun s => Ok (x_heap s));
  len <~ look (fun s => caml_string_length (x_heap s) v);
  (if len <? 0x20 then Write (PREFIX_SMALL_STRING + len)
   else if len <? 0x100 then writecode8 CODE_STRING8 len
   else writecode32 CODE_STRING32 len);;
  writeblock h v len;;
  add_sizes (1 + (len + 4) / 4) (1 + (len + 8) / 8);;
  extern_record_location v.

Definition extern_double (v : Z) : extern unit :=
  h <~ look (fun s => Ok (x_heap s));
  Write CODE_DOUBLE_NATIVE;;
  writeblock_float8 h v 1;;
  add_sizes (1 + 2) (1 + 1);;
  extern_record_location v.

Definition extern_double_array (v : Z) : extern unit :=
  h <~ look (fun s => Ok (x_heap s));
  nfloats <~ look (fun s => sz <- Wosize_val (x_heap s) v; Ok (sz / Double_wosize));
  (if nfloats <? 0x100 then writecode8 CODE_DOUBLE_ARRAY8_NATIVE nfloats
   else writecode32 CODE_DOUBLE_ARRAY32_NATIVE nfloats);;
  writeblock_float8 h v nfloats;;
  add_sizes (1 + nfloats * 2) (1 + nfloats);;
  extern_record_location v.

Definition abstract_Abstract : string := "output_value: abstract value (Abstract)".
Definition abstract_Custom : string := "output_value: abstract value (Custom)".
Definition functional : string := "output_value: functional value".
Definition outside_heap : string := "output_value: abstract value (outside heap)".
Definition object_too_big : string := "output_value: object too big".

Fixpoint put_all (ws : list bytes) : extern unit :=
  match ws with
  | [] => ret tt
  | w :: ws => put w;; put_all ws
  end.

Definition extern_custom (v : Z) : extern unit :=
  h <~ look (fun s => Ok (x_heap s));
  ops <~ look (fun s => Custom_ops_val (x_heap s) v);
  match custom_serialize ops with
  | None => extern_invalid_argument abstract_Custom
  | Some serialize =>
      Write CODE_CUSTOM;;
      put (custom_identifier ops ++ [0]);;
      w <~ look (fun _ => serialize h v);
      let '(ws, sz_32, sz_64) := w in
      put_all ws;;
      add_sizes (2 + Z.shiftr (u64 (sz_32 + 3)) 2) (2 + Z.shiftr (u64 (sz_64 + 7)) 3);;
      extern_record_location v
  end.

Definition extern_header (hd : Z) : extern unit :=
  let tag := Tag_hd hd in
  let sz := Wosize_hd hd in
  if (tag <? 16) && (sz <? 8) then Write (PREFIX_SMALL_BLOCK + tag + Z.shiftl sz 4)
  else if 2 ^ 32 <=? hd then writecode64 CODE_BLOCK64 (Whitehd_hd hd)
  else writecode32 CODE_BLOCK32 (Whitehd_hd hd).

(** A pointer out of the heap. *)
Definition extern_code (v : Z) : extern unit :=
  if (caml_code_area_start code <=? u64 v) && (u64 v <? caml_code_area_end code) then
    if negb extern_closures then extern_invalid_argument functional
    else writecode32 CODE_CODEPOINTER (u64 v - caml_code_area_start code);; put (caml_code_checksum code)
  else extern_invalid_argument outside_heap.

(** [n] fields from the [i]th. *)
Fixpoint extern_fields (rec : Z -> extern unit) (v i : Z) (n : nat) : extern unit :=
  match n with
  | O => ret tt
  | S n => f <~ look (fun s => Field (x_heap s) v i); rec f;; extern_fields rec v (i + 1) n
  end.

(** A block: the header, then the fields, the last by a jump. *)
Definition extern_block_of (rec : Z -> extern unit) (v hd : Z) : extern unit :=
  let sz := Wosize_hd hd in
  extern_header hd;;
  add_sizes (1 + sz) (1 + sz);;
  field0 <~ look (fun s => Field (x_heap s) v 0);
  extern_record_location v;;
  if sz =? 1 then rec field0
  else
    rec field0;;
    extern_fields rec v 1 (Z.to_nat (sz - 2));;
    f <~ look (fun s => Field (x_heap s) v (sz - 1));
    rec f.

Fixpoint extern_rec (fuel : nat) (v : Z) : extern unit :=
  match fuel with
  | O => out_of_fuel
  | S fuel =>
      if Is_long v then extern_int (Long_val v)
      else
        h <~ look (fun s => Ok (x_heap s));
        if known h v then
          hd <~ look (fun s => Hd_val (x_heap s) v);
          let tag := Tag_hd hd in
          let sz := Wosize_hd hd in
          forward <~ (if tag =? Forward_tag then
                        f <~ look (fun s => Forward_val (x_heap s) v);
                        keep <~ look (fun s => keeps_forward (x_heap s) f);
                        ret (if keep : bool then None else Some f)
                      else ret None);
          match forward with
          | Some f => extern_rec fuel f
          | None =>
              if sz =? 0 then extern_atom tag hd
              else if Color_hd hd =? Caml_blue then extern_shared v
              else if tag =? String_tag then extern_string v
              else if tag =? Double_tag then extern_double v
              else if tag =? Double_array_tag then extern_double_array v
              else if tag =? Abstract_tag then extern_invalid_argument abstract_Abstract
              else if tag =? Infix_tag then
                writecode32 CODE_INFIXPOINTER (Infix_offset_hd hd);;
                extern_rec fuel (v - Infix_offset_hd hd)
              else if tag =? Custom_tag then extern_custom v
              else extern_block_of (extern_rec fuel) v hd
          end
        else extern_code v
  end.

(** A buffer with a 32-bit number written at an offset. *)
Definition write32_at (blk : bytes) (pos : nat) (val : Z) : bytes := take pos blk ++ be_bytes 4 val ++ drop (pos + 4) blk.

(** The sizes, in the first buffer. *)
Definition write_sizes (s : xstate) (res_len : Z) : xstate :=
  let fill blk := write32_at (write32_at (write32_at (write32_at blk 4 (res_len - 5 * 4)) 8 (obj_counter s)) 12 (size_32 s)) 16 (size_64 s) in
  match extern_output s with
  | [] => set_output s [] (fill (extern_block s)) (extern_room s)
  | first :: out => set_output s (fill first :: out) (extern_block s) (extern_room s)
  end.

(** Enough for every value in which each object is recorded. *)
Definition extern_fuel (h : heap) : nat := 3 * size (words h) + 4.

Definition extern_value_body (v : Z) : extern Z :=
  change (fun s => Ok (set_sizes (init_extern_trail s) 0 0 0));;
  write32 Intext_magic_number;;
  change (fun s => Ok (set_output s (extern_output s) (extern_block s ++ replicate 16 0) (extern_room s)));;
  h <~ look (fun s => Ok (x_heap s));
  extern_rec (extern_fuel h) v;;
  change extern_replay_trail;;
  res_len <~ look (fun s => Ok (extern_output_length s));
  big <~ look (fun s => Ok ((2 ^ 32 <=? res_len) || (2 ^ 32 <=? size_32 s) || (2 ^ 32 <=? size_64 s)));
  if big : bool then change (fun s => Ok (free_extern_output s));; fun s => (Err object_too_big, s)
  else change (fun s => Ok (write_sizes s res_len));; ret res_len.
End Extern.

(** * The flags *)
Definition NO_SHARING : Z := 1.
Definition CLOSURES : Z := 2.
Definition extern_flags : list Z := [NO_SHARING; CLOSURES].

(** alloc.c; a list of constant constructors *)
Definition caml_convert_flag_list (h : heap) (l : Z) (flags : list Z) : res Z :=
  loop (S (size (words h))) (fun '(l, res) =>
    if l =? Val_int 0 then Ok (inr res)
    else
      c <- Field h l 0;
      f <- lift (flags !! Z.to_nat (Long_val c)) segv;
      l <- Field h l 1;
      Ok (inl (l, Z.lor res f))) (l, 0).

Section Entry.
Context `{CustomMarshal}.
Variable code : code_area.

Definition extern_value (userprovided : bool) (v flags : Z) : extern Z :=
  fl <~ look (fun s => caml_convert_flag_list (x_heap s) flags extern_flags);
  extern_value_body code (negb (Z.land fl NO_SHARING =? 0)) (negb (Z.land fl CLOSURES =? 0)) userprovided v.

Definition xstart (h : heap) (room : Z) : xstate := mkX h 0 0 0 [] [] [] [] room.

(** What was written. *)
Definition extern_bytes (s : xstate) : bytes := concat (extern_output s) ++ extern_block s.

(** Output in a buffer allocated by malloc, in one of the user, and on a
    channel; with the heap afterwards. *)
Definition caml_output_value_to_malloc (h : heap) (v flags : Z) : res bytes * heap :=
  let '(r, s) := extern_value false v flags (init_extern_output (xstart h 0)) in
  (_ <- r; Ok (extern_bytes s), x_heap s).
Definition caml_output_value_to_block (h : heap) (v flags : Z) (len : Z) : res bytes * heap :=
  let '(r, s) := extern_value true v flags (xstart h len) in
  (_ <- r; Ok (extern_bytes s), x_heap s).
Definition caml_output_val (binary : bool) (chan : bytes) (h : heap) (v flags : Z) : res bytes * heap :=
  if negb binary then (Err "output_value: not a binary channel", h)
  else
    let '(r, s) := extern_value false v flags (init_extern_output (xstart h 0)) in
    (_ <- r; Ok (chan ++ extern_bytes s), x_heap s).

(** Output in a new string. *)
Definition caml_output_value_to_string `{Allocator} (h : heap) (v flags : Z) : res Z * heap :=
  let '(r, s) := extern_value false v flags (init_extern_output (xstart h 0)) in
  let made :=
    len <- r;
    '(h, res) <- caml_alloc_string (x_heap s) len;
    h <- set_bytes h res (extern_bytes s);
    Ok (res, h) in
  match made with
  | Ok (res, h) => (Ok res, h)
  | Err e => (Err e, x_heap s)
  | Timeout => (Timeout, x_heap s)
  end.
End Entry.
