(* ===== verification/CamlGraph.v ===== *)
(** Graphs of OCaml values in memory, and their encoding.

    [source objs outs]: the blocks [objs] and the pointers [outs] out of the heap
    make a well-formed graph of values.  [enc seen v bs seen']: the bytes [bs]
    stand for the value [v] after the objects [seen], and record the objects that
    [seen'] has in addition.  The encoding is about the graph as it is, before
    any object is marked.

    The boxed integers keep the laws of marshalling: what their serializers write
    is what their deserializers read; and the functions for user-defined
    marshallers, of which one pair disagrees. *)
From stdpp Require Import base gmap list.
From Stdlib Require Import ZArith Lia.
From S2P Require Import Prelude CamlMemory CamlValues CamlIntext CamlIntextOk CamlExtern.
Open Scope Z_scope.


(** * What is asked of custom blocks *)

(** Serializers of registered operations look only at the operations
    and the data; what they write is read back as the bytes of the data; the identifier leads
    back to the operations. *)
Class MarshalLaws `{CustomMarshal} (table : list Z) := {
  serialize_local ops ser : ops ∈ table -> custom_serialize ops = Some ser ->
    forall h h' o ws n32 n64, ser h o = Ok (ws, n32, n64) -> (forall i, 0 <= i <= (n64 + 7) / 8 -> Field h' o i = Field h o i) -> ser h' o = ser h o;
  deserialize_serialize ops ser : ops ∈ table -> custom_serialize ops = Some ser ->
    forall h o ws n32 n64, ser h o = Ok (ws, n32, n64) ->
    0 <= n64 < 2 ^ 32 /\
    exists deser data, custom_deserialize ops = Some deser /\ get_bytes h (o + 8) (Z.to_nat n64) = Ok data /\
      forall rest, deser (concat ws ++ rest) = Ok (data, n64, rest);
  serialize_bytes ops ser : ops ∈ table -> custom_serialize ops = Some ser ->
    forall h o ws n32 n64, ser h o = Ok (ws, n32, n64) -> Forall is_byte (concat ws);
  identifier_finds ops ser : ops ∈ table -> custom_serialize ops = Some ser ->
    caml_find_custom_operations table (custom_identifier ops) = Some ops /\ Forall (fun b => 0 < b < 256) (custom_identifier ops)
}.

Section Graph.
Context `{CustomMarshal}.
Variable table : list Z.
Variable h : heap.

(** * Blocks *)
Definition hd_of (o : Z) : Z := default 0 (words h !! (o / 8 - 1)).
Definition tag_of (o : Z) : Z := Tag_hd (hd_of o).
Definition wosize_of (o : Z) : Z := Wosize_hd (hd_of o).
Definition field_of (o i : Z) : Z := s64 (default 0 (words h !! (o / 8 + i))).

(** The blocks whose fields are values. *)
Definition scanned (tag : Z) : bool :=
  negb ((tag =? Forward_tag) || (tag =? Infix_tag) || (tag =? Abstract_tag) || (tag =? String_tag) || (tag =? Double_tag) || (tag =? Double_array_tag) || (tag =? Custom_tag)).

Section Values.
Variables objs outs : list Z.

(** An atom; a pointer inside a closure. *)
Definition atom (v : Z) : Prop :=
  exists t, v = Atom h t /\ 0 <= t < 256 /\ t <> Forward_tag /\ 8 <= v < 2 ^ 63 /\ v mod 8 = 0 /\
    tag_of v = t /\ wosize_of v = 0 /\ 0 <= hd_of v < 2 ^ 64 /\ is_Some (words h !! (v / 8 - 1)) /\
    forall o, o ∈ objs -> v / 8 - 1 <> o / 8 - 1 /\ v / 8 - 1 <> o / 8.
Definition infix (v : Z) : Prop :=
  exists o off, o ∈ objs /\ tag_of o = Closure_tag /\ v = o + off /\ off mod 8 = 0 /\ 16 <= off < 2 ^ 32 /\ off <= 8 * (wosize_of o - 1) /\
    tag_of v = Infix_tag /\ wosize_of v = off / 8 /\ Color_hd (hd_of v) <> Caml_blue /\ known h v = true.

Definition value (v : Z) : Prop := in_s 64 v /\ (Is_long v = true \/ v ∈ objs \/ atom v \/ infix v \/ v ∈ outs).

(** A forward pointer that is not followed is not allowed: when the block is met
    a second time its first field is the mark, and the code follows that. *)
Record object (o : Z) : Prop := {
  ob_addr : 8 <= o /\ o + 8 * wosize_of o <= 2 ^ 63 /\ o mod 8 = 0;
  ob_known : Is_young h o || Is_in_heap h o = true;
  ob_words : forall i, -1 <= i < wosize_of o -> exists w, words h !! (o / 8 + i) = Some w /\ 0 <= w < 2 ^ 64;
  ob_size : 0 < wosize_of o;
  ob_colour : Color_hd (hd_of o) <> Caml_blue;
  ob_infix : tag_of o <> Infix_tag;
  ob_forward : tag_of o = Forward_tag -> value (field_of o 0) /\ keeps_forward h (field_of o 0) = Ok false;
  ob_string : tag_of o = String_tag -> exists len, 0 <= len /\ caml_string_length h o = Ok len /\ wosize_of o = (len + 8) / 8;
  ob_double : tag_of o = Double_tag -> wosize_of o = 1;
  ob_custom : tag_of o = Custom_tag ->
    forall ser, custom_serialize (field_of o 0) = Some ser ->
    field_of o 0 ∈ table /\ exists ws n32 n64, ser h o = Ok (ws, n32, n64) /\ 0 <= n64 /\ wosize_of o = 1 + (n64 + 7) / 8;
  ob_fields : scanned (tag_of o) = true -> forall i, 0 <= i < wosize_of o -> value (field_of o i)
}.
End Values.

(** The words that objects take with their headers. *)
Definition whsizes (os : list Z) : Z := foldr (fun o n => 1 + wosize_of o + n) 0 os.

Record source (objs outs : list Z) : Prop := {
  so_nodup : NoDup objs;
  so_object : forall o, o ∈ objs -> object objs outs o;
  so_apart : forall o o', o ∈ objs -> o' ∈ objs -> o <> o' -> o / 8 + wosize_of o <= o' / 8 - 1 \/ o' / 8 + wosize_of o' <= o / 8 - 1;
  so_out : forall v, v ∈ outs -> in_s 64 v /\ Is_long v = false /\ known h v = false;
  so_small : whsizes objs < 2 ^ 62
}.

(** * The encoding *)
Definition int_bytes (n : Z) : bytes :=
  if (0 <=? n) && (n <? 0x40) then [u8 (PREFIX_SMALL_INT + n)]
  else if (- 2 ^ 7 <=? n) && (n <? 2 ^ 7) then u8 CODE_INT8 :: be_bytes 1 n
  else if (- 2 ^ 15 <=? n) && (n <? 2 ^ 15) then u8 CODE_INT16 :: be_bytes 2 n
  else if (n <? - 2 ^ 31) || (2 ^ 31 <=? n) then u8 CODE_INT64 :: be_bytes 8 n
  else u8 CODE_INT32 :: be_bytes 4 n.

Definition atom_bytes (tag hd : Z) : bytes := if tag <? 16 then [u8 (PREFIX_SMALL_BLOCK + tag)] else u8 CODE_BLOCK32 :: be_bytes 4 hd.

Definition shared_bytes (d : Z) : bytes :=
  if d <? 0x100 then u8 CODE_SHARED8 :: be_bytes 1 d
  else if d <? 0x10000 then u8 CODE_SHARED16 :: be_bytes 2 d
  else u8 CODE_SHARED32 :: be_bytes 4 d.

Definition string_code (len : Z) : bytes :=
  if len <? 0x20 then [u8 (PREFIX_SMALL_STRING + len)]
  else if len <? 0x100 then u8 CODE_STRING8 :: be_bytes 1 len
  else u8 CODE_STRING32 :: be_bytes 4 len.

Definition double_array_code (n : Z) : bytes :=
  if n <? 0x100 then u8 CODE_DOUBLE_ARRAY8_NATIVE :: be_bytes 1 n else u8 CODE_DOUBLE_ARRAY32_NATIVE :: be_bytes 4 n.

Definition header_bytes (hd : Z) : bytes :=
  if (Tag_hd hd <? 16) && (Wosize_hd hd <? 8) then [u8 (PREFIX_SMALL_BLOCK + Tag_hd hd + Z.shiftl (Wosize_hd hd) 4)]
  else if 2 ^ 32 <=? hd then u8 CODE_BLOCK64 :: be_bytes 8 (Whitehd_hd hd)
  else u8 CODE_BLOCK32 :: be_bytes 4 (Whitehd_hd hd).

(** Blocks without fields that are values. *)
Inductive leaf (o : Z) : bytes -> Prop :=
  | leaf_string len bs : tag_of o = String_tag -> caml_string_length h o = Ok len -> get_bytes h o (Z.to_nat len) = Ok bs ->
      leaf o (string_code len ++ bs)
  | leaf_double bs : tag_of o = Double_tag -> get_bytes h o 8 = Ok bs -> leaf o (u8 CODE_DOUBLE_NATIVE :: bs)
  | leaf_double_array bs : tag_of o = Double_array_tag -> get_bytes h o (Z.to_nat (wosize_of o * 8)) = Ok bs ->
      leaf o (double_array_code (wosize_of o) ++ bs)
  | leaf_custom ops ser ws n32 n64 : tag_of o = Custom_tag -> field_of o 0 = ops -> custom_serialize ops = Some ser -> ser h o = Ok (ws, n32, n64) ->
      leaf o (u8 CODE_CUSTOM :: custom_identifier ops ++ 0 :: concat ws).

Definition fields_of (o : Z) : list Z := field_of o <$> seqZ 0 (wosize_of o).

Variable code : code_area.
Variables objs outs : list Z.

Inductive enc : list Z -> Z -> bytes -> list Z -> Prop :=
  | enc_long seen v : Is_long v = true -> enc seen v (int_bytes (Long_val v)) seen
  | enc_code seen v : v ∈ outs -> caml_code_area_start code <= u64 v < caml_code_area_end code ->
      enc seen v (u8 CODE_CODEPOINTER :: be_bytes 4 (u64 v - caml_code_area_start code) ++ caml_code_checksum code) seen
  | enc_atom seen v : atom objs v -> enc seen v (atom_bytes (tag_of v) (hd_of v)) seen
  | enc_infix seen v o bs seen' : infix objs v -> o ∈ objs -> o = v - Infix_offset_hd (hd_of v) -> enc seen o bs seen' ->
      enc seen v (u8 CODE_INFIXPOINTER :: be_bytes 4 (Infix_offset_hd (hd_of v)) ++ bs) seen'
  | enc_forward seen v bs seen' : v ∈ objs -> tag_of v = Forward_tag -> enc seen (field_of v 0) bs seen' -> enc seen v bs seen'
  | enc_shared seen v k : v ∈ objs -> seen !! k = Some v -> enc seen v (shared_bytes (Z.of_nat (length seen) - Z.of_nat k)) seen
  | enc_leaf seen v bs : v ∈ objs -> v ∉ seen -> leaf v bs -> enc seen v bs (seen ++ [v])
  | enc_block seen v bs seen' : v ∈ objs -> v ∉ seen -> scanned (tag_of v) = true -> encs (seen ++ [v]) (fields_of v) bs seen' ->
      enc seen v (header_bytes (hd_of v) ++ bs) seen'
with encs : list Z -> list Z -> bytes -> list Z -> Prop :=
  | encs_nil seen : encs seen [] [] seen
  | encs_cons seen v vs bs bs' seen' seen'' : enc seen v bs seen' -> encs seen' vs bs' seen'' -> encs seen (v :: vs) (bs ++ bs') seen''.

Scheme enc_mut := Minimality for enc Sort Prop with encs_mut := Minimality for encs Sort Prop.
Combined Scheme enc_encs_ind from enc_mut, encs_mut.

(** An encoding is not empty. *)
Lemma enc_nonempty seen v bs seen' : enc seen v bs seen' -> bs <> [].
Proof.
  induction 1 as [seen v|seen v|seen v|seen v o bs seen'|seen v bs seen'|seen v k|seen v bs Ho Hn Hl|seen v bs seen']; try done.
  - unfold int_bytes. repeat destruct (_ && _); try done. by destruct (_ || _).
  - unfold atom_bytes. by destruct (_ <? _).
  - unfold shared_bytes. by repeat destruct (_ <? _).
  - destruct Hl; try done; [unfold string_code|unfold double_array_code]; by repeat destruct (_ <? _).
  - unfold header_bytes. destruct (_ && _); [done|]. by destruct (_ <=? _).
Qed.

End Graph.

(** * Bytes *)
Lemma le_bytes_low n x : le_bytes n (x mod 2 ^ (8 * Z.of_nat n)) = le_bytes n x.
Proof.
  revert x. induction n as [|n IH]; intros x; cbn [le_bytes]; [done|]. replace (8 * Z.of_nat (S n)) with (8 + 8 * Z.of_nat n) by lia.
  rewrite Z.pow_add_r by lia. change (2 ^ 8) with 256. assert (0 < 2 ^ (8 * Z.of_nat n)) by (apply Z.pow_pos_nonneg; lia). rewrite Z.rem_mul_r by lia.
  rewrite (Z.mul_comm 256). f_equal; [rewrite Z.mod_add by lia; apply Z.mod_mod; lia|].
  rewrite Z.div_add by lia. rewrite (Z.div_small (x mod 256)), Z.add_0_l by (apply Z.mod_pos_bound; lia). apply IH.
Qed.

Lemma le_bytes_eq n x y : x mod 2 ^ (8 * Z.of_nat n) = y mod 2 ^ (8 * Z.of_nat n) -> le_bytes n x = le_bytes n y.
Proof. intros E. rewrite <- (le_bytes_low n x), E. apply le_bytes_low. Qed.

(** The first bytes of a word that can be read. *)
Lemma word_bytes h a w n : (n <= 8)%nat -> word_at h a = Ok w -> get_bytes h a n = Ok (le_bytes n w).
Proof.
  intros Hn Hw. unfold word_at in Hw. destruct (u64 a mod 8 =? 0) eqn:E; [|done]. zbool. unfold rd in Hw. destruct (words h !! (u64 a / 8)) as [w'|] eqn:Ew; [|done].
  injection Hw as ->. apply get_bytes_get. split; [apply length_le_bytes|]. intros j b Hj. pose proof (lookup_lt_Some _ _ _ Hj) as Hlt. rewrite length_le_bytes in Hlt.
  rewrite le_bytes_get in Hj by done. injection Hj as <-. unfold byte_at. pose proof (wrap_range 64 a ltac:(lia)) as Hr.
  assert (u64 (a + Z.of_nat j) = u64 a + Z.of_nat j) as Eu.
  { unfold wrap in *. set (m := 2 ^ 64) in *. rewrite Z.add_mod by (unfold m; lia). rewrite (Z.mod_small (Z.of_nat j)) by (unfold m; lia). apply Z.mod_small. split; [lia|].
    assert (m = 8 * 2 ^ 61) by done. zdiv. }
  assert ((u64 a + Z.of_nat j) / 8 = u64 a / 8 /\ (u64 a + Z.of_nat j) mod 8 = Z.of_nat j) as [E1 E2] by (split; zdiv).
  rewrite Eu, E1, E2, (rd_some _ _ _ Ew). done.
Qed.

Lemma reverse_one l : length l = 8%nat -> reverse_items 8 1 l = rev l.
Proof. intros Hl. cbn [reverse_items]. rewrite app_nil_r, firstn_all2 by lia. done. Qed.

Lemma split_input_app n (b src : bytes) : length b = n -> split_input n (b ++ src) = Ok (b, src).
Proof.
  intros Hn. unfold split_input. rewrite length_app, (proj2 (Nat.leb_le _ _)) by lia. by rewrite take_app_length', drop_app_length' by lia.
Qed.

(** What [caml_serialize_int_8] writes is read by [caml_deserialize_sint_8]. *)
Lemma int_8_back i rest : in_s 64 i -> caml_deserialize_sint_8 (caml_serialize_int_8 i ++ rest) = Ok (i, rest).
Proof.
  intros Hi. unfold caml_deserialize_sint_8, caml_deserialize_block_8, caml_serialize_int_8, caml_serialize_block_8.
  assert (length (le_bytes 8 i) = 8%nat) as Hl by apply length_le_bytes.
  rewrite reverse_one by done. change (8 * 1)%nat with 8%nat. rewrite split_input_app by (by rewrite length_rev). cbn [bind].
  rewrite reverse_one by (by rewrite length_rev). rewrite rev_involutive, le_value_bytes. change (8 * Z.of_nat 8) with 64.
  change (i mod 2 ^ 64) with (u64 i). by rewrite s64_u64.
Qed.
Lemma int_4_back i rest : in_s 32 i -> caml_deserialize_sint_4 (caml_serialize_int_4 i ++ rest) = Ok (i, rest).
Proof.
  intros Hi. unfold caml_deserialize_sint_4, caml_serialize_int_4. rewrite split_input_app by apply length_be. cbn [bind].
  rewrite be_signed_bytes by lia. change (8 * Z.of_nat 4) with 32. by rewrite swrap_small by (done || lia).
Qed.

(** * The boxed integers *)
Section Ints.
Variables a32 a64 an : Z.
Hypothesis apart : a32 <> a64 /\ a32 <> an /\ a64 <> an.
Abbreviation table := (caml_init_custom_operations a32 a64 an []).
#[local] Instance IM : CustomMarshal := int_marshal a32 a64 an.

Lemma field_data h o w : Field h o 1 = Ok w -> in_s 64 w /\ forall n i, (n <= 8)%nat -> i mod 2 ^ (8 * Z.of_nat n) = w mod 2 ^ (8 * Z.of_nat n) ->
  get_bytes h (o + 8) n = Ok (le_bytes n i).
Proof.
  unfold Field. rewrite bind_Ok. intros (w0 & Hw0 & [= <-]). split; [apply s64_range|]. intros n i Hn E. rewrite (word_bytes h (o + 8) w0 n Hn Hw0). f_equal.
  apply le_bytes_eq. rewrite E. unfold swrap. assert (exists q, 2 ^ 64 = q * 2 ^ (8 * Z.of_nat n) /\ 0 < 2 ^ (8 * Z.of_nat n)) as (q & Eq & Hp).
  { exists (2 ^ (64 - 8 * Z.of_nat n)). rewrite <- Z.pow_add_r by lia. split; [f_equal; lia|apply Z.pow_pos_nonneg; lia]. }
  set (p := 2 ^ (8 * Z.of_nat n)) in *. set (k := 2 ^ (64 - 1)). rewrite (Z.mod_eq (w0 + k)) by lia. rewrite Eq.
  replace (w0 + k - q * p * ((w0 + k) / (q * p)) - k) with (w0 + (- (q * ((w0 + k) / (q * p)))) * p) by lia. by rewrite Z.mod_add by lia.
Qed.

Lemma ops_cases ops ser : custom_serialize ops = Some ser -> (ops = a32 /\ ser = int32_serialize) \/ (ops = a64 /\ ser = int64_serialize) \/ (ops = an /\ ser = nativeint_serialize).
Proof.
  unfold custom_serialize, IM, int_marshal. case_zbool (ops =? a32); [intros [= <-]; auto|]. case_zbool (ops =? a64); [intros [= <-]; auto|]. case_zbool (ops =? an); [intros [= <-]; auto|done].
Qed.
Lemma deser_cases : custom_deserialize a32 = Some int32_deserialize /\ custom_deserialize a64 = Some int64_deserialize /\ custom_deserialize an = Some nativeint_deserialize.
Proof.
  destruct apart as (E1 & E2 & E3). unfold custom_deserialize, IM, int_marshal. rewrite !Z.eqb_refl. rewrite (proj2 (Z.eqb_neq a64 a32)), (proj2 (Z.eqb_neq an a32)), (proj2 (Z.eqb_neq an a64)) by done. done.
Qed.

Lemma int32_back h o ws n32 n64 : int32_serialize h o = Ok (ws, n32, n64) -> n64 = 4 /\ exists data, get_bytes h (o + 8) 4 = Ok data /\
  forall rest, int32_deserialize (concat ws ++ rest) = Ok (data, 4, rest).
Proof.
  unfold int32_serialize, Int32_val. intros (i & (w & Hw & [= <-])%bind_Ok & [= <- <- <-])%bind_Ok. split; [done|]. destruct (field_data h o w Hw) as [Hr Hd].
  exists (le_bytes 4 (s32 w)). split; [apply Hd; [lia|apply (wrap_swrap 32); lia]|]. intros rest. unfold int32_deserialize. cbn [concat]. rewrite app_nil_r, int_4_back; [done|apply (swrap_range 32); lia].
Qed.
Lemma int64_back h o ws n32 n64 : int64_serialize h o = Ok (ws, n32, n64) -> n64 = 8 /\ exists data, get_bytes h (o + 8) 8 = Ok data /\
  forall rest, int64_deserialize (concat ws ++ rest) = Ok (data, 8, rest).
Proof.
  unfold int64_serialize, Int64_val. intros (w & Hw & [= <- <- <-])%bind_Ok. split; [done|]. destruct (field_data h o w Hw) as [Hr Hd].
  exists (le_bytes 8 w). split; [by apply Hd|]. intros rest. unfold int64_deserialize. cbn [concat]. rewrite app_nil_r, int_8_back; done.
Qed.
Lemma nativeint_back h o ws n32 n64 : nativeint_serialize h o = Ok (ws, n32, n64) -> n64 = 8 /\ exists data, get_bytes h (o + 8) 8 = Ok data /\
  forall rest, nativeint_deserialize (concat ws ++ rest) = Ok (data, 8, rest).
Proof.
  unfold nativeint_serialize, Nativeint_val. intros (w & Hw & [= <- <- <-])%bind_Ok. split; [done|]. destruct (field_data h o w Hw) as [Hr Hd].
  exists (le_bytes 8 w). split; [by apply Hd|]. intros rest. destruct ((w <=? 0x7FFFFFFF) && (- 0x80000000 <=? w)) eqn:E; cbn [concat]; rewrite app_nil_r, <- app_assoc; unfold nativeint_deserialize.
  - zbool. unfold caml_deserialize_uint_1. rewrite split_input_app by done. cbn [bind]. change (be_value (caml_serialize_int_1 1) =? 1) with true. cbv iota.
    rewrite swrap_small by lia. rewrite int_4_back by (unfold in_s; lia). done.
  - unfold caml_deserialize_uint_1. rewrite split_input_app by done. cbn [bind]. change (be_value (caml_serialize_int_1 2) =? 1) with false. change (be_value (caml_serialize_int_1 2) =? 2) with true. cbv iota.
    rewrite int_8_back by done. done.
Qed.

Lemma reversed_byte i : Forall is_byte (caml_serialize_int_8 i).
Proof. unfold caml_serialize_int_8, caml_serialize_block_8. rewrite reverse_one by apply length_le_bytes. apply Forall_rev, le_bytes_byte. Qed.

Lemma int_marshal_laws : MarshalLaws table.
Proof.
  destruct deser_cases as (D1 & D2 & D3). destruct apart as (E1 & E2 & E3). split.
  - intros ops ser _ Hs h h' o ws n32 n64 Hser Hf. destruct (ops_cases _ _ Hs) as [[-> ->]|[[-> ->]|[-> ->]]].
    + destruct (int32_back _ _ _ _ _ Hser) as [-> _]. unfold int32_serialize, Int32_val. by rewrite Hf by done.
    + destruct (int64_back _ _ _ _ _ Hser) as [-> _]. unfold int64_serialize, Int64_val. by rewrite Hf by done.
    + destruct (nativeint_back _ _ _ _ _ Hser) as [-> _]. unfold nativeint_serialize, Nativeint_val. by rewrite Hf by done.
  - intros ops ser _ Hs h o ws n32 n64 Hser. destruct (ops_cases _ _ Hs) as [[-> ->]|[[-> ->]|[-> ->]]].
    + destruct (int32_back _ _ _ _ _ Hser) as (-> & data & Hd & Hb). split; [lia|]. by exists int32_deserialize, data.
    + destruct (int64_back _ _ _ _ _ Hser) as (-> & data & Hd & Hb). split; [lia|]. by exists int64_deserialize, data.
    + destruct (nativeint_back _ _ _ _ _ Hser) as (-> & data & Hd & Hb). split; [lia|]. by exists nativeint_deserialize, data.
  - intros ops ser _ Hs h o ws n32 n64 Hser. destruct (ops_cases _ _ Hs) as [[-> ->]|[[-> ->]|[-> ->]]]; unfold int32_serialize, int64_serialize, nativeint_serialize in Hser;
      apply bind_Ok in Hser as (i & _ & [= <- _ _]); [| |destruct (_ && _)]; cbn [concat]; rewrite !Forall_app; split_and?;
      first [apply Forall_nil_2 | apply reversed_byte | apply (be_bytes_byte 4) | apply (be_bytes_byte 1)].
  - intros ops ser _ Hs. unfold caml_init_custom_operations, caml_register_custom_operations. cbn [caml_find_custom_operations].
    assert (custom_identifier a32 = [95; 105] /\ custom_identifier a64 = [95; 106] /\ custom_identifier an = [95; 110]) as (I1 & I2 & I3).
    { unfold custom_identifier, IM, int_marshal. rewrite !Z.eqb_refl. rewrite (proj2 (Z.eqb_neq a64 a32)), (proj2 (Z.eqb_neq an a32)), (proj2 (Z.eqb_neq an a64)) by done. done. }
    rewrite I1, I2, I3. destruct (ops_cases _ _ Hs) as [[-> _]|[[-> _]|[-> _]]]; rewrite ?I1, ?I2, ?I3; cbn; (split; [done|repeat constructor; lia]).
Qed.
End Ints.

(** * Doubles in user-defined marshallers *)

(** Arrays of doubles are written and read in the same order of bytes. *)
Lemma block_float_8_back data len rest : length data = (8 * len)%nat ->
  caml_deserialize_block_float_8 len (caml_serialize_block_float_8 data len ++ rest) = Ok (data, rest).
Proof.
  intros Hl. unfold caml_serialize_block_float_8, caml_deserialize_block_float_8. rewrite firstn_all2 by lia. by apply split_input_app.
Qed.

(** A double is not: it is written with its bytes reversed, like an integer, and
    read as a block of doubles is, without reversing them. *)
Lemma float_8_reversed d rest : 0 <= d < 2 ^ 64 -> caml_deserialize_float_8 (caml_serialize_float_8 d ++ rest) = Ok (le_value (rev (le_bytes 8 d)), rest).
Proof.
  intros Hd. unfold caml_deserialize_float_8, caml_serialize_float_8, caml_serialize_block_8, caml_deserialize_block_float_8. rewrite reverse_one by apply length_le_bytes.
  change (8 * 1)%nat with 8%nat. rewrite split_input_app; [done|]. by rewrite length_rev, length_le_bytes.
Qed.
Example float_8_differs : caml_deserialize_float_8 (caml_serialize_float_8 0x3FF0000000000000) = Ok (0xF03F, []).
Proof. reflexivity. Qed.
