(* ===== verification/CamlExternOk.v ===== *)
(** Output of values: the marks and the trail, the buffers, and that what is
    written is the encoding of the value. *)
From stdpp Require Import base gmap list.
From Stdlib Require Import ZArith Lia.
From S2P Require Import Prelude CamlMemory CamlValues CamlIntext CamlIntextOk CamlExtern CamlGraph.
Open Scope Z_scope.

Section Extern.
Context `{CustomMarshal}.
Variable table : list Z.
Context `{!MarshalLaws table}.
Variable h : heap.
Variables objs outs : list Z.
Hypothesis S : source table h objs outs.
Variable code : code_area.
Variables (closures userprovided : bool).

Abbreviation hd_of := (hd_of h).
Abbreviation tag_of := (tag_of h).
Abbreviation wosize_of := (wosize_of h).
Abbreviation field_of := (field_of h).
Abbreviation value := (value h objs outs).
Abbreviation enc := (enc h code objs outs).
Abbreviation encs := (encs h code objs outs).

(** * Marked objects *)
Record marked (seen : list Z) (m : heap) : Prop := {
  mk_env : m = set_words h (words m);
  mk_same : forall a, (forall o, o ∈ seen -> a <> o / 8 - 1 /\ a <> o / 8) -> words m !! a = words h !! a;
  mk_mark : forall k o, seen !! k = Some o -> words m !! (o / 8 - 1) = Some (Bluehd_hd (hd_of o)) /\ words m !! (o / 8) = Some (Z.of_nat k)
}.

Lemma ob o : o ∈ objs -> object table h objs outs o.
Proof. apply (so_object _ _ _ _ S). Qed.

Lemma hd_word o : o ∈ objs -> words h !! (o / 8 - 1) = Some (hd_of o) /\ 0 <= hd_of o < 2 ^ 64.
Proof.
  intros Ho. pose proof (ob_size _ _ _ _ _ (ob o Ho)) as Hs. destruct (ob_words _ _ _ _ _ (ob o Ho) (-1) ltac:(lia)) as (w & Hw & Hr).
  unfold CamlGraph.hd_of. replace (o / 8 - 1) with (o / 8 + -1) by lia. by rewrite Hw.
Qed.
Lemma field_word o i : o ∈ objs -> 0 <= i < wosize_of o -> words h !! (o / 8 + i) = Some (u64 (field_of o i)) /\ in_s 64 (field_of o i).
Proof.
  intros Ho Hi. destruct (ob_words _ _ _ _ _ (ob o Ho) i ltac:(lia)) as (w & Hw & Hr). unfold CamlGraph.field_of. rewrite Hw. cbn [default].
  split; [by rewrite u64_s64|apply s64_range].
Qed.
Lemma wosize_bound o : o ∈ objs -> 0 < wosize_of o < 2 ^ 54.
Proof. intros Ho. split; [apply (ob_size _ _ _ _ _ (ob o Ho))|]. apply Wosize_bound, hd_word, Ho. Qed.
Lemma addr o : o ∈ objs -> 8 <= o /\ o + 8 * wosize_of o <= 2 ^ 63 /\ o mod 8 = 0.
Proof. intros Ho. apply (ob_addr _ _ _ _ _ (ob o Ho)). Qed.

(** The words of two objects are apart. *)
Lemma apart o o' a : o ∈ objs -> o' ∈ objs -> o / 8 - 1 <= a < o / 8 + wosize_of o -> o' / 8 - 1 <= a < o' / 8 + wosize_of o' -> o = o'.
Proof.
  intros Ho Ho' Ha Ha'. destruct (decide (o = o')) as [|Hne]; [done|]. destruct (so_apart _ _ _ _ S _ _ Ho Ho' Hne); lia.
Qed.

Section Marked.
Variables (seen : list Z) (m : heap).
Hypothesis M : marked seen m.
Hypothesis sub : forall o, o ∈ seen -> o ∈ objs.

Lemma m_fresh o i : o ∈ objs -> o ∉ seen -> -1 <= i < wosize_of o -> words m !! (o / 8 + i) = words h !! (o / 8 + i).
Proof.
  intros Ho Hn Hi. apply (mk_same _ _ M). intros o' Ho'. pose proof (wosize_bound o' (sub _ Ho')). pose proof (wosize_bound o Ho).
  split; intros E; assert (o = o') as -> by (apply (apart o o' (o / 8 + i)); auto; lia); done.
Qed.
Lemma m_field o i : o ∈ objs -> 1 <= i < wosize_of o -> words m !! (o / 8 + i) = words h !! (o / 8 + i).
Proof.
  intros Ho Hi. apply (mk_same _ _ M). intros o' Ho'. pose proof (wosize_bound o' (sub _ Ho')).
  split; intros E; assert (o = o') as -> by (apply (apart o o' (o / 8 + i)); auto; lia); lia.
Qed.
Lemma m_known v : known m v = known h v.
Proof. by rewrite (mk_env _ _ M). Qed.

(** The header read in the marked heap. *)
Definition mhd (o : Z) : Z := if bool_decide (o ∈ seen) then Bluehd_hd (hd_of o) else hd_of o.
Lemma m_hd o : o ∈ objs -> Hd_val m o = Ok (mhd o).
Proof.
  intros Ho. pose proof (addr o Ho) as (A1 & A2 & A3). pose proof (wosize_bound o Ho). rewrite Hd_val_word by lia. apply rd_some. unfold mhd.
  case_bool_decide as E.
  - apply list_elem_of_lookup in E as [k Hk]. apply (mk_mark _ _ M k o Hk).
  - replace (o / 8 - 1) with (o / 8 + -1) by lia. rewrite m_fresh by (done || lia). replace (o / 8 + -1) with (o / 8 - 1) by lia. by apply hd_word.
Qed.
Lemma mhd_tag o : Tag_hd (mhd o) = tag_of o.
Proof. unfold mhd, CamlGraph.tag_of. case_bool_decide; [apply Tag_blue|done]. Qed.
Lemma mhd_wosize o : o ∈ objs -> Wosize_hd (mhd o) = wosize_of o.
Proof. intros Ho. unfold mhd, CamlGraph.wosize_of. case_bool_decide; [apply Wosize_blue', hd_word, Ho|done]. Qed.
Lemma mhd_fresh o : o ∉ seen -> mhd o = hd_of o.
Proof. intros. unfold mhd. by rewrite bool_decide_eq_false_2. Qed.

Lemma m_Field o i : o ∈ objs -> 0 <= i < wosize_of o -> o ∉ seen \/ 1 <= i -> Field m o i = Ok (field_of o i).
Proof.
  intros Ho Hi Hs. pose proof (addr o Ho) as (A1 & A2 & A3). rewrite Field_ok by lia.
  assert (words m !! (o / 8 + i) = words h !! (o / 8 + i)) as E by (destruct Hs; [apply m_fresh; auto; lia|apply m_field; auto; lia]).
  destruct (field_word o i Ho Hi) as [Hw Hr]. rewrite Hw in E. rewrite (rd_some _ _ _ E). cbn. by rewrite s64_u64.
Qed.
Lemma m_index o k : seen !! k = Some o -> Field m o 0 = Ok (s64 (Z.of_nat k)).
Proof.
  intros Hk. assert (o ∈ objs) as Ho by (by eapply sub, list_elem_of_lookup_2). pose proof (addr o Ho) as (A1 & A2 & A3). pose proof (wosize_bound o Ho).
  rewrite Field_ok by lia. rewrite Z.add_0_r. by rewrite (rd_some _ _ _ (proj2 (mk_mark _ _ M k o Hk))).
Qed.

(** Headers of atoms and inside closures are not marked. *)
Lemma m_atom v : atom h objs v -> Hd_val m v = Ok (hd_of v).
Proof.
  intros (t & _ & _ & _ & Hr & Hm & _ & _ & _ & [w Hw] & Hn). rewrite Hd_val_word by lia. apply rd_some.
  rewrite (mk_same _ _ M); [unfold CamlGraph.hd_of; by rewrite Hw|]. intros o Ho. apply Hn, sub, Ho.
Qed.
Lemma m_infix v : infix h objs v -> Hd_val m v = Ok (hd_of v).
Proof.
  intros (o & off & Ho & _ & -> & Hm & Hoff & Hle & _). pose proof (addr o Ho) as (A1 & A2 & A3).
  assert ((o + off) / 8 - 1 = o / 8 + (off / 8 - 1)) as E by zdiv. assert (1 <= off / 8 - 1 < wosize_of o) as Hi by (split; zdiv).
  rewrite Hd_val_word; [|lia|zdiv]. apply rd_some. unfold CamlGraph.hd_of. rewrite E, m_field by done.
  by destruct (field_word o (off / 8 - 1) Ho ltac:(lia)) as [-> _].
Qed.

(** Following forward pointers is not affected. *)
Lemma m_keeps f : value f -> keeps_forward h f = Ok false -> keeps_forward m f = Ok false.
Proof.
  intros [_ Hv]. assert (forall b, b = hd_of f -> Tag_hd b = tag_of f) as Hh by (by intros ? ->).
  unfold keeps_forward. rewrite (mk_env _ _ M). change (Is_young (set_words h (words m)) f) with (Is_young h f). change (Is_in_heap (set_words h (words m)) f) with (Is_in_heap h f).
  rewrite <- (mk_env _ _ M). destruct (Is_block f && _) eqn:E; [|done]. unfold Tag_val. rewrite !bind_Ok. intros (t & Ht & Hk). exists t. split; [|done].
  apply bind_Ok in Ht as (hd & Hhd & [= <-]). apply bind_Ok. destruct Hv as [Hl|[Ho|[Ha|[Hi|Ho]]]].
  - unfold Is_block in E. unfold Is_long in Hl. zbool. lia.
  - exists (mhd f). split; [by apply m_hd|]. rewrite mhd_tag. unfold CamlGraph.tag_of. do 2 f_equal. pose proof (addr f Ho) as (A1 & A2 & A3). pose proof (wosize_bound f Ho). rewrite Hd_val_word in Hhd by lia.
    rewrite (rd_some _ _ _ (proj1 (hd_word f Ho))) in Hhd. by injection Hhd.
  - exists (hd_of f). split; [by apply m_atom|]. do 2 f_equal. destruct Ha as (? & _ & _ & _ & Hr & Hm & _ & _ & _ & [w Hw] & _). rewrite Hd_val_word, (rd_some _ _ _ Hw) in Hhd by lia.
    injection Hhd as <-. unfold CamlGraph.hd_of. by rewrite Hw.
  - exists (hd_of f). split; [by apply m_infix|]. do 2 f_equal. destruct Hi as (o & off & Ho & _ & -> & Hm & Hoff & Hle & _). pose proof (addr o Ho) as (A1 & A2 & A3).
    rewrite Hd_val_word in Hhd; [|lia|zdiv]. unfold rd, CamlGraph.hd_of in *. destruct (words h !! _); [by injection Hhd as <-|done].
  - destruct (so_out _ _ _ _ S f Ho) as (_ & _ & Hk'). unfold known in Hk'. apply orb_false_iff in Hk' as [[_ Hy]%orb_false_iff Hh']. rewrite Hy, Hh' in E. by rewrite andb_false_r in E.
Qed.

(** The contents of a block that is not marked. *)
Lemma m_string o : o ∈ objs -> o ∉ seen -> caml_string_length m o = caml_string_length h o.
Proof.
  intros Ho Hn. pose proof (addr o Ho) as (A1 & A2 & A3). pose proof (wosize_bound o Ho). unfold caml_string_length, Bosize_val, Wosize_val.
  rewrite m_hd, (mhd_fresh o Hn) by done. rewrite (Hd_val_word h), (rd_some _ _ _ (proj1 (hd_word o Ho))) by lia. cbn [bind].
  change (Wosize_hd (hd_of o)) with (wosize_of o). rewrite (wrap_small 64 (wosize_of o * 8)), (wrap_small 64) by lia.
  unfold Byte, byte_at, rd. rewrite (wrap_small 64) by lia.
  assert ((o + (wosize_of o * 8 - 1)) / 8 = o / 8 + (wosize_of o - 1)) as -> by zdiv. by rewrite m_fresh by (done || lia).
Qed.
Lemma m_bytes o n : o ∈ objs -> o ∉ seen -> Z.of_nat n <= 8 * wosize_of o -> get_bytes m o n = get_bytes h o n.
Proof.
  intros Ho Hn Hle. pose proof (addr o Ho) as (A1 & A2 & A3). apply get_bytes_ext; [lia|lia|]. intros j Hj.
  assert ((o + j) / 8 = o / 8 + j / 8) as -> by zdiv. apply m_fresh; [done|done|zdiv].
Qed.
End Marked.

Lemma block_bytes o n : o ∈ objs -> Z.of_nat n <= 8 * wosize_of o -> exists bs, get_bytes h o n = Ok bs /\ length bs = n.
Proof.
  intros Ho Hle. pose proof (addr o Ho) as (A1 & A2 & A3). destruct (get_bytes_ok h o n) as (bs & Hb & Hl & _); [lia|lia| |by exists bs].
  intros j Hj. assert ((o + j) / 8 = o / 8 + j / 8) as -> by zdiv. destruct (field_word o (j / 8) Ho) as [-> _]; [zdiv|done].
Qed.

(** * The trail *)
Definition entry_of (o : Z) : trail_entry := mkTrail (Z.lor o (Colornum_hd (hd_of o))) (field_of o 0).

(** [m] is [h] but for the two marked words of each of [l]. *)
Definition touched (m : heap) (l : list Z) : Prop :=
  m = set_words h (words m) /\
  (forall a, (forall o, o ∈ l -> a <> o / 8 - 1 /\ a <> o / 8) -> words m !! a = words h !! a) /\
  forall o, o ∈ l -> words m !! (o / 8 - 1) = Some (Bluehd_hd (hd_of o)) /\ is_Some (words m !! (o / 8)).

Lemma marked_touched seen m : marked seen m -> touched m seen.
Proof.
  intros M. split_and!; [apply (mk_env _ _ M)|apply (mk_same _ _ M)|]. intros o [k Hk]%list_elem_of_lookup. destruct (mk_mark _ _ M k o Hk) as [? ->]. done.
Qed.

Lemma heads_apart o o' : o ∈ objs -> o' ∈ objs -> o <> o' -> o / 8 - 1 <> o' / 8 - 1 /\ o / 8 - 1 <> o' / 8 /\ o / 8 <> o' / 8 - 1 /\ o / 8 <> o' / 8.
Proof.
  intros Ho Ho' Hne. pose proof (wosize_bound o Ho). pose proof (wosize_bound o' Ho'). destruct (so_apart _ _ _ _ S _ _ Ho Ho' Hne); lia.
Qed.

Lemma restore_entry_ok m o l : touched m (o :: l) -> o ∉ l -> (forall x, x ∈ o :: l -> x ∈ objs) ->
  exists m', restore_entry m (entry_of o) = Ok m' /\ touched m' l.
Proof.
  intros (He & Hs & Hm) Hn Hsub. pose proof (Hsub o ltac:(left)) as Ho. pose proof (addr o Ho) as (A1 & A2 & A3). pose proof (wosize_bound o Ho).
  destruct (packed o (Colornum_hd (hd_of o)) (Colornum_range _) A3) as [E1 E2]. unfold restore_entry, entry_of. cbn [te_obj te_field0]. rewrite E1, E2.
  destruct (Hm o ltac:(left)) as [Hhd Hf]. rewrite Hd_val_word, (rd_some _ _ _ Hhd) by lia. cbn [bind].
  rewrite set_Hd_ok by (done || lia). cbn [bind]. rewrite Colored_blue by apply hd_word, Ho.
  rewrite set_Field_ok; [|lia|done|rewrite Z.add_0_r; apply lookup_insert_is_Some'; by right]. rewrite Z.add_0_r, words_set, set_words_twice.
  eexists. split; [done|]. split_and!.
  - rewrite He. by rewrite !set_words_twice.
  - intros a Ha. rewrite words_set. destruct (decide (a = o / 8)) as [->|Hne].
    { rewrite lookup_insert_eq. destruct (field_word o 0 Ho ltac:(lia)) as [Hw _]. by rewrite Z.add_0_r in Hw. }
    rewrite lookup_insert_ne by done. destruct (decide (a = o / 8 - 1)) as [->|Hne'].
    { rewrite lookup_insert_eq. symmetry. apply hd_word, Ho. }
    rewrite lookup_insert_ne by done. apply Hs. intros x [->|Hx]%elem_of_cons; [done|by apply Ha].
  - intros x Hx. assert (o <> x) as Hne by (by intros ->). destruct (heads_apart o x Ho (Hsub x ltac:(by right)) Hne) as (N1 & N2 & N3 & N4).
    rewrite words_set, !lookup_insert_ne by done. apply Hm. by right.
Qed.

Lemma restore_entries_ok l m : touched m l -> NoDup l -> (forall x, x ∈ l -> x ∈ objs) -> restore_entries m (entry_of <$> l) = Ok h.
Proof.
  revert m. induction l as [|o l IH]; intros m Ht Hd Hsub; cbn.
  - destruct Ht as (-> & Hs & _). f_equal. assert (words m = words h) as ->; [|apply set_words_same]. apply map_eq. intros a. apply Hs. intros o Ho. by apply not_elem_of_nil in Ho.
  - apply NoDup_cons in Hd as [Hn Hd]. destruct (restore_entry_ok m o l Ht Hn Hsub) as (m' & -> & Ht'). cbn [bind]. apply IH; [done|done|]. intros x Hx. apply Hsub. by right.
Qed.

Lemma restore_entries_app m es es' : restore_entries m (es ++ es') = (m <- restore_entries m es; restore_entries m es').
Proof. revert m. induction es as [|e es IH]; intros m; cbn; [done|]. destruct (restore_entry m e); cbn; [apply IH|done|done]. Qed.
Lemma restore_blocks_concat m blks : restore_blocks m blks = restore_entries m (concat blks).
Proof.
  revert m. induction blks as [|b blks IH]; intros m; cbn; [done|]. rewrite restore_entries_app. destruct (restore_entries m b); cbn; [apply IH|done|done].
Qed.

(** Replaying the trail, in whatever order its blocks are, gives the heap back. *)
Lemma replay_ok s seen : marked seen (x_heap s) -> NoDup seen -> (forall o, o ∈ seen -> o ∈ objs) ->
  extern_trail_block s ++ concat (extern_trail_previous s) ≡ₚ entry_of <$> seen ->
  extern_replay_trail s = Ok (init_extern_trail (set_heap s h)).
Proof.
  intros Hm Hd Hsub Hp. unfold extern_replay_trail. rewrite restore_blocks_concat. cbn [concat].
  apply Permutation_map_inv in Hp as (l & -> & Hl). rewrite restore_entries_ok; [done| | |].
  - apply marked_touched in Hm as (He & Hs & Hk). split_and!; [done| |].
    + intros a Ha. apply Hs. intros o Ho. apply Ha. by rewrite <- Hl.
    + intros o Ho. apply Hk. by rewrite Hl.
  - by rewrite <- Hl.
  - intros x Hx. apply Hsub. by rewrite Hl.
Qed.
End Extern.
