(* ===== verification/CamlExternRun.v ===== *)
(** Output of values: the steps of the traversal, and the traversal.  Every step
    either goes on with the marks, the trail and the sizes in order, or stops
    with an error that has a cause in the graph and the heap as it was.

    Output of values: what an output function writes for a well-formed graph,
    why it may fail, and that the heap is the same in every case. *)
From stdpp Require Import base gmap list.
From Stdlib Require Import ZArith Lia.
From S2P Require Import Prelude CamlMemory CamlValues CamlIntext CamlIntextOk CamlExtern CamlGraph CamlExternOk.
Open Scope Z_scope.


Section Extern.
Context `{CustomMarshal}.
Variable table : list Z.
Context `{!MarshalLaws table}.
Variable h : heap.
Variables objs outs : list Z.
Hypothesis S : source table h objs outs.
Variable code : code_area.
Variables (closures userprovided : bool).
(** The size of the buffer of the user. *)
Variable cap : Z.

Abbreviation hd_of := (hd_of h).
Abbreviation tag_of := (tag_of h).
Abbreviation wosize_of := (wosize_of h).
Abbreviation field_of := (field_of h).
Abbreviation value := (value h objs outs).
Abbreviation enc := (enc h code objs outs).
Abbreviation encs := (encs h code objs outs).
Abbreviation marked := (marked h).
Abbreviation extern_rec := (extern_rec code false closures userprovided).

(** Why output may fail. *)
Definition in_code (v : Z) : Prop := caml_code_area_start code <= u64 v < caml_code_area_end code.
Definition cause (e : string) : Prop :=
  (e = buffer_overflow /\ userprovided = true) \/
  (e = abstract_Abstract /\ exists o, o ∈ objs /\ tag_of o = Abstract_tag) \/
  (e = abstract_Custom /\ exists o, o ∈ objs /\ tag_of o = Custom_tag /\ custom_serialize (field_of o 0) = None) \/
  (e = functional /\ closures = false /\ exists v, v ∈ outs /\ in_code v) \/
  (e = outside_heap /\ exists v, v ∈ outs /\ ~ in_code v).

Definition runs {A} (P : A -> xstate -> Prop) (r : res A * xstate) : Prop :=
  match r with
  | (Ok a, s) => P a s
  | (Err e, s) => cause e /\ x_heap s = h
  | (Timeout, _) => False
  end.

Lemma then_assoc {A B C} (m : extern A) (k : A -> extern B) (k' : B -> extern C) s : then_ (then_ m k) k' s = then_ m (fun a => then_ (k a) k') s.
Proof. unfold then_. by destruct (m s) as [[]]. Qed.
Lemma runs_then {A B} (P : A -> xstate -> Prop) (Q : B -> xstate -> Prop) m k s :
  runs P (m s) -> (forall a s', P a s' -> runs Q (k a s')) -> runs Q (then_ m k s).
Proof. unfold then_. destruct (m s) as [[a|e|] s']; cbn; auto. Qed.
Lemma runs_look {A B} (f : xstate -> res A) a (Q : B -> xstate -> Prop) k s : f s = Ok a -> runs Q (k a s) -> runs Q (then_ (look f) k s).
Proof. intros E Hk. unfold then_, look. by rewrite E. Qed.
Lemma runs_change {B} (f : xstate -> res xstate) s' (Q : B -> xstate -> Prop) k s : f s = Ok s' -> runs Q (k tt s') -> runs Q (then_ (change f) k s).
Proof. intros E Hk. unfold then_, change. by rewrite E. Qed.
Lemma runs_weaken {A} (P Q : A -> xstate -> Prop) r : runs P r -> (forall a s, P a s -> Q a s) -> runs Q r.
Proof. destruct r as [[a|e|] s]; cbn; auto. Qed.

(** * The state of the traversal *)
Definition first_buffer (s : xstate) : bytes := match extern_output s with [] => extern_block s | b :: _ => b end.

(** The magic number and room for the sizes. *)
Definition start_bytes : bytes := be_bytes 4 Intext_magic_number ++ replicate 16 0.

(** A buffer of the user is not exceeded (but for the sizes, which are skipped
    before the next write). *)
Definition fits (s : xstate) : Prop := userprovided = true ->
  extern_output s = [] /\ extern_room s = cap /\ (extern_block s = [] \/ extern_block s = start_bytes \/ blen (extern_block s) <= cap).

(** The objects [seen] are marked and on the trail, [n] is the size of the
    copies so far, and the output starts with [p]. *)
Record xrep (p : bytes) (seen : list Z) (n : Z) (s : xstate) : Prop := {
  xr_mark : marked seen (x_heap s);
  xr_nodup : NoDup seen;
  xr_sub : forall o, o ∈ seen -> o ∈ objs;
  xr_follow : forall o, o ∈ seen -> tag_of o <> Forward_tag;
  xr_count : obj_counter s = Z.of_nat (length seen);
  xr_size : size_64 s = u64 n;
  xr_trail : extern_trail_block s ++ concat (extern_trail_previous s) ≡ₚ entry_of h <$> seen;
  xr_first : p `prefix_of` first_buffer s;
  xr_fits : fits s
}.

Lemma whsizes_cons o l : whsizes h (o :: l) = 1 + wosize_of o + whsizes h l.
Proof. done. Qed.
Lemma whsizes_app l l' : whsizes h (l ++ l') = whsizes h l + whsizes h l'.
Proof. induction l as [|o l IH]; [done|]. cbn [app]. rewrite !whsizes_cons, IH. lia. Qed.
Lemma whsizes_perm l l' : l ≡ₚ l' -> whsizes h l = whsizes h l'.
Proof. induction 1; rewrite ?whsizes_cons in *; lia. Qed.
Lemma whsizes_nonneg l : (forall o, o ∈ l -> o ∈ objs) -> 2 * Z.of_nat (length l) <= whsizes h l.
Proof.
  induction l as [|o l IH]; intros Hl; [done|]. rewrite whsizes_cons. pose proof (wosize_bound table h objs outs S o (Hl o ltac:(left))).
  specialize (IH (fun x Hx => Hl x (list_elem_of_further _ _ _ Hx))). cbn [length]. lia.
Qed.

(** Distinct objects of the graph: less than the graph. *)
Lemma seen_bound l : NoDup l -> (forall o, o ∈ l -> o ∈ objs) -> 2 * Z.of_nat (length l) <= whsizes h l < 2 ^ 62 /\ (length l <= length objs)%nat.
Proof.
  intros Hd Hs. assert (l ⊆+ objs) as [k Hk]%submseteq_Permutation.
  { apply NoDup_submseteq; [done|]. intros x. apply Hs. }
  pose proof (so_small _ _ _ _ S) as Hsm. rewrite (whsizes_perm _ _ Hk), whsizes_app in Hsm.
  assert (0 <= whsizes h k). { assert (forall o, o ∈ k -> o ∈ objs) as Hko by (intros o Ho; rewrite Hk; set_solver). pose proof (whsizes_nonneg k Hko). lia. }
  pose proof (whsizes_nonneg l Hs). split; [lia|]. apply Permutation_length in Hk. rewrite Hk, length_app. lia.
Qed.

Lemma xr_fresh p seen n s o : xrep p seen n s -> o ∈ objs -> o ∉ seen -> (length seen < length objs)%nat.
Proof.
  intros X Ho Hn. destruct (seen_bound (seen ++ [o])) as [_ Hl].
  - apply NoDup_app. split_and!; [apply (xr_nodup _ _ _ _ X)|set_solver|apply NoDup_singleton].
  - intros x [Hx| ->%list_elem_of_singleton]%elem_of_app; [by apply (xr_sub _ _ _ _ X)|done].
  - rewrite length_app in Hl. cbn in Hl. lia.
Qed.

(** * Writing *)
Lemma replay_runs p seen n s : xrep p seen n s -> extern_replay_trail s = Ok (init_extern_trail (set_heap s h)).
Proof. intros X. eapply replay_ok; [exact S|apply X..]. Qed.

Lemma raise_runs {A} (P : A -> xstate -> Prop) p seen n s e : xrep p seen n s -> cause e -> runs P (raise e s).
Proof. intros X Hc. unfold raise. eapply runs_change; [by eapply replay_runs|]. done. Qed.
Lemma invalid_runs {A} (P : A -> xstate -> Prop) p seen n s e : xrep p seen n s -> cause e -> runs P (extern_invalid_argument userprovided e s).
Proof.
  intros X Hc. unfold extern_invalid_argument. eapply runs_change; [by eapply replay_runs|]. eapply runs_change; [done|]. split; [done|].
  unfold free_extern_output. by destruct userprovided.
Qed.

Definition wrote p seen n (s : xstate) (bs : bytes) : unit -> xstate -> Prop := fun _ s' =>
  xrep p seen n s' /\ extern_bytes s' = extern_bytes s ++ bs /\ x_heap s' = x_heap s.

Lemma put_runs p seen n s bs : xrep p seen n s -> runs (wrote p seen n s bs) (put userprovided bs s).
Proof.
  intros X. unfold put. destruct (_ <? _) eqn:Eroom.
  - unfold grow_extern_output. case_eq userprovided; intros Hu; rewrite ?Hu.
    + eapply runs_then; [eapply (raise_runs (fun _ _ => False)); [done|left; by rewrite Hu]|done].
    + unfold then_ at 1. cbn. split_and!; [|unfold extern_bytes; cbn; rewrite concat_app; cbn; by rewrite app_nil_r|done].
      destruct X; split; try done; [|intros Hu'; congruence]. cbn. unfold first_buffer in *. cbn. destruct (extern_output s); cbn; done.
  - cbn. split_and!; [|unfold extern_bytes; cbn; by rewrite app_assoc|done]. zbool.
    destruct X as [X1 X2 X3 X3' X4 X5 X6 X7 X8]; split; try done.
    + unfold first_buffer in *. cbn. destruct (extern_output s); cbn; [by apply prefix_app_r|done].
    + intros Hu. destruct (X8 Hu) as (? & Hc & _). cbn. split_and!; [done|done|]. right; right. rewrite <- Hc. unfold blen in *. rewrite length_app. lia.
Qed.

(** A write and what follows. *)
Lemma put_then {B} p seen n s bs (Q : B -> xstate -> Prop) k :
  xrep p seen n s -> (forall s', wrote p seen n s bs tt s' -> runs Q (k tt s')) -> runs Q (then_ (put userprovided bs) k s).
Proof. intros X Hk. eapply runs_then; [by apply put_runs|]. intros [] s' Hs'. by apply Hk. Qed.

Lemma put_all_runs p seen n s ws : xrep p seen n s -> runs (wrote p seen n s (concat ws)) (put_all userprovided ws s).
Proof.
  revert s. induction ws as [|w ws IH]; intros s X; cbn [put_all concat].
  - cbn. unfold wrote. by rewrite app_nil_r.
  - eapply put_then; [done|]. intros s1 (X1 & B1 & E1). eapply runs_weaken; [by apply IH|]. intros [] s2 (X2 & B2 & E2). split_and!; [done| |congruence].
    by rewrite B2, B1, app_assoc.
Qed.

(** What the functions on integers write. *)
Lemma extern_int_put n : extern_int userprovided n = put userprovided (int_bytes n).
Proof. unfold extern_int, int_bytes. repeat destruct (_ && _); try done. by destruct (_ || _). Qed.
Lemma extern_atom_put tag hd : extern_atom userprovided tag hd = put userprovided (atom_bytes tag hd).
Proof. unfold extern_atom, atom_bytes. by destruct (_ <? _). Qed.
Lemma extern_header_put hd : extern_header userprovided hd = put userprovided (header_bytes hd).
Proof. unfold extern_header, header_bytes. destruct (_ && _); [done|]. by destruct (_ <=? _). Qed.

(** * Sizes and records *)
Lemma add_sizes_runs {B} p seen n s d32 d64 (Q : B -> xstate -> Prop) k :
  xrep p seen n s ->
  (forall s', xrep p seen (n + d64) s' -> x_heap s' = x_heap s -> extern_bytes s' = extern_bytes s -> runs Q (k tt s')) ->
  runs Q (then_ (add_sizes d32 d64) k s).
Proof.
  intros X Hk. unfold add_sizes. eapply runs_change; [done|]. apply Hk; [|done|done]. destruct X as [X1 X2 X3 X3' X4 X5 X6 X7 X8]; split; try done. cbn. by rewrite X5, wrap_add_l.
Qed.

(** An object is marked and goes on the trail. *)
Lemma record_runs p seen n s o : xrep p seen n s -> o ∈ objs -> o ∉ seen -> tag_of o <> Forward_tag ->
  runs (fun _ s' => xrep p (seen ++ [o]) n s' /\ extern_bytes s' = extern_bytes s) (extern_record_location false o s).
Proof.
  intros X Ho Hn Hf. pose proof (addr table h objs outs S o Ho) as (A1 & A2 & A3). pose proof (wosize_bound table h objs outs S o Ho).
  pose proof (xr_mark _ _ _ _ X) as M. pose proof (xr_sub _ _ _ _ X) as sub. pose proof (seen_bound seen (xr_nodup _ _ _ _ X) sub) as [Hb _].
  unfold extern_record_location, runs, change.
  set (blks := if Z.of_nat (length (extern_trail_block s)) =? ENTRIES_PER_TRAIL_BLOCK then ([], extern_trail_block s :: extern_trail_previous s)
               else (extern_trail_block s, extern_trail_previous s)).
  assert (blks.1 ++ concat blks.2 ≡ₚ entry_of h <$> seen) as Hp.
  { unfold blks. destruct (_ =? _); cbn; apply (xr_trail _ _ _ _ X). }
  destruct blks as [blk prev]. cbn [fst snd] in Hp.
  rewrite (m_hd table h objs outs S seen _ M sub o Ho), (mhd_fresh h seen o Hn). cbn [bind].
  rewrite (m_Field table h objs outs S seen _ M sub o 0 Ho) by (lia || by left). cbn [bind].
  pose proof (hd_word table h objs outs S o Ho) as [Hhd Hhr].
  assert (words (x_heap s) !! (o / 8 - 1) = Some (hd_of o)) as Hw.
  { replace (o / 8 - 1) with (o / 8 + -1) in * by lia. by rewrite (m_fresh table h objs outs S seen _ M sub) by (done || lia). }
  rewrite set_Hd_ok by (done || lia). cbn [bind]. rewrite set_Field_ok; [|lia|done|].
  2: { rewrite Z.add_0_r. apply lookup_insert_is_Some'. right. rewrite <- (Z.add_0_r (o / 8)).
       rewrite (m_fresh table h objs outs S seen _ M sub) by (done || lia). by destruct (field_word table h objs outs S o 0 Ho ltac:(lia)) as [-> _]. }
  cbn [bind]. rewrite Z.add_0_r, words_set, set_words_twice, (xr_count _ _ _ _ X), (wrap_small 64 (Z.of_nat _)) by lia.
  split; [|done]. split.
  - split; cbn [x_heap set_sizes set_trail set_heap].
    + rewrite (mk_env _ _ _ M). by rewrite set_words_twice.
    + intros a Ha. rewrite words_set. destruct (Ha o) as [N1 N2]; [set_solver|]. rewrite !lookup_insert_ne by done. apply (mk_same _ _ _ M). intros x Hx. apply Ha. set_solver.
    + intros k x Hk. rewrite words_set. apply lookup_app_Some in Hk as [Hk|[Hl Hk]].
      * assert (x ∈ seen) as Hx by by eapply list_elem_of_lookup_2. assert (o <> x) as Hne by (by intros ->).
        destruct (heads_apart table h objs outs S o x Ho (sub _ Hx) Hne) as (N1 & N2 & N3 & N4). rewrite !lookup_insert_ne by done. by apply (mk_mark _ _ _ M).
      * apply list_lookup_singleton_Some in Hk as [Hk <-]. assert (k = length seen) as -> by lia.
        rewrite lookup_insert_ne, !lookup_insert_eq by lia. done.
  - apply NoDup_app. split_and!; [apply X|set_solver|apply NoDup_singleton].
  - intros x [Hx| ->%list_elem_of_singleton]%elem_of_app; [by apply sub|done].
  - intros x [Hx| ->%list_elem_of_singleton]%elem_of_app; [by apply (xr_follow _ _ _ _ X)|done].
  - cbn. rewrite length_app, (wrap_small 64) by lia. cbn. lia.
  - apply (xr_size _ _ _ _ X).
  - cbn. rewrite fmap_app, <- Hp. cbn. rewrite <- !app_assoc. apply Permutation_app_head. apply Permutation_app_comm.
  - apply (xr_first _ _ _ _ X).
  - apply (xr_fits _ _ _ _ X).
Qed.

(** * Values without fields *)
Definition emitted p seen (s : xstate) (v : Z) : unit -> xstate -> Prop := fun _ s' => exists bs seen',
  enc seen v bs seen' /\ xrep p seen' (whsizes h seen') s' /\ extern_bytes s' = extern_bytes s ++ bs /\ seen `prefix_of` seen'.

Lemma put_emitted p seen s v bs : xrep p seen (whsizes h seen) s -> enc seen v bs seen -> runs (emitted p seen s v) (put userprovided bs s).
Proof. intros X He. eapply runs_weaken; [by apply put_runs|]. intros [] s' (X' & B & _). exists bs, seen. done. Qed.

Lemma writeblock_then {B} p seen n s hp v len bs (Q : B -> xstate -> Prop) k :
  xrep p seen n s -> get_bytes hp v (Z.to_nat len) = Ok bs -> (forall s', wrote p seen n s bs tt s' -> runs Q (k tt s')) ->
  runs Q (then_ (writeblock userprovided hp v len) k s).
Proof.
  intros X Hb Hk. eapply runs_then; [|intros [] s' Hs'; by apply Hk, Hs']. unfold writeblock. eapply runs_look; [done|]. by apply put_runs.
Qed.

(** The end of a leaf: the sizes and the mark. *)
Lemma leaf_runs p seen s s' v bs d32 d64 :
  v ∈ objs -> v ∉ seen -> tag_of v <> Forward_tag -> leaf h v bs -> d64 = 1 + wosize_of v ->
  xrep p seen (whsizes h seen) s' -> extern_bytes s' = extern_bytes s ++ bs ->
  runs (emitted p seen s v) (then_ (add_sizes d32 d64) (fun _ => extern_record_location false v) s').
Proof.
  intros Ho Hn Hf Hl -> X B. eapply add_sizes_runs; [done|]. intros s2 X2 E2 B2. eapply runs_weaken; [by apply record_runs|].
  intros [] s3 [X3 B3]. exists bs, (seen ++ [v]). split_and!; [by apply enc_leaf| | |by apply prefix_app_r].
  - assert (whsizes h (seen ++ [v]) = whsizes h seen + (1 + wosize_of v)) as ->; [|done]. rewrite whsizes_app, whsizes_cons. cbn. lia.
  - by rewrite B3, B2.
Qed.

Section Leaves.
Variables (p : bytes) (seen : list Z) (s : xstate) (v : Z).
Hypothesis X : xrep p seen (whsizes h seen) s.
Hypothesis Ho : v ∈ objs.
Hypothesis Hn : v ∉ seen.

Lemma string_runs : tag_of v = String_tag -> runs (emitted p seen s v) (extern_string false userprovided v s).
Proof.
  intros Ht. destruct (ob_string _ _ _ _ _ (ob table h objs outs S v Ho) Ht) as (len & H0 & Hl & Hw).
  pose proof (xr_mark _ _ _ _ X) as M. pose proof (xr_sub _ _ _ _ X) as sub.
  destruct (block_bytes table h objs outs S v (Z.to_nat len) Ho) as (bs & Hb & Hlen); [rewrite Hw; zdiv|].
  unfold extern_string. eapply runs_look; [done|]. eapply runs_look; [rewrite (m_string table h objs outs S seen _ M sub v Ho Hn); exact Hl|].
  assert ((if len <? 0x20 then Write userprovided (PREFIX_SMALL_STRING + len)
   else if len <? 0x100 then writecode8 userprovided CODE_STRING8 len
   else writecode32 userprovided CODE_STRING32 len) = put userprovided (string_code len)) as -> by (unfold string_code; by repeat destruct (_ <? _)).
  eapply put_then; [done|]. intros s1 (X1 & B1 & E1).
  eapply writeblock_then; [done|rewrite (m_bytes table h objs outs S seen _ M sub v) by (done || rewrite Hw; zdiv); exact Hb|].
  intros s2 (X2 & B2 & E2). eapply leaf_runs; [done|done|by rewrite Ht|by eapply leaf_string|by rewrite Hw|done|]. by rewrite B2, B1, app_assoc.
Qed.

Lemma double_runs : tag_of v = Double_tag -> runs (emitted p seen s v) (extern_double false userprovided v s).
Proof.
  intros Ht. pose proof (ob_double _ _ _ _ _ (ob table h objs outs S v Ho) Ht) as Hw.
  pose proof (xr_mark _ _ _ _ X) as M. pose proof (xr_sub _ _ _ _ X) as sub.
  destruct (block_bytes table h objs outs S v 8 Ho) as (bs & Hb & Hlen); [by rewrite Hw|].
  unfold extern_double. eapply runs_look; [done|]. eapply put_then; [done|]. intros s1 (X1 & B1 & E1).
  eapply writeblock_then; [done|rewrite (m_bytes table h objs outs S seen _ M sub v) by (done || by rewrite Hw); exact Hb|].
  intros s2 (X2 & B2 & E2). eapply leaf_runs; [done|done|by rewrite Ht|by apply leaf_double|by rewrite Hw|done|]. by rewrite B2, B1, <- app_assoc.
Qed.

Lemma double_array_runs : tag_of v = Double_array_tag -> runs (emitted p seen s v) (extern_double_array false userprovided v s).
Proof.
  intros Ht. pose proof (xr_mark _ _ _ _ X) as M. pose proof (xr_sub _ _ _ _ X) as sub. pose proof (wosize_bound table h objs outs S v Ho).
  destruct (block_bytes table h objs outs S v (Z.to_nat (wosize_of v * 8)) Ho) as (bs & Hb & Hlen); [lia|].
  unfold extern_double_array. eapply runs_look; [done|].
  eapply (runs_look _ (wosize_of v)).
  { unfold Wosize_val. rewrite (m_hd table h objs outs S seen _ M sub v Ho). cbn [bind]. rewrite (mhd_wosize table h objs outs S) by done. unfold Double_wosize. by rewrite Z.div_1_r. }
  assert ((if wosize_of v <? 0x100 then writecode8 userprovided CODE_DOUBLE_ARRAY8_NATIVE (wosize_of v)
   else writecode32 userprovided CODE_DOUBLE_ARRAY32_NATIVE (wosize_of v)) = put userprovided (double_array_code (wosize_of v))) as -> by (unfold double_array_code; by destruct (_ <? _)).
  eapply put_then; [done|]. intros s1 (X1 & B1 & E1).
  eapply writeblock_then; [done|rewrite (m_bytes table h objs outs S seen _ M sub v) by (done || lia); exact Hb|].
  intros s2 (X2 & B2 & E2). eapply leaf_runs; [done|done|by rewrite Ht|by apply leaf_double_array|done|done|]. by rewrite B2, B1, app_assoc.
Qed.

Lemma custom_runs : tag_of v = Custom_tag -> runs (emitted p seen s v) (extern_custom false userprovided v s).
Proof.
  intros Ht. pose proof (xr_mark _ _ _ _ X) as M. pose proof (xr_sub _ _ _ _ X) as sub. pose proof (wosize_bound table h objs outs S v Ho).
  unfold extern_custom. eapply runs_look; [done|].
  eapply runs_look; [apply (m_Field table h objs outs S seen _ M sub v 0 Ho); [lia|by left]|].
  destruct (custom_serialize (field_of v 0)) as [ser|] eqn:Es.
  2: { eapply invalid_runs; [done|]. right; right; left. split; [done|]. by exists v. }
  destruct (ob_custom _ _ _ _ _ (ob table h objs outs S v Ho) Ht _ Es) as (Hin & ws & n32 & n64 & Hser & Hn0 & Hw).
  destruct (deserialize_serialize _ _ Hin Es _ _ _ _ _ Hser) as (Hr & _).
  eapply put_then; [done|]. intros s1 (X1 & B1 & E1). eapply put_then; [done|]. intros s2 (X2 & B2 & E2).
  eapply (runs_look _ (ws, n32, n64)).
  { rewrite <- Hser. eapply serialize_local; [done|done|done|]. intros i Hi. rewrite (m_Field table h objs outs S seen _ M sub v i Ho) by (lia || by left).
    symmetry. pose proof (addr table h objs outs S v Ho) as (A1 & A2 & A3). rewrite Field_ok by lia.
    destruct (field_word table h objs outs S v i Ho ltac:(lia)) as [Hf Hfr]. rewrite (rd_some _ _ _ Hf). cbn. by rewrite s64_u64. }
  eapply runs_then; [by apply put_all_runs|]. intros [] s3 (X3 & B3 & E3).
  eapply leaf_runs; [done|done|by rewrite Ht|by eapply leaf_custom| |done|].
  - rewrite Hw, (wrap_small 64), Z.shiftr_div_pow2 by lia. change (2 ^ 3) with 8. lia.
  - by rewrite B3, B2, B1, <- !app_assoc.
Qed.
End Leaves.

(** * The traversal *)
Definition rank (v : Z) : nat := if bool_decide (v ∈ objs) && (tag_of v =? Forward_tag) then 2 else if tag_of v =? Infix_tag then 1 else 0.
Definition room (seen : list Z) : nat := 3 * (length objs - length seen).
Arguments room : simpl never.

Lemma rank_le v : (rank v <= 2)%nat.
Proof. unfold rank. destruct (_ && _); [lia|]. destruct (_ =? _); lia. Qed.
Lemma room_prefix seen seen' : seen `prefix_of` seen' -> (room seen' <= room seen)%nat.
Proof. intros Hp%prefix_length. unfold room. lia. Qed.

(** [rec] writes the encoding of values for which [fuel] is enough. *)
Definition rec_ok (fuel : nat) (rec : Z -> extern unit) : Prop := forall p seen s v,
  xrep p seen (whsizes h seen) s -> value v -> (room seen + rank v < fuel)%nat -> runs (emitted p seen s v) (rec v s).

Definition emitteds p seen (s : xstate) (vs : list Z) : unit -> xstate -> Prop := fun _ s' => exists bs seen',
  encs seen vs bs seen' /\ xrep p seen' (whsizes h seen') s' /\ extern_bytes s' = extern_bytes s ++ bs /\ seen `prefix_of` seen'.

Lemma encs_app seen vs vs' bs bs' seen' seen'' : encs seen vs bs seen' -> encs seen' vs' bs' seen'' -> encs seen (vs ++ vs') (bs ++ bs') seen''.
Proof.
  revert seen bs. induction vs as [|v vs IH]; intros seen bs; inversion 1; subst; intros He; [done|]. cbn. rewrite <- app_assoc. eapply encs_cons; [done|]. by apply IH.
Qed.

(** One value, then more. *)
Lemma emitteds_then p seen s v vs m k :
  runs (emitted p seen s v) (m s) ->
  (forall seen1 s1, xrep p seen1 (whsizes h seen1) s1 -> seen `prefix_of` seen1 -> runs (emitteds p seen1 s1 vs) (k tt s1)) ->
  runs (emitteds p seen s (v :: vs)) (then_ m k s).
Proof.
  intros Hm Hk. eapply runs_then; [done|]. intros [] s1 (bs & seen1 & He & X1 & B1 & P1). eapply runs_weaken; [by apply Hk|].
  intros [] s2 (bs' & seen2 & He' & X2 & B2 & P2). exists (bs ++ bs'), seen2. split_and!; [by eapply encs_cons|done| |by etrans].
  by rewrite B2, B1, app_assoc.
Qed.
Lemma emitted_one p seen s v r : runs (emitted p seen s v) r -> runs (emitteds p seen s [v]) r.
Proof.
  intros Hr. eapply runs_weaken; [done|]. intros [] s1 (bs & seen1 & He & X1 & B1 & P1). exists (bs ++ []), seen1. rewrite !app_nil_r. split_and!; [|done..].
  rewrite <- (app_nil_r bs). eapply encs_cons; [done|apply encs_nil].
Qed.

Section Block.
Variables (fuel : nat) (rec : Z -> extern unit) (v : Z).
Hypothesis R : rec_ok fuel rec.
Hypothesis Ho : v ∈ objs.
Hypothesis Hs : scanned (tag_of v) = true.

Lemma field_runs p seen s i : xrep p seen (whsizes h seen) s -> (room seen + 2 < fuel)%nat -> 0 <= i < wosize_of v ->
  runs (emitted p seen s (field_of v i)) (rec (field_of v i) s).
Proof.
  intros X Hr Hi. apply R; [done|by apply (ob_fields _ _ _ _ _ (ob table h objs outs S v Ho) Hs)|]. pose proof (rank_le (field_of v i)). lia.
Qed.

(** The fields from the second on, and the last by a jump. *)
Lemma fields_runs n i p seen s : xrep p seen (whsizes h seen) s -> (room seen + 2 < fuel)%nat -> 1 <= i -> i + Z.of_nat n + 1 = wosize_of v ->
  runs (emitteds p seen s (field_of v <$> seqZ i (Z.of_nat n + 1)))
    (then_ (extern_fields rec v i n) (fun _ => then_ (look (fun s => Field (x_heap s) v (wosize_of v - 1))) (fun f => rec f)) s).
Proof.
  revert i seen s. induction n as [|n IH]; intros i seen s X Hr Hi Hw; pose proof (xr_mark _ _ _ _ X) as M; pose proof (xr_sub _ _ _ _ X) as sub.
  - match goal with |- runs ?Q _ => change (runs Q (then_ (look (fun s => Field (x_heap s) v (wosize_of v - 1))) (fun f => rec f) s)) end.
    eapply runs_look; [apply (m_Field table h objs outs S seen _ M sub v _ Ho); [lia|right; lia]|].
    replace (wosize_of v - 1) with i by lia. apply emitted_one, field_runs; [done|done|lia].
  - rewrite seqZ_cons by lia. cbn [fmap list_fmap extern_fields].
    rewrite then_assoc. eapply runs_look; [apply (m_Field table h objs outs S seen _ M sub v _ Ho); [lia|right; lia]|].
    rewrite then_assoc. eapply emitteds_then; [apply field_runs; [done|done|lia]|].
    intros seen1 s1 X1 P1. replace (Z.pred (Z.of_nat (Datatypes.S n) + 1)) with (Z.of_nat n + 1) by lia.
    apply IH; [done|pose proof (room_prefix _ _ P1); lia|lia|lia].
Qed.

Lemma block_runs p seen s : xrep p seen (whsizes h seen) s -> v ∉ seen -> (room seen <= fuel)%nat ->
  runs (emitted p seen s v) (extern_block_of false userprovided rec v (hd_of v) s).
Proof.
  intros X Hn Hr. pose proof (wosize_bound table h objs outs S v Ho) as Hw. pose proof (xr_fresh _ _ _ _ _ X Ho Hn) as Hlt.
  unfold extern_block_of. rewrite extern_header_put. change (Wosize_hd (hd_of v)) with (wosize_of v).
  eapply put_then; [done|]. intros s1 (X1 & B1 & E1). eapply add_sizes_runs; [done|]. intros s2 X2 E2 B2.
  eapply runs_look; [eapply (m_Field table h objs outs S seen _ (xr_mark _ _ _ _ X2) (xr_sub _ _ _ _ X2) v 0 Ho); [lia|by left]|].
  eapply runs_then; [apply (record_runs _ _ _ _ _ X2 Ho Hn)|].
  { intros Ht. rewrite Ht in Hs. done. }
  intros [] s3 [X3 B3].
  assert (xrep p (seen ++ [v]) (whsizes h (seen ++ [v])) s3) as X3'.
  { assert (whsizes h (seen ++ [v]) = whsizes h seen + (1 + wosize_of v)) as ->; [|done]. rewrite whsizes_app, whsizes_cons. cbn. lia. }
  assert (room (seen ++ [v]) + 2 < fuel)%nat as Hroom by (unfold room in *; rewrite length_app; cbn; lia).
  assert (forall r, runs (emitteds p (seen ++ [v]) s3 (fields_of h v)) r -> runs (emitted p seen s v) r) as Hend.
  { intros r Hrr. eapply runs_weaken; [done|]. intros [] s4 (bs & seen4 & He & X4 & B4 & P4). exists (header_bytes (hd_of v) ++ bs), seen4.
    split_and!; [by eapply enc_block|done| |].
    - by rewrite B4, B3, B2, B1, app_assoc.
    - etrans; [|done]. by apply prefix_app_r. }
  unfold fields_of in Hend. case_zbool (wosize_of v =? 1).
  - apply Hend. rewrite E. apply emitted_one, field_runs; [done|done|lia].
  - apply Hend. replace (wosize_of v) with (1 + (Z.of_nat (Z.to_nat (wosize_of v - 2)) + 1)) at 1 by lia. rewrite seqZ_app by lia.
    change (seqZ 0 1) with [0]. cbn [app fmap list_fmap]. eapply emitteds_then; [apply field_runs; [done|done|lia]|].
    intros seen4 s4 X4 P4. apply fields_runs; [done|pose proof (room_prefix _ _ P4); lia|lia|lia].
Qed.
End Block.

(** Values that are not objects of the graph. *)
Lemma code_runs p seen s v : xrep p seen (whsizes h seen) s -> v ∈ outs -> runs (emitted p seen s v) (extern_code code closures userprovided v s).
Proof.
  intros X Ho. unfold extern_code. destruct (_ && _) eqn:E.
  - destruct closures eqn:Hc; cbn [negb].
    + eapply put_then; [done|]. intros s1 (X1 & B1 & E1). eapply runs_weaken; [by apply put_runs|]. intros [] s2 (X2 & B2 & E2).
      eexists _, seen. split_and!; [apply enc_code; [done|zbool; lia]|done| |done]. by rewrite B2, B1, <- app_assoc.
    + eapply invalid_runs; [done|]. right; right; right; left. rewrite Hc. split_and!; [done|done|]. exists v. split; [done|]. zbool. unfold in_code. lia.
  - eapply invalid_runs; [done|]. right; right; right; right. split; [done|]. exists v. split; [done|]. unfold in_code. apply andb_false_iff in E as [E|E]; zbool; lia.
Qed.

Lemma atom_known v : atom h objs v -> known h v = true /\ Is_long v = false.
Proof.
  intros (t & -> & Ht & _ & Hr & Hm & _). split.
  - unfold known, Is_atom, Atom in *. rewrite (proj2 (Z.leb_le _ _)), (proj2 (Z.leb_le _ _)) by lia. done.
  - unfold Is_long. change 1 with (Z.ones 1). rewrite Z.land_ones by lia. change (2 ^ 1) with 2. apply negb_false_iff, Z.eqb_eq. zdiv.
Qed.
Lemma aligned_long v : v mod 8 = 0 -> Is_long v = false.
Proof. intros Hm. unfold Is_long. change 1 with (Z.ones 1). rewrite Z.land_ones by lia. change (2 ^ 1) with 2. apply negb_false_iff, Z.eqb_eq. zdiv. Qed.

Section Visit.
Variables (fuel : nat) (p : bytes) (seen : list Z) (s : xstate) (v : Z).
Hypothesis IH : rec_ok fuel (extern_rec fuel).
Hypothesis X : xrep p seen (whsizes h seen) s.

(** The object was written before. *)
Lemma shared_runs : v ∈ objs -> v ∈ seen -> runs (emitted p seen s v) (extern_shared userprovided v s).
Proof.
  intros Ho [k Hk]%list_elem_of_lookup. pose proof (xr_mark _ _ _ _ X) as M. pose proof (xr_sub _ _ _ _ X) as sub.
  pose proof (seen_bound seen (xr_nodup _ _ _ _ X) sub) as [Hb _]. pose proof (lookup_lt_Some _ _ _ Hk) as Hlt.
  unfold extern_shared. eapply runs_look; [by apply (m_index table h objs outs S seen _ M sub)|]. eapply runs_look; [done|].
  rewrite u64_s64, (xr_count _ _ _ _ X), (wrap_small 64) by lia. set (d := Z.of_nat (length seen) - Z.of_nat k).
  assert ((if d <? 0x100 then writecode8 userprovided CODE_SHARED8 d
    else if d <? 0x10000 then writecode16 userprovided CODE_SHARED16 d
    else writecode32 userprovided CODE_SHARED32 d) = put userprovided (shared_bytes d)) as -> by (unfold shared_bytes; by repeat destruct (_ <? _)).
  apply put_emitted; [done|]. by apply enc_shared.
Qed.

(** A forward pointer is followed. *)
Lemma forward_runs : v ∈ objs -> tag_of v = Forward_tag -> (room seen + 1 < fuel)%nat ->
  runs (emitted p seen s v) (extern_rec fuel (field_of v 0) s).
Proof.
  intros Ho Ht Hr. destruct (ob_forward _ _ _ _ _ (ob table h objs outs S v Ho) Ht) as [Hv Hk].
  eapply runs_weaken; [apply IH; [done|done|]|].
  - assert (rank (field_of v 0) <= 1)%nat; [|lia]. unfold rank. case_bool_decide as Hin; cbn [andb]; [|destruct (_ =? _); lia].
    case_zbool (tag_of (field_of v 0) =? Forward_tag); [|destruct (_ =? _); lia]. exfalso. unfold keeps_forward in Hk.
    pose proof (addr table h objs outs S _ Hin) as (A1 & A2 & A3). pose proof (wosize_bound table h objs outs S _ Hin).
    rewrite (ob_known _ _ _ _ _ (ob table h objs outs S _ Hin)), andb_true_r in Hk.
    assert (Is_block (field_of v 0) = true) as Hb by (apply negb_false_iff, (aligned_long _ A3)).
    rewrite Hb in Hk. unfold Tag_val in Hk. rewrite Hd_val_word, (rd_some _ _ _ (proj1 (hd_word table h objs outs S _ Hin))) in Hk by lia. cbn [bind] in Hk.
    change (Tag_hd (hd_of (field_of v 0))) with (tag_of (field_of v 0)) in Hk. by rewrite E in Hk.
  - intros [] s1 (bs & seen1 & He & X1 & B1 & P1). exists bs, seen1. split_and!; [by apply enc_forward|done..].
Qed.

(** A pointer inside a closure. *)
Lemma infix_runs : infix h objs v -> (room seen < fuel)%nat ->
  runs (emitted p seen s v) (then_ (writecode32 userprovided CODE_INFIXPOINTER (Infix_offset_hd (hd_of v))) (fun _ => extern_rec fuel (v - Infix_offset_hd (hd_of v))) s).
Proof.
  intros Hi Hr. pose proof Hi as (o & off & Ho & Ht & Ev & Hm & Hoff & Hle & Htv & Hw & Hc & Hk).
  assert (Infix_offset_hd (hd_of v) = off) as Eo.
  { unfold Infix_offset_hd. change (Wosize_hd (hd_of v)) with (wosize_of v). rewrite Hw, (wrap_small 64) by zdiv. zdiv. }
  rewrite Eo. replace (v - off) with o by lia. eapply put_then; [done|]. intros s1 (X1 & B1 & E1).
  eapply runs_weaken; [apply IH; [done| |]|].
  - split; [|by right; left]. pose proof (addr table h objs outs S o Ho). pose proof (wosize_bound table h objs outs S o Ho). unfold in_s. change (2 ^ (64 - 1)) with (2 ^ 63). lia.
  - unfold rank. rewrite Ht. destruct (bool_decide _); change (room seen + 0 < fuel)%nat; lia.
  - intros [] s2 (bs & seen2 & He & X2 & B2 & P2). exists (u8 CODE_INFIXPOINTER :: be_bytes 4 off ++ bs), seen2. split_and!; [|done| |done].
    + rewrite <- Eo. apply (enc_infix _ _ _ _ _ _ o); [done|done|lia|done].
    + by rewrite B2, B1, <- app_assoc.
Qed.
End Visit.

Lemma object_runs fuel p seen s v : rec_ok fuel (extern_rec fuel) -> xrep p seen (whsizes h seen) s -> v ∈ objs ->
  (room seen + rank v < Datatypes.S fuel)%nat -> runs (emitted p seen s v) (extern_rec (Datatypes.S fuel) v s).
Proof.
  intros IH X Ho Hf. pose proof (xr_mark _ _ _ _ X) as M. pose proof (xr_sub _ _ _ _ X) as sub.
  pose proof (addr table h objs outs S v Ho) as (A1 & A2 & A3). pose proof (ob table h objs outs S v Ho) as OB. pose proof (wosize_bound table h objs outs S v Ho) as Hw.
  cbn [CamlExtern.extern_rec]. rewrite aligned_long by done. eapply runs_look; [done|].
  rewrite (m_known h seen _ M). assert (known h v = true) as ->.
  { unfold known. pose proof (ob_known _ _ _ _ _ OB) as Hk. apply orb_true_iff in Hk as [-> | ->]; by rewrite !orb_true_r. }
  eapply runs_look; [by apply (m_hd table h objs outs S seen _ M sub)|]. rewrite (mhd_tag h seen), (mhd_wosize table h objs outs S seen) by done.
  case_zbool (tag_of v =? Forward_tag).
  - rewrite then_assoc. assert (v ∉ seen) as Hn by (intros Hin; by apply (xr_follow _ _ _ _ X v)).
    eapply runs_look; [apply (m_Field table h objs outs S seen _ M sub v 0 Ho); [lia|by left]|]. rewrite then_assoc.
    destruct (ob_forward _ _ _ _ _ OB E) as [Hv Hk]. eapply runs_look; [by apply (m_keeps table h objs outs S seen _ M sub)|].
    unfold rank in Hf. rewrite (bool_decide_eq_true_2 _ Ho), E in Hf. cbn in Hf. apply (forward_runs fuel); [done|done|done|done|lia].
  - match goal with |- runs ?Q (then_ (ret None) ?K s) => change (runs Q (K None s)) end. cbv beta iota. rewrite (proj2 (Z.eqb_neq (wosize_of v) 0)) by lia.
    unfold mhd. case_bool_decide as Hn.
    { rewrite Color_blue, Z.eqb_refl. by apply shared_runs. }
    rewrite (proj2 (Z.eqb_neq _ _)) by apply (ob_colour _ _ _ _ _ OB).
    case_zbool (tag_of v =? String_tag); [by apply string_runs|]. case_zbool (tag_of v =? Double_tag); [by apply double_runs|].
    case_zbool (tag_of v =? Double_array_tag); [by apply double_array_runs|].
    case_zbool (tag_of v =? Abstract_tag). { eapply invalid_runs; [done|]. right; left. split; [done|]. by exists v. }
    rewrite (proj2 (Z.eqb_neq (tag_of v) Infix_tag)) by apply (ob_infix _ _ _ _ _ OB).
    case_zbool (tag_of v =? Custom_tag); [by apply custom_runs|].
    eapply block_runs; [exact IH|done| |done|done|lia]. pose proof (ob_infix _ _ _ _ _ OB). unfold scanned. by rewrite !(proj2 (Z.eqb_neq _ _)) by done.
Qed.

Theorem extern_rec_runs fuel : rec_ok fuel (extern_rec fuel).
Proof.
  induction fuel as [|fuel IH]; intros p seen s v X Hv Hf; [lia|]. pose proof Hv as [Hr [Hl|[Ho|[Ha|[Hi|Ho]]]]].
  - cbn [CamlExtern.extern_rec]. rewrite Hl, extern_int_put. apply put_emitted; [done|]. by apply enc_long.
  - by apply object_runs.
  - destruct (atom_known v Ha) as [Hk Hl]. pose proof (xr_mark _ _ _ _ X) as M. pose proof (xr_sub _ _ _ _ X) as sub.
    cbn [CamlExtern.extern_rec]. rewrite Hl. eapply runs_look; [done|]. rewrite (m_known h seen _ M), Hk.
    eapply runs_look; [by apply (m_atom h objs seen _ M sub)|]. pose proof Ha as (t & _ & _ & Hnf & _ & _ & Ht & Hw & _).
    change (Tag_hd (hd_of v)) with (tag_of v). change (Wosize_hd (hd_of v)) with (wosize_of v). rewrite Ht, Hw.
    rewrite (proj2 (Z.eqb_neq t _)) by done. match goal with |- runs ?Q (then_ (ret None) ?K s) => change (runs Q (K None s)) end. cbn beta iota. change (0 =? 0) with true. cbv iota.
    rewrite extern_atom_put. apply put_emitted; [done|]. rewrite <- Ht. by apply enc_atom.
  - pose proof (xr_mark _ _ _ _ X) as M. pose proof (xr_sub _ _ _ _ X) as sub. pose proof Hi as (o & off & Ho & Hto & Ev & Hm & Hoff & Hle & Htv & Hw & Hc & Hk).
    cbn [CamlExtern.extern_rec]. rewrite aligned_long by (pose proof (addr table h objs outs S o Ho); zdiv). eapply runs_look; [done|]. rewrite (m_known h seen _ M), Hk.
    eapply runs_look; [by apply (m_infix table h objs outs S seen _ M sub)|].
    change (Tag_hd (hd_of v)) with (tag_of v). change (Wosize_hd (hd_of v)) with (wosize_of v). rewrite Htv.
    match goal with |- runs ?Q (then_ _ ?K s) => change (runs Q (K None s)) end. cbn beta iota. rewrite (proj2 (Z.eqb_neq (wosize_of v) 0)) by (rewrite Hw; zdiv).
    rewrite (proj2 (Z.eqb_neq _ _)) by done. apply (infix_runs fuel); [done|done|done|]. unfold rank in Hf. rewrite Htv in Hf. destruct (bool_decide _ && _); cbn in Hf; lia.
  - destruct (so_out _ _ _ _ S v Ho) as (_ & Hl & Hk). cbn [CamlExtern.extern_rec]. rewrite Hl. eapply runs_look; [done|]. rewrite (m_known h seen _ (xr_mark _ _ _ _ X)), Hk.
    by apply code_runs.
Qed.
End Extern.

(** The twenty bytes before the encoding. *)
Definition intext_header (block_len num_objects n32 n64 : Z) : bytes :=
  be_bytes 4 Intext_magic_number ++ be_bytes 4 block_len ++ be_bytes 4 num_objects ++ be_bytes 4 n32 ++ be_bytes 4 n64.

Lemma fill_header more a b c d :
  write32_at (write32_at (write32_at (write32_at (start_bytes ++ more) 4 a) 8 b) 12 c) 16 d = intext_header a b c d ++ more.
Proof. reflexivity. Qed.

Section Extern.
Context `{CustomMarshal}.
Variable table : list Z.
Context `{!MarshalLaws table}.
Variable h : heap.
Variables objs outs : list Z.
Hypothesis S : source table h objs outs.
Variable code : code_area.

(** What is written for [v]. *)
Definition output_of (v : Z) (out : bytes) : Prop := exists bs seen n32,
  enc h code objs outs [] v bs seen /\ NoDup seen /\ (forall o, o ∈ seen -> o ∈ objs) /\
  out = intext_header (blen bs) (Z.of_nat (length seen)) n32 (whsizes h seen) ++ bs /\
  blen out < 2 ^ 32 /\ whsizes h seen < 2 ^ 32.

(** Enough fuel: each object has a header. *)
Lemma objs_size : (length objs <= size (words h))%nat.
Proof.
  assert (NoDup ((fun o => o / 8 - 1) <$> objs)) as Hd.
  { apply NoDup_fmap_2_strong; [|apply (so_nodup _ _ _ _ S)]. intros o o' Ho Ho' E. destruct (decide (o = o')) as [|Hne]; [done|].
    destruct (heads_apart table h objs outs S o o' Ho Ho' Hne) as [N _]. done. }
  rewrite <- (length_fmap (fun o => o / 8 - 1) objs), <- (size_list_to_set (C := gset Z)) by done. rewrite <- size_dom. apply subseteq_size.
  intros a Ha. apply elem_of_list_to_set in Ha. apply list_elem_of_fmap in Ha as (o & -> & Ho). apply elem_of_dom. by rewrite (proj1 (hd_word table h objs outs S o Ho)).
Qed.

Section Body.
Variables (closures userprovided : bool) (cap : Z).
Abbreviation cause := (cause h objs outs code closures userprovided).

Definition ended {A} (P : A -> xstate -> Prop) (r : res A * xstate) : Prop :=
  x_heap r.2 = h /\ match r.1 with Ok a => P a r.2 | Err e => cause e \/ e = object_too_big | Timeout => False end.

Lemma start_ok s : x_heap s = h -> extern_output s = [] -> extern_block s = [] -> (if userprovided then extern_room s = cap else 4 <= extern_room s) ->
  runs h objs outs code closures userprovided (fun _ s' => xrep h objs userprovided cap start_bytes [] 0 s' /\ extern_bytes s' = start_bytes)
    ((change (fun s => Ok (set_sizes (init_extern_trail s) 0 0 0));;
      write32 userprovided Intext_magic_number;;
      change (fun s => Ok (set_output s (extern_output s) (extern_block s ++ replicate 16 0) (extern_room s)))) s).
Proof.
  intros Hh Ho Hb Hr. eapply runs_change; [done|]. set (s1 := set_sizes _ _ _ _).
  assert (xrep h objs userprovided cap [] [] 0 s1) as X.
  { split; cbn; [|apply NoDup_nil_2|set_solver|set_solver|done|done|done|apply prefix_nil|intros Hu; rewrite Hu in Hr; cbn; auto]. rewrite Hh. split; [by rewrite set_words_same|done|]. intros k o. by rewrite lookup_nil. }
  unfold write32, put, then_ at 1. cbn [extern_room extern_block s1 set_sizes init_extern_trail set_trail]. rewrite Hb. change (blen [] + blen (be_bytes 4 Intext_magic_number)) with 4.
  case_zbool (extern_room s <? 4).
  - unfold grow_extern_output. case_eq userprovided; intros Hu; rewrite Hu in Hr; [|lia].
    pose proof (raise_runs table h objs outs S code closures userprovided cap (fun (_ : unit) _ => False) [] [] 0 s1 buffer_overflow X (or_introl (conj eq_refl Hu))) as Hx.
    unfold then_ at 1. 
    rewrite <- Hu. destruct (raise buffer_overflow s1) as [[[]|e|] s2]; cbn in *; done.
  - cbn. rewrite Ho, Hb. split; [|done]. destruct X as [X1 X2 X3 X3' X4 X5 X6 X7 X8]. split; try done. intros Hu. rewrite Hu in Hr. cbn. auto.
Qed.

(** The output so far begins with the first buffer. *)
Lemma first_part s p : p `prefix_of` first_buffer s -> exists more rest,
  first_buffer s = p ++ more /\ extern_bytes s = p ++ more ++ rest /\
  forall fill, (match extern_output s with [] => fill (extern_block s) | first :: out => concat (fill first :: out) ++ extern_block s end) = fill (first_buffer s) ++ rest.
Proof.
  intros [more Hm]. unfold extern_bytes, first_buffer in *. destruct (extern_output s) as [|b out].
  - exists more, []. rewrite Hm. cbn. rewrite app_nil_r. split_and!; [done|done|]. intros fill. by rewrite app_nil_r.
  - exists more, (concat out ++ extern_block s). rewrite Hm. cbn. rewrite <- !app_assoc. split_and!; [done|done|]. intros fill. by rewrite <- app_assoc.
Qed.

Lemma write_sizes_bytes s bs len : start_bytes `prefix_of` first_buffer s -> extern_bytes s = start_bytes ++ bs ->
  extern_bytes (write_sizes s len) = intext_header (len - 5 * 4) (obj_counter s) (size_32 s) (size_64 s) ++ bs.
Proof.
  intros Hp Hb. destruct (first_part s _ Hp) as (more & rest & Hf & He & Hk). rewrite He in Hb. apply app_inv_head in Hb as <-.
  set (fill blk := write32_at (write32_at (write32_at (write32_at blk 4 (len - 5 * 4)) 8 (obj_counter s)) 12 (size_32 s)) 16 (size_64 s)).
  specialize (Hk fill). rewrite Hf in Hk. unfold fill in Hk at 3. rewrite fill_header, <- app_assoc in Hk. rewrite <- Hk. unfold write_sizes, extern_bytes.
  destruct (extern_output s); cbn; done.
Qed.

Theorem extern_body_ok s v : x_heap s = h -> extern_output s = [] -> extern_block s = [] -> (if userprovided then extern_room s = cap else 4 <= extern_room s) ->
  value h objs outs v -> ended (fun n s' => n = blen (extern_bytes s') /\ output_of v (extern_bytes s') /\ (userprovided = true -> blen (extern_bytes s') <= cap)) (extern_value_body code false closures userprovided v s).
Proof.
  intros Hh Ho Hb Hr Hv. unfold extern_value_body. pose proof (start_ok s Hh Ho Hb Hr) as H0. unfold runs in H0.
  assert (forall (m1 m2 m3 : extern unit) (k : extern Z) st, then_ m1 (fun _ => then_ m2 (fun _ => then_ m3 (fun _ => k))) st =
    then_ (then_ m1 (fun _ => then_ m2 (fun _ => m3))) (fun _ => k) st) as ->.
  { intros m1 m2 m3 k st. unfold then_. destruct (m1 st) as [[] s1]; try done. by destruct (m2 s1) as [[] s2]. }
  unfold then_ at 1. destruct (then_ _ _ s) as [[[]|e|] s1]; [|by destruct H0; split; [|left]|done].
  destruct H0 as [X B]. unfold then_ at 1, look at 1. cbn beta iota.
  pose proof (extern_rec_runs table h objs outs S code closures userprovided cap (extern_fuel (x_heap s1)) start_bytes [] s1 v X Hv) as R.
  assert (room objs [] + rank h objs v < extern_fuel (x_heap s1))%nat as Hf.
  { pose proof (rank_le h objs v). pose proof objs_size. unfold extern_fuel. assert (size (words (x_heap s1)) = size (words h)) as ->; [|unfold room; cbn [length]; lia].
    f_equal. apply map_eq. intros a. apply (mk_same _ _ _ (xr_mark _ _ _ _ _ _ _ _ X)). set_solver. }
  specialize (R Hf). unfold runs in R. unfold then_ at 1. destruct (extern_rec _ _ _ _ _ _ _) as [[[]|e|] s2]; [|by destruct R; split; [|left]|done].
  destruct R as (bs & seen & He & X2 & B2 & _). rewrite B in B2.
  unfold then_ at 1, change at 1. rewrite (replay_runs table h objs outs S userprovided cap start_bytes seen (whsizes h seen) s2 X2).
  set (s3 := init_extern_trail (set_heap s2 h)). unfold then_ at 1, look at 1. cbn beta iota. unfold then_ at 1, look at 1. cbn beta iota.
  pose proof (seen_bound table h objs outs S seen (xr_nodup _ _ _ _ _ _ _ _ X2) (xr_sub _ _ _ _ _ _ _ _ X2)) as [Hw _].
  assert (extern_output_length s3 = blen (extern_bytes s2)) as Hlen by (unfold extern_output_length, extern_bytes, blen, s3; cbn; rewrite length_app; lia).
  destruct ((2 ^ 32 <=? extern_output_length s3) || (2 ^ 32 <=? size_32 s3) || (2 ^ 32 <=? size_64 s3)) eqn:Eb.
  - unfold then_, change, ended. cbn. split; [by unfold free_extern_output; destruct userprovided|by right].
  - apply orb_false_iff in Eb as [[Eb1 _]%orb_false_iff Eb2]. zbool. unfold then_, change, ret. cbn [fst snd ended]. split; cbn [fst snd].
    + unfold write_sizes. by destruct (extern_output s3).
    + assert (size_64 s3 = whsizes h seen) as Es by (change (size_64 s3) with (size_64 s2); rewrite (xr_size _ _ _ _ _ _ _ _ X2), (wrap_small 64) by lia; done).
      assert (obj_counter s3 = Z.of_nat (length seen)) as Ec by apply (xr_count _ _ _ _ _ _ _ _ X2).
      assert (blen (start_bytes ++ bs) = 20 + blen bs) as El by (unfold blen; rewrite length_app; change (length start_bytes) with 20%nat; lia).
      pose proof (write_sizes_bytes s3 bs (extern_output_length s3) (xr_first _ _ _ _ _ _ _ _ X2) B2) as Hout. rewrite Es, Ec, Hlen, B2, El in Hout. rewrite Hlen, B2, El in *.
      assert (blen (extern_bytes (write_sizes s3 (20 + blen bs))) = 20 + blen bs) as Hl.
      { rewrite Hout. unfold blen. rewrite length_app. change (length (intext_header _ _ _ _)) with 20%nat. lia. }
      split_and!; [by rewrite Hl| |].
      * exists bs, seen, (size_32 s3). rewrite Hl. split_and!; [done|apply X2|apply X2| |lia|lia]. rewrite Hout. do 2 f_equal. lia.
      * intros Hu. destruct (xr_fits _ _ _ _ _ _ _ _ X2 Hu) as (Ho2 & Hr2 & Hb2). unfold extern_bytes in B2. rewrite Ho2 in B2. cbn [concat app] in B2. rewrite B2 in Hb2.
        destruct Hb2 as [Hb2|[Hb2|Hb2]]; [done| |lia]. exfalso. apply (enc_nonempty _ _ _ _ _ _ _ _ He). rewrite <- (app_nil_r start_bytes) in Hb2 at 2. by apply app_inv_head in Hb2.
Qed.
End Body.
End Extern.
