(* ===== verification/CamlIntern.v ===== *)
(** Input of structured values (ocaml/byterun/intern.c).

    The objects are built in one block of the size that the header of the data
    announces; a table keeps the addresses of those already seen.  The data is
    the list of the bytes that remain; there is no check in the code that it is
    long enough, nor that the objects fit in the table, and the model stops with
    an error there.  The allocator is a parameter.  Sizes have 32 bits, so the
    block is never larger than Max_wosize and intern_extra_block stays NULL. *)
From stdpp Require Import base gmap list.
From Stdlib Require Import ZArith Lia.
From S2P Require Import Prelude CamlMemory CamlValues CamlIntext CamlStr.
Open Scope Z_scope.

Record istate := mkI {
  i_heap : heap;
  intern_src : bytes;
  intern_dest : Z;
  (** the size of the table, if there is one, and the addresses in it *)
  intern_obj_table : option Z;
  intern_objs : list Z;
  intern_color : Z;
  intern_header : Z;
  intern_block : Z
}.

Definition i_set_heap (s : istate) (h : heap) : istate :=
  mkI h (intern_src s) (intern_dest s) (intern_obj_table s) (intern_objs s) (intern_color s) (intern_header s) (intern_block s).
Definition i_set_src (s : istate) (src : bytes) : istate :=
  mkI (i_heap s) src (intern_dest s) (intern_obj_table s) (intern_objs s) (intern_color s) (intern_header s) (intern_block s).
Definition i_set_dest (s : istate) (dest : Z) (objs : list Z) : istate :=
  mkI (i_heap s) (intern_src s) dest (intern_obj_table s) objs (intern_color s) (intern_header s) (intern_block s).

Abbreviation intern := (prog istate).

Definition table_overflow : string := "object table overflow".

(** * Reading the data *)
Definition take_input (n : nat) : intern bytes := fun s =>
  match split_input n (intern_src s) with
  | Ok (b, src) => (Ok b, i_set_src s src)
  | Err e => (Err e, s)
  | Timeout => (Timeout, s)
  end.
Definition read8u : intern Z := b <~ take_input 1; ret (be_value b).
Definition read8s : intern Z := b <~ take_input 1; ret (be_signed b).
Definition read16u : intern Z := b <~ take_input 2; ret (be_value b).
Definition read16s : intern Z := b <~ take_input 2; ret (be_signed b).
Definition read32u : intern Z := b <~ take_input 4; ret (be_value b).
Definition read32s : intern Z := b <~ take_input 4; ret (be_signed b).
Definition read64s : intern Z := b <~ take_input 8; ret (s64 (be_value b)).
Definition readblock (dest : Z) (len : nat) : intern unit :=
  b <~ take_input len; change (fun s => h <- set_bytes (i_heap s) dest b; Ok (i_set_heap s h)).

Definition write_word (a w : Z) : intern unit := change (fun s => h <- set_word (i_heap s) a w; Ok (i_set_heap s h)).

(** * Errors *)
Definition intern_cleanup : intern unit :=
  change (fun s => if intern_block s =? 0 then Ok s else h <- set_Hd (i_heap s) (intern_block s) (intern_header s); Ok (i_set_heap s h)).
Definition intern_fail {A} (msg : string) : intern A := intern_cleanup;; fun s => (Err msg, s).

Definition ill_formed : string := "input_value: ill-formed message".
Definition code_mismatch : string := "input_value: code mismatch".
Definition unknown_custom : string := "input_value: unknown custom block identifier".

(** * Objects *)

(** A new object: an entry of the table, the header, and the room it takes. *)
Definition intern_obj (size tag : Z) : intern Z :=
  v <~ look (fun s => Ok (intern_dest s + 8));
  change (fun s =>
    objs <- match intern_obj_table s with
            | None => Ok (intern_objs s)
            | Some n => if Z.of_nat (length (intern_objs s)) <? n then Ok (intern_objs s ++ [v]) else Err table_overflow
            end;
    h <- set_word (i_heap s) (intern_dest s) (Make_header size tag (intern_color s));
    Ok (i_set_dest (i_set_heap s h) (intern_dest s + 8 * (1 + size)) objs));;
  ret v.

Definition read_string (len : Z) : intern Z :=
  let size := (len + 8) / 8 in
  v <~ intern_obj size String_tag;
  write_word (v + 8 * (size - 1)) 0;;
  let ofs_ind := size * 8 - 1 in
  change (fun s => h <- set_byte (i_heap s) (v + ofs_ind) (ofs_ind - len); Ok (i_set_heap s h));;
  readblock v (Z.to_nat len);;
  ret v.

(** 8 bytes, the last one first if the data is of the other endianness. *)
Definition read_double (big : bool) (v : Z) : intern unit :=
  b <~ take_input 8; write_word v (le_value (if big then rev b else b)).
Fixpoint read_doubles (big : bool) (v : Z) (n : nat) : intern unit :=
  match n with
  | O => ret tt
  | S n => read_double big v;; read_doubles big (v + 8) n
  end.

Definition read_double_array (big : bool) (len : Z) : intern Z :=
  let size := len * Double_wosize in
  v <~ intern_obj size Double_array_tag;
  read_doubles big v (Z.to_nat len);;
  ret v.

Definition read_shared (ofs : Z) : intern Z :=
  look (fun s => lift (if ofs <=? 0 then None else intern_objs s !! Z.to_nat (Z.of_nat (length (intern_objs s)) - ofs)) table_overflow).

Section Intern.
Context `{CustomMarshal}.
Variable code : code_area.
Variable custom_ops_table : list Z.

Definition read_codepointer : intern Z :=
  ofs <~ read32u;
  cksum <~ take_input 16;
  if negb (bool_decide (cksum = caml_code_checksum code)) then intern_fail code_mismatch
  else ret (s64 (caml_code_area_start code + ofs)).

Definition read_custom : intern Z :=
  ident <~ look (fun s => lift (c_string (intern_src s)) end_of_input);
  match caml_find_custom_operations custom_ops_table ident with
  | None => intern_fail unknown_custom
  | Some ops =>
      take_input (length ident + 1);;
      match custom_deserialize ops with
      | None => fun s => (Err segv, s)
      | Some deserialize =>
          src <~ look (fun s => Ok (intern_src s));
          match deserialize src with
          | Err e => intern_fail e
          | Timeout => out_of_fuel
          | Ok (data, size, src) =>
              change (fun s => h <- set_bytes (i_heap s) (intern_dest s + 16) data; Ok (i_set_src (i_set_heap s h) src));;
              let size := 1 + Z.quot (u64 (size + 8 - 1)) 8 in
              v <~ intern_obj size Custom_tag;
              write_word v (u64 ops);;
              ret v
          end
      end
  end.

(** The destination: the address of a word of the heap, or a local variable of
    the caller, which finds there the value that is returned. *)
Definition store (dest : option Z) (v : Z) : intern unit :=
  match dest with None => ret tt | Some a => write_word a (u64 v) end.

Definition Atom_of (tag : Z) : intern Z := look (fun s => Ok (Atom (i_heap s) tag)).

(** The fields of a block but the last, then the last by a jump. *)
Fixpoint intern_fields (rec : option Z -> intern Z) (dest : Z) (n : nat) : intern unit :=
  match n with
  | O => ret tt
  | S n => rec (Some dest);; intern_fields rec (dest + 8) n
  end.

Definition read_block (rec : option Z -> intern Z) (dest : option Z) (tag size : Z) : intern Z :=
  if size =? 0 then v <~ Atom_of tag; store dest v;; ret v
  else
    v <~ look (fun s => Ok (intern_dest s + 8));
    store dest v;;
    intern_obj size tag;;
    intern_fields rec v (Z.to_nat (size - 1));;
    rec (Some (v + 8 * (size - 1)));;
    ret v.

(** The codes that build a value without recursion. *)
Definition intern_leaf (c : Z) : intern Z :=
  if PREFIX_SMALL_INT <=? c then ret (Val_int (Z.land c 0x3F))
  else if PREFIX_SMALL_STRING <=? c then read_string (Z.land c 0x1F)
  else if c =? CODE_INT8 then n <~ read8s; ret (Val_long n)
  else if c =? CODE_INT16 then n <~ read16s; ret (Val_long n)
  else if c =? CODE_INT32 then n <~ read32s; ret (Val_long n)
  else if c =? CODE_INT64 then n <~ read64s; ret (Val_long n)
  else if c =? CODE_SHARED8 then ofs <~ read8u; read_shared ofs
  else if c =? CODE_SHARED16 then ofs <~ read16u; read_shared ofs
  else if c =? CODE_SHARED32 then ofs <~ read32u; read_shared ofs
  else if c =? CODE_STRING8 then len <~ read8u; read_string len
  else if c =? CODE_STRING32 then len <~ read32u; read_string len
  else if (c =? CODE_DOUBLE_LITTLE) || (c =? CODE_DOUBLE_BIG) then
    v <~ intern_obj Double_wosize Double_tag; read_double (negb (c =? CODE_DOUBLE_LITTLE)) v;; ret v
  else if (c =? CODE_DOUBLE_ARRAY8_LITTLE) || (c =? CODE_DOUBLE_ARRAY8_BIG) then
    len <~ read8u; read_double_array (negb (c =? CODE_DOUBLE_ARRAY8_LITTLE)) len
  else if (c =? CODE_DOUBLE_ARRAY32_LITTLE) || (c =? CODE_DOUBLE_ARRAY32_BIG) then
    len <~ read32u; read_double_array (negb (c =? CODE_DOUBLE_ARRAY32_LITTLE)) len
  else if c =? CODE_CODEPOINTER then read_codepointer
  else if c =? CODE_CUSTOM then read_custom
  else intern_fail ill_formed.

Fixpoint intern_rec (fuel : nat) (dest : option Z) : intern Z :=
  match fuel with
  | O => out_of_fuel
  | S fuel =>
      c <~ read8u;
      if PREFIX_SMALL_BLOCK <=? c then
        read_block (intern_rec fuel) dest (Z.land c 0xF) (Z.land (Z.shiftr c 4) 0x7)
      else if c =? CODE_BLOCK32 then
        header <~ read32u; read_block (intern_rec fuel) dest (Tag_hd header) (Wosize_hd header)
      else if c =? CODE_BLOCK64 then
        header <~ read64s; read_block (intern_rec fuel) dest (Tag_hd (u64 header)) (Wosize_hd (u64 header))
      else if c =? CODE_INFIXPOINTER then
        ofs <~ read32u;
        clos <~ intern_rec fuel None;
        store dest (s64 (clos + ofs));;
        ret (s64 (clos + ofs))
      else
        v <~ intern_leaf c; store dest v;; ret v
  end.

(** * Entry points *)
Context `{Allocator}.

(** The block, its header, its colour, and the table. *)
Definition intern_alloc (whsize num_objects : Z) : intern unit := change (fun s =>
  if whsize =? 0 then Ok (mkI (i_heap s) (intern_src s) (intern_dest s) None (intern_objs s) (intern_color s) (intern_header s) 0)
  else
    let wosize := Wosize_whsize whsize in
    '(h, block) <-
      if wosize =? 0 then Ok (i_heap s, Atom (i_heap s) String_tag)
      else if wosize <=? Max_young_wosize then caml_alloc_small (i_heap s) wosize String_tag
      else caml_alloc_shr (i_heap s) wosize String_tag;
    hd <- Hd_val h block;
    Ok (mkI h (intern_src s) (block - 8) (if 0 <? num_objects then Some num_objects else None) [] (Color_hd hd) hd block)).

(** Enough: every call reads a code. *)
Definition intern_value : intern Z := src <~ look (fun s => Ok (intern_src s)); intern_rec (S (length src)) None.

Definition input_val_from_block : intern Z :=
  num_objects <~ read32u;
  size_32 <~ read32u;
  size_64 <~ read32u;
  intern_alloc size_64 num_objects;;
  intern_value.

Definition istart (h : heap) (src : bytes) : istate := mkI h src 0 None [] 0 0 0.


Definition caml_input_value_from_malloc (h : heap) (data : bytes) (ofs : nat) : res Z * istate :=
  (magic <~ read32u;
   if negb (magic =? Intext_magic_number) then fun s => (Err "input_value_from_malloc: bad object", s)
   else block_len <~ read32u; input_val_from_block) (istart h (drop ofs data)).

(** The additions are of unsigned numbers of 64 bits. *)
Definition caml_input_value_from_block (h : heap) (data : bytes) (len : Z) : res Z * istate :=
  (magic <~ read32u;
   if negb (magic =? Intext_magic_number) then fun s => (Err "input_value_from_block: bad object", s)
   else
     block_len <~ read32u;
     if u64 len <? u64 (5 * 4 + block_len) then fun s => (Err "input_value_from_block: bad block length", s)
     else input_val_from_block) (istart h data).

(** On a channel: the data of the value is first read whole; what is left. *)
Definition caml_input_val (h : heap) (binary : bool) (chan : bytes) : res (Z * bytes) * istate :=
  if negb binary then (Err "input_value: not a binary channel", istart h chan)
  else
    (magic <~ read32u;
     if negb (magic =? Intext_magic_number) then fun s => (Err "input_value: bad object", s)
     else
       block_len <~ read32u;
       num_objects <~ read32u;
       size_32 <~ read32u;
       size_64 <~ read32u;
       rest <~ look (fun s => Ok (intern_src s));
       if (length rest <? Z.to_nat block_len)%nat then fun s => (Err "input_value: truncated object", s)
       else
         change (fun s => Ok (i_set_src s (take (Z.to_nat block_len) rest)));;
         intern_alloc size_64 num_objects;;
         v <~ intern_value;
         ret (v, drop (Z.to_nat block_len) rest)) (istart h chan).

(** The bytes of the block of a string from an offset: the code does not look
    where the string ends. *)
Definition block_from (h : heap) (str ofs : Z) : res bytes :=
  bo <- Bosize_val h str; get_bytes h (str + ofs) (Z.to_nat (bo - ofs)).
Definition input_at (str ofs : Z) : intern unit := change (fun s => b <- block_from (i_heap s) str ofs; Ok (i_set_src s b)).

Definition caml_input_val_from_string (h : heap) (str ofs : Z) : res Z * istate :=
  (input_at str (ofs + 2 * 4);;
   num_objects <~ read32u;
   size_32 <~ read32u;
   size_64 <~ read32u;
   intern_alloc size_64 num_objects;;
   input_at str (ofs + 5 * 4);;
   intern_value) (istart h []).
Definition caml_input_value_from_string (h : heap) (str ofs : Z) : res Z * istate := caml_input_val_from_string h str (Long_val ofs).

Definition caml_marshal_data_size (h : heap) (buff ofs : Z) : res Z :=
  src <- block_from h buff (Long_val ofs);
  '(magic, src) <- caml_deserialize_uint_4 src;
  if negb (magic =? Intext_magic_number) then Err "Marshal.data_size: bad object"
  else '(block_len, src) <- caml_deserialize_uint_4 src; Ok (Val_long block_len).
End Intern.
