(* ===== verification/CamlInternOk.v ===== *)
(** Input of values: the copy of a graph, and the steps that build it.

    The copies of the objects lie one after the other from the address [base];
    [same seen v r]: the value [r] of the copy stands for the value [v] of the
    graph; [copied seen g o c]: the block at [c] in the heap [g] is a copy of the
    object [o].

    Input of values: the blocks whose contents are not values (strings, doubles,
    arrays of doubles, custom blocks) are copied. *)
From stdpp Require Import base gmap list.
From Stdlib Require Import ZArith Lia.
From S2P Require Import Prelude CamlMemory CamlValues CamlIntext CamlIntextOk CamlExtern CamlGraph CamlExternOk CamlExternRun CamlIntern.
Open Scope Z_scope.


(** * Runs that end well *)
Definition ok_run {S A} (P : A -> S -> Prop) (r : res A * S) : Prop := match r with (Ok a, s) => P a s | _ => False end.

Lemma ok_then {S A B} (P : A -> S -> Prop) (Q : B -> S -> Prop) m k s : ok_run P (m s) -> (forall a s', P a s' -> ok_run Q (k a s')) -> ok_run Q (then_ m k s).
Proof. unfold then_. destruct (m s) as [[a|e|] s']; cbn; auto; done. Qed.
Lemma ok_look {S A B} (f : S -> res A) a (Q : B -> S -> Prop) k s : f s = Ok a -> ok_run Q (k a s) -> ok_run Q (then_ (look f) k s).
Proof. intros E Hk. unfold then_, look. by rewrite E. Qed.
Lemma ok_change {S B} (f : S -> res S) s' (Q : B -> S -> Prop) k s : f s = Ok s' -> ok_run Q (k tt s') -> ok_run Q (then_ (change f) k s).
Proof. intros E Hk. unfold then_, change. by rewrite E. Qed.
Lemma ok_weaken {S A} (P Q : A -> S -> Prop) r : ok_run P r -> (forall a s, P a s -> Q a s) -> ok_run Q r.
Proof. destruct r as [[a|e|] s]; cbn; auto. Qed.

Lemma then_assoc' {S A B C} (m : prog S A) (k : A -> prog S B) (k' : B -> prog S C) s : then_ (then_ m k) k' s = then_ m (fun a => then_ (k a) k') s.
Proof. unfold then_. by destruct (m s) as [[]]. Qed.

Section Intern.
Context `{CustomMarshal}.
Variable table : list Z.
Context `{!MarshalLaws table}.
Variable h : heap.
Variables objs outs : list Z.
Hypothesis S : source table h objs outs.
Variable code : code_area.

Abbreviation hd_of := (hd_of h).
Abbreviation tag_of := (tag_of h).
Abbreviation wosize_of := (wosize_of h).
Abbreviation field_of := (field_of h).
Abbreviation value := (value h objs outs).
Abbreviation whsizes := (whsizes h).

(** The block that receives the copy: its first word, its size, the colour of
    its objects, the size of the table, and the heap around it. *)
Variables (base total color num : Z) (g0 : heap).
Hypothesis base_ok : 0 <= base /\ base mod 8 = 0 /\ base + 8 * total <= 2 ^ 63.
Hypothesis total_ok : total < 2 ^ 32.
Hypothesis color_ok : color = Caml_white \/ color = Caml_black.

(** * Copies *)
Fixpoint copies (b : Z) (l : list Z) : list Z :=
  match l with [] => [] | o :: l => b + 8 :: copies (b + 8 * (1 + wosize_of o)) l end.

Lemma length_copies b l : length (copies b l) = length l.
Proof. revert b. induction l as [|o l IH]; intros b; cbn [copies length]; [done|by rewrite IH]. Qed.
Lemma copies_app b l l' : copies b (l ++ l') = copies b l ++ copies (b + 8 * whsizes l) l'.
Proof.
  revert b. induction l as [|o l IH]; intros b; [cbn; f_equal; lia|]. cbn [app copies]. rewrite IH, whsizes_cons. do 3 f_equal. lia.
Qed.
Lemma copies_get b l k c : copies b l !! k = Some c -> c = b + 8 * whsizes (take k l) + 8 /\ (k < length l)%nat.
Proof.
  revert b k. induction l as [|o l IH]; intros b k; [intros Hk; apply lookup_lt_Some in Hk; cbn in Hk; lia|]. destruct k as [|k]; cbn [copies take].
  - intros [= <-]. cbn. lia.
  - intros Hk. apply IH in Hk as [-> Hk]. rewrite whsizes_cons. cbn [length]. lia.
Qed.

Inductive same (seen : list Z) : Z -> Z -> Prop :=
  | same_long v : Is_long v = true -> same seen v v
  | same_out v : v ∈ outs -> same seen v v
  | same_atom v : atom h objs v -> same seen v (Atom g0 (tag_of v))
  | same_infix v o r : infix h objs v -> o ∈ objs -> o = v - Infix_offset_hd (hd_of v) -> same seen o r -> same seen v (r + (v - o))
  | same_forward v r : v ∈ objs -> tag_of v = Forward_tag -> same seen (field_of v 0) r -> same seen v r
  | same_object k v r : seen !! k = Some v -> copies base seen !! k = Some r -> same seen v r.

Lemma same_mono seen seen' v r : seen `prefix_of` seen' -> same seen v r -> same seen' v r.
Proof.
  intros [l ->] Hs. induction Hs as [v|v|v|v o r|v r|k v r Hk Hc]; [by apply same_long|by apply same_out|by apply same_atom|by eapply same_infix|by apply same_forward|].
  eapply (same_object _ k); [by apply lookup_app_l_Some|]. rewrite copies_app. by apply lookup_app_l_Some.
Qed.

Record copied (seen : list Z) (g : heap) (o c : Z) : Prop := {
  cp_header : words g !! (c / 8 - 1) = Some (Make_header (wosize_of o) (tag_of o) color);
  cp_fields : scanned (tag_of o) = true -> forall i, 0 <= i < wosize_of o ->
    exists r, words g !! (c / 8 + i) = Some (u64 r) /\ in_s 64 r /\ same seen (field_of o i) r;
  cp_string : tag_of o = String_tag -> forall len bs, caml_string_length h o = Ok len -> get_bytes h o (Z.to_nat len) = Ok bs ->
    caml_string_length g c = Ok len /\ get_bytes g c (Z.to_nat len) = Ok bs;
  cp_doubles : tag_of o = Double_tag \/ tag_of o = Double_array_tag -> forall i, 0 <= i < wosize_of o -> words g !! (c / 8 + i) = words h !! (o / 8 + i);
  cp_custom : tag_of o = Custom_tag -> words g !! (c / 8) = Some (u64 (field_of o 0)) /\
    forall ser ws n32 n64 data, custom_serialize (field_of o 0) = Some ser -> ser h o = Ok (ws, n32, n64) ->
      get_bytes h (o + 8) (Z.to_nat n64) = Ok data -> get_bytes g (c + 8) (Z.to_nat n64) = Ok data
}.

(** Addresses of the copies. *)
Definition lo (seen : list Z) : Z := base / 8 + whsizes seen.

(** * The state *)
Record irep (seen : list Z) (src : bytes) (s : istate) : Prop := {
  ir_src : intern_src s = src;
  ir_dest : intern_dest s = base + 8 * whsizes seen;
  ir_table : 0 < num -> intern_obj_table s = Some num;
  ir_objs : intern_objs s = copies base seen;
  ir_color : intern_color s = color;
  ir_env : i_heap s = set_words g0 (words (i_heap s));
  ir_dom : forall a, base / 8 <= a < base / 8 + total -> is_Some (words (i_heap s) !! a);
  ir_sub : forall o, o ∈ seen -> o ∈ objs
}.

Lemma ok_take {B} n b src seen s (Q : B -> istate -> Prop) k : irep seen (b ++ src) s -> length b = n ->
  (forall s', irep seen src s' -> i_heap s' = i_heap s -> ok_run Q (k b s')) -> ok_run Q (then_ (take_input n) k s).
Proof.
  intros I Hn Hk. unfold then_, take_input, split_input. rewrite (ir_src _ _ _ I), length_app. rewrite (proj2 (Nat.leb_le _ _)) by lia.
  rewrite take_app_length', drop_app_length' by done. apply Hk; [|done]. destruct I; by split.
Qed.

Lemma ok_read {B} n b src seen s (conv : bytes -> Z) (Q : B -> istate -> Prop) k : irep seen (b ++ src) s -> length b = n ->
  (forall s', irep seen src s' -> i_heap s' = i_heap s -> ok_run Q (k (conv b) s')) ->
  ok_run Q (then_ (then_ (take_input n) (fun b => ret (conv b))) k s).
Proof.
  intros I Hn Hk. assert (forall st, then_ (then_ (take_input n) (fun b => ret (conv b))) k st = then_ (take_input n) (fun b => k (conv b)) st) as ->
    by (intros st; unfold then_, ret; by destruct (take_input n st) as [[]]).
  eapply ok_take; [done|done|]. intros s' I' E'. by apply Hk.
Qed.

(** A word of the region is written. *)
Lemma write_word_ok {B} seen src s a w (Q : B -> istate -> Prop) k : irep seen src s -> 0 <= a -> a mod 8 = 0 -> base / 8 <= a / 8 < base / 8 + total ->
  (forall s', irep seen src s' -> words (i_heap s') = <[a / 8 := w]> (words (i_heap s)) -> ok_run Q (k tt s')) -> ok_run Q (then_ (write_word a w) k s).
Proof.
  intros I Ha Hm Hr Hk. pose proof (ir_dom _ _ _ I _ Hr) as Hs. eapply ok_change.
  - rewrite set_word_ok; [done|zdiv|done|done].
  - apply Hk; [|done]. destruct I as [I1 I2 I3 I4 I5 I6 I7 I8]. split; try done.
    + cbn. rewrite I6. by rewrite !set_words_twice.
    + intros x Hx. cbn. apply lookup_insert_is_Some'. right. by apply I7.
Qed.

(** A new object. *)
Lemma intern_obj_ok {B} seen src s o (Q : B -> istate -> Prop) k : irep seen src s -> o ∈ objs -> whsizes (seen ++ [o]) <= total -> Z.of_nat (length seen) < num ->
  0 <= whsizes seen ->
  (forall s', irep (seen ++ [o]) src s' ->
     words (i_heap s') = <[lo seen := Make_header (wosize_of o) (tag_of o) color]> (words (i_heap s)) -> ok_run Q (k (8 * lo seen + 8) s')) ->
  ok_run Q (then_ (intern_obj (wosize_of o) (tag_of o)) k s).
Proof.
  intros I Ho Ht Hn Hw0 Hk. pose proof (wosize_bound table h objs outs S o Ho) as Hw. rewrite whsizes_app, whsizes_cons in Ht. cbn [CamlGraph.whsizes foldr] in Ht.
  destruct base_ok as (B1 & B2 & B3).
  assert (base + 8 * whsizes seen = 8 * lo seen) as El by (unfold lo; zdiv).
  unfold intern_obj. rewrite then_assoc'. eapply ok_look; [done|]. rewrite then_assoc'. eapply ok_change.
  - rewrite (ir_table _ _ _ I ltac:(lia)), (ir_objs _ _ _ I), length_copies, (ir_dest _ _ _ I), El. rewrite (proj2 (Z.ltb_lt _ _)) by lia. cbn [bind].
    assert (8 * lo seen / 8 = lo seen) as E8 by zdiv.
    rewrite set_word_ok, E8; [done|unfold lo; zdiv|zdiv|rewrite E8; apply (ir_dom _ _ _ I); unfold lo; lia].
  - rewrite (ir_dest _ _ _ I), El. apply Hk; [|by rewrite (ir_color _ _ _ I)]. destruct I as [I1 I2 I3 I4 I5 I6 I7 I8]. split; try done.
    + cbn. rewrite whsizes_app, whsizes_cons. cbn. unfold lo. zdiv.
    + cbn. rewrite copies_app, El. done.
    + cbn. rewrite I6. by rewrite !set_words_twice.
    + intros x Hx. cbn. apply lookup_insert_is_Some'. right. by apply I7.
    + intros x [Hx| ->%list_elem_of_singleton]%elem_of_app; [by apply I8|done].
Qed.

(** Bytes of the region are written. *)
Lemma bytes_ok {B} seen src s a bs (Q : B -> istate -> Prop) k : irep seen src s -> 0 <= a -> a + blen bs <= 2 ^ 64 ->
  (forall j, 0 <= j < blen bs -> base / 8 <= (a + j) / 8 < base / 8 + total) -> Forall is_byte bs ->
  (forall s', irep seen src s' ->
    (forall w, 8 * w + 8 <= a \/ a + blen bs <= 8 * w -> words (i_heap s') !! w = words (i_heap s) !! w) ->
    (forall x, 0 <= x < 2 ^ 64 -> byte_at (i_heap s') x = match bs !! Z.to_nat (x - a) with Some b => if a <=? x then Ok b else byte_at (i_heap s) x | None => byte_at (i_heap s) x end) ->
    ok_run Q (k tt s')) ->
  ok_run Q (then_ (change (fun s => h <- set_bytes (i_heap s) a bs; Ok (i_set_heap s h))) k s).
Proof.
  intros I Ha He Hr Hb Hk. destruct (set_bytes_ok (i_heap s) a bs) as (m & Hset & Hdom & Hw & Hby); [done|exact He| |].
  { intros j Hj. apply (ir_dom _ _ _ I), Hr. exact Hj. }
  eapply ok_change; [by rewrite Hset|]. apply Hk.
  - destruct I as [I1 I2 I3 I4 I5 I6 I7 I8]. split; try done.
    + cbn. rewrite I6. by rewrite !set_words_twice.
    + intros x Hx. apply Hdom, I7, Hx.
  - exact Hw.
  - intros x Hx. cbn. rewrite Hby by done. destruct (bs !! Z.to_nat (x - a)) as [b|] eqn:E; [|done].
    rewrite u8_byte; [done|]. by eapply Forall_lookup_1.
Qed.

Lemma readblock_ok {B} seen bs src s a (Q : B -> istate -> Prop) k : irep seen (bs ++ src) s -> 0 <= a -> a + blen bs <= 2 ^ 64 ->
  (forall j, 0 <= j < blen bs -> base / 8 <= (a + j) / 8 < base / 8 + total) -> Forall is_byte bs ->
  (forall s', irep seen src s' ->
    (forall w, 8 * w + 8 <= a \/ a + blen bs <= 8 * w -> words (i_heap s') !! w = words (i_heap s) !! w) ->
    (forall x, 0 <= x < 2 ^ 64 -> byte_at (i_heap s') x = match bs !! Z.to_nat (x - a) with Some b => if a <=? x then Ok b else byte_at (i_heap s) x | None => byte_at (i_heap s) x end) ->
    ok_run Q (k tt s')) ->
  ok_run Q (then_ (readblock a (length bs)) k s).
Proof.
  intros I Ha He Hr Hb Hk. unfold readblock. rewrite then_assoc'. eapply ok_take; [done|done|]. intros s1 I1 E1. rewrite <- E1 in Hk.
  by eapply bytes_ok.
Qed.

(** * What building a value does *)
Definition builds (seen : list Z) (v : Z) (seen' : list Z) (rest : bytes) (dest : option Z) (s : istate) (r : Z) (s' : istate) : Prop :=
  irep seen' rest s' /\ seen `prefix_of` seen' /\ in_s 64 r /\ same seen' v r /\
  (forall a, a < lo seen \/ lo seen' <= a -> dest <> Some (8 * a) -> words (i_heap s') !! a = words (i_heap s) !! a) /\
  (forall d, dest = Some d -> words (i_heap s') !! (d / 8) = Some (u64 r)) /\
  (forall k o c, (length seen <= k)%nat -> seen' !! k = Some o -> copies base seen' !! k = Some c -> copied seen' (i_heap s') o c).

(** A destination: a word of the region that was passed. *)
Definition dest_ok (seen : list Z) (dest : option Z) : Prop :=
  match dest with None => True | Some d => d mod 8 = 0 /\ base / 8 <= d / 8 < lo seen end.

Lemma lo_nonneg seen : (forall o, o ∈ seen -> o ∈ objs) -> base / 8 <= lo seen /\ 2 * Z.of_nat (length seen) <= whsizes seen.
Proof. intros Hs. pose proof (whsizes_nonneg table h objs outs S seen Hs). unfold lo. lia. Qed.
Lemma lo_snoc seen o : lo (seen ++ [o]) = lo seen + 1 + wosize_of o.
Proof. unfold lo. rewrite whsizes_app, whsizes_cons. cbn. lia. Qed.
Lemma lo_total seen : whsizes seen <= total -> lo seen <= base / 8 + total.
Proof. unfold lo. lia. Qed.

Section Leaf.
Variables (seen : list Z) (o : Z).
Hypothesis Ho : o ∈ objs.
Hypothesis sub : forall x, x ∈ seen -> x ∈ objs.
Hypothesis Ht : whsizes (seen ++ [o]) <= total.
Hypothesis Hnum : Z.of_nat (length seen) < num.
Hypothesis Hlen : Z.of_nat (length seen) < 2 ^ 32.

(** The copy of [o], and its first word. *)
Abbreviation c := (8 * lo seen + 8).
Lemma c_facts : 0 <= base / 8 /\ base / 8 <= lo seen /\ lo seen + 1 + wosize_of o <= base / 8 + total /\ c / 8 = lo seen + 1 /\ c mod 8 = 0 /\ 8 <= c /\
  c + 8 * wosize_of o <= 2 ^ 63 /\ 0 < wosize_of o < 2 ^ 54 /\ in_s 64 c /\ 0 <= whsizes seen.
Proof.
  pose proof (lo_nonneg seen sub) as [L1 L2]. pose proof (lo_total _ Ht) as L3. rewrite lo_snoc in L3. pose proof (wosize_bound table h objs outs S o Ho).
  unfold in_s. change (2 ^ (64 - 1)) with (2 ^ 63). destruct base_ok as (B1 & B2 & B3). split_and!; zdiv || lia.
Qed.
Lemma c_index : copies base (seen ++ [o]) !! length seen = Some c.
Proof.
  rewrite copies_app, lookup_app_r by (rewrite length_copies; lia). rewrite length_copies, Nat.sub_diag. cbn. f_equal. unfold lo. destruct base_ok as (B1 & B2 & B3). zdiv.
Qed.

(** What is left to show of a leaf when it is built. *)
Lemma leaf_built rest s s' : irep (seen ++ [o]) rest s' ->
  (forall a, a < lo seen \/ lo (seen ++ [o]) <= a -> words (i_heap s') !! a = words (i_heap s) !! a) ->
  copied (seen ++ [o]) (i_heap s') o c -> builds seen o (seen ++ [o]) rest None s c s'.
Proof.
  intros I Hf Hc. pose proof c_facts as (_ & _ & _ & _ & _ & _ & _ & _ & Hr & _). split_and!; [done|by apply prefix_app_r|done| | |done|].
  - eapply (same_object _ (length seen)); [by rewrite lookup_app_r, Nat.sub_diag|apply c_index].
  - intros a Ha _. by apply Hf.
  - intros k x d Hk Hx Hd. pose proof (lookup_lt_Some _ _ _ Hx) as Hlt. rewrite length_app in Hlt. cbn in Hlt. assert (k = length seen) as -> by lia.
    rewrite c_index in Hd. injection Hd as <-. rewrite lookup_app_r, Nat.sub_diag in Hx by done. by injection Hx as <-.
Qed.
End Leaf.
End Intern.

Section Leaf.
Context `{CustomMarshal}.
Variable table : list Z.
Context `{!MarshalLaws table}.
Variable h : heap.
Variables objs outs : list Z.
Hypothesis S : source table h objs outs.
Variable code : code_area.
Variables (base total color num : Z) (g0 : heap).
Hypothesis base_ok : 0 <= base /\ base mod 8 = 0 /\ base + 8 * total <= 2 ^ 63.
Hypothesis color_ok : color = Caml_white \/ color = Caml_black.

Abbreviation tag_of := (tag_of h).
Abbreviation wosize_of := (wosize_of h).
Abbreviation field_of := (field_of h).
Abbreviation whsizes := (whsizes h).
Abbreviation irep := (irep h objs base total color num g0).
Abbreviation builds := (builds h objs outs base total color num g0).
Abbreviation copied := (copied h objs outs base color g0).
Abbreviation lo := (lo h base).

Variables (seen : list Z) (o : Z).
Hypothesis Ho : o ∈ objs.
Hypothesis sub : forall x, x ∈ seen -> x ∈ objs.
Hypothesis Ht : whsizes (seen ++ [o]) <= total.
Hypothesis Hnum : Z.of_nat (length seen) < num.
Abbreviation c := (8 * lo seen + 8).

Lemma facts : 0 <= base / 8 /\ base / 8 <= lo seen /\ lo seen + 1 + wosize_of o <= base / 8 + total /\ c / 8 = lo seen + 1 /\ c mod 8 = 0 /\ 8 <= c /\
  c + 8 * wosize_of o <= 2 ^ 63 /\ 0 < wosize_of o < 2 ^ 54 /\ in_s 64 c /\ 0 <= whsizes seen.
Proof. apply (c_facts table h objs outs S base total base_ok seen o); done. Qed.

(** The object is announced. *)
Lemma obj_ok {B} src s (Q : B -> istate -> Prop) k : irep seen src s ->
  (forall s', irep (seen ++ [o]) src s' -> words (i_heap s') = <[lo seen := Make_header (wosize_of o) (tag_of o) color]> (words (i_heap s)) -> ok_run Q (k c s')) ->
  ok_run Q (then_ (intern_obj (wosize_of o) (tag_of o)) k s).
Proof.
  intros I Hk. pose proof facts as F. eapply (intern_obj_ok table h objs outs S base total color num g0 base_ok seen src s o); try done. lia.
Qed.

Lemma built rest s s' : irep (seen ++ [o]) rest s' ->
  (forall a, a < lo seen \/ lo seen + 1 + wosize_of o <= a -> words (i_heap s') !! a = words (i_heap s) !! a) ->
  copied (seen ++ [o]) (i_heap s') o c -> builds seen o (seen ++ [o]) rest None s c s'.
Proof.
  intros I Hf Hc. eapply (leaf_built table h objs outs S base total color num g0 base_ok); try done. intros a Ha. apply Hf. rewrite lo_snoc in Ha. done.
Qed.

Lemma header_read g : words g !! (c / 8 - 1) = Some (Make_header (wosize_of o) (tag_of o) color) ->
  Hd_val g c = Ok (Make_header (wosize_of o) (tag_of o) color) /\ Wosize_hd (Make_header (wosize_of o) (tag_of o) color) = wosize_of o.
Proof.
  intros Hg. pose proof facts as (F1 & F2 & F3 & F4 & F5 & F6 & F7 & F8 & F9 & F10). split; [rewrite Hd_val_word by lia; by apply rd_some|].
  apply Make_tag; [lia| |done]. apply Tag_bound.
Qed.

Lemma change_ext {T B} (f f' : T -> res T) (k : unit -> prog T B) s : f s = f' s -> then_ (change f) k s = then_ (change f') k s.
Proof. intros E. unfold then_, change. by rewrite E. Qed.

Lemma string_leaf len bs rest s : tag_of o = String_tag -> caml_string_length h o = Ok len -> get_bytes h o (Z.to_nat len) = Ok bs ->
  irep seen (bs ++ rest) s -> ok_run (builds seen o (seen ++ [o]) rest None s) (read_string len s).
Proof.
  intros Htag Hl Hbs I. pose proof facts as (F1 & F2 & F3 & F4 & F5 & F6 & F7 & F8 & F9 & F10).
  destruct (ob_string _ _ _ _ _ (ob table h objs outs S o Ho) Htag) as (len' & H0 & Hl' & Hw). rewrite Hl in Hl'. injection Hl' as <-.
  destruct (get_bytes_bytes _ _ _ _ Hbs) as [Hby Hlen].
  unfold read_string. rewrite <- Hw. rewrite <- Htag at 1. eapply obj_ok; [done|]. intros s1 I1 E1.
  assert ((c + 8 * (wosize_of o - 1)) / 8 = lo seen + wosize_of o) as Ea by zdiv.
  eapply (write_word_ok h objs base total color num g0 base_ok (seen ++ [o])); [done|lia|zdiv|rewrite Ea; lia|]. rewrite Ea. intros s2 I2 E2.
  set (last := wosize_of o * 8 - 1). assert (0 <= last - len < 8) as Hpad by (unfold last; zdiv).
  erewrite (change_ext _ (fun s => h <- set_bytes (i_heap s) (c + last) [last - len]; Ok (i_set_heap s h))) by (cbn; by destruct (set_byte _ _ _)).
  eapply (bytes_ok h objs base total color num g0 (seen ++ [o])); [done|lia|unfold blen, last; cbn; lia| |repeat constructor; unfold is_byte; lia|].
  { intros j Hj. unfold blen in Hj. cbn in Hj. assert (j = 0) as -> by lia. assert ((c + last + 0) / 8 = lo seen + wosize_of o) as -> by (unfold last; zdiv). lia. }
  intros s3 I3 W3 B3. rewrite <- Hlen.
  eapply (readblock_ok h objs base total color num g0 (seen ++ [o])); [done|lia|unfold blen; rewrite Hlen; zdiv| |done|].
  { intros j Hj. unfold blen in Hj. rewrite Hlen in Hj. assert ((c + j) / 8 = lo seen + 1 + j / 8) as -> by zdiv. zdiv. }
  intros s4 I4 W4 B4. unfold blen in W4. rewrite Hlen in W4. change (blen [_]) with 1 in W3. apply (built rest); [done| |].
  - intros a Ha. rewrite W4, W3, E2, E1 by (unfold last; zdiv). by rewrite !lookup_insert_ne by lia.
  - assert (words (i_heap s4) !! (c / 8 - 1) = Some (Make_header (wosize_of o) (tag_of o) color)) as Hh.
    { rewrite F4. replace (lo seen + 1 - 1) with (lo seen) by lia. rewrite W4, W3, E2, E1 by (unfold last; zdiv).
      rewrite lookup_insert_ne by lia. by rewrite lookup_insert_eq. }
    split; try (rewrite Htag; done); [done| |].
    + intros _ len' bs' Hl2 Hb2. rewrite Hl in Hl2. injection Hl2 as <-. rewrite Hbs in Hb2. injection Hb2 as <-. split.
      * destruct (header_read _ Hh) as [Hhd Hwo]. unfold caml_string_length, Bosize_val, Wosize_val. rewrite Hhd. cbn [bind]. rewrite Hwo.
        rewrite (wrap_small 64 (wosize_of o * 8)), (wrap_small 64) by lia. fold last. unfold Byte. rewrite B4 by (unfold last; lia).
        rewrite lookup_ge_None_2 by (rewrite Hlen; unfold last; zdiv). rewrite B3 by (unfold last; lia). replace (c + last - (c + last)) with 0 by lia.
        change ([last - len] !! Z.to_nat 0) with (Some (last - len)). rewrite (proj2 (Z.leb_le _ _)) by lia. cbn [bind]. rewrite (swrap_small 8) by lia. rewrite (wrap_small 64); [f_equal; lia|]. unfold last in *. zdiv.
      * apply get_bytes_get. split; [done|]. intros j b Hj. pose proof (lookup_lt_Some _ _ _ Hj) as Hlt. rewrite B4 by zdiv.
        replace (Z.to_nat (c + Z.of_nat j - c)) with j by lia. rewrite Hj. by rewrite (proj2 (Z.leb_le _ _)) by lia.
    + rewrite Htag. by intros [|].
Qed.

(** Doubles: word by word, each the bytes of the source. *)
Lemma double_word i : 0 <= i < wosize_of o -> exists w, words h !! (o / 8 + i) = Some w /\ le_value (le_bytes 8 w) = w.
Proof.
  intros Hi. destruct (ob_words _ _ _ _ _ (ob table h objs outs S o Ho) i ltac:(lia)) as (w & Hw & Hr). exists w. split; [done|].
  rewrite le_value_bytes. by apply Z.mod_small.
Qed.

Lemma doubles_read n i bs rest s (Q : Z -> istate -> Prop) : i + Z.of_nat n = wosize_of o -> 0 <= i ->
  get_bytes h (o + 8 * i) (8 * n) = Ok bs -> irep (seen ++ [o]) (bs ++ rest) s ->
  (forall s', irep (seen ++ [o]) rest s' ->
    (forall a, a < lo seen + 1 + i \/ lo seen + 1 + wosize_of o <= a -> words (i_heap s') !! a = words (i_heap s) !! a) ->
    (forall j, i <= j < wosize_of o -> words (i_heap s') !! (c / 8 + j) = words h !! (o / 8 + j)) -> ok_run Q (ret c s')) ->
  ok_run Q (then_ (read_doubles false (c + 8 * i) n) (fun _ => ret c) s).
Proof.
  pose proof facts as (F1 & F2 & F3 & F4 & F5 & F6 & F7 & F8 & F9 & F10). pose proof (addr table h objs outs S o Ho) as (A1 & A2 & A3).
  revert i bs s. induction n as [|n IH]; intros i bs s Hi H0 Hbs I Hk.
  - cbn in Hbs. injection Hbs as <-. unfold then_. cbn [read_doubles]. apply Hk; [done|done|]. intros j Hj. lia.
  - destruct (double_word i ltac:(lia)) as (w & Hw & Hle). replace (8 * Datatypes.S n)%nat with (8 + 8 * n)%nat in Hbs by lia.
    assert (exists bs', bs = le_bytes 8 w ++ bs' /\ get_bytes h (o + 8 * (i + 1)) (8 * n) = Ok bs') as (bs' & -> & Hbs').
    { apply get_bytes_get in Hbs as [Hl Hg]. exists (drop 8 bs).
      assert (get_bytes h (o + 8 * i) 8 = Ok (take 8 bs)) as H8.
      { apply get_bytes_get. rewrite length_take. split; [lia|]. intros j b Hj. apply Hg. rewrite lookup_take in Hj. by destruct (decide _). }
      rewrite (get_bytes_word h (o + 8 * i) w) in H8; [|lia|zdiv|by assert ((o + 8 * i) / 8 = o / 8 + i) as -> by zdiv].
      assert (take 8 bs = le_bytes 8 w) as <- by congruence. rewrite take_drop. split; [done|]. apply get_bytes_get. rewrite length_drop. split; [lia|]. intros j b Hj. rewrite lookup_drop in Hj.
      apply Hg in Hj. replace (o + 8 * (i + 1) + Z.of_nat j) with (o + 8 * i + Z.of_nat (8 + j)) by lia. done. }
    cbn [read_doubles]. unfold read_double. rewrite !then_assoc'. rewrite <- app_assoc in I. eapply (ok_take h objs base total color num g0 8 (le_bytes 8 w)); [done|apply length_le_bytes|].
    intros s1 I1 E1. rewrite Hle. assert ((c + 8 * i) / 8 = lo seen + 1 + i) as Ea by zdiv.
    eapply (write_word_ok h objs base total color num g0 base_ok (seen ++ [o])); [done|lia|zdiv|rewrite Ea; lia|]. rewrite Ea. intros s2 I2 E2.
    replace (c + 8 * i + 8) with (c + 8 * (i + 1)) by lia. eapply IH; [lia|lia|done|done|]. intros s3 I3 W3 D3. apply Hk; [done| |].
    + intros a Ha. rewrite W3 by lia. rewrite E2, E1. by rewrite lookup_insert_ne by lia.
    + intros j Hj. destruct (decide (j = i)) as [->|Hne]; [|apply D3; lia]. rewrite F4, W3, E2 by lia. by rewrite lookup_insert_eq.
Qed.

Lemma doubles_copied rest s s1 s2 : tag_of o = Double_tag \/ tag_of o = Double_array_tag ->
  words (i_heap s1) = <[lo seen := Make_header (wosize_of o) (tag_of o) color]> (words (i_heap s)) ->
  irep (seen ++ [o]) rest s2 ->
  (forall a, a < lo seen + 1 + 0 \/ lo seen + 1 + wosize_of o <= a -> words (i_heap s2) !! a = words (i_heap s1) !! a) ->
  (forall j, 0 <= j < wosize_of o -> words (i_heap s2) !! (c / 8 + j) = words h !! (o / 8 + j)) ->
  builds seen o (seen ++ [o]) rest None s c s2.
Proof.
  intros Htag E1 I2 W2 D2. pose proof facts as (F1 & F2 & F3 & F4 & F5 & F6 & F7 & F8 & F9 & F10). apply (built rest); [done| |].
  - intros a Ha. rewrite W2, E1 by lia. by rewrite lookup_insert_ne by lia.
  - split.
    + rewrite F4, W2, E1 by lia. replace (lo seen + 1 - 1) with (lo seen) by lia. by rewrite lookup_insert_eq.
    + destruct Htag as [-> | ->]; done.
    + destruct Htag as [-> | ->]; done.
    + intros _. exact D2.
    + destruct Htag as [-> | ->]; done.
Qed.

Lemma double_leaf bs rest s : tag_of o = Double_tag -> get_bytes h o 8 = Ok bs -> irep seen (bs ++ rest) s ->
  ok_run (builds seen o (seen ++ [o]) rest None s) ((v <~ intern_obj Double_wosize Double_tag; read_double false v;; ret v) s).
Proof.
  intros Htag Hbs I. pose proof (ob_double _ _ _ _ _ (ob table h objs outs S o Ho) Htag) as Hw.
  change Double_wosize with 1. rewrite <- Hw, <- Htag. eapply obj_ok; [done|]. intros s1 I1 E1.
  pose proof (doubles_read 1 0 bs rest s1 (builds seen o (seen ++ [o]) rest None s)) as D. cbn [read_doubles] in D. rewrite then_assoc' in D.
  replace (c + 8 * 0) with c in D by lia. replace (o + 8 * 0) with o in D by lia. apply D; [lia|lia|done|done|].
  intros s2 I2 W2 D2. eapply doubles_copied; [by left|done|done|done|done].
Qed.

Lemma double_array_leaf bs rest s : tag_of o = Double_array_tag -> get_bytes h o (Z.to_nat (wosize_of o * 8)) = Ok bs -> irep seen (bs ++ rest) s ->
  ok_run (builds seen o (seen ++ [o]) rest None s) (read_double_array false (wosize_of o) s).
Proof.
  intros Htag Hbs I. pose proof facts as (F1 & F2 & F3 & F4 & F5 & F6 & F7 & F8 & F9 & F10). unfold read_double_array, Double_wosize. rewrite Z.mul_1_r, <- Htag.
  eapply obj_ok; [done|]. intros s1 I1 E1. replace c with (c + 8 * 0) at 1 by lia. eapply (doubles_read _ 0 bs rest); [lia|lia| |done|].
  - rewrite Z.mul_0_r, Z.add_0_r. by replace (8 * Z.to_nat (wosize_of o))%nat with (Z.to_nat (wosize_of o * 8)) by lia.
  - intros s2 I2 W2 D2. eapply doubles_copied; [by right|done|done|done|done].
Qed.

Lemma c_string_app ident rest : Forall (fun b => 0 < b < 256) ident -> c_string (ident ++ 0 :: rest) = Some ident.
Proof.
  intros Hi. induction Hi as [|b ident Hb Hi IH]; [done|]. cbn. rewrite (proj2 (Z.eqb_neq b 0)) by lia. by rewrite IH.
Qed.

Lemma custom_leaf ser ws n32 n64 rest s : tag_of o = Custom_tag -> custom_serialize (field_of o 0) = Some ser -> ser h o = Ok (ws, n32, n64) ->
  irep seen ((custom_identifier (field_of o 0) ++ 0 :: concat ws) ++ rest) s ->
  ok_run (builds seen o (seen ++ [o]) rest None s) (read_custom table s).
Proof.
  intros Htag Es Hser I. pose proof facts as (F1 & F2 & F3 & F4 & F5 & F6 & F7 & F8 & F9 & F10).
  destruct (ob_custom _ _ _ _ _ (ob table h objs outs S o Ho) Htag _ Es) as (Hin & ws' & n32' & n64' & Hser' & H0 & Hw).
  rewrite Hser in Hser'. injection Hser' as <- <- <-.
  destruct (deserialize_serialize _ _ Hin Es _ _ _ _ _ Hser) as (Hr & deser & data & Hdes & Hdata & Hback).
  destruct (identifier_finds _ _ Hin Es) as [Hfind Hid]. set (ident := custom_identifier (field_of o 0)) in *. destruct (get_bytes_bytes _ _ _ _ Hdata) as [Hby Hlen].
  unfold read_custom. eapply (ok_look _ ident); [rewrite (ir_src _ _ _ _ _ _ _ _ _ _ I), <- app_assoc; cbn [app]; by rewrite c_string_app|]. rewrite Hfind.
  replace ((ident ++ 0 :: concat ws) ++ rest) with ((ident ++ [0]) ++ (concat ws ++ rest)) in I by (rewrite <- !app_assoc; done).
  eapply (ok_take h objs base total color num g0 _ (ident ++ [0])); [done|rewrite length_app; cbn; lia|]. intros s1 I1 E1. rewrite Hdes.
  eapply ok_look; [by rewrite (ir_src _ _ _ _ _ _ _ _ _ _ I1)|]. rewrite Hback.
  match goal with |- ok_run ?Q (then_ (change _) ?k s1) =>
    assert (then_ (change (fun s => h <- set_bytes (i_heap s) (intern_dest s + 16) data; Ok (i_set_src (i_set_heap s h) rest))) k s1 =
      then_ (change (fun s => h <- set_bytes (i_heap s) (c + 8) data; Ok (i_set_heap s h))) (fun _ => then_ (change (fun s => Ok (i_set_src s rest))) k) s1) as -> end.
  { unfold then_, change. rewrite (ir_dest _ _ _ _ _ _ _ _ _ _ I1). replace (base + 8 * whsizes seen + 16) with (c + 8) by (unfold CamlInternOk.lo; zdiv).
    by destruct (set_bytes _ _ _). }
  assert (blen data = n64) as Hbl by (unfold blen; lia).
  eapply (bytes_ok h objs base total color num g0 seen); [done|lia|rewrite Hbl; zdiv| |done|].
  { intros j Hj. assert ((c + 8 + j) / 8 = lo seen + 2 + j / 8) as -> by zdiv. rewrite Hbl in Hj. zdiv. }
  intros s2 I2 W2 B2. rewrite Hbl in W2. eapply ok_change; [done|]. set (s2' := i_set_src s2 rest).
  assert (irep seen rest s2') as I2' by (destruct I2; by split).
  assert (1 + Z.quot (u64 (n64 + 8 - 1)) 8 = wosize_of o) as ->.
  { rewrite (wrap_small 64), Z.quot_div_nonneg by lia. rewrite Hw. do 2 f_equal. lia. }
  rewrite <- Htag. eapply obj_ok; [exact I2'|]. intros s3 I3 E3. change (words (i_heap s2')) with (words (i_heap s2)) in E3.
  eapply (write_word_ok h objs base total color num g0 base_ok (seen ++ [o])); [done|lia|done|rewrite F4; lia|]. rewrite F4. intros s4 I4 E4. apply (built rest); [done| |].
  - intros a Ha. rewrite E4, E3. rewrite !lookup_insert_ne by lia. rewrite W2 by zdiv. by rewrite E1.
  - split; try (rewrite Htag; done).
    + rewrite F4, E4, E3. replace (lo seen + 1 - 1) with (lo seen) by lia. rewrite lookup_insert_ne by lia. by rewrite lookup_insert_eq.
    + rewrite Htag. by intros [|].
    + intros _. split; [by rewrite F4, E4, lookup_insert_eq|]. intros ser' ws' m32 m64 data' Es' Hser' Hdata'.
      rewrite Es in Es'. injection Es' as <-. rewrite Hser in Hser'. injection Hser' as <- <- <-. rewrite Hdata in Hdata'. injection Hdata' as <-.
      eapply (get_bytes_words (i_heap s2)); [lia|zdiv| |].
      * intros w Hw1 Hw2. rewrite E4, E3. by rewrite !lookup_insert_ne by zdiv.
      * apply get_bytes_get. split; [done|]. intros j b Hj. pose proof (lookup_lt_Some _ _ _ Hj) as Hlt. rewrite B2 by zdiv.
        replace (Z.to_nat (c + 8 + Z.of_nat j - (c + 8))) with j by lia. rewrite Hj. by rewrite (proj2 (Z.leb_le _ _)) by lia.
Qed.
End Leaf.
