(* ===== verification/CamlInternRec.v ===== *)
(** Input of values: reading an encoding builds a copy.  By induction on the
    encoding: the copies of the new objects follow those already made, nothing
    else in memory changes but the destination, and the value returned stands
    for the value that was written. *)
From stdpp Require Import base gmap list.
From Stdlib Require Import ZArith Lia.
From S2P Require Import Prelude CamlMemory CamlValues CamlIntext CamlIntextOk CamlExtern CamlGraph CamlExternOk CamlExternRun CamlIntern CamlInternOk.
Open Scope Z_scope.

Section Intern.
Context `{CustomMarshal}.
Variable table : list Z.
Context `{!MarshalLaws table}.
Variable h : heap.
Variables objs outs : list Z.
Hypothesis S : source table h objs outs.
Variable code : code_area.
Hypothesis code_ok : 0 <= caml_code_area_start code /\ caml_code_area_end code <= caml_code_area_start code + 2 ^ 32 /\ length (caml_code_checksum code) = 16%nat.
Variables (base total color num : Z) (g0 : heap).
Hypothesis base_ok : 0 <= base /\ base mod 8 = 0 /\ base + 8 * total <= 2 ^ 63.
Hypothesis total_ok : total < 2 ^ 32.
Hypothesis color_ok : color = Caml_white \/ color = Caml_black.
Hypothesis atoms_ok : 0 <= caml_atom_table g0 /\ caml_atom_table g0 + 8 * 257 <= 2 ^ 63.

Abbreviation hd_of := (hd_of h).
Abbreviation tag_of := (tag_of h).
Abbreviation wosize_of := (wosize_of h).
Abbreviation field_of := (field_of h).
Abbreviation value := (value h objs outs).
Abbreviation whsizes := (whsizes h).
Abbreviation irep := (irep h objs base total color num g0).
Abbreviation builds := (builds h objs outs base total color num g0).
Abbreviation copied := (copied h objs outs base color g0).
Abbreviation same := (same h objs outs base g0).
Abbreviation copies := (copies h base).
Abbreviation lo := (lo h base).
Abbreviation dest_ok := (dest_ok h base).
Abbreviation enc := (enc h code objs outs).
Abbreviation encs := (encs h code objs outs).
Abbreviation intern_rec := (intern_rec code table).

(** * Places of the copies *)
Lemma whsizes_prefix l l' : l `prefix_of` l' -> (forall o, o ∈ l' -> o ∈ objs) -> whsizes l <= whsizes l'.
Proof.
  intros [k ->] Hs. rewrite whsizes_app. pose proof (whsizes_nonneg table h objs outs S k (fun o Ho => Hs o (proj2 (elem_of_app _ _ _) (or_intror Ho)))). lia.
Qed.

Lemma copy_place seen k o c : (forall o, o ∈ seen -> o ∈ objs) -> whsizes seen <= total -> seen !! k = Some o -> copies seen !! k = Some c ->
  c = 8 * lo (take k seen) + 8 /\ base / 8 <= lo (take k seen) /\ lo (take k seen) + 1 + wosize_of o = lo (take (Datatypes.S k) seen) /\ lo (take (Datatypes.S k) seen) <= lo seen /\
  c / 8 = lo (take k seen) + 1 /\ c mod 8 = 0 /\ 8 <= c /\ c + 8 * wosize_of o <= 2 ^ 63 /\ lo seen <= base / 8 + total.
Proof.
  intros Hs Ht Hk Hc. apply copies_get in Hc as [-> Hlt]. destruct base_ok as (B1 & B2 & B3).
  assert (whsizes (take (Datatypes.S k) seen) = whsizes (take k seen) + 1 + wosize_of o) as E.
  { rewrite (take_S_r _ _ _ Hk), whsizes_app, whsizes_cons. cbn. lia. }
  assert (forall n, 0 <= whsizes (take n seen) <= whsizes seen) as Hn.
  { intros n. split; [|apply whsizes_prefix; [apply prefix_take|done]].
    pose proof (whsizes_nonneg table h objs outs S (take n seen)) as Hw. assert (forall o, o ∈ take n seen -> o ∈ objs) as Hto by (intros x Hx; apply Hs; by eapply subseteq_take).
    specialize (Hw Hto). lia. }
  pose proof (Hn k). pose proof (Hn (Datatypes.S k)). unfold CamlInternOk.lo. split_and!; zdiv || lia.
Qed.

(** A copy is not affected by what is written elsewhere, nor by more objects. *)
Lemma copied_keep seen seen' g g' k o c : (forall o, o ∈ seen -> o ∈ objs) -> whsizes seen <= total -> seen !! k = Some o -> copies seen !! k = Some c ->
  seen `prefix_of` seen' -> (forall a, lo (take k seen) <= a < lo (take (Datatypes.S k) seen) -> words g' !! a = words g !! a) ->
  copied seen g o c -> copied seen' g' o c.
Proof.
  intros Hs Ht Hk Hc Hp Hw [C1 C2 C3 C4 C5]. destruct (copy_place _ _ _ _ Hs Ht Hk Hc) as (E & P1 & P2 & P3 & P4 & P5 & P6 & P7 & P8).
  assert (o ∈ objs) as Ho by by eapply Hs, list_elem_of_lookup_2. pose proof (wosize_bound table h objs outs S o Ho) as Hwo.
  assert (words g' !! (c / 8 - 1) = words g !! (c / 8 - 1)) as Eh by (apply Hw; lia).
  assert (Wosize_hd (Make_header (wosize_of o) (tag_of o) color) = wosize_of o) as Hsz by (apply Make_tag; [lia|apply Tag_bound|done]).
  split.
  - by rewrite Eh.
  - intros Hsc i Hi. destruct (C2 Hsc i Hi) as (r & Hr & Hrr & Hsm). exists r. rewrite Hw by lia. split_and!; [done|done|by eapply same_mono].
  - intros Htag len bs Hl Hb. destruct (C3 Htag len bs Hl Hb) as [D1 D2]. split.
    + rewrite <- D1. unfold caml_string_length, Bosize_val, Wosize_val. rewrite !Hd_val_word by lia.
      rewrite (rd_some _ _ _ C1), (rd_some (words g') (c / 8 - 1) (Make_header (wosize_of o) (tag_of o) color)) by (by rewrite Eh). cbn [bind].
      rewrite Hsz, (wrap_small 64 (wosize_of o * 8)), (wrap_small 64) by lia. unfold Byte, byte_at, rd. rewrite (wrap_small 64) by lia.
      assert ((c + (wosize_of o * 8 - 1)) / 8 = c / 8 + (wosize_of o - 1)) as -> by zdiv. by rewrite Hw by lia.
    + assert (Z.of_nat (Z.to_nat len) <= 8 * wosize_of o) as Hle.
      { destruct (ob_string _ _ _ _ _ (ob table h objs outs S o Ho) Htag) as (len' & Hl0 & Hl' & Hw'). rewrite Hl in Hl'. injection Hl' as <-. rewrite Hw'. zdiv. }
      eapply get_bytes_words; [| | |exact D2]; [lia|lia|]. intros w Hw1 Hw2. apply Hw. zdiv.
  - intros Htag i Hi. rewrite Hw by lia. by apply C4.
  - intros Htag. destruct (C5 Htag) as [D1 D2]. split; [rewrite Hw by lia; done|]. intros ser ws n32 n64 data Es Hser Hd. eapply get_bytes_words; [| | |by eapply D2]; [lia| |].
    + destruct (ob_custom _ _ _ _ _ (ob table h objs outs S o Ho) Htag _ Es) as (_ & ws' & n32' & n64' & Hser' & H0 & Hw'). rewrite Hser in Hser'. injection Hser' as <- <- <-. zdiv.
    + destruct (ob_custom _ _ _ _ _ (ob table h objs outs S o Ho) Htag _ Es) as (_ & ws' & n32' & n64' & Hser' & H0 & Hw'). rewrite Hser in Hser'. injection Hser' as <- <- <-.
      intros w Hw1 Hw2. apply Hw. zdiv.
Qed.

(** * Dispatch on the code *)
Definition dispatch (rec : option Z -> intern Z) (dest : option Z) (c : Z) : intern Z :=
  if PREFIX_SMALL_BLOCK <=? c then read_block rec dest (Z.land c 0xF) (Z.land (Z.shiftr c 4) 0x7)
  else if c =? CODE_BLOCK32 then header <~ read32u; read_block rec dest (Tag_hd header) (Wosize_hd header)
  else if c =? CODE_BLOCK64 then header <~ read64s; read_block rec dest (Tag_hd (u64 header)) (Wosize_hd (u64 header))
  else if c =? CODE_INFIXPOINTER then
    ofs <~ read32u;
    clos <~ rec None;
    store dest (s64 (clos + ofs));;
    ret (s64 (clos + ofs))
  else v <~ intern_leaf code table c; store dest v;; ret v.

Lemma be_value_1 b : be_value [b] = b.
Proof. done. Qed.

Lemma rec_step fuel dest b bs rest seen s (Q : Z -> istate -> Prop) : irep seen ((b :: bs) ++ rest) s ->
  (forall s1, irep seen (bs ++ rest) s1 -> i_heap s1 = i_heap s -> ok_run Q (dispatch (intern_rec fuel) dest b s1)) ->
  ok_run Q (intern_rec (Datatypes.S fuel) dest s).
Proof.
  intros I Hk. change (intern_rec (Datatypes.S fuel) dest s) with (then_ read8u (dispatch (intern_rec fuel) dest) s). unfold read8u.
  eapply (ok_read h objs base total color num g0 1 [b]); [exact I|done|]. intros s1 I1 E1. rewrite be_value_1. by apply Hk.
Qed.

(** The value is stored. *)
Lemma store_ok seen v seen' rest s dest r s1 : dest_ok seen dest -> whsizes seen' <= total -> builds seen v seen' rest None s r s1 ->
  ok_run (builds seen v seen' rest dest s) ((store dest r;; ret r) s1).
Proof.
  intros Hd Ht B. destruct dest as [d|]; [|exact B]. destruct Hd as (Hd1 & Hd2 & Hd3). cbn [store]. destruct B as (I & Hp & Hr & Hs & Hf & _ & Hc).
  pose proof (ir_sub _ _ _ _ _ _ _ _ _ _ I) as sub. pose proof (whsizes_prefix _ _ Hp sub) as Hle. destruct base_ok as (B1 & B2 & B3).
  assert (lo seen <= lo seen' /\ lo seen' <= base / 8 + total) as [L1 L2] by (unfold CamlInternOk.lo; lia).
  eapply (write_word_ok h objs base total color num g0 base_ok seen'); [done|zdiv|done|lia|]. intros s2 I2 E2. cbn. split_and!; try done.
  - intros a Ha Hne. rewrite E2, lookup_insert_ne; [by apply Hf|]. intros <-. apply Hne. f_equal. zdiv.
  - intros d' [= <-]. by rewrite E2, lookup_insert_eq.
  - intros k o c Hk Hko Hkc. destruct (copy_place _ _ _ _ sub Ht Hko Hkc) as (E & P1 & P2 & P3 & P4 & P5 & P6 & P7 & P8).
    eapply (copied_keep seen' seen'); [done|done|done|done|done| |by eapply Hc]. intros a Ha. rewrite E2, lookup_insert_ne; [done|]. intros <-.
    assert (lo seen <= lo (take k seen')); [|lia]. assert (seen `prefix_of` take k seen') as Hpk.
    { destruct Hp as [l ->]. rewrite take_app_ge by lia. by apply prefix_app_r. }
    assert (whsizes seen <= whsizes (take k seen')); [|unfold CamlInternOk.lo; lia]. apply whsizes_prefix; [done|]. intros x Hx. apply sub. by eapply subseteq_take.
Qed.

(** A value that needs no block. *)
Lemma immediate seen v rest s r s1 : irep seen rest s1 -> i_heap s1 = i_heap s -> in_s 64 r -> same seen v r -> builds seen v seen rest None s r s1.
Proof.
  intros I E Hr Hs. split_and!; [done|done|done|done|by rewrite E|done|]. intros k o c Hk Hko. apply lookup_lt_Some in Hko. lia.
Qed.

(** A code without recursion. *)
Lemma leaf_step fuel dest b bs seen v seen' rest s : irep seen ((b :: bs) ++ rest) s -> dest_ok seen dest -> whsizes seen' <= total ->
  b < PREFIX_SMALL_BLOCK -> b <> CODE_BLOCK32 -> b <> CODE_BLOCK64 -> b <> CODE_INFIXPOINTER ->
  (forall s1, irep seen (bs ++ rest) s1 -> i_heap s1 = i_heap s -> ok_run (builds seen v seen' rest None s) (intern_leaf code table b s1)) ->
  ok_run (builds seen v seen' rest dest s) (intern_rec (Datatypes.S fuel) dest s).
Proof.
  intros I Hd Ht H1 H2 H3 H4 Hk. eapply rec_step; [done|]. intros s1 I1 E1. unfold dispatch.
  rewrite (proj2 (Z.leb_gt _ _)), !(proj2 (Z.eqb_neq _ _)) by done. eapply ok_then; [by apply Hk|]. intros r s2 B. by apply store_ok.
Qed.

(** * Values without objects of their own *)
Lemma long_val v : Is_long v = true -> in_s 64 v -> Val_long (Long_val v) = v /\ - 2 ^ 62 <= Long_val v < 2 ^ 62.
Proof.
  intros Hl Hr. unfold Is_long in Hl. change 1 with (Z.ones 1) in Hl. rewrite Z.land_ones in Hl by lia. apply negb_true_iff, Z.eqb_neq in Hl. change (2 ^ 1) with 2 in Hl.
  unfold in_s in Hr. change (2 ^ (64 - 1)) with (2 * 2 ^ 62) in Hr. unfold Val_long, Long_val. rewrite Z.shiftl_mul_pow2, Z.shiftr_div_pow2 by lia. change (2 ^ 1) with 2.
  split; [|zdiv]. assert (v / 2 * 2 + 1 = v) as -> by zdiv. apply swrap_small; [lia|]. change (2 ^ (64 - 1)) with (2 * 2 ^ 62). lia.
Qed.

Section Immediate.
Variables (seen : list Z) (rest : bytes) (s : istate) (dest : option Z) (fuel : nat).
Hypothesis D : dest_ok seen dest.
Hypothesis T : whsizes seen <= total.

(** A code followed by a number. *)
Lemma number_ok {n} b bs v seen' conv (val : Z -> intern Z) :
  irep seen ((b :: bs) ++ rest) s -> length bs = n -> whsizes seen' <= total ->
  b < PREFIX_SMALL_BLOCK -> b <> CODE_BLOCK32 -> b <> CODE_BLOCK64 -> b <> CODE_INFIXPOINTER ->
  (forall s1, intern_leaf code table b s1 = then_ (then_ (take_input n) (fun b => ret (conv b))) val s1) ->
  (forall s1, irep seen rest s1 -> i_heap s1 = i_heap s -> ok_run (builds seen v seen' rest None s) (val (conv bs) s1)) ->
  ok_run (builds seen v seen' rest dest s) (intern_rec (Datatypes.S fuel) dest s).
Proof.
  intros I Hn T' H1 H2 H3 H4 Hl Hk. eapply (leaf_step _ _ _ bs); [exact I|done|done|done|done|done|done|]. intros s1 I1 E1. rewrite Hl.
  eapply (ok_read h objs base total color num g0 n bs); [exact I1|done|]. intros s2 I2 E2. apply Hk; [done|congruence].
Qed.

Lemma int_ok v : Is_long v = true -> in_s 64 v -> irep seen (int_bytes (Long_val v) ++ rest) s ->
  ok_run (builds seen v seen rest dest s) (intern_rec (Datatypes.S fuel) dest s).
Proof.
  intros Hl Hr I. destruct (long_val v Hl Hr) as [Ev Hn]. set (n := Long_val v) in *. unfold int_bytes in I.
  assert (forall s1 w, irep seen rest s1 -> i_heap s1 = i_heap s -> w = n -> ok_run (builds seen v seen rest None s) (ret (Val_long w) s1)) as Hret.
  { intros s1 w I1 E1 ->. rewrite Ev. apply immediate; [done|done|done|by apply same_long]. }
  destruct ((0 <=? n) && (n <? 0x40)) eqn:E1; zbool.
  { assert (u8 (PREFIX_SMALL_INT + n) = 64 + n) as Eu by (unfold PREFIX_SMALL_INT; rewrite (wrap_small 8); lia). rewrite Eu in I.
    eapply (leaf_step _ _ (64 + n) []); [exact I|done|done|unfold PREFIX_SMALL_BLOCK; lia|unfold CODE_BLOCK32; lia|unfold CODE_BLOCK64; lia|unfold CODE_INFIXPOINTER; lia|].
    intros s1 I1 Es. unfold intern_leaf. rewrite (proj2 (Z.leb_le _ _)) by (unfold PREFIX_SMALL_INT; lia). apply Hret; [done|done|].
    change 0x3F with (Z.ones 6). rewrite Z.land_ones by lia. change (2 ^ 6) with 64. zdiv. }
  destruct ((- 2 ^ 7 <=? n) && (n <? 2 ^ 7)) eqn:E2.
  { zbool. eapply (number_ok _ (be_bytes 1 n) v seen be_signed (fun n => ret (Val_long n))); [exact I|apply length_be|done..|]. intros s1 I1 Es. apply Hret; [done|done|]. rewrite be_signed_bytes by lia. apply swrap_small; lia. }
  destruct ((- 2 ^ 15 <=? n) && (n <? 2 ^ 15)) eqn:E3.
  { zbool. eapply (number_ok _ (be_bytes 2 n) v seen be_signed (fun n => ret (Val_long n))); [exact I|apply length_be|done..|]. intros s1 I1 Es. apply Hret; [done|done|]. rewrite be_signed_bytes by lia. apply swrap_small; lia. }
  destruct ((n <? - 2 ^ 31) || (2 ^ 31 <=? n)) eqn:E4.
  - eapply (number_ok _ (be_bytes 8 n) v seen (fun b => s64 (be_value b)) (fun n => ret (Val_long n))); [exact I|apply length_be|done..|]. intros s1 I1 Es. apply Hret; [done|done|].
    rewrite be_value_bytes. change (8 * Z.of_nat 8) with 64. change (n mod 2 ^ 64) with (u64 n). rewrite swrap_wrap by lia. apply swrap_small; [lia|]. change (2 ^ (64 - 1)) with (2 * 2 ^ 62). lia.
  - apply orb_false_iff in E4 as [E4 E5]. zbool. eapply (number_ok _ (be_bytes 4 n) v seen be_signed (fun n => ret (Val_long n))); [exact I|apply length_be|done..|]. intros s1 I1 Es. apply Hret; [done|done|].
    rewrite be_signed_bytes by lia. apply swrap_small; lia.
Qed.

(** An object that was already read. *)
Lemma shared_ok v k : seen !! k = Some v -> v ∈ objs -> irep seen (shared_bytes (Z.of_nat (length seen) - Z.of_nat k) ++ rest) s ->
  ok_run (builds seen v seen rest dest s) (intern_rec (Datatypes.S fuel) dest s).
Proof.
  intros Hk Ho I. pose proof (ir_sub _ _ _ _ _ _ _ _ _ _ I) as sub. pose proof (lookup_lt_Some _ _ _ Hk) as Hlt.
  pose proof (whsizes_nonneg table h objs outs S seen sub) as Hw. set (d := Z.of_nat (length seen) - Z.of_nat k) in *. assert (0 < d < 2 ^ 32) as Hd by lia.
  destruct (copies seen !! k) as [c|] eqn:Hc; [|apply lookup_ge_None in Hc; rewrite length_copies in Hc; lia].
  destruct (copy_place _ _ _ _ sub T Hk Hc) as (E & P1 & P2 & P3 & P4 & P5 & P6 & P7 & P8). pose proof (wosize_bound table h objs outs S v Ho).
  assert (forall s1 w, irep seen rest s1 -> i_heap s1 = i_heap s -> w = d -> ok_run (builds seen v seen rest None s) (read_shared w s1)) as Hret.
  { intros s1 w I1 E1 ->. unfold read_shared, look. rewrite (ir_objs _ _ _ _ _ _ _ _ _ _ I1), length_copies, (proj2 (Z.leb_gt _ _)) by lia.
    replace (Z.to_nat (Z.of_nat (length seen) - d)) with k by lia. rewrite Hc. apply immediate; [done|done| |by eapply same_object].
    unfold in_s. change (2 ^ (64 - 1)) with (2 ^ 63). lia. }
  unfold shared_bytes in I. case_zbool (d <? 0x100); [|case_zbool (d <? 0x10000)].
  - eapply (number_ok _ (be_bytes 1 d) v seen be_value read_shared); [exact I|apply length_be|done..|]. intros s1 I1 Es. apply Hret; [done|done|]. rewrite be_value_bytes. apply Z.mod_small. lia.
  - eapply (number_ok _ (be_bytes 2 d) v seen be_value read_shared); [exact I|apply length_be|done..|]. intros s1 I1 Es. apply Hret; [done|done|]. rewrite be_value_bytes. apply Z.mod_small. lia.
  - eapply (number_ok _ (be_bytes 4 d) v seen be_value read_shared); [exact I|apply length_be|done..|]. intros s1 I1 Es. apply Hret; [done|done|]. apply be_value_32. lia.
Qed.

(** A code pointer. *)
Lemma code_ptr_ok v : v ∈ outs -> caml_code_area_start code <= u64 v < caml_code_area_end code ->
  irep seen ((u8 CODE_CODEPOINTER :: be_bytes 4 (u64 v - caml_code_area_start code) ++ caml_code_checksum code) ++ rest) s ->
  ok_run (builds seen v seen rest dest s) (intern_rec (Datatypes.S fuel) dest s).
Proof.
  intros Ho Hc I. destruct code_ok as (C1 & C2 & C3). eapply leaf_step; [exact I|done|done|done|done|done|done|]. intros s1 I1 E1.
  change (intern_leaf code table (u8 CODE_CODEPOINTER) s1) with (read_codepointer code s1). unfold read_codepointer. rewrite <- app_assoc in I1.
  eapply (ok_read h objs base total color num g0 4 (be_bytes 4 _)); [exact I1|apply length_be|]. intros s2 I2 E2. rewrite be_value_32 by lia.
  eapply (ok_take h objs base total color num g0 16 (caml_code_checksum code)); [exact I2|done|]. intros s3 I3 E3. rewrite bool_decide_eq_true_2 by done. cbn [negb].
  destruct (so_out _ _ _ _ S v Ho) as (Hr & _). replace (caml_code_area_start code + (u64 v - caml_code_area_start code)) with (u64 v) by lia. rewrite s64_u64 by done.
  apply immediate; [done|congruence|done|by apply same_out].
Qed.

(** An atom: a block of size zero. *)
Lemma atom_ok v : atom h objs v -> irep seen (atom_bytes (tag_of v) (hd_of v) ++ rest) s ->
  ok_run (builds seen v seen rest dest s) (intern_rec (Datatypes.S fuel) dest s).
Proof.
  intros Ha I. pose proof Ha as (t & Ev & Ht & _ & _ & _ & Htag & Hw & Hh & _). unfold atom_bytes in I.
  assert (forall s1, irep seen rest s1 -> i_heap s1 = i_heap s -> ok_run (builds seen v seen rest dest s) (read_block (intern_rec fuel) dest t 0 s1)) as Hret.
  { intros s1 I1 E1. change (read_block (intern_rec fuel) dest t 0 s1) with (then_ (Atom_of t) (fun r => store dest r;; ret r) s1).
    eapply ok_look; [done|]. assert (Atom (i_heap s1) t = Atom g0 (tag_of v)) as -> by (rewrite (ir_env _ _ _ _ _ _ _ _ _ _ I1), Htag; done).
    apply (store_ok seen v seen rest s); [done|done|]. apply immediate; [done|done| |by apply same_atom].
    unfold in_s, Atom. rewrite Htag. change (2 ^ (64 - 1)) with (2 ^ 63). destruct atoms_ok. lia. }
  assert (0 <= hd_of v < 1024) as Hsm.
  { unfold CamlGraph.wosize_of, Wosize_hd in Hw. rewrite Z.shiftr_div_pow2 in Hw by lia. change (2 ^ 10) with 1024 in Hw. zdiv. }
  case_zbool (tag_of v <? 16); (eapply rec_step; [exact I|]); intros s1 I1 E1.
  - rewrite Htag in *. assert (u8 (PREFIX_SMALL_BLOCK + t) = 128 + t) as -> by (unfold PREFIX_SMALL_BLOCK; rewrite (wrap_small 8); lia).
    unfold dispatch. rewrite (proj2 (Z.leb_le _ _)) by (unfold PREFIX_SMALL_BLOCK; lia).
    assert (Z.land (128 + t) 15 = t) as -> by (change 15 with (Z.ones 4); rewrite Z.land_ones by lia; change (2 ^ 4) with 16; zdiv).
    assert (Z.land (Z.shiftr (128 + t) 4) 7 = 0) as -> by (change 7 with (Z.ones 3); rewrite Z.land_ones, Z.shiftr_div_pow2 by lia; change (2 ^ 3) with 8; change (2 ^ 4) with 16; zdiv).
    by apply Hret.
  - change (dispatch (intern_rec fuel) dest (u8 CODE_BLOCK32) s1) with (then_ read32u (fun header => read_block (intern_rec fuel) dest (Tag_hd header) (Wosize_hd header)) s1).
    eapply (ok_read h objs base total color num g0 4 (be_bytes 4 _)); [exact I1|apply length_be|]. intros s2 I2 E2. rewrite be_value_32 by lia.
    change (Tag_hd (hd_of v)) with (tag_of v). change (Wosize_hd (hd_of v)) with (wosize_of v). rewrite Htag, Hw. apply Hret; [done|congruence].
Qed.
End Immediate.

(** * Objects *)

(** The frame of a step is about the heap only. *)
Lemma builds_from seen v seen' rest dest s s0 r s' : i_heap s = i_heap s0 -> builds seen v seen' rest dest s r s' -> builds seen v seen' rest dest s0 r s'.
Proof. intros E (I & Hp & Hr & Hs & Hf & Hd & Hc). split_and!; try done. rewrite <- E. exact Hf. Qed.

Section Object.
Variables (seen : list Z) (rest : bytes) (s : istate) (dest : option Z) (fuel : nat) (v : Z).
Hypothesis D : dest_ok seen dest.
Hypothesis T : whsizes (seen ++ [v]) <= total.
Hypothesis N : Z.of_nat (length seen) < num.
Hypothesis Ho : v ∈ objs.

Lemma leaf_ok bs : leaf h v bs -> blen bs < 2 ^ 32 -> irep seen (bs ++ rest) s ->
  ok_run (builds seen v (seen ++ [v]) rest dest s) (intern_rec (Datatypes.S fuel) dest s).
Proof.
  intros Hl Hb I. pose proof (ir_sub _ _ _ _ _ _ _ _ _ _ I) as sub.
  assert (forall s1 r, i_heap s1 = i_heap s -> ok_run (builds seen v (seen ++ [v]) rest None s1) r -> ok_run (builds seen v (seen ++ [v]) rest None s) r) as Hfrom.
  { intros s1 r E Hr. eapply ok_weaken; [done|]. intros a st. by apply builds_from. }
  pose proof (wosize_bound table h objs outs S v Ho) as Hwo.
  destruct Hl as [len bs Htag Hlen Hbs|bs Htag Hbs|bs Htag Hbs|ops ser ws n32 n64 Htag <- Es Hser].
  - destruct (ob_string _ _ _ _ _ (ob table h objs outs S v Ho) Htag) as (len' & H0 & Hl' & Hw). rewrite Hlen in Hl'. injection Hl' as <-.
    destruct (get_bytes_bytes _ _ _ _ Hbs) as [_ Hn].
    assert (len < 2 ^ 32) as Hlt by (unfold blen in Hb; rewrite length_app, Hn in Hb; lia).
    assert (forall s1 w, irep seen (bs ++ rest) s1 -> i_heap s1 = i_heap s -> w = len -> ok_run (builds seen v (seen ++ [v]) rest None s) (read_string w s1)) as Hret.
    { intros s1 w I1 E1 ->. apply (Hfrom s1); [done|]. by eapply (string_leaf table h objs outs S base total color num g0 base_ok color_ok). }
    unfold string_code in I. case_zbool (len <? 0x20); [|case_zbool (len <? 0x100)].
    + assert (u8 (PREFIX_SMALL_STRING + len) = 32 + len) as Eu by (unfold PREFIX_SMALL_STRING; rewrite (wrap_small 8); lia). rewrite Eu in I.
      eapply (leaf_step _ _ (32 + len) bs); [exact I|done|done|unfold PREFIX_SMALL_BLOCK; lia|unfold CODE_BLOCK32; lia|unfold CODE_BLOCK64; lia|unfold CODE_INFIXPOINTER; lia|].
      intros s1 I1 Es. unfold intern_leaf. rewrite (proj2 (Z.leb_gt _ _)) by (unfold PREFIX_SMALL_INT; lia). rewrite (proj2 (Z.leb_le _ _)) by (unfold PREFIX_SMALL_STRING; lia).
      apply Hret; [done|done|]. change 0x1F with (Z.ones 5). rewrite Z.land_ones by lia. change (2 ^ 5) with 32. zdiv.
    + eapply (leaf_step _ _ _ (be_bytes 1 len ++ bs)); [exact I|done|done|done|done|done|done|]. intros s1 I1 Es.
      rewrite <- app_assoc in I1. change (intern_leaf code table (u8 CODE_STRING8) s1) with (then_ read8u read_string s1).
      eapply (ok_read h objs base total color num g0 1 (be_bytes 1 len)); [exact I1|apply length_be|]. intros s2 I2 E2. apply Hret; [done|congruence|]. rewrite be_value_bytes. apply Z.mod_small. lia.
    + eapply (leaf_step _ _ _ (be_bytes 4 len ++ bs)); [exact I|done|done|done|done|done|done|]. intros s1 I1 Es.
      rewrite <- app_assoc in I1. change (intern_leaf code table (u8 CODE_STRING32) s1) with (then_ read32u read_string s1).
      eapply (ok_read h objs base total color num g0 4 (be_bytes 4 len)); [exact I1|apply length_be|]. intros s2 I2 E2. apply Hret; [done|congruence|]. apply be_value_32. lia.
  - eapply leaf_step; [exact I|done|done|done|done|done|done|]. intros s1 I1 E1. apply (Hfrom s1); [done|].
    change (intern_leaf code table (u8 CODE_DOUBLE_NATIVE) s1) with ((v <~ intern_obj Double_wosize Double_tag; read_double false v;; ret v) s1).
    by apply (double_leaf table h objs outs S base total color num g0 base_ok) with bs.
  - destruct (get_bytes_bytes _ _ _ _ Hbs) as [_ Hn].
    assert (8 * wosize_of v < 2 ^ 32) as Hlt by (unfold blen in Hb; rewrite length_app, Hn in Hb; lia).
    assert (forall s1 w, irep seen (bs ++ rest) s1 -> i_heap s1 = i_heap s -> w = wosize_of v -> ok_run (builds seen v (seen ++ [v]) rest None s) (read_double_array false w s1)) as Hret.
    { intros s1 w I1 E1 ->. apply (Hfrom s1); [done|]. by eapply (double_array_leaf table h objs outs S base total color num g0 base_ok). }
    unfold double_array_code in I. case_zbool (wosize_of v <? 0x100).
    + eapply (leaf_step _ _ _ (be_bytes 1 (wosize_of v) ++ bs)); [exact I|done|done|done|done|done|done|]. intros s1 I1 Es.
      rewrite <- app_assoc in I1. change (intern_leaf code table (u8 CODE_DOUBLE_ARRAY8_NATIVE) s1) with (then_ read8u (read_double_array false) s1).
      eapply (ok_read h objs base total color num g0 1 (be_bytes 1 _)); [exact I1|apply length_be|]. intros s2 I2 E2. apply Hret; [done|congruence|]. rewrite be_value_bytes. apply Z.mod_small. lia.
    + eapply (leaf_step _ _ _ (be_bytes 4 (wosize_of v) ++ bs)); [exact I|done|done|done|done|done|done|]. intros s1 I1 Es.
      rewrite <- app_assoc in I1. change (intern_leaf code table (u8 CODE_DOUBLE_ARRAY32_NATIVE) s1) with (then_ read32u (read_double_array false) s1).
      eapply (ok_read h objs base total color num g0 4 (be_bytes 4 _)); [exact I1|apply length_be|]. intros s2 I2 E2. apply Hret; [done|congruence|]. apply be_value_32. lia.
  - eapply leaf_step; [exact I|done|done|done|done|done|done|]. intros s1 I1 E1. apply (Hfrom s1); [done|].
    change (intern_leaf code table (u8 CODE_CUSTOM) s1) with (read_custom table s1).
    by eapply (custom_leaf table h objs outs S base total color num g0 base_ok).
Qed.
End Object.

(** * Blocks *)
Definition fills (seen : list Z) (vs : list Z) (seen' : list Z) (rest : bytes) (d : Z) (s : istate) (_ : unit) (s' : istate) : Prop :=
  irep seen' rest s' /\ seen `prefix_of` seen' /\
  (forall a, a < lo seen \/ lo seen' <= a -> ~ d / 8 <= a < d / 8 + Z.of_nat (length vs) -> words (i_heap s') !! a = words (i_heap s) !! a) /\
  (forall j v, vs !! j = Some v -> exists r, words (i_heap s') !! (d / 8 + Z.of_nat j) = Some (u64 r) /\ in_s 64 r /\ same seen' v r) /\
  (forall k o c, (length seen <= k)%nat -> seen' !! k = Some o -> copies seen' !! k = Some c -> copied seen' (i_heap s') o c).

(** Reading an encoding, of one value or of several. *)
Definition enc_ok (seen : list Z) (v : Z) (bs : bytes) (seen' : list Z) : Prop := forall fuel rest s dest,
  irep seen (bs ++ rest) s -> (length bs <= fuel)%nat -> blen bs < 2 ^ 32 -> whsizes seen' <= total -> Z.of_nat (length seen') <= num ->
  dest_ok seen dest -> value v -> ok_run (builds seen v seen' rest dest s) (intern_rec fuel dest s).
Definition encs_ok (seen : list Z) (vs : list Z) (bs : bytes) (seen' : list Z) : Prop := forall fuel rest s d,
  irep seen (bs ++ rest) s -> (length bs <= fuel)%nat -> blen bs < 2 ^ 32 -> whsizes seen' <= total -> Z.of_nat (length seen') <= num ->
  d mod 8 = 0 -> base / 8 <= d / 8 -> d / 8 + Z.of_nat (length vs) <= lo seen -> Forall value vs ->
  ok_run (fills seen vs seen' rest d s) (intern_fields (intern_rec fuel) d (length vs) s).

Lemma enc_extends : (forall seen v bs seen', enc seen v bs seen' -> seen `prefix_of` seen' /\ ((forall o, o ∈ seen -> o ∈ objs) -> forall o, o ∈ seen' -> o ∈ objs)) /\
  (forall seen vs bs seen', encs seen vs bs seen' -> seen `prefix_of` seen' /\ ((forall o, o ∈ seen -> o ∈ objs) -> forall o, o ∈ seen' -> o ∈ objs)).
Proof.
  apply enc_encs_ind; try done.
  - intros seen v bs Ho _ _. split; [by apply prefix_app_r|]. intros Hs x [Hx| ->%list_elem_of_singleton]%elem_of_app; auto.
  - intros seen v bs seen' Ho _ _ _ [Hp Hs]. split; [etrans; [|exact Hp]; by apply prefix_app_r|]. intros Hsub. apply Hs. intros x [Hx| ->%list_elem_of_singleton]%elem_of_app; auto.
  - intros seen v vs bs bs' seen' seen'' _ [P1 S1] _ [P2 S2]. split; [by etrans|auto].
Qed.

(** Where the copies of the new objects are. *)
Lemma new_place seen seen' k o c : seen `prefix_of` seen' -> (forall x, x ∈ seen' -> x ∈ objs) -> whsizes seen' <= total -> (length seen <= k)%nat ->
  seen' !! k = Some o -> copies seen' !! k = Some c -> lo seen <= lo (take k seen') /\ lo (take (Datatypes.S k) seen') <= lo seen'.
Proof.
  intros Hp sub Ht Hk Ho Hc. destruct (copy_place _ _ _ _ sub Ht Ho Hc) as (_ & _ & _ & P3 & _). split; [|done].
  assert (seen `prefix_of` take k seen') as Hpk by (destruct Hp as [l ->]; rewrite take_app_ge by lia; by apply prefix_app_r).
  assert (whsizes seen <= whsizes (take k seen')); [|unfold CamlInternOk.lo; lia]. apply whsizes_prefix; [done|]. intros x Hx. apply sub. by eapply subseteq_take.
Qed.

Lemma lo_prefix seen seen' : seen `prefix_of` seen' -> (forall o, o ∈ seen' -> o ∈ objs) -> lo seen <= lo seen'.
Proof. intros Hp Hs. pose proof (whsizes_prefix _ _ Hp Hs). unfold CamlInternOk.lo. lia. Qed.

Lemma encs_cons_ok seen v vs bs bs' seen1 seen2 : enc seen v bs seen1 -> enc_ok seen v bs seen1 -> encs seen1 vs bs' seen2 -> encs_ok seen1 vs bs' seen2 ->
  encs_ok seen (v :: vs) (bs ++ bs') seen2.
Proof.
  intros E1 R1 E2 R2 fuel rest s d I Hf Hb Ht Hn Hd1 Hd2 Hd3 [Hv Hvs]%Forall_cons. rewrite <- app_assoc in I. unfold blen in Hb. rewrite length_app in Hb, Hf.
  destruct (proj1 enc_extends _ _ _ _ E1) as [P1 S1]. destruct (proj2 enc_extends _ _ _ _ E2) as [P2 S2]. pose proof (ir_sub _ _ _ _ _ _ _ _ _ _ I) as sub.
  specialize (S1 sub). specialize (S2 S1). pose proof (whsizes_prefix _ _ P2 S2) as Hle. pose proof (prefix_length _ _ P2) as Hln.
  cbn [length] in Hd3. cbn [length intern_fields]. eapply ok_then.
  { eapply (R1 fuel (bs' ++ rest) s (Some d)); [done|lia|unfold blen; lia|lia|lia| |done]. cbn. lia. }
  cbn beta. intros r s1 (I1 & _ & Hr & Hs & Hfr & Hw & Hc). pose proof (lo_prefix _ _ P1 S1) as L1. pose proof (lo_prefix _ _ P2 S2) as L2.
  assert ((d + 8) / 8 = d / 8 + 1) as Ed by zdiv.
  eapply ok_weaken. { eapply (R2 fuel rest s1 (d + 8)); [done|lia|unfold blen; lia|lia|lia|zdiv|lia|lia|done]. }
  intros [] s2 (I2 & _ & Hfr2 & Hw2 & Hc2). rewrite Ed in Hfr2. split_and!; [done|by etrans| | |].
  - intros a Ha Hna. cbn [length] in Hna. rewrite Hfr2 by lia. apply Hfr; [lia|]. intros [= ->]. zdiv.
  - intros [|j] w Hj.
    + injection Hj as <-. exists r. rewrite Z.add_0_r, Hfr2 by lia. split_and!; [by apply Hw|done|]. by eapply same_mono.
    + destruct (Hw2 j w Hj) as (r' & Hr' & Hrr & Hss). exists r'. rewrite Ed in Hr'. by replace (d / 8 + Z.of_nat (Datatypes.S j)) with (d / 8 + 1 + Z.of_nat j) by lia.
  - intros k o c Hk Ho Hcp. destruct (decide (length seen1 <= k)%nat) as [Hge|Hlt]; [by apply (Hc2 k)|].
    assert (seen1 !! k = Some o) as Ho1 by (destruct P2 as [l ->]; by rewrite lookup_app_l in Ho by lia).
    assert (copies seen1 !! k = Some c) as Hc1 by (destruct P2 as [l ->]; rewrite copies_app in Hcp; by rewrite lookup_app_l in Hcp by (rewrite length_copies; lia)).
    destruct (new_place seen seen1 k o c P1 S1 ltac:(lia) Hk Ho1 Hc1) as [N1 N2].
    eapply (copied_keep seen1 seen2); [done|lia|done|done|done| |by apply (Hc k)]. intros a Ha. apply Hfr2; lia.
Qed.

Lemma intern_fields_last {B} rec d n (k : intern B) s :
  then_ (intern_fields rec d n) (fun _ => then_ (rec (Some (d + 8 * Z.of_nat n))) (fun _ => k)) s = then_ (intern_fields rec d (Datatypes.S n)) (fun _ => k) s.
Proof.
  revert d s. induction n as [|n IH]; intros d s.
  - cbn [intern_fields]. rewrite then_assoc'. unfold then_ at 1, ret. replace (d + 8 * Z.of_nat 0) with d by lia. done.
  - change (intern_fields rec d (Datatypes.S n)) with (then_ (rec (Some d)) (fun _ => intern_fields rec (d + 8) n)). rewrite then_assoc'.
    change (intern_fields rec d (Datatypes.S (Datatypes.S n))) with (then_ (rec (Some d)) (fun _ => intern_fields rec (d + 8) (Datatypes.S n))). rewrite then_assoc'.
    unfold then_ at 1 4. destruct (rec (Some d) s) as [[r|e|] s1]; [|done|done]. rewrite <- IH. by replace (d + 8 * Z.of_nat (Datatypes.S n)) with (d + 8 + 8 * Z.of_nat n) by lia.
Qed.

(** The destination receives the address before the block is filled. *)
Lemma store_first {B} seen src s dest v (Q : B -> istate -> Prop) k : irep seen src s -> dest_ok seen dest -> whsizes seen <= total ->
  (forall s', irep seen src s' -> (forall a, dest <> Some (8 * a) -> words (i_heap s') !! a = words (i_heap s) !! a) ->
     (forall d, dest = Some d -> words (i_heap s') !! (d / 8) = Some (u64 v)) -> ok_run Q (k tt s')) ->
  ok_run Q (then_ (store dest v) k s).
Proof.
  intros I Hd Ht Hk. destruct dest as [d|]; [|by apply (Hk s)]. destruct Hd as (D1 & D2 & D3). cbn [store]. destruct base_ok as (B1 & B2 & B3).
  eapply (write_word_ok h objs base total color num g0 base_ok seen); [done|zdiv|done|unfold CamlInternOk.lo in *; lia|]. intros s1 I1 E1. apply Hk; [done| |].
  - intros a Ha. rewrite E1, lookup_insert_ne; [done|]. intros <-. apply Ha. f_equal. zdiv.
  - intros d' [= <-]. by rewrite E1, lookup_insert_eq.
Qed.

Lemma block_ok fuel seen v bs seen' rest s dest : v ∈ objs -> scanned (tag_of v) = true ->
  encs (seen ++ [v]) (fields_of h v) bs seen' -> encs_ok (seen ++ [v]) (fields_of h v) bs seen' ->
  irep seen (bs ++ rest) s -> (length bs <= fuel)%nat -> blen bs < 2 ^ 32 -> whsizes seen' <= total -> Z.of_nat (length seen') <= num -> dest_ok seen dest ->
  ok_run (builds seen v seen' rest dest s) (read_block (intern_rec fuel) dest (tag_of v) (wosize_of v) s).
Proof.
  intros Ho Hsc E R I Hf Hb Ht Hn Hd. pose proof (ir_sub _ _ _ _ _ _ _ _ _ _ I) as sub.
  assert (forall x, x ∈ seen ++ [v] -> x ∈ objs) as sub1 by (intros x [Hx| ->%list_elem_of_singleton]%elem_of_app; auto).
  destruct (proj2 enc_extends _ _ _ _ E) as [P2 S2]. specialize (S2 sub1). pose proof (whsizes_prefix _ _ P2 S2) as Hle. pose proof (prefix_length _ _ P2) as Hln. rewrite length_app in Hln. cbn in Hln.
  pose proof (c_facts table h objs outs S base total base_ok seen v Ho sub ltac:(lia)) as (F1 & F2 & F3 & F4 & F5 & F6 & F7 & F8 & F9 & F10).
  set (c := 8 * lo seen + 8) in *. pose proof (lo_snoc h base seen v) as Ls. pose proof (lo_prefix _ _ P2 S2) as L2.
  unfold read_block. rewrite (proj2 (Z.eqb_neq _ _)) by lia.
  eapply (ok_look _ c). { rewrite (ir_dest _ _ _ _ _ _ _ _ _ _ I). unfold c, CamlInternOk.lo. f_equal. destruct base_ok as (B1 & B2 & B3). zdiv. }
  eapply store_first; [done|done|rewrite whsizes_app, whsizes_cons in Hle; cbn in Hle; lia|]. intros s1 I1 W1 D1.
  eapply (obj_ok table h objs outs S base total color num g0 base_ok seen v); [done|done|lia|lia|done|]. intros s2 I2 E2. fold c.
  assert (length (fields_of h v) = Datatypes.S (Z.to_nat (wosize_of v - 1))) as Hlf by (unfold fields_of; rewrite length_fmap, length_seqZ; lia).
  replace (c + 8 * (wosize_of v - 1)) with (c + 8 * Z.of_nat (Z.to_nat (wosize_of v - 1))) by lia. rewrite intern_fields_last, <- Hlf.
  eapply ok_then. { eapply (R fuel rest s2 c); [done|done|done|done|done|done|lia|lia|]. apply Forall_lookup. intros j w Hj. unfold fields_of in Hj. apply list_lookup_fmap_Some in Hj as (i & -> & Hi).
    apply lookup_seqZ in Hi as [-> Hi]. apply (ob_fields _ _ _ _ _ (ob table h objs outs S v Ho) Hsc). lia. }
  intros [] s3 (I3 & _ & Hfr & Hfl & Hc). rewrite F4, Hlf in Hfr. rewrite F4 in Hfl. unfold ok_run, ret.
  assert (forall a, a < lo seen -> words (i_heap s3) !! a = words (i_heap s1) !! a) as Hlow.
  { intros a Ha. rewrite Hfr by lia. rewrite E2, lookup_insert_ne by lia. done. }
  split_and!; [done|etrans; [|exact P2]; by apply prefix_app_r|done| | | |].
  - eapply (same_mono _ _ _ _ _ (seen ++ [v])); [done|]. eapply (same_object _ _ _ _ _ _ (length seen)); [by rewrite lookup_app_r, Nat.sub_diag|].
    by apply (c_index h base total base_ok).
  - intros a Ha Hne. destruct Ha as [Ha|Ha]; [rewrite Hlow by done; by apply W1|]. rewrite Hfr by lia. rewrite E2, lookup_insert_ne by lia. by apply W1.
  - intros d ->. destruct Hd as (_ & _ & Hdl). rewrite Hlow by done. by apply D1.
  - intros k o d Hk Hko Hkd. destruct (decide (k = length seen)) as [->|Hne]; [|apply (Hc k); [rewrite length_app; cbn; lia|done|done]].
    assert (o = v) as ->. { destruct P2 as [l ->]. rewrite <- app_assoc, lookup_app_r, Nat.sub_diag in Hko by done. by injection Hko as <-. }
    assert (d = c) as ->. { destruct P2 as [l ->]. rewrite copies_app, lookup_app_l in Hkd by (rewrite length_copies, length_app; cbn; lia).
      rewrite (c_index h base total base_ok seen v) in Hkd. by injection Hkd as <-. }
    assert (forall t, scanned t = false -> tag_of v <> t) as Hts by (intros t Hts Hv; rewrite Hv in Hsc; congruence).
    split.
    + rewrite F4. replace (lo seen + 1 - 1) with (lo seen) by lia. rewrite Hfr by lia. by rewrite E2, lookup_insert_eq.
    + intros _ i Hi. destruct (Hfl (Z.to_nat i) (field_of v i)) as (r & Hr & Hrr & Hrs).
      { unfold fields_of. rewrite list_lookup_fmap, lookup_seqZ_lt by lia. cbn. do 2 f_equal. lia. }
      exists r. rewrite F4. by replace (lo seen + 1 + i) with (lo seen + 1 + Z.of_nat (Z.to_nat i)) by lia.
    + intros Htag. by destruct (Hts String_tag).
    + intros [Htag|Htag]; [by destruct (Hts Double_tag)|by destruct (Hts Double_array_tag)].
    + intros Htag. by destruct (Hts Custom_tag).
Qed.

(** The header of a block gives its tag and its size. *)
Lemma header_ok fuel seen v bs seen' rest s dest : v ∈ objs ->
  (forall s1, irep seen (bs ++ rest) s1 -> i_heap s1 = i_heap s -> ok_run (builds seen v seen' rest dest s) (read_block (intern_rec fuel) dest (tag_of v) (wosize_of v) s1)) ->
  irep seen ((header_bytes (hd_of v) ++ bs) ++ rest) s ->
  ok_run (builds seen v seen' rest dest s) (intern_rec (Datatypes.S fuel) dest s).
Proof.
  intros Ho Hk I. destruct (hd_word table h objs outs S v Ho) as [_ Hr]. pose proof (Tag_bound (hd_of v)) as Htb. pose proof (wosize_bound table h objs outs S v Ho) as Hwo.
  unfold header_bytes in I. change (Tag_hd (hd_of v)) with (tag_of v) in *. change (Wosize_hd (hd_of v)) with (wosize_of v) in *.
  destruct ((tag_of v <? 16) && (wosize_of v <? 8)) eqn:Es; [zbool|destruct (2 ^ 32 <=? hd_of v) eqn:Eh; zbool].
  - eapply (rec_step _ _ _ bs rest); [exact I|]. intros s1 I1 E1. rewrite Z.shiftl_mul_pow2 by lia. assert (u8 (PREFIX_SMALL_BLOCK + tag_of v + wosize_of v * 2 ^ 4) = 128 + tag_of v + wosize_of v * 16) as -> by (unfold PREFIX_SMALL_BLOCK; change (2 ^ 4) with 16; rewrite (wrap_small 8); lia).
    unfold dispatch. rewrite (proj2 (Z.leb_le _ _)) by (unfold PREFIX_SMALL_BLOCK; lia).
    assert (Z.land (128 + tag_of v + wosize_of v * 16) 15 = tag_of v) as -> by (change 15 with (Z.ones 4); rewrite Z.land_ones by lia; change (2 ^ 4) with 16; zdiv).
    assert (Z.land (Z.shiftr (128 + tag_of v + wosize_of v * 16) 4) 7 = wosize_of v) as -> by (change 7 with (Z.ones 3); rewrite Z.land_ones, Z.shiftr_div_pow2 by lia; change (2 ^ 3) with 8; change (2 ^ 4) with 16; zdiv).
    by apply Hk.
  - eapply (rec_step _ _ _ (be_bytes 8 _ ++ bs) rest); [exact I|]. intros s1 I1 E1.
    change (dispatch (intern_rec fuel) dest (u8 CODE_BLOCK64) s1) with (then_ read64s (fun header => read_block (intern_rec fuel) dest (Tag_hd (u64 header)) (Wosize_hd (u64 header))) s1).
    rewrite <- app_assoc in I1. eapply (ok_read h objs base total color num g0 8 (be_bytes 8 _) _ _ _ (fun b => s64 (be_value b))); [exact I1|apply length_be|]. intros s2 I2 E2.
    rewrite be_value_bytes, wrap_swrap by lia. change (8 * Z.of_nat 8) with 64. change (Whitehd_hd (hd_of v) mod 2 ^ 64) with (u64 (Whitehd_hd (hd_of v))). rewrite wrap_mod_idemp by lia.
    assert (u64 (Whitehd_hd (hd_of v)) = Whitehd_hd (hd_of v)) as ->.
    { apply wrap_small, White_bound; lia. }
    rewrite Tag_white, Wosize_white by lia. apply Hk; [done|congruence].
  - eapply (rec_step _ _ _ (be_bytes 4 _ ++ bs) rest); [exact I|]. intros s1 I1 E1.
    change (dispatch (intern_rec fuel) dest (u8 CODE_BLOCK32) s1) with (then_ read32u (fun header => read_block (intern_rec fuel) dest (Tag_hd header) (Wosize_hd header)) s1).
    rewrite <- app_assoc in I1. eapply (ok_read h objs base total color num g0 4 (be_bytes 4 _)); [exact I1|apply length_be|]. intros s2 I2 E2. rewrite be_value_32.
    2: { apply White_bound; lia. }
    rewrite Tag_white, Wosize_white by lia. apply Hk; [done|congruence].
Qed.

(** The copy of an object is its entry in the table. *)
Lemma same_object_inv seen o r : o ∈ objs -> tag_of o <> Forward_tag -> same seen o r -> exists k, seen !! k = Some o /\ copies seen !! k = Some r.
Proof.
  intros Ho Hf Hs. pose proof (addr table h objs outs S o Ho) as (A1 & A2 & A3).
  inversion Hs as [? Hl|? Hout|? Ha|? o' ? Hi|? ? ? Ht|k ? ? Hk Hc]; subst.
  - by rewrite aligned_long in Hl.
  - destruct (so_out _ _ _ _ S r Hout) as (_ & _ & Hk). pose proof (ob_known _ _ _ _ _ (ob table h objs outs S r Ho)) as Hk'. unfold known in Hk.
    apply orb_false_iff in Hk as [[_ Hy]%orb_false_iff Hh]. by rewrite Hy, Hh in Hk'.
  - destruct Ha as (t & _ & _ & _ & _ & _ & _ & _ & _ & _ & Hn). by destruct (Hn o Ho).
  - destruct Hi as (o2 & off & _ & _ & _ & _ & _ & _ & Ht & _). by destruct (ob_infix _ _ _ _ _ (ob table h objs outs S o Ho)).
  - done.
  - by exists k.
Qed.

Lemma infix_ok fuel seen v o bs seen' rest s dest : infix h objs v -> o ∈ objs -> o = v - Infix_offset_hd (hd_of v) -> enc seen o bs seen' -> enc_ok seen o bs seen' ->
  irep seen ((u8 CODE_INFIXPOINTER :: be_bytes 4 (Infix_offset_hd (hd_of v)) ++ bs) ++ rest) s -> (length bs <= fuel)%nat -> blen bs < 2 ^ 32 ->
  whsizes seen' <= total -> Z.of_nat (length seen') <= num -> dest_ok seen dest ->
  ok_run (builds seen v seen' rest dest s) (intern_rec (Datatypes.S fuel) dest s).
Proof.
  intros Hi Ho Eo E R I Hf Hb Ht Hn Hd. pose proof Hi as (o2 & off & Ho2 & Ht2 & Ev & Hm & Hoff & Hle & Htv & Hw & _ & _). pose proof (ir_sub _ _ _ _ _ _ _ _ _ _ I) as sub.
  assert (Infix_offset_hd (hd_of v) = off) as Ei.
  { unfold Infix_offset_hd. change (Wosize_hd (hd_of v)) with (wosize_of v). rewrite Hw, (wrap_small 64) by zdiv. zdiv. }
  rewrite Ei in *. assert (o2 = o) as -> by lia. destruct (proj1 enc_extends _ _ _ _ E) as [P1 S1]. specialize (S1 sub).
  eapply (rec_step _ _ _ (be_bytes 4 off ++ bs) rest); [exact I|]. intros s1 I1 E1.
  change (dispatch (intern_rec fuel) dest (u8 CODE_INFIXPOINTER) s1) with
    (then_ read32u (fun ofs => clos <~ intern_rec fuel None; store dest (s64 (clos + ofs));; ret (s64 (clos + ofs))) s1).
  rewrite <- app_assoc in I1. eapply (ok_read h objs base total color num g0 4 (be_bytes 4 off)); [exact I1|apply length_be|]. intros s2 I2 E2. rewrite be_value_32 by lia.
  eapply ok_then. { eapply (R fuel rest s2 None); try done. pose proof (addr table h objs outs S o Ho). pose proof (wosize_bound table h objs outs S o Ho).
    split; [unfold in_s; change (2 ^ (64 - 1)) with (2 ^ 63); lia|by right; left]. }
  cbn beta. intros r s3 (I3 & P3 & Hr & Hs & Hfr & Hds & Hc).
  destruct (same_object_inv _ _ _ Ho ltac:(by rewrite Ht2) Hs) as (k & Hk & Hck). destruct (copy_place _ _ _ _ S1 Ht Hk Hck) as (Ec & Q1 & Q2 & Q3 & Q4 & Q5 & Q6 & Q7 & Q8).
  assert (s64 (r + off) = r + off) as -> by (apply swrap_small; [lia|change (2 ^ (64 - 1)) with (2 ^ 63); lia]).
  apply (store_ok seen v seen' rest s); [done|done|]. split_and!; try done.
  - unfold in_s. change (2 ^ (64 - 1)) with (2 ^ 63). lia.
  - replace (r + off) with (r + (v - o)) by lia. eapply same_infix; [done|done|by rewrite Ei|done].
  - intros a Ha Hne. rewrite Hfr by done. congruence.
Qed.

(** * Reading an encoding builds a copy *)
Theorem intern_rec_builds : (forall seen v bs seen', enc seen v bs seen' -> enc_ok seen v bs seen') /\ (forall seen vs bs seen', encs seen vs bs seen' -> encs_ok seen vs bs seen').
Proof.
  assert (forall (P : nat -> Prop) (bs : bytes) fuel, bs <> [] -> (length bs <= fuel)%nat -> (forall f, (length bs <= Datatypes.S f)%nat -> P (Datatypes.S f)) -> P fuel) as Hpos.
  { intros P [|b bs] fuel Hne Hf Hk; [done|]. destruct fuel; [cbn in Hf; lia|]. by apply Hk. }
  apply enc_encs_ind.
  - intros seen v Hl fuel rest s dest I Hf Hb Ht Hn Hd [Hr _]. pattern fuel; eapply (Hpos _ (int_bytes (Long_val v))); [|done|].
    + by apply (enc_nonempty h code objs outs seen v _ seen), enc_long.
    + intros f _; cbn beta. by apply int_ok.
  - intros seen v Ho Hc fuel rest s dest I Hf Hb Ht Hn Hd _. pattern fuel; eapply Hpos; [|exact Hf|]; [done|]. intros f _; cbn beta. by apply code_ptr_ok.
  - intros seen v Ha fuel rest s dest I Hf Hb Ht Hn Hd _. pattern fuel; eapply (Hpos _ (atom_bytes (tag_of v) (hd_of v))); [|done|].
    + by apply (enc_nonempty h code objs outs seen v _ seen), enc_atom.
    + intros f _; cbn beta. by apply atom_ok.
  - intros seen v o bs seen' Hi Ho Eo E R fuel rest s dest I Hf Hb Ht Hn Hd _. cbn [length] in Hf. destruct fuel as [|fuel]; [lia|]. rewrite length_app, length_be in Hf.
    unfold blen in Hb. cbn [length] in Hb. rewrite length_app in Hb. eapply infix_ok; try done; [lia|unfold blen; lia].
  - intros seen v bs seen' Ho Htag E R fuel rest s dest I Hf Hb Ht Hn Hd _. destruct (ob_forward _ _ _ _ _ (ob table h objs outs S v Ho) Htag) as [Hv _].
    eapply ok_weaken; [by apply (R fuel)|]. intros r s' (B1 & B2 & B3 & B4 & B5). split_and!; [done|done|done|by apply same_forward|apply B5..].
  - intros seen v k Ho Hk fuel rest s dest I Hf Hb Ht Hn Hd _. pattern fuel; eapply (Hpos _ (shared_bytes (Z.of_nat (length seen) - Z.of_nat k))); [|done|].
    + by apply (enc_nonempty h code objs outs seen v _ seen), enc_shared.
    + intros f _; cbn beta. by apply (shared_ok _ _ _ _ _ Hd Ht v k).
  - intros seen v bs Ho Hnin Hl fuel rest s dest I Hf Hb Ht Hn Hd _. pattern fuel; eapply (Hpos _ bs); [|done|].
    + by apply (enc_nonempty h code objs outs seen v bs (seen ++ [v])), enc_leaf.
    + intros f _; cbn beta. rewrite length_app in Hn. cbn in Hn. by apply (leaf_ok seen rest s dest f v Hd Ht ltac:(lia) Ho bs).
  - intros seen v bs seen' Ho Hnin Hsc E R fuel rest s dest I Hf Hb Ht Hn Hd _. unfold blen in Hb. rewrite length_app in Hf, Hb.
    assert (0 < length (header_bytes (hd_of v)))%nat as Hh by (unfold header_bytes; destruct (_ && _); [cbn; lia|]; destruct (_ <=? _); cbn; lia).
    destruct fuel as [|fuel]; [lia|]. eapply header_ok; [done| |exact I]. intros s1 I1 E1. eapply ok_weaken; [by eapply block_ok; try done; [lia|unfold blen; lia]|].
    intros r s'. by apply builds_from.
  - intros seen fuel rest s d I Hf Hb Ht Hn _ _ _ _. cbn. split_and!; [done|done|done|intros j v; by rewrite lookup_nil|]. intros k o c Hk Hko. apply lookup_lt_Some in Hko. lia.
  - intros seen v vs bs bs' seen' seen'' E1 R1 E2 R2. by eapply encs_cons_ok.
Qed.
End Intern.
