(* ===== verification/CamlMarshal.v ===== *)
(** Marshalling: output then input gives an isomorphic copy; output leaves the
    heap as it was, whatever happens; a buffer of the user is not exceeded.

    Marshalling, as its users see it: the theorems on the functions of extern.c
    and intern.c, on a graph with a cycle and sharing as an example, and what
    goes wrong with a forward pointer that is shared. *)
From stdpp Require Import base gmap list.
From Stdlib Require Import ZArith Lia.
From S2P Require Import Prelude CamlMemory CamlValues CamlIntext CamlIntextOk CamlStr CamlExtern CamlGraph CamlExternOk CamlExternRun CamlIntern CamlInternOk CamlInternRec.
Open Scope Z_scope.


(** * Copies *)
Section Copy.
Context `{CustomMarshal}.

(** [r] in the heap [g] is a copy of [v] in the heap [h]: some objects of the
    graph, each once, have distinct copies, one after the other from [base], with
    the same size, tag and contents, the fields being copies of the fields; and
    [r] is the copy of [v].  So what is shared, or cyclic, in the one is in the
    other. *)
Definition is_copy (h : heap) (objs outs : list Z) (v : Z) (g : heap) (r : Z) (base : Z) (seen : list Z) : Prop :=
  exists color, NoDup seen /\ (forall o, o ∈ seen -> o ∈ objs) /\ NoDup (copies h base seen) /\
  same h objs outs base g seen v r /\
  forall k o c, seen !! k = Some o -> copies h base seen !! k = Some c -> copied h objs outs base color g seen g o c.

Lemma same_env h objs outs base g g' seen v r : caml_atom_table g = caml_atom_table g' -> same h objs outs base g seen v r -> same h objs outs base g' seen v r.
Proof.
  intros E Hs. induction Hs as [v|v|v Ha|v o r|v r|k v r Hk Hc]; [by apply same_long|by apply same_out| |by eapply same_infix|by apply same_forward|by eapply same_object].
  assert (Atom g (tag_of h v) = Atom g' (tag_of h v)) as -> by (unfold Atom; by rewrite E). by apply same_atom.
Qed.
Lemma copied_env h objs outs base color g g' seen gg o c : caml_atom_table g = caml_atom_table g' ->
  copied h objs outs base color g seen gg o c -> copied h objs outs base color g' seen gg o c.
Proof.
  intros E [C1 C2 C3 C4 C5]. split; try done. intros Hs i Hi. destruct (C2 Hs i Hi) as (r & ? & ? & ?). exists r. split_and!; [done|done|]. by eapply same_env.
Qed.

(** The copies are in increasing order. *)
Lemma copies_above h b l : (forall o, o ∈ l -> 0 < wosize_of h o) -> NoDup (copies h b l) /\ forall c, c ∈ copies h b l -> b < c.
Proof.
  revert b. induction l as [|o l IH]; intros b Hl; cbn [copies]; [split; [apply NoDup_nil_2|set_solver]|].
  pose proof (Hl o ltac:(left)) as Ho. destruct (IH (b + 8 * (1 + wosize_of h o))) as [Hd Hb]; [intros x Hx; apply Hl; by right|]. split.
  - apply NoDup_cons. split; [|done]. intros Hin%Hb. lia.
  - intros c [->|Hc%Hb]%elem_of_cons; lia.
Qed.
End Copy.

(** Offsets in the code have 32 bits, and its checksum is of MD5. *)
Definition code_fits (code : code_area) : Prop :=
  0 <= caml_code_area_start code /\ caml_code_area_end code <= caml_code_area_start code + 2 ^ 32 /\ length (caml_code_checksum code) = 16%nat.

(** * The allocator *)

(** The addresses of atoms are positive values. *)
Definition atoms_fit (g : heap) : Prop := 0 <= caml_atom_table g /\ caml_atom_table g + 8 * 257 <= 2 ^ 63.

(** A block of [wosize] words that can be written, white or black. *)
Definition fresh_block (g : heap) (b wosize : Z) : Prop :=
  8 <= b /\ b mod 8 = 0 /\ b + 8 * wosize <= 2 ^ 63 /\
  (exists hd, words g !! (b / 8 - 1) = Some hd /\ (Color_hd hd = Caml_white \/ Color_hd hd = Caml_black)) /\
  (forall a, b / 8 <= a < b / 8 + wosize -> is_Some (words g !! a)) /\ atoms_fit g.

Definition allocate `{Allocator} (g : heap) (wosize : Z) : res (heap * Z) :=
  if wosize <=? Max_young_wosize then caml_alloc_small g wosize String_tag else caml_alloc_shr g wosize String_tag.

(** There is memory for a block of any size that the format can announce. *)
Definition can_allocate `{Allocator} (g : heap) : Prop := forall n, 0 < n < 2 ^ 32 -> exists g1 b, allocate g n = Ok (g1, b) /\ fresh_block g1 b n.

Section Input.
Context `{CustomMarshal} `{Allocator}.
Variable table : list Z.
Context `{!MarshalLaws table}.
Variable h : heap.
Variables objs outs : list Z.
Hypothesis S : source table h objs outs.
Variable code : code_area.
Hypothesis code_ok : code_fits code.
(** The heap that receives the copy, and the same after the allocation. *)
Variables (g g1 : heap) (b : Z).
Hypothesis atoms_ok : atoms_fit g.

(** The copy is in the block at [b], and nothing else is changed. *)
Definition copied_in (v : Z) (seen : list Z) (rest : bytes) (r : Z) (s : istate) : Prop :=
  intern_src s = rest /\
  if decide (seen = []) then is_copy h objs outs v (i_heap s) r 0 seen /\ words (i_heap s) = words g
  else is_copy h objs outs v (i_heap s) r (b - 8) seen /\ forall a, a < b / 8 - 1 \/ b / 8 + (whsizes h seen - 1) <= a -> words (i_heap s) !! a = words g1 !! a.

Lemma build_ok v bs seen rest s : value h objs outs v -> enc h code objs outs [] v bs seen -> NoDup seen -> (forall o, o ∈ seen -> o ∈ objs) ->
  blen bs < 2 ^ 32 -> whsizes h seen < 2 ^ 32 -> intern_src s = bs ++ rest -> i_heap s = g -> intern_dest s = 0 -> intern_objs s = [] -> intern_color s = 0 ->
  (seen <> [] -> allocate g (whsizes h seen - 1) = Ok (g1, b) /\ fresh_block g1 b (whsizes h seen - 1)) ->
  ok_run (copied_in v seen rest) ((intern_alloc (whsizes h seen) (Z.of_nat (length seen));; intern_value code table) s).
Proof.
  intros Hv He Hd Hsub Hb Hw Hsrc Hg Hdst Hobjs Hcol Hal. pose proof (whsizes_nonneg table h objs outs S seen Hsub) as Hn.
  assert (forall b0, NoDup (copies h b0 seen)) as Hcd by (intros b0; apply copies_above; intros o Ho; apply (wosize_bound table h objs outs S o), Hsub, Ho).
  unfold copied_in. destruct (decide (seen = [])) as [->|Hne].
  - eapply ok_change; [done|]. set (s1 := mkI _ _ _ _ _ _ _ _). unfold intern_value. eapply ok_look; [done|].
    pose proof (proj1 (intern_rec_builds table h objs outs S code code_ok 0 0 0 0 g ltac:(by split_and!) ltac:(lia) ltac:(by left) atoms_ok) _ _ _ _ He (Datatypes.S (length (intern_src s1))) rest s1 None) as R.
    eapply ok_weaken; [apply R|]; [|cbn; rewrite Hsrc, length_app; lia|done|done|done|done|done|].
    + split; cbn; try done; [by rewrite Hg, set_words_same|]. intros a Ha. change (0 / 8) with 0 in Ha. lia.
    + intros r s' (I & _ & _ & Hs & Hf & _). split; [apply (ir_src _ _ _ _ _ _ _ _ _ _ I)|]. split.
      * exists 0. split_and!; [done|done|done| |intros k o c Hk; by rewrite lookup_nil in Hk]. eapply same_env; [|exact Hs]. by rewrite (ir_env _ _ _ _ _ _ _ _ _ _ I).
      * apply map_eq. intros a. rewrite Hf; [by rewrite <- Hg| |done]. unfold lo. cbn. lia.
  - destruct (Hal Hne) as [Ha (B1 & B2 & B3 & (hd & Hhd & Hc) & Hm & At)]. assert (length seen <> 0)%nat as Hl0 by (by destruct seen). set (n := whsizes h seen) in *.
    eapply ok_change.
    { rewrite (proj2 (Z.eqb_neq _ _)) by lia. unfold Wosize_whsize. rewrite (wrap_small 64) by lia. rewrite (proj2 (Z.eqb_neq _ _)) by lia.
      unfold allocate in Ha. rewrite Hg, Ha. cbn [bind]. rewrite Hd_val_word, (rd_some _ _ _ Hhd) by lia. cbn [bind]. rewrite (proj2 (Z.ltb_lt 0 _)) by lia. done. }
    set (s1 := mkI _ _ _ _ _ _ _ _). unfold intern_value. eapply ok_look; [done|].
    assert (0 <= b - 8 /\ (b - 8) mod 8 = 0 /\ b - 8 + 8 * n <= 2 ^ 63) as Hbase by (split_and!; [lia|zdiv|lia]).
    assert ((b - 8) / 8 = b / 8 - 1) as E8 by zdiv.
    pose proof (proj1 (intern_rec_builds table h objs outs S code code_ok (b - 8) n (Color_hd hd) (Z.of_nat (length seen)) g1 Hbase Hw Hc At)
      _ _ _ _ He (Datatypes.S (length (intern_src s1))) rest s1 None) as R.
    eapply ok_weaken; [apply R|]; [|cbn; rewrite Hsrc, length_app; lia|done|done|done|done|done|].
    + split; cbn; try done; [lia|by rewrite set_words_same| |set_solver]. intros a Hr. rewrite E8 in Hr.
      destruct (decide (a = b / 8 - 1)) as [->|]; [by rewrite Hhd|]. apply Hm. lia.
    + intros r s' (I & _ & _ & Hs & Hf & _ & Hcp). split; [apply (ir_src _ _ _ _ _ _ _ _ _ _ I)|].
      assert (caml_atom_table g1 = caml_atom_table (i_heap s')) as Eat by (by rewrite (ir_env _ _ _ _ _ _ _ _ _ _ I)). split.
      * exists (Color_hd hd). split_and!; [done|done|done|by eapply same_env|]. intros k o c Hk Hck. eapply copied_env; [done|]. apply (Hcp k); [cbn; lia|done|done].
      * intros a Hra. rewrite Hf; [done| |done]. unfold lo. fold n. cbn. lia.
Qed.
End Input.

(** What output may end with, when it does not write. *)
Definition failure `{CustomMarshal} (h : heap) (objs outs : list Z) (code : code_area) (fl : Z) (userprovided : bool) (e : string) : Prop :=
  cause h objs outs code (negb (Z.land fl CLOSURES =? 0)) userprovided e \/ e = object_too_big.

(** * Entry points *)
Lemma read32_eq {B} x src s (k : Z -> intern B) : intern_src s = be_bytes 4 x ++ src -> then_ read32u k s = k (be_value (be_bytes 4 x)) (i_set_src s src).
Proof.
  intros Hs. unfold read32u. rewrite then_assoc'. unfold then_ at 1, take_input, split_input. rewrite Hs, length_app, length_be.
  rewrite (proj2 (Nat.leb_le _ _)) by lia. rewrite take_app_length', drop_app_length' by (by rewrite length_be). done.
Qed.
Lemma read32_ok {B} x src s (Q : B -> istate -> Prop) k : intern_src s = be_bytes 4 x ++ src -> 0 <= x < 2 ^ 32 ->
  ok_run Q (k x (i_set_src s src)) -> ok_run Q (then_ read32u k s).
Proof. intros Hs Hx Hk. rewrite (read32_eq x src) by done. by rewrite be_value_32. Qed.
Lemma read32_any {B} x src s (Q : B -> istate -> Prop) k : intern_src s = be_bytes 4 x ++ src ->
  (forall y, ok_run Q (k y (i_set_src s src))) -> ok_run Q (then_ read32u k s).
Proof. intros Hs Hk. by rewrite (read32_eq x src) by done. Qed.

Section Marshal.
Context `{CustomMarshal} `{Allocator}.
Variable table : list Z.
Context `{!MarshalLaws table}.
Variable h : heap.
Variables objs outs : list Z.
Hypothesis S : source table h objs outs.
Variable code : code_area.
Hypothesis code_ok : code_fits code.
Variables v flags fl : Z.
Hypothesis V : value h objs outs v.
(** The flags ask for sharing. *)
Hypothesis F : caml_convert_flag_list h flags extern_flags = Ok fl.
Hypothesis sharing : Z.land fl NO_SHARING = 0.

Abbreviation closures := (negb (Z.land fl CLOSURES =? 0)).

Lemma extern_value_ok userprovided room : (if userprovided : bool then True else 4 <= room) ->
  ended h objs outs code closures userprovided (fun n s' => n = blen (extern_bytes s') /\ output_of h objs outs code v (extern_bytes s') /\ (userprovided = true -> blen (extern_bytes s') <= room))
    (extern_value code userprovided v flags (xstart h room)).
Proof.
  intros Hr. unfold extern_value, then_ at 1, look at 1. cbn [x_heap xstart]. rewrite F, sharing. cbn [Z.eqb negb].
  eapply (extern_body_ok table h objs outs S code); try done. by destruct userprovided.
Qed.

Lemma data_size out : output_of h objs outs code v out -> 20 <= blen out.
Proof. intros (bs & seen & n32 & _ & _ & _ & -> & _). unfold blen. rewrite length_app. change (length (intext_header _ _ _ _)) with 20%nat. lia. Qed.

Section Input.
Variables (g : heap).
Hypothesis atoms_ok : atoms_fit g.
Hypothesis alloc_ok : can_allocate g.

Lemma alloc_some seen : (forall o, o ∈ seen -> o ∈ objs) -> whsizes h seen < 2 ^ 32 ->
  exists g1 b, seen <> [] -> allocate g (whsizes h seen - 1) = Ok (g1, b) /\ fresh_block g1 b (whsizes h seen - 1).
Proof.
  intros Hs Hw. pose proof (whsizes_nonneg table h objs outs S seen Hs) as Hn. destruct (decide (seen = [])) as [->|Hne]; [by exists g, 0|].
  destruct (alloc_ok (whsizes h seen - 1)) as (g1 & b & Ha); [assert (length seen <> 0)%nat by (by destruct seen); lia|]. by exists g1, b.
Qed.

(** What a reader gives back. *)
Definition gives_copy (rest : bytes) (r : Z) (s : istate) : Prop := exists seen g1 b, copied_in h objs outs g g1 b v seen rest r s.

(** The sizes, then the encoding. *)
Lemma value_ok bs seen n32 rest s : enc h code objs outs [] v bs seen -> NoDup seen -> (forall o, o ∈ seen -> o ∈ objs) -> blen bs < 2 ^ 32 -> whsizes h seen < 2 ^ 32 ->
  s = istart g (be_bytes 4 (Z.of_nat (length seen)) ++ be_bytes 4 n32 ++ be_bytes 4 (whsizes h seen) ++ bs ++ rest) ->
  ok_run (gives_copy rest) (input_val_from_block code table s).
Proof.
  intros He Hd Hs Hb Hw ->. pose proof (whsizes_nonneg table h objs outs S seen Hs) as Hn. unfold input_val_from_block.
  eapply read32_ok; [done|lia|]. eapply read32_any; [done|]. intros y. eapply read32_ok; [done|lia|].
  destruct (alloc_some seen Hs Hw) as (g1 & b & Ha).
  eapply ok_weaken; [eapply (build_ok table h objs outs S code code_ok g g1 b atoms_ok v bs seen rest); done|]. intros r s' Hc. by exists seen, g1, b.
Qed.

Lemma from_malloc_ok pre out post : output_of h objs outs code v out ->
  ok_run (gives_copy post) (caml_input_value_from_malloc code table g (pre ++ out ++ post) (length pre)).
Proof.
  intros (bs & seen & n32 & He & Hd & Hs & -> & Hb & Hw). unfold blen in Hb. rewrite length_app in Hb. change (length (intext_header _ _ _ _)) with 20%nat in Hb.
  unfold caml_input_value_from_malloc. rewrite drop_app_length. unfold intext_header. rewrite <- !app_assoc. eapply read32_ok; [done|done|]. cbn [negb Z.eqb].
  change (negb (Intext_magic_number =? Intext_magic_number)) with false. cbv iota. eapply read32_any; [done|]. intros y. eapply value_ok; try done. unfold blen. lia.
Qed.

Lemma from_channel_ok out post : output_of h objs outs code v out ->
  ok_run (fun '(r, rest) s => rest = post /\ gives_copy [] r s) (caml_input_val code table g true (out ++ post)).
Proof.
  intros (bs & seen & n32 & He & Hd & Hs & -> & Hb & Hw). unfold blen in Hb. rewrite length_app in Hb. change (length (intext_header _ _ _ _)) with 20%nat in Hb.
  pose proof (whsizes_nonneg table h objs outs S seen Hs) as Hn.
  unfold caml_input_val. cbn [negb]. unfold intext_header. rewrite <- !app_assoc. eapply read32_ok; [done|done|].
  change (negb (Intext_magic_number =? Intext_magic_number)) with false. cbv iota. eapply read32_ok; [done|unfold blen; lia|]. eapply read32_ok; [done|lia|].
  eapply read32_any; [done|]. intros y. eapply read32_ok; [done|lia|]. eapply ok_look; [done|]. cbn [intern_src i_set_src].
  replace (Z.to_nat (blen bs)) with (length bs) by (unfold blen; lia). rewrite (proj2 (Nat.ltb_ge _ _)) by (rewrite length_app; lia).
  eapply ok_change; [done|]. rewrite take_app_length, drop_app_length.
  destruct (alloc_some seen Hs Hw) as (g1 & b & Ha).
  match goal with |- ok_run ?Q (then_ ?m (fun _ => then_ ?n ?k) ?s) => assert (then_ m (fun _ => then_ n k) s = then_ (then_ m (fun _ => n)) k s) as -> by (by rewrite then_assoc') end.
  eapply ok_then. { eapply (build_ok table h objs outs S code code_ok g g1 b atoms_ok v bs seen []); try done; [unfold blen; lia|cbn; by rewrite app_nil_r]. }
  intros r s' Hc. cbn. split; [done|]. by exists seen, g1, b.
Qed.
End Input.

Lemma to_malloc_ok : let '(out, h') := caml_output_value_to_malloc code h v flags in
  h' = h /\ match out with Ok data => output_of h objs outs code v data | Err e => failure h objs outs code fl false e | Timeout => False end.
Proof.
  unfold caml_output_value_to_malloc. change (init_extern_output (xstart h 0)) with (xstart h SIZE_EXTERN_OUTPUT_BLOCK).
  pose proof (extern_value_ok false SIZE_EXTERN_OUTPUT_BLOCK ltac:(unfold SIZE_EXTERN_OUTPUT_BLOCK; lia)) as [Hh Hr].
  destruct (extern_value _ _ _ _ _) as [[n|e|] s]; cbn in *; [|done|done]. by destruct Hr as (_ & Hr & _).
Qed.

Lemma output_val_ok chan : let '(out, h') := caml_output_val code true chan h v flags in
  h' = h /\ match out with Ok chan' => exists data, chan' = chan ++ data /\ output_of h objs outs code v data | Err e => failure h objs outs code fl false e | Timeout => False end.
Proof.
  pose proof to_malloc_ok as H1. unfold caml_output_val, caml_output_value_to_malloc in *. cbn [negb]. destruct (extern_value _ _ _ _ _) as [[n|e|] s]; cbn in *; [|done|done].
  destruct H1 as [-> H1]. split; [done|]. by exists (extern_bytes s).
Qed.
End Marshal.

Section Claims.
Context `{CustomMarshal} `{Allocator}.
Variable table : list Z.
Context `{!MarshalLaws table}.

(** C5: Marshalling and unmarshalling give a copy of the value, isomorphic to it:
    for a well-formed graph of values (with sharing and cycles, strings, doubles,
    custom blocks, closures), [caml_output_value_to_malloc] either writes data or
    raises an exception that has a cause in the graph, always ends, and leaves
    the heap as it was; and [caml_input_value_from_malloc], given those data
    anywhere in a buffer, returns a value whose objects are distinct copies of
    the objects of the graph, of the same sizes, tags and contents, related in
    the same way, all in the block it allocated, with no other word changed. *)
Theorem marshal_roundtrip h objs outs code v flags fl :
  source table h objs outs -> value h objs outs v -> code_fits code ->
  caml_convert_flag_list h flags extern_flags = Ok fl -> Z.land fl NO_SHARING = 0 ->
  let '(out, h') := caml_output_value_to_malloc code h v flags in
  h' = h /\
  match out with
  | Ok data => forall g pre post, atoms_fit g -> can_allocate g ->
      ok_run (gives_copy h objs outs v g post) (caml_input_value_from_malloc code table g (pre ++ data ++ post) (length pre))
  | Err e => failure h objs outs code fl false e
  | Timeout => False
  end.
Proof.
  intros S V C F Hs. pose proof (to_malloc_ok table h objs outs S code v flags fl V F Hs) as Ho.
  destruct (caml_output_value_to_malloc _ _ _ _) as [[data|e|] h']; [|done|done]. destruct Ho as [-> Ho]. split; [done|].
  intros g pre post A Al. by eapply (from_malloc_ok table h objs outs S code C).
Qed.


(** C22: A channel keeps values apart and in order: what is written for one value
    and then for another is read as a copy of the first, which leaves exactly the
    data of the second, and then as a copy of the second. *)
Theorem channel_keeps_order h objs outs code v1 v2 flags fl chan1 chan2 h1 h2 :
  source table h objs outs -> value h objs outs v1 -> value h objs outs v2 -> code_fits code ->
  caml_convert_flag_list h flags extern_flags = Ok fl -> Z.land fl NO_SHARING = 0 ->
  caml_output_val code true [] h v1 flags = (Ok chan1, h1) -> caml_output_val code true chan1 h1 v2 flags = (Ok chan2, h2) ->
  forall g1 g2, atoms_fit g1 -> can_allocate g1 -> atoms_fit g2 -> can_allocate g2 ->
  exists r1 r2 s1 s2 rest,
    caml_input_val code table g1 true chan2 = (Ok (r1, rest), s1) /\ gives_copy h objs outs v1 g1 [] r1 s1 /\
    caml_input_val code table g2 true rest = (Ok (r2, []), s2) /\ gives_copy h objs outs v2 g2 [] r2 s2.
Proof.
  intros S V1 V2 C F Hs E1 E2 g1 g2 A1 L1 A2 L2.
  pose proof (output_val_ok table h objs outs S code v1 flags fl V1 F Hs []) as O1. rewrite E1 in O1. destruct O1 as (-> & d1 & -> & O1).
  pose proof (output_val_ok table h objs outs S code v2 flags fl V2 F Hs ([] ++ d1)) as O2. rewrite E2 in O2. destruct O2 as (_ & d2 & -> & O2).
  pose proof (from_channel_ok table h objs outs S code C v1 V1 g1 A1 L1 d1 d2 O1) as R1. pose proof (from_channel_ok table h objs outs S code C v2 V2 g2 A2 L2 d2 [] O2) as R2.
  rewrite app_nil_r in R2. change (([] ++ d1) ++ d2) with (d1 ++ d2).
  destruct (caml_input_val code table g1 true (d1 ++ d2)) as [[[r1 rest1]|e|] s1]; [|done|done]. destruct R1 as [-> R1].
  destruct (caml_input_val code table g2 true d2) as [[[r2 rest2]|e|] s2] eqn:Eq; [|done|done]. destruct R2 as [-> R2].
  exists r1, r2, s1, s2, d2. by rewrite Eq.
Qed.
End Claims.

(** * An example

    A block with a string, twice, itself, and a boxed int32. *)
Section Example.
Definition tiny : heap := mkHeap (list_to_map
  [(512, Make_header 4 0 Caml_white); (513, 4144); (514, 4104); (515, 4160); (516, 4144);
   (517, Make_header 1 String_tag Caml_black); (518, 97 + 256 * 98 + 5 * 2 ^ 56);
   (519, Make_header 2 Custom_tag Caml_white); (520, 64); (521, 7)]) 16384 0 0 4096 8192 (fun p => p =? 1).
Definition tiny_objs : list Z := [4104; 4144; 4160].
Definition no_code : code_area := mkCode 0 0 (replicate 16 0).
Definition tiny_table : list Z := caml_init_custom_operations 64 128 192 [].
#[local] Instance tiny_marshal : CustomMarshal := int_marshal 64 128 192.
#[local] Instance tiny_laws : MarshalLaws tiny_table := int_marshal_laws 64 128 192 ltac:(done).

(** A heap with nothing, and an allocator that has all the room. *)
Definition empty_heap : heap := mkHeap ∅ 16384 0 0 4096 8192 (fun _ => false).
Definition room_for (h : heap) (wosize tag : Z) : res (heap * Z) :=
  Ok (set_words h (<[600 := Make_header wosize tag Caml_white]> (gset_to_gmap 0 (list_to_set (seqZ 601 wosize)))), 4808).
#[local] Instance tiny_alloc : Allocator := {| caml_alloc_small := room_for; caml_alloc_shr := room_for |}.

Lemma tiny_room : atoms_fit empty_heap /\ can_allocate empty_heap.
Proof.
  split; [by unfold atoms_fit|]. intros n Hn. unfold allocate. cbn [caml_alloc_small caml_alloc_shr tiny_alloc].
  exists (set_words empty_heap (<[600 := Make_header n String_tag Caml_white]> (gset_to_gmap 0 (list_to_set (seqZ 601 n))))), 4808.
  split; [by destruct (_ <=? _)|]. unfold fresh_block. change (4808 / 8) with 601. split_and!; [lia|done|lia| | |by unfold atoms_fit..].
  - exists (Make_header n String_tag Caml_white). split; [by rewrite words_set, lookup_insert_eq|]. left. apply Color_made; [lia|done|by left].
  - intros a Ha. rewrite words_set, lookup_insert_ne by lia. exists 0. apply lookup_gset_to_gmap_Some. split; [|done]. apply elem_of_list_to_set, elem_of_seqZ. lia.
Qed.

Lemma tiny_values : value tiny tiny_objs [] 4144 /\ value tiny tiny_objs [] 4104 /\ value tiny tiny_objs [] 4160.
Proof. unfold value, tiny_objs, in_s. split_and!; try done; right; left; set_solver. Qed.

Lemma seqZ_forall (P : Z -> Prop) i0 n : Forall P (seqZ i0 n) -> forall i, i0 <= i < i0 + n -> P i.
Proof. intros HP i Hi. rewrite Forall_forall in HP. apply HP, elem_of_seqZ. lia. Qed.

Lemma tiny_object o n : o ∈ tiny_objs -> wosize_of tiny o = n -> 0 < n -> 8 <= o /\ o + 8 * n <= 2 ^ 63 /\ o mod 8 = 0 -> Is_in_heap tiny o = true ->
  Forall (fun i => exists w, words tiny !! (o / 8 + i) = Some w /\ 0 <= w < 2 ^ 64) (seqZ (-1) (n + 1)) ->
  Color_hd (hd_of tiny o) <> Caml_blue -> tag_of tiny o <> Infix_tag -> tag_of tiny o <> Forward_tag ->
  (tag_of tiny o = String_tag -> exists len, 0 <= len /\ caml_string_length tiny o = Ok len /\ n = (len + 8) / 8) ->
  (tag_of tiny o = Double_tag -> n = 1) ->
  (tag_of tiny o = Custom_tag -> forall ser, custom_serialize (field_of tiny o 0) = Some ser -> field_of tiny o 0 ∈ tiny_table /\ exists ws n32 n64, ser tiny o = Ok (ws, n32, n64) /\ 0 <= n64 /\ n = 1 + (n64 + 7) / 8) ->
  (scanned (tag_of tiny o) = true -> exists vs, field_of tiny o <$> seqZ 0 n = vs /\ Forall (value tiny tiny_objs []) vs) ->
  object tiny_table tiny tiny_objs [] o.
Proof.
  intros Ho <- Hn Ha Hk Hw Hc Hi Hf Hs Hd Hcu Hsc. split; try done.
  - by rewrite Hk, orb_true_r.
  - intros i Hi'. apply (seqZ_forall _ _ _ Hw). lia.
  - intros Hscan i Hi'. destruct (Hsc Hscan) as (vs & <- & Hvs). rewrite Forall_fmap in Hvs. apply (seqZ_forall _ _ _ Hvs). lia.
Qed.

Lemma tiny_ops : field_of tiny 4160 0 = 64.
Proof. vm_compute. reflexivity. Qed.
Lemma tiny_custom ser : custom_serialize 64 = Some ser -> ser = int32_serialize.
Proof. intros E. change (Some int32_serialize = Some ser) in E. congruence. Qed.

Lemma tiny_source : source tiny_table tiny tiny_objs [].
Proof.
  destruct tiny_values as (V1 & V2 & V3). split.
  - unfold tiny_objs. repeat constructor; set_solver.
  - intros o Ho. pose proof Ho as Ho'. unfold tiny_objs in Ho'. apply elem_of_cons in Ho' as [->|Ho']; [|apply elem_of_cons in Ho' as [->|Ho']; [|apply list_elem_of_singleton in Ho' as ->]].
    + apply (tiny_object _ 4); try done. { repeat constructor; eexists; (split; [reflexivity|vm_compute; split; done]). } intros _.
      exists [4144; 4104; 4160; 4144]. split; [vm_compute; reflexivity|]. by repeat constructor.
    + apply (tiny_object _ 1); try done. { repeat constructor; eexists; (split; [reflexivity|vm_compute; split; done]). } intros _. by exists 2.
    + apply (tiny_object _ 2); try done. { repeat constructor; eexists; (split; [reflexivity|vm_compute; split; done]). }
      intros _ ser. rewrite tiny_ops. intros ->%tiny_custom.
      split; [vm_compute; set_solver|]. by exists [[0; 0; 0; 7]], 4, 4.
  - intros o o' Ho Ho'. unfold tiny_objs in *. repeat (apply elem_of_cons in Ho as [->|Ho]); repeat (apply elem_of_cons in Ho' as [->|Ho']);
      try (by apply not_elem_of_nil in Ho); try (by apply not_elem_of_nil in Ho'); intros Hne; try done; vm_compute; intuition discriminate.
  - intros v Hv. by apply not_elem_of_nil in Hv.
  - done.
Qed.

Definition tiny_data : bytes := Eval vm_compute in match (caml_output_value_to_malloc no_code tiny 4104 1).1 with Ok data => data | _ => [] end.
Lemma tiny_output : caml_output_value_to_malloc no_code tiny 4104 1 = (Ok tiny_data, tiny).
Proof. vm_compute. reflexivity. Qed.
Lemma tiny_code : code_fits no_code.
Proof. by unfold code_fits. Qed.

Lemma marshal_roundtrip_witness :
  ok_run (gives_copy tiny tiny_objs [] 4104 empty_heap []) (caml_input_value_from_malloc no_code tiny_table empty_heap (tiny_data ++ []) 0).
Proof.
  pose proof (marshal_roundtrip tiny_table tiny tiny_objs [] no_code 4104 1 0 tiny_source (proj1 (proj2 tiny_values)) tiny_code eq_refl eq_refl) as M.
  rewrite tiny_output in M. exact (proj2 M empty_heap [] [] (proj1 tiny_room) (proj2 tiny_room)).
Defined.

(** The copy as it is: 4808 is the block, with itself as second field. *)
Example tiny_copy : let '(r, s) := caml_input_value_from_malloc no_code tiny_table empty_heap tiny_data 0 in
  r = Ok 4808 /\ (fun a => words (i_heap s) !! a) <$> [600; 601; 602; 603; 604; 605; 606; 607; 608; 609] =
    Some <$> [Make_header 4 0 0; 4848; 4808; 4864; 4848; Make_header 1 String_tag 0; 97 + 256 * 98 + 5 * 2 ^ 56; Make_header 2 Custom_tag 0; 64; 7].
Proof. vm_compute. done. Qed.


Definition tiny_channel : bytes := Eval vm_compute in match (caml_output_val no_code true tiny_data tiny 4144 1).1 with Ok data => data | _ => [] end.

Lemma channel_keeps_order_witness : exists r1 r2 s1 s2 rest,
  caml_input_val no_code tiny_table empty_heap true tiny_channel = (Ok (r1, rest), s1) /\ gives_copy tiny tiny_objs [] 4104 empty_heap [] r1 s1 /\
  caml_input_val no_code tiny_table empty_heap true rest = (Ok (r2, []), s2) /\ gives_copy tiny tiny_objs [] 4144 empty_heap [] r2 s2.
Proof.
  assert (caml_output_val no_code true [] tiny 4104 1 = (Ok tiny_data, tiny)) as E1 by (vm_compute; reflexivity).
  assert (caml_output_val no_code true tiny_data tiny 4144 1 = (Ok tiny_channel, tiny)) as E2 by (vm_compute; reflexivity).
  exact (channel_keeps_order tiny_table tiny tiny_objs [] no_code 4104 4144 1 0 _ _ _ _ tiny_source (proj1 (proj2 tiny_values)) (proj1 tiny_values) tiny_code eq_refl eq_refl E1 E2
    empty_heap empty_heap (proj1 tiny_room) (proj2 tiny_room) (proj1 tiny_room) (proj2 tiny_room)).
Defined.

(** * A forward pointer that is shared

    A lazy value whose result is a double keeps its forward block.  The first
    time it is met it is recorded, and its first field becomes its number; the
    second time the field is taken for the value it forwards to, before the mark
    is looked at.  Here a pair of one lazy double with itself: the second
    component is written as the integer 0. *)
Definition lazy_pair : heap := mkHeap (list_to_map
  [(512, Make_header 2 0 Caml_white); (513, 4128); (514, 4128); (515, Make_header 1 Forward_tag Caml_white); (516, 4144);
   (517, Make_header 1 Double_tag Caml_white); (518, 0x3FF0000000000000)]) 16384 0 0 4096 8192 (fun p => p =? 1).
Lemma shared_forward_lost : Field lazy_pair 4104 0 = Field lazy_pair 4104 1 /\
  match caml_output_value_to_malloc no_code lazy_pair 4104 1 with
  | (Ok data, _) => let '(r, s) := caml_input_value_from_malloc no_code tiny_table empty_heap data 0 in
      r = Ok 4808 /\ Field (i_heap s) 4808 0 = Ok 4832 /\ Tag_val (i_heap s) 4832 = Ok Forward_tag /\ Field (i_heap s) 4808 1 = Ok (Val_long 0)
  | _ => False
  end.
Proof. vm_compute. done. Qed.
End Example.
