(* ===== verification/CamlMarshalStr.v ===== *)
(** Marshalling to and from OCaml strings: the value goes through a string of
    the heap, which the allocator has to keep apart from the rest. *)
From stdpp Require Import base gmap list.
From Stdlib Require Import ZArith Lia.
From S2P Require Import Prelude CamlMemory CamlValues CamlIntext CamlIntextOk CamlStr CamlStrSpec CamlExtern CamlGraph CamlExternOk CamlExternRun CamlIntern CamlInternOk CamlMarshal.
Open Scope Z_scope.

Lemma set_words_atoms (g : heap) m : atoms_fit g -> atoms_fit (set_words g m).
Proof. done. Qed.

(** ** The bytes of a string *)
Lemma block_from_ok g s bs o : is_string g s bs -> 0 <= o <= slen bs -> block_from g s o = Ok (drop (Z.to_nat o) (padded bs)).
Proof.
  intros S Ho. pose proof (string_facts _ _ _ S) as (A & M & L & P & W & R & N). unfold block_from. rewrite (string_bosize _ _ _ S). cbn [bind].
  pose proof (get_bytes_part g s _ _ (Z.to_nat o) (Z.to_nat (8 * wos (slen bs) - o)) (st_bytes _ _ _ S) ltac:(lia)) as G. rewrite Z2Nat.id in G by lia. rewrite G. f_equal.
  apply firstn_all2. rewrite length_drop. pose proof (length_padded bs). lia.
Qed.

(** Allocation does not look at the input. *)
Lemma alloc_src `{Allocator} w n s x : intern_alloc w n (i_set_src s x) = let '(r, s') := intern_alloc w n s in (r, i_set_src s' x).
Proof.
  unfold intern_alloc, change. cbn [i_heap i_set_src intern_src intern_dest intern_objs intern_color intern_header]. destruct (w =? 0); [done|].
  destruct (if Wosize_whsize w =? 0 then _ else _) as [[h b]|e|]; cbn [bind]; [|done|done]. destruct (Hd_val h b); cbn; done.
Qed.

Section Strings.
Context `{CustomMarshal} `{AllocatorLaws}.
Variable table : list Z.
Context `{!MarshalLaws table}.

(** A block of the allocator, and the strings that were there. *)
Lemma allocate_fresh g n M : 0 < n < 2 ^ 32 -> atoms_fit g -> strings g M ->
  match allocate g n with
  | Ok (g1, b) => fresh_block g1 b n /\ forall s bs, M !! s = Some bs -> is_string g1 s bs
  | Err e => e = no_memory
  | Timeout => False
  end.
Proof.
  intros Hn Ha T. pose proof (alloc_ok g n String_tag ltac:(unfold Max_wosize; lia) ltac:(done)) as A. unfold allocate.
  destruct (if n <=? Max_young_wosize then _ else _) as [[g1 b]|e|]; [|done|done]. destruct A as (m & color & -> & Hc & Ab & Mb & Lb & Hhd & Hdom & Hw & _ & Hap).
  pose proof (Make_tag n String_tag color ltac:(lia) ltac:(done) Hc) as (_ & _ & R). split.
  - unfold fresh_block. split_and!; try done. exists (Make_header n String_tag color). split; [done|]. by rewrite Color_made by (lia || done).
  - intros s bs Hs. destruct (T s bs Hs) as [S L]. destruct (Hap s L) as [_ Hx]. rewrite (string_wosize_at _ _ _ S) in Hx. apply string_frame; [done|]. intros a Hr. apply Hw. lia.
Qed.

Variable h : heap.
Variables objs outs : list Z.
Hypothesis S : source table h objs outs.
Variable code : code_area.
Hypothesis code_ok : code_fits code.
Variable v : Z.
Hypothesis V : value h objs outs v.

(** How reading a string ends: with a copy, or without memory for it. *)
Definition read_back (g : heap) (r : res Z * istate) : Prop :=
  match r with
  | (Ok c, s) => exists rest, gives_copy h objs outs v g rest c s
  | (Err e, _) => e = no_memory
  | (Timeout, _) => False
  end.

(** The value, from the source after the header, once the sizes are known. *)
Lemma string_value_ok g M str data ofs bs seen rest s : atoms_fit g -> strings g M -> M !! str = Some data ->
  enc h code objs outs [] v bs seen -> NoDup seen -> (forall o, o ∈ seen -> o ∈ objs) -> blen bs < 2 ^ 32 -> whsizes h seen < 2 ^ 32 ->
  0 <= ofs <= slen data -> drop (Z.to_nat ofs) (padded data) = bs ++ rest -> s = istart g (intern_src s) ->
  read_back g ((intern_alloc (whsizes h seen) (Z.of_nat (length seen));; input_at str ofs;; intern_value code table) s).
Proof.
  intros At T Hstr He Hd Hs Hb Hw Ho Hdrop Hst. pose proof (whsizes_nonneg table h objs outs S seen Hs) as Hn. set (w := whsizes h seen) in *. set (k := Z.of_nat (length seen)).
  assert (forall sa, is_string (i_heap sa) str data -> (input_at str ofs;; intern_value code table) sa = intern_value code table (i_set_src sa (bs ++ rest))) as Hin.
  { intros sa Ha. unfold input_at, then_ at 1, change. by rewrite (block_from_ok _ _ data ofs Ha Ho), Hdrop. }
  assert (forall g1 b, (seen <> [] -> allocate g (w - 1) = Ok (g1, b) /\ fresh_block g1 b (w - 1)) ->
    (forall sa, intern_alloc w k s = (Ok tt, sa) -> is_string (i_heap sa) str data) -> read_back g ((intern_alloc w k;; input_at str ofs;; intern_value code table) s)) as Hgo.
  { intros g1 b Hal Hsa. pose proof (build_ok table h objs outs S code code_ok g g1 b At v bs seen rest (i_set_src s (bs ++ rest)) V He Hd Hs Hb Hw) as B.
    rewrite Hst in B. cbn [i_set_src istart] in B. specialize (B eq_refl eq_refl eq_refl eq_refl eq_refl Hal).
    change (mkI g (bs ++ rest) 0 None [] 0 0 0) with (i_set_src (istart g (intern_src s)) (bs ++ rest)) in B. rewrite <- Hst in B. fold w k in B.
    unfold then_ at 1 in B. rewrite alloc_src in B. unfold then_ at 1. destruct (intern_alloc w k s) as [[[]|e|] sa]; [|done|done].
    rewrite Hin by (by apply Hsa). destruct (intern_value code table (i_set_src sa (bs ++ rest))) as [[c|e|] s']; [|done|done]. exists rest, seen, g1, b. exact B. }
  destruct (T str data Hstr) as [Sd _]. destruct (decide (seen = [])) as [->|Hne].
  - apply (Hgo g 0); [done|]. intros sa. rewrite Hst. unfold intern_alloc, change. cbn. by intros [= <-].
  - assert (0 < w - 1 < 2 ^ 32) as Hw1 by (assert (length seen <> 0)%nat by (by destruct seen); lia). pose proof (allocate_fresh g (w - 1) M Hw1 At T) as A.
    assert (intern_alloc w k s = match allocate g (w - 1) with
      | Ok (g1, b) => change (fun s => hd <- Hd_val g1 b; Ok (mkI g1 (intern_src s) (b - 8) (if 0 <? k then Some k else None) [] (Color_hd hd) hd b)) s
      | Err e => (Err e, s) | Timeout => (Timeout, s) end) as Ea.
    { rewrite Hst. unfold intern_alloc, change, allocate. cbn [i_heap istart intern_src]. rewrite (proj2 (Z.eqb_neq w 0)) by lia. unfold Wosize_whsize. rewrite (wrap_small 64) by lia.
      rewrite (proj2 (Z.eqb_neq (w - 1) 0)) by lia. by destruct (if w - 1 <=? Max_young_wosize then _ else _) as [[g1 b]|e|]. }
    destruct (allocate g (w - 1)) as [[g1 b]|e|] eqn:Eal; [|by unfold then_ at 1; rewrite Ea|done]. destruct A as [Hf Hstr1]. apply (Hgo g1 b); [done|]. intros sa. rewrite Ea.
    unfold change. destruct (Hd_val g1 b) as [hd|e|]; cbn; [|done|done]. intros [= <-]. by apply Hstr1.
Qed.

Lemma output_padded data : output_of h objs outs code v data -> exists bs seen n32 pad,
  enc h code objs outs [] v bs seen /\ NoDup seen /\ (forall o, o ∈ seen -> o ∈ objs) /\ whsizes h seen < 2 ^ 32 /\
  slen data = 20 + blen bs /\ 20 + blen bs < 2 ^ 32 /\
  padded data = be_bytes 4 Intext_magic_number ++ be_bytes 4 (blen bs) ++ be_bytes 4 (Z.of_nat (length seen)) ++ be_bytes 4 n32 ++ be_bytes 4 (whsizes h seen) ++ bs ++ pad.
Proof.
  intros (bs & seen & n32 & He & Hd & Hs & Hdata & Hb & Hw). exists bs, seen, n32, (replicate (Z.to_nat (padding (slen data))) 0 ++ [padding (slen data)]).
  assert (length data = 20 + length bs)%nat as Hlen by (rewrite Hdata, length_app; done). unfold blen, slen in *.
  split_and!; [done|done|done|done|lia|lia|]. unfold padded. rewrite Hdata at 1. unfold intext_header. by rewrite <- !app_assoc.
Qed.

Lemma from_string_ok g M str data : atoms_fit g -> strings g M -> M !! str = Some data -> output_of h objs outs code v data ->
  read_back g (caml_input_value_from_string code table g str (Val_long 0)).
Proof.
  intros At T Hstr (bs & seen & n32 & pad & He & Hd & Hs & Hw & Hlen & Hb & Hpad)%output_padded. pose proof (whsizes_nonneg table h objs outs S seen Hs) as Hn. destruct (T str data Hstr) as [Sd _].
  unfold caml_input_value_from_string, caml_input_val_from_string. change (Long_val (Val_long 0)) with 0. unfold then_ at 1, input_at at 1, change. cbn [i_heap istart].
  assert (0 <= blen bs) by (unfold blen; lia). rewrite (block_from_ok _ _ data _ Sd) by lia. cbn [bind]. rewrite Hpad.
  match goal with |- context [drop ?n (be_bytes 4 Intext_magic_number ++ be_bytes 4 (blen bs) ++ ?l)] => change (drop n (be_bytes 4 Intext_magic_number ++ be_bytes 4 (blen bs) ++ l)) with l end.
  rewrite (read32_eq (Z.of_nat (length seen)) (be_bytes 4 n32 ++ be_bytes 4 (whsizes h seen) ++ bs ++ pad)) by done. rewrite (read32_eq n32 (be_bytes 4 (whsizes h seen) ++ bs ++ pad)) by done.
  rewrite (read32_eq (whsizes h seen) (bs ++ pad)) by done. rewrite !be_value_32 by lia.
  eapply (string_value_ok g M str data _ bs seen pad); try done; [lia|lia|]. rewrite Hpad. done.
Qed.

Lemma data_size_ok g str data : is_string g str data -> output_of h objs outs code v data -> caml_marshal_data_size g str (Val_long 0) = Ok (Val_long (slen data - 20)).
Proof.
  intros Sd (bs & seen & n32 & pad & _ & _ & _ & _ & Hlen & Hb & Hpad)%output_padded. unfold caml_marshal_data_size. change (Long_val (Val_long 0)) with 0. assert (0 <= blen bs) by (unfold blen; lia).
  rewrite (block_from_ok _ _ data _ Sd) by lia. cbn [bind]. change (Z.to_nat 0) with 0%nat. rewrite drop_0, Hpad.
  unfold caml_deserialize_uint_4. rewrite split_input_app by done. cbn [bind]. rewrite be_value_32 by done. change (negb (Intext_magic_number =? Intext_magic_number)) with false. cbv iota.
  rewrite split_input_app by done. cbn [bind]. rewrite be_value_32 by lia. do 2 f_equal. lia.
Qed.

(** What is written are bytes. *)
Hypothesis checksum_bytes : Forall is_byte (caml_code_checksum code).

Lemma leaf_bytes o bs : o ∈ objs -> leaf h o bs -> Forall is_byte bs.
Proof.
  intros Ho Hl. destruct Hl as [len bs _ _ G|bs _ G|bs _ G|ops ser ws n32 n64 Ht Ef Es Eser].
  - apply Forall_app_2; [|by apply (get_bytes_bytes _ _ _ _ G)]. unfold string_code. repeat destruct (_ <? _); repeat constructor; apply u8_is_byte.
  - constructor; [by vm_compute|by apply (get_bytes_bytes _ _ _ _ G)].
  - apply Forall_app_2; [|by apply (get_bytes_bytes _ _ _ _ G)]. unfold double_array_code. destruct (_ <? _); repeat constructor; apply u8_is_byte.
  - destruct (ob_custom _ _ _ _ _ (so_object _ _ _ _ S o Ho) Ht ser) as [Hin _]; [by rewrite Ef|]. rewrite Ef in Hin. destruct (identifier_finds _ _ Hin Es) as [_ Hid].
    constructor; [by vm_compute|]. apply Forall_app_2; [eapply Forall_impl; [exact Hid|unfold is_byte; cbn; lia]|]. constructor; [done|]. by eapply serialize_bytes.
Qed.
Lemma enc_bytes : (forall seen w bs seen', enc h code objs outs seen w bs seen' -> Forall is_byte bs) /\ (forall seen vs bs seen', encs h code objs outs seen vs bs seen' -> Forall is_byte bs).
Proof.
  apply enc_encs_ind; try done.
  - intros seen w _. unfold int_bytes. repeat destruct (_ && _); [| | |destruct (_ || _)]; repeat constructor; apply u8_is_byte.
  - intros seen w _ _. constructor; [by vm_compute|]. apply Forall_app_2; [apply be_bytes_byte|done].
  - intros seen w _. unfold atom_bytes. destruct (_ <? _); repeat constructor; apply u8_is_byte.
  - intros seen w o bs seen' _ _ _ _ IH. constructor; [by vm_compute|]. apply Forall_app_2; [apply be_bytes_byte|done].
  - intros seen w k _ _. unfold shared_bytes. repeat destruct (_ <? _); repeat constructor; apply u8_is_byte.
  - intros seen w bs Ho _. by apply leaf_bytes.
  - intros seen w bs seen' _ _ _ _ IH. apply Forall_app_2; [|done]. unfold header_bytes. destruct (_ && _); [|destruct (_ <=? _)]; repeat constructor; apply u8_is_byte.
  - intros seen w ws bs bs' seen' seen'' _ IH _ IH'. by apply Forall_app_2.
Qed.
Lemma output_bytes out : output_of h objs outs code v out -> Forall is_byte out.
Proof.
  intros (bs & seen & n32 & He & _ & _ & -> & _). apply Forall_app_2; [|by eapply (proj1 enc_bytes)]. unfold intext_header. repeat apply Forall_app_2; apply be_bytes_byte.
Qed.

(** Output in a string. *)
Variables flags fl : Z.
Hypothesis F : caml_convert_flag_list h flags extern_flags = Ok fl.
Hypothesis sharing : Z.land fl NO_SHARING = 0.

Lemma to_string_ok M : strings h M ->
  match caml_output_value_to_string code h v flags with
  | (Ok str, h') => exists data, M !! str = None /\ strings h' (<[str := data]> M) /\ output_of h objs outs code v data
  | (Err e, h') => h' = h /\ (failure h objs outs code fl false e \/ e = no_memory)
  | (Timeout, _) => False
  end.
Proof.
  intros T. unfold caml_output_value_to_string. change (init_extern_output (xstart h 0)) with (xstart h SIZE_EXTERN_OUTPUT_BLOCK).
  pose proof (extern_value_ok table h objs outs S code v flags fl V F sharing false SIZE_EXTERN_OUTPUT_BLOCK ltac:(unfold SIZE_EXTERN_OUTPUT_BLOCK; lia)) as [Hh Hr].
  destruct (extern_value code false v flags (xstart h SIZE_EXTERN_OUTPUT_BLOCK)) as [[n|e|] s] eqn:Ex; cbn [bind] in *; [|by auto|done]. cbn in Hh, Hr. rewrite Hh. destruct Hr as (-> & Ho & _).
  set (data := extern_bytes s) in *. assert (0 <= blen data < 2 ^ 32) as Hl by (destruct Ho as (? & ? & ? & _ & _ & _ & _ & ? & _); unfold blen in *; lia).
  pose proof (alloc_string_ok h M (blen data) T ltac:(unfold Max_wosize; lia)) as A. destruct (caml_alloc_string h (blen data)) as [[h1 str]|e|]; cbn [bind]; [|by auto|done].
  destruct A as (bs & Hbs & Hnew & T1). assert (slen data = slen bs) as Hsl by (rewrite Hbs; done).
  destruct (strings_write h1 _ str bs 0 data T1) as (h2 & E2 & T2); [by rewrite lookup_insert_eq|lia|lia|by apply output_bytes|]. rewrite Z.add_0_r in E2. rewrite E2. cbn [bind].
  exists data. split_and!; [done| |done]. rewrite insert_insert_eq in T2. replace (splice bs (Z.to_nat 0) data) with data in T2; [done|].
  unfold splice, slen in *. cbn [take app Z.to_nat]. rewrite drop_ge by lia. by rewrite app_nil_r.
Qed.
End Strings.


(** The block of the example of CamlMarshal, in a heap with the allocator of
    CamlStrSpec and no string yet. *)
Section Example.
#[local] Existing Instance bump_alloc.
#[local] Existing Instance bump_laws.
#[local] Existing Instance tiny_marshal.
#[local] Existing Instance tiny_laws.

Lemma no_strings : strings tiny ∅.
Proof. intros s bs Hs. by rewrite lookup_empty in Hs. Qed.

Lemma string_made : match caml_output_value_to_string no_code tiny 4104 1 with (Ok _, g) => caml_atom_table g =? caml_atom_table tiny | _ => false end = true.
Proof. vm_compute. reflexivity. Qed.

Example string_copy : match caml_output_value_to_string no_code tiny 4104 1 with
  | (Ok str, g) => str = 16 /\ (caml_input_value_from_string no_code tiny_table g str (Val_long 0)).1 = Ok 64
  | _ => False
  end.
Proof. vm_compute. done. Qed.
End Example.
